(* ===== verification/_CoqProject ===== *)
-Q . S2P
Prelude.v
Bytes.v
Metadata.v
Net.v
F64.v
Json.v
ErrorModel.v
Errors.v
ArrowType.v
ArrowTypeProps.v
DataExample.v
ShmAllocator.v
Ipc.v
IpcProps.v
IpcWriter.v
Arrow.v
IpcWriterProps.v
IpcStream.v
Crypto.v
External.v
ExternalProps.v
Cidr.v
ShmBatch.v
ShmBatchProps.v
ProxyProtocol.v
Base64.v
Grants.v
GrantsProps.v
Auth.v
Sticky.v
StickyProps.v
Proof.v
ProofProps.v
ProofExample.v
StreamTokens.v
StreamTokensProps.v
TokensExample.v
Dispatch.v
DispatchProps.v
WireExample.v
TokenIdentity.v
TokenIdentityProps.v
Envelope.v
EnvelopeProps.v
ExternalExample.v
Stream.v
Serve.v
ServeProps.v
ServeStream.v
ServeConn.v
Intermediary.v
ServeSafety.v
Client.v
ClientProps.v
SessionProps.v
ServeExample.v
PeerIdentity.v
PeerIdentityProps.v
ProxyIdentity.v
ProxyIdentityProps.v
Tailscale.v
TailscaleProps.v
IdentityExample.v
HttpBase.v
HttpBaseProps.v
HttpAuth.v
HttpAuthProps.v
Http.v
HttpProps.v
HttpTurns.v
HttpStreams.v
HttpContracts.v
HttpSite.v
HttpSiteProps.v
HttpRoutes.v
HttpExample.v
ClientHttp.v
ClientHttpProps.v
HttpCall.v
HttpCallExample.v
