(* ===== verification/Prelude.v ===== *)
(** * vgi-rpc (Rust): a verification development

    vgi-rpc is an RPC framework whose messages are Apache Arrow IPC streams. A worker
    reads a request (one record batch with metadata) from a pipe, socket, HTTP body
    or shared memory, routes it by protocol and method, runs a handler and writes
    one or more batches back. Around that core it authenticates callers, seals
    tokens that let HTTP requests continue a stream or a session, hands large batches
    over through shared memory or external storage, and has a blocking client on
    byte streams and one on HTTP. Paths below are under [src/], in [vgi-rpc/src/]
    unless they name another crate.

    ** Parts and files

    Values and text.
    - [Prelude]: results with panics as a third outcome ([res]: [Ok], [Err],
      [Panic]), machine integers, lists indexed by [Z], tactics and hints. [Bytes]:
      bytes, UTF-8, the string operations of the standard library. [Metadata]
      ([metadata.rs]): the keys. [F64]: double-precision clocks. [Net]: addresses and
      their text. [Json]: JSON values, with the text as a class.
    - [ErrorModel], [Errors] ([error_model.rs], [errors.rs]): codes, typed details,
      the error value. An error message keeps its constant text up to the first
      interpolated value.
    - [ArrowType], [ArrowTypeProps] ([arrow_type.rs]): Rust values as columns.

    The wire ([wire.rs], [shm.rs]).
    - [Ipc], [IpcProps]: framing over a transport that splits, interrupts and fails as
      it likes; the metadata repair, buffer validation, [StreamReader].
    - [IpcWriter], [IpcWriterProps]: chunked writes over a sink that takes part of a
      write or fails, metadata repacking, the direct path for one large binary,
      [StreamWriter]. [IpcStream]: a stream as the list of its items, which every later
      file states its bodies with. [Arrow]: schemas, columns and batches.
    - [ShmAllocator]: the mapped segment as bytes and the allocator whose table lives in
      its header. [ShmBatch], [ShmBatchProps]: batches in a slot, named by a pointer
      batch, resolved and released.
    - [ProxyProtocol] ([proxy_protocol.rs]): the PROXY v2 preamble.

    Tokens and callers.
    - [Crypto], [Base64] ([crypto.rs]), [Grants], [GrantsProps] ([grants.rs]),
      [Sticky], [StickyProps] ([sticky.rs]), [StreamTokens], [StreamTokensProps]
      ([http.rs]): sealed envelopes and what is sealed in them; the session registry
      and the call-state cache.
    - [Auth] ([auth/mod.rs], [auth/bearer.rs]), [Proof], [ProofProps] ([auth/proof.rs]),
      [TokenIdentity], [TokenIdentityProps] ([token_identity.rs],
      [auth/identity_bearer.rs]): callbacks, proxy proofs with their replay cache, the
      identity protocol. A callback threads a state of its own.
    - [PeerIdentity], [PeerIdentityProps] ([auth/identity.rs]): evidence about the peer
      and the policies over it. [ProxyIdentity], [ProxyIdentityProps] ([auth/iroh.rs],
      [auth/spiffe_proxy.rs], [auth/spiffe_x509.rs]): what an adjacent proxy forwards.
      [Tailscale], [TailscaleProps] ([auth/tailscale.rs]): the Serve headers, the
      LocalAPI and its HTTP/1 reader.

    Serving on a byte stream ([server.rs], [binding.rs], [stream.rs], [log.rs]).
    - [Dispatch], [DispatchProps]: protocol names, construction, the version gate,
      routing. [Envelope], [EnvelopeProps]: log and error batches, written and read.
      [External], [ExternalProps], [Cidr] ([external.rs]): external locations and the
      address filter of the fetcher. [Stream]: the collector and the turns.
    - [Serve]: reading a request, unary calls, streams in lockstep, the handshake, the
      serve loops, in a monad over the worker's [World]. [ServeProps] (one response),
      [ServeStream] (lockstep), [ServeConn] (a connection), [ServeSafety] (arbitrary
      bytes).
    - [Intermediary] ([intermediary.rs]): a proxy that reads, re-frames, refuses and
      unwraps bodies it holds whole.
    - [Client], [ClientProps], [SessionProps] ([vgi-rpc-client/src/client.rs]): unary
      calls and stream sessions, and both sides together.

    HTTP ([http.rs]).
    - [HttpBase], [HttpBaseProps]: headers, codings, budgets. [HttpAuth],
      [HttpAuthProps]: who is calling. [Http], [HttpProps], [HttpTurns],
      [HttpStreams]: the handlers of calls and stream turns. [HttpContracts]
      ([auth/oauth.rs], upload URLs), [HttpSite], [HttpSiteProps], [HttpRoutes]: the
      builder, the headers of an answer, the middleware, the pages, the routes.
    - [ClientHttp], [ClientHttpProps] ([vgi-rpc-client/src/http.rs],
      [http_executor.rs], [retry.rs]): the client over an executor. [HttpCall]: both
      sides together.

    Instances and runs: [DataExample], [WireExample], [ProofExample], [TokensExample],
    [ExternalExample], [ServeExample], [IdentityExample], [HttpExample],
    [HttpCallExample].

    The operations keep their source names; a method whose name another type shares
    carries its type in front ([registry_open], [sink_open]) or stands in a Module
    ([Spiffe], [Iroh]). A [&mut self] is a state argument and result; handlers,
    callbacks, hooks and storage act on states of their own. Clocks, random bytes and
    environment variables are arguments. Integer arithmetic that the source does not
    guard is checked: overflow is [Panic], and so is a failed debug assertion, as in a
    debug build (a server id over 255 bytes in [seal_session_token]). A result the source
    discards with [let _] is dropped in the model too, and so are the two flushes of
    [server.rs] of that kind.

    ** Third-party code

    Code outside the repository is a type class: [ArrowIpc], [ArrowIpcWriter],
    [ArrowArrays], [ArrowShm], [ArrowValues], [ArrowSchemas] (arrow and flatbuffers),
    [Chrono], [Aead] and [Hmac], [Base64], [Zstd] and [ContentCodecs], [Json] and
    [JsonText], [UrlLib], [UrlNav] and [OriginLib], [X509], [HttpLib], [BoundedBody]
    and [AxumRouter]; the worker's or caller's own code is one too ([StreamState],
    [HttpStreamState], [ExternalStorage], [Fetcher], [HttpExecutor], [Env]). What a
    theorem relies on is a class of laws beside it (the [...Laws] classes); the example
    files give instances, so that every law is satisfiable, and run the code on them.

    ** What is shown

    - Wire: the reader returns on every input, without a panic, within its size limits;
      [drain] leaves it exactly at the next request; what the writer completes the
      reader returns. For any header a peer may have written, allocation stays inside
      the segment and off every entry, or refuses; a live region keeps its bytes; a
      batch sent through the segment resolves to itself and releases its slot once.
    - Serving: a connection answers its requests in order, with the handler's logs and
      result or error; serving ends on every input, and without shared memory and external
      storage its only panic is a long protocol name cut inside a character; which
      requests reach a handler. The client's unary calls and sessions against that server
      return what its handlers gave, after the log callback was told their logs.
    - Storage: an externalized batch resolves to itself; a hostile one is bounded.
    - Tokens: envelopes, grants, session, cursor and call tokens open for whom they
      were sealed, in their lifetime, and for nobody else, over any interleaving of
      requests (step relations in [StickyProps] and [StreamTokensProps]).
    - Callers: no credential is downgraded; identity credentials cannot mint; policies
      and digests are exact; the principal of a forwarded identity is the subject a
      configured proxy vouched for; the daemon's answer is read as it was sent.
    - HTTP: a unary call serves what the pipe's dispatcher serves; a turn resumes the
      state its cursor was minted over, on any worker; no successful answer exceeds the
      budget; every answer of the middleware advertises what the site enforces; a call through client and
      site returns the handler's result, whatever codings they pick; a client body never
      exceeds its limits; resume tokens resume anywhere.
    - Defects, as theorems about the code as it is: an escaped quote in an XFCC subject
      names a workload; a refused streaming call is answered twice; a client of a server
      that answers 413 exhausts its stack; attaching to a segment smaller than its header
      and a long non-ASCII protocol name panic; the replay cache forgets a nonce too early
      and spins with capacity zero; over-long grants are issued and refused; a forwarded
      request names no protocol.

    ** Bounds and fuel

    Loops that consume a list recurse on it. A loop over a reader takes the events and
    bytes left in it as fuel ([reader_size], [stream_reads]); every turn consumes one,
    and [reader_total], [serving_ends], [scan_ends] and [answer_read_ends] show that it is
    never exhausted. The metadata repair takes the length of the message; [write_all]
    the bytes left plus the sink's script; TLV and word parsing the length of the text;
    decimal printing the binary logarithm. [http_tick] of
    the HTTP client follows tokens for as many turns as its caller grants it, since a
    server may send turns without data for ever. [post] calls itself on a 413: its fuel is the stack,
    and [refused_without_end] shows that no amount is enough. A loop that can spin is
    [None] ([Proof.evict]).

    ** Not modelled

    Sockets, process supervision, TLS and the peer-to-peer bindings (operating-system
    and library I/O); opening shared memory; the connect and timeout code of the
    LocalAPI (the [Daemon] of the model is a function); certificate and JWT parsing,
    PKCE and mutual TLS, which are layers over third-party libraries and remote
    services; the layers of [tower_http] and the router's matching; the HTTP client's
    reqwest and Iroh back ends and the delays between its retries; reflection and the
    protocol hash (walks over arrow's types); object stores; telemetry; the macros,
    which generate code; the typed state codec of [stream_codec.rs]; test programs. *)

From Stdlib Require Export ZArith Lia.
From Stdlib Require Export Strings.Byte.
From stdpp Require Export base tactics list gmap strings sets numbers option.

#[global] Open Scope Z_scope.

(** ** Results: the three outcomes of a Rust function

    [Ok] and [Err] are the constructors of [Result]; [Panic] is the unwinding
    of a failed slice index, [unwrap], [expect] or overflow check. *)
Inductive res (E A : Type) : Type :=
| Ok (a : A)
| Err (e : E)
| Panic.
Arguments Ok {E A} _.
Arguments Err {E A} _.
Arguments Panic {E A}.

#[global] Instance res_ret {E} : MRet (res E) := fun A a => Ok a.
#[global] Instance res_bind {E} : MBind (res E) := fun A B f m =>
  match m with Ok a => f a | Err e => Err e | Panic => Panic end.
#[global] Instance res_fmap {E} : FMap (res E) := fun A B f m =>
  match m with Ok a => Ok (f a) | Err e => Err e | Panic => Panic end.

(** [o.ok_or(e)?] *)
Definition ok_or {E A} (e : E) (o : option A) : res E A :=
  match o with Some a => Ok a | None => Err e end.

(** [o.unwrap()] / a slice index: absence panics. *)
Definition or_panic {E A} (o : option A) : res E A :=
  match o with Some a => Ok a | None => Panic end.

(** [r.map_err(f)] *)
Definition map_err {E F A} (f : E → F) (r : res E A) : res F A :=
  match r with Ok a => Ok a | Err e => Err (f e) | Panic => Panic end.

(** [r.is_ok()] as a test on the model. *)
Definition is_ok {E A} (r : res E A) : bool :=
  match r with Ok _ => true | _ => false end.

Definition no_panic {E A} (r : res E A) : Prop := r ≠ Panic.

(** [for x in xs { acc = f(acc, x)?; }] *)
Fixpoint try_fold {E A B} (f : A → B → res E A) (a : A) (l : list B) : res E A :=
  match l with
  | [] => Ok a
  | x :: l => a' ← f a x; try_fold f a' l
  end.

Section Results.
Context {E A B : Type}.
Implicit Types (m : res E A) (f : A → res E B).

Lemma bind_Ok m f b : m ≫= f = Ok b ↔ ∃ a, m = Ok a ∧ f a = Ok b.
Proof. destruct m; naive_solver. Qed.

Lemma bind_Err m f e : m ≫= f = Err e ↔ m = Err e ∨ ∃ a, m = Ok a ∧ f a = Err e.
Proof. destruct m; naive_solver. Qed.

Lemma bind_Panic m f : m ≫= f = Panic ↔ m = Panic ∨ ∃ a, m = Ok a ∧ f a = Panic.
Proof. destruct m; naive_solver. Qed.

Lemma bind_no_panic m f :
  no_panic m → (∀ a, m = Ok a → no_panic (f a)) → no_panic (m ≫= f).
Proof. destruct m; unfold no_panic; naive_solver. Qed.

Lemma ok_or_Ok (e : E) (o : option A) a : ok_or e o = Ok a ↔ o = Some a.
Proof. destruct o; naive_solver. Qed.

Lemma ok_or_Err (e e' : E) (o : option A) : ok_or e o = Err e' ↔ o = None ∧ e' = e.
Proof. destruct o; naive_solver. Qed.

Lemma or_panic_Ok (o : option A) a : or_panic (E:=E) o = Ok a ↔ o = Some a.
Proof. destruct o; naive_solver. Qed.

Lemma ok_or_no_panic (e : E) (o : option A) : no_panic (ok_or e o).
Proof. by destruct o. Qed.
End Results.

Create HintDb vgi.
Lemma mapM_no_panic {E A B} (f : A → res E B) l : (∀ x, no_panic (f x)) → no_panic (mapM f l).
Proof.
  intros Hf. induction l as [|x l IH]; [done|]. simpl.
  apply bind_no_panic; [done|]. intros y _. by apply bind_no_panic.
Qed.

#[export] Hint Resolve bind_no_panic ok_or_no_panic : vgi.

(** Peel the [?]s off a hypothesis that a monadic computation returned. *)
Ltac inv_res :=
  repeat match goal with
  | H : Ok _ = Ok _ |- _ => injection H as H; try subst
  | H : Err _ = Err _ |- _ => injection H as H; try subst
  | H : Ok _ = Err _ |- _ => discriminate H
  | H : Err _ = Ok _ |- _ => discriminate H
  | H : Panic = Ok _ |- _ => discriminate H
  | H : Ok _ = Panic |- _ => discriminate H
  | H : Panic = Err _ |- _ => discriminate H
  | H : Err _ = Panic |- _ => discriminate H
  | H : (_ ≫= _) = Ok _ |- _ => apply bind_Ok in H as (? & ? & H)
  | H : ok_or _ _ = Ok _ |- _ => apply ok_or_Ok in H
  | H : or_panic _ = Ok _ |- _ => apply or_panic_Ok in H
  end.

(** ** The first element that passes a test *)
Lemma find_split {A} (f : A → bool) l x :
  List.find f l = Some x ↔ ∃ pre post, l = pre ++ x :: post ∧ f x = true ∧ ∀ y, y ∈ pre → f y = false.
Proof.
  induction l as [|z l IH]; simpl.
  { split; [done|]. intros ([|? ?] & ? & ? & _); done. }
  destruct (f z) eqn:Ez.
  - split.
    + intros [= <-]. exists [], l. split_and!; set_solver.
    + intros ([|y pre] & post & E & Hx & Hp); injection E as -> ->; [done|]. rewrite Hp in Ez by set_solver. done.
  - rewrite IH. split.
    + intros (pre & post & -> & Hx & Hp). exists (z :: pre), post. split_and!; [done..|]. set_solver.
    + intros ([|y pre] & post & E & Hx & Hp); injection E as -> ->; [congruence|]. exists pre, post. set_solver.
Qed.

Lemma find_app {A} (f : A → bool) l k :
  List.find f (l ++ k) = match List.find f l with Some x => Some x | None => List.find f k end.
Proof. induction l as [|x l IH]; [done|]. simpl. by destruct (f x). Qed.

(** ** Machine integers

    [usize] is 64 bits wide: the targets the repository builds for. *)
Definition u8_max : Z := 2 ^ 8 - 1.
Definition u16_max : Z := 2 ^ 16 - 1.
Definition u32_max : Z := 2 ^ 32 - 1.
Definition u64_max : Z := 2 ^ 64 - 1.
Definition usize_max : Z := u64_max.
Definition i64_max : Z := 2 ^ 63 - 1.
Definition i64_min : Z := - 2 ^ 63.

Definition in_u64 (z : Z) : Prop := 0 ≤ z ≤ u64_max.
Definition in_i64 (z : Z) : Prop := i64_min ≤ z ≤ i64_max.

(** [u64::checked_add] (and [usize::checked_add]). *)
Definition checked_add (a b : Z) : option Z :=
  if a + b <=? u64_max then Some (a + b) else None.

(** [u64::saturating_add] *)
Definition saturating_add (a b : Z) : Z := Z.min (a + b) u64_max.

(** [u64::saturating_sub] *)
Definition saturating_sub (a b : Z) : Z := Z.max (a - b) 0.

(** [u64::saturating_mul] *)
Definition saturating_mul (a b : Z) : Z := Z.min (a * b) u64_max.

(** Plain unsigned [a - b]: an overflow check fails when [b > a]. *)
Definition usub {E} (a b : Z) : res E Z := if b <=? a then Ok (a - b) else Panic.

(** Plain unsigned [a + b] at 64 bits. *)
Definition uadd {E} (a b : Z) : res E Z := if a + b <=? u64_max then Ok (a + b) else Panic.

(** Plain signed 64-bit arithmetic with overflow checks. *)
Definition i64_check {E} (z : Z) : res E Z :=
  if (i64_min <=? z) && (z <=? i64_max) then Ok z else Panic.

(** [i64::saturating_sub], [i64::saturating_mul] *)
Definition i64_saturate (z : Z) : Z := Z.max i64_min (Z.min z i64_max).

Ltac ints := unfold in_u64, in_i64, usize_max, u64_max, u32_max, u16_max, u8_max,
               i64_max, i64_min in *.

Lemma checked_add_Some a b c : checked_add a b = Some c ↔ c = a + b ∧ a + b ≤ u64_max.
Proof. unfold checked_add. destruct (Z.leb_spec (a + b) u64_max); naive_solver lia. Qed.

Lemma usub_Ok {E} a b c : usub (E:=E) a b = Ok c ↔ c = a - b ∧ b ≤ a.
Proof. unfold usub. destruct (Z.leb_spec b a); naive_solver lia. Qed.

Lemma saturating_add_ge a b : 0 ≤ b → a ≤ u64_max → a ≤ saturating_add a b.
Proof. unfold saturating_add. lia. Qed.

#[export] Hint Resolve saturating_add_ge : vgi.

(** ** Lists indexed by [Z] *)
Definition zlen {A} (l : list A) : Z := Z.of_nat (length l).

Definition ztake {A} (n : Z) (l : list A) : list A := take (Z.to_nat n) l.
Definition zdrop {A} (n : Z) (l : list A) : list A := drop (Z.to_nat n) l.

(** [l[i]], or [None] where the index panics. *)
Definition znth {A} (l : list A) (i : Z) : option A :=
  if 0 <=? i then l !! Z.to_nat i else None.

(** [&l[a..b]], or [None] where the slice panics. *)
Definition slice {A} (l : list A) (a b : Z) : option (list A) :=
  if (0 <=? a) && (a <=? b) && (b <=? zlen l) then Some (ztake (b - a) (zdrop a l)) else None.

Section ZLists.
Context {A : Type}.
Implicit Types l k : list A.

Lemma zlen_nonneg l : 0 ≤ zlen l.
Proof. unfold zlen. lia. Qed.

Lemma zlen_nil : zlen (@nil A) = 0.
Proof. reflexivity. Qed.

Lemma zlen_cons x l : zlen (x :: l) = 1 + zlen l.
Proof. unfold zlen. simpl. lia. Qed.

Lemma zlen_app l k : zlen (l ++ k) = zlen l + zlen k.
Proof. unfold zlen. rewrite length_app. lia. Qed.

Lemma zlen_ztake n l : 0 ≤ n ≤ zlen l → zlen (ztake n l) = n.
Proof. unfold zlen, ztake. rewrite length_take. lia. Qed.

Lemma zlen_zdrop n l : 0 ≤ n ≤ zlen l → zlen (zdrop n l) = zlen l - n.
Proof. unfold zlen, zdrop. rewrite length_drop. lia. Qed.

Lemma zlen_0 l : zlen l = 0 → l = [].
Proof. destruct l; [done|]. rewrite zlen_cons. pose proof (zlen_nonneg l). lia. Qed.

Lemma zlen_eq l k : zlen l = zlen k ↔ length l = length k.
Proof. unfold zlen. lia. Qed.

Lemma ztake_app_eq n l k : n = zlen l → ztake n (l ++ k) = l.
Proof. intros ->. unfold ztake, zlen. rewrite Nat2Z.id. apply take_app_length. Qed.

Lemma zdrop_app_eq n l k : n = zlen l → zdrop n (l ++ k) = k.
Proof. intros ->. unfold zdrop, zlen. rewrite Nat2Z.id. apply drop_app_length. Qed.

Lemma ztake_all n l : zlen l ≤ n → ztake n l = l.
Proof. unfold ztake, zlen. intros. apply take_ge. lia. Qed.

Lemma zdrop_0 l : zdrop 0 l = l.
Proof. reflexivity. Qed.

Lemma ztake_zdrop n l : ztake n l ++ zdrop n l = l.
Proof. apply take_drop. Qed.

Lemma zdrop_zdrop n m l : 0 ≤ n → 0 ≤ m → zdrop n (zdrop m l) = zdrop (m + n) l.
Proof. unfold zdrop. intros. rewrite drop_drop. f_equal. lia. Qed.

Lemma slice_Some l a b k :
  slice l a b = Some k ↔ 0 ≤ a ≤ b ∧ b ≤ zlen l ∧ k = ztake (b - a) (zdrop a l).
Proof.
  unfold slice. destruct (Z.leb_spec 0 a), (Z.leb_spec a b), (Z.leb_spec b (zlen l));
    simpl; naive_solver lia.
Qed.

Lemma slice_ok l a b :
  0 ≤ a ≤ b → b ≤ zlen l → slice l a b = Some (ztake (b - a) (zdrop a l)).
Proof. intros. by apply slice_Some. Qed.

(** The middle of a concatenation, by its bounds. *)
Lemma slice_app l k m a b :
  a = zlen l → b = zlen l + zlen k → slice (l ++ k ++ m) a b = Some k.
Proof.
  intros -> ->. pose proof (zlen_nonneg l). pose proof (zlen_nonneg k).
  rewrite slice_ok by (rewrite ?zlen_app; pose proof (zlen_nonneg m); lia).
  rewrite zdrop_app_eq by done. rewrite ztake_app_eq by lia. done.
Qed.

Lemma slice_app_0 l m b : b = zlen l → slice (l ++ m) 0 b = Some l.
Proof. intros ->. by apply (slice_app []). Qed.

Lemma zlen_slice l a b k : slice l a b = Some k → zlen k = b - a.
Proof.
  intros (Ha & Hb & ->)%slice_Some. rewrite zlen_ztake; [lia|].
  rewrite zlen_zdrop; lia.
Qed.

Lemma znth_app_r l k i : zlen l ≤ i → znth (l ++ k) i = znth k (i - zlen l).
Proof.
  unfold znth, zlen. intros.
  destruct (Z.leb_spec 0 i), (Z.leb_spec 0 (i - Z.of_nat (length l))); try lia.
  rewrite lookup_app_r by lia. f_equal. lia.
Qed.

Lemma znth_Some l i : 0 ≤ i < zlen l → ∃ x, znth l i = Some x.
Proof.
  unfold znth, zlen. intros. destruct (Z.leb_spec 0 i); [|lia].
  apply lookup_lt_is_Some. lia.
Qed.
End ZLists.

Create Rewrite HintDb zlen.
#[export] Hint Rewrite @zlen_nil @zlen_cons @zlen_app : zlen.

(** Normalise lengths and finish by linear arithmetic. *)
Ltac zlen_solve := autorewrite with zlen in *; lia.
