(* ===== verification/Bytes.v ===== *)
(** * Bytes, text and integer codecs

    What the sources use of the language and its standard library: [u8] as
    [Byte.byte], [&[u8]] / [Vec<u8>] / [String] as [list byte] (a Rust string is
    its UTF-8 bytes, and [len()] counts bytes), [to_le_bytes] / [from_le_bytes]
    and their big-endian counterparts, UTF-8 validation, decimal and
    hexadecimal text, [str::split], [str::trim], [strip_prefix] and
    [contains]. *)

From S2P Require Import Prelude.

#[global] Instance byte_eq_dec : EqDecision byte := Byte.byte_eq_dec.

#[global] Program Instance byte_countable : Countable byte :=
  {| encode b := encode (Byte.to_N b); decode p := n ← decode p; Byte.of_N n |}.
Next Obligation. intros b. simpl. rewrite decode_encode. simpl. apply Byte.of_to_N. Qed.

(** A string literal as the bytes of the Rust literal. *)
Definition bs (s : string) : list byte := String.list_byte_of_string s.
Arguments bs s%_string.

(** Two different string constants. *)
Ltac key_ne := match goal with |- ?P => refine (bool_decide_unpack P _); vm_compute; exact I end.

(** ** [u8] as an integer *)
Definition b2z (b : byte) : Z := Z.of_N (Byte.to_N b).

(** [z as u8]: truncation. *)
Definition z2b (z : Z) : byte := default x00 (Byte.of_N (Z.to_N (z mod 256))).

Lemma b2z_range b : 0 ≤ b2z b < 256.
Proof. unfold b2z. pose proof (Byte.to_N_bounded b). lia. Qed.

Lemma b2z_z2b z : b2z (z2b z) = z mod 256.
Proof.
  unfold b2z, z2b. pose proof (Z.mod_pos_bound z 256 ltac:(lia)) as Hr.
  destruct (Byte.of_N (Z.to_N (z mod 256))) as [b|] eqn:E; simpl.
  - apply Byte.to_of_N in E. rewrite E. lia.
  - apply Byte.of_N_None_iff in E. lia.
Qed.

Lemma b2z_inj a b : b2z a = b2z b → a = b.
Proof.
  unfold b2z. intros H%N2Z.inj. pose proof (Byte.of_to_N a). pose proof (Byte.of_to_N b).
  congruence.
Qed.

Lemma z2b_b2z b : z2b (b2z b) = b.
Proof.
  apply b2z_inj. rewrite b2z_z2b. apply Z.mod_small, b2z_range.
Qed.

(** ** Little- and big-endian integers *)

(** [z.to_le_bytes()] at a width of [n] bytes; a negative [z] is laid out in
    two's complement, as for [i64]. *)
Fixpoint le_bytes (n : nat) (z : Z) : list byte :=
  match n with
  | O => []
  | S n => z2b z :: le_bytes n (z / 256)
  end.

(** [uN::from_le_bytes] *)
Fixpoint le_val (l : list byte) : Z :=
  match l with
  | [] => 0
  | b :: l => b2z b + 256 * le_val l
  end.

(** [u16::from_be_bytes] *)
Definition be_val (l : list byte) : Z := le_val (rev l).
Definition be_bytes (n : nat) (z : Z) : list byte := rev (le_bytes n z).

(** [i64::from_le_bytes] *)
Definition le_val_i64 (l : list byte) : Z :=
  let u := le_val l in if u <=? i64_max then u else u - 2 ^ 64.

Section Endian.
Lemma length_le_bytes n z : length (le_bytes n z) = n.
Proof. revert z. induction n; intros; simpl; auto. Qed.

Lemma zlen_le_bytes n z : zlen (le_bytes n z) = Z.of_nat n.
Proof. unfold zlen. by rewrite length_le_bytes. Qed.

Lemma le_val_range l : 0 ≤ le_val l < 2 ^ (8 * zlen l).
Proof.
  induction l as [|b l IH]; [simpl; unfold zlen; simpl; lia|].
  rewrite zlen_cons. simpl. pose proof (b2z_range b).
  replace (8 * (1 + zlen l)) with (8 + 8 * zlen l) by lia.
  rewrite Z.pow_add_r by (pose proof (zlen_nonneg l); lia).
  change (2 ^ 8) with 256. lia.
Qed.

Lemma le_val_bytes n z : le_val (le_bytes n z) = z mod 2 ^ (8 * Z.of_nat n).
Proof.
  revert z. induction n as [|n IH]; intros z.
  - simpl. by rewrite Z.mod_1_r.
  - cbn [le_bytes le_val]. rewrite IH, b2z_z2b, Nat2Z.inj_succ.
    replace (8 * Z.succ (Z.of_nat n)) with (8 + 8 * Z.of_nat n) by lia.
    rewrite Z.pow_add_r by lia. change (2 ^ 8) with 256.
    rewrite Z.rem_mul_r by lia. lia.
Qed.

Lemma le_val_bytes_small n z :
  0 ≤ z < 2 ^ (8 * Z.of_nat n) → le_val (le_bytes n z) = z.
Proof. intros. rewrite le_val_bytes. by apply Z.mod_small. Qed.

Lemma le_bytes_val l : le_bytes (length l) (le_val l) = l.
Proof.
  induction l as [|b l IH]; [done|]. cbn [length le_bytes le_val]. pose proof (b2z_range b).
  f_equal.
  - apply b2z_inj. rewrite b2z_z2b, Z.mul_comm, Z_mod_plus_full.
    apply Z.mod_small. lia.
  - rewrite Z.mul_comm, Z.div_add, Z.div_small by lia. apply IH.
Qed.

Lemma le_val_inj l k : length l = length k → le_val l = le_val k → l = k.
Proof. intros Hl Hv. rewrite <- (le_bytes_val l), <- (le_bytes_val k). congruence. Qed.

Lemma le_val_i64_bytes z : in_i64 z → le_val_i64 (le_bytes 8 z) = z.
Proof.
  ints. intros Hz. unfold le_val_i64. rewrite le_val_bytes.
  change (8 * Z.of_nat 8) with 64. ints.
  destruct (Z.leb_spec 0 z).
  - rewrite Z.mod_small by lia. destruct (Z.leb_spec z (2 ^ 63 - 1)); lia.
  - rewrite <- (Z_mod_plus_full z 1). rewrite Z.mod_small by lia.
    destruct (Z.leb_spec (z + 1 * 2 ^ 64) (2 ^ 63 - 1)); lia.
Qed.

Lemma le_val_i64_range l : length l = 8%nat → in_i64 (le_val_i64 l).
Proof.
  intros Hl. pose proof (le_val_range l) as H. unfold zlen in H. rewrite Hl in H.
  change (8 * Z.of_nat 8) with 64 in H. unfold le_val_i64. ints.
  destruct (Z.leb_spec (le_val l) (2 ^ 63 - 1)); lia.
Qed.
End Endian.

#[export] Hint Rewrite zlen_le_bytes : zlen.

(** ** UTF-8: [String::from_utf8(..).is_ok()] *)
Definition in_range (b : byte) (lo hi : Z) : bool := (lo <=? b2z b) && (b2z b <=? hi).
Definition utf8_cont (b : byte) : bool := in_range b 0x80 0xBF.

(** Second byte of a three-byte sequence (no surrogates, no overlong form). *)
Definition utf8_second3 (b0 b1 : byte) : bool :=
  if b2z b0 =? 0xE0 then in_range b1 0xA0 0xBF
  else if b2z b0 =? 0xED then in_range b1 0x80 0x9F
  else in_range b0 0xE1 0xEF && utf8_cont b1.

(** Second byte of a four-byte sequence (at most U+10FFFF). *)
Definition utf8_second4 (b0 b1 : byte) : bool :=
  if b2z b0 =? 0xF0 then in_range b1 0x90 0xBF
  else if b2z b0 =? 0xF4 then in_range b1 0x80 0x8F
  else in_range b0 0xF1 0xF3 && utf8_cont b1.

Fixpoint utf8_valid (l : list byte) : bool :=
  match l with
  | [] => true
  | b0 :: t =>
    if b2z b0 <? 0x80 then utf8_valid t else
    match t with
    | [] => false
    | b1 :: t1 =>
      if in_range b0 0xC2 0xDF then utf8_cont b1 && utf8_valid t1 else
      match t1 with
      | [] => false
      | b2 :: t2 =>
        if in_range b0 0xE0 0xEF then utf8_second3 b0 b1 && utf8_cont b2 && utf8_valid t2 else
        match t2 with
        | [] => false
        | b3 :: t3 =>
          in_range b0 0xF0 0xF4 && utf8_second4 b0 b1 && utf8_cont b2 && utf8_cont b3
          && utf8_valid t3
        end
      end
    end
  end.

(** [String::from_utf8] *)
Definition from_utf8 (l : list byte) : option (list byte) :=
  if utf8_valid l then Some l else None.

(** [String::from_utf8_lossy]: every maximal invalid prefix becomes U+FFFD. *)
Definition replacement : list byte := [xef; xbf; xbd].

Fixpoint from_utf8_lossy (l : list byte) : list byte :=
  match l with
  | [] => []
  | b0 :: t =>
    if b2z b0 <? 0x80 then b0 :: from_utf8_lossy t else
    match t with
    | [] => replacement
    | b1 :: t1 =>
      if in_range b0 0xC2 0xDF then
        if utf8_cont b1 then b0 :: b1 :: from_utf8_lossy t1 else replacement ++ from_utf8_lossy t
      else if in_range b0 0xE0 0xEF then
        if utf8_second3 b0 b1 then
          match t1 with
          | [] => replacement
          | b2 :: t2 => if utf8_cont b2 then b0 :: b1 :: b2 :: from_utf8_lossy t2
                        else replacement ++ from_utf8_lossy t1
          end
        else replacement ++ from_utf8_lossy t
      else if in_range b0 0xF0 0xF4 then
        if utf8_second4 b0 b1 then
          match t1 with
          | [] => replacement
          | b2 :: t2 =>
            if utf8_cont b2 then
              match t2 with
              | [] => replacement
              | b3 :: t3 => if utf8_cont b3 then b0 :: b1 :: b2 :: b3 :: from_utf8_lossy t3
                            else replacement ++ from_utf8_lossy t2
              end
            else replacement ++ from_utf8_lossy t1
          end
        else replacement ++ from_utf8_lossy t
      else replacement ++ from_utf8_lossy t
    end
  end.

Lemma from_utf8_lossy_valid l : utf8_valid l = true → from_utf8_lossy l = l.
Proof.
  induction l as [l IH] using (induction_ltof1 _ (@length byte)); unfold ltof in IH.
  destruct l as [|b0 t]; [done|]. simpl. case_match; [intros Hv; f_equal; apply IH; [simpl; lia|done]|].
  destruct t as [|b1 t1]; [done|]. case_match.
  { intros [-> Hv]%andb_true_iff. do 2 f_equal. apply IH; [simpl; lia|done]. }
  destruct t1 as [|b2 t2]; [done|]. case_match.
  { intros [[-> ->]%andb_true_iff Hv]%andb_true_iff. do 3 f_equal. apply IH; [simpl; lia|done]. }
  destruct t2 as [|b3 t3]; [done|].
  intros [[[[-> ->]%andb_true_iff ->]%andb_true_iff ->]%andb_true_iff Hv]%andb_true_iff.
  do 4 f_equal. apply IH; [simpl; lia|done].
Qed.

Lemma utf8_valid_ascii l : Forall (fun b => b2z b < 0x80) l → utf8_valid l = true.
Proof.
  induction 1 as [|b l Hb _ IH]; [done|]. simpl. destruct (Z.ltb_spec (b2z b) 128); [done|lia].
Qed.

Lemma utf8_valid_app l k : utf8_valid l = true → utf8_valid k = true → utf8_valid (l ++ k) = true.
Proof.
  intros Hl Hk. remember (length l) as n eqn:En. assert (length l ≤ n)%nat as Hn by lia. clear En.
  revert l Hl Hn. induction n as [|n IH]; intros [|b0 t0] Hl Hn; try done; [simpl in Hn; lia|].
  simpl in Hn. revert Hl. simpl. case_match; [intros Hv; apply IH; [done|lia]|].
  destruct t0 as [|b1 t1]; [done|]. simpl. case_match.
  { intros [-> Hv]%andb_true_iff. simpl in *. apply IH; [done|lia]. }
  destruct t1 as [|b2 t2]; [done|]. simpl. case_match.
  { intros [[-> ->]%andb_true_iff Hv]%andb_true_iff. simpl in *. apply IH; [done|lia]. }
  destruct t2 as [|b3 t3]; [done|]. simpl.
  intros [[[[-> ->]%andb_true_iff ->]%andb_true_iff ->]%andb_true_iff Hv]%andb_true_iff. simpl in *.
  apply IH; [done|lia].
Qed.

(** ** Character classes *)
Definition is_ascii_digit (b : byte) : bool := in_range b 48 57.
Definition is_ascii_alphanumeric (b : byte) : bool :=
  in_range b 48 57 || in_range b 65 90 || in_range b 97 122.

(** [lower-case hexadecimal digit], as [{:x}] prints it. *)
Definition hex_digit (n : Z) : byte := if n <? 10 then z2b (48 + n) else z2b (87 + n).

(** [char::to_digit(16)] *)
Definition hex_value (b : byte) : option Z :=
  if in_range b 48 57 then Some (b2z b - 48)
  else if in_range b 97 102 then Some (b2z b - 87)
  else if in_range b 65 70 then Some (b2z b - 55)
  else None.

(** [format!("{b:02x}")] *)
Definition hex_byte (b : byte) : list byte :=
  [hex_digit (b2z b / 16); hex_digit (b2z b mod 16)].

Definition bytes_to_hex (b : list byte) : list byte := concat (hex_byte <$> b).

(** ** Decimal text *)
Fixpoint dec_digits (fuel : nat) (n : Z) (acc : list byte) : list byte :=
  match fuel with
  | O => acc
  | S fuel =>
    let acc := z2b (48 + n mod 10) :: acc in
    if n <? 10 then acc else dec_digits fuel (n / 10) acc
  end.

(** [n.to_string()] for an unsigned [n]; [log2 n + 1] bounds its digits. *)
Definition dec_unsigned (n : Z) : list byte := dec_digits (Z.to_nat (Z.log2 n + 1)) n [].

(** [z.to_string()] for a signed [z]. *)
Definition dec_signed (z : Z) : list byte :=
  if z <? 0 then x2d :: dec_unsigned (- z) else dec_unsigned z.

Definition dec_value (b : byte) : option Z :=
  if is_ascii_digit b then Some (b2z b - 48) else None.

(** Digits to a value, most significant first, in an arbitrary radix. *)
Fixpoint radix_value (radix : Z) (digit : byte → option Z) (acc : Z) (l : list byte) : option Z :=
  match l with
  | [] => Some acc
  | b :: l => d ← digit b; radix_value radix digit (acc * radix + d) l
  end.

(** [s.parse::<uN>()]: one optional [+], at least one digit, no overflow. *)
Definition parse_unsigned (max : Z) (l : list byte) : option Z :=
  let digits := match l with x2b :: t => t | _ => l end in
  match digits with
  | [] => None
  | _ => v ← radix_value 10 dec_value 0 digits; if v <=? max then Some v else None
  end.

(** [s.parse::<i64>()] *)
Definition parse_i64 (l : list byte) : option Z :=
  match l with
  | x2d :: t =>
    match t with
    | [] => None
    | _ => v ← radix_value 10 dec_value 0 t; if i64_min <=? - v then Some (- v) else None
    end
  | _ => parse_unsigned i64_max l
  end.

(** [u8::from_str_radix(s, 16)] *)
Definition parse_u8_hex (l : list byte) : option Z :=
  let digits := match l with x2b :: t => t | _ => l end in
  match digits with
  | [] => None
  | _ => v ← radix_value 16 hex_value 0 digits; if v <=? u8_max then Some v else None
  end.

(** ** Strings *)

(** [s.split(c)] for an ASCII separator. *)
Fixpoint split_on (c : byte) (l : list byte) : list (list byte) :=
  match l with
  | [] => [[]]
  | b :: l =>
    if decide (b = c) then [] :: split_on c l
    else match split_on c l with
         | [] => [[b]]
         | p :: ps => (b :: p) :: ps
         end
  end.

(** Join with a separator: the inverse of [split_on]. *)
Fixpoint join_with (c : byte) (ps : list (list byte)) : list byte :=
  match ps with
  | [] => []
  | [p] => p
  | p :: ps => p ++ c :: join_with c ps
  end.

(** [s.strip_prefix(p)] *)
Fixpoint strip_prefix (p l : list byte) : option (list byte) :=
  match p, l with
  | [], _ => Some l
  | _, [] => None
  | a :: p, b :: l => if decide (a = b) then strip_prefix p l else None
  end.

(** [s.contains(needle)] *)
Fixpoint contains (needle l : list byte) : bool :=
  match strip_prefix needle l with
  | Some _ => true
  | None => match l with [] => false | _ :: l => contains needle l end
  end.

(** The UTF-8 encodings of the characters [char::is_whitespace] accepts. *)
Definition whitespace : list (list byte) :=
  [[x09]; [x0a]; [x0b]; [x0c]; [x0d]; [x20]; [xc2; x85]; [xc2; xa0]; [xe1; x9a; x80];
   [xe2; x80; x80]; [xe2; x80; x81]; [xe2; x80; x82]; [xe2; x80; x83]; [xe2; x80; x84];
   [xe2; x80; x85]; [xe2; x80; x86]; [xe2; x80; x87]; [xe2; x80; x88]; [xe2; x80; x89];
   [xe2; x80; x8a]; [xe2; x80; xa8]; [xe2; x80; xa9]; [xe2; x80; xaf]; [xe2; x81; x9f];
   [xe3; x80; x80]].

Definition strip_one_of (ws : list (list byte)) (l : list byte) : option (list byte) :=
  foldr (fun w o => match strip_prefix w l with Some r => Some r | None => o end) None ws.

Fixpoint trim_with (ws : list (list byte)) (fuel : nat) (l : list byte) : list byte :=
  match fuel with
  | O => l
  | S fuel => match strip_one_of ws l with Some r => trim_with ws fuel r | None => l end
  end.

(** [s.trim()]: each step removes at least one byte, so the length bounds it. *)
Definition trim_start (l : list byte) : list byte := trim_with whitespace (length l) l.
Definition trim_end (l : list byte) : list byte :=
  rev (trim_with (map (@rev byte) whitespace) (length l) (rev l)).
Definition trim (l : list byte) : list byte := trim_end (trim_start l).

(** [s.is_char_boundary(i)], and [&s[a..b]], which panics off a boundary. *)
Definition is_char_boundary (l : list byte) (i : Z) : bool :=
  (i =? 0) || (i =? zlen l) || match znth l i with Some b => negb (utf8_cont b) | None => false end.

Definition str_slice (l : list byte) (a b : Z) : option (list byte) :=
  if is_char_boundary l a && is_char_boundary l b then slice l a b else None.

(** [a.eq_ignore_ascii_case(b)] *)
Definition to_ascii_lowercase (b : byte) : byte :=
  if in_range b 65 90 then z2b (b2z b + 32) else b.
Definition eq_ignore_ascii_case (a b : list byte) : bool :=
  bool_decide (to_ascii_lowercase <$> a = to_ascii_lowercase <$> b).

(** [s.split_once(c)] for an ASCII separator. *)
Fixpoint split_once (c : byte) (l : list byte) : option (list byte * list byte) :=
  match l with
  | [] => None
  | b :: l => if decide (b = c) then Some ([], l)
              else '(p, q) ← split_once c l; Some (b :: p, q)
  end.

(** ** Lemmas on text *)
Section Text.
Implicit Types l p r : list byte.

Lemma strip_prefix_Some p l r : strip_prefix p l = Some r ↔ l = p ++ r.
Proof.
  revert l. induction p as [|a p IH]; intros [|b l]; simpl; try naive_solver.
  case_decide; subst; rewrite ?IH; naive_solver.
Qed.

Lemma strip_prefix_app p l : strip_prefix p (p ++ l) = Some l.
Proof. by apply strip_prefix_Some. Qed.

Lemma split_on_plain c p : c ∉ p → split_on c p = [p].
Proof.
  induction p as [|b p IH]; [done|]. intros Hn. apply not_elem_of_cons in Hn as [Hb Hp].
  simpl. rewrite decide_False by congruence. by rewrite IH.
Qed.

Lemma split_on_app c p l : c ∉ p → split_on c (p ++ c :: l) = p :: split_on c l.
Proof.
  induction p as [|b p IH]; intros Hn; simpl.
  - by rewrite decide_True.
  - apply not_elem_of_cons in Hn as [Hb Hp]. rewrite decide_False by congruence. by rewrite IH.
Qed.

Lemma split_on_nonempty c l : split_on c l ≠ [].
Proof. destruct l as [|b l]; simpl; [done|]. case_decide; [done|]. by destruct (split_on c l). Qed.

Lemma split_on_join c l : join_with c (split_on c l) = l.
Proof.
  induction l as [|b l IH]; [done|]. simpl. pose proof (split_on_nonempty c l).
  case_decide; subst; destruct (split_on c l) as [|p [|q ps]]; simpl in *; try done; congruence.
Qed.

Lemma split_on_free c l : Forall (fun p => c ∉ p) (split_on c l).
Proof.
  induction l as [|b l IH]; simpl; [apply Forall_singleton, not_elem_of_nil|].
  case_decide as Hb; [constructor; [apply not_elem_of_nil|done]|].
  destruct (split_on c l) as [|p ps]; [apply Forall_singleton; set_solver|].
  apply Forall_cons_1 in IH as [Hp Hps]. constructor; [set_solver|done].
Qed.

Lemma dec_digit_value n : 0 ≤ n < 10 → dec_value (z2b (48 + n)) = Some n.
Proof.
  intros. unfold dec_value, is_ascii_digit, in_range. rewrite b2z_z2b, Z.mod_small by lia.
  destruct (Z.leb_spec 48 (48 + n)), (Z.leb_spec (48 + n) 57); simpl; try lia. f_equal. lia.
Qed.

Lemma radix_value_dec_digits fuel n acc :
  0 ≤ n < 10 ^ Z.of_nat fuel →
  radix_value 10 dec_value 0 (dec_digits fuel n acc) = radix_value 10 dec_value n acc.
Proof.
  revert n acc. induction fuel as [|fuel IH]; intros n acc Hn.
  - simpl in *. by replace n with 0 by lia.
  - cbn [dec_digits]. rewrite Nat2Z.inj_succ, Z.pow_succ_r in Hn by lia.
    pose proof (Z.mod_pos_bound n 10 ltac:(lia)). pose proof (Z.div_mod n 10 ltac:(lia)).
    destruct (Z.ltb_spec n 10).
    + cbn [radix_value]. rewrite dec_digit_value by lia. simpl.
      by rewrite Z.mod_small by lia.
    + rewrite IH by lia. cbn [radix_value]. rewrite dec_digit_value by lia. simpl.
      f_equal. lia.
Qed.

Lemma dec_digits_cons fuel n acc :
  fuel ≠ O → ∃ d t, dec_digits fuel n acc = z2b (48 + d) :: t ∧ 0 ≤ d < 10.
Proof.
  revert n acc. induction fuel as [|fuel IH]; intros n acc Hf; [done|].
  cbn [dec_digits]. pose proof (Z.mod_pos_bound n 10 ltac:(lia)).
  destruct (Z.ltb_spec n 10); [eauto|]. destruct fuel; [simpl; eauto|]. apply IH. done.
Qed.

Lemma dec_unsigned_cons n :
  0 ≤ n → ∃ d t, dec_unsigned n = z2b (48 + d) :: t ∧ 0 ≤ d < 10.
Proof. intros. apply dec_digits_cons. pose proof (Z.log2_nonneg n). lia. Qed.

Lemma radix_value_dec n : 0 ≤ n → radix_value 10 dec_value 0 (dec_unsigned n) = Some n.
Proof.
  intros Hn. unfold dec_unsigned. rewrite radix_value_dec_digits; [done|].
  pose proof (Z.log2_nonneg n). rewrite Z2Nat.id by lia. split; [done|].
  destruct (decide (n = 0)) as [->|]; [done|].
  eapply Z.lt_le_trans; [apply Z.log2_spec; lia|].
  rewrite Z.add_1_r. apply Z.pow_le_mono_l. lia.
Qed.

Lemma z2b_plus d : 0 ≤ d < 10 → z2b (48 + d) ≠ x2b ∧ z2b (48 + d) ≠ x2d.
Proof.
  intros Hd. split; intros E; apply (f_equal b2z) in E; rewrite b2z_z2b, Z.mod_small in E by lia;
    cbn in E; lia.
Qed.

(** [s.parse()] undoes [n.to_string()]. *)
Lemma parse_dec_unsigned max n : 0 ≤ n ≤ max → parse_unsigned max (dec_unsigned n) = Some n.
Proof.
  intros Hn. pose proof (radix_value_dec n ltac:(lia)) as Hv.
  destruct (dec_unsigned_cons n) as (d & t & E & Hd); [lia|].
  unfold parse_unsigned. destruct (z2b_plus d Hd) as [Hp _].
  rewrite E in *.
  assert ((match z2b (48 + d) :: t with x2b :: t' => t' | _ => z2b (48 + d) :: t end)
          = z2b (48 + d) :: t) as -> by (destruct (z2b (48 + d)); congruence).
  rewrite Hv. simpl. destruct (Z.leb_spec n max); [done|lia].
Qed.

Lemma parse_dec_i64 n : 0 ≤ n ≤ i64_max → parse_i64 (dec_unsigned n) = Some n.
Proof.
  intros Hn. rewrite <- (parse_dec_unsigned i64_max n Hn).
  destruct (dec_unsigned_cons n) as (d & t & E & Hd); [lia|]. rewrite E.
  destruct (z2b_plus d Hd) as [_ Hm]. unfold parse_i64. destruct (z2b (48 + d)); congruence.
Qed.

Lemma dec_unsigned_digits n : 0 ≤ n → Forall (fun b => is_ascii_digit b = true) (dec_unsigned n).
Proof.
  intros _. unfold dec_unsigned. generalize (Z.to_nat (Z.log2 n + 1)).
  assert (∀ fuel m acc, Forall (fun b => is_ascii_digit b = true) acc →
            Forall (fun b => is_ascii_digit b = true) (dec_digits fuel m acc)) as H.
  { induction fuel as [|fuel IH]; intros m acc Hacc; simpl; [done|].
    pose proof (Z.mod_pos_bound m 10 ltac:(lia)).
    assert (is_ascii_digit (z2b (48 + m mod 10)) = true).
    { pose proof (dec_digit_value (m mod 10) ltac:(lia)) as E. unfold dec_value in E.
      by destruct (is_ascii_digit _). }
    case_match; [by constructor|]. apply IH. by constructor. }
  intros. apply H. constructor.
Qed.

Lemma dec_digits_length fuel n acc (k : Z) :
  0 ≤ n < 10 ^ k → 1 ≤ k → zlen (dec_digits fuel n acc) ≤ k + zlen acc.
Proof.
  revert n acc k. induction fuel as [|fuel IH]; intros n acc k Hn Hk; [simpl; lia|].
  cbn [dec_digits]. destruct (Z.ltb_spec n 10); [zlen_solve|].
  destruct (decide (k = 1)) as [->|]; [lia|].
  replace k with (Z.succ (k - 1)) in Hn by lia. rewrite Z.pow_succ_r in Hn by lia.
  pose proof (Z.div_mod n 10 ltac:(lia)). pose proof (Z.mod_pos_bound n 10 ltac:(lia)).
  specialize (IH (n / 10) (z2b (48 + n mod 10) :: acc) (k - 1) ltac:(lia) ltac:(lia)).
  zlen_solve.
Qed.

Lemma parse_u8_hex_byte b : parse_u8_hex (hex_byte b) = Some (b2z b).
Proof. destruct b; vm_compute; reflexivity. Qed.

Lemma zlen_hex_byte b : zlen (hex_byte b) = 2.
Proof. reflexivity. Qed.

(** Printable ASCII text has nothing to trim. *)
Definition graphic (b : byte) : bool := in_range b 33 126.

Lemma strip_one_of_None ws b l :
  Forall (fun w => ∃ c t, w = c :: t ∧ graphic c = false) ws → graphic b = true →
  strip_one_of ws (b :: l) = None.
Proof.
  intros Hws Hb. unfold strip_one_of. induction Hws as [|w ws (c & t & -> & Hc) _ IH]; [done|].
  simpl. rewrite IH. case_decide as E; [congruence|done].
Qed.

Lemma trim_with_graphic ws fuel b l :
  Forall (fun w => ∃ c t, w = c :: t ∧ graphic c = false) ws → graphic b = true →
  trim_with ws fuel (b :: l) = b :: l.
Proof. intros. destruct fuel; simpl; [done|]. by rewrite strip_one_of_None. Qed.

Lemma trim_graphic l : Forall (fun b => graphic b = true) l → trim l = l.
Proof.
  intros Hl. unfold trim.
  assert (trim_start l = l) as ->.
  { destruct Hl as [|b l Hb Hl]; [done|]. unfold trim_start. apply trim_with_graphic; [|done].
    unfold whitespace. repeat (constructor; [by eexists _, _|]). constructor. }
  unfold trim_end. destruct (rev l) as [|b r] eqn:E.
  - apply (f_equal (@rev byte)) in E. rewrite rev_involutive in E. by subst.
  - rewrite trim_with_graphic.
    + rewrite <- E. apply rev_involutive.
    + unfold whitespace. simpl. repeat (constructor; [by eexists _, _|]). constructor.
    + assert (b ∈ l) as Hb.
      { apply list_elem_of_In, in_rev. rewrite E. by left. }
      rewrite list.Forall_forall in Hl. auto.
Qed.
End Text.

(** Every index of an ASCII string is a character boundary. *)
Lemma str_slice_ascii l a b :
  Forall (fun c => b2z c < 0x80) l → str_slice l a b = slice l a b.
Proof.
  intros Hl. assert (∀ i, 0 ≤ i ≤ zlen l → is_char_boundary l i = true) as Hb.
  { intros i Hi. unfold is_char_boundary. destruct (Z.eqb_spec i 0); [done|].
    destruct (Z.eqb_spec i (zlen l)); [done|]. cbn [orb].
    destruct (znth_Some l i) as [c Hc]; [lia|]. rewrite Hc.
    unfold znth in Hc. destruct (Z.leb_spec 0 i); [|done].
    apply list.Forall_lookup_1 with (1:=Hl) in Hc. unfold utf8_cont, in_range.
    destruct (Z.leb_spec 128 (b2z c)); [lia|done]. }
  unfold str_slice. destruct (slice l a b) as [k|] eqn:E.
  - pose proof E as (Ha & Hbl & _)%slice_Some. by rewrite !Hb by lia.
  - by destruct (_ && _).
Qed.

Lemma split_once_app c p q : c ∉ p → split_once c (p ++ c :: q) = Some (p, q).
Proof.
  induction p as [|b p IH]; intros Hp; cbn [split_once app].
  - by rewrite decide_True.
  - apply not_elem_of_cons in Hp as [Hn Hp]. rewrite decide_False by congruence. by rewrite IH.
Qed.

(** NUL-separated fields. *)
Lemma nul_split (p p' q q' : list byte) :
  x00 ∉ p → x00 ∉ p' → p ++ x00 :: q = p' ++ x00 :: q' → p = p' ∧ q = q'.
Proof.
  intros Hp Hp' E. apply (f_equal (split_once x00)) in E. rewrite !split_once_app in E by done.
  by injection E.
Qed.

(** ** Hexadecimal text *)
Lemma hex_byte_ascii b : Forall (fun c => b2z c < 0x80) (hex_byte b).
Proof. destruct b; vm_compute; repeat constructor. Qed.

Lemma bytes_to_hex_ascii l : Forall (fun c => b2z c < 0x80) (bytes_to_hex l).
Proof.
  unfold bytes_to_hex. induction l as [|b l IH]; [constructor|].
  rewrite fmap_cons. cbn [concat]. apply Forall_app. split; [apply hex_byte_ascii|done].
Qed.

Lemma bytes_to_hex_app l k : bytes_to_hex (l ++ k) = bytes_to_hex l ++ bytes_to_hex k.
Proof. unfold bytes_to_hex. by rewrite fmap_app, concat_app. Qed.

Lemma zlen_bytes_to_hex l : zlen (bytes_to_hex l) = 2 * zlen l.
Proof.
  induction l as [|b l IH]; [done|]. change (bytes_to_hex (b :: l)) with (hex_byte b ++ bytes_to_hex l).
  rewrite zlen_app, zlen_hex_byte, IH, zlen_cons. lia.
Qed.

Lemma bytes_to_hex_inj l k : bytes_to_hex l = bytes_to_hex k → l = k.
Proof.
  revert k. induction l as [|b l IH]; intros [|b' k] E; [done| | |].
  - apply (f_equal zlen) in E. rewrite !zlen_bytes_to_hex, zlen_cons, (@zlen_nil byte) in E. pose proof (zlen_nonneg k). lia.
  - apply (f_equal zlen) in E. rewrite !zlen_bytes_to_hex, zlen_cons, (@zlen_nil byte) in E. pose proof (zlen_nonneg l). lia.
  - change (hex_byte b ++ bytes_to_hex l = hex_byte b' ++ bytes_to_hex k) in E.
    apply app_inj_1 in E as [Eb E]; [|apply zlen_eq; by rewrite !zlen_hex_byte].
    f_equal; [|by apply IH]. apply b2z_inj. apply (f_equal parse_u8_hex) in Eb.
    rewrite !parse_u8_hex_byte in Eb. by injection Eb.
Qed.

(** [str::replace]: every occurrence from the left, without overlap; an empty
    pattern matches at every character boundary. *)
Fixpoint replace_loop (skip : nat) (pat rep l : list byte) : list byte :=
  match l with
  | [] => []
  | b :: t =>
    match skip with
    | S k => replace_loop k pat rep t
    | O => match strip_prefix pat l with
           | Some _ => rep ++ replace_loop (length pat - 1) pat rep t
           | None => b :: replace_loop O pat rep t
           end
    end
  end.

Definition str_replace (pat rep l : list byte) : list byte :=
  match pat with
  | [] => concat ((fun b => if utf8_cont b then [b] else rep ++ [b]) <$> l) ++ rep
  | _ => replace_loop O pat rep l
  end.

(** [str::starts_with], [str::ends_with] *)
Definition starts_with (p l : list byte) : bool := bool_decide (is_Some (strip_prefix p l)).
Definition ends_with (p l : list byte) : bool := starts_with (rev p) (rev l).
