(* ===== verification/Metadata.v ===== *)
(** * Wire metadata keys

    [vgi-rpc/src/metadata.rs]: the custom-metadata keys of the protocol. *)

From S2P Require Import Prelude Bytes.

Definition RPC_METHOD_KEY : list byte := bs "vgi_rpc.method".
Definition PROTOCOL_KEY : list byte := bs "vgi_rpc.protocol".
Definition REQUEST_VERSION_KEY : list byte := bs "vgi_rpc.request_version".
Definition REQUEST_VERSION : list byte := bs "1".
Definition REQUEST_ID_KEY : list byte := bs "vgi_rpc.request_id".
Definition ERROR_KIND_KEY : list byte := bs "vgi_rpc.error_kind".
Definition ERROR_CODE_KEY : list byte := bs "vgi_rpc.error_code".
Definition ERROR_DETAILS_KEY : list byte := bs "vgi_rpc.error_details".
Definition LOG_LEVEL_KEY : list byte := bs "vgi_rpc.log_level".
Definition LOG_MESSAGE_KEY : list byte := bs "vgi_rpc.log_message".
Definition LOG_EXTRA_KEY : list byte := bs "vgi_rpc.log_extra".
Definition SERVER_ID_KEY : list byte := bs "vgi_rpc.server_id".
Definition STATE_KEY : list byte := bs "vgi_rpc.stream_state#b64".
Definition CALL_STATE_KEY : list byte := bs "vgi_rpc.call_state#b64".
Definition CANCEL_KEY : list byte := bs "vgi_rpc.cancel".
Definition LOCATION_KEY : list byte := bs "vgi_rpc.location".
Definition LOCATION_SHA256_KEY : list byte := bs "vgi_rpc.location.sha256".
Definition LOCATION_FETCH_MS_KEY : list byte := bs "vgi_rpc.location.fetch_ms".
Definition LOCATION_SOURCE_KEY : list byte := bs "vgi_rpc.location.source".
Definition PROTOCOL_NAME_KEY : list byte := bs "vgi_rpc.protocol_name".
Definition DESCRIBE_VERSION_KEY : list byte := bs "vgi_rpc.describe_version".
Definition PROTOCOL_HASH_KEY : list byte := bs "vgi_rpc.protocol_hash".
Definition PROTOCOL_VERSION_KEY : list byte := bs "vgi_rpc.protocol_version".
Definition SHM_OFFSET_KEY : list byte := bs "vgi_rpc.shm_offset".
Definition SHM_LENGTH_KEY : list byte := bs "vgi_rpc.shm_length".
Definition SHM_SOURCE_KEY : list byte := bs "vgi_rpc.shm_source".
Definition SHM_SEGMENT_NAME_KEY : list byte := bs "vgi_rpc.shm_segment_name".
Definition SHM_SEGMENT_SIZE_KEY : list byte := bs "vgi_rpc.shm_segment_size".
Definition TRANSPORT_SHM_KEY : list byte := bs "vgi_rpc.transport.shm".
Definition TRACEPARENT_KEY : list byte := bs "traceparent".
Definition TRACESTATE_KEY : list byte := bs "tracestate".

(** Inserting a key under another one, and looking one up past it. *)
Ltac md_simp :=
  repeat first
    [ rewrite lookup_insert_eq | rewrite lookup_delete_eq
    | rewrite lookup_insert_ne by key_ne | rewrite lookup_delete_ne by key_ne ].
