(* ===== verification/Net.v ===== *)
(** * Addresses

    [std::net]: IP addresses by their octets, socket addresses, and the
    classification predicates the source calls on them, and their text form. *)

From S2P Require Import Prelude Bytes.

Inductive IpAddr := V4 (octets : list byte) | V6 (octets : list byte).
Record SocketAddr := mkSocketAddr { ip : IpAddr; port : Z }.

#[global] Instance IpAddr_eq_dec : EqDecision IpAddr.
Proof. solve_decision. Defined.

(** As many octets as the family has. *)
Definition ip_wf (a : IpAddr) : Prop :=
  match a with V4 o => length o = 4%nat | V6 o => length o = 16%nat end.

(** [octets()[i]], [segments()[i]] of a well-formed address. *)
Definition octet (o : list byte) (i : nat) : Z := b2z (default x00 (o !! i)).
Definition segment (o : list byte) (i : nat) : Z := 256 * octet o (2 * i) + octet o (2 * i + 1).

(** [Ipv6Addr::to_ipv4_mapped]: [::ffff:a.b.c.d]. *)
Definition to_ipv4_mapped (o : list byte) : option (list byte) :=
  if decide (ztake 12 o = replicate 10 x00 ++ [xff; xff]) then Some (zdrop 12 o) else None.

Definition v4_is_loopback (o : list byte) : bool := octet o 0 =? 127.
Definition v4_is_private (o : list byte) : bool :=
  (octet o 0 =? 10)
  || (octet o 0 =? 172) && (16 <=? octet o 1) && (octet o 1 <=? 31)
  || (octet o 0 =? 192) && (octet o 1 =? 168).
Definition v4_is_link_local (o : list byte) : bool := (octet o 0 =? 169) && (octet o 1 =? 254).
Definition v4_is_unspecified (o : list byte) : bool := bool_decide (o = replicate 4 x00).
Definition v4_is_broadcast (o : list byte) : bool := bool_decide (o = replicate 4 xff).
Definition v4_is_multicast (o : list byte) : bool := (224 <=? octet o 0) && (octet o 0 <=? 239).
Definition v4_is_documentation (o : list byte) : bool :=
  (octet o 0 =? 192) && (octet o 1 =? 0) && (octet o 2 =? 2)
  || (octet o 0 =? 198) && (octet o 1 =? 51) && (octet o 2 =? 100)
  || (octet o 0 =? 203) && (octet o 1 =? 0) && (octet o 2 =? 113).

Definition v6_is_loopback (o : list byte) : bool := bool_decide (o = replicate 15 x00 ++ [x01]).
Definition v6_is_unspecified (o : list byte) : bool := bool_decide (o = replicate 16 x00).
Definition v6_is_multicast (o : list byte) : bool := octet o 0 =? 255.

(** ** Addresses as text

    [core::net::parser] and the [Display] of addresses. A parser takes the text and
    gives the value with the text behind it; [None] leaves the text where it was, as
    [read_atomically] does. *)
Abbreviation addr_parser A := (list byte → option (A * list byte)).

Definition read_given_char (c : byte) (l : list byte) : option (list byte) :=
  match l with b :: l => if decide (b = c) then Some l else None | [] => None end.

Fixpoint span_digits (digit : byte → option Z) (l : list byte) : list byte * list byte :=
  match l with
  | b :: l' => match digit b with Some _ => let '(ds, r) := span_digits digit l' in (b :: ds, r) | None => ([], l) end
  | [] => ([], [])
  end.

(** [read_number(radix, max_digits, allow_zero_prefix)] at a type of maximum [max]. *)
Definition read_number (radix : Z) (digit : byte → option Z) (max : Z) (max_digits : option nat)
    (allow_zero_prefix : bool) : addr_parser Z := fun l =>
  let '(ds, r) := span_digits digit l in
  if bool_decide (ds = []) then None else
  if match max_digits with Some k => (k <? length ds)%nat | None => false end then None else
  if negb allow_zero_prefix && bool_decide (head ds = Some x30) && (1 <? length ds)%nat then None else
  v ← radix_value radix digit 0 ds;
  if v <=? max then Some (v, r) else None.

Definition read_octet : addr_parser Z := read_number 10 dec_value u8_max (Some 3%nat) false.
Definition read_group : addr_parser Z := read_number 16 hex_value u16_max (Some 4%nat) true.

Definition read_ipv4_addr : addr_parser (list byte) := fun l =>
  '(a, l) ← read_octet l; l ← read_given_char x2e l;
  '(b, l) ← read_octet l; l ← read_given_char x2e l;
  '(c, l) ← read_octet l; l ← read_given_char x2e l;
  '(d, l) ← read_octet l;
  Some (z2b <$> [a; b; c; d], l).

(** [read_separator]: no separator in front of the first item. *)
Definition read_separator {A} (sep : byte) (first : bool) (inner : addr_parser A) : addr_parser A := fun l =>
  l ← (if first then Some l else read_given_char sep l);
  inner l.

(** [read_groups] into [n] slots: the groups read, whether an embedded IPv4 address
    ended them, and the text behind. *)
Fixpoint read_groups (n : nat) (first : bool) (l : list byte) : list Z * bool * list byte :=
  match n with
  | O => ([], false, l)
  | S k =>
    match (if (0 <? k)%nat then read_separator x3a first read_ipv4_addr l else None) with
    | Some (o, l) => ([be_val (take 2 o); be_val (drop 2 o)], true, l)
    | None =>
      match read_separator x3a first read_group l with
      | Some (g, l) => let '(gs, v4, l) := read_groups k false l in (g :: gs, v4, l)
      | None => ([], false, l)
      end
    end
  end.

Definition octets_of (groups : list Z) : list byte := mjoin (be_bytes 2 <$> groups).

Definition read_ipv6_addr : addr_parser (list byte) := fun l =>
  let '(hd, head_ipv4, l) := read_groups 8 true l in
  if bool_decide (length hd = 8%nat) then Some (octets_of hd, l) else
  if head_ipv4 then None else
  l ← read_given_char x3a l;
  l ← read_given_char x3a l;
  let '(tl, _, l) := read_groups (7 - length hd) true l in
  Some (octets_of (hd ++ replicate (8 - length hd - length tl) 0 ++ tl), l).

Definition read_ip_addr : addr_parser IpAddr := fun l =>
  match read_ipv4_addr l with
  | Some (o, l) => Some (V4 o, l)
  | None => '(o, l) ← read_ipv6_addr l; Some (V6 o, l)
  end.

Definition read_port : addr_parser Z := fun l =>
  l ← read_given_char x3a l; read_number 10 dec_value u16_max None true l.

Definition read_scope_id : addr_parser Z := fun l =>
  l ← read_given_char x25 l; read_number 10 dec_value u32_max None true l.

Definition read_socket_addr : addr_parser SocketAddr := fun l =>
  match (
    '(o, r) ← read_ipv4_addr l;
    '(p, r) ← read_port r;
    Some (mkSocketAddr (V4 o) p, r)) with
  | Some x => Some x
  | None =>
    l ← read_given_char x5b l;
    '(o, l) ← read_ipv6_addr l;
    let l := match read_scope_id l with Some (_, l) => l | None => l end in
    l ← read_given_char x5d l;
    '(p, l) ← read_port l;
    Some (mkSocketAddr (V6 o) p, l)
  end.

(** [parse_with]: the whole text. *)
Definition parse_with {A} (p : addr_parser A) (l : list byte) : option A :=
  match p l with Some (a, []) => Some a | _ => None end.

(** [s.parse::<IpAddr>()], [s.parse::<SocketAddr>()] *)
Definition parse_ip : list byte → option IpAddr := parse_with read_ip_addr.
Definition parse_socket_addr : list byte → option SocketAddr := parse_with read_socket_addr.

(** [{:x}] of a [u16]. *)
Fixpoint skip_zeros (l : list Z) : list Z :=
  match l with d :: (_ :: _) as l' => if d =? 0 then skip_zeros l' else l | l => l end.
Definition hex_u16 (n : Z) : list byte :=
  hex_digit <$> skip_zeros [n / 4096 mod 16; n / 256 mod 16; n / 16 mod 16; n mod 16].

Definition dotted (o : list byte) : list byte := join_with x2e (dec_unsigned ∘ b2z <$> o).

(** The longest run of zero groups, the first of them: its start and length. *)
Fixpoint zero_run (i : nat) (current longest : nat * nat) (groups : list Z) : nat * nat :=
  match groups with
  | [] => longest
  | g :: groups =>
    if g =? 0 then
      let current := (if bool_decide (current.2 = 0%nat) then i else current.1, S current.2) in
      zero_run (S i) current (if (longest.2 <? current.2)%nat then current else longest) groups
    else zero_run (S i) (0, 0)%nat longest groups
  end.

Definition ipv6_to_string (o : list byte) : list byte :=
  match to_ipv4_mapped o with
  | Some v4 => bs "::ffff:" ++ dotted v4
  | None =>
    let groups := segment o <$> seq 0 8 in
    let text := fun gs => join_with x3a (hex_u16 <$> gs) in
    let '(start, len) := zero_run 0 (0, 0)%nat (0, 0)%nat groups in
    if (1 <? len)%nat then text (take start groups) ++ bs "::" ++ text (drop (start + len) groups)
    else text groups
  end.

(** [address.to_string()] *)
Definition ip_to_string (a : IpAddr) : list byte :=
  match a with V4 o => dotted o | V6 o => ipv6_to_string o end.
