(* ===== verification/F64.v ===== *)
(** * Double-precision clock arithmetic

    The finite [f64] values are the integer multiples of [2^-1074] with at most 53
    significant bits: a value is its multiple, and arithmetic is exact integer
    arithmetic followed by rounding to nearest, ties to even. Seconds since the
    epoch and their sums stay far below the exponent limit, so infinities and NaN
    are left out. *)

From S2P Require Import Prelude.

Abbreviation f64 := Z (only parsing).

(** Round to nearest at a multiple of [2^k], ties to even. *)
Definition round_at (k n : Z) : Z :=
  let q := n / 2 ^ k in
  let r := n mod 2 ^ k in
  let up := if 2 * r <? 2 ^ k then false else if 2 ^ k <? 2 * r then true else Z.odd q in
  (if up then q + 1 else q) * 2 ^ k.

(** Keep 53 significant bits. *)
Definition f64_round (n : Z) : f64 :=
  if Z.abs n <? 2 ^ 53 then n else round_at (Z.log2 (Z.abs n) - 52) n.

(** [z as f64] for an integer, and [a + b], [a > b], [a >= b] *)
Definition f64_of_i64 (z : Z) : f64 := f64_round (z * 2 ^ 1074).
Definition f64_add (a b : f64) : f64 := f64_round (a + b).
Definition f64_gtb (a b : f64) : bool := b <? a.
Definition f64_geb (a b : f64) : bool := b <=? a.

(** [x as i64]: truncation, saturating. *)
Definition f64_to_i64 (x : f64) : Z := i64_saturate (Z.quot x (2 ^ 1074)).

Lemma f64_round_exact m j : Z.abs m < 2 ^ 53 → 0 ≤ j → f64_round (m * 2 ^ j) = m * 2 ^ j.
Proof.
  intros Hm Hj. unfold f64_round. destruct (Z.ltb_spec (Z.abs (m * 2 ^ j)) (2 ^ 53)); [done|].
  assert (0 < 2 ^ j) by (by apply Z.pow_pos_nonneg).
  assert (m ≠ 0) as Hm0 by (intros ->; simpl in *; lia).
  set (k := Z.log2 (Z.abs (m * 2 ^ j)) - 52).
  assert (0 ≤ k ≤ j) as Hk.
  { unfold k. rewrite Z.abs_mul, (Z.abs_eq (2 ^ j)), Z.log2_mul_pow2 by lia.
    assert (Z.log2 (Z.abs m) ≤ 52) by (apply (Z.log2_lt_pow2 (Z.abs m) 53) in Hm; lia).
    split; [|lia]. rewrite Z.abs_mul, (Z.abs_eq (2 ^ j)) in * by lia.
    assert (53 ≤ Z.log2 (Z.abs m * 2 ^ j)) as Hl by (apply Z.log2_le_pow2; lia).
    rewrite Z.log2_mul_pow2 in Hl by lia. lia. }
  assert (m * 2 ^ j = (m * 2 ^ (j - k)) * 2 ^ k) as E.
  { rewrite <- Z.mul_assoc, <- Z.pow_add_r by lia. do 2 f_equal. lia. }
  assert (0 < 2 ^ k) by (apply Z.pow_pos_nonneg; lia).
  unfold round_at. rewrite E, Z.mod_mul, Z.div_mul by lia.
  destruct (Z.ltb_spec (2 * 0) (2 ^ k)); [done|lia].
Qed.

(** A reading in ticks of [2^-22] seconds: what [as_secs_f64] returns before 2038. *)
Definition f64_ticks (n : Z) : f64 := n * 2 ^ 1052.

Lemma f64_of_i64_ticks z : Z.abs z < 2 ^ 53 → f64_of_i64 z = f64_ticks (z * 2 ^ 22).
Proof.
  intros. unfold f64_of_i64, f64_ticks. rewrite f64_round_exact by done.
  rewrite <- Z.mul_assoc, <- Z.pow_add_r by lia. done.
Qed.

Lemma f64_add_ticks a b : Z.abs (a + b) < 2 ^ 53 → f64_add (f64_ticks a) (f64_ticks b) = f64_ticks (a + b).
Proof.
  intros. unfold f64_add, f64_ticks. rewrite <- Z.mul_add_distr_r. by apply f64_round_exact.
Qed.

Lemma f64_gtb_ticks a b : f64_gtb (f64_ticks a) (f64_ticks b) = (b <? a).
Proof.
  unfold f64_gtb, f64_ticks. assert (0 < 2 ^ 1052) by (by apply Z.pow_pos_nonneg).
  destruct (Z.ltb_spec b a), (Z.ltb_spec (b * 2 ^ 1052) (a * 2 ^ 1052)); try done; nia.
Qed.

Lemma f64_geb_ticks a b : f64_geb (f64_ticks a) (f64_ticks b) = (b <=? a).
Proof.
  unfold f64_geb, f64_ticks. assert (0 < 2 ^ 1052) by (by apply Z.pow_pos_nonneg).
  destruct (Z.leb_spec b a), (Z.leb_spec (b * 2 ^ 1052) (a * 2 ^ 1052)); try done; nia.
Qed.
