(* ===== verification/Json.v ===== *)
(** * JSON values

    [serde_json::Value] as the sources build and inspect it. An object is the
    ordered map of the crate (keys in byte order, one entry per key). The text
    form is the crate's: the class [Json], with its round trip as a law on the
    values the parser accepts back exactly (no floats, whose decimal form may
    parse one unit in the last place off, and no more nesting than the parser's
    recursion limit). *)

From S2P Require Import Prelude Bytes F64.

#[local] Set Warnings "-register-all".

Inductive Value :=
| JNull
| JBool (b : bool)
| JInt (z : Z)
| JFloat (x : f64)
| JString (s : list byte)
| JArray (l : list Value)
| JObject (m : list (list byte * Value)).

Abbreviation Map := (list (list byte * Value)).

Section ValueInd.
Context (P : Value → Prop).
Hypothesis Hnull : P JNull.
Hypothesis Hbool : ∀ b, P (JBool b).
Hypothesis Hint : ∀ z, P (JInt z).
Hypothesis Hfloat : ∀ x, P (JFloat x).
Hypothesis Hstring : ∀ s, P (JString s).
Hypothesis Harray : ∀ l, Forall P l → P (JArray l).
Hypothesis Hobject : ∀ m, Forall (fun kv => P kv.2) m → P (JObject m).

(** Induction through the nested lists. *)
Fixpoint Value_nested_ind (v : Value) : P v :=
  match v with
  | JNull => Hnull
  | JBool b => Hbool b
  | JInt z => Hint z
  | JFloat x => Hfloat x
  | JString s => Hstring s
  | JArray l =>
    Harray l ((fix go l : Forall P l := match l with
      | [] => List.Forall_nil _
      | v :: l => List.Forall_cons _ _ _ (Value_nested_ind v) (go l) end) l)
  | JObject m =>
    Hobject m ((fix go m : Forall (fun kv => P kv.2) m := match m with
      | [] => List.Forall_nil _
      | (k, v) :: m => List.Forall_cons _ (k, v) _ (Value_nested_ind v) (go m) end) m)
  end.
End ValueInd.

#[global] Instance Value_eq_dec : EqDecision Value.
Proof.
  refine (fix go (v w : Value) : Decision (v = w) := let _ : EqDecision Value := @go in
    match v, w with
    | JNull, JNull => left eq_refl
    | JBool a, JBool b => cast_if (decide (a = b))
    | JInt a, JInt b => cast_if (decide (a = b))
    | JFloat a, JFloat b => cast_if (decide (a = b))
    | JString a, JString b => cast_if (decide (a = b))
    | JArray a, JArray b => cast_if (decide (a = b))
    | JObject a, JObject b => cast_if (decide (a = b))
    | _, _ => right _
    end); abstract congruence.
Defined.

(** ** Objects *)

(** Byte order on keys, as [String]'s [Ord]. *)
Fixpoint bytes_ltb (a b : list byte) : bool :=
  match a, b with
  | _, [] => false
  | [], _ :: _ => true
  | x :: a, y :: b => (b2z x <? b2z y) || (b2z x =? b2z y) && bytes_ltb a b
  end.

(** [map.get(k)] *)
Fixpoint jget (k : list byte) (m : Map) : option Value :=
  match m with
  | [] => None
  | (k', v) :: m => if decide (k = k') then Some v else jget k m
  end.

(** [map.insert(k, v)] *)
Fixpoint jinsert (k : list byte) (v : Value) (m : Map) : Map :=
  match m with
  | [] => [(k, v)]
  | (k', v') :: m' =>
    if decide (k = k') then (k, v) :: m'
    else if bytes_ltb k k' then (k, v) :: m
    else (k', v') :: jinsert k v m'
  end.

(** An object built by inserting the pairs in turn, as [json!({..})] does. *)
Definition jobject (kvs : Map) : Map := foldl (fun m kv => jinsert kv.1 kv.2 m) [] kvs.

(** ** Accessors *)
Definition as_object (v : Value) : option Map := match v with JObject m => Some m | _ => None end.
Definition as_str (v : Value) : option (list byte) := match v with JString s => Some s | _ => None end.
Definition is_object (v : Value) : bool := match v with JObject _ => true | _ => false end.

(** [as_f64] *)
Definition as_f64 (v : Value) : option f64 :=
  match v with JInt z => Some (f64_of_i64 z) | JFloat x => Some x | _ => None end.

(** ** Text *)

(** What the parser gives back unchanged: strings are UTF-8, integers fit the
    crate's number, keys are in order, and nesting is within the limit. *)
Fixpoint sorted_keys (m : Map) : bool :=
  match m with
  | (k, _) :: ((k', _) :: _) as m' => bytes_ltb k k' && sorted_keys m'
  | _ => true
  end.

Fixpoint text_safe (depth : nat) (v : Value) {struct v} : bool :=
  match v with
  | JNull | JBool _ => true
  | JInt z => (i64_min <=? z) && (z <=? u64_max)
  | JFloat _ => false
  | JString s => utf8_valid s
  | JArray l => match depth with O => false | S d => forallb (text_safe d) l end
  | JObject m =>
    match depth with
    | O => false
    | S d => sorted_keys m && forallb (fun kv => utf8_valid kv.1 && text_safe d kv.2) m
    end
  end.

Definition JSON_DEPTH : nat := 127.

Class Json := {
  (** [value.to_string()] *)
  json_to_string : Value → list byte;
  (** [serde_json::from_str::<Value>(s).ok()] *)
  json_from_str : list byte → option Value
}.

Class JsonLaws `{Json} : Prop := {
  json_roundtrip v : text_safe JSON_DEPTH v = true → json_from_str (json_to_string v) = Some v;
  (** the text is a [String] *)
  json_utf8 v : text_safe JSON_DEPTH v = true → utf8_valid (json_to_string v) = true
}.

(** ** Lemmas *)
Section Objects.
Implicit Types (k : list byte) (v : Value) (m : Map).

Lemma jget_jinsert k v m : jget k (jinsert k v m) = Some v.
Proof.
  induction m as [|[k' v'] m IH]; simpl; [by rewrite decide_True|].
  case_decide; [simpl; by rewrite decide_True|].
  destruct (bytes_ltb k k'); simpl; [by rewrite decide_True|]. by rewrite decide_False.
Qed.

Lemma jget_jinsert_ne k k' v m : k ≠ k' → jget k (jinsert k' v m) = jget k m.
Proof.
  intros Hne. induction m as [|[k'' v''] m IH]; simpl; [by rewrite decide_False|].
  case_decide; subst; simpl.
  { by rewrite !decide_False. }
  destruct (bytes_ltb k' k''); simpl; [by rewrite decide_False|]. case_decide; [done|apply IH].
Qed.

Lemma bytes_ltb_irrefl k : bytes_ltb k k = false.
Proof.
  induction k as [|b k IH]; [done|]. simpl. rewrite Z.ltb_irrefl, Z.eqb_refl. simpl. done.
Qed.

(** The order is total: of two different keys one comes first. *)
Lemma bytes_ltb_total k k' : k ≠ k' → bytes_ltb k k' = false → bytes_ltb k' k = true.
Proof.
  revert k'. induction k as [|b k IH]; intros [|b' k']; simpl; try done.
  intros Hne. destruct (Z.ltb_spec (b2z b) (b2z b')); [done|]. simpl.
  destruct (Z.eqb_spec (b2z b) (b2z b')) as [E|]; simpl.
  - apply b2z_inj in E as ->. rewrite Z.eqb_refl, Z.ltb_irrefl. simpl. intros. apply IH; [congruence|done].
  - intros _. by destruct (Z.ltb_spec (b2z b') (b2z b)); [|lia].
Qed.

Lemma bytes_ltb_trans a b c : bytes_ltb a b = true → bytes_ltb b c = true → bytes_ltb a c = true.
Proof.
  revert b c. induction a as [|x a IH]; intros [|y b] [|z c]; simpl; try done.
  rewrite !orb_true_iff, !andb_true_iff, !Z.ltb_lt, !Z.eqb_eq.
  intros [?|[? ?]] [?|[? ?]]; try (left; lia). right. split; [lia|]. by eapply IH.
Qed.

Lemma sorted_jinsert k v m : sorted_keys m = true → sorted_keys (jinsert k v m) = true.
Proof.
  induction m as [|[k1 v1] m IH]; [done|]. intros Hs. simpl jinsert.
  case_decide; subst; [done|]. destruct (bytes_ltb k k1) eqn:E1.
  { change (bytes_ltb k k1 && sorted_keys ((k1, v1) :: m) = true). by rewrite E1, Hs. }
  assert (bytes_ltb k1 k = true) as H1k by (by apply bytes_ltb_total).
  destruct m as [|[k2 v2] m]; simpl in *; [by rewrite andb_true_r|].
  apply andb_true_iff in Hs as [H12 Hs]. specialize (IH Hs).
  case_decide; subst; [by rewrite H12|]. destruct (bytes_ltb k k2); simpl in *; [|by rewrite H12].
  by rewrite H1k, IH.
Qed.

Lemma sorted_jobject kvs : sorted_keys (jobject kvs) = true.
Proof.
  unfold jobject. assert (∀ m, sorted_keys m = true → sorted_keys (foldl (fun m kv => jinsert kv.1 kv.2 m) m kvs) = true) as H.
  { induction kvs as [|kv kvs IH]; intros m Hm; [done|]. apply IH. by apply sorted_jinsert. }
  by apply H.
Qed.

(** Inserting under a new least key goes to the front. *)
Lemma jinsert_new_max k v m :
  Forall (fun kv => bytes_ltb kv.1 k = true) m → jinsert k v m = m ++ [(k, v)].
Proof.
  induction 1 as [|[k' v'] m Hk _ IH]; [done|]. simpl in *. rewrite decide_False.
  2: { intros ->. by rewrite bytes_ltb_irrefl in Hk. }
  assert (bytes_ltb k k' = false) as ->; [|by rewrite IH].
  destruct (bytes_ltb k k') eqn:E; [|done]. exfalso. revert Hk E. clear.
  revert k'. induction k as [|b k IH]; intros [|b' k']; simpl; try done.
  destruct (Z.ltb_spec (b2z b') (b2z b)), (Z.ltb_spec (b2z b) (b2z b')); try lia; simpl; try done;
    destruct (Z.eqb_spec (b2z b') (b2z b)), (Z.eqb_spec (b2z b) (b2z b')); try lia; simpl; try done.
  intros. by eapply IH.
Qed.

(** A safe insertion keeps the object safe. *)
Lemma forallb_jinsert (f : list byte * Value → bool) k v m :
  f (k, v) = true → forallb f m = true → forallb f (jinsert k v m) = true.
Proof.
  intros Hkv. induction m as [|[k' v'] m IH]; simpl; [by rewrite Hkv|].
  intros [H1 H2]%andb_true_iff. case_decide; simpl; [by rewrite Hkv|].
  destruct (bytes_ltb k k'); simpl; [by rewrite Hkv, H1|]. by rewrite H1, IH.
Qed.

Lemma forallb_jobject (f : list byte * Value → bool) kvs :
  forallb f kvs = true → forallb f (jobject kvs) = true.
Proof.
  unfold jobject. assert (∀ m, forallb f m = true → forallb f kvs = true →
    forallb f (foldl (fun m kv => jinsert kv.1 kv.2 m) m kvs) = true) as H.
  { induction kvs as [|[k v] kvs IH]; intros m Hm Hk; [done|]. simpl in Hk.
    apply andb_true_iff in Hk as [Hk1 Hk2]. apply IH; [by apply forallb_jinsert|done]. }
  by apply H.
Qed.

Lemma text_safe_mono d d' v : (d ≤ d')%nat → text_safe d v = true → text_safe d' v = true.
Proof.
  revert d d'. induction v as [| | | | |l IH|m IH] using Value_nested_ind; intros d d' Hd; try done.
  - destruct d as [|d]; [by simpl|]. destruct d' as [|d']; [lia|]. simpl. rewrite !forallb_forall.
    intros Hl x Hx. rewrite List.Forall_forall in IH. apply (IH x Hx d); [lia|]. by apply Hl.
  - destruct d as [|d]; [by simpl|]. destruct d' as [|d']; [lia|]. simpl.
    rewrite !andb_true_iff, !forallb_forall. intros [Hs Hl]. split; [done|]. intros x Hx.
    specialize (Hl x Hx). apply andb_true_iff in Hl as [-> Hl]. simpl.
    rewrite List.Forall_forall in IH. apply (IH x Hx d); [lia|done].
Qed.
End Objects.
