(* ===== verification/ErrorModel.v ===== *)
(** * The error model: canonical codes, kinds and typed details

    [vgi-rpc/src/error_model.rs]: the closed set of codes and their wire names, the
    catalog of detail objects with their JSON form, the rules a detail list obeys,
    its encoding under a size cap, and the retry classification. *)

From S2P Require Import Prelude Bytes F64 Json.

Definition MAX_ERROR_DETAILS_BYTES : Z := 4096.
Definition RESERVED_DETAIL_PREFIX : list byte := bs "vgi_rpc.".

(** ** Codes *)
Inductive Code :=
| Cancelled | Unknown | InvalidArgument | DeadlineExceeded | NotFound | AlreadyExists
| PermissionDenied | ResourceExhausted | FailedPrecondition | Aborted | OutOfRange
| Unimplemented | Internal | Unavailable | DataLoss | Unauthenticated.

#[global] Instance Code_eq_dec : EqDecision Code.
Proof. solve_decision. Defined.

Definition ALL : list Code :=
  [Cancelled; Unknown; InvalidArgument; DeadlineExceeded; NotFound; AlreadyExists;
   PermissionDenied; ResourceExhausted; FailedPrecondition; Aborted; OutOfRange;
   Unimplemented; Internal; Unavailable; DataLoss; Unauthenticated].

Definition code_as_str (c : Code) : list byte :=
  match c with
  | Cancelled => bs "CANCELLED"
  | Unknown => bs "UNKNOWN"
  | InvalidArgument => bs "INVALID_ARGUMENT"
  | DeadlineExceeded => bs "DEADLINE_EXCEEDED"
  | NotFound => bs "NOT_FOUND"
  | AlreadyExists => bs "ALREADY_EXISTS"
  | PermissionDenied => bs "PERMISSION_DENIED"
  | ResourceExhausted => bs "RESOURCE_EXHAUSTED"
  | FailedPrecondition => bs "FAILED_PRECONDITION"
  | Aborted => bs "ABORTED"
  | OutOfRange => bs "OUT_OF_RANGE"
  | Unimplemented => bs "UNIMPLEMENTED"
  | Internal => bs "INTERNAL"
  | Unavailable => bs "UNAVAILABLE"
  | DataLoss => bs "DATA_LOSS"
  | Unauthenticated => bs "UNAUTHENTICATED"
  end.

Definition from_name (name : list byte) : option Code :=
  List.find (fun c => bool_decide (code_as_str c = name)) ALL.

Definition code_parse (name : list byte) : Code := default Unknown (from_name name).

Lemma from_name_as_str c : from_name (code_as_str c) = Some c.
Proof. by destruct c. Qed.

Lemma from_name_Some name c : from_name name = Some c → name = code_as_str c.
Proof. intros [_ H]%List.find_some. by apply bool_decide_eq_true in H. Qed.

(** ** The detail catalog *)
Record FieldViolation := mkFieldViolation { fv_field : list byte; fv_description : list byte }.
Record PreconditionViolation := mkPreconditionViolation {
  pv_type : list byte; pv_subject : list byte; pv_description : list byte }.
Record QuotaViolation := mkQuotaViolation { qv_subject : list byte; qv_description : list byte }.
Record HelpLink := mkHelpLink { hl_description : list byte; hl_url : list byte }.

(** A delay is [None] where the [f64] is an infinity or not a number. The metadata
    of [ErrorInfo] is a [BTreeMap]: its pairs in key order. *)
Inductive ErrorDetail :=
| ErrorInfo (metadata : list (list byte * list byte))
| RetryInfo (retry_delay_seconds : option f64)
| BadRequest (field_violations : list FieldViolation)
| PreconditionFailure (violations : list PreconditionViolation)
| QuotaFailure (violations : list QuotaViolation)
| ResourceInfo (resource_type resource_name owner description : list byte)
| Help (links : list HelpLink)
| LocalizedMessage (locale message : list byte).

Definition ERROR_INFO_TYPE : list byte := bs "vgi_rpc.ErrorInfo".
Definition RETRY_INFO_TYPE : list byte := bs "vgi_rpc.RetryInfo".
Definition BAD_REQUEST_TYPE : list byte := bs "vgi_rpc.BadRequest".
Definition PRECONDITION_FAILURE_TYPE : list byte := bs "vgi_rpc.PreconditionFailure".
Definition QUOTA_FAILURE_TYPE : list byte := bs "vgi_rpc.QuotaFailure".
Definition RESOURCE_INFO_TYPE : list byte := bs "vgi_rpc.ResourceInfo".
Definition HELP_TYPE : list byte := bs "vgi_rpc.Help".
Definition LOCALIZED_MESSAGE_TYPE : list byte := bs "vgi_rpc.LocalizedMessage".

Definition CATALOG_TYPES : list (list byte) :=
  [ERROR_INFO_TYPE; RETRY_INFO_TYPE; BAD_REQUEST_TYPE; PRECONDITION_FAILURE_TYPE;
   QUOTA_FAILURE_TYPE; RESOURCE_INFO_TYPE; HELP_TYPE; LOCALIZED_MESSAGE_TYPE].

Definition type_name (d : ErrorDetail) : list byte :=
  match d with
  | ErrorInfo _ => ERROR_INFO_TYPE
  | RetryInfo _ => RETRY_INFO_TYPE
  | BadRequest _ => BAD_REQUEST_TYPE
  | PreconditionFailure _ => PRECONDITION_FAILURE_TYPE
  | QuotaFailure _ => QUOTA_FAILURE_TYPE
  | ResourceInfo _ _ _ _ => RESOURCE_INFO_TYPE
  | Help _ => HELP_TYPE
  | LocalizedMessage _ _ => LOCALIZED_MESSAGE_TYPE
  end.

(** [json!(x)] of a float: a number, or null when it is not finite. *)
Definition json_f64 (x : option f64) : Value := match x with Some x => JFloat x | None => JNull end.

(** [9.0e15] *)
Definition DELAY_LIMIT : f64 := f64_of_i64 9000000000000000.

Definition delay_json (delay : option f64) : Value :=
  match delay with
  | Some x => if (Z.rem x (2 ^ 1074) =? 0) && (Z.abs x <? DELAY_LIMIT) then JInt (f64_to_i64 x) else JFloat x
  | None => json_f64 None
  end.

Definition retry_info (delay : f64) : ErrorDetail := RetryInfo (Some delay).

(** [Value::Array(items.iter().map(|v| json!({..})).collect())] *)
Definition objects_json {A} (f : A → Map) (items : list A) : Value := JArray ((fun v => JObject (jobject (f v))) <$> items).

Definition detail_fields (d : ErrorDetail) : Map :=
  match d with
  | ErrorInfo metadata => [(bs "metadata", JObject (jobject ((fun kv => (kv.1, JString kv.2)) <$> metadata)))]
  | RetryInfo delay => [(bs "retry_delay_seconds", delay_json delay)]
  | BadRequest vs =>
    [(bs "field_violations",
      objects_json (fun v => [(bs "field", JString (fv_field v)); (bs "description", JString (fv_description v))]) vs)]
  | PreconditionFailure vs =>
    [(bs "violations",
      objects_json (fun v => [(bs "type", JString (pv_type v)); (bs "subject", JString (pv_subject v));
                              (bs "description", JString (pv_description v))]) vs)]
  | QuotaFailure vs =>
    [(bs "violations",
      objects_json (fun v => [(bs "subject", JString (qv_subject v)); (bs "description", JString (qv_description v))]) vs)]
  | ResourceInfo ty name owner description =>
    [(bs "resource_type", JString ty); (bs "resource_name", JString name);
     (bs "owner", JString owner); (bs "description", JString description)]
  | Help links =>
    [(bs "links",
      objects_json (fun v => [(bs "description", JString (hl_description v)); (bs "url", JString (hl_url v))]) links)]
  | LocalizedMessage locale message => [(bs "locale", JString locale); (bs "message", JString message)]
  end.

Definition to_json (d : ErrorDetail) : Value :=
  JObject (jobject ((bs "@type", JString (type_name d)) :: detail_fields d)).

(** ** Reading a detail *)

(** [string]: absent reads as empty, a non-string is malformed. *)
Definition json_string (obj : Map) (key : list byte) : option (list byte) :=
  match jget key obj with
  | None => Some []
  | Some (JString s) => Some s
  | Some _ => None
  end.

(** [objects]: absent reads as no objects. *)
Definition json_objects (obj : Map) (key : list byte) : option (list Map) :=
  match jget key obj with
  | None => Some []
  | Some (JArray items) => mapM as_object items
  | Some _ => None
  end.

Definition from_json (value : Value) : option ErrorDetail :=
  obj ← as_object value;
  ty ← jget (bs "@type") obj; ty ← as_str ty;
  if decide (ty = ERROR_INFO_TYPE) then
    match jget (bs "metadata") obj with
    | None => Some (ErrorInfo [])
    | Some (JObject m) => m ← mapM (fun kv => s ← as_str kv.2; Some (kv.1, s)) m; Some (ErrorInfo m)
    | Some _ => None
    end
  else if decide (ty = RETRY_INFO_TYPE) then
    delay ← jget (bs "retry_delay_seconds") obj;
    match delay with
    | JBool _ => None
    | _ => d ← as_f64 delay; if d <? 0 then None else Some (RetryInfo (Some d))
    end
  else if decide (ty = BAD_REQUEST_TYPE) then
    vs ← json_objects obj (bs "field_violations");
    vs ← mapM (fun v => f ← json_string v (bs "field"); d ← json_string v (bs "description");
                        Some (mkFieldViolation f d)) vs;
    Some (BadRequest vs)
  else if decide (ty = PRECONDITION_FAILURE_TYPE) then
    vs ← json_objects obj (bs "violations");
    vs ← mapM (fun v => t ← json_string v (bs "type"); s ← json_string v (bs "subject");
                        d ← json_string v (bs "description"); Some (mkPreconditionViolation t s d)) vs;
    Some (PreconditionFailure vs)
  else if decide (ty = QUOTA_FAILURE_TYPE) then
    vs ← json_objects obj (bs "violations");
    vs ← mapM (fun v => s ← json_string v (bs "subject"); d ← json_string v (bs "description");
                        Some (mkQuotaViolation s d)) vs;
    Some (QuotaFailure vs)
  else if decide (ty = RESOURCE_INFO_TYPE) then
    t ← json_string obj (bs "resource_type"); n ← json_string obj (bs "resource_name");
    o ← json_string obj (bs "owner"); d ← json_string obj (bs "description");
    Some (ResourceInfo t n o d)
  else if decide (ty = HELP_TYPE) then
    ls ← json_objects obj (bs "links");
    ls ← mapM (fun v => d ← json_string v (bs "description"); u ← json_string v (bs "url");
                        Some (mkHelpLink d u)) ls;
    Some (Help ls)
  else if decide (ty = LOCALIZED_MESSAGE_TYPE) then
    l ← json_string obj (bs "locale"); m ← json_string obj (bs "message"); Some (LocalizedMessage l m)
  else None.

(** ** Lists of details *)
Definition detail_type (v : Value) : option (list byte) :=
  obj ← as_object v; t ← jget (bs "@type") obj; t ← as_str t; if bool_decide (t = []) then None else Some t.

Definition check_detail (seen : gset (list byte)) (detail : Value) : res (list byte) (gset (list byte)) :=
  _ ← ok_or (bs "every error detail must be a JSON object") (as_object detail);
  ty ← ok_or (bs "every error detail must name its type in '@type'") (detail_type detail);
  if bool_decide (ty ∈ seen) then Err (bs "error detail type ") else
  if bool_decide (is_Some (strip_prefix RESERVED_DETAIL_PREFIX ty)) && negb (bool_decide (ty ∈ CATALOG_TYPES))
  then Err ty else
  if negb (contains [x2e] ty) then Err ty else Ok ({[ty]} ∪ seen).

Definition validate_error_details (details : list Value) : res (list byte) unit :=
  _ ← try_fold check_detail ∅ details; Ok tt.

Section Text.
Context `{Json}.

Definition encode_error_details (details : list Value) : option (list byte) :=
  if bool_decide (details = []) || negb (is_ok (validate_error_details details)) then None else
  let text := json_to_string (JArray details) in
  if MAX_ERROR_DETAILS_BYTES <? zlen text then None else Some text.

Definition decode_error_details (raw : list byte) : list Value :=
  match json_from_str raw with
  | Some (JArray items) => filter (fun v => is_object v = true) items
  | _ => []
  end.
End Text.

Definition is_retryable (code : list byte) (details : list Value) : bool :=
  match from_name code with
  | Some Unavailable => true
  | Some ResourceExhausted =>
    existsb (fun d => match from_json d with Some (RetryInfo _) => true | _ => false end) details
  | _ => false
  end.
