(* ===== verification/Errors.v ===== *)
(** * The error value every fallible operation returns

    [vgi-rpc/src/errors.rs], with the authentication reasons of [unauthorized.rs].
    A message built by an operation keeps the constant text of the source up to its
    first interpolated value; a message that comes from elsewhere is any bytes. *)

From S2P Require Import Prelude Bytes F64 Json ErrorModel.

Inductive AuthReason :=
| MissingCredential
| InvalidCredential
| ExpiredCredential
| InsufficientScope
| ProxyRequired
| Unauthorized.

#[global] Instance AuthReason_eq_dec : EqDecision AuthReason.
Proof. solve_decision. Defined.

(** The code is its wire name: a client keeps what the server sent. *)
Record ErrorStatus := mkErrorStatus { code : list byte; details : list Value }.

Record RpcError := mkRpcError {
  error_type : list byte;
  message : list byte;
  traceback : list byte;
  err_request_id : list byte;
  auth_reason : option AuthReason;
  retry_after_seconds : option Z;
  error_kind : option (list byte);
  status : option ErrorStatus
}.

#[global] Instance ErrorStatus_eq_dec : EqDecision ErrorStatus.
Proof. solve_decision. Defined.
#[global] Instance RpcError_eq_dec : EqDecision RpcError.
Proof. solve_decision. Defined.

Module RpcErr.
Definition new (ty msg : list byte) : RpcError := mkRpcError ty msg [] [] None None None None.

Definition with_code (c : Code) (e : RpcError) : RpcError :=
  mkRpcError (error_type e) (message e) (traceback e) (err_request_id e) (auth_reason e)
    (retry_after_seconds e) (error_kind e)
    (Some (mkErrorStatus (code_as_str c) (from_option details [] (status e)))).

Definition with_error_kind (k : list byte) (e : RpcError) : RpcError :=
  mkRpcError (error_type e) (message e) (traceback e) (err_request_id e) (auth_reason e)
    (retry_after_seconds e) (Some k) (status e).

Definition with_status (c : Code) (k : list byte) (e : RpcError) : RpcError :=
  with_error_kind k (with_code c e).

Definition with_raw_details (ds : list Value) (e : RpcError) : RpcError :=
  mkRpcError (error_type e) (message e) (traceback e) (err_request_id e) (auth_reason e)
    (retry_after_seconds e) (error_kind e)
    (Some (mkErrorStatus (from_option code [] (status e)) (from_option details [] (status e) ++ ds))).

Definition with_details (ds : list ErrorDetail) (e : RpcError) : RpcError :=
  with_raw_details (to_json <$> ds) e.

Definition with_retry_after (seconds : Z) (e : RpcError) : RpcError :=
  mkRpcError (error_type e) (message e) (traceback e) (err_request_id e) (auth_reason e)
    (Some seconds) (error_kind e) (status e).

Definition set_wire_status (c : list byte) (ds : list Value) (e : RpcError) : RpcError :=
  mkRpcError (error_type e) (message e) (traceback e) (err_request_id e) (auth_reason e)
    (retry_after_seconds e) (error_kind e)
    (if bool_decide (c = []) && bool_decide (ds = []) then None else Some (mkErrorStatus c ds)).

Definition value_error (m : list byte) := new (bs "ValueError") m.
Definition runtime_error (m : list byte) := new (bs "RuntimeError") m.
Definition type_error (m : list byte) := new (bs "TypeError") m.
Definition protocol_error (m : list byte) := new (bs "ProtocolError") m.
Definition version_error (m : list byte) := new (bs "VersionError") m.
Definition permission_error (m : list byte) := new (bs "PermissionError") m.
Definition attribute_error (m : list byte) := new (bs "AttributeError") m.
Definition session_lost_error (m : list byte) :=
  with_status Aborted (bs "session_lost") (new (bs "SessionLostError") m).
Definition DEFAULT_DRAINING_RETRY_AFTER_SECONDS : f64 := f64_of_i64 1.
Definition server_draining_error (m : list byte) :=
  with_details [retry_info DEFAULT_DRAINING_RETRY_AFTER_SECONDS]
    (with_status Unavailable (bs "server_draining") (new (bs "ServerDrainingError") m)).
Definition method_not_implemented (m : list byte) :=
  with_status Unimplemented (bs "method_not_implemented") (attribute_error m).

Definition protocol_version_mismatch (protocol client_version server_version : list byte) : RpcError :=
  let client := if bool_decide (client_version = []) then bs "<not declared>" else client_version in
  with_details
    [PreconditionFailure [mkPreconditionViolation (bs "protocol_version") protocol
       (bs "client declares " ++ client ++ bs ", server requires " ++ server_version ++
        bs "; major and minor must match")]]
    (with_status FailedPrecondition (bs "protocol_version_mismatch")
       (version_error (bs "protocol_version mismatch for protocol "))).

Definition auth_failure (r : AuthReason) (m : list byte) : RpcError :=
  mkRpcError (bs "PermissionError") m [] [] (Some r) None None None.
Definition DEFAULT_AUTH_RETRY_AFTER_SECONDS : Z := 5.
Definition auth_unavailable (m : list byte) : RpcError :=
  with_retry_after DEFAULT_AUTH_RETRY_AFTER_SECONDS (with_code Unavailable (new (bs "AuthUnavailableError") m)).
Definition is_auth_unavailable (e : RpcError) : bool :=
  bool_decide (error_type e = bs "AuthUnavailableError").

(** ** Reading the error model *)
Definition error_code (e : RpcError) : list byte := from_option code [] (status e).
Definition error_details (e : RpcError) : list Value := from_option details [] (status e).
Definition typed_details (e : RpcError) : list ErrorDetail := omap from_json (error_details e).
Definition detail_of (ty : list byte) (e : RpcError) : option ErrorDetail :=
  List.find (fun d => bool_decide (type_name d = ty)) (typed_details e).
Definition retry_delay (e : RpcError) : option f64 :=
  match detail_of RETRY_INFO_TYPE e with Some (RetryInfo d) => d | _ => None end.
Definition error_is_retryable (e : RpcError) : bool := is_retryable (error_code e) (error_details e).

(** ** What a server emits *)
Definition wire_code (e : RpcError) : list byte :=
  if bool_decide (error_code e = []) then code_as_str Unknown else error_code e.

Definition is_retry_info (d : Value) : bool :=
  match d with JObject m => bool_decide (jget (bs "@type") m = Some (JString RETRY_INFO_TYPE)) | _ => false end.

Definition wire_details (e : RpcError) : list Value :=
  match retry_after_seconds e with
  | Some seconds =>
    if existsb is_retry_info (error_details e) then error_details e
    else error_details e ++ [to_json (retry_info (f64_of_i64 seconds))]
  | None => error_details e
  end.
End RpcErr.

(** Custom metadata: [HashMap<String, String>]. *)
Abbreviation Metadata := (gmap (list byte) (list byte)).
