(* ===== verification/ArrowType.v ===== *)
(** * Rust values as Arrow columns

    [vgi-rpc/src/arrow_type.rs]: the trait [VgiArrow], which maps a method's
    parameters and results to Arrow columns, and its implementations. What the
    arrow crates do (a downcast, a value at a row, a column from values, their concatenation)
    and what [chrono] does is third-party code: [ArrowValues], [Chrono]. The
    decimal type is not modelled. *)

From S2P Require Import Prelude Bytes Errors.
From Stdlib Require Import Floats.SpecFloat.

#[local] Open Scope Z_scope.

(** ** Columns *)

(** The array types of one value per row, and what a row holds. *)
Inductive Kind :=
| KString | KLargeString | KBinary | KLargeBinary | KFixedSizeBinary
| KInt (signed : bool) (bits : Z) | KFloat32 | KFloat64 | KBoolean
| KDate32 | KTimestampMicrosecond | KTime64Microsecond | KDurationMicrosecond.
#[global] Instance Kind_eq_dec : EqDecision Kind.
Proof. solve_decision. Defined.

Definition carrier (k : Kind) : Type :=
  match k with
  | KString | KLargeString | KBinary | KLargeBinary | KFixedSizeBinary => list byte
  | KFloat32 | KFloat64 => spec_float
  | KBoolean => bool
  | _ => Z
  end.

(** The [DataType]s the file names. *)
Inductive TypeName :=
| TUtf8 | TLargeUtf8 | TBinary | TLargeBinary | TFixedSizeBinary (n : Z)
| TInt (signed : bool) (bits : Z) | TFloat32 | TFloat64 | TBoolean
| TDate32 | TTimestamp (tz : option (list byte)) | TTime64 | TDuration
| TDictionary16
| TList (item : TypeName)
| TMap (value : TypeName).

Class ArrowValues (Array : Type) := {
  (** [downcast_ref]: the values of the rows (a null row holds one too) *)
  values_of : ∀ k, Array → option (list (carrier k));
  (** a dictionary column with keys of so many bits: its keys and its values *)
  dictionary_of : Z → Array → option (list Z * Array);
  (** a [ListArray]: [value(i)] of each row; a [MapArray]: both columns of its entries *)
  lists_of : Array → option (list Array);
  maps_of : Array → option (list (Array * Array));
  array_len : Array → Z;
  (** [data_type], where it is one of them *)
  type_name : Array → option TypeName;
  (** [is_null], where the row exists *)
  is_null : Array → Z → option bool;
  (** columns from values, of a type *)
  array_from : ∀ k, TypeName → list (carrier k) → Array;
  fixed_size_from : list (list byte) → res RpcError Array;
  dictionary_from : list (list byte) → Array;
  (** [ListArray::new] and [MapArray::new] with the offsets and no null row: [None]
      where they panic *)
  list_new : TypeName → list Z → Array → option Array;
  map_new : TypeName → list Z → Array → Array → option Array;
  new_null_array : TypeName → Z → Array;
  new_empty_array : TypeName → Array;
  concat_arrays : list Array → res RpcError Array
}.

(** [chrono]: calendar values, from and to counts. *)
Class Chrono := {
  NaiveDate : Type; NaiveDateTime : Type; NaiveTime : Type;
  date_from_days : Z → option NaiveDate;
  num_days : NaiveDate → Z;
  from_timestamp_micros : Z → option NaiveDateTime;
  timestamp_micros : NaiveDateTime → Z;
  from_num_seconds_from_midnight_opt : Z → Z → option NaiveTime;
  num_seconds_from_midnight : NaiveTime → Z;
  nanosecond : NaiveTime → Z
}.

(** ** The trait *)
Class VgiArrow {Array : Type} `{!ArrowValues Array} (T : Type) := {
  arrow_data_type : TypeName;
  nullable : bool;
  describe_name : list byte;
  read : Array → Z → res RpcError T;
  build_singleton : T → res RpcError Array
}.
#[global] Hint Mode VgiArrow - - ! : typeclass_instances.
Arguments arrow_data_type {_ _} T {_}.
Arguments nullable {_ _} T {_}.
Arguments describe_name {_ _} T {_}.

(** ** Casts *)
Definition as_i32 (z : Z) : Z := (z + 2 ^ 31) mod 2 ^ 32 - 2 ^ 31.
Definition as_u32 (z : Z) : Z := z mod 2 ^ 32.

(** [x as f64] of an [f32] is exact; [x as f32] of an [f64] rounds to nearest, ties to even. *)
Definition cast_float (prec emax : Z) (x : spec_float) : spec_float :=
  match x with
  | S754_finite s m e => binary_normalize prec emax (if s then Zneg m else Zpos m) e s
  | x => x
  end.
Definition f32_as_f64 : spec_float → spec_float := cast_float 53 1024.
Definition f64_as_f32 : spec_float → spec_float := cast_float 24 128.

(** ** The wire's own types: a value and the column it asks for *)
Record LargeString := mkLargeString { large_string : list byte }.
Record Bytes' := mkBytes { bytes' : list byte }.
Record LargeBytes := mkLargeBytes { large_bytes : list byte }.
Record FixedBinary (n : Z) := mkFixedBinary { fixed_binary : list byte }.
Arguments mkFixedBinary {n} _.
Arguments fixed_binary {n} _.
Record DictString := mkDictString { dict_string : list byte }.
(** The integer types, [f64], [f32], and the UTC timestamp, by the column they ask for. *)
Record Int (signed : bool) (bits : Z) := mkInt { int_val : Z }.
Arguments mkInt {signed bits} _.
Arguments int_val {signed bits} _.
Abbreviation I64 := (Int true 64).
Abbreviation I32 := (Int true 32).
Record F64 := mkF64 { f64_val : spec_float }.
Record F32 := mkF32 { f32_val : spec_float }.
Record Utf8String := mkString { string_val : list byte }.
Record Duration := mkDuration { micros : Z }.

Section Columns.
Context {Array : Type} `{!ArrowValues Array}.

Definition expected : RpcError := RpcErr.type_error (bs "expected ").

(** [as_array::<A>(arr, ..)?.value(idx)] *)
Definition as_array (k : Kind) (arr : Array) : res RpcError (list (carrier k)) := ok_or expected (values_of k arr).
Definition value_at {A} (vs : list A) (idx : Z) : res RpcError A := or_panic (znth vs idx).
Definition read_kind (k : Kind) (arr : Array) (idx : Z) : res RpcError (carrier k) :=
  vs ← as_array k arr; value_at vs idx.

(** [key as usize]: a negative key names no value. *)
Definition read_dict (idx : Z) (d : list Z * Array) : res RpcError (list byte) :=
  key ← value_at d.1 idx;
  values ← as_array KString d.2;
  value_at values key.

Definition read_string (arr : Array) (idx : Z) : res RpcError (list byte) :=
  match values_of KString arr with
  | Some vs => value_at vs idx
  | None =>
    match dictionary_of 16 arr with
    | Some d => read_dict idx d
    | None =>
      match dictionary_of 32 arr with
      | Some d => read_dict idx d
      | None => Err (RpcErr.type_error (bs "expected Utf8 (or DictionaryArray<Int16|Int32, Utf8>) array"))
      end
    end
  end.

(** A column of the wanted kind, or of another one and its cast. *)
Definition read_or (k k' : Kind) (cast : carrier k' → carrier k) (arr : Array) (idx : Z) : res RpcError (carrier k) :=
  match values_of k arr with
  | Some vs => value_at vs idx
  | None =>
    match values_of k' arr with
    | Some vs => cast <$> value_at vs idx
    | None => Err expected
    end
  end.

Definition singleton_from (k : Kind) (t : TypeName) (v : carrier k) : res RpcError Array := Ok (array_from k t [v]).
End Columns.

Section Instances.
Context {Array : Type} `{!ArrowValues Array}.

#[export] Instance String_vgi : VgiArrow Utf8String := {|
  arrow_data_type := TUtf8; nullable := false; describe_name := bs "str";
  read arr i := mkString <$> read_string arr i;
  build_singleton v := singleton_from KString TUtf8 (string_val v) |}.

#[export] Instance i64_vgi : VgiArrow I64 := {|
  arrow_data_type := TInt true 64; nullable := false; describe_name := bs "int";
  read arr i := mkInt <$> read_or (KInt true 64) (KInt true 32) (fun z => z) arr i;
  build_singleton v := singleton_from (KInt true 64) (TInt true 64) (int_val v) |}.

#[export] Instance i32_vgi : VgiArrow I32 := {|
  arrow_data_type := TInt true 32; nullable := false; describe_name := bs "int";
  read arr i := mkInt <$> read_or (KInt true 32) (KInt true 64) as_i32 arr i;
  build_singleton v := singleton_from (KInt true 32) (TInt true 32) (int_val v) |}.

(** [impl_int_vgi!]: the other integer types. *)
Definition int_vgi (signed : bool) (bits : Z) : VgiArrow (Int signed bits) := {|
  arrow_data_type := TInt signed bits; nullable := false; describe_name := bs "int";
  read arr i := mkInt <$> read_kind (KInt signed bits) arr i;
  build_singleton v := singleton_from (KInt signed bits) (TInt signed bits) (int_val v) |}.
#[export] Instance i8_vgi : VgiArrow (Int true 8) := int_vgi true 8.
#[export] Instance i16_vgi : VgiArrow (Int true 16) := int_vgi true 16.
#[export] Instance u8_vgi : VgiArrow (Int false 8) := int_vgi false 8.
#[export] Instance u16_vgi : VgiArrow (Int false 16) := int_vgi false 16.
#[export] Instance u32_vgi : VgiArrow (Int false 32) := int_vgi false 32.
#[export] Instance u64_vgi : VgiArrow (Int false 64) := int_vgi false 64.

#[export] Instance f64_vgi : VgiArrow F64 := {|
  arrow_data_type := TFloat64; nullable := false; describe_name := bs "float";
  read arr i := mkF64 <$> read_or KFloat64 KFloat32 f32_as_f64 arr i;
  build_singleton v := singleton_from KFloat64 TFloat64 (f64_val v) |}.

#[export] Instance f32_vgi : VgiArrow F32 := {|
  arrow_data_type := TFloat32; nullable := false; describe_name := bs "float";
  read arr i := mkF32 <$> read_or KFloat32 KFloat64 f64_as_f32 arr i;
  build_singleton v := singleton_from KFloat32 TFloat32 (f32_val v) |}.

#[export] Instance bool_vgi : VgiArrow bool := {|
  arrow_data_type := TBoolean; nullable := false; describe_name := bs "bool";
  read := read_kind KBoolean; build_singleton := singleton_from KBoolean TBoolean |}.

#[export] Instance Bytes_vgi : VgiArrow Bytes' := {|
  arrow_data_type := TBinary; nullable := false; describe_name := bs "bytes";
  read arr i := mkBytes <$> read_kind KBinary arr i;
  build_singleton v := singleton_from KBinary TBinary (bytes' v) |}.

#[export] Instance LargeString_vgi : VgiArrow LargeString := {|
  arrow_data_type := TLargeUtf8; nullable := false; describe_name := bs "str";
  read arr i := mkLargeString <$> read_kind KLargeString arr i;
  build_singleton v := singleton_from KLargeString TLargeUtf8 (large_string v) |}.

#[export] Instance LargeBytes_vgi : VgiArrow LargeBytes := {|
  arrow_data_type := TLargeBinary; nullable := false; describe_name := bs "bytes";
  read arr i := mkLargeBytes <$> read_kind KLargeBinary arr i;
  build_singleton v :=
    if i64_max <? zlen (large_bytes v)
    then Err (RpcErr.value_error (bs "large_binary value exceeds i64 offsets"))
    else singleton_from KLargeBinary TLargeBinary (large_bytes v) |}.

#[export] Instance FixedBinary_vgi n : VgiArrow (FixedBinary n) := {|
  arrow_data_type := TFixedSizeBinary (as_i32 n); nullable := false; describe_name := bs "bytes";
  read arr i :=
    raw ← read_kind KFixedSizeBinary arr i;
    if negb (zlen raw =? n) then Err (RpcErr.type_error (bs "FixedSizeBinary width mismatch: expected "))
    else Ok (mkFixedBinary raw);
  build_singleton v := fixed_size_from [fixed_binary v] |}.

#[export] Instance DictString_vgi : VgiArrow DictString := {|
  arrow_data_type := TDictionary16; nullable := false; describe_name := bs "str";
  read arr i := mkDictString <$> read_string arr i;
  build_singleton v := Ok (dictionary_from [dict_string v]) |}.

Section Calendar.
Context `{Chrono}.

#[export] Instance NaiveDate_vgi : VgiArrow NaiveDate := {|
  arrow_data_type := TDate32; nullable := false; describe_name := bs "date";
  read arr i :=
    days ← read_kind KDate32 arr i;
    ok_or (RpcErr.value_error (bs "date32 out of range")) (date_from_days days);
  build_singleton v := singleton_from KDate32 TDate32 (as_i32 (num_days v)) |}.

Definition read_timestamp (arr : Array) (idx : Z) (msg : list byte) : res RpcError NaiveDateTime :=
  micros ← read_kind KTimestampMicrosecond arr idx;
  ok_or (RpcErr.value_error msg) (from_timestamp_micros micros).

#[export] Instance NaiveDateTime_vgi : VgiArrow NaiveDateTime := {|
  arrow_data_type := TTimestamp None; nullable := false; describe_name := bs "datetime";
  read arr i := read_timestamp arr i (bs "timestamp out of range");
  build_singleton v := singleton_from KTimestampMicrosecond (TTimestamp None) (timestamp_micros v) |}.

Record UtcTimestamp := mkUtc { utc : NaiveDateTime }.
#[export] Instance UtcTimestamp_vgi : VgiArrow UtcTimestamp := {|
  arrow_data_type := TTimestamp (Some (bs "UTC")); nullable := false; describe_name := bs "datetime";
  read arr i := mkUtc <$> read_timestamp arr i (bs "UTC timestamp out of range");
  build_singleton v := singleton_from KTimestampMicrosecond (TTimestamp (Some (bs "UTC"))) (timestamp_micros (utc v)) |}.

(** The quotient and the remainder truncate, and both are cast to 32 bits. *)
Definition time_of_micros (micros : Z) : option NaiveTime :=
  from_num_seconds_from_midnight_opt (as_u32 (Z.quot micros 1000000)) (as_u32 (Z.rem micros 1000000 * 1000)).

#[export] Instance NaiveTime_vgi : VgiArrow NaiveTime := {|
  arrow_data_type := TTime64; nullable := false; describe_name := bs "time";
  read arr i :=
    micros ← read_kind KTime64Microsecond arr i;
    ok_or (RpcErr.value_error (bs "time-of-day out of range")) (time_of_micros micros);
  build_singleton v :=
    singleton_from KTime64Microsecond TTime64 (num_seconds_from_midnight v * 1000000 + Z.quot (nanosecond v) 1000) |}.
End Calendar.

(** A [chrono::Duration] in microseconds; [num_microseconds] fails outside 64 bits. *)
#[export] Instance Duration_vgi : VgiArrow Duration := {|
  arrow_data_type := TDuration; nullable := false; describe_name := bs "duration";
  read arr i := mkDuration <$> read_kind KDurationMicrosecond arr i;
  build_singleton v :=
    if (i64_min <=? micros v) && (micros v <=? i64_max)
    then singleton_from KDurationMicrosecond TDuration (micros v)
    else Err (RpcErr.value_error (bs "duration overflows microsecond representation")) |}.

(** ** Combinators *)
Definition build_null_singleton (T : Type) `{!VgiArrow T} : res RpcError Array :=
  Ok (new_null_array (arrow_data_type T) 1).

#[export] Instance option_vgi T `{!VgiArrow T} : VgiArrow (option T) := {|
  arrow_data_type := arrow_data_type T; nullable := true;
  describe_name := describe_name T ++ bs " | None";
  read arr i :=
    null ← or_panic (is_null arr i);
    if (null : bool) then Ok None else Some <$> read arr i;
  build_singleton v := match v with Some v => build_singleton v | None => build_null_singleton T end |}.

(** One column of the values, each built on its own and put together. *)
Definition build_column (T : Type) `{!VgiArrow T} (vs : list T) : res RpcError Array :=
  singletons ← mapM build_singleton vs;
  match singletons with [] => Ok (new_empty_array (arrow_data_type T)) | _ => concat_arrays singletons end.

(** [for i in 0..arr.len()] *)
Definition read_column {T : Type} `{!VgiArrow T} (arr : Array) (n : Z) : res RpcError (list T) :=
  mapM (fun i => read arr (Z.of_nat i)) (seq 0 (Z.to_nat n)).

#[export] Instance Vec_vgi T `{!VgiArrow T} : VgiArrow (list T) := {|
  arrow_data_type := TList (arrow_data_type T); nullable := false;
  describe_name := bs "list[" ++ describe_name T ++ bs "]";
  read arr i :=
    rows ← ok_or expected (lists_of arr);
    inner ← value_at rows i;
    read_column inner (array_len inner);
  build_singleton vs :=
    inner ← build_column T vs;
    or_panic (list_new (arrow_data_type T) [0; as_i32 (zlen vs)] inner) |}.

(** [Vec<(String, V)>] *)
Record Dict (V : Type) := mkDict { entries : list (list byte * V) }.
Arguments mkDict {V} _.
Arguments entries {V} _.

#[export] Instance Map_vgi V `{!VgiArrow V} : VgiArrow (Dict V) := {|
  arrow_data_type := TMap (arrow_data_type V); nullable := false;
  describe_name := bs "dict[str, " ++ describe_name V ++ bs "]";
  read arr i :=
    rows ← ok_or expected (maps_of arr);
    '(ks, vs) ← value_at rows i;
    keys ← as_array KString ks;
    values ← read_column vs (zlen keys);
    Ok (mkDict (zip keys values));
  build_singleton d :=
    let keys := array_from KString TUtf8 (fst <$> entries d) in
    vs ← build_column V (snd <$> entries d);
    or_panic (map_new (arrow_data_type V) [0; as_i32 (zlen (entries d))] keys vs) |}.
End Instances.
Arguments mkDict {V} _.
Arguments entries {V} _.
