(* ===== verification/ArrowTypeProps.v ===== *)
(** * Columns carry the values they were built from

    The laws of the arrow crates ([ArrowValuesLaws]) and of [chrono], and from them
    that every implementation of [VgiArrow] reads back what it built, as an instance
    of one class of laws ([VgiArrowLaws]) with the collections as combinators. *)

From S2P Require Import Prelude Bytes Errors ArrowType.
From Stdlib Require Import Floats.SpecFloat.

#[local] Open Scope Z_scope.

(** The values of a Rust type. *)
Definition carrier_ok (k : Kind) : carrier k → Prop :=
  match k with
  | KString | KLargeString => fun v => utf8_valid v = true
  | KBinary | KLargeBinary | KFixedSizeBinary => fun _ => True
  | KFloat32 | KFloat64 | KBoolean => fun _ => True
  | KInt s b => fun z => if s then - 2 ^ (b - 1) ≤ z < 2 ^ (b - 1) else 0 ≤ z < 2 ^ b
  | KDate32 => fun z => - 2 ^ 31 ≤ z < 2 ^ 31
  | KTimestampMicrosecond | KTime64Microsecond | KDurationMicrosecond => in_i64
  end.

Definition kind_type (k : Kind) (t : TypeName) : bool :=
  match k, t with
  | KString, TUtf8 | KLargeString, TLargeUtf8 | KBinary, TBinary | KLargeBinary, TLargeBinary
  | KFloat32, TFloat32 | KFloat64, TFloat64 | KBoolean, TBoolean | KDate32, TDate32
  | KTimestampMicrosecond, TTimestamp _ | KTime64Microsecond, TTime64 | KDurationMicrosecond, TDuration => true
  | KInt s b, TInt s' b' => Bool.eqb s s' && (b =? b')
  | _, _ => false
  end.

(** Two rows that no accessor tells apart. *)
Definition alike_at {A} (v w : option (list A)) (i j : Z) : Prop :=
  match v, w with
  | Some v, Some w => znth v i = znth w j
  | None, None => True
  | _, _ => False
  end.

Record same_row {Array} `{!ArrowValues Array} (a : Array) (i : Z) (b : Array) (j : Z) : Prop := {
  row_values : ∀ k, alike_at (values_of k a) (values_of k b) i j;
  row_dictionary : ∀ w, match dictionary_of w a, dictionary_of w b with
                        | Some d, Some d' => read_dict i d = read_dict j d'
                        | None, None => True
                        | _, _ => False
                        end;
  row_lists : alike_at (lists_of a) (lists_of b) i j;
  row_maps : alike_at (maps_of a) (maps_of b) i j;
  row_null : is_null a i = is_null b j
}.

Class ArrowValuesLaws {Array} `{!ArrowValues Array} := {
  from_values : ∀ k t vs, kind_type k t = true → Forall (carrier_ok k) vs →
    values_of k (array_from k t vs) = Some vs;
  from_shape : ∀ k t vs, kind_type k t = true →
    type_name (array_from k t vs) = Some t ∧ array_len (array_from k t vs) = zlen vs;
  from_null : ∀ k t vs i, kind_type k t = true → 0 ≤ i < zlen vs → is_null (array_from k t vs) i = Some false;
  fixed_from : ∀ v a, fixed_size_from [v] = Ok a → 0 < zlen v < 2 ^ 31 →
    values_of KFixedSizeBinary a = Some [v] ∧ type_name a = Some (TFixedSizeBinary (zlen v)) ∧
    array_len a = 1 ∧ is_null a 0 = Some false;
  dictionary_built : ∀ v, utf8_valid v = true →
    let a := dictionary_from [v] in
    values_of KString a = None ∧ (∃ d, dictionary_of 16 a = Some d ∧ read_dict 0 d = Ok v) ∧
    type_name a = Some TDictionary16 ∧ array_len a = 1 ∧ is_null a 0 = Some false;
  list_built : ∀ t inner a, type_name inner = Some t → list_new t [0; array_len inner] inner = Some a →
    lists_of a = Some [inner] ∧ type_name a = Some (TList t) ∧ array_len a = 1 ∧ is_null a 0 = Some false;
  map_built : ∀ t ks vs a, type_name vs = Some t → type_name ks = Some TUtf8 → array_len ks = array_len vs →
    map_new t [0; array_len ks] ks vs = Some a →
    maps_of a = Some [(ks, vs)] ∧ type_name a = Some (TMap t) ∧ array_len a = 1 ∧ is_null a 0 = Some false;
  null_array : ∀ t, type_name (new_null_array t 1) = Some t ∧ array_len (new_null_array t 1) = 1 ∧
    is_null (new_null_array t 1) 0 = Some true;
  empty_array : ∀ t, type_name (new_empty_array t) = Some t ∧ array_len (new_empty_array t) = 0;
  concat_rows : ∀ t l c, l ≠ [] → Forall (fun a => type_name a = Some t ∧ array_len a = 1) l → concat_arrays l = Ok c →
    type_name c = Some t ∧ array_len c = zlen l ∧
    ∀ n a, l !! n = Some a → same_row c (Z.of_nat n) a 0
}.

(** ** What an implementation of the trait promises *)
Class VgiArrowLaws {Array} `{!ArrowValues Array} (T : Type) `{!VgiArrow T} := {
  storable : T → Prop;
  read_built : ∀ v a, storable v → build_singleton v = Ok a → read a 0 = Ok v;
  built_shape : ∀ v a, storable v → build_singleton v = Ok a →
    type_name a = Some (arrow_data_type T) ∧ array_len a = 1;
  built_present : ∀ v a, nullable T = false → storable v → build_singleton v = Ok a → is_null a 0 = Some false;
  read_row : ∀ a i b j, same_row a i b j → read (T:=T) a i = read b j
}.

Section Reads.
Context {Array : Type} `{!ArrowValues Array}.

Lemma read_kind_row k a i b j : same_row a i b j → read_kind k a i = read_kind k b j.
Proof.
  intros R. pose proof (row_values _ _ _ _ R k) as E. unfold read_kind, as_array.
  destruct (values_of k a), (values_of k b); try done. cbn [ok_or mbind res_bind]. unfold value_at. by rewrite E.
Qed.

Lemma read_or_row k k' f a i b j : same_row a i b j → read_or k k' f a i = read_or k k' f b j.
Proof.
  intros R. pose proof (row_values _ _ _ _ R k) as E. pose proof (row_values _ _ _ _ R k') as E'.
  unfold read_or, value_at, alike_at in *.
  destruct (values_of k a), (values_of k b); try done; [by rewrite E|].
  destruct (values_of k' a), (values_of k' b); try done. by rewrite E'.
Qed.

Lemma read_string_row a i b j : same_row a i b j → read_string a i = read_string b j.
Proof.
  intros R. pose proof (row_values _ _ _ _ R KString) as E. pose proof (row_dictionary _ _ _ _ R 16) as D.
  pose proof (row_dictionary _ _ _ _ R 32) as D'. unfold read_string, value_at.
  destruct (values_of KString a), (values_of KString b); try done; [by rewrite E|].
  destruct (dictionary_of 16 a), (dictionary_of 16 b); try done.
  by destruct (dictionary_of 32 a), (dictionary_of 32 b).
Qed.

Lemma value_at_single {A} (v : A) : value_at [v] 0 = Ok v.
Proof. done. Qed.

Context `{!ArrowValuesLaws}.

Lemma read_kind_built k t v a :
  singleton_from k t v = Ok a → carrier_ok k v → kind_type k t = true → read_kind k a 0 = Ok v.
Proof.
  intros [= <-] Hc Hk. unfold read_kind, as_array. rewrite from_values by (done || by constructor). done.
Qed.

Lemma read_or_built k k' f t v a :
  singleton_from k t v = Ok a → carrier_ok k v → kind_type k t = true → read_or k k' f a 0 = Ok v.
Proof. intros [= <-] Hc Hk. unfold read_or. rewrite from_values by (done || by constructor). done. Qed.

Lemma singleton_shape k t v a :
  kind_type k t = true → singleton_from k t v = Ok a → type_name a = Some t ∧ array_len a = 1.
Proof. intros Hk [= <-]. by apply from_shape. Qed.

Lemma singleton_present k t v a : kind_type k t = true → singleton_from k t v = Ok a → is_null a 0 = Some false.
Proof. intros Hk [= <-]. by apply from_null. Qed.
End Reads.

(** A column of one kind under a constructor. *)
Ltac scalar :=
  repeat match goal with
  | Hb : (if ?b then Err _ else _) = Ok _ |- _ => destruct b eqn:?; [done|]
  | Hb : (if ?b then _ else Err _) = Ok _ |- _ => destruct b eqn:?; [|done]
  end.
Ltac scalar_laws :=
  cbv [read arrow_data_type build_singleton nullable
       String_vgi i64_vgi i32_vgi f64_vgi f32_vgi bool_vgi Bytes_vgi LargeString_vgi LargeBytes_vgi Duration_vgi]; intros; scalar;
  first [ by eapply singleton_shape; [|eassumption]; first [done|cbn; by rewrite ?Z.eqb_refl]
        | by eapply singleton_present; [|eassumption]; first [done|cbn; by rewrite ?Z.eqb_refl]
        | erewrite read_kind_row by eassumption; done | erewrite read_or_row by eassumption; done
        | erewrite read_string_row by eassumption; done ].

Ltac built Hv Hb :=
  first [ erewrite (read_or_built _ _ _ _ _ _ Hb Hv eq_refl) | erewrite (read_kind_built _ _ _ _ Hb Hv eq_refl) ]; done.

Section ScalarLaws.
Context {Array : Type} `{!ArrowValues Array, !ArrowValuesLaws}.

#[export] Instance String_laws : VgiArrowLaws Utf8String.
Proof.
  refine {| storable v := utf8_valid (string_val v) = true |}; [|scalar_laws..].
  intros [v] a Hv Hb. cbn in Hb. injection Hb as <-. cbn [read String_vgi]. unfold read_string.
  rewrite from_values by (done || by constructor). done.
Defined.

#[export] Instance i64_laws : VgiArrowLaws I64.
Proof.
  refine {| storable v := carrier_ok (KInt true 64) (int_val v) |}; [|scalar_laws..].
  intros [v] a Hv Hb. cbn [read i64_vgi build_singleton] in *. built Hv Hb.
Defined.

#[export] Instance i32_laws : VgiArrowLaws I32.
Proof.
  refine {| storable v := carrier_ok (KInt true 32) (int_val v) |}; [|scalar_laws..].
  intros [v] a Hv Hb. cbn [read i32_vgi build_singleton] in *. built Hv Hb.
Defined.

(** The types of [impl_int_vgi!]. *)
Definition int_laws s b : @VgiArrowLaws _ _ (Int s b) (int_vgi s b).
Proof.
  refine {| storable v := carrier_ok (KInt s b) (int_val v) |};
    cbn [read arrow_data_type build_singleton nullable int_vgi]; intros.
  - destruct v as [v]. match goal with Hc : carrier_ok _ _, Hb : singleton_from _ _ _ = _ |- _ => rewrite (read_kind_built _ _ _ _ Hb Hc) end; [done|]. cbn. by rewrite Bool.eqb_reflx, Z.eqb_refl.
  - eapply singleton_shape; [|done]. cbn. by rewrite Bool.eqb_reflx, Z.eqb_refl.
  - eapply singleton_present; [|done]. cbn. by rewrite Bool.eqb_reflx, Z.eqb_refl.
  - by erewrite read_kind_row.
Defined.
#[export] Instance i8_laws : VgiArrowLaws (Int true 8) := int_laws true 8.
#[export] Instance i16_laws : VgiArrowLaws (Int true 16) := int_laws true 16.
#[export] Instance u8_laws : VgiArrowLaws (Int false 8) := int_laws false 8.
#[export] Instance u16_laws : VgiArrowLaws (Int false 16) := int_laws false 16.
#[export] Instance u32_laws : VgiArrowLaws (Int false 32) := int_laws false 32.
#[export] Instance u64_laws : VgiArrowLaws (Int false 64) := int_laws false 64.

#[export] Instance f64_laws : VgiArrowLaws F64.
Proof.
  refine {| storable _ := True |}; [|scalar_laws..].
  intros [v] a Hv Hb. cbn [read f64_vgi build_singleton] in *. built Hv Hb.
Defined.

#[export] Instance f32_laws : VgiArrowLaws F32.
Proof.
  refine {| storable _ := True |}; [|scalar_laws..].
  intros [v] a Hv Hb. cbn [read f32_vgi build_singleton] in *. built Hv Hb.
Defined.

#[export] Instance bool_laws : VgiArrowLaws bool.
Proof.
  refine {| storable _ := True |}; [|scalar_laws..].
  intros v a Hv Hb. cbn [read bool_vgi build_singleton] in *. built Hv Hb.
Defined.

#[export] Instance Bytes_laws : VgiArrowLaws Bytes'.
Proof.
  refine {| storable _ := True |}; [|scalar_laws..].
  intros [v] a Hv Hb. cbn [read Bytes_vgi build_singleton] in *. built Hv Hb.
Defined.

#[export] Instance LargeString_laws : VgiArrowLaws LargeString.
Proof.
  refine {| storable v := utf8_valid (large_string v) = true |}; [|scalar_laws..].
  intros [v] a Hv Hb. cbn [read LargeString_vgi build_singleton] in *. built Hv Hb.
Defined.

#[export] Instance LargeBytes_laws : VgiArrowLaws LargeBytes.
Proof.
  refine {| storable _ := True |}; [|scalar_laws..].
  intros [v] a Hv Hb. cbn [read LargeBytes_vgi build_singleton large_bytes] in *. scalar. built Hv Hb.
Defined.

#[export] Instance FixedBinary_laws n : VgiArrowLaws (FixedBinary n).
Proof.
  refine {| storable v := zlen (fixed_binary v) = n ∧ 0 < n < 2 ^ 31 |};
    cbn [read arrow_data_type build_singleton nullable FixedBinary_vgi].
  - intros [v] a [<- Hn] (Hv & _)%fixed_from; [|done]. unfold read_kind, as_array. rewrite Hv.
    cbn [ok_or mbind res_bind]. rewrite value_at_single. cbn [mbind res_bind fixed_binary]. by rewrite Z.eqb_refl.
  - intros [v] a [<- Hn] (_ & Ht & Hl & _)%fixed_from; [|done]. rewrite Ht. cbn [fixed_binary] in *. split; [|done].
    unfold as_i32. rewrite Z.mod_small by lia. do 2 f_equal. lia.
  - intros [v] a _ [<- Hn] (_ & _ & _ & Hl)%fixed_from; done.
  - intros a i b j R. by rewrite (read_kind_row _ _ _ _ _ R).
Defined.

#[export] Instance DictString_laws : VgiArrowLaws DictString.
Proof.
  refine {| storable v := utf8_valid (dict_string v) = true |};
    cbn [read arrow_data_type build_singleton nullable DictString_vgi].
  - intros [v] a Hv [= <-]. destruct (dictionary_built v Hv) as (Hs & (d & Hd & Hr) & _).
    unfold read_string. cbn [dict_string]. by rewrite Hs, Hd, Hr.
  - intros [v] a Hv [= <-]. by destruct (dictionary_built v Hv) as (_ & _ & ? & ? & _).
  - intros [v] a _ Hv [= <-]. by destruct (dictionary_built v Hv) as (_ & _ & _ & _ & ?).
  - intros a i b j R. by rewrite (read_string_row _ _ _ _ R).
Defined.

#[export] Instance Duration_laws : VgiArrowLaws Duration.
Proof.
  refine {| storable _ := True |}; [|scalar_laws..].
  intros [v] a Hv Hb. cbn [read Duration_vgi build_singleton micros] in *. scalar.
  erewrite read_kind_built; [done..| |done]. cbn. unfold in_i64. lia.
Defined.
End ScalarLaws.

(** ** Calendar values *)
Class ChronoLaws `{Chrono} := {
  days_of_date : ∀ d, - 2 ^ 31 ≤ num_days d < 2 ^ 31 ∧ date_from_days (num_days d) = Some d;
  micros_of_datetime : ∀ m d, from_timestamp_micros m = Some d → in_i64 m ∧ timestamp_micros d = m;
  datetime_of_micros : ∀ d m, in_i64 (timestamp_micros d) → from_timestamp_micros m = Some d →
    from_timestamp_micros (timestamp_micros d) = Some d;
  time_fields : ∀ s n t, from_num_seconds_from_midnight_opt s n = Some t →
    num_seconds_from_midnight t = s ∧ nanosecond t = n;
  time_range : ∀ t, 0 ≤ num_seconds_from_midnight t < 86400 ∧ 0 ≤ nanosecond t < 2 * 10 ^ 9 ∧
    from_num_seconds_from_midnight_opt (num_seconds_from_midnight t) (nanosecond t) = Some t
}.

Section CalendarLaws.
Context {Array : Type} `{!ArrowValues Array, !ArrowValuesLaws, ChronoLaws}.

#[export] Instance NaiveDate_laws : VgiArrowLaws NaiveDate.
Proof.
  refine {| storable _ := True |};
    cbv [read arrow_data_type build_singleton nullable NaiveDate_vgi]; [|by scalar_laws..|].
  - intros d a _ Hb. destruct (days_of_date d) as [Hr Hd].
    assert (as_i32 (num_days d) = num_days d) as E by (unfold as_i32; rewrite Z.mod_small; lia).
    rewrite E in Hb. rewrite (read_kind_built _ _ _ _ Hb Hr eq_refl). cbn. by rewrite Hd.
  - intros a i b j R. by erewrite read_kind_row.
Defined.

Lemma timestamp_laws (tz : option (list byte)) (d : NaiveDateTime) a msg :
  (∃ m, from_timestamp_micros m = Some d) → singleton_from KTimestampMicrosecond (TTimestamp tz) (timestamp_micros d) = Ok a →
  read_timestamp a 0 msg = Ok d.
Proof.
  intros [m Hm] Hb. destruct (micros_of_datetime m d Hm) as [Hr E].
  assert (in_i64 (timestamp_micros d)) as Hi by (by rewrite E).
  unfold read_timestamp. rewrite (read_kind_built _ _ _ _ Hb Hi eq_refl). cbn. by rewrite E, Hm.
Qed.

(** A date and time that a count of microseconds denotes. *)
#[export] Instance NaiveDateTime_laws : VgiArrowLaws NaiveDateTime.
Proof.
  refine {| storable d := ∃ m, from_timestamp_micros m = Some d |};
    cbv [read arrow_data_type build_singleton nullable NaiveDateTime_vgi]; [|by scalar_laws..|].
  - intros d a Hd Hb. by eapply timestamp_laws.
  - intros a i b j R. unfold read_timestamp. by erewrite read_kind_row.
Defined.

#[export] Instance UtcTimestamp_laws : VgiArrowLaws UtcTimestamp.
Proof.
  refine {| storable d := ∃ m, from_timestamp_micros m = Some (utc d) |};
    cbv [read arrow_data_type build_singleton nullable UtcTimestamp_vgi]; [|by scalar_laws..|].
  - intros [d] a Hd Hb. by erewrite timestamp_laws.
  - intros a i b j R. unfold read_timestamp. by erewrite read_kind_row.
Defined.

(** A time without a leap second, to the microsecond. *)
#[export] Instance NaiveTime_laws : VgiArrowLaws NaiveTime.
Proof.
  refine {| storable t := nanosecond t < 10 ^ 9 ∧ nanosecond t mod 1000 = 0 |};
    cbv [read arrow_data_type build_singleton nullable NaiveTime_vgi]; [|by scalar_laws..|].
  - intros t a [Hn Hm] Hb. destruct (time_range t) as (Hs & Hn' & Ht).
    set (s := num_seconds_from_midnight t) in *. set (n := nanosecond t) in *.
    assert (n = n / 1000 * 1000) as En by (rewrite (Z.div_mod n 1000) at 1 by lia; lia).
    assert (0 ≤ n / 1000 < 1000000) as Hr by (split; [apply Z.div_pos; lia|apply Z.div_lt_upper_bound; lia]).
    assert (Z.quot n 1000 = n / 1000) as Eq by (apply Z.quot_div_nonneg; lia). rewrite Eq in Hb.
    assert (in_i64 (s * 1000000 + n / 1000)) as Hi by (ints; lia).
    rewrite (read_kind_built _ _ _ _ Hb Hi eq_refl). cbn [mbind res_bind]. unfold time_of_micros.
    rewrite Z.quot_div_nonneg, Z.rem_mod_nonneg by lia.
    rewrite Z.div_add_l, Z.div_small, Z.add_0_r by lia.
    rewrite (Z.add_comm (s * 1000000)), Z_mod_plus_full, (Z.mod_small (n / 1000)) by lia.
    unfold as_u32. rewrite <- En, !Z.mod_small by lia.
    by rewrite Ht.
  - intros a i b j R. by erewrite read_kind_row.
Defined.
End CalendarLaws.

(** ** Collections *)
Section Collections.
Context {Array : Type} `{!ArrowValues Array, !ArrowValuesLaws}.

#[export] Instance option_laws T `{!VgiArrow T, !VgiArrowLaws T, !TCEq (nullable T) false} : VgiArrowLaws (option T).
Proof.
  refine {| storable v := match v with Some v => storable v | None => True end |};
    cbn [read arrow_data_type build_singleton nullable option_vgi]; [..|].
  - intros [v|] a Hv Hb.
    + rewrite (built_present v a) by (done || by apply TCEq_eq). cbn [or_panic mbind res_bind].
      rewrite (read_built v a) by done. done.
    + injection Hb as <-. by destruct (null_array (arrow_data_type T)) as (_ & _ & ->).
  - intros [v|] a Hv Hb; [by apply (built_shape v)|]. injection Hb as <-.
    by destruct (null_array (arrow_data_type T)) as (? & ? & _).
  - done.
  - intros a i b j R. rewrite (row_null _ _ _ _ R). destruct (is_null b j) as [[]|]; [done| |done].
    cbn [or_panic mbind res_bind]. by rewrite (read_row a i b j R).
Defined.

Lemma build_each {T} `{!VgiArrow T, !VgiArrowLaws T} vs singles :
  Forall storable vs → mapM build_singleton vs = Ok singles →
  Forall (fun a => type_name a = Some (arrow_data_type T) ∧ array_len a = 1) singles ∧
  Forall2 (fun a v => read a 0 = Ok v) singles vs.
Proof.
  intros Hv. revert singles. induction Hv as [|v vs Hv _ IH]; intros singles E.
  - injection E as <-. by split.
  - cbn in E. apply bind_Ok in E as (a & Ea & E). apply bind_Ok in E as (rest & Er & E). injection E as <-.
    destruct (IH rest Er) as [H1' H2']. split; constructor; try done; [by apply (built_shape v)|by apply read_built].
Qed.

Lemma read_each {T} `{!VgiArrow T, !VgiArrowLaws T} c singles vs :
  (∀ n a, singles !! n = Some a → same_row c (Z.of_nat n) a 0) →
  Forall2 (fun a v => read a 0 = Ok v) singles vs → ∀ k,
  (∀ n a, singles !! n = Some a → same_row c (Z.of_nat (k + n)) a 0) →
  mapM (fun i => read (T:=T) c (Z.of_nat i)) (seq k (length vs)) = Ok vs.
Proof.
  intros _ HF. induction HF as [|a v singles vs Ha _ IH]; intros k Hc; [done|].
  cbn [length seq]. change (mapM ?f (k :: ?l)) with (y ← f k; ys ← mapM f l; Ok (y :: ys)). cbv beta.
  rewrite (read_row c (Z.of_nat k) a 0), Ha; [|rewrite <- (Nat.add_0_r k) at 1; by apply (Hc 0%nat)].
  cbn [mbind res_bind]. rewrite IH; [done|]. intros n b Hb. rewrite Nat.add_succ_comm. by apply Hc.
Qed.

Lemma build_column_spec {T} `{!VgiArrow T, !VgiArrowLaws T} vs inner :
  Forall storable vs → build_column T vs = Ok inner →
  type_name inner = Some (arrow_data_type T) ∧ array_len inner = zlen vs ∧ read_column inner (zlen vs) = Ok vs.
Proof.
  intros Hv E. unfold build_column in E. apply bind_Ok in E as (singles & Es & E).
  destruct (build_each vs singles Hv Es) as [Hs HF]. unfold read_column, zlen. rewrite Nat2Z.id.
  destruct singles as [|a singles].
  - injection E as <-. apply Forall2_nil_inv_l in HF as ->. by destruct (empty_array (arrow_data_type T)).
  - destruct (concat_rows _ (a :: singles) inner ltac:(done) Hs E) as (Ht & Hl & Hr). split_and!; [done| |].
    + rewrite Hl. unfold zlen. by rewrite (Forall2_length HF).
    + by apply (read_each inner (a :: singles)).
Qed.

Lemma as_i32_small z : 0 ≤ z < 2 ^ 31 → as_i32 z = z.
Proof. intros. unfold as_i32. rewrite Z.mod_small; lia. Qed.

Lemma vec_built {T} `{!VgiArrow T, !VgiArrowLaws T} (vs : list T) a :
  Forall storable vs → zlen vs < 2 ^ 31 → build_singleton vs = Ok a →
  ∃ inner, lists_of a = Some [inner] ∧ read_column inner (array_len inner) = Ok vs ∧
    type_name a = Some (TList (arrow_data_type T)) ∧ array_len a = 1 ∧ is_null a 0 = Some false.
Proof.
  intros Hv Hn Hb. cbn [build_singleton Vec_vgi] in Hb. apply bind_Ok in Hb as (inner & Ei & Hb).
  destruct (build_column_spec vs inner Hv Ei) as (Ht & Hl & Hr). pose proof (zlen_nonneg vs).
  rewrite as_i32_small in Hb by lia. rewrite <- Hl in Hb. apply or_panic_Ok in Hb.
  destruct (list_built _ _ _ Ht Hb) as (HL & Hty & Hlen & Hnull). exists inner. by rewrite Hl.
Qed.

#[export] Instance Vec_laws T `{!VgiArrow T, !VgiArrowLaws T} : VgiArrowLaws (list T).
Proof.
  refine {| storable vs := Forall storable vs ∧ zlen vs < 2 ^ 31 |}.
  - intros vs a [Hv Hn] Hb. destruct (vec_built vs a Hv Hn Hb) as (inner & HL & Hr & _).
    cbn [read Vec_vgi]. rewrite HL. cbn [ok_or mbind res_bind]. by rewrite value_at_single.
  - intros vs a [Hv Hn] Hb. by destruct (vec_built vs a Hv Hn Hb) as (inner & _ & _ & ? & ? & _).
  - intros vs a _ [Hv Hn] Hb. by destruct (vec_built vs a Hv Hn Hb) as (inner & _ & _ & _ & _ & ?).
  - intros a i b j R. pose proof (row_lists _ _ _ _ R) as E. cbn [read Vec_vgi]. unfold value_at.
    destruct (lists_of a), (lists_of b); try done. cbn [ok_or mbind res_bind]. cbn [alike_at] in E. by rewrite E.
Defined.

Lemma map_column_built {V} `{!VgiArrow V, !VgiArrowLaws V} (es : list (list byte * V)) a :
  Forall (fun e => utf8_valid e.1 = true) es → Forall storable es.*2 → zlen es < 2 ^ 31 →
  build_singleton (mkDict es) = Ok a →
  ∃ ks vs, maps_of a = Some [(ks, vs)] ∧ values_of KString ks = Some es.*1 ∧ read_column vs (zlen es) = Ok es.*2 ∧
    type_name a = Some (TMap (arrow_data_type V)) ∧ array_len a = 1 ∧ is_null a 0 = Some false.
Proof.
  intros Hk Hv Hn Hb. cbn [build_singleton Map_vgi entries] in Hb. apply bind_Ok in Hb as (vs & Ei & Hb).
  destruct (build_column_spec _ vs Hv Ei) as (Ht & Hl & Hr). pose proof (zlen_nonneg es).
  assert (zlen es.*2 = zlen es) as Hl2 by (unfold zlen; by rewrite length_fmap). rewrite Hl2 in Hl, Hr.
  destruct (from_shape KString TUtf8 es.*1 eq_refl) as [Hkt Hkl].
  assert (zlen es.*1 = zlen es) as Hl1 by (unfold zlen; by rewrite length_fmap). apply (eq_trans Hkl) in Hl1. clear Hkl.
  rewrite as_i32_small in Hb by lia. rewrite <- Hl1 in Hb. apply or_panic_Ok in Hb.
  destruct (map_built _ _ _ _ Ht Hkt ltac:(congruence) Hb) as (HM & Hty & Hlen & Hnull).
  eexists _, vs. split_and!; [done| |done..]. apply from_values; [done|]. by apply list.Forall_fmap.
Qed.

#[export] Instance Map_laws V `{!VgiArrow V, !VgiArrowLaws V} : VgiArrowLaws (Dict V).
Proof.
  refine {| storable d := Forall (fun e => utf8_valid e.1 = true) (entries d) ∧ Forall storable (entries d).*2 ∧
                          zlen (entries d) < 2 ^ 31 |}; cbn [entries].
  - intros [es] a (Hk & Hv & Hn) Hb.
    destruct (map_column_built es a Hk Hv Hn Hb) as (ks & vs & HM & Hks & Hvs & _).
    cbn [read Map_vgi]. rewrite HM. cbn [ok_or mbind res_bind]. rewrite value_at_single. cbn [mbind res_bind].
    unfold as_array. rewrite Hks. cbn [ok_or mbind res_bind].
    assert (zlen es.*1 = zlen es) as -> by (unfold zlen; by rewrite length_fmap).
    rewrite Hvs. cbn [mbind res_bind]. by rewrite zip_fst_snd.
  - intros [es] a (Hk & Hv & Hn) Hb.
    by destruct (map_column_built es a Hk Hv Hn Hb) as (ks & vs & _ & _ & _ & ? & ? & _).
  - intros [es] a _ (Hk & Hv & Hn) Hb.
    by destruct (map_column_built es a Hk Hv Hn Hb) as (ks & vs & _ & _ & _ & _ & _ & ?).
  - intros a i b j R. pose proof (row_maps _ _ _ _ R) as E. cbn [read Map_vgi]. unfold value_at.
    destruct (maps_of a), (maps_of b); try done. cbn [ok_or mbind res_bind]. cbn [alike_at] in E. by rewrite E.
Defined.
End Collections.

(** ** What a method's columns promise *)
Section Claims.
Context {Array : Type} `{!ArrowValues Array, !ArrowValuesLaws}.

(** C33. A column built for a value of a map of lists of optional values, over any
    element type whose columns keep their values, has the type the schema declares for
    it, one row that is not null, and reads back as the value: the order of the
    entries, the lengths of the lists, which elements are absent and every element are
    kept. *)
Theorem nested_column_kept T `{!VgiArrow T, !VgiArrowLaws T, !TCEq (nullable T) false}
    (d : Dict (list (option T))) a :
  storable d → build_singleton d = Ok a →
  type_name a = Some (arrow_data_type (Dict (list (option T)))) ∧ array_len a = 1 ∧ is_null a 0 = Some false ∧
  read a 0 = Ok d.
Proof.
  intros Hd Hb. destruct (built_shape d a Hd Hb). split_and!; [done..|by apply (built_present d)|by apply read_built].
Qed.

(** The time-of-day reader casts its count of seconds to 32 bits before it checks
    the range: a count of microseconds that is 2^32 seconds too large reads as the same
    time of day instead of being refused. *)
Theorem time_of_day_wraps `{Chrono} (a : Array) (idx m : Z) vs :
  values_of KTime64Microsecond a = Some vs → znth vs idx = Some (m + 2 ^ 32 * 1000000) → 0 ≤ m →
  read a idx = ok_or (RpcErr.value_error (bs "time-of-day out of range")) (time_of_micros m).
Proof.
  intros Hv Hi Hm. cbn [read NaiveTime_vgi]. unfold read_kind, as_array. rewrite Hv. cbn [ok_or mbind res_bind].
  unfold value_at. rewrite Hi. cbn [or_panic mbind res_bind]. f_equal. unfold time_of_micros.
  rewrite !Z.quot_div_nonneg, !Z.rem_mod_nonneg by lia. rewrite Z.div_add, Z.mod_add by lia. f_equal.
  unfold as_u32. by rewrite <- Zplus_mod_idemp_r, Z.mod_same, Z.add_0_r.
Qed.
End Claims.
