(* ===== verification/DataExample.v ===== *)
(** * Values, run

    An instance of [Json] with its round trip, so that every theorem about JSON text
    runs, and Arrow columns as lists of cells under a type. *)

From S2P Require Import Prelude Bytes F64 Json.
From S2P Require Import Errors ArrowType ArrowTypeProps.
From Stdlib Require Import Floats.SpecFloat.

(** ** A text form of JSON values *)

Definition put_string (s : list byte) : list byte := flat_map (fun b => [x01; b]) s ++ [x00].

Definition put_int (z : Z) : list byte := (if z <? 0 then x2d else x2b) :: le_bytes 8 (Z.abs z).

Fixpoint put (v : Value) : list byte :=
  match v with
  | JNull => [x6e]
  | JBool b => [if b then x74 else x66]
  | JInt z => x69 :: put_int z
  | JFloat _ => [x64]
  | JString s => x73 :: put_string s
  | JArray l => x61 :: flat_map (fun v => x01 :: put v) l ++ [x00]
  | JObject m => x6f :: flat_map (fun kv => x01 :: put_string kv.1 ++ put kv.2) m ++ [x00]
  end.

Fixpoint get_string (l : list byte) : option (list byte * list byte) :=
  match l with
  | x00 :: l => Some ([], l)
  | x01 :: b :: l => '(s, l) ← get_string l; Some (b :: s, l)
  | _ => None
  end.

Definition get_int (l : list byte) : option (Z * list byte) :=
  match l with
  | s :: l => if (length l <? 8)%nat then None
              else let z := le_val (take 8 l) in Some (if decide (s = x2d) then - z else z, drop 8 l)
  | [] => None
  end.

Section Items.
Context {A : Type} (item : list byte → option (A * list byte)).

(** Items up to the end mark. *)
Fixpoint get_items (n : nat) (l : list byte) : option (list A * list byte) :=
  match n with
  | O => None
  | S n =>
    match l with
    | x00 :: l => Some ([], l)
    | x01 :: l => '(v, l) ← item l; '(vs, l) ← get_items n l; Some (v :: vs, l)
    | _ => None
    end
  end.
End Items.

Fixpoint get (n : nat) (l : list byte) : option (Value * list byte) :=
  match n with
  | O => None
  | S n =>
    match l with
    | x6e :: l => Some (JNull, l)
    | x74 :: l => Some (JBool true, l)
    | x66 :: l => Some (JBool false, l)
    | x69 :: l => '(z, l) ← get_int l; Some (JInt z, l)
    | x73 :: l => '(s, l) ← get_string l; Some (JString s, l)
    | x61 :: l => '(vs, l) ← get_items (get n) n l; Some (JArray vs, l)
    | x6f :: l =>
      '(kvs, l) ← get_items (fun l => '(k, l) ← get_string l; '(v, l) ← get n l; Some ((k, v), l)) n l;
      Some (JObject kvs, l)
    | _ => None
    end
  end.

(** The text is hexadecimal. *)
Fixpoint unhex (l : list byte) : list byte :=
  match l with
  | a :: b :: l => z2b (default 0 (parse_u8_hex [a; b])) :: unhex l
  | _ => []
  end.

Lemma unhex_hex l : unhex (bytes_to_hex l) = l.
Proof.
  induction l as [|b l IH]; [done|]. change (bytes_to_hex (b :: l)) with (hex_byte b ++ bytes_to_hex l).
  unfold hex_byte at 1. cbn [app unhex]. rewrite IH. f_equal. fold (hex_byte b). rewrite parse_u8_hex_byte.
  apply z2b_b2z.
Qed.

#[global] Instance example_json : Json := {|
  json_to_string v := bytes_to_hex (put v);
  json_from_str l := let l := unhex l in match get (S (length l)) l with Some (v, []) => Some v | _ => None end
|}.

Lemma get_put_string s l : get_string (put_string s ++ l) = Some (s, l).
Proof. induction s as [|b s IH]; [done|]. unfold put_string in *. simpl. by rewrite IH. Qed.

Lemma get_put_int z l : i64_min ≤ z ≤ u64_max → get_int (put_int z ++ l) = Some (z, l).
Proof.
  intros Hz. unfold get_int, put_int. cbn [app].
  rewrite length_app, length_le_bytes. destruct (Nat.ltb_spec (8 + length l) 8); [lia|].
  rewrite take_app_length', drop_app_length' by (by rewrite length_le_bytes).
  rewrite le_val_bytes_small by (ints; lia).
  destruct (Z.ltb_spec z 0); [rewrite decide_True by done|rewrite decide_False by done]; do 2 f_equal; lia.
Qed.

(** Items that read back one by one read back in sequence. *)
Lemma get_put_items {A} (item : list byte → option (A * list byte)) (enc : A → list byte) (vs : list A) n l :
  Forall (fun v => ∀ r, item (enc v ++ r) = Some (v, r)) vs → (length vs < n)%nat →
  get_items item n (flat_map (fun v => x01 :: enc v) vs ++ [x00] ++ l) = Some (vs, l).
Proof.
  intros Hv. revert n. induction Hv as [|v vs Hv _ IH]; intros [|n] Hn; try (simpl in Hn; lia); [done|].
  simpl. rewrite <- app_assoc, Hv. simpl. simpl in IH. rewrite IH; [done|simpl in Hn; lia].
Qed.

Lemma length_flat_map_ge {A} (f : A → list byte) (vs : list A) :
  (length vs ≤ length (flat_map (fun v => x01 :: f v) vs))%nat.
Proof. induction vs as [|v vs IH]; simpl; [lia|]. rewrite length_app. lia. Qed.

Lemma flat_map_item {A} (f : A → list byte) (vs : list A) v :
  v ∈ vs → (length (f v) < length (flat_map (fun v => x01 :: f v) vs))%nat.
Proof.
  induction vs as [|w vs IH]; [by intros ?%elem_of_nil|]. simpl. rewrite length_app.
  intros [->|Hin]%elem_of_cons; [lia|]. specialize (IH Hin). lia.
Qed.

Lemma get_put v d n l :
  text_safe d v = true → (length (put v) < n)%nat → get n (put v ++ l) = Some (v, l).
Proof.
  revert d n l. induction v as [|b|z|x|s|vs IH|m IH] using Value_nested_ind; intros d [|n] l Hs Hn; try lia; try done.
  - by destruct b.
  - simpl in Hs. apply andb_true_iff in Hs as [H1%Z.leb_le H2%Z.leb_le].
    cbn [get put app]. rewrite get_put_int by lia. done.
  - cbn [get put app]. by rewrite get_put_string.
  - destruct d as [|d]; [done|]. simpl in Hs. rewrite forallb_forall in Hs. cbn [get put app].
    rewrite <- app_assoc. simpl in Hn. rewrite length_app in Hn. simpl in Hn.
    rewrite (get_put_items (get n) put); [done| |].
    + apply list.Forall_forall. intros v Hv r. rewrite list.Forall_forall in IH. apply (IH v Hv d).
      * apply Hs. by apply list_elem_of_In.
      * pose proof (flat_map_item put vs v Hv). lia.
    + pose proof (length_flat_map_ge put vs). lia.
  - destruct d as [|d]; [done|]. simpl in Hs. apply andb_true_iff in Hs as [_ Hs]. rewrite forallb_forall in Hs.
    cbn [get put app]. rewrite <- app_assoc. simpl in Hn. rewrite length_app in Hn. simpl in Hn.
    rewrite (get_put_items _ (fun kv : list byte * Value => put_string kv.1 ++ put kv.2)); [done| |].
    + apply list.Forall_forall. intros [k v] Hv r. rewrite <- app_assoc, get_put_string. simpl.
      rewrite list.Forall_forall in IH. rewrite (IH (k, v) Hv d); [done| |].
      * apply list_elem_of_In, Hs in Hv. by apply andb_true_iff in Hv as [_ ?].
      * pose proof (flat_map_item (fun kv : list byte * Value => put_string kv.1 ++ put kv.2) m (k, v) Hv) as H.
        cbn [fst snd] in H |- *. rewrite length_app in H. lia.
    + pose proof (length_flat_map_ge (fun kv : list byte * Value => put_string kv.1 ++ put kv.2) m). lia.
Qed.

#[global] Instance example_json_laws : JsonLaws.
Proof.
  constructor; intros v Hv; cbn [json_from_str json_to_string example_json].
  - rewrite unhex_hex. rewrite <- (app_nil_r (put v)) at 2. by rewrite (get_put v JSON_DEPTH) by (done || lia).
  - apply utf8_valid_ascii, bytes_to_hex_ascii.
Qed.

(** ** Columns, run *)

#[local] Open Scope Z_scope.

#[global] Instance TypeName_eq_dec : EqDecision TypeName.
Proof. solve_decision. Defined.

#[local] Set Warnings "-register-all".
Inductive Cell :=
| CNull | CBytes (b : list byte) | CZ (z : Z) | CFloat (f : spec_float) | CBool (b : bool)
| CList (t : TypeName) (cells : list Cell)
| CEntries (keys : list Cell) (t : TypeName) (values : list Cell).
Record Column := mkColumn { col_type : TypeName; cells : list Cell }.

Definition cell_bytes c := match c with CBytes b => b | _ => [] end.
Definition cell_Z c := match c with CZ z => z | _ => 0 end.
Definition cell_float c := match c with CFloat f => f | _ => S754_nan end.
Definition cell_bool c := match c with CBool b => b | _ => false end.

Definition cell_value (k : Kind) : Cell → carrier k :=
  match k with
  | KString | KLargeString | KBinary | KLargeBinary | KFixedSizeBinary => cell_bytes
  | KFloat32 | KFloat64 => cell_float
  | KBoolean => cell_bool
  | _ => cell_Z
  end.
Definition value_cell (k : Kind) : carrier k → Cell :=
  match k with
  | KString | KLargeString | KBinary | KLargeBinary | KFixedSizeBinary => CBytes
  | KFloat32 | KFloat64 => CFloat
  | KBoolean => CBool
  | _ => CZ
  end.

Definition holds (k : Kind) (t : TypeName) : bool :=
  match k, t with KFixedSizeBinary, TFixedSizeBinary _ => true | _, _ => kind_type k t end.

Definition same_type (t : TypeName) (l : list Column) : bool := forallb (fun c => bool_decide (col_type c = t)) l.

#[global] Instance cell_arrays : ArrowValues Column := {|
  values_of k c := if holds k (col_type c) then Some (cell_value k <$> cells c) else None;
  dictionary_of w c :=
    if (w =? 16) && bool_decide (col_type c = TDictionary16)
    then Some (seqZ 0 (zlen (cells c)), mkColumn TUtf8 (cells c)) else None;
  lists_of c :=
    match col_type c with
    | TList t => Some ((fun x => match x with CList t cs => mkColumn t cs | _ => mkColumn t [] end) <$> cells c)
    | _ => None
    end;
  maps_of c :=
    match col_type c with
    | TMap t => Some ((fun x => match x with
                                | CEntries ks t vs => (mkColumn TUtf8 ks, mkColumn t vs)
                                | _ => (mkColumn TUtf8 [], mkColumn t [])
                                end) <$> cells c)
    | _ => None
    end;
  array_len c := zlen (cells c);
  type_name c := Some (col_type c);
  is_null c i := (fun x => match x with CNull => true | _ => false end) <$> znth (cells c) i;
  array_from k t vs := mkColumn t (value_cell k <$> vs);
  fixed_size_from l :=
    match l with [v] => Ok (mkColumn (TFixedSizeBinary (zlen v)) [CBytes v]) | _ => Err (RpcErr.new (bs "ArrowError") []) end;
  dictionary_from vs := mkColumn TDictionary16 (CBytes <$> vs);
  list_new t offs c :=
    match offs with
    | [0; n] => if bool_decide (col_type c = t) && (n =? zlen (cells c)) then Some (mkColumn (TList t) [CList t (cells c)]) else None
    | _ => None
    end;
  map_new t offs ks c :=
    match offs with
    | [0; n] => if bool_decide (col_type c = t) && bool_decide (col_type ks = TUtf8) && (n =? zlen (cells c)) && (n =? zlen (cells ks))
                then Some (mkColumn (TMap t) [CEntries (cells ks) t (cells c)]) else None
    | _ => None
    end;
  new_null_array t n := mkColumn t (replicate (Z.to_nat n) CNull);
  new_empty_array t := mkColumn t [];
  concat_arrays l :=
    match l with
    | c :: _ => if same_type (col_type c) l then Ok (mkColumn (col_type c) (concat (cells <$> l))) else Err (RpcErr.new (bs "ArrowError") [])
    | [] => Err (RpcErr.new (bs "ArrowError") [])
    end |}.

Lemma cell_value_cell k v : cell_value k (value_cell k v) = v.
Proof. by destruct k. Qed.
Lemma value_cell_present k v : match value_cell k v with CNull => true | _ => false end = false.
Proof. by destruct k. Qed.
Lemma holds_kind k t : kind_type k t = true → holds k t = true.
Proof. by destruct k, t. Qed.

Lemma znth_fmap {A B} (f : A → B) l i : znth (f <$> l) i = f <$> znth l i.
Proof. unfold znth. case_match; [apply list_lookup_fmap|done]. Qed.

(** Two columns of one type that hold the same cell at a row are not told apart there. *)
Lemma same_cell (a b : Column) i j :
  col_type a = col_type b → (∃ c, znth (cells a) i = Some c ∧ znth (cells b) j = Some c) → same_row a i b j.
Proof.
  destruct a as [t ca], b as [t' cb]. cbn [col_type cells]. intros <- (c & Ha & Hb).
  assert (∀ (l : list Cell) k x, znth l k = Some x → znth (seqZ 0 (zlen l)) k = Some k) as Hs.
  { intros l k x E. unfold znth in *. case_match; [|done]. apply lookup_seqZ. apply lookup_lt_Some in E. unfold zlen. lia. }
  constructor.
  - intros k. cbn [values_of cell_arrays col_type cells]. destruct (holds k t); [|done].
    cbn [alike_at]. by rewrite !znth_fmap, Ha, Hb.
  - intros w. cbn [dictionary_of cell_arrays col_type cells].
    destruct ((w =? 16) && bool_decide (t = TDictionary16)) eqn:Ew; [|done]. apply andb_true_iff in Ew as [_ Et].
    apply bool_decide_eq_true in Et as ->. unfold read_dict, value_at. cbn [fst snd].
    rewrite (Hs _ _ _ Ha), (Hs _ _ _ Hb). cbn. by rewrite !znth_fmap, Ha, Hb.
  - cbn [lists_of cell_arrays col_type cells]. destruct t; try done. cbn [alike_at]. by rewrite !znth_fmap, Ha, Hb.
  - cbn [maps_of cell_arrays col_type cells]. destruct t; try done. cbn [alike_at]. by rewrite !znth_fmap, Ha, Hb.
  - cbn [is_null cell_arrays cells]. by rewrite Ha, Hb.
Qed.

Lemma concat_single (l : list Column) n a :
  Forall (fun c => zlen (cells c) = 1) l → l !! n = Some a →
  ∃ c, znth (cells a) 0 = Some c ∧ concat (cells <$> l) !! n = Some c.
Proof.
  intros HF. revert n. induction HF as [|x l Hx _ IH]; intros n E; [done|].
  destruct (cells x) as [|c [|d r]] eqn:Ec; [done| |rewrite !zlen_cons in Hx; pose proof (zlen_nonneg r); lia].
  destruct n as [|n]; cbn in E; cbn [fmap list_fmap concat]; rewrite Ec.
  - injection E as <-. exists c. by rewrite Ec.
  - apply IH, E.
Qed.

Lemma concat_length (l : list Column) :
  Forall (fun c => zlen (cells c) = 1) l → zlen (concat (cells <$> l)) = zlen l.
Proof.
  induction 1 as [|x l Hx _ IH]; [done|]. cbn [fmap list_fmap concat]. rewrite zlen_app, zlen_cons, Hx.
  f_equal. exact IH.
Qed.

#[global] Instance cell_laws : ArrowValuesLaws (Array:=Column).
Proof.
  constructor.
  - intros k t vs Hk _. cbn [values_of array_from cell_arrays col_type cells]. rewrite (holds_kind _ _ Hk). f_equal.
    clear. induction vs as [|v vs IH]; [done|]. cbn [fmap list_fmap]. by rewrite cell_value_cell, IH.
  - intros k t vs _. cbn. split; [done|]. unfold zlen. by rewrite length_fmap.
  - intros k t vs i _ Hi. cbn [is_null array_from cell_arrays cells]. rewrite znth_fmap.
    destruct (znth_Some vs i Hi) as [v ->]. cbn. by rewrite value_cell_present.
  - intros v a [= <-] _. done.
  - intros v _. split_and!; try done. eexists. split; [done|]. done.
  - intros t inner a [= Ht] E. cbn [list_new array_len cell_arrays] in E.
    rewrite bool_decide_eq_true_2, Z.eqb_refl in E by done. injection E as <-. cbn [lists_of cell_arrays col_type cells].
    subst. by destruct inner.
  - intros t ks vs a [= Ht] [= Hk] El E. cbn [map_new array_len cell_arrays] in *.
    rewrite !bool_decide_eq_true_2, El, !Z.eqb_refl in E by done. injection E as <-.
    cbn [maps_of cell_arrays col_type cells]. subst. destruct ks as [tk ck], vs. cbn in Hk. by subst.
  - done.
  - done.
  - intros t [|c l] r Hn HF E; [done|]. cbn [concat_arrays cell_arrays] in E. destruct (same_type _ _); [|done].
    injection E as <-. assert (Forall (fun c => zlen (cells c) = 1) (c :: l)) as H1' by (eapply list.Forall_impl; [done|by intros ? []]).
    assert (∀ a, a ∈ c :: l → col_type a = t) as Hty.
    { intros a Ha. rewrite list.Forall_forall in HF. by destruct (HF a Ha) as [[= ?] _]. }
    split_and!.
    + cbn [type_name cell_arrays col_type]. f_equal. apply Hty. left.
    + exact (concat_length _ H1').
    + intros n a Ha. destruct (concat_single _ _ _ H1' Ha) as (x & Hx & Hc). apply same_cell.
      * cbn [col_type]. rewrite (Hty a) by (by eapply list_elem_of_lookup_2). apply Hty. left.
      * exists x. split; [|done]. cbn [cells]. unfold znth. rewrite Nat2Z.id. destruct (Z.leb_spec 0 (Z.of_nat n)); [done|lia].
Defined.

(** ** Times of day as counts *)
#[global] Instance counts : Chrono := {|
  NaiveDate := { d : Z | bool_decide (- 2 ^ 31 ≤ d < 2 ^ 31) };
  NaiveDateTime := { m : Z | bool_decide (i64_min ≤ m ≤ i64_max) };
  NaiveTime := { t : Z * Z | bool_decide (0 ≤ t.1 < 86400 ∧ 0 ≤ t.2 < 2 * 10 ^ 9) };
  date_from_days d := match decide (bool_decide (- 2 ^ 31 ≤ d < 2 ^ 31)) with left p => Some (d ↾ p) | _ => None end;
  num_days d := `d;
  from_timestamp_micros m := match decide (bool_decide (i64_min ≤ m ≤ i64_max)) with left p => Some (m ↾ p) | _ => None end;
  timestamp_micros d := `d;
  from_num_seconds_from_midnight_opt s n :=
    match decide (bool_decide (0 ≤ (s, n).1 < 86400 ∧ 0 ≤ (s, n).2 < 2 * 10 ^ 9)) with left p => Some ((s, n) ↾ p) | _ => None end;
  num_seconds_from_midnight t := (`t).1;
  nanosecond t := (`t).2 |}.

Definition demo_dict : Dict (list (option Utf8String)) :=
  mkDict [(bs "a", [Some (mkString (bs "x")); None]); (bs "b", [])].
Definition demo_column : Column := default (mkColumn TUtf8 []) (match build_singleton demo_dict with Ok a => Some a | _ => None end).

Lemma nested_column_kept_witness :
  storable demo_dict ∧ build_singleton demo_dict = Ok demo_column ∧ read demo_column 0 = Ok demo_dict.
Proof.
  assert (storable demo_dict) as Hs by (split_and!; [repeat constructor| |done]; repeat constructor).
  assert (build_singleton demo_dict = Ok demo_column) as Hb by (vm_compute; reflexivity).
  split_and!; [done..|]. by apply (nested_column_kept Utf8String demo_dict demo_column).
Defined.

(** One second past midnight, 2^32 seconds later. *)
Lemma time_of_day_wraps_witness :
  is_ok (read (T:=NaiveTime) (mkColumn TTime64 [CZ (1000000 + 2 ^ 32 * 1000000)]) 0) = true.
Proof. by rewrite (time_of_day_wraps (mkColumn TTime64 [CZ (1000000 + 2 ^ 32 * 1000000)]) 0 1000000 [1000000 + 2 ^ 32 * 1000000]). Defined.
