(* ===== verification/ShmAllocator.v ===== *)
(** * The first-fit allocator in the segment header

    [ShmAllocator] of [vgi-rpc/src/shm.rs]. The allocation table lives in the
    first [HEADER_SIZE] bytes of the segment, so every operation reads and
    writes the bytes of the mapping, and the peer may have put any bytes there.
    [total_size] is the segment's size, which [attach] copies from the handle.

    [OsShm] of [vgi-rpc/src/shm.rs]: a named region of [size] bytes obtained
    from the operating system, zero-filled at creation. The bytes are a finite
    map whose absent keys are zero, so a segment of any size evaluates. Every
    access of the source goes through [as_slice] / [as_mut_slice] and a range
    index, which panics outside [0 .. size]: [read_slice] and [write_slice]. *)

From stdpp Require Import sorting.
From S2P Require Import Prelude Bytes Errors.

(** ** The mapped segment *)

Record OsShm := mkOsShm {
  os_name : list byte;
  os_size : Z;
  os_mem : gmap Z byte
}.

Definition peek (s : OsShm) (i : Z) : byte := default x00 (os_mem s !! i).

Fixpoint store_at (m : gmap Z byte) (i : Z) (l : list byte) : gmap Z byte :=
  match l with
  | [] => m
  | b :: l => store_at (<[i := b]> m) (i + 1) l
  end.

Definition store (s : OsShm) (i : Z) (l : list byte) : OsShm :=
  mkOsShm (os_name s) (os_size s) (store_at (os_mem s) i l).

Fixpoint load (s : OsShm) (i : Z) (n : nat) : list byte :=
  match n with
  | O => []
  | S n => peek s i :: load s (i + 1) n
  end.

(** [shm.as_slice()[a..b]] *)
Definition read_slice (s : OsShm) (a b : Z) : res RpcError (list byte) :=
  if (0 <=? a) && (a <=? b) && (b <=? os_size s) then Ok (load s a (Z.to_nat (b - a))) else Panic.

(** [shm.as_mut_slice()[a..a + l.len()].copy_from_slice(l)] *)
Definition write_slice (s : OsShm) (a : Z) (l : list byte) : res RpcError OsShm :=
  if (0 <=? a) && (a + zlen l <=? os_size s) then Ok (store s a l) else Panic.

Section Memory.
Implicit Types (s : OsShm) (l : list byte).

Lemma lookup_store_at m i l a :
  store_at m i l !! a =
    if (i <=? a) && (a <? i + zlen l) then l !! Z.to_nat (a - i) else m !! a.
Proof.
  revert m i. induction l as [|b l IH]; intros m i; cbn [store_at].
  - rewrite zlen_nil. destruct (Z.leb_spec i a), (Z.ltb_spec a (i + 0)); simpl; done || lia.
  - rewrite IH, zlen_cons. pose proof (zlen_nonneg l).
    destruct (decide (a = i)) as [->|Hne].
    + destruct (Z.leb_spec (i + 1) i), (Z.leb_spec i i), (Z.ltb_spec i (i + (1 + zlen l)));
        simpl; try lia. rewrite lookup_insert_eq. by replace (i - i) with 0 by lia.
    + rewrite lookup_insert_ne by done.
      destruct (Z.leb_spec (i + 1) a), (Z.leb_spec i a), (Z.ltb_spec a (i + 1 + zlen l)),
        (Z.ltb_spec a (i + (1 + zlen l))); simpl; try lia; try done.
      replace (Z.to_nat (a - i)) with (S (Z.to_nat (a - (i + 1)))) by lia. done.
Qed.

Lemma peek_store_out s i l a : a < i ∨ i + zlen l ≤ a → peek (store s i l) a = peek s a.
Proof.
  intros H. unfold peek, store; simpl. rewrite lookup_store_at.
  destruct (Z.leb_spec i a), (Z.ltb_spec a (i + zlen l)); simpl; done || lia.
Qed.

Lemma os_size_store s i l : os_size (store s i l) = os_size s.
Proof. reflexivity. Qed.

Lemma length_load s i n : length (load s i n) = n.
Proof. revert i. induction n; intros; simpl; auto. Qed.

Lemma load_ext s t i n :
  (∀ a, i ≤ a < i + Z.of_nat n → peek s a = peek t a) → load s i n = load t i n.
Proof.
  revert i. induction n as [|n IH]; intros i H; simpl; [done|].
  f_equal; [apply H; lia|]. apply IH. intros. apply H. lia.
Qed.

Lemma lookup_load s i n k : (k < n)%nat → load s i n !! k = Some (peek s (i + Z.of_nat k)).
Proof.
  revert i k. induction n as [|n IH]; intros i [|k] Hk; simpl; try lia.
  - by rewrite Z.add_0_r.
  - rewrite IH by lia. do 2 f_equal. lia.
Qed.

Lemma load_store_same s i l : load (store s i l) i (length l) = l.
Proof.
  apply list_eq. intros k. destruct (decide (k < length l)%nat) as [Hk|Hk].
  - rewrite lookup_load by done. unfold peek, store; simpl. rewrite lookup_store_at.
    unfold zlen. destruct (Z.leb_spec i (i + Z.of_nat k)),
      (Z.ltb_spec (i + Z.of_nat k) (i + Z.of_nat (length l))); simpl; try lia.
    replace (Z.to_nat (i + Z.of_nat k - i)) with k by lia.
    destruct (lookup_lt_is_Some_2 l k Hk) as [b ->]. done.
  - rewrite (lookup_ge_None_2 l) by lia. apply lookup_ge_None_2. rewrite length_load. lia.
Qed.

Lemma load_store_other s i l a n :
  a + Z.of_nat n ≤ i ∨ i + zlen l ≤ a → load (store s i l) a n = load s a n.
Proof. intros. apply load_ext. intros. apply peek_store_out. lia. Qed.

Lemma load_app s i n m : load s i (n + m) = load s i n ++ load s (i + Z.of_nat n) m.
Proof.
  revert i. induction n as [|n IH]; intros i; simpl; [by rewrite Z.add_0_r|].
  rewrite IH. do 3 f_equal. lia.
Qed.

Lemma read_slice_ok s a b :
  0 ≤ a ≤ b → b ≤ os_size s → read_slice s a b = Ok (load s a (Z.to_nat (b - a))).
Proof.
  intros. unfold read_slice.
  destruct (Z.leb_spec 0 a), (Z.leb_spec a b), (Z.leb_spec b (os_size s)); simpl; done || lia.
Qed.

Lemma write_slice_ok s a l :
  0 ≤ a → a + zlen l ≤ os_size s → write_slice s a l = Ok (store s a l).
Proof.
  intros. unfold write_slice.
  destruct (Z.leb_spec 0 a), (Z.leb_spec (a + zlen l) (os_size s)); simpl; done || lia.
Qed.

Lemma write_slice_size s a l s' : write_slice s a l = Ok s' → os_size s' = os_size s.
Proof. unfold write_slice. case_match; intros; by simplify_eq. Qed.
End Memory.

(** Two segments that agree on a range of addresses. *)
Definition same_on (lo hi : Z) (s t : OsShm) : Prop := ∀ a, lo ≤ a < hi → peek s a = peek t a.

#[global] Instance same_on_equiv lo hi : Equivalence (same_on lo hi).
Proof.
  split; [by intros ???|by intros s t H a Ha; rewrite H|].
  intros s t u H1 H2 a Ha. by rewrite H1, H2.
Qed.

Lemma same_on_load lo hi s t a n :
  same_on lo hi s t → lo ≤ a → a + Z.of_nat n ≤ hi → load s a n = load t a n.
Proof. intros H ??. apply load_ext. intros. apply H. lia. Qed.

Lemma same_on_store lo hi s i l :
  i + zlen l ≤ lo ∨ hi ≤ i → same_on lo hi (store s i l) s.
Proof. intros ? a Ha. apply peek_store_out. lia. Qed.

Lemma same_on_mono lo hi lo' hi' s t :
  same_on lo hi s t → lo ≤ lo' → hi' ≤ hi → same_on lo' hi' s t.
Proof. intros H ?? a Ha. apply H. lia. Qed.

#[export] Hint Resolve same_on_mono same_on_store : vgi.

(** ** The first-fit allocator in the segment header *)

Definition HEADER_SIZE : Z := 65536.
Definition MAGIC : list byte := bs "VGIS".
Definition VERSION : Z := 1.
Definition HEADER_FIXED_SIZE : Z := 24.
Definition ALLOC_ENTRY_SIZE : Z := 16.
Definition IPC_ALIGNMENT : Z := 64.
Definition MAX_ALLOCS : Z := (HEADER_SIZE - HEADER_FIXED_SIZE) / ALLOC_ENTRY_SIZE.

Definition align_ipc_allocation (length : Z) : option Z :=
  n ← checked_add length (IPC_ALIGNMENT - 1);
  Some (Z.land n (Z.lnot (IPC_ALIGNMENT - 1))).

(** An entry of the table: [(offset, length)], both [u64]. *)
Abbreviation alloc := (Z * Z)%type.

Module ShmAllocator.
(** Initialize the header with zero allocations. *)
Definition initialize (s : OsShm) : res RpcError OsShm :=
  if os_size s <=? HEADER_SIZE
  then Err (RpcErr.value_error (bs "segment size must be > "))
  else
    let data_size := os_size s - HEADER_SIZE in
    s ← write_slice s 0 MAGIC;
    s ← write_slice s 4 (le_bytes 4 VERSION);
    s ← write_slice s 8 (le_bytes 8 data_size);
    s ← write_slice s 16 (le_bytes 4 0);
    write_slice s 20 (le_bytes 4 0).

(** Check the header of a mapped segment. *)
Definition attach (s : OsShm) : res RpcError unit :=
  magic ← read_slice s 0 4;
  if bool_decide (magic ≠ MAGIC) then Err (RpcErr.value_error (bs "bad SHM magic: ")) else
  version ← read_slice s 4 8;
  if negb (le_val version =? VERSION)
  then Err (RpcErr.value_error (bs "unsupported SHM version: ")) else
  data_size ← read_slice s 8 16;
  expected ← usub (os_size s) HEADER_SIZE;
  if negb (le_val data_size =? expected)
  then Err (RpcErr.value_error (bs "data_size mismatch: header says ")) else
  Ok tt.

Definition num_allocs (s : OsShm) : res RpcError Z :=
  b ← read_slice s 16 20; Ok (le_val b).

(** The body of the [for i in 0..n] loop, from index [i]. *)
Fixpoint read_entries (s : OsShm) (i : Z) (n : nat) : res RpcError (list alloc) :=
  match n with
  | O => Ok []
  | S n =>
    let base := HEADER_FIXED_SIZE + i * ALLOC_ENTRY_SIZE in
    off ← read_slice s base (base + 8);
    len ← read_slice s (base + 8) (base + 16);
    rest ← read_entries s (i + 1) n;
    Ok ((le_val off, le_val len) :: rest)
  end.

Definition read_allocs (s : OsShm) : res RpcError (list alloc) :=
  b ← read_slice s 16 20;
  read_entries s 0 (Z.to_nat (Z.min (le_val b) MAX_ALLOCS)).

Fixpoint write_entries (s : OsShm) (i : Z) (allocs : list alloc) : res RpcError OsShm :=
  match allocs with
  | [] => Ok s
  | (off, len) :: allocs =>
    let base := HEADER_FIXED_SIZE + i * ALLOC_ENTRY_SIZE in
    s ← write_slice s base (le_bytes 8 off);
    s ← write_slice s (base + 8) (le_bytes 8 len);
    write_entries s (i + 1) allocs
  end.

Definition write_allocs (s : OsShm) (allocs : list alloc) : res RpcError OsShm :=
  s ← write_slice s 16 (le_bytes 4 (zlen allocs));
  write_entries s 0 allocs.

(** [allocs.sort_by_key(|(o, _)| *o)]: the stable sort by offset. *)
Fixpoint insert_by_offset (a : alloc) (l : list alloc) : list alloc :=
  match l with
  | [] => [a]
  | b :: t => if a.1 <=? b.1 then a :: b :: t else b :: insert_by_offset a t
  end.
Definition sort_by_offset (l : list alloc) : list alloc := foldr insert_by_offset [] l.

(** The scan of [allocate]: either the index and offset of the first gap that
    fits, or the end of the last region seen. *)
Fixpoint first_fit (size data_end prev_end : Z) (i : nat) (l : list alloc)
  : (nat * Z) + Z :=
  match l with
  | [] => inr prev_end
  | (off, len) :: l =>
    if off <? prev_end then
      first_fit size data_end (Z.max prev_end (saturating_add off len)) (S i) l
    else
      let gap := off - prev_end in
      if (size <=? gap) && (saturating_add prev_end size <=? data_end) then inl (i, prev_end)
      else first_fit size data_end (saturating_add off len) (S i) l
  end.

(** [allocs.insert(i, a)] *)
Definition vec_insert (i : nat) (a : alloc) (l : list alloc) : list alloc :=
  take i l ++ a :: drop i l.

Definition allocate (s : OsShm) (size : Z) : res RpcError (OsShm * option Z) :=
  if size =? 0 then Ok (s, None) else
  allocs ← read_allocs s;
  if MAX_ALLOCS <=? zlen allocs then Ok (s, None) else
  let allocs := sort_by_offset allocs in
  let data_end := os_size s in
  match first_fit size data_end HEADER_SIZE 0 allocs with
  | inl (i, prev_end) =>
    s ← write_allocs s (vec_insert i (prev_end, size) allocs);
    Ok (s, Some prev_end)
  | inr prev_end =>
    if data_end <=? prev_end then Ok (s, None) else
    let gap := data_end - prev_end in
    if size <=? gap then
      s ← write_allocs s (allocs ++ [(prev_end, size)]);
      Ok (s, Some prev_end)
    else Ok (s, None)
  end.

(** [allocs.iter().position(|(o, _)| *o == offset)] *)
Fixpoint position (offset : Z) (l : list alloc) : option nat :=
  match l with
  | [] => None
  | (o, _) :: l => if o =? offset then Some O else S <$> position offset l
  end.

Definition free (s : OsShm) (offset : Z) : res RpcError OsShm :=
  allocs ← read_allocs s;
  match position offset allocs with
  | Some idx => write_allocs s (delete idx allocs)
  | None => Err (RpcErr.value_error (bs "no allocation at offset "))
  end.

Definition shrink (s : OsShm) (offset new_len : Z) : res RpcError OsShm :=
  allocs ← read_allocs s;
  idx ← ok_or (RpcErr.value_error (bs "no allocation at offset ")) (position offset allocs);
  entry ← or_panic (allocs !! idx);
  if entry.2 <? new_len then Err (RpcErr.value_error (bs "shrink: new_len ")) else
  write_allocs s (<[idx := (entry.1, new_len)]> allocs).

Definition reset (s : OsShm) : res RpcError OsShm := write_slice s 16 (le_bytes 4 0).
End ShmAllocator.

(** ** The table as a list *)
Import ShmAllocator.

Definition entry_u64 (e : alloc) : Prop := in_u64 e.1 ∧ in_u64 e.2.
Definition table (s : OsShm) (l : list alloc) : Prop := read_allocs s = Ok l.

(** What a table update leaves alone: the handle, the fixed header fields and
    the whole data region. *)
Definition header_only (s s' : OsShm) : Prop :=
  os_size s' = os_size s ∧ os_name s' = os_name s ∧
  same_on 0 16 s' s ∧ same_on HEADER_SIZE (os_size s) s' s.

Lemma header_only_refl s : header_only s s.
Proof. by unfold header_only. Qed.

Lemma header_only_trans s t u : header_only s t → header_only t u → header_only s u.
Proof.
  intros (E1 & N1 & F1 & D1) (E2 & N2 & F2 & D2). unfold header_only.
  rewrite E1 in *. split_and!; [congruence..|etrans; eassumption|etrans; eassumption].
Qed.

Lemma MAX_ALLOCS_fits : HEADER_FIXED_SIZE + MAX_ALLOCS * ALLOC_ENTRY_SIZE ≤ HEADER_SIZE.
Proof. by vm_compute. Qed.

Lemma read_u64_range s a b l : read_slice s a b = Ok l → b - a = 8 → in_u64 (le_val l).
Proof.
  unfold read_slice. case_match; [|done]. intros E Hab. rewrite Hab in E.
  assert (l = load s a (Z.to_nat 8)) as -> by congruence.
  pose proof (le_val_range (load s a (Z.to_nat 8))) as H1. unfold zlen in H1.
  rewrite length_load in H1. ints. change (8 * Z.of_nat (Z.to_nat 8)) with 64 in H1. lia.
Qed.

Lemma read_entries_ok s i n :
  0 ≤ i → HEADER_FIXED_SIZE + (i + Z.of_nat n) * ALLOC_ENTRY_SIZE ≤ os_size s →
  ∃ l, read_entries s i n = Ok l ∧ length l = n ∧ Forall entry_u64 l.
Proof.
  unfold HEADER_FIXED_SIZE, ALLOC_ENTRY_SIZE.
  revert i. induction n as [|n IH]; intros i Hi Hn; [by exists []|]. cbn [read_entries].
  unfold HEADER_FIXED_SIZE, ALLOC_ENTRY_SIZE.
  destruct (IH (i + 1)) as (l & El & Hlen & Hl); [lia..|].
  pose proof (read_slice_ok s (24 + i * 16) (24 + i * 16 + 8) ltac:(lia) ltac:(lia)) as E1.
  pose proof (read_slice_ok s (24 + i * 16 + 8) (24 + i * 16 + 16) ltac:(lia) ltac:(lia)) as E2.
  pose proof (read_u64_range _ _ _ _ E1 ltac:(lia)).
  pose proof (read_u64_range _ _ _ _ E2 ltac:(lia)).
  rewrite E1; cbn [mbind res_bind]; rewrite E2; cbn [mbind res_bind]; rewrite El.
  cbn [mbind res_bind]. eexists. split; [done|]. split; [simpl; lia|].
  constructor; [by split|done].
Qed.

Lemma read_entries_ext s t i n :
  os_size s = os_size t → 0 ≤ i →
  same_on (HEADER_FIXED_SIZE + i * ALLOC_ENTRY_SIZE)
          (HEADER_FIXED_SIZE + (i + Z.of_nat n) * ALLOC_ENTRY_SIZE) s t →
  read_entries s i n = read_entries t i n.
Proof.
  unfold HEADER_FIXED_SIZE, ALLOC_ENTRY_SIZE. intros Hs. revert i.
  induction n as [|n IH]; intros i Hi H; [done|]. cbn [read_entries].
  unfold HEADER_FIXED_SIZE, ALLOC_ENTRY_SIZE, read_slice. rewrite Hs.
  rewrite (same_on_load _ _ s t (24 + i * 16) _ H), (same_on_load _ _ s t (24 + i * 16 + 8) _ H)
    by lia.
  rewrite IH; [done|lia|]. eapply same_on_mono; [exact H|lia..].
Qed.

Lemma write_entries_spec s i l :
  0 ≤ i → HEADER_FIXED_SIZE + (i + zlen l) * ALLOC_ENTRY_SIZE ≤ os_size s →
  Forall entry_u64 l →
  ∃ s', write_entries s i l = Ok s' ∧ os_size s' = os_size s ∧ os_name s' = os_name s ∧
        same_on 0 (HEADER_FIXED_SIZE + i * ALLOC_ENTRY_SIZE) s' s ∧
        same_on (HEADER_FIXED_SIZE + (i + zlen l) * ALLOC_ENTRY_SIZE) (os_size s) s' s ∧
        read_entries s' i (length l) = Ok l.
Proof.
  unfold HEADER_FIXED_SIZE, ALLOC_ENTRY_SIZE.
  revert s i. induction l as [|[o n] l IH]; intros s i Hi Hsz Hl.
  { exists s. split_and!; done || reflexivity. }
  apply list.Forall_cons in Hl as [[Ho Hn] Hl]. simpl in Ho, Hn. rewrite zlen_cons in Hsz.
  pose proof (zlen_nonneg l) as Hz. cbn [write_entries read_entries length].
  unfold HEADER_FIXED_SIZE, ALLOC_ENTRY_SIZE. set (base := 24 + i * 16) in *.
  assert (∀ k z, zlen (le_bytes k z) = Z.of_nat k) as Hw by apply zlen_le_bytes.
  rewrite write_slice_ok by (rewrite ?Hw; lia). cbn [mbind res_bind].
  rewrite write_slice_ok by (rewrite ?Hw, ?os_size_store; lia). cbn [mbind res_bind].
  set (s1 := store (store s base _) _ _).
  destruct (IH s1 (i + 1)) as (s' & -> & Hs' & Hn' & Hlo & Hhi & Hr);
    [lia|unfold s1; rewrite !os_size_store; lia|done|].
  unfold s1 in Hs', Hhi; rewrite !os_size_store in Hs', Hhi.
  assert (same_on base (base + 16) s' s1) as Hhd by (eapply same_on_mono; [exact Hlo|lia..]).
  exists s'. split_and!; try done.
  - etrans; [eapply same_on_mono; [exact Hlo|lia..]|]. unfold s1.
    etrans; apply same_on_store; rewrite ?Hw; lia.
  - rewrite zlen_cons. etrans; [eapply same_on_mono; [exact Hhi|lia..]|]. unfold s1.
    etrans; apply same_on_store; rewrite ?Hw; lia.
  - rewrite Hr, !read_slice_ok by lia. cbn [mbind res_bind].
    replace (Z.to_nat (base + 8 - base)) with 8%nat by lia.
    replace (Z.to_nat (base + 16 - (base + 8))) with 8%nat by lia.
    rewrite (same_on_load _ _ _ _ base _ Hhd), (same_on_load _ _ _ _ (base + 8) _ Hhd) by lia.
    unfold s1. rewrite load_store_other by (rewrite ?Hw; lia).
    rewrite <- (length_le_bytes 8 o) at 1. rewrite load_store_same.
    rewrite <- (length_le_bytes 8 n) at 2. rewrite load_store_same.
    ints. rewrite !le_val_bytes_small by (simpl; lia). done.
Qed.

Lemma read_allocs_ok s :
  HEADER_SIZE ≤ os_size s →
  ∃ l, table s l ∧ Forall entry_u64 l ∧ zlen l ≤ MAX_ALLOCS.
Proof.
  intros Hs. unfold table, read_allocs. rewrite read_slice_ok by (unfold HEADER_SIZE in *; lia).
  cbn [mbind res_bind]. set (v := le_val _).
  pose proof (le_val_range (load s 16 (Z.to_nat (20 - 16)))) as Hv. fold v in Hv.
  pose proof MAX_ALLOCS_fits. assert (0 ≤ MAX_ALLOCS) by by vm_compute.
  destruct (read_entries_ok s 0 (Z.to_nat (Z.min v MAX_ALLOCS))) as (l & El & Hl & Hf);
    [lia|unfold ALLOC_ENTRY_SIZE in *; lia|].
  exists l. split_and!; [done..|]. unfold zlen. rewrite Hl. lia.
Qed.

Lemma write_allocs_spec s l :
  HEADER_SIZE ≤ os_size s → zlen l ≤ MAX_ALLOCS → Forall entry_u64 l →
  ∃ s', write_allocs s l = Ok s' ∧ table s' l ∧ header_only s s'.
Proof.
  intros Hs Hlen Hl. pose proof MAX_ALLOCS_fits as Hfit. pose proof (zlen_nonneg l).
  assert (MAX_ALLOCS < 2 ^ 32) by by vm_compute.
  assert (0 ≤ MAX_ALLOCS) by by vm_compute.
  assert (HEADER_SIZE = 65536) by done.
  unfold write_allocs. rewrite write_slice_ok by (rewrite ?zlen_le_bytes; lia).
  cbn [mbind res_bind]. set (s1 := store s 16 _).
  assert (os_size s1 = os_size s) as Es1 by done.
  destruct (write_entries_spec s1 0 l) as (s' & -> & Es & En & Hlo & Hhi & Hr);
    [lia|unfold HEADER_FIXED_SIZE, ALLOC_ENTRY_SIZE in *; lia|done|].
  change (HEADER_FIXED_SIZE + 0 * ALLOC_ENTRY_SIZE) with 24 in Hlo.
  exists s'. split; [done|]. split.
  - unfold table, read_allocs. rewrite read_slice_ok by lia. cbn [mbind res_bind].
    change (Z.to_nat (20 - 16)) with 4%nat.
    rewrite (same_on_load _ _ _ _ 16 _ Hlo) by lia. unfold s1.
    rewrite <- (length_le_bytes 4 (zlen l)) at 1. rewrite load_store_same.
    rewrite le_val_bytes_small by (simpl; lia). rewrite Z.min_l by lia.
    unfold zlen. rewrite Nat2Z.id. exact Hr.
  - assert (zlen (le_bytes 4 (zlen l)) = 4) as Hw by apply zlen_le_bytes.
    unfold header_only. split_and!; [done..| |].
    + etrans; [eapply same_on_mono; [exact Hlo|lia..]|]. apply same_on_store. lia.
    + etrans; [eapply same_on_mono; [exact Hhi|unfold HEADER_FIXED_SIZE, ALLOC_ENTRY_SIZE in *; lia..]|].
      apply same_on_store. lia.
Qed.

(** ** Sorting *)
Definition le_offset (a b : alloc) : Prop := a.1 ≤ b.1.

Lemma insert_by_offset_perm a l : insert_by_offset a l ≡ₚ a :: l.
Proof.
  induction l as [|b l IH]; [done|]. simpl. case_match; [done|]. rewrite IH. constructor.
Qed.

Lemma sort_by_offset_perm l : sort_by_offset l ≡ₚ l.
Proof. induction l as [|a l IH]; [done|]. simpl. by rewrite insert_by_offset_perm, IH. Qed.

Lemma insert_by_offset_sorted a l :
  StronglySorted le_offset l → StronglySorted le_offset (insert_by_offset a l).
Proof.
  induction 1 as [|b l Hl IH Hb]; [repeat constructor|]. simpl.
  destruct (Z.leb_spec a.1 b.1).
  - constructor; [by constructor|]. constructor; [done|].
    eapply list.Forall_impl; [exact Hb|]. unfold le_offset. intros ??. lia.
  - constructor; [done|]. rewrite insert_by_offset_perm. constructor; [|done].
    unfold le_offset. lia.
Qed.

Lemma sort_by_offset_sorted l : StronglySorted le_offset (sort_by_offset l).
Proof. induction l; [constructor|]. by apply insert_by_offset_sorted. Qed.

Lemma sort_by_offset_id l : StronglySorted le_offset l → sort_by_offset l = l.
Proof.
  induction 1 as [|a l Hl IH Ha]; [done|]. simpl. rewrite IH.
  destruct Ha as [|b l Hb _]; [done|]. simpl. unfold le_offset in Hb.
  destruct (Z.leb_spec a.1 b.1); [done|lia].
Qed.

(** ** The scan *)

(** A free region [o, o + n): disjoint from an entry. *)
Definition apart (o n : Z) (e : alloc) : Prop := e.1 + e.2 ≤ o ∨ o + n ≤ e.1.
Definition sat_end (e : alloc) : Z := saturating_add e.1 e.2.

Lemma first_fit_spec size data_end prev_end i l :
  StronglySorted le_offset l → Forall entry_u64 l → in_u64 prev_end → 0 < size →
  match first_fit size data_end prev_end i l with
  | inl (j, pe) =>
      ∃ k, j = (i + k)%nat ∧ (k < length l)%nat ∧ prev_end ≤ pe ∧ in_u64 pe ∧
           saturating_add pe size ≤ data_end ∧
           Forall (fun e => sat_end e ≤ pe) (take k l) ∧
           Forall (fun e => pe + size ≤ e.1) (drop k l)
  | inr pe => prev_end ≤ pe ∧ in_u64 pe ∧ Forall (fun e => sat_end e ≤ pe) l
  end.
Proof.
  intros Hs Hu Hp Hsize. revert prev_end i Hp.
  induction Hs as [|[o n] l Hs IH Ho]; intros prev_end i Hp; cbn [first_fit].
  { split_and!; done. }
  apply list.Forall_cons in Hu as [[Hu1 Hu2] Hu]. simpl in Hu1, Hu2.
  assert (in_u64 (saturating_add o n)) as Hsat by (unfold saturating_add; ints; lia).
  assert (∀ pe', prev_end ≤ pe' → saturating_add o n ≤ pe' → in_u64 pe' →
    match first_fit size data_end pe' (S i) l with
    | inl (j, pe) => ∃ k, j = (i + k)%nat ∧ (k < length ((o, n) :: l))%nat ∧ prev_end ≤ pe ∧ in_u64 pe ∧
           saturating_add pe size ≤ data_end ∧
           Forall (fun e => sat_end e ≤ pe) (take k ((o, n) :: l)) ∧
           Forall (fun e => pe + size ≤ e.1) (drop k ((o, n) :: l))
    | inr pe => prev_end ≤ pe ∧ in_u64 pe ∧ Forall (fun e => sat_end e ≤ pe) ((o, n) :: l)
    end) as Hrec.
  { intros pe' H1 H2 H3. specialize (IH Hu pe' (S i) H3).
    destruct (first_fit size data_end pe' (S i) l) as [[j pe]|pe].
    - destruct IH as (k & -> & ? & ? & ? & ? & ? & ?). exists (S k). simpl.
      split_and!; try done; try lia. constructor; [|done]. unfold sat_end. simpl. lia.
    - destruct IH as (? & ? & ?). split_and!; try done; try lia.
      constructor; [|done]. unfold sat_end. simpl. lia. }
  destruct (Z.ltb_spec o prev_end); [apply Hrec; ints; lia|].
  destruct (Z.leb_spec size (o - prev_end)); simpl;
    [|apply Hrec; [pose proof (saturating_add_ge o n)|..]; ints; lia].
  destruct (Z.leb_spec (saturating_add prev_end size) data_end);
    [|apply Hrec; [pose proof (saturating_add_ge o n)|..]; ints; lia].
  exists 0%nat. simpl. split_and!; try done; try lia.
  constructor; simpl; [lia|]. eapply list.Forall_impl; [exact Ho|]. unfold le_offset.
  simpl. intros. lia.
Qed.

(** No saturation happened: a mapping is a slice, and a slice is at most
    [isize::MAX] bytes long. *)
Lemma sat_end_apart pe size data_end e :
  data_end ≤ i64_max → 0 < size → saturating_add pe size ≤ data_end → sat_end e ≤ pe →
  pe + size ≤ data_end ∧ e.1 + e.2 ≤ pe.
Proof. unfold saturating_add, sat_end, saturating_add. ints. lia. Qed.

(** ** Invariant of the table *)
Definition before (a b : alloc) : Prop := a.1 + a.2 ≤ b.1.
Definition in_data (total : Z) (e : alloc) : Prop :=
  HEADER_SIZE ≤ e.1 ∧ 0 < e.2 ∧ e.1 + e.2 ≤ total.
Definition wf_table (total : Z) (l : list alloc) : Prop :=
  StronglySorted before l ∧ Forall (in_data total) l.

(** The segment as every operation keeps it: an attachable header and a table
    of disjoint, non-empty, in-range regions sorted by offset. *)
Record alloc_inv (s : OsShm) (l : list alloc) : Prop := {
  inv_size : HEADER_SIZE < os_size s ≤ i64_max;
  inv_attach : attach s = Ok tt;
  inv_table : table s l;
  inv_wf : wf_table (os_size s) l;
  inv_len : zlen l ≤ MAX_ALLOCS
}.

Lemma wf_sorted total l : wf_table total l → StronglySorted le_offset l.
Proof.
  intros [Hs Hf]. induction Hs as [|a l Hs IH Ha]; [constructor|].
  apply list.Forall_cons in Hf as [(? & ? & ?) Hf]. constructor; [by apply IH|].
  eapply list.Forall_impl; [exact Ha|]. unfold before, le_offset. intros; lia.
Qed.

Lemma wf_u64 total l : total ≤ i64_max → wf_table total l → Forall entry_u64 l.
Proof.
  intros Ht [_ Hf]. eapply list.Forall_impl; [exact Hf|].
  intros [o n] (? & ? & ?). unfold entry_u64, HEADER_SIZE in *; ints. simpl in *. lia.
Qed.

Lemma attach_header_only s s' : header_only s s' → HEADER_SIZE ≤ os_size s → attach s' = attach s.
Proof.
  intros (Es & _ & Hlo & _) Hs. unfold attach, read_slice. rewrite Es.
  rewrite !(same_on_load _ _ s' s _ _ Hlo) by lia. done.
Qed.

Lemma write_allocs_inv s l l' :
  alloc_inv s l → wf_table (os_size s) l' → zlen l' ≤ MAX_ALLOCS →
  ∃ s', write_allocs s l' = Ok s' ∧ alloc_inv s' l' ∧ header_only s s'.
Proof.
  intros [Hsz Ha Ht Hwf Hlen] Hwf' Hlen'.
  destruct (write_allocs_spec s l') as (s' & E & Ht' & Hh);
    [lia|done|by eapply wf_u64; [|done]; lia|].
  exists s'. split_and!; try done. pose proof Hh as (Es & _ & _).
  split; try done; rewrite ?Es; try done. rewrite (attach_header_only _ _ Hh); [done|lia].
Qed.

(** Inserting a free region into a well-formed table. *)
Lemma wf_insert total l k o n :
  wf_table total l → HEADER_SIZE ≤ o → 0 < n → o + n ≤ total →
  Forall (fun e => e.1 + e.2 ≤ o) (take k l) → Forall (fun e => o + n ≤ e.1) (drop k l) →
  wf_table total (vec_insert k (o, n) l).
Proof.
  intros [Hs Hf] Ho Hn Ht Hb Ha. unfold vec_insert. rewrite <- (take_drop k l) in Hs, Hf.
  apply Forall_app in Hf as [Hf1 Hf2].
  apply StronglySorted_app in Hs as (Hcross & Hs1 & Hs2).
  split; [|apply Forall_app; split; [done|]; constructor; [done|done]].
  apply StronglySorted_app_2; [|done|].
  - intros a b Hain Hbin. apply elem_of_cons in Hbin as [->|Hbin]; [|by apply Hcross].
    rewrite list.Forall_forall in Hb. by apply Hb.
  - constructor; [done|]. done.
Qed.

(** ** The allocator on lists

    [plan] is [allocate] with the header bytes abstracted away; [allocate_plan]
    is the refinement that relates the two. *)
Definition plan (size total : Z) (l : list alloc) : option (list alloc * Z) :=
  match first_fit size total HEADER_SIZE 0 l with
  | inl (i, pe) => Some (vec_insert i (pe, size) l, pe)
  | inr pe =>
    if total <=? pe then None
    else if size <=? total - pe then Some (l ++ [(pe, size)], pe) else None
  end.

Lemma allocate_plan s l size :
  table s l → size ≠ 0 →
  allocate s size =
    if MAX_ALLOCS <=? zlen l then Ok (s, None) else
    match plan size (os_size s) (sort_by_offset l) with
    | Some (l', pe) => s' ← write_allocs s l'; Ok (s', Some pe)
    | None => Ok (s, None)
    end.
Proof.
  unfold table, allocate, plan. intros -> Hs. apply Z.eqb_neq in Hs as ->. cbn [mbind res_bind].
  case_match; [done|]. destruct (first_fit _ _ _ _ _) as [[i pe]|pe]; [done|].
  repeat case_match; done.
Qed.

Lemma plan_sound size total l l' pe :
  StronglySorted le_offset l → Forall entry_u64 l → 0 < size → total ≤ i64_max →
  plan size total l = Some (l', pe) →
  HEADER_SIZE ≤ pe ∧ pe + size ≤ total ∧
  ∃ k, l' = vec_insert k (pe, size) l ∧
       Forall (fun e => e.1 + e.2 ≤ pe) (take k l) ∧ Forall (fun e => pe + size ≤ e.1) (drop k l).
Proof.
  intros Hs Hu Hsz Ht. unfold plan.
  pose proof (first_fit_spec size total HEADER_SIZE 0 l Hs Hu ltac:(done) Hsz) as Hff.
  destruct (first_fit _ _ _ _ _) as [[i q]|q].
  - intros [= <- <-]. destruct Hff as (k & -> & _ & Hq & _ & Hd & Hb & Ha).
    split; [done|]. pose proof (sat_end_apart q size total (0, 0) Ht Hsz Hd) as [? _].
    { unfold sat_end, saturating_add, HEADER_SIZE in *. simpl. ints. lia. }
    split; [done|]. exists k. split_and!; try done.
    eapply list.Forall_impl; [exact Hb|]. intros e He.
    by destruct (sat_end_apart q size total e Ht Hsz Hd He).
  - destruct Hff as (Hq & _ & Hb). destruct (Z.leb_spec total q); [done|].
    destruct (Z.leb_spec size (total - q)); [|done]. intros [= <- <-].
    split_and!; [done|lia|]. exists (length l). unfold vec_insert.
    rewrite take_ge, drop_ge by lia. split_and!; [done| |done].
    eapply list.Forall_impl; [exact Hb|]. intros e. unfold sat_end, saturating_add. ints. lia.
Qed.

Lemma first_fit_le size total o l prev_end i :
  0 < size → o + size ≤ total → prev_end ≤ o → total ≤ i64_max →
  Forall (apart o size) l →
  match first_fit size total prev_end i l with inl (_, pe) => pe ≤ o | inr pe => pe ≤ o end.
Proof.
  intros Hsz Ht Hp Hm Hl. revert prev_end i Hp.
  induction Hl as [|[off len] l Ha Hl IH]; intros prev_end i Hp; cbn [first_fit]; [done|].
  unfold apart in Ha. simpl in Ha.
  assert (∀ z, saturating_add off len ≤ z ↔ Z.min (off + len) u64_max ≤ z) by done.
  destruct (Z.ltb_spec off prev_end); [apply IH; unfold saturating_add; lia|].
  destruct (Z.leb_spec size (off - prev_end)); simpl;
    [|apply IH; unfold saturating_add; lia].
  destruct (Z.leb_spec (saturating_add prev_end size) total); [done|].
  unfold saturating_add in *. ints. lia.
Qed.

Lemma plan_complete size total l o :
  0 < size → HEADER_SIZE ≤ o → o + size ≤ total → total ≤ i64_max → Forall (apart o size) l →
  ∃ l' pe, plan size total l = Some (l', pe) ∧ pe ≤ o.
Proof.
  intros Hsz Ho Ht Hm Hl. unfold plan.
  pose proof (first_fit_le size total o l HEADER_SIZE 0 Hsz Ht Ho Hm Hl) as Hff.
  destruct (first_fit _ _ _ _ _) as [[i q]|q]; [by eauto|].
  destruct (Z.leb_spec total q); [lia|]. destruct (Z.leb_spec size (total - q)); [by eauto|lia].
Qed.

Lemma vec_insert_perm k a l : vec_insert k a l ≡ₚ a :: l.
Proof. unfold vec_insert. rewrite <- Permutation_middle. by rewrite take_drop. Qed.

Lemma vec_insert_sort_perm k a l : vec_insert k a (sort_by_offset l) ≡ₚ a :: l.
Proof. by rewrite vec_insert_perm, sort_by_offset_perm. Qed.

(** Writing back a table that grew by one region always succeeds. *)
Lemma write_insert_ok s l k pe size :
  HEADER_SIZE ≤ os_size s ≤ i64_max → Forall entry_u64 l → zlen l < MAX_ALLOCS →
  HEADER_SIZE ≤ pe → 0 < size → pe + size ≤ os_size s →
  ∃ s', write_allocs s (vec_insert k (pe, size) (sort_by_offset l)) = Ok s' ∧
        table s' (vec_insert k (pe, size) (sort_by_offset l)) ∧ header_only s s'.
Proof.
  intros Hs Hu Hlen Hp Hsz Hin. pose proof (vec_insert_sort_perm k (pe, size) l) as Hperm.
  apply write_allocs_spec; [lia|unfold zlen in *; rewrite Hperm; simpl; lia|].
  rewrite Hperm. constructor; [|done]. unfold entry_u64, HEADER_SIZE in *. ints. simpl. lia.
Qed.

Lemma split_apart o n k l :
  Forall (fun e => e.1 + e.2 ≤ o) (take k l) → Forall (fun e => o + n ≤ e.1) (drop k l) →
  Forall (apart o n) l.
Proof.
  intros H1 H2. rewrite <- (take_drop k l). apply Forall_app.
  split; (eapply list.Forall_impl; [eassumption|]); unfold apart; intros; simpl in *; lia.
Qed.

(** ** Properties *)

(** C16. Whatever bytes the peer left in the header, [allocate] neither panics
    nor fails; a returned region lies inside the data region and overlaps no
    entry of the table, the new table is the old one plus that region, and no
    byte outside the table changes; a refusal changes nothing. *)
Theorem allocate_hostile_safe (s : OsShm) (size : Z) :
  HEADER_SIZE ≤ os_size s ≤ i64_max → in_u64 size →
  ∃ s' r l, allocate s size = Ok (s', r) ∧ table s l ∧ header_only s s' ∧
    match r with
    | Some off => HEADER_SIZE ≤ off ∧ off + size ≤ os_size s ∧ Forall (apart off size) l ∧
                  ∃ l', table s' l' ∧ l' ≡ₚ (off, size) :: l
    | None => s' = s
    end.
Proof.
  intros Hs Hsize. destruct (read_allocs_ok s) as (l & Ht & Hu & Hlen); [lia|].
  destruct (decide (size = 0)) as [->|Hne].
  { exists s, None, l. split_and!; done || apply header_only_refl. }
  rewrite (allocate_plan s l size Ht Hne).
  destruct (Z.leb_spec MAX_ALLOCS (zlen l)).
  { exists s, None, l. split_and!; done || apply header_only_refl. }
  destruct (plan _ _ _) as [[l' pe]|] eqn:Hp;
    [|by exists s, None, l; split_and!; done || apply header_only_refl].
  pose proof (sort_by_offset_perm l) as Hperm.
  apply plan_sound in Hp as (Ho & Hin & k & -> & Hb & Ha);
    [|apply sort_by_offset_sorted|by rewrite Hperm|ints; lia|lia].
  destruct (write_insert_ok s l k pe size) as (s' & -> & Ht' & Hh); try done; [ints; lia|].
  exists s', (Some pe), l. split_and!; try done; [|by eauto using vec_insert_sort_perm].
  rewrite <- Hperm. by eapply split_apart.
Qed.

(** First fit, for any header contents: while the table is not full,
    [allocate] succeeds whenever some region of the requested size is free, and
    the offset it returns is at most the offset of any such region. *)
Theorem allocate_first_fit (s : OsShm) (l : list alloc) (size o : Z) :
  HEADER_SIZE ≤ os_size s ≤ i64_max → table s l → zlen l < MAX_ALLOCS → 0 < size →
  HEADER_SIZE ≤ o → o + size ≤ os_size s → Forall (apart o size) l →
  ∃ s' r, allocate s size = Ok (s', Some r) ∧ HEADER_SIZE ≤ r ≤ o.
Proof.
  intros Hs Ht Hlen Hsz Ho Hin Hap.
  destruct (read_allocs_ok s) as (l' & Ht' & Hu & _); [lia|].
  assert (l' = l) as -> by (unfold table in *; congruence).
  rewrite (allocate_plan s l size Ht) by lia. destruct (Z.leb_spec MAX_ALLOCS (zlen l)); [lia|].
  pose proof (sort_by_offset_perm l) as Hperm.
  destruct (plan_complete size (os_size s) (sort_by_offset l) o) as (lp & pe & Hp & Hle);
    [lia..|by rewrite Hperm|].
  rewrite Hp. apply plan_sound in Hp as (Hpo & Hpin & k & -> & _ & _);
    [|apply sort_by_offset_sorted|by rewrite Hperm|ints; lia|lia].
  destruct (write_insert_ok s l k pe size) as (s' & -> & _ & _); by eauto.
Qed.

(** ** Preservation of the invariant *)
Lemma position_Some off l k :
  position off l = Some k ↔ (∃ n, l !! k = Some (off, n)) ∧ Forall (fun e => e.1 ≠ off) (take k l).
Proof.
  revert k. induction l as [|[o n] l IH]; intros k; simpl; [naive_solver|].
  destruct (Z.eqb_spec o off) as [->|Hne].
  - destruct k; simpl; [split; [intros _; split; [by eauto|constructor]|done]|].
    split; [done|]. intros [_ H%list.Forall_cons]. naive_solver.
  - rewrite fmap_Some. split.
    + intros (j & (Hj & Hf)%IH & ->). split; [done|]. by constructor.
    + intros [[m Hk] Hf]. destruct k; simpl in *; [naive_solver|].
      apply list.Forall_cons in Hf as [_ Hf]. exists k. split; [|done]. apply IH. eauto.
Qed.

Lemma position_None off l : position off l = None ↔ off ∉ l.*1.
Proof.
  induction l as [|[o n] l IH]; simpl; [split; [by intros _ ?%elem_of_nil|done]|].
  rewrite not_elem_of_cons. destruct (Z.eqb_spec o off) as [->|Hne].
  - split; [done|naive_solver].
  - rewrite fmap_None, IH. naive_solver.
Qed.

Lemma wf_sublist total l k : wf_table total l → wf_table total (delete k l).
Proof.
  intros [Hs Hf]. split; [|by apply Forall_delete].
  rewrite delete_take_drop. rewrite <- (take_drop k l) in Hs.
  apply StronglySorted_app in Hs as (Hc & H1 & H2). apply StronglySorted_app_2; [|done|].
  - intros a b Ha Hb. apply Hc; [done|]. destruct (drop k l) as [|c t] eqn:E.
    + assert (drop (S k) l = []) as En.
      { apply (f_equal (drop 1)) in E. rewrite drop_drop in E.
        by replace (S k) with (k + 1)%nat by lia. }
      rewrite En in Hb. by apply elem_of_nil in Hb.
    + assert (drop (S k) l = t) as En.
      { apply (f_equal (drop 1)) in E. rewrite drop_drop in E.
        by replace (S k) with (k + 1)%nat by lia. }
      rewrite En in Hb. by right.
  - assert (drop (S k) l = drop 1 (drop k l)) as ->.
    { rewrite drop_drop. f_equal. lia. }
    destruct H2; [constructor|done].
Qed.

Lemma wf_shrink total l k o n n' :
  wf_table total l → l !! k = Some (o, n) → 0 < n' ≤ n → wf_table total (<[k := (o, n')]> l).
Proof.
  intros [Hs Hf] Hk Hn. pose proof (lookup_lt_Some _ _ _ Hk) as Hlt.
  rewrite insert_take_drop by done. rewrite <- (take_drop_middle l k (o, n) Hk) in Hs, Hf.
  apply Forall_app in Hf as [Hf1 [Hf2 Hf3]%list.Forall_cons].
  apply StronglySorted_app in Hs as (Hc & Hs1 & Hs2). apply StronglySorted_inv in Hs2 as [Hs2 Hb].
  split.
  - apply StronglySorted_app_2; [|done|].
    + intros a b Ha Hbin. apply elem_of_cons in Hbin as [->|Hbin].
      * by apply (Hc a (o, n)); [|left].
      * apply Hc; [done|]. by right.
    + constructor; [done|]. eapply list.Forall_impl; [exact Hb|]. unfold before. simpl.
      intros; lia.
  - apply Forall_app. split; [done|]. constructor; [|done]. unfold in_data in *. simpl in *. lia.
Qed.

Lemma delete_unique total l off k n :
  wf_table total l → l !! k = Some (off, n) → Forall (fun e => e.1 ≠ off) (take k l) →
  off ∉ (delete k l).*1.
Proof.
  intros [Hst Hf] Hk Hbefore. rewrite delete_take_drop, fmap_app, not_elem_of_app. split.
  - intros ((o & m) & -> & Hin)%list_elem_of_fmap. rewrite list.Forall_forall in Hbefore.
    by apply (Hbefore (o, m)).
  - rewrite <- (take_drop_middle l k _ Hk) in Hst, Hf.
    apply StronglySorted_app in Hst as (_ & _ & [_ Hgt]%StronglySorted_inv).
    apply Forall_app in Hf as [_ [(_ & Hpos & _) _]%list.Forall_cons].
    intros ((o & m) & -> & Hin)%list_elem_of_fmap. rewrite list.Forall_forall in Hgt.
    apply Hgt in Hin. unfold before in Hin. simpl in *. lia.
Qed.

(** [initialize] accepts exactly the segments that have a data region, and
    leaves an attachable header over an empty table. *)
Theorem initialize_spec (s : OsShm) :
  os_size s ≤ i64_max →
  if os_size s <=? HEADER_SIZE
  then initialize s = Err (RpcErr.value_error (bs "segment size must be > "))
  else ∃ s', initialize s = Ok s' ∧ alloc_inv s' [] ∧ os_size s' = os_size s.
Proof.
  intros Hmax. unfold initialize. destruct (Z.leb_spec (os_size s) HEADER_SIZE) as [|Hs]; [done|].
  assert (∀ k z, zlen (le_bytes k z) = Z.of_nat k) as Hw by apply zlen_le_bytes.
  assert (zlen MAGIC = 4) as Hm by done. assert (HEADER_SIZE = 65536) by done.
  do 5 (rewrite write_slice_ok by (rewrite ?os_size_store, ?Hw, ?Hm; lia); cbn [mbind res_bind]).
  set (s' := store _ 20 _). assert (os_size s' = os_size s) as Es by done.
  assert (load s' 0 4 = MAGIC) as E0.
  { unfold s'. rewrite !load_store_other by (rewrite ?Hw; lia). apply (load_store_same s 0 MAGIC). }
  assert (load s' 4 4 = le_bytes 4 VERSION) as E4.
  { unfold s'. do 3 rewrite load_store_other by (rewrite ?Hw; lia).
    rewrite <- (length_le_bytes 4 VERSION) at 2. apply load_store_same. }
  assert (load s' 8 8 = le_bytes 8 (os_size s - HEADER_SIZE)) as E8.
  { unfold s'. do 2 rewrite load_store_other by (rewrite ?Hw; lia).
    rewrite <- (length_le_bytes 8 (os_size s - HEADER_SIZE)) at 2. apply load_store_same. }
  assert (load s' 16 4 = le_bytes 4 0) as E16.
  { unfold s'. rewrite load_store_other by (rewrite ?Hw; lia).
    rewrite <- (length_le_bytes 4 0) at 2. apply load_store_same. }
  clearbody s'. exists s'. split; [done|]. split; [|done]. split.
  - lia.
  - unfold attach. rewrite !read_slice_ok by lia. cbn [mbind res_bind].
    change (Z.to_nat (4 - 0)) with 4%nat. change (Z.to_nat (8 - 4)) with 4%nat.
    change (Z.to_nat (16 - 8)) with 8%nat. rewrite E0, E4, E8.
    rewrite bool_decide_eq_false_2 by naive_solver.
    assert ((le_val (le_bytes 4 VERSION) =? VERSION) = true) as -> by done. cbn [negb].
    unfold usub. rewrite Es. destruct (Z.leb_spec HEADER_SIZE (os_size s)); [|lia].
    cbn [mbind res_bind]. ints. rewrite le_val_bytes_small by (simpl; lia).
    by rewrite Z.eqb_refl.
  - unfold table, read_allocs. rewrite read_slice_ok by lia. cbn [mbind res_bind].
    change (Z.to_nat (20 - 16)) with 4%nat. rewrite E16. done.
  - split; constructor.
  - done.
Qed.

Lemma allocate_keeps_inv s l size :
  alloc_inv s l → in_u64 size →
  ∃ s' r l', allocate s size = Ok (s', r) ∧ alloc_inv s' l' ∧ header_only s s' ∧
    match r with Some off => l' ≡ₚ (off, size) :: l | None => s' = s ∧ l' = l end.
Proof.
  intros Hinv Hsize. pose proof Hinv as [Hs Ha Ht Hwf Hlen].
  assert (alloc_inv s l ∧ header_only s s ∧ s = s ∧ l = l) as Hsame by (by split_and!).
  destruct (decide (size = 0)) as [->|Hne]; [by exists s, None, l|].
  rewrite (allocate_plan s l size Ht Hne). rewrite sort_by_offset_id by (by eapply wf_sorted).
  destruct (Z.leb_spec MAX_ALLOCS (zlen l)); [by exists s, None, l|].
  destruct (plan _ _ _) as [[l' pe]|] eqn:Hp; [|by exists s, None, l].
  apply plan_sound in Hp as (Ho & Hin & k & -> & Hb & Hd);
    [|by eapply wf_sorted|eapply wf_u64; [|done]; lia|ints; lia|lia].
  pose proof (vec_insert_perm k (pe, size) l) as Hperm.
  destruct (write_allocs_inv s l (vec_insert k (pe, size) l)) as (s' & -> & Hinv' & Hh); try done.
  - apply wf_insert; try done. ints; lia.
  - unfold zlen in *. rewrite Hperm. simpl. lia.
  - by exists s', (Some pe), (vec_insert k (pe, size) l).
Qed.

Lemma free_hit s l off k :
  alloc_inv s l → position off l = Some k →
  ∃ s', free s off = Ok s' ∧ alloc_inv s' (delete k l) ∧ header_only s s'.
Proof.
  intros Hinv Hp. pose proof Hinv as [Hs Ha Ht Hwf Hlen]. unfold free. rewrite Ht.
  cbn [mbind res_bind]. rewrite Hp. pose proof Hp as [[n Hk] _]%position_Some.
  apply write_allocs_inv with l; [done|by apply wf_sublist|].
  unfold zlen in *. rewrite length_delete by eauto. lia.
Qed.

Lemma free_miss s l off :
  table s l → position off l = None →
  free s off = Err (RpcErr.value_error (bs "no allocation at offset ")).
Proof. intros Ht Hp. unfold free. rewrite Ht. cbn [mbind res_bind]. by rewrite Hp. Qed.

Lemma shrink_hit s l off k n new_len :
  alloc_inv s l → position off l = Some k → l !! k = Some (off, n) → 0 < new_len →
  if n <? new_len then shrink s off new_len = Err (RpcErr.value_error (bs "shrink: new_len "))
  else ∃ s', shrink s off new_len = Ok s' ∧ alloc_inv s' (<[k := (off, new_len)]> l) ∧
             header_only s s'.
Proof.
  intros Hinv Hp Hk Hpos. pose proof Hinv as [Hs Ha Ht Hwf Hlen]. unfold shrink. rewrite Ht.
  cbn [mbind res_bind]. rewrite Hp. cbn [ok_or mbind res_bind]. rewrite Hk.
  cbn [or_panic mbind res_bind fst snd]. destruct (Z.ltb_spec n new_len); [done|].
  apply write_allocs_inv with l; [done|eapply wf_shrink; [done..|lia]|].
  unfold zlen in *. by rewrite length_insert.
Qed.

Lemma shrink_miss s l off new_len :
  table s l → position off l = None →
  shrink s off new_len = Err (RpcErr.value_error (bs "no allocation at offset ")).
Proof. intros Ht Hp. unfold shrink. rewrite Ht. cbn [mbind res_bind]. by rewrite Hp. Qed.

(** On a segment that satisfies the invariant, [allocate] keeps it, with
    the returned region added to the table. *)
Theorem allocate_preserves_inv (s : OsShm) (l : list alloc) (size : Z) :
  alloc_inv s l → in_u64 size →
  ∃ s' r, allocate s size = Ok (s', r) ∧
    match r with
    | Some off => ∃ l', alloc_inv s' l' ∧ l' ≡ₚ (off, size) :: l
    | None => s' = s
    end.
Proof.
  intros Hinv Hsize. destruct (allocate_keeps_inv s l size Hinv Hsize)
    as (s' & r & l' & E & Hinv' & _ & Hr).
  exists s', r. split; [done|]. destruct r; [by eauto|by destruct Hr].
Qed.

(** [free] removes exactly the entry at [offset] and touches no data byte;
    an offset that no entry starts at is refused. *)
Theorem free_spec (s : OsShm) (l : list alloc) (off : Z) :
  alloc_inv s l →
  match position off l with
  | Some k => ∃ s' n, l !! k = Some (off, n) ∧ free s off = Ok s' ∧
                      alloc_inv s' (delete k l) ∧ header_only s s' ∧ (off ∉ (delete k l).*1)
  | None => (off ∉ l.*1) ∧ free s off = Err (RpcErr.value_error (bs "no allocation at offset "))
  end.
Proof.
  intros Hinv. destruct (position off l) as [k|] eqn:Hp.
  - destruct (free_hit s l off k Hinv Hp) as (s' & E & Hinv' & Hh).
    pose proof Hp as [[n Hk] Hbefore]%position_Some. exists s', n. split_and!; try done.
    eapply delete_unique; [apply inv_wf, Hinv|done|done].
  - split; [by apply position_None|]. eapply free_miss; [apply inv_table, Hinv|done].
Qed.

(** [shrink] to a positive length replaces the length of that entry and
    keeps the invariant; growing is refused, and so is an unknown offset. *)
Theorem shrink_spec (s : OsShm) (l : list alloc) (off new_len : Z) :
  alloc_inv s l → 0 < new_len →
  match position off l with
  | None => shrink s off new_len = Err (RpcErr.value_error (bs "no allocation at offset "))
  | Some k => ∃ n, l !! k = Some (off, n) ∧
      if n <? new_len then shrink s off new_len = Err (RpcErr.value_error (bs "shrink: new_len "))
      else ∃ s', shrink s off new_len = Ok s' ∧ alloc_inv s' (<[k := (off, new_len)]> l) ∧
                 header_only s s'
  end.
Proof.
  intros Hinv Hpos. destruct (position off l) as [k|] eqn:Hp.
  - pose proof Hp as [[n Hk] _]%position_Some. exists n. split; [done|]. by apply shrink_hit.
  - eapply shrink_miss; [apply inv_table, Hinv|done].
Qed.

(** ** Histories of operations

    The parties of the lockstep protocol take turns: they allocate, free and
    shrink regions, and write bytes into a region they allocated. [run_op] is
    one turn; an operation that reports an error leaves the segment as it was. *)
Inductive shm_op :=
| OpAllocate (size : Z)
| OpFree (off : Z)
| OpShrink (off new_len : Z)
| OpWrite (off : Z) (data : list byte).

Definition run_op (s : OsShm) (op : shm_op) : OsShm :=
  match op with
  | OpAllocate size => match allocate s size with Ok (s', _) => s' | _ => s end
  | OpFree off => match free s off with Ok s' => s' | _ => s end
  | OpShrink off n => match shrink s off n with Ok s' => s' | _ => s end
  | OpWrite off data => match write_slice s off data with Ok s' => s' | _ => s end
  end.

(** A turn a party may take: sizes are machine integers, a shrink keeps at
    least one byte, and a write stays inside one allocated region. *)
Definition op_allowed (s : OsShm) (op : shm_op) : Prop :=
  match op with
  | OpAllocate size => in_u64 size
  | OpFree _ => True
  | OpShrink _ n => 0 < n
  | OpWrite off data => ∃ l n, table s l ∧ (off, n) ∈ l ∧ zlen data ≤ n
  end.

(** The turn leaves the first [n] bytes of the region at [off] to their owner. *)
Definition op_spares (off n : Z) (op : shm_op) : Prop :=
  match op with
  | OpAllocate _ => True
  | OpFree o => o ≠ off
  | OpShrink o m => o ≠ off ∨ n ≤ m
  | OpWrite o _ => o ≠ off
  end.

Inductive run : OsShm → list shm_op → OsShm → Prop :=
| run_nil s : run s [] s
| run_cons s op ops t : op_allowed s op → run (run_op s op) ops t → run s (op :: ops) t.

(** The region [off, off + n) is covered by a live entry. *)
Definition live (off n : Z) (l : list alloc) : Prop := ∃ m, (off, m) ∈ l ∧ n ≤ m.

Lemma wf_apart total l a b : wf_table total l → a ∈ l → b ∈ l → a.1 ≠ b.1 → before a b ∨ before b a.
Proof.
  intros [Hs _] Ha Hb Hne. induction Hs as [|c l Hs IH Hc]; [by apply elem_of_nil in Ha|].
  rewrite list.Forall_forall in Hc.
  apply elem_of_cons in Ha as [->|Ha], Hb as [->|Hb]; [done|left; auto|right; auto|auto].
Qed.

Lemma wf_in total l e : wf_table total l → e ∈ l → in_data total e.
Proof. intros [_ Hf] He. rewrite list.Forall_forall in Hf. auto. Qed.

Lemma write_op_inv s l off data :
  alloc_inv s l → (∃ n, (off, n) ∈ l ∧ zlen data ≤ n) →
  ∃ s', write_slice s off data = Ok s' ∧ alloc_inv s' l ∧ s' = store s off data.
Proof.
  intros [Hs Ha Ht Hwf Hlen] (n & Hin & Hd).
  pose proof (wf_in _ _ _ Hwf Hin) as (Hlo & _ & Hhi). simpl in *. unfold HEADER_SIZE in *.
  rewrite write_slice_ok by lia. eexists. split; [done|]. split; [|done].
  assert (same_on 0 HEADER_SIZE (store s off data) s) as Hh.
  { apply same_on_store. unfold HEADER_SIZE. lia. }
  split; rewrite ?os_size_store; try done.
  - unfold attach, read_slice in *. rewrite !os_size_store.
    rewrite !(same_on_load _ _ _ s _ _ Hh) by (unfold HEADER_SIZE; lia). done.
  - unfold table, read_allocs, read_slice in *. rewrite os_size_store.
    rewrite (same_on_load _ _ _ s 16 _ Hh) by (unfold HEADER_SIZE; simpl; lia).
    rewrite <- Ht. unfold HEADER_SIZE in *.
    destruct (_ && _) eqn:E; [|done]. cbn [mbind res_bind]. apply read_entries_ext; [done..|].
    eapply same_on_mono; [exact Hh|unfold HEADER_FIXED_SIZE, ALLOC_ENTRY_SIZE; lia|].
    assert (MAX_ALLOCS = 4094) by done.
    unfold HEADER_FIXED_SIZE, ALLOC_ENTRY_SIZE, HEADER_SIZE. lia.
Qed.

Lemma live_free off n o k l :
  position o l = Some k → o ≠ off → live off n l → live off n (delete k l).
Proof.
  intros [[m Hk] _]%position_Some Hne (j & Hin & Hn). exists j. split; [|done].
  apply list_elem_of_lookup in Hin as [i Hi].
  assert (i ≠ k) by (intros ->; rewrite Hi in Hk; congruence).
  rewrite delete_take_drop, elem_of_app.
  destruct (decide (i < k)%nat).
  - left. apply list_elem_of_lookup. exists i. by rewrite lookup_take_lt.
  - right. apply list_elem_of_lookup. exists (i - S k)%nat. rewrite lookup_drop.
    by replace (S k + (i - S k))%nat with i by lia.
Qed.

Lemma live_shrink off n o k m l :
  position o l = Some k → (o ≠ off ∨ n ≤ m) → live off n l → live off n (<[k := (o, m)]> l).
Proof.
  intros [[q Hk] _]%position_Some Hc (j & Hin & Hn).
  apply list_elem_of_lookup in Hin as [i Hi]. destruct (decide (i = k)) as [->|Hik].
  - rewrite Hi in Hk. injection Hk as -> ->. destruct Hc; [done|]. exists m. split; [|done].
    apply list_elem_of_lookup. exists k. apply list_lookup_insert_eq. by eapply lookup_lt_Some.
  - exists j. split; [|done]. apply list_elem_of_lookup. exists i.
    by rewrite list_lookup_insert_ne.
Qed.

Lemma header_only_load s s' a n :
  header_only s s' → HEADER_SIZE ≤ a → a + Z.of_nat n ≤ os_size s → load s' a n = load s a n.
Proof. intros (_ & _ & _ & Hd) ??. by eapply same_on_load. Qed.

(** One turn: the invariant survives, and a live region that the turn spares
    stays live with its bytes unchanged. *)
Lemma run_op_stable s l op off n :
  alloc_inv s l → op_allowed s op → 0 ≤ n →
  ∃ l', alloc_inv (run_op s op) l' ∧
    (live off n l → op_spares off n op →
     live off n l' ∧ load (run_op s op) off (Z.to_nat n) = load s off (Z.to_nat n)).
Proof.
  intros Hinv Hop Hn.
  assert (∀ s', header_only s s' → live off n l →
            load s' off (Z.to_nat n) = load s off (Z.to_nat n)) as Hload.
  { intros s' Hh (m & Hin & Hm). eapply header_only_load; [done| |].
    all: destruct (wf_in _ _ _ (inv_wf _ _ Hinv) Hin) as (? & ? & ?); simpl in *; lia. }
  destruct op as [size|o|o m|o data]; simpl in *.
  - destruct (allocate_keeps_inv s l size Hinv Hop) as (s' & r & l' & -> & Hinv' & Hh & Hr).
    exists l'. split; [done|]. intros Hl _. split; [|by apply Hload].
    destruct Hl as (m & Hin & Hm). exists m. split; [|done].
    destruct r; [rewrite Hr; by right|by destruct Hr; subst].
  - destruct (position o l) as [k|] eqn:Hp.
    + destruct (free_hit s l o k Hinv Hp) as (s' & -> & Hinv' & Hh).
      exists (delete k l). eauto using live_free.
    + rewrite (free_miss s l o); [by eauto|apply Hinv|done].
  - destruct (position o l) as [k|] eqn:Hp.
    + pose proof Hp as [[q Hk] _]%position_Some.
      pose proof (shrink_hit s l o k q m Hinv Hp Hk Hop) as Hs.
      destruct (q <? m); [rewrite Hs; by eauto|]. destruct Hs as (s' & -> & Hinv' & Hh).
      exists (<[k := (o, m)]> l). eauto using live_shrink.
    + rewrite (shrink_miss s l o); [by eauto|apply Hinv|done].
  - destruct Hop as (l0 & q & Ht & Hin & Hd).
    assert (l0 = l) as -> by (destruct Hinv; unfold table in *; congruence).
    destruct (write_op_inv s l o data Hinv) as (s' & -> & Hinv' & ->); [by eauto|].
    exists l. split; [done|]. intros Hl Hne. split; [done|]. destruct Hl as (j & Hinj & Hj).
    apply load_store_other.
    destruct (wf_apart _ _ _ _ (inv_wf _ _ Hinv) Hin Hinj Hne); unfold before in *; simpl in *; lia.
Qed.

(** C24. Over any history of turns from a segment that satisfies the invariant,
    the invariant holds at the end, and a region that stays allocated, is not
    shrunk below [n] and is written by nobody else keeps its first [n] bytes. *)
Theorem live_region_stable (s t : OsShm) (l : list alloc) (ops : list shm_op) (off n : Z) :
  alloc_inv s l → run s ops t → 0 ≤ n →
  (∃ l', alloc_inv t l') ∧
  (live off n l → Forall (op_spares off n) ops →
   load t off (Z.to_nat n) = load s off (Z.to_nat n)).
Proof.
  intros Hinv Hrun Hn. revert l Hinv.
  induction Hrun as [s|s op ops t Hop Hrun IH]; intros l Hinv; [by eauto|].
  destruct (run_op_stable s l op off n Hinv Hop Hn) as (l1 & Hinv1 & Hl1).
  destruct (IH l1 Hinv1) as [Hend Hsame]. split; [done|].
  intros Hl [Hsp Hsps]%list.Forall_cons. destruct (Hl1 Hl Hsp) as [Hlive <-]. auto.
Qed.

(** [attach] on a mapping that is too small to hold the header: under four
    bytes the magic slice panics whatever the bytes are, and a genuine magic and
    version over a mapping shorter than the header underflow
    [shm.size - HEADER_SIZE]. *)
Theorem attach_small_segment_panics (s : OsShm) :
  (0 ≤ os_size s < 4 → attach s = Panic) ∧
  (16 ≤ os_size s < HEADER_SIZE → load s 0 4 = MAGIC → load s 4 4 = le_bytes 4 VERSION →
   attach s = Panic).
Proof.
  split.
  - intros Hs. unfold attach, read_slice. destruct (Z.leb_spec 4 (os_size s)); [lia|].
    by rewrite andb_false_r.
  - intros Hs Hm Hv. unfold attach. rewrite !read_slice_ok by lia. cbn [mbind res_bind].
    change (Z.to_nat (4 - 0)) with 4%nat. change (Z.to_nat (8 - 4)) with 4%nat. rewrite Hm, Hv.
    rewrite bool_decide_eq_false_2 by naive_solver.
    assert ((le_val (le_bytes 4 VERSION) =? VERSION) = true) as -> by done. cbn [negb].
    unfold usub. destruct (Z.leb_spec HEADER_SIZE (os_size s)); [lia|done].
Qed.

(** ** Witnesses: a 128 KiB segment *)
Definition demo_raw : OsShm := mkOsShm (bs "/vgi_rpc_1") 131072 ∅.
Definition demo_seg : OsShm := match initialize demo_raw with Ok s => s | _ => demo_raw end.
Definition demo_one : OsShm := run_op demo_seg (OpAllocate 128).

Lemma demo_seg_inv : alloc_inv demo_seg [].
Proof. split; [by vm_compute|by vm_compute|by vm_compute|split; constructor|by vm_compute]. Qed.

Lemma demo_one_inv : alloc_inv demo_one [(65536, 128)].
Proof.
  split; [by vm_compute|by vm_compute|by vm_compute| |by vm_compute].
  split; repeat constructor; by vm_compute.
Qed.

Lemma allocate_hostile_safe_witness :
  ∃ s' r l, allocate demo_one 256 = Ok (s', r) ∧ table demo_one l ∧ header_only demo_one s' ∧
    match r with
    | Some off => HEADER_SIZE ≤ off ∧ off + 256 ≤ os_size demo_one ∧ Forall (apart off 256) l ∧
                  ∃ l', table s' l' ∧ l' ≡ₚ (off, 256) :: l
    | None => s' = demo_one
    end.
Proof. apply (allocate_hostile_safe demo_one 256); by vm_compute. Defined.

Lemma allocate_first_fit_witness :
  ∃ s' r, allocate demo_one 256 = Ok (s', Some r) ∧ HEADER_SIZE ≤ r ≤ 70000.
Proof.
  apply (allocate_first_fit demo_one [(65536, 128)] 256 70000); try (by vm_compute).
  constructor; [left; by vm_compute|constructor].
Defined.

Lemma initialize_spec_witness : ∃ s', initialize demo_raw = Ok s' ∧ alloc_inv s' [] ∧ os_size s' = 131072.
Proof. apply (initialize_spec demo_raw). by vm_compute. Defined.

Lemma allocate_preserves_inv_witness :
  ∃ s' r, allocate demo_one 64 = Ok (s', r) ∧
    match r with
    | Some off => ∃ l', alloc_inv s' l' ∧ l' ≡ₚ (off, 64) :: [(65536, 128)]
    | None => s' = demo_one
    end.
Proof. apply (allocate_preserves_inv demo_one [(65536, 128)] 64 demo_one_inv); by vm_compute. Defined.

Lemma free_spec_witness :
  ∃ s' n, [(65536, 128)] !! 0%nat = Some (65536, n) ∧ free demo_one 65536 = Ok s' ∧
          alloc_inv s' [] ∧ header_only demo_one s' ∧ (65536 ∉ ([] : list Z)).
Proof. apply (free_spec demo_one [(65536, 128)] 65536 demo_one_inv). Defined.

Lemma shrink_spec_witness :
  ∃ n, [(65536, 128)] !! 0%nat = Some (65536, n) ∧
    if n <? 64 then shrink demo_one 65536 64 = Err (RpcErr.value_error (bs "shrink: new_len "))
    else ∃ s', shrink demo_one 65536 64 = Ok s' ∧ alloc_inv s' [(65536, 64)] ∧
               header_only demo_one s'.
Proof. apply (shrink_spec demo_one [(65536, 128)] 65536 64 demo_one_inv). by vm_compute. Defined.

Lemma live_region_stable_witness :
  let s := run_op demo_one (OpWrite 65536 (bs "payload")) in
  let t := run_op (run_op s (OpAllocate 4096)) (OpFree 65664) in
  load t 65536 7 = load s 65536 7 ∧ load t 65536 7 = bs "payload".
Proof.
  intros s t. split; [|by vm_compute].
  apply (live_region_stable s t [(65536, 128)] [OpAllocate 4096; OpFree 65664] 65536 7).
  - split; [by vm_compute|by vm_compute|by vm_compute| |by vm_compute].
    split; repeat constructor; by vm_compute.
  - repeat (constructor; [by vm_compute|]). constructor.
  - by vm_compute.
  - exists 128. split; [by left|by vm_compute].
  - repeat constructor. by vm_compute.
Defined.

Lemma attach_small_segment_panics_witness : attach (mkOsShm (bs "/vgi_rpc_2") 3 ∅) = Panic.
Proof. apply (proj1 (attach_small_segment_panics (mkOsShm (bs "/vgi_rpc_2") 3 ∅))). by vm_compute. Defined.
