(* ===== verification/Ipc.v ===== *)
(** * Arrow IPC framing on a byte stream

    The reading half of [vgi-rpc/src/wire.rs]: encapsulated messages off an
    arbitrary [Read], the [StreamReader] state machine over them and the
    validation of buffer descriptors. The flatbuffer parser and the Arrow
    decoders are third-party code: the class [ArrowIpc] holds what the source
    calls of them, and a decoder's [Panic] is its own panic, which
    [decode_guard] catches. *)

From S2P Require Import Prelude Bytes Errors.

Definition MAX_IPC_SCHEMA_BYTES : Z := 16 * 1024 * 1024.
Definition MAX_IPC_MESSAGE_BYTES : Z := u32_max.
Definition CONTINUATION_MARKER : list byte := [xff; xff; xff; xff].
Definition INVALID_UTF8_METADATA_KEY : list byte := x00 :: bs "vgi_rpc.invalid_utf8_metadata".

(** ** Readers

    What a [Read] may do, call by call: deliver bytes, be interrupted, or fail.
    After the last event it reports end of file. *)
Inductive read_event :=
| Data (l : list byte)
| Interrupted
| IoError (e : RpcError).
Abbreviation reader := (list read_event).

Definition eof_error : RpcError := RpcErr.new (bs "IOError") (bs "unexpected EOF in IPC message").
Definition eof_body : RpcError := RpcErr.new (bs "IOError") (bs "unexpected EOF in message body").

(** The loop of [read_exact]: [need] bytes are missing, [got] were read.
    [None] is end of file before the first byte. *)
Fixpoint read_exact_loop (need : nat) (got : list byte) (r : reader)
  : res RpcError (option (list byte) * reader) :=
  match need with
  | O => Ok (Some got, r)
  | S _ =>
    match r with
    | [] => match got with [] => Ok (None, []) | _ => Err eof_error end
    | Data [] :: t => match got with [] => Ok (None, t) | _ => Err eof_error end
    | Data l :: t =>
      if (length l <=? need)%nat then read_exact_loop (need - length l) (got ++ l) t
      else Ok (Some (got ++ take need l), Data (drop need l) :: t)
    | Interrupted :: t => read_exact_loop need got t
    | IoError e :: _ => Err e
    end
  end.

Definition read_exact (r : reader) (n : Z) : res RpcError (option (list byte) * reader) :=
  read_exact_loop (Z.to_nat n) [] r.

(** [(&mut *r).take(n).read_to_end(&mut body)]: up to [n] bytes. *)
Fixpoint take_read_to_end (need : nat) (got : list byte) (r : reader)
  : res RpcError (list byte * reader) :=
  match need with
  | O => Ok (got, r)
  | S _ =>
    match r with
    | [] => Ok (got, [])
    | Data [] :: t => Ok (got, t)
    | Data l :: t =>
      if (length l <=? need)%nat then take_read_to_end (need - length l) (got ++ l) t
      else Ok (got ++ take need l, Data (drop need l) :: t)
    | Interrupted :: t => take_read_to_end need got t
    | IoError e :: _ => Err e
    end
  end.

(** ** Messages as the source reads them *)
Inductive MessageHeader := HNone | HSchema | HDictionaryBatch | HRecordBatch | HOther.

(** A buffer descriptor: [(offset, length)], both [i64]. *)
Abbreviation buffer_desc := (Z * Z)%type.

Record IpcMessage := mkIpcMessage {
  header_type : MessageHeader;
  version : Z;
  bodyLength : Z;
  (** [header_as_schema()] / [header_as_dictionary_batch()] / [header_as_record_batch()] *)
  header_present : bool;
  (** [ipc_schema.fields().is_some()] *)
  schema_fields_present : bool;
  (** [dict.data()], with its [buffers()] *)
  dict_data : option (option (list buffer_desc));
  (** [rb.buffers()], [rb.nodes()] (length and null count), [rb.length()],
      [rb.variadicBufferCounts()] and whether [rb.compression()] is set *)
  rb_buffers : option (list buffer_desc);
  rb_nodes : option (list (Z * Z));
  rb_length : Z;
  rb_variadic : option (list Z);
  rb_compressed : bool;
  (** [custom_metadata()]: key and value of each pair, either may be absent *)
  custom_metadata : option (list (option (list byte) * option (list byte)))
}.

(** [root_as_message]: a parsed message, the byte range of a string that is not
    UTF-8, or any other verifier error. *)
Inductive fb_parse :=
| FbOk (m : IpcMessage)
| FbUtf8Error (start stop : Z)
| FbError.

Class ArrowIpc := {
  ArrowSchema : Type;
  RecordBatch : Type;
  Dictionaries : Type;
  no_dictionaries : Dictionaries;
  root_as_message : list byte → fb_parse;
  fb_to_schema : IpcMessage → res RpcError ArrowSchema;
  read_dictionary : list byte → IpcMessage → ArrowSchema → Dictionaries → res RpcError Dictionaries;
  read_record_batch : list byte → IpcMessage → ArrowSchema → Dictionaries → res RpcError RecordBatch
}.

Record RawMessage := mkRawMessage {
  message_bytes : list byte;
  body : list byte;
  had_invalid_utf8 : bool
}.

Inductive Frame :=
| Message (m : RawMessage)
| Eos.

Definition ipc_error (m : list byte) : RpcError := RpcErr.new (bs "IPC") m.

(** [message_bytes[start..stop].fill(b'?')] *)
Definition fill_question (l : list byte) (start stop : Z) : list byte :=
  ztake start l ++ replicate (Z.to_nat (stop - start)) x3f ++ zdrop stop l.

Section Framing.
Context `{ArrowIpc}.

(** The parse-and-repair loop; [None] is the exhaustion of [fuel]. *)
Fixpoint parse_repair (fuel : nat) (bytes : list byte) (bad : bool)
  : option (res RpcError (IpcMessage * list byte * bool)) :=
  match fuel with
  | O => None
  | S fuel =>
    match root_as_message bytes with
    | FbOk m => Some (Ok (m, bytes, bad))
    | FbUtf8Error a b =>
      if (a <? b) && (b <=? zlen bytes) && (0 <=? a)
      then parse_repair fuel (fill_question bytes a b) true
      else Some (Err (ipc_error (bs "parse message header: ")))
    | FbError => Some (Err (ipc_error (bs "parse message header: ")))
    end
  end.

(** Each repair overwrites at least one byte that was not ['?'], so the length
    bounds the iterations; running out would be the loop not terminating. *)
Definition parse_message (bytes : list byte) : res RpcError (IpcMessage * list byte * bool) :=
  match parse_repair (S (length bytes)) bytes false with Some r => r | None => Panic end.

(** [read_message_bytes] from the length prefix on. *)
Definition read_sized (size_bytes : list byte) (r : reader) (max_bytes : Z)
  : res RpcError (option Frame * reader) :=
  let size := le_val size_bytes in
  if size =? 0 then Ok (Some Eos, r) else
  if max_bytes <? size then Err (ipc_error (bs "IPC message header length ")) else
  '(bytes, r) ← read_exact r size;
  bytes ← ok_or eof_body bytes;
  '(msg, bytes, bad) ← parse_message bytes;
  let body_length_signed := bodyLength msg in
  if body_length_signed <? 0 then Err (ipc_error (bs "IPC message has negative bodyLength (")) else
  if max_bytes <? body_length_signed then Err (ipc_error (bs "IPC message bodyLength ")) else
  '(body, r) ← (if 0 <? body_length_signed then
                  '(b, r) ← take_read_to_end (Z.to_nat body_length_signed) [] r;
                  if zlen b =? body_length_signed then Ok (b, r) else Err eof_body
                else Ok ([], r));
  Ok (Some (Message (mkRawMessage bytes body bad)), r).

Definition read_message_bytes (r : reader) (max_bytes : Z)
  : res RpcError (option Frame * reader) :=
  '(prefix, r) ← read_exact r 4;
  match prefix with
  | None => Ok (None, r)
  | Some prefix =>
    '(size_bytes, r) ← (if decide (prefix = CONTINUATION_MARKER) then read_exact r 4
                        else Ok (Some prefix, r));
    match size_bytes with
    | None => Ok (None, r)
    | Some size_bytes => read_sized size_bytes r max_bytes
    end
  end.

(** ** Buffer descriptors *)
Definition check_buffer (body_len : Z) (d : buffer_desc) : res RpcError unit :=
  let '(offset, length) := d in
  if (offset <? 0) || (length <? 0) then Err (ipc_error (bs "negative IPC buffer descriptor")) else
  end_ ← ok_or (ipc_error (bs "IPC buffer descriptor overflows")) (checked_add offset length);
  if body_len <? end_ then Err (ipc_error (bs "IPC buffer descriptor exceeds message body"))
  else Ok tt.

Definition validate_record_batch_buffers (buffers : option (list buffer_desc)) (body_len : Z)
  : res RpcError unit :=
  match buffers with
  | None => Ok tt
  | Some buffers => try_fold (fun _ d => check_buffer body_len d) tt buffers
  end.

(** [catch_unwind] around a decode call. *)
Definition decode_guard {A} (what : list byte) (r : res RpcError A) : res RpcError A :=
  match r with Panic => Err (ipc_error (bs "panic decoding " ++ what)) | r => r end.

(** ** [StreamReader] *)
Record StreamReader := mkStreamReader {
  sr_reader : reader;
  sr_schema : ArrowSchema;
  sr_dictionaries : Dictionaries;
  finished : bool;
  saw_eos : bool;
  relaxed_schema : option ArrowSchema
}.

Definition stream_reader_new (r : reader) : res RpcError StreamReader :=
  '(frame, r) ← read_message_bytes r MAX_IPC_SCHEMA_BYTES;
  match frame with
  | Some (Message msg) =>
    if had_invalid_utf8 msg
    then Err (RpcErr.protocol_error (bs "Invalid UTF-8 in IPC schema metadata")) else
    match root_as_message (message_bytes msg) with
    | FbOk m =>
      match header_type m with
      | HSchema =>
        if negb (header_present m) then Err (ipc_error (bs "bad schema header")) else
        if negb (schema_fields_present m)
        then Err (ipc_error (bs "schema message has no fields vector")) else
        schema ← decode_guard (bs "schema message") (fb_to_schema m);
        Ok (mkStreamReader r schema no_dictionaries false false None)
      | _ => Err (ipc_error (bs "expected Schema, got "))
      end
    | _ => Err (ipc_error (bs "parse schema message: "))
    end
  | Some Eos | None => Err (ipc_error (bs "empty IPC stream (no schema)"))
  end.

Definition parse_custom_metadata (m : IpcMessage) : Metadata :=
  match custom_metadata m with
  | None => ∅
  | Some kvs => foldl (fun out kv => <[default [] kv.1 := default [] kv.2]> out) ∅ kvs
  end.

Definition with_reader (s : StreamReader) (r : reader) : StreamReader :=
  mkStreamReader r (sr_schema s) (sr_dictionaries s) (finished s) (saw_eos s) (relaxed_schema s).
Definition with_dictionaries (s : StreamReader) (d : Dictionaries) : StreamReader :=
  mkStreamReader (sr_reader s) (sr_schema s) d (finished s) (saw_eos s) (relaxed_schema s).
Definition set_finished (s : StreamReader) (eos : bool) : StreamReader :=
  mkStreamReader (sr_reader s) (sr_schema s) (sr_dictionaries s) true
                 (saw_eos s || eos) (relaxed_schema s).

(** One pass of the [loop] in [read_next]: go round again, or return. *)
Inductive turn :=
| Again (s : StreamReader)
| Done (o : option (RecordBatch * Metadata)) (s : StreamReader).

Definition read_next_turn (s : StreamReader) : res RpcError turn :=
  '(frame, r) ← read_message_bytes (sr_reader s) MAX_IPC_MESSAGE_BYTES;
  let s := with_reader s r in
  match frame with
  | None => Ok (Done None (set_finished s false))
  | Some Eos => Ok (Done None (set_finished s true))
  | Some (Message msg) =>
    match root_as_message (message_bytes msg) with
    | FbOk m =>
      match header_type m with
      | HDictionaryBatch =>
        if negb (header_present m) then Err (ipc_error (bs "bad dictionary header")) else
        _ ← (match dict_data m with
             | Some data => validate_record_batch_buffers data (zlen (body msg))
             | None => Ok tt
             end);
        d ← decode_guard (bs "dictionary batch")
              (read_dictionary (body msg) m (sr_schema s) (sr_dictionaries s));
        Ok (Again (with_dictionaries s d))
      | HRecordBatch =>
        if negb (header_present m) then Err (ipc_error (bs "bad record batch header")) else
        _ ← validate_record_batch_buffers (rb_buffers m) (zlen (body msg));
        let decode_schema := default (sr_schema s) (relaxed_schema s) in
        batch ← decode_guard (bs "record batch")
                  (read_record_batch (body msg) m decode_schema (sr_dictionaries s));
        let md := parse_custom_metadata m in
        let md := if had_invalid_utf8 msg
                  then <[INVALID_UTF8_METADATA_KEY := bs "true"]> md else md in
        Ok (Done (Some (batch, md)) s)
      | HSchema => Err (ipc_error (bs "unexpected schema message mid-stream"))
      | HNone => Ok (Again s)
      | HOther => Err (ipc_error (bs "unsupported message type "))
      end
    | _ => Err (ipc_error (bs "parse message: "))
    end
  end.

(** Bytes and events a reader still holds: each turn that goes round again
    consumes at least one. *)
Definition reader_size (r : reader) : nat :=
  foldr (fun e n => (match e with Data l => S (length l) | _ => 1 end + n)%nat) O r.

Fixpoint read_next_loop (fuel : nat) (s : StreamReader)
  : option (res RpcError (option (RecordBatch * Metadata) * StreamReader)) :=
  match fuel with
  | O => None
  | S fuel =>
    match read_next_turn s with
    | Ok (Again s) => read_next_loop fuel s
    | Ok (Done o s) => Some (Ok (o, s))
    | Err e => Some (Err e)
    | Panic => Some Panic
    end
  end.

Definition read_next (s : StreamReader)
  : option (res RpcError (option (RecordBatch * Metadata) * StreamReader)) :=
  if finished s then Some (Ok (None, s)) else read_next_loop (S (reader_size (sr_reader s))) s.

(** [while self.read_next()?.is_some() {}] *)
Fixpoint drain_loop (fuel : nat) (s : StreamReader) : option (res RpcError StreamReader) :=
  match fuel with
  | O => None
  | S fuel =>
    match read_next s with
    | Some (Ok (Some _, s)) => drain_loop fuel s
    | Some (Ok (None, s)) => Some (Ok s)
    | Some (Err e) => Some (Err e)
    | Some Panic => Some Panic
    | None => None
    end
  end.

Definition drain (s : StreamReader) : option (res RpcError StreamReader) :=
  drain_loop (S (S (reader_size (sr_reader s)))) s.
End Framing.
