(* ===== verification/IpcProps.v ===== *)
(** * Properties of the IPC framing

    Independence from how the transport cuts the bytes into reads, resource
    bounds, termination of the repair and read loops, and the position of the
    reader after a stream: the request boundary every persistent connection
    relies on. *)

From S2P Require Import Prelude Bytes Errors Ipc.

(** ** Readers *)

(** The bytes a reader will deliver. *)
Definition content (r : reader) : list byte :=
  foldr (fun e c => match e with Data l => l ++ c | _ => c end) [] r.

(** A reader whose calls deliver at least one byte or are interrupted. *)
Definition clean (r : reader) : Prop :=
  Forall (fun e => match e with Data l => l ≠ [] | Interrupted => True | IoError _ => False end) r.

Lemma reader_size_cons e r :
  reader_size (e :: r) = (match e with Data l => S (length l) | _ => 1 end + reader_size r)%nat.
Proof. reflexivity. Qed.

Lemma take_read_to_end_clean need got r :
  clean r → (need ≤ length (content r))%nat →
  ∃ r', take_read_to_end need got r = Ok (got ++ take need (content r), r') ∧
        clean r' ∧ content r' = drop need (content r).
Proof.
  intros Hc. revert need got. induction Hc as [|e t He Ht IH]; intros need got Hn.
  { destruct need; simpl in *; [|lia]. exists []. rewrite app_nil_r. by split_and!; try constructor. }
  destruct need as [|need'].
  { exists (e :: t). simpl. rewrite app_nil_r. by split_and!; try constructor. }
  remember (S need') as need eqn:En. destruct e as [l| |e]; [| |done].
  - destruct l as [|b l']; [done|]. remember (b :: l') as l eqn:El.
    cbn [content foldr] in *. fold (content t) in *.
    assert (take_read_to_end need got (Data l :: t) =
      if (length l <=? need)%nat then take_read_to_end (need - length l) (got ++ l) t
      else Ok (got ++ take need l, Data (drop need l) :: t)) as -> by (by subst).
    destruct (Nat.leb_spec (length l) need).
    + destruct (IH (need - length l)%nat (got ++ l)) as (r' & -> & Hr' & Hcr).
      { rewrite length_app in Hn. lia. }
      exists r'. split; [|split; [done|]].
      * rewrite take_app, (take_ge l) by lia. by rewrite <- app_assoc.
      * rewrite drop_app, (drop_ge l) by lia. done.
    + eexists. rewrite take_app_le by lia. split; [done|]. split.
      * constructor; [|done]. intros Hd. apply (f_equal length) in Hd.
        rewrite length_drop in Hd. simpl in Hd. lia.
      * cbn [content foldr]. fold (content t). rewrite drop_app_le by lia. done.
  - cbn [content foldr] in *. fold (content t) in *. subst. by apply IH.
Qed.

(** With enough bytes left, [read_exact] is the same read. *)
Lemma read_exact_loop_take need got r l r' :
  take_read_to_end need got r = Ok (l, r') → length l = (length got + need)%nat →
  read_exact_loop need got r = Ok (Some l, r').
Proof.
  revert need got. induction r as [|e t IH]; intros need got E Hl;
    (destruct need as [|need']; [simpl in *; congruence|]).
  - simpl in E. injection E as <- <-. lia.
  - destruct e as [[|b l']| |e]; cbn [take_read_to_end read_exact_loop] in *.
    + injection E as <- <-. lia.
    + destruct (Nat.leb_spec (length (b :: l')) (S need')); [|congruence].
      apply IH; [done|]. rewrite length_app. lia.
    + by apply IH.
    + done.
Qed.

Lemma read_exact_clean r n :
  clean r → 0 ≤ n ≤ zlen (content r) →
  ∃ r', read_exact r n = Ok (Some (ztake n (content r)), r') ∧ clean r' ∧
        content r' = zdrop n (content r).
Proof.
  intros Hc Hn. unfold zlen in Hn.
  destruct (take_read_to_end_clean (Z.to_nat n) [] r) as (r' & E & Hr); [done|lia|].
  exists r'. split; [|done]. unfold read_exact. eapply read_exact_loop_take in E; [done|].
  simpl. rewrite length_take. lia.
Qed.

Lemma read_exact_eof n : 0 < n → read_exact [] n = Ok (None, []).
Proof. intros. unfold read_exact. by replace (Z.to_nat n) with (S (Z.to_nat (n - 1))) by lia. Qed.

Lemma read_exact_loop_progress need got r l r' :
  read_exact_loop need got r = Ok (Some l, r') →
  length l = (length got + need)%nat ∧ (reader_size r' ≤ reader_size r)%nat ∧
  (need ≠ O → (reader_size r' < reader_size r)%nat).
Proof.
  revert need got. induction r as [|e t IH]; intros need got E;
    (destruct need as [|need']; [simpl in E; injection E as <- <-; lia|]).
  - simpl in E. by destruct got.
  - rewrite reader_size_cons. destruct e as [[|b l']| |e]; cbn [read_exact_loop] in E.
    + by destruct got.
    + destruct (Nat.leb_spec (length (b :: l')) (S need')) as [Hle|Hgt].
      * apply IH in E as (Hl & Hs & _). rewrite length_app in Hl. simpl in *. lia.
      * injection E as <- <-. rewrite reader_size_cons, length_app. simpl in *.
        rewrite length_take, length_drop. lia.
    + apply IH in E as (Hl & Hs & _). lia.
    + done.
Qed.

Lemma read_exact_progress r n l r' :
  read_exact r n = Ok (Some l, r') →
  zlen l = Z.max 0 n ∧ (reader_size r' ≤ reader_size r)%nat ∧
  (0 < n → (reader_size r' < reader_size r)%nat).
Proof.
  intros E%read_exact_loop_progress. unfold zlen. simpl in E. destruct E as (Hl & Hs & Hp).
  split_and!; [lia|done|]. intros. apply Hp. lia.
Qed.

Lemma take_read_to_end_size need got r l r' :
  take_read_to_end need got r = Ok (l, r') → (reader_size r' ≤ reader_size r)%nat.
Proof.
  revert need got. induction r as [|e t IH]; intros need got E;
    (destruct need as [|need']; [simpl in E; injection E as <- <-; lia|]).
  - simpl in E. injection E as <- <-. lia.
  - rewrite reader_size_cons. destruct e as [[|b l']| |e]; cbn [take_read_to_end] in E.
    + injection E as <- <-. simpl. lia.
    + destruct (Nat.leb_spec (length (b :: l')) (S need')) as [Hle|Hgt].
      * apply IH in E. lia.
      * injection E as <- <-. simpl in *. rewrite length_drop. lia.
    + apply IH in E. lia.
    + done.
Qed.

Lemma read_exact_loop_short need got r :
  clean r → (length (content r) < need)%nat →
  read_exact_loop need got r =
    match got ++ content r with [] => Ok (None, []) | _ => Err eof_error end.
Proof.
  intros Hc. revert need got. induction Hc as [|e t He Ht IH]; intros need got Hn.
  - destruct need; [simpl in Hn; lia|]. cbn [read_exact_loop content foldr]. by rewrite app_nil_r.
  - destruct need as [|need]; [lia|]. destruct e as [[|b l]| |e]; [done| | |done];
      cbn [read_exact_loop content foldr] in *; fold (content t) in *.
    + rewrite length_app in Hn. destruct (Nat.leb_spec (length (b :: l)) (S need)); [|lia].
      rewrite IH by lia. by rewrite <- app_assoc.
    + by apply IH.
Qed.

Lemma read_exact_loop_no_panic need got r : no_panic (read_exact_loop need got r).
Proof.
  revert need got. induction r as [|e t IH]; intros [|need] got; cbn [read_exact_loop].
  - done.
  - by destruct got.
  - done.
  - destruct e as [[|b l]| |e]; [by destruct got| |apply IH|done]. case_match; [apply IH|done].
Qed.

Lemma take_read_to_end_no_panic need got r : no_panic (take_read_to_end need got r).
Proof.
  revert need got. induction r as [|e t IH]; intros [|need] got; cbn [take_read_to_end]; try done.
  destruct e as [[|b l]| |e]; [done| |apply IH|done]. case_match; [apply IH|done].
Qed.

(** ** The flatbuffer parser's contract

    A [Utf8Error] reports the byte range of a string that is not UTF-8. *)
Class ArrowIpcLaws `{ArrowIpc} := {
  utf8_error_range : ∀ b a z l,
    root_as_message b = FbUtf8Error a z → slice b a z = Some l → utf8_valid l = false
}.

(** Bytes other than ['?']: what a repair uses up. *)
Definition unfilled (l : list byte) : nat := length (filter (fun b => b ≠ x3f) l).

Lemma unfilled_app l k : unfilled (l ++ k) = (unfilled l + unfilled k)%nat.
Proof. unfold unfilled. by rewrite list.filter_app, length_app. Qed.

Lemma unfilled_replicate n : unfilled (replicate n x3f) = O.
Proof.
  induction n as [|n IH]; [done|]. unfold unfilled in *. simpl. rewrite list.filter_cons_False; [done|].
  naive_solver.
Qed.

Lemma unfilled_le l : (unfilled l ≤ length l)%nat.
Proof. apply length_filter. Qed.

Lemma unfilled_invalid l : utf8_valid l = false → (0 < unfilled l)%nat.
Proof.
  intros Hv. destruct (unfilled l) as [|n] eqn:E; [|lia]. exfalso.
  assert (Forall (fun b => b2z b < 128) l) as Hall.
  { apply list.Forall_forall. intros b Hb. unfold unfilled in E. apply nil_length_inv in E.
    destruct (decide (b = x3f)) as [->|Hne]; [by vm_compute|].
    assert (b ∈ filter (fun b => b ≠ x3f) l) as Hin by (by apply list_elem_of_filter).
    rewrite E in Hin. by apply elem_of_nil in Hin. }
  apply utf8_valid_ascii in Hall. congruence.
Qed.

Lemma slice_split {A} (l k : list A) a b :
  slice l a b = Some k → l = ztake a l ++ k ++ zdrop b l.
Proof.
  intros (Ha & Hb & ->)%slice_Some.
  rewrite <- (ztake_zdrop a l) at 1. f_equal.
  rewrite <- (ztake_zdrop (b - a) (zdrop a l)) at 1. f_equal.
  rewrite zdrop_zdrop by lia. f_equal. lia.
Qed.

Lemma fill_question_unfilled l k a b :
  slice l a b = Some k → utf8_valid k = false → (unfilled (fill_question l a b) < unfilled l)%nat.
Proof.
  intros Hs Hv. pose proof (slice_split _ _ _ _ Hs) as E. unfold fill_question.
  rewrite !unfilled_app, unfilled_replicate. rewrite E at 3. rewrite !unfilled_app.
  pose proof (unfilled_invalid _ Hv). lia.
Qed.

Lemma length_fill_question l a b :
  0 ≤ a ≤ b → b ≤ zlen l → zlen (fill_question l a b) = zlen l.
Proof.
  intros. unfold fill_question. rewrite !zlen_app, zlen_ztake, zlen_zdrop by lia.
  unfold zlen at 1. rewrite length_replicate. lia.
Qed.

Section Framing.
Context `{ArrowIpcLaws}.

Lemma parse_repair_total fuel bytes bad :
  (unfilled bytes < fuel)%nat → ∃ r, parse_repair fuel bytes bad = Some r ∧ no_panic r.
Proof.
  revert bytes bad. induction fuel as [|fuel IH]; intros bytes bad Hf; [lia|].
  cbn [parse_repair]. destruct (root_as_message bytes) as [m|a z|] eqn:E;
    [by eexists| |by eexists].
  destruct (Z.ltb_spec a z), (Z.leb_spec z (zlen bytes)), (Z.leb_spec 0 a); simpl;
    try (by eexists).
  apply IH. pose proof (slice_ok bytes a z ltac:(lia) ltac:(lia)) as Hs.
  pose proof (fill_question_unfilled _ _ _ _ Hs (utf8_error_range _ _ _ _ E Hs)). lia.
Qed.

Lemma parse_message_no_panic bytes : no_panic (parse_message bytes).
Proof.
  unfold parse_message. pose proof (unfilled_le bytes).
  destruct (parse_repair_total (S (length bytes)) bytes false) as (r & -> & ?); [lia|done].
Qed.

Lemma parse_repair_result fuel bytes bad m bytes' bad' :
  parse_repair fuel bytes bad = Some (Ok (m, bytes', bad')) →
  root_as_message bytes' = FbOk m ∧ zlen bytes' = zlen bytes ∧ (bad = true → bad' = true).
Proof.
  revert bytes bad. induction fuel as [|fuel IH]; intros bytes bad E; [done|].
  cbn [parse_repair] in E. destruct (root_as_message bytes) as [m'|a z|] eqn:Er; [| |done].
  - injection E as <- <- <-. done.
  - destruct (Z.ltb_spec a z), (Z.leb_spec z (zlen bytes)), (Z.leb_spec 0 a); simpl in E; try done.
    apply IH in E as (? & Hl & Hb). rewrite length_fill_question in Hl by lia.
    split_and!; auto.
Qed.

Lemma parse_message_result bytes m bytes' bad :
  parse_message bytes = Ok (m, bytes', bad) →
  root_as_message bytes' = FbOk m ∧ zlen bytes' = zlen bytes.
Proof.
  unfold parse_message. destruct (parse_repair _ _ _) as [r|] eqn:E; [|done].
  intros ->. apply parse_repair_result in E as (? & ? & _). done.
Qed.

Lemma parse_message_clean bytes m :
  root_as_message bytes = FbOk m → parse_message bytes = Ok (m, bytes, false).
Proof. intros E. unfold parse_message. cbn [parse_repair]. by rewrite E. Qed.

(** Case analysis of [read_message_bytes] on success. *)
Lemma read_message_inv r max f r' :
  read_message_bytes r max = Ok (Some f, r') →
  (reader_size r' < reader_size r)%nat ∧
  match f with
  | Eos => True
  | Message m => ∃ msg, root_as_message (message_bytes m) = FbOk msg ∧
      0 < zlen (message_bytes m) ≤ max ∧ bodyLength msg = zlen (body m) ∧ zlen (body m) ≤ max
  end.
Proof.
  unfold read_message_bytes. intros E. apply bind_Ok in E as ((p & r1) & E1 & E).
  destruct p as [p|]; [|done]. apply bind_Ok in E as ((sb & r2) & E2 & E).
  apply read_exact_progress in E1 as (_ & _ & Hp1). specialize (Hp1 ltac:(lia)).
  destruct sb as [sb|]; [|done]. unfold read_sized in E.
  assert (reader_size r2 ≤ reader_size r1)%nat as Hp2.
  { case_decide; [by apply read_exact_progress in E2 as (_ & ? & _)|by inv_res]. }
  pose proof (le_val_range sb) as Hr.
  destruct (Z.eqb_spec (le_val sb) 0); [injection E as <- <-; split; [lia|done]|].
  destruct (Z.ltb_spec max (le_val sb)); [done|].
  apply bind_Ok in E as ((bytes & r3) & E3 & E). destruct bytes as [bytes|]; [|done].
  cbn [ok_or mbind res_bind] in E. apply bind_Ok in E as ((pm & bad) & E4 & E).
  destruct pm as [msg bytes']. apply parse_message_result in E4 as [Hm Hl].
  apply read_exact_progress in E3 as (Hb & Hp3 & _).
  destruct (Z.ltb_spec (bodyLength msg) 0); [done|].
  destruct (Z.ltb_spec max (bodyLength msg)); [done|].
  apply bind_Ok in E as ((b & r4) & E5 & E). injection E as <- <-.
  assert (zlen b = bodyLength msg ∧ (reader_size r4 ≤ reader_size r3)%nat) as [Hbl Hp4].
  { destruct (Z.ltb_spec 0 (bodyLength msg)).
    - apply bind_Ok in E5 as ((b' & r5) & E6 & E5). apply take_read_to_end_size in E6.
      destruct (Z.eqb_spec (zlen b') (bodyLength msg)); [|done]. by injection E5 as <- <-.
    - injection E5 as <- <-. rewrite zlen_nil. split; [lia|done]. }
  split; [lia|]. exists msg. simpl. split_and!; [done|lia..].
Qed.

Lemma read_sized_not_none sb r max r' : read_sized sb r max ≠ Ok (None, r').
Proof.
  unfold read_sized. intros E. case_match; [done|]. case_match; [done|].
  apply bind_Ok in E as ((b & r1) & _ & E). apply bind_Ok in E as (bytes & _ & E).
  apply bind_Ok in E as ([[msg bytes'] bad] & _ & E). case_match; [done|]. case_match; [done|].
  apply bind_Ok in E as ((b' & r2) & _ & E). done.
Qed.

Lemma read_message_no_panic r max : no_panic (read_message_bytes r max).
Proof.
  unfold read_message_bytes. apply bind_no_panic; [apply read_exact_loop_no_panic|]. intros [[p|] r1] _; [|done].
  apply bind_no_panic; [case_decide; [apply read_exact_loop_no_panic|done]|]. intros [[sb|] r2] _; [|done].
  unfold read_sized. case_match; [done|]. case_match; [done|]. apply bind_no_panic; [apply read_exact_loop_no_panic|].
  intros [b r3] _. apply bind_no_panic; [apply ok_or_no_panic|]. intros bytes _.
  apply bind_no_panic; [apply parse_message_no_panic|]. intros [[msg bytes'] bad] _.
  case_match; [done|]. case_match; [done|]. apply bind_no_panic; [|by intros [??] _].
  case_match; [|done]. apply bind_no_panic; [apply take_read_to_end_no_panic|]. intros [b' r4] _. by case_match.
Qed.

(** ** Reading what was framed *)

(** One encapsulated message as it lies on the wire. *)
Definition wire_frame (m b : list byte) : list byte :=
  CONTINUATION_MARKER ++ le_bytes 4 (zlen m) ++ m ++ b.
Definition wire_eos : list byte := CONTINUATION_MARKER ++ le_bytes 4 0.

(** Reading the next segment of a clean reader. *)
Lemma read_exact_segment r a c :
  clean r → content r = a ++ c →
  ∃ r', read_exact r (zlen a) = Ok (Some a, r') ∧ clean r' ∧ content r' = c.
Proof.
  intros Hc E. destruct (read_exact_clean r (zlen a)) as (r' & Hr & Hc' & Hd); [done| |].
  - rewrite E, zlen_app. pose proof (zlen_nonneg a). pose proof (zlen_nonneg c). lia.
  - exists r'. by rewrite Hr, Hd, E, ztake_app_eq, zdrop_app_eq.
Qed.

Lemma take_read_segment r a c :
  clean r → content r = a ++ c →
  ∃ r', take_read_to_end (Z.to_nat (zlen a)) [] r = Ok (a, r') ∧ clean r' ∧ content r' = c.
Proof.
  intros Hc E. destruct (take_read_to_end_clean (length a) [] r) as (r' & Hr & Hc' & Hd); [done| |].
  - rewrite E, length_app. lia.
  - exists r'. unfold zlen. by rewrite Nat2Z.id, Hr, Hd, E, take_app_length, drop_app_length.
Qed.

(** From the length prefix on: the header and the body of a message. *)
Lemma read_sized_frame sb r m b rest max msg :
  clean r → content r = m ++ b ++ rest → le_val sb = zlen m →
  root_as_message m = FbOk msg → bodyLength msg = zlen b →
  0 < zlen m ≤ max → zlen b ≤ max →
  ∃ r', read_sized sb r max = Ok (Some (Message (mkRawMessage m b false)), r') ∧
        clean r' ∧ content r' = rest.
Proof.
  intros Hc Hd Hsb Hm Hb Hml Hbl.
  destruct (read_exact_segment _ _ _ Hc Hd) as (r3 & E3 & Hc3 & Hd3).
  destruct (take_read_segment _ _ _ Hc3 Hd3) as (r4 & E4 & Hc4 & Hd4).
  unfold read_sized. rewrite Hsb.
  destruct (Z.eqb_spec (zlen m) 0); [lia|]. destruct (Z.ltb_spec max (zlen m)); [lia|].
  rewrite E3. cbn [mbind res_bind ok_or]. rewrite (parse_message_clean _ _ Hm).
  cbn [mbind res_bind]. rewrite Hb. pose proof (zlen_nonneg b).
  destruct (Z.ltb_spec (zlen b) 0); [lia|]. destruct (Z.ltb_spec max (zlen b)); [lia|].
  destruct (Z.ltb_spec 0 (zlen b)).
  - rewrite E4. cbn [mbind res_bind]. rewrite Z.eqb_refl. cbn [mbind res_bind]. eauto.
  - assert (b = []) as -> by (apply zlen_0; lia). cbn [mbind res_bind]. simpl in Hd3. eauto.
Qed.

Lemma read_message_frame r m b rest max msg :
  clean r → content r = wire_frame m b ++ rest →
  root_as_message m = FbOk msg → bodyLength msg = zlen b →
  0 < zlen m ≤ Z.min max u32_max → zlen b ≤ max →
  ∃ r', read_message_bytes r max = Ok (Some (Message (mkRawMessage m b false)), r') ∧
        clean r' ∧ content r' = rest.
Proof.
  intros Hc E Hm Hb Hml Hbl. unfold wire_frame in E. rewrite <- !app_assoc in E.
  destruct (read_exact_segment _ _ _ Hc E) as (r1 & E1 & Hc1 & Hd1).
  destruct (read_exact_segment _ _ _ Hc1 Hd1) as (r2 & E2 & Hc2 & Hd2).
  unfold read_message_bytes. change (read_exact r 4) with (read_exact r (zlen CONTINUATION_MARKER)).
  rewrite E1. cbn [mbind res_bind]. rewrite decide_True by done.
  rewrite zlen_le_bytes in E2. change (Z.of_nat 4) with 4 in E2. rewrite E2. cbn [mbind res_bind].
  eapply read_sized_frame; try done; [|lia]. rewrite le_val_bytes_small; [done|]. ints. simpl. lia.
Qed.

Lemma read_message_eos r rest max :
  clean r → content r = wire_eos ++ rest →
  ∃ r', read_message_bytes r max = Ok (Some Eos, r') ∧ clean r' ∧ content r' = rest.
Proof.
  intros Hc E. unfold wire_eos in E. rewrite <- app_assoc in E.
  destruct (read_exact_segment _ _ _ Hc E) as (r1 & E1 & Hc1 & Hd1).
  destruct (read_exact_segment _ _ _ Hc1 Hd1) as (r2 & E2 & Hc2 & Hd2).
  exists r2. split; [|done].
  unfold read_message_bytes. change (read_exact r 4) with (read_exact r (zlen CONTINUATION_MARKER)).
  rewrite E1. cbn [mbind res_bind]. rewrite decide_True by done.
  rewrite zlen_le_bytes in E2. change (Z.of_nat 4) with 4 in E2. rewrite E2. reflexivity.
Qed.

Lemma read_exact_progress_clean r n l r' :
  clean r → read_exact r n = Ok (Some l, r') → n ≤ zlen (content r).
Proof.
  intros Hc E. destruct (decide (n ≤ zlen (content r))) as [|Hgt]; [done|].
  unfold read_exact in E. unfold zlen in Hgt. rewrite read_exact_loop_short in E by (done || lia).
  by destruct (content r).
Qed.

(** ** Buffer descriptors *)
Definition desc_ok (body_len : Z) (d : buffer_desc) : Prop :=
  0 ≤ d.1 ∧ 0 ≤ d.2 ∧ d.1 + d.2 ≤ body_len.

Lemma check_buffer_Ok n d : n ≤ u64_max → check_buffer n d = Ok tt ↔ desc_ok n d.
Proof.
  intros Hn. destruct d as [o l]. unfold check_buffer, desc_ok; simpl.
  destruct (Z.ltb_spec o 0), (Z.ltb_spec l 0); simpl; try (split; [done|lia]).
  destruct (checked_add o l) as [e|] eqn:E; simpl.
  - apply checked_add_Some in E as [-> ?]. destruct (Z.ltb_spec n (o + l)); split; (done || lia).
  - split; [done|]. intros. assert (checked_add o l = Some (o + l)) as Hc; [|congruence].
    apply checked_add_Some. lia.
Qed.

Lemma check_buffer_no_panic n d : no_panic (check_buffer n d).
Proof.
  destruct d as [o l]. unfold check_buffer. case_match; [done|].
  apply bind_no_panic; [apply ok_or_no_panic|]. intros e _. by case_match.
Qed.

Lemma validate_no_panic o n : no_panic (validate_record_batch_buffers o n).
Proof.
  destruct o as [l|]; [|done]. simpl. induction l as [|d l IH]; [done|]. simpl.
  apply bind_no_panic; [apply check_buffer_no_panic|]. by intros [] _.
Qed.

Lemma validate_all l n :
  n ≤ u64_max →
  validate_record_batch_buffers (Some l) n = Ok tt ↔ Forall (desc_ok n) l.
Proof.
  intros Hn. simpl. induction l as [|d l IH]; [by split|]. simpl.
  rewrite list.Forall_cons, <- (check_buffer_Ok n d Hn), <- IH, bind_Ok. split.
  - intros ([] & ? & ?). done.
  - intros [? ?]. by exists tt.
Qed.

(** ** Termination of the reader *)
Lemma decode_guard_no_panic {A} w (r : res RpcError A) : no_panic (decode_guard w r).
Proof. by destruct r. Qed.

Lemma read_next_turn_no_panic s : no_panic (read_next_turn s).
Proof.
  unfold read_next_turn. apply bind_no_panic; [apply read_message_no_panic|].
  intros [[[msg|]|] r] _; [|done..]. case_match; [|done..]. case_match; try done; (case_match; [done|]);
    (apply bind_no_panic; [first [apply validate_no_panic|case_match; [apply validate_no_panic|done]]|]);
    intros [] _; (apply bind_no_panic; [apply decode_guard_no_panic|done]).
Qed.

Lemma read_next_turn_size s t :
  read_next_turn s = Ok t →
  match t with
  | Again s' => (reader_size (sr_reader s') < reader_size (sr_reader s))%nat
  | Done (Some _) s' =>
      (reader_size (sr_reader s') < reader_size (sr_reader s))%nat ∧ finished s' = finished s
  | Done None s' => finished s' = true
  end.
Proof.
  unfold read_next_turn. intros E. apply bind_Ok in E as ((f & r) & E1 & E).
  destruct f as [f|]; [|by inv_res].
  apply read_message_inv in E1 as [Hs _]. destruct f as [msg|]; [|by inv_res].
  destruct (root_as_message _); [|done..]. destruct (header_type _); try done.
  - by inv_res.
  - case_match; [done|]. inv_res. simpl. done.
  - case_match; [done|]. inv_res. simpl. done.
Qed.

Lemma read_next_loop_total fuel s :
  (reader_size (sr_reader s) < fuel)%nat →
  ∃ r, read_next_loop fuel s = Some r ∧ no_panic r ∧
       match r with
       | Ok (Some _, s') => (reader_size (sr_reader s') < reader_size (sr_reader s))%nat
       | Ok (None, s') => finished s' = true
       | _ => True
       end.
Proof.
  revert s. induction fuel as [|fuel IH]; intros s Hf; [lia|]. cbn [read_next_loop].
  pose proof (read_next_turn_no_panic s) as Hnp. pose proof (read_next_turn_size s) as Hs.
  destruct (read_next_turn s) as [[s'|o s']|e|]; [| |by eexists|done].
  - specialize (Hs _ eq_refl). simpl in Hs. destruct (IH s') as (r & -> & Hr & Hm); [lia|].
    exists r. split_and!; [done..|]. destruct r as [[[x|] s2]|e|]; try done. lia.
  - specialize (Hs _ eq_refl). eexists. split_and!; [done..|]. by destruct o as [x|]; [destruct Hs|].
Qed.

Lemma read_next_returns s :
  ∃ r, read_next s = Some r ∧ no_panic r ∧
       match r with
       | Ok (Some _, s') => (reader_size (sr_reader s') < reader_size (sr_reader s))%nat
       | Ok (None, s') => finished s' = true
       | _ => True
       end.
Proof.
  unfold read_next. destruct (finished s) eqn:E; [by eexists|].
  apply read_next_loop_total. lia.
Qed.

Lemma drain_loop_returns fuel s :
  (reader_size (sr_reader s) < fuel)%nat →
  ∃ r, drain_loop fuel s = Some r ∧ no_panic r ∧ ∀ s', r = Ok s' → finished s' = true.
Proof.
  revert s. induction fuel as [|fuel IH]; intros s Hf; [lia|]. cbn [drain_loop].
  destruct (read_next_returns s) as (r & -> & Hr & Hm).
  destruct r as [[[x|] s']|e|]; [apply IH; lia| |by eexists|done].
  eexists. split_and!; [done..|]. by intros ? [= <-].
Qed.

Lemma finished_stays s : finished s = true → read_next s = Some (Ok (None, s)).
Proof. unfold read_next. by intros ->. Qed.

(** C27. [read_next] and [drain] always return, without a panic, for every
    reader, whatever its bytes and however it splits them: each pass of the loop
    consumes input. A returned batch has consumed input too, a returned [None]
    and a completed drain leave the reader finished, and a finished reader returns
    [None] for ever, reading nothing. *)
Theorem reader_total s :
  (∃ r, read_next s = Some r ∧ no_panic r ∧
        match r with
        | Ok (Some _, s') => (reader_size (sr_reader s') < reader_size (sr_reader s))%nat
        | Ok (None, s') => finished s' = true ∧ read_next s' = Some (Ok (None, s'))
        | _ => True
        end) ∧
  (∃ r, drain s = Some r ∧ no_panic r ∧ ∀ s', r = Ok s' → finished s' = true ∧ read_next s' = Some (Ok (None, s'))).
Proof.
  split.
  - destruct (read_next_returns s) as (r & E & Hn & Hm). exists r. split_and!; [done..|].
    destruct r as [[[x|] s']|e|]; auto using finished_stays.
  - assert (∃ r, drain s = Some r ∧ no_panic r ∧ ∀ s', r = Ok s' → finished s' = true) as (r & E & Hn & Hm)
      by (apply drain_loop_returns; lia).
    exists r. split_and!; [done..|]. intros s' Es. split; [|apply finished_stays]; by apply Hm.
Qed.

(** ** No call puts input back *)
Lemma read_exact_loop_size need got r o r' :
  read_exact_loop need got r = Ok (o, r') → (reader_size r' ≤ reader_size r)%nat.
Proof.
  revert need got. induction r as [|e r IH]; intros need got E; (destruct need as [|need]; [by injection E as _ <-|]).
  - cbn [read_exact_loop] in E. by destruct got; [injection E as _ <-|].
  - rewrite reader_size_cons. destruct e as [[|b l]| |e]; cbn [read_exact_loop] in E; [| |apply IH in E; lia|done].
    + destruct got; [injection E as _ <-|done]. lia.
    + case_match; [apply IH in E; simpl; lia|]. injection E as _ <-. rewrite reader_size_cons.
      rewrite length_drop. simpl. lia.
Qed.

Lemma read_message_size r max o r' :
  read_message_bytes r max = Ok (o, r') → (reader_size r' ≤ reader_size r)%nat.
Proof.
  intros E. destruct o as [f|]; [apply read_message_inv in E; lia|]. revert E. unfold read_message_bytes.
  intros E. apply bind_Ok in E as ((p & r1) & E1 & E). apply read_exact_loop_size in E1.
  destruct p as [p|]; [|by injection E as <-]. apply bind_Ok in E as ((sb & r2) & E2 & E).
  assert (reader_size r2 ≤ reader_size r1)%nat as H2.
  { destruct (decide _); [by apply read_exact_loop_size in E2|by injection E2 as _ <-]. }
  destruct sb as [sb|]; [by apply read_sized_not_none in E|]. injection E as <-. lia.
Qed.

Lemma read_next_loop_size fuel s o s' :
  read_next_loop fuel s = Some (Ok (o, s')) → (reader_size (sr_reader s') ≤ reader_size (sr_reader s))%nat.
Proof.
  revert s. induction fuel as [|fuel IH]; intros s E; [done|]. cbn [read_next_loop] in E.
  pose proof (read_next_turn_size s) as Hs. destruct (read_next_turn s) as [[s1|o1 s1]|e|] eqn:Et; try done.
  - specialize (Hs _ eq_refl). simpl in Hs. apply IH in E. lia.
  - injection E as <- <-. specialize (Hs _ eq_refl). simpl in Hs. destruct o1; [lia|].
    unfold read_next_turn in Et. apply bind_Ok in Et as ((f & r) & E1 & Et). apply read_message_size in E1.
    destruct f as [[msg|]|]; [|by injection Et as <-..].
    destruct (root_as_message _); [|done..]. destruct (header_type _); try done; (case_match; [done|]); by inv_res.
Qed.

Lemma read_next_size s o s' :
  read_next s = Some (Ok (o, s')) → (reader_size (sr_reader s') ≤ reader_size (sr_reader s))%nat.
Proof.
  unfold read_next. destruct (finished s); [by intros [= _ <-]|]. apply read_next_loop_size.
Qed.

Lemma read_next_progress s x s' :
  read_next s = Some (Ok (Some x, s')) → (reader_size (sr_reader s') < reader_size (sr_reader s))%nat.
Proof.
  unfold read_next. destruct (finished s); [done|]. generalize (S (reader_size (sr_reader s))). intros fuel.
  revert s. induction fuel as [|fuel IH]; intros s E; [done|]. cbn [read_next_loop] in E.
  pose proof (read_next_turn_size s) as Hs. destruct (read_next_turn s) as [[s1|o1 s1]|e|]; try done;
    specialize (Hs _ eq_refl); simpl in Hs.
  - apply IH in E. lia.
  - injection E as -> <-. lia.
Qed.

Lemma drain_loop_size fuel s s' :
  drain_loop fuel s = Some (Ok s') → (reader_size (sr_reader s') ≤ reader_size (sr_reader s))%nat.
Proof.
  revert s. induction fuel as [|fuel IH]; intros s E; [done|]. cbn [drain_loop] in E.
  destruct (read_next s) as [[[[x|] s1]|e|]|] eqn:En; try done; apply read_next_size in En.
  - apply IH in E. lia.
  - by injection E as <-.
Qed.

Lemma drain_returns s :
  ∃ r, drain s = Some r ∧ no_panic r ∧
       ∀ s', r = Ok s' → finished s' = true ∧ (reader_size (sr_reader s') ≤ reader_size (sr_reader s))%nat.
Proof.
  destruct (drain_loop_returns (S (S (reader_size (sr_reader s)))) s) as (r & E & Hn & Hf); [lia|].
  exists r. split_and!; [done..|]. intros s' ->. split; [by apply Hf|]. by eapply drain_loop_size.
Qed.

Lemma stream_reader_new_size r :
  no_panic (stream_reader_new r) ∧
  ∀ s, stream_reader_new r = Ok s → (reader_size (sr_reader s) < reader_size r)%nat.
Proof.
  unfold stream_reader_new. pose proof (read_message_no_panic r MAX_IPC_SCHEMA_BYTES) as Hn.
  pose proof (read_message_inv r MAX_IPC_SCHEMA_BYTES) as Hi.
  destruct (read_message_bytes r _) as [[[[msg|]|] r1]|e|]; cbn [mbind res_bind]; try done.
  destruct (Hi _ _ eq_refl) as [Hs _]. case_match; [done|]. destruct (root_as_message _) as [m| |]; [|done..].
  destruct (header_type m); try done. case_match; [done|]. case_match; [done|].
  destruct (fb_to_schema m); [|done..]. split; [done|]. by intros s [= <-].
Qed.

(** Whatever a peer sends, a message that [read_message_bytes] accepts has a
    header of at most [max_bytes] that parses, a body of exactly the declared
    length and at most [max_bytes], and the read has consumed input; the repair of
    non-UTF-8 metadata terminates, and no input makes the function panic. *)
Theorem read_message_bounds r max :
  no_panic (read_message_bytes r max) ∧
  ∀ f r', read_message_bytes r max = Ok (Some f, r') →
    (reader_size r' < reader_size r)%nat ∧
    match f with
    | Eos => True
    | Message m => ∃ msg, root_as_message (message_bytes m) = FbOk msg ∧
        0 < zlen (message_bytes m) ≤ max ∧ bodyLength msg = zlen (body m) ∧ zlen (body m) ≤ max
    end.
Proof. split; [apply read_message_no_panic|]. intros f r'. apply read_message_inv. Qed.

(** ** The request boundary *)

(** A sequence of frames the reader accepts from a dictionary state on. *)
Fixpoint frames_accepted (sch dec : ArrowSchema) (d : Dictionaries)
    (fs : list (list byte * list byte)) : Prop :=
  match fs with
  | [] => True
  | (m, b) :: fs =>
    ∃ msg, root_as_message m = FbOk msg ∧ bodyLength msg = zlen b ∧ header_present msg = true ∧
      0 < zlen m ≤ u32_max ∧ zlen b ≤ u32_max ∧
      match header_type msg with
      | HDictionaryBatch =>
          match dict_data msg with
          | Some data => validate_record_batch_buffers data (zlen b) = Ok tt
          | None => True
          end ∧ ∃ d', read_dictionary b msg sch d = Ok d' ∧ frames_accepted sch dec d' fs
      | HRecordBatch =>
          validate_record_batch_buffers (rb_buffers msg) (zlen b) = Ok tt ∧
          (∃ bt, read_record_batch b msg dec d = Ok bt) ∧ frames_accepted sch dec d fs
      | HNone => frames_accepted sch dec d fs
      | _ => False
      end
  end.

Definition wire_frames (fs : list (list byte * list byte)) : list byte :=
  concat ((fun mb => wire_frame mb.1 mb.2) <$> fs).

(** The reader stands before [fs], the end-of-stream marker and [rest]. *)
Definition at_frames (s : StreamReader) (fs : list (list byte * list byte)) (rest : list byte) : Prop :=
  clean (sr_reader s) ∧ finished s = false ∧
  content (sr_reader s) = wire_frames fs ++ wire_eos ++ rest ∧
  frames_accepted (sr_schema s) (default (sr_schema s) (relaxed_schema s)) (sr_dictionaries s) fs.

(** The reader stands after the stream: before [rest]. *)
Definition at_end (s : StreamReader) (rest : list byte) : Prop :=
  clean (sr_reader s) ∧ finished s = true ∧ saw_eos s = true ∧ content (sr_reader s) = rest.

Lemma read_next_turn_frames s mb fs rest :
  at_frames s (mb :: fs) rest →
  ∃ t, read_next_turn s = Ok t ∧
       match t with
       | Again s' => at_frames s' fs rest
       | Done (Some _) s' => at_frames s' fs rest
       | Done None _ => False
       end.
Proof.
  intros (Hc & Hf & Hd & Ha). destruct mb as [m b]. cbn [frames_accepted] in Ha.
  destruct Ha as (msg & Hm & Hb & Hh & Hml & Hbl & Ha).
  unfold wire_frames in Hd. cbn [fmap list_fmap concat fst snd] in Hd. rewrite <- app_assoc in Hd.
  destruct (read_message_frame _ _ _ _ MAX_IPC_MESSAGE_BYTES _ Hc Hd Hm Hb) as (r' & Er & Hc' & Hd').
  { unfold MAX_IPC_MESSAGE_BYTES. lia. } { done. }
  unfold read_next_turn. rewrite Er. cbn [mbind res_bind message_bytes body had_invalid_utf8].
  rewrite Hm, Hh. cbn [negb].
  destruct (header_type msg); try done.
  - eexists. split; [done|]. by split_and!.
  - destruct Ha as [Hv (d' & Hrd & Ha)].
    assert (match dict_data msg with Some data => validate_record_batch_buffers data (zlen b)
            | None => Ok tt end = Ok tt) as -> by (by destruct (dict_data msg)).
    cbn [mbind res_bind sr_schema with_reader sr_dictionaries]. rewrite Hrd. cbn [mbind res_bind decode_guard].
    eexists. split; [done|]. by split_and!.
  - destruct Ha as (Hv & (bt & Hrb) & Ha). rewrite Hv.
    cbn [mbind res_bind sr_schema with_reader sr_dictionaries relaxed_schema]. rewrite Hrb.
    cbn [mbind res_bind decode_guard]. eexists. split; [done|]. by split_and!.
Qed.

Lemma read_next_turn_eos s rest :
  at_frames s [] rest → ∃ s', read_next_turn s = Ok (Done None s') ∧ at_end s' rest.
Proof.
  intros (Hc & Hf & Hd & _). unfold wire_frames in Hd. simpl in Hd.
  destruct (read_message_eos _ _ MAX_IPC_MESSAGE_BYTES Hc Hd) as (r' & Er & Hc' & Hd').
  unfold read_next_turn. rewrite Er. cbn [mbind res_bind]. eexists. split; [done|].
  split_and!; [done..| |done]. simpl. by rewrite orb_true_r.
Qed.

Lemma read_next_loop_frames fuel s fs rest o s' :
  at_frames s fs rest → read_next_loop fuel s = Some (Ok (o, s')) →
  match o with Some _ => ∃ fs', at_frames s' fs' rest | None => at_end s' rest end.
Proof.
  revert s fs. induction fuel as [|fuel IH]; intros s fs Ha E; [done|].
  cbn [read_next_loop] in E. destruct fs as [|mb fs].
  - destruct (read_next_turn_eos _ _ Ha) as (s2 & Et & He). rewrite Et in E.
    by injection E as <- <-.
  - destruct (read_next_turn_frames _ _ _ _ Ha) as (t & Et & Ht). rewrite Et in E.
    destruct t as [s2|[x|] s2]; [by eapply IH| |done]. injection E as <- <-. eauto.
Qed.

Lemma read_next_loop_frames_ok fuel s fs rest :
  at_frames s fs rest → ∀ e, read_next_loop fuel s ≠ Some (Err e).
Proof.
  revert s fs. induction fuel as [|fuel IH]; intros s fs Ha e; [done|].
  cbn [read_next_loop]. destruct fs as [|mb fs].
  - by destruct (read_next_turn_eos _ _ Ha) as (s2 & -> & _).
  - destruct (read_next_turn_frames _ _ _ _ Ha) as (t & -> & Ht).
    destruct t as [s2|[x|] s2]; [by eapply IH|done..].
Qed.

(** On accepted frames a read returns a batch and stays in the stream, or ends it. *)
Lemma read_next_frames s fs rest :
  at_frames s fs rest ∨ at_end s rest →
  ∃ o s', read_next s = Some (Ok (o, s')) ∧
    match o with
    | Some _ => (reader_size (sr_reader s') < reader_size (sr_reader s))%nat ∧
                ∃ fs', at_frames s' fs' rest
    | None => at_end s' rest
    end.
Proof.
  intros [Ha|He].
  - destruct (read_next_returns s) as (r & E & Hn & Hm). pose proof Ha as (_ & Hf & _).
    assert (read_next_loop (S (reader_size (sr_reader s))) s = Some r) as El.
    { unfold read_next in E. by rewrite Hf in E. }
    destruct r as [[o s']|e|]; [|by apply (read_next_loop_frames_ok _ _ _ _ Ha) in El|done].
    exists o, s'. split; [done|]. pose proof (read_next_loop_frames _ _ _ _ _ _ Ha El).
    by destruct o.
  - exists None, s. split; [|done]. unfold read_next. by destruct He as (_ & -> & _).
Qed.

Lemma drain_loop_frames fuel s fs rest :
  (reader_size (sr_reader s) < fuel)%nat → at_frames s fs rest ∨ at_end s rest →
  ∃ s', drain_loop fuel s = Some (Ok s') ∧ at_end s' rest.
Proof.
  revert s fs. induction fuel as [|fuel IH]; intros s fs Hf Ha; [lia|]. cbn [drain_loop].
  destruct (read_next_frames _ _ _ Ha) as (o & s' & -> & Ho).
  destruct o as [x|]; [|eauto]. destruct Ho as [Hs [fs' Ha']]. apply (IH s' fs'); [lia|auto].
Qed.

(** [n] calls of [read_next], dropping what they return. *)
Fixpoint read_some (n : nat) (s : StreamReader) : option (res RpcError StreamReader) :=
  match n with
  | O => Some (Ok s)
  | S n => match read_next s with
           | Some (Ok (_, s)) => read_some n s
           | Some (Err e) => Some (Err e)
           | Some Panic => Some Panic
           | None => None
           end
  end.

(** C17. The request boundary: on a stream of accepted frames ended by its marker,
    however the transport splits the bytes, any number of [read_next] calls
    followed by [drain] succeeds, reports the marker and leaves the reader exactly
    at the first byte after the stream. *)
Theorem drain_request_boundary n s fs rest :
  at_frames s fs rest →
  ∃ s1 s2, read_some n s = Some (Ok s1) ∧ drain s1 = Some (Ok s2) ∧
           saw_eos s2 = true ∧ content (sr_reader s2) = rest.
Proof.
  intros Ha. assert (∃ fs, at_frames s fs rest ∨ at_end s rest) as [fs' Hs] by eauto.
  clear Ha fs. revert s fs' Hs. induction n as [|n IH]; intros s fs Hs.
  - destruct (drain_loop_frames (S (S (reader_size (sr_reader s)))) s fs rest) as (s' & Ed & He);
      [lia|done|]. exists s, s'. by destruct He as (_ & _ & ? & ?).
  - destruct (read_next_frames _ _ _ Hs) as (o & s' & E & Ho). cbn [read_some]. rewrite E.
    destruct o as [x|]; [destruct Ho as [_ [fs' Ho]]|].
    + apply (IH s' fs'). auto.
    + apply (IH s' []). auto.
Qed.

(** [validate_record_batch_buffers] accepts a header exactly when every
    descriptor is a range inside the body, whatever the (signed) offsets and
    lengths are, and never panics: no sum wraps past the check. *)
Theorem validate_buffers_spec l n :
  no_panic (validate_record_batch_buffers (Some l) n) ∧
  (n ≤ u64_max → validate_record_batch_buffers (Some l) n = Ok tt ↔
                 Forall (fun d => 0 ≤ d.1 ∧ 0 ≤ d.2 ∧ d.1 + d.2 ≤ n) l).
Proof. split; [apply validate_no_panic|]. apply validate_all. Qed.

Lemma read_exact_none r n :
  clean r → 0 < n → (∃ r', read_exact r n = Ok (None, r')) ↔ content r = [].
Proof.
  intros Hc Hn. destruct (decide (n ≤ zlen (content r))) as [Hle|Hgt].
  - destruct (read_exact_clean r n) as (r' & E & _); [done|lia|]. rewrite E. split.
    + by intros [? ?].
    + intros E'. rewrite E', zlen_nil in Hle. lia.
  - unfold read_exact. rewrite read_exact_loop_short by (done || unfold zlen in Hgt; lia).
    simpl. destruct (content r); [by split; eauto|]. split; [by intros [? ?]|done].
Qed.

(** On a reader that does not fail, [read_message_bytes] returns [Ok(None)],
    which stands for end of file at a message boundary, exactly when the
    connection closed at a boundary or right after a continuation marker: the
    second is the middle of a frame. *)
Theorem read_message_none r max :
  clean r →
  (∃ r', read_message_bytes r max = Ok (None, r')) ↔
  content r = [] ∨ content r = CONTINUATION_MARKER.
Proof.
  intros Hc. pose proof (read_exact_none r 4 Hc ltac:(lia)) as Hn. unfold read_message_bytes.
  destruct (decide (4 ≤ zlen (content r))) as [Hle|Hgt].
  2: { assert (content r ≠ CONTINUATION_MARKER) by (intros E; by rewrite E in Hgt).
       assert (content r = [] ↔ content r = [] ∨ content r = CONTINUATION_MARKER) as <- by tauto.
       rewrite <- Hn. destruct (read_exact r 4) as [[[p|] r']|e|] eqn:E; cbn [mbind res_bind].
       - apply read_exact_progress_clean in E; [lia|done].
       - split; eauto.
       - by split; intros [? ?].
       - by split; intros [? ?]. }
  destruct (read_exact_clean r 4) as (r1 & -> & Hc1 & Hd1); [done|lia|]. cbn [mbind res_bind].
  assert (content r ≠ []) by (intros E; by rewrite E in Hle).
  assert (content r = [] ∨ content r = CONTINUATION_MARKER ↔ content r = CONTINUATION_MARKER)
    as -> by tauto.
  pose proof (ztake_zdrop 4 (content r)) as Hsplit.
  case_decide as Hp.
  - assert (content r = CONTINUATION_MARKER ↔ content r1 = []) as ->.
    { rewrite <- Hsplit, Hp, <- Hd1. split; [|by intros ->].
      intros E. apply (app_inv_head CONTINUATION_MARKER). by rewrite E. }
    rewrite <- (read_exact_none r1 4 Hc1) by lia.
    destruct (read_exact r1 4) as [[[sb|] r2]|e|]; cbn [mbind res_bind]; [|by split; eauto|..].
    + split; [|by intros [? ?]]. intros [r' E]. by apply read_sized_not_none in E.
    + by split; intros [? ?].
    + by split; intros [? ?].
  - cbn [mbind res_bind]. split.
    + intros [r' E]. by apply read_sized_not_none in E.
    + intros E. by rewrite E in Hp.
Qed.
End Framing.
