(* ===== verification/IpcWriter.v ===== *)
(** * The Arrow IPC stream writer

    The writing half of [vgi-rpc/src/wire.rs]: [ChunkedWriter], which keeps every
    slice offered to a system call below a limit, [StreamWriter] with its repack
    of message metadata and its direct path for one large binary value, and
    [write_one_batch]. The flatbuffer builder and Arrow's encoder are third-party
    code: the class [ArrowIpcWriter]. *)

From S2P Require Import Prelude Bytes Errors Ipc.

Definition MAX_WRITE_CHUNK : Z := 2 ^ 30.
Definition IPC_ALIGNMENT : Z := 64.
Definition IPC_PADDING : list byte := replicate 64 x00.

(** ** Writers

    What a [Write] may do, call by call: accept up to some number of bytes, be
    interrupted, or fail; after the last event it accepts whatever is offered, so
    a [Vec] has no events. [room] bounds the bytes a cursor over a fixed slice
    takes in all. [offered] is the length of the slice of every call. *)
Inductive write_event :=
| Accept (n : Z)
| WInterrupted
| WError (e : RpcError).

Record sink := mkSink {
  sent : list byte;
  offered : list Z;
  script : list write_event;
  room : option Z;
  flush_result : res RpcError unit
}.

Definition write_zero : RpcError := RpcErr.new (bs "IOError") (bs "failed to write whole buffer").

(** The slice [ChunkedWriter::write] hands to the writer below. *)
Definition chunked_write (limit : Z) (buf : list byte) : list byte :=
  ztake (Z.min (zlen buf) limit) buf.

(** One [write] call of the writer below: what it answers, and the bytes it took. *)
Definition inner_write (part : list byte) (k : sink) : write_event * sink :=
  let off := offered k ++ [zlen part] in
  let left n := match room k with Some c => Z.min n (c - zlen (sent k)) | None => n end in
  let take n ev := let n := Z.max 0 (Z.min (left n) (zlen part)) in
                   (Accept n, mkSink (sent k ++ ztake n part) off ev (room k) (flush_result k)) in
  match script k with
  | [] => take (zlen part) []
  | Accept n :: ev => take n ev
  | e :: ev => (e, mkSink (sent k) off ev (room k) (flush_result k))
  end.

(** [Write::write_all] through a [ChunkedWriter]; running out of fuel would be
    the loop not terminating. *)
Fixpoint write_all_loop (fuel : nat) (limit : Z) (buf : list byte) (k : sink)
  : res RpcError unit * sink :=
  match buf with
  | [] => (Ok tt, k)
  | _ =>
    match fuel with
    | O => (Panic, k)
    | S fuel =>
      match inner_write (chunked_write limit buf) k with
      | (Accept n, k) => if n =? 0 then (Err write_zero, k)
                         else write_all_loop fuel limit (zdrop n buf) k
      | (WInterrupted, k) => write_all_loop fuel limit buf k
      | (WError e, k) => (Err e, k)
      end
    end
  end.

(** Each call takes a byte or uses up an event. *)
Definition write_all (limit : Z) (buf : list byte) (k : sink) : res RpcError unit * sink :=
  write_all_loop (length buf + length (script k)) limit buf k.

(** Consecutive [write_all(..)?] calls. *)
Fixpoint write_each (limit : Z) (bufs : list (list byte)) (k : sink) : res RpcError unit * sink :=
  match bufs with
  | [] => (Ok tt, k)
  | b :: bufs => match write_all limit b k with
                 | (Ok _, k) => write_each limit bufs k
                 | r => r
                 end
  end.

(** ** Messages *)
Definition padding_to_alignment (length alignment : Z) : Z :=
  (alignment - length mod alignment) mod alignment.

(** [EncodedData] of arrow-ipc. *)
Record EncodedData := mkEncodedData { ipc_message : list byte; arrow_data : list byte }.

Class ArrowIpcWriter `{ArrowIpc} := {
  DictionaryTracker : Type;
  tracker_new : DictionaryTracker;
  (** [schema_to_bytes_with_dictionary_tracker] *)
  schema_to_bytes : ArrowSchema → DictionaryTracker → EncodedData * DictionaryTracker;
  (** [IpcDataGenerator::encode]: new dictionaries, then the batch *)
  encode_batch : RecordBatch → DictionaryTracker →
           res RpcError (list EncodedData * EncodedData * DictionaryTracker);
  (** [FlatBufferBuilder]: the bytes of a finished message *)
  build_message : IpcMessage → list byte;
  (** the slices [write_message] writes for one message *)
  write_message : EncodedData → res RpcError (list (list byte));
  (** accessors of a batch *)
  num_rows : RecordBatch → Z;
  num_columns : RecordBatch → Z;
  field0_is_large_binary : RecordBatch → bool;
  (** [column(0)] downcast to [LargeBinaryArray]: its value at row 0, or null *)
  column0_large_binary : RecordBatch → option (option (list byte));
  batch_schema : RecordBatch → ArrowSchema
}.

Section Writer.
Context `{AW : ArrowIpcWriter}.

Definition repack_record_batch_message_with_metadata (msg_bytes : list byte) (metadata : Metadata)
  : res RpcError (list byte) :=
  match root_as_message msg_bytes with
  | FbOk msg =>
    match header_type msg with
    | HRecordBatch =>
      if negb (header_present msg) then Err (ipc_error (bs "missing RecordBatch header")) else
      src_nodes ← ok_or (ipc_error (bs "RecordBatch missing nodes")) (rb_nodes msg);
      src_buffers ← ok_or (ipc_error (bs "RecordBatch missing buffers")) (rb_buffers msg);
      Ok (build_message {|
        header_type := HRecordBatch; version := version msg; bodyLength := bodyLength msg;
        header_present := true; schema_fields_present := false; dict_data := None;
        rb_buffers := Some src_buffers; rb_nodes := Some src_nodes; rb_length := rb_length msg;
        rb_variadic := rb_variadic msg; rb_compressed := false;
        custom_metadata := Some ((fun kv => (Some kv.1, Some kv.2)) <$> map_to_list metadata) |})
    | _ => Err (ipc_error (bs "repack expected RecordBatch header, got "))
    end
  | _ => Err (ipc_error (bs "parsing message: "))
  end.

(** [metadata.filter(|m| !m.is_empty())] *)
Definition non_empty (metadata : option Metadata) : option Metadata :=
  match metadata with Some m => if decide (m = ∅) then None else Some m | None => None end.

(** The message header of the direct path. *)
Definition direct_message (value_len body_len : Z) (metadata : option Metadata) : IpcMessage := {|
  header_type := HRecordBatch; version := 4; bodyLength := body_len;
  header_present := true; schema_fields_present := false; dict_data := None;
  rb_buffers := Some [(0, 1); (IPC_ALIGNMENT, 16); (2 * IPC_ALIGNMENT, value_len)];
  rb_nodes := Some [(1, 0)]; rb_length := 1; rb_variadic := None; rb_compressed := false;
  custom_metadata := (fun m => (fun kv => (Some kv.1, Some kv.2)) <$> map_to_list m) <$> non_empty metadata |}.

(** The slices of the body of the direct path, in the order they are written. *)
Definition direct_body (value : list byte) : list (list byte) :=
  [ [xff]; ztake (IPC_ALIGNMENT - 1) IPC_PADDING;
    le_bytes 8 0; le_bytes 8 (zlen value); ztake (IPC_ALIGNMENT - 16) IPC_PADDING;
    value; ztake (padding_to_alignment (zlen value) IPC_ALIGNMENT) IPC_PADDING ].

(** The value, when the batch has the shape of the direct path. *)
Definition direct_value (batch : RecordBatch) : option (list byte) :=
  if negb (num_rows batch =? 1) || negb (num_columns batch =? 1)
     || negb (field0_is_large_binary batch) then None
  else match column0_large_binary batch with
       | Some (Some value) => Some value
       | _ => None
       end.

Definition write_single_large_binary_direct (batch : RecordBatch) (metadata : option Metadata)
    (limit : Z) (k : sink) : res RpcError bool * sink :=
  match direct_value batch with
  | None => (Ok false, k)
  | Some value =>
    if i64_max <? zlen value
    then (Err (RpcErr.value_error (bs "large_binary value exceeds i64 offsets")), k) else
    let value_padding := padding_to_alignment (zlen value) IPC_ALIGNMENT in
    match (p ← checked_add (2 * IPC_ALIGNMENT) (zlen value); checked_add p value_padding) with
    | None => (Err (RpcErr.value_error (bs "large_binary IPC body length overflow")), k)
    | Some body_len =>
      if i64_max <? body_len
      then (Err (RpcErr.value_error (bs "large_binary IPC body exceeds i64 length")), k) else
      match write_message (mkEncodedData (build_message (direct_message (zlen value) body_len metadata)) []) with
      | Ok parts =>
        let '(r, k) := write_each limit (parts ++ direct_body value) k in
        (_ ← r; Ok true, k)
      | Err e => (Err e, k)
      | Panic => (Panic, k)
      end
    end
  end.

(** ** [StreamWriter] *)
Record StreamWriter := mkStreamWriter {
  sw_writer : sink;
  sw_schema : ArrowSchema;
  dict_tracker : DictionaryTracker;
  sw_finished : bool
}.

Definition with_sink (w : StreamWriter) (k : sink) : StreamWriter :=
  mkStreamWriter k (sw_schema w) (dict_tracker w) (sw_finished w).

(** [write_message(&mut self.writer, e, ..)?] *)
Definition put_message (e : EncodedData) (k : sink) : res RpcError unit * sink :=
  match write_message e with
  | Ok parts => write_each MAX_WRITE_CHUNK parts k
  | Err e => (Err e, k)
  | Panic => (Panic, k)
  end.

Fixpoint put_messages (es : list EncodedData) (k : sink) : res RpcError unit * sink :=
  match es with
  | [] => (Ok tt, k)
  | e :: es => match put_message e k with (Ok _, k) => put_messages es k | r => r end
  end.

Definition stream_writer_new (k : sink) (schema : ArrowSchema) : res RpcError StreamWriter * sink :=
  let '(encoded, tracker) := schema_to_bytes schema tracker_new in
  let '(r, k) := put_message encoded k in
  (_ ← r; Ok (mkStreamWriter k schema tracker false), k).

Definition stream_writer_write (w : StreamWriter) (batch : RecordBatch) (metadata : option Metadata)
  : res RpcError unit * StreamWriter :=
  if sw_finished w then (Err (RpcErr.new (bs "IOError") (bs "writer already finished")), w) else
  match write_single_large_binary_direct batch metadata MAX_WRITE_CHUNK (sw_writer w) with
  | (Ok true, k) => (Ok tt, with_sink w k)
  | (Ok false, k) =>
    match encode_batch batch (dict_tracker w) with
    | Ok (dicts, data, tracker) =>
      let w := mkStreamWriter k (sw_schema w) tracker (sw_finished w) in
      match put_messages dicts k with
      | (Ok _, k) =>
        let encoded :=
          match non_empty metadata with
          | Some md => m ← repack_record_batch_message_with_metadata (ipc_message data) md;
                       Ok (mkEncodedData m (arrow_data data))
          | None => Ok data
          end in
        match encoded with
        | Ok e => let '(r, k) := put_message e k in (r, with_sink w k)
        | Err e => (Err e, with_sink w k)
        | Panic => (Panic, with_sink w k)
        end
      | (r, k) => (r, with_sink w k)
      end
    | Err e => (Err e, with_sink w k)
    | Panic => (Panic, with_sink w k)
    end
  | (Err e, k) => (Err e, with_sink w k)
  | (Panic, k) => (Panic, with_sink w k)
  end.

(** [finish], also what [Drop] runs. *)
Definition stream_writer_finish (w : StreamWriter) : res RpcError unit * StreamWriter :=
  if sw_finished w then (Ok tt, w) else
  let '(r, k) := write_each MAX_WRITE_CHUNK [CONTINUATION_MARKER; [x00; x00; x00; x00]] (sw_writer w) in
  match (_ ← r; flush_result k) with
  | Ok _ => (Ok tt, mkStreamWriter k (sw_schema w) (dict_tracker w) true)
  | r => (r, with_sink w k)
  end.

Definition stream_writer_drop (w : StreamWriter) : StreamWriter := (stream_writer_finish w).2.

Definition write_one_batch_as (k : sink) (batch : RecordBatch) (schema : ArrowSchema)
    (metadata : option Metadata) : res RpcError (list byte) :=
  w ← (stream_writer_new k schema).1;
  let '(r, w) := stream_writer_write w batch metadata in
  _ ← r;
  let '(r, w) := stream_writer_finish w in
  _ ← r;
  Ok (sent (sw_writer (stream_writer_drop w))).

Definition write_one_batch (k : sink) (batch : RecordBatch) (metadata : option Metadata)
  : res RpcError (list byte) :=
  write_one_batch_as k batch (batch_schema batch) metadata.
End Writer.
