(* ===== verification/Arrow.v ===== *)
(** * Schemas, arrays and record batches

    What the source calls of the [arrow] crates besides their IPC codec, as the
    class [ArrowArrays], and the two builders of record batches written over it:
    [empty_batch] of [vgi-rpc/src/wire.rs] and [cast_batch] of [server.rs]. *)

From S2P Require Import Prelude Bytes Errors Ipc IpcWriter.

Class ArrowArrays `{ArrowIpcWriter} := {
  Field : Type;
  DataType : Type;
  Array : Type;
  Field_eq_dec :: EqDecision Field;
  DataType_eq_dec :: EqDecision DataType;
  ArrowSchema_eq_dec :: EqDecision ArrowSchema;
  empty_schema : ArrowSchema;
  schema_fields : ArrowSchema → list Field;
  field_name : Field → list byte;
  field_data_type : Field → DataType;
  (** [matches!(t, DataType::Dictionary(..))] *)
  is_dictionary : DataType → bool;
  columns : RecordBatch → list Array;
  data_type : Array → DataType;
  new_empty_array : DataType → Array;
  (** [cast_with_options] with the default options *)
  cast_with_options : Array → DataType → option Array;
  (** [RecordBatch::try_new], and with an explicit row count *)
  try_new : ArrowSchema → list Array → res RpcError RecordBatch;
  try_new_with_row_count : ArrowSchema → list Array → Z → res RpcError RecordBatch;
  (** [get_array_memory_size] *)
  batch_memory_size : RecordBatch → Z;
  array_memory_size : Array → Z
}.

Section Batches.
Context `{ArrowArrays}.

Definition empty_batch (schema : ArrowSchema) : res RpcError RecordBatch :=
  try_new_with_row_count schema ((fun f => new_empty_array (field_data_type f)) <$> schema_fields schema) 0.

Definition schema_has_dictionary (schema : ArrowSchema) : bool :=
  existsb (fun f => is_dictionary (field_data_type f)) (schema_fields schema).

Definition cast_mismatch : RpcError := RpcErr.type_error (bs "Input schema mismatch: expected ").

(** One column: kept where it has the target's type already. *)
Definition cast_column (src : Array) (field : Field) : res RpcError Array :=
  if decide (data_type src = field_data_type field) then Ok src
  else ok_or (RpcErr.type_error (bs "cast field ")) (cast_with_options src (field_data_type field)).

Definition cast_batch (batch : RecordBatch) (target : ArrowSchema) : res RpcError RecordBatch :=
  let fields := schema_fields target in
  if negb (num_columns batch =? zlen fields) then Err cast_mismatch else
  let names := field_name <$> schema_fields (batch_schema batch) in
  if negb (bool_decide (names = (field_name <$> fields))) then Err cast_mismatch else
  cols ← mapM (fun sf => cast_column sf.1 sf.2) (zip (columns batch) fields);
  try_new target cols.
End Batches.

(** What the documentation of [arrow] says of them. *)
Class ArrowArraysLaws `{ArrowArrays} := {
  schema_fields_empty : schema_fields empty_schema = [];
  try_new_spec : ∀ s cols b, try_new s cols = Ok b → batch_schema b = s ∧ columns b = cols;
  try_new_row_count_spec : ∀ s cols n b, try_new_with_row_count s cols n = Ok b →
    batch_schema b = s ∧ num_rows b = n;
  new_empty_batch : ∀ s, is_ok (empty_batch s) = true;
  try_new_no_panic : ∀ s cols, no_panic (try_new s cols);
  cast_type : ∀ a t a', cast_with_options a t = Some a' → data_type a' = t;
  memory_size_nonneg : ∀ b, 0 ≤ batch_memory_size b;
  schema_width : ∀ b, num_columns b = zlen (schema_fields (batch_schema b)) ∧
    length (columns b) = length (schema_fields (batch_schema b))
}.

Lemma empty_batch_spec `{ArrowArraysLaws} s b : empty_batch s = Ok b → batch_schema b = s ∧ num_rows b = 0.
Proof. apply try_new_row_count_spec. Qed.
