(* ===== verification/IpcWriterProps.v ===== *)
(** * Properties of the IPC stream writer

    What reaches the transport under short writes, the layout of the direct
    path, and the round trip: a stream the writer completed is read back by the
    reader, batch and metadata, up to its end. *)

From S2P Require Import Prelude Bytes Errors Ipc IpcProps IpcWriter.

(** ** Chunked writes *)
Definition offers_within (limit : Z) (k k' : sink) : Prop :=
  ∃ o, offered k' = offered k ++ o ∧ Forall (fun n => 0 < n ≤ limit) o.

Lemma offers_within_refl limit k : offers_within limit k k.
Proof. exists []. by rewrite app_nil_r. Qed.

Lemma offers_within_trans limit k1 k2 k3 :
  offers_within limit k1 k2 → offers_within limit k2 k3 → offers_within limit k1 k3.
Proof.
  intros (o1 & E1 & F1) (o2 & E2 & F2). exists (o1 ++ o2).
  rewrite E2, E1, app_assoc. split; [done|]. by apply Forall_app.
Qed.

(** What one [write_all] leaves behind: a prefix sent, all of it on success. *)
Definition wrote (limit : Z) (buf : list byte) (k : sink) (r : res RpcError unit * sink) : Prop :=
  no_panic r.1 ∧ offers_within limit k r.2 ∧ room r.2 = room k ∧
  ∃ p q, sent r.2 = sent k ++ p ∧ buf = p ++ q ∧ (r.1 = Ok tt ↔ q = []).

Lemma chunked_write_len limit b buf :
  0 < limit → 0 < zlen (chunked_write limit (b :: buf)) ≤ limit ∧
  chunked_write limit (b :: buf) `prefix_of` (b :: buf).
Proof.
  intros. pose proof (zlen_nonneg buf). unfold chunked_write.
  rewrite zlen_ztake by zlen_solve. split; [zlen_solve|].
  eexists. symmetry. apply ztake_zdrop.
Qed.

Lemma ztake_prefix {A} n (p l : list A) :
  p `prefix_of` l → n ≤ zlen p → ztake n p = ztake n l.
Proof.
  intros [q ->] Hn. unfold ztake, zlen in *. rewrite take_app_le; [done|]. lia.
Qed.

(** One call of the writer below: the slice is logged, and a count of accepted
    bytes is what was sent. *)
Lemma inner_write_spec part k e k' :
  inner_write part k = (e, k') →
  offered k' = offered k ++ [zlen part] ∧ room k' = room k ∧
  match e with
  | Accept n => 0 ≤ n ≤ zlen part ∧ sent k' = sent k ++ ztake n part ∧
                (length (script k') ≤ length (script k))%nat
  | _ => sent k' = sent k ∧ (length (script k') < length (script k))%nat
  end.
Proof.
  unfold inner_write. pose proof (zlen_nonneg part).
  destruct (script k) as [|[n| |e'] ev]; intros [= <- <-]; simpl; split_and!; try done; lia.
Qed.

Lemma write_all_loop_spec limit fuel : 0 < limit → ∀ buf k,
  (length buf + length (script k) ≤ fuel)%nat →
  wrote limit buf k (write_all_loop fuel limit buf k).
Proof.
  intros Hl. induction fuel as [|fuel IH]; intros buf k Hf;
    (destruct buf as [|b buf]; cbn [write_all_loop];
     [split_and!; [done|apply offers_within_refl|done|]; exists [], []; by rewrite app_nil_r|]).
  { simpl in Hf. lia. }
  destruct (chunked_write_len limit b buf Hl) as [Hn Hp].
  set (part := chunked_write limit (b :: buf)) in *.
  destruct (inner_write part k) as [e k1] eqn:Ei.
  apply inner_write_spec in Ei as (Ho & Hr & He).
  assert (offers_within limit k k1) as Hof.
  { exists [zlen part]. split; [done|]. by constructor. }
  destruct e as [n| |e].
  - destruct He as (Hn0 & Es & Hs). destruct (Z.eqb_spec n 0) as [->|Hne].
    { split_and!; [done..|]. exists [], (b :: buf). cbn [fst snd]. by rewrite Es. }
    assert (zlen part ≤ zlen (b :: buf)) as Hpl.
    { destruct Hp as [q ->]. rewrite zlen_app. pose proof (zlen_nonneg q). lia. }
    destruct (IH (zdrop n (b :: buf)) k1) as (Hnp & Hof' & Hr' & p & q & Es' & Eb & Hq).
    { unfold zdrop, zlen in *. rewrite length_drop. lia. }
    split_and!; [done|by eapply offers_within_trans|congruence|].
    exists (ztake n (b :: buf) ++ p), q.
    split_and!; [|by rewrite <- app_assoc, <- Eb, ztake_zdrop|done].
    rewrite Es', Es, <- app_assoc. by rewrite (ztake_prefix n part (b :: buf)) by (done || lia).
  - destruct He as [Es Hs]. destruct (IH (b :: buf) k1) as (Hnp & Hof' & Hr' & Hq); [simpl in *; lia|].
    rewrite Es in Hq. split_and!; [done|by eapply offers_within_trans|congruence|done].
  - destruct He as [Es Hs]. split_and!; [done..|]. exists [], (b :: buf). cbn [fst snd].
    by rewrite Es, app_nil_r.
Qed.

Lemma write_all_spec limit buf k : 0 < limit → wrote limit buf k (write_all limit buf k).
Proof. intros. by apply write_all_loop_spec. Qed.

Lemma write_each_spec limit bufs k :
  0 < limit → wrote limit (concat bufs) k (write_each limit bufs k).
Proof.
  intros Hl. revert k. induction bufs as [|b bufs IH]; intros k.
  - simpl. split_and!; [done|apply offers_within_refl|done|]. exists [], []. by rewrite app_nil_r.
  - cbn [write_each concat]. pose proof (write_all_spec limit b k Hl) as Hw.
    destruct (write_all limit b k) as [r k'] eqn:E.
    destruct Hw as (Hnp & Hof & Hfl & p & q & Es & Eb & Hq). simpl in *.
    destruct r as [[]|e|]; [|split_and!; try done; exists p, (q ++ concat bufs); simpl|done].
    + destruct Hq as [Hq _]. rewrite Hq, app_nil_r in Eb by done. subst p.
      destruct (IH k') as (Hnp' & Hof' & Hfl' & p' & q' & Es' & Eb' & Hq').
      split_and!; [done|by eapply offers_within_trans|congruence|].
      exists (b ++ p'), q'. rewrite Es', Es, <- !app_assoc. by rewrite <- Eb'.
    + rewrite Es, Eb, <- app_assoc. split_and!; [done..|]. split; [done|].
      intros [-> _]%app_eq_nil. by destruct Hq as [_ Hq]; specialize (Hq eq_refl).
Qed.

Lemma write_each_ok limit bufs k k' :
  0 < limit → write_each limit bufs k = (Ok tt, k') → sent k' = sent k ++ concat bufs.
Proof.
  intros Hl E. destruct (write_each_spec limit bufs k Hl) as (_ & _ & _ & p & q & Es & Eb & Hq).
  rewrite E in *. simpl in *. destruct Hq as [Hq _].
  by rewrite Hq, app_nil_r in Eb by done; subst.
Qed.

(** [write_all] through the chunked writer, over any transport that accepts
    short counts, is interrupted or fails: it returns; every slice it offers is
    non-empty and at most the limit; what was sent is a prefix of the buffer, and
    the whole buffer exactly when it reports success. *)
Theorem write_all_chunked limit buf k :
  0 < limit →
  no_panic (write_all limit buf k).1 ∧
  (∃ o, offered (write_all limit buf k).2 = offered k ++ o ∧ Forall (fun n => 0 < n ≤ limit) o) ∧
  ∃ p q, sent (write_all limit buf k).2 = sent k ++ p ∧ buf = p ++ q ∧
         ((write_all limit buf k).1 = Ok tt ↔ q = []).
Proof. intros Hl. destruct (write_all_spec limit buf k Hl) as (? & ? & _ & ?). done. Qed.

(** ** The direct path *)
Definition direct_len (value : list byte) : Z :=
  2 * IPC_ALIGNMENT + zlen value + padding_to_alignment (zlen value) IPC_ALIGNMENT.

Lemma padding_range n : 0 ≤ padding_to_alignment n IPC_ALIGNMENT < 64.
Proof. unfold padding_to_alignment. apply Z.mod_pos_bound. by vm_compute. Qed.

Lemma zlen_padding n : 0 ≤ n ≤ 64 → zlen (ztake n IPC_PADDING) = n.
Proof. intros. by apply zlen_ztake. Qed.

Lemma direct_body_split value :
  ∃ z1 z2 z3, zlen z1 = 63 ∧ zlen z2 = 48 ∧
    zlen z3 = padding_to_alignment (zlen value) IPC_ALIGNMENT ∧
    concat (direct_body value) =
      [xff] ++ z1 ++ (le_bytes 8 0 ++ le_bytes 8 (zlen value)) ++ z2 ++ value ++ z3.
Proof.
  pose proof (padding_range (zlen value)).
  do 3 eexists. split_and!; [by apply (zlen_padding 63)|by apply (zlen_padding 48)| |].
  - apply zlen_padding. lia.
  - unfold direct_body. cbn [concat]. by rewrite app_nil_r, <- app_assoc.
Qed.

Lemma direct_body_slices value :
  zlen (concat (direct_body value)) = direct_len value ∧
  direct_len value mod 64 = 0 ∧
  slice (concat (direct_body value)) 0 1 = Some [xff] ∧
  slice (concat (direct_body value)) 64 80 = Some (le_bytes 8 0 ++ le_bytes 8 (zlen value)) ∧
  slice (concat (direct_body value)) 128 (128 + zlen value) = Some value.
Proof.
  destruct (direct_body_split value) as (z1 & z2 & z3 & H1 & H2 & H3 & E). unfold direct_len.
  pose proof (zlen_le_bytes 8 0) as L0. pose proof (zlen_le_bytes 8 (zlen value)) as L1.
  rewrite E. split_and!.
  - rewrite !zlen_app, L0, L1, H1, H2, H3, zlen_cons, zlen_nil. unfold IPC_ALIGNMENT. lia.
  - unfold padding_to_alignment, IPC_ALIGNMENT. clear.
    rewrite <- Z.add_mod_idemp_l, <- (Z.add_mod_idemp_l (2 * 64)) by done.
    change (2 * 64 mod 64) with 0. rewrite Z.add_mod_idemp_r, Z.add_mod_idemp_l by done.
    replace (0 + zlen value + (64 - zlen value mod 64)) with
      (64 * (zlen value / 64 + 1)) by (pose proof (Z.div_mod (zlen value) 64); lia).
    rewrite Z.mul_comm. by apply Z.mod_mul.
  - by apply (slice_app [] [xff]).
  - rewrite (app_assoc [xff]). apply slice_app; rewrite !zlen_app, zlen_cons, zlen_nil, ?L0, ?L1; lia.
  - rewrite (app_assoc [xff]), (app_assoc ([xff] ++ z1)), (app_assoc (_ ++ _ ++ _) z2).
    apply slice_app; rewrite !zlen_app, zlen_cons, zlen_nil, ?L0, ?L1; lia.
Qed.

(** ** The contract of the Arrow encoder *)
Definition pair_ok (kv : option (list byte) * option (list byte)) : Prop :=
  utf8_valid (default [] kv.1) = true ∧ utf8_valid (default [] kv.2) = true.

(** What a flatbuffer can hold: [i64] numbers, UTF-8 strings. *)
Definition message_wf (m : IpcMessage) : Prop :=
  in_i64 (bodyLength m) ∧ in_i64 (rb_length m) ∧
  Forall (fun d => in_i64 d.1 ∧ in_i64 d.2) (default [] (rb_buffers m)) ∧
  Forall (fun d => in_i64 d.1 ∧ in_i64 d.2) (default [] (rb_nodes m)) ∧
  Forall pair_ok (default [] (custom_metadata m)).

(** The part of a message a record batch decoder looks at. *)
Definition batch_header (m : IpcMessage) :=
  (version m, rb_buffers m, rb_nodes m, rb_length m, rb_variadic m, rb_compressed m).

(** Decoding a run of dictionary messages. *)
Fixpoint dictionaries_decode `{ArrowIpc} (sch : ArrowSchema) (d : Dictionaries)
    (es : list EncodedData) (d' : Dictionaries) : Prop :=
  match es with
  | [] => d' = d
  | e :: es =>
    ∃ msg d1, root_as_message (ipc_message e) = FbOk msg ∧ header_type msg = HDictionaryBatch ∧
      header_present msg = true ∧ bodyLength msg = zlen (arrow_data e) ∧
      match dict_data msg with
      | Some data => validate_record_batch_buffers data (zlen (arrow_data e)) = Ok tt
      | None => True
      end ∧
      read_dictionary (arrow_data e) msg sch d = Ok d1 ∧ dictionaries_decode sch d1 es d'
  end.

Class ArrowIpcWriterLaws `{AW : ArrowIpcWriter} := {
  (** the batch's arrays have the layout the schema declares *)
  fits : ArrowSchema → RecordBatch → Prop;
  (** which the constructors of a batch check of its own schema *)
  fits_own : ∀ b, fits (batch_schema b) b;
  parse_wf : ∀ b m, root_as_message b = FbOk m → message_wf m;
  build_parse : ∀ m, message_wf m → root_as_message (build_message m) = FbOk m;
  (** the encapsulated message format, header padded with zeros *)
  write_message_frame : ∀ e parts, write_message e = Ok parts →
    ∃ m, concat parts = wire_frame m (arrow_data e) ∧
         root_as_message m = root_as_message (ipc_message e) ∧
         0 < zlen m ≤ u32_max ∧ zlen m ≤ zlen (ipc_message e) + 64;
  schema_encode_decode : ∀ s, ∃ m,
    root_as_message (ipc_message (schema_to_bytes s tracker_new).1) = FbOk m ∧
    arrow_data (schema_to_bytes s tracker_new).1 = [] ∧
    header_type m = HSchema ∧ header_present m = true ∧ schema_fields_present m = true ∧
    bodyLength m = 0 ∧ fb_to_schema m = Ok s;
  (** the dictionaries a reader holds when a writer's tracker is in some state *)
  tracks : ArrowSchema → DictionaryTracker → Dictionaries → Prop;
  tracks_new : ∀ s, tracks s (schema_to_bytes s tracker_new).2 no_dictionaries;
  batch_encode_decode : ∀ s b t d0 ds e t', fits s b → tracks s t d0 →
    encode_batch b t = Ok (ds, e, t') →
    ∃ d m, dictionaries_decode s d0 ds d ∧ tracks s t' d ∧
      root_as_message (ipc_message e) = FbOk m ∧ header_type m = HRecordBatch ∧
      header_present m = true ∧ bodyLength m = zlen (arrow_data e) ∧ rb_compressed m = false ∧
      is_Some (rb_nodes m) ∧ is_Some (rb_buffers m) ∧ custom_metadata m = None ∧
      validate_record_batch_buffers (rb_buffers m) (zlen (arrow_data e)) = Ok tt ∧
      read_record_batch (arrow_data e) m s d = Ok b;
  decode_header : ∀ body m1 m2 s d, batch_header m1 = batch_header m2 →
    read_record_batch body m1 s d = read_record_batch body m2 s d;
  (** the columnar layout of one non-null large binary value *)
  large_binary_layout : ∀ s b v body m d o, fits s b → direct_value b = Some v →
    rb_nodes m = Some [(1, 0)] → rb_length m = 1 → rb_compressed m = false →
    rb_variadic m = None → version m = 4 →
    rb_buffers m = Some [(o, 1); (o + 64, 16); (o + 128, zlen v)] →
    slice body o (o + 1) = Some [xff] →
    slice body (o + 64) (o + 80) = Some (le_bytes 8 0 ++ le_bytes 8 (zlen v)) →
    slice body (o + 128) (o + 128 + zlen v) = Some v →
    read_record_batch body m s d = Ok b
}.

(** ** Metadata through a message *)
Lemma foldl_insert_list_to_map (l : list (list byte * list byte)) (m0 : Metadata) :
  NoDup l.*1 → (∀ k, k ∈ l.*1 → m0 !! k = None) →
  foldl (fun out kv => <[kv.1 := kv.2]> out) m0 l = list_to_map l ∪ m0.
Proof.
  revert m0. induction l as [|[k v] l IH]; intros m0 Hn Hm; simpl.
  - by rewrite (left_id_L ∅ (∪)).
  - simpl in Hn. apply list.NoDup_cons in Hn as [Hk Hn]. rewrite IH.
    + rewrite <- insert_union_r by (by apply not_elem_of_list_to_map_1).
      by rewrite insert_union_l.
    + done.
    + intros k' Hk'. rewrite lookup_insert_ne by (by intros ->). apply Hm. by right.
Qed.

Lemma parse_custom_metadata_of (m : IpcMessage) (md : Metadata) :
  custom_metadata m = Some ((fun kv => (Some kv.1, Some kv.2)) <$> map_to_list md) →
  parse_custom_metadata m = md.
Proof.
  intros E. unfold parse_custom_metadata. rewrite E.
  assert (∀ l (m0 : Metadata),
    foldl (fun (out : Metadata) (kv : option (list byte) * option (list byte)) =>
             <[default [] kv.1 := default [] kv.2]> out) m0
          ((fun kv => (Some kv.1, Some kv.2)) <$> l) =
    foldl (fun out kv => <[kv.1 := kv.2]> out) m0 l) as ->.
  { intros l. induction l as [|kv l IH]; intros m0; [done|]. apply IH. }
  rewrite foldl_insert_list_to_map.
  - by rewrite (right_id_L ∅ (∪)), list_to_map_to_list.
  - apply NoDup_fst_map_to_list.
  - intros. apply lookup_empty.
Qed.

Definition metadata_utf8 (md : Metadata) : Prop :=
  map_Forall (fun k v => utf8_valid k = true ∧ utf8_valid v = true) md.

Lemma pairs_ok_map_to_list md :
  metadata_utf8 md → Forall pair_ok ((fun kv => (Some kv.1, Some kv.2)) <$> map_to_list md).
Proof.
  intros Hm. apply Forall_fmap, list.Forall_forall. intros [k v] Hkv%elem_of_map_to_list.
  unfold pair_ok; simpl. by apply Hm.
Qed.

Section RoundTrip.
Context `{ArrowIpcWriter} {LR : ArrowIpcLaws} {LW : ArrowIpcWriterLaws}.

(** A frame that carries the message of an encoded datum. *)
Definition frame_of (e : EncodedData) (mb : list byte * list byte) : Prop :=
  mb.2 = arrow_data e ∧ root_as_message mb.1 = root_as_message (ipc_message e) ∧
  0 < zlen mb.1 ≤ u32_max ∧ zlen mb.1 ≤ zlen (ipc_message e) + 64.

Lemma put_message_ok e k k' :
  put_message e k = (Ok tt, k') →
  ∃ mb, sent k' = sent k ++ wire_frame mb.1 mb.2 ∧ frame_of e mb.
Proof.
  unfold put_message. intros E. destruct (write_message e) as [parts|?|] eqn:Ew; [|done..].
  apply write_message_frame in Ew as (m & Em & Hr & Hl & Hl').
  apply write_each_ok in E; [|by vm_compute]. exists (m, arrow_data e). cbn [fst snd]. by rewrite <- Em.
Qed.

Lemma put_messages_ok es k k' :
  put_messages es k = (Ok tt, k') →
  ∃ fs, sent k' = sent k ++ wire_frames fs ∧ Forall2 frame_of es fs.
Proof.
  revert k. induction es as [|e es IH]; intros k E; cbn [put_messages] in E.
  - injection E as <-. exists []. by rewrite app_nil_r.
  - destruct (put_message e k) as [[[]|?|] k1] eqn:E1; [|done..].
    apply put_message_ok in E1 as (mb & Es & Hf). apply IH in E as (fs & Es' & Hfs).
    exists (mb :: fs). rewrite Es', Es, <- app_assoc. split; [done|]. by constructor.
Qed.

(** A frame the reader turns into [batch] with [md] from dictionaries [d]. *)
Definition batch_frame (s : ArrowSchema) (d : Dictionaries) (batch : RecordBatch) (md : Metadata)
    (mb : list byte * list byte) : Prop :=
  ∃ msg, root_as_message mb.1 = FbOk msg ∧ header_type msg = HRecordBatch ∧
    header_present msg = true ∧ bodyLength msg = zlen mb.2 ∧ 0 < zlen mb.1 ≤ u32_max ∧
    validate_record_batch_buffers (rb_buffers msg) (zlen mb.2) = Ok tt ∧
    read_record_batch mb.2 msg s d = Ok batch ∧ parse_custom_metadata msg = md.

(** The frames of one written batch, for a reader that holds dictionaries [d0] and
    then [d]. *)
Definition batch_frames (s : ArrowSchema) (d0 d : Dictionaries) (batch : RecordBatch) (md : Metadata)
    (fs : list (list byte * list byte)) (mb : list byte * list byte) : Prop :=
  ∃ ds, (ds = [] ∨ ∃ t e t', encode_batch batch t = Ok (ds, e, t')) ∧
        Forall2 frame_of ds fs ∧ dictionaries_decode s d0 ds d ∧
        batch_frame s d batch md mb.

Definition opt_utf8 (md : option Metadata) : Prop :=
  match md with Some m => metadata_utf8 m | None => True end.

Lemma non_empty_default md m : non_empty md = Some m → md = Some m ∧ m ≠ ∅.
Proof. destruct md as [m'|]; simpl; [case_decide|]; naive_solver. Qed.

Lemma non_empty_None (md : option Metadata) : non_empty md = None → default ∅ md = ∅.
Proof. destruct md as [m'|]; simpl; [case_decide|]; naive_solver. Qed.

Lemma repack_ok data d s batch m msg md :
  root_as_message (ipc_message data) = FbOk msg → header_type msg = HRecordBatch →
  rb_compressed msg = false → metadata_utf8 md →
  read_record_batch (arrow_data data) msg s d = Ok batch →
  repack_record_batch_message_with_metadata (ipc_message data) md = Ok m →
  ∃ msg', root_as_message m = FbOk msg' ∧ header_type msg' = HRecordBatch ∧
    header_present msg' = true ∧ bodyLength msg' = bodyLength msg ∧
    rb_buffers msg' = rb_buffers msg ∧
    read_record_batch (arrow_data data) msg' s d = Ok batch ∧ parse_custom_metadata msg' = md.
Proof.
  intros Hm Ht Hcp Hmd Hd E. unfold repack_record_batch_message_with_metadata in E.
  rewrite Hm, Ht in E. case_match; [done|].
  apply bind_Ok in E as (nodes & Hn & E). apply bind_Ok in E as (bufs & Hb & E).
  apply ok_or_Ok in Hn, Hb. injection E as <-.
  destruct (parse_wf _ _ Hm) as (W1 & W2 & W3 & W4 & _).
  rewrite build_parse; [eexists; split_and!; [done..| | | ]|].
  - by rewrite Hb.
  - rewrite <- Hd. apply decode_header. unfold batch_header; simpl. congruence.
  - by apply parse_custom_metadata_of.
  - unfold message_wf; simpl. rewrite Hb in W3. rewrite Hn in W4. split_and!; try done.
    by apply pairs_ok_map_to_list.
Qed.

Lemma direct_write_ok s batch md k k' d :
  fits s batch → opt_utf8 md →
  write_single_large_binary_direct batch md MAX_WRITE_CHUNK k = (Ok true, k') →
  ∃ mb, sent k' = sent k ++ wire_frame mb.1 mb.2 ∧ batch_frame s d batch (default ∅ md) mb.
Proof.
  intros Hfit Hmd E. unfold write_single_large_binary_direct in E.
  destruct (direct_value batch) as [v|] eqn:Ev; [|done].
  destruct (Z.ltb_spec i64_max (zlen v)); [done|].
  destruct (p ← _; _) as [body_len|] eqn:Eb; [|done].
  destruct (Z.ltb_spec i64_max body_len); [done|].
  assert (body_len = direct_len v) as ->.
  { destruct (checked_add (2 * IPC_ALIGNMENT) (zlen v)) as [p|] eqn:Ep; [|done].
    apply checked_add_Some in Ep as [-> _]. simpl in Eb. by apply checked_add_Some in Eb as [-> _]. }
  set (msg := direct_message (zlen v) (direct_len v) md) in *.
  destruct (write_message _) as [parts|?|] eqn:Ew; [|done..].
  apply write_message_frame in Ew as (m & Em & Hr & Hl & _).
  destruct (write_each _ _ k) as [[[]|?|] k1] eqn:E1; [|done..]. injection E as <-.
  apply write_each_ok in E1; [|by vm_compute]. rewrite concat_app, Em in E1.
  destruct (direct_body_slices v) as (Hbl & Hbm & S1 & S2 & S3).
  pose proof (zlen_nonneg v). pose proof (padding_range (zlen v)).
  exists (m, concat (direct_body v)). split.
  { rewrite E1. cbn [arrow_data fst snd]. unfold wire_frame. by rewrite app_nil_r, <- !app_assoc. }
  set (b := concat (direct_body v)) in *. clearbody b. clear E1 Em.
  exists msg. cbn [fst snd ipc_message] in *. rewrite Hr, build_parse.
  2: { unfold message_wf, msg, direct_len in *; simpl. unfold IPC_ALIGNMENT in *. ints.
       split_and!; try lia.
       - repeat (apply list.Forall_cons; split; [simpl; lia|]). constructor.
       - repeat (apply list.Forall_cons; split; [simpl; lia|]). constructor.
       - destruct (non_empty md) as [m'|] eqn:En; simpl; [|constructor].
         apply non_empty_default in En as [-> _]. by apply pairs_ok_map_to_list. }
  split_and!; try done; try lia.
  - rewrite Hbl. unfold IPC_ALIGNMENT, direct_len in *. apply validate_all.
    { ints. lia. } unfold desc_ok, IPC_ALIGNMENT in *. repeat (apply list.Forall_cons; split; [simpl; lia|]). constructor.
  - eapply (large_binary_layout _ _ v _ _ _ 0); try done.
  - destruct (non_empty md) as [m'|] eqn:En.
    + pose proof (non_empty_default _ _ En) as [-> _]. apply parse_custom_metadata_of.
      unfold msg, direct_message; cbn [custom_metadata]. by rewrite En.
    + unfold parse_custom_metadata, msg, direct_message; cbn [custom_metadata].
      by rewrite En, non_empty_None.
Qed.

Lemma direct_write_false batch md limit k k' :
  write_single_large_binary_direct batch md limit k = (Ok false, k') → k' = k.
Proof.
  unfold write_single_large_binary_direct. intros E.
  destruct (direct_value batch) as [v|]; [|congruence].
  case_match; [done|]. destruct (checked_add _ _ ≫= _) as [n|]; [|done]. case_match; [done|].
  destruct (write_message _) as [parts|e|]; [|done..].
  destruct (write_each limit (parts ++ direct_body v) k) as [[]]; simpl in E; congruence.
Qed.

Lemma stream_write_ok s d0 batch md w w' :
  fits s batch → opt_utf8 md →
  tracks s (dict_tracker w) d0 → sw_finished w = false →
  stream_writer_write w batch md = (Ok tt, w') →
  sw_finished w' = false ∧
  ∃ fs mb d, sent (sw_writer w') = sent (sw_writer w) ++ wire_frames (fs ++ [mb]) ∧
           batch_frames s d0 d batch (default ∅ md) fs mb ∧ tracks s (dict_tracker w') d.
Proof.
  intros Hfit Hmd Ht Hf E. unfold stream_writer_write in E. rewrite Hf in E.
  destruct (write_single_large_binary_direct _ _ _ _) as [[[]|?|] k] eqn:Ed; [| |done..].
  - injection E as <-. split; [done|].
    eapply (direct_write_ok _ _ _ _ _ d0) in Ed as (mb & Es & Hb); [|done..].
    exists [], mb, d0. unfold wire_frames. cbn. rewrite app_nil_r. split_and!; [done| |done].
    exists []. split_and!; [by left|constructor|done..].
  - assert (k = sw_writer w) as ->.
    { by eapply direct_write_false. }
    destruct (encode_batch _ _) as [[[ds data] tr]|?|] eqn:Ee; [|done..].
    destruct (batch_encode_decode _ _ _ _ _ _ _ Hfit Ht Ee)
      as (d & msg & Hds & Htr & Hm & Hty & Hpr & Hbl & Hcp & _ & _ & Hcm & Hv & Hd).
    destruct (put_messages ds _) as [[[]|?|] k1] eqn:E1; [|done..].
    apply put_messages_ok in E1 as (fs & Es1 & Hfs).
    destruct (match non_empty md with Some _ => _ | None => _ end) as [e|?|] eqn:En; [|done..].
    destruct (put_message e k1) as [r k2] eqn:E2. injection E as -> <-.
    apply put_message_ok in E2 as (mb & Es2 & Hb1 & Hb2 & Hb3 & _).
    split; [done|]. exists fs, mb, d. simpl. split_and!; [|clear Es2|done].
    { rewrite Es2, Es1, <- app_assoc. unfold wire_frames. rewrite fmap_app, concat_app. cbn.
      by rewrite app_nil_r. }
    exists ds. split_and!; [right; by eauto|done..|]. unfold batch_frame. rewrite Hb1, Hb2.
    destruct (non_empty md) as [m'|] eqn:Em.
    + apply bind_Ok in En as (m2 & Hr & [= <-]). cbn [ipc_message arrow_data] in *.
      pose proof (non_empty_default _ _ Em) as [-> _].
      destruct (repack_ok _ _ _ _ _ _ _ Hm Hty Hcp Hmd Hd Hr)
        as (msg' & Hm' & Hty' & Hpr' & Hbl' & Hbf & Hd' & Hmd').
      exists msg'. rewrite Hbf, Hbl'. split_and!; try done; lia.
    + injection En as <-. exists msg. split_and!; try done; try lia.
      unfold parse_custom_metadata. rewrite Hcm. by rewrite non_empty_None.
Qed.

(** ** Reading it back *)
Definition same_stream (s s' : StreamReader) : Prop :=
  sr_schema s' = sr_schema s ∧ finished s' = finished s ∧ relaxed_schema s' = relaxed_schema s.

Lemma read_turn_frame s mb tail msg :
  clean (sr_reader s) → content (sr_reader s) = wire_frame mb.1 mb.2 ++ tail →
  root_as_message mb.1 = FbOk msg → bodyLength msg = zlen mb.2 →
  0 < zlen mb.1 ≤ u32_max → zlen mb.2 ≤ u32_max →
  ∃ r, read_message_bytes (sr_reader s) MAX_IPC_MESSAGE_BYTES =
         Ok (Some (Message (mkRawMessage mb.1 mb.2 false)), r) ∧ clean r ∧ content r = tail.
Proof.
  intros Hc Hd Hm Hb Hl Hbl. by eapply read_message_frame.
Qed.

(** The loop of [read_next] consumes the dictionaries in front of a batch. *)
Lemma read_next_dictionaries ds fs d' tail : ∀ fuel s,
  Forall2 frame_of ds fs → Forall (fun mb => zlen mb.2 ≤ u32_max) fs →
  dictionaries_decode (sr_schema s) (sr_dictionaries s) ds d' →
  clean (sr_reader s) → content (sr_reader s) = wire_frames fs ++ tail →
  (reader_size (sr_reader s) < fuel)%nat →
  ∃ fuel' s', read_next_loop fuel s = read_next_loop fuel' s' ∧ same_stream s s' ∧
    sr_dictionaries s' = d' ∧ clean (sr_reader s') ∧ content (sr_reader s') = tail ∧
    (reader_size (sr_reader s') < fuel')%nat.
Proof.
  intros fuel s Hfs. revert fuel s. induction Hfs as [|e mb ds fs Hmb Hfs IH];
    intros fuel s Hbl Hdd Hc Hd Hf.
  - simpl in Hdd. exists fuel, s. by split_and!.
  - apply list.Forall_cons in Hbl as [Hbl Hbls].
    destruct Hdd as (msg & d1 & Hm & Hty & Hpr & Hlen & Hv & Hrd & Hdd).
    destruct Hmb as (Hb1 & Hb2 & Hb3 & _).
    unfold wire_frames in Hd. cbn [fmap list_fmap concat] in Hd. rewrite <- app_assoc in Hd.
    rewrite <- Hb2 in Hm. rewrite <- Hb1 in Hlen, Hv, Hrd.
    destruct (read_turn_frame s mb _ msg Hc Hd Hm Hlen Hb3 Hbl) as (r & Er & Hcr & Hdr).
    assert (read_next_turn s = Ok (Again (with_dictionaries (with_reader s r) d1))) as Et.
    { unfold read_next_turn. rewrite Er. cbn [mbind res_bind message_bytes body].
      rewrite Hm, Hty, Hpr. cbn [negb].
      replace (match dict_data msg with Some data => validate_record_batch_buffers data (zlen mb.2)
               | None => Ok tt end) with (@Ok RpcError () tt) by (by destruct (dict_data msg)).
      cbn [mbind res_bind sr_schema with_reader sr_dictionaries]. by rewrite Hrd. }
    destruct fuel as [|fuel]; [lia|]. cbn [read_next_loop]. rewrite Et.
    apply read_next_turn_size in Et. simpl in Et.
    destruct (IH fuel (with_dictionaries (with_reader s r) d1)) as (fu & s' & El & Hss & Hrest);
      [done..|simpl; lia|]. exists fu, s'. by rewrite El.
Qed.

Lemma wire_frames_app fs gs : wire_frames (fs ++ gs) = wire_frames fs ++ wire_frames gs.
Proof. unfold wire_frames. by rewrite fmap_app, concat_app. Qed.

Lemma wire_frames_one mb : wire_frames [mb] = wire_frame mb.1 mb.2.
Proof. unfold wire_frames. cbn. by rewrite app_nil_r. Qed.

Lemma wire_frames_body_le fs : Forall (fun mb => zlen mb.2 ≤ zlen (wire_frames fs)) fs.
Proof.
  induction fs as [|mb fs IH]; constructor.
  - unfold wire_frames, wire_frame. cbn [fmap list_fmap concat]. rewrite !zlen_app.
    pose proof (zlen_nonneg CONTINUATION_MARKER). pose proof (zlen_nonneg (le_bytes 4 (zlen mb.1))).
    pose proof (zlen_nonneg mb.1). fold (wire_frames fs). unfold wire_frames.
    match goal with |- context [zlen (concat ?l)] => pose proof (zlen_nonneg (concat l)) end. lia.
  - eapply list.Forall_impl; [exact IH|]. intros mb' Hle. change (mb :: fs) with ([mb] ++ fs).
    rewrite wire_frames_app, zlen_app. pose proof (zlen_nonneg (wire_frames [mb])). simpl in *. lia.
Qed.

Lemma read_next_batch s d0 d batch md fs mb tail :
  batch_frames (sr_schema s) d0 d batch md fs mb →
  clean (sr_reader s) → content (sr_reader s) = wire_frames (fs ++ [mb]) ++ tail →
  zlen (wire_frames (fs ++ [mb])) ≤ u32_max →
  finished s = false → relaxed_schema s = None → sr_dictionaries s = d0 →
  ∃ s', read_next s = Some (Ok (Some (batch, md), s')) ∧
        clean (sr_reader s') ∧ content (sr_reader s') = tail ∧ same_stream s s' ∧ sr_dictionaries s' = d.
Proof.
  intros (ds & _ & Hfs & Hdd & msg & Hm & Hty & Hpr & Hlen & Hml & Hv & Hrb & Hmd) Hc Hd Hbl Hf Hrs Hdi.
  pose proof (wire_frames_body_le (fs ++ [mb])) as Hbs.
  eapply (list.Forall_impl _ (fun mb => zlen mb.2 ≤ u32_max)) in Hbs; [|intros; simpl in *; lia].
  apply Forall_app in Hbs as [Hbs Hb]. apply list.Forall_cons in Hb as [Hb _].
  rewrite wire_frames_app, <- app_assoc, wire_frames_one in Hd. rewrite <- Hdi in Hdd.
  destruct (read_next_dictionaries _ _ _ _ (S (reader_size (sr_reader s))) s Hfs Hbs Hdd Hc Hd)
    as (fuel & s1 & El & (Hsch & Hfin & Hrel) & Hdi1 & Hc1 & Hd1 & Hf1); [lia|].
  unfold read_next. rewrite Hf, El. destruct fuel as [|fuel]; [lia|]. cbn [read_next_loop].
  destruct (read_turn_frame s1 mb _ msg Hc1 Hd1 Hm Hlen Hml Hb) as (r & Er & Hcr & Hdr).
  unfold read_next_turn. rewrite Er. cbn [mbind res_bind message_bytes body had_invalid_utf8].
  rewrite Hm, Hty, Hpr, Hv. cbn [negb mbind res_bind sr_schema with_reader sr_dictionaries relaxed_schema].
  rewrite Hrel, Hrs, Hsch, Hdi1. cbn [default from_option]. unfold id. rewrite Hrb, Hmd.
  cbn [mbind res_bind decode_guard]. eexists. split; [done|]. by split_and!.
Qed.

Lemma stream_reader_new_ok r s mb tail :
  frame_of (schema_to_bytes s tracker_new).1 mb →
  zlen (ipc_message (schema_to_bytes s tracker_new).1) + 64 ≤ MAX_IPC_SCHEMA_BYTES →
  clean r → content r = wire_frame mb.1 mb.2 ++ tail →
  ∃ r', stream_reader_new r = Ok (mkStreamReader r' s no_dictionaries false false None) ∧
        clean r' ∧ content r' = tail.
Proof.
  intros (Hb1 & Hb2 & Hb3 & Hb4) Hmax Hc Hd.
  destruct (schema_encode_decode s) as (msg & Hm & Ha & Hty & Hpr & Hsf & Hbl & Hs).
  rewrite <- Hb2 in Hm. rewrite Ha in Hb1.
  destruct (read_message_frame r mb.1 mb.2 tail MAX_IPC_SCHEMA_BYTES msg) as (r' & Er & Hcr & Hdr);
    try done.
  { by rewrite Hb1, zlen_nil. } { lia. } { rewrite Hb1. by vm_compute. }
  exists r'. unfold stream_reader_new. rewrite Er.
  cbn [mbind res_bind message_bytes body had_invalid_utf8].
  rewrite Hm, Hty, Hpr, Hsf. cbn [negb]. rewrite Hs. done.
Qed.

Lemma stream_writer_new_ok k s w :
  (stream_writer_new k s).1 = Ok w →
  tracks s (dict_tracker w) no_dictionaries ∧ sw_finished w = false ∧
  ∃ mb, sent (sw_writer w) = sent k ++ wire_frame mb.1 mb.2 ∧
        frame_of (schema_to_bytes s tracker_new).1 mb.
Proof.
  unfold stream_writer_new. pose proof (tracks_new s) as Ht. destruct (schema_to_bytes s tracker_new) as [e tr].
  destruct (put_message e k) as [[[]|?|] k'] eqn:E; [|done..]. intros [= <-].
  apply put_message_ok in E. done.
Qed.

Lemma stream_writer_finish_ok w w' :
  sw_finished w = false → stream_writer_finish w = (Ok tt, w') →
  sent (sw_writer w') = sent (sw_writer w) ++ wire_eos ∧ stream_writer_drop w' = w'.
Proof.
  intros Hf E. unfold stream_writer_finish in E. rewrite Hf in E.
  destruct (write_each _ _ _) as [[[]|?|] k] eqn:Ew; [|done..].
  apply write_each_ok in Ew; [|by vm_compute]. cbn [mbind res_bind] in E.
  destruct (flush_result k) as [[]|?|]; [|done..]. injection E as <-. done.
Qed.

(** The bytes of a completed one-batch stream. *)
Lemma write_one_batch_bytes k batch s md bytes :
  sent k = [] → fits s batch → opt_utf8 md → write_one_batch_as k batch s md = Ok bytes →
  ∃ mb0 fs mb d, bytes = wire_frame mb0.1 mb0.2 ++ wire_frames (fs ++ [mb]) ++ wire_eos ∧
    frame_of (schema_to_bytes s tracker_new).1 mb0 ∧ batch_frames s no_dictionaries d batch (default ∅ md) fs mb.
Proof.
  intros Hk Hfit Hmd E. unfold write_one_batch_as in E. apply bind_Ok in E as (w & Ew & E).
  apply stream_writer_new_ok in Ew as (Ht & Hf & mb0 & Es0 & Hmb0).
  destruct (stream_writer_write w batch md) as [r1 w1] eqn:E1. apply bind_Ok in E as ([] & -> & E).
  eapply stream_write_ok in E1 as (Hf1 & fs & mb & d & Es1 & Hfr & _); try done.
  destruct (stream_writer_finish w1) as [r2 w2] eqn:E2. apply bind_Ok in E as ([] & -> & E).
  apply stream_writer_finish_ok in E2 as [Es2 Hd]; [|done]. injection E as <-.
  exists mb0, fs, mb, d. split; [|done]. rewrite Hd, Es2, Es1, Es0, Hk, <- !app_assoc. done.
Qed.

(** C18. A stream that [write_one_batch_as] completed, dictionaries, metadata and
    the direct large-binary path included, is read back by [StreamReader] however
    the transport cuts it: the declared schema, the batch with its metadata, then
    the end-of-stream marker with the reader at the first byte after it. *)
Theorem write_read_roundtrip k batch schema md bytes r rest :
  sent k = [] → fits schema batch → opt_utf8 md →
  zlen (ipc_message (schema_to_bytes schema tracker_new).1) + 64 ≤ MAX_IPC_SCHEMA_BYTES →
  write_one_batch_as k batch schema md = Ok bytes → zlen bytes ≤ u32_max →
  clean r → content r = bytes ++ rest →
  ∃ s s1 s2, stream_reader_new r = Ok s ∧ sr_schema s = schema ∧
    read_next s = Some (Ok (Some (batch, default ∅ md), s1)) ∧
    read_next s1 = Some (Ok (None, s2)) ∧ saw_eos s2 = true ∧ content (sr_reader s2) = rest.
Proof.
  intros Hk Hfit Hmd Hsz E Hlen Hc Hd.
  destruct (write_one_batch_bytes _ _ _ _ _ Hk Hfit Hmd E) as (mb0 & fs & mb & d & -> & Hf0 & Hfr).
  rewrite <- !app_assoc in Hd.
  destruct (stream_reader_new_ok _ _ _ _ Hf0 Hsz Hc Hd) as (r0 & E0 & Hc0 & Hd0).
  rewrite E0. destruct (read_next_batch (mkStreamReader r0 schema no_dictionaries false false None)
    no_dictionaries d batch (default ∅ md) fs mb (wire_eos ++ rest)) as (s1 & E1 & Hc1 & Hd1 & (_ & Hf1 & _) & _);
    try done.
  { rewrite !zlen_app in Hlen. pose proof (zlen_nonneg (wire_frame mb0.1 mb0.2)).
    pose proof (zlen_nonneg wire_eos). lia. }
  destruct (read_next_turn_eos s1 rest) as (s2 & E2 & (_ & _ & He & Hd2)); [by split_and!|].
  eexists _, s1, s2. split_and!; [done|done|done| |done..].
  unfold read_next. rewrite Hf1. cbn [read_next_loop]. by rewrite E2.
Qed.
End RoundTrip.
