(* ===== verification/IpcStream.v ===== *)
(** * Streams of several batches

    What a sequence of [StreamWriter] calls leaves on the transport, as the list
    of its items, and what a [StreamReader] makes of it. Responses, requests and
    the two directions of a lockstep stream are all such streams. *)

From S2P Require Import Prelude Bytes Errors Ipc IpcProps IpcWriter IpcWriterProps.

Section Streams.
Context `{LW : ArrowIpcWriterLaws}.

(** A batch with its custom metadata. *)
Abbreviation item := (RecordBatch * Metadata)%type.

(** Items as they are framed, one chunk each, for a reader holding dictionaries. *)
Inductive framed (s : ArrowSchema) : Dictionaries → list item → list (list byte) → Dictionaries → Prop :=
| framed_nil d : framed s d [] [] d
| framed_cons d d1 d2 b md fs mb items chunks :
    batch_frames s d d1 b md fs mb → framed s d1 items chunks d2 →
    framed s d ((b, md) :: items) (wire_frames (fs ++ [mb]) :: chunks) d2.

Lemma framed_snoc s d d1 d2 items chunks b md fs mb :
  framed s d items chunks d1 → batch_frames s d1 d2 b md fs mb →
  framed s d (items ++ [(b, md)]) (chunks ++ [wire_frames (fs ++ [mb])]) d2.
Proof. induction 1; intros; simpl; econstructor; eauto using framed_nil. Qed.

(** The schema message and the chunks of a stream that is still open, and of one
    that is closed by its marker. *)
Definition open_stream (s : ArrowSchema) (items : list item) (chunks : list (list byte)) (l : list byte) : Prop :=
  ∃ mb d, frame_of (schema_to_bytes s tracker_new).1 mb ∧ framed s no_dictionaries items chunks d ∧
          l = wire_frame mb.1 mb.2 ++ concat chunks.

Definition wire_stream (s : ArrowSchema) (items : list item) (l : list byte) : Prop :=
  ∃ chunks l0, open_stream s items chunks l0 ∧ l = l0 ++ wire_eos.

(** Metadata that came through a message is text. *)
Lemma parse_metadata_utf8 m : message_wf m → metadata_utf8 (parse_custom_metadata m).
Proof.
  intros Hm. unfold parse_custom_metadata. destruct (custom_metadata m) as [kvs|] eqn:E; [|apply map_Forall_empty].
  assert (Forall pair_ok kvs) as Hk by (unfold message_wf in Hm; rewrite E in Hm; naive_solver). clear E Hm.
  assert (∀ m0, metadata_utf8 m0 → metadata_utf8 (foldl (fun out kv => <[default [] kv.1 := default [] kv.2]> out) m0 kvs)) as H0.
  { induction Hk as [|kv kvs [H1 H2] Hk IH]; intros m0 Hm0; [done|]. simpl. apply IH.
    apply map_Forall_insert_2; [|done]. by destruct kv as [[] []]. }
  apply H0, map_Forall_empty.
Qed.

Lemma framed_utf8 s d items chunks d' : framed s d items chunks d' → Forall (fun i => metadata_utf8 i.2) items.
Proof.
  induction 1 as [|d d1 d2 b md fs mb items chunks Hb _ IH]; constructor; [|done].
  destruct Hb as (_ & _ & _ & _ & msg & Hm & _ & _ & _ & _ & _ & _ & <-). simpl. by eapply parse_metadata_utf8, parse_wf.
Qed.

Lemma wire_stream_utf8 s items l : wire_stream s items l → Forall (fun i => metadata_utf8 i.2) items.
Proof. intros (chunks & l0 & (mb & d & _ & Hfr & _) & _). by eapply framed_utf8. Qed.

(** ** Writing *)

(** [w] has written [items] under schema [s] after [base]. *)
Definition writing (base : list byte) (s : ArrowSchema) (items : list item) (w : StreamWriter) : Prop :=
  sw_finished w = false ∧ ∃ mb d chunks,
    frame_of (schema_to_bytes s tracker_new).1 mb ∧ framed s no_dictionaries items chunks d ∧
    tracks s (dict_tracker w) d ∧ sent (sw_writer w) = base ++ wire_frame mb.1 mb.2 ++ concat chunks.

Lemma writing_new k s w : (stream_writer_new k s).1 = Ok w → writing (sent k) s [] w.
Proof.
  intros (Ht & Hf & mb & Hs & Hmb)%stream_writer_new_ok. split; [done|].
  exists mb, no_dictionaries, []. split_and!; [done|constructor|done|]. by rewrite Hs, app_nil_r.
Qed.

Lemma writing_write base s items w b md w' :
  writing base s items w → fits s b → opt_utf8 md → stream_writer_write w b md = (Ok tt, w') →
  writing base s (items ++ [(b, default ∅ md)]) w'.
Proof.
  intros (Hf & mb & d & chunks & Hmb & Hfr & Ht & Hs) Hfit Hmd E.
  destruct (stream_write_ok _ _ _ _ _ _ Hfit Hmd Ht Hf E) as (Hf' & fs & mb' & d' & Hs' & Hb & Ht').
  split; [done|]. exists mb, d', (chunks ++ [wire_frames (fs ++ [mb'])]).
  split_and!; [done|eapply framed_snoc; eassumption|done|].
  rewrite Hs', Hs, concat_app. cbn [concat]. rewrite app_nil_r, <- !app_assoc. done.
Qed.

Lemma writing_finish base s items w w' :
  writing base s items w → stream_writer_finish w = (Ok tt, w') →
  stream_writer_drop w' = w' ∧ ∃ l, wire_stream s items l ∧ sent (sw_writer w') = base ++ l.
Proof.
  intros (Hf & mb & d & chunks & Hmb & Hfr & Ht & Hs) E.
  destruct (stream_writer_finish_ok _ _ Hf E) as [Hs' Hd]. split; [done|].
  exists ((wire_frame mb.1 mb.2 ++ concat chunks) ++ wire_eos). split.
  - exists chunks, (wire_frame mb.1 mb.2 ++ concat chunks). split; [|done]. by exists mb, d.
  - by rewrite Hs', Hs, <- !app_assoc.
Qed.

(** ** Reading *)

(** The reader stands before [items], the end of the stream and [rest]. *)
Definition at_items (r : StreamReader) (items : list item) (rest : list byte) : Prop :=
  finished r = false ∧ relaxed_schema r = None ∧ clean (sr_reader r) ∧
  ∃ chunks d, framed (sr_schema r) (sr_dictionaries r) items chunks d ∧
    Forall (fun c => zlen c ≤ u32_max) chunks ∧ content (sr_reader r) = concat chunks ++ wire_eos ++ rest.

(** A schema message a reader accepts. *)
Definition schema_readable (s : ArrowSchema) : Prop :=
  zlen (ipc_message (schema_to_bytes s tracker_new).1) + 64 ≤ MAX_IPC_SCHEMA_BYTES.

Lemma concat_chunk_le (chunks : list (list byte)) n :
  zlen (concat chunks) ≤ n → Forall (fun c => zlen c ≤ n) chunks.
Proof.
  induction chunks as [|c chunks IH]; intros Hn; constructor; simpl in Hn; rewrite zlen_app in Hn;
    pose proof (zlen_nonneg c); pose proof (zlen_nonneg (concat chunks)); [lia|apply IH; lia].
Qed.

Lemma wire_stream_open s items l r rest :
  wire_stream s items l → schema_readable s → zlen l ≤ u32_max → clean r → content r = l ++ rest →
  ∃ sr, stream_reader_new r = Ok sr ∧ sr_schema sr = s ∧ at_items sr items rest.
Proof.
  intros (chunks & l0 & (mb & d & Hmb & Hfr & ->) & ->) Hs Hl Hc Hd. rewrite <- !app_assoc in Hd.
  destruct (stream_reader_new_ok _ _ _ _ Hmb Hs Hc Hd) as (r' & -> & Hc' & Hd').
  eexists. split; [done|]. split; [done|]. split_and!; [done..|]. exists chunks, d. split_and!; [done| |done].
  apply concat_chunk_le. rewrite !zlen_app in Hl. pose proof (zlen_nonneg (wire_frame mb.1 mb.2)).
  pose proof (zlen_nonneg wire_eos). lia.
Qed.

Lemma at_items_next r b md items rest :
  at_items r ((b, md) :: items) rest →
  ∃ r', read_next r = Some (Ok (Some (b, md), r')) ∧ sr_schema r' = sr_schema r ∧ at_items r' items rest.
Proof.
  intros (Hf & Hr & Hc & chunks & d & Hfr & Hsm & Hd). inversion Hfr; subst.
  apply list.Forall_cons in Hsm as [Hs1 Hsm]. simpl in Hd. rewrite <- app_assoc in Hd.
  destruct (read_next_batch r _ _ _ _ _ _ _ ltac:(eassumption) Hc Hd Hs1 Hf Hr eq_refl)
    as (r' & E & Hc' & Hd' & (Hss & Hfin & Hrel) & Hdi).
  exists r'. split; [done|]. split; [done|]. split_and!; [congruence..|done|].
  eexists _, d. split_and!; [|done|done]. by rewrite Hss, Hdi.
Qed.

Lemma at_items_end r rest :
  at_items r [] rest → ∃ r', read_next r = Some (Ok (None, r')) ∧ at_end r' rest.
Proof.
  intros (Hf & Hr & Hc & chunks & d & Hfr & _ & Hd). inversion Hfr; subst. simpl in Hd.
  destruct (read_next_turn_eos r rest) as (r' & E & He); [by split_and!|]. exists r'. split; [|done].
  unfold read_next. rewrite Hf. cbn [read_next_loop]. by rewrite E.
Qed.

Lemma framed_length s d items chunks d' : framed s d items chunks d' → (length items ≤ length (concat chunks))%nat.
Proof.
  induction 1 as [|d d1 d2 b md fs mb items chunks _ _ IH]; simpl; [lia|].
  rewrite wire_frames_app, wire_frames_one, !length_app. unfold wire_frame, CONTINUATION_MARKER. simpl. lia.
Qed.

Lemma length_content r : (length (content r) ≤ reader_size r)%nat.
Proof.
  induction r as [|e r IH]; [done|]. rewrite reader_size_cons. cbn [content foldr]. fold (content r).
  destruct e; rewrite ?length_app; lia.
Qed.

(** [drain] from anywhere in the stream. *)
Lemma drain_items r items rest :
  at_items r items rest → ∃ r', drain r = Some (Ok r') ∧ at_end r' rest.
Proof.
  intros Ha. unfold drain.
  assert (∀ fuel, (length items < fuel)%nat → ∃ r', drain_loop fuel r = Some (Ok r') ∧ at_end r' rest) as Hdr.
  { revert r Ha. induction items as [|[b md] items IH]; intros r Ha fuel Hf; (destruct fuel as [|fuel]; [simpl in Hf; lia|]);
      cbn [drain_loop].
    - destruct (at_items_end _ _ Ha) as (r' & -> & He). eauto.
    - destruct (at_items_next _ _ _ _ _ Ha) as (r' & -> & _ & Ha'). apply IH; [done|]. simpl in Hf. lia. }
  apply Hdr. destruct Ha as (_ & _ & _ & chunks & d & Hfr & _ & Hd). apply framed_length in Hfr.
  apply (f_equal length) in Hd. rewrite length_app in Hd. pose proof (length_content (sr_reader r)). lia.
Qed.

Lemma at_end_drain r rest : at_end r rest → drain r = Some (Ok r).
Proof.
  intros (_ & Hf & _). unfold drain. cbn [drain_loop]. unfold read_next. by rewrite Hf.
Qed.
End Streams.
