(* ===== verification/Crypto.v ===== *)
(** * Sealed envelopes

    [vgi-rpc/src/crypto.rs]: the XChaCha20-Poly1305 envelope every token of the
    system is sealed with. The cipher, SHA-256 and base64 are third-party code:
    the classes [Aead] and [Base64], with the contract of an ideal cipher in
    [AeadLaws]. A failed open carries no information: [None]. *)

From S2P Require Import Prelude Bytes.

Definition KEY_LEN : Z := 32.
Definition NONCE_LEN : Z := 24.
Definition TAG_LEN : Z := 16.
Definition VERSION_LEN : Z := 1.
Definition MIN_TOKEN_LEN : Z := VERSION_LEN + NONCE_LEN + TAG_LEN.

Class Aead := {
  (** key, nonce, associated data, message *)
  aead_encrypt : list byte → list byte → list byte → list byte → list byte;
  aead_decrypt : list byte → list byte → list byte → list byte → option (list byte);
  sha256 : list byte → list byte
}.

(** Round trip, room for the tag, authenticity (only ciphertexts of the message
    open, and to nothing else), and binding of the associated data and nonce. *)
Class AeadLaws `{Aead} := {
  aead_open_seal : ∀ k n a m, aead_decrypt k n a (aead_encrypt k n a m) = Some m;
  aead_length : ∀ k n a m, zlen m + TAG_LEN ≤ zlen (aead_encrypt k n a m);
  aead_authentic : ∀ k n a c m, aead_decrypt k n a c = Some m → c = aead_encrypt k n a m;
  aead_binds : ∀ k n a m n' a' m',
    aead_encrypt k n a m = aead_encrypt k n' a' m' → n' = n ∧ a' = a ∧ m' = m;
  sha256_len : ∀ m, zlen (sha256 m) = 32
}.

Class Base64 := {
  (** [STANDARD] *)
  b64_encode : list byte → list byte;
  b64_decode : list byte → option (list byte);
  (** [STANDARD_NO_PAD] decoding *)
  b64_nopad_decode : list byte → option (list byte);
  (** [URL_SAFE_NO_PAD], and the decoder that ignores trailing bits *)
  b64url_encode : list byte → list byte;
  b64url_decode : list byte → option (list byte);
  b64url_lax_decode : list byte → option (list byte)
}.

Definition b64url_char (b : byte) : bool :=
  is_ascii_alphanumeric b || bool_decide (b = x2d) || bool_decide (b = x5f).

Class Base64Laws `{Base64} := {
  b64_decode_encode : ∀ l, b64_decode (b64_encode l) = Some l;
  b64url_decode_encode : ∀ l, b64url_decode (b64url_encode l) = Some l;
  b64url_lax_decode_encode : ∀ l, b64url_lax_decode (b64url_encode l) = Some l;
  (** [URL_SAFE_NO_PAD] refuses padding and non-zero trailing bits. *)
  b64url_canonical : ∀ t l, b64url_decode t = Some l → t = b64url_encode l;
  b64url_alphabet : ∀ l, Forall (fun b => b64url_char b = true) (b64url_encode l);
  (** [ceil(4 n / 3)] characters *)
  b64url_length : ∀ l, zlen (b64url_encode l) = (4 * zlen l + 2) / 3
}.

Section Envelope.
Context `{Aead}.

Definition normalize_key (key : list byte) : list byte :=
  if zlen key =? KEY_LEN then key else sha256 key.

Definition seal_bytes_with_nonce (payload key aad : list byte) (version : byte) (nonce : list byte)
  : list byte :=
  let normalized := normalize_key key in
  version :: nonce ++ aead_encrypt normalized nonce aad payload.

(** [seal_bytes]: the nonce is drawn at random. *)
Definition seal_bytes (payload key aad : list byte) (version : byte) (random_nonce : list byte)
  : list byte :=
  seal_bytes_with_nonce payload key aad version random_nonce.

Definition open_bytes (token key aad : list byte) (version : byte) : res unit (list byte) :=
  if zlen token <? MIN_TOKEN_LEN then Err tt else
  v ← or_panic (znth token 0);
  if negb (bool_decide (v = version)) then Err tt else
  let normalized := normalize_key key in
  nonce ← or_panic (slice token VERSION_LEN (VERSION_LEN + NONCE_LEN));
  ciphertext ← or_panic (slice token (VERSION_LEN + NONCE_LEN) (zlen token));
  ok_or tt (aead_decrypt normalized nonce aad ciphertext).

Context `{Base64}.

Definition seal_base64 (payload key aad : list byte) (version : byte) (nonce : list byte) : list byte :=
  b64_encode (seal_bytes payload key aad version nonce).

Definition open_base64 (token key aad : list byte) (version : byte) : res unit (list byte) :=
  raw ← ok_or tt (b64_decode token); open_bytes raw key aad version.
End Envelope.

Section EnvelopeProps.
Context `{AeadLaws}.

Lemma normalize_key_len key : zlen (normalize_key key) = KEY_LEN.
Proof.
  unfold normalize_key. destruct (Z.eqb_spec (zlen key) KEY_LEN); [done|]. by rewrite sha256_len.
Qed.

(** The envelope of a nonce of the right length, as [open_bytes] sees it. *)
Lemma open_envelope v nonce ct key aad version :
  zlen nonce = NONCE_LEN →
  open_bytes (v :: nonce ++ ct) key aad version =
    if bool_decide (v = version) && (TAG_LEN <=? zlen ct)
    then ok_or tt (aead_decrypt (normalize_key key) nonce aad ct) else Err tt.
Proof.
  intros Hn. unfold open_bytes, MIN_TOKEN_LEN, VERSION_LEN, TAG_LEN in *.
  rewrite zlen_cons, zlen_app, Hn. unfold NONCE_LEN in *.
  destruct (Z.leb_spec 16 (zlen ct)), (Z.ltb_spec (1 + (24 + zlen ct)) (1 + 24 + 16)); try lia.
  2: { by rewrite andb_false_r. }
  rewrite andb_true_r. change (znth (v :: nonce ++ ct) 0) with (Some v). cbn [or_panic mbind res_bind].
  case_bool_decide; cbn [negb]; [|done].
  assert (slice (v :: nonce ++ ct) 1 (1 + 24) = Some nonce) as ->.
  { apply (slice_app [v] nonce ct); rewrite ?zlen_cons, ?zlen_nil; lia. }
  assert (slice (v :: nonce ++ ct) (1 + 24) (1 + (24 + zlen ct)) = Some ct) as ->; [|done].
  assert (v :: nonce ++ ct = ([v] ++ nonce) ++ ct ++ []) as -> by (by rewrite app_nil_r, <- app_assoc).
  apply slice_app; rewrite zlen_app, zlen_cons, zlen_nil; lia.
Qed.

Lemma open_seal payload key aad version nonce :
  zlen nonce = NONCE_LEN →
  open_bytes (seal_bytes_with_nonce payload key aad version nonce) key aad version = Ok payload.
Proof.
  intros Hn. unfold seal_bytes_with_nonce. rewrite open_envelope by done.
  rewrite bool_decide_eq_true_2 by done.
  destruct (Z.leb_spec TAG_LEN (zlen (aead_encrypt (normalize_key key) nonce aad payload))) as [_|Hlt].
  - cbn [andb]. by rewrite aead_open_seal.
  - pose proof (aead_length (normalize_key key) nonce aad payload). pose proof (zlen_nonneg payload). lia.
Qed.

(** A token long enough has the shape of an envelope. *)
Lemma envelope_split (token : list byte) :
  MIN_TOKEN_LEN ≤ zlen token →
  ∃ v nonce ct, token = v :: nonce ++ ct ∧ zlen nonce = NONCE_LEN ∧ TAG_LEN ≤ zlen ct.
Proof.
  intros Hl. unfold MIN_TOKEN_LEN, VERSION_LEN, NONCE_LEN, TAG_LEN in *.
  destruct token as [|v t]; [rewrite zlen_nil in Hl; lia|]. rewrite zlen_cons in Hl.
  exists v, (ztake 24 t), (zdrop 24 t). rewrite zlen_ztake, zlen_zdrop by lia.
  split_and!; [by rewrite ztake_zdrop|done|lia].
Qed.

Lemma open_authentic token key aad version payload :
  open_bytes token key aad version = Ok payload →
  ∃ nonce, zlen nonce = NONCE_LEN ∧ token = seal_bytes_with_nonce payload key aad version nonce.
Proof.
  intros E. destruct (decide (MIN_TOKEN_LEN ≤ zlen token)) as [Hl|Hl].
  2: { unfold open_bytes in E. destruct (Z.ltb_spec (zlen token) MIN_TOKEN_LEN); [done|lia]. }
  destruct (envelope_split token Hl) as (v & nonce & ct & -> & Hn & Ht).
  rewrite open_envelope in E by done. case_bool_decide; [|done].
  destruct (Z.leb_spec TAG_LEN (zlen ct)); [|done]. cbn [andb] in E.
  apply ok_or_Ok, aead_authentic in E. exists nonce. split; [done|]. subst. done.
Qed.

Lemma open_no_panic token key aad version : no_panic (open_bytes token key aad version).
Proof.
  destruct (decide (MIN_TOKEN_LEN ≤ zlen token)) as [Hl|Hl].
  - destruct (envelope_split token Hl) as (v & nonce & ct & -> & Hn & Ht).
    rewrite open_envelope by done. case_match; [apply ok_or_no_panic|done].
  - unfold open_bytes. destruct (Z.ltb_spec (zlen token) MIN_TOKEN_LEN); [done|lia].
Qed.

(** Opening what was sealed, under a possibly different context. *)
Lemma open_seal_other payload key aad version nonce aad' version' payload' :
  zlen nonce = NONCE_LEN →
  open_bytes (seal_bytes_with_nonce payload key aad version nonce) key aad' version' = Ok payload' →
  aad' = aad ∧ version' = version ∧ payload' = payload.
Proof.
  intros Hn (nonce' & Hn' & E)%open_authentic. unfold seal_bytes_with_nonce in E.
  injection E as Ev E. apply app_inj_1 in E as [-> E]; [|apply zlen_eq; congruence].
  apply aead_binds in E as (_ & -> & ->). done.
Qed.

(** The sealed envelope: what is sealed opens to the same payload under the
    same key, associated data and version, and to nothing under any other
    associated data or version; conversely a token that opens was sealed from
    exactly the payload it opens to, so an altered token does not open; no input
    makes opening panic. *)
Theorem seal_open_exact payload key aad version nonce :
  zlen nonce = NONCE_LEN →
  open_bytes (seal_bytes_with_nonce payload key aad version nonce) key aad version = Ok payload ∧
  (∀ aad' version', aad' ≠ aad ∨ version' ≠ version →
     open_bytes (seal_bytes_with_nonce payload key aad version nonce) key aad' version' = Err tt) ∧
  (∀ token p, open_bytes token key aad version = Ok p ↔
     ∃ n, zlen n = NONCE_LEN ∧ token = seal_bytes_with_nonce p key aad version n) ∧
  (∀ token, no_panic (open_bytes token key aad version)).
Proof.
  intros Hn. split; [by apply open_seal|]. split; [|split].
  - intros aad' version' Hd.
    pose proof (open_no_panic (seal_bytes_with_nonce payload key aad version nonce) key aad' version') as Hp.
    destruct (open_bytes _ key aad' version') as [p|[]|] eqn:E; [|done|done].
    apply open_seal_other in E as (-> & -> & _); [|done]. by destruct Hd.
  - intros token p. split; [apply open_authentic|]. intros (n & Hn' & ->). by apply open_seal.
  - intros token. apply open_no_panic.
Qed.
End EnvelopeProps.

(** ** An injective cipher

    Every field with its length in unary in front, so that a ciphertext determines
    the fields: the ideal the laws describe, without any secrecy. *)
Definition unary (l : list byte) : list byte := replicate (length l) xaa ++ [x00].
Definition framed (l : list byte) : list byte := unary l ++ l.

Lemma unary_inj l l' r r' : unary l ++ r = unary l' ++ r' → length l = length l' ∧ r = r'.
Proof.
  unfold unary. revert l'. induction l as [|b l IH]; intros [|b' l'] E; simpl in *; try done.
  - by injection E.
  - injection E as E. apply IH in E as [-> ->]. done.
Qed.

Lemma framed_inj l l' r r' : framed l ++ r = framed l' ++ r' → l = l' ∧ r = r'.
Proof.
  unfold framed. rewrite <- !app_assoc. intros [Hl E]%unary_inj. by apply app_inj_1 in E.
Qed.

Definition toy_prefix (k n a : list byte) : list byte :=
  replicate 16 x00 ++ framed k ++ framed n ++ framed a.

Definition toy_aead : Aead := {|
  aead_encrypt k n a m := toy_prefix k n a ++ m;
  aead_decrypt k n a c := strip_prefix (toy_prefix k n a) c;
  sha256 m := take 32 (rev m ++ replicate 32 x00) |}.

Lemma toy_aead_laws : @AeadLaws toy_aead.
Proof.
  split; cbn [aead_encrypt aead_decrypt sha256 toy_aead].
  - intros. apply strip_prefix_app.
  - intros. unfold toy_prefix. rewrite !zlen_app. change (zlen (replicate 16 x00)) with 16.
    unfold TAG_LEN. pose proof (zlen_nonneg (framed k)). pose proof (zlen_nonneg (framed n)).
    pose proof (zlen_nonneg (framed a)). pose proof (zlen_nonneg m). lia.
  - intros k n a c m E. by apply strip_prefix_Some in E.
  - intros k n a m n' a' m' E. unfold toy_prefix in E. rewrite <- !app_assoc in E.
    apply app_inv_head in E. apply framed_inj in E as [_ E]. apply framed_inj in E as [<- E].
    by apply framed_inj in E as [<- <-].
  - intros m. unfold zlen. rewrite length_take, length_app, length_replicate. lia.
Qed.

Definition demo_nonce : list byte := replicate 24 x07.

Lemma seal_open_exact_witness :
  open_bytes (H:=toy_aead) (seal_bytes_with_nonce (H:=toy_aead) (bs "hello") (bs "key") (bs "aad") x04 demo_nonce)
    (bs "key") (bs "aad") x04 = Ok (bs "hello").
Proof. apply (@seal_open_exact toy_aead toy_aead_laws). reflexivity. Defined.
