(* ===== verification/External.v ===== *)
(** * External locations

    [vgi-rpc/src/external_ref.rs] and [external.rs]: a large batch is serialized,
    hashed, compressed and uploaded, and a zero-row pointer batch travels in its
    place; the reader validates the location, fetches under byte limits, checks the
    digest and decodes. The zstd codec, URL parsing and name resolution are
    third-party code ([Zstd], [UrlLib]); a storage backend and a fetcher are the
    traits of the source ([ExternalStorage], [Fetcher]). *)

From S2P Require Import Prelude Bytes Metadata Net F64 ErrorModel Errors Crypto Ipc IpcWriter Arrow.

(** ** Pre-published references *)
Record ExternalRef := mkExternalRef { ref_url : list byte; ref_sha256 : option (list byte) }.

Definition lower_hex (b : byte) : bool := is_ascii_digit b || in_range b 97 102.

Definition external_ref_new (url : list byte) (sha256 : option (list byte)) : res RpcError ExternalRef :=
  if bool_decide (url = []) then Err (RpcErr.value_error (bs "ExternalRef.url must be non-empty")) else
  match sha256 with
  | Some digest =>
    if (zlen digest =? 64) && forallb lower_hex digest then Ok (mkExternalRef url sha256)
    else Err (RpcErr.value_error (bs "ExternalRef.sha256 must be 64 lowercase hex characters (or None)"))
  | None => Ok (mkExternalRef url sha256)
  end.

(** ** Compression *)
Inductive Compression := CNone | CZstd (level : Z).

(** [zstd]: whether each set-up call succeeds, the encoder, and what the successive
    [read] calls of a decoder with a window limit deliver: bytes, or a failure.
    An empty read, and the end of the list, are the end of the stream. *)
Class Zstd := {
  zstd_encoder_new : Z → bool;
  zstd_set_content_size : Z → bool;
  zstd_compress : Z → list byte → option (list byte);
  zstd_decoder_new : list byte → bool;
  zstd_window_log_max : Z → bool;
  zstd_reads : Z → list byte → list (option (list byte))
}.

(** [usize::BITS - x.leading_zeros()] *)
Definition bit_length (x : Z) : Z := if x =? 0 then 0 else Z.log2 x + 1.

Definition zstd_window_log_for_limit (max_size : Z) : Z :=
  let bounded := Z.max max_size (2 ^ 19) in
  let ceil_log := bit_length (saturating_sub bounded 1) in
  Z.min (Z.max ceil_log 19) 31.

Definition decode_overflow : RpcError :=
  RpcErr.runtime_error (bs "zstd decode: output exceeds max_decompressed_bytes=").

(** The loop over [read]; [out] is what it holds. *)
Fixpoint decode_loop (max_size : Z) (out : list byte) (reads : list (option (list byte)))
  : res RpcError (list byte) :=
  match reads with
  | [] | Some [] :: _ => Ok out
  | None :: _ => Err (RpcErr.runtime_error (bs "zstd decode: "))
  | Some chunk :: reads =>
    n ← uadd (zlen out) (zlen chunk);
    if max_size <? n then Err decode_overflow else decode_loop max_size (out ++ chunk) reads
  end.

Section Codec.
Context `{Zstd}.

Definition compress (ipc_bytes : list byte) (c : Compression) : res RpcError (list byte) :=
  match c with
  | CNone => Ok ipc_bytes
  | CZstd level =>
    if negb (zstd_encoder_new level) then Err (RpcErr.runtime_error (bs "zstd encoder: ")) else
    if negb (zstd_set_content_size level) then Err (RpcErr.runtime_error (bs "zstd contentsize: ")) else
    ok_or (RpcErr.runtime_error (bs "zstd encode: ")) (zstd_compress level ipc_bytes)
  end.

Definition decompress (bytes : list byte) (c : Compression) (max_size : Z) : res RpcError (list byte) :=
  match c with
  | CNone =>
    if max_size <? zlen bytes then Err (RpcErr.runtime_error (bs "external payload ")) else Ok bytes
  | CZstd _ =>
    if negb (zstd_decoder_new bytes) then Err (RpcErr.runtime_error (bs "zstd decode: ")) else
    let w := zstd_window_log_for_limit max_size in
    if negb (zstd_window_log_max w) then Err (RpcErr.runtime_error (bs "zstd window limit: ")) else
    decode_loop max_size [] (zstd_reads w bytes)
  end.
End Codec.

(** ** URLs *)
Inductive Host := HostV4 (o : list byte) | HostV6 (o : list byte) | HostDomain (name : list byte).
Record Url := mkUrl { scheme : list byte; url_host : option Host; known_port : option Z }.

Class UrlLib := {
  url_parse : list byte → option Url;
  (** the text without credentials, query and fragment *)
  url_stripped : list byte → option (list byte);
  (** [(name, port).to_socket_addrs()] *)
  to_socket_addrs : list byte → Z → option (list IpAddr)
}.

Abbreviation UrlValidator := (list byte → res RpcError unit).

Definition v4_unsafe (o : list byte) : bool :=
  v4_is_loopback o || v4_is_private o || v4_is_link_local o || v4_is_unspecified o
  || v4_is_broadcast o || v4_is_multicast o || v4_is_documentation o
  || (octet o 0 =? 100) && (Z.land (octet o 1) 0xc0 =? 0x40).

Definition v6_unsafe (o : list byte) : bool :=
  let seg0 := segment o 0 in
  v6_is_loopback o || v6_is_unspecified o || v6_is_multicast o
  || (Z.land seg0 0xfe00 =? 0xfc00) || (Z.land seg0 0xffc0 =? 0xfe80)
  || match to_ipv4_mapped o with Some m => v4_unsafe m | None => false end.

Definition unsafe_host : RpcError :=
  RpcErr.value_error (bs "external location host resolves to a non-routable / internal address").

Definition reject_unsafe_ip (a : IpAddr) : res RpcError unit :=
  if match a with V4 o => v4_unsafe o | V6 o => v6_unsafe o end then Err unsafe_host else Ok tt.

Definition not_https : RpcError := RpcErr.value_error (bs "external location URL must be https://").

Definition https_only_validator : UrlValidator := fun url =>
  if starts_with (bs "https://") url then Ok tt else Err not_https.

Definition any_url_validator : UrlValidator := fun _ => Ok tt.

Section Urls.
Context `{UrlLib}.

Definition redact_external_url (raw : list byte) : list byte :=
  default (bs "<invalid external URL>") (url_stripped raw).

Definition redact_error (raw : list byte) (e : RpcError) : RpcError :=
  let r := str_replace raw (redact_external_url raw) in
  mkRpcError (error_type e) (r (message e)) (r (traceback e)) (err_request_id e) (auth_reason e)
             (retry_after_seconds e) (error_kind e) (status e).

Definition validate_external_url (validator : UrlValidator) (raw : list byte) : res RpcError unit :=
  map_err (redact_error raw) (validator raw).

Definition no_resolve : RpcError := RpcErr.value_error (bs "external location host does not resolve").

Definition safe_https_validator : UrlValidator := fun raw =>
  url ← ok_or (RpcErr.value_error (bs "invalid external location URL: ")) (url_parse raw);
  if negb (bool_decide (scheme url = bs "https")) then Err not_https else
  host ← ok_or (RpcErr.value_error (bs "external location URL has no host")) (url_host url);
  match host with
  | HostV4 o => reject_unsafe_ip (V4 o)
  | HostV6 o => reject_unsafe_ip (V6 o)
  | HostDomain name =>
    let lname := to_ascii_lowercase <$> name in
    if bool_decide (lname = bs "localhost") || ends_with (bs ".localhost") lname
    then Err (RpcErr.value_error (bs "external location host is not publicly routable")) else
    addrs ← ok_or (RpcErr.value_error (bs "external location host does not resolve: "))
                  (to_socket_addrs name (default 443 (known_port url)));
    _ ← try_fold (fun _ a => reject_unsafe_ip a) tt addrs;
    match addrs with [] => Err no_resolve | _ => Ok tt end
  end.
End Urls.

(** ** Storage and fetching, as the traits of the source *)
Record UploadResult := mkUpload { upload_url : list byte; upload_sha256 : list byte }.
Record FetchedPayload := mkFetched { fetched_bytes : list byte; fetched_compression : Compression }.

Class ExternalStorage (S : Type) := {
  upload : list byte → Compression → S → res RpcError UploadResult * S
}.

Class Fetcher (S : Type) := {
  fetch_with_policy : list byte → Compression → Z → UrlValidator → Z → S → res RpcError FetchedPayload
}.

(** The default method of the trait, over a redirect-free [fetch]. *)
Definition default_fetch_with_policy `{UrlLib} {S} (fetch : list byte → Compression → Z → S → res RpcError (list byte))
    (url : list byte) (c : Compression) (max_bytes : Z) (v : UrlValidator) (max_redirects : Z) (st : S)
  : res RpcError FetchedPayload :=
  _ ← validate_external_url v url;
  bytes ← fetch url c max_bytes st;
  Ok (mkFetched bytes c).

Record ExternalLocationConfig := mkExternal {
  threshold_bytes : Z;
  compression : Compression;
  url_validator : UrlValidator;
  max_decompressed_bytes : Z;
  max_encoded_bytes : Z;
  max_redirects : Z
}.

Definition external_config_new `{UrlLib} : ExternalLocationConfig :=
  mkExternal (1024 * 1024) CNone safe_https_validator (1024 * 1024 * 1024) (1024 * 1024 * 1024) 5.

Definition is_location_key (key : list byte) : bool :=
  bool_decide (key = LOCATION_KEY) || bool_decide (key = LOCATION_SHA256_KEY)
  || bool_decide (key = LOCATION_FETCH_MS_KEY) || bool_decide (key = LOCATION_SOURCE_KEY).

(** [retain(|k, _| !is_location_key(k))] *)
Definition strip_location (md : Metadata) : Metadata := filter (fun kv => is_location_key kv.1 = false) md.

(** [format!("{:.2}", x)] of a finite, non-negative [f64]: the exact decimal
    expansion, rounded to even at two places. *)
Definition format_2 (x : f64) : list byte :=
  let q := 100 * x / 2 ^ 1074 in
  let r := 100 * x mod 2 ^ 1074 in
  let up := if 2 * r <? 2 ^ 1074 then false else if 2 ^ 1074 <? 2 * r then true else Z.odd q in
  let n := if up then q + 1 else q in
  dec_unsigned (n / 100) ++ x2e :: [z2b (48 + n mod 100 / 10); z2b (48 + n mod 10)].

Definition resolved_metadata (pointer_md inner_md : Metadata) (url : list byte) (fetch_ms : f64) : Metadata :=
  <[LOCATION_SOURCE_KEY := url]> (<[LOCATION_FETCH_MS_KEY := format_2 fetch_ms]>
    (strip_location inner_md ∪ strip_location pointer_md)).

Section External.
Context `{ArrowArrays, !Aead, !Zstd, !UrlLib}.

Definition pointer_batch (r : ExternalRef) (schema : ArrowSchema) : res RpcError (RecordBatch * Metadata) :=
  batch ← empty_batch schema;
  let md : Metadata := <[LOCATION_KEY := ref_url r]> ∅ in
  Ok (batch, match ref_sha256 r with Some digest => <[LOCATION_SHA256_KEY := digest]> md | None => md end).

Definition sha256_hex (b : list byte) : list byte := bytes_to_hex (sha256 b).

(** Serializing into a fresh [Vec]. *)
Definition vec : sink := mkSink [] [] [] None (Ok tt).

Definition serialize_batch_to_ipc (batch : RecordBatch) : res RpcError (list byte) :=
  write_one_batch_as vec batch (batch_schema batch) None.

Definition deserialize_single_batch_with_metadata (ipc_bytes : list byte)
  : res RpcError (RecordBatch * Metadata) :=
  r ← stream_reader_new [Data ipc_bytes];
  match read_next r with
  | Some (Ok (o, _)) => ok_or (RpcErr.runtime_error (bs "external batch stream is empty")) o
  | Some (Err e) => Err e
  | _ => Panic
  end.

Definition deserialize_single_batch (ipc_bytes : list byte) : res RpcError RecordBatch :=
  fst <$> deserialize_single_batch_with_metadata ipc_bytes.

(** ** Externalizing *)
Record EncodedPayload := mkEncoded { raw_len : Z; sha : list byte; payload : list byte }.

Definition encode_payload (ipc_bytes : list byte) (c : Compression) : res RpcError EncodedPayload :=
  p ← compress ipc_bytes c; Ok (mkEncoded (zlen ipc_bytes) (sha256_hex ipc_bytes) p).

Record PreparedExternal := mkPrepared { encoded : EncodedPayload; ptr : RecordBatch; prepared_md : Metadata }.

Definition cap_bytes (p : PreparedExternal) : Z := raw_len (encoded p).

Definition prepare_externalize_batch_inner (batch : RecordBatch) (declared_schema : ArrowSchema)
    (inline_metadata : option Metadata) (cfg : ExternalLocationConfig) (force : bool)
  : res RpcError (option PreparedExternal) :=
  if num_rows batch =? 0 then Ok None else
  let md := strip_location (default ∅ inline_metadata) in
  ipc_bytes ← write_one_batch_as vec batch declared_schema (if bool_decide (md = ∅) then None else Some md);
  if negb force && (zlen ipc_bytes <? threshold_bytes cfg) then Ok None else
  enc ← encode_payload ipc_bytes (compression cfg);
  p ← empty_batch declared_schema;
  Ok (Some (mkPrepared enc p md)).

Definition prepare_externalize_batch batch schema md cfg :=
  prepare_externalize_batch_inner batch schema md cfg false.
Definition prepare_externalize_batch_forced batch schema md cfg :=
  prepare_externalize_batch_inner batch schema md cfg true.

(** ** Uploading *)
Context {S : Type} `{!ExternalStorage S, !Fetcher S}.

(** The backend and the thread's [EXTERNALIZED_BYTES]. *)
Record XState := mkX { xstore : S; externalized : Z }.

(** [ExternalizedScope]: the enclosing total, and the scope's own on [finish]. *)
Definition scope_new (st : XState) : Z * XState := (externalized st, mkX (xstore st) 0).
Definition scope_finish (outer : Z) (st : XState) : Z * XState := (externalized st, mkX (xstore st) outer).

Definition upload_payload (p : list byte) (c : Compression) (st : XState) : res RpcError (list byte) * XState :=
  match uadd (E:=RpcError) (externalized st) (zlen p) with
  | Ok n =>
    let '(r, s) := upload p c (xstore st) in
    (upload_url <$> r, mkX s n)
  | _ => (Panic, st)
  end.

Definition upload_prepared (p : PreparedExternal) (cfg : ExternalLocationConfig) (st : XState)
  : res RpcError (RecordBatch * Metadata) * XState :=
  let '(r, st) := upload_payload (payload (encoded p)) (compression cfg) st in
  (url ← r;
   _ ← validate_external_url (url_validator cfg) url;
   Ok (ptr p, <[LOCATION_SHA256_KEY := sha (encoded p)]> (<[LOCATION_KEY := url]> (prepared_md p))), st).

Definition maybe_externalize_batch (batch : RecordBatch) (declared_schema : ArrowSchema)
    (inline_metadata : option Metadata) (cfg : ExternalLocationConfig) (st : XState)
  : res RpcError (option (RecordBatch * Metadata)) * XState :=
  match prepare_externalize_batch batch declared_schema inline_metadata cfg with
  | Ok None => (Ok None, st)
  | Ok (Some p) => let '(r, st) := upload_prepared p cfg st in (Some <$> r, st)
  | Err e => (Err e, st)
  | Panic => (Panic, st)
  end.

Definition publish_external (batch : RecordBatch) (c : Compression) (include_sha256 : bool) (st : XState)
  : res RpcError ExternalRef * XState :=
  if negb (num_rows batch =? 1)
  then (Err (RpcErr.value_error (bs "publish_external expects a 1-row result batch, got ")), st) else
  match (ipc ← serialize_batch_to_ipc batch; encode_payload ipc c) with
  | Ok enc =>
    let '(r, st) := upload_payload (payload enc) c st in
    (url ← r; external_ref_new url (if include_sha256 then Some (sha enc) else None), st)
  | Err e => (Err e, st)
  | Panic => (Panic, st)
  end.

(** ** Resolving *)
Definition checksum_mismatch : RpcError :=
  RpcErr.runtime_error (bs "external location checksum: SHA-256 mismatch (expected ").

(** Fetch, decompress and check the digest. *)
Definition fetch_checked (url : list byte) (md : Metadata) (cfg : ExternalLocationConfig) (st : S)
  : res RpcError (list byte) :=
  fetched ← fetch_with_policy url (compression cfg) (max_encoded_bytes cfg) (url_validator cfg)
                              (max_redirects cfg) st;
  ipc_bytes ← decompress (fetched_bytes fetched) (fetched_compression fetched) (max_decompressed_bytes cfg);
  match md !! LOCATION_SHA256_KEY with
  | Some expected => if bool_decide (expected = sha256_hex ipc_bytes) then Ok ipc_bytes else Err checksum_mismatch
  | None => Ok ipc_bytes
  end.

Definition fetch_external_ipc_bytes (md : Metadata) (cfg : ExternalLocationConfig) (st : S)
  : res RpcError (option (list byte)) :=
  match md !! LOCATION_KEY with
  | None => Ok None
  | Some url => Some <$> fetch_checked url md cfg st
  end.

(** [fetch_ms]: the elapsed time the clock shows. *)
Definition resolve_external_location (batch : RecordBatch) (md : Metadata) (cfg : ExternalLocationConfig)
    (fetch_ms : f64) (st : S) : res RpcError (RecordBatch * Metadata) :=
  match md !! LOCATION_KEY with
  | None => Ok (batch, md)
  | Some url =>
    ipc_bytes ← fetch_checked url md cfg st;
    '(resolved, inner_md) ← deserialize_single_batch_with_metadata ipc_bytes;
    Ok (resolved, resolved_metadata md inner_md url fetch_ms)
  end.
End External.

(** ** [InMemoryStorage], the backend and fetcher pair of the tests *)
Record InMemoryStorage := mkInMemory { inmem_map : gmap (list byte) (list byte); next_id : Z }.

Definition in_memory_new : InMemoryStorage := mkInMemory ∅ 1.
Definition base_url : list byte := bs "https://inmem.test/".

(** [format!("{}{:016x}", base_url, id)] *)
Definition inmem_url (s : InMemoryStorage) : list byte := base_url ++ bytes_to_hex (be_bytes 8 (next_id s)).

Definition inmem_upload `{Aead} (bytes : list byte) (c : Compression) (s : InMemoryStorage)
  : res RpcError UploadResult * InMemoryStorage :=
  let url := inmem_url s in
  (Ok (mkUpload url (sha256_hex bytes)),
   mkInMemory (<[url := bytes]> (inmem_map s)) ((next_id s + 1) mod 2 ^ 64)).

Definition inmem_fetch (url : list byte) (c : Compression) (max_bytes : Z) (s : InMemoryStorage)
  : res RpcError (list byte) :=
  bytes ← ok_or (RpcErr.runtime_error (bs "inmem fetch miss: ")) (inmem_map s !! url);
  if max_bytes <? zlen bytes then Err (RpcErr.runtime_error (bs "inmem fetch payload ")) else Ok bytes.

#[global] Instance inmem_storage `{Aead} : ExternalStorage InMemoryStorage := {| upload := inmem_upload |}.
#[global] Instance inmem_fetcher `{UrlLib} : Fetcher InMemoryStorage :=
  {| fetch_with_policy := default_fetch_with_policy inmem_fetch |}.
