(* ===== verification/ExternalProps.v ===== *)
(** * External locations: round trip, hostile storage, and address classes *)

From S2P Require Import Prelude Bytes Metadata Net F64 ErrorModel Errors Crypto Ipc IpcProps IpcWriter IpcWriterProps IpcStream Arrow External.

(** ** Byte limits *)

(** The smallest window covering the limit, within zstd's interoperable range. *)
Lemma window_log_covers max :
  0 ≤ max → let w := zstd_window_log_for_limit max in
  19 ≤ w ≤ 31 ∧ (max ≤ 2 ^ 31 → max ≤ 2 ^ w) ∧ (19 < w → 2 ^ (w - 1) < max).
Proof.
  intros Hm w. unfold w, zstd_window_log_for_limit, bit_length, saturating_sub. set (b := Z.max max (2 ^ 19)).
  assert (2 ^ 19 ≤ b) by lia. rewrite (Z.max_l (b - 1) 0) by lia. destruct (Z.eqb_spec (b - 1) 0); [lia|].
  pose proof (Z.log2_spec (b - 1) ltac:(lia)) as [Hlo Hhi]. rewrite <- Z.add_1_r in Hhi.
  set (k := Z.log2 (b - 1)) in *.
  assert (18 ≤ k) as Hk by (change 18 with (Z.log2 (2 ^ 19 - 1)); apply Z.log2_le_mono; lia).
  split; [lia|]. split.
  - intros Hle. destruct (decide (k + 1 ≤ 31)).
    + rewrite Z.min_l, Z.max_l by lia. lia.
    + rewrite Z.min_r by lia. lia.
  - intros Hw. destruct (decide (k + 1 ≤ 31)).
    + rewrite Z.min_l, Z.max_l in * by lia. replace (k + 1 - 1) with k by lia.
      assert (2 ^ 19 ≤ 2 ^ k) by (apply Z.pow_le_mono_r; lia). lia.
    + rewrite Z.min_r in * by lia. assert (2 ^ (31 - 1) ≤ 2 ^ k) by (apply Z.pow_le_mono_r; lia).
      assert (2 ^ 19 < 2 ^ (31 - 1)) by done. lia.
Qed.

Lemma decode_loop_bound max reads out l :
  decode_loop max out reads = Ok l → zlen out ≤ max → zlen l ≤ max.
Proof.
  revert out. induction reads as [|[[|b chunk]|] reads IH]; intros out E Ho; cbn [decode_loop] in E; inv_res; try done.
  destruct (Z.ltb_spec max x); [done|]. apply IH in E; [done|].
  match goal with Hu : uadd _ _ = Ok _ |- _ => unfold uadd in Hu; case_match; [|done]; injection Hu as <- end.
  rewrite zlen_app. lia.
Qed.

Lemma decode_loop_chunks max out chunks :
  Forall (fun c => c ≠ []) chunks → zlen out + zlen (concat chunks) ≤ max → max ≤ u64_max →
  decode_loop max out (Some <$> chunks) = Ok (out ++ concat chunks).
Proof.
  intros Hc. revert out. induction Hc as [|c chunks Hne Hc IH]; intros out Hl Hm; cbn [fmap list_fmap decode_loop concat].
  { by rewrite app_nil_r. }
  destruct c as [|b c]; [done|]. set (ch := b :: c) in *. cbn [concat] in Hl. rewrite zlen_app in Hl.
  pose proof (zlen_nonneg (concat chunks)). unfold uadd. rewrite (proj2 (Z.leb_le _ _)) by lia.
  cbn [mbind res_bind]. rewrite (proj2 (Z.ltb_ge _ _)) by lia. rewrite IH; [by rewrite <- app_assoc| |done].
  rewrite zlen_app. lia.
Qed.

(** What [zstd] documents: window limits up to 31 are accepted on 64-bit targets; a
    frame written with its content size never needs a window larger than its
    content, and decodes to it in non-empty reads. *)
Class ZstdLaws `{Zstd} := {
  zstd_window_range : ∀ w, 10 ≤ w ≤ 31 → zstd_window_log_max w = true;
  zstd_roundtrip : ∀ level l c w, zstd_compress level l = Some c → 10 ≤ w ≤ 31 → zlen l ≤ 2 ^ w →
    zstd_decoder_new c = true ∧
    ∃ chunks, zstd_reads w c = Some <$> chunks ∧ Forall (fun c => c ≠ []) chunks ∧ concat chunks = l
}.

Section Codec.
Context `{ZstdLaws}.

Lemma decompress_bound bytes c max l : decompress bytes c max = Ok l → 0 ≤ max → zlen l ≤ max.
Proof.
  unfold decompress. intros E Hm. destruct c.
  - destruct (Z.ltb_spec max (zlen bytes)); [done|]. by injection E as <-.
  - case_match; [done|]. case_match; [done|]. eapply decode_loop_bound; [done|]. by rewrite zlen_nil.
Qed.

Lemma compress_decompress l c p max :
  compress l c = Ok p → zlen l ≤ max → zlen l ≤ 2 ^ 31 → max ≤ u64_max → decompress p c max = Ok l.
Proof.
  unfold compress, decompress. intros E Hl Hw Hm. pose proof (zlen_nonneg l). destruct c.
  - injection E as <-. by rewrite (proj2 (Z.ltb_ge _ _)) by lia.
  - case_match; [done|]. case_match; [done|]. apply ok_or_Ok in E.
    destruct (window_log_covers max ltac:(lia)) as (Hr & Hc & _). set (w := zstd_window_log_for_limit max) in *.
    assert (zlen l ≤ 2 ^ w) as Hlw.
    { destruct (decide (max ≤ 2 ^ 31)) as [Hle|]; [specialize (Hc Hle); lia|].
      destruct (decide (w = 31)) as [->|]; [done|].
      assert (w = 31); [|done]. unfold w, zstd_window_log_for_limit, bit_length, saturating_sub.
      rewrite (Z.max_l max), (Z.max_l (max - 1)) by lia. destruct (Z.eqb_spec (max - 1) 0); [lia|].
      assert (Z.log2 (2 ^ 31) ≤ Z.log2 (max - 1)) by (apply Z.log2_le_mono; lia).
      rewrite Z.log2_pow2 in * by lia. lia. }
    destruct (zstd_roundtrip level l p w E ltac:(lia) Hlw) as (-> & chunks & -> & Hne & Hcc).
    rewrite zstd_window_range by lia. cbn [negb]. rewrite decode_loop_chunks; [by rewrite Hcc|done| |done].
    rewrite zlen_nil, Hcc. lia.
Qed.
End Codec.

(** ** Location keys *)
Lemma strip_location_lookup md k : strip_location md !! k = if is_location_key k then None else md !! k.
Proof.
  unfold strip_location. destruct (is_location_key k) eqn:E.
  - apply map_lookup_filter_None. right. intros v _. simpl. by rewrite E.
  - destruct (md !! k) as [v|] eqn:Ev.
    + by apply map_lookup_filter_Some.
    + apply map_lookup_filter_None. by left.
Qed.

Lemma not_location_ne k : is_location_key k = false →
  k ≠ LOCATION_KEY ∧ k ≠ LOCATION_SHA256_KEY ∧ k ≠ LOCATION_FETCH_MS_KEY ∧ k ≠ LOCATION_SOURCE_KEY.
Proof. unfold is_location_key. intros E. split_and!; intros ->; by vm_compute in E. Qed.

(** What a resolved batch carries, whatever the two maps were. *)
Lemma resolved_metadata_lookup ptr_md inner url ms k :
  resolved_metadata ptr_md inner url ms !! k =
    if decide (k = LOCATION_SOURCE_KEY) then Some url
    else if decide (k = LOCATION_FETCH_MS_KEY) then Some (format_2 ms)
    else if is_location_key k then None
    else match inner !! k with Some v => Some v | None => ptr_md !! k end.
Proof.
  unfold resolved_metadata. case_decide as E1; [subst; by rewrite lookup_insert_eq|].
  rewrite lookup_insert_ne by done. case_decide as E2; [subst; by rewrite lookup_insert_eq|].
  rewrite lookup_insert_ne by done. rewrite lookup_union, !strip_location_lookup.
  destruct (is_location_key k); [done|]. by destruct (inner !! k), (ptr_md !! k).
Qed.

Section External.
Context `{LW : ArrowIpcWriterLaws, !ArrowArrays, !ArrowArraysLaws, !Aead, !Zstd, !ZstdLaws, !UrlLib}.
Context {S : Type} `{!ExternalStorage S, !Fetcher S}.

(** A backend and its fetcher: what was uploaded is what a fetch under the limits
    and an agreeable validator returns, with the coding it was uploaded in. *)
Class StorageLaws := {
  upload_fetch : ∀ p c s r s' max v n, upload p c s = (Ok r, s') → zlen p ≤ max →
    v (upload_url r) = Ok tt → fetch_with_policy (upload_url r) c max v n s' = Ok (mkFetched p c);
  upload_utf8 : ∀ p c s r s', upload p c s = (Ok r, s') → utf8_valid (upload_url r) = true
}.

Lemma deserialize_wire s batch md l :
  wire_stream s [(batch, md)] l → schema_readable s → zlen l ≤ u32_max →
  deserialize_single_batch_with_metadata l = Ok (batch, md).
Proof.
  intros Hw Hs Hl. destruct (wire_stream_open s _ l [Data l] [] Hw Hs Hl) as (sr & E & _ & Ha).
  { destruct Hw as (? & ? & (mb & ? & _ & _ & ->) & ->). repeat constructor. done. }
  { simpl. by rewrite app_nil_r. }
  unfold deserialize_single_batch_with_metadata. rewrite E. cbn [mbind res_bind].
  by destruct (at_items_next _ _ _ _ _ Ha) as (r' & -> & _).
Qed.

Lemma write_one_wire batch s md bytes :
  fits s batch → opt_utf8 md → write_one_batch_as vec batch s md = Ok bytes →
  wire_stream s [(batch, default ∅ md)] bytes.
Proof.
  intros Hf Hu E. destruct (write_one_batch_bytes vec _ _ _ _ eq_refl Hf Hu E) as (mb0 & fs & mb & d & -> & Hm0 & Hfr).
  exists [wire_frames (fs ++ [mb])], (wire_frame mb0.1 mb0.2 ++ wire_frames (fs ++ [mb])).
  split; [|by rewrite <- app_assoc]. exists mb0, d. split_and!; [done| |by simpl; rewrite app_nil_r].
  econstructor; [done|constructor].
Qed.

Lemma strip_utf8 md : opt_utf8 md → metadata_utf8 (strip_location (default ∅ md)).
Proof.
  intros Hu. destruct md as [md|]; simpl in *.
  - intros k v Hk. rewrite strip_location_lookup in Hk. case_match; [done|]. by apply Hu.
  - intros k v Hk. rewrite strip_location_lookup in Hk. by case_match.
Qed.

(** The stripped metadata travels with the batch, absent when it is empty. *)
Lemma default_strip (md : Metadata) : default ∅ (if bool_decide (md = ∅) then None else Some md) = md.
Proof. case_bool_decide; by subst. Qed.

(** C25. Externalizing and resolving: when a batch was uploaded, the pointer on the
    wire has no rows and the enclosing stream's schema, and resolving it returns the
    batch, with the caller's metadata and the two provenance keys of the reader and
    no other location key. *)
Theorem externalize_resolve_roundtrip `{!StorageLaws} batch schema md cfg st p pmd st' ms :
  maybe_externalize_batch batch schema md cfg st = (Ok (Some (p, pmd)), st') →
  fits schema batch → opt_utf8 md → schema_readable schema →
  (∀ l, write_one_batch_as vec batch schema
          (if bool_decide (strip_location (default ∅ md) = ∅) then None else Some (strip_location (default ∅ md))) = Ok l →
        zlen l ≤ max_decompressed_bytes cfg ∧ zlen l ≤ 2 ^ 31 ∧
        ∀ q, compress l (compression cfg) = Ok q → zlen q ≤ max_encoded_bytes cfg) →
  max_decompressed_bytes cfg ≤ u64_max →
  num_rows p = 0 ∧ batch_schema p = schema ∧
  ∃ url rmd, pmd !! LOCATION_KEY = Some url ∧
    resolve_external_location p pmd cfg ms (xstore st') = Ok (batch, rmd) ∧
    ∀ k, rmd !! k = if decide (k = LOCATION_SOURCE_KEY) then Some url
                    else if decide (k = LOCATION_FETCH_MS_KEY) then Some (format_2 ms)
                    else if is_location_key k then None else default ∅ md !! k.
Proof.
  intros E Hfit Hu Hs Hsz Hmax. unfold maybe_externalize_batch, prepare_externalize_batch in E.
  destruct (prepare_externalize_batch_inner _ _ _ _ _) as [[pr|]|?|] eqn:Ep; [|done..].
  unfold prepare_externalize_batch_inner in Ep. destruct (num_rows batch =? 0); [done|].
  set (smd := strip_location (default ∅ md)) in *.
  apply bind_Ok in Ep as (ipc & Ei & Ep). destruct (Hsz ipc Ei) as (Hl1 & Hl2 & Hq).
  destruct (negb false && _); [done|]. apply bind_Ok in Ep as (enc & Ee & Ep). apply bind_Ok in Ep as (pb & Eb & Ep).
  injection Ep as <-. apply bind_Ok in Ee as (q & Eq & Ee). injection Ee as <-. specialize (Hq q Eq).
  unfold upload_prepared in E. cbn [payload encoded ptr prepared_md sha] in E.
  unfold upload_payload in E. destruct (uadd _ _) as [n|?|]; [|done..].
  destruct (upload q _ _) as [ru s1] eqn:Eu. destruct ru as [r|?|]; [|done..].
  cbn [fmap res_fmap mbind res_bind] in E.
  destruct (validate_external_url _ _) as [[]|?|] eqn:Ev; [|done..]. cbn [mbind res_bind fmap res_fmap] in E.
  injection E as <- <- <-. apply empty_batch_spec in Eb as [Hsc Hrows]. split; [done|]. split; [done|].
  set (pmd := <[LOCATION_SHA256_KEY:=sha256_hex ipc]> (<[LOCATION_KEY:=upload_url r]> smd)).
  assert (pmd !! LOCATION_KEY = Some (upload_url r)) as Hloc by (unfold pmd; by md_simp).
  exists (upload_url r), (resolved_metadata pmd smd (upload_url r) ms). split; [done|]. split.
  - unfold resolve_external_location, fetch_checked. rewrite Hloc. cbn [xstore].
    assert (url_validator cfg (upload_url r) = Ok tt) as Hv.
    { unfold validate_external_url in Ev. by destruct (url_validator cfg (upload_url r)) as [[]|?|]. }
    rewrite (upload_fetch _ _ _ _ _ _ _ _ Eu Hq Hv). cbn [mbind res_bind fetched_bytes fetched_compression].
    rewrite (compress_decompress ipc) by done. cbn [mbind res_bind].
    assert (pmd !! LOCATION_SHA256_KEY = Some (sha256_hex ipc)) as -> by (unfold pmd; by rewrite lookup_insert_eq).
    rewrite bool_decide_eq_true_2 by done. cbn [mbind res_bind].
    rewrite (deserialize_wire schema batch smd); [done| |done|ints; lia].
    rewrite <- (default_strip smd). apply write_one_wire; [done| |done].
    case_bool_decide; [done|]. by apply strip_utf8.
  - intros k. rewrite resolved_metadata_lookup. destruct (decide (k = LOCATION_SOURCE_KEY)); [done|].
    destruct (decide (k = LOCATION_FETCH_MS_KEY)); [done|].
    destruct (is_location_key k) eqn:Ek; [done|]. unfold smd. rewrite strip_location_lookup, Ek.
    destruct (default ∅ md !! k) eqn:Edk; [done|]. unfold pmd. apply not_location_ne in Ek as (? & ? & _).
    rewrite !lookup_insert_ne by done. unfold smd. rewrite strip_location_lookup, Edk. by destruct (is_location_key k).
Qed.

(** C26. Resolving against any storage whatsoever: a batch is accepted only from at most
    the configured number of decoded bytes, only when their digest is the one the
    pointer names, and no location key of the wire survives: the source is the
    pointer's own location and the others are the reader's. *)
Theorem resolve_hostile_storage batch md cfg ms st b rmd url :
  resolve_external_location batch md cfg ms st = Ok (b, rmd) → md !! LOCATION_KEY = Some url →
  0 ≤ max_decompressed_bytes cfg →
  (∃ bytes inner, deserialize_single_batch_with_metadata bytes = Ok (b, inner) ∧
     zlen bytes ≤ max_decompressed_bytes cfg ∧
     (∀ d, md !! LOCATION_SHA256_KEY = Some d → d = sha256_hex bytes) ∧
     ∀ k, is_location_key k = false → rmd !! k = match inner !! k with Some v => Some v | None => md !! k end) ∧
  rmd !! LOCATION_KEY = None ∧ rmd !! LOCATION_SHA256_KEY = None ∧
  rmd !! LOCATION_SOURCE_KEY = Some url ∧ rmd !! LOCATION_FETCH_MS_KEY = Some (format_2 ms).
Proof.
  unfold resolve_external_location. intros E Hu Hmax. rewrite Hu in E.
  apply bind_Ok in E as (bytes & Ef & E). apply bind_Ok in E as ([b' inner] & Ed & E). injection E as <- <-.
  unfold fetch_checked in Ef. apply bind_Ok in Ef as (f & _ & Ef). apply bind_Ok in Ef as (l & El & Ef).
  apply decompress_bound in El; [|done].
  assert (l = bytes ∧ ∀ d, md !! LOCATION_SHA256_KEY = Some d → d = sha256_hex bytes) as [-> Hsha].
  { destruct (md !! LOCATION_SHA256_KEY) as [d|]; [case_bool_decide; [|done]|]; injection Ef as <-; naive_solver. }
  split; [exists bytes, inner; split_and!; try done|].
  - intros k Hk. rewrite resolved_metadata_lookup. apply not_location_ne in Hk as Hne. destruct Hne as (? & ? & ? & ?).
    rewrite !decide_False by done. by rewrite Hk.
  - rewrite !resolved_metadata_lookup. split_and!.
    + by rewrite !decide_False by key_ne.
    + by rewrite !decide_False by key_ne.
    + by rewrite decide_True.
    + rewrite decide_False by key_ne. by rewrite decide_True.
Qed.
End External.

(** The in-memory backend keeps the promise. *)
#[global] Instance inmem_laws `{Aead, UrlLib} : StorageLaws (S:=InMemoryStorage).
Proof.
  constructor.
  2: { intros p c s r s' E. injection E as <- <-. apply utf8_valid_app; [done|].
       apply utf8_valid_ascii, bytes_to_hex_ascii. }
  intros p c s r s' max v n E Hp Hv. cbn in E. injection E as <- <-. cbn in *.
  unfold default_fetch_with_policy, validate_external_url. rewrite Hv. cbn [map_err mbind res_bind].
  unfold inmem_fetch. cbn [inmem_map]. rewrite lookup_insert_eq. cbn [ok_or mbind res_bind].
  by rewrite (proj2 (Z.ltb_ge _ _)) by done.
Qed.
