(* ===== verification/Cidr.v ===== *)
(** * Which addresses the server refuses to dial, as networks

    The bit tests of [reject_unsafe_ip] against a list of CIDR blocks. *)

From S2P Require Import Prelude Bytes Net ErrorModel Errors External.

(** The first [len] bits of the address are the network's. *)
Definition in_cidr (o : list byte) (net : list byte * Z) : Prop :=
  be_val o / 2 ^ (8 * zlen o - net.2) = be_val net.1 / 2 ^ (8 * zlen o - net.2).

Definition ip4 (a b c d : Z) : list byte := [z2b a; z2b b; z2b c; z2b d].

Definition blocked_v4 : list (list byte * Z) := [
  (ip4 127 0 0 0, 8); (ip4 10 0 0 0, 8); (ip4 172 16 0 0, 12); (ip4 192 168 0 0, 16);
  (ip4 169 254 0 0, 16); (ip4 0 0 0 0, 32); (ip4 255 255 255 255, 32); (ip4 224 0 0 0, 4);
  (ip4 192 0 2 0, 24); (ip4 198 51 100 0, 24); (ip4 203 0 113 0, 24); (ip4 100 64 0 0, 10)].

(** [::ffff:0:0/96] *)
Definition mapped_prefix : list byte := replicate 10 x00 ++ [xff; xff].

Definition blocked_v6 : list (list byte * Z) := [
  (replicate 15 x00 ++ [x01], 128); (replicate 16 x00, 128); (xff :: replicate 15 x00, 8);
  (xfc :: replicate 15 x00, 7); (xfe :: x80 :: replicate 14 x00, 10)] ++
  ((fun n => (mapped_prefix ++ n.1, 96 + n.2)) <$> blocked_v4).

Definition blocked (a : IpAddr) : Prop :=
  match a with
  | V4 o => Exists (in_cidr o) blocked_v4
  | V6 o => Exists (in_cidr o) blocked_v6
  end.

(** ** Big-endian values *)
Lemma le_val_app l k : le_val (l ++ k) = le_val l + 2 ^ (8 * zlen l) * le_val k.
Proof.
  induction l as [|b l IH]; [change (zlen (@nil byte)) with 0; cbn [le_val app]; change (2 ^ (8 * 0)) with 1; lia|]. rewrite zlen_cons.
  change ((b :: l) ++ k) with (b :: (l ++ k)). cbn [le_val]. rewrite IH.
  replace (8 * (1 + zlen l)) with (8 + 8 * zlen l) by lia. pose proof (zlen_nonneg l).
  rewrite Z.pow_add_r by lia. lia.
Qed.

Lemma zlen_rev (l : list byte) : zlen (rev l) = zlen l.
Proof. unfold zlen. by rewrite length_rev. Qed.

Lemma be_val_app l k : be_val (l ++ k) = be_val l * 2 ^ (8 * zlen k) + be_val k.
Proof. unfold be_val. rewrite rev_app_distr, le_val_app, zlen_rev. lia. Qed.

Lemma be_val_range l : 0 ≤ be_val l < 2 ^ (8 * zlen l).
Proof. unfold be_val. rewrite <- zlen_rev. apply le_val_range. Qed.

Lemma be_val_inj l k : length l = length k → be_val l = be_val k → l = k.
Proof.
  intros Hl E. rewrite <- (rev_involutive l), <- (rev_involutive k). f_equal.
  apply le_val_inj; [by rewrite !length_rev|done].
Qed.

(** A prefix of whole octets and [n] bits more. *)
Lemma in_cidr_app p q p' q' n :
  length p = length p' → length q = length q' → 0 ≤ n ≤ 8 * zlen q →
  in_cidr (p ++ q) (p' ++ q', 8 * zlen p + n) ↔ p = p' ∧ in_cidr q (q', n).
Proof.
  intros Hp Hq Hn. unfold in_cidr. cbn [fst snd]. rewrite !be_val_app, zlen_app.
  replace (zlen q') with (zlen q) by (unfold zlen; congruence).
  replace (8 * (zlen p + zlen q) - (8 * zlen p + n)) with (8 * zlen q - n) by lia.
  set (m := 8 * zlen q - n). assert (∀ v w, (v * 2 ^ (8 * zlen q) + w) / 2 ^ m = v * 2 ^ n + w / 2 ^ m) as Hd.
  { intros v w. replace (8 * zlen q) with (n + m) by lia. rewrite Z.pow_add_r by lia.
    rewrite Z.mul_assoc. rewrite Z.add_comm, Z.div_add, Z.add_comm; [done|]. apply Z.pow_nonzero; lia. }
  rewrite !Hd. pose proof (be_val_range q) as Hq0. pose proof (be_val_range q') as Hq'.
  replace (zlen q') with (zlen q) in Hq' by (unfold zlen; congruence).
  assert (∀ w, 0 ≤ w < 2 ^ (8 * zlen q) → 0 ≤ w / 2 ^ m < 2 ^ n) as Hb.
  { intros w Hw. split; [apply Z.div_pos; [lia|apply Z.pow_pos_nonneg; lia]|].
    apply Z.div_lt_upper_bound; [apply Z.pow_pos_nonneg; lia|]. rewrite <- Z.pow_add_r by lia.
    replace (m + n) with (8 * zlen q) by lia; lia. }
  split; [|by intros [-> ->]]. intros E.
  pose proof (Hb _ Hq0). pose proof (Hb _ Hq').
  assert (be_val p = be_val p') as Ep.
  { revert E. generalize dependent (be_val q / 2 ^ m). generalize dependent (be_val q' / 2 ^ m). intros x' Hx' x Hx E.
    apply (f_equal (fun z => z / 2 ^ n)) in E. rewrite !Z.div_add_l, !Z.div_small in E by lia. lia. }
  split; [by apply be_val_inj|]. rewrite Ep in E. lia.
Qed.

Lemma in_cidr_full o net : length o = length net → in_cidr o (net, 8 * zlen o) ↔ o = net.
Proof.
  intros Hl. unfold in_cidr. cbn [fst snd]. rewrite Z.sub_diag, !Z.div_1_r. split; [by apply be_val_inj|by intros ->].
Qed.

(** A prefix of [n] bits of the first octet. *)
Lemma in_cidr_octet x y n : 0 ≤ n ≤ 8 → in_cidr [x] ([y], n) ↔ b2z x / 2 ^ (8 - n) = b2z y / 2 ^ (8 - n).
Proof.
  intros Hn. unfold in_cidr, be_val. cbn [fst snd rev app le_val]. change (zlen [x]) with 1.
  replace (8 * 1 - n) with (8 - n) by lia. by rewrite !Z.mul_0_r, !Z.add_0_r.
Qed.

Lemma in_cidr_rest p q p' q' n :
  length p = length p' → length q = length q' → 0 ≤ n ≤ 8 * zlen p →
  in_cidr (p ++ q) (p' ++ q', n) ↔ in_cidr p (p', n).
Proof.
  intros Hp Hq Hn. unfold in_cidr. cbn [fst snd]. rewrite !be_val_app, zlen_app.
  assert (zlen q' = zlen q) as Hzq by (unfold zlen; congruence). rewrite Hzq.
  pose proof (zlen_nonneg q). replace (8 * (zlen p + zlen q) - n) with (8 * zlen q + (8 * zlen p - n)) by lia.
  rewrite Z.pow_add_r by lia.
  rewrite <- !Z.div_div by (try apply Z.pow_nonzero; try apply Z.pow_pos_nonneg; lia).
  rewrite !Z.div_add_l by (apply Z.pow_nonzero; lia).
  rewrite !(Z.div_small (be_val _)) by (rewrite <- ?Hzq; apply be_val_range || (rewrite ?Hzq; apply be_val_range)).
  by rewrite !Z.add_0_r.
Qed.

(** ** The bit tests *)
Lemma octet_mask_40 b : (Z.land (b2z b) 0xc0 =? 0x40) = (b2z b / 64 =? 1).
Proof. by destruct b. Qed.

Lemma testbit_byte x y n : 0 ≤ y < 256 → 0 ≤ n →
  Z.testbit (256 * x + y) n = if n <? 8 then Z.testbit y n else Z.testbit x (n - 8).
Proof.
  intros Hy Hn. destruct (Z.ltb_spec n 8).
  - rewrite <- (Z.mod_pow2_bits_low _ 8), <- (Z.mod_pow2_bits_low y 8) by lia. f_equal.
    change (2 ^ 8) with 256. rewrite (Z.mul_comm 256), Z.add_comm, Z.mod_add by lia. done.
  - replace n with (n - 8 + 8) at 1 by lia. rewrite <- Z.div_pow2_bits by lia. f_equal.
    change (2 ^ 8) with 256. rewrite (Z.mul_comm 256), Z.div_add_l, Z.div_small by lia. lia.
Qed.

Lemma land_bytes a b k j : 0 ≤ b < 256 → 0 ≤ j < 256 →
  Z.land (256 * a + b) (256 * k + j) = 256 * Z.land a k + Z.land b j.
Proof.
  intros Hb Hj. assert (0 ≤ Z.land b j < 256) as Hl.
  { assert (Z.land b j = Z.land b j mod 2 ^ 8) as ->; [|by apply Z.mod_pos_bound].
    rewrite <- Z.land_ones, <- Z.land_assoc, Z.land_ones by lia. by rewrite (Z.mod_small j) by lia. }
  apply Z.bits_inj'. intros n Hn. rewrite Z.land_spec, !testbit_byte by done.
  destruct (n <? 8); by rewrite Z.land_spec.
Qed.

Lemma seg_unique_local a b : (Z.land (256 * b2z a + b2z b) 0xfe00 =? 0xfc00) = (b2z a / 2 =? 126).
Proof.
  change 0xfe00 with (256 * 254 + 0). pose proof (b2z_range b). rewrite land_bytes by lia. rewrite Z.land_0_r.
  assert (Z.land (b2z a) 254 = 2 * (b2z a / 2)) as -> by (by destruct a).
  destruct (Z.eqb_spec (256 * (2 * (b2z a / 2)) + 0) 0xfc00), (Z.eqb_spec (b2z a / 2) 126); lia || done.
Qed.

Lemma seg_link_local a b :
  (Z.land (256 * b2z a + b2z b) 0xffc0 =? 0xfe80) = (b2z a =? 254) && (b2z b / 64 =? 2).
Proof.
  change 0xffc0 with (256 * 255 + 192). pose proof (b2z_range b). rewrite land_bytes by lia.
  assert (Z.land (b2z a) 255 = b2z a) as -> by (by destruct a).
  assert (Z.land (b2z b) 192 = 64 * (b2z b / 64)) as -> by (by destruct b).
  assert (0 ≤ b2z b / 64 < 4) by (Z.to_euclidean_division_equations; lia).
  destruct (Z.eqb_spec (256 * b2z a + 64 * (b2z b / 64)) 0xfe80), (Z.eqb_spec (b2z a) 254),
    (Z.eqb_spec (b2z b / 64) 2); simpl; lia || done.
Qed.

(** ** Networks of the first octets *)
Lemma in_cidr4 a b c d net n : length net = 4%nat →
  in_cidr [a; b; c; d] (net, n) ↔
  (((b2z a * 256 + b2z b) * 256 + b2z c) * 256 + b2z d) / 2 ^ (32 - n) = be_val net / 2 ^ (32 - n).
Proof.
  intros _. unfold in_cidr. cbn [fst snd]. change (8 * zlen [a; b; c; d]) with 32.
  replace (be_val [a; b; c; d]) with (((b2z a * 256 + b2z b) * 256 + b2z c) * 256 + b2z d); [done|].
  unfold be_val. cbn [rev app le_val]. lia.
Qed.

(** [in_cidr] of four octets and a concrete network, as comparisons of octets. *)
Ltac cidr4 :=
  intros; rewrite in_cidr4 by done;
  repeat match goal with b : byte |- _ => lazymatch goal with
    | H : 0 ≤ b2z b < 256 |- _ => fail | _ => pose proof (b2z_range b) end end;
  match goal with |- context [be_val ?n / 2 ^ ?k] =>
    let v := eval vm_compute in (be_val n / 2 ^ k) in change (be_val n / 2 ^ k) with v;
    let m := eval vm_compute in (2 ^ k) in change (2 ^ k) with m end;
  Z.to_euclidean_division_equations; lia.

Lemma cidr_loopback a b c d : in_cidr [a; b; c; d] (ip4 127 0 0 0, 8) ↔ b2z a = 127.
Proof. cidr4. Qed.
Lemma cidr_private10 a b c d : in_cidr [a; b; c; d] (ip4 10 0 0 0, 8) ↔ b2z a = 10.
Proof. cidr4. Qed.
Lemma cidr_private172 a b c d : in_cidr [a; b; c; d] (ip4 172 16 0 0, 12) ↔ b2z a = 172 ∧ 16 ≤ b2z b ≤ 31.
Proof. cidr4. Qed.
Lemma cidr_private192 a b c d : in_cidr [a; b; c; d] (ip4 192 168 0 0, 16) ↔ b2z a = 192 ∧ b2z b = 168.
Proof. cidr4. Qed.
Lemma cidr_link_local a b c d : in_cidr [a; b; c; d] (ip4 169 254 0 0, 16) ↔ b2z a = 169 ∧ b2z b = 254.
Proof. cidr4. Qed.
Lemma cidr_multicast a b c d : in_cidr [a; b; c; d] (ip4 224 0 0 0, 4) ↔ 224 ≤ b2z a ≤ 239.
Proof. cidr4. Qed.
Lemma cidr_doc1 a b c d : in_cidr [a; b; c; d] (ip4 192 0 2 0, 24) ↔ b2z a = 192 ∧ b2z b = 0 ∧ b2z c = 2.
Proof. cidr4. Qed.
Lemma cidr_doc2 a b c d : in_cidr [a; b; c; d] (ip4 198 51 100 0, 24) ↔ b2z a = 198 ∧ b2z b = 51 ∧ b2z c = 100.
Proof. cidr4. Qed.
Lemma cidr_doc3 a b c d : in_cidr [a; b; c; d] (ip4 203 0 113 0, 24) ↔ b2z a = 203 ∧ b2z b = 0 ∧ b2z c = 113.
Proof. cidr4. Qed.
Lemma cidr_cgnat a b c d : in_cidr [a; b; c; d] (ip4 100 64 0 0, 10) ↔ b2z a = 100 ∧ b2z b / 64 = 1.
Proof. cidr4. Qed.
Lemma cidr_zero a b c d : in_cidr [a; b; c; d] (ip4 0 0 0 0, 32) ↔ [a; b; c; d] = replicate 4 x00.
Proof. change 32 with (8 * zlen [a; b; c; d]). by rewrite in_cidr_full. Qed.
Lemma cidr_broadcast a b c d : in_cidr [a; b; c; d] (ip4 255 255 255 255, 32) ↔ [a; b; c; d] = replicate 4 xff.
Proof. change 32 with (8 * zlen [a; b; c; d]). by rewrite in_cidr_full. Qed.

Lemma v4_blocked o : length o = 4%nat → v4_unsafe o = true ↔ Exists (in_cidr o) blocked_v4.
Proof.
  destruct o as [|a [|b [|c [|d [|]]]]]; try done. intros _. unfold blocked_v4. rewrite !Exists_cons, Exists_nil.
  rewrite cidr_loopback, cidr_private10, cidr_private172, cidr_private192, cidr_link_local, cidr_multicast,
    cidr_doc1, cidr_doc2, cidr_doc3, cidr_cgnat, cidr_zero, cidr_broadcast.
  unfold v4_unsafe, v4_is_loopback, v4_is_private, v4_is_link_local, v4_is_unspecified, v4_is_broadcast,
    v4_is_multicast, v4_is_documentation, octet. cbn [lookup list_lookup default from_option].
  unfold id. rewrite octet_mask_40, !orb_true_iff, !andb_true_iff, !Z.eqb_eq, !Z.leb_le, !bool_decide_eq_true.
  tauto.
Qed.

Lemma cidr_first x rest net zs n :
  length rest = length zs → 0 ≤ n ≤ 8 →
  in_cidr (x :: rest) (net :: zs, n) ↔ b2z x / 2 ^ (8 - n) = b2z net / 2 ^ (8 - n).
Proof.
  intros Hl Hn. change (x :: rest) with ([x] ++ rest). change (net :: zs) with ([net] ++ zs).
  rewrite in_cidr_rest; [by rewrite in_cidr_octet|done|done|]. change (zlen [x]) with 1. lia.
Qed.

Lemma cidr_second x y rest :
  length rest = 14%nat →
  in_cidr (x :: y :: rest) (xfe :: x80 :: replicate 14 x00, 10) ↔ b2z x = 254 ∧ b2z y / 64 = 2.
Proof.
  intros Hl. change (x :: y :: rest) with ([x] ++ y :: rest).
  change (xfe :: x80 :: replicate 14 x00) with ([xfe] ++ x80 :: replicate 14 x00).
  change 10 with (8 * zlen [x] + 2). rewrite in_cidr_app; [|done|by simpl; rewrite Hl|].
  2: { rewrite zlen_cons. pose proof (zlen_nonneg rest). lia. }
  rewrite cidr_first; [|by rewrite Hl|lia]. change (b2z x80 / 2 ^ (8 - 2)) with 2. change (2 ^ (8 - 2)) with 64.
  split; intros [Hx Hy]; split; try done; [by injection Hx as ->|]. f_equal. by apply b2z_inj.
Qed.

(** The embedded IPv4 address of a mapped one, in the IPv4 networks. *)
Lemma cidr_mapped o : length o = 16%nat →
  Exists (in_cidr o) ((fun n => (mapped_prefix ++ n.1, 96 + n.2)) <$> blocked_v4) ↔
  ∃ m, to_ipv4_mapped o = Some m ∧ Exists (in_cidr m) blocked_v4.
Proof.
  intros Hl. unfold to_ipv4_mapped.
  assert (o = ztake 12 o ++ zdrop 12 o) as Ho by (unfold ztake, zdrop; by rewrite take_drop).
  assert (length (ztake 12 o) = 12%nat) as H12 by (unfold ztake; rewrite length_take; change (Z.to_nat 12) with 12%nat; lia).
  assert (length (zdrop 12 o) = 4%nat) as H4 by (unfold zdrop; rewrite length_drop; change (Z.to_nat 12) with 12%nat; lia).
  assert (∀ n, n ∈ blocked_v4 →
    in_cidr o (mapped_prefix ++ n.1, 96 + n.2) ↔ ztake 12 o = mapped_prefix ∧ in_cidr (zdrop 12 o) n) as Hn.
  { intros [net n] Hin. assert (length net = 4%nat ∧ 0 ≤ n ≤ 32) as [Hnet Hb].
    { assert (Forall (fun n : list byte * Z => length n.1 = 4%nat ∧ 0 ≤ n.2 ≤ 32) blocked_v4) as Hf
        by (unfold blocked_v4; repeat (constructor; [simpl; lia|]); constructor).
      rewrite list.Forall_forall in Hf. by apply Hf in Hin. }
    rewrite Ho at 1. cbn [fst snd].
    replace 96 with (8 * zlen (ztake 12 o)) by (unfold zlen; rewrite H12; done).
    apply in_cidr_app; [by rewrite H12|by rewrite H4|]. unfold zlen. rewrite H4. lia. }
  rewrite !list.Exists_exists. split.
  - intros (x & Hx & Hc). apply list_elem_of_fmap in Hx as (n & -> & Hin). apply (Hn n Hin) in Hc as [Hp Hc].
    exists (zdrop 12 o). rewrite decide_True by done. split; [done|]. apply list.Exists_exists. eauto.
  - intros (m & Hm & Hc). case_decide as Hp; [|done]. injection Hm as <-. apply list.Exists_exists in Hc as (n & Hin & Hc).
    exists (mapped_prefix ++ n.1, 96 + n.2). split; [apply list_elem_of_fmap; by exists n|]. by apply (Hn n Hin).
Qed.

Lemma v6_blocked o : length o = 16%nat → v6_unsafe o = true ↔ Exists (in_cidr o) blocked_v6.
Proof.
  intros Hl. unfold blocked_v6. rewrite Exists_app, cidr_mapped by done. rewrite !Exists_cons, Exists_nil.
  assert (8 * zlen o = 128) as Hz by (unfold zlen; rewrite Hl; done).
  rewrite <- Hz. rewrite !in_cidr_full by done. clear Hz.
  assert (match to_ipv4_mapped o with Some m => v4_unsafe m | None => false end = true ↔
          ∃ m, to_ipv4_mapped o = Some m ∧ Exists (in_cidr m) blocked_v4) as Hmap.
  { destruct (to_ipv4_mapped o) as [m|] eqn:Em; [|split; [done|by intros (? & ? & _)]].
    rewrite v4_blocked; [naive_solver|]. unfold to_ipv4_mapped in Em. case_decide; [|done]. injection Em as <-.
    unfold zdrop. rewrite length_drop. change (Z.to_nat 12) with 12%nat. lia. }
  unfold v6_unsafe. rewrite !orb_true_iff, Hmap. unfold v6_is_loopback, v6_is_unspecified, v6_is_multicast.
  rewrite !bool_decide_eq_true. destruct o as [|x [|y rest]]; try done. injection Hl as Hl.
  rewrite !cidr_first by (simpl; rewrite ?Hl; done || lia). rewrite cidr_second by done.
  unfold segment, octet. cbn [lookup list_lookup default from_option Nat.mul Nat.add]. unfold id.
  rewrite seg_unique_local, seg_link_local, andb_true_iff, !Z.eqb_eq.
  change (2 ^ (8 - 8)) with 1. change (2 ^ (8 - 7)) with 2. rewrite !Z.div_1_r.
  change (b2z xff) with 255. change (b2z xfc / 2) with 126. tauto.
Qed.

(** The server refuses to dial exactly the addresses of the listed networks: IPv4
    loopback, private, link-local, shared, multicast, broadcast, documentation and
    unspecified addresses, IPv6 loopback, unspecified, multicast, unique-local and
    link-local ones, and IPv6 addresses that embed one of those IPv4 addresses. *)
Theorem reject_unsafe_ip_cidr a :
  ip_wf a → (blocked a → reject_unsafe_ip a = Err unsafe_host) ∧ (¬ blocked a → reject_unsafe_ip a = Ok tt).
Proof.
  intros Hwf. unfold reject_unsafe_ip, blocked. destruct a as [o|o]; simpl in Hwf.
  - rewrite <- v4_blocked by done. destruct (v4_unsafe o); naive_solver.
  - rewrite <- v6_blocked by done. destruct (v6_unsafe o); naive_solver.
Qed.

(** The IPv6 documentation network is not among them. *)
Lemma documentation_v6_dialled :
  reject_unsafe_ip (V6 (x20 :: x01 :: x0d :: xb8 :: replicate 11 x00 ++ [x01])) = Ok tt.
Proof. reflexivity. Qed.
