(* ===== verification/ShmBatch.v ===== *)
(** * Batches in shared memory

    [ShmSegment] of [vgi-rpc/src/shm.rs]: parsing IPC frames in place, writing a
    batch into an allocated slot, reading it back with the slot's release tied to
    the batch, and the pointer batches that travel on the pipe instead. The
    segment is its mapping; a writer into it is a cursor over the slot. *)

From S2P Require Import Prelude Bytes Metadata Errors ShmAllocator Ipc IpcWriter Arrow.

Definition IPC_EOS : list byte := [xff; xff; xff; xff; x00; x00; x00; x00].

(** Arrow's own stream writer and reader, of the dictionary path. *)
Class ArrowShm `{ArrowArrays} := {
  (** [IpcStreamWriter]: schema, the batch if any, and the end marker *)
  ipc_stream_writer : ArrowSchema → option RecordBatch → res RpcError (list byte);
  (** [IpcStreamReader::try_new(..)?.next()] *)
  ipc_stream_reader : list byte → res RpcError (option RecordBatch)
}.

Record IpcFrameRange := mkIpcFrameRange {
  metadata_start : Z;
  metadata_len : Z;
  body_start : Z;
  body_len : Z;
  next : Z
}.

Section Shm.
Context `{ArrowShm}.

(** The prefix of a frame: where the metadata starts and how long it is. *)
Definition frame_prefix (bytes : list byte) (start : Z) : res RpcError (Z * Z) :=
  first_end ← ok_or (ipc_error (bs "IPC frame prefix overflow")) (checked_add start 4);
  if zlen bytes <? first_end then Err (ipc_error (bs "truncated IPC frame prefix")) else
  first ← or_panic (slice bytes start first_end);
  if le_val first =? u32_max then
    length_end ← ok_or (ipc_error (bs "IPC metadata prefix overflow")) (checked_add first_end 4);
    if zlen bytes <? length_end then Err (ipc_error (bs "truncated IPC metadata prefix")) else
    length ← or_panic (slice bytes first_end length_end);
    Ok (length_end, le_val length)
  else Ok (first_end, le_val first).

Definition ipc_frame_range (bytes : list byte) (start max_metadata : Z)
  : res RpcError (option IpcFrameRange) :=
  '(mstart, mlen) ← frame_prefix bytes start;
  if mlen =? 0 then Ok None else
  if max_metadata <? mlen then Err (ipc_error (bs "IPC metadata length ")) else
  mend ← ok_or (ipc_error (bs "IPC metadata length overflow")) (checked_add mstart mlen);
  if zlen bytes <? mend then Err (ipc_error (bs "truncated IPC metadata")) else
  meta ← or_panic (slice bytes mstart mend);
  match root_as_message meta with
  | FbOk message =>
    if bodyLength message <? 0 then Err (ipc_error (bs "negative IPC message body length")) else
    let blen := bodyLength message in
    if MAX_IPC_MESSAGE_BYTES <? blen then Err (ipc_error (bs "IPC message body length ")) else
    nxt ← ok_or (ipc_error (bs "IPC message body range overflow")) (checked_add mend blen);
    if zlen bytes <? nxt then Err (ipc_error (bs "truncated IPC message body")) else
    Ok (Some (mkIpcFrameRange mstart mlen mend blen nxt))
  | _ => Err (ipc_error (bs "parsing SHM IPC message: "))
  end.

(** The parsed message of a frame: [root_as_message(&buffer[..])]. *)
Definition frame_message (bytes : list byte) (f : IpcFrameRange) (what : list byte)
  : res RpcError IpcMessage :=
  meta ← or_panic (slice bytes (metadata_start f) (metadata_start f + metadata_len f));
  match root_as_message meta with FbOk m => Ok m | _ => Err (ipc_error what) end.

Definition decode_non_dict_shm_stream (buffer : list byte) (schema : ArrowSchema)
  : res RpcError RecordBatch :=
  schema_frame ← ipc_frame_range buffer 0 MAX_IPC_SCHEMA_BYTES;
  schema_frame ← ok_or (ipc_error (bs "empty SHM IPC stream")) schema_frame;
  schema_message ← frame_message buffer schema_frame (bs "parsing SHM schema message: ");
  match header_type schema_message with
  | HSchema =>
    batch_frame ← ipc_frame_range buffer (next schema_frame) MAX_IPC_MESSAGE_BYTES;
    batch_frame ← ok_or (ipc_error (bs "SHM IPC stream has no record batch")) batch_frame;
    batch_message ← frame_message buffer batch_frame (bs "parsing SHM record-batch message: ");
    match header_type batch_message with
    | HRecordBatch =>
      if negb (header_present batch_message)
      then Err (ipc_error (bs "missing SHM RecordBatch header")) else
      _ ← validate_record_batch_buffers (rb_buffers batch_message) (body_len batch_frame);
      body ← or_panic (slice buffer (body_start batch_frame)
                             (body_start batch_frame + body_len batch_frame));
      decode_guard (bs "SHM record batch")
        (read_record_batch body batch_message schema no_dictionaries)
    | _ => Err (ipc_error (bs "expected SHM RecordBatch message, got "))
    end
  | _ => Err (ipc_error (bs "expected SHM Schema message, got "))
  end.

(** ** Dictionary batches: the stream without its schema and end marker *)
Definition skip_one_ipc_message (buf : list byte) : res RpcError Z :=
  if zlen buf <? 8 then Err (ipc_error (bs "IPC stream too short")) else
  head ← or_panic (slice buf 0 4);
  let pos := if decide (head = CONTINUATION_MARKER) then 4 else 0 in
  if zlen buf <? pos + 4 then Err (ipc_error (bs "IPC stream truncated")) else
  len ← or_panic (slice buf pos (pos + 4));
  let meta_len := le_val len in
  let pos := pos + 4 in
  if meta_len =? 0 then Err (ipc_error (bs "unexpected EOS while skipping schema")) else
  if zlen buf <? pos + meta_len then Err (ipc_error (bs "IPC metadata truncated")) else
  meta ← or_panic (slice buf pos (pos + meta_len));
  match root_as_message meta with
  | FbOk msg => uadd (pos + meta_len) (bodyLength msg mod 2 ^ 64)
  | _ => Err (ipc_error (bs "parse schema message: "))
  end.

Definition strip_trailing_eos (buf : list byte) : res RpcError (list byte) :=
  let n := zlen buf - zlen IPC_EOS in
  if zlen buf <? zlen IPC_EOS then Err (ipc_error (bs "stream missing trailing EOS marker")) else
  if decide (zdrop n buf = IPC_EOS) then Ok (ztake n buf)
  else Err (ipc_error (bs "stream missing trailing EOS marker")).

Definition serialize_for_shm (batch : RecordBatch) (schema : ArrowSchema)
  : res RpcError (list byte) :=
  buf ← ipc_stream_writer schema (Some batch);
  if negb (schema_has_dictionary schema) then Ok buf else
  after_schema ← skip_one_ipc_message buf;
  rest ← or_panic (slice buf after_schema (zlen buf));
  strip_trailing_eos rest.

(** [r.next().ok_or(..)??] on an [IpcStreamReader] over the bytes. *)
Definition read_first (bytes : list byte) : res RpcError RecordBatch :=
  o ← ipc_stream_reader bytes; ok_or (ipc_error (bs "empty SHM region")) o.

Definition deserialize_from_shm (region : list byte) (schema : ArrowSchema)
  : res RpcError RecordBatch :=
  if negb (schema_has_dictionary schema) then read_first region else
  schema_only ← ipc_stream_writer schema None;
  if zlen schema_only <? zlen IPC_EOS then Err (ipc_error (bs "schema-only stream too short")) else
  read_first (ztake (zlen schema_only - zlen IPC_EOS) schema_only ++ region ++ IPC_EOS).

(** ** [ShmSegment] *)
Definition segment_attach (s : OsShm) : res RpcError unit := ShmAllocator.attach s.
Definition segment_create (s : OsShm) : res RpcError OsShm :=
  s ← ShmAllocator.initialize s; _ ← ShmAllocator.attach s; Ok s.

(** The region check of [read_bytes] and [read_batch]. *)
Definition region_end (s : OsShm) (offset length : Z) : res RpcError Z :=
  end_ ← ok_or (RpcErr.value_error (bs "shm region overflow")) (checked_add offset length);
  if os_size s <? end_ then Err (RpcErr.value_error (bs "shm region ")) else Ok end_.

Definition read_bytes (s : OsShm) (offset length : Z) : res RpcError (list byte) :=
  end_ ← region_end s offset length;
  read_slice s offset end_.

(** The stream written into a slot of [reserve] bytes: the position the cursor
    reaches, and the cursor. The writer is dropped on every path. *)
Definition write_in_place (reserve : Z) (batch : RecordBatch) : res RpcError Z * sink :=
  match stream_writer_new (mkSink [] [] [] (Some reserve) (Ok tt)) (batch_schema batch) with
  | (Ok w, _) =>
    let '(r, w) := stream_writer_write w batch None in
    match r with
    | Ok _ => let '(r, w) := stream_writer_finish w in
              let k := sw_writer (stream_writer_drop w) in
              (_ ← r; Ok (zlen (sent k)), k)
    | Err e => (Err e, sw_writer (stream_writer_drop w))
    | Panic => (Panic, sw_writer (stream_writer_drop w))
    end
  | (Err e, k) => (Err e, k)
  | (Panic, k) => (Panic, k)
  end.

(** [let _ = self.allocator.free(offset)] *)
Definition free_ignored (s : OsShm) (offset : Z) : res RpcError OsShm :=
  match ShmAllocator.free s offset with Err _ => Ok s | r => r end.

(** [off.checked_add(size).filter(|e| *e <= self.shm.size)] *)
Definition slot_end (s : OsShm) (off size : Z) : option Z :=
  e ← checked_add off size; if e <=? os_size s then Some e else None.

Definition out_of_bounds : RpcError :=
  RpcErr.value_error (bs "shm allocator returned out-of-bounds offset").

(** Results of the write: the segment, and the slot, no fit, or an error. *)
Definition write_result := (OsShm * (RpcError + option (Z * Z)))%type.

Definition write_dictionary_batch (s : OsShm) (batch : RecordBatch) : res RpcError write_result :=
  match serialize_for_shm batch (batch_schema batch) with
  | Err e => Ok (s, inl e)
  | Panic => Panic
  | Ok bytes =>
    match align_ipc_allocation (zlen bytes) with
    | None => Ok (s, inl (RpcErr.value_error (bs "shm allocation size overflow")))
    | Some allocation_size =>
      '(s, o) ← ShmAllocator.allocate s allocation_size;
      match o with
      | None => Ok (s, inr None)
      | Some offset =>
        match slot_end s offset (zlen bytes) with
        | None => s ← free_ignored s offset; Ok (s, inl out_of_bounds)
        | Some _ => s ← write_slice s offset bytes; Ok (s, inr (Some (offset, zlen bytes)))
        end
      end
    end
  end.

(** The bytes asked for before the stream is written. *)
Definition reserve_bytes (s : OsShm) (batch : RecordBatch) : Z :=
  let body_estimate := saturating_mul (batch_memory_size batch) 2 in
  let reserve := saturating_add body_estimate 65536 in
  let max_region := saturating_sub (os_size s) HEADER_SIZE in
  match align_ipc_allocation reserve with
  | Some size => if size <=? max_region then size
                 else Z.land max_region (Z.lnot (ShmAllocator.IPC_ALIGNMENT - 1))
  | None => Z.land max_region (Z.lnot (ShmAllocator.IPC_ALIGNMENT - 1))
  end.

Definition does_not_fit (e : RpcError) : bool :=
  contains (bs "failed to write whole buffer") (message e) || contains (bs "write zero") (message e).

Definition allocate_and_write (s : OsShm) (batch : RecordBatch) : res RpcError write_result :=
  if schema_has_dictionary (batch_schema batch) then write_dictionary_batch s batch else
  let reserve := reserve_bytes s batch in
  if reserve =? 0 then Ok (s, inr None) else
  '(s, o) ← ShmAllocator.allocate s reserve;
  match o with
  | None => Ok (s, inr None)
  | Some offset =>
    match slot_end s offset reserve with
    | None => s ← free_ignored s offset; Ok (s, inl out_of_bounds)
    | Some _ =>
      let '(r, k) := write_in_place reserve batch in
      s ← write_slice s offset (sent k);
      match r with
      | Panic => Panic
      | Err e => s ← free_ignored s offset;
                 Ok (s, if does_not_fit e then inr None else inl e)
      | Ok actual =>
        match align_ipc_allocation actual with
        | None => Ok (s, inl (RpcErr.value_error (bs "shm allocation size overflow")))
        | Some allocation_size =>
          match ShmAllocator.shrink s offset allocation_size with
          | Ok s => Ok (s, inr (Some (offset, actual)))
          | Err e => Ok (s, inl e)
          | Panic => Panic
          end
        end
      end
    end
  end.

(** [ShmBatchAnchor::drop] *)
Definition anchor_drop (s : OsShm) (offset : Z) : res RpcError OsShm :=
  match ShmAllocator.attach s with
  | Ok _ => free_ignored s offset
  | Err _ => Ok s
  | Panic => Panic
  end.

(** [read_batch]: the batch and, on the zero-copy path, the offset its anchor
    will release; a batch that does not decode drops the anchor at once. *)
Definition read_batch (s : OsShm) (offset length : Z) (schema : ArrowSchema)
  : res RpcError (OsShm * (RpcError + RecordBatch * option Z)) :=
  match region_end s offset length with
  | Err e => Ok (s, inl e)
  | Panic => Panic
  | Ok end_ =>
    region ← read_slice s offset end_;
    if schema_has_dictionary schema then
      match deserialize_from_shm region schema with
      | Ok b => Ok (s, inr (b, None))
      | Err e => Ok (s, inl e)
      | Panic => Panic
      end
    else
      match decode_non_dict_shm_stream region schema with
      | Ok b => Ok (s, inr (b, Some offset))
      | Err e => s ← anchor_drop s offset; Ok (s, inl e)
      | Panic => Panic
      end
  end.

(** ** Pointer batches *)
Definition make_shm_pointer_batch (schema : ArrowSchema) (offset length : Z)
  : res RpcError (RecordBatch * Metadata) :=
  batch ← empty_batch schema;
  Ok (batch, <[SHM_LENGTH_KEY := dec_unsigned length]> (<[SHM_OFFSET_KEY := dec_unsigned offset]> ∅)).

Definition is_shm_pointer_batch (batch : RecordBatch) (md : Metadata) : bool :=
  if negb (num_rows batch =? 0) then false
  else bool_decide (is_Some (md !! SHM_OFFSET_KEY)) && negb (bool_decide (is_Some (md !! LOG_LEVEL_KEY))).

Record ResolvedShm := mkResolvedShm {
  resolved_batch : RecordBatch;
  resolved_metadata : Metadata;
  release_offset : option Z;
  (** the slot the zero-copy batch releases when it is dropped *)
  anchored : option Z
}.

(** [md.get(key).and_then(|s| s.parse().ok()).ok_or(..)] *)
Definition pointer_field (md : Metadata) (key what : list byte) : res RpcError Z :=
  ok_or (RpcErr.value_error what) (md !! key ≫= parse_unsigned u64_max).

Definition resolve_shm_batch (batch : RecordBatch) (md : Metadata) (shm : option OsShm)
  : res RpcError (option OsShm * (RpcError + ResolvedShm)) :=
  match shm with
  | None => Ok (None, inr (mkResolvedShm batch md None None))
  | Some s =>
    if negb (is_shm_pointer_batch batch md)
    then Ok (Some s, inr (mkResolvedShm batch md None None)) else
    match (offset ← pointer_field md SHM_OFFSET_KEY (bs "bad shm_offset");
           length ← pointer_field md SHM_LENGTH_KEY (bs "bad shm_length");
           Ok (offset, length)) with
    | Err e => Ok (Some s, inl e)
    | Panic => Panic
    | Ok (offset, length) =>
      let copied_dictionary_path := schema_has_dictionary (batch_schema batch) in
      '(s, r) ← read_batch s offset length (batch_schema batch);
      match r with
      | inl e => Ok (Some s, inl e)
      | inr (resolved, anchor) =>
        let new_md := <[SHM_SOURCE_KEY := os_name s]> (delete SHM_LENGTH_KEY (delete SHM_OFFSET_KEY md)) in
        Ok (Some s, inr (mkResolvedShm resolved new_md
                           (if copied_dictionary_path then Some offset else None) anchor))
      end
    end
  end.

(** The size gate: [VGI_RPC_SHM_MIN_BATCH_BYTES], or the default off Windows. *)
Definition shm_min_batch_bytes (env : option (list byte)) : Z :=
  default (128 * 1024) (env ≫= parse_unsigned usize_max).

Definition maybe_write_to_shm (env : option (list byte)) (batch : RecordBatch) (batch_md : Metadata)
    (shm : option OsShm) : res RpcError (option OsShm * (RpcError + RecordBatch * Metadata)) :=
  match shm with
  | None => Ok (None, inr (batch, batch_md))
  | Some s =>
    if num_rows batch =? 0 then Ok (Some s, inr (batch, batch_md)) else
    let batch_bytes := foldr Z.add 0 (array_memory_size <$> columns batch) in
    if batch_bytes <? shm_min_batch_bytes env then Ok (Some s, inr (batch, batch_md)) else
    '(s, r) ← allocate_and_write s batch;
    match r with
    | inl e => Ok (Some s, inl e)
    | inr None => Ok (Some s, inr (batch, batch_md))
    | inr (Some (offset, length)) =>
      match make_shm_pointer_batch (batch_schema batch) offset length with
      | Ok (pointer, pointer_md) => Ok (Some s, inr (pointer, pointer_md ∪ batch_md))
      | Err e => Ok (Some s, inl e)
      | Panic => Panic
      end
    end
  end.
End Shm.
