(* ===== verification/ShmBatchProps.v ===== *)
(** * Properties of batches in shared memory

    The in-place frame parser against the stream reader, what a batch write does
    to the allocation table, and the round trip of a batch through a pointer. *)

From S2P Require Import Prelude Bytes Metadata Errors ShmAllocator Ipc IpcProps IpcWriter IpcWriterProps Arrow ShmBatch.

Section Frames.
Context `{ArrowShm}.

(** ** The prefix *)
Lemma slice_zlen4 (bytes : list byte) a l : slice bytes a (a + 4) = Some l → length l = 4%nat.
Proof. intros E%zlen_slice. unfold zlen in E. lia. Qed.

Lemma marker_val l : length l = 4%nat → le_val l = u32_max ↔ l = CONTINUATION_MARKER.
Proof.
  intros Hl. split; [|by intros ->]. intros E. apply le_val_inj; [done|]. by rewrite E.
Qed.

(** The prefix as a reader sees it. *)
Lemma frame_prefix_inv bytes start ms ml :
  0 ≤ start → frame_prefix bytes start = Ok (ms, ml) →
  start < ms ≤ zlen bytes ∧ 0 ≤ ml ≤ u32_max ∧
  ∃ p, zdrop start bytes = p ++ zdrop ms bytes ∧
    ((∃ l, length l = 4%nat ∧ p = CONTINUATION_MARKER ++ l ∧ ml = le_val l) ∨
     (length p = 4%nat ∧ p ≠ CONTINUATION_MARKER ∧ ml = le_val p)).
Proof.
  intros Hst E. unfold frame_prefix in E. apply bind_Ok in E as (fe & Ef & E).
  apply ok_or_Ok, checked_add_Some in Ef as [-> _].
  destruct (Z.ltb_spec (zlen bytes) (start + 4)); [done|].
  apply bind_Ok in E as (first & Es & E). apply or_panic_Ok in Es.
  pose proof (slice_zlen4 _ _ _ Es) as Hl4. apply slice_Some in Es as (_ & _ & Ef).
  replace (start + 4 - start) with 4 in Ef by lia.
  assert (zdrop start bytes = first ++ zdrop (start + 4) bytes) as Hz.
  { rewrite Ef, <- (ztake_zdrop 4 (zdrop start bytes)) at 1. rewrite zdrop_zdrop by lia. done. }
  pose proof (le_val_range first) as Hr. unfold zlen in Hr at 1. rewrite Hl4 in Hr.
  destruct (Z.eqb_spec (le_val first) u32_max) as [Em|Em].
  - apply bind_Ok in E as (le & El & E). apply ok_or_Ok, checked_add_Some in El as [-> _].
    destruct (Z.ltb_spec (zlen bytes) (start + 4 + 4)); [done|].
    apply bind_Ok in E as (len & Es & E). apply or_panic_Ok in Es.
    pose proof (slice_zlen4 _ _ _ Es) as Hl4'. apply slice_Some in Es as (_ & _ & Eln).
    injection E as <- <-. replace (start + 4 + 4 - (start + 4)) with 4 in Eln by lia.
    pose proof (le_val_range len) as Hr'. unfold zlen in Hr' at 1. rewrite Hl4' in Hr'.
    split; [lia|]. split; [ints; simpl in Hr'; lia|].
    exists (first ++ len). split.
    + rewrite Hz, <- app_assoc. f_equal. rewrite Eln, <- (ztake_zdrop 4 (zdrop (start + 4) bytes)) at 1.
      rewrite zdrop_zdrop by lia. done.
    + left. exists len. apply marker_val in Em; [|done]. by rewrite Em.
  - injection E as <- <-. split; [lia|]. split; [ints; simpl in Hr; lia|].
    exists first. split; [done|]. right. split_and!; [done| |done]. intros ->. done.
Qed.

Lemma frame_prefix_no_panic bytes start : 0 ≤ start → no_panic (frame_prefix bytes start).
Proof.
  intros Hst. unfold frame_prefix. apply bind_no_panic; [apply ok_or_no_panic|].
  intros fe Ef%ok_or_Ok. apply checked_add_Some in Ef as [-> _].
  destruct (Z.ltb_spec (zlen bytes) (start + 4)); [done|].
  rewrite slice_ok by lia. cbn [or_panic mbind res_bind]. case_match; [|done].
  apply bind_no_panic; [apply ok_or_no_panic|].
  intros le El%ok_or_Ok. apply checked_add_Some in El as [-> _].
  destruct (Z.ltb_spec (zlen bytes) (start + 4 + 4)); [done|].
  by rewrite slice_ok by lia.
Qed.

(** ** A frame *)
Lemma ipc_frame_range_inv bytes start max f :
  0 ≤ start → ipc_frame_range bytes start max = Ok (Some f) →
  frame_prefix bytes start = Ok (metadata_start f, metadata_len f) ∧
  0 < metadata_len f ≤ max ∧ metadata_start f + metadata_len f = body_start f ∧
  body_start f + body_len f = next f ∧ next f ≤ zlen bytes ∧
  0 ≤ body_len f ≤ MAX_IPC_MESSAGE_BYTES ∧
  ∃ meta msg, slice bytes (metadata_start f) (body_start f) = Some meta ∧
              root_as_message meta = FbOk msg ∧ bodyLength msg = body_len f.
Proof.
  intros Hst E. unfold ipc_frame_range in E. apply bind_Ok in E as ([ms ml] & Ep & E).
  pose proof (frame_prefix_inv _ _ _ _ Hst Ep) as (Hms & Hml & _).
  destruct (Z.eqb_spec ml 0); [done|]. destruct (Z.ltb_spec max ml); [done|].
  apply bind_Ok in E as (me & Em & E). apply ok_or_Ok, checked_add_Some in Em as [-> _].
  destruct (Z.ltb_spec (zlen bytes) (ms + ml)); [done|].
  apply bind_Ok in E as (meta & Es & E). apply or_panic_Ok in Es.
  destruct (root_as_message meta) as [msg| |] eqn:Hm; [|done..].
  destruct (Z.ltb_spec (bodyLength msg) 0); [done|].
  destruct (Z.ltb_spec MAX_IPC_MESSAGE_BYTES (bodyLength msg)); [done|].
  apply bind_Ok in E as (nx & En & E). apply ok_or_Ok, checked_add_Some in En as [-> _].
  destruct (Z.ltb_spec (zlen bytes) (ms + ml + bodyLength msg)); [done|].
  injection E as <-. simpl. split_and!; try done; try lia. by exists meta, msg.
Qed.

Lemma ipc_frame_range_no_panic bytes start max :
  0 ≤ start → no_panic (ipc_frame_range bytes start max).
Proof.
  intros Hst. unfold ipc_frame_range. apply bind_no_panic; [by apply frame_prefix_no_panic|].
  intros [ms ml] Ep. pose proof (frame_prefix_inv _ _ _ _ Hst Ep) as (Hms & Hml & _).
  case_match; [done|]. case_match; [done|].
  apply bind_no_panic; [apply ok_or_no_panic|].
  intros me Em%ok_or_Ok. apply checked_add_Some in Em as [-> _].
  destruct (Z.ltb_spec (zlen bytes) (ms + ml)); [done|]. rewrite slice_ok by lia.
  cbn [or_panic mbind res_bind]. case_match; [|done..]. case_match; [done|]. case_match; [done|].
  apply bind_no_panic; [apply ok_or_no_panic|]. intros nx _. by case_match.
Qed.

Lemma slice_zdrop {A} (l k : list A) a b :
  slice l a b = Some k → zdrop a l = k ++ zdrop b l.
Proof.
  intros (Ha & Hb & ->)%slice_Some. rewrite <- (ztake_zdrop (b - a) (zdrop a l)) at 1.
  rewrite zdrop_zdrop by lia. do 2 f_equal. lia.
Qed.

Lemma ipc_frame_range_None bytes start max :
  0 ≤ start → ipc_frame_range bytes start max = Ok None →
  ∃ ms, frame_prefix bytes start = Ok (ms, 0).
Proof.
  intros Hst E. unfold ipc_frame_range in E. apply bind_Ok in E as ([ms ml] & Ep & E).
  destruct (Z.eqb_spec ml 0) as [->|]; [eauto|]. exfalso.
  case_match; [done|]. apply bind_Ok in E as (? & _ & E). case_match; [done|].
  apply bind_Ok in E as (? & _ & E). case_match; [|done..]. case_match; [done|].
  case_match; [done|]. apply bind_Ok in E as (? & _ & E). by case_match.
Qed.

(** Reading a prefix from a stream: what [read_message_bytes] hands on. *)
Lemma read_message_prefix r max bytes start ms ml :
  clean r → 0 ≤ start → content r = zdrop start bytes → frame_prefix bytes start = Ok (ms, ml) →
  ∃ sb r', read_message_bytes r max = read_sized sb r' max ∧ le_val sb = ml ∧
           clean r' ∧ content r' = zdrop ms bytes.
Proof.
  intros Hc Hst Hd Ep. apply frame_prefix_inv in Ep as (_ & _ & p & Ez & Hp); [|done].
  rewrite Ez in Hd. unfold read_message_bytes.
  destruct Hp as [(l & Hl & -> & ->) | (Hl & Hne & ->)].
  - rewrite <- app_assoc in Hd.
    destruct (read_exact_segment _ _ _ Hc Hd) as (r1 & E1 & Hc1 & Hd1).
    destruct (read_exact_segment _ _ _ Hc1 Hd1) as (r2 & E2 & Hc2 & Hd2).
    change (read_exact r 4) with (read_exact r (zlen CONTINUATION_MARKER)). rewrite E1.
    cbn [mbind res_bind]. rewrite decide_True by done.
    replace (zlen l) with 4 in E2 by (unfold zlen; lia). rewrite E2. cbn [mbind res_bind]. by eauto 10.
  - destruct (read_exact_segment _ _ _ Hc Hd) as (r1 & E1 & Hc1 & Hd1).
    replace (zlen p) with 4 in E1 by (unfold zlen; lia). rewrite E1. cbn [mbind res_bind].
    rewrite decide_False by done. cbn [mbind res_bind]. by eauto 10.
Qed.

(** The in-place parser of a shared-memory region agrees with the stream
    reader on the same bytes, from any offset and however the reader splits them:
    it never panics; a frame it finds lies inside the region and is the message
    the reader returns, byte for byte, with the reader left where the next frame
    starts; the end marker it finds is the reader's. *)
Theorem frame_range_refines_reader bytes start r :
  0 ≤ start → clean r → content r = zdrop start bytes →
  no_panic (ipc_frame_range bytes start MAX_IPC_MESSAGE_BYTES) ∧
  (∀ f, ipc_frame_range bytes start MAX_IPC_MESSAGE_BYTES = Ok (Some f) →
     start < metadata_start f ∧ body_start f = metadata_start f + metadata_len f ∧
     next f = body_start f + body_len f ∧ next f ≤ zlen bytes ∧
     ∃ meta body r', slice bytes (metadata_start f) (body_start f) = Some meta ∧
       slice bytes (body_start f) (next f) = Some body ∧
       read_message_bytes r MAX_IPC_MESSAGE_BYTES =
         Ok (Some (Message (mkRawMessage meta body false)), r') ∧
       content r' = zdrop (next f) bytes) ∧
  (ipc_frame_range bytes start MAX_IPC_MESSAGE_BYTES = Ok None →
     ∃ r', read_message_bytes r MAX_IPC_MESSAGE_BYTES = Ok (Some Eos, r')).
Proof.
  intros Hst Hc Hd. split; [by apply ipc_frame_range_no_panic|]. split.
  - intros f E. destruct (ipc_frame_range_inv _ _ _ _ Hst E)
      as (Ep & Hml & Hbs & Hnx & Hle & Hbl & meta & msg & Hs & Hm & Hb).
    pose proof (frame_prefix_inv _ _ _ _ Hst Ep) as (Hms & _).
    split_and!; [lia..|].
    assert (∃ b, slice bytes (body_start f) (next f) = Some b) as [b Hsb].
    { rewrite slice_ok by lia. eauto. }
    destruct (read_message_prefix r MAX_IPC_MESSAGE_BYTES _ _ _ _ Hc Hst Hd Ep)
      as (sb & r1 & Er & Hsv & Hc1 & Hd1).
    rewrite (slice_zdrop _ _ _ _ Hs), (slice_zdrop _ _ _ _ Hsb) in Hd1.
    apply zlen_slice in Hs as Hsl. apply zlen_slice in Hsb as Hsbl.
    destruct (read_sized_frame sb r1 meta b _ MAX_IPC_MESSAGE_BYTES msg Hc1 Hd1)
      as (r2 & Er2 & _ & Hd2); [lia|done|lia..|].
    exists meta, b, r2. rewrite Er. by split_and!.
  - intros E. destruct (ipc_frame_range_None _ _ _ Hst E) as [ms Ep].
    destruct (read_message_prefix r MAX_IPC_MESSAGE_BYTES _ _ _ _ Hc Hst Hd Ep)
      as (sb & r1 & Er & Hsv & _). exists r1. rewrite Er. unfold read_sized. by rewrite Hsv.
Qed.
End Frames.

(** ** Slots of the table *)
Lemma wf_unique total l (a b : alloc) : wf_table total l → a ∈ l → b ∈ l → a.1 = b.1 → a = b.
Proof.
  intros [Hs Hf] Ha Hb E. induction Hs as [|c l Hs IH Hc]; [by apply elem_of_nil in Ha|].
  rewrite list.Forall_forall in Hc. apply list.Forall_cons in Hf as [(_ & Hpos & _) Hf].
  unfold before in Hc.
  apply elem_of_cons in Ha as [->|Ha], Hb as [->|Hb]; [done| | |by auto].
  - apply Hc in Hb. lia.
  - apply Hc in Ha. lia.
Qed.

Lemma slot_entry total l' off n l :
  wf_table total l' → l' ≡ₚ (off, n) :: l →
  ∃ k, ShmAllocator.position off l' = Some k ∧ l' !! k = Some (off, n) ∧ delete k l' ≡ₚ l ∧
       ∀ m, <[k := (off, m)]> l' ≡ₚ (off, m) :: l.
Proof.
  intros Hwf Hp. assert ((off, n) ∈ l') as Hin by (rewrite Hp; left).
  destruct (ShmAllocator.position off l') as [k|] eqn:E.
  - exists k. pose proof E as [[m Hk] _]%position_Some.
    assert ((off, m) = (off, n)) as [= ->].
    { eapply wf_unique; [done|by eapply list_elem_of_lookup_2|done|done]. }
    pose proof (delete_Permutation l' k _ Hk) as Hd.
    assert (delete k l' ≡ₚ l) as Hdl.
    { apply (Permutation_cons_inv (a := (off, n))). by rewrite <- Hd. }
    split_and!; try done. intros m. rewrite <- Hdl.
    rewrite (insert_take_drop l' k) by (by eapply lookup_lt_Some).
    rewrite delete_take_drop. by rewrite Permutation_middle.
  - apply position_None in E. exfalso. apply E. apply list_elem_of_fmap. by exists (off, n).
Qed.

(** The same handle, and the regions of [l] hold the same bytes. *)
Definition kept (l : list alloc) (s s' : OsShm) : Prop :=
  (os_name s' = os_name s ∧ os_size s' = os_size s) ∧
  ∀ o n, (o, n) ∈ l → load s' o (Z.to_nat n) = load s o (Z.to_nat n).

Lemma kept_refl l s : kept l s s.
Proof. by split. Qed.

Lemma kept_trans l s t u : kept l s t → kept l t u → kept l s u.
Proof.
  intros [[N1 S1] H1] [[N2 S2] H2]. split; [split; congruence|].
  intros o n Hin. by rewrite H2, H1.
Qed.

Lemma header_only_kept s s' l : wf_table (os_size s) l → header_only s s' → kept l s s'.
Proof.
  intros Hwf Hh. split; [by destruct Hh as (? & ? & _)|].
  intros o n Hin. destruct (wf_in _ _ _ Hwf Hin) as (? & ? & ?); simpl in *.
  apply header_only_load; [done|lia|lia].
Qed.

(** A write into a fresh slot leaves the other slots alone. *)
Lemma slot_write s l' off n l data :
  alloc_inv s l' → l' ≡ₚ (off, n) :: l → zlen data ≤ n →
  ∃ s', write_slice s off data = Ok s' ∧ alloc_inv s' l' ∧ kept l s s' ∧
        load s' off (length data) = data.
Proof.
  intros Hinv Hp Hd. assert ((off, n) ∈ l') as Hin by (rewrite Hp; left).
  destruct (write_op_inv s l' off data Hinv) as (s' & E & Hinv' & ->); [eauto|].
  exists (store s off data). split; [done|]. split; [done|]. split; [|apply load_store_same].
  split; [done|]. intros o m Hom. pose proof (inv_wf _ _ Hinv) as Hwf.
  assert ((o, m) ∈ l') as Hin' by (rewrite Hp; by right).
  assert (o ≠ off) as Hne.
  { intros ->. pose proof (slot_entry _ _ _ _ _ Hwf Hp) as (k & Hk & Hlk & Hdl & _).
    pose proof Hk as [_ Hbf]%position_Some.
    apply (delete_unique _ _ _ _ _ Hwf Hlk Hbf). rewrite Hdl.
    apply list_elem_of_fmap. by exists (off, m). }
  destruct (wf_in _ _ _ Hwf Hin') as (? & ? & ?); simpl in *.
  destruct (wf_apart _ _ (off, n) (o, m) Hwf Hin Hin') as [Hb|Hb]; [simpl; congruence|..];
    unfold before in Hb; simpl in Hb; apply load_store_other; lia.
Qed.

Lemma slot_free s l' off n l :
  alloc_inv s l' → l' ≡ₚ (off, n) :: l →
  ∃ s' l2, ShmAllocator.free s off = Ok s' ∧ alloc_inv s' l2 ∧ l2 ≡ₚ l ∧ kept l s s'.
Proof.
  intros Hinv Hp. pose proof (inv_wf _ _ Hinv) as Hwf.
  destruct (slot_entry _ _ _ _ _ Hwf Hp) as (k & Hk & _ & Hdl & _).
  destruct (free_hit _ _ _ _ Hinv Hk) as (s' & E & Hinv' & Hh).
  exists s', (delete k l'). destruct (header_only_kept s s' l' Hwf Hh) as [Hns Hk'].
  split_and!; try done. split; [done|]. intros o m Hin. apply Hk'. rewrite Hp. by right.
Qed.

Lemma slot_shrink s l' off n l m :
  alloc_inv s l' → l' ≡ₚ (off, n) :: l → 0 < m ≤ n →
  ∃ s' l2, ShmAllocator.shrink s off m = Ok s' ∧ alloc_inv s' l2 ∧ l2 ≡ₚ (off, m) :: l ∧
           kept ((off, n) :: l) s s'.
Proof.
  intros Hinv Hp Hm. pose proof (inv_wf _ _ Hinv) as Hwf.
  destruct (slot_entry _ _ _ _ _ Hwf Hp) as (k & Hk & Hlk & _ & Hins).
  pose proof (shrink_hit _ _ _ _ _ m Hinv Hk Hlk ltac:(lia)) as Hsh.
  destruct (Z.ltb_spec n m); [lia|]. destruct Hsh as (s' & E & Hinv' & Hh).
  exists s', (<[k := (off, m)]> l'). destruct (header_only_kept s s' l' Hwf Hh) as [Hns Hk'].
  split_and!; try done. split; [done|]. intros o j Hin. apply Hk'. by rewrite Hp.
Qed.

(** ** Alignment *)
Lemma align_spec n m :
  align_ipc_allocation n = Some m → 0 ≤ n → n ≤ m < n + 64 ∧ m mod 64 = 0.
Proof.
  unfold align_ipc_allocation. intros E Hn.
  destruct (checked_add n _) as [p|] eqn:Ep; [|done]. apply checked_add_Some in Ep as [-> _].
  simpl in E. injection E as <-.
  change (Z.lnot (ShmAllocator.IPC_ALIGNMENT - 1)) with (Z.lnot (Z.ones 6)).
  rewrite <- Z.ldiff_land, Z.ldiff_ones_r, Z.shiftl_mul_pow2, Z.shiftr_div_pow2 by lia.
  change (2 ^ 6) with 64. unfold ShmAllocator.IPC_ALIGNMENT.
  pose proof (Z.div_mod (n + (64 - 1)) 64 ltac:(lia)).
  pose proof (Z.mod_pos_bound (n + (64 - 1)) 64 ltac:(lia)).
  split; [lia|]. by apply Z.mod_mul.
Qed.

Lemma mask_spec n :
  0 ≤ n → 0 ≤ Z.land n (Z.lnot (ShmAllocator.IPC_ALIGNMENT - 1)) ≤ n ∧
  Z.land n (Z.lnot (ShmAllocator.IPC_ALIGNMENT - 1)) mod 64 = 0.
Proof.
  intros Hn. change (Z.lnot (ShmAllocator.IPC_ALIGNMENT - 1)) with (Z.lnot (Z.ones 6)).
  rewrite <- Z.ldiff_land, Z.ldiff_ones_r, Z.shiftl_mul_pow2, Z.shiftr_div_pow2 by lia.
  change (2 ^ 6) with 64. pose proof (Z.div_mod n 64 ltac:(lia)).
  pose proof (Z.mod_pos_bound n 64 ltac:(lia)). pose proof (Z.div_pos n 64).
  split; [lia|]. by apply Z.mod_mul.
Qed.

(** Aligning up stays below an aligned bound. *)
Lemma align_le n m r :
  align_ipc_allocation n = Some m → 0 ≤ n ≤ r → r mod 64 = 0 → m ≤ r.
Proof.
  intros E Hn Hr. destruct (align_spec _ _ E) as [Hm Hmm]; [lia|].
  pose proof (Z.div_mod r 64 ltac:(lia)). pose proof (Z.div_mod m 64 ltac:(lia)). lia.
Qed.

(** ** A cursor never takes more than its slot *)
Definition roomy (k : sink) : Prop :=
  match room k with Some c => zlen (sent k) ≤ c | None => True end.
Definition grows (k k' : sink) : Prop :=
  (room k' = room k ∧ flush_result k' = flush_result k) ∧ (roomy k → roomy k').

Lemma grows_refl k : grows k k.
Proof. by split. Qed.

Lemma grows_trans k1 k2 k3 : grows k1 k2 → grows k2 k3 → grows k1 k3.
Proof. intros [[H1 F1] R1] [[H2 F2] R2]. split; [split; congruence|auto]. Qed.

Lemma inner_write_grows part k : grows k (inner_write part k).2.
Proof.
  unfold grows, roomy, inner_write. pose proof (zlen_nonneg part).
  assert (∀ n, 0 ≤ n ≤ zlen part → zlen (ztake n part) = n) by (intros; by apply zlen_ztake).
  destruct (script k) as [|[n| |e] ev]; simpl; (split; [done|]); try done;
    destruct (room k) as [c|]; try done; rewrite zlen_app;
    match goal with |- context [ztake ?n part] =>
      pose proof (zlen_ztake n part); assert (0 ≤ n ≤ zlen part) by lia end; lia.
Qed.

Lemma write_all_loop_grows fuel limit buf k : grows k (write_all_loop fuel limit buf k).2.
Proof.
  revert buf k. induction fuel as [|fuel IH]; intros buf k;
    (destruct buf as [|b buf]; [apply grows_refl|]); [apply grows_refl|].
  cbn [write_all_loop]. pose proof (inner_write_grows (chunked_write limit (b :: buf)) k) as Hg.
  destruct (inner_write _ k) as [[n| |e] k1]; simpl in Hg.
  - case_match; [done|]. by eapply grows_trans.
  - by eapply grows_trans.
  - done.
Qed.

Lemma write_each_grows limit bufs k : grows k (write_each limit bufs k).2.
Proof.
  revert k. induction bufs as [|b bufs IH]; intros k; [apply grows_refl|]. cbn [write_each].
  pose proof (write_all_loop_grows (length b + length (script k)) limit b k) as Hg.
  fold (write_all limit b k) in Hg. destruct (write_all limit b k) as [[[]|e|] k1]; simpl in Hg;
    [by eapply grows_trans|done..].
Qed.

Section Slots.
Context `{ArrowShm}.

Lemma put_message_grows e k : grows k (put_message e k).2.
Proof. unfold put_message. case_match; [apply write_each_grows|apply grows_refl..]. Qed.

Lemma put_messages_grows es k : grows k (put_messages es k).2.
Proof.
  revert k. induction es as [|e es IH]; intros k; [apply grows_refl|]. cbn [put_messages].
  pose proof (put_message_grows e k) as Hg. destruct (put_message e k) as [[[]|?|] k1]; simpl in Hg;
    [by eapply grows_trans|done..].
Qed.

Lemma direct_grows batch md limit k :
  grows k (write_single_large_binary_direct batch md limit k).2.
Proof.
  unfold write_single_large_binary_direct. destruct (direct_value batch) as [v|]; [|apply grows_refl].
  case_match; [apply grows_refl|]. destruct (checked_add _ _ ≫= _); [|apply grows_refl].
  case_match; [apply grows_refl|]. destruct (write_message _) as [parts|?|]; [|apply grows_refl..].
  pose proof (write_each_grows limit (parts ++ direct_body v) k) as Hg.
  by destruct (write_each _ _ k).
Qed.

Lemma stream_write_grows w batch md :
  grows (sw_writer w) (sw_writer (stream_writer_write w batch md).2).
Proof.
  unfold stream_writer_write. destruct (sw_finished w); [apply grows_refl|].
  pose proof (direct_grows batch md MAX_WRITE_CHUNK (sw_writer w)) as Hg.
  destruct (write_single_large_binary_direct _ _ _ _) as [[[]|?|] k]; simpl in Hg; try done.
  destruct (encode_batch batch (dict_tracker w)) as [[[ds data] tr]|?|]; try done.
  pose proof (put_messages_grows ds k) as Hg2. destruct (put_messages ds k) as [[[]|?|] k1];
    simpl in Hg2; try by eapply grows_trans.
  pose proof (grows_trans _ _ _ Hg Hg2) as Hg3.
  destruct (match non_empty md with Some _ => _ | None => _ end) as [e|?|]; try done.
  pose proof (put_message_grows e k1) as Hg4. destruct (put_message e k1) as [r k2].
  by eapply grows_trans.
Qed.

Lemma stream_finish_grows w : grows (sw_writer w) (sw_writer (stream_writer_finish w).2).
Proof.
  unfold stream_writer_finish. destruct (sw_finished w); [apply grows_refl|].
  pose proof (write_each_grows MAX_WRITE_CHUNK [CONTINUATION_MARKER; [x00; x00; x00; x00]] (sw_writer w)) as Hg.
  destruct (write_each _ _ _) as [r k]. by destruct (_ ← r; _).
Qed.

Lemma write_in_place_room reserve batch :
  0 ≤ reserve → zlen (sent (write_in_place reserve batch).2) ≤ reserve.
Proof.
  intros Hr. set (k0 := mkSink [] [] [] (Some reserve) (Ok tt)).
  assert (∀ k, grows k0 k → zlen (sent k) ≤ reserve) as Hk.
  { intros k [[Hrm _] Hro]. unfold roomy in Hro. rewrite Hrm in Hro. apply Hro. done. }
  apply Hk. unfold write_in_place. fold k0. unfold stream_writer_new.
  destruct (schema_to_bytes _ _) as [e tr]. pose proof (put_message_grows e k0) as Hg.
  destruct (put_message e k0) as [[[]|?|] k1]; try done. cbn [mbind res_bind].
  pose proof (stream_write_grows (mkStreamWriter k1 (batch_schema batch) tr false) batch None) as Hg1.
  destruct (stream_writer_write _ _ _) as [r w1]. simpl in Hg, Hg1.
  pose proof (grows_trans _ _ _ Hg Hg1) as Hg2. unfold stream_writer_drop.
  pose proof (stream_finish_grows w1) as Hg3. pose proof (grows_trans _ _ _ Hg2 Hg3) as Hg4.
  destruct r as [[]|?|]; [|done..]. destruct (stream_writer_finish w1) as [r w2]. simpl in Hg3, Hg4.
  eapply grows_trans; [exact Hg4|]. apply stream_finish_grows.
Qed.

(** A stream written in place is the stream written to a vector. *)
Lemma write_in_place_ok reserve batch n k :
  write_in_place reserve batch = (Ok n, k) →
  n = zlen (sent k) ∧
  write_one_batch_as (mkSink [] [] [] (Some reserve) (Ok tt)) batch (batch_schema batch) None = Ok (sent k).
Proof.
  unfold write_in_place, write_one_batch_as. intros E.
  destruct (stream_writer_new _ _) as [[w|?|] k0]; [|done..]. cbn [fst mbind res_bind].
  destruct (stream_writer_write w batch None) as [[[]|?|] w1]; [|done..]. cbn [mbind res_bind].
  destruct (stream_writer_finish w1) as [[[]|?|] w2]; cbn [mbind res_bind] in E; [|done..].
  injection E as <- <-. done.
Qed.
End Slots.

(** ** Offsets and lengths are never negative, whatever the header holds *)
Definition entry_nonneg (e : Z * Z) : Prop := 0 ≤ e.1 ∧ 0 ≤ e.2.

Lemma read_entries_nonneg s i n l : ShmAllocator.read_entries s i n = Ok l → Forall entry_nonneg l.
Proof.
  revert i l. induction n as [|n IH]; intros i l E; cbn [ShmAllocator.read_entries] in E; inv_res; [constructor|].
  constructor; [|by eapply IH]. split; apply le_val_range.
Qed.

Lemma sort_nonneg l : Forall entry_nonneg l → Forall entry_nonneg (ShmAllocator.sort_by_offset l).
Proof.
  assert (∀ a l, entry_nonneg a → Forall entry_nonneg l → Forall entry_nonneg (ShmAllocator.insert_by_offset a l)) as Hi.
  { intros a k Ha Hk. induction Hk as [|b k Hb Hk IH]; simpl; [by constructor|]. case_match; [by constructor; [|constructor]|by constructor]. }
  induction 1 as [|a l Ha Hl IH]; simpl; [constructor|]. by apply Hi.
Qed.

Lemma first_fit_nonneg size de pe i l :
  Forall entry_nonneg l → 0 ≤ pe →
  match ShmAllocator.first_fit size de pe i l with inl (_, p) => 0 ≤ p | inr p => 0 ≤ p end.
Proof.
  intros Hl. revert pe i. induction Hl as [|[off len] l [Ho Hn] Hl IH]; intros pe i Hp; cbn [ShmAllocator.first_fit]; [done|].
  simpl in *. assert (0 ≤ saturating_add off len) by (unfold saturating_add; ints; lia).
  destruct (off <? pe); [apply IH; lia|]. destruct (_ && _); [done|]. by apply IH.
Qed.

Lemma allocate_nonneg s size s' off : ShmAllocator.allocate s size = Ok (s', Some off) → 0 ≤ off.
Proof.
  unfold ShmAllocator.allocate. intros E. destruct (size =? 0); [done|]. apply bind_Ok in E as (l & Hl & E).
  unfold ShmAllocator.read_allocs in Hl. apply bind_Ok in Hl as (b & _ & Hl). apply read_entries_nonneg in Hl.
  destruct (_ <=? zlen l); [done|].
  pose proof (first_fit_nonneg size (os_size s) HEADER_SIZE 0 _ (sort_nonneg _ Hl) ltac:(done)) as Hg.
  destruct (ShmAllocator.first_fit _ _ _ _ _) as [[i p]|p].
  - apply bind_Ok in E as (s1 & _ & E). by injection E as <- <-.
  - destruct (_ <=? p); [done|]. destruct (size <=? _); [|done]. apply bind_Ok in E as (s1 & _ & E). by injection E as <- <-.
Qed.

Lemma allocate_and_write_nonneg `{ArrowShm} s b s' off len :
  allocate_and_write s b = Ok (s', inr (Some (off, len))) → 0 ≤ off ∧ 0 ≤ len.
Proof.
  unfold allocate_and_write, write_dictionary_batch. destruct (schema_has_dictionary _).
  - destruct (serialize_for_shm _ _) as [bytes|?|]; [|done..]. destruct (align_ipc_allocation _); [|done].
    intros E. apply bind_Ok in E as ([s1 [o|]] & Ha & E); [|done]. apply allocate_nonneg in Ha.
    destruct (slot_end _ _ _); inv_res; split; done || apply zlen_nonneg.
  - destruct (_ =? 0); [done|]. intros E. apply bind_Ok in E as ([s1 [o|]] & Ha & E); [|done]. apply allocate_nonneg in Ha.
    destruct (slot_end _ _ _); [|inv_res; done].
    destruct (write_in_place _ _) as [[n|e|] k] eqn:Ew; apply bind_Ok in E as (s2 & _ & E); [| |done].
    + destruct (align_ipc_allocation _); [|done]. destruct (ShmAllocator.shrink _ _ _) as [s3|?|]; [|done..].
      injection E as <- <- <-. split; [done|].
      unfold write_in_place in Ew. repeat case_match; simplify_eq; inv_res; apply zlen_nonneg.
    + apply bind_Ok in E as (s3 & _ & E). by case_match.
Qed.

(** ** The contract of arrow's own stream codec and of its batches *)
Class ArrowShmLaws `{AS : ArrowShm} {LW : ArrowIpcWriterLaws} {LA : ArrowArraysLaws} := {
  encode_no_panic : ∀ b t, no_panic (encode_batch b t);
  write_message_no_panic : ∀ e, no_panic (write_message e);
  stream_writer_no_panic : ∀ s o, no_panic (ipc_stream_writer s o);
  (** a schema without dictionaries encodes without dictionary messages *)
  encode_no_dictionaries : ∀ s b t ds e t', schema_has_dictionary s = false → fits s b →
    encode_batch b t = Ok (ds, e, t') → ds = [];
  (** a stream is the schema message, the rest, and the end marker *)
  schema_message : ArrowSchema → list byte;
  schema_message_spec : ∀ s, ∃ msg, root_as_message (schema_message s) = FbOk msg ∧
    bodyLength msg = 0 ∧ 0 < zlen (schema_message s) ≤ u32_max;
  stream_format : ∀ s o l, ipc_stream_writer s o = Ok l →
    ∃ rest, l = wire_frame (schema_message s) [] ++ rest ++ wire_eos ∧ (o = None → rest = []);
  stream_roundtrip : ∀ s b l, fits s b → ipc_stream_writer s (Some b) = Ok l →
    ipc_stream_reader l = Ok (Some b) ∧ is_ok (ipc_stream_writer s None) = true
}.

Section Batches.
Context `{ArrowShmLaws}.

(** ** Writing never panics *)
Lemma write_each_no_panic limit bufs k : 0 < limit → no_panic (write_each limit bufs k).1.
Proof. intros Hl. by destruct (write_each_spec limit bufs k Hl) as (? & _). Qed.

Lemma put_message_no_panic e k : no_panic (put_message e k).1.
Proof.
  unfold put_message. pose proof (write_message_no_panic e) as Hn.
  destruct (write_message e); [by apply write_each_no_panic|done..].
Qed.

Lemma put_messages_no_panic es k : no_panic (put_messages es k).1.
Proof.
  revert k. induction es as [|e es IH]; intros k; [done|]. cbn [put_messages].
  pose proof (put_message_no_panic e k) as Hn. destruct (put_message e k) as [[[]|?|] k1]; done || apply IH.
Qed.

Lemma repack_no_panic m md : no_panic (repack_record_batch_message_with_metadata m md).
Proof.
  unfold repack_record_batch_message_with_metadata. destruct (root_as_message m) as [msg| |]; [|done..].
  destruct (header_type msg); try done. destruct (header_present msg); [|done]. cbn [negb].
  destruct (rb_nodes msg), (rb_buffers msg); done.
Qed.

Lemma stream_write_no_panic w batch md : no_panic (stream_writer_write w batch md).1.
Proof.
  unfold stream_writer_write. destruct (sw_finished w); [done|].
  assert (no_panic (write_single_large_binary_direct batch md MAX_WRITE_CHUNK (sw_writer w)).1) as Hd.
  { unfold write_single_large_binary_direct. destruct (direct_value batch) as [v|]; [|done].
    case_match; [done|]. destruct (checked_add _ _ ≫= _); [|done]. case_match; [done|].
    match goal with |- context [write_message ?e] => pose proof (write_message_no_panic e) as Hn;
      destruct (write_message e) as [parts|?|]; [|done..] end.
    pose proof (write_each_no_panic MAX_WRITE_CHUNK (parts ++ direct_body v) (sw_writer w) ltac:(by vm_compute)) as Hw.
    by destruct (write_each _ _ _) as [[]]. }
  destruct (write_single_large_binary_direct _ _ _ _) as [[[]|?|] k]; try done.
  pose proof (encode_no_panic batch (dict_tracker w)) as Hn.
  destruct (encode_batch batch (dict_tracker w)) as [[[ds data] tr]|?|]; try done.
  pose proof (put_messages_no_panic ds k) as Hp. destruct (put_messages ds k) as [[[]|?|] k1]; try done.
  destruct (non_empty md) as [m|].
  - pose proof (repack_no_panic (ipc_message data) m) as Hr.
    destruct (repack_record_batch_message_with_metadata _ _) as [m2|?|]; [|done..]. cbn [mbind res_bind].
    pose proof (put_message_no_panic (mkEncodedData m2 (arrow_data data)) k1) as Hq. by destruct (put_message _ k1).
  - pose proof (put_message_no_panic data k1) as Hq. by destruct (put_message data k1).
Qed.

Lemma stream_write_finished w batch md :
  sw_finished (stream_writer_write w batch md).2 = sw_finished w.
Proof.
  unfold stream_writer_write. destruct (sw_finished w) eqn:E; [done|].
  destruct (write_single_large_binary_direct _ _ _ _) as [[[]|?|] k]; try done.
  destruct (encode_batch batch (dict_tracker w)) as [[[ds data] tr]|?|]; try done.
  destruct (put_messages ds k) as [[[]|?|] k1]; try done.
  destruct (match non_empty md with Some _ => _ | None => _ end); try done.
  by destruct (put_message _ k1).
Qed.

Lemma stream_finish_no_panic w :
  flush_result (sw_writer w) = Ok tt → no_panic (stream_writer_finish w).1.
Proof.
  intros Hf. unfold stream_writer_finish. destruct (sw_finished w); [done|].
  set (bufs := [CONTINUATION_MARKER; [x00; x00; x00; x00]]).
  pose proof (write_each_no_panic MAX_WRITE_CHUNK bufs (sw_writer w) ltac:(by vm_compute)) as Hn.
  pose proof (write_each_grows MAX_WRITE_CHUNK bufs (sw_writer w)) as [[_ Hfl] _].
  destruct (write_each _ _ _) as [[[]|?|] k]; try done. cbn [mbind res_bind].
  simpl in Hfl. by rewrite Hfl, Hf.
Qed.

Lemma write_in_place_no_panic reserve batch : no_panic (write_in_place reserve batch).1.
Proof.
  unfold write_in_place, stream_writer_new. set (k0 := mkSink [] [] [] (Some reserve) (Ok tt)).
  destruct (schema_to_bytes _ _) as [e tr]. pose proof (put_message_no_panic e k0) as Hn.
  pose proof (put_message_grows e k0) as Hg.
  destruct (put_message e k0) as [[[]|?|] k1]; try done. cbn [mbind res_bind].
  set (w0 := mkStreamWriter k1 (batch_schema batch) tr false).
  pose proof (stream_write_no_panic w0 batch None) as Hn1. pose proof (stream_write_grows w0 batch None) as Hg1.
  destruct (stream_writer_write w0 batch None) as [[[]|?|] w1]; try done. simpl in Hg, Hg1.
  pose proof (stream_finish_no_panic w1) as Hn2.
  destruct (stream_writer_finish w1) as [[[]|?|] w2]; try done. exfalso. apply Hn2; [|done].
  destruct Hg as [[_ Hf] _], Hg1 as [[_ Hf1] _]. by rewrite Hf1, Hf.
Qed.

Lemma write_one_batch_nonempty k batch s md bytes :
  write_one_batch_as k batch s md = Ok bytes → 0 < zlen bytes.
Proof.
  unfold write_one_batch_as. intros E. apply bind_Ok in E as (w & Ew & E).
  apply stream_writer_new_ok in Ew as (_ & Hf & _).
  pose proof (stream_write_finished w batch md) as Hf1.
  destruct (stream_writer_write w batch md) as [r1 w1]. apply bind_Ok in E as ([] & -> & E).
  destruct (stream_writer_finish w1) as [r2 w2] eqn:E2. apply bind_Ok in E as ([] & -> & E).
  apply stream_writer_finish_ok in E2 as [Es2 Hd]; [|by rewrite <- Hf]. injection E as <-.
  rewrite Hd, Es2, zlen_app. pose proof (zlen_nonneg (sent (sw_writer w1))).
  assert (zlen wire_eos = 8) by done. lia.
Qed.

(** ** Writing a batch *)

(** The bytes the slot of a written batch holds. *)
Definition slot_stream (s : OsShm) (batch : RecordBatch) (bytes : list byte) : Prop :=
  if schema_has_dictionary (batch_schema batch)
  then serialize_for_shm batch (batch_schema batch) = Ok bytes
  else write_one_batch_as (mkSink [] [] [] (Some (reserve_bytes s batch)) (Ok tt)) batch
         (batch_schema batch) None = Ok bytes.

Definition written (s : OsShm) (l : list alloc) (batch : RecordBatch) (r : write_result) : Prop :=
  let '(s', o) := r in
  kept l s s' ∧
  match o with
  | inr (Some (off, len)) =>
    ∃ n l' bytes, align_ipc_allocation len = Some n ∧ 0 < len ≤ n ∧
      alloc_inv s' l' ∧ l' ≡ₚ (off, n) :: l ∧
      slot_stream s batch bytes ∧ len = zlen bytes ∧ load s' off (length bytes) = bytes
  | _ => ∃ l', alloc_inv s' l' ∧ l' ≡ₚ l
  end.

Lemma kept_cons o n l s s' : kept ((o, n) :: l) s s' → kept l s s'.
Proof. intros [Hn Hk]. split; [done|]. intros o' n' Hin. apply Hk. by right. Qed.

Lemma reserve_spec s batch :
  HEADER_SIZE < os_size s ≤ i64_max →
  0 ≤ reserve_bytes s batch ≤ os_size s - HEADER_SIZE ∧ reserve_bytes s batch mod 64 = 0.
Proof.
  intros Hs. unfold reserve_bytes, saturating_sub. pose proof (memory_size_nonneg batch) as Hb.
  rewrite Z.max_l by lia. pose proof (mask_spec (os_size s - HEADER_SIZE) ltac:(lia)) as [Hm1 Hm2].
  destruct (align_ipc_allocation _) as [n|] eqn:E; [|lia].
  destruct (Z.leb_spec n (os_size s - HEADER_SIZE)); [|lia].
  apply align_spec in E as [Ha ?]; unfold saturating_add, saturating_mul in *; ints; lia.
Qed.

Lemma slot_end_ok s l off n m :
  alloc_inv s l → (off, n) ∈ l → 0 ≤ m ≤ n → slot_end s off m = Some (off + m).
Proof.
  intros Hinv Hin Hm. destruct (wf_in _ _ _ (inv_wf _ _ Hinv) Hin) as (? & ? & ?); simpl in *.
  destruct (inv_size _ _ Hinv) as [_ ?]. unfold slot_end, checked_add.
  destruct (Z.leb_spec (off + m) u64_max); [|ints; lia]. simpl.
  destruct (Z.leb_spec (off + m) (os_size s)); [done|lia].
Qed.

Lemma in_place_written s l batch :
  alloc_inv s l → schema_has_dictionary (batch_schema batch) = false →
  ∃ r, allocate_and_write s batch = Ok r ∧ written s l batch r.
Proof.
  intros Hinv Hd. unfold allocate_and_write, written, slot_stream. rewrite Hd. cbv zeta.
  pose proof (inv_size _ _ Hinv) as Hs. destruct (reserve_spec s batch Hs) as [Hr Hr64].
  pose proof (kept_refl l s). assert (HEADER_SIZE = 65536) as Hhs by done.
  set (reserve := reserve_bytes s batch) in *. clearbody reserve.
  destruct (Z.eqb_spec reserve 0) as [|Hr0]; [eexists; split; [done|]; split; [done|by exists l]|].
  destruct (allocate_keeps_inv s l reserve Hinv) as (s1 & o & l1 & Ea & Hinv1 & Hh1 & Ho); [ints; lia|].
  rewrite Ea. cbn [mbind res_bind]. pose proof (header_only_kept _ _ _ (inv_wf _ _ Hinv) Hh1) as Hk1.
  destruct o as [off|]; [|destruct Ho as [-> ->]; eexists; split; [done|]; split; [done|by exists l]].
  assert ((off, reserve) ∈ l1) as Hin by (rewrite Ho; left).
  rewrite (slot_end_ok s1 l1 off reserve reserve) by (done || lia).
  pose proof (write_in_place_room reserve batch ltac:(lia)) as Hroom.
  pose proof (write_in_place_no_panic reserve batch) as Hnp.
  destruct (write_in_place reserve batch) as [r k] eqn:Ew. simpl in Hroom, Hnp.
  destruct (slot_write s1 l1 off reserve l (sent k) Hinv1 Ho Hroom) as (s2 & -> & Hinv2 & Hk2 & Hld).
  cbn [mbind res_bind]. pose proof (kept_trans _ _ _ _ Hk1 Hk2) as Hk12.
  destruct r as [actual|e|]; [| |done].
  - destruct (write_in_place_ok _ _ _ _ Ew) as [-> Hwo].
    pose proof (write_one_batch_nonempty _ _ _ _ _ Hwo) as Hpos.
    assert (∃ n, align_ipc_allocation (zlen (sent k)) = Some n) as [n En].
    { unfold align_ipc_allocation, checked_add, ShmAllocator.IPC_ALIGNMENT.
      destruct (Z.leb_spec (zlen (sent k) + (64 - 1)) u64_max); [by eexists|].
      ints. lia. }
    rewrite En. pose proof (align_le _ _ reserve En ltac:(lia) Hr64) as Hle.
    destruct (align_spec _ _ En) as [Hn _]; [lia|].
    destruct (slot_shrink s2 l1 off reserve l n Hinv2 Ho ltac:(lia)) as (s3 & l3 & -> & Hinv3 & Hp3 & Hk3).
    eexists. split; [done|]. simpl. split; [eapply kept_trans; [done|by eapply kept_cons]|].
    exists n, l3, (sent k). split_and!; try done; try lia.
    destruct Hk3 as [_ Hk3]. specialize (Hk3 off reserve ltac:(left)).
    rewrite <- Hld at 2. apply (f_equal (take (length (sent k)))) in Hk3.
    replace (Z.to_nat reserve) with (length (sent k) + (Z.to_nat reserve - length (sent k)))%nat in Hk3
      by (unfold zlen in *; lia).
    rewrite !load_app, !take_app_le, !take_ge in Hk3 by (rewrite length_load; lia). done.
  - unfold free_ignored. destruct (slot_free s2 l1 off reserve l Hinv2 Ho) as (s3 & l3 & -> & Hinv3 & Hp3 & Hk3).
    cbn [mbind res_bind]. eexists. split; [done|]. split; [by eapply kept_trans|].
    destruct (does_not_fit e); by exists l3.
Qed.

(** ** The dictionary path *)
Lemma align_u64 n m : align_ipc_allocation n = Some m → 0 ≤ n → in_u64 m.
Proof.
  intros E Hn. pose proof (align_spec _ _ E Hn) as [Hm Hm64]. unfold align_ipc_allocation in E.
  destruct (checked_add n _) as [p|] eqn:Ep; [|done]. apply checked_add_Some in Ep as [_ Hp].
  unfold ShmAllocator.IPC_ALIGNMENT in Hp. unfold in_u64. lia.
Qed.

Lemma skip_schema_message s rest :
  skip_one_ipc_message (wire_frame (schema_message s) [] ++ rest) = Ok (8 + zlen (schema_message s)).
Proof.
  destruct (schema_message_spec s) as (msg & Hm & Hb & Hl). set (m := schema_message s) in *.
  unfold wire_frame. rewrite app_nil_r, <- !app_assoc. unfold skip_one_ipc_message.
  pose proof (zlen_le_bytes 4 (zlen m)) as L4. assert (zlen CONTINUATION_MARKER = 4) as LM by done.
  pose proof (zlen_nonneg rest). rewrite !zlen_app, L4, LM.
  destruct (Z.ltb_spec (4 + (Z.of_nat 4 + (zlen m + zlen rest))) 8); [lia|].
  rewrite slice_app_0 by done. cbn [or_panic mbind res_bind].
  rewrite decide_True by done. destruct (Z.ltb_spec (4 + (Z.of_nat 4 + (zlen m + zlen rest))) (4 + 4)); [lia|].
  rewrite (slice_app CONTINUATION_MARKER) by (rewrite ?L4, ?LM; lia). cbn [or_panic mbind res_bind].
  rewrite le_val_bytes_small by (ints; simpl; lia).
  destruct (Z.eqb_spec (zlen m) 0); [lia|].
  destruct (Z.ltb_spec (4 + (Z.of_nat 4 + (zlen m + zlen rest))) (4 + 4 + zlen m)); [lia|].
  rewrite (app_assoc CONTINUATION_MARKER).
  rewrite (slice_app (CONTINUATION_MARKER ++ le_bytes 4 (zlen m)) m) by (rewrite !zlen_app, L4, LM; lia).
  cbn [or_panic mbind res_bind]. rewrite Hm, Hb. unfold uadd. change (0 mod 2 ^ 64) with 0.
  destruct (Z.leb_spec (4 + 4 + zlen m + 0) u64_max); [f_equal; lia|ints; lia].
Qed.

Lemma strip_eos l : strip_trailing_eos (l ++ wire_eos) = Ok l.
Proof.
  unfold strip_trailing_eos. change IPC_EOS with wire_eos. rewrite zlen_app.
  pose proof (zlen_nonneg l). destruct (Z.ltb_spec (zlen l + zlen wire_eos) (zlen wire_eos)); [lia|].
  rewrite zdrop_app_eq, decide_True, ztake_app_eq by (done || lia). done.
Qed.

Lemma serialize_ok s batch l :
  schema_has_dictionary s = true → ipc_stream_writer s (Some batch) = Ok l →
  ∃ rest, serialize_for_shm batch s = Ok rest ∧
          l = wire_frame (schema_message s) [] ++ rest ++ wire_eos.
Proof.
  intros Hd El. destruct (stream_format _ _ _ El) as (rest & -> & _). exists rest. split; [|done].
  unfold serialize_for_shm. rewrite El. cbn [mbind res_bind]. rewrite Hd. cbn [negb].
  rewrite skip_schema_message. cbn [mbind res_bind].
  rewrite <- (app_nil_r (rest ++ wire_eos)). rewrite (slice_app _ (rest ++ wire_eos) []).
  - cbn [or_panic mbind res_bind]. apply strip_eos.
  - unfold wire_frame. rewrite app_nil_r, !zlen_app, zlen_le_bytes. assert (zlen CONTINUATION_MARKER = 4) by done. lia.
  - rewrite !zlen_app, ?zlen_nil. lia.
Qed.

Lemma serialize_no_panic s batch :
  schema_has_dictionary s = true → no_panic (serialize_for_shm batch s).
Proof.
  intros Hd. pose proof (stream_writer_no_panic s (Some batch)) as Hn.
  destruct (ipc_stream_writer s (Some batch)) as [l|e|] eqn:E; [| |done].
  - by destruct (serialize_ok _ _ _ Hd E) as (rest & -> & _).
  - unfold serialize_for_shm. by rewrite E.
Qed.

Lemma dictionary_written s l batch :
  alloc_inv s l → schema_has_dictionary (batch_schema batch) = true →
  ∃ r, allocate_and_write s batch = Ok r ∧ written s l batch r.
Proof.
  intros Hinv Hd. unfold allocate_and_write, write_dictionary_batch, written, slot_stream. rewrite Hd.
  pose proof (kept_refl l s). pose proof (serialize_no_panic _ batch Hd) as Hnp.
  destruct (serialize_for_shm batch (batch_schema batch)) as [bytes|e|]; [| |done].
  2: { eexists. split; [done|]. split; [done|by exists l]. }
  pose proof (zlen_nonneg bytes).
  destruct (align_ipc_allocation (zlen bytes)) as [n|] eqn:En.
  2: { eexists. split; [done|]. split; [done|by exists l]. }
  destruct (align_spec _ _ En) as [Hn Hn64]; [lia|].
  destruct (allocate_keeps_inv s l n Hinv) as (s1 & o & l1 & Ea & Hinv1 & Hh1 & Ho).
  { by eapply align_u64. }
  rewrite Ea. cbn [mbind res_bind]. pose proof (header_only_kept _ _ _ (inv_wf _ _ Hinv) Hh1) as Hk1.
  destruct o as [off|].
  2: { destruct Ho as [-> ->]. eexists. split; [done|]. split; [done|by exists l]. }
  assert ((off, n) ∈ l1) as Hin by (rewrite Ho; left).
  pose proof (wf_in _ _ _ (inv_wf _ _ Hinv1) Hin) as (_ & Hpos & _). simpl in Hpos.
  rewrite (slot_end_ok s1 l1 off n (zlen bytes)) by (done || lia).
  destruct (slot_write s1 l1 off n l bytes Hinv1 Ho) as (s2 & -> & Hinv2 & Hk2 & Hld); [lia|].
  cbn [mbind res_bind]. eexists. split; [done|]. split; [by eapply kept_trans|].
  exists n, l1, bytes. split_and!; try done; try lia.
  pose proof (Z.div_mod n 64 ltac:(lia)). lia.
Qed.

(** Writing a batch into a segment, on both paths and whatever the encoder
    does: it never panics and every other allocated region keeps its bytes. On
    success the table gains exactly the batch's slot, aligned, holding the whole
    stream; when the batch does not fit or an error is reported, the table is
    what it was, so no slot is leaked. *)
Theorem allocate_and_write_spec s l batch :
  alloc_inv s l →
  ∃ s' o, allocate_and_write s batch = Ok (s', o) ∧ kept l s s' ∧
    match o with
    | inr (Some (off, len)) =>
      ∃ n l' bytes, align_ipc_allocation len = Some n ∧ 0 < len ≤ n ∧
        alloc_inv s' l' ∧ l' ≡ₚ (off, n) :: l ∧
        slot_stream s batch bytes ∧ len = zlen bytes ∧ load s' off (length bytes) = bytes
    | _ => ∃ l', alloc_inv s' l' ∧ l' ≡ₚ l
    end.
Proof.
  intros Hinv. destruct (schema_has_dictionary (batch_schema batch)) eqn:Hd.
  - destruct (dictionary_written s l batch Hinv Hd) as ([s' o] & E & Hw). eauto.
  - destruct (in_place_written s l batch Hinv Hd) as ([s' o] & E & Hw). eauto.
Qed.

(** ** Reading a batch back *)
Lemma frame_prefix_wire (pre m c : list byte) :
  zlen pre + 8 ≤ u64_max → 0 ≤ zlen m ≤ u32_max →
  frame_prefix (pre ++ CONTINUATION_MARKER ++ le_bytes 4 (zlen m) ++ c) (zlen pre) =
    Ok (zlen pre + 8, zlen m).
Proof.
  intros Hu Hm. unfold frame_prefix. pose proof (zlen_le_bytes 4 (zlen m)) as L4.
  assert (zlen CONTINUATION_MARKER = 4) as LM by done. pose proof (zlen_nonneg c).
  unfold checked_add. destruct (Z.leb_spec (zlen pre + 4) u64_max); [|lia]. cbn [ok_or mbind res_bind].
  rewrite !zlen_app, L4, LM.
  destruct (Z.ltb_spec (zlen pre + (4 + (Z.of_nat 4 + zlen c))) (zlen pre + 4)); [lia|].
  rewrite slice_app by (rewrite ?LM; lia). cbn [or_panic mbind res_bind].
  change (le_val CONTINUATION_MARKER =? u32_max) with true. cbn iota.
  destruct (Z.leb_spec (zlen pre + 4 + 4) u64_max); [|lia]. cbn [ok_or mbind res_bind].
  destruct (Z.ltb_spec (zlen pre + (4 + (Z.of_nat 4 + zlen c))) (zlen pre + 4 + 4)); [lia|].
  rewrite app_assoc, slice_app by (rewrite ?zlen_app, ?L4, ?LM; lia). cbn [or_panic mbind res_bind].
  rewrite le_val_bytes_small by (ints; simpl; lia). do 2 f_equal. lia.
Qed.

Lemma ipc_frame_range_wire (pre m b post : list byte) max msg :
  zlen (pre ++ wire_frame m b ++ post) ≤ u64_max →
  root_as_message m = FbOk msg → bodyLength msg = zlen b → 0 < zlen m ≤ Z.min max u32_max →
  zlen b ≤ MAX_IPC_MESSAGE_BYTES →
  let f := mkIpcFrameRange (zlen pre + 8) (zlen m) (zlen pre + 8 + zlen m) (zlen b)
                           (zlen pre + 8 + zlen m + zlen b) in
  let bytes := pre ++ wire_frame m b ++ post in
  ipc_frame_range bytes (zlen pre) max = Ok (Some f) ∧
  slice bytes (metadata_start f) (metadata_start f + metadata_len f) = Some m ∧
  slice bytes (body_start f) (body_start f + body_len f) = Some b ∧
  next f = zlen (pre ++ wire_frame m b).
Proof.
  intros Hu Hm Hb Hml Hbl f bytes. pose proof (zlen_le_bytes 4 (zlen m)) as L4.
  assert (zlen CONTINUATION_MARKER = 4) as LM by done.
  pose proof (zlen_nonneg pre). pose proof (zlen_nonneg b). pose proof (zlen_nonneg post).
  assert (zlen bytes = zlen pre + 8 + zlen m + zlen b + zlen post) as Hz.
  { unfold bytes, wire_frame. rewrite !zlen_app, L4, LM. lia. }
  fold bytes in Hu. rewrite Hz in Hu.
  assert (slice bytes (zlen pre + 8) (zlen pre + 8 + zlen m) = Some m) as Hsm.
  { unfold bytes, wire_frame. rewrite <- !app_assoc, (app_assoc pre), (app_assoc (pre ++ _)).
    apply slice_app; rewrite !zlen_app, L4, LM; lia. }
  assert (slice bytes (zlen pre + 8 + zlen m) (zlen pre + 8 + zlen m + zlen b) = Some b) as Hsb.
  { unfold bytes, wire_frame. rewrite <- !app_assoc, (app_assoc pre), (app_assoc (pre ++ _)), (app_assoc (_ ++ _)).
    apply slice_app; rewrite !zlen_app, L4, LM; lia. }
  split_and!; [|done|done|].
  - assert (frame_prefix bytes (zlen pre) = Ok (zlen pre + 8, zlen m)) as Hfp.
    { unfold bytes, wire_frame. rewrite <- !app_assoc. apply frame_prefix_wire; lia. }
    unfold ipc_frame_range. rewrite Hfp.
    cbn [mbind res_bind]. destruct (Z.eqb_spec (zlen m) 0); [lia|].
    destruct (Z.ltb_spec max (zlen m)); [lia|].
    assert (∀ x y, x + y ≤ u64_max → checked_add x y = Some (x + y)) as Hca.
    { intros x y ?. unfold checked_add. destruct (Z.leb_spec (x + y) u64_max); [done|lia]. }
    rewrite Hca by lia. cbn [ok_or mbind res_bind]. rewrite Hz.
    destruct (Z.ltb_spec (zlen pre + 8 + zlen m + zlen b + zlen post) (zlen pre + 8 + zlen m)); [lia|].
    rewrite Hsm. cbn [or_panic mbind res_bind]. rewrite Hm, Hb.
    destruct (Z.ltb_spec (zlen b) 0); [lia|]. destruct (Z.ltb_spec MAX_IPC_MESSAGE_BYTES (zlen b)); [lia|].
    rewrite Hca by lia. cbn [ok_or mbind res_bind].
    destruct (Z.ltb_spec (zlen pre + 8 + zlen m + zlen b + zlen post) (zlen pre + 8 + zlen m + zlen b)); [lia|done].
  - unfold f, wire_frame. cbn [next]. rewrite !zlen_app, L4, LM. lia.
Qed.

Lemma decode_stream k batch s bytes :
  sent k = [] → fits s batch → schema_has_dictionary s = false → zlen bytes ≤ u32_max →
  zlen (ipc_message (schema_to_bytes s tracker_new).1) + 64 ≤ MAX_IPC_SCHEMA_BYTES →
  write_one_batch_as k batch s None = Ok bytes →
  decode_non_dict_shm_stream bytes s = Ok batch.
Proof.
  intros Hk Hfit Hd Hlen Hsz E.
  destruct (write_one_batch_bytes _ _ _ None _ Hk Hfit I E) as (mb0 & fs & mb & d & -> & Hf0 & Hfr).
  destruct Hfr as (ds & Hds & Hfs & Hdd & msg & Hm & Hty & Hpr & Hbl & Hml & Hv & Hrb & _).
  assert (ds = []) as ->.
  { destruct Hds as [?|(t & e & t' & Ee)]; [done|]. by eapply encode_no_dictionaries. }
  apply Forall2_nil_inv_l in Hfs as ->. simpl in Hdd. subst d. rewrite app_nil_l, wire_frames_one in *.
  destruct Hf0 as (Hb1 & Hb2 & Hb3 & Hb4).
  destruct (schema_encode_decode s) as (msg0 & Hm0 & Ha & Hty0 & Hpr0 & _ & Hbl0 & _).
  rewrite <- Hb2 in Hm0. rewrite Ha in Hb1.
  assert (zlen mb.2 ≤ u32_max) as Hb2l.
  { unfold wire_frame in Hlen. rewrite !zlen_app in Hlen. pose proof (zlen_nonneg mb0.1).
    pose proof (zlen_nonneg mb0.2). pose proof (zlen_nonneg mb.1). pose proof (zlen_nonneg wire_eos).
    rewrite !zlen_le_bytes in Hlen. assert (zlen CONTINUATION_MARKER = 4) by done. lia. }
  pose proof (ipc_frame_range_wire [] mb0.1 mb0.2 (wire_frame mb.1 mb.2 ++ wire_eos)
    MAX_IPC_SCHEMA_BYTES msg0) as Hs0. rewrite app_nil_l in Hs0.
  destruct Hs0 as (Ef0 & Hm1 & _ & Hn0);
    [ints; lia|done|by rewrite Hb1|lia|rewrite Hb1; by vm_compute|].
  pose proof (ipc_frame_range_wire (wire_frame mb0.1 mb0.2) mb.1 mb.2 wire_eos
    MAX_IPC_MESSAGE_BYTES msg) as (Ef1 & Hm2 & Hb & _);
    [ints; lia|done|done|unfold MAX_IPC_MESSAGE_BYTES; lia|done|].
  unfold decode_non_dict_shm_stream, frame_message. change 0 with (zlen (@nil byte)) at 1.
  rewrite Ef0. cbn [mbind res_bind ok_or]. rewrite Hm1. cbn [or_panic mbind res_bind].
  rewrite Hm0. cbn [mbind res_bind]. rewrite Hty0, Hn0, app_nil_l, Ef1. cbn [mbind res_bind ok_or].
  rewrite Hm2. cbn [or_panic mbind res_bind]. rewrite Hm. cbn [mbind res_bind]. rewrite Hty, Hpr.
  cbn [negb body_len body_start]. rewrite Hv. cbn [mbind res_bind].
  cbn [body_len body_start] in Hb. rewrite Hb. cbn [or_panic mbind res_bind]. by rewrite Hrb.
Qed.

Lemma deserialize_ok s batch bytes :
  schema_has_dictionary s = true → fits s batch → serialize_for_shm batch s = Ok bytes →
  deserialize_from_shm bytes s = Ok batch.
Proof.
  intros Hd Hfit E. assert (∃ l, ipc_stream_writer s (Some batch) = Ok l) as [l El].
  { unfold serialize_for_shm in E. apply bind_Ok in E as (l & El & _). eauto. }
  destruct (serialize_ok _ _ _ Hd El) as (rest & Er & ->).
  assert (rest = bytes) as -> by congruence.
  destruct (stream_roundtrip _ _ _ Hfit El) as [Hr Hn].
  destruct (ipc_stream_writer s None) as [l0|?|] eqn:E0; [|done..].
  destruct (stream_format _ _ _ E0) as (r0 & -> & Hnil). rewrite (Hnil eq_refl), app_nil_l in E0.
  unfold deserialize_from_shm. rewrite Hd, E0. cbn [negb mbind res_bind]. change IPC_EOS with wire_eos.
  set (pre := wire_frame (schema_message s) []) in *. pose proof (zlen_nonneg pre).
  rewrite zlen_app. destruct (Z.ltb_spec (zlen pre + zlen wire_eos) (zlen wire_eos)); [lia|].
  replace (zlen pre + zlen wire_eos - zlen wire_eos) with (zlen pre) by lia.
  rewrite ztake_app_eq by done. unfold read_first. by rewrite Hr.
Qed.

Lemma slot_stream_room reserve batch s bytes :
  write_one_batch_as (mkSink [] [] [] (Some reserve) (Ok tt)) batch s None = Ok bytes →
  0 ≤ reserve → reserve ≤ u32_max → zlen bytes ≤ u32_max.
Proof.
  intros E Hr Hm. unfold write_one_batch_as in E. apply bind_Ok in E as (w & Ew & E).
  set (k0 := mkSink [] [] [] (Some reserve) (Ok tt)) in *.
  assert (grows k0 (sw_writer w)) as Hg.
  { unfold stream_writer_new in Ew. destruct (schema_to_bytes _ _) as [e tr].
    pose proof (put_message_grows e k0) as Hg. destruct (put_message e k0) as [[[]|?|] k1]; [|done..].
    cbn in Ew. by injection Ew as <-. }
  pose proof (stream_write_grows w batch None) as Hg1.
  destruct (stream_writer_write w batch None) as [r1 w1]. apply bind_Ok in E as ([] & -> & E).
  pose proof (stream_finish_grows w1) as Hg2.
  destruct (stream_writer_finish w1) as [r2 w2]. apply bind_Ok in E as ([] & -> & E).
  pose proof (stream_finish_grows w2) as Hg3. simpl in *. injection E as <-.
  destruct (grows_trans _ _ _ Hg (grows_trans _ _ _ Hg1 (grows_trans _ _ _ Hg2 Hg3))) as [[Hrm _] Hro].
  unfold roomy in Hro. rewrite Hrm in Hro. simpl in Hro. rewrite zlen_nil in Hro.
  specialize (Hro Hr). unfold stream_writer_drop. lia.
Qed.

(** Reading a slot that holds a batch's stream. *)
Lemma read_batch_ok s0 s l batch off n bytes :
  alloc_inv s l → (off, n) ∈ l → 0 < zlen bytes ≤ n → load s off (length bytes) = bytes →
  slot_stream s0 batch bytes → fits (batch_schema batch) batch →
  (schema_has_dictionary (batch_schema batch) = false → zlen bytes ≤ u32_max) →
  zlen (ipc_message (schema_to_bytes (batch_schema batch) tracker_new).1) + 64 ≤ MAX_IPC_SCHEMA_BYTES →
  read_batch s off (zlen bytes) (batch_schema batch) =
    Ok (s, inr (batch, if schema_has_dictionary (batch_schema batch) then None else Some off)).
Proof.
  intros Hinv Hin Hb Hld Hst Hfit Hlen Hsz.
  destruct (wf_in _ _ _ (inv_wf _ _ Hinv) Hin) as (Hlo & Hpos & Hhi). simpl in Hlo, Hpos, Hhi.
  destruct (inv_size _ _ Hinv) as [_ Hmax]. assert (HEADER_SIZE = 65536) by done.
  assert (region_end s off (zlen bytes) = Ok (off + zlen bytes)) as Hre.
  { unfold region_end, checked_add. destruct (Z.leb_spec (off + zlen bytes) u64_max); [|ints; lia].
    cbn [ok_or mbind res_bind]. destruct (Z.ltb_spec (os_size s) (off + zlen bytes)); [lia|done]. }
  unfold read_batch. rewrite Hre, read_slice_ok by lia. cbn [mbind res_bind].
  replace (Z.to_nat (off + zlen bytes - off)) with (length bytes) by (unfold zlen; lia). rewrite Hld.
  unfold slot_stream in Hst. destruct (schema_has_dictionary (batch_schema batch)) eqn:Hd.
  - by rewrite (deserialize_ok _ _ _ Hd Hfit Hst).
  - eapply decode_stream in Hst; try done; [by rewrite Hst|by apply Hlen].
Qed.

Lemma pointer_field_ok (md : Metadata) key what n :
  md !! key = Some (dec_unsigned n) → 0 ≤ n ≤ u64_max → pointer_field md key what = Ok n.
Proof. intros E Hn. unfold pointer_field. rewrite E. simpl. by rewrite parse_dec_unsigned. Qed.

Lemma slot_released s l off n l' :
  alloc_inv s l' → l' ≡ₚ (off, n) :: l →
  ∃ s2 l2, anchor_drop s off = Ok s2 ∧ ShmAllocator.free s off = Ok s2 ∧ alloc_inv s2 l2 ∧ l2 ≡ₚ l.
Proof.
  intros Hinv Hp. destruct (slot_free _ _ _ _ _ Hinv Hp) as (s2 & l2 & E & Hinv2 & Hp2 & _).
  exists s2, l2. split_and!; try done. unfold anchor_drop, free_ignored.
  by rewrite (inv_attach _ _ Hinv), E.
Qed.

(** The metadata of a pointer, and what resolving makes of it. *)
Lemma pointer_metadata (md pmd : Metadata) off len :
  pmd = <[SHM_LENGTH_KEY := dec_unsigned len]> (<[SHM_OFFSET_KEY := dec_unsigned off]> ∅) →
  (pmd ∪ md) !! SHM_OFFSET_KEY = Some (dec_unsigned off) ∧
  (pmd ∪ md) !! SHM_LENGTH_KEY = Some (dec_unsigned len) ∧
  (pmd ∪ md) !! LOG_LEVEL_KEY = md !! LOG_LEVEL_KEY ∧
  delete SHM_LENGTH_KEY (delete SHM_OFFSET_KEY (pmd ∪ md)) =
    delete SHM_LENGTH_KEY (delete SHM_OFFSET_KEY md).
Proof.
  intros ->. assert (SHM_OFFSET_KEY ≠ SHM_LENGTH_KEY ∧ LOG_LEVEL_KEY ≠ SHM_LENGTH_KEY ∧
    LOG_LEVEL_KEY ≠ SHM_OFFSET_KEY) as (H12 & H13 & H23) by done.
  rewrite <- !insert_union_l, (left_id_L ∅ (∪)). split_and!.
  - by rewrite lookup_insert_ne, lookup_insert_eq.
  - by rewrite lookup_insert_eq.
  - by rewrite !lookup_insert_ne.
  - apply map_eq. intros k. rewrite !lookup_delete.
    destruct (decide (SHM_LENGTH_KEY = k)) as [<-|]; [done|].
    destruct (decide (SHM_OFFSET_KEY = k)) as [<-|]; [done|]. by rewrite !lookup_insert_ne.
Qed.

(** C23. A batch sent through shared memory arrives: what [maybe_write_to_shm]
    returns is either the batch untouched, with no slot taken, or a pointer that
    [resolve_shm_batch] on the other side turns into the same batch and metadata
    (tagged with the segment), the segment unchanged; the slot is then held by the
    release offset or by the anchor of the batch, and freeing or dropping it gives
    exactly the slot back. *)
Theorem shm_pointer_roundtrip env s l batch md s' p pmd :
  alloc_inv s l → fits (batch_schema batch) batch → md !! LOG_LEVEL_KEY = None →
  reserve_bytes s batch ≤ u32_max →
  zlen (ipc_message (schema_to_bytes (batch_schema batch) tracker_new).1) + 64 ≤ MAX_IPC_SCHEMA_BYTES →
  maybe_write_to_shm env batch md (Some s) = Ok (Some s', inr (p, pmd)) →
  (p = batch ∧ pmd = md ∧ ∃ l', alloc_inv s' l' ∧ l' ≡ₚ l) ∨
  ∃ R off s2 l2, resolve_shm_batch p pmd (Some s') = Ok (Some s', inr R) ∧
    resolved_batch R = batch ∧
    resolved_metadata R = <[SHM_SOURCE_KEY := os_name s]>
                            (delete SHM_LENGTH_KEY (delete SHM_OFFSET_KEY md)) ∧
    (release_offset R = Some off ∧ anchored R = None ∨ release_offset R = None ∧ anchored R = Some off) ∧
    anchor_drop s' off = Ok s2 ∧ ShmAllocator.free s' off = Ok s2 ∧ alloc_inv s2 l2 ∧ l2 ≡ₚ l.
Proof.
  intros Hinv Hfit Hlog Hres Hsz E. unfold maybe_write_to_shm in E.
  assert (p = batch ∧ pmd = md ∧ s' = s → p = batch ∧ pmd = md ∧ ∃ l', alloc_inv s' l' ∧ l' ≡ₚ l) as Hsame.
  { intros (-> & -> & ->). split_and!; [done..|]. by exists l. }
  destruct (num_rows batch =? 0); [left; apply Hsame; by simplify_eq|].
  destruct (_ <? _); [left; apply Hsame; by simplify_eq|]. clear Hsame.
  assert (∃ r, allocate_and_write s batch = Ok r ∧ written s l batch r) as ([s1 o] & Ew & Hk & Hw).
  { destruct (schema_has_dictionary (batch_schema batch)) eqn:Hd;
      [by apply dictionary_written|by apply in_place_written]. }
  rewrite Ew in E. cbn [mbind res_bind] in E.
  destruct o as [e|[[off len]|]]; [done| |left; by simplify_eq].
  destruct Hw as (n & l' & bytes & Hal & Hlen & Hinv1 & Hp & Hst & -> & Hld). right.
  unfold make_shm_pointer_batch in E.
  destruct (empty_batch (batch_schema batch)) as [eb|?|] eqn:Eb; [|done..].
  destruct (empty_batch_spec _ _ Eb) as [Hsch Hrows]. cbn [mbind res_bind] in E. simplify_eq.
  destruct (pointer_metadata md _ off (zlen bytes) eq_refl) as (Ho & Hl & Hlg & Hdel).
  match type of Ho with ?m !! _ = _ => set (pmd := m) in * end.
  assert ((off, n) ∈ l') as Hin by (rewrite Hp; left).
  destruct (wf_in _ _ _ (inv_wf _ _ Hinv1) Hin) as (Hlo & Hpos & Hhi). simpl in Hlo, Hpos, Hhi.
  destruct (inv_size _ _ Hinv1) as [_ Hmax]. assert (HEADER_SIZE = 65536) by done.
  assert (read_batch s' off (zlen bytes) (batch_schema batch) = Ok (s', inr (batch,
    if schema_has_dictionary (batch_schema batch) then None else Some off))) as Hrd.
  { eapply read_batch_ok; try done. intros Hd. unfold slot_stream in Hst. rewrite Hd in Hst.
    eapply slot_stream_room; [done| |done]. by apply reserve_spec, inv_size with l. }
  destruct (slot_released _ _ _ _ _ Hinv1 Hp) as (s2 & l2 & Hdrop & Hfree & Hinv2 & Hp2).
  unfold resolve_shm_batch, is_shm_pointer_batch. rewrite Hrows, Hlg, Hlog, Ho.
  rewrite bool_decide_eq_true_2, bool_decide_eq_false_2 by (by eauto || by intros [? ?]).
  rewrite (pointer_field_ok _ _ _ off Ho), (pointer_field_ok _ _ _ (zlen bytes) Hl) by (ints; lia).
  cbn [Z.eqb negb andb mbind res_bind]. rewrite Hsch, Hrd. cbn [mbind res_bind].
  destruct Hk as [[Hname _] _]. rewrite Hdel, Hname.
  eexists _, off, s2, l2. split; [done|]. split_and!; try done.
  destruct (schema_has_dictionary (batch_schema batch)); simpl; auto.
Qed.
End Batches.
