(* ===== verification/ProxyProtocol.v ===== *)
(** * PROXY protocol v2 preambles

    [vgi-rpc/src/proxy_protocol.rs]: a strict, bounded parser for the preamble a
    trusted proxy puts in front of a connection, and its reader. Errors are the
    messages of [io::Error]. *)

From S2P Require Import Prelude Bytes Net Errors Ipc IpcProps.

Definition SIGNATURE : list byte := [x0d; x0a; x0d; x0a; x00; x0d; x0a; x51; x55; x49; x54; x0a].
Definition FIXED_BYTES : Z := 16.
Definition DEFAULT_MAX_PROXY_V2_BYTES : Z := 536.
Definition VGI_IROH_ENDPOINT_TLV : byte := xe0.
Definition VGI_IROH_ENDPOINT_VERSION : byte := x01.
Definition VGI_IROH_ENDPOINT_VALUE_BYTES : Z := 33.

Record ProxyProtocolV2Address := mkAddress { source : SocketAddr; destination : SocketAddr }.
Record ParsedProxyProtocolV2 := mkParsed {
  address : option ProxyProtocolV2Address;
  iroh_endpoint_id : option (list byte)
}.

Abbreviation io_result A := (res (list byte) A).

Definition maximum_bytes_or_default (maximum_bytes : Z) : io_result Z :=
  let m := if maximum_bytes =? 0 then DEFAULT_MAX_PROXY_V2_BYTES else maximum_bytes in
  if m <? FIXED_BYTES then Err (bs "maximum PROXY v2 bytes must be at least 16") else Ok m.

Definition normalize_ip (a : IpAddr) : IpAddr :=
  match a with
  | V6 o => match to_ipv4_mapped o with Some v4 => V4 v4 | None => V6 o end
  | V4 o => V4 o
  end.

(** [u16::from_be_bytes([b[i], b[i + 1]])] *)
Definition u16_at (b : list byte) (i : Z) : io_result Z :=
  be_val <$> or_panic (slice b i (i + 2)).

Definition address_block (body : list byte) (allow_iroh : bool) (family : byte)
  : io_result (option ProxyProtocolV2Address * Z) :=
  match family, allow_iroh with
  | x00, true => Ok (None, 0)
  | x11, _ =>
    if zlen body <? 12 then Err (bs "truncated PROXY v2 TCP/IPv4 address block") else
    src ← or_panic (slice body 0 4); src_port ← u16_at body 8;
    dst ← or_panic (slice body 4 8); dst_port ← u16_at body 10;
    Ok (Some (mkAddress (mkSocketAddr (V4 src) src_port) (mkSocketAddr (V4 dst) dst_port)), 12)
  | x21, _ =>
    if zlen body <? 36 then Err (bs "truncated PROXY v2 TCP/IPv6 address block") else
    src ← or_panic (slice body 0 16); dst ← or_panic (slice body 16 32);
    src_port ← u16_at body 32; dst_port ← u16_at body 34;
    Ok (Some (mkAddress (mkSocketAddr (normalize_ip (V6 src)) src_port)
                        (mkSocketAddr (normalize_ip (V6 dst)) dst_port)), 36)
  | _, _ => Err (bs "PROXY v2 requires TCP over IPv4 or IPv6")
  end.

(** One TLV in the loop: the identity seen so far with this one. *)
Definition absorb_tlv (allow_iroh : bool) (tlv_type : byte) (value : list byte)
    (id : option (list byte)) : io_result (option (list byte)) :=
  if bool_decide (tlv_type = VGI_IROH_ENDPOINT_TLV) && allow_iroh then
    match id with
    | Some _ => Err (bs "duplicate VGI Iroh identity TLV")
    | None =>
      if negb (zlen value =? VGI_IROH_ENDPOINT_VALUE_BYTES)
         || negb (bool_decide (head value = Some VGI_IROH_ENDPOINT_VERSION))
      then Err (bs "invalid VGI Iroh identity TLV")
      else Ok (Some (zdrop 1 value))
    end
  else Ok id.

(** The TLV loop from [offset]; out of fuel would be the loop not ending. *)
Fixpoint parse_tlvs (fuel : nat) (allow_iroh : bool) (body : list byte) (offset : Z)
    (id : option (list byte)) : io_result (option (list byte)) :=
  if offset <? zlen body then
    match fuel with
    | O => Panic
    | S fuel =>
      if zlen body - offset <? 3 then Err (bs "truncated PROXY v2 TLV header") else
      tlv_type ← or_panic (znth body offset);
      length ← u16_at body (offset + 1);
      let offset := offset + 3 in
      if zlen body - offset <? length then Err (bs "truncated PROXY v2 TLV value") else
      value ← or_panic (slice body offset (offset + length));
      id ← absorb_tlv allow_iroh tlv_type value id;
      parse_tlvs fuel allow_iroh body (offset + length) id
    end
  else Ok id.

Definition parse_proxy_protocol_v2_with_options (preamble : list byte) (maximum_bytes : Z)
    (allow_iroh : bool) : io_result ParsedProxyProtocolV2 :=
  maximum_bytes ← maximum_bytes_or_default maximum_bytes;
  if zlen preamble <? FIXED_BYTES then Err (bs "truncated PROXY v2 fixed preamble") else
  if maximum_bytes <? zlen preamble then Err (bs "PROXY v2 preamble exceeds configured limit") else
  sig ← or_panic (slice preamble 0 12);
  if negb (bool_decide (sig = SIGNATURE)) then Err (bs "missing PROXY v2 signature") else
  vc ← or_panic (znth preamble 12);
  if negb (Z.shiftr (b2z vc) 4 =? 2) then Err (bs "unsupported PROXY protocol version") else
  if negb (Z.land (b2z vc) 15 =? 1) then Err (bs "PROXY v2 LOCAL command is not accepted") else
  len ← u16_at preamble 14;
  if negb (zlen preamble =? FIXED_BYTES + len) then Err (bs "truncated or overlong PROXY v2 preamble") else
  body ← or_panic (slice preamble FIXED_BYTES (zlen preamble));
  family ← or_panic (znth preamble 13);
  '(address, address_bytes) ← address_block body allow_iroh family;
  id ← parse_tlvs (length body) allow_iroh body address_bytes None;
  if bool_decide (family = x00) && bool_decide (id = None)
  then Err (bs "PROXY/UNSPEC requires one VGI Iroh identity TLV") else
  if bool_decide (is_Some id) && negb (bool_decide (family = x00))
  then Err (bs "VGI Iroh identity requires PROXY/UNSPEC") else
  Ok (mkParsed address id).

Definition parse_proxy_protocol_v2 (preamble : list byte) (maximum_bytes : Z)
  : io_result ProxyProtocolV2Address :=
  p ← parse_proxy_protocol_v2_with_options preamble maximum_bytes false;
  ok_or (bs "PROXY v2 requires TCP over IPv4 or IPv6") (address p).

(** [Read::read_exact]: end of file is an error. *)
Definition io_read_exact (what : list byte) (r : reader) (n : Z) : io_result (list byte * reader) :=
  match read_exact r n with
  | Ok (Some l, r) => Ok (l, r)
  | Panic => Panic
  | _ => Err what
  end.

Definition read_proxy_protocol_v2_with_options (r : reader) (maximum_bytes : Z) (allow_iroh : bool)
  : io_result (ParsedProxyProtocolV2 * reader) :=
  maximum_bytes ← maximum_bytes_or_default maximum_bytes;
  '(fixed, r) ← io_read_exact (bs "truncated PROXY v2 fixed preamble: ") r FIXED_BYTES;
  len ← u16_at fixed 14;
  let total := FIXED_BYTES + len in
  if maximum_bytes <? total then Err (bs "PROXY v2 preamble exceeds configured limit") else
  '(rest, r) ← io_read_exact (bs "truncated PROXY v2 body: ") r (total - FIXED_BYTES);
  p ← parse_proxy_protocol_v2_with_options (fixed ++ rest) maximum_bytes allow_iroh;
  Ok (p, r).

Definition read_proxy_protocol_v2 (r : reader) (maximum_bytes : Z)
  : io_result (ProxyProtocolV2Address * reader) :=
  '(p, r) ← read_proxy_protocol_v2_with_options r maximum_bytes false;
  a ← ok_or (bs "PROXY v2 requires TCP over IPv4 or IPv6") (address p);
  Ok (a, r).

(** ** What a preamble is *)
Abbreviation tlv := (byte * list byte)%type.
Definition encode_tlv (t : tlv) : list byte := t.1 :: be_bytes 2 (zlen t.2) ++ t.2.
Definition encode_tlvs (ts : list tlv) : list byte := concat (encode_tlv <$> ts).

Inductive endpoint_block :=
| BlockUnspec
| BlockTcp4 (src dst : list byte) (src_port dst_port : Z)
| BlockTcp6 (src dst : list byte) (src_port dst_port : Z).

Definition block_family (b : endpoint_block) : byte :=
  match b with BlockUnspec => x00 | BlockTcp4 _ _ _ _ => x11 | BlockTcp6 _ _ _ _ => x21 end.

Definition encode_block (b : endpoint_block) : list byte :=
  match b with
  | BlockUnspec => []
  | BlockTcp4 s d sp dp | BlockTcp6 s d sp dp => s ++ d ++ be_bytes 2 sp ++ be_bytes 2 dp
  end.

Definition block_wf (allow_iroh : bool) (b : endpoint_block) : Prop :=
  match b with
  | BlockUnspec => allow_iroh = true
  | BlockTcp4 s d sp dp => zlen s = 4 ∧ zlen d = 4 ∧ 0 ≤ sp ≤ u16_max ∧ 0 ≤ dp ≤ u16_max
  | BlockTcp6 s d sp dp => zlen s = 16 ∧ zlen d = 16 ∧ 0 ≤ sp ≤ u16_max ∧ 0 ≤ dp ≤ u16_max
  end.

Definition block_address (b : endpoint_block) : option ProxyProtocolV2Address :=
  match b with
  | BlockUnspec => None
  | BlockTcp4 s d sp dp => Some (mkAddress (mkSocketAddr (V4 s) sp) (mkSocketAddr (V4 d) dp))
  | BlockTcp6 s d sp dp => Some (mkAddress (mkSocketAddr (normalize_ip (V6 s)) sp)
                                           (mkSocketAddr (normalize_ip (V6 d)) dp))
  end.

Definition preamble_body (b : endpoint_block) (ts : list tlv) : list byte :=
  encode_block b ++ encode_tlvs ts.
Definition encode_preamble (b : endpoint_block) (ts : list tlv) : list byte :=
  SIGNATURE ++ [x21; block_family b] ++ be_bytes 2 (zlen (preamble_body b ts)) ++ preamble_body b ts.

(** The identities a list of TLVs carries; the extension is off otherwise. *)
Definition identities (allow_iroh : bool) (ts : list tlv) : list (list byte) :=
  if allow_iroh then (filter (fun t => t.1 = VGI_IROH_ENDPOINT_TLV) ts).*2 else [].

(** The identity TLVs are what the block calls for: one well-formed identity
    without addresses, none with them. *)
Definition identity_of (allow_iroh : bool) (b : endpoint_block) (ts : list tlv)
    (id : option (list byte)) : Prop :=
  match b, id with
  | BlockUnspec, Some e => zlen e = 32 ∧ identities allow_iroh ts = [VGI_IROH_ENDPOINT_VERSION :: e]
  | BlockUnspec, None => False
  | _, None => identities allow_iroh ts = []
  | _, Some _ => False
  end.

(** ** Fixed-width fields *)
Lemma be_val_bytes2 z : 0 ≤ z ≤ u16_max → be_val (be_bytes 2 z) = z.
Proof.
  intros. unfold be_val, be_bytes. rewrite rev_involutive, le_val_bytes_small; [done|].
  ints. simpl. lia.
Qed.

Lemma zlen_be_bytes n z : zlen (be_bytes n z) = Z.of_nat n.
Proof. unfold be_bytes, zlen. rewrite length_rev, length_le_bytes. done. Qed.

Lemma be_bytes_val2 l : zlen l = 2 → be_bytes 2 (be_val l) = l ∧ 0 ≤ be_val l ≤ u16_max.
Proof.
  intros Hl. assert (length (rev l) = 2%nat) as Hr by (rewrite length_rev; unfold zlen in Hl; lia).
  unfold be_bytes, be_val. split.
  - rewrite <- Hr, le_bytes_val. apply rev_involutive.
  - pose proof (le_val_range (rev l)) as H. unfold zlen in H. rewrite Hr in H. ints. simpl in H. lia.
Qed.

Lemma u16_at_ok b i : 0 ≤ i → i + 2 ≤ zlen b →
  ∃ l, slice b i (i + 2) = Some l ∧ zlen l = 2 ∧ u16_at b i = Ok (be_val l).
Proof.
  intros. assert (∃ l, slice b i (i + 2) = Some l) as [l E] by (rewrite slice_ok by lia; eauto).
  exists l. pose proof (zlen_slice _ _ _ _ E). unfold u16_at. rewrite E. split_and!; [done|lia|done].
Qed.

(** ** The TLV loop *)
Definition tlv_wf (t : tlv) : Prop := zlen t.2 ≤ u16_max.

Fixpoint absorb_all (allow_iroh : bool) (id : option (list byte)) (ts : list tlv)
  : io_result (option (list byte)) :=
  match ts with
  | [] => Ok id
  | t :: ts => id ← absorb_tlv allow_iroh t.1 t.2 id; absorb_all allow_iroh id ts
  end.

Lemma zdrop_split_at {A} (l a b : list A) off :
  0 ≤ off ≤ zlen l → zdrop off l = a ++ b → l = ztake off l ++ a ++ b.
Proof. intros Hoff E. rewrite <- E. symmetry. apply ztake_zdrop. Qed.

Lemma absorb_tlv_no_panic a t v id : no_panic (absorb_tlv a t v id).
Proof. unfold absorb_tlv. case_match; [|done]. destruct id; [done|]. by case_match. Qed.

Lemma znth_head {A} (l p : list A) x q off : l = p ++ x :: q → off = zlen p → znth l off = Some x.
Proof.
  intros -> ->. rewrite znth_app_r by lia. by replace (zlen p - zlen p) with 0 by lia.
Qed.

(** One round of the loop on a TLV. *)
Lemma parse_tlvs_step fuel allow body off id (t : tlv) rest :
  0 ≤ off ≤ zlen body → zdrop off body = encode_tlv t ++ rest → tlv_wf t →
  parse_tlvs (S fuel) allow body off id =
    (id ← absorb_tlv allow t.1 t.2 id; parse_tlvs fuel allow body (off + zlen (encode_tlv t)) id) ∧
  zdrop (off + zlen (encode_tlv t)) body = rest ∧ off + zlen (encode_tlv t) ≤ zlen body.
Proof.
  intros Hoff E Hwf. destruct t as [ty v]. unfold encode_tlv, tlv_wf in *. cbn [fst snd] in *.
  set (len := be_bytes 2 (zlen v)) in *. assert (zlen len = 2) as Hl by apply zlen_be_bytes.
  pose proof (zlen_nonneg v). pose proof (zlen_nonneg rest).
  assert (zlen (zdrop off body) = zlen body - off) as Hz by (by apply zlen_zdrop).
  rewrite E, zlen_app, zlen_cons, zlen_app, Hl in Hz.
  assert (zlen (ztake off body) = off) as Hp by (by apply zlen_ztake).
  pose proof (zdrop_split_at _ _ _ _ Hoff E) as Eb. set (p := ztake off body) in *. clearbody p.
  assert (znth body off = Some ty) as Hn.
  { apply (znth_head _ p ty (len ++ v ++ rest)); [|done]. rewrite Eb. cbn [app]. by rewrite <- app_assoc. }
  assert (slice body (off + 1) (off + 1 + 2) = Some len) as Hs1.
  { rewrite Eb. cbn [app]. rewrite <- app_assoc. change (ty :: len ++ v ++ rest) with ([ty] ++ len ++ v ++ rest).
    rewrite app_assoc. apply slice_app; rewrite !zlen_app, zlen_cons, zlen_nil, ?Hl; lia. }
  assert (slice body (off + 3) (off + 3 + zlen v) = Some v) as Hs2.
  { rewrite Eb. cbn [app]. rewrite <- app_assoc. change (ty :: len ++ v ++ rest) with ([ty] ++ len ++ v ++ rest).
    rewrite app_assoc, (app_assoc (p ++ [ty])). apply slice_app; rewrite !zlen_app, zlen_cons, zlen_nil, ?Hl; lia. }
  split_and!.
  - cbn [parse_tlvs]. destruct (Z.ltb_spec off (zlen body)); [|lia].
    destruct (Z.ltb_spec (zlen body - off) 3); [lia|]. rewrite Hn. cbn [or_panic mbind res_bind].
    unfold u16_at. rewrite Hs1. cbn [or_panic fmap res_fmap mbind res_bind].
    unfold len. rewrite be_val_bytes2 by lia. destruct (Z.ltb_spec (zlen body - (off + 3)) (zlen v)); [lia|].
    rewrite Hs2. cbn [or_panic mbind res_bind]. rewrite zlen_cons, zlen_app. fold len. rewrite Hl.
    replace (off + (1 + (2 + zlen v))) with (off + 3 + zlen v) by lia. done.
  - rewrite zlen_cons, zlen_app, Hl. rewrite Eb, app_assoc. apply zdrop_app_eq.
    rewrite zlen_app, zlen_cons, zlen_app, Hl. lia.
  - rewrite zlen_cons, zlen_app, Hl. lia.
Qed.

Lemma encode_tlvs_cons t ts : encode_tlvs (t :: ts) = encode_tlv t ++ encode_tlvs ts.
Proof. done. Qed.

Lemma zlen_encode_tlv t : zlen (encode_tlv t) = 3 + zlen t.2.
Proof. unfold encode_tlv. rewrite zlen_cons, zlen_app, zlen_be_bytes. lia. Qed.

Lemma parse_tlvs_complete ts : ∀ fuel allow body off id,
  0 ≤ off ≤ zlen body → zdrop off body = encode_tlvs ts → Forall tlv_wf ts →
  zlen body - off ≤ Z.of_nat fuel →
  parse_tlvs fuel allow body off id = absorb_all allow id ts.
Proof.
  induction ts as [|t ts IH]; intros fuel allow body off id Hoff E Hwf Hf.
  - assert (off = zlen body) as ->.
    { apply (f_equal zlen) in E. rewrite zlen_zdrop in E by lia. unfold encode_tlvs in E. simpl in E.
      rewrite zlen_nil in E. lia. }
    destruct fuel; cbn [parse_tlvs]; by rewrite Z.ltb_irrefl.
  - apply list.Forall_cons in Hwf as [Ht Hwf]. rewrite encode_tlvs_cons in E.
    pose proof (zlen_encode_tlv t). pose proof (zlen_nonneg t.2).
    assert (zlen body - off = zlen (encode_tlv t) + zlen (encode_tlvs ts)) as Hz.
    { rewrite <- zlen_zdrop, E, zlen_app by lia. done. }
    pose proof (zlen_nonneg (encode_tlvs ts)). destruct fuel as [|fuel]; [lia|].
    destruct (parse_tlvs_step fuel allow body off id t _ Hoff E Ht) as (-> & Hd & Hle).
    cbn [absorb_all]. destruct (absorb_tlv allow t.1 t.2 id) as [id'| |]; try done. cbn [mbind res_bind].
    apply IH; [lia|done|done|lia].
Qed.

Lemma parse_tlvs_sound fuel : ∀ allow body off id id',
  0 ≤ off ≤ zlen body → parse_tlvs fuel allow body off id = Ok id' →
  ∃ ts, zdrop off body = encode_tlvs ts ∧ Forall tlv_wf ts.
Proof.
  induction fuel as [|fuel IH]; intros allow body off id id' Hoff E; cbn [parse_tlvs] in E;
    (destruct (Z.ltb_spec off (zlen body)) as [Hlt|Hge];
     [|exists []; split; [|done]; assert (off = zlen body) as -> by lia;
       unfold zdrop, zlen; rewrite Nat2Z.id; by rewrite drop_ge]); [done|].
  destruct (Z.ltb_spec (zlen body - off) 3); [done|].
  apply bind_Ok in E as (ty & Hn & E). apply or_panic_Ok in Hn.
  destruct (u16_at_ok body (off + 1)) as (lb & Hs1 & Hl & Hu); [lia..|]. rewrite Hu in E.
  cbn [mbind res_bind] in E. destruct (be_bytes_val2 lb Hl) as [Hbv Hbr].
  destruct (Z.ltb_spec (zlen body - (off + 3)) (be_val lb)); [done|].
  apply bind_Ok in E as (v & Hs2 & E). apply or_panic_Ok in Hs2.
  pose proof (zlen_slice _ _ _ _ Hs2) as Hv.
  apply bind_Ok in E as (id1 & _ & E). apply IH in E as (ts & Ets & Hts); [|lia].
  exists ((ty, v) :: ts). split; [|constructor; [unfold tlv_wf; simpl; lia|done]].
  rewrite encode_tlvs_cons. unfold encode_tlv. cbn [fst snd].
  replace (zlen v) with (be_val lb) by lia. rewrite Hbv, <- Ets.
  assert (slice body off (off + 1) = Some [ty]) as Hs0.
  { rewrite slice_ok by lia. unfold znth in Hn. destruct (Z.leb_spec 0 off); [|lia].
    unfold ztake, zdrop. replace (Z.to_nat (off + 1 - off)) with 1%nat by lia.
    by rewrite (drop_S _ _ _ Hn). }
  assert (∀ a b k, slice body a b = Some k → zdrop a body = k ++ zdrop b body) as Hsz.
  { intros a b k (Ha & Hb & ->)%slice_Some. rewrite <- (ztake_zdrop (b - a) (zdrop a body)) at 1.
    rewrite zdrop_zdrop by lia. do 2 f_equal. lia. }
  rewrite (Hsz _ _ _ Hs0), (Hsz _ _ _ Hs1).
  replace (off + 1 + 2) with (off + 3) by lia. rewrite (Hsz _ _ _ Hs2).
  replace (off + 3 + be_val lb) with (off + 3 + be_val lb) by lia. simpl. by rewrite <- app_assoc.
Qed.

Lemma parse_tlvs_no_panic fuel allow body off id :
  0 ≤ off ≤ zlen body → zlen body - off ≤ Z.of_nat fuel →
  no_panic (parse_tlvs fuel allow body off id).
Proof.
  revert off id. induction fuel as [|fuel IH]; intros off id Hoff Hf; cbn [parse_tlvs];
    (destruct (Z.ltb_spec off (zlen body)); [|done]); [lia|].
  destruct (Z.ltb_spec (zlen body - off) 3); [done|].
  destruct (znth_Some body off) as [ty ->]; [lia|]. cbn [or_panic mbind res_bind].
  destruct (u16_at_ok body (off + 1)) as (lb & _ & Hl & ->); [lia..|]. cbn [mbind res_bind].
  destruct (be_bytes_val2 lb Hl) as [_ Hbr].
  destruct (Z.ltb_spec (zlen body - (off + 3)) (be_val lb)); [done|].
  rewrite slice_ok by lia. cbn [or_panic mbind res_bind].
  apply bind_no_panic; [apply absorb_tlv_no_panic|]. intros id1 _. apply IH; lia.
Qed.

(** ** Identities *)
Lemma identities_cons allow (t : tlv) ts :
  identities allow (t :: ts) =
    if bool_decide (t.1 = VGI_IROH_ENDPOINT_TLV) && allow then t.2 :: identities allow ts
    else identities allow ts.
Proof.
  unfold identities. destruct allow; [|by rewrite andb_false_r]. rewrite andb_true_r.
  case_bool_decide as E.
  - by rewrite list.filter_cons_True.
  - by rewrite list.filter_cons_False.
Qed.

Lemma absorb_all_some allow e ts id :
  absorb_all allow (Some e) ts = Ok id ↔ identities allow ts = [] ∧ id = Some e.
Proof.
  induction ts as [|t ts IH].
  - cbn. unfold identities. destruct allow; simpl; naive_solver.
  - cbn [absorb_all]. rewrite identities_cons. unfold absorb_tlv. case_match; cbn [mbind res_bind].
    + naive_solver.
    + apply IH.
Qed.

Lemma absorb_all_spec allow ts id :
  absorb_all allow None ts = Ok id ↔
  match id with
  | None => identities allow ts = []
  | Some e => zlen e = 32 ∧ identities allow ts = [VGI_IROH_ENDPOINT_VERSION :: e]
  end.
Proof.
  induction ts as [|t ts IH].
  - assert (identities allow [] = []) as -> by (by destruct allow). cbn. destruct id; naive_solver.
  - cbn [absorb_all]. rewrite identities_cons. unfold absorb_tlv at 1.
    destruct (bool_decide (t.1 = _) && allow); cbn [mbind res_bind]; [|apply IH].
    destruct (Z.eqb_spec (zlen t.2) VGI_IROH_ENDPOINT_VALUE_BYTES) as [Hl|Hl]; simpl.
    2: { split; [done|]. destruct id as [e|]; [|done]. intros [He E].
         assert (t.2 = VGI_IROH_ENDPOINT_VERSION :: e) as Et by congruence.
         rewrite Et, zlen_cons, He in Hl. done. }
    case_bool_decide as Hh; simpl.
    2: { split; [done|]. destruct id as [e|]; [|done]. intros [He E].
         assert (t.2 = VGI_IROH_ENDPOINT_VERSION :: e) as Et by congruence. by rewrite Et in Hh. }
    destruct (t.2) as [|v e'] eqn:Et; [done|]. simpl in Hh. injection Hh as ->.
    rewrite zlen_cons in Hl. unfold VGI_IROH_ENDPOINT_VALUE_BYTES in Hl.
    change (zdrop 1 (VGI_IROH_ENDPOINT_VERSION :: e')) with e'.
    rewrite absorb_all_some. destruct id as [e|]; [|naive_solver].
    split; [intros [-> [= <-]]; split; [lia|done]|intros [He [= -> Hi]]; done].
Qed.

Lemma absorb_all_no_panic allow ts : ∀ id, no_panic (absorb_all allow id ts).
Proof.
  induction ts as [|t ts IH]; intros id; [done|]. cbn [absorb_all].
  apply bind_no_panic; [apply absorb_tlv_no_panic|auto].
Qed.

(** ** Address blocks *)
Lemma slice_in_app {A} (l rest : list A) a b k : slice l a b = Some k → slice (l ++ rest) a b = Some k.
Proof.
  intros (Ha & Hb & ->)%slice_Some. pose proof (zlen_nonneg rest). apply slice_Some.
  rewrite zlen_app. split_and!; [lia..|]. unfold ztake, zdrop, zlen in *.
  rewrite drop_app_le by lia. rewrite take_app_le by (rewrite length_drop; lia). done.
Qed.

(** Four consecutive fields. *)
Lemma slices4 {A} (a b c d : list A) rest :
  let l := (a ++ b ++ c ++ d) ++ rest in
  slice l 0 (zlen a) = Some a ∧ slice l (zlen a) (zlen a + zlen b) = Some b ∧
  slice l (zlen a + zlen b) (zlen a + zlen b + zlen c) = Some c ∧
  slice l (zlen a + zlen b + zlen c) (zlen a + zlen b + zlen c + zlen d) = Some d.
Proof.
  intros l. unfold l. split_and!; apply slice_in_app.
  - by apply slice_app_0.
  - by apply slice_app.
  - rewrite app_assoc. by apply slice_app; rewrite ?zlen_app.
  - rewrite <- (app_nil_r d) at 1. rewrite !app_assoc, <- app_assoc.
    apply slice_app; rewrite !zlen_app; lia.
Qed.

(** Evaluate the bounds of a slice between constants. *)
Ltac norm_slice H :=
  match type of H with
  | slice ?l ?a ?b = ?r =>
    let a' := eval vm_compute in a in let b' := eval vm_compute in b in
    change (slice l a' b' = r) in H
  end.

Lemma address_block_complete allow b rest :
  block_wf allow b →
  address_block (encode_block b ++ rest) allow (block_family b) =
    Ok (block_address b, zlen (encode_block b)).
Proof.
  intros Hwf. pose proof (zlen_nonneg rest).
  destruct b as [|s d sp dp|s d sp dp]; simpl in Hwf; [by rewrite Hwf|..];
    destruct Hwf as (Hs & Hd & Hsp & Hdp);
    pose proof (slices4 s d (be_bytes 2 sp) (be_bytes 2 dp) rest) as (S1 & S2 & S3 & S4);
    rewrite ?Hs, ?Hd, ?zlen_be_bytes in S1; rewrite ?Hs, ?Hd, ?zlen_be_bytes in S2;
    rewrite ?Hs, ?Hd, ?zlen_be_bytes in S3; rewrite ?Hs, ?Hd, ?zlen_be_bytes in S4;
    unfold address_block, u16_at; cbn [block_family encode_block block_address];
    rewrite !zlen_app, Hs, Hd, !zlen_be_bytes; rewrite <- !app_assoc in *.
  - destruct (Z.ltb_spec (4 + (4 + (Z.of_nat 2 + Z.of_nat 2)) + zlen rest) 12); [lia|].
    norm_slice S2. norm_slice S3. norm_slice S4. change (8 + 2) with 10. change (10 + 2) with 12.
    rewrite S1, S3, S2, S4. cbn [or_panic fmap res_fmap mbind res_bind].
    rewrite !be_val_bytes2 by done. by destruct allow.
  - destruct (Z.ltb_spec (16 + (16 + (Z.of_nat 2 + Z.of_nat 2)) + zlen rest) 36); [lia|].
    norm_slice S2. norm_slice S3. norm_slice S4. change (32 + 2) with 34. change (34 + 2) with 36.
    rewrite S1, S2, S3, S4. cbn [or_panic fmap res_fmap mbind res_bind].
    rewrite !be_val_bytes2 by done. by destruct allow.
Qed.

Lemma take_fields {A} (l : list A) n m : 0 ≤ n → 0 ≤ m → n + m ≤ zlen l →
  ∃ a b c, l = a ++ b ++ c ∧ zlen a = n ∧ zlen b = m.
Proof.
  intros. exists (ztake n l), (ztake m (zdrop n l)), (zdrop (n + m) l).
  rewrite zlen_ztake, zlen_ztake by (rewrite ?zlen_zdrop; lia). split_and!; [|done..].
  by rewrite <- zdrop_zdrop, ztake_zdrop, ztake_zdrop by lia.
Qed.

Lemma address_block_sound body allow fam a n :
  address_block body allow fam = Ok (a, n) →
  ∃ b rest, block_wf allow b ∧ block_family b = fam ∧ body = encode_block b ++ rest ∧
            n = zlen (encode_block b) ∧ a = block_address b.
Proof.
  intros E. assert (∀ k, (k = 4 ∨ k = 16) → 2 * k + 4 ≤ zlen body →
    ∃ s d sp dp rest, zlen s = k ∧ zlen d = k ∧ 0 ≤ sp ≤ u16_max ∧ 0 ≤ dp ≤ u16_max ∧
      body = (s ++ d ++ be_bytes 2 sp ++ be_bytes 2 dp) ++ rest) as Hf.
  { intros k Hk Hle. destruct (take_fields body k k) as (s & d & c & -> & Hs & Hd); [lia..|].
    rewrite !zlen_app in Hle. destruct (take_fields c 2 2) as (p & q & rest & -> & Hp & Hq); [lia..|].
    destruct (be_bytes_val2 p Hp) as [Ep ?], (be_bytes_val2 q Hq) as [Eq ?].
    exists s, d, (be_val p), (be_val q), rest. rewrite Ep, Eq. split_and!; try done; try lia.
    by rewrite <- !app_assoc. }
  assert (fam = x00 ∧ allow = true ∨ fam = x11 ∨ fam = x21) as Hfam.
  { unfold address_block in E. destruct fam, allow; try discriminate E; auto. }
  destruct Hfam as [[-> ->] | [-> | ->]].
  - cbn in E. injection E as <- <-. by exists BlockUnspec, body.
  - assert (12 ≤ zlen body) as Hl.
    { unfold address_block in E. destruct (Z.ltb_spec (zlen body) 12); [by destruct allow|done]. }
    destruct (Hf 4) as (s & d & sp & dp & rest & Hs & Hd & Hsp & Hdp & ->); [auto|lia|].
    pose proof (address_block_complete allow (BlockTcp4 s d sp dp) rest) as Hc.
    cbn [encode_block block_family] in Hc. rewrite Hc in E by done. injection E as <- <-.
    by exists (BlockTcp4 s d sp dp), rest.
  - assert (36 ≤ zlen body) as Hl.
    { unfold address_block in E. destruct (Z.ltb_spec (zlen body) 36); [by destruct allow|done]. }
    destruct (Hf 16) as (s & d & sp & dp & rest & Hs & Hd & Hsp & Hdp & ->); [auto|lia|].
    pose proof (address_block_complete allow (BlockTcp6 s d sp dp) rest) as Hc.
    cbn [encode_block block_family] in Hc. rewrite Hc in E by done. injection E as <- <-.
    by exists (BlockTcp6 s d sp dp), rest.
Qed.

Lemma address_block_no_panic body allow fam : no_panic (address_block body allow fam).
Proof.
  assert (∀ a b, 0 ≤ a ≤ b → b ≤ zlen body → no_panic (or_panic (E:=list byte) (slice body a b))) as Hs.
  { intros. by rewrite slice_ok by lia. }
  assert (∀ i, 0 ≤ i → i + 2 ≤ zlen body → no_panic (u16_at body i)) as Hu.
  { intros i ??. by destruct (u16_at_ok body i) as (? & _ & _ & ->). }
  unfold address_block. destruct fam; try (by destruct allow); destruct allow;
    match goal with |- context [zlen body <? ?n] => destruct (Z.ltb_spec (zlen body) n); [done|] end;
    repeat (apply bind_no_panic; [first [apply Hs; lia|apply Hu; lia]|intros ? _]); done.
Qed.

(** ** The whole preamble *)
Definition effective_max (m : Z) : Z := if m =? 0 then DEFAULT_MAX_PROXY_V2_BYTES else m.

Lemma version_byte vc : Z.shiftr (b2z vc) 4 = 2 → Z.land (b2z vc) 15 = 1 → vc = x21.
Proof. destruct vc; vm_compute; congruence. Qed.

(** The fixed fields of a preamble of at least 16 bytes. *)
Lemma preamble_fields (p : list byte) :
  16 ≤ zlen p → ∃ sig vc fam lb body,
    p = sig ++ [vc; fam] ++ lb ++ body ∧ zlen sig = 12 ∧ zlen lb = 2.
Proof.
  intros Hp. destruct (take_fields p 12 2) as (sig & vf & r & -> & Hs & Hv); [lia..|].
  rewrite !zlen_app in Hp. destruct (take_fields r 2 0) as (lb & e & body & -> & Hl & He); [lia..|].
  apply zlen_0 in He as ->. destruct vf as [|vc [|fam [|]]]; try (by unfold zlen in Hv; simpl in Hv; lia).
  by exists sig, vc, fam, lb, body.
Qed.

Lemma parse_fields sig vc fam lb body m allow :
  zlen sig = 12 → zlen lb = 2 →
  parse_proxy_protocol_v2_with_options (sig ++ [vc; fam] ++ lb ++ body) m allow =
  (mx ← maximum_bytes_or_default m;
   if mx <? 16 + zlen body then Err (bs "PROXY v2 preamble exceeds configured limit") else
   if negb (bool_decide (sig = SIGNATURE)) then Err (bs "missing PROXY v2 signature") else
   if negb (Z.shiftr (b2z vc) 4 =? 2) then Err (bs "unsupported PROXY protocol version") else
   if negb (Z.land (b2z vc) 15 =? 1) then Err (bs "PROXY v2 LOCAL command is not accepted") else
   if negb (zlen body =? be_val lb) then Err (bs "truncated or overlong PROXY v2 preamble") else
   '(address, address_bytes) ← address_block body allow fam;
   id ← parse_tlvs (length body) allow body address_bytes None;
   if bool_decide (fam = x00) && bool_decide (id = None)
   then Err (bs "PROXY/UNSPEC requires one VGI Iroh identity TLV") else
   if bool_decide (is_Some id) && negb (bool_decide (fam = x00))
   then Err (bs "VGI Iroh identity requires PROXY/UNSPEC") else
   Ok (mkParsed address id)).
Proof.
  intros Hs Hl. set (p := sig ++ [vc; fam] ++ lb ++ body).
  assert (zlen p = 16 + zlen body) as Hp.
  { unfold p. rewrite !zlen_app, Hs, Hl, !zlen_cons, zlen_nil. lia. }
  assert (slice p 0 12 = Some sig) as S1 by (by apply slice_app_0).
  assert (znth p 12 = Some vc) as N1 by (by eapply (znth_head p sig)).
  assert (znth p 13 = Some fam) as N2.
  { eapply (znth_head p (sig ++ [vc])); [unfold p; by rewrite <- app_assoc|].
    rewrite zlen_app, Hs. done. }
  assert (slice p 14 (14 + 2) = Some lb) as S2.
  { unfold p. rewrite app_assoc. apply slice_app; rewrite !zlen_app, Hs, !zlen_cons, zlen_nil; lia. }
  assert (slice p FIXED_BYTES (zlen p) = Some body) as S3.
  { rewrite Hp. assert (p = (sig ++ [vc; fam] ++ lb) ++ body ++ []) as ->.
    { unfold p. by rewrite app_nil_r, <- !app_assoc. }
    apply slice_app; rewrite !zlen_app, Hs, Hl, !zlen_cons, zlen_nil; unfold FIXED_BYTES; lia. }
  pose proof (zlen_nonneg body). clearbody p.
  unfold parse_proxy_protocol_v2_with_options. destruct (maximum_bytes_or_default m) as [mx| |]; try done.
  cbn [mbind res_bind]. destruct (Z.ltb_spec (zlen p) FIXED_BYTES); [unfold FIXED_BYTES in *; lia|].
  rewrite S1, N1, N2, S3. unfold u16_at. rewrite S2. cbn [or_panic fmap res_fmap mbind res_bind].
  rewrite Hp. unfold FIXED_BYTES.
  destruct (Z.eqb_spec (16 + zlen body) (16 + be_val lb)), (Z.eqb_spec (zlen body) (be_val lb)); try lia; done.
Qed.

Lemma maximum_bytes_ok m mx : maximum_bytes_or_default m = Ok mx ↔ mx = effective_max m ∧ 16 ≤ mx.
Proof.
  unfold maximum_bytes_or_default, effective_max, FIXED_BYTES.
  destruct (Z.ltb_spec (if m =? 0 then DEFAULT_MAX_PROXY_V2_BYTES else m) 16); naive_solver lia.
Qed.

Lemma identity_of_spec allow b ts id :
  identity_of allow b ts id ↔
  absorb_all allow None ts = Ok id ∧
  bool_decide (block_family b = x00) && bool_decide (id = None) = false ∧
  bool_decide (is_Some id) && negb (bool_decide (block_family b = x00)) = false.
Proof.
  rewrite absorb_all_spec. destruct b, id as [e|]; simpl; repeat case_bool_decide; simpl; try naive_solver;
    try (split; [done|]; intros (_ & ? & ?); done).
  all: try (exfalso; match goal with H : ¬ is_Some (Some _) |- _ => apply H; by eexists end).
  all: try (exfalso; match goal with H : is_Some None |- _ => by destruct H end).
Qed.

Lemma preamble_parts b ts :
  encode_preamble b ts = SIGNATURE ++ [x21; block_family b] ++ be_bytes 2 (zlen (preamble_body b ts)) ++ preamble_body b ts.
Proof. done. Qed.

Lemma zdrop_block b ts : zdrop (zlen (encode_block b)) (preamble_body b ts) = encode_tlvs ts.
Proof. unfold preamble_body. by apply zdrop_app_eq. Qed.

Lemma parse_sound p m allow r :
  parse_proxy_protocol_v2_with_options p m allow = Ok r →
  16 ≤ effective_max m ∧
  ∃ b ts, block_wf allow b ∧ Forall tlv_wf ts ∧ zlen (preamble_body b ts) ≤ u16_max ∧
    p = encode_preamble b ts ∧ zlen p ≤ effective_max m ∧
    address r = block_address b ∧ identity_of allow b ts (iroh_endpoint_id r).
Proof.
  intros E. assert (16 ≤ zlen p) as Hp.
  { unfold parse_proxy_protocol_v2_with_options in E. apply bind_Ok in E as (mx & _ & E).
    destruct (Z.ltb_spec (zlen p) FIXED_BYTES); [done|]. done. }
  destruct (preamble_fields p Hp) as (sig & vc & fam & lb & body & -> & Hs & Hl).
  rewrite parse_fields in E by done. apply bind_Ok in E as (mx & [-> Hmx]%maximum_bytes_ok & E).
  split; [done|]. destruct (Z.ltb_spec (effective_max m) (16 + zlen body)); [done|].
  case_bool_decide as Hsig; simpl in E; [|done]. subst sig.
  destruct (Z.eqb_spec (Z.shiftr (b2z vc) 4) 2) as [Hv1|]; simpl in E; [|done].
  destruct (Z.eqb_spec (Z.land (b2z vc) 15) 1) as [Hv2|]; simpl in E; [|done].
  destruct (Z.eqb_spec (zlen body) (be_val lb)) as [Hbl|]; cbn [negb] in E; [|done].
  apply bind_Ok in E as ([a n] & Ea & E). apply address_block_sound in Ea as (b & rest & Hwf & <- & -> & -> & ->).
  apply bind_Ok in E as (id & Et & E).
  assert (0 ≤ zlen (encode_block b) ≤ zlen (encode_block b ++ rest)) as Hob.
  { rewrite zlen_app. pose proof (zlen_nonneg (encode_block b)). pose proof (zlen_nonneg rest). lia. }
  pose proof (parse_tlvs_sound _ _ _ _ _ _ Hob Et) as (ts & Ets & Hts).
  rewrite (parse_tlvs_complete ts _ _ _ _ _ Hob Ets Hts) in Et.
  2: { unfold zlen. lia. }
  rewrite zdrop_app_eq in Ets by done. subst rest. destruct (be_bytes_val2 lb Hl) as [Hlb Hlr].
  exists b, ts. fold (preamble_body b ts) in *.
  destruct (bool_decide (block_family b = x00) && _) eqn:E1; [done|].
  destruct (bool_decide (is_Some id) && _) eqn:E2; [done|]. injection E as <-. cbn [address iroh_endpoint_id].
  split_and!; try done; try lia.
  - rewrite preamble_parts, Hbl, Hlb. by rewrite (version_byte vc).
  - rewrite !zlen_app, Hl, !zlen_cons, zlen_nil. change (zlen SIGNATURE) with 12. lia.
  - by apply identity_of_spec.
Qed.

Lemma parse_complete b ts m allow id :
  16 ≤ effective_max m → block_wf allow b → Forall tlv_wf ts → zlen (preamble_body b ts) ≤ u16_max →
  zlen (encode_preamble b ts) ≤ effective_max m → identity_of allow b ts id →
  parse_proxy_protocol_v2_with_options (encode_preamble b ts) m allow = Ok (mkParsed (block_address b) id).
Proof.
  intros Hm Hwf Hts Hlen Hmax Hid. pose proof (zlen_nonneg (preamble_body b ts)).
  pose proof (zlen_be_bytes 2 (zlen (preamble_body b ts))) as Hl2.
  assert (zlen (encode_preamble b ts) = 16 + zlen (preamble_body b ts)) as Hz.
  { rewrite preamble_parts, !zlen_app, Hl2, !zlen_cons, zlen_nil. change (zlen SIGNATURE) with 12. lia. }
  rewrite preamble_parts, parse_fields by done.
  assert (maximum_bytes_or_default m = Ok (effective_max m)) as -> by (by apply maximum_bytes_ok).
  cbn [mbind res_bind]. destruct (Z.ltb_spec (effective_max m) (16 + zlen (preamble_body b ts))); [lia|].
  rewrite bool_decide_eq_true_2 by done. rewrite be_val_bytes2 by lia. rewrite Z.eqb_refl.
  change (Z.shiftr (b2z x21) 4 =? 2) with true. change (Z.land (b2z x21) 15 =? 1) with true. cbn [negb].
  assert (address_block (preamble_body b ts) allow (block_family b) =
          Ok (block_address b, zlen (encode_block b))) as -> by (by apply address_block_complete).
  cbn [mbind res_bind]. apply identity_of_spec in Hid as (Hab & H1 & H2).
  rewrite (parse_tlvs_complete ts), Hab; [|unfold preamble_body; rewrite zlen_app;
    pose proof (zlen_nonneg (encode_block b)); pose proof (zlen_nonneg (encode_tlvs ts)); lia
    |apply zdrop_block|done|unfold zlen; pose proof (zlen_nonneg (encode_block b)); lia].
  cbn [mbind res_bind]. by rewrite H1, H2, Z.eqb_refl.
Qed.

Lemma maximum_no_panic m : no_panic (maximum_bytes_or_default m).
Proof. unfold maximum_bytes_or_default. by destruct (_ <? _). Qed.

Lemma parse_no_panic p m allow : no_panic (parse_proxy_protocol_v2_with_options p m allow).
Proof.
  destruct (decide (16 ≤ zlen p)) as [Hp|Hp].
  2: { unfold parse_proxy_protocol_v2_with_options. apply bind_no_panic; [apply maximum_no_panic|].
       intros mx _. unfold FIXED_BYTES. destruct (Z.ltb_spec (zlen p) 16); [done|lia]. }
  destruct (preamble_fields p Hp) as (sig & vc & fam & lb & body & -> & Hs & Hl).
  rewrite parse_fields by done. apply bind_no_panic.
  { apply maximum_no_panic. }
  intros mx _. do 5 (case_match; [done|]). apply bind_no_panic; [apply address_block_no_panic|].
  intros [a n] (b & rest & Hwf & <- & -> & -> & ->)%address_block_sound.
  apply bind_no_panic.
  - pose proof (zlen_nonneg (encode_block b)). pose proof (zlen_nonneg rest).
    apply parse_tlvs_no_panic; rewrite ?zlen_app; unfold zlen in *; rewrite ?length_app; lia.
  - intros id _. case_match; [done|]. by case_match.
Qed.

(** The parser accepts exactly the preambles of the format: for every input
    it returns without panicking, and it returns [Ok r] if and only if the bytes
    are the encoding, within the configured limit, of a PROXY command with a TCP
    address block (or, when enabled, an unspecified one) and well-formed TLVs,
    with the addresses of the block (IPv4-mapped ones normalised) and the identity
    the TLVs carry: exactly one without addresses, none with them. *)
Theorem parse_preamble_exact p m allow :
  no_panic (parse_proxy_protocol_v2_with_options p m allow) ∧
  ∀ r, parse_proxy_protocol_v2_with_options p m allow = Ok r ↔
    16 ≤ effective_max m ∧
    ∃ b ts, block_wf allow b ∧ Forall tlv_wf ts ∧ zlen (preamble_body b ts) ≤ u16_max ∧
      p = encode_preamble b ts ∧ zlen p ≤ effective_max m ∧
      address r = block_address b ∧ identity_of allow b ts (iroh_endpoint_id r).
Proof.
  split; [apply parse_no_panic|]. intros r. split; [apply parse_sound|].
  intros (Hm & b & ts & Hwf & Hts & Hlen & -> & Hmax & Ha & Hid).
  rewrite (parse_complete b ts m allow (iroh_endpoint_id r)) by done.
  destruct r as [a id]; simpl in *. by subst.
Qed.

(** ** Reading a preamble off a connection *)
Lemma io_read_exact_clean w r n :
  clean r → 0 ≤ n →
  (n ≤ zlen (content r) ∧ ∃ r', io_read_exact w r n = Ok (ztake n (content r), r') ∧ clean r' ∧
                               content r' = zdrop n (content r)) ∨
  (zlen (content r) < n ∧ io_read_exact w r n = Err w).
Proof.
  intros Hc Hn. unfold io_read_exact. destruct (decide (n ≤ zlen (content r))) as [Hle|Hgt].
  - left. split; [done|]. destruct (read_exact_clean r n) as (r' & -> & Hc' & Hd); [done|lia|]. eauto.
  - right. split; [lia|]. unfold read_exact. rewrite read_exact_loop_short by (done || unfold zlen in *; lia).
    by destruct (_ ++ _).
Qed.

Lemma io_read_exact_no_panic w r n : no_panic (io_read_exact w r n).
Proof.
  unfold io_read_exact. pose proof (read_exact_loop_no_panic (Z.to_nat n) [] r) as H.
  fold (read_exact r n) in H. by destruct (read_exact r n) as [[[]]| |].
Qed.

Lemma io_read_exact_len w r n l r' : 0 ≤ n → io_read_exact w r n = Ok (l, r') → zlen l = n.
Proof.
  intros Hn E. unfold io_read_exact in E. destruct (read_exact r n) as [[[k|] r1]| |] eqn:Er; try done.
  apply read_exact_progress in Er as (Hl & _). injection E as <- <-. lia.
Qed.

(** The limit a parse is given by the reader is already resolved. *)
Lemma parse_effective p m mx allow :
  maximum_bytes_or_default m = Ok mx →
  parse_proxy_protocol_v2_with_options p mx allow = parse_proxy_protocol_v2_with_options p m allow.
Proof.
  intros Hm. unfold parse_proxy_protocol_v2_with_options.
  assert (maximum_bytes_or_default mx = Ok mx) as ->; [|by rewrite Hm].
  apply maximum_bytes_ok in Hm as [_ Hge]. apply maximum_bytes_ok. split; [|done].
  unfold effective_max. destruct (Z.eqb_spec mx 0); [lia|done].
Qed.

(** A parsed preamble announces its own length. *)
Lemma parse_length p m allow r :
  parse_proxy_protocol_v2_with_options p m allow = Ok r →
  16 ≤ zlen p ≤ effective_max m ∧ u16_at (ztake 16 p) 14 = Ok (zlen p - 16).
Proof.
  intros (Hm & b & ts & _ & _ & Hlen & -> & Hmax & _)%parse_sound.
  pose proof (zlen_nonneg (preamble_body b ts)).
  pose proof (zlen_be_bytes 2 (zlen (preamble_body b ts))) as Hl2. set (body := preamble_body b ts) in *.
  assert (encode_preamble b ts = (SIGNATURE ++ [x21; block_family b] ++ be_bytes 2 (zlen body)) ++ body) as Ep.
  { rewrite preamble_parts. fold body. by rewrite <- !app_assoc. }
  assert (zlen (SIGNATURE ++ [x21; block_family b] ++ be_bytes 2 (zlen body)) = 16) as H16.
  { rewrite !zlen_app, Hl2. done. }
  assert (zlen (encode_preamble b ts) = 16 + zlen body) as Hz by (rewrite Ep, zlen_app; lia).
  rewrite Hz in *. split; [lia|]. rewrite Ep, ztake_app_eq by done.
  unfold u16_at. rewrite app_assoc. rewrite <- (app_nil_r (be_bytes 2 (zlen body))).
  rewrite (slice_app (SIGNATURE ++ [x21; block_family b]) (be_bytes 2 (zlen body)) []).
  - cbn [or_panic fmap res_fmap]. rewrite be_val_bytes2 by lia. f_equal. lia.
  - done.
  - by rewrite Hl2.
Qed.

(** Reading a preamble off a connection: for any transport behaviour the
    reader does not panic, and on a connection that does not fail it returns
    exactly what parsing a prefix of the bytes returns, at most the configured
    limit long, and leaves every byte after that preamble in place. *)
Theorem read_preamble_exact r m allow :
  no_panic (read_proxy_protocol_v2_with_options r m allow) ∧
  (clean r → ∀ p rest,
     (∃ r', read_proxy_protocol_v2_with_options r m allow = Ok (p, r') ∧ content r' = rest) ↔
     ∃ pre, content r = pre ++ rest ∧ zlen pre ≤ effective_max m ∧
            parse_proxy_protocol_v2_with_options pre m allow = Ok p).
Proof.
  split.
  { unfold read_proxy_protocol_v2_with_options. apply bind_no_panic; [apply maximum_no_panic|].
    intros mx _. apply bind_no_panic; [apply io_read_exact_no_panic|]. intros [fixed r1] E1.
    apply io_read_exact_len in E1; [|done].
    destruct (u16_at_ok fixed 14) as (lb & _ & _ & ->); [done|unfold FIXED_BYTES in *; lia|].
    cbn [mbind res_bind]. case_match; [done|]. apply bind_no_panic; [apply io_read_exact_no_panic|].
    intros [rest r2] _. apply bind_no_panic; [apply parse_no_panic|done]. }
  intros Hc p rest. unfold read_proxy_protocol_v2_with_options. split.
  - intros (r' & E & <-). apply bind_Ok in E as (mx & Hmx & E).
    destruct (io_read_exact_clean (bs "truncated PROXY v2 fixed preamble: ") r FIXED_BYTES Hc)
      as [(Hle & r1 & Er & Hc1 & Hd1) | (_ & Er)]; [done| |by rewrite Er in E].
    rewrite Er in E. clear Er. cbn [mbind res_bind] in E. apply bind_Ok in E as (len & Hlen & E).
    set (total := FIXED_BYTES + len) in *. destruct (Z.ltb_spec mx total); [done|].
    assert (0 ≤ len) as Hl0.
    { unfold u16_at in Hlen. destruct (slice _ _ _) as [lb|]; [|done]. cbn in Hlen.
      injection Hlen as <-. unfold be_val. apply le_val_range. }
    destruct (io_read_exact_clean (bs "truncated PROXY v2 body: ") r1 (total - FIXED_BYTES) Hc1)
      as [(Hle2 & r2 & Er & Hc2 & Hd2) | (_ & Er)]; [unfold total; lia| |by rewrite Er in E].
    rewrite Er in E. clear Er. cbn [mbind res_bind] in E. apply bind_Ok in E as (q & Hp & E). injection E as <- <-.
    rewrite (parse_effective _ m) in Hp by done.
    exists (ztake FIXED_BYTES (content r) ++ ztake (total - FIXED_BYTES) (content r1)).
    split_and!; [|by apply parse_length in Hp as [[_ ?] _]|done].
    by rewrite <- app_assoc, Hd2, ztake_zdrop, Hd1, ztake_zdrop.
  - intros (pre & Hcr & _ & Hp). destruct (parse_length _ _ _ _ Hp) as [Hpl Hlen].
    assert (∃ mx, maximum_bytes_or_default m = Ok mx) as [mx Hmx].
    { unfold parse_proxy_protocol_v2_with_options in Hp. apply bind_Ok in Hp as (mx & ? & _). eauto. }
    rewrite Hmx. cbn [mbind res_bind]. pose proof (zlen_nonneg rest).
    destruct (io_read_exact_clean (bs "truncated PROXY v2 fixed preamble: ") r FIXED_BYTES Hc)
      as [(Hle & r1 & -> & Hc1 & Hd1) | (Hlt & _)]; [done| |].
    2: { rewrite Hcr, zlen_app in Hlt. unfold FIXED_BYTES in Hlt. lia. }
    cbn [mbind res_bind]. assert (ztake FIXED_BYTES (content r) = ztake 16 pre) as Ht.
    { rewrite Hcr. unfold ztake, FIXED_BYTES, zlen in *. rewrite take_app_le; [done|]. lia. }
    assert (zdrop FIXED_BYTES (content r) = zdrop 16 pre ++ rest) as Hdr.
    { rewrite Hcr. unfold zdrop, FIXED_BYTES, zlen in *. rewrite drop_app_le; [done|]. lia. }
    rewrite Ht, Hlen. cbn [mbind res_bind]. unfold FIXED_BYTES.
    replace (16 + (zlen pre - 16)) with (zlen pre) by lia. apply maximum_bytes_ok in Hmx as Hmx'.
    destruct Hmx' as [-> _]. destruct (Z.ltb_spec (effective_max m) (zlen pre)); [lia|].
    assert (zlen (zdrop 16 pre) = zlen pre - 16) as Hz by (apply zlen_zdrop; lia).
    destruct (io_read_exact_clean (bs "truncated PROXY v2 body: ") r1 (zlen pre - 16) Hc1)
      as [(Hle2 & r2 & -> & Hc2 & Hd2) | (Hlt & _)]; [lia| |].
    2: { rewrite Hd1, Hdr, zlen_app in Hlt. lia. }
    cbn [mbind res_bind]. rewrite Hd1, Hdr in *. rewrite ztake_app_eq, ztake_zdrop by lia.
    rewrite (parse_effective _ m) by done. rewrite Hp. cbn [mbind res_bind].
    eexists. split; [done|]. rewrite Hd2. apply zdrop_app_eq. lia.
Qed.

(** ** Runs *)
Definition demo_preamble : list byte :=
  encode_preamble (BlockTcp4 [x0a; x00; x00; x01] [x7f; x00; x00; x01] 51000 443) [(x04, bs "pad")].

Lemma parse_preamble_exact_witness :
  is_ok (parse_proxy_protocol_v2_with_options demo_preamble 0 false) = true ∧
  no_panic (parse_proxy_protocol_v2_with_options demo_preamble 0 false).
Proof. split; [vm_compute; reflexivity|apply (parse_preamble_exact demo_preamble 0 false)]. Defined.

Definition demo_parsed : ParsedProxyProtocolV2 :=
  mkParsed (block_address (BlockTcp4 [x0a; x00; x00; x01] [x7f; x00; x00; x01] 51000 443)) None.

Lemma read_preamble_exact_witness :
  ∃ r', read_proxy_protocol_v2_with_options [Data (take 9 demo_preamble); Interrupted; Data (drop 9 demo_preamble ++ bs "VGI")] 0 false =
          Ok (demo_parsed, r') ∧ content r' = bs "VGI".
Proof.
  apply (read_preamble_exact [Data (take 9 demo_preamble); Interrupted; Data (drop 9 demo_preamble ++ bs "VGI")] 0 false).
  - repeat constructor; by vm_compute.
  - exists demo_preamble. split_and!; [vm_compute; reflexivity|by vm_compute|vm_compute; reflexivity].
Defined.
