(* ===== verification/Base64.v ===== *)
(** * URL-safe base64 without padding

    A concrete instance of the class [Base64], so that the theorems about tokens
    can be run: groups of three bytes as four characters of RFC 4648's URL-safe
    alphabet, a shorter last group without padding. *)

From S2P Require Import Prelude Bytes Crypto.

Definition alphabet : list byte :=
  bs "ABCDEFGHIJKLMNOPQRSTUVWXYZabcdefghijklmnopqrstuvwxyz0123456789-_".

Definition char_of (d : Z) : byte := default x41 (alphabet !! Z.to_nat (d mod 64)).
Definition digit_of (c : byte) : option Z :=
  Z.of_nat <$> (fst <$> list_find (fun x => x = c) alphabet).

Fixpoint encode64 (l : list byte) : list byte :=
  match l with
  | [] => []
  | [a] => let v := b2z a in [char_of (v / 4); char_of (v * 16)]
  | [a; b] => let v := b2z a * 256 + b2z b in [char_of (v / 1024); char_of (v / 16); char_of (v * 4)]
  | a :: b :: c :: l =>
    let v := b2z a * 65536 + b2z b * 256 + b2z c in
    char_of (v / 262144) :: char_of (v / 4096) :: char_of (v / 64) :: char_of v :: encode64 l
  end.

Fixpoint decode64 (l : list byte) : option (list byte) :=
  match l with
  | [] => Some []
  | [p; q] => x ← digit_of p; y ← digit_of q; Some [z2b ((x * 64 + y) / 16)]
  | [p; q; r] =>
    x ← digit_of p; y ← digit_of q; z ← digit_of r;
    let v := (x * 4096 + y * 64 + z) / 4 in Some [z2b (v / 256); z2b v]
  | p :: q :: r :: s :: l =>
    x ← digit_of p; y ← digit_of q; z ← digit_of r; w ← digit_of s; rest ← decode64 l;
    let v := x * 262144 + y * 4096 + z * 64 + w in
    Some (z2b (v / 65536) :: z2b (v / 256) :: z2b v :: rest)
  | _ => None
  end.

Lemma digit_char d : digit_of (char_of d) = Some (d mod 64).
Proof.
  assert (Forall (fun n => digit_of (char_of (Z.of_nat n)) = Some (Z.of_nat n)) (seq 0 64)) as Hall.
  { repeat (constructor; [reflexivity|]). constructor. }
  pose proof (Z.mod_pos_bound d 64 ltac:(lia)) as Hd. rewrite list.Forall_forall in Hall.
  specialize (Hall (Z.to_nat (d mod 64))). rewrite Z2Nat.id in Hall by lia.
  rewrite <- Hall by (apply elem_of_seq; lia). unfold char_of at 2. by rewrite Z.mod_mod.
Qed.

Lemma char_of_ok d : b64url_char (char_of d) = true.
Proof.
  assert (Forall (fun n => b64url_char (char_of (Z.of_nat n)) = true) (seq 0 64)) as Hall.
  { repeat (constructor; [reflexivity|]). constructor. }
  pose proof (Z.mod_pos_bound d 64 ltac:(lia)) as Hd. rewrite list.Forall_forall in Hall.
  specialize (Hall (Z.to_nat (d mod 64))). rewrite Z2Nat.id in Hall by lia.
  rewrite <- Hall by (apply elem_of_seq; lia). unfold char_of. by rewrite Z.mod_mod.
Qed.

(** Induction in steps of three. *)
Lemma list_ind3 {A} (P : list A → Prop) :
  P [] → (∀ a, P [a]) → (∀ a b, P [a; b]) → (∀ a b c l, P l → P (a :: b :: c :: l)) → ∀ l, P l.
Proof.
  intros H0 H1 H2 H3 l. assert (∀ n l, (length l ≤ n)%nat → P l) as Hn; [|by eapply Hn].
  induction n as [|n IH]; intros [|a [|b [|c k]]] Hl; simpl in Hl; auto; try lia.
  apply H3, IH. lia.
Qed.

Lemma z2b_val z b : z mod 256 = b2z b → z2b z = b.
Proof. intros E. apply b2z_inj. by rewrite b2z_z2b. Qed.

Lemma decode_encode64 l : decode64 (encode64 l) = Some l.
Proof.
  induction l as [|a|a b|a b c l IH] using list_ind3; [done|..];
    cbn [encode64 decode64]; rewrite !digit_char; cbn [mbind option_bind];
    pose proof (b2z_range a).
  - f_equal. f_equal. apply z2b_val. Z.to_euclidean_division_equations. lia.
  - pose proof (b2z_range b). do 2 f_equal; [|f_equal]; apply z2b_val; Z.to_euclidean_division_equations; lia.
  - pose proof (b2z_range b). pose proof (b2z_range c). rewrite IH. cbn [mbind option_bind].
    set (v := b2z a * 65536 + b2z b * 256 + b2z c).
    assert ((v / 262144) mod 64 * 262144 + (v / 4096) mod 64 * 4096 + (v / 64) mod 64 * 64 + v mod 64 = v) as ->.
    { unfold v. Z.to_euclidean_division_equations. lia. }
    do 2 f_equal; [|f_equal; [|f_equal]]; apply z2b_val; unfold v; Z.to_euclidean_division_equations; lia.
Qed.

Lemma encode64_alphabet l : Forall (fun b => b64url_char b = true) (encode64 l).
Proof.
  induction l as [|a|a b|a b c l IH] using list_ind3; cbn [encode64];
    repeat (constructor; [apply char_of_ok|]); done || constructor.
Qed.

Lemma encode64_length l : zlen (encode64 l) = (4 * zlen l + 2) / 3.
Proof.
  induction l as [|a|a b|a b c l IH] using list_ind3; cbn [encode64]; [done..|].
  rewrite !zlen_cons, IH. Z.to_euclidean_division_equations. lia.
Qed.

Definition demo_base64 : Base64 := {|
  b64_encode := encode64; b64_decode := decode64; b64_nopad_decode := decode64;
  b64url_encode := encode64;
  b64url_decode t := l ← decode64 t; if decide (encode64 l = t) then Some l else None;
  b64url_lax_decode := decode64 |}.

Lemma demo_base64_laws : @Base64Laws demo_base64.
Proof.
  split; cbn [b64_encode b64_decode b64url_encode b64url_decode b64url_lax_decode demo_base64].
  - apply decode_encode64.
  - intros l. rewrite decode_encode64. simpl. by rewrite decide_True.
  - apply decode_encode64.
  - intros t l. destruct (decode64 t); [|done]. simpl. case_decide; [|done]. by intros [= <-].
  - apply encode64_alphabet.
  - apply encode64_length.
Qed.
