(* ===== verification/Grants.v ===== *)
(** * Sealed grants

    [vgi-rpc/src/grants.rs]: the configuration of grant keys, the payload codec,
    minting and verifying. A [String] is its UTF-8 bytes; the clock, the random
    grant id and the random nonce are arguments. *)

From S2P Require Import Prelude Bytes ErrorModel Errors F64 Crypto.

Definition GRANT_TOKEN_PREFIX : list byte := bs "vgig1.".
Definition GRANT_KEYS_ENV : list byte := bs "VGI_RPC_GRANT_KEYS".
Definition GRANT_AUDIENCE_ENV : list byte := bs "VGI_RPC_GRANT_AUDIENCE".
Definition GRANT_MAX_TTL_ENV : list byte := bs "VGI_RPC_GRANT_MAX_TTL_SECONDS".
Definition DEFAULT_MAX_TTL_SECONDS : Z := 7 * 24 * 3600.
Definition DEFAULT_CLOCK_SKEW_SECONDS : Z := 60.
Definition MAX_GRANT_TOKEN_CHARS : Z := 4096.
Definition KID_LEN : Z := 8.
Definition ENVELOPE_VERSION : byte := x01.
Definition KID_DOMAIN : list byte := bs "vgi_rpc.grant.kid.v1" ++ [x00].
Definition AAD_DOMAIN : list byte := bs "vgi_rpc.grant.v1" ++ [x00].
Definition MAX_FIELD : Z := 65535.

Record GrantInvalid := mkGrantInvalid { detail : list byte; expired : bool }.
Definition grant_invalid (d : list byte) : GrantInvalid := mkGrantInvalid d false.
Definition grant_lifetime (d : list byte) : GrantInvalid := mkGrantInvalid d true.

Record GrantKeys := mkGrantKeys {
  keys : list (list byte);
  audience : list byte;
  max_ttl_seconds : Z;
  clock_skew_seconds : Z
}.

Record GrantClaims := mkGrantClaims {
  principal : list byte;
  scopes : list (list byte);
  purpose : list byte;
  grant_id : list byte;
  issued_at : Z;
  expires_at : Z
}.

Record MintOverrides := mkMintOverrides {
  ov_now : option Z;
  ov_grant_id : option (list byte);
  ov_nonce : option (list byte)
}.

(** ** The payload *)
Definition pack_text (out value : list byte) : res RpcError (list byte) :=
  if MAX_FIELD <? zlen value
  then Err (RpcErr.value_error (bs "grant field longer than 65535 bytes"))
  else Ok (out ++ le_bytes 2 (zlen value) ++ value).

Definition encode_payload (claims : GrantClaims) : res RpcError (list byte) :=
  if MAX_FIELD <? zlen (scopes claims) then Err (RpcErr.value_error (bs "too many scopes")) else
  let out := le_bytes 8 (issued_at claims) ++ le_bytes 8 (expires_at claims) in
  out ← pack_text out (grant_id claims);
  out ← pack_text out (principal claims);
  out ← pack_text out (purpose claims);
  let out := out ++ le_bytes 2 (zlen (scopes claims)) in
  try_fold pack_text out (scopes claims).

(** [Cursor]: the payload and a position in it. *)
Record Cursor := mkCursor { data : list byte; pos : Z }.

Definition cursor_take (c : Cursor) (n : Z) : res GrantInvalid (list byte * Cursor) :=
  match (e ← checked_add (pos c) n; if e <=? zlen (data c) then Some e else None) with
  | None => Err (grant_invalid (bs "grant payload is truncated"))
  | Some e => chunk ← or_panic (slice (data c) (pos c) e); Ok (chunk, mkCursor (data c) e)
  end.

Definition cursor_i64 (c : Cursor) : res GrantInvalid (Z * Cursor) :=
  '(b, c) ← cursor_take c 8; Ok (le_val_i64 b, c).

Definition cursor_u16 (c : Cursor) : res GrantInvalid (Z * Cursor) :=
  '(b, c) ← cursor_take c 2; Ok (le_val b, c).

Definition cursor_text (c : Cursor) : res GrantInvalid (list byte * Cursor) :=
  '(len, c) ← cursor_u16 c;
  '(b, c) ← cursor_take c len;
  t ← ok_or (grant_invalid (bs "grant payload is not UTF-8")) (from_utf8 b);
  Ok (t, c).

Fixpoint cursor_texts (n : nat) (c : Cursor) : res GrantInvalid (list (list byte) * Cursor) :=
  match n with
  | O => Ok ([], c)
  | S n => '(t, c) ← cursor_text c; '(ts, c) ← cursor_texts n c; Ok (t :: ts, c)
  end.

Definition decode_payload (payload : list byte) : res GrantInvalid GrantClaims :=
  let c := mkCursor payload 0 in
  '(issued, c) ← cursor_i64 c;
  '(expires, c) ← cursor_i64 c;
  '(gid, c) ← cursor_text c;
  '(prin, c) ← cursor_text c;
  '(purp, c) ← cursor_text c;
  '(count, c) ← cursor_u16 c;
  '(scs, c) ← cursor_texts (Z.to_nat count) c;
  if negb (pos c =? zlen payload) then Err (grant_invalid (bs "grant payload has trailing bytes"))
  else Ok (mkGrantClaims prin scs purp gid issued expires).

(** [token_identity::grant_refused] *)
Definition grant_refused (m : list byte) : RpcError :=
  RpcErr.with_status PermissionDenied (bs "grant_refused") (RpcErr.permission_error m).

Section Grants.
Context `{Aead} `{Base64}.

Definition grant_key_id (key : list byte) : list byte := ztake KID_LEN (sha256 (KID_DOMAIN ++ key)).

(** ** Configuration *)
Definition grant_keys_new (ks : list (list byte)) (aud : list byte) (max_ttl skew : Z)
  : res RpcError GrantKeys :=
  if existsb (fun k => negb (zlen k =? KEY_LEN)) ks
  then Err (RpcErr.value_error (bs "every grant key must be exactly ")) else
  if zlen ks =? 0 then Err (RpcErr.value_error (bs "grant configuration needs at least one key")) else
  let kids := remove_dups (grant_key_id <$> ks) in
  if negb (zlen kids =? zlen ks) then Err (RpcErr.value_error (bs "grant keys must be distinct")) else
  if max_ttl <=? 0 then Err (RpcErr.value_error (bs "max_ttl_seconds must be positive")) else
  if skew <? 0 then Err (RpcErr.value_error (bs "clock_skew_seconds must not be negative")) else
  if MAX_FIELD <? zlen aud then Err (RpcErr.value_error (bs "audience is too long")) else
  Ok (mkGrantKeys ks aud max_ttl skew).

(** [text.trim().trim_end_matches('=')] *)
Fixpoint drop_while_eq (l : list byte) : list byte :=
  match l with x3d :: l => drop_while_eq l | l => l end.
Definition strip_key_text (text : list byte) : list byte := rev (drop_while_eq (rev (trim text))).

Definition decode_key (text : list byte) : res RpcError (list byte) :=
  key ← ok_or (RpcErr.value_error (bs "grant key #")) (b64_nopad_decode (strip_key_text text));
  if negb (zlen key =? KEY_LEN) then Err (RpcErr.value_error (bs "grant key #")) else Ok key.

Definition grant_keys_parse (encoded : list (list byte)) (aud : list byte) (max_ttl : Z)
  : res RpcError GrantKeys :=
  ks ← try_fold (fun ks text => key ← decode_key text; Ok (ks ++ [key])) [] encoded;
  grant_keys_new ks aud max_ttl DEFAULT_CLOCK_SKEW_SECONDS.

Definition grant_keys_from_lookup (get : list byte → option (list byte))
  : res RpcError (option GrantKeys) :=
  let raw := default [] (get GRANT_KEYS_ENV) in
  if bool_decide (trim raw = []) then Ok None else
  let ttl_raw := trim (default [] (get GRANT_MAX_TTL_ENV)) in
  max_ttl ← (if bool_decide (ttl_raw = []) then Ok DEFAULT_MAX_TTL_SECONDS
             else ok_or (RpcErr.value_error GRANT_MAX_TTL_ENV) (parse_i64 ttl_raw));
  let aud := default [] (get GRANT_AUDIENCE_ENV) in
  Some <$> grant_keys_parse (filter (fun p => trim p ≠ []) (split_on x2c raw)) aud max_ttl.

Definition grant_keys_from_cli_or_env (cli_keys : list (list byte))
    (env : list byte → option (list byte)) : res RpcError (option GrantKeys) :=
  match cli_keys with
  | [] => grant_keys_from_lookup env
  | _ => let joined := join_with x2c cli_keys in
         grant_keys_from_lookup
           (fun name => if bool_decide (name = GRANT_KEYS_ENV) then Some joined else env name)
  end.

Definition grant_aad (k : GrantKeys) (kid : list byte) : list byte :=
  AAD_DOMAIN ++ kid ++ audience k.

(** ** Tokens *)
Definition not_base64url : GrantInvalid := grant_invalid (bs "grant token is not unpadded base64url").

Definition b64url_strict (text : list byte) : res GrantInvalid (list byte) :=
  let alphabet_ok := negb (bool_decide (text = [])) && forallb b64url_char text in
  if negb alphabet_ok || (zlen text mod 4 =? 1) then Err not_base64url else
  raw ← ok_or not_base64url (b64url_lax_decode text);
  if negb (bool_decide (b64url_encode raw = text))
  then Err (grant_invalid (bs "grant token is not canonical base64url")) else Ok raw.

(** What a mint draws from the outside. *)
Record Entropy := mkEntropy { unix_now : f64; random_id : list byte; random_nonce : list byte }.

Definition random_grant_id (e : Entropy) : list byte := concat (hex_byte <$> random_id e).

Definition mint_grant_token (k : GrantKeys) (prin : list byte) (scs : list (list byte))
    (purp : list byte) (ttl_seconds : Z) (ov : MintOverrides) (e : Entropy)
  : res RpcError (list byte * GrantClaims) :=
  if ttl_seconds <=? 0 then Err (RpcErr.value_error (bs "ttl_seconds must be positive")) else
  let issued := default (f64_to_i64 (unix_now e)) (ov_now ov) in
  expires ← i64_check (issued + Z.min ttl_seconds (max_ttl_seconds k));
  let claims := mkGrantClaims prin scs purp (default (random_grant_id e) (ov_grant_id ov)) issued expires in
  key ← or_panic (znth (keys k) 0);
  let kid := grant_key_id key in
  payload ← encode_payload claims;
  let aad := grant_aad k kid in
  let envelope := match ov_nonce ov with
                  | Some nonce => seal_bytes_with_nonce payload key aad ENVELOPE_VERSION nonce
                  | None => seal_bytes payload key aad ENVELOPE_VERSION (random_nonce e)
                  end in
  Ok (GRANT_TOKEN_PREFIX ++ b64url_encode (kid ++ envelope), claims).

(** [keys.iter().find(|k| grant_key_id(k) == kid)] *)
Definition find_key (kid : list byte) (ks : list (list byte)) : option (list byte) :=
  List.find (fun key => bool_decide (grant_key_id key = kid)) ks.

(** The lifetime checks, on authentic claims. *)
Definition check_lifetime (k : GrantKeys) (claims : GrantClaims) (current : f64)
  : res GrantInvalid GrantClaims :=
  if bool_decide (principal claims = []) then Err (grant_invalid (bs "grant names no principal")) else
  if (expires_at claims <=? issued_at claims)
     || (max_ttl_seconds k <? i64_saturate (expires_at claims - issued_at claims))
  then Err (grant_invalid (bs "grant lifetime exceeds this deployment's maximum")) else
  let skew := f64_of_i64 (clock_skew_seconds k) in
  if f64_gtb (f64_of_i64 (issued_at claims)) (f64_add current skew)
  then Err (grant_lifetime (bs "grant is not yet valid")) else
  if f64_geb current (f64_add (f64_of_i64 (expires_at claims)) skew)
  then Err (grant_lifetime (bs "grant has expired")) else
  Ok claims.

Definition verify_grant_token (k : GrantKeys) (token : list byte) (current : f64)
  : res GrantInvalid GrantClaims :=
  body ← ok_or (grant_invalid (bs "not a sealed grant")) (strip_prefix GRANT_TOKEN_PREFIX token);
  if MAX_GRANT_TOKEN_CHARS <? zlen token then Err (grant_invalid (bs "grant token is too long")) else
  raw ← b64url_strict body;
  if zlen raw <? KID_LEN then Err (grant_invalid (bs "grant token is truncated")) else
  let kid := ztake KID_LEN raw in
  let envelope := zdrop KID_LEN raw in
  key ← ok_or (grant_invalid (bs "grant was sealed with a key this deployment does not hold"))
              (find_key kid (keys k));
  payload ← map_err (fun _ => grant_invalid (bs "grant failed verification"))
                    (open_bytes envelope key (grant_aad k kid) ENVELOPE_VERSION);
  claims ← decode_payload payload;
  check_lifetime k claims current.

(** [sealed_mint_grant]: the token, its expiry in microseconds and its id. *)
Definition sealed_mint_grant (k : GrantKeys) (prin purp : list byte) (scs : list (list byte))
    (ttl_seconds : Z) (e : Entropy) : res RpcError (list byte * Z * list byte) :=
  if ttl_seconds <=? 0 then Err (grant_refused (bs "ttl_seconds must be positive")) else
  match mint_grant_token k prin scs purp ttl_seconds (mkMintOverrides None None None) e with
  | Ok (token, claims) => Ok (token, i64_saturate (expires_at claims * 1000000), grant_id claims)
  | Err err => Err (grant_refused (message err))
  | Panic => Panic
  end.
End Grants.
