(* ===== verification/GrantsProps.v ===== *)
(** * Properties of sealed grants

    The payload codec is a bijection on its format; a minted grant verifies under
    every configuration that keeps its key and audience, exactly during its
    lifetime; and a token that verifies was sealed by a configured key. *)

From S2P Require Import Prelude Bytes Errors F64 Crypto Grants.

(** ** The payload format *)
Definition text (v : list byte) : list byte := le_bytes 2 (zlen v) ++ v.
Definition text_wf (v : list byte) : Prop := zlen v ≤ MAX_FIELD ∧ utf8_valid v = true.

Definition claims_wf (c : GrantClaims) : Prop :=
  in_i64 (issued_at c) ∧ in_i64 (expires_at c) ∧ text_wf (grant_id c) ∧ text_wf (principal c) ∧
  text_wf (purpose c) ∧ zlen (scopes c) ≤ MAX_FIELD ∧ Forall text_wf (scopes c).

Definition payload_of (c : GrantClaims) : list byte :=
  le_bytes 8 (issued_at c) ++ le_bytes 8 (expires_at c) ++ text (grant_id c) ++ text (principal c) ++
  text (purpose c) ++ le_bytes 2 (zlen (scopes c)) ++ concat (text <$> scopes c).

Lemma pack_text_ok out v : zlen v ≤ MAX_FIELD → pack_text out v = Ok (out ++ text v).
Proof. intros. unfold pack_text, text. destruct (Z.ltb_spec MAX_FIELD (zlen v)); [lia|done]. Qed.

Lemma pack_texts_ok ts out :
  Forall (fun v => zlen v ≤ MAX_FIELD) ts →
  try_fold pack_text out ts = Ok (out ++ concat (text <$> ts)).
Proof.
  intros Hts. revert out. induction Hts as [|v ts Hv Hts IH]; intros out; simpl.
  - by rewrite app_nil_r.
  - rewrite pack_text_ok by done. cbn [mbind res_bind]. rewrite IH. by rewrite <- app_assoc.
Qed.

Lemma encode_payload_ok c : claims_wf c → encode_payload c = Ok (payload_of c).
Proof.
  intros (_ & _ & [Hg _] & [Hp _] & [Hu _] & Hn & Hs). unfold encode_payload.
  destruct (Z.ltb_spec MAX_FIELD (zlen (scopes c))); [lia|].
  rewrite !pack_text_ok by done. cbn [mbind res_bind]. rewrite pack_text_ok by done.
  cbn [mbind res_bind]. rewrite pack_text_ok by done. cbn [mbind res_bind]. rewrite pack_texts_ok.
  - unfold payload_of. by rewrite <- !app_assoc.
  - eapply list.Forall_impl; [exact Hs|]. by intros v [? _].
Qed.

(** ** The cursor *)
Definition rest (c : Cursor) : list byte := zdrop (pos c) (data c).
Definition cursor_wf (c : Cursor) : Prop := 0 ≤ pos c ≤ zlen (data c) ∧ zlen (data c) ≤ i64_max.

(** [c'] is [c] after the bytes [l]. *)
Definition after (c : Cursor) (l : list byte) (c' : Cursor) : Prop :=
  cursor_wf c' ∧ data c' = data c ∧ rest c = l ++ rest c'.

Lemma cursor_take_ok c l k :
  cursor_wf c → rest c = l ++ k → ∃ c', cursor_take c (zlen l) = Ok (l, c') ∧ after c l c' ∧ rest c' = k.
Proof.
  intros [Hp Hm] E. assert (zlen (rest c) = zlen (data c) - pos c) as Hz by (by apply zlen_zdrop).
  rewrite E, zlen_app in Hz. pose proof (zlen_nonneg l). pose proof (zlen_nonneg k).
  unfold cursor_take, checked_add. destruct (Z.leb_spec (pos c + zlen l) u64_max); [|ints; lia].
  cbn [mbind option_bind]. destruct (Z.leb_spec (pos c + zlen l) (zlen (data c))); [|lia].
  rewrite slice_ok by lia. cbn [or_panic mbind res_bind]. fold (rest c). rewrite E.
  rewrite ztake_app_eq by lia.
  assert (rest (mkCursor (data c) (pos c + zlen l)) = k) as Hr.
  { unfold rest in *; simpl. rewrite <- zdrop_zdrop, E by lia. by rewrite zdrop_app_eq. }
  eexists. split; [done|]. split; [|done]. split; [split; simpl; lia|]. split; [done|]. by rewrite Hr.
Qed.

Lemma cursor_take_inv c n l c' :
  cursor_wf c → 0 ≤ n → cursor_take c n = Ok (l, c') → after c l c' ∧ zlen l = n.
Proof.
  intros [Hp Hm] Hn E. unfold cursor_take, checked_add in E.
  destruct (Z.leb_spec (pos c + n) u64_max); [|done]. cbn [mbind option_bind] in E.
  destruct (Z.leb_spec (pos c + n) (zlen (data c))); [|done].
  apply bind_Ok in E as (k & Es & E). apply or_panic_Ok in Es. injection E as <- <-.
  pose proof (zlen_slice _ _ _ _ Es) as Hk. apply slice_Some in Es as (_ & _ & Ek).
  split; [|lia]. split; [split; simpl; lia|]. split; [done|]. unfold rest; simpl.
  rewrite Ek, <- (ztake_zdrop (pos c + n - pos c) (zdrop (pos c) (data c))) at 1.
  rewrite zdrop_zdrop by lia. do 2 f_equal. lia.
Qed.

Lemma cursor_take_no_panic c n : cursor_wf c → 0 ≤ n → no_panic (cursor_take c n).
Proof.
  intros [Hp Hm] Hn. unfold cursor_take, checked_add.
  destruct (Z.leb_spec (pos c + n) u64_max); [|done]. cbn [mbind option_bind].
  destruct (Z.leb_spec (pos c + n) (zlen (data c))); [|done]. by rewrite slice_ok by lia.
Qed.

Lemma cursor_i64_ok c z k :
  cursor_wf c → in_i64 z → rest c = le_bytes 8 z ++ k →
  ∃ c', cursor_i64 c = Ok (z, c') ∧ after c (le_bytes 8 z) c' ∧ rest c' = k.
Proof.
  intros Hc Hz E. destruct (cursor_take_ok _ _ _ Hc E) as (c' & Et & Ha).
  exists c'. split; [|done]. unfold cursor_i64. rewrite zlen_le_bytes in Et.
  change 8 with (Z.of_nat 8) at 1. rewrite Et. cbn [mbind res_bind]. by rewrite le_val_i64_bytes.
Qed.

Lemma cursor_u16_ok c n k :
  cursor_wf c → 0 ≤ n ≤ MAX_FIELD → rest c = le_bytes 2 n ++ k →
  ∃ c', cursor_u16 c = Ok (n, c') ∧ after c (le_bytes 2 n) c' ∧ rest c' = k.
Proof.
  intros Hc Hn E. destruct (cursor_take_ok _ _ _ Hc E) as (c' & Et & Ha).
  exists c'. split; [|done]. unfold cursor_u16. rewrite zlen_le_bytes in Et.
  change 2 with (Z.of_nat 2) at 1. rewrite Et. cbn [mbind res_bind].
  rewrite le_val_bytes_small; [done|]. unfold MAX_FIELD in Hn. simpl. lia.
Qed.

Lemma after_trans c l c1 l' c2 : after c l c1 → after c1 l' c2 → after c (l ++ l') c2.
Proof.
  intros (_ & D1 & R1) (W2 & D2 & R2). split; [done|]. split; [congruence|].
  by rewrite R1, R2, <- app_assoc.
Qed.

Lemma cursor_text_ok c v k :
  cursor_wf c → text_wf v → rest c = text v ++ k →
  ∃ c', cursor_text c = Ok (v, c') ∧ after c (text v) c' ∧ rest c' = k.
Proof.
  intros Hc [Hl Hv] E. unfold text in E. rewrite <- app_assoc in E. pose proof (zlen_nonneg v).
  destruct (cursor_u16_ok c (zlen v) _ Hc ltac:(lia) E) as (c1 & E1 & A1 & R1).
  destruct (cursor_take_ok c1 v k (proj1 A1) R1) as (c2 & E2 & A2 & R2).
  exists c2. split; [|split; [by eapply after_trans|done]].
  unfold cursor_text. rewrite E1. cbn [mbind res_bind]. rewrite E2. cbn [mbind res_bind].
  unfold from_utf8. by rewrite Hv.
Qed.

Lemma cursor_texts_ok ts : ∀ c k,
  cursor_wf c → Forall text_wf ts → rest c = concat (text <$> ts) ++ k →
  ∃ c', cursor_texts (length ts) c = Ok (ts, c') ∧ after c (concat (text <$> ts)) c' ∧ rest c' = k.
Proof.
  induction ts as [|v ts IH]; intros c k Hc Hts E.
  - simpl in *. by exists c.
  - apply list.Forall_cons in Hts as [Hv Hts]. cbn [fmap list_fmap concat] in E. rewrite <- app_assoc in E.
    destruct (cursor_text_ok _ _ _ Hc Hv E) as (c1 & E1 & A1 & R1).
    destruct (IH c1 k (proj1 A1) Hts R1) as (c2 & E2 & A2 & R2).
    exists c2. cbn [cursor_texts length]. rewrite E1. cbn [mbind res_bind]. rewrite E2.
    split; [done|]. split; [by eapply after_trans|done].
Qed.

Lemma rest_nil c : cursor_wf c → rest c = [] ↔ pos c = zlen (data c).
Proof.
  intros [Hp _]. assert (zlen (rest c) = zlen (data c) - pos c) as Hz by (by apply zlen_zdrop). split.
  - intros E. rewrite E, zlen_nil in Hz. lia.
  - intros E. apply zlen_0. lia.
Qed.

Lemma decode_payload_ok c :
  claims_wf c → zlen (payload_of c) ≤ i64_max → decode_payload (payload_of c) = Ok c.
Proof.
  intros (Hi & He & Hg & Hp & Hu & Hn & Hs) Hl. unfold decode_payload.
  set (c0 := mkCursor (payload_of c) 0).
  assert (cursor_wf c0) as W0 by (split; simpl; [pose proof (zlen_nonneg (payload_of c)); lia|done]).
  assert (rest c0 = payload_of c) as R0 by done. unfold payload_of in R0.
  destruct (cursor_i64_ok _ _ _ W0 Hi R0) as (c1 & -> & A1 & R1). cbn [mbind res_bind].
  destruct (cursor_i64_ok _ _ _ (proj1 A1) He R1) as (c2 & -> & A2 & R2). cbn [mbind res_bind].
  destruct (cursor_text_ok _ _ _ (proj1 A2) Hg R2) as (c3 & -> & A3 & R3). cbn [mbind res_bind].
  destruct (cursor_text_ok _ _ _ (proj1 A3) Hp R3) as (c4 & -> & A4 & R4). cbn [mbind res_bind].
  destruct (cursor_text_ok _ _ _ (proj1 A4) Hu R4) as (c5 & -> & A5 & R5). cbn [mbind res_bind].
  pose proof (zlen_nonneg (scopes c)).
  destruct (cursor_u16_ok _ (zlen (scopes c)) _ (proj1 A5) ltac:(lia) R5) as (c6 & -> & A6 & R6).
  cbn [mbind res_bind]. replace (Z.to_nat (zlen (scopes c))) with (length (scopes c)) by (unfold zlen; lia).
  rewrite <- (app_nil_r (concat _)) in R6.
  destruct (cursor_texts_ok (scopes c) c6 [] (proj1 A6) Hs R6) as (c7 & -> & A7 & R7).
  cbn [mbind res_bind]. assert (data c7 = payload_of c) as D7.
  { destruct A1 as (_ & D1 & _), A2 as (_ & D2 & _), A3 as (_ & D3 & _), A4 as (_ & D4 & _),
      A5 as (_ & D5 & _), A6 as (_ & D6 & _), A7 as (_ & D7 & _).
    by rewrite D7, D6, D5, D4, D3, D2, D1. }
  apply rest_nil in R7; [|apply A7]. rewrite R7, D7, Z.eqb_refl. by destruct c.
Qed.

(** ** Decoding is strict *)
Lemma le_bytes_val_n n l : zlen l = Z.of_nat n → le_bytes n (le_val l) = l.
Proof. intros Hl. assert (n = length l) as -> by (unfold zlen in Hl; lia). apply le_bytes_val. Qed.

Lemma cursor_i64_inv c z c' :
  cursor_wf c → cursor_i64 c = Ok (z, c') → after c (le_bytes 8 z) c' ∧ in_i64 z.
Proof.
  intros Hc E. unfold cursor_i64 in E. apply bind_Ok in E as ([l c1] & Et & E). injection E as <- <-.
  apply cursor_take_inv in Et as [Ha Hl]; [|done|done].
  assert (length l = 8%nat) as Hl8 by (unfold zlen in Hl; lia).
  pose proof (le_val_i64_range l Hl8) as Hr. split; [|done].
  assert (le_bytes 8 (le_val_i64 l) = l) as ->; [|done].
  rewrite <- (le_bytes_val l) at 2. rewrite Hl8. apply le_val_inj; [by rewrite !length_le_bytes|].
  rewrite !le_val_bytes. unfold le_val_i64. change (2 ^ (8 * Z.of_nat 8)) with (2 ^ 64).
  case_match; [done|]. replace (le_val l - 2 ^ 64) with (le_val l + (-1) * 2 ^ 64) by lia.
  by rewrite Z.mod_add.
Qed.

Lemma cursor_u16_inv c n c' :
  cursor_wf c → cursor_u16 c = Ok (n, c') → after c (le_bytes 2 n) c' ∧ 0 ≤ n ≤ MAX_FIELD.
Proof.
  intros Hc E. unfold cursor_u16 in E. apply bind_Ok in E as ([l c1] & Et & E). injection E as <- <-.
  apply cursor_take_inv in Et as [Ha Hl]; [|done|done]. rewrite le_bytes_val_n by done. split; [done|].
  pose proof (le_val_range l) as Hr. rewrite Hl in Hr. unfold MAX_FIELD. simpl in Hr. lia.
Qed.

Lemma cursor_text_inv c v c' :
  cursor_wf c → cursor_text c = Ok (v, c') → after c (text v) c' ∧ text_wf v.
Proof.
  intros Hc E. unfold cursor_text in E. apply bind_Ok in E as ([n c1] & E1 & E).
  apply cursor_u16_inv in E1 as [A1 Hn]; [|done]. apply bind_Ok in E as ([b c2] & E2 & E).
  apply cursor_take_inv in E2 as [A2 Hb]; [|apply A1|lia].
  apply bind_Ok in E as (t & Et & E). apply ok_or_Ok in Et. unfold from_utf8 in Et.
  destruct (utf8_valid b) eqn:Hv; [|done]. injection Et as <-. injection E as <- <-.
  split; [|split; [lia|done]]. unfold text. rewrite Hb. by eapply after_trans.
Qed.

Lemma cursor_texts_inv n : ∀ c ts c',
  cursor_wf c → cursor_texts n c = Ok (ts, c') →
  after c (concat (text <$> ts)) c' ∧ Forall text_wf ts ∧ length ts = n.
Proof.
  induction n as [|n IH]; intros c ts c' Hc E; cbn [cursor_texts] in E.
  - injection E as <- <-. by split.
  - apply bind_Ok in E as ([v c1] & E1 & E). apply cursor_text_inv in E1 as [A1 Hv]; [|done].
    apply bind_Ok in E as ([vs c2] & E2 & E). apply IH in E2 as (A2 & Hvs & Hl); [|apply A1].
    injection E as <- <-. split_and!; [by eapply after_trans|by constructor|simpl; lia].
Qed.

Lemma decode_payload_strict p c :
  zlen p ≤ i64_max → decode_payload p = Ok c → claims_wf c ∧ p = payload_of c.
Proof.
  intros Hl E. unfold decode_payload in E. set (c0 := mkCursor p 0) in *.
  assert (cursor_wf c0) as W0 by (split; simpl; [pose proof (zlen_nonneg p); lia|done]).
  apply bind_Ok in E as ([i c1] & E1 & E). apply cursor_i64_inv in E1 as [A1 Hi]; [|done].
  apply bind_Ok in E as ([e c2] & E2 & E). apply cursor_i64_inv in E2 as [A2 He]; [|apply A1].
  apply bind_Ok in E as ([g c3] & E3 & E). apply cursor_text_inv in E3 as [A3 Hg]; [|apply A2].
  apply bind_Ok in E as ([pr c4] & E4 & E). apply cursor_text_inv in E4 as [A4 Hp]; [|apply A3].
  apply bind_Ok in E as ([pu c5] & E5 & E). apply cursor_text_inv in E5 as [A5 Hu]; [|apply A4].
  apply bind_Ok in E as ([n c6] & E6 & E). apply cursor_u16_inv in E6 as [A6 Hn]; [|apply A5].
  apply bind_Ok in E as ([ss c7] & E7 & E). apply cursor_texts_inv in E7 as (A7 & Hs & Hsl); [|apply A6].
  assert (zlen ss = n) as Hz by (unfold zlen; lia).
  pose proof (after_trans _ _ _ _ _ A1 (after_trans _ _ _ _ _ A2 (after_trans _ _ _ _ _ A3
    (after_trans _ _ _ _ _ A4 (after_trans _ _ _ _ _ A5 (after_trans _ _ _ _ _ A6 A7))))))
    as (W7 & D7 & R7).
  destruct (Z.eqb_spec (pos c7) (zlen p)) as [Hpos|]; [|done]. cbn [negb] in E. injection E as <-.
  assert (rest c7 = []) as Hr by (apply rest_nil; [done|]; by rewrite D7, Hpos).
  rewrite Hr, app_nil_r in R7. change (rest c0) with p in R7.
  split; [unfold claims_wf; simpl; split_and!; try done; try lia|].
  unfold payload_of; simpl. by rewrite Hz.
Qed.

Lemma decode_payload_no_panic p : zlen p ≤ i64_max → no_panic (decode_payload p).
Proof.
  intros Hl. unfold decode_payload.
  assert (cursor_wf (mkCursor p 0)) as W0 by (split; simpl; [pose proof (zlen_nonneg p); lia|done]).
  assert (∀ c, cursor_wf c → no_panic (cursor_i64 c)) as Hi.
  { intros c Hc. apply bind_no_panic; [by apply cursor_take_no_panic|]. by intros []. }
  assert (∀ c, cursor_wf c → no_panic (cursor_u16 c)) as Hu.
  { intros c Hc. apply bind_no_panic; [by apply cursor_take_no_panic|]. by intros []. }
  assert (∀ c, cursor_wf c → no_panic (cursor_text c)) as Ht.
  { intros c Hc. apply bind_no_panic; [by apply Hu|]. intros [n c1] [A1 Hn]%cursor_u16_inv; [|done].
    apply bind_no_panic; [apply cursor_take_no_panic; [apply A1|lia]|]. intros [b c2] _.
    apply bind_no_panic; [apply ok_or_no_panic|done]. }
  assert (∀ n c, cursor_wf c → no_panic (cursor_texts n c)) as Hts.
  { induction n as [|n IH]; intros c Hc; [done|]. cbn [cursor_texts].
    apply bind_no_panic; [by apply Ht|]. intros [v c1] [A1 _]%cursor_text_inv; [|done].
    apply bind_no_panic; [apply IH, A1|]. by intros []. }
  apply bind_no_panic; [by apply Hi|]. intros [i c1] [A1 _]%cursor_i64_inv; [|done].
  apply bind_no_panic; [apply Hi, A1|]. intros [e c2] [A2 _]%cursor_i64_inv; [|apply A1].
  apply bind_no_panic; [apply Ht, A2|]. intros [g c3] [A3 _]%cursor_text_inv; [|apply A2].
  apply bind_no_panic; [apply Ht, A3|]. intros [pr c4] [A4 _]%cursor_text_inv; [|apply A3].
  apply bind_no_panic; [apply Ht, A4|]. intros [pu c5] [A5 _]%cursor_text_inv; [|apply A4].
  apply bind_no_panic; [apply Hu, A5|]. intros [n c6] [A6 _]%cursor_u16_inv; [|apply A5].
  apply bind_no_panic; [apply Hts, A6|]. intros [ss c7] _. by case_match.
Qed.

Lemma payload_small c : claims_wf c → zlen (payload_of c) ≤ i64_max.
Proof.
  intros (_ & _ & [Hg _] & [Hp _] & [Hu _] & Hn & Hs). unfold payload_of, text.
  assert (zlen (concat (text <$> scopes c)) ≤ 65537 * zlen (scopes c)) as Hc.
  { clear Hn. induction Hs as [|v ts [Hv _] Hts IH]; [done|]. cbn [fmap list_fmap concat].
    unfold text at 1. rewrite !zlen_app, zlen_le_bytes, zlen_cons. unfold MAX_FIELD in Hv. lia. }
  rewrite !zlen_app, !zlen_le_bytes. unfold MAX_FIELD in *. ints.
  unfold text in Hc. lia.
Qed.

(** The grant payload codec: encoding and strict decoding are inverse to each
    other on well-formed claims (UTF-8 texts and counts of at most 65535, [i64]
    times); a payload that decodes is the one encoding of what it decodes to, so
    trailing bytes, bad lengths and bad UTF-8 are refused; decoding never panics. *)
Theorem grant_payload_codec c p :
  (claims_wf c → ∃ q, encode_payload c = Ok q ∧ decode_payload q = Ok c) ∧
  (zlen p ≤ i64_max →
     no_panic (decode_payload p) ∧
     (decode_payload p = Ok c → claims_wf c ∧ encode_payload c = Ok p)).
Proof.
  split.
  - intros Hc. exists (payload_of c). split; [by apply encode_payload_ok|].
    apply decode_payload_ok; [done|by apply payload_small].
  - intros Hl. split; [by apply decode_payload_no_panic|].
    intros E. apply decode_payload_strict in E as [Hc ->]; [|done]. split; [done|].
    by apply encode_payload_ok.
Qed.

Section Tokens.
Context `{AeadLaws} `{Base64Laws}.

(** ** Spelling *)
Lemma b64url_strict_ok raw : raw ≠ [] → b64url_strict (b64url_encode raw) = Ok raw.
Proof.
  intros Hr. unfold b64url_strict. pose proof (b64url_length raw) as Hl.
  assert (1 ≤ zlen raw) as Hn.
  { destruct raw; [done|]. rewrite zlen_cons. pose proof (zlen_nonneg raw). lia. }
  rewrite bool_decide_eq_false_2.
  2: { intros E. rewrite E, zlen_nil in Hl. Z.to_euclidean_division_equations. lia. }
  assert (forallb b64url_char (b64url_encode raw) = true) as ->.
  { apply forallb_forall. intros b Hb. pose proof (b64url_alphabet raw) as Hf.
    rewrite list.Forall_forall in Hf. apply Hf. by apply list_elem_of_In. }
  destruct (Z.eqb_spec (zlen (b64url_encode raw) mod 4) 1) as [Em|]; cbn [negb andb orb].
  { rewrite Hl in Em. exfalso. Z.to_euclidean_division_equations. lia. }
  rewrite b64url_lax_decode_encode. cbn [ok_or mbind res_bind]. by rewrite bool_decide_eq_true_2.
Qed.

Lemma b64url_strict_inv t raw : b64url_strict t = Ok raw → t = b64url_encode raw.
Proof.
  unfold b64url_strict. intros E. case_match; [done|]. apply bind_Ok in E as (r & _ & E).
  case_bool_decide; [|done]. by injection E as <-.
Qed.

Lemma b64url_strict_no_panic t : no_panic (b64url_strict t).
Proof.
  unfold b64url_strict. case_match; [done|]. apply bind_no_panic; [apply ok_or_no_panic|].
  intros r _. by case_match.
Qed.

(** ** Keys *)
Lemma kid_len key : zlen (grant_key_id key) = 8.
Proof. unfold grant_key_id. apply zlen_ztake. by rewrite sha256_len. Qed.

Lemma find_key_inv kid ks key :
  find_key kid ks = Some key → key ∈ ks ∧ grant_key_id key = kid.
Proof.
  intros [Hin Hk]%find_some. split; [by apply list_elem_of_In|]. by case_bool_decide.
Qed.

Lemma find_key_ok ks key :
  NoDup (grant_key_id <$> ks) → key ∈ ks → find_key (grant_key_id key) ks = Some key.
Proof.
  intros Hn Hin. destruct (find_key (grant_key_id key) ks) as [key'|] eqn:E.
  - apply find_key_inv in E as [Hin' Ek]. f_equal.
    apply list_elem_of_lookup in Hin as [i Hi], Hin' as [j Hj].
    assert (i = j) as ->; [|congruence].
    eapply list.NoDup_lookup; [exact Hn|rewrite list_lookup_fmap, Hi; done|].
    rewrite list_lookup_fmap, Hj. simpl. by rewrite Ek.
  - unfold find_key in E. eapply find_none in E; [|by apply list_elem_of_In].
    by rewrite bool_decide_eq_true_2 in E.
Qed.

Lemma find_key_None kid ks : kid ∉ grant_key_id <$> ks → find_key kid ks = None.
Proof.
  intros Hk. destruct (find_key kid ks) as [key|] eqn:E; [|done].
  apply find_key_inv in E as [Hin <-]. exfalso. apply Hk. by apply list_elem_of_fmap_2.
Qed.

Lemma length_remove_dups_le {A} `{EqDecision A} (l : list A) : (length (remove_dups l) ≤ length l)%nat.
Proof. induction l as [|x l IH]; simpl; [done|]. case_decide; simpl; lia. Qed.

Lemma remove_dups_NoDup_length {A} `{EqDecision A} (l : list A) :
  length (remove_dups l) = length l → NoDup l.
Proof.
  induction l as [|x l IH]; simpl; intros E; [constructor|].
  pose proof (length_remove_dups_le l). case_decide as Hd; simpl in E; [lia|].
  constructor; [done|]. apply IH. lia.
Qed.

(** A configuration that was accepted. *)
Lemma grant_keys_new_ok ks aud ttl skew k :
  grant_keys_new ks aud ttl skew = Ok k →
  k = mkGrantKeys ks aud ttl skew ∧ ks ≠ [] ∧ Forall (fun key => zlen key = KEY_LEN) ks ∧
  NoDup (grant_key_id <$> ks) ∧ 0 < ttl ∧ 0 ≤ skew ∧ zlen aud ≤ MAX_FIELD.
Proof.
  unfold grant_keys_new. intros E. destruct (existsb _ ks) eqn:Ex; [done|].
  destruct (Z.eqb_spec (zlen ks) 0) as [|Hn]; [done|].
  destruct (Z.eqb_spec (zlen (remove_dups (grant_key_id <$> ks))) (zlen ks)) as [Hd|]; [|done].
  cbn [negb] in E. destruct (Z.leb_spec ttl 0); [done|]. destruct (Z.ltb_spec skew 0); [done|].
  destruct (Z.ltb_spec MAX_FIELD (zlen aud)); [done|]. injection E as <-.
  split_and!; try done; try lia.
  - by intros ->.
  - apply list.Forall_forall. intros key Hin. destruct (Z.eqb_spec (zlen key) KEY_LEN); [done|].
    assert (existsb (fun k => negb (zlen k =? KEY_LEN)) ks = true) as Ht; [|congruence].
    apply existsb_exists. exists key. split; [by apply list_elem_of_In|].
    by destruct (Z.eqb_spec (zlen key) KEY_LEN).
  - apply remove_dups_NoDup_length. unfold zlen in Hd. rewrite length_fmap. lia.
Qed.

(** ** The lifetime window *)
Lemma check_lifetime_ticks k c t :
  principal c ≠ [] → 0 ≤ issued_at c < expires_at c → expires_at c - issued_at c ≤ max_ttl_seconds k →
  0 ≤ clock_skew_seconds k → (expires_at c + clock_skew_seconds k) * 2 ^ 22 < 2 ^ 53 →
  0 ≤ t → t + clock_skew_seconds k * 2 ^ 22 < 2 ^ 53 →
  check_lifetime k c (f64_ticks t) =
    if t + clock_skew_seconds k * 2 ^ 22 <? issued_at c * 2 ^ 22
    then Err (grant_lifetime (bs "grant is not yet valid"))
    else if (expires_at c + clock_skew_seconds k) * 2 ^ 22 <=? t
    then Err (grant_lifetime (bs "grant has expired"))
    else Ok c.
Proof.
  intros Hp Hi Hm Hs He Ht Hts. unfold check_lifetime. rewrite bool_decide_eq_false_2 by done.
  destruct (Z.leb_spec (expires_at c) (issued_at c)); [lia|]. cbn [orb].
  assert (i64_saturate (expires_at c - issued_at c) = expires_at c - issued_at c) as ->.
  { unfold i64_saturate. ints. lia. }
  destruct (Z.ltb_spec (max_ttl_seconds k) (expires_at c - issued_at c)); [lia|].
  rewrite !f64_of_i64_ticks by lia. rewrite !f64_add_ticks by lia.
  rewrite f64_gtb_ticks, f64_geb_ticks.
  replace (expires_at c * 2 ^ 22 + clock_skew_seconds k * 2 ^ 22) with
    ((expires_at c + clock_skew_seconds k) * 2 ^ 22) by lia. done.
Qed.

Lemma check_lifetime_no_panic k c now : no_panic (check_lifetime k c now).
Proof. unfold check_lifetime. by repeat (case_match; [done|]). Qed.

(** ** The shape of a token *)
Definition grant_token (k : GrantKeys) (key payload nonce : list byte) : list byte :=
  GRANT_TOKEN_PREFIX ++ b64url_encode (grant_key_id key ++
    seal_bytes_with_nonce payload key (grant_aad k (grant_key_id key)) ENVELOPE_VERSION nonce).

Lemma mint_ok k key ks prin scs purp ttl ov e tok c :
  keys k = key :: ks → mint_grant_token k prin scs purp ttl ov e = Ok (tok, c) →
  ∃ payload, encode_payload c = Ok payload ∧
    tok = grant_token k key payload (default (random_nonce e) (ov_nonce ov)) ∧
    principal c = prin ∧ scopes c = scs ∧ purpose c = purp ∧
    expires_at c = issued_at c + Z.min ttl (max_ttl_seconds k) ∧ 0 < ttl.
Proof.
  intros Hk E. unfold mint_grant_token in E. destruct (Z.leb_spec ttl 0); [done|].
  apply bind_Ok in E as (ex & Hex & E). rewrite Hk in E. cbn [znth Z.leb] in E.
  assert (znth (key :: ks) 0 = Some key) as Hz by done. rewrite Hz in E. cbn [or_panic mbind res_bind] in E.
  apply bind_Ok in E as (payload & Hp & E). injection E as <- <-.
  exists payload. split; [done|]. split.
  - unfold grant_token, seal_bytes. by destruct (ov_nonce ov).
  - simpl. split_and!; try done. unfold i64_check in Hex. case_match; [|done]. by injection Hex.
Qed.

Lemma verify_token k0 k key payload nonce c now :
  audience k = audience k0 → zlen (grant_token k0 key payload nonce) ≤ MAX_GRANT_TOKEN_CHARS →
  NoDup (grant_key_id <$> keys k) → key ∈ keys k → zlen nonce = NONCE_LEN →
  decode_payload payload = Ok c →
  verify_grant_token k (grant_token k0 key payload nonce) now = check_lifetime k c now.
Proof.
  intros Ha Hl Hn Hin Hnl Hd. unfold verify_grant_token.
  destruct (Z.ltb_spec MAX_GRANT_TOKEN_CHARS (zlen (grant_token k0 key payload nonce))); [lia|].
  unfold grant_token. rewrite strip_prefix_app. cbn [ok_or mbind res_bind].
  pose proof (kid_len key) as Hk. rewrite b64url_strict_ok.
  2: { intros E. apply (f_equal zlen) in E. rewrite zlen_app, Hk, zlen_nil in E.
       pose proof (zlen_nonneg (seal_bytes_with_nonce payload key (grant_aad k0 (grant_key_id key)) ENVELOPE_VERSION nonce)). lia. }
  cbn [mbind res_bind]. rewrite zlen_app, Hk.
  match goal with |- context [8 + zlen ?s] => pose proof (zlen_nonneg s) end.
  destruct (Z.ltb_spec (8 + zlen (seal_bytes_with_nonce payload key (grant_aad k0 (grant_key_id key)) ENVELOPE_VERSION nonce)) KID_LEN);
    [unfold KID_LEN in *; lia|].
  rewrite ztake_app_eq, zdrop_app_eq by (by rewrite Hk). rewrite find_key_ok by done.
  cbn [ok_or mbind res_bind]. assert (grant_aad k (grant_key_id key) = grant_aad k0 (grant_key_id key)) as ->.
  { unfold grant_aad. by rewrite Ha. }
  rewrite open_seal by done. cbn [map_err mbind res_bind]. by rewrite Hd.
Qed.

(** A minted grant under a configuration that keeps its key and audience. *)
Lemma mint_verifies ks aud ttl_max skew k key ks0 ttl_max0 skew0 k0
    prin scs purp ttl ov e tok c t :
  grant_keys_new (key :: ks0) aud ttl_max0 skew0 = Ok k0 →
  grant_keys_new ks aud ttl_max skew = Ok k → key ∈ ks → ttl_max0 ≤ ttl_max →
  mint_grant_token k0 prin scs purp ttl ov e = Ok (tok, c) →
  zlen tok ≤ MAX_GRANT_TOKEN_CHARS → zlen (default (random_nonce e) (ov_nonce ov)) = NONCE_LEN →
  claims_wf c → prin ≠ [] → 0 ≤ issued_at c → (expires_at c + skew) * 2 ^ 22 < 2 ^ 53 →
  0 ≤ t → t + skew * 2 ^ 22 < 2 ^ 53 →
  verify_grant_token k tok (f64_ticks t) =
    if t + skew * 2 ^ 22 <? issued_at c * 2 ^ 22
    then Err (grant_lifetime (bs "grant is not yet valid"))
    else if (expires_at c + skew) * 2 ^ 22 <=? t
    then Err (grant_lifetime (bs "grant has expired"))
    else Ok c.
Proof.
  intros Hk0 Hk Hin Htt Hmint Hlen Hnl Hwf Hp Hi He Ht Hts.
  apply grant_keys_new_ok in Hk0 as (-> & _ & _ & _ & Ht0 & _).
  apply grant_keys_new_ok in Hk as (-> & _ & _ & Hnd & Htm & Hsk & _).
  eapply mint_ok in Hmint as (payload & Hpl & Etok & Hpr & _ & _ & Hex & Httl); [|done].
  subst tok. rewrite (encode_payload_ok c Hwf) in Hpl. injection Hpl as <-. simpl in Hex.
  erewrite verify_token; try done; [|by apply decode_payload_ok, payload_small].
  rewrite check_lifetime_ticks; simpl; try done; try lia. by rewrite Hpr.
Qed.

(** A minted grant verifies: under any accepted configuration that holds the
    minting key (in any position, so across a rotation), the same audience and at
    least the lifetime, a token of at most 4096 characters yields exactly the
    claims that were minted from [issued_at - skew] until [expires_at + skew]
    seconds, and is refused as not yet valid before and as expired after. *)
Theorem mint_verify_window ks aud ttl_max skew k key ks0 ttl_max0 skew0 k0
    prin scs purp ttl ov e tok c t :
  grant_keys_new (key :: ks0) aud ttl_max0 skew0 = Ok k0 →
  grant_keys_new ks aud ttl_max skew = Ok k → key ∈ ks → ttl_max0 ≤ ttl_max →
  mint_grant_token k0 prin scs purp ttl ov e = Ok (tok, c) →
  zlen tok ≤ MAX_GRANT_TOKEN_CHARS → zlen (default (random_nonce e) (ov_nonce ov)) = NONCE_LEN →
  claims_wf c → prin ≠ [] → 0 ≤ issued_at c → (expires_at c + skew) * 2 ^ 22 < 2 ^ 53 →
  0 ≤ t → t + skew * 2 ^ 22 < 2 ^ 53 →
  verify_grant_token k tok (f64_ticks t) =
    if t + skew * 2 ^ 22 <? issued_at c * 2 ^ 22
    then Err (grant_lifetime (bs "grant is not yet valid"))
    else if (expires_at c + skew) * 2 ^ 22 <=? t
    then Err (grant_lifetime (bs "grant has expired"))
    else Ok c.
Proof. apply mint_verifies. Qed.

(** The payload of a token is no longer than the token. *)
Lemma token_payload_small raw key aad v payload nonce :
  zlen (b64url_encode raw) ≤ MAX_GRANT_TOKEN_CHARS →
  zdrop KID_LEN raw = seal_bytes_with_nonce payload key aad v nonce → zlen payload ≤ i64_max.
Proof.
  intros Hl E. pose proof (aead_length (normalize_key key) nonce aad payload) as Ha.
  assert (zlen (zdrop KID_LEN raw) ≤ zlen raw) as Hd by (unfold zdrop, zlen; rewrite length_drop; lia).
  rewrite E in Hd. unfold seal_bytes_with_nonce in Hd. rewrite zlen_cons, zlen_app in Hd.
  rewrite b64url_length in Hl. pose proof (zlen_nonneg nonce). unfold MAX_GRANT_TOKEN_CHARS, TAG_LEN in *.
  ints. Z.to_euclidean_division_equations. lia.
Qed.

(** A token that verifies is genuine: it is the one spelling of a token sealed
    by a key of the configuration for this audience, from exactly the claims it
    yields; the claims name a principal and a lifetime within the configured
    maximum. So a forged, altered or re-spelled token, one for another audience,
    and every grant of a key that was removed are refused, and no token makes
    verification panic. *)
Theorem verify_grant_sound k tok now :
  (∀ c, verify_grant_token k tok now = Ok c →
     ∃ key nonce payload, key ∈ keys k ∧ zlen nonce = NONCE_LEN ∧ zlen tok ≤ MAX_GRANT_TOKEN_CHARS ∧
       tok = GRANT_TOKEN_PREFIX ++ b64url_encode (grant_key_id key ++
               seal_bytes_with_nonce payload key (grant_aad k (grant_key_id key)) ENVELOPE_VERSION nonce) ∧
       encode_payload c = Ok payload ∧ principal c ≠ [] ∧ issued_at c < expires_at c ∧
       i64_saturate (expires_at c - issued_at c) ≤ max_ttl_seconds k) ∧
  no_panic (verify_grant_token k tok now).
Proof.
  assert (∀ body raw, tok = GRANT_TOKEN_PREFIX ++ body → zlen tok ≤ MAX_GRANT_TOKEN_CHARS →
    body = b64url_encode raw → zlen (b64url_encode raw) ≤ MAX_GRANT_TOKEN_CHARS) as Hsmall.
  { intros body raw -> Hl <-. rewrite zlen_app in Hl. pose proof (zlen_nonneg GRANT_TOKEN_PREFIX). lia. }
  unfold verify_grant_token. split.
  - intros c E. apply bind_Ok in E as (body & Hb & E).
    apply ok_or_Ok, strip_prefix_Some in Hb. destruct (Z.ltb_spec MAX_GRANT_TOKEN_CHARS (zlen tok)); [done|].
    apply bind_Ok in E as (raw & Hr & E). apply b64url_strict_inv in Hr.
    case_match; [done|]. apply bind_Ok in E as (key & Hkey & E).
    apply ok_or_Ok, find_key_inv in Hkey as [Hin Hkid]. apply bind_Ok in E as (payload & Ho & E).
    destruct (open_bytes (zdrop KID_LEN raw) key (grant_aad k (ztake KID_LEN raw)) ENVELOPE_VERSION)
      as [pl|?|] eqn:Eo; cbn [map_err] in Ho; [|done..]. injection Ho as ->.
    apply open_authentic in Eo as (nonce & Hn & Henv). apply bind_Ok in E as (c' & Hd & E).
    exists key, nonce, payload. unfold check_lifetime in E. case_bool_decide as Hpr; [done|].
    destruct (Z.leb_spec (expires_at c') (issued_at c')); [done|]. cbn [orb] in E.
    destruct (Z.ltb_spec (max_ttl_seconds k) (i64_saturate (expires_at c' - issued_at c'))); [done|].
    case_match; [done|]. case_match; [done|]. injection E as ->.
    split_and!; try done; try lia.
    + rewrite Hb, Hr. do 2 f_equal. by rewrite Hkid, <- Henv, ztake_zdrop.
    + apply decode_payload_strict in Hd as [Hwf ->]; [by apply encode_payload_ok|].
      eapply token_payload_small; [by eapply Hsmall|done].
  - apply bind_no_panic; [apply ok_or_no_panic|].
    intros body Hb%ok_or_Ok%strip_prefix_Some.
    destruct (Z.ltb_spec MAX_GRANT_TOKEN_CHARS (zlen tok)); [done|].
    apply bind_no_panic; [apply b64url_strict_no_panic|]. intros raw Hr%b64url_strict_inv.
    case_match; [done|]. apply bind_no_panic; [apply ok_or_no_panic|]. intros key _.
    pose proof (open_no_panic (zdrop KID_LEN raw) key (grant_aad k (ztake KID_LEN raw)) ENVELOPE_VERSION) as Ho.
    apply bind_no_panic; [by destruct (open_bytes _ _ _ _)|].
    intros payload Hp. apply bind_no_panic; [|intros; apply check_lifetime_no_panic].
    destruct (open_bytes (zdrop KID_LEN raw) key (grant_aad k (ztake KID_LEN raw)) ENVELOPE_VERSION)
      as [pl|?|] eqn:Eo; cbn [map_err] in Hp; [|done..]. injection Hp as ->.
    apply open_authentic in Eo as (nonce & Hn & Henv). apply decode_payload_no_panic.
    eapply token_payload_small; [by eapply Hsmall|done].
Qed.

(** Minting does not look at the length of what it mints: a grant whose token
    passes 4096 characters is issued, and no configuration at any time accepts it. *)
Theorem mint_oversize_refused k prin scs purp ttl ov e tok c :
  mint_grant_token k prin scs purp ttl ov e = Ok (tok, c) → MAX_GRANT_TOKEN_CHARS < zlen tok →
  ∀ k' now, verify_grant_token k' tok now = Err (grant_invalid (bs "grant token is too long")).
Proof.
  intros Hm Hl k' now. assert (∃ body, tok = GRANT_TOKEN_PREFIX ++ body) as [body ->].
  { unfold mint_grant_token in Hm. case_match; [done|]. apply bind_Ok in Hm as (? & _ & Hm).
    apply bind_Ok in Hm as (? & _ & Hm). apply bind_Ok in Hm as (? & _ & Hm). injection Hm as <- _. eauto. }
  unfold verify_grant_token. rewrite strip_prefix_app. cbn [ok_or mbind res_bind].
  destruct (Z.ltb_spec MAX_GRANT_TOKEN_CHARS (zlen (GRANT_TOKEN_PREFIX ++ body))); [done|lia].
Qed.
End Tokens.
