(* ===== verification/Auth.v ===== *)
(** * Authentication callbacks

    [vgi-rpc/src/auth/mod.rs] and [auth/bearer.rs]: the caller's context, the view
    of a request a callback gets, the composition of callbacks and the bearer-token
    callback. A callback may keep state of its own (a replay cache, a key cache):
    it is a function of the request and of a state it may change. *)

From S2P Require Import Prelude Bytes Errors.

Record AuthContext := mkAuthContext {
  domain : list byte;
  authenticated : bool;
  principal : list byte;
  claims : Metadata
}.

#[global] Instance AuthContext_eq_dec : EqDecision AuthContext.
Proof. solve_decision. Defined.

Definition anonymous : AuthContext := mkAuthContext [] false [] ∅.

Definition for_principal (d p : list byte) : AuthContext := mkAuthContext d true p ∅.

Definition require_authenticated (c : AuthContext) : res RpcError unit :=
  if authenticated c then Ok tt else Err (RpcErr.permission_error (bs "authentication required")).

Definition with_claim (c : AuthContext) (k v : list byte) : AuthContext :=
  mkAuthContext (domain c) (authenticated c) (principal c) (<[k := v]> (claims c)).

Record AuthRequest := mkAuthRequest {
  method : list byte;
  headers : list (list byte * list byte);
  peer_addr : option (list byte)
}.

Definition anonymous_pipe (m : list byte) : AuthRequest := mkAuthRequest m [] None.

Definition header (r : AuthRequest) (name : list byte) : option (list byte) :=
  snd <$> List.find (fun kv => eq_ignore_ascii_case kv.1 name) (headers r).

Definition bearer_scheme : list byte := bs "Bearer ".

(** [extract_bearer]: the slices of a header panic off a character boundary. *)
Definition extract_bearer (r : AuthRequest) : res RpcError (option (list byte)) :=
  match header r (bs "authorization") with
  | None => Ok None
  | Some h =>
    if zlen bearer_scheme <? zlen h then
      scheme ← or_panic (str_slice h 0 (zlen bearer_scheme));
      if eq_ignore_ascii_case scheme bearer_scheme then
        rest ← or_panic (str_slice h (zlen bearer_scheme) (zlen h));
        let tok := trim rest in
        Ok (if bool_decide (tok = []) then None else Some tok)
      else Ok None
    else Ok None
  end.

Section Callbacks.
Context {S : Type}.

Definition Authenticate : Type := AuthRequest → S → res RpcError AuthContext * S.

Definition chain_authenticate (a b : Authenticate) : Authenticate := fun req s =>
  match a req s with
  | (Ok first, s) => if authenticated first then (Ok first, s) else b req s
  | failed => failed
  end.

Definition chain_all (cbs : list Authenticate) : option Authenticate :=
  match cbs with
  | [] => None
  | acc :: it => Some (fold_left chain_authenticate it acc)
  end.

Definition bearer_authenticate (validator : list byte → option AuthContext) : Authenticate := fun req s =>
  (tok ← extract_bearer req;
   match tok with
   | None => Ok anonymous
   | Some token => Ok (default anonymous (validator token))
   end, s).

(** [constant_time_eq]: the disjunction of the bytewise differences. *)
Definition constant_time_eq (a b : list byte) : bool :=
  if negb (zlen a =? zlen b) then false
  else foldl (fun diff xy => Z.lor diff (Z.lxor (b2z xy.1) (b2z xy.2))) 0 (zip a b) =? 0.

(** The scan of every entry, in the order the map yields them. *)
Definition static_validator (encoded : list (list byte * AuthContext)) (tok : list byte)
  : option AuthContext :=
  foldl (fun found kc => if constant_time_eq tok kc.1 && bool_decide (found = None)
                         then Some kc.2 else found) None encoded.

Definition bearer_authenticate_static (encoded : list (list byte * AuthContext)) : Authenticate :=
  bearer_authenticate (static_validator encoded).
End Callbacks.
Arguments Authenticate : clear implicits.

(** ** The chain decides like its first decisive callback *)
Section ChainProps.
Context {S : Type}.
Implicit Types (f : Authenticate S) (req : AuthRequest) (s : S).

(** Left to right, stopping at the first error, panic or authenticated context;
    the answer of the last callback is the answer. *)
Fixpoint first_decisive (cbs : list (Authenticate S)) (last : res RpcError AuthContext) req s
  : res RpcError AuthContext * S :=
  match cbs with
  | [] => (last, s)
  | f :: cbs =>
    match f req s with
    | (Ok c, s') => if authenticated c then (Ok c, s') else first_decisive cbs (Ok c) req s'
    | stopped => stopped
    end
  end.

Lemma chain_fold it f req s last :
  fold_left chain_authenticate it f req s = first_decisive (f :: it) last req s.
Proof.
  revert f s. induction it as [|g it IH]; intros f s; cbn [fold_left].
  - simpl. destruct (f req s) as [[c|e|] s']; [|done..]. by destruct (authenticated c).
  - rewrite IH. cbn [first_decisive]. unfold chain_authenticate.
    destruct (f req s) as [[c|e|] s'] eqn:E; [|done..].
    destruct (authenticated c) eqn:Ec; [by rewrite Ec|]. done.
Qed.

(** A chain of callbacks, however the fold nests it, answers with the first
    callback that authenticates or fails, unchanged (so an outage stays an outage),
    and with the last answer when none does; the callbacks after the deciding one
    do not run, so their state is untouched. Only the empty chain is refused. *)
Theorem chain_all_first_decisive (cbs : list (Authenticate S)) req s :
  match chain_all cbs with
  | None => cbs = []
  | Some f => cbs ≠ [] ∧ ∀ last, f req s = first_decisive cbs last req s
  end.
Proof. destruct cbs as [|f it]; [done|]. split; [done|]. intros last. apply chain_fold. Qed.
End ChainProps.

(** ** The bearer callback *)
Section BearerProps.

Lemma lxor_zero_eq a b : Z.lxor (b2z a) (b2z b) = 0 ↔ a = b.
Proof. rewrite Z.lxor_eq_0_iff. split; [apply b2z_inj|by intros ->]. Qed.

Lemma diff_zero l d :
  foldl (fun diff (xy : byte * byte) => Z.lor diff (Z.lxor (b2z xy.1) (b2z xy.2))) d l = 0 ↔
  d = 0 ∧ Forall (fun xy => xy.1 = xy.2) l.
Proof.
  revert d. induction l as [|[x y] l IH]; intros d; cbn [foldl].
  - split; [done|by intros []].
  - rewrite IH, Z.lor_eq_0_iff, lxor_zero_eq, list.Forall_cons. naive_solver.
Qed.

Lemma constant_time_eq_spec a b : constant_time_eq a b = bool_decide (a = b).
Proof.
  unfold constant_time_eq. destruct (Z.eqb_spec (zlen a) (zlen b)) as [Hl|Hl]; cbn [negb].
  2: { symmetry. apply bool_decide_eq_false_2. by intros ->. }
  apply zlen_eq in Hl. apply Bool.eq_iff_eq_true. rewrite Z.eqb_eq, diff_zero, bool_decide_eq_true.
  split; [|by intros ->; split; [done|]; clear; induction b; constructor].
  intros [_ HF]. revert b Hl HF. induction a as [|x a IH]; intros [|y b] Hl HF; try done.
  apply list.Forall_cons in HF as [Hxy HF]. simpl in Hxy, Hl. f_equal; [done|]. apply IH; [lia|done].
Qed.

Lemma scan_found tok enc c :
  foldl (fun (found : option AuthContext) kc => if constant_time_eq tok kc.1 && bool_decide (found = None)
                         then Some kc.2 else found) (Some c) enc = Some c.
Proof. induction enc as [|[k v] enc IH]; [done|]. cbn [foldl]. by rewrite andb_false_r. Qed.

(** Scanning every entry finds what the map holds, whatever the order. *)
Lemma static_validator_spec (tokens : gmap (list byte) AuthContext) encoded tok :
  encoded ≡ₚ map_to_list tokens → static_validator encoded tok = tokens !! tok.
Proof.
  intros Hp. assert (NoDup encoded.*1) as Hnd by (rewrite Hp; apply NoDup_fst_map_to_list).
  assert (∀ c, (tok, c) ∈ encoded ↔ tokens !! tok = Some c) as Hin.
  { intros c. rewrite Hp. apply elem_of_map_to_list. }
  clear Hp. transitivity ((list_to_map encoded : gmap (list byte) AuthContext) !! tok).
  - unfold static_validator. clear Hin. induction encoded as [|[k v] enc IH]; [done|].
    cbn [foldl list_to_map foldr fst snd]. rewrite constant_time_eq_spec.
    apply list.NoDup_cons in Hnd as [_ Hnd]. destruct (decide (tok = k)) as [->|Hk].
    + rewrite !bool_decide_eq_true_2 by done. cbn [andb]. rewrite scan_found.
      cbn [list_to_map foldr]. by rewrite lookup_insert_eq.
    + rewrite (bool_decide_eq_false_2 (tok = k)) by done. cbn [andb].
      cbn [list_to_map foldr]. rewrite lookup_insert_ne by done. by apply IH.
  - destruct (tokens !! tok) as [c|] eqn:E.
    + apply elem_of_list_to_map; [done|]. by apply Hin.
    + apply not_elem_of_list_to_map. intros ([k v] & -> & Hkv)%list_elem_of_fmap.
      apply Hin in Hkv. simpl in *. congruence.
Qed.
End BearerProps.

(** The scheme, in any case, is seven ASCII bytes. *)
Definition spells_bearer (sch : list byte) : Prop :=
  to_ascii_lowercase <$> sch = to_ascii_lowercase <$> bearer_scheme.

(** The static bearer callback, on a request whose [authorization] header (if
    any) is ASCII as an HTTP field value is: it never panics or fails and never
    touches the state; with a [Bearer] header, in any case, its trimmed token is
    looked up as the map does, an unknown or empty token being anonymous; without
    one the caller is anonymous. *)
Theorem bearer_static_spec {S : Type} (tokens : gmap (list byte) AuthContext) encoded (req : AuthRequest) (s : S) :
  encoded ≡ₚ map_to_list tokens →
  (∀ h, header req (bs "authorization") = Some h → Forall (fun c => b2z c < 0x80) h) →
  bearer_authenticate_static encoded req s =
    (Ok match header req (bs "authorization") with
        | None => anonymous
        | Some h =>
          if (zlen bearer_scheme <? zlen h) && bool_decide (spells_bearer (ztake 7 h)) then
            let tok := trim (zdrop 7 h) in
            if bool_decide (tok = []) then anonymous else default anonymous (tokens !! tok)
          else anonymous
        end, s).
Proof.
  intros Hp Hh. unfold bearer_authenticate_static, bearer_authenticate, extract_bearer.
  destruct (header req (bs "authorization")) as [h|]; [|done]. specialize (Hh h eq_refl).
  change (zlen bearer_scheme) with 7. destruct (Z.ltb_spec 7 (zlen h)); [|done]. cbn [andb].
  rewrite !str_slice_ascii, !slice_ok by (done || lia). cbn [or_panic mbind res_bind].
  rewrite zdrop_0, (ztake_all (zlen h - 7)) by (rewrite zlen_zdrop; lia).
  change (eq_ignore_ascii_case ?a bearer_scheme) with (bool_decide (spells_bearer a)).
  change (7 - 0) with 7. case_bool_decide; [|done]. cbn [mbind res_bind]. case_bool_decide; [done|].
  by rewrite (static_validator_spec tokens).
Qed.

(** ** A run *)
Definition alice : AuthContext := for_principal (bs "bearer") (bs "alice").
Definition demo_request : AuthRequest :=
  mkAuthRequest (bs "echo") [(bs "Host", bs "x"); (bs "Authorization", bs "bearer  t-1 ")] None.

Lemma bearer_static_spec_witness :
  bearer_authenticate_static [(bs "t-1", alice)] demo_request tt = (Ok alice, tt).
Proof.
  rewrite (bearer_static_spec {[bs "t-1" := alice]}).
  - vm_compute. reflexivity.
  - by rewrite map_to_list_singleton.
  - intros h E. vm_compute in E. injection E as <-. repeat constructor.
Defined.
