(* ===== verification/Sticky.v ===== *)
(** * Sticky sessions

    [vgi-rpc/src/sticky.rs] with [CallContext::open_session] / [close_session] of
    [server.rs]: session tokens bound to the caller, the worker's registry of live
    sessions, the per-request sink and the delete endpoint. The registry is shared
    by all requests behind a lock taken once per operation: it is an argument and a
    result. [Instant]s and [Duration]s are nanoseconds; the clocks, the random
    session id and the nonce are arguments. The session state is an opaque value. *)

From S2P Require Import Prelude Bytes Errors Crypto Auth.

Definition TOKEN_VERSION : byte := x01.
Definition SESSION_ID_LEN : Z := 12.

(** ** Who a session belongs to *)
Definition evidence_binding (auth : AuthContext) : option (list byte) :=
  match claims auth !! bs "peer_evidence_binding" with
  | Some v => if bool_decide (v = []) then None else Some v
  | None => None
  end.

Definition binding_suffix (b : option (list byte)) : list byte :=
  match b with Some v => x00 :: v | None => [] end.

Definition compute_session_aad (auth : AuthContext) : list byte :=
  let binding := evidence_binding auth in
  let prefix := match binding with
                | Some _ => bs "vgi_rpc.session.v2" ++ [x00]
                | None => bs "vgi_rpc.session.v1" ++ [x00]
                end in
  if negb (authenticated auth) then prefix ++ x00 :: bs "anonymous" ++ binding_suffix binding
  else prefix ++ x01 :: domain auth ++ x00 :: principal auth ++ binding_suffix binding.

Definition principal_key (auth : AuthContext) : list byte :=
  let binding := evidence_binding auth in
  if negb (authenticated auth) then x00 :: bs "anonymous" ++ binding_suffix binding
  else domain auth ++ x00 :: principal auth ++ binding_suffix binding.

(** ** Hexadecimal ids *)
(** The loop over the slots: two characters each, off a boundary it panics. *)
Fixpoint hex_slots (n : nat) (i : Z) (hex : list byte) : res unit (list byte) :=
  match n with
  | O => Ok []
  | S n =>
    pair ← or_panic (str_slice hex (i * 2) (i * 2 + 2));
    v ← ok_or tt (parse_u8_hex pair);
    rest ← hex_slots n (i + 1) hex;
    Ok (z2b v :: rest)
  end.

Definition hex_to_sid (hex : list byte) : res unit (list byte) :=
  if negb (zlen hex =? SESSION_ID_LEN * 2) then Err tt
  else hex_slots (Z.to_nat SESSION_ID_LEN) 0 hex.

Section Sticky.
Context `{Aead} `{Base64} {State : Type}.

(** ** Session tokens *)
Definition seal_session_token (server_id sid : list byte) (expires_at now_unix : Z)
    (token_key aad nonce : list byte) : res RpcError (list byte) :=
  if 255 <? zlen server_id then Panic else
  let plaintext := le_bytes 8 now_unix ++ z2b (zlen server_id) :: server_id ++ sid ++ le_bytes 8 expires_at in
  Ok (b64url_encode (seal_bytes plaintext token_key aad TOKEN_VERSION nonce)).

Definition lost : RpcError := RpcErr.session_lost_error (bs "session token verification failed").

Definition open_session_token (token token_key aad : list byte)
  : res RpcError (list byte * list byte * Z) :=
  raw ← ok_or lost (b64url_decode token);
  plaintext ← map_err (fun _ => lost) (open_bytes raw token_key aad TOKEN_VERSION);
  if zlen plaintext <? 8 + 1 then Err lost else
  len ← or_panic (znth plaintext 8);
  let sid_pos := 9 + b2z len in
  let end_pos := sid_pos + SESSION_ID_LEN + 8 in
  if negb (zlen plaintext =? end_pos) then Err lost else
  srv ← or_panic (slice plaintext 9 sid_pos);
  sid ← or_panic (slice plaintext sid_pos (sid_pos + SESSION_ID_LEN));
  exp ← or_panic (slice plaintext (sid_pos + SESSION_ID_LEN) end_pos);
  Ok (from_utf8_lossy srv, sid, le_val exp).

(** ** The registry *)
Record SessionEntry := mkEntry {
  state : State;
  expires_at : Z;
  entry_principal_key : list byte
}.

Record SessionRegistry := mkRegistry {
  default_ttl : Z;
  entries : gmap (list byte) SessionEntry;
  draining : bool
}.

Definition set_entries (r : SessionRegistry) (m : gmap (list byte) SessionEntry) : SessionRegistry :=
  mkRegistry (default_ttl r) m (draining r).

Definition registry_new (ttl : Z) : SessionRegistry := mkRegistry ttl ∅ false.

Definition set_draining (r : SessionRegistry) (v : bool) : SessionRegistry :=
  mkRegistry (default_ttl r) (entries r) v.

(** [Instant + Duration] panics past the range of [timespec]. *)
Definition instant_add {E} (t d : Z) : res E Z :=
  if t + d <? 2 ^ 63 * 10 ^ 9 then Ok (t + d) else Panic.

Definition registry_open (r : SessionRegistry) (st : State) (ttl : option Z) (pkey : list byte)
    (now now_unix : Z) (random_sid : list byte) : res RpcError (SessionRegistry * (list byte * Z)) :=
  if draining r then
    Err (RpcErr.server_draining_error (bs "server is draining — new sessions are rejected"))
  else
  let effective := default (default_ttl r) ttl in
  expires ← instant_add now effective;
  expires_unix ← uadd now_unix (effective / 10 ^ 9);
  Ok (set_entries r (<[random_sid := mkEntry st expires pkey]> (entries r)), (random_sid, expires_unix)).

Definition registry_get (r : SessionRegistry) (sid pkey : list byte) (now : Z)
  : option State * SessionRegistry :=
  match entries r !! sid with
  | None => (None, r)
  | Some e =>
    if expires_at e <? now then (None, set_entries r (delete sid (entries r)))
    else if negb (bool_decide (entry_principal_key e = pkey)) then (None, r)
    else (Some (state e), r)
  end.

Definition registry_close (r : SessionRegistry) (sid : list byte) : bool * SessionRegistry :=
  (bool_decide (is_Some (entries r !! sid)), set_entries r (delete sid (entries r))).

(** The expired ids are collected, then removed. *)
Definition drain_expired (r : SessionRegistry) (now : Z) : Z * SessionRegistry :=
  let expired := fst <$> filter (fun se => expires_at se.2 < now) (map_to_list (entries r)) in
  (zlen expired, set_entries r (foldl (fun m sid => delete sid m) (entries r) expired)).

Definition shutdown (r : SessionRegistry) : SessionRegistry := set_entries r ∅.

Definition registry_len (r : SessionRegistry) : Z := Z.of_nat (size (entries r)).

(** ** The per-request sink *)
(** The fixed part of [StickyContext]; the registry it points to is passed along. *)
Record StickyContext := mkStickyContext {
  token_key : list byte;
  ctx_default_ttl : Z;
  echo_headers : list (list byte * list byte);
  ctx_server_id : list byte
}.

Record SinkInner := mkSinkInner {
  current_state : option State;
  current_sid : option (list byte);
  mint_token : option (list byte);
  closed : bool
}.

Record StickySinkImpl := mkSink {
  sink_aad : list byte;
  sink_principal_key : list byte;
  accept_opens : bool;
  inner : SinkInner
}.

Definition set_inner (s : StickySinkImpl) (i : SinkInner) : StickySinkImpl :=
  mkSink (sink_aad s) (sink_principal_key s) (accept_opens s) i.

(** What an open draws from the outside. *)
Record OpenEnv := mkOpenEnv {
  instant_now : Z; unix_now : Z; random_sid : list byte; random_nonce : list byte }.

Definition sink_open (ctx : StickyContext) (s : StickySinkImpl) (r : SessionRegistry)
    (st : State) (ttl : option Z) (e : OpenEnv) : res RpcError (StickySinkImpl * SessionRegistry) :=
  '(r, (sid, expires)) ← registry_open r st ttl (sink_principal_key s)
                           (instant_now e) (unix_now e) (random_sid e);
  token ← seal_session_token (ctx_server_id ctx) sid expires (unix_now e) (token_key ctx)
            (sink_aad s) (random_nonce e);
  Ok (set_inner s (mkSinkInner (Some st) (Some (bytes_to_hex sid)) (Some token) false), r).

Definition sink_close (s : StickySinkImpl) (r : SessionRegistry)
  : res RpcError (bool * StickySinkImpl * SessionRegistry) :=
  let i := inner s in
  '(hit, r) ← match current_sid i with
              | None => Ok (false, r)
              | Some hex => match hex_to_sid hex with
                            | Ok sid => Ok (registry_close r sid)
                            | Err _ => Ok (false, r)
                            | Panic => Panic
                            end
              end;
  Ok (hit, set_inner s (mkSinkInner None (current_sid i) (mint_token i) true), r).

(** [CallContext::open_session] and [close_session] *)
Definition not_available : RpcError :=
  RpcErr.runtime_error (bs "sticky sessions not available on this transport").

Definition open_session (ctx : StickyContext) (sticky : option StickySinkImpl) (r : SessionRegistry)
    (st : State) (ttl : option Z) (e : OpenEnv) : res RpcError (StickySinkImpl * SessionRegistry) :=
  s ← ok_or not_available sticky;
  if negb (accept_opens s) then
    Err (RpcErr.runtime_error (bs "client did not opt in to sticky sessions (missing VGI-Session-Accept: true header — open the call inside an HttpConnection.with_session_token() block)"))
  else match current_state (inner s) with
       | Some _ => Err (RpcErr.runtime_error (bs "a sticky session is already active for this request"))
       | None => sink_open ctx s r st ttl e
       end.

Definition close_session (sticky : option StickySinkImpl) (r : SessionRegistry)
  : res RpcError (StickySinkImpl * SessionRegistry) :=
  s ← ok_or not_available sticky;
  '(_, s, r) ← sink_close s r;
  Ok (s, r).

(** ** Requests *)
Inductive StickyResolution := Sink (s : StickySinkImpl) | Lost (e : RpcError).

Definition nonempty_header (h : option (list byte)) : option (list byte) :=
  h ← h; let t := trim h in if bool_decide (t = []) then None else Some t.

Definition new_sink (auth : AuthContext) (accept : bool) (st : option State) (sid : option (list byte))
  : StickySinkImpl :=
  mkSink (compute_session_aad auth) (principal_key auth) accept (mkSinkInner st sid None false).

Definition other_worker : RpcError := RpcErr.session_lost_error
  (bs "session token was issued by a different worker (server_id mismatch)").
Definition not_found : RpcError := RpcErr.session_lost_error
  (bs "session not found, expired, or principal mismatch").

Definition resolve (ctx : StickyContext) (r : SessionRegistry) (auth : AuthContext) (accept : bool)
    (session_header : option (list byte)) (now : Z) : res unit (StickyResolution * SessionRegistry) :=
  match nonempty_header session_header with
  | None => Ok (Sink (new_sink auth accept None None), r)
  | Some token =>
    match open_session_token token (token_key ctx) (compute_session_aad auth) with
    | Ok (server_id, sid, _) =>
      if negb (bool_decide (server_id = ctx_server_id ctx)) then Ok (Lost other_worker, r) else
      match registry_get r sid (principal_key auth) now with
      | (Some st, r) => Ok (Sink (new_sink auth accept (Some st) (Some (bytes_to_hex sid))), r)
      | (None, r) => Ok (Lost not_found, r)
      end
    | Err e => Ok (Lost e, r)
    | Panic => Panic
    end
  end.

Inductive DeleteOutcome := Idempotent | Closed.

Definition handle_delete (ctx : StickyContext) (r : SessionRegistry) (auth : AuthContext)
    (session_header : option (list byte)) (now : Z) : res unit (DeleteOutcome * SessionRegistry) :=
  match nonempty_header session_header with
  | None => Ok (Idempotent, r)
  | Some token =>
    match open_session_token token (token_key ctx) (compute_session_aad auth) with
    | Ok (server_id, sid, _) =>
      if negb (bool_decide (server_id = ctx_server_id ctx)) then Ok (Idempotent, r) else
      match registry_get r sid (principal_key auth) now with
      | (Some _, r) => Ok (Closed, (registry_close r sid).2)
      | (None, r) => Ok (Idempotent, r)
      end
    | Err _ => Ok (Idempotent, r)
    | Panic => Panic
    end
  end.
End Sticky.
Arguments SessionEntry : clear implicits.
Arguments SessionRegistry : clear implicits.
Arguments SinkInner : clear implicits.
Arguments StickySinkImpl : clear implicits.
Arguments StickyResolution : clear implicits.
