(* ===== verification/StickyProps.v ===== *)
(** * Sticky sessions: every session belongs to its opener

    The associated data of a token separates callers; the registry under any
    interleaving of requests refines an abstract log of opened and closed sessions. *)

From S2P Require Import Prelude Bytes Errors Crypto Auth Sticky.

(** ** The caller a token is bound to *)
Definition session_identity (a : AuthContext) : prod (option (list byte)) (option (list byte * list byte)) :=
  (evidence_binding a, if authenticated a then Some (domain a, principal a) else None).

Definition nul_free (a : AuthContext) : Prop := (x00 ∉ domain a) ∧ (x00 ∉ principal a).

Lemma principal_key_identity a a' :
  session_identity a = session_identity a' → principal_key a = principal_key a'.
Proof.
  unfold session_identity, principal_key. intros [= -> E].
  destruct (authenticated a), (authenticated a'); simplify_eq; cbn [negb]; congruence.
Qed.

Lemma session_aad_identity a a' :
  session_identity a = session_identity a' → compute_session_aad a = compute_session_aad a'.
Proof.
  unfold session_identity, compute_session_aad. intros [= -> E].
  destruct (authenticated a), (authenticated a'); simplify_eq; cbn [negb]; congruence.
Qed.

Lemma session_aad_inj a a' :
  nul_free a → nul_free a' →
  compute_session_aad a = compute_session_aad a' → session_identity a = session_identity a'.
Proof.
  intros [Hd Hp] [Hd' Hp']. unfold compute_session_aad, session_identity.
  destruct (evidence_binding a) as [v|], (evidence_binding a') as [v'|],
    (authenticated a), (authenticated a'); cbn [negb binding_suffix]; intros E; try discriminate E.
  - apply app_inv_head in E. injection E as E. apply nul_split in E as [-> E]; [|done..].
    apply nul_split in E as [-> ->]; done.
  - apply app_inv_head in E. injection E as E. by subst.
  - apply app_inv_head in E. injection E as E. apply nul_split in E as [-> E]; [|done..].
    rewrite !app_nil_r in E. by rewrite E.
  - done.
Qed.

(** ** Hexadecimal session ids *)
Lemma hex_slots_ok l k :
  hex_slots (length l) (zlen k) (bytes_to_hex (k ++ l)) = Ok l.
Proof.
  revert k. induction l as [|b l IH]; intros k; [done|]. cbn [length hex_slots].
  rewrite str_slice_ascii by apply bytes_to_hex_ascii.
  assert (bytes_to_hex (k ++ b :: l) = bytes_to_hex k ++ hex_byte b ++ bytes_to_hex l) as E
    by apply bytes_to_hex_app.
  rewrite E at 1. rewrite slice_app by (rewrite ?zlen_bytes_to_hex, ?zlen_hex_byte; lia).
  cbn [or_panic mbind res_bind]. rewrite parse_u8_hex_byte. cbn [ok_or mbind res_bind].
  assert (k ++ b :: l = (k ++ [b]) ++ l) as -> by (by rewrite <- app_assoc).
  assert (zlen k + 1 = zlen (k ++ [b])) as -> by (rewrite zlen_app, zlen_cons, zlen_nil; lia).
  rewrite IH. cbn [mbind res_bind]. by rewrite z2b_b2z.
Qed.

Lemma hex_sid_roundtrip sid : zlen sid = SESSION_ID_LEN → hex_to_sid (bytes_to_hex sid) = Ok sid.
Proof.
  intros Hl. unfold hex_to_sid. rewrite zlen_bytes_to_hex, Hl. cbn [negb].
  replace (2 * SESSION_ID_LEN =? SESSION_ID_LEN * 2) with true by done. cbn [negb].
  assert (Z.to_nat SESSION_ID_LEN = length sid) as -> by (unfold zlen in Hl; lia).
  apply (hex_slots_ok sid []).
Qed.

Section Tokens.
Context `{AeadLaws} `{Base64Laws}.

(** ** Tokens *)
Definition session_plaintext (srv sid : list byte) (created expires : Z) : list byte :=
  le_bytes 8 created ++ z2b (zlen srv) :: srv ++ sid ++ le_bytes 8 expires.

Lemma open_session_plaintext srv sid created expires token key aad nonce :
  zlen srv ≤ 255 → utf8_valid srv = true → zlen sid = SESSION_ID_LEN → zlen nonce = NONCE_LEN →
  token = b64url_encode (seal_bytes_with_nonce (session_plaintext srv sid created expires) key aad TOKEN_VERSION nonce) →
  open_session_token token key aad = Ok (srv, sid, expires mod 2 ^ 64).
Proof.
  intros Hs Hu Hl Hn ->. unfold open_session_token. rewrite b64url_decode_encode. cbn [ok_or mbind res_bind].
  rewrite open_seal by done. cbn [map_err mbind res_bind]. unfold session_plaintext, SESSION_ID_LEN in *.
  pose proof (zlen_nonneg srv). rewrite !zlen_app, zlen_cons, !zlen_app, !zlen_le_bytes, Hl.
  destruct (Z.ltb_spec (Z.of_nat 8 + (1 + (zlen srv + (12 + Z.of_nat 8)))) (8 + 1)); [lia|].
  rewrite znth_app_r by (by rewrite zlen_le_bytes). rewrite zlen_le_bytes.
  change (znth (z2b (zlen srv) :: ?l) (8 - Z.of_nat 8)) with (Some (z2b (zlen srv))).
  cbn [or_panic mbind res_bind]. rewrite b2z_z2b, Z.mod_small by lia.
  destruct (Z.eqb_spec (Z.of_nat 8 + (1 + (zlen srv + (12 + Z.of_nat 8)))) (9 + zlen srv + 12 + 8)); [|lia].
  cbn [negb].
  assert (∀ l, le_bytes 8 created ++ z2b (zlen srv) :: l = (le_bytes 8 created ++ [z2b (zlen srv)]) ++ l) as E
    by (intros; by rewrite <- app_assoc).
  assert (zlen (le_bytes 8 created ++ [z2b (zlen srv)]) = 9) as E9
    by (by rewrite zlen_app, zlen_le_bytes).
  rewrite E, (slice_app _ srv _ 9 (9 + zlen srv)) by (rewrite E9; lia). cbn [or_panic mbind res_bind].
  rewrite (app_assoc _ srv), (slice_app _ sid _ (9 + zlen srv) (9 + zlen srv + 12))
    by (rewrite zlen_app, E9; lia). cbn [or_panic mbind res_bind].
  rewrite (app_assoc _ sid), <- (app_nil_r (le_bytes 8 expires)).
  rewrite slice_app by zlen_solve.
  cbn [or_panic mbind res_bind]. by rewrite from_utf8_lossy_valid, le_val_bytes.
Qed.

(** A token opens under no other associated data. *)
Lemma open_session_other plain token key aad aad' nonce :
  zlen nonce = NONCE_LEN → aad' ≠ aad →
  token = b64url_encode (seal_bytes_with_nonce plain key aad TOKEN_VERSION nonce) →
  open_session_token token key aad' = Err lost.
Proof.
  intros Hn Hne ->. unfold open_session_token. rewrite b64url_decode_encode. cbn [ok_or mbind res_bind].
  pose proof (open_no_panic (seal_bytes_with_nonce plain key aad TOKEN_VERSION nonce) key aad' TOKEN_VERSION).
  destruct (open_bytes _ key aad' TOKEN_VERSION) as [p|?|] eqn:E; [|done|done].
  apply open_seal_other in E as (-> & _ & _); done.
Qed.

Lemma open_session_no_panic token key aad : no_panic (open_session_token token key aad).
Proof.
  unfold open_session_token. apply bind_no_panic; [apply ok_or_no_panic|]. intros raw _.
  apply bind_no_panic.
  { pose proof (open_no_panic raw key aad TOKEN_VERSION). by destruct (open_bytes _ _ _ _). }
  intros p _. destruct (Z.ltb_spec (zlen p) (8 + 1)); [done|].
  destruct (znth_Some p 8) as [b Hb]; [lia|]. rewrite Hb. cbn [or_panic mbind res_bind].
  case_match eqn:E; [done|]. apply negb_false_iff, Z.eqb_eq in E. pose proof (b2z_range b).
  unfold SESSION_ID_LEN in *. rewrite !slice_ok by lia. done.
Qed.

Lemma b64url_char_graphic b : b64url_char b = true → graphic b = true.
Proof. destruct b; vm_compute; congruence. Qed.

Lemma session_header_token payload :
  payload ≠ [] → nonempty_header (Some (b64url_encode payload)) = Some (b64url_encode payload).
Proof.
  intros Hne. unfold nonempty_header. cbn [mbind option_bind]. rewrite trim_graphic.
  - case_bool_decide as E; [|done]. pose proof (b64url_decode_encode payload) as D.
    pose proof (b64url_length payload) as L. rewrite E, zlen_nil in L.
    destruct payload as [|x payload]; [done|]. rewrite zlen_cons in L. pose proof (zlen_nonneg payload).
    Z.to_euclidean_division_equations. lia.
  - eapply list.Forall_impl; [apply b64url_alphabet|]. intros b. apply b64url_char_graphic.
Qed.
End Tokens.

(** ** The worker over time

    Every request that touches the registry is a step; the clock never goes back.
    Beside the registry, the world logs what was opened and which ids were closed. *)
Section Worker.
Context `{AeadLaws} `{Base64Laws} {State : Type} (ctx : StickyContext).

Record Minted := mkMinted {
  m_auth : AuthContext;
  m_state : State;
  m_expires : Z;
  m_token : list byte
}.

Record World := mkWorld {
  w_reg : SessionRegistry State;
  w_clock : Z;
  w_minted : gmap (list byte) Minted;
  w_closed : gset (list byte)
}.

Definition sink_sids (s : StickySinkImpl State) : gset (list byte) :=
  match hex_to_sid <$> current_sid (inner s) with Some (Ok sid) => {[ sid ]} | _ => ∅ end.

Definition token_sids (a : AuthContext) (h : option (list byte)) : gset (list byte) :=
  match (fun t => open_session_token t (token_key ctx) (compute_session_aad a)) <$> nonempty_header h with
  | Some (Ok (_, sid, _)) => {[ sid ]}
  | _ => ∅
  end.

Definition sink_for (a : AuthContext) (s : StickySinkImpl State) : Prop :=
  sink_aad s = compute_session_aad a ∧ sink_principal_key s = principal_key a.

Inductive step : World → World → Prop :=
| step_open r clk mi cl a s s' r' st ttl e tok :
    sink_for a s → clk ≤ instant_now e →
    zlen (random_sid e) = SESSION_ID_LEN → zlen (random_nonce e) = NONCE_LEN →
    random_sid e ∉ dom mi → random_sid e ∉ cl →
    open_session ctx (Some s) r st ttl e = Ok (s', r') → mint_token (inner s') = Some tok →
    step (mkWorld r clk mi cl)
         (mkWorld r' (instant_now e)
            (<[random_sid e := mkMinted a st (instant_now e + default (default_ttl r) ttl) tok]> mi) cl)
| step_close r clk mi cl s s' r' :
    close_session (Some s) r = Ok (s', r') →
    step (mkWorld r clk mi cl) (mkWorld r' clk mi (cl ∪ sink_sids s))
| step_resolve r clk mi cl a acc h now out r' :
    clk ≤ now → resolve ctx r a acc h now = Ok (out, r') →
    step (mkWorld r clk mi cl) (mkWorld r' now mi cl)
| step_delete r clk mi cl a h now out r' :
    clk ≤ now → handle_delete ctx r a h now = Ok (out, r') →
    step (mkWorld r clk mi cl)
         (mkWorld r' now mi (if out is Closed then cl ∪ token_sids a h else cl))
| step_reap r clk mi cl now :
    clk ≤ now → step (mkWorld r clk mi cl) (mkWorld (drain_expired r now).2 now mi cl)
| step_shutdown r clk mi cl :
    step (mkWorld r clk mi cl) (mkWorld (shutdown r) clk mi (cl ∪ dom mi))
| step_draining r clk mi cl v :
    step (mkWorld r clk mi cl) (mkWorld (set_draining r v) clk mi cl).

Definition reachable (w : World) : Prop :=
  ∃ ttl clk, rtc step (mkWorld (registry_new ttl) clk ∅ ∅) w.

Definition entry_of (m : Minted) : SessionEntry State :=
  mkEntry (m_state m) (m_expires m) (principal_key (m_auth m)).

(** The registry holds sessions that were opened and not closed, and all of them
    until they expire. *)
Definition registry_ok (r : SessionRegistry State) (clk : Z) (mi : gmap (list byte) Minted)
    (cl : gset (list byte)) : Prop :=
  (∀ sid e, entries r !! sid = Some e → (sid ∉ cl) ∧ ∃ m, mi !! sid = Some m ∧ e = entry_of m) ∧
  (∀ sid m, mi !! sid = Some m → sid ∉ cl → clk ≤ m_expires m → entries r !! sid = Some (entry_of m)).

Definition minted_ok (mi : gmap (list byte) Minted) : Prop :=
  ∀ sid m, mi !! sid = Some m → zlen sid = SESSION_ID_LEN ∧ zlen (ctx_server_id ctx) ≤ 255 ∧
    ∃ created expires nonce, zlen nonce = NONCE_LEN ∧
      m_token m = b64url_encode (seal_bytes_with_nonce
        (session_plaintext (ctx_server_id ctx) sid created expires) (token_key ctx)
        (compute_session_aad (m_auth m)) TOKEN_VERSION nonce).

Definition world_ok (w : World) : Prop :=
  registry_ok (w_reg w) (w_clock w) (w_minted w) (w_closed w) ∧ minted_ok (w_minted w).

(** Removing entries that are expired or closed keeps the registry faithful. *)
Lemma registry_ok_shrink r r' clk clk' mi cl cl' :
  registry_ok r clk mi cl → clk ≤ clk' → cl ⊆ cl' → entries r' ⊆ entries r →
  (∀ sid e, entries r !! sid = Some e → clk' ≤ expires_at e → sid ∉ cl' → entries r' !! sid = Some e) →
  (∀ sid, sid ∈ cl' → sid ∉ cl → entries r' !! sid = None) →
  registry_ok r' clk' mi cl'.
Proof.
  intros [H1' H2'] Hc Hcl Hsub Hkeep Hgone. split.
  - intros sid e E. pose proof (lookup_weaken _ _ _ _ E Hsub) as E0. destruct (H1' _ _ E0) as [Hn Hm].
    split; [|done]. intros Hin. rewrite Hgone in E; done.
  - intros sid m Em Hn He. apply Hkeep; [|done|done]. apply H2'; [done|set_solver|lia].
Qed.

Lemma registry_get_ok r clk now mi cl sid pkey :
  registry_ok r clk mi cl → clk ≤ now → registry_ok (registry_get r sid pkey now).2 now mi cl.
Proof.
  intros Hr Hc. unfold registry_get. destruct (entries r !! sid) as [e|] eqn:E.
  2: { eapply registry_ok_shrink; eauto; set_solver. }
  destruct (Z.ltb_spec (expires_at e) now) as [Hx|Hx].
  - eapply registry_ok_shrink; eauto; try set_solver; cbn [snd set_entries entries].
    + apply delete_subseteq.
    + intros sid' e' E' He' _. destruct (decide (sid' = sid)) as [->|Hne].
      * simplify_eq. lia.
      * by rewrite lookup_delete_ne.
  - case_match; (eapply registry_ok_shrink; eauto; set_solver).
Qed.

Lemma registry_close_ok r clk mi cl sid :
  registry_ok r clk mi cl → registry_ok (registry_close r sid).2 clk mi (cl ∪ {[ sid ]}).
Proof.
  intros Hr. eapply registry_ok_shrink; eauto; try set_solver; cbn [registry_close snd set_entries entries].
  - apply delete_subseteq.
  - intros sid' e' E' He' Hn. rewrite lookup_delete_ne; [done|set_solver].
  - intros sid' Hin Hn. assert (sid' = sid) as -> by set_solver. apply lookup_delete_eq.
Qed.

Lemma drain_entries (m : gmap (list byte) (SessionEntry State)) l sid :
  foldl (fun m s => delete s m) m l !! sid = if decide (sid ∈ l) then None else m !! sid.
Proof.
  revert m. induction l as [|s l IH]; intros m; cbn [foldl]; [by rewrite decide_False by set_solver|].
  rewrite IH. destruct (decide (sid ∈ l)), (decide (sid ∈ s :: l)) as [Hin|Hin]; try done; try set_solver.
  - apply elem_of_cons in Hin as [->|]; [apply lookup_delete_eq|done].
  - apply lookup_delete_ne. set_solver.
Qed.

Lemma drain_expired_ok r clk now mi cl :
  registry_ok r clk mi cl → clk ≤ now → registry_ok (drain_expired r now).2 now mi cl.
Proof.
  intros Hr Hc. unfold drain_expired. cbn [snd].
  set (l := fst <$> filter _ _).
  assert (∀ sid, sid ∈ l ↔ ∃ e, entries r !! sid = Some e ∧ expires_at e < now) as Hl.
  { intros sid. unfold l. rewrite list_elem_of_fmap. split.
    - intros ([s e] & -> & [Hx Hin]%list_elem_of_filter). exists e. by rewrite <- elem_of_map_to_list.
    - intros (e & E & Hx). exists (sid, e). split; [done|]. apply list_elem_of_filter.
      split; [done|]. by apply elem_of_map_to_list. }
  eapply registry_ok_shrink; eauto; try set_solver; cbn [set_entries entries].
  - apply map_subseteq_spec. intros sid e. rewrite drain_entries. by case_decide.
  - intros sid e E He _. rewrite drain_entries. rewrite decide_False; [done|].
    intros (e' & E' & Hx)%Hl. simplify_eq. lia.
Qed.

Lemma registry_ok_time r clk now mi cl :
  registry_ok r clk mi cl → clk ≤ now → registry_ok r now mi cl.
Proof. intros. eapply registry_ok_shrink; eauto; set_solver. Qed.

Lemma resolve_ok r clk now mi cl a acc h out r' :
  registry_ok r clk mi cl → clk ≤ now → resolve ctx r a acc h now = Ok (out, r') →
  registry_ok r' now mi cl.
Proof.
  intros Hr Hc. unfold resolve. destruct (nonempty_header h) as [tok|];
    [|intros [= _ <-]; by eapply registry_ok_time].
  destruct (open_session_token _ _ _) as [[[srv sid] x]|e|]; [|intros [= _ <-]; by eapply registry_ok_time|done].
  case_match; [intros [= _ <-]; by eapply registry_ok_time|].
  pose proof (registry_get_ok r clk now mi cl sid (principal_key a) Hr Hc) as Hg.
  destruct (registry_get r sid (principal_key a) now) as [[st|] rg]; by intros [= _ <-].
Qed.

Lemma delete_ok r clk now mi cl a h out r' :
  registry_ok r clk mi cl → clk ≤ now → handle_delete ctx r a h now = Ok (out, r') →
  registry_ok r' now mi (if out is Closed then cl ∪ token_sids a h else cl).
Proof.
  intros Hr Hc. unfold handle_delete, token_sids. destruct (nonempty_header h) as [tok|];
    [|intros [= <- <-]; by eapply registry_ok_time]. cbn [fmap option_fmap option_map].
  destruct (open_session_token _ _ _) as [[[srv sid] x]|e|]; [|intros [= <- <-]; by eapply registry_ok_time|done].
  case_match; [intros [= <- <-]; by eapply registry_ok_time|].
  pose proof (registry_get_ok r clk now mi cl sid (principal_key a) Hr Hc) as Hg.
  destruct (registry_get r sid (principal_key a) now) as [[st|] rg]; intros [= <- <-]; [|done].
  by apply registry_close_ok.
Qed.

Lemma close_ok r clk mi cl s s' r' :
  registry_ok r clk mi cl → close_session (Some s) r = Ok (s', r') →
  registry_ok r' clk mi (cl ∪ sink_sids s).
Proof.
  intros Hr. unfold close_session, sink_close, sink_sids. cbn [ok_or mbind res_bind].
  assert (cl ∪ ∅ = cl) as Hcl by set_solver.
  destruct (current_sid (inner s)) as [hex|]; cbn [fmap option_fmap option_map].
  - destruct (hex_to_sid hex) as [sid|e|]; [|by rewrite Hcl; intros [= _ <-]|done].
    intros [= _ <-]. by apply registry_close_ok.
  - rewrite Hcl. by intros [= _ <-].
Qed.

(** What a successful open did. *)
Lemma open_session_inv (s : StickySinkImpl State) r st ttl e s' r' :
  open_session ctx (Some s) r st ttl e = Ok (s', r') →
  r' = set_entries r (<[random_sid e := mkEntry st (instant_now e + default (default_ttl r) ttl)
                                          (sink_principal_key s)]> (entries r)) ∧
  zlen (ctx_server_id ctx) ≤ 255 ∧
  ∃ expires, mint_token (inner s') = Some (b64url_encode (seal_bytes_with_nonce
        (session_plaintext (ctx_server_id ctx) (random_sid e) (unix_now e) expires) (token_key ctx)
        (sink_aad s) TOKEN_VERSION (random_nonce e))).
Proof.
  unfold open_session. cbn [ok_or mbind res_bind]. case_match; [done|]. case_match; [done|].
  unfold sink_open, registry_open. case_match; [done|]. intros E.
  apply bind_Ok in E as ([rr [sid ex]] & E & E2). apply bind_Ok in E as (ei & Ei & E).
  apply bind_Ok in E as (eu & Eu & E). injection E as <- <- <-. unfold instant_add in Ei.
  case_match; [|done]. injection Ei as <-. apply bind_Ok in E2 as (tok & Et & E2).
  unfold seal_session_token in Et. destruct (Z.ltb_spec 255 (zlen (ctx_server_id ctx))); [done|].
  injection Et as <-. injection E2 as <- <-. split; [done|]. split; [done|]. by eexists.
Qed.

Lemma open_ok r clk mi cl a (s : StickySinkImpl State) s' r' st ttl e tok :
  registry_ok r clk mi cl → minted_ok mi → sink_for a s → clk ≤ instant_now e →
  zlen (random_sid e) = SESSION_ID_LEN → zlen (random_nonce e) = NONCE_LEN →
  random_sid e ∉ dom mi → random_sid e ∉ cl →
  open_session ctx (Some s) r st ttl e = Ok (s', r') → mint_token (inner s') = Some tok →
  world_ok (mkWorld r' (instant_now e)
    (<[random_sid e := mkMinted a st (instant_now e + default (default_ttl r) ttl) tok]> mi) cl).
Proof.
  intros [R1 R2] Hm [Ha Hp] Hc Hs Hn Hd Hcl (-> & Hsrv & ex & Et)%open_session_inv Etok.
  rewrite Et in Etok. injection Etok as <-. apply not_elem_of_dom in Hd. split; [split|]; cbn.
  - intros sid en. destruct (decide (sid = random_sid e)) as [->|Hne].
    + rewrite !lookup_insert_eq. intros [= <-]. split; [done|]. eexists. split; [done|].
      unfold entry_of. simpl. by rewrite Hp.
    + rewrite !lookup_insert_ne by done. apply R1.
  - intros sid m. destruct (decide (sid = random_sid e)) as [->|Hne].
    + rewrite !lookup_insert_eq. intros [= <-] _ _. unfold entry_of. simpl. by rewrite Hp.
    + rewrite !lookup_insert_ne by done. intros E1 E2 E3. apply R2; [done|done|lia].
  - intros sid m. destruct (decide (sid = random_sid e)) as [->|Hne].
    + rewrite lookup_insert_eq. intros [= <-]. split_and!; [done|done|].
      exists (unix_now e), ex, (random_nonce e). split; [done|]. simpl. by rewrite <- Ha.
    + rewrite lookup_insert_ne by done. apply Hm.
Qed.

Lemma step_ok w w' : world_ok w → step w w' → world_ok w'.
Proof.
  intros [Hr Hm]. destruct 1; cbn in Hr, Hm; [by eapply open_ok|..]; (split; [cbn|done]).
  - by eapply close_ok.
  - by eapply resolve_ok.
  - by eapply delete_ok.
  - by eapply drain_expired_ok.
  - destruct Hr as [R1 R2]. split; cbn.
    + intros sid e. by rewrite lookup_empty.
    + intros sid m Em Hn. apply elem_of_dom_2 in Em. set_solver.
  - done.
Qed.

Lemma reachable_ok w : reachable w → world_ok w.
Proof.
  intros (ttl & clk & Hs). remember (mkWorld (registry_new ttl) clk ∅ ∅) as w0 eqn:E0.
  assert (world_ok w0) as H0'.
  { subst. split; [split|]; cbn; intros ??; by rewrite lookup_empty. }
  clear E0. induction Hs as [|w w1 w2 Hst _ IH]; [done|]. apply IH. by eapply step_ok.
Qed.

Lemma registry_get_live r clk now mi cl sid m pkey :
  registry_ok r clk mi cl → clk ≤ now → mi !! sid = Some m → pkey = principal_key (m_auth m) →
  (registry_get r sid pkey now).1 =
    if decide ((sid ∉ cl) ∧ now ≤ m_expires m) then Some (m_state m) else None.
Proof.
  intros [R1 R2] Hc Em ->. unfold registry_get. destruct (entries r !! sid) as [e|] eqn:E.
  - destruct (R1 _ _ E) as (Hn & m' & Em' & ->). simplify_eq. cbn.
    destruct (Z.ltb_spec (m_expires m) now).
    + rewrite decide_False by (intros [_ ?]; lia). done.
    + rewrite bool_decide_eq_true_2 by done. rewrite decide_True by done. done.
  - rewrite decide_False; [done|]. intros [Hn He]. rewrite (R2 sid m) in E; [done|done|done|lia].
Qed.

Lemma open_minted mi sid m a :
  minted_ok mi → utf8_valid (ctx_server_id ctx) = true → mi !! sid = Some m →
  nonempty_header (Some (m_token m)) = Some (m_token m) ∧
  (compute_session_aad a = compute_session_aad (m_auth m) →
     ∃ x, open_session_token (m_token m) (token_key ctx) (compute_session_aad a) =
            Ok (ctx_server_id ctx, sid, x)) ∧
  (compute_session_aad a ≠ compute_session_aad (m_auth m) →
     open_session_token (m_token m) (token_key ctx) (compute_session_aad a) = Err lost).
Proof.
  intros Hm Hu Em. destruct (Hm _ _ Em) as (Hs & Hsrv & cr & ex & n & Hn & Et). split; [|split].
  - rewrite Et. by apply session_header_token.
  - intros ->. eexists. by eapply open_session_plaintext.
  - intros Hne. by eapply open_session_other.
Qed.

(** C20. In every reachable state of a worker, whatever requests were interleaved:
    presenting the token of an opened session restores exactly the state it was
    opened with when the caller is the opener (same evidence binding, and same
    domain and principal or both anonymous) and the session was not closed and has
    not expired; the opener of a closed or expired session gets the not-found
    error, and any other caller the uniform verification error. The delete endpoint
    closes in exactly the first case. *)
Theorem session_token_resolves w sid m a acc now :
  utf8_valid (ctx_server_id ctx) = true → reachable w → w_minted w !! sid = Some m →
  nul_free a → nul_free (m_auth m) → w_clock w ≤ now →
  let same := decide (session_identity a = session_identity (m_auth m)) in
  let live := decide ((sid ∉ w_closed w) ∧ now ≤ m_expires m) in
  (∃ r', resolve ctx (w_reg w) a acc (Some (m_token m)) now = Ok
     (if same then
        if live then Sink (new_sink a acc (Some (m_state m)) (Some (bytes_to_hex sid))) else Lost not_found
      else Lost lost, r')) ∧
  (∃ r', handle_delete ctx (w_reg w) a (Some (m_token m)) now = Ok
     (if same then if live then Closed else Idempotent else Idempotent, r')).
Proof.
  intros Hu Hw Em Ha Hma Hc same live. apply reachable_ok in Hw as [Hr Hm].
  destruct (open_minted _ _ _ a Hm Hu Em) as (Hh & Ho & Ho'). unfold resolve, handle_delete. rewrite Hh.
  unfold same. destruct (decide (session_identity a = session_identity (m_auth m))) as [Hi|Hi].
  - destruct (Ho (session_aad_identity _ _ Hi)) as [x Hx]. rewrite Hx, bool_decide_eq_true_2 by done.
    cbn [negb]. pose proof (registry_get_live _ _ now _ _ sid m (principal_key a) Hr Hc Em
      (principal_key_identity _ _ Hi)) as Hg. fold live in Hg.
    destruct (registry_get (w_reg w) sid (principal_key a) now) as [o rg]. cbn [fst] in Hg. subst o.
    destruct live; eauto.
  - rewrite Ho'; [eauto|]. intros E. by apply Hi, session_aad_inj.
Qed.

(** Whatever bytes a caller presents as a session header, resolving never
    panics, and a session state comes back only if a live, unexpired session was
    opened with that state by a caller with the same principal key; the sink that
    goes with it acts for the present caller. *)
Theorem resolve_sound w a acc h now :
  reachable w → w_clock w ≤ now →
  no_panic (resolve ctx (w_reg w) a acc h now) ∧
  ∀ s r' st, resolve ctx (w_reg w) a acc h now = Ok (Sink s, r') → current_state (inner s) = Some st →
    sink_for a s ∧ ∃ sid m, w_minted w !! sid = Some m ∧ st = m_state m ∧ (sid ∉ w_closed w) ∧
      now ≤ m_expires m ∧ principal_key a = principal_key (m_auth m) ∧
      current_sid (inner s) = Some (bytes_to_hex sid).
Proof.
  intros [[R1 _] _]%reachable_ok Hc. unfold resolve.
  destruct (nonempty_header h) as [tok|]; [|split; [done|]; by intros ??? [= <- _] ?].
  pose proof (open_session_no_panic tok (token_key ctx) (compute_session_aad a)) as Hnp.
  destruct (open_session_token _ _ _) as [[[srv sid] x]|e|]; [|split; [done|]; by intros ??? [= ]|done].
  case_bool_decide; cbn [negb]; [|split; [done|]; by intros ??? [= ]].
  unfold registry_get. destruct (entries (w_reg w) !! sid) as [en|] eqn:E; [|split; [done|]; by intros ??? [= ]].
  destruct (Z.ltb_spec (expires_at en) now); [split; [done|]; by intros ??? [= ]|].
  case_bool_decide as Hk; cbn [negb]; [|split; [done|]; by intros ??? [= ]].
  split; [done|]. intros s r' st [= <- <-] Est. cbn in Est. injection Est as <-.
  destruct (R1 _ _ E) as (Hn & m & Em & ->). split; [by split|].
  exists sid, m. split_and!; try done.
Qed.
End Worker.
