(* ===== verification/Proof.v ===== *)
(** * Proxy proofs

    [vgi-rpc/src/auth/proof.rs]: the HMAC evidence that a request came through a
    trusted proxy, the replay cache and the gate in front of an authenticate
    callback. HMAC-SHA256 is third-party code: the class [Hmac]. The clock is an
    argument; the cache is threaded through. A loop that cannot end is [None]. *)

From S2P Require Import Prelude Bytes Errors Crypto Auth.

Definition PROOF_HEADER : list byte := bs "vgi-proxy-proof".
Definition PROOF_VERSION : list byte := bs "v1".
Definition DOMAIN_PREFIX : list byte := bs "vgi.proxy.proof.v1".
Definition DERIVE_LABEL : list byte := bs "vgi.proxy.proof.v1/".
Definition MAX_HEADER_LEN : Z := 512.
Definition SECRET_LEN : Z := 32.
Definition CLAIMS_PREFIX : list byte := bs "vgi_proxy_proof".
Definition DEFAULT_REPLAY_CAPACITY : Z := 100000.

Inductive ProofMode := Off | Allow | Require.
#[global] Instance ProofMode_eq_dec : EqDecision ProofMode.
Proof. solve_decision. Defined.

Record ProofConfig := mkProofConfig {
  mode : ProofMode;
  origin_id : list byte;
  secrets : gmap (list byte) (list byte * list byte);
  skew_seconds : Z;
  replay_capacity : Z;
  enable_replay_cache : bool
}.

Definition proof_config_new (m : ProofMode) (origin : list byte)
    (s : gmap (list byte) (list byte * list byte)) : ProofConfig :=
  mkProofConfig m origin s 30 DEFAULT_REPLAY_CAPACITY true.

Definition with_skew_seconds (c : ProofConfig) (skew : Z) : ProofConfig :=
  mkProofConfig (mode c) (origin_id c) (secrets c) skew (replay_capacity c) (enable_replay_cache c).

Definition without_replay_cache (c : ProofConfig) : ProofConfig :=
  mkProofConfig (mode c) (origin_id c) (secrets c) (skew_seconds c) (replay_capacity c) false.

(** A rejection is its reason code. *)
Definition ProofError : Type := list byte.

(** ** Character sets *)
Definition token_char (b : byte) : bool :=
  is_ascii_alphanumeric b || bool_decide (b = x5f) || bool_decide (b = x2d).

Definition is_kid (s : list byte) : bool :=
  negb (bool_decide (s = [])) && (zlen s <=? 64) && forallb token_char s.
Definition is_ts (s : list byte) : bool :=
  negb (bool_decide (s = [])) && (zlen s <=? 20) && forallb is_ascii_digit s.
Definition is_nonce (s : list byte) : bool := (zlen s =? 22) && forallb token_char s.
Definition is_mac (s : list byte) : bool := (zlen s =? 43) && forallb token_char s.
Definition origin_char (b : byte) : bool :=
  is_ascii_alphanumeric b || bool_decide (b ∈ [x2e; x5f; x3a; x2f; x2d]).
Definition is_origin (s : list byte) : bool :=
  negb (bool_decide (s = [])) && (zlen s <=? 255) && forallb origin_char s.

Definition canonical_string (kid ts nonce origin : list byte) : list byte :=
  foldl (fun out part => out ++ x00 :: part) DOMAIN_PREFIX [kid; ts; nonce; origin].

(** ** The replay cache *)
Record NonceCache := mkNonceCache {
  order : list (list byte * Z);
  seen : gset (list byte);
  ttl : Z;
  capacity : Z
}.

Definition nonce_cache_new (t cap : Z) : NonceCache := mkNonceCache [] ∅ t cap.

(** The sweep: expired entries leave from the front. *)
Fixpoint sweep (now : Z) (o : list (list byte * Z)) (s : gset (list byte))
  : list (list byte * Z) * gset (list byte) :=
  match o with
  | [] => ([], s)
  | (n, expires) :: o' => if now <? expires then (o, s) else sweep now o' (s ∖ {[n]})
  end.

(** The eviction loop. With an empty queue its body changes nothing: if the
    condition still holds there, it spins for ever. *)
Fixpoint evict (cap : Z) (o : list (list byte * Z)) (s : gset (list byte))
  : option (list (list byte * Z) * gset (list byte)) :=
  if zlen o <? cap then Some (o, s)
  else match o with
       | [] => None
       | (n, _) :: o => evict cap o (s ∖ {[n]})
       end.

Definition check_and_add (c : NonceCache) (nonce : list byte) (now : Z)
  : option (res ProofError (bool * NonceCache)) :=
  let (o, s) := sweep now (order c) (seen c) in
  if bool_decide (nonce ∈ s) then Some (Ok (false, mkNonceCache o s (ttl c) (capacity c)))
  else
    '(o, s) ← evict (capacity c) o s;
    Some (expires ← i64_check (now + ttl c);
          Ok (true, mkNonceCache (o ++ [(nonce, expires)]) (s ∪ {[nonce]}) (ttl c) (capacity c))).

Class Hmac := hmac : list byte → list byte → list byte.

(** SHA-256 tags are 32 bytes long. *)
Class HmacLaws `{Hmac} := {
  hmac_len : ∀ k m, zlen (hmac k m) = 32
}.

Section ProxyProof.
Context `{Hmac} `{Base64}.

Definition derive_proof_secret (base_key proxy_id origin : list byte) : res RpcError (list byte) :=
  if negb (is_origin proxy_id) || negb (is_origin origin)
  then Err (RpcErr.value_error (bs "invalid proxy_id or origin_id"))
  else Ok (hmac base_key (DERIVE_LABEL ++ proxy_id ++ x00 :: origin)).

Definition mint_proof (secret kid origin : list byte) (now : Z) (nonce : list byte)
  : res RpcError (list byte) :=
  if negb (is_kid kid) || negb (is_origin origin)
  then Err (RpcErr.value_error (bs "invalid kid or origin_id")) else
  let ts := dec_signed now in
  let sig := b64url_encode (hmac secret (canonical_string kid ts nonce origin)) in
  Ok (join_with x2e [PROOF_VERSION; kid; ts; nonce; sig]).

Definition ok_claims (cfg : ProofConfig) (kid label : list byte) : list (list byte * list byte) :=
  [(bs "verified", bs "true"); (bs "proxy", label); (bs "kid", kid);
   (bs "origin_id", origin_id cfg); (bs "reason", bs "ok")].

(** Everything before the replay check. *)
Definition check_proof (token : list byte) (cfg : ProofConfig) (now : Z)
  : res ProofError (list byte * list byte * list byte) :=
  if MAX_HEADER_LEN <? zlen token then Err (bs "malformed") else
  match split_on x2e token with
  | [version; kid; ts_raw; nonce; mac_b64] =>
    if negb (bool_decide (version = PROOF_VERSION)) || negb (is_kid kid) || negb (is_ts ts_raw)
       || negb (is_nonce nonce) || negb (is_mac mac_b64)
    then Err (bs "malformed") else
    '(secret, label) ← ok_or (bs "unknown_kid") (secrets cfg !! kid);
    ts ← ok_or (bs "malformed") (parse_i64 ts_raw);
    age ← i64_check (now - ts);
    if skew_seconds cfg <? age then Err (bs "expired") else
    neg ← i64_check (- age);
    if skew_seconds cfg <? neg then Err (bs "not_yet_valid") else
    received ← ok_or (bs "malformed") (b64url_decode mac_b64);
    if bool_decide (hmac secret (canonical_string kid ts_raw nonce (origin_id cfg)) = received)
    then Ok (kid, label, nonce) else Err (bs "bad_mac")
  | _ => Err (bs "malformed")
  end.

Definition verify_proof (token : list byte) (cfg : ProofConfig) (cache : option NonceCache) (now : Z)
  : option (res ProofError (list (list byte * list byte)) * option NonceCache) :=
  match check_proof token cfg now with
  | Err e => Some (Err e, cache)
  | Panic => Some (Panic, cache)
  | Ok (kid, label, nonce) =>
    match cache with
    | None => Some (Ok (ok_claims cfg kid label), None)
    | Some c =>
      r ← check_and_add c nonce now;
      Some match r with
           | Ok (true, c) => (Ok (ok_claims cfg kid label), Some c)
           | Ok (false, c) => (Err (bs "replayed"), Some c)
           | Err e => (Err e, Some c)
           | Panic => (Panic, Some c)
           end
    end
  end.

Definition verify_request (req : AuthRequest) (cfg : ProofConfig) (cache : option NonceCache) (now : Z)
  : option (res ProofError (list (list byte * list byte)) * option NonceCache) :=
  match header req PROOF_HEADER with
  | None => Some (Err (bs "no_proof"), cache)
  | Some raw =>
    if bool_decide (raw = []) then Some (Err (bs "no_proof"), cache)
    else if contains [x2c] raw then Some (Err (bs "malformed"), cache)
    else verify_proof raw cfg cache now
  end.

(** ** The gate *)
Definition proof_required : RpcError := RpcErr.auth_failure ProxyRequired (bs "proxy proof required").

Definition failed_claims (cfg : ProofConfig) (reason : list byte) : list (list byte * list byte) :=
  [(bs "verified", bs "false"); (bs "proxy", []); (bs "kid", []);
   (bs "origin_id", origin_id cfg); (bs "reason", reason)].

(** [Default::default()] for the maps is the empty map. *)
Definition gate_context {S} (inner : option (Authenticate S)) (req : AuthRequest) (s : S)
    (pclaims : list (list byte * list byte)) : res RpcError AuthContext * S :=
  let proxy_label := default [] (snd <$> List.find (fun kv => bool_decide (kv.1 = bs "proxy")) pclaims) in
  let add (m : Metadata) : Metadata :=
    foldl (fun m kv => <[CLAIMS_PREFIX ++ x2e :: kv.1 := kv.2]> m) m pclaims in
  match inner with
  | None => (Ok (mkAuthContext CLAIMS_PREFIX true proxy_label (add ∅)), s)
  | Some f =>
    match f req s with
    | (Ok first, s) =>
      match f req s with
      | (Ok ctx, s) =>
        (Ok (mkAuthContext (domain ctx) (authenticated ctx) (principal ctx) (add (claims first))), s)
      | failed => failed
      end
    | failed => failed
    end
  end.

(** The callback the gate returns: its cache beside the state of [inner]. *)
Definition proof_gate {S} (cfg : ProofConfig) (inner : option (Authenticate S)) (now : Z)
    (req : AuthRequest) (st : option NonceCache * S)
  : option (res RpcError AuthContext * (option NonceCache * S)) :=
  '(r, cache) ← verify_request req cfg st.1 now;
  Some match r with
       | Ok pclaims => let '(a, s) := gate_context inner req st.2 pclaims in (a, (cache, s))
       | Panic => (Panic, (cache, st.2))
       | Err reason =>
         if bool_decide (mode cfg = Require) then (Err proof_required, (cache, st.2))
         else let '(a, s) := gate_context inner req st.2 (failed_claims cfg reason) in (a, (cache, s))
       end.

(** [proof_authenticate]: the configuration checks, and the gate with its cache. *)
Definition proof_authenticate {S} (cfg : ProofConfig) (inner : option (Authenticate S))
  : res RpcError (option NonceCache * (Z → AuthRequest → option NonceCache * S →
                    option (res RpcError AuthContext * (option NonceCache * S)))) :=
  if bool_decide (mode cfg = Off)
  then Err (RpcErr.value_error (bs "proof_authenticate called with mode=Off; install no gate instead")) else
  if negb (is_origin (origin_id cfg))
  then Err (RpcErr.value_error (bs "origin_id is required and must be valid")) else
  if bool_decide (secrets cfg = ∅) then Err (RpcErr.value_error (bs "at least one secret is required")) else
  if negb (forallb is_kid (fst <$> map_to_list (secrets cfg)))
  then Err (RpcErr.value_error (bs "invalid kid in secrets")) else
  if skew_seconds cfg <=? 0 then Err (RpcErr.value_error (bs "skew_seconds must be positive")) else
  let cache := if enable_replay_cache cfg
               then Some (nonce_cache_new (skew_seconds cfg) (replay_capacity cfg)) else None in
  Ok (cache, proof_gate cfg inner).
End ProxyProof.

(** ** Secret specifications: [kid:hex,kid:hex] *)
Fixpoint secret_bytes (n : nat) (i : Z) (hex : list byte) : res RpcError (list byte) :=
  match n with
  | O => Ok []
  | S n =>
    pair ← or_panic (str_slice hex (i * 2) (i * 2 + 2));
    v ← ok_or (RpcErr.value_error (bs "secret is not valid hex")) (parse_u8_hex pair);
    rest ← secret_bytes n (i + 1) hex;
    Ok (z2b v :: rest)
  end.

Definition parse_secret_item (out : gmap (list byte) (list byte * list byte)) (chunk : list byte)
  : res RpcError (gmap (list byte) (list byte * list byte)) :=
  let item := trim chunk in
  if bool_decide (item = []) then Ok out else
  '(kid, hex) ← ok_or (RpcErr.value_error (bs "expected 'kid:hex'")) (split_once x3a item);
  if negb (is_kid kid) then Err (RpcErr.value_error (bs "invalid kid")) else
  if negb (zlen hex =? SECRET_LEN * 2) then Err (RpcErr.value_error (bs "secret must be 64 hex chars")) else
  secret ← secret_bytes (Z.to_nat SECRET_LEN) 0 hex;
  Ok (<[kid := (secret, kid)]> out).

Definition parse_proof_secrets (raw : list byte)
  : res RpcError (gmap (list byte) (list byte * list byte)) :=
  out ← try_fold parse_secret_item ∅ (split_on x2c raw);
  if bool_decide (out = ∅) then Err (RpcErr.value_error (bs "no secrets parsed")) else Ok out.
