(* ===== verification/ProofProps.v ===== *)
(** * Proxy proofs: what verifies, and what the replay cache remembers *)

From Stdlib Require Import Sorting.Sorted.
From S2P Require Import Prelude Bytes Errors Crypto Auth Proof.

(** ** Character sets keep the framing unambiguous *)
Lemma forallb_Forall' {A} (f : A → bool) l : forallb f l = true ↔ Forall (fun x => f x = true) l.
Proof. rewrite forallb_forall, list.Forall_forall. setoid_rewrite list_elem_of_In. done. Qed.

Lemma charset_excludes (f : byte → bool) (c : byte) l : forallb f l = true → f c = false → c ∉ l.
Proof.
  rewrite forallb_Forall', list.Forall_forall. intros Hl Hc Hin. apply Hl in Hin. congruence.
Qed.

Lemma is_kid_inv s : is_kid s = true → (x2e ∉ s) ∧ (x00 ∉ s) ∧ zlen s ≤ 64.
Proof.
  unfold is_kid. intros [[_ Hl%Z.leb_le]%andb_true_iff Hf]%andb_true_iff.
  split_and!; [by eapply charset_excludes|by eapply charset_excludes|done].
Qed.

Lemma is_nonce_inv s : is_nonce s = true → (x2e ∉ s) ∧ (x00 ∉ s) ∧ zlen s = 22.
Proof.
  unfold is_nonce. intros [Hl%Z.eqb_eq Hf]%andb_true_iff.
  split_and!; [by eapply charset_excludes|by eapply charset_excludes|done].
Qed.

Lemma is_mac_inv s : is_mac s = true → (x2e ∉ s) ∧ zlen s = 43.
Proof. unfold is_mac. intros [Hl%Z.eqb_eq Hf]%andb_true_iff. split; [by eapply charset_excludes|done]. Qed.

Lemma is_ts_inv s : is_ts s = true → (x2e ∉ s) ∧ (x00 ∉ s).
Proof.
  unfold is_ts. intros [_ Hf]%andb_true_iff. split; by eapply charset_excludes.
Qed.

Lemma canonical_string_app kid ts nonce origin :
  canonical_string kid ts nonce origin =
    DOMAIN_PREFIX ++ x00 :: kid ++ x00 :: ts ++ x00 :: nonce ++ x00 :: origin.
Proof.
  unfold canonical_string. cbn [foldl]. rewrite <- !app_assoc. done.
Qed.

(** One MAC input, one reading. *)
Lemma canonical_string_inj kid ts nonce origin kid' ts' nonce' origin' :
  x00 ∉ kid ++ ts ++ nonce → x00 ∉ kid' ++ ts' ++ nonce' →
  canonical_string kid ts nonce origin = canonical_string kid' ts' nonce' origin' →
  kid = kid' ∧ ts = ts' ∧ nonce = nonce' ∧ origin = origin'.
Proof.
  rewrite !not_elem_of_app. intros (Hk & Ht & Hn) (Hk' & Ht' & Hn'). rewrite !canonical_string_app.
  intros E. apply app_inv_head in E. injection E as E. apply nul_split in E as [-> E]; [|done..].
  apply nul_split in E as [-> E]; [|done..]. by apply nul_split in E as [-> ->].
Qed.

Lemma is_ts_dec t : 0 ≤ t ≤ i64_max → is_ts (dec_unsigned t) = true.
Proof.
  intros Ht. unfold is_ts. rewrite !andb_true_iff. split_and!.
  - apply negb_true_iff, bool_decide_eq_false_2. destruct (dec_unsigned_cons t) as (? & ? & -> & _); [lia|done].
  - apply Z.leb_le. unfold dec_unsigned.
    pose proof (dec_digits_length (Z.to_nat (Z.log2 t + 1)) t [] 20) as Hl.
    apply Hl; [ints; lia|lia].
  - apply forallb_Forall'. apply dec_unsigned_digits. lia.
Qed.

Section Proofs.
Context `{HmacLaws} `{Base64Laws}.

Lemma b64url_token_char b : b64url_char b = true → token_char b = true.
Proof. destruct b; vm_compute; congruence. Qed.

Lemma mac_text k m : is_mac (b64url_encode (hmac k m)) = true.
Proof.
  unfold is_mac. rewrite b64url_length, hmac_len. change ((4 * 32 + 2) / 3 =? 43) with true. cbn [andb].
  apply forallb_Forall'. eapply list.Forall_impl; [apply b64url_alphabet|]. intros b. apply b64url_token_char.
Qed.

Definition proof_text (kid ts nonce mac : list byte) : list byte :=
  join_with x2e [PROOF_VERSION; kid; ts; nonce; mac].

Lemma split_proof_text kid ts nonce mac :
  x2e ∉ kid → x2e ∉ ts → x2e ∉ nonce → x2e ∉ mac →
  split_on x2e (proof_text kid ts nonce mac) = [PROOF_VERSION; kid; ts; nonce; mac].
Proof.
  intros. unfold proof_text. cbn [join_with]. rewrite !split_on_app by (done || (vm_compute; set_solver)).
  by rewrite split_on_plain.
Qed.

Lemma zlen_proof_text kid ts nonce mac :
  zlen (proof_text kid ts nonce mac) = 6 + zlen kid + zlen ts + zlen nonce + zlen mac.
Proof.
  unfold proof_text. cbn [join_with]. rewrite !zlen_app, !zlen_cons, !zlen_app, !zlen_cons, !zlen_app,
    !zlen_cons, !zlen_app, !zlen_cons. change (zlen PROOF_VERSION) with 2. lia.
Qed.

(** The verdict on a well-formed text. *)
Lemma check_proof_text kid ts_raw nonce mac cfg secret label ts now :
  is_kid kid = true → is_ts ts_raw = true → is_nonce nonce = true → is_mac mac = true →
  secrets cfg !! kid = Some (secret, label) → parse_i64 ts_raw = Some ts →
  0 ≤ ts ≤ i64_max → 0 ≤ now ≤ i64_max →
  check_proof (proof_text kid ts_raw nonce mac) cfg now =
    if skew_seconds cfg <? now - ts then Err (bs "expired")
    else if skew_seconds cfg <? ts - now then Err (bs "not_yet_valid")
    else received ← ok_or (bs "malformed") (b64url_decode mac);
         if bool_decide (hmac secret (canonical_string kid ts_raw nonce (origin_id cfg)) = received)
         then Ok (kid, label, nonce) else Err (bs "bad_mac").
Proof.
  intros Hk Ht Hn Hm Hs Hp Hts Hnow.
  pose proof (is_kid_inv _ Hk) as (Hk1 & Hk2 & Hk3). pose proof (is_ts_inv _ Ht) as (Ht1 & Ht2).
  pose proof (is_nonce_inv _ Hn) as (Hn1 & Hn2 & Hn3). pose proof (is_mac_inv _ Hm) as (Hm1 & Hm2).
  assert (zlen ts_raw ≤ 20) as Htl.
  { unfold is_ts in Ht. apply andb_true_iff in Ht as [Ht _]. apply andb_true_iff in Ht as [_ Ht].
    by apply Z.leb_le. }
  unfold check_proof. rewrite zlen_proof_text. unfold MAX_HEADER_LEN.
  destruct (Z.ltb_spec 512 (6 + zlen kid + zlen ts_raw + zlen nonce + zlen mac)); [lia|].
  rewrite split_proof_text by done. rewrite bool_decide_eq_true_2 by done.
  rewrite Hk, Ht, Hn, Hm, Hs, Hp. cbn [negb orb ok_or mbind res_bind].
  unfold i64_check. ints. rewrite (proj2 (Z.leb_le (- 2 ^ 63) (now - ts))) by lia.
  rewrite (proj2 (Z.leb_le (now - ts) (2 ^ 63 - 1))) by lia. cbn [andb mbind res_bind].
  destruct (Z.ltb_spec (skew_seconds cfg) (now - ts)); [done|].
  rewrite (proj2 (Z.leb_le (- 2 ^ 63) (- (now - ts)))) by lia.
  rewrite (proj2 (Z.leb_le (- (now - ts)) (2 ^ 63 - 1))) by lia. cbn [andb mbind res_bind].
  replace (- (now - ts)) with (ts - now) by lia. done.
Qed.

(** A minted proof is such a text. *)
Lemma mint_proof_inv secret kid origin t nonce tok :
  mint_proof secret kid origin t nonce = Ok tok → 0 ≤ t →
  is_kid kid = true ∧ is_origin origin = true ∧
  tok = proof_text kid (dec_unsigned t) nonce
          (b64url_encode (hmac secret (canonical_string kid (dec_unsigned t) nonce origin))).
Proof.
  unfold mint_proof, dec_signed. intros E Ht. destruct (is_kid kid), (is_origin origin); try done.
  destruct (Z.ltb_spec t 0); [lia|]. cbn [negb orb] in E. injection E as <-. done.
Qed.

(** What an accepted header is. *)
Lemma check_proof_sound token cfg now kid label nonce :
  check_proof token cfg now = Ok (kid, label, nonce) →
  ∃ secret ts_raw ts, secrets cfg !! kid = Some (secret, label) ∧ parse_i64 ts_raw = Some ts ∧
    - skew_seconds cfg ≤ now - ts ≤ skew_seconds cfg ∧ is_kid kid = true ∧ is_nonce nonce = true ∧
    token = proof_text kid ts_raw nonce
              (b64url_encode (hmac secret (canonical_string kid ts_raw nonce (origin_id cfg)))).
Proof.
  unfold check_proof. case_match; [done|].
  destruct (split_on x2e token) as [|v [|k [|tr [|n [|m [|]]]]]] eqn:Es; try done.
  pose proof (split_on_join x2e token) as Ej. rewrite Es in Ej.
  destruct (bool_decide (v = PROOF_VERSION)) eqn:Ev; [|done]. apply bool_decide_eq_true in Ev. subst v.
  destruct (is_kid k) eqn:Ek, (is_ts tr) eqn:Et, (is_nonce n) eqn:En, (is_mac m) eqn:Em; try done.
  cbn [negb orb]. intros E. apply bind_Ok in E as ([secret lab] & Hs%ok_or_Ok & E).
  apply bind_Ok in E as (ts & Hts%ok_or_Ok & E). apply bind_Ok in E as (age & Ha & E).
  unfold i64_check in *. destruct (_ && _) in Ha; [|done]. injection Ha as <-.
  destruct (Z.ltb_spec (skew_seconds cfg) (now - ts)); [done|]. apply bind_Ok in E as (neg & Hg & E).
  destruct (_ && _) in Hg; [|done]. injection Hg as <-.
  destruct (Z.ltb_spec (skew_seconds cfg) (- (now - ts))); [done|].
  apply bind_Ok in E as (rc & Hr%ok_or_Ok & E). case_bool_decide as Hh; [|done]. injection E as -> -> ->.
  exists secret, tr, ts. apply b64url_canonical in Hr. subst rc m. split_and!; try done; lia.
Qed.

(** A minted proof (any secret, kid, worker and time) presented to a worker
    that holds the secret under the kid verifies exactly within the two-sided skew
    window, and is refused as expired or not yet valid outside; a worker other than
    the one it was minted for compares tags of different MAC inputs. *)
Theorem mint_verify_proof secret kid origin t nonce tok cfg label now :
  mint_proof secret kid origin t nonce = Ok tok → is_nonce nonce = true →
  0 ≤ t ≤ i64_max → 0 ≤ now ≤ i64_max → secrets cfg !! kid = Some (secret, label) →
  let input o := canonical_string kid (dec_unsigned t) nonce o in
  verify_proof tok cfg None now = Some
    (if skew_seconds cfg <? now - t then Err (bs "expired")
     else if skew_seconds cfg <? t - now then Err (bs "not_yet_valid")
     else if bool_decide (hmac secret (input (origin_id cfg)) = hmac secret (input origin))
     then Ok (ok_claims cfg kid label) else Err (bs "bad_mac"), None) ∧
  (input (origin_id cfg) = input origin ↔ origin_id cfg = origin).
Proof.
  intros Hm Hn Ht Hnow Hs input. apply mint_proof_inv in Hm as (Hk & Ho & ->); [|lia]. split.
  - unfold verify_proof. rewrite (check_proof_text kid (dec_unsigned t) nonce _ cfg secret label t now)
      by (done || by apply is_ts_dec || apply mac_text || by apply parse_dec_i64).
    rewrite b64url_decode_encode. cbn [ok_or mbind res_bind]. fold input.
    destruct (skew_seconds cfg <? now - t); [done|]. destruct (skew_seconds cfg <? t - now); [done|].
    unfold input. by case_bool_decide.
  - split; [|by intros ->]. unfold input. rewrite !canonical_string_app. intros E.
    apply app_inv_head in E. injection E as E. do 3 (apply app_inv_head in E; injection E as E). done.
Qed.
End Proofs.

(** ** The replay cache against its log

    The reference keeps every accepted nonce with its expiry, oldest first; a nonce
    is a replay when it is among the [cap] newest entries and has not expired. *)
Section Cache.
Implicit Types (l log : list (list byte * Z)) (now : Z) (cap : nat).

Definition take_last (n : nat) l : list (list byte * Z) := drop (length l - n) l.
Definition unexpired now l : list (list byte * Z) := filter (fun ne => now < ne.2) l.
Definition retained cap now log : list (list byte * Z) := unexpired now (take_last cap log).

Fixpoint reference_run (t : Z) cap log (calls : list (list byte * Z)) : list bool :=
  match calls with
  | [] => []
  | (n, now) :: calls =>
    let fresh := bool_decide (n ∉ (retained cap now log).*1) in
    fresh :: reference_run t cap (if fresh then log ++ [(n, now + t)] else log) calls
  end.

(** The calls on a cache, in order. *)
Fixpoint cache_run (c : NonceCache) (calls : list (list byte * Z))
  : option (res ProofError (list bool * NonceCache)) :=
  match calls with
  | [] => Some (Ok ([], c))
  | (n, now) :: calls =>
    r ← check_and_add c n now;
    match r with
    | Ok (fresh, c) =>
      rest ← cache_run c calls;
      Some ('(bs, c) ← rest; Ok (fresh :: bs, c))
    | Err e => Some (Err e)
    | Panic => Some Panic
    end
  end.

Definition by_expiry : relation (list byte * Z) := fun a b => a.2 ≤ b.2.

Lemma sorted_drop l j : StronglySorted by_expiry l → StronglySorted by_expiry (drop j l).
Proof.
  revert j. induction l as [|x l IH]; intros [|j] Hs; try done. apply IH. by inversion Hs.
Qed.

Lemma unexpired_id now l : Forall (fun ne => now < ne.2) l → unexpired now l = l.
Proof.
  unfold unexpired. induction 1 as [|x l Hx _ IH]; [done|]. rewrite list.filter_cons_True by done. by f_equal.
Qed.

Lemma unexpired_all now x l :
  now < x.2 → StronglySorted by_expiry (x :: l) → Forall (fun ne => now < ne.2) (x :: l).
Proof.
  intros Hx [_ Hs]%StronglySorted_inv. constructor; [done|].
  eapply list.Forall_impl; [exact Hs|]. unfold by_expiry. intros; lia.
Qed.

(** In expiry order, what has not expired is a suffix. *)
Lemma unexpired_suffix now l :
  StronglySorted by_expiry l → ∃ k, ∀ j, unexpired now (drop j l) = drop (k `max` j) l.
Proof.
  induction l as [|x l IH]; intros Hs.
  { exists 0%nat. intros j. by rewrite !drop_nil. }
  destruct (decide (now < x.2)) as [Hx|Hx].
  - exists 0%nat. intros j. apply unexpired_id, list.Forall_drop. by apply unexpired_all.
  - destruct IH as [k Hk]; [by inversion Hs|]. exists (S k). intros [|j].
    + change (drop 0 (x :: l)) with (x :: l). unfold unexpired. rewrite list.filter_cons_False by done.
      specialize (Hk 0%nat). rewrite Nat.max_0_r in *. exact Hk.
    + apply Hk.
Qed.

Lemma retained_pop cap now log :
  StronglySorted by_expiry log → (1 ≤ cap)%nat →
  take_last (cap - 1) (retained cap now log) = unexpired now (take_last (cap - 1) log).
Proof.
  intros Hs Hc. destruct (unexpired_suffix now log Hs) as [k Hk]. unfold retained, take_last.
  rewrite !Hk, length_drop, drop_drop. f_equal. lia.
Qed.

Lemma retained_sorted cap now log :
  StronglySorted by_expiry log → StronglySorted by_expiry (retained cap now log).
Proof.
  intros Hs. destruct (unexpired_suffix now log Hs) as [k Hk]. unfold retained, take_last.
  rewrite Hk. by apply sorted_drop.
Qed.

Lemma retained_length cap now log : (length (retained cap now log) ≤ cap)%nat.
Proof.
  unfold retained, unexpired. etransitivity; [apply length_filter|]. unfold take_last. rewrite length_drop. lia.
Qed.

Lemma retained_later cap clk now log :
  clk ≤ now → unexpired now (retained cap clk log) = retained cap now log.
Proof.
  intros Hc. unfold retained, unexpired. apply list_filter_filter_l. intros; lia.
Qed.

Lemma retained_push cap now log x :
  (1 ≤ cap)%nat → now < x.2 →
  retained cap now (log ++ [x]) = unexpired now (take_last (cap - 1) log) ++ [x].
Proof.
  intros Hc Hx. unfold retained, take_last. rewrite length_app. cbn [length].
  rewrite drop_app_le by lia. unfold unexpired. rewrite list.filter_app. f_equal.
  - do 2 f_equal. lia.
  - by rewrite list.filter_cons_True.
Qed.

(** ** The loops *)
Definition nonces l : gset (list byte) := list_to_set l.*1.

Lemma nonces_cons n e l : n ∉ l.*1 → nonces ((n, e) :: l) ∖ {[n]} = nonces l.
Proof. unfold nonces. intros. rewrite fmap_cons. cbn. set_solver. Qed.

Lemma sweep_spec now l :
  StronglySorted by_expiry l → NoDup l.*1 →
  sweep now l (nonces l) = (unexpired now l, nonces (unexpired now l)).
Proof.
  induction l as [|[n e] l IH]; intros Hs Hn; [done|]. cbn [sweep].
  destruct (Z.ltb_spec now e) as [Hx|Hx].
  - by rewrite unexpired_id by (by apply unexpired_all).
  - rewrite fmap_cons in Hn. apply list.NoDup_cons in Hn as [Hnin Hn].
    rewrite nonces_cons by done. unfold unexpired. rewrite list.filter_cons_False by (cbn; lia).
    apply IH; [by inversion Hs|done].
Qed.

Lemma evict_spec cap l :
  (1 ≤ cap)%nat → (length l ≤ cap)%nat → NoDup l.*1 →
  evict (Z.of_nat cap) l (nonces l) = Some (take_last (cap - 1) l, nonces (take_last (cap - 1) l)).
Proof.
  intros Hc Hl Hn. assert (∀ k, (length k ≤ cap - 1)%nat → evict (Z.of_nat cap) k (nonces k) = Some (k, nonces k)) as He.
  { intros k Hk. destruct k as [|[m e] k]; cbn [evict]; unfold zlen;
      (case_match eqn:E; [done|apply Z.ltb_ge in E; cbn [length] in *; lia]). }
  unfold take_last. destruct (decide (length l ≤ cap - 1)%nat) as [Hs|Hs].
  - replace (length l - (cap - 1))%nat with 0%nat by lia. by apply He.
  - destruct l as [|[n e] l]; [cbn in Hs; lia|]. cbn [length] in *.
    replace (S (length l) - (cap - 1))%nat with 1%nat by lia. cbn [drop]. rewrite fmap_cons in Hn.
    apply list.NoDup_cons in Hn as [Hnin Hn]. cbn [evict].
    destruct (Z.ltb_spec (zlen ((n, e) :: l)) (Z.of_nat cap)) as [Hlt|_]; [unfold zlen in Hlt; cbn [length] in Hlt; lia|].
    rewrite nonces_cons, drop_0 by done. apply He. lia.
Qed.

(** ** The simulation *)
Definition cache_ok (t : Z) cap (clk : Z) log (c : NonceCache) : Prop :=
  ttl c = t ∧ capacity c = Z.of_nat cap ∧ order c = retained cap clk log ∧ seen c = nonces (order c) ∧
  NoDup (order c).*1 ∧ StronglySorted by_expiry log ∧ Forall (fun ne => ne.2 ≤ clk + t) log.

Lemma filter_nodup (now : Z) l : NoDup l.*1 → NoDup (unexpired now l).*1.
Proof.
  unfold unexpired. induction l as [|x l IH]; [done|]. rewrite fmap_cons. intros [Hx Hl]%list.NoDup_cons.
  destruct (decide (now < x.2)); [|rewrite list.filter_cons_False by done; by apply IH].
  rewrite list.filter_cons_True, fmap_cons by done. apply list.NoDup_cons. split; [|by apply IH].
  intros (y & Ey & [_ Hy]%list_elem_of_filter)%list_elem_of_fmap. apply Hx, list_elem_of_fmap. eauto.
Qed.

Lemma sorted_push log x (b : Z) :
  StronglySorted by_expiry log → Forall (fun ne => ne.2 ≤ b) log → b ≤ x.2 → StronglySorted by_expiry (log ++ [x]).
Proof.
  induction log as [|y log IH]; intros Hs Hb Hx; [repeat constructor|].
  apply StronglySorted_inv in Hs as [Hs Hy]. apply list.Forall_cons in Hb as [Hby Hb].
  cbn [app]. constructor; [by apply IH|]. apply Forall_app. split; [done|].
  constructor; [|constructor]. unfold by_expiry. lia.
Qed.

Lemma check_and_add_ok t cap clk log c n now :
  cache_ok t cap clk log c → (1 ≤ cap)%nat → 0 < t → clk ≤ now → in_i64 (now + t) →
  ∃ c', check_and_add c n now = Some (Ok (bool_decide (n ∉ (retained cap now log).*1), c')) ∧
    cache_ok t cap now (if bool_decide (n ∉ (retained cap now log).*1) then log ++ [(n, now + t)] else log) c'.
Proof.
  intros (Ht & Hcap & Ho & Hs & Hn & Hsort & Hb) Hc1 Htp Hck Hi. unfold check_and_add.
  assert (sweep now (order c) (seen c) = (retained cap now log, nonces (retained cap now log))) as ->.
  { rewrite Hs, sweep_spec; [by rewrite Ho, retained_later|rewrite Ho; by apply retained_sorted|done]. }
  assert (NoDup (retained cap now log).*1) as Hn'.
  { rewrite <- (retained_later cap clk now) by done. apply filter_nodup. by rewrite <- Ho. }
  assert (Forall (fun ne => ne.2 ≤ now + t) log) as Hb'
    by (eapply list.Forall_impl; [exact Hb|]; cbn; intros; lia).
  assert (n ∈ nonces (retained cap now log) ↔ n ∈ (retained cap now log).*1) as Hin
    by (unfold nonces; by rewrite elem_of_list_to_set).
  destruct (decide (n ∈ (retained cap now log).*1)) as [Hd|Hd].
  - rewrite bool_decide_eq_true_2 by (by apply Hin). rewrite bool_decide_eq_false_2 by naive_solver.
    eexists. split; [done|]. repeat split; done.
  - rewrite bool_decide_eq_false_2 by (by rewrite Hin). rewrite bool_decide_eq_true_2 by done.
    rewrite Hcap, evict_spec by (done || apply retained_length).
    cbn [mbind option_bind]. unfold i64_check. rewrite Ht. ints.
    rewrite (proj2 (Z.leb_le (- 2 ^ 63) (now + t))), (proj2 (Z.leb_le (now + t) (2 ^ 63 - 1))) by lia.
    cbn [andb mbind res_bind]. eexists. split; [done|]. rewrite retained_pop by done.
    unfold cache_ok. cbn [order seen ttl capacity]. rewrite retained_push by (cbn; lia || done).
    assert (NoDup (unexpired now (take_last (cap - 1) log)).*1) as Hnd.
    { rewrite <- retained_pop by done. unfold take_last. rewrite fmap_drop.
      eapply sublist_NoDup; [done|apply sublist_drop]. }
    assert (n ∉ (unexpired now (take_last (cap - 1) log)).*1) as Hni.
    { rewrite <- retained_pop by done. unfold take_last. intros Hx. apply Hd.
      rewrite fmap_drop in Hx.
      erewrite <- take_drop. apply elem_of_app. right. exact Hx. }
    split_and!; try done.
    + unfold nonces. rewrite fmap_app, list_to_set_app_L. cbn. set_solver.
    + rewrite fmap_app. apply list.NoDup_app. split_and!; [done| |apply NoDup_singleton]. set_solver.
    + by eapply sorted_push.
    + apply Forall_app. split; [done|]. constructor; [cbn; lia|constructor].
Qed.

(** The clock readings of the calls, in order from [clk] on. *)
Fixpoint clocks_ok (t clk : Z) (calls : list (list byte * Z)) : Prop :=
  match calls with
  | [] => True
  | (_, now) :: calls => clk ≤ now ∧ in_i64 (now + t) ∧ clocks_ok t now calls
  end.

Lemma cache_run_ok t cap clk log c calls :
  cache_ok t cap clk log c → (1 ≤ cap)%nat → 0 < t → clocks_ok t clk calls →
  ∃ c', cache_run c calls = Some (Ok (reference_run t cap log calls, c')) ∧ zlen (order c') ≤ capacity c'.
Proof.
  revert clk log c. induction calls as [|[n now] calls IH]; intros clk log c Hok Hc Ht Hcl.
  - exists c. split; [done|]. destruct Hok as (_ & -> & -> & _). unfold zlen.
    pose proof (retained_length cap clk log). lia.
  - destruct Hcl as (Hck & Hi & Hcl). cbn [cache_run reference_run].
    destruct (check_and_add_ok t cap clk log c n now Hok Hc Ht Hck Hi) as (c1 & -> & Hok1).
    cbn [mbind option_bind]. destruct (IH now _ c1 Hok1 Hc Ht Hcl) as (c2 & -> & Hl). eauto.
Qed.

(** C34. The replay cache, over any sequence of calls whose clock does not go back:
    every call returns, without a panic, exactly what the log answers (a nonce is
    fresh unless it is among the [cap] newest accepted ones and its lifetime has
    not passed), and never more than [cap] nonces are kept. With capacity zero the
    first fresh nonce never returns: the eviction loop spins. *)
Theorem nonce_cache_refines t cap clk calls :
  0 < t → clocks_ok t clk calls →
  ((1 ≤ cap)%nat →
     ∃ c', cache_run (nonce_cache_new t (Z.of_nat cap)) calls = Some (Ok (reference_run t cap [] calls, c')) ∧
           zlen (order c') ≤ Z.of_nat cap) ∧
  (∀ n now, check_and_add (nonce_cache_new t 0) n now = None).
Proof.
  intros Ht Hcl. split; [|done]. intros Hc.
  assert (cache_ok t cap clk [] (nonce_cache_new t (Z.of_nat cap))) as Hok.
  { unfold cache_ok, retained, take_last, unexpired, nonces. cbn. split_and!; try done; constructor. }
  destruct (cache_run_ok t cap clk [] _ calls Hok Hc Ht Hcl) as (c' & E & Hl). exists c'. split; [done|].
  assert (∀ c cs bs0 c2, cache_run c cs = Some (Ok (bs0, c2)) → capacity c2 = capacity c) as Hcap.
  { clear. intros c cs. revert c. induction cs as [|[n now] cs IH]; intros c bs0 c2 E; cbn [cache_run] in E.
    - by injection E as _ <-.
    - destruct (check_and_add c n now) as [[[f c1]|?|]|] eqn:Ec; try done. cbn [mbind option_bind] in E.
      destruct (cache_run c1 cs) as [[[bs1 c3]|?|]|] eqn:Er; try done. cbn in E. injection E as <- <-.
      rewrite (IH _ _ _ Er). unfold check_and_add in Ec. destruct (sweep _ _ _) as [o s].
      case_match; [by injection Ec as <- <-|]. destruct (evict _ _ _) as [[o' s']|]; [|done].
      cbn [mbind option_bind] in Ec. unfold i64_check in Ec. case_match; [|done]. by injection Ec as <- <-. }
  by rewrite (Hcap _ _ _ _ E) in Hl.
Qed.
End Cache.

Section Gate.
Context `{HmacLaws} `{Base64Laws}.

(** The cache forgets a nonce while its proof still verifies: a proof minted at
    [t] and accepted at [t] is accepted again [skew] seconds later by the gate's own
    cache, whatever its capacity, although the nonce was seen. *)
Theorem proof_replay_accepted secret kid t nonce tok cfg label :
  mint_proof secret kid (origin_id cfg) t nonce = Ok tok → is_nonce nonce = true →
  0 ≤ t → t + 2 * skew_seconds cfg ≤ i64_max → 0 < skew_seconds cfg → 1 ≤ replay_capacity cfg →
  secrets cfg !! kid = Some (secret, label) →
  ∃ c1 c2, verify_proof tok cfg (Some (nonce_cache_new (skew_seconds cfg) (replay_capacity cfg))) t =
             Some (Ok (ok_claims cfg kid label), Some c1) ∧
           verify_proof tok cfg (Some c1) (t + skew_seconds cfg) =
             Some (Ok (ok_claims cfg kid label), Some c2).
Proof.
  intros Hm Hn Ht Hi Hsk Hcap Hs. apply mint_proof_inv in Hm as (Hk & Ho & ->); [|lia].
  set (skew := skew_seconds cfg) in *.
  assert (∀ now, t ≤ now ≤ t + skew → check_proof (proof_text kid (dec_unsigned t) nonce
     (b64url_encode (hmac secret (canonical_string kid (dec_unsigned t) nonce (origin_id cfg))))) cfg now =
     Ok (kid, label, nonce)) as Hc.
  { intros now Hnow. rewrite (check_proof_text kid (dec_unsigned t) nonce _ cfg secret label t now).
    2-8: done || (apply is_ts_dec; lia) || apply mac_text || (apply parse_dec_i64; lia) || lia.
    2: lia. fold skew. destruct (Z.ltb_spec skew (now - t)); [lia|]. destruct (Z.ltb_spec skew (t - now)); [lia|].
    rewrite b64url_decode_encode. cbn [ok_or mbind res_bind]. by rewrite bool_decide_eq_true_2. }
  assert (∀ now, 0 ≤ now → now + skew ≤ i64_max → i64_check (E:=ProofError) (now + skew) = Ok (now + skew)) as Hi64.
  { intros now H1' H2'. unfold i64_check. ints.
    by rewrite (proj2 (Z.leb_le (- 2 ^ 63) (now + skew))), (proj2 (Z.leb_le (now + skew) (2 ^ 63 - 1))) by lia. }
  exists (mkNonceCache [(nonce, t + skew)] (∅ ∪ {[nonce]}) skew (replay_capacity cfg)),
         (mkNonceCache [(nonce, t + skew + skew)] ((∅ ∪ {[nonce]}) ∖ {[nonce]} ∪ {[nonce]}) skew (replay_capacity cfg)).
  unfold verify_proof. rewrite !Hc by lia. unfold check_and_add, nonce_cache_new.
  cbn [order seen ttl capacity sweep]. split.
  - rewrite bool_decide_eq_false_2 by set_solver. cbn [evict]. rewrite zlen_nil.
    rewrite (proj2 (Z.ltb_lt 0 (replay_capacity cfg))) by lia. cbn [mbind option_bind].
    rewrite Hi64 by lia. done.
  - rewrite Z.ltb_irrefl. cbn [sweep]. rewrite bool_decide_eq_false_2 by set_solver. cbn [evict].
    rewrite zlen_nil, (proj2 (Z.ltb_lt 0 (replay_capacity cfg))) by lia. cbn [mbind option_bind].
    rewrite Hi64 by lia. done.
Qed.

(** The gate in [Require] mode is a conjunction: without a proof that this
    worker accepts, the callback it wraps does not run (its state is unchanged) and
    the caller gets the uniform refusal; with one, the header is the text of a MAC,
    under a configured secret, over this worker's own identifier within the window,
    and the answer is the wrapped callback's (an error unchanged). *)
Theorem proof_gate_require {S : Type} (cfg : ProofConfig) (inner : option (Authenticate S)) now req cache (s : S) out st' :
  mode cfg = Require → proof_gate cfg inner now req (cache, s) = Some (out, st') →
  (out = Err proof_required ∧ st'.2 = s) ∨
  (out = Panic ∧ st'.2 = s) ∨
  (∃ kid label secret ts_raw ts nonce pclaims,
     header req PROOF_HEADER = Some (proof_text kid ts_raw nonce
       (b64url_encode (hmac secret (canonical_string kid ts_raw nonce (origin_id cfg))))) ∧
     secrets cfg !! kid = Some (secret, label) ∧ parse_i64 ts_raw = Some ts ∧
     - skew_seconds cfg ≤ now - ts ≤ skew_seconds cfg ∧
     pclaims = ok_claims cfg kid label ∧ (out, st'.2) = gate_context inner req s pclaims).
Proof.
  intros Hmode. unfold proof_gate. cbn [fst snd].
  destruct (verify_request req cfg cache now) as [[r c']|] eqn:Ev; [|done]. cbn [mbind option_bind].
  destruct r as [pclaims|reason|].
  - destruct (gate_context inner req s pclaims) as [a s'] eqn:Eg. intros [= <- <-]. right. right.
    unfold verify_request in Ev. destruct (header req PROOF_HEADER) as [raw|] eqn:Eh; [|done].
    case_bool_decide; [done|]. case_match; [done|]. unfold verify_proof in Ev.
    destruct (check_proof raw cfg now) as [[[kid label] nonce]|?|] eqn:Ec; [|done|done].
    pose proof (check_proof_sound _ _ _ _ _ _ Ec) as (secret & tr & ts & Hs & Hp & Hw & _ & _ & ->).
    assert (pclaims = ok_claims cfg kid label) as Hpc.
    { destruct cache as [c|]; [|by injection Ev].
      destruct (check_and_add c nonce now) as [[[[] c2]|?|]|]; cbn in Ev; try done; by injection Ev. }
    exists kid, label, secret, tr, ts, nonce, pclaims. split_and!; try done; lia.
  - rewrite bool_decide_eq_true_2 by done. intros [= <- <-]. by left.
  - intros [= <- <-]. right. by left.
Qed.
End Gate.
