(* ===== verification/ProofExample.v ===== *)
(** * Runs of the proxy proofs *)

From S2P Require Import Prelude Bytes Errors Crypto Base64 Auth Proof ProofProps.

(** The last 32 bytes of the message, padded: enough to run the code. *)
Definition toy_hmac : Hmac := fun k m => take 32 (rev m ++ k ++ replicate 32 x00).

Lemma toy_hmac_laws : @HmacLaws toy_hmac.
Proof.
  split. intros k m. unfold hmac, toy_hmac, zlen.
  rewrite length_take, !length_app, length_replicate. lia.
Qed.

#[local] Existing Instance toy_hmac.
#[local] Existing Instance demo_base64.

Definition demo_secret : list byte := replicate 32 x11.
Definition demo_cfg : ProofConfig :=
  proof_config_new Require (bs "worker-a") {[ bs "prod" := (demo_secret, bs "prod") ]}.
Definition demo_proof_nonce : list byte := bs "Q0ZPUk1BTkNFTk9OQ0UxMQ".
Definition demo_proof : list byte :=
  match mint_proof demo_secret (bs "prod") (bs "worker-a") 1700000000 demo_proof_nonce with
  | Ok t => t
  | _ => []
  end.

Lemma mint_verify_proof_witness :
  verify_proof demo_proof demo_cfg None 1700000030 = Some (Ok (ok_claims demo_cfg (bs "prod") (bs "prod")), None) ∧
  verify_proof demo_proof demo_cfg None 1700000031 = Some (Err (bs "expired"), None).
Proof.
  split.
  - etransitivity; [apply (@mint_verify_proof toy_hmac toy_hmac_laws demo_base64 demo_base64_laws
      demo_secret (bs "prod") (bs "worker-a") 1700000000 demo_proof_nonce demo_proof demo_cfg (bs "prod") 1700000030);
      first [reflexivity | split; vm_compute; discriminate]|vm_compute; reflexivity].
  - etransitivity; [apply (@mint_verify_proof toy_hmac toy_hmac_laws demo_base64 demo_base64_laws
      demo_secret (bs "prod") (bs "worker-a") 1700000000 demo_proof_nonce demo_proof demo_cfg (bs "prod") 1700000031);
      first [reflexivity | split; vm_compute; discriminate]|vm_compute; reflexivity].
Defined.

(** Three calls on a cache of two: the replay is refused until it expires. *)
Lemma nonce_cache_refines_witness :
  ∃ c', cache_run (nonce_cache_new 30 2) [(bs "a", 5); (bs "a", 34); (bs "a", 35)] =
          Some (Ok ([true; false; true], c')) ∧ zlen (order c') ≤ 2.
Proof.
  apply (nonce_cache_refines 30 2 5 [(bs "a", 5); (bs "a", 34); (bs "a", 35)]);
    [lia|vm_compute; intuition discriminate|lia].
Defined.

Lemma proof_replay_accepted_witness :
  ∃ c1 c2, verify_proof demo_proof demo_cfg (Some (nonce_cache_new 30 100000)) 1700000000 =
             Some (Ok (ok_claims demo_cfg (bs "prod") (bs "prod")), Some c1) ∧
           verify_proof demo_proof demo_cfg (Some c1) (1700000000 + 30) =
             Some (Ok (ok_claims demo_cfg (bs "prod") (bs "prod")), Some c2).
Proof.
  apply (@proof_replay_accepted toy_hmac toy_hmac_laws demo_base64 demo_base64_laws
    demo_secret (bs "prod") 1700000000 demo_proof_nonce demo_proof demo_cfg (bs "prod"));
    first [reflexivity | vm_compute; discriminate].
Defined.

(** A request with a proof reaches the callback behind the gate; one without does not. *)
Definition counting : Authenticate Z := fun _ n => (Ok alice, n + 1).
Definition bare_request : AuthRequest := mkAuthRequest (bs "echo") [] None.
Definition proved_request : AuthRequest := mkAuthRequest (bs "echo") [(bs "VGI-Proxy-Proof", demo_proof)] None.

Lemma gate_refuses_bare :
  proof_gate demo_cfg (Some counting) 1700000000 bare_request (None, 0) = Some (Err proof_required, (None, 0)).
Proof. vm_compute. reflexivity. Qed.

Lemma proof_gate_require_witness :
  ∃ out st' kid label secret,
    proof_gate demo_cfg (Some counting) 1700000000 proved_request (None, 0) = Some (out, st') ∧
    secrets demo_cfg !! kid = Some (secret, label) ∧
    (out, st'.2) = gate_context (Some counting) proved_request 0 (ok_claims demo_cfg kid label).
Proof.
  destruct (proof_gate demo_cfg (Some counting) 1700000000 proved_request (None, 0)) as [[out st']|] eqn:E;
    [|vm_compute in E; discriminate E].
  destruct (@proof_gate_require toy_hmac demo_base64 demo_base64_laws Z demo_cfg (Some counting) 1700000000
    proved_request None 0 out st' eq_refl E)
    as [[L _]|[[L _]|(kid & label & secret & _ & _ & _ & pc & _ & Hs & _ & _ & -> & Hg)]].
  - subst out. vm_compute in E. discriminate E.
  - subst out. vm_compute in E. discriminate E.
  - exists out, st', kid, label, secret. split; [reflexivity|]. split; [exact Hs|exact Hg].
Defined.
