(* ===== verification/StreamTokens.v ===== *)
(** * Stream tokens and the call-state cache

    [vgi-rpc/src/http.rs]: the cursor token that carries a stream's state between
    HTTP requests, the call token that carries what is fixed for the call, their
    opening, and the per-process cache of opened call tokens. zstd is third-party
    code: the class [Zstd]. Seconds since the epoch and nonces are arguments; a TTL is
    in whole seconds, as [as_secs] reads it. *)

From S2P Require Import Prelude Bytes Errors Crypto Auth Sticky.

Definition CURSOR_TOKEN_VERSION : byte := x06.
Definition CALL_TOKEN_VERSION : byte := x02.
Definition CALL_ID_LEN : Z := 16.
Definition CALL_STATE_CACHE_ENTRIES : Z := 4096.
Definition TOKEN_CODEC_RAW : byte := x00.
Definition TOKEN_CODEC_ZSTD : byte := x01.
Definition MAX_TOKEN_PLAINTEXT_BYTES : Z := Z.shiftl 64 20.
Definition MAX_CLOCK_SKEW_SECS : Z := 60.

Class Zstd := {
  (** [bulk::compress] at the token level; [bulk::decompress] with a size bound *)
  zstd_compress : list byte → option (list byte);
  zstd_decompress : list byte → Z → option (list byte)
}.

Class ZstdLaws `{Zstd} := {
  zstd_roundtrip : ∀ p q bound, zstd_compress p = Some q → zlen p ≤ bound → zstd_decompress q bound = Some p
}.

(** ** Associated data *)
Definition peer_evidence_binding (auth : AuthContext) : option (list byte) :=
  match claims auth !! bs "peer_evidence_binding" with
  | Some v => if bool_decide (v = []) then None else Some v
  | None => None
  end.

Definition compute_aad_with (prefix : list byte) (auth : AuthContext) : list byte :=
  let binding := peer_evidence_binding auth in
  if negb (authenticated auth) then prefix ++ x00 :: bs "anonymous" ++ binding_suffix binding
  else prefix ++ x01 :: domain auth ++ x00 :: principal auth ++ binding_suffix binding.

Definition compute_aad (auth : AuthContext) : list byte :=
  compute_aad_with (match peer_evidence_binding auth with
                    | Some _ => bs "vgi_rpc.state.v5" ++ [x00]
                    | None => bs "vgi_rpc.state.v4" ++ [x00]
                    end) auth.

Definition compute_call_aad (auth : AuthContext) : list byte :=
  compute_aad_with (match peer_evidence_binding auth with
                    | Some _ => bs "vgi_rpc.call.v2" ++ [x00]
                    | None => bs "vgi_rpc.call.v1" ++ [x00]
                    end) auth.

Record UnpackedCursor := mkCursor {
  state_bytes : list byte;
  call_id : list byte;
  created_at : Z
}.

Record ResolvedCall := mkResolvedCall {
  output_schema_bytes : list byte;
  input_schema_bytes : list byte;
  stream_id : list byte;
  response_limit_bytes : option Z;
  preferred_response_bytes : option Z
}.

(** [HashMap<String, (u64, Arc<ResolvedCall>)>] *)
Abbreviation CallStates := (gmap (list byte) (Z * ResolvedCall)).

Definition malformed : RpcError := RpcErr.runtime_error (bs "Malformed state token").
Definition bad_signature : RpcError := RpcErr.runtime_error (bs "State token signature verification failed").

(** [read_segment]: a length-prefixed segment at [pos]. *)
Definition read_segment (buf : list byte) (pos : Z) : res RpcError (list byte * Z) :=
  after ← uadd pos 4;
  if zlen buf <? after then Err malformed else
  l ← or_panic (slice buf pos after);
  let len := le_val l in
  stop ← uadd after len;
  if zlen buf <? stop then Err malformed else
  out ← or_panic (slice buf after stop);
  Ok (out, stop).

Definition segment (l : list byte) : list byte := le_bytes 4 (zlen l) ++ l.

Section Tokens.
Context `{Aead} `{Base64} `{Zstd}.

(** ** The payload codec *)
Definition pack_token_payload (plaintext : list byte) : list byte :=
  match zstd_compress plaintext with
  | Some packed => if zlen packed <? zlen plaintext then TOKEN_CODEC_ZSTD :: packed
                   else TOKEN_CODEC_RAW :: plaintext
  | None => TOKEN_CODEC_RAW :: plaintext
  end.

Definition unpack_token_payload (data : list byte) : res RpcError (list byte) :=
  match data with
  | [] => Err malformed
  | tag :: body =>
    if bool_decide (tag = TOKEN_CODEC_RAW) then Ok body
    else if bool_decide (tag = TOKEN_CODEC_ZSTD)
    then ok_or malformed (zstd_decompress body MAX_TOKEN_PLAINTEXT_BYTES)
    else Err malformed
  end.

(** ** Sealing *)
Definition pack_cursor_token (token_key aad state cid : list byte) (created : Z) (nonce : list byte)
  : list byte :=
  let plaintext := le_bytes 8 created ++ cid ++ segment state in
  seal_base64 (pack_token_payload plaintext) token_key aad CURSOR_TOKEN_VERSION nonce.

Definition pack_call_token (token_key aad cid : list byte) (r : ResolvedCall) (created : Z)
    (nonce : list byte) : list byte :=
  let plaintext := le_bytes 8 created ++ cid ++ segment (output_schema_bytes r)
    ++ segment (input_schema_bytes r) ++ segment (stream_id r)
    ++ le_bytes 8 (default 0 (response_limit_bytes r))
    ++ le_bytes 8 (default 0 (preferred_response_bytes r)) in
  seal_base64 (pack_token_payload plaintext) token_key aad CALL_TOKEN_VERSION nonce.

(** ** Opening *)
Definition check_ttl (token_ttl : option Z) (now created : Z) : res RpcError unit :=
  match token_ttl with
  | None => Ok tt
  | Some ttl =>
    if (created <? now) && (ttl <? now - created)
    then Err (RpcErr.runtime_error (bs "State token expired"))
    else if (now <? created) && (MAX_CLOCK_SKEW_SECS <? created - now)
    then Err (RpcErr.runtime_error (bs "State token timestamp is implausibly in the future"))
    else Ok tt
  end.

Definition open_token_plaintext (token_key aad token : list byte) (version : byte)
    (token_ttl : option Z) (now : Z) : res RpcError (list byte * Z) :=
  raw ← ok_or malformed (b64_decode token);
  sealed ← map_err (fun _ => bad_signature) (open_bytes raw token_key aad version);
  plaintext ← unpack_token_payload sealed;
  if zlen plaintext <? 8 + CALL_ID_LEN then Err malformed else
  head ← or_panic (slice plaintext 0 8);
  let created := le_val head in
  _ ← check_ttl token_ttl now created;
  Ok (plaintext, created).

Definition unpack_cursor_token (token_key aad token : list byte) (token_ttl : option Z) (now : Z)
  : res RpcError UnpackedCursor :=
  '(plaintext, created) ← open_token_plaintext token_key aad token CURSOR_TOKEN_VERSION token_ttl now;
  cid ← or_panic (slice plaintext 8 (8 + CALL_ID_LEN));
  '(state, pos) ← read_segment plaintext (8 + CALL_ID_LEN);
  if negb (pos =? zlen plaintext) then Err malformed else
  Ok (mkCursor state cid created).

Definition nonzero_usize (v : Z) : res RpcError (option Z) :=
  if v =? 0 then Ok None else if v <=? usize_max then Ok (Some v) else Err malformed.

Definition unpack_call_token (token_key aad token : list byte) (token_ttl : option Z) (now : Z)
  : res RpcError (list byte * ResolvedCall) :=
  '(plaintext, _) ← open_token_plaintext token_key aad token CALL_TOKEN_VERSION token_ttl now;
  cid ← or_panic (slice plaintext 8 (8 + CALL_ID_LEN));
  '(out_schema, pos) ← read_segment plaintext (8 + CALL_ID_LEN);
  '(in_schema, pos) ← read_segment plaintext pos;
  '(sid_bytes, pos) ← read_segment plaintext pos;
  sid ← ok_or malformed (from_utf8 sid_bytes);
  stop ← uadd pos 16;
  if negb (stop =? zlen plaintext) then Err malformed else
  limit ← or_panic (slice plaintext pos (pos + 8));
  preferred ← or_panic (slice plaintext (pos + 8) (pos + 16));
  limit ← nonzero_usize (le_val limit);
  preferred ← nonzero_usize (le_val preferred);
  Ok (cid, mkResolvedCall out_schema in_schema sid limit preferred).

(** ** The call-state cache *)

(** [format!("{:02x?}", call_id)] *)
Fixpoint debug_items (l : list byte) : list byte :=
  match l with
  | [] => []
  | [b] => hex_byte b
  | b :: l => hex_byte b ++ bs ", " ++ debug_items l
  end.
Definition debug_hex (l : list byte) : list byte := x5b :: debug_items l ++ [x5d].

Definition cache_identity (auth : AuthContext) : list byte :=
  (if negb (authenticated auth) then x00 :: bs "anonymous"
   else domain auth ++ x00 :: principal auth) ++ binding_suffix (peer_evidence_binding auth).

Definition cache_key (auth : AuthContext) (cid : list byte) : list byte :=
  debug_hex cid ++ x00 :: cache_identity auth.

(** The fields of [HttpState] the tokens use; [call_states] is what changes. *)
Record TokenState := mkTokenState {
  token_key : list byte;
  token_ttl : Z;
  call_state_cache_entries : Z
}.

Definition token_ttl_opt (st : TokenState) : option Z :=
  if token_ttl st =? 0 then None else Some (token_ttl st).

Definition cache_call (st : TokenState) (cache : CallStates) (auth : AuthContext) (cid : list byte)
    (call : ResolvedCall) (now : Z) : CallStates :=
  if call_state_cache_entries st =? 0 then cache else
  let key := cache_key auth cid in
  let cache := if (call_state_cache_entries st <=? Z.of_nat (size cache))
                  && negb (bool_decide (is_Some (cache !! key))) then ∅ else cache in
  <[key := (now, call)]> cache.

(** [HttpState::pack_cursor_token], [pack_call_token], [unpack_cursor_token] *)
Definition state_pack_cursor_token (st : TokenState) (auth : AuthContext) (state cid : list byte)
    (now : Z) (nonce : list byte) : list byte :=
  pack_cursor_token (token_key st) (compute_aad auth) state cid now nonce.

Definition state_pack_call_token (st : TokenState) (cache : CallStates) (auth : AuthContext)
    (cid : list byte) (resolved : ResolvedCall) (now : Z) (nonce : list byte) : list byte * CallStates :=
  let token := pack_call_token (token_key st) (compute_call_aad auth) cid resolved now nonce in
  (token, cache_call st cache auth cid resolved now).

Definition state_unpack_cursor_token (st : TokenState) (auth : AuthContext) (token : list byte) (now : Z)
  : res RpcError UnpackedCursor :=
  unpack_cursor_token (token_key st) (compute_aad auth) token (token_ttl_opt st) now.

Definition fresh_entry (ttl : option Z) (stored_at now : Z) : bool :=
  match ttl with Some t => saturating_sub now stored_at <=? t | None => true end.

(** The part of [resolve_call] after a cache miss. *)
Definition resolve_miss (st : TokenState) (cache : CallStates) (auth : AuthContext)
    (cursor : UnpackedCursor) (call_token : option (list byte)) (now : Z)
  : res RpcError ResolvedCall * CallStates :=
  match call_token with
  | None => (Err (RpcErr.runtime_error (bs "Missing call token in exchange request")), cache)
  | Some tok =>
    match unpack_call_token (token_key st) (compute_call_aad auth) tok (token_ttl_opt st) now with
    | Ok (cid, resolved) =>
      if negb (bool_decide (cid = call_id cursor)) then (Err malformed, cache)
      else (Ok resolved, cache_call st cache auth (call_id cursor) resolved now)
    | Err e => (Err e, cache)
    | Panic => (Panic, cache)
    end
  end.

Definition resolve_call (st : TokenState) (cache : CallStates) (auth : AuthContext)
    (cursor : UnpackedCursor) (call_token : option (list byte)) (now : Z)
  : res RpcError ResolvedCall * CallStates :=
  let key := cache_key auth (call_id cursor) in
  match cache !! key with
  | Some (stored_at, call) =>
    if fresh_entry (token_ttl_opt st) stored_at now then (Ok call, cache)
    else resolve_miss st (delete key cache) auth cursor call_token now
  | None => resolve_miss st cache auth cursor call_token now
  end.
End Tokens.
