(* ===== verification/StreamTokensProps.v ===== *)
(** * Stream tokens: bound to the caller, resolved alike on every worker *)

From S2P Require Import Prelude Bytes Errors Crypto Auth Sticky StickyProps StreamTokens.

(** ** Associated data *)
Lemma aad_with_identity p a a' :
  session_identity a = session_identity a' → compute_aad_with p a = compute_aad_with p a'.
Proof.
  unfold session_identity, compute_aad_with. change peer_evidence_binding with evidence_binding. intros [= -> E].
  destruct (authenticated a), (authenticated a'); simplify_eq; cbn [negb]; congruence.
Qed.

Lemma aad_with_inj p a a' :
  nul_free a → nul_free a' → is_Some (evidence_binding a) ↔ is_Some (evidence_binding a') →
  compute_aad_with p a = compute_aad_with p a' → session_identity a = session_identity a'.
Proof.
  intros [Hd Hp] [Hd' Hp'] Hb. unfold compute_aad_with, session_identity. change peer_evidence_binding with evidence_binding.
  intros E. destruct (authenticated a), (authenticated a'); cbn [negb] in E; apply app_inv_head in E;
    try discriminate E; injection E as E.
  - apply nul_split in E as [-> E]; [|done..].
    destruct (evidence_binding a) as [v|], (evidence_binding a') as [v'|]; cbn [binding_suffix] in E.
    + by apply nul_split in E as [-> ->].
    + destruct (proj1 Hb) as [? [=]]. eauto.
    + destruct (proj2 Hb) as [? [=]]. eauto.
    + rewrite !app_nil_r in E. by rewrite E.
  - destruct (evidence_binding a) as [v|], (evidence_binding a') as [v'|]; cbn [binding_suffix] in E; by simplify_eq.
Qed.

(** The prefix says whether a binding follows, and which kind of token it is. *)
Lemma compute_aad_inj a a' :
  nul_free a → nul_free a' → compute_aad a = compute_aad a' → session_identity a = session_identity a'.
Proof.
  unfold compute_aad. change peer_evidence_binding with evidence_binding. intros Hn Hn' E.
  destruct (evidence_binding a) as [v|] eqn:Eb, (evidence_binding a') as [v'|] eqn:Eb'.
  - eapply aad_with_inj; eauto. by rewrite Eb, Eb'.
  - unfold compute_aad_with in E. destruct (negb _) in E; destruct (negb _) in E; discriminate E.
  - unfold compute_aad_with in E. destruct (negb _) in E; destruct (negb _) in E; discriminate E.
  - eapply aad_with_inj; eauto. by rewrite Eb, Eb'.
Qed.

Lemma compute_aad_identity a a' : session_identity a = session_identity a' → compute_aad a = compute_aad a'.
Proof.
  intros E. unfold compute_aad. change peer_evidence_binding with evidence_binding. pose proof E as [= <- _]. by apply aad_with_identity.
Qed.

Lemma compute_call_aad_identity a a' :
  session_identity a = session_identity a' → compute_call_aad a = compute_call_aad a'.
Proof.
  intros E. unfold compute_call_aad. change peer_evidence_binding with evidence_binding. pose proof E as [= <- _]. by apply aad_with_identity.
Qed.

Lemma cursor_call_aad a a' : compute_aad a ≠ compute_call_aad a'.
Proof.
  unfold compute_aad, compute_call_aad, compute_aad_with. intros E.
  destruct (peer_evidence_binding a), (peer_evidence_binding a'), (negb (authenticated a)),
    (negb (authenticated a')); discriminate E.
Qed.

Lemma cache_identity_session a a' :
  session_identity a = session_identity a' → cache_identity a = cache_identity a'.
Proof.
  unfold session_identity, cache_identity. change peer_evidence_binding with evidence_binding. intros [= -> E].
  destruct (authenticated a), (authenticated a'); simplify_eq; cbn [negb]; congruence.
Qed.

(** Equal call-token data, equal cache identity. *)
Lemma call_aad_cache a a' : compute_call_aad a = compute_call_aad a' → cache_identity a = cache_identity a'.
Proof.
  unfold compute_call_aad, compute_aad_with, cache_identity. intros E.
  destruct (peer_evidence_binding a) as [v|], (peer_evidence_binding a') as [v'|],
    (authenticated a), (authenticated a'); cbn [negb] in *; try discriminate E;
    apply app_inv_head in E; try discriminate E; try (injection E as E);
    repeat rewrite <- app_assoc; cbn [app]; first [exact E | congruence].
Qed.

(** ** Segments *)
Lemma read_segment_ok l s r :
  zlen s < 2 ^ 32 → zlen (l ++ segment s ++ r) ≤ i64_max →
  read_segment (l ++ segment s ++ r) (zlen l) = Ok (s, zlen (l ++ segment s)).
Proof.
  intros Hs Hb. unfold read_segment. pose proof (zlen_nonneg l). pose proof (zlen_nonneg s).
  pose proof (zlen_nonneg r). unfold segment in *. assert (zlen (le_bytes 4 (zlen s)) = 4) as H4 by apply zlen_le_bytes.
  rewrite !zlen_app, H4 in Hb. unfold uadd. ints.
  rewrite (proj2 (Z.leb_le (zlen l + 4) _)) by lia. cbn [mbind res_bind].
  rewrite !zlen_app, H4. destruct (Z.ltb_spec (zlen l + (4 + zlen s + zlen r)) (zlen l + 4)); [lia|].
  rewrite <- app_assoc. rewrite (slice_app l (le_bytes 4 (zlen s))) by lia. cbn [or_panic mbind res_bind].
  rewrite le_val_bytes_small by (change (8 * Z.of_nat 4) with 32; lia).
  rewrite (proj2 (Z.leb_le (zlen l + 4 + zlen s) _)) by lia. cbn [mbind res_bind].
  destruct (Z.ltb_spec (zlen l + (4 + zlen s + zlen r)) (zlen l + 4 + zlen s)); [lia|].
  rewrite (app_assoc l). rewrite (slice_app (l ++ le_bytes 4 (zlen s)) s) by (rewrite zlen_app; lia).
  cbn [or_panic mbind res_bind]. do 2 f_equal. lia.
Qed.

Section Sealed.
Context `{AeadLaws} `{Base64Laws} `{ZstdLaws}.

Lemma token_payload_roundtrip p :
  zlen p ≤ MAX_TOKEN_PLAINTEXT_BYTES → unpack_token_payload (pack_token_payload p) = Ok p.
Proof.
  intros Hp. unfold pack_token_payload. destruct (zstd_compress p) as [q|] eqn:E; [|done].
  case_match; [|done]. simpl. by rewrite (zstd_roundtrip p q).
Qed.

(** What a sealed token opens to, and the uniform failure otherwise. *)
Lemma open_token_sealed p rest created key aad version nonce ttl now :
  zlen nonce = NONCE_LEN → zlen p ≤ MAX_TOKEN_PLAINTEXT_BYTES → p = le_bytes 8 created ++ rest →
  CALL_ID_LEN ≤ zlen rest → in_u64 created →
  open_token_plaintext key aad (seal_base64 (pack_token_payload p) key aad version nonce) version ttl now =
    (_ ← check_ttl ttl now created; Ok (p, created)).
Proof.
  intros Hn Hp E Hr Hc. unfold open_token_plaintext, seal_base64, seal_bytes. rewrite b64_decode_encode.
  cbn [ok_or mbind res_bind]. rewrite open_seal by done. cbn [map_err mbind res_bind].
  rewrite token_payload_roundtrip by done. cbn [mbind res_bind].
  destruct (Z.ltb_spec (zlen p) (8 + CALL_ID_LEN)) as [Hl|_].
  { subst p. rewrite zlen_app, zlen_le_bytes in Hl. lia. }
  rewrite E at 1. rewrite slice_app_0 by (by rewrite zlen_le_bytes). cbn [or_panic mbind res_bind].
  rewrite le_val_bytes_small by (change (8 * Z.of_nat 8) with 64; ints; lia). done.
Qed.

Lemma open_token_other payload key aad version nonce aad' version' ttl now :
  zlen nonce = NONCE_LEN → aad' ≠ aad ∨ version' ≠ version →
  open_token_plaintext key aad' (seal_base64 payload key aad version nonce) version' ttl now = Err bad_signature.
Proof.
  intros Hn Hd. unfold open_token_plaintext, seal_base64, seal_bytes. rewrite b64_decode_encode.
  cbn [ok_or mbind res_bind].
  pose proof (open_no_panic (seal_bytes_with_nonce payload key aad version nonce) key aad' version') as Hp.
  destruct (open_bytes _ key aad' version') as [p|?|] eqn:E; [|done|done].
  apply open_seal_other in E as (-> & -> & _); [|done]. by destruct Hd.
Qed.

(** A cursor token in its owner's hands. *)
Lemma unpack_cursor_own st a a' state cid created nonce now :
  zlen nonce = NONCE_LEN → zlen cid = CALL_ID_LEN → in_u64 created → 28 + zlen state ≤ MAX_TOKEN_PLAINTEXT_BYTES →
  session_identity a' = session_identity a →
  state_unpack_cursor_token st a' (state_pack_cursor_token st a state cid created nonce) now =
    (_ ← check_ttl (token_ttl_opt st) now created; Ok (mkCursor state cid created)).
Proof.
  intros Hn Hcid Hc Hs Hi. unfold state_pack_cursor_token, state_unpack_cursor_token, pack_cursor_token, unpack_cursor_token.
  rewrite (compute_aad_identity a' a Hi). set (p := le_bytes 8 created ++ cid ++ segment state).
  assert (zlen p = 28 + zlen state) as Hp.
  { unfold p, segment. rewrite !zlen_app, !zlen_le_bytes, Hcid. unfold CALL_ID_LEN. lia. }
  pose proof (zlen_nonneg state). unfold MAX_TOKEN_PLAINTEXT_BYTES in *. change (Z.shiftl 64 20) with 67108864 in *.
  erewrite open_token_sealed; [|done|unfold MAX_TOKEN_PLAINTEXT_BYTES; change (Z.shiftl 64 20) with 67108864; lia
    |reflexivity|unfold segment; rewrite !zlen_app, zlen_le_bytes, Hcid; unfold CALL_ID_LEN; lia|done].
  destruct (check_ttl _ _ _); [|done..]. cbn [mbind res_bind].
  assert (slice p 8 (8 + CALL_ID_LEN) = Some cid) as ->.
  { unfold p. apply slice_app; rewrite zlen_le_bytes; lia. }
  cbn [or_panic mbind res_bind].
  assert (8 + CALL_ID_LEN = zlen (le_bytes 8 created ++ cid)) as E8 by (rewrite zlen_app, zlen_le_bytes, Hcid; done).
  assert (p = (le_bytes 8 created ++ cid) ++ segment state ++ []) as Ep
    by (unfold p; by rewrite app_nil_r, <- app_assoc).
  rewrite E8, Ep, read_segment_ok; [|lia|rewrite <- Ep; ints; lia]. cbn [mbind res_bind].
  by rewrite app_nil_r, Z.eqb_refl.
Qed.

(** A cursor token, in the hands of anybody: its issuer's identity gets back
    the state, the call id and the minting time, subject only to the lifetime and
    clock-skew checks; every other identity gets the uniform verification error,
    and so does anybody who presents it as a call token or a call token as it. *)
Theorem cursor_token_exact st a a' state cid created nonce now :
  zlen nonce = NONCE_LEN → zlen cid = CALL_ID_LEN → in_u64 created →
  28 + zlen state ≤ MAX_TOKEN_PLAINTEXT_BYTES → nul_free a → nul_free a' →
  let token := state_pack_cursor_token st a state cid created nonce in
  state_unpack_cursor_token st a' token now =
    (if decide (session_identity a' = session_identity a)
     then _ ← check_ttl (token_ttl_opt st) now created; Ok (mkCursor state cid created)
     else Err bad_signature) ∧
  unpack_call_token (token_key st) (compute_call_aad a') token (token_ttl_opt st) now = Err bad_signature ∧
  (∀ cid' r created' now',
     state_unpack_cursor_token st a'
       (pack_call_token (token_key st) (compute_call_aad a) cid' r created' nonce) now' = Err bad_signature).
Proof.
  intros Hn Hcid Hc Hs Ha Ha'. cbn zeta. split; [|split].
  - destruct (decide (session_identity a' = session_identity a)) as [Hi|Hi]; [by apply unpack_cursor_own|].
    unfold state_unpack_cursor_token, state_pack_cursor_token, unpack_cursor_token, pack_cursor_token.
    rewrite open_token_other; [done|done|]. left. intros E. by apply Hi, compute_aad_inj.
  - unfold unpack_call_token, state_pack_cursor_token, pack_cursor_token. rewrite open_token_other; [done|done|]. by right.
  - intros. unfold state_unpack_cursor_token, unpack_cursor_token, pack_call_token. rewrite open_token_other; [done|done|]. by right.
Qed.
End Sealed.

(** ** The cache key determines the call and the caller's cache identity *)
Lemma hex_byte_inj a b : hex_byte a = hex_byte b → a = b.
Proof.
  intros E. apply b2z_inj. apply (f_equal parse_u8_hex) in E. rewrite !parse_u8_hex_byte in E. congruence.
Qed.

Lemma debug_items_length l : zlen (debug_items l) = Z.max 0 (4 * zlen l - 2).
Proof.
  induction l as [|b [|c l] IH]; [done|done|].
  change (debug_items (b :: c :: l)) with (hex_byte b ++ bs ", " ++ debug_items (c :: l)).
  rewrite !zlen_app, IH, zlen_hex_byte, !zlen_cons. change (zlen (bs ", ")) with 2. pose proof (zlen_nonneg l). lia.
Qed.

Lemma debug_items_inj l k : length l = length k → debug_items l = debug_items k → l = k.
Proof.
  revert k. induction l as [|b [|c l] IH]; intros [|b' [|c' k]] Hl E; try done.
  - f_equal. by apply hex_byte_inj.
  - change (hex_byte b ++ bs ", " ++ debug_items (c :: l) = hex_byte b' ++ bs ", " ++ debug_items (c' :: k)) in E.
    apply app_inj_1 in E as [Eb E]; [|done]. apply app_inv_head in E. f_equal; [by apply hex_byte_inj|].
    apply IH; [|done]. cbn in *. lia.
Qed.

Lemma cache_key_inj a a' cid cid' :
  zlen cid = zlen cid' → cache_key a cid = cache_key a' cid' → cid = cid' ∧ cache_identity a = cache_identity a'.
Proof.
  intros Hl E. unfold cache_key, debug_hex in E. injection E as E.
  rewrite <- !app_assoc in E. apply app_inj_1 in E as [E1 E].
  - injection E as E. split; [|done]. apply debug_items_inj; [by apply zlen_eq|done].
  - apply zlen_eq. rewrite !debug_items_length. by rewrite Hl.
Qed.

(** ** Call states over time *)

(** A token holds no budget of zero: it reads as none. *)
Definition budget (o : option Z) : option Z := match o with Some 0 => None | _ => o end.
Definition same_budget (o o' : option Z) : Prop := o = o' ∨ o = budget o'.
Definition same_call (r r' : ResolvedCall) : Prop :=
  output_schema_bytes r = output_schema_bytes r' ∧ input_schema_bytes r = input_schema_bytes r' ∧
  stream_id r = stream_id r' ∧ same_budget (response_limit_bytes r) (response_limit_bytes r') ∧
  same_budget (preferred_response_bytes r) (preferred_response_bytes r').

Definition call_wf (r : ResolvedCall) : Prop :=
  utf8_valid (stream_id r) = true ∧ in_u64 (default 0 (response_limit_bytes r)) ∧
  in_u64 (default 0 (preferred_response_bytes r)) ∧
  52 + zlen (output_schema_bytes r) + zlen (input_schema_bytes r) + zlen (stream_id r) ≤ MAX_TOKEN_PLAINTEXT_BYTES.

Lemma nonzero_usize_budget o :
  in_u64 (default 0 o) → ∃ o', nonzero_usize (default 0 o) = Ok o' ∧ same_budget o' o.
Proof.
  unfold nonzero_usize. ints. intros Hb. destruct (Z.eqb_spec (default 0 o) 0) as [E|E].
  - exists None. split; [done|]. right. destruct o; simpl in *; by subst.
  - rewrite (proj2 (Z.leb_le _ _)) by lia. eexists. split; [done|]. left. by destruct o.
Qed.

Section Calls.
Context `{AeadLaws} `{Base64Laws} `{ZstdLaws} (st : TokenState).

Record MintedCall := mkMintedCall {
  mc_auth : AuthContext;
  mc_call : ResolvedCall;
  mc_created : Z;
  mc_token : list byte
}.
Record Calls := mkCalls { cw_cache : CallStates; cw_log : gmap (list byte) MintedCall }.

(** Tokens cannot be forged: one that opens under the server's key was minted. *)
Definition honest (log : gmap (list byte) MintedCall) (a : AuthContext) (ct : option (list byte)) (now : Z) : Prop :=
  ∀ tok x, ct = Some tok →
    unpack_call_token (token_key st) (compute_call_aad a) tok (token_ttl_opt st) now = Ok x →
    ∃ cid m, log !! cid = Some m ∧ mc_token m = tok.

Inductive call_step : Calls → Calls → Prop :=
| step_mint_call cache log a cid r now nonce tok cache' :
    log !! cid = None → zlen cid = CALL_ID_LEN → zlen nonce = NONCE_LEN → in_u64 now → call_wf r →
    state_pack_call_token st cache a cid r now nonce = (tok, cache') →
    call_step (mkCalls cache log) (mkCalls cache' (<[cid := mkMintedCall a r now tok]> log))
| step_resolve_call cache log a cursor ct now out cache' :
    zlen (call_id cursor) = CALL_ID_LEN → honest log a ct now →
    resolve_call st cache a cursor ct now = (out, cache') →
    call_step (mkCalls cache log) (mkCalls cache' log).

Definition calls_reachable (w : Calls) : Prop := rtc call_step (mkCalls ∅ ∅) w.

Definition cache_entry_ok (log : gmap (list byte) MintedCall) (key : list byte) (call : ResolvedCall) : Prop :=
  ∃ a cid m, log !! cid = Some m ∧ key = cache_key a cid ∧ cache_identity a = cache_identity (mc_auth m) ∧
    same_call call (mc_call m).

Definition calls_ok (w : Calls) : Prop :=
  (∀ key t call, cw_cache w !! key = Some (t, call) → cache_entry_ok (cw_log w) key call) ∧
  (∀ cid m, cw_log w !! cid = Some m → zlen cid = CALL_ID_LEN ∧ call_wf (mc_call m) ∧ in_u64 (mc_created m) ∧
     ∃ nonce, zlen nonce = NONCE_LEN ∧
       mc_token m = pack_call_token (token_key st) (compute_call_aad (mc_auth m)) cid (mc_call m) (mc_created m) nonce).

(** A minted call token, opened under some caller's data. *)
Lemma unpack_minted cid m a now nonce :
  zlen nonce = NONCE_LEN → zlen cid = CALL_ID_LEN → call_wf (mc_call m) → in_u64 (mc_created m) →
  mc_token m = pack_call_token (token_key st) (compute_call_aad (mc_auth m)) cid (mc_call m) (mc_created m) nonce →
  (compute_call_aad a ≠ compute_call_aad (mc_auth m) →
     unpack_call_token (token_key st) (compute_call_aad a) (mc_token m) (token_ttl_opt st) now = Err bad_signature) ∧
  (compute_call_aad a = compute_call_aad (mc_auth m) →
     ∃ r, same_call r (mc_call m) ∧
       unpack_call_token (token_key st) (compute_call_aad a) (mc_token m) (token_ttl_opt st) now =
         (_ ← check_ttl (token_ttl_opt st) now (mc_created m); Ok (cid, r))).
Proof.
  intros Hn Hcid Hwf Hcr ->. split; intros Haad; unfold unpack_call_token, pack_call_token.
  { rewrite open_token_other; [done|done|by left]. }
  destruct Hwf as (Hu & Hl1 & Hl2 & Hsz).
  set (o := output_schema_bytes (mc_call m)) in *. set (i := input_schema_bytes (mc_call m)) in *.
  set (s := stream_id (mc_call m)) in *.
  set (b1 := le_bytes 8 (default 0 (response_limit_bytes (mc_call m)))).
  set (b2 := le_bytes 8 (default 0 (preferred_response_bytes (mc_call m)))).
  assert (zlen b1 = 8 ∧ zlen b2 = 8) as [Hb1 Hb2] by (by unfold b1, b2; rewrite !zlen_le_bytes).
  destruct (nonzero_usize_budget _ Hl1) as (l1 & El1 & Bl1).
  destruct (nonzero_usize_budget _ Hl2) as (l2 & El2 & Bl2).
  exists (mkResolvedCall o i s l1 l2). split; [done|].
  set (h := le_bytes 8 (mc_created m) ++ cid).
  set (p := le_bytes 8 (mc_created m) ++ cid ++ segment o ++ segment i ++ segment s ++ b1 ++ b2).
  assert (zlen h = 8 + CALL_ID_LEN) as Hh by (unfold h; by rewrite zlen_app, zlen_le_bytes, Hcid).
  assert (∀ l, zlen (segment l) = 4 + zlen l) as Hseg by (intros; unfold segment; by rewrite zlen_app, zlen_le_bytes).
  pose proof (zlen_nonneg o). pose proof (zlen_nonneg i). pose proof (zlen_nonneg s).
  unfold MAX_TOKEN_PLAINTEXT_BYTES, CALL_ID_LEN in *. change (Z.shiftl 64 20) with 67108864 in *.
  assert (p = h ++ segment o ++ segment i ++ segment s ++ b1 ++ b2) as Ep by (unfold p, h; by rewrite <- app_assoc).
  assert (zlen p = 52 + zlen o + zlen i + zlen s) as Hp by (rewrite Ep, !zlen_app, !Hseg; lia).
  rewrite Haad. erewrite (open_token_sealed p); [|done|unfold MAX_TOKEN_PLAINTEXT_BYTES; change (Z.shiftl 64 20) with 67108864; lia
    |reflexivity|rewrite !zlen_app, !Hseg, Hcid; unfold CALL_ID_LEN; lia|done].
  destruct (check_ttl _ _ _); [|done..]. cbn [mbind res_bind].
  assert (slice p 8 (8 + 16) = Some cid) as ->.
  { unfold p. apply slice_app; rewrite zlen_le_bytes, ?Hcid; lia. }
  cbn [or_panic mbind res_bind].
  assert (zlen p ≤ i64_max) as Hpb by (ints; lia).
  assert (read_segment p (8 + 16) = Ok (o, zlen (h ++ segment o))) as ->.
  { rewrite Ep. replace (8 + 16) with (zlen h) by (by rewrite Hh).
    apply read_segment_ok; [lia|by rewrite <- Ep]. }
  cbn [mbind res_bind].
  assert (read_segment p (zlen (h ++ segment o)) = Ok (i, zlen ((h ++ segment o) ++ segment i))) as ->.
  { rewrite Ep, (app_assoc h). apply read_segment_ok; [lia|by rewrite <- app_assoc, <- Ep]. }
  cbn [mbind res_bind].
  assert (read_segment p (zlen ((h ++ segment o) ++ segment i)) =
            Ok (s, zlen (((h ++ segment o) ++ segment i) ++ segment s))) as ->.
  { rewrite Ep, (app_assoc h), (app_assoc (h ++ segment o)).
    apply read_segment_ok; [lia|]. by rewrite <- !app_assoc, <- Ep. }
  cbn [mbind res_bind]. unfold from_utf8. rewrite Hu. cbn [ok_or mbind res_bind].
  set (pre := ((h ++ segment o) ++ segment i) ++ segment s).
  assert (p = pre ++ b1 ++ b2) as Ep2 by (unfold pre; by rewrite Ep, <- !app_assoc).
  assert (zlen pre + 16 = zlen p) as Hpre by (rewrite Ep2, !zlen_app; lia).
  unfold uadd. ints. rewrite (proj2 (Z.leb_le (zlen pre + 16) _)) by lia. cbn [mbind res_bind].
  rewrite Hpre, Z.eqb_refl. cbn [negb].
  assert (slice p (zlen pre) (zlen pre + 8) = Some b1) as -> by (rewrite Ep2; apply slice_app; lia).
  assert (slice p (zlen pre + 8) (zlen p) = Some b2) as ->.
  { rewrite <- Hpre, Ep2. replace (pre ++ b1 ++ b2) with ((pre ++ b1) ++ b2 ++ []) by (by rewrite app_nil_r, <- app_assoc).
    apply slice_app; rewrite zlen_app; lia. }
  cbn [or_panic mbind res_bind]. unfold b1, b2.
  rewrite !le_val_bytes_small by (change (8 * Z.of_nat 8) with 64; lia). rewrite El1. cbn [mbind res_bind].
  rewrite El2. done.
Qed.

Lemma cache_entry_insert log key call cid m :
  log !! cid = None → cache_entry_ok log key call → cache_entry_ok (<[cid := m]> log) key call.
Proof.
  intros Hf (a & cid' & m' & Em & ? & ? & ?). exists a, cid', m'. split; [|done].
  rewrite lookup_insert_ne; [done|]. intros ->. congruence.
Qed.

(** Caching a call puts an entry under its own key and may drop others. *)
Lemma cache_call_lookup cache a cid call now key t c :
  cache_call st cache a cid call now !! key = Some (t, c) →
  cache !! key = Some (t, c) ∨ (key = cache_key a cid ∧ c = call).
Proof.
  unfold cache_call. case_match; [by left|].
  destruct (decide (key = cache_key a cid)) as [->|Hne].
  - rewrite lookup_insert_eq. intros [= _ <-]. by right.
  - rewrite lookup_insert_ne by done. case_match; [by rewrite lookup_empty|by left].
Qed.

(** What resolving answers, from the cache or from a minted token. *)
Lemma resolve_call_sound w a cursor ct now call cache' :
  calls_ok w → zlen (call_id cursor) = CALL_ID_LEN → honest (cw_log w) a ct now →
  resolve_call st (cw_cache w) a cursor ct now = (Ok call, cache') →
  ∃ m, cw_log w !! call_id cursor = Some m ∧ cache_identity a = cache_identity (mc_auth m) ∧
       same_call call (mc_call m).
Proof.
  intros [Hcache Hlog] Hcid Hh. unfold resolve_call.
  assert (∀ c, resolve_miss st c a cursor ct now = (Ok call, cache') → ∃ m, cw_log w !! call_id cursor = Some m ∧
     cache_identity a = cache_identity (mc_auth m) ∧ same_call call (mc_call m)) as Hmiss.
  { intros c. unfold resolve_miss. destruct ct as [tok|]; [|done].
    destruct (unpack_call_token _ _ tok _ now) as [[cid r]|e|] eqn:Eu; [|done..].
    case_bool_decide as Ec; cbn [negb]; [|done]. intros [= -> _].
    destruct (Hh tok _ eq_refl Eu) as (cid0 & m & Em & <-).
    destruct (Hlog _ _ Em) as (Hl & Hwf & Hcr & nonce & Hn & Et).
    destruct (unpack_minted cid0 m a now nonce Hn Hl Hwf Hcr Et) as [Hne Heq].
    destruct (decide (compute_call_aad a = compute_call_aad (mc_auth m))) as [Haad|Haad];
      [|rewrite Hne in Eu by done; discriminate].
    destruct (Heq Haad) as (r0 & Hsame & Er). rewrite Er in Eu.
    destruct (check_ttl _ _ _); [|done..]. cbn [mbind res_bind] in Eu. injection Eu as <- <-. subst cid0.
    exists m. split; [done|]. split; [by apply call_aad_cache|done]. }
  destruct (cw_cache w !! cache_key a (call_id cursor)) as [[t c]|] eqn:Ec; [|apply Hmiss].
  case_match; [|apply Hmiss]. intros [= -> _].
  destruct (Hcache _ _ _ Ec) as (a' & cid & m & Em & Ek & Hi & Hs).
  destruct (Hlog _ _ Em) as (Hl & _). apply cache_key_inj in Ek as [<- Ei]; [|by rewrite Hcid].
  exists m. split; [done|]. split; [by rewrite Ei|done].
Qed.

Lemma resolve_call_cache w a cursor ct now out cache' :
  resolve_call st (cw_cache w) a cursor ct now = (out, cache') →
  ∀ key t c, cache' !! key = Some (t, c) →
    cw_cache w !! key = Some (t, c) ∨ (out = Ok c ∧ key = cache_key a (call_id cursor)).
Proof.
  unfold resolve_call. intros E key t c.
  assert (∀ ch, ch ⊆ cw_cache w → resolve_miss st ch a cursor ct now = (out, cache') → cache' !! key = Some (t, c) →
    cw_cache w !! key = Some (t, c) ∨ (out = Ok c ∧ key = cache_key a (call_id cursor))) as Hmiss.
  { intros ch Hsub. unfold resolve_miss. destruct ct as [tok|]; [|intros [= _ <-] Hk; left; by eapply lookup_weaken].
    destruct (unpack_call_token _ _ tok _ now) as [[cid r]|e|];
      [|intros [= _ <-] Hk; left; by eapply lookup_weaken..].
    case_bool_decide; cbn [negb]; [|intros [= _ <-] Hk; left; by eapply lookup_weaken].
    intros [= <- <-] [Hk|[-> ->]]%cache_call_lookup; [left; by eapply lookup_weaken|by right]. }
  destruct (cw_cache w !! cache_key a (call_id cursor)) as [[t0 c0]|]; [|by apply (Hmiss (cw_cache w))].
  case_match; [|eapply Hmiss; [|done]; apply delete_subseteq]. injection E as _ <-. by left.
Qed.

Lemma calls_reachable_ok w : calls_reachable w → calls_ok w.
Proof.
  unfold calls_reachable. remember (mkCalls ∅ ∅) as w0 eqn:E0. intros Hs.
  assert (calls_ok w0) as H0' by (subst; split; intros ??; cbn; [intros ?|]; by rewrite lookup_empty).
  clear E0. induction Hs as [|w w1 w2 Hst _ IH]; [done|]. apply IH. clear IH.
  destruct Hst as [cache log a cid r now nonce tok cache' Hf Hl Hn Hnow Hwf [= <- <-]
                  |cache log a cursor ct now out cache' Hl Hh Er]; destruct H0' as [Hc Hlog]; cbn in *.
  - split; cbn.
    + intros key t call [Hk|[-> ->]]%cache_call_lookup.
      * apply cache_entry_insert; [done|]. by eapply Hc.
      * exists a, cid. eexists. rewrite lookup_insert_eq. split; [done|]. split; [done|]. split; [done|].
        repeat split; by left.
    + intros cid' m. destruct (decide (cid' = cid)) as [->|Hne].
      * rewrite lookup_insert_eq. intros [= <-]. split_and!; try done. by exists nonce.
      * rewrite lookup_insert_ne by done. apply Hlog.
  - split; cbn; [|done]. intros key t call Hk.
    pose proof (resolve_call_cache (mkCalls cache log) _ _ _ _ _ _ Er key t call Hk) as [Hk'|[-> ->]]; [by eapply Hc|].
    destruct (resolve_call_sound (mkCalls cache log) a cursor ct now call cache') as (m & Em & Hi & Hsm);
      [by split|done..|]. by exists a, (call_id cursor), m.
Qed.

(** The minting identity with its call token always gets the call. *)
Lemma resolve_call_minted w a cursor m now cache :
  calls_ok w → zlen (call_id cursor) = CALL_ID_LEN → cw_log w !! call_id cursor = Some m →
  session_identity a = session_identity (mc_auth m) → check_ttl (token_ttl_opt st) now (mc_created m) = Ok tt →
  honest (cw_log w) a (Some (mc_token m)) now → cache = cw_cache w ∨ cache = ∅ →
  ∃ call cache', resolve_call st cache a cursor (Some (mc_token m)) now = (Ok call, cache') ∧ same_call call (mc_call m).
Proof.
  intros Hw Hcid Em Hi Httl Hh Hcache.
  assert (∃ call cache', resolve_call st cache a cursor (Some (mc_token m)) now = (Ok call, cache')) as (call & cache' & E).
  { destruct Hw as [_ Hlog]. destruct (Hlog _ _ Em) as (Hl & Hwf & Hcr & nonce & Hn & Et).
    destruct (unpack_minted _ m a now nonce Hn Hl Hwf Hcr Et) as [_ Heq].
    destruct (Heq (compute_call_aad_identity _ _ Hi)) as (r & _ & Er). rewrite Httl in Er. cbn [mbind res_bind] in Er.
    unfold resolve_call, resolve_miss. rewrite Er. rewrite bool_decide_eq_true_2 by done. cbn [negb].
    destruct (cache !! _) as [[t c]|]; [|eauto]. case_match; eauto. }
  exists call, cache'. split; [done|].
  assert (∃ m', cw_log w !! call_id cursor = Some m' ∧ same_call call (mc_call m')) as (m' & Em' & Hs).
  { destruct Hcache as [->| ->].
    - destruct (resolve_call_sound w a cursor _ now call cache' Hw Hcid Hh E) as (m' & ? & _ & ?). eauto.
    - destruct (resolve_call_sound (mkCalls ∅ (cw_log w)) a cursor (Some (mc_token m)) now call cache')
        as (m' & ? & _ & ?); [|done..|eauto]. destruct Hw as [_ Hlog]. split; [|done]. cbn. intros ???. by rewrite lookup_empty. }
  congruence.
Qed.

(** C28. The call state a cursor names, after any history of mints, hits, misses,
    evictions and expiries, provided tokens cannot be forged: what [resolve_call]
    returns is the call minted under that id, to a caller with the cache identity
    it was minted for, whether it came from the cache or from the token; and the
    minting identity, presenting the call token within its lifetime, always gets it,
    on a worker that has never seen the call as well. *)
Theorem resolve_call_exact w a cursor ct now :
  calls_reachable w → zlen (call_id cursor) = CALL_ID_LEN → honest (cw_log w) a ct now →
  (∀ call cache', resolve_call st (cw_cache w) a cursor ct now = (Ok call, cache') →
     ∃ m, cw_log w !! call_id cursor = Some m ∧ cache_identity a = cache_identity (mc_auth m) ∧
          same_call call (mc_call m)) ∧
  (∀ m, cw_log w !! call_id cursor = Some m → session_identity a = session_identity (mc_auth m) →
     ct = Some (mc_token m) → check_ttl (token_ttl_opt st) now (mc_created m) = Ok tt →
     ∀ cache, cache = cw_cache w ∨ cache = ∅ →
     ∃ call cache', resolve_call st cache a cursor ct now = (Ok call, cache') ∧ same_call call (mc_call m)).
Proof.
  intros Hw%calls_reachable_ok Hcid Hh. split; [intros; by eapply resolve_call_sound|].
  intros m Em Hi -> Httl cache Hcache. by eapply resolve_call_minted.
Qed.
End Calls.
