(* ===== verification/TokensExample.v ===== *)
(** * Tokens and sessions, run

    One session opened by alice, stream tokens and grants over the injective cipher and
    base64: the theorems of [StickyProps], [StreamTokensProps] and [GrantsProps] at
    concrete inputs. *)

From S2P Require Import Prelude Bytes Errors F64 Crypto Base64 Grants GrantsProps Auth Sticky StickyProps.
From S2P Require Import StreamTokens StreamTokensProps.

(** ** A run of the sticky sessions: one session, opened by alice *)

#[local] Existing Instance toy_aead.
#[local] Existing Instance demo_base64.

Definition demo_ctx : StickyContext := mkStickyContext (replicate 32 x09) (60 * 10 ^ 9) [] (bs "srv-1").
Definition demo_sid : list byte := replicate 12 x03.
Definition demo_env : OpenEnv := mkOpenEnv 1000 1700000000 demo_sid demo_nonce.
Definition opener_sink : StickySinkImpl Z := new_sink alice true None None.
Definition opened := open_session demo_ctx (Some opener_sink) (registry_new (60 * 10 ^ 9)) 42 None demo_env.
Definition opened_registry : SessionRegistry Z :=
  match opened with Ok (_, r) => r | _ => registry_new 0 end.
Definition opened_sink : StickySinkImpl Z := match opened with Ok (s, _) => s | _ => opener_sink end.
Definition opened_token : list byte := default [] (mint_token (inner opened_sink)).
Definition opened_session : Minted := mkMinted alice 42 (1000 + 60 * 10 ^ 9) opened_token.
Definition opened_world : World := mkWorld opened_registry 1000 {[ demo_sid := opened_session ]} ∅.

Lemma opened_reachable : reachable demo_ctx opened_world.
Proof.
  exists (60 * 10 ^ 9), 0. apply rtc_once.
  apply (step_open demo_ctx (registry_new (60 * 10 ^ 9)) 0 ∅ ∅ alice opener_sink opened_sink opened_registry
    42 None demo_env opened_token); try (vm_compute; congruence); try done.
Qed.

Lemma alice_nul_free : nul_free alice.
Proof. split; vm_compute; intros E; repeat (apply elem_of_cons in E as [E|E]; [discriminate E|]); by apply elem_of_nil in E. Qed.

(** Alice gets her state back a second later; an anonymous caller does not. *)
Lemma session_token_resolves_witness :
  (∃ r', resolve demo_ctx opened_registry alice true (Some opened_token) (10 ^ 9) =
     Ok (Sink (new_sink alice true (Some 42) (Some (bytes_to_hex demo_sid))), r')) ∧
  (∃ r', handle_delete demo_ctx opened_registry anonymous (Some opened_token) (10 ^ 9) = Ok (Idempotent, r')).
Proof.
  split.
  - apply (@session_token_resolves toy_aead toy_aead_laws demo_base64 demo_base64_laws Z demo_ctx
      opened_world demo_sid opened_session alice true (10 ^ 9));
    [reflexivity|exact opened_reachable|reflexivity|exact alice_nul_free|exact alice_nul_free|vm_compute; discriminate].
  - apply (@session_token_resolves toy_aead toy_aead_laws demo_base64 demo_base64_laws Z demo_ctx
      opened_world demo_sid opened_session anonymous true (10 ^ 9));
    [reflexivity|exact opened_reachable|reflexivity|split; apply not_elem_of_nil|exact alice_nul_free|vm_compute; discriminate].
Defined.

Lemma resolve_sound_witness :
  no_panic (resolve demo_ctx opened_registry alice true (Some (bs "forged")) 2000).
Proof.
  apply (@resolve_sound toy_aead toy_aead_laws demo_base64 demo_base64_laws Z demo_ctx opened_world);
    [exact opened_reachable|vm_compute; discriminate].
Defined.

(** ** Runs of the stream tokens *)

(** A codec that drops nothing: payloads stay raw. *)
Definition toy_zstd : Zstd := {| zstd_compress p := Some p; zstd_decompress q _ := Some q |}.

Lemma toy_zstd_laws : @ZstdLaws toy_zstd.
Proof. split. intros p q bound E _. cbn in *. congruence. Qed.

#[local] Existing Instance toy_zstd.

Definition demo_tokens : TokenState := mkTokenState (replicate 32 x09) 300 4096.
Definition demo_call_id : list byte := replicate 16 x05.
Definition demo_cursor_token : list byte :=
  state_pack_cursor_token demo_tokens alice (bs "state") demo_call_id 1700000000 demo_nonce.

(** The issuer opens the cursor within five minutes; an anonymous caller never does. *)
Lemma cursor_token_exact_witness :
  state_unpack_cursor_token demo_tokens alice demo_cursor_token 1700000300 =
    Ok (mkCursor (bs "state") demo_call_id 1700000000) ∧
  state_unpack_cursor_token demo_tokens anonymous demo_cursor_token 1700000000 = Err bad_signature.
Proof.
  split.
  - etransitivity; [exact (proj1 (@cursor_token_exact toy_aead toy_aead_laws demo_base64 demo_base64_laws toy_zstd
      toy_zstd_laws demo_tokens alice alice (bs "state") demo_call_id 1700000000 demo_nonce 1700000300
      eq_refl eq_refl ltac:(split; vm_compute; discriminate) ltac:(vm_compute; discriminate)
      alice_nul_free alice_nul_free))|vm_compute; reflexivity].
  - etransitivity; [exact (proj1 (@cursor_token_exact toy_aead toy_aead_laws demo_base64 demo_base64_laws toy_zstd
      toy_zstd_laws demo_tokens alice anonymous (bs "state") demo_call_id 1700000000 demo_nonce 1700000000
      eq_refl eq_refl ltac:(split; vm_compute; discriminate) ltac:(vm_compute; discriminate)
      alice_nul_free ltac:(split; apply not_elem_of_nil)))|vm_compute; reflexivity].
Defined.

Definition demo_call : ResolvedCall := mkResolvedCall (bs "out") (bs "in") (bs "s-1") (Some 1000) None.
Definition demo_minted := state_pack_call_token demo_tokens ∅ alice demo_call_id demo_call 1700000000 demo_nonce.
Definition demo_minted_call : MintedCall := mkMintedCall alice demo_call 1700000000 demo_minted.1.
Definition demo_calls : Calls := mkCalls demo_minted.2 {[ demo_call_id := demo_minted_call ]}.
Definition demo_cursor : UnpackedCursor := mkCursor (bs "state") demo_call_id 1700000000.

Lemma demo_calls_reachable : calls_reachable demo_tokens demo_calls.
Proof.
  apply rtc_once. apply (step_mint_call demo_tokens ∅ ∅ alice demo_call_id demo_call 1700000000 demo_nonce demo_minted.1 demo_minted.2);
    try done.
Qed.

Lemma demo_honest : honest demo_tokens (cw_log demo_calls) alice (Some demo_minted.1) 1700000100.
Proof. intros tok x [= <-] _. exists demo_call_id, demo_minted_call. split; reflexivity. Qed.

(** A worker that has never seen the call resolves it from the token. *)
Lemma resolve_call_exact_witness :
  ∃ call cache', resolve_call demo_tokens ∅ alice demo_cursor (Some demo_minted.1) 1700000100 = (Ok call, cache') ∧
    same_call call demo_call.
Proof.
  refine (proj2 (@resolve_call_exact toy_aead toy_aead_laws demo_base64 demo_base64_laws toy_zstd toy_zstd_laws
    demo_tokens demo_calls alice demo_cursor (Some demo_minted.1) 1700000100
    demo_calls_reachable _ demo_honest) demo_minted_call _ _ _ _ ∅ _);
    first [reflexivity | right; reflexivity].
Defined.

(** ** Runs of the grant operations *)


Definition demo_key : list byte := replicate 32 x41.
Definition demo_entropy : Entropy :=
  mkEntropy (f64_ticks (1700000000 * 2 ^ 22)) (bs "0123456789abcdef") demo_nonce.
Definition demo_grant_keys : GrantKeys := mkGrantKeys [demo_key] (bs "prod") 3600 60.
Definition demo_claims : GrantClaims :=
  mkGrantClaims (bs "alice") [bs "read"; bs "write"] (bs "export") (bs "g1") 1700000000 1700000600.
Definition demo_overrides : MintOverrides := mkMintOverrides None (Some (bs "g1")) None.
Definition demo_token : list byte :=
  match mint_grant_token demo_grant_keys (bs "alice") [bs "read"; bs "write"] (bs "export") 600
          demo_overrides demo_entropy with
  | Ok (t, _) => t
  | _ => []
  end.

Lemma demo_claims_wf : claims_wf demo_claims.
Proof. vm_compute. repeat (split || constructor || done). Qed.

Lemma grant_payload_codec_witness :
  ∃ q, encode_payload demo_claims = Ok q ∧ decode_payload q = Ok demo_claims.
Proof. apply (grant_payload_codec demo_claims []). exact demo_claims_wf. Defined.

Lemma mint_verify_window_witness :
  verify_grant_token demo_grant_keys demo_token (f64_ticks (1700000659 * 2 ^ 22)) = Ok demo_claims ∧
  verify_grant_token demo_grant_keys demo_token (f64_ticks (1700000660 * 2 ^ 22)) =
    Err (grant_lifetime (bs "grant has expired")).
Proof.
  split.
  - rewrite (@mint_verify_window toy_aead toy_aead_laws demo_base64 demo_base64_laws
      [demo_key] (bs "prod") 3600 60 demo_grant_keys demo_key [] 3600 60 demo_grant_keys
      (bs "alice") [bs "read"; bs "write"] (bs "export") 600 demo_overrides demo_entropy demo_token demo_claims
      (1700000659 * 2 ^ 22));
    [reflexivity|vm_compute; reflexivity..| |lia|vm_compute; reflexivity|vm_compute; discriminate|vm_compute; reflexivity
    |exact demo_claims_wf|discriminate|vm_compute; discriminate|vm_compute; reflexivity|vm_compute; discriminate|vm_compute; reflexivity].
    by apply list_elem_of_singleton.
  - rewrite (@mint_verify_window toy_aead toy_aead_laws demo_base64 demo_base64_laws
      [demo_key] (bs "prod") 3600 60 demo_grant_keys demo_key [] 3600 60 demo_grant_keys
      (bs "alice") [bs "read"; bs "write"] (bs "export") 600 demo_overrides demo_entropy demo_token demo_claims
      (1700000660 * 2 ^ 22));
    [reflexivity|vm_compute; reflexivity..| |lia|vm_compute; reflexivity|vm_compute; discriminate|vm_compute; reflexivity
    |exact demo_claims_wf|discriminate|vm_compute; discriminate|vm_compute; reflexivity|vm_compute; discriminate|vm_compute; reflexivity].
    by apply list_elem_of_singleton.
Defined.

Lemma verify_grant_sound_witness :
  ∃ c, verify_grant_token demo_grant_keys demo_token (f64_ticks (1700000000 * 2 ^ 22)) = Ok c ∧
       Grants.issued_at c < Grants.expires_at c.
Proof.
  exists demo_claims. assert (verify_grant_token demo_grant_keys demo_token (f64_ticks (1700000000 * 2 ^ 22)) =
    Ok demo_claims) as E by (vm_compute; reflexivity).
  split; [exact E|].
  apply (@verify_grant_sound toy_aead toy_aead_laws demo_base64 demo_base64_laws) in E.
  destruct E as (? & ? & ? & _ & _ & _ & _ & _ & _ & L & _). exact L.
Defined.

Definition wide_scopes : list (list byte) := [replicate 3000 x61].
Definition wide_mint := mint_grant_token demo_grant_keys (bs "alice") wide_scopes (bs "export") 600
          demo_overrides demo_entropy.

Lemma mint_oversize_refused_witness :
  ∃ tok c, wide_mint = Ok (tok, c) ∧
    verify_grant_token demo_grant_keys tok (f64_ticks (1700000000 * 2 ^ 22)) =
      Err (grant_invalid (bs "grant token is too long")).
Proof.
  destruct wide_mint as [[tok c]|?|] eqn:E; [|vm_compute in E; discriminate..].
  exists tok, c. split; [reflexivity|].
  apply (@mint_oversize_refused toy_aead demo_base64 demo_grant_keys (bs "alice") wide_scopes (bs "export") 600
    demo_overrides demo_entropy tok c E).
  assert (match wide_mint with Ok (t, _) => MAX_GRANT_TOKEN_CHARS < zlen t | _ => False end) as L
    by (vm_compute; reflexivity).
  rewrite E in L. exact L.
Defined.
