(* ===== verification/Dispatch.v ===== *)
(** * Routing a request to a method

    [vgi-rpc/src/binding.rs] and the dispatch half of [server.rs]: protocol names,
    building a server and registering methods, reading a request's envelope, the
    version gate, routing, the parameter contract, and the decision [_serve_one]
    takes about a framed request. Schemas and batches are those of [Arrow]; the
    handlers a method carries are run by [Serve]. *)

From S2P Require Import Prelude Bytes Metadata ErrorModel Errors Ipc IpcWriter Arrow External.

Definition RESERVED_PROTOCOL_PREFIX : list byte := bs "vgi_rpc.".
Definition MAX_PROTOCOL_NAME_BYTES : Z := 255.
Definition REFLECTION_PROTOCOL_NAME : list byte := bs "vgi_rpc.Reflection.v1".
Definition IDENTITY_PROTOCOL_NAME : list byte := bs "vgi_rpc.Identity.v2".
Definition RETIRED_DESCRIBE_METHOD : list byte := bs "__describe__".
Definition TRANSPORT_OPTIONS_METHOD_NAME : list byte := bs "__transport_options__".

(** ** Protocol names *)
Definition is_ascii_alphabetic (b : byte) : bool := in_range b 65 90 || in_range b 97 122.

Definition is_valid_name (name : list byte) : bool :=
  match name with
  | c :: chars =>
    (is_ascii_alphabetic c || bool_decide (c = x5f))
    && forallb (fun c => is_ascii_alphanumeric c || bool_decide (c = x5f) || bool_decide (c = x2e)) chars
  | [] => false
  end.

(** The refusals are texts; a long name is quoted up to byte 64, where the slice
    panics off a character boundary. *)
Definition validate_protocol_name (name : list byte) (allow_reserved : bool) : res (list byte) unit :=
  if bool_decide (name = []) then Err (bs "A protocol name may not be empty.") else
  if MAX_PROTOCOL_NAME_BYTES <? zlen name then
    _ ← or_panic (str_slice name 0 (Z.min (zlen name) 64));
    Err (bs "Protocol name exceeds ")
  else
  if negb (is_valid_name name) then Err (bs "Protocol name ") else
  if negb allow_reserved && match strip_prefix RESERVED_PROTOCOL_PREFIX name with Some _ => true | None => false end
  then Err (bs "Protocol name ") else Ok tt.

Definition protocol_not_specified : RpcError :=
  RpcErr.with_status InvalidArgument (bs "protocol_not_specified")
    (RpcErr.protocol_error (bs "Request carries no 'vgi_rpc.protocol' routing key. Every request must name the protocol it addresses. This server hosts: ")).

Definition protocol_not_supported (requested : list byte) : RpcError :=
  RpcErr.with_status Unimplemented (bs "protocol_not_supported")
    (RpcErr.protocol_error (bs "This server does not host protocol " ++ x22 :: requested ++ [x22])).

(** ** The version gate *)
Definition canonical_number (p : list byte) : option Z :=
  let canonical := negb (bool_decide (p = [])) && forallb is_ascii_digit p
    && (bool_decide (p = bs "0") || negb (match p with x30 :: _ => true | _ => false end)) in
  if canonical then parse_unsigned u64_max p else None.

Definition parse_semver (value : list byte) : option (Z * Z * Z) :=
  match split_on x2e value with
  | a :: b :: c :: rest =>
    a ← canonical_number a; b ← canonical_number b; c ← canonical_number c;
    match rest with [] => Some (a, b, c) | _ => None end
  | _ => None
  end.

(** Which side to upgrade. *)
Inductive Direction := NotSent | MalformedClient | ClientTooOld | ServerTooOld | MustMatch.

(** Lexicographic order of (major, minor). *)
Definition older (c s : Z * Z) : bool := (c.1 <? s.1) || ((c.1 =? s.1) && (c.2 <? s.2)).

Definition version_gate (server_version : list byte) (md : Metadata) : res Direction unit :=
  if bool_decide (server_version = []) then Ok tt else
  client_version ← ok_or NotSent (md !! PROTOCOL_VERSION_KEY);
  '(major, minor, _) ← ok_or MalformedClient (parse_semver client_version);
  match parse_semver server_version with
  | Some (smajor, sminor, _) =>
    if (major =? smajor) && (minor =? sminor) then Ok tt
    else if older (major, minor) (smajor, sminor) then Err ClientTooOld else Err ServerTooOld
  | None =>
    let parts := split_on x2e server_version in
    if bool_decide (dec_unsigned major = default [] (parts !! 0%nat))
       && bool_decide (dec_unsigned minor = default [] (parts !! 1%nat))
    then Ok tt else Err MustMatch
  end.

Definition validate_protocol_version (protocol server_version : list byte) (md : Metadata) : res RpcError unit :=
  map_err (fun d => RpcErr.protocol_version_mismatch protocol
             (match d with NotSent => [] | _ => default [] (md !! PROTOCOL_VERSION_KEY) end) server_version)
    (version_gate server_version md).

(** ** Requests *)
Section Requests.
Context `{ArrowArrays}.

Record Request := mkRequest {
  method : list byte;
  protocol : list byte;
  request_id : list byte;
  batch : RecordBatch;
  metadata : Metadata
}.

Definition one_row : RpcError := RpcErr.protocol_error (bs "Expected 1 row in request batch, got ").

Definition from_read_batch (b : RecordBatch) (md : Metadata) (require_method : bool) : res RpcError Request :=
  if bool_decide (is_Some (md !! INVALID_UTF8_METADATA_KEY))
  then Err (RpcErr.protocol_error (bs "Invalid UTF-8 in request batch custom_metadata")) else
  m ← (if require_method
       then ok_or (RpcErr.protocol_error (bs "Missing 'vgi_rpc.method' in request batch custom_metadata."))
                  (md !! RPC_METHOD_KEY)
       else Ok (default [] (md !! RPC_METHOD_KEY)));
  version ← ok_or (RpcErr.version_error (bs "Missing 'vgi_rpc.request_version' in request batch custom_metadata. Set it to "))
                  (md !! REQUEST_VERSION_KEY);
  if negb (bool_decide (version = REQUEST_VERSION))
  then Err (RpcErr.version_error (bs "Unsupported request version ")) else
  let external_pointer := bool_decide (is_Some (md !! LOCATION_KEY)) in
  if require_method && negb (bool_decide (schema_fields (batch_schema b) = [])) && negb (num_rows b =? 1)
     && negb external_pointer
  then Err one_row else
  Ok (mkRequest m (default [] (md !! PROTOCOL_KEY)) (default [] (md !! REQUEST_ID_KEY)) b md).

Definition validate_parameter_batch (b : RecordBatch) (expected : ArrowSchema) : res RpcError unit :=
  if negb (bool_decide (schema_fields (batch_schema b) = schema_fields expected))
  then Err (RpcErr.type_error (bs "parameter schema mismatch: expected ")) else
  if negb (bool_decide (schema_fields expected = [])) && negb (num_rows b =? 1) then Err one_row else Ok tt.

End Requests.

(** ** Servers *)
Inductive MethodType := Unary | Producer | Exchange | Dynamic.

Section Dispatch.
(** [UnaryHandler], [StreamHandler]: the boxed closures a method is registered with. *)
Context `{ArrowArrays} {UnaryHandler StreamHandler : Type}.

Record MethodInfo := mkMethodInfo {
  mi_name : list byte;
  method_type : MethodType;
  params_schema : ArrowSchema;
  result_schema : ArrowSchema;
  mi_unary : option UnaryHandler;
  mi_stream : option StreamHandler
}.

(** [MethodInfo::unary] and [MethodInfo::stream]. *)
Definition method_unary (name : list byte) (params result : ArrowSchema) (h : UnaryHandler) : MethodInfo :=
  mkMethodInfo name Unary params result (Some h) None.
Definition method_stream (name : list byte) (kind : MethodType) (params : ArrowSchema) (h : StreamHandler)
  : res RpcError MethodInfo :=
  match kind with
  | Producer | Exchange | Dynamic => Ok (mkMethodInfo name kind params empty_schema None (Some h))
  | Unary => Panic
  end.

Abbreviation Methods := (gmap (list byte) MethodInfo).

Record HostedProtocol := mkHosted {
  hp_name : list byte;
  hp_version : list byte;
  hp_methods : Methods
}.

Definition hosted_new (name : list byte) : HostedProtocol := mkHosted name [] ∅.

Definition hosted_register (p : HostedProtocol) (info : MethodInfo) : HostedProtocol :=
  mkHosted (hp_name p) (hp_version p) (<[mi_name info := info]> (hp_methods p)).

(** The part of [RpcServer] that serving reads; [dispatch_hook] is whether a hook is
    registered, [serving] whether the transport was bound or the protocol hash was
    computed. *)
Record RpcServer := mkServer {
  server_id : list byte;
  omit_tracebacks : bool;
  protocol_name : list byte;
  protocol_version : list byte;
  methods : Methods;
  extra_protocols : list HostedProtocol;
  identity : option Methods;
  external_config : option ExternalLocationConfig;
  dispatch_hook : bool;
  serving : bool
}.

(** [b_identity]: the method table of the identity protocol, where one is hosted. *)
Record RpcServerBuilder := mkBuilder {
  b_server_id : option (list byte);
  b_omit_tracebacks : bool;
  b_protocol_name : option (list byte);
  b_protocol_version : option (list byte);
  b_extra_protocols : list HostedProtocol;
  b_identity : option Methods;
  b_external_config : option ExternalLocationConfig;
  b_dispatch_hook : bool
}.

Definition check_names (seen : gset (list byte)) (name : list byte) : res RpcError (gset (list byte)) :=
  _ ← map_err RpcErr.value_error (validate_protocol_name name false);
  if bool_decide (name ∈ seen) then Err (RpcErr.value_error (bs "Protocol ")) else Ok ({[name]} ∪ seen).

(** [random_id]: what [short_random_id] draws. *)
Definition try_build (random_id : list byte) (b : RpcServerBuilder) : res RpcError RpcServer :=
  let name := match b_protocol_name b with
              | Some n => if bool_decide (n = []) then bs "Service" else n
              | None => bs "Service"
              end in
  _ ← try_fold check_names ∅ (name :: (hp_name <$> b_extra_protocols b));
  Ok (mkServer (default random_id (b_server_id b)) (b_omit_tracebacks b) name (default [] (b_protocol_version b)) ∅ (b_extra_protocols b) (b_identity b)
        (b_external_config b) (b_dispatch_hook b) false).

Definition try_register (s : RpcServer) (info : MethodInfo) : res RpcError RpcServer :=
  if serving s then Err (RpcErr.runtime_error (bs "cannot register method "))
  else Ok (mkServer (server_id s) (omit_tracebacks s) (protocol_name s) (protocol_version s) (<[mi_name info := info]> (methods s))
             (extra_protocols s) (identity s) (external_config s) (dispatch_hook s) (serving s)).

(** ** Routing *)
Record ResolvedBinding := mkBinding {
  rb_name : list byte;
  rb_version : list byte;
  rb_methods : Methods
}.

Definition no_such_method : RpcError := RpcErr.method_not_implemented (bs "Protocol '").

Definition hosted_protocol_names (s : RpcServer) : list (list byte) :=
  protocol_name s :: (hp_name <$> extra_protocols s) ++ REFLECTION_PROTOCOL_NAME ::
  match identity s with Some _ => [IDENTITY_PROTOCOL_NAME] | None => [] end.

Definition resolve_binding (s : RpcServer) (p : list byte) : option ResolvedBinding :=
  if bool_decide (p = protocol_name s)
  then Some (mkBinding (protocol_name s) (protocol_version s) (methods s)) else
  match List.find (fun hp => bool_decide (hp_name hp = p)) (extra_protocols s) with
  | Some hp => Some (mkBinding (hp_name hp) (hp_version hp) (hp_methods hp))
  | None =>
    if bool_decide (p = IDENTITY_PROTOCOL_NAME)
    then (fun ms => mkBinding IDENTITY_PROTOCOL_NAME [] ms) <$> identity s
    else None
  end.

Definition route (s : RpcServer) (p : list byte) : res RpcError ResolvedBinding :=
  if bool_decide (p = []) then Err protocol_not_specified else
  match validate_protocol_name p true with
  | Err _ => Err (protocol_not_supported (bs "<invalid>"))
  | Panic => Panic
  | Ok _ => ok_or (protocol_not_supported p) (resolve_binding s p)
  end.

Definition traceback_origin (s : RpcServer) (protocol method : list byte) : option (list byte) :=
  if omit_tracebacks s then None else
  Some (if bool_decide (protocol = []) then method else protocol ++ x2f :: method).

(** ** What [_serve_one] does with a framed request *)
Inductive Action :=
(** the request, where the frame was one, for the origin of the traceback *)
| RespondError (req : option Request) (schema : ArrowSchema) (e : RpcError)
| TransportOptions (req : Request)
| Reflect (req : Request)
| ServeUnary (req : Request) (info : MethodInfo)
| ServeStream (req : Request) (info : MethodInfo).

Definition describe_retired : RpcError :=
  RpcErr.attribute_error (bs "'__describe__' was retired. Introspection is now the '").

Definition error_or {A} (r : res RpcError A) (req : option Request) (schema : ArrowSchema)
    (k : A → res RpcError Action) : res RpcError Action :=
  match r with
  | Ok a => k a
  | Err e => Ok (RespondError req schema e)
  | Panic => Panic
  end.

Definition dispatch_routed (req : Request) (binding : ResolvedBinding) : res RpcError Action :=
  error_or (validate_protocol_version (rb_name binding) (rb_version binding) (metadata req)) (Some req) empty_schema (fun _ =>
  match rb_methods binding !! method req with
  | None => Ok (RespondError (Some req) empty_schema no_such_method)
  | Some info =>
    error_or (validate_parameter_batch (batch req) (params_schema info)) (Some req) (result_schema info) (fun _ =>
    Ok match method_type info with
       | Unary => ServeUnary req info
       | Producer | Exchange | Dynamic => ServeStream req info
       end)
  end).

Definition dispatch (s : RpcServer) (b : RecordBatch) (md : Metadata) : res RpcError Action :=
  error_or (from_read_batch b md true) None empty_schema (fun req =>
  if bool_decide (method req = TRANSPORT_OPTIONS_METHOD_NAME) then Ok (TransportOptions req) else
  if bool_decide (method req = RETIRED_DESCRIBE_METHOD)
  then Ok (RespondError (Some req) empty_schema describe_retired) else
  if bool_decide (protocol req = REFLECTION_PROTOCOL_NAME) then Ok (Reflect req) else
  error_or (route s (protocol req)) (Some req) empty_schema (dispatch_routed req)).
End Dispatch.

Arguments MethodInfo {_} _ _.
Arguments HostedProtocol {_} _ _.
Arguments RpcServer {_} _ _.
Arguments RpcServerBuilder {_} _ _.
Arguments ResolvedBinding {_} _ _.
Arguments Action {_} _ _.
