(* ===== verification/DispatchProps.v ===== *)
(** * Routing: canonical versions, distinct names, and who reaches a handler *)

From S2P Require Import Prelude Bytes Metadata Errors Ipc IpcWriter Arrow Dispatch.

(** ** Canonical decimal numbers *)
Lemma dec_digits_acc fuel n acc : dec_digits fuel n acc = dec_digits fuel n [] ++ acc.
Proof.
  revert n acc. induction fuel as [|fuel IH]; intros n acc; [done|]. cbn [dec_digits].
  case_match; [done|]. rewrite IH, (IH _ [_]), <- app_assoc. done.
Qed.

Lemma dec_digits_fuel f g n acc :
  0 ≤ n < 2 ^ Z.of_nat f → n < 2 ^ Z.of_nat g → (1 ≤ f)%nat → (1 ≤ g)%nat → dec_digits f n acc = dec_digits g n acc.
Proof.
  revert g n acc. induction f as [|f IH]; intros [|g] n acc Hf Hg H1 H2; try lia. cbn [dec_digits].
  destruct (Z.ltb_spec n 10) as [|Hn]; [done|].
  rewrite Nat2Z.inj_succ, Z.pow_succ_r in Hf, Hg by lia.
  apply IH; [|Z.to_euclidean_division_equations; lia|destruct f; cbn in *; lia|destruct g; cbn in *; lia].
  Z.to_euclidean_division_equations; lia.
Qed.

Lemma dec_unsigned_step q d :
  0 < q → 0 ≤ d < 10 → dec_unsigned (10 * q + d) = dec_unsigned q ++ [z2b (48 + d)].
Proof.
  intros Hq Hd. unfold dec_unsigned. pose proof (Z.log2_spec q Hq) as [_ Hlq].
  pose proof (Z.log2_spec (10 * q + d) ltac:(lia)) as [_ Hl]. pose proof (Z.log2_nonneg q).
  assert (Z.log2 q < Z.log2 (10 * q + d)) as Hlt.
  { pose proof (Z.log2_double q Hq). pose proof (Z.log2_le_mono (2 * q) (10 * q + d) ltac:(lia)). lia. }
  assert (∃ f, Z.to_nat (Z.log2 (10 * q + d) + 1) = S f ∧ Z.of_nat f = Z.log2 (10 * q + d)) as (f & -> & Hf).
  { exists (Z.to_nat (Z.log2 (10 * q + d))). lia. }
  cbn [dec_digits]. destruct (Z.ltb_spec (10 * q + d) 10); [lia|].
  replace ((10 * q + d) mod 10) with d by (Z.to_euclidean_division_equations; lia).
  replace ((10 * q + d) / 10) with q by (Z.to_euclidean_division_equations; lia).
  rewrite dec_digits_acc. f_equal. apply dec_digits_fuel; [split; [lia|]| |lia|lia].
  - eapply Z.lt_le_trans; [exact Hlq|]. apply Z.pow_le_mono_r; lia.
  - rewrite Z2Nat.id by lia. rewrite <- Z.add_1_r in Hlq. exact Hlq.
Qed.

Lemma dec_unsigned_digit d : 0 ≤ d < 10 → dec_unsigned d = [z2b (48 + d)].
Proof.
  intros Hd. assert (d ∈ [0; 1; 2; 3; 4; 5; 6; 7; 8; 9]) as Hin.
  { rewrite !elem_of_cons. lia. }
  repeat (apply elem_of_cons in Hin as [->|Hin]; [reflexivity|]). by apply elem_of_nil in Hin.
Qed.

(** A positive number does not start with a zero. *)
Lemma dec_unsigned_head v : 0 < v → ∃ b l, dec_unsigned v = b :: l ∧ b ≠ x30.
Proof.
  intros Hv. generalize Hv. pattern v. apply Z_lt_induction; [|lia]. clear v Hv. intros v IH Hv.
  destruct (Z.ltb_spec v 10).
  - exists (z2b (48 + v)), []. split; [by apply dec_unsigned_digit; lia|].
    intros E. apply (f_equal b2z) in E. rewrite b2z_z2b, Z.mod_small in E by lia. cbn in E. lia.
  - destruct (IH (v / 10)) as (b & l & E & Hb); [Z.to_euclidean_division_equations; lia..|].
    exists b, (l ++ [z2b (48 + v mod 10)]). split; [|done].
    rewrite (Z.div_mod v 10) at 1 by lia.
    rewrite dec_unsigned_step, E; [done|Z.to_euclidean_division_equations; lia|by apply Z.mod_pos_bound].
Qed.

Lemma radix_value_snoc acc l c :
  radix_value 10 dec_value acc (l ++ [c]) = v ← radix_value 10 dec_value acc l; d ← dec_value c; Some (v * 10 + d).
Proof.
  revert acc. induction l as [|b l IH]; intros acc; cbn [radix_value app].
  - by destruct (dec_value c).
  - destruct (dec_value b); [|done]. cbn [mbind option_bind]. apply IH.
Qed.

Lemma dec_value_inv c d : dec_value c = Some d → 0 ≤ d < 10 ∧ c = z2b (48 + d).
Proof.
  unfold dec_value, is_ascii_digit, in_range. case_match eqn:E; [|done]. intros [= <-].
  apply andb_true_iff in E as [E1%Z.leb_le E2%Z.leb_le]. split; [lia|].
  replace (48 + (b2z c - 48)) with (b2z c) by lia. by rewrite z2b_b2z.
Qed.

Lemma radix_value_nonneg l v : radix_value 10 dec_value 0 l = Some v → 0 ≤ v.
Proof.
  revert v. induction l as [|c l IH] using rev_ind; intros v; [intros [= <-]; done|].
  rewrite radix_value_snoc. destruct (radix_value _ _ _ l) as [u|]; [|done]. cbn [mbind option_bind].
  destruct (dec_value c) as [d|] eqn:Ed; [|done]. intros [= <-]. apply dec_value_inv in Ed as [? _].
  specialize (IH u eq_refl). lia.
Qed.

Lemma canonical_digits p v :
  p ≠ [] → (p = bs "0" ∨ head p ≠ Some x30) → radix_value 10 dec_value 0 p = Some v → p = dec_unsigned v.
Proof.
  revert v. induction p as [|c p IH] using rev_ind; intros v Hne Hz; [done|].
  rewrite radix_value_snoc. destruct (radix_value _ _ _ p) as [u|] eqn:Eu; [|done]. cbn [mbind option_bind].
  destruct (dec_value c) as [d|] eqn:Ed; [|done]. intros [= <-]. apply dec_value_inv in Ed as [Hd ->].
  destruct p as [|b p]; [cbn in Eu; injection Eu as <-; symmetry; by apply dec_unsigned_digit|].
  assert (head (b :: p) ≠ Some x30) as Hh.
  { destruct Hz as [Hz|Hz]; [|done]. by destruct p. }
  assert (b :: p = dec_unsigned u) as Ep by (apply IH; auto).
  pose proof (radix_value_nonneg _ _ Eu) as Hu. destruct (decide (u = 0)) as [->|].
  { rewrite Ep in Hh. done. }
  rewrite Ep. replace (u * 10 + d) with (10 * u + d) by lia. by rewrite dec_unsigned_step by lia.
Qed.

Lemma canonical_number_exact p v : canonical_number p = Some v ↔ 0 ≤ v ≤ u64_max ∧ p = dec_unsigned v.
Proof.
  unfold canonical_number. split.
  - case_match eqn:E; [|done]. apply andb_true_iff in E as [E Hz]. apply andb_true_iff in E as [Hne Hd].
    apply negb_true_iff, bool_decide_eq_false in Hne.
    unfold parse_unsigned. destruct p as [|b p]; [done|].
    assert (b ≠ x2b) as Hp.
    { intros ->. cbn in Hd. done. }
    assert ((match b :: p with x2b :: t => t | _ => b :: p end) = b :: p) as -> by (destruct b; done).
    destruct (radix_value 10 dec_value 0 (b :: p)) as [u|] eqn:Eu; [|done]. cbn [mbind option_bind].
    destruct (Z.leb_spec u u64_max); [|done]. intros [= <-].
    pose proof (radix_value_nonneg _ _ Eu). split; [lia|]. apply canonical_digits; [done| |done].
    apply orb_true_iff in Hz as [Hz|Hz]; [left; by apply bool_decide_eq_true in Hz|right].
    intros [= ->]. done.
  - intros [Hv ->]. rewrite parse_dec_unsigned by done. case_match eqn:E; [done|].
    apply andb_false_iff in E as [E|E]; [apply andb_false_iff in E as [E|E]|].
    + apply negb_false_iff, bool_decide_eq_true in E. destruct (dec_unsigned_cons v) as (? & ? & E' & _); [lia|].
      by rewrite E in E'.
    + assert (forallb is_ascii_digit (dec_unsigned v) = true) as E'; [|congruence].
      apply forallb_forall. intros x Hx%list_elem_of_In.
      pose proof (dec_unsigned_digits v ltac:(lia)) as Hf. rewrite list.Forall_forall in Hf. by apply Hf.
    + apply orb_false_iff in E as [E1 E2]. apply bool_decide_eq_false in E1.
      destruct (decide (v = 0)) as [->|]; [done|]. destruct (dec_unsigned_head v ltac:(lia)) as (b & l & Eb & Hb).
      rewrite Eb in E2. destruct b; done.
Qed.

Lemma canonical_dec v : 0 ≤ v ≤ u64_max → canonical_number (dec_unsigned v) = Some v.
Proof. intros. by apply canonical_number_exact. Qed.

(** ** Versions *)
Definition semver_text (v : Z * Z * Z) : list byte :=
  dec_unsigned v.1.1 ++ x2e :: dec_unsigned v.1.2 ++ x2e :: dec_unsigned v.2.

Definition semver_range (v : Z * Z * Z) : Prop :=
  0 ≤ v.1.1 ≤ u64_max ∧ 0 ≤ v.1.2 ≤ u64_max ∧ 0 ≤ v.2 ≤ u64_max.

Lemma dec_unsigned_dotless v : 0 ≤ v → x2e ∉ dec_unsigned v.
Proof.
  intros Hv Hin. pose proof (dec_unsigned_digits v Hv) as Hf. rewrite list.Forall_forall in Hf.
  apply Hf in Hin. done.
Qed.

(** Exactly the canonical spellings parse. *)
Lemma parse_semver_exact s v : parse_semver s = Some v ↔ semver_range v ∧ s = semver_text v.
Proof.
  destruct v as [[a b] c]. unfold parse_semver, semver_range, semver_text. cbn [fst snd]. split.
  - pose proof (split_on_join x2e s) as Ej.
    destruct (split_on x2e s) as [|pa [|pb [|pc rest]]]; try done.
    destruct (canonical_number pa) as [va|] eqn:Ea; [|done]. destruct (canonical_number pb) as [vb|] eqn:Eb; [|done].
    destruct (canonical_number pc) as [vc|] eqn:Ec; [|done]. cbn [mbind option_bind].
    destruct rest; [|done]. intros [= -> -> ->].
    apply canonical_number_exact in Ea as [? ->], Eb as [? ->], Ec as [? ->]. split; [done|]. by rewrite <- Ej.
  - intros [(Ha & Hb & Hc) ->]. rewrite !split_on_app, split_on_plain by (apply dec_unsigned_dotless; lia).
    by rewrite !canonical_dec by done.
Qed.

Lemma parse_semver_text v : semver_range v → parse_semver (semver_text v) = Some v.
Proof. intros. by apply parse_semver_exact. Qed.

(** The server's version begins with this major and minor. *)
Definition declares (sv : list byte) (major minor : Z) : Prop :=
  ∃ rest, sv = dec_unsigned major ++ x2e :: dec_unsigned minor ++ rest ∧ (rest = [] ∨ head rest = Some x2e).

(** The version gate: a binding without a version admits everybody; a client is
    admitted only with a version in canonical semver whose major and minor are the
    first two components of the server's; between two canonical versions the gate
    decides exactly by (major, minor) and names the older side. *)
Theorem version_gate_exact sv md :
  version_gate [] md = Ok tt ∧
  (version_gate sv md = Ok tt → sv = [] ∨ ∃ v, semver_range v ∧
     md !! PROTOCOL_VERSION_KEY = Some (semver_text v) ∧ declares sv v.1.1 v.1.2) ∧
  (∀ s c, semver_range s → semver_range c → sv = semver_text s →
     md !! PROTOCOL_VERSION_KEY = Some (semver_text c) →
     version_gate sv md =
       if decide (c.1 = s.1) then Ok tt
       else if older c.1 s.1 then Err ClientTooOld else Err ServerTooOld).
Proof.
  split; [done|]. split.
  - unfold version_gate. case_bool_decide; [by left|]. intros E. right.
    apply bind_Ok in E as (cv & Hcv%ok_or_Ok & E). apply bind_Ok in E as ([[a b] c] & Hp%ok_or_Ok & E).
    apply parse_semver_exact in Hp as [Hr ->]. exists (a, b, c). split; [done|]. split; [done|]. cbn [fst snd].
    destruct (parse_semver sv) as [[[sa sb] sc]|] eqn:Es.
    + apply parse_semver_exact in Es as [Hrs ->]. destruct (Z.eqb_spec a sa) as [->|], (Z.eqb_spec b sb) as [->|]; cbn [andb] in E;
        try (by destruct (older _ _)).
      exists (x2e :: dec_unsigned sc). split; [done|by right].
    + pose proof (split_on_join x2e sv) as Ej. destruct (split_on x2e sv) as [|p [|q ps]]; cbn [lookup list_lookup] in E.
      * destruct (dec_unsigned_cons a) as (? & ? & Ea & _); [apply Hr|]. rewrite Ea in E. done.
      * destruct (dec_unsigned_cons b) as (? & ? & Eb & _); [apply Hr|]. rewrite Eb in E. cbn in E. by rewrite andb_false_r in E.
      * cbn in E. case_bool_decide as Ha; [|done]. case_bool_decide as Hb; [|done]. subst p q.
        exists (match ps with [] => [] | _ => x2e :: join_with x2e ps end). split.
        -- rewrite <- Ej. destruct ps; cbn; by rewrite ?app_nil_r.
        -- destruct ps; [by left|by right].
  - intros s c Hs Hc -> Hmd. unfold version_gate. case_bool_decide as Hnil.
    { destruct s as [[sa sb] sc]. unfold semver_text in Hnil. by apply app_nil in Hnil as [_ ?]. }
    rewrite Hmd. cbn [ok_or mbind res_bind]. rewrite !parse_semver_text by done. destruct s as [[sa sb] sc], c as [[ca cb] cc]. cbn [ok_or mbind res_bind fst snd].
    case_decide as Hd.
    + injection Hd as -> ->. by rewrite !Z.eqb_refl.
    + destruct (Z.eqb_spec ca sa), (Z.eqb_spec cb sb); cbn [andb]; congruence.
Qed.

Section Routing.
Context `{ArrowArrays} {UH SH : Type}.
Implicit Types (s : RpcServer UH SH) (p : list byte).

(** A server as built, with methods registered on it since. *)
Inductive constructed : RpcServer UH SH → Prop :=
| constructed_built id b s : try_build id b = Ok s → constructed s
| constructed_registered s info s' : constructed s → try_register s info = Ok s' → constructed s'.

Definition app_names s : list (list byte) := protocol_name s :: (hp_name <$> extra_protocols s).

(** An application may claim this name. *)
Definition app_name p : Prop := validate_protocol_name p false = Ok tt.

Lemma check_names_fold names seen seen' :
  try_fold check_names seen names = Ok seen' →
  Forall app_name names ∧ NoDup names ∧ ∀ n, n ∈ names → n ∉ seen.
Proof.
  revert seen. induction names as [|n names IH]; intros seen E; cbn [try_fold] in E.
  { split_and!; [constructor|constructor|]. by intros ? ?%elem_of_nil. }
  apply bind_Ok in E as (sn & E1 & E). unfold check_names in E1. apply bind_Ok in E1 as ([] & Hv & E1).
  destruct (validate_protocol_name n false) as [[]|?|] eqn:Ev; try done.
  case_bool_decide as Hin; [done|]. injection E1 as <-. apply IH in E as (Hf & Hnd & Hs).
  split_and!; [by constructor| |].
  - apply list.NoDup_cons. split; [|done]. intros Hn. apply Hs in Hn. set_solver.
  - intros m [->|Hm]%elem_of_cons; [done|]. apply Hs in Hm. set_solver.
Qed.

Lemma constructed_names s : constructed s → Forall app_name (app_names s) ∧ NoDup (app_names s).
Proof.
  induction 1 as [id b s E|s info s' _ IH E].
  - unfold try_build in E. apply bind_Ok in E as (seen & E & Es). injection Es as <-.
    apply check_names_fold in E as (Hf & Hnd & _). done.
  - unfold try_register in E. case_match; [done|]. injection E as <-. exact IH.
Qed.

Lemma app_name_reserved p : app_name p → ∀ q, p ≠ RESERVED_PROTOCOL_PREFIX ++ q.
Proof.
  unfold app_name, validate_protocol_name. intros E q ->. case_bool_decide; [done|].
  case_match; [by destruct (str_slice _ _ _)|]. case_match; [done|]. by rewrite strip_prefix_app in E.
Qed.

Lemma validate_allow p : validate_protocol_name p false = Ok tt → validate_protocol_name p true = Ok tt.
Proof.
  unfold validate_protocol_name. case_bool_decide; [done|]. case_match; [done|]. case_match; [done|]. done.
Qed.

(** The slice of an over-long name. *)
Lemma validate_long p allow :
  MAX_PROTOCOL_NAME_BYTES < zlen p →
  validate_protocol_name p allow = if is_char_boundary p 64 then Err (bs "Protocol name exceeds ") else Panic.
Proof.
  unfold MAX_PROTOCOL_NAME_BYTES. intros Hl. unfold validate_protocol_name. case_bool_decide as Hn.
  { subst p. rewrite zlen_nil in Hl. lia. }
  unfold MAX_PROTOCOL_NAME_BYTES. rewrite (proj2 (Z.ltb_lt 255 (zlen p))) by done.
  rewrite Z.min_r by lia. unfold str_slice. change (is_char_boundary p 0) with true. cbn [andb].
  destruct (is_char_boundary p 64); [|done]. by rewrite slice_ok by lia.
Qed.

Lemma validate_short p allow : zlen p ≤ MAX_PROTOCOL_NAME_BYTES → no_panic (validate_protocol_name p allow).
Proof.
  intros Hl. unfold validate_protocol_name. case_bool_decide; [done|].
  rewrite (proj2 (Z.ltb_ge _ _)) by done. case_match; [done|]. by case_match.
Qed.

Definition extra_binding (hp : HostedProtocol UH SH) : ResolvedBinding UH SH :=
  mkBinding (hp_name hp) (hp_version hp) (hp_methods hp).

Lemma find_extra (l : list (HostedProtocol UH SH)) hp :
  NoDup (hp_name <$> l) → hp ∈ l → List.find (fun h => bool_decide (hp_name h = hp_name hp)) l = Some hp.
Proof.
  induction l as [|h l IH]; intros Hnd Hin; [by apply elem_of_nil in Hin|].
  rewrite fmap_cons in Hnd. apply list.NoDup_cons in Hnd as [Hn Hnd]. cbn [List.find].
  apply elem_of_cons in Hin as [->|Hin]; [by rewrite bool_decide_eq_true_2|].
  case_bool_decide as E; [|by apply IH]. exfalso. apply Hn. rewrite E. apply list_elem_of_fmap. eauto.
Qed.

(** A name no application protocol may take is not among the added ones. *)
Lemma find_extra_none (hps : list (HostedProtocol UH SH)) q :
  Forall app_name (hp_name <$> hps) → (∀ n, app_name n → n = q → False) →
  List.find (fun hp => bool_decide (hp_name hp = q)) hps = None.
Proof.
  intros Hf Hq. destruct (List.find _ _) as [hp|] eqn:E; [|done]. exfalso.
  apply find_some in E as [Hin Hb%bool_decide_eq_true]. apply (Hq (hp_name hp)); [|done].
  rewrite list.Forall_forall in Hf. apply Hf, list_elem_of_fmap. exists hp. by rewrite list_elem_of_In.
Qed.

(** C22. Routing on any server that was built: every hosted application protocol
    is reached under its own name and version, whatever names the others have;
    whatever routes is the binding of the name that was asked for; the framework's
    reflection protocol cannot be shadowed; the identity protocol reaches the table it
    was hosted with, or nothing; an absent key is told apart from an unhosted one. The name from the wire makes routing panic exactly when it is
    longer than 255 bytes and its byte 64 is not a character boundary. *)
Theorem route_exact s p :
  constructed s →
  route s (protocol_name s) = Ok (mkBinding (protocol_name s) (protocol_version s) (methods s)) ∧
  (∀ hp, hp ∈ extra_protocols s → route s (hp_name hp) = Ok (extra_binding hp)) ∧
  (∀ b, route s p = Ok b → rb_name b = p ∧ p ∈ hosted_protocol_names s) ∧
  route s REFLECTION_PROTOCOL_NAME = Err (protocol_not_supported REFLECTION_PROTOCOL_NAME) ∧
  route s IDENTITY_PROTOCOL_NAME = match identity s with
                                   | Some ms => Ok (mkBinding IDENTITY_PROTOCOL_NAME [] ms)
                                   | None => Err (protocol_not_supported IDENTITY_PROTOCOL_NAME)
                                   end ∧
  route s [] = Err protocol_not_specified ∧
  (route s p = Panic ↔ MAX_PROTOCOL_NAME_BYTES < zlen p ∧ is_char_boundary p 64 = false).
Proof.
  intros [Hf Hnd]%constructed_names. unfold app_names in *.
  apply list.Forall_cons in Hf as [Hp Hf]. apply list.NoDup_cons in Hnd as [Hpn Hnd].
  assert (∀ q, app_name q → q ≠ []) as Hne.
  { intros q Hq ->. done. }
  assert (∀ q, app_name q → ∀ r, q = REFLECTION_PROTOCOL_NAME ++ r → False) as Hres.
  { intros q Hq r E. apply (app_name_reserved q Hq (bs "Reflection.v1" ++ r)). by rewrite E. }
  assert (∀ q, app_name q → q = IDENTITY_PROTOCOL_NAME → False) as Hres2.
  { intros q Hq E. apply (app_name_reserved q Hq (bs "Identity.v2")). by rewrite E. }
  unfold route. split_and!.
  - rewrite bool_decide_eq_false_2 by auto. rewrite validate_allow by done. unfold resolve_binding.
    by rewrite bool_decide_eq_true_2.
  - intros hp Hin. assert (app_name (hp_name hp)) as Hh.
    { rewrite list.Forall_forall in Hf. apply Hf. apply list_elem_of_fmap. eauto. }
    rewrite bool_decide_eq_false_2 by auto. rewrite validate_allow by done. unfold resolve_binding.
    rewrite bool_decide_eq_false_2; [by rewrite find_extra|]. intros E. apply Hpn. rewrite <- E.
    apply list_elem_of_fmap. eauto.
  - intros b. case_bool_decide; [done|]. destruct (validate_protocol_name p true); [|done..].
    intros E%ok_or_Ok. unfold resolve_binding, hosted_protocol_names in *. case_bool_decide as E1.
    { injection E as <-. subst p. split; [done|by left]. }
    destruct (List.find _ _) as [hp|] eqn:Efind.
    + injection E as <-. apply find_some in Efind as [Hin Hb]. apply bool_decide_eq_true in Hb. subst p.
      split; [done|]. right. apply elem_of_app. left. apply list_elem_of_fmap. exists hp. by rewrite list_elem_of_In.
    + case_bool_decide as E2; [|done]. subst p. destruct (identity s) as [ms|]; [|done]. injection E as <-.
      split; [done|]. right. apply elem_of_app. right. right. by left.
  - change (bool_decide (REFLECTION_PROTOCOL_NAME = [])) with false. cbn [negb].
    change (validate_protocol_name REFLECTION_PROTOCOL_NAME true) with (@Ok (list byte) unit tt).
    unfold resolve_binding. rewrite bool_decide_eq_false_2 by (intros E; eapply (Hres _ Hp []); by rewrite app_nil_r).
    rewrite (find_extra_none _ _ Hf); [done|]. intros q Hq ->. eapply (Hres _ Hq []). by rewrite app_nil_r.
  - change (bool_decide (IDENTITY_PROTOCOL_NAME = [])) with false. cbn [negb].
    change (validate_protocol_name IDENTITY_PROTOCOL_NAME true) with (@Ok (list byte) unit tt).
    unfold resolve_binding. rewrite bool_decide_eq_false_2 by (intros E; by apply (Hres2 _ Hp)).
    rewrite (find_extra_none _ _ Hf) by exact Hres2. by destruct (identity s).
  - done.
  - destruct (decide (zlen p ≤ MAX_PROTOCOL_NAME_BYTES)) as [Hs|Hl].
    + pose proof (validate_short p true Hs) as Hnp. split; [|lia].
      case_bool_decide; [done|]. destruct (validate_protocol_name p true); [|done..].
      by destruct (resolve_binding s p).
    + case_bool_decide as Hn; [subst p; rewrite zlen_nil in Hl; unfold MAX_PROTOCOL_NAME_BYTES in *; lia|].
      rewrite validate_long by lia. destruct (is_char_boundary p 64); split; try done; try lia.
Qed.

(** C21. Who reaches a handler: exactly a request with a valid envelope, for a
    method the framework does not answer itself, whose protocol routes to a binding
    whose version gate admits it and that has the method, with precisely the
    declared parameter fields and, unless there are none, one row. The capability
    handshake and the retired description method are answered whatever protocol or
    version the request names, and reflection whatever its version. *)
Theorem dispatch_reaches_handler s b md req info :
  (dispatch s b md = Ok (ServeUnary req info) ∨ dispatch s b md = Ok (ServeStream req info)) ↔
  from_read_batch b md true = Ok req ∧ method req ≠ TRANSPORT_OPTIONS_METHOD_NAME ∧
  method req ≠ RETIRED_DESCRIBE_METHOD ∧ protocol req ≠ REFLECTION_PROTOCOL_NAME ∧
  (∃ bnd, route s (protocol req) = Ok bnd ∧ version_gate (rb_version bnd) md = Ok tt ∧
     rb_methods bnd !! method req = Some info) ∧
  schema_fields (batch_schema b) = schema_fields (params_schema info) ∧ (schema_fields (params_schema info) = [] ∨ num_rows b = 1).
Proof.
  assert (∀ r, from_read_batch b md true = Ok r → metadata r = md ∧ batch r = b) as Hreq.
  { unfold from_read_batch. intros r E. case_match; [done|]. inv_res. case_match; [done|]. case_match; [done|].
    by inv_res. }
  unfold dispatch. destruct (from_read_batch b md true) as [r|e|] eqn:Er; cbn [error_or].
  2-3: split; [by intros [|]|by intros [? _]].
  destruct (Hreq r eq_refl) as [Hmd Hb]. clear Hreq.
  case_bool_decide as Hm1; [split; [by intros [|]|intros ([= ->] & ? & _); done]|].
  case_bool_decide as Hm2; [split; [by intros [|]|intros ([= ->] & _ & ? & _); done]|].
  case_bool_decide as Hm3; [split; [by intros [|]|intros ([= ->] & _ & _ & ? & _); done]|].
  destruct (route s (protocol r)) as [bnd|e|] eqn:Ert; cbn [error_or].
  2-3: split; [by intros [|]|intros ([= ->] & _ & _ & _ & (bnd & Hr & _) & _); congruence].
  unfold dispatch_routed, validate_protocol_version. rewrite Hmd, Hb.
  destruct (version_gate (rb_version bnd) md) as [[]|d|] eqn:Ev; cbn [map_err error_or].
  2-3: split; [by intros [|]|intros ([= ->] & _ & _ & _ & (bnd' & Hr & Hv & _) & _); congruence].
  destruct (rb_methods bnd !! method r) as [inf|] eqn:Em.
  2: split; [by intros [|]|intros ([= ->] & _ & _ & _ & (bnd' & Hr & _ & Hm) & _); congruence].
  unfold validate_parameter_batch. destruct (decide (schema_fields (batch_schema b) = schema_fields (params_schema inf))) as [Hp|Hp].
  2: { rewrite (bool_decide_eq_false_2 _ Hp). cbn [negb error_or].
       split; [by intros [|]|intros ([= ->] & _ & _ & _ & (bnd' & Hr & _ & Hm) & ? & _); congruence]. }
  rewrite (bool_decide_eq_true_2 _ Hp). cbn [negb].
  destruct (negb (bool_decide (schema_fields (params_schema inf) = [])) && negb (num_rows b =? 1)) eqn:Erow; cbn [error_or].
  { apply andb_true_iff in Erow as [E1 E2]. apply negb_true_iff, bool_decide_eq_false in E1.
    apply negb_true_iff, Z.eqb_neq in E2.
    split; [by intros [|]|intros ([= ->] & _ & _ & _ & (bnd' & Hr & _ & Hm) & _ & [?|?]); congruence]. }
  assert (schema_fields (params_schema inf) = [] ∨ num_rows b = 1) as Hrow.
  { apply andb_false_iff in Erow as [E%negb_false_iff|E%negb_false_iff];
      [left; by apply bool_decide_eq_true in E|right; by apply Z.eqb_eq in E]. }
  split.
  - intros Hd. assert (r = req ∧ inf = info) as [<- <-] by (destruct Hd as [Hd|Hd]; destruct (method_type inf); by simplify_eq).
    split_and!; try done. by exists bnd.
  - intros ([= ->] & _ & _ & _ & (bnd' & Hr & _ & Hm) & _). assert (inf = info) as -> by congruence.
    destruct (method_type info); auto.
Qed.
End Routing.
