(* ===== verification/WireExample.v ===== *)
(** * The wire, run

    A small flatbuffer format and a two-shape record batch that satisfy the contracts
    of [IpcProps], [IpcWriterProps] and [ShmBatchProps], with the theorems of those
    files and of [DispatchProps] applied to them. *)

From S2P Require Import Prelude Bytes Errors Ipc IpcProps IpcWriter IpcWriterProps.
From S2P Require Import Metadata ShmAllocator Arrow ShmBatch ShmBatchProps.
From S2P Require Import Dispatch DispatchProps.

(** ** A concrete Arrow for the IPC theorems *)

(** ** Messages as bytes: the bits of their code, one byte each *)
Fixpoint pos_bytes (p : positive) : list byte :=
  match p with xH => [x02] | xO p => x00 :: pos_bytes p | xI p => x01 :: pos_bytes p end.

Fixpoint bytes_pos (l : list byte) : option positive :=
  match l with
  | x02 :: _ => Some xH
  | x00 :: l => xO <$> bytes_pos l
  | x01 :: l => xI <$> bytes_pos l
  | _ => None
  end.

Lemma bytes_pos_bytes p : bytes_pos (pos_bytes p) = Some p.
Proof. induction p as [p IH|p IH|]; simpl; [by rewrite IH..|done]. Qed.

#[global] Instance MessageHeader_eq : EqDecision MessageHeader.
Proof. solve_decision. Defined.

Definition header_code (h : MessageHeader) : positive :=
  match h with HNone => 1 | HSchema => 2 | HDictionaryBatch => 3 | HRecordBatch => 4 | HOther => 5 end.

Definition code_header (p : positive) : option MessageHeader :=
  match p with
  | 1 => Some HNone | 2 => Some HSchema | 3 => Some HDictionaryBatch | 4 => Some HRecordBatch
  | 5 => Some HOther | _ => None
  end%positive.

#[global] Instance MessageHeader_countable : Countable MessageHeader :=
  {| encode := header_code; decode := code_header;
     decode_encode := fun h => match h with HNone | _ => eq_refl end |}.

#[global] Instance IpcMessage_eq : EqDecision IpcMessage.
Proof. solve_decision. Defined.

#[global] Instance IpcMessage_countable : Countable IpcMessage :=
  inj_countable'
    (fun m => ((header_type m, version m, bodyLength m, header_present m),
               (schema_fields_present m, dict_data m, rb_buffers m, rb_nodes m),
               (rb_length m, rb_variadic m, rb_compressed m, custom_metadata m)))
    (fun '((a, b, c, d), (e, f, g, h), (i, j, k, l)) => mkIpcMessage a b c d e f g h i j k l)
    (fun '(mkIpcMessage _ _ _ _ _ _ _ _ _ _ _ _) => eq_refl).

#[global] Instance in_i64_dec z : Decision (in_i64 z).
Proof. unfold in_i64. apply _. Defined.

#[global] Instance message_wf_dec m : Decision (message_wf m).
Proof. unfold message_wf, pair_ok. apply _. Defined.

Definition toy_build (m : IpcMessage) : list byte := pos_bytes (encode m).

Definition toy_parse (l : list byte) : fb_parse :=
  match l with
  | xff :: _ => FbUtf8Error 0 1
  | _ => match bytes_pos l ≫= decode with
         | Some m => if decide (message_wf m) then FbOk m else FbError
         | None => FbError
         end
  end.

Lemma toy_build_parse m : message_wf m → toy_parse (toy_build m) = FbOk m.
Proof.
  intros Hm. assert (∃ b l, toy_build m = b :: l ∧ b ≠ xff) as (b & l & E & Hb).
  { unfold toy_build. destruct (encode m); simpl; eauto. }
  assert (bytes_pos (toy_build m) ≫= decode = Some m) as Hd.
  { unfold toy_build. rewrite bytes_pos_bytes. simpl. apply decode_encode. }
  unfold toy_parse. rewrite Hd. rewrite E. rewrite decide_True by done. by destruct b.
Qed.

Lemma toy_parse_wf b m : toy_parse b = FbOk m → message_wf m.
Proof.
  unfold toy_parse. intros E.
  assert (match bytes_pos b ≫= decode with
          | Some m => if decide (message_wf m) then FbOk m else FbError
          | None => FbError end = FbOk m) as E'.
  { destruct b as [|[] b]; done. }
  destruct (bytes_pos b ≫= _) as [m'|]; [|done]. case_decide; naive_solver.
Qed.

(** ** Batches: one large binary value, or opaque bytes

    A schema has one large binary column, or none. *)
Inductive toy_batch := Large (v : list byte) | Opaque (s : bool) (l : list byte).

Definition toy_header (t : MessageHeader) (n : Z) : IpcMessage := {|
  header_type := t; version := 4; bodyLength := n; header_present := true;
  schema_fields_present := true; dict_data := None; rb_buffers := Some [(0, n)];
  rb_nodes := Some []; rb_length := 0; rb_variadic := None; rb_compressed := false;
  custom_metadata := None |}.

Definition toy_schema (s : bool) : IpcMessage := {|
  header_type := HSchema; version := 4; bodyLength := 0; header_present := true;
  schema_fields_present := true; dict_data := None; rb_buffers := None;
  rb_nodes := None; rb_length := if s then 1 else 0; rb_variadic := None; rb_compressed := false;
  custom_metadata := None |}.

Definition toy_read (b : list byte) (m : IpcMessage) (s : bool) (d : unit) : res RpcError toy_batch :=
  match rb_nodes m, rb_buffers m with
  | Some [(1, 0)], Some [_; _; (o, n)] => Large <$> or_panic (slice b o (o + n))
  | _, _ => Ok (Opaque s b)
  end.

#[local] Instance toy_ipc : ArrowIpc := {|
  ArrowSchema := bool; RecordBatch := toy_batch; Dictionaries := unit; no_dictionaries := tt;
  root_as_message := toy_parse; fb_to_schema m := Ok (rb_length m =? 1); read_dictionary _ _ _ d := Ok d;
  read_record_batch := toy_read |}.

#[local] Instance toy_laws : ArrowIpcLaws.
Proof.
  constructor. simpl. intros b a z l E Hs. unfold toy_parse in E.
  destruct b as [|c b]; [done|].
  assert (c = xff ∧ a = 0 ∧ z = 1) as (-> & -> & ->).
  { destruct (bytes_pos (c :: b) ≫= decode) as [m|]; [case_decide|];
      destruct c; simplify_eq; done. }
  apply slice_Some in Hs as (_ & _ & ->). done.
Qed.

#[local] Instance toy_writer : ArrowIpcWriter := {|
  DictionaryTracker := unit; tracker_new := tt;
  schema_to_bytes s _ := (mkEncodedData (toy_build (toy_schema s)) [], tt);
  encode_batch b _ :=
    match b with
    | Opaque _ l => if zlen l <=? i64_max
                  then Ok ([], mkEncodedData (toy_build (toy_header HRecordBatch (zlen l))) l, tt)
                  else Err (ipc_error [])
    | Large _ => Err (ipc_error [])
    end;
  build_message := toy_build;
  write_message e :=
    if (0 <? zlen (ipc_message e)) && (zlen (ipc_message e) <=? u32_max)
    then Ok [CONTINUATION_MARKER; le_bytes 4 (zlen (ipc_message e)); ipc_message e; arrow_data e]
    else Err (ipc_error []);
  num_rows b := match b with Large _ => 1 | Opaque _ _ => 0 end;
  num_columns b := match b with Large _ | Opaque true _ => 1 | Opaque false _ => 0 end;
  field0_is_large_binary b := match b with Large _ => true | Opaque s _ => s end;
  column0_large_binary b := match b with Large v => Some (Some v) | Opaque _ _ => None end;
  batch_schema b := match b with Large _ => true | Opaque s _ => s end |}.

Lemma toy_header_wf t n : 0 ≤ n ≤ i64_max → message_wf (toy_header t n).
Proof.
  intros. unfold message_wf; simpl. ints. split_and!; try lia; repeat constructor; simpl; lia.
Qed.

#[local] Instance toy_writer_laws : ArrowIpcWriterLaws.
Proof.
  refine {| fits s b := batch_schema b = s; tracks _ _ _ := True |}; simpl.
  - done.
  - apply toy_parse_wf.
  - apply toy_build_parse.
  - intros e parts E.
    destruct (Z.ltb_spec 0 (zlen (ipc_message e))), (Z.leb_spec (zlen (ipc_message e)) u32_max);
      simpl in E; simplify_eq.
    exists (ipc_message e). cbn [concat]. rewrite app_nil_r. split_and!; try done; lia.
  - intros []; (eexists; split_and!; [by vm_compute|done..]).
  - done.
  - intros s b t d0 ds e t' <- _ E. destruct b as [v|sc l]; [done|].
    destruct (Z.leb_spec (zlen l) i64_max); [|done]. simplify_eq. pose proof (zlen_nonneg l).
    destruct d0. exists tt, (toy_header HRecordBatch (zlen l)). simpl.
    split_and!; try done; [by apply toy_build_parse, toy_header_wf|].
    apply (validate_all [(0, zlen l)]); [ints; lia|]. repeat constructor; simpl; lia.
  - intros body m1 m2 s d E. unfold toy_read.
    assert (rb_nodes m1 = rb_nodes m2 ∧ rb_buffers m1 = rb_buffers m2) as [-> ->];
      [unfold batch_header in E; split; congruence|done].
  - intros s b v body m d o _ Hv Hn _ _ _ _ Hb _ _ Hs. destruct b as [v'|[] l]; [|done..].
    unfold direct_value in Hv; simpl in Hv. simplify_eq. unfold toy_read. rewrite Hn, Hb.
    by rewrite Hs.
Defined.

(** ** Runs *)

(** A transport that accepts at most 3 bytes per call and is interrupted. *)
Definition slow_sink : sink :=
  mkSink [] [] (concat (replicate 200 [Accept 3; WInterrupted])) None (Ok tt).

(** A growing vector. *)
Definition vec_sink : sink := mkSink [] [] [] None (Ok tt).

Definition demo_md : Metadata := {[ bs "k" := bs "v" ]}.

Definition demo_bytes : list byte :=
  match write_one_batch_as vec_sink (Large (bs "payload")) true (Some demo_md) with
  | Ok l => l | _ => [] end.

(** The same bytes, cut after [n] and interrupted. *)
Definition demo_reader (n : nat) (rest : list byte) : reader :=
  [Data (take n demo_bytes); Interrupted; Data (drop n demo_bytes ++ rest)].

Lemma write_read_roundtrip_witness :
  ∃ s s1 s2, stream_reader_new (demo_reader 5 (bs "next")) = Ok s ∧ sr_schema s = true ∧
    read_next s = Some (Ok (Some (Large (bs "payload"), demo_md), s1)) ∧
    read_next s1 = Some (Ok (None, s2)) ∧ saw_eos s2 = true ∧
    content (sr_reader s2) = bs "next".
Proof.
  apply (@write_read_roundtrip toy_ipc toy_writer toy_writer_laws vec_sink (Large (bs "payload")) true (Some demo_md) demo_bytes).
  - reflexivity.
  - reflexivity.
  - apply map_Forall_singleton. by vm_compute.
  - by vm_compute.
  - vm_compute. reflexivity.
  - by vm_compute.
  - repeat constructor; by vm_compute.
  - vm_compute. reflexivity.
Defined.

(** A reader in the middle of a stream, and one full of hostile bytes. *)
Definition mid_stream (r : reader) : StreamReader := mkStreamReader r true tt false false None.

Lemma reader_total_witness :
  (∃ r, read_next (mid_stream [Data (bs "garbage"); Interrupted]) = Some r ∧ no_panic r ∧
        match r with
        | Ok (Some _, s') => (reader_size (sr_reader s') < 9)%nat
        | Ok (None, s') => finished s' = true ∧ read_next s' = Some (Ok (None, s'))
        | _ => True
        end) ∧
  (∃ r, drain (mid_stream [Data (bs "garbage"); Interrupted]) = Some r ∧ no_panic r ∧
        ∀ s', r = Ok s' → finished s' = true ∧ read_next s' = Some (Ok (None, s'))).
Proof. exact (@reader_total toy_ipc toy_laws (mid_stream [Data (bs "garbage"); Interrupted])). Defined.

(** A header whose first byte is not UTF-8 is repaired, then refused. *)
Definition bad_header : reader := [Data (CONTINUATION_MARKER ++ le_bytes 4 2 ++ [xff; x00])].

Lemma read_message_bounds_witness :
  read_message_bytes bad_header 64 = Err (ipc_error (bs "parse message header: ")) ∧
  no_panic (read_message_bytes bad_header 64).
Proof. split; [vm_compute; reflexivity|apply (@read_message_bounds toy_ipc toy_laws bad_header 64)]. Defined.

(** Two batches and a marker in one read, then the next request. *)
Definition demo_frames : list (list byte * list byte) :=
  [(toy_build (toy_header HRecordBatch 3), bs "abc"); (toy_build (toy_header HNone 0), []);
   (toy_build (toy_header HRecordBatch 0), [])].

Lemma toy_frame_accepted t n b fs :
  t = HRecordBatch ∨ t = HNone → zlen b = n → n ≤ u32_max →
  0 < zlen (toy_build (toy_header t n)) ≤ u32_max →
  frames_accepted (H:=toy_ipc) true true tt fs →
  frames_accepted (H:=toy_ipc) true true tt ((toy_build (toy_header t n), b) :: fs).
Proof.
  intros Ht <- Hn Hl Hfs. pose proof (zlen_nonneg b). exists (toy_header t (zlen b)).
  assert (zlen b ≤ i64_max) by (ints; lia).
  split; [by apply toy_build_parse, toy_header_wf|]. split_and!; try done; try lia.
  destruct Ht as [-> | ->]; [|done]. cbn [header_type toy_header rb_buffers].
  split; [apply validate_all; [ints; lia|]; repeat constructor; simpl; lia|].
  split; [by eexists|done].
Qed.

Lemma drain_request_boundary_witness :
  ∃ s1 s2,
    read_some 1 (mid_stream [Data (wire_frames demo_frames ++ wire_eos ++ bs "next")]) = Some (Ok s1) ∧
    drain s1 = Some (Ok s2) ∧ saw_eos s2 = true ∧ content (sr_reader s2) = bs "next".
Proof.
  apply (@drain_request_boundary toy_ipc toy_laws 1 _ demo_frames).
  unfold at_frames. split_and!; [by repeat constructor|reflexivity|vm_compute; reflexivity|].
  cbn [sr_schema sr_dictionaries relaxed_schema mid_stream default from_option]. unfold id.
  repeat (apply toy_frame_accepted;
          [by auto|reflexivity|by vm_compute|split; by vm_compute|]). exact I.
Defined.

Lemma validate_buffers_spec_witness :
  validate_record_batch_buffers (Some [(0, 4); (4, 4)]) 8 = Ok tt ∧
  validate_record_batch_buffers (Some [(i64_max, i64_max)]) 8 ≠ Ok tt.
Proof.
  split.
  - apply (proj2 (validate_buffers_spec [(0, 4); (4, 4)] 8)); [by vm_compute|].
    repeat constructor; simpl; lia.
  - intros E. apply (proj2 (validate_buffers_spec [(i64_max, i64_max)] 8)) in E; [|by vm_compute].
    inversion E as [|? ? (_ & _ & Hle) _]. by vm_compute in Hle.
Defined.

Lemma read_message_none_witness :
  ∃ r', read_message_bytes (H:=toy_ipc) [Data [xff; xff]; Data [xff; xff]] 64 = Ok (None, r').
Proof.
  apply (proj2 (@read_message_none toy_ipc [Data [xff; xff]; Data [xff; xff]] 64
                  ltac:(by repeat constructor))). by right.
Defined.

Lemma write_all_chunked_witness :
  (write_all 5 (bs "hello world") slow_sink).1 = Ok tt ∧
  sent (write_all 5 (bs "hello world") slow_sink).2 = bs "hello world" ∧
  ∃ o, offered (write_all 5 (bs "hello world") slow_sink).2 = [] ++ o ∧
       Forall (fun n => 0 < n ≤ 5) o.
Proof.
  split; [vm_compute; reflexivity|]. split; [vm_compute; reflexivity|].
  apply (write_all_chunked 5 (bs "hello world") slow_sink). lia.
Defined.

(** ** Batches in shared memory, run *)

#[local] Existing Instances toy_ipc toy_writer toy_writer_laws toy_laws.

(** ** Arrays: the column of a batch *)
#[global] Instance toy_arrays : ArrowArrays := {|
  Field := unit; DataType := unit; Array := option (list byte); empty_schema := false;
  schema_fields s := if (s : bool) then [tt] else []; field_name _ := bs "value"; field_data_type _ := tt;
  is_dictionary _ := false;
  columns b := match b with Large v => [Some v] | Opaque s _ => if s then [None] else [] end;
  data_type _ := tt; new_empty_array _ := None; cast_with_options a _ := Some a;
  try_new s cols := match s, cols with
                    | true, [Some v] => Ok (Large v)
                    | true, [None] => Ok (Opaque true [])
                    | false, [] => Ok (Opaque false [])
                    | _, _ => Err (RpcErr.new (bs "ArrowError") [])
                    end;
  try_new_with_row_count s cols n := if n =? 0 then Ok (Opaque s []) else Err (RpcErr.new (bs "ArrowError") []);
  batch_memory_size b := match b with Large v => zlen v | Opaque _ l => zlen l end;
  array_memory_size a := match a with Some v => zlen v | None => 0 end |}.

#[global] Instance toy_arrays_laws : ArrowArraysLaws.
Proof.
  constructor; simpl.
  - done.
  - intros [] [|[] []] b E; by simplify_eq.
  - intros s cols n b E. destruct (Z.eqb_spec n 0); by simplify_eq.
  - done.
  - by intros [] [|[] []].
  - by intros ? [] ? ?.
  - intros []; apply zlen_nonneg.
  - by intros [|[]].
Qed.

(** ** A stream codec: schema message, one tagged payload, end marker *)
Definition toy_schema_message (s : bool) : list byte := toy_build (toy_schema s).
Definition toy_prefix (s : bool) : list byte := wire_frame (toy_schema_message s) [].

Definition toy_payload (o : option toy_batch) : list byte :=
  match o with
  | None => []
  | Some (Large v) => x01 :: v
  | Some (Opaque s l) => (if s then x02 else x03) :: l
  end.

Definition toy_read_payload (l : list byte) : option toy_batch :=
  match l with
  | x01 :: v => Some (Large v) | x02 :: l => Some (Opaque true l) | x03 :: l => Some (Opaque false l)
  | _ => None
  end.

Definition toy_stream (s : bool) (o : option toy_batch) : list byte := toy_prefix s ++ toy_payload o ++ wire_eos.

(** Both schema messages have the same length. *)
Definition toy_stream_read (l : list byte) : option toy_batch :=
  let n := zlen (toy_prefix (bool_decide (prefix (toy_prefix true) l))) in
  toy_read_payload (ztake (zlen l - n - zlen wire_eos) (zdrop n l)).

Lemma toy_prefix_read s rest : bool_decide (prefix (toy_prefix true) (toy_prefix s ++ rest)) = s.
Proof.
  destruct s; [apply bool_decide_eq_true_2; by eexists|]. apply bool_decide_eq_false_2. intros [k E].
  apply (f_equal (take 30)) in E. vm_compute in E. done.
Qed.

Lemma toy_stream_roundtrip s b : toy_stream_read (toy_stream s (Some b)) = Some b.
Proof.
  unfold toy_stream_read, toy_stream. rewrite toy_prefix_read. rewrite zdrop_app_eq, ztake_app_eq.
  - by destruct b as [|[]].
  - rewrite !zlen_app. lia.
  - done.
Qed.

#[local] Instance toy_shm : ArrowShm := {|
  ipc_stream_writer s o := Ok (toy_stream s o);
  ipc_stream_reader l := Ok (toy_stream_read l) |}.

#[local] Instance toy_shm_laws : ArrowShmLaws.
Proof.
  refine {| schema_message := toy_schema_message |}; simpl.
  - intros [v|s l] t; [done|]. by case_match.
  - intros e. by case_match.
  - done.
  - intros s b t ds e t' _ _ E. destruct b; [done|]. case_match; [|done]. by simplify_eq.
  - intros s. exists (toy_schema s). destruct s; (split; [by vm_compute|]; split; [done|]; by vm_compute).
  - intros s o l [= <-]. exists (toy_payload o). split; [done|]. by intros ->.
  - intros s b l _ [= <-]. by rewrite toy_stream_roundtrip.
Defined.

(** ** A run on a segment of two header sizes *)
Definition demo_batch : toy_batch := Large (bs "payload").
Definition demo_written : OsShm :=
  match allocate_and_write demo_one demo_batch with Ok (s, _) => s | _ => demo_one end.

Lemma allocate_and_write_spec_witness :
  ∃ s' o, allocate_and_write demo_one demo_batch = Ok (s', o) ∧ kept [(65536, 128)] demo_one s' ∧
    match o with
    | inr (Some (off, len)) =>
      ∃ n l' bytes, align_ipc_allocation len = Some n ∧ 0 < len ≤ n ∧
        alloc_inv s' l' ∧ l' ≡ₚ (off, n) :: [(65536, 128)] ∧
        slot_stream demo_one demo_batch bytes ∧ len = zlen bytes ∧ load s' off (length bytes) = bytes
    | _ => ∃ l', alloc_inv s' l' ∧ l' ≡ₚ [(65536, 128)]
    end.
Proof. apply (@allocate_and_write_spec toy_ipc toy_writer toy_arrays toy_shm toy_writer_laws toy_arrays_laws toy_shm_laws demo_one _ demo_batch demo_one_inv). Defined.

Definition demo_send := maybe_write_to_shm (Some (bs "0")) demo_batch demo_md (Some demo_seg).
Definition demo_seg' : OsShm := match demo_send with Ok (Some s, _) => s | _ => demo_seg end.
Definition demo_pointer : toy_batch * Metadata :=
  match demo_send with Ok (_, inr pm) => pm | _ => (demo_batch, ∅) end.

Lemma shm_pointer_roundtrip_witness :
  (demo_pointer.1 = demo_batch ∧ demo_pointer.2 = demo_md ∧ ∃ l', alloc_inv demo_seg' l' ∧ l' ≡ₚ []) ∨
  ∃ R off s2 l2, resolve_shm_batch demo_pointer.1 demo_pointer.2 (Some demo_seg') = Ok (Some demo_seg', inr R) ∧
    resolved_batch R = demo_batch ∧
    resolved_metadata R = <[SHM_SOURCE_KEY := os_name demo_seg]>
                            (delete SHM_LENGTH_KEY (delete SHM_OFFSET_KEY demo_md)) ∧
    (release_offset R = Some off ∧ anchored R = None ∨ release_offset R = None ∧ anchored R = Some off) ∧
    anchor_drop demo_seg' off = Ok s2 ∧ ShmAllocator.free demo_seg' off = Ok s2 ∧
    alloc_inv s2 l2 ∧ l2 ≡ₚ [].
Proof.
  apply (@shm_pointer_roundtrip toy_ipc toy_writer toy_arrays toy_shm toy_writer_laws toy_arrays_laws toy_shm_laws
           (Some (bs "0")) demo_seg [] demo_batch demo_md demo_seg').
  - apply demo_seg_inv.
  - reflexivity.
  - reflexivity.
  - by vm_compute.
  - by vm_compute.
  - vm_cast_no_check (eq_refl demo_send).
Defined.

(** The pointer, not the batch, was sent. *)
Lemma demo_pointer_sent : is_shm_pointer_batch demo_pointer.1 demo_pointer.2 = true.
Proof. vm_compute. reflexivity. Qed.

Definition demo_region : list byte := bs "x" ++ wire_frame (toy_build (toy_header HRecordBatch 3)) (bs "abc") ++ wire_eos.

Lemma frame_range_refines_reader_witness :
  no_panic (ipc_frame_range demo_region 1 MAX_IPC_MESSAGE_BYTES) ∧
  is_ok (ipc_frame_range demo_region 1 MAX_IPC_MESSAGE_BYTES) = true.
Proof.
  split; [|vm_compute; reflexivity].
  apply (@frame_range_refines_reader toy_ipc demo_region 1 [Data (zdrop 1 demo_region)]);
    [done|by repeat constructor|vm_compute; reflexivity].
Defined.

(** ** A server with two protocols, and requests to it *)

#[local] Existing Instance toy_arrays.

(** A method without parameters and with one result column; its handler is not run here. *)
Definition demo_ping : MethodInfo unit unit := method_unary (bs "ping") false true tt.
Definition demo_extra : HostedProtocol unit unit := hosted_register (hosted_new (bs "example.Extra.v1")) demo_ping.
Definition demo_builder : RpcServerBuilder unit unit :=
  mkBuilder (Some (bs "srv")) false (Some (bs "example.Primary.v1")) (Some (bs "2.1.0")) [demo_extra] None None false.
Definition demo_server : RpcServer unit unit :=
  mkServer (bs "srv") false (bs "example.Primary.v1") (bs "2.1.0") ∅ [demo_extra] None None false false.

(** Sixty-three letters, a two-byte character across byte 64, and more letters. *)
Definition hostile_name : list byte := replicate 63 x61 ++ [xc3; xa9] ++ replicate 200 x61.

Lemma demo_server_constructed : constructed demo_server.
Proof. apply (constructed_built [] demo_builder). reflexivity. Qed.

Lemma route_exact_witness :
  route demo_server (bs "example.Extra.v1") = Ok (extra_binding demo_extra) ∧
  utf8_valid hostile_name = true ∧ route demo_server hostile_name = Panic.
Proof.
  split; [|split].
  - apply (proj1 (proj2 (route_exact demo_server hostile_name demo_server_constructed)) demo_extra).
    by apply list_elem_of_singleton.
  - vm_compute. reflexivity.
  - apply (proj2 (proj2 (proj2 (proj2 (proj2 (proj2 (route_exact demo_server hostile_name demo_server_constructed))))))).
    split; [reflexivity|vm_compute; reflexivity].
Defined.

(** A request for the added protocol passes the gate of that protocol only. *)
Definition demo_metadata : Metadata :=
  <[RPC_METHOD_KEY := bs "ping"]> (<[REQUEST_VERSION_KEY := REQUEST_VERSION]>
  (<[PROTOCOL_KEY := bs "example.Extra.v1"]> ∅)).

Lemma demo_dispatch :
  dispatch demo_server (Opaque false []) demo_metadata =
    Ok (ServeUnary (mkRequest (bs "ping") (bs "example.Extra.v1") [] (Opaque false []) demo_metadata) demo_ping).
Proof. reflexivity. Qed.
