(* ===== verification/TokenIdentity.v ===== *)
(** * The identity protocol

    [vgi-rpc/src/token_identity.rs]: the two methods of [vgi_rpc.Identity.v2].
    [introspect_token] says which principal a credential is, to an allowlisted
    caller; [issue_grant] mints a standing grant for the caller, who must have
    authenticated recently. The guards are here; what a credential resolves to and
    whether a grant is minted are the worker's hooks, which keep state of their own.

    [vgi-rpc/src/auth/identity_bearer.rs]: the callbacks that accept the framework's
    sealed grants and the credentials a worker's [resolve_token] resolves, and their
    place after the deployment's own callback. The clock is part of the state that
    callbacks share: [clock] reads it. *)

From S2P Require Import Prelude Bytes F64 ErrorModel Errors Crypto Auth Grants Ipc IpcWriter Arrow ArrowType Dispatch.
From S2P Require Import Json.

(** ** The identity protocol *)

#[local] Open Scope Z_scope.

Definition MAX_TOKEN_BYTES : Z := 4096.
Definition DEFAULT_MAX_AUTH_AGE_SECONDS : f64 := f64_of_i64 900.
Definition DEFAULT_IDENTITY_RETRY_AFTER_SECONDS : Z := 5.
Definition DEFAULT_INTROSPECT_TTL_SECONDS : Z := 300.
Definition INTROSPECT_TOKEN_METHOD : list byte := bs "introspect_token".
Definition ISSUE_GRANT_METHOD : list byte := bs "issue_grant".

Record TokenIdentity := mkTokenIdentity { ti_principal : list byte; token_name : list byte; ttl_seconds : option Z }.
Record IssuedGrant := mkIssuedGrant { ig_token : list byte; expires_at_micros : Z; ig_grant_id : list byte }.

(** ** Reading a decimal number: [str::parse::<f64>] *)

(** A quotient [p / q] rounded to 53 bits, ties to even. *)
Definition f64_ratio (p q : Z) : f64 :=
  let k := Z.max 0 (Z.log2 (p / q) - 52) in
  let d := q * 2 ^ k in
  let r := p mod d in
  let up := if 2 * r <? d then false else if d <? 2 * r then true else Z.odd (p / d) in
  (if up then p / d + 1 else p / d) * 2 ^ k.

(** [d * 10^e], or no finite number. *)
Definition f64_decimal (d e : Z) : option f64 :=
  let x := f64_ratio (d * 10 ^ Z.max e 0 * 2 ^ 1074) (10 ^ Z.max (- e) 0) in
  if x <? 2 ^ 2098 then Some x else None.

Definition strip_sign (s : list byte) : bool * list byte :=
  match s with x2d :: s => (true, s) | x2b :: s => (false, s) | s => (false, s) end.

(** Digits around at most one point, at least one: their value and how many follow the point. *)
Definition parse_mantissa (s : list byte) : option (Z * Z) :=
  let '(int, frac) := match split_once x2e s with Some p => p | None => (s, []) end in
  if bool_decide (int ++ frac = []) || negb (forallb is_ascii_digit (int ++ frac)) then None else
  v ← radix_value 10 dec_value 0 (int ++ frac); Some (v, zlen frac).

Definition parse_exponent (s : list byte) : option Z :=
  let '(neg, ds) := strip_sign s in
  if bool_decide (ds = []) || negb (forallb is_ascii_digit ds) then None else
  v ← radix_value 10 dec_value 0 ds; Some (if neg then - v else v).

(** [Some None]: an infinity or not a number. *)
Definition parse_f64 (s : list byte) : option (option f64) :=
  let '(neg, body) := strip_sign s in
  let lower := to_ascii_lowercase <$> body in
  if bool_decide (lower = bs "inf") || bool_decide (lower = bs "infinity") || bool_decide (lower = bs "nan") then Some None else
  let '(mant, e) := match split_once x65 lower with Some (m, e) => (m, Some e) | None => (lower, None) end in
  '(d, frac) ← parse_mantissa mant;
  e ← match e with Some e => parse_exponent e | None => Some 0 end;
  Some ((fun x => if neg : bool then - x else x) <$> f64_decimal d (e - frac)).

(** ** Shapes of credentials *)
Definition b64url_segment (s : list byte) : bool := forallb b64url_char s.

Definition is_jws_shaped (token : list byte) : bool :=
  match split_on x2e token with
  | [a; b; c] =>
    negb (bool_decide (a = [])) && negb (bool_decide (b = [])) && b64url_segment a && b64url_segment b && b64url_segment c
  | _ => false
  end.

(** ** The errors *)
Definition introspection_refused (d : list byte) : RpcError :=
  RpcErr.with_status PermissionDenied (bs "introspection_refused") (RpcErr.permission_error d).
Definition token_unresolved : RpcError :=
  RpcErr.with_status NotFound (bs "token_unresolved") (RpcErr.value_error (bs "unresolved")).
Definition stale_auth (d : list byte) : RpcError :=
  RpcErr.with_status Unauthenticated (bs "stale_auth") (RpcErr.permission_error d).
Definition identity_unavailable (d : list byte) : RpcError :=
  RpcErr.with_status Unavailable (bs "identity_unavailable")
    (RpcErr.with_retry_after DEFAULT_IDENTITY_RETRY_AFTER_SECONDS (RpcErr.auth_unavailable d)).
Definition as_unavailable (e : RpcError) : RpcError :=
  RpcErr.with_status Unavailable (bs "identity_unavailable")
    (RpcErr.with_retry_after (default DEFAULT_IDENTITY_RETRY_AFTER_SECONDS (retry_after_seconds e))
       (RpcErr.auth_unavailable (message e))).

(** ** The guards *)
Definition normalise_principals (ps : list (list byte)) : res RpcError (gset (list byte)) :=
  let allowed : gset (list byte) := list_to_set (List.filter (fun p => negb (bool_decide (p = []))) ps) in
  if bool_decide (allowed = ∅) then Panic else Ok allowed.

Definition check_introspector (auth : AuthContext) (principals : gset (list byte)) : res RpcError (list byte) :=
  if negb (authenticated auth) || negb (bool_decide (Auth.principal auth ∈ principals))
  then Err (introspection_refused (bs "caller is not an introspector"))
  else Ok (Auth.principal auth).

Definition reject_jws_shaped (token : list byte) : res RpcError unit :=
  let candidate := trim token in
  if bool_decide (candidate = []) || (MAX_TOKEN_BYTES <? zlen token) || is_jws_shaped candidate
  then Err token_unresolved else Ok tt.

Definition check_freshness_at (auth : AuthContext) (max_auth_age now : f64) : res RpcError f64 :=
  if negb (authenticated auth) || bool_decide (Auth.principal auth = [])
  then Err (stale_auth (bs "caller is not authenticated")) else
  raw ← ok_or (stale_auth (bs "credential carries no auth_time; only a recently authenticated user may mint a grant"))
              (claims auth !! bs "auth_time");
  parsed ← ok_or (stale_auth (bs "credential carries an unusable auth_time")) (parse_f64 (trim raw));
  auth_time ← ok_or (stale_auth (bs "credential carries an unusable auth_time")) parsed;
  if f64_gtb (f64_add now (- auth_time)) max_auth_age
  then Err (stale_auth (bs "last authentication was ")) else Ok auth_time.

Section Identity.
Context `{Aead} `{Base64}.

Definition token_digest (token : list byte) : list byte := bytes_to_hex (sha256 token).

(** ** The implementation. [S]: the state of the worker's stores. *)
Context {S : Type}.

Definition TokenResolver : Type := list byte → S → res RpcError (option TokenIdentity) * S.
(** The principal, the purpose, the scopes and the lifetime; what a mint draws from outside. *)
Definition GrantMinter : Type :=
  list byte → list byte → list (list byte) → Z → Entropy → S → res RpcError IssuedGrant * S.

Record IdentityImpl := mkIdentityImpl {
  resolve_token : option TokenResolver;
  mint_grant : option GrantMinter;
  grant_keys : option GrantKeys;
  principals : gset (list byte);
  default_ttl_seconds : Z;
  max_auth_age : f64
}.

Record IdentityImplBuilder := mkIdentityImplBuilder {
  ib_resolve_token : option TokenResolver;
  ib_mint_grant : option GrantMinter;
  ib_grant_keys : option GrantKeys;
  ib_principals : list (list byte);
  ib_default_ttl_seconds : option Z;
  ib_max_auth_age : option f64
}.

(** [sealed_mint_grant(keys)] as a hook: it keeps no state. *)
Definition sealed_minter (k : GrantKeys) : GrantMinter := fun prin purp scs ttl e s =>
  ((fun '(tok, exp, gid) => mkIssuedGrant tok exp gid) <$> sealed_mint_grant k prin purp scs ttl e, s).

Definition identity_build (b : IdentityImplBuilder) : res RpcError IdentityImpl :=
  ps ← match ib_resolve_token b with Some _ => normalise_principals (ib_principals b) | None => Ok ∅ end;
  let mint := match ib_mint_grant b with
              | Some m => Some m
              | None => sealed_minter <$> ib_grant_keys b
              end in
  Ok (mkIdentityImpl (ib_resolve_token b) mint (ib_grant_keys b) ps
        (default DEFAULT_INTROSPECT_TTL_SECONDS (ib_default_ttl_seconds b))
        (default DEFAULT_MAX_AUTH_AGE_SECONDS (ib_max_auth_age b))).

Definition offered_methods (i : IdentityImpl) : gset (list byte) :=
  (match resolve_token i with Some _ => {[INTROSPECT_TOKEN_METHOD]} | None => ∅ end) ∪
  (match mint_grant i with Some _ => {[ISSUE_GRANT_METHOD]} | None => ∅ end).

(** A panic of a hook unwinds through. *)
Definition introspect_token (i : IdentityImpl) (token : list byte) (auth : AuthContext) (s : S)
  : res RpcError TokenIdentity * S :=
  match resolve_token i with
  | None => (Err (introspection_refused (bs "this worker does not resolve credentials")), s)
  | Some resolve =>
    match (_ ← check_introspector auth (principals i); reject_jws_shaped token) with
    | Ok _ =>
      match resolve token s with
      | (Ok (Some id), s) => (Ok id, s)
      | (Ok None, s) => (Err token_unresolved, s)
      | (Err e, s) => (Err (as_unavailable e), s)
      | (Panic, s) => (Panic, s)
      end
    | Err e => (Err e, s)
    | Panic => (Panic, s)
    end
  end.

Definition unavailable_or_own (e : RpcError) : RpcError :=
  if RpcErr.is_auth_unavailable e then as_unavailable e else e.

(** [now]: the clock the freshness guard reads. *)
Definition issue_grant (i : IdentityImpl) (purp : list byte) (scs : list (list byte)) (ttl : Z) (auth : AuthContext)
    (now : f64) (e : Entropy) (s : S) : res RpcError IssuedGrant * S :=
  match mint_grant i with
  | None => (Err (grant_refused (bs "this worker does not mint grants")), s)
  | Some mint =>
    match check_freshness_at auth (max_auth_age i) now with
    | Ok _ => let '(r, s) := mint (Auth.principal auth) purp scs ttl e s in (map_err unavailable_or_own r, s)
    | Err e => (Err e, s)
    | Panic => (Panic, s)
    end
  end.

(** [ttl as i64] *)
Definition ttl_for (i : IdentityImpl) (id : TokenIdentity) : Z :=
  let t := default (default_ttl_seconds i) (ttl_seconds id) in
  (t + 2 ^ 63) mod 2 ^ 64 - 2 ^ 63.
End Identity.
Arguments TokenResolver : clear implicits.
Arguments GrantMinter : clear implicits.
Arguments IdentityImpl : clear implicits.
Arguments IdentityImplBuilder : clear implicits.

(** ** On the wire *)

(** Schemas from fields, and a batch as one IPC stream of the [arrow_ipc] writer. *)
Class ArrowSchemas `{ArrowArrays} := {
  schema_new : list Field → ArrowSchema;
  field_new : list byte → DataType → bool → Field;
  type_of : TypeName → DataType;
  arrow_ipc_stream : RecordBatch → res RpcError (list byte)
}.

Section Wire.
Context `{ArrowSchemas} `{!ArrowValues Array} `{Aead} `{Base64} {S : Type}.

(** [Request::column] *)
Definition request_column (req : Request) (name : list byte) : option Array :=
  '(n, _) ← list_find (fun f => field_name f = name) (schema_fields (batch_schema (batch req)));
  columns (batch req) !! n.

Definition introspect_token_params_schema : ArrowSchema :=
  schema_new [field_new (bs "token") (type_of TUtf8) false].
Definition issue_grant_params_schema : ArrowSchema :=
  schema_new [field_new (bs "purpose") (type_of TUtf8) false;
              field_new (bs "scopes") (type_of (arrow_data_type (list Utf8String))) false;
              field_new (bs "ttl_seconds") (type_of (TInt true 64)) false].
Definition identity_result_schema : ArrowSchema := schema_new [field_new (bs "result") (type_of TBinary) false].
Definition token_identity_schema : ArrowSchema :=
  schema_new [field_new (bs "principal") (type_of TUtf8) false; field_new (bs "token_name") (type_of TUtf8) false;
              field_new (bs "ttl_seconds") (type_of (TInt true 64)) false].
Definition issued_grant_schema : ArrowSchema :=
  schema_new [field_new (bs "token") (type_of TUtf8) false;
              field_new (bs "expires_at") (type_of (TTimestamp (Some (bs "UTC")))) false;
              field_new (bs "grant_id") (type_of TUtf8) false].

Definition string_column (v : list byte) : Array := array_from KString TUtf8 [v].

Definition nest_payload (b : RecordBatch) : res RpcError RecordBatch :=
  nested ← arrow_ipc_stream b;
  map_err (fun _ => RpcErr.protocol_error (bs "building identity result: "))
    (try_new identity_result_schema [array_from KBinary TBinary [nested]]).

Definition token_identity_batch (id : TokenIdentity) (ttl : Z) : res RpcError RecordBatch :=
  payload ← map_err (fun _ => RpcErr.protocol_error (bs "building TokenIdentity batch: "))
    (try_new token_identity_schema
       [string_column (ti_principal id); string_column (token_name id); array_from (KInt true 64) (TInt true 64) [ttl]]);
  nest_payload payload.

Definition issued_grant_batch (g : IssuedGrant) : res RpcError RecordBatch :=
  payload ← map_err (fun _ => RpcErr.protocol_error (bs "building IssuedGrant batch: "))
    (try_new issued_grant_schema
       [string_column (ig_token g);
        array_from KTimestampMicrosecond (TTimestamp (Some (bs "UTC"))) [expires_at_micros g];
        string_column (ig_grant_id g)]);
  nest_payload payload.

(** [T::read(req.column(name)?, 0)] *)
Definition read_arg (T : Type) `{!VgiArrow T} (req : Request) (name missing : list byte) : res RpcError T :=
  col ← ok_or (RpcErr.type_error missing) (request_column req name); read col 0.

Definition read_token (req : Request) : res RpcError (list byte) :=
  string_val <$> read_arg Utf8String req (bs "token") (bs "introspect_token requires a 'token' parameter").

Definition read_grant_args (req : Request) : res RpcError (list byte * list (list byte) * Z) :=
  purp ← read_arg Utf8String req (bs "purpose") (bs "issue_grant requires a 'purpose' parameter");
  scs ← read_arg (list Utf8String) req (bs "scopes") (bs "issue_grant requires a 'scopes' parameter");
  ttl ← read_arg I64 req (bs "ttl_seconds") (bs "issue_grant requires a 'ttl_seconds' parameter");
  Ok (string_val purp, (string_val <$> scs : list (list byte)), int_val ttl).

(** The closures the two methods are registered with. *)
Definition IdentityHandler : Type :=
  Request → AuthContext → f64 → Entropy → S → res RpcError (option RecordBatch) * S.

Definition introspect_handler (i : IdentityImpl S) : IdentityHandler := fun req auth _ _ s =>
  match read_token req with
  | Ok token =>
    let '(r, s) := introspect_token i token auth s in
    (id ← r; Some <$> token_identity_batch id (ttl_for i id), s)
  | Err e => (Err e, s)
  | Panic => (Panic, s)
  end.

Definition issue_handler (i : IdentityImpl S) : IdentityHandler := fun req auth now e s =>
  match read_grant_args req with
  | Ok (purp, scs, ttl) =>
    let '(r, s) := issue_grant i purp scs ttl auth now e s in
    (g ← r; Some <$> issued_grant_batch g, s)
  | Err e => (Err e, s)
  | Panic => (Panic, s)
  end.

(** [IdentityBinding::new]: the methods hosted, if any. [wrap] makes a server's handler
    of a closure: it supplies the caller, the clock and the store. *)
Definition identity_binding {UH SH : Type} (wrap : IdentityHandler → UH) (i : IdentityImpl S)
  : option (gmap (list byte) (MethodInfo UH SH)) :=
  let offered := offered_methods i in
  if bool_decide (offered = ∅) then None else
  let ms := if bool_decide (INTROSPECT_TOKEN_METHOD ∈ offered)
            then <[INTROSPECT_TOKEN_METHOD := method_unary INTROSPECT_TOKEN_METHOD introspect_token_params_schema
                     identity_result_schema (wrap (introspect_handler i))]> ∅
            else ∅ in
  Some (if bool_decide (ISSUE_GRANT_METHOD ∈ offered)
        then <[ISSUE_GRANT_METHOD := method_unary ISSUE_GRANT_METHOD issue_grant_params_schema
                 identity_result_schema (wrap (issue_handler i))]> ms
        else ms).
End Wire.

(** ** Identity credentials as bearers *)

Definition GRANT_AUTH_DOMAIN : list byte := bs "grant".
Definition TOKEN_AUTH_DOMAIN : list byte := bs "token".
Definition GRANT_SCOPES_CLAIM : list byte := bs "scopes".

Section Bearer.
Context `{!Aead, !Base64, !Json} {S : Type}.

(** [serde_json] on a list of strings *)
Definition scopes_text (scs : list (list byte)) : list byte := json_to_string (JArray (JString <$> scs)).
Definition scopes_of_text (t : list byte) : option (list (list byte)) :=
  match json_from_str t with
  | Some (JArray vs) => mapM as_str vs
  | _ => None
  end.

Definition grant_scopes (auth : AuthContext) : list (list byte) :=
  if negb (bool_decide (domain auth = GRANT_AUTH_DOMAIN)) then [] else
  default [] (claims auth !! GRANT_SCOPES_CLAIM ≫= scopes_of_text).

Definition grant_context (c : GrantClaims) : AuthContext :=
  mkAuthContext GRANT_AUTH_DOMAIN true (Grants.principal c)
    (<[GRANT_SCOPES_CLAIM := scopes_text (scopes c)]> (<[bs "purpose" := purpose c]> {[bs "grant_id" := grant_id c]})).

Definition grant_verdict (keys : GrantKeys) (now : f64) (token : list byte) : res RpcError AuthContext :=
  if negb (starts_with GRANT_TOKEN_PREFIX token) then Ok anonymous else
  match verify_grant_token keys token now with
  | Ok c => Ok (grant_context c)
  | Err invalid => Err (RpcErr.auth_failure (if expired invalid then ExpiredCredential else InvalidCredential)
                          (bs "sealed grant rejected: "))
  | Panic => Panic
  end.

Definition grant_authenticate (keys : GrantKeys) (clock : S → f64) : Authenticate S := fun req s =>
  (tok ← extract_bearer req;
   match tok with None => Ok anonymous | Some token => grant_verdict keys (clock s) token end, s).

Definition token_context (id : TokenIdentity) : AuthContext :=
  mkAuthContext TOKEN_AUTH_DOMAIN true (ti_principal id) {[bs "token_name" := token_name id]}.

Definition lookup_failed (e : RpcError) : RpcError :=
  RpcErr.with_retry_after (default RpcErr.DEFAULT_AUTH_RETRY_AFTER_SECONDS (retry_after_seconds e))
    (RpcErr.auth_unavailable (if RpcErr.is_auth_unavailable e then message e else bs "identity lookup failed")).

(** The credentials the hook never sees. *)
Definition not_resolvable (token : list byte) : bool :=
  starts_with GRANT_TOKEN_PREFIX token || negb (is_ok (reject_jws_shaped token)).

Definition resolve_token_authenticate (resolve : TokenResolver S) : Authenticate S := fun req s =>
  match extract_bearer req with
  | Ok None => (Ok anonymous, s)
  | Ok (Some token) =>
    if not_resolvable token then (Ok anonymous, s) else
    match resolve token s with
    | (Ok (Some id), s) => (Ok (token_context id), s)
    | (Ok None, s) => (Ok anonymous, s)
    | (Err e, s) => (Err (lookup_failed e), s)
    | (Panic, s) => (Panic, s)
    end
  | Err e => (Err e, s)
  | Panic => (Panic, s)
  end.

(** [for member in &members]: the first that authenticates or fails. *)
Fixpoint try_members (members : list (Authenticate S)) (req : AuthRequest) (s : S) : res RpcError (option AuthContext) * S :=
  match members with
  | [] => (Ok None, s)
  | m :: members =>
    match m req s with
    | (Ok ctx, s) => if authenticated ctx then (Ok (Some ctx), s) else try_members members req s
    | (Err e, s) => (Err e, s)
    | (Panic, s) => (Panic, s)
    end
  end.

Definition bearer_not_accepted : RpcError :=
  RpcErr.auth_failure InvalidCredential (bs "bearer credential not accepted").

(** What follows the deployment's callback, with its refusal if it refused. *)
Definition after_deployment (members : list (Authenticate S)) (refusal : option RpcError) (req : AuthRequest) (s : S)
  : res RpcError AuthContext * S :=
  match try_members members req s with
  | (Ok (Some ctx), s) => (Ok ctx, s)
  | (Ok None, s) =>
    (match refusal with
     | Some e => Err e
     | None => if bool_decide (is_Some (header req (bs "authorization"))) then Err bearer_not_accepted else Ok anonymous
     end, s)
  | (Err e, s) => (Err e, s)
  | (Panic, s) => (Panic, s)
  end.

Definition compose_identity_authenticate (deployment : option (Authenticate S)) (keys : option GrantKeys)
    (resolver : option (TokenResolver S)) (clock : S → f64) : option (Authenticate S) :=
  let members := match keys with Some k => [grant_authenticate k clock] | None => [] end ++
                 match resolver with Some r => [resolve_token_authenticate r] | None => [] end in
  match members with
  | [] => deployment
  | _ => Some (fun req s =>
    match deployment with
    | None => after_deployment members None req s
    | Some first =>
      match first req s with
      | (Ok ctx, s) => if authenticated ctx then (Ok ctx, s) else after_deployment members None req s
      | (Err e, s) => if RpcErr.is_auth_unavailable e then (Err e, s) else after_deployment members (Some e) req s
      | (Panic, s) => (Panic, s)
      end
    end)
  end.
End Bearer.
