(* ===== verification/TokenIdentityProps.v ===== *)
(** * Properties of the identity protocol

    The order of the guards and what a refused caller can learn, the freshness of a
    mint to the tick, and that an identity credential can never mint: neither a grant
    nor a resolved credential carries [auth_time]. Then the loop: a grant minted
    through [issue_grant] is accepted as a bearer for the principal who asked. *)

From S2P Require Import Prelude Bytes F64 Json ErrorModel Errors Crypto Auth Grants GrantsProps ArrowType Dispatch TokenIdentity.

#[local] Open Scope Z_scope.

(** ** Reading seconds *)
Lemma f64_ratio_one p : 0 ≤ p → f64_ratio p 1 = f64_round p.
Proof.
  intros Hp. unfold f64_ratio, f64_round. rewrite Z.div_1_r, Z.abs_eq by done.
  destruct (Z.ltb_spec p (2 ^ 53)) as [Hs|Hs].
  - assert (Z.max 0 (Z.log2 p - 52) = 0) as ->.
    { destruct (decide (p = 0)) as [->|]; [done|].
      assert (Z.log2 p < 53) by (apply Z.log2_lt_pow2; lia). lia. }
    cbn [Z.pow]. rewrite Z.mul_1_r, Z.mod_1_r, Z.div_1_r. cbn. by rewrite Z.mul_1_r.
  - assert (53 ≤ Z.log2 p) by (apply Z.log2_le_pow2; lia). rewrite Z.max_r by lia.
    unfold round_at. by rewrite Z.mul_1_l.
Qed.

Lemma split_once_None c l : c ∉ l → split_once c l = None.
Proof.
  induction l as [|b l IH]; [done|]. intros Hc. cbn [split_once]. apply not_elem_of_cons in Hc as [Hb Hc].
  rewrite decide_False by done. by rewrite IH.
Qed.

Lemma digits_lower l : Forall (fun b => is_ascii_digit b = true) l → to_ascii_lowercase <$> l = l.
Proof.
  induction 1 as [|b l Hb _ IH]; [done|]. cbn [fmap list_fmap]. f_equal; [|exact IH].
  unfold is_ascii_digit in Hb. by destruct b.
Qed.

Lemma digit_not c l : is_ascii_digit c = false → Forall (fun b => is_ascii_digit b = true) l → c ∉ l.
Proof. intros Hc HF Hin. rewrite list.Forall_forall in HF. specialize (HF c Hin). congruence. Qed.

Lemma digits_forallb l : Forall (fun b => is_ascii_digit b = true) l → forallb is_ascii_digit l = true.
Proof. induction 1; [done|]. cbn. by apply andb_true_iff. Qed.

Lemma parse_f64_seconds n : 0 ≤ n < 2 ^ 53 → parse_f64 (dec_unsigned n) = Some (Some (f64_of_i64 n)).
Proof.
  intros Hn. pose proof (dec_unsigned_digits n ltac:(lia)) as HF. pose proof (radix_value_dec n ltac:(lia)) as Hv.
  unfold parse_f64.
  assert (dec_unsigned n ≠ []) as Hne.
  { destruct (dec_unsigned_cons n ltac:(lia)) as (d & ds & -> & _). done. }
  assert (strip_sign (dec_unsigned n) = (false, dec_unsigned n)) as ->.
  { destruct (dec_unsigned n) as [|b l]; [done|]. apply list.Forall_cons in HF as [Hb _]. by destruct b. }
  rewrite digits_lower by done.
  assert (∀ w, existsb (fun b => negb (is_ascii_digit b)) w = true → dec_unsigned n ≠ w) as Hw.
  { intros w Hw <-. apply existsb_exists in Hw as (b & Hin & Hb). apply list_elem_of_In in Hin.
    rewrite list.Forall_forall in HF. rewrite HF in Hb by done. done. }
  rewrite !bool_decide_eq_false_2 by (by apply Hw). cbn [orb].
  rewrite split_once_None by (by apply (digit_not x65)). unfold parse_mantissa.
  rewrite split_once_None by (by apply (digit_not x2e)). rewrite app_nil_r.
  rewrite bool_decide_eq_false_2 by done. rewrite digits_forallb by done. cbn [negb orb].
  rewrite Hv. cbn [mbind option_bind fmap option_fmap option_map]. f_equal. f_equal.
  unfold f64_decimal. change (0 - zlen (@nil byte)) with 0. cbn [Z.max Z.opp Z.pow Z.compare].
  change (10 ^ 0) with 1. rewrite Z.mul_1_r.
  rewrite f64_ratio_one by (apply Z.mul_nonneg_nonneg; [lia|by apply Z.pow_nonneg]). fold (f64_of_i64 n).
  rewrite f64_of_i64_ticks by lia. unfold f64_ticks.
  destruct (Z.ltb_spec (n * 2 ^ 22 * 2 ^ 1052) (2 ^ 2098)) as [|Hge]; [done|]. exfalso.
  assert (2 ^ 53 * 2 ^ 22 * 2 ^ 1052 ≤ 2 ^ 2098) by (rewrite <- !Z.pow_add_r by lia; apply Z.pow_le_mono_r; lia).
  assert (0 < 2 ^ 1052) by (by apply Z.pow_pos_nonneg). nia.
Qed.

(** ** The guards *)
Section Guards.
Context `{Aead} `{Base64} {S : Type}.
Implicit Types (i : IdentityImpl S) (auth : AuthContext) (token : list byte) (s : S).

(** Who may introspect, and what may be looked up. *)
Definition introspector i auth : bool := authenticated auth && bool_decide (Auth.principal auth ∈ principals i).
Definition resolvable token : bool :=
  negb (bool_decide (trim token = [])) && (zlen token <=? MAX_TOKEN_BYTES) && negb (is_jws_shaped (trim token)).

Lemma check_introspector_spec i auth :
  check_introspector auth (principals i) =
    if introspector i auth then Ok (Auth.principal auth) else Err (introspection_refused (bs "caller is not an introspector")).
Proof. unfold check_introspector, introspector. by destruct (authenticated auth), (bool_decide _). Qed.

Lemma reject_jws_shaped_spec token :
  reject_jws_shaped token = if resolvable token then Ok tt else Err token_unresolved.
Proof.
  unfold reject_jws_shaped, resolvable. rewrite Z.ltb_antisym.
  by destruct (bool_decide _), (zlen token <=? MAX_TOKEN_BYTES), (is_jws_shaped _).
Qed.

Lemma introspect_refused i token auth s :
  introspector i auth = false → ∃ d, introspect_token i token auth s = (Err (introspection_refused d), s) ∧
    ∀ token', introspect_token i token' auth s = (Err (introspection_refused d), s).
Proof.
  intros Hi. unfold introspect_token. destruct (resolve_token i); [|by eexists].
  rewrite check_introspector_spec, Hi. by eexists.
Qed.

Lemma introspect_asks i token auth s resolve :
  resolve_token i = Some resolve → introspector i auth = true →
  introspect_token i token auth s =
    if resolvable token then
      match resolve token s with
      | (Ok (Some id), s) => (Ok id, s)
      | (Ok None, s) => (Err token_unresolved, s)
      | (Err e, s) => (Err (as_unavailable e), s)
      | (Panic, s) => (Panic, s)
      end
    else (Err token_unresolved, s).
Proof.
  intros Hr Hi. unfold introspect_token. rewrite Hr, check_introspector_spec, Hi. cbn [mbind res_bind].
  rewrite reject_jws_shaped_spec. by destruct (resolvable token).
Qed.

(** C32. Introspection is no oracle. A caller that is not an authenticated principal of
    the allowlist gets one answer whatever the credential, and the hook does not run. For
    a caller who may ask, the hook runs exactly on the credentials that are not blank,
    not over 4096 bytes and, once trimmed, not JWS-shaped, and gets them as sent; a
    credential the hook does not know and one it never saw get the same answer; and a
    failure of the hook is the transient error, with the hook's own retry hint where it
    gave one, and never the definitive answer. *)
Theorem introspection_closed i auth s resolve :
  resolve_token i = Some resolve →
  (introspector i auth = false →
     ∃ answer, error_kind answer = Some (bs "introspection_refused") ∧
       ∀ token, introspect_token i token auth s = (Err answer, s)) ∧
  (introspector i auth = true → ∀ token,
     (resolvable token = false → introspect_token i token auth s = (Err token_unresolved, s)) ∧
     (resolvable token = true →
        (introspect_token i token auth s).2 = (resolve token s).2 ∧
        match (resolve token s).1 with
        | Ok (Some id) => (introspect_token i token auth s).1 = Ok id
        | Ok None => (introspect_token i token auth s).1 = Err token_unresolved
        | Err e => ∃ e', (introspect_token i token auth s).1 = Err e' ∧ RpcErr.is_auth_unavailable e' = true ∧
            error_kind e' = Some (bs "identity_unavailable") ∧
            retry_after_seconds e' = Some (default 5 (retry_after_seconds e))
        | Panic => (introspect_token i token auth s).1 = Panic
        end)).
Proof.
  intros Hr. split.
  - intros Hi. unfold introspect_token. rewrite Hr, check_introspector_spec, Hi. exists (introspection_refused (bs "caller is not an introspector")). by split.
  - intros Hi token. rewrite (introspect_asks i token auth s resolve Hr Hi). split; intros ->; [done|].
    destruct (resolve token s) as [[[id|]|e|] s']; cbn [fst snd]; split; try done.
    exists (as_unavailable e). split_and!; [done|by apply bool_decide_eq_true_2|done..].
Qed.

(** ** Freshness *)
Lemma fresh_at auth max now n :
  claims auth !! bs "auth_time" = Some (dec_unsigned n) → 0 ≤ n < 2 ^ 53 →
  authenticated auth = true → Auth.principal auth ≠ [] →
  check_freshness_at auth max now =
    if f64_gtb (f64_add now (- f64_of_i64 n)) max then Err (stale_auth (bs "last authentication was ")) else Ok (f64_of_i64 n).
Proof.
  intros Hc Hn Ha Hp. unfold check_freshness_at. rewrite Ha, bool_decide_eq_false_2 by done. cbn [negb orb].
  rewrite Hc. cbn [ok_or mbind res_bind].
  rewrite trim_graphic; [by rewrite parse_f64_seconds by done|].
  eapply list.Forall_impl; [apply dec_unsigned_digits; lia|]. intros b. unfold is_ascii_digit, graphic, in_range.
  rewrite !andb_true_iff, !Z.leb_le. lia.
Qed.

(** The window of a mint, to the clock's tick of 2^-22 s: for a caller who
    authenticated at second [n], the freshness guard passes exactly until the configured
    age after it, in double precision as in exact arithmetic; so a caller who may mint
    authenticated within the age, or carries an [auth_time] ahead of this clock. *)
Theorem fresh_exactly auth n t age :
  claims auth !! bs "auth_time" = Some (dec_unsigned n) → authenticated auth = true → Auth.principal auth ≠ [] →
  0 ≤ n < 2 ^ 31 → 0 ≤ t < 2 ^ 53 →
  is_ok (check_freshness_at auth (f64_ticks age) (f64_ticks t)) = (t - n * 2 ^ 22 <=? age).
Proof.
  intros Hc Ha Hp Hn Ht. rewrite (fresh_at _ _ _ n) by (done || lia).
  rewrite f64_of_i64_ticks by lia.
  replace (- f64_ticks (n * 2 ^ 22)) with (f64_ticks (- (n * 2 ^ 22))) by (unfold f64_ticks; lia).
  rewrite f64_add_ticks by lia. rewrite f64_gtb_ticks. rewrite Z.leb_antisym.
  replace (t + - (n * 2 ^ 22)) with (t - n * 2 ^ 22) by lia. by destruct (age <? t - n * 2 ^ 22).
Qed.

Lemma no_auth_time auth max now : claims auth !! bs "auth_time" = None → ∃ d, check_freshness_at auth max now = Err (stale_auth d).
Proof. intros Hc. unfold check_freshness_at. rewrite Hc. case_match; by eexists. Qed.
End Guards.

(** ** Bearers *)
Section Loop.
Context `{!Aead, !Base64, !Json} {S : Type}.
Implicit Types (req : AuthRequest) (s : S).

Lemma grant_context_claims c : claims (grant_context c) !! bs "auth_time" = None.
Proof. cbn [claims grant_context]. by rewrite !lookup_insert_ne, lookup_singleton_ne. Qed.
Lemma token_context_claims id : claims (token_context id) !! bs "auth_time" = None.
Proof. cbn [claims token_context]. by rewrite lookup_singleton_ne. Qed.

Lemma grant_verdict_ok k now token ctx :
  grant_verdict k now token = Ok ctx → ctx = anonymous ∨ ∃ c, ctx = grant_context c.
Proof. unfold grant_verdict. repeat case_match; naive_solver. Qed.

Lemma grant_authenticate_ok k clock req s ctx s' :
  grant_authenticate k clock req s = (Ok ctx, s') → authenticated ctx = true → ∃ c, ctx = grant_context c.
Proof.
  unfold grant_authenticate. intros [= E _] Ha. apply bind_Ok in E as ([tok|] & _ & E).
  - by destruct (grant_verdict_ok _ _ _ _ E) as [->|].
  - by injection E as <-.
Qed.

Lemma resolve_authenticate_ok r req s ctx s' :
  resolve_token_authenticate r req s = (Ok ctx, s') → authenticated ctx = true → ∃ id, ctx = token_context id.
Proof.
  unfold resolve_token_authenticate. intros E Ha. destruct (extract_bearer req) as [[token|]|?|]; [|by injection E as <- _|done..].
  destruct (not_resolvable token); [by injection E as <- _|].
  destruct (r token s) as [[[id|]|?|] ?]; try done; injection E as <- _; [by eexists|done].
Qed.

Lemma try_members_ok (members : list (Authenticate S)) req s ctx s' :
  try_members members req s = (Ok (Some ctx), s') →
  authenticated ctx = true ∧ ∃ m s0, m ∈ members ∧ m req s0 = (Ok ctx, s').
Proof.
  revert s. induction members as [|m ms IH]; intros s E; [done|]. cbn [try_members] in E.
  destruct (m req s) as [[c|?|] s1] eqn:Em; [|done..]. destruct (authenticated c) eqn:Ec.
  - injection E as <- <-. split; [done|]. exists m, s. split; [left|done].
  - destruct (IH s1 E) as (Ha & m' & s0 & Hm & E'). split; [done|]. exists m', s0. split; [by right|done].
Qed.

(** C31. Grants never mint grants. Whoever the composed callback authenticates, it was
    either the deployment's own callback that did, or the caller holds an identity
    credential, and then no implementation of the protocol, hook, age or clock lets that
    caller mint: the refusal is definitive and the mint hook does not run. *)
Theorem identity_bearers_cannot_mint deployment keys resolver clock f req s ctx s' :
  compose_identity_authenticate deployment keys resolver clock = Some f → f req s = (Ok ctx, s') →
  authenticated ctx = true →
  (∃ d, deployment = Some d ∧ ∃ s0, d req s0 = (Ok ctx, s')) ∨
  ∀ (i : IdentityImpl S) purp scs ttl t e s1,
    mint_grant i ≠ None → ∃ d, issue_grant i purp scs ttl ctx t e s1 = (Err (stale_auth d), s1).
Proof.
  intros Hf E Ha.
  assert ((∃ d, deployment = Some d ∧ ∃ s0, d req s0 = (Ok ctx, s')) ∨ claims ctx !! bs "auth_time" = None) as [?|Hc].
  2: by left.
  2: { right. intros i purp scs ttl t e s1 Hm. unfold issue_grant. destruct (mint_grant i); [|done].
       destruct (no_auth_time ctx (max_auth_age i) t Hc) as [d ->]. by eexists. }
  unfold compose_identity_authenticate in Hf.
  set (members := _ ++ _) in Hf.
  assert (∀ refusal s0, after_deployment members refusal req s0 = (Ok ctx, s') → claims ctx !! bs "auth_time" = None) as Hafter.
  { intros refusal s0 E0. unfold after_deployment in E0.
    destruct (try_members members req s0) as [[[c|]|?|] s1] eqn:Et; [| |done..].
    - injection E0 as <- <-. apply try_members_ok in Et as (_ & m & s2 & Hm & Em).
      subst members. apply elem_of_app in Hm as [Hm|Hm].
      + destruct keys as [k|]; [|by apply not_elem_of_nil in Hm]. apply list_elem_of_singleton in Hm as ->.
        apply grant_authenticate_ok in Em as [g ->]; [|done]. apply grant_context_claims.
      + destruct resolver as [r|]; [|by apply not_elem_of_nil in Hm]. apply list_elem_of_singleton in Hm as ->.
        apply resolve_authenticate_ok in Em as [id ->]; [|done]. apply token_context_claims.
    - destruct refusal; [done|]. case_bool_decide; [done|]. by injection E0 as <- _. }
  destruct members as [|m ms] eqn:Em.
  - left. exists f. split; [done|]. by exists s.
  - injection Hf as <-. destruct deployment as [d|]; [|right; by eapply Hafter].
    destruct (d req s) as [[c|er|] s1] eqn:Ed; [| |done].
    + destruct (authenticated c); [|right; by eapply Hafter]. injection E as <- <-. left. exists d. split; [done|]. by exists s.
    + destruct (RpcErr.is_auth_unavailable er); [done|]. right. by eapply Hafter.
Qed.
End Loop.

(** ** The loop *)
Section GrantLoop.
Context `{!Aead, !AeadLaws, !Base64, !Base64Laws, !Json, !JsonLaws} {S : Type}.
Implicit Types (req : AuthRequest) (s : S).

(** The deployment's own callback lets the request through, and leaves the state. *)
Definition passes (deployment : option (Authenticate S)) req s s' : Prop :=
  match deployment with
  | None => s' = s
  | Some d => (∃ ctx, d req s = (Ok ctx, s') ∧ authenticated ctx = false) ∨
              (∃ e, d req s = (Err e, s') ∧ RpcErr.is_auth_unavailable e = false)
  end.

Lemma compose_passed deployment k resolver clock req s s' token :
  passes deployment req s s' → extract_bearer req = Ok (Some token) → starts_with GRANT_TOKEN_PREFIX token = true →
  ∃ f, compose_identity_authenticate deployment (Some k) resolver clock = Some f ∧
    (∀ ctx, grant_verdict k (clock s') token = Ok ctx → authenticated ctx = true → f req s = (Ok ctx, s')) ∧
    (∀ e, grant_verdict k (clock s') token = Err e → f req s = (Err e, s')).
Proof.
  intros Hp Hx Hg. eexists. split; [done|]. cbv beta.
  set (members := (_ ++ _)).
  assert (∀ refusal ctx, grant_verdict k (clock s') token = Ok ctx → authenticated ctx = true →
            after_deployment members refusal req s' = (Ok ctx, s')) as HO.
  { intros refusal ctx E Ha. unfold after_deployment, members. cbn [app try_members].
    unfold grant_authenticate. rewrite Hx. cbn [mbind res_bind]. by rewrite E, Ha. }
  assert (∀ refusal e, grant_verdict k (clock s') token = Err e → after_deployment members refusal req s' = (Err e, s')) as HE.
  { intros refusal e E. unfold after_deployment, members. cbn [app try_members].
    unfold grant_authenticate. rewrite Hx. cbn [mbind res_bind]. by rewrite E. }
  destruct deployment as [d|]; cbn [passes] in Hp; [|subst s'; split; eauto].
  destruct Hp as [(c & Ed & Hc)|(e0 & Ed & Hc)]; rewrite Ed, Hc; split; eauto.
Qed.

Lemma scopes_text_roundtrip scs : Forall (fun v => utf8_valid v = true) scs → scopes_of_text (scopes_text scs) = Some scs.
Proof.
  intros HF. unfold scopes_of_text, scopes_text. rewrite json_roundtrip.
  - clear. induction scs as [|v scs IH]; [done|]. cbn [fmap list_fmap]. change (mapM as_str (JString v :: ?l)) with
      (y ← Some v; ys ← mapM as_str l; Some (y :: ys)). cbn [mbind option_bind]. by rewrite IH.
  - cbn [text_safe JSON_DEPTH]. induction HF as [|v scs Hv _ IH]; [done|]. cbn. by rewrite Hv.
Qed.

Lemma grant_scopes_context c : Forall (fun v => utf8_valid v = true) (scopes c) → grant_scopes (grant_context c) = scopes c.
Proof.
  intros HF. unfold grant_scopes. cbn [domain grant_context]. rewrite bool_decide_eq_true_2 by done. cbn [negb claims grant_context].
  rewrite lookup_insert_eq. cbn [mbind option_bind]. by rewrite scopes_text_roundtrip.
Qed.

(** What a mint without overrides puts into the token. *)
Lemma sealed_mint_claims k0 prin purp scs ttl e tok exp gid u :
  sealed_mint_grant k0 prin purp scs ttl e = Ok (tok, exp, gid) → unix_now e = f64_ticks u → 0 ≤ u → 0 < max_ttl_seconds k0 →
  (u / 2 ^ 22 + Z.min ttl (max_ttl_seconds k0)) * 2 ^ 22 < 2 ^ 53 →
  ∃ c, mint_grant_token k0 prin scs purp ttl (mkMintOverrides None None None) e = Ok (tok, c) ∧
    c = mkGrantClaims prin scs purp (random_grant_id e) (u / 2 ^ 22) (u / 2 ^ 22 + Z.min ttl (max_ttl_seconds k0)) ∧ 0 < ttl.
Proof.
  intros E Hu Hu0 Hmax Hb. unfold sealed_mint_grant in E. destruct (Z.leb_spec ttl 0); [done|].
  destruct (mint_grant_token k0 prin scs purp ttl _ e) as [[tok' c]|?|] eqn:Em; [|done..].
  injection E as <- _ _. exists c. split; [done|]. split; [|lia].
  unfold mint_grant_token in Em. destruct (Z.leb_spec ttl 0); [done|]. cbn [ov_now ov_grant_id ov_nonce default] in Em.
  assert (f64_to_i64 (unix_now e) = u / 2 ^ 22) as Ei.
  { rewrite Hu. unfold f64_to_i64, f64_ticks. 
    rewrite Z.quot_div_nonneg; [|apply Z.mul_nonneg_nonneg; [lia|by apply Z.pow_nonneg]|by apply Z.pow_pos_nonneg].
    replace (2 ^ 1074) with (2 ^ 22 * 2 ^ 1052) by (by rewrite <- Z.pow_add_r).
    rewrite Z.div_mul_cancel_r by (by apply Z.pow_nonzero).
    assert (0 ≤ u / 2 ^ 22) by (by apply Z.div_pos). unfold i64_saturate. ints.
    assert (u / 2 ^ 22 < 2 ^ 53) by lia. lia. }
  rewrite Ei in Em. apply bind_Ok in Em as (ex & Hex & Em). unfold i64_check in Hex.
  destruct ((i64_min <=? _) && _); [|done]. injection Hex as <-.
  apply bind_Ok in Em as (key & _ & Em). apply bind_Ok in Em as (payload & _ & Em). by injection Em as _ <-.
Qed.

Lemma grant_id_wf e : zlen (random_id e) = 16 → text_wf (random_grant_id e).
Proof.
  intros Hl. change (random_grant_id e) with (bytes_to_hex (random_id e)). split.
  - rewrite zlen_bytes_to_hex, Hl. done.
  - apply utf8_valid_ascii, bytes_to_hex_ascii.
Qed.

(** C30. The loop closes: a grant that [issue_grant] mints with the framework's own
    minter, presented as a bearer to a server with a configuration that keeps the key,
    the audience and the lifetime, authenticates exactly the caller it was issued to,
    with the scopes, the purpose and the id it was issued with, from its second of issue
    until its expiry (give or take the configured skew) and is an expired credential
    outside; whatever the deployment's own callback refused, and without asking the
    worker's resolver. *)
Theorem issued_grant_accepted b (i : IdentityImpl S) key ks0 aud ttl_max0 skew0 k0 ks ttl_max skew k
    purp scs ttl auth now e u s0 g s1 req deployment resolver clock s s' t :
  identity_build b = Ok i → ib_mint_grant b = None → ib_grant_keys b = Some k0 →
  grant_keys_new (key :: ks0) aud ttl_max0 skew0 = Ok k0 →
  grant_keys_new ks aud ttl_max skew = Ok k → key ∈ ks → ttl_max0 ≤ ttl_max →
  issue_grant i purp scs ttl auth now e s0 = (Ok g, s1) →
  unix_now e = f64_ticks u → 0 ≤ u → zlen (random_id e) = 16 → zlen (random_nonce e) = NONCE_LEN →
  text_wf (Auth.principal auth) → text_wf purp → zlen scs ≤ MAX_FIELD → Forall text_wf scs →
  zlen (ig_token g) ≤ MAX_GRANT_TOKEN_CHARS →
  (u / 2 ^ 22 + Z.min ttl ttl_max0 + skew) * 2 ^ 22 < 2 ^ 53 → 0 ≤ t → t + skew * 2 ^ 22 < 2 ^ 53 →
  extract_bearer req = Ok (Some (ig_token g)) → passes deployment req s s' → clock s' = f64_ticks t →
  let expiry := u / 2 ^ 22 + Z.min ttl ttl_max0 in
  ∃ f, compose_identity_authenticate deployment (Some k) resolver clock = Some f ∧
  if (t + skew * 2 ^ 22 <? u / 2 ^ 22 * 2 ^ 22) || ((expiry + skew) * 2 ^ 22 <=? t)
  then ∃ err, f req s = (Err err, s') ∧ auth_reason err = Some ExpiredCredential
  else ∃ ctx, f req s = (Ok ctx, s') ∧ authenticated ctx = true ∧ domain ctx = GRANT_AUTH_DOMAIN ∧
    Auth.principal ctx = Auth.principal auth ∧ grant_scopes ctx = scs ∧
    claims ctx !! bs "purpose" = Some purp ∧ claims ctx !! bs "grant_id" = Some (ig_grant_id g).
Proof.
  intros Hb Hmn Hgk Hk0 Hk Hin Htt Hi Hu Hu0 Hrid Hrn Hpw Hpu Hns Hsw Hlen Hbd Ht Hts Hx Hp Hclk expiry.
  unfold identity_build in Hb. apply bind_Ok in Hb as (ps & _ & Hb). rewrite Hmn, Hgk in Hb. injection Hb as <-.
  unfold issue_grant in Hi. cbn [mint_grant fmap option_fmap option_map] in Hi.
  destruct (check_freshness_at auth _ now) as [at_|?|] eqn:Ef; [|done..].
  assert (Auth.principal auth ≠ []) as Hne.
  { intros E. unfold check_freshness_at in Ef. rewrite E in Ef. rewrite orb_comm in Ef. done. }
  unfold sealed_minter in Hi. destruct (sealed_mint_grant k0 _ purp scs ttl e) as [[[tok ex] gid]|?|] eqn:Es; [|done..].
  cbn in Hi. injection Hi as <- <-. cbn [ig_token ig_grant_id] in *.
  pose proof Hk0 as Hk0'. apply grant_keys_new_ok in Hk0' as (Ek0 & _ & _ & _ & Hm0 & _).
  assert (max_ttl_seconds k0 = ttl_max0) as Em by (by rewrite Ek0).
  assert (0 ≤ skew) as Hsk by (apply grant_keys_new_ok in Hk; naive_solver lia).
  destruct (sealed_mint_claims _ _ _ _ _ _ _ _ _ u Es Hu Hu0) as (c & Hmint & Ec & Httl); [rewrite Em; lia..|].
  assert (gid = random_grant_id e) as Egid.
  { unfold sealed_mint_grant in Es. destruct (ttl <=? 0); [done|]. rewrite Hmint in Es. injection Es as _ <-. by rewrite Ec. }
  rewrite Em in Ec.
  assert (0 ≤ u / 2 ^ 22) as Hiss by (by apply Z.div_pos).
  assert (claims_wf c) as Hcw.
  { rewrite Ec. unfold claims_wf. cbn [issued_at expires_at grant_id Grants.principal purpose scopes].
    split_and!; try done; [ints; lia..|by apply grant_id_wf]. }
  pose proof (mint_verifies _ _ _ _ _ _ _ _ _ _ _ _ _ _ _ _ _ _ t Hk0 Hk Hin Htt Hmint Hlen Hrn Hcw Hne) as Hv.
  rewrite Ec in Hv. cbn [issued_at expires_at] in Hv. specialize (Hv Hiss ltac:(lia) Ht Hts).
  assert (starts_with GRANT_TOKEN_PREFIX tok = true) as Hpre.
  { pose proof Hk0 as Hk0''. rewrite Ek0 in Hmint. eapply mint_ok in Hmint as (pl & _ & -> & _); [|done].
    unfold starts_with, grant_token. rewrite strip_prefix_app. by apply bool_decide_eq_true_2. }
  destruct (compose_passed deployment k resolver clock req s s' tok Hp Hx Hpre) as (f & Hf & HO & HE).
  exists f. split; [done|]. unfold grant_verdict in HO, HE. rewrite Hclk in HO, HE. rewrite Hpre in HO, HE. cbn [negb] in HO, HE. rewrite Hv in HO, HE.
  fold expiry in HO, HE. destruct (t + skew * 2 ^ 22 <? u / 2 ^ 22 * 2 ^ 22); cbn [orb].
  { eexists. split; [by apply HE|done]. }
  destruct ((expiry + skew) * 2 ^ 22 <=? t); [eexists; split; [by apply HE|done]|].
  eexists. split; [by apply HO|]. split_and!; try done.
  - apply grant_scopes_context. cbn [scopes]. eapply list.Forall_impl; [exact Hsw|]. by intros ? [].
  - rewrite Egid. cbn [claims grant_context grant_id]. rewrite !lookup_insert_ne by done. apply lookup_singleton_eq.
Qed.
End GrantLoop.
