(* ===== verification/Envelope.v ===== *)
(** * Log and error envelopes

    A log message or an error travels as the custom metadata of a zero-row batch.
    The server half is [vgi-rpc/src/log.rs] and [EnvelopeMeta] of [server.rs], one
    metadata map reused for every envelope of a call; the client half is
    [vgi-rpc-client/src/envelope.rs]. *)

From S2P Require Import Prelude Bytes Metadata F64 Json ErrorModel Errors Ipc IpcWriter ShmBatch Dispatch.


(** ** Log messages *)
Inductive LogLevel := Trace | Debug | Info | Warn | Error | Exception.

#[global] Instance LogLevel_eq_dec : EqDecision LogLevel.
Proof. solve_decision. Defined.

Definition level_as_str (l : LogLevel) : list byte :=
  match l with
  | Trace => bs "TRACE" | Debug => bs "DEBUG" | Info => bs "INFO"
  | Warn => bs "WARN" | Error => bs "ERROR" | Exception => bs "EXCEPTION"
  end.

Record LogMessage := mkLogMessage {
  level : LogLevel;
  log_message : list byte;
  extras : list (list byte * list byte)
}.

#[global] Instance LogMessage_eq_dec : EqDecision LogMessage.
Proof. solve_decision. Defined.

Definition log_new (l : LogLevel) (m : list byte) : LogMessage := mkLogMessage l m [].
Definition with_extra (k v : list byte) (m : LogMessage) : LogMessage :=
  mkLogMessage (level m) (log_message m) (extras m ++ [(k, v)]).

Definition string_map (kvs : list (list byte * list byte)) : Map :=
  jobject ((fun kv => (kv.1, JString kv.2)) <$> kvs).

Section Envelope.
Context `{Json}.

Definition extras_json (m : LogMessage) : list byte := json_to_string (JObject (string_map (extras m))).

(** ** [EnvelopeMeta] *)
Record EnvelopeMeta := mkEnvelope {
  env_server_id : list byte;
  env_request_id : list byte;
  tracebacks : option (list byte);
  env_md : option Metadata
}.

Definition envelope_new (server_id request_id : list byte) (tb : option (list byte)) : EnvelopeMeta :=
  mkEnvelope server_id request_id tb None.

(** [map]: the reused map, allocated with the id entries on first use. *)
Definition envelope_map (e : EnvelopeMeta) : Metadata :=
  match env_md e with
  | Some md => md
  | None =>
    let md : Metadata := ∅ in
    let md := if bool_decide (env_server_id e = []) then md else <[SERVER_ID_KEY := env_server_id e]> md in
    if bool_decide (env_request_id e = []) then md else <[REQUEST_ID_KEY := env_request_id e]> md
  end.

Definition with_md (e : EnvelopeMeta) (md : Metadata) : EnvelopeMeta :=
  mkEnvelope (env_server_id e) (env_request_id e) (tracebacks e) (Some md).

Definition envelope_set (key val : list byte) (e : EnvelopeMeta) : EnvelopeMeta :=
  with_md e (<[key := val]> (envelope_map e)).
Definition envelope_clear (key : list byte) (e : EnvelopeMeta) : EnvelopeMeta :=
  with_md e (delete key (envelope_map e)).

Definition envelope_log (msg : LogMessage) (e : EnvelopeMeta) : EnvelopeMeta :=
  let e := envelope_set LOG_LEVEL_KEY (level_as_str (level msg)) e in
  let e := envelope_set LOG_MESSAGE_KEY (log_message msg) e in
  let e := if bool_decide (extras msg = []) then envelope_clear LOG_EXTRA_KEY e
           else envelope_set LOG_EXTRA_KEY (extras_json msg) e in
  let e := envelope_clear ERROR_KIND_KEY e in
  let e := envelope_clear ERROR_CODE_KEY e in
  envelope_clear ERROR_DETAILS_KEY e.

(** The traceback of an error: its own, or one line naming its origin. *)
Definition render_traceback (origin : list byte) (err : RpcError) : list byte :=
  if negb (bool_decide (traceback err = [])) then traceback err else
  let line := error_type err ++ bs ": " ++ message err in
  if bool_decide (origin = []) then line else line ++ x0a :: bs "  raised by " ++ origin.

(** The [log_extra] object of an error, as the source inserts its entries. *)
Definition error_extra (tb : option (list byte)) (err : RpcError) : Map :=
  let extra := jobject [(bs "exception_type", JString (error_type err));
                        (bs "exception_message", JString (message err));
                        (bs "error_code", JString (RpcErr.wire_code err))] in
  let extra := match error_kind err with Some k => jinsert (bs "error_kind") (JString k) extra | None => extra end in
  let extra := match encode_error_details (RpcErr.wire_details err) with
               | Some _ => jinsert (bs "error_details") (JArray (RpcErr.wire_details err)) extra
               | None => extra end in
  match tb with
  | Some origin => jinsert (bs "traceback") (JString (render_traceback origin err)) extra
  | None => extra
  end.

Definition envelope_error (err : RpcError) (e : EnvelopeMeta) : EnvelopeMeta :=
  let encoded := encode_error_details (RpcErr.wire_details err) in
  let extra := error_extra (tracebacks e) err in
  let e := envelope_set LOG_LEVEL_KEY (bs "EXCEPTION") e in
  let e := envelope_set LOG_MESSAGE_KEY (message err) e in
  let e := envelope_set LOG_EXTRA_KEY (json_to_string (JObject extra)) e in
  let e := envelope_set ERROR_CODE_KEY (RpcErr.wire_code err) e in
  let e := match error_kind err with
           | Some kind => envelope_set ERROR_KIND_KEY kind e
           | None => envelope_clear ERROR_KIND_KEY e end in
  match encoded with
  | Some text => envelope_set ERROR_DETAILS_KEY text e
  | None => envelope_clear ERROR_DETAILS_KEY e
  end.

(** [md.as_ref().unwrap()]: the map an envelope call returns. *)
Definition envelope_metadata (e : EnvelopeMeta) : Metadata := default ∅ (env_md e).

Definition build_log_metadata (msg : LogMessage) (server_id request_id : list byte) : Metadata :=
  envelope_metadata (envelope_log msg (envelope_new server_id request_id None)).

Definition build_envelope_metadata (server_id request_id : list byte) : Metadata :=
  envelope_metadata (envelope_new server_id request_id None).

Definition build_error_metadata (err : RpcError) (server_id request_id : list byte)
    (tb : option (list byte)) : Metadata :=
  envelope_metadata (envelope_error err (envelope_new server_id request_id tb)).

(** ** The client *)
Inductive BatchKind :=
| KData
| KPointer
| KLog (m : LogMessage)
| KException (e : RpcError).

Definition parse_level (s : list byte) : LogLevel :=
  if decide (s = bs "TRACE") then Trace else if decide (s = bs "DEBUG") then Debug
  else if decide (s = bs "INFO") then Info else if decide (s = bs "WARN") then Warn
  else if decide (s = bs "ERROR") then Error else if decide (s = bs "EXCEPTION") then Exception
  else Info.

(** [extra_json] parsed to an object, where it is one. *)
Definition extra_object (extra_json : option (list byte)) : option Map :=
  j ← extra_json; v ← json_from_str j; as_object v.

Definition parse_exception_extra (extra_json : option (list byte)) : list byte * list byte :=
  match extra_object extra_json with
  | Some m =>
    (match jget (bs "exception_type") m with Some (JString t) => t | _ => bs "Exception" end,
     match jget (bs "traceback") m with Some (JString t) => t | _ => [] end)
  | None => (bs "Exception", [])
  end.

Definition mirror_str (extra : option Map) (key : list byte) : list byte :=
  default [] (m ← extra; v ← jget key m; as_str v).

Definition decode_exception (md : Metadata) (msg request_id : list byte)
    (extra_json : option (list byte)) : RpcError :=
  let '(etype, tb) := parse_exception_extra extra_json in
  let extra := extra_object extra_json in
  let code := match md !! ERROR_CODE_KEY with Some c => c | None => mirror_str extra (bs "error_code") end in
  let kind := match md !! ERROR_KIND_KEY with Some k => k | None => mirror_str extra (bs "error_kind") end in
  let details :=
    match md !! ERROR_DETAILS_KEY with
    | Some raw => decode_error_details raw
    | None => match (m ← extra; jget (bs "error_details") m) with
              | Some (JArray items) => filter (fun v => is_object v = true) items
              | _ => []
              end
    end in
  let err := mkRpcError etype msg tb request_id None None None None in
  let err := if bool_decide (kind = []) then err else RpcErr.with_error_kind kind err in
  RpcErr.set_wire_status code details err.

(** A JSON value as the text of a log extra. *)
Definition extra_text (v : Value) : list byte := match v with JString s => s | _ => json_to_string v end.

Context `{!ArrowIpc, !ArrowIpcWriter}.

Definition classify (batch : RecordBatch) (md : Metadata) : BatchKind :=
  if bool_decide (is_Some (md !! LOCATION_KEY)) then KPointer else
  if negb (num_rows batch =? 0) then KData else
  match md !! LOG_LEVEL_KEY with
  | None => KData
  | Some level_str =>
    let msg := default [] (md !! LOG_MESSAGE_KEY) in
    let request_id := default [] (md !! REQUEST_ID_KEY) in
    let extra_json := md !! LOG_EXTRA_KEY in
    if bool_decide (level_str = bs "EXCEPTION")
    then KException (decode_exception md msg request_id extra_json)
    else
      let m := log_new (parse_level level_str) msg in
      KLog match extra_object extra_json with
           | Some map => foldl (fun m kv => with_extra kv.1 (extra_text kv.2) m) m map
           | None => m
           end
  end.
End Envelope.
