(* ===== verification/EnvelopeProps.v ===== *)
(** * Envelopes: reuse, round trips and the error model

    The reused metadata map never leaks from one envelope into the next, what the
    server writes the client reads back, and the JSON catalog round trips. *)

From S2P Require Import Prelude Bytes Metadata F64 Json ErrorModel Errors Ipc IpcWriter ShmBatch Dispatch Envelope.

(** ** The catalog *)
Section Catalog.

Lemma f64_whole_exact x :
  Z.rem x (2 ^ 1074) = 0 → Z.abs x < DELAY_LIMIT → f64_of_i64 (f64_to_i64 x) = x.
Proof.
  intros Hr Hx. set (q := Z.quot x (2 ^ 1074)).
  assert (x = q * 2 ^ 1074) as E. { unfold q. pose proof (Z.quot_rem' x (2 ^ 1074)). lia. }
  assert (0 < 2 ^ 1074) by (by apply Z.pow_pos_nonneg).
  assert (DELAY_LIMIT = 9000000000000000 * 2 ^ 1074) as HD.
  { unfold DELAY_LIMIT, f64_of_i64. apply f64_round_exact; lia. }
  assert (Z.abs q < 9000000000000000) as Hq.
  { rewrite HD, E, Z.abs_mul, (Z.abs_eq (2 ^ 1074)) in Hx by lia. nia. }
  unfold f64_to_i64. fold q. unfold i64_saturate.
  replace (Z.max i64_min (Z.min q i64_max)) with q by (ints; lia).
  unfold f64_of_i64. rewrite f64_round_exact by lia. done.
Qed.

(** A detail whose JSON form says all of it: a delay is finite and not negative, and
    the metadata pairs are in key order, as a [BTreeMap] keeps them. *)
Definition detail_ok (d : ErrorDetail) : bool :=
  match d with
  | ErrorInfo md => sorted_keys ((fun kv => (kv.1, JString kv.2)) <$> md)
  | RetryInfo delay => match delay with Some x => 0 <=? x | None => false end
  | _ => true
  end.

(** Inserting the entries of an ordered object rebuilds it. *)
Lemma jobject_sorted m : sorted_keys m = true → jobject m = m.
Proof.
  intros Hs. unfold jobject.
  assert (∀ l r : Map, sorted_keys (l ++ r) = true →
    foldl (fun m kv => jinsert kv.1 kv.2 m) l r = l ++ r) as H; [|by apply (H [])].
  intros l r. revert l. induction r as [|[k v] r IH]; intros l Hlr; simpl; [by rewrite app_nil_r|].
  assert (Forall (fun kv => bytes_ltb kv.1 k = true) l) as Hl.
  { clear IH. induction l as [|[k1 v1] l IHl]; [done|]. constructor.
    - simpl. clear IHl. revert k1 v1 Hlr. induction l as [|[k2 v2] l IHl]; intros k1 v1 Hlr.
      + simpl in Hlr. by apply andb_true_iff in Hlr as [? _].
      + simpl in Hlr. apply andb_true_iff in Hlr as [H12 Hlr].
        apply (bytes_ltb_trans _ k2); [done|]. by apply (IHl k2 v2).
    - apply IHl. destruct l as [|[k2 v2] l]; simpl in *; by apply andb_true_iff in Hlr as [_ ?]. }
  rewrite jinsert_new_max by done. rewrite IH; [by rewrite <- app_assoc|by rewrite <- app_assoc].
Qed.

Lemma mapM_as_object {A} (f : A → Map) (l : list A) :
  mapM as_object ((fun v => JObject (jobject (f v))) <$> l) = Some ((fun v => jobject (f v)) <$> l).
Proof. apply mapM_Some, Forall2_fmap_l, Forall2_fmap_r, Forall_Forall2_diag. by apply Forall_true. Qed.

Lemma mapM_fmap_inv {A B} (g : A → B) (h : B → option A) (l : list A) :
  (∀ a, h (g a) = Some a) → mapM h (g <$> l) = Some l.
Proof. intros E. apply mapM_Some, Forall2_fmap_l, Forall_Forall2_diag. by apply Forall_true. Qed.

(** The objects of a violation list, read back one by one. *)
Lemma objects_read {A D} (f : A → Map) (h : Map → option A) (c : list A → D) (vs : list A) :
  (∀ a, h (jobject (f a)) = Some a) →
  (os ← mapM as_object ((fun v => JObject (jobject (f v))) <$> vs); l ← mapM h os; Some (c l)) = Some (c vs).
Proof.
  intros E. rewrite mapM_as_object. simpl. by rewrite (mapM_fmap_inv (fun v => jobject (f v)) h) by done.
Qed.

(** Every catalog detail that its JSON form can express is read back
    from it unchanged, whichever its type. *)
Theorem detail_roundtrip d : detail_ok d = true → from_json (to_json d) = Some d.
Proof.
  destruct d as [md|[x|]|vs|vs|vs|t n o de|ls|lo me]; intros Hd; try done.
  - transitivity (m ← mapM (fun kv : list byte * Value => s ← as_str kv.2; Some (kv.1, s))
                        (jobject ((fun kv => (kv.1, JString kv.2)) <$> md)); Some (ErrorInfo m)); [reflexivity|].
    rewrite jobject_sorted by done. erewrite mapM_fmap_inv; [done|by intros []].
  - simpl in Hd. apply Z.leb_le in Hd.
    transitivity (d ← as_f64 (delay_json (Some x)); if d <? 0 then None else Some (RetryInfo (Some d))).
    { unfold to_json, detail_fields, delay_json.
      destruct ((Z.rem x (2 ^ 1074) =? 0) && (Z.abs x <? DELAY_LIMIT)); reflexivity. }
    unfold delay_json. destruct (Z.eqb_spec (Z.rem x (2 ^ 1074)) 0); [destruct (Z.ltb_spec (Z.abs x) DELAY_LIMIT)|];
      cbn -[f64_of_i64 f64_to_i64 Z.ltb]; rewrite ?f64_whole_exact by done;
      (destruct (Z.ltb_spec x 0); [lia|done]).
  - apply (objects_read (fun v => _) (fun v => _) BadRequest). by intros [].
  - apply (objects_read (fun v => _) (fun v => _) PreconditionFailure). by intros [].
  - apply (objects_read (fun v => _) (fun v => _) QuotaFailure). by intros [].
  - apply (objects_read (fun v => _) (fun v => _) Help). by intros [].
Qed.
End Catalog.

(** ** Detail lists *)

(** What [validate_error_details] asks of a list. *)
Definition details_valid (details : list Value) : Prop :=
  ∃ tys, Forall2 (fun d ty => detail_type d = Some ty) details tys
         ∧ NoDup tys
         ∧ Forall (fun ty => contains [x2e] ty = true
                             ∧ (is_Some (strip_prefix RESERVED_DETAIL_PREFIX ty) → ty ∈ CATALOG_TYPES)) tys.

Lemma detail_type_object d ty : detail_type d = Some ty → ∃ m, as_object d = Some m.
Proof. unfold detail_type. destruct (as_object d); [by eexists|done]. Qed.

Lemma check_detail_Ok seen d seen' :
  check_detail seen d = Ok seen' ↔
  ∃ ty, detail_type d = Some ty ∧ (ty ∉ seen) ∧ seen' = {[ty]} ∪ seen
        ∧ contains [x2e] ty = true
        ∧ (is_Some (strip_prefix RESERVED_DETAIL_PREFIX ty) → ty ∈ CATALOG_TYPES).
Proof.
  unfold check_detail. destruct (as_object d) as [m|] eqn:Eo.
  2: { split; [done|]. intros (ty & [m Hm]%detail_type_object & _). congruence. }
  simpl. destruct (detail_type d) as [ty|]; simpl; [|by split; [|intros (? & ? & _)]].
  case_bool_decide as Hs; [by split; [|intros (? & [= <-] & ? & _)]|].
  case_bool_decide as Hr; simpl; [case_bool_decide as Hc; simpl; [|by split; [|intros (? & [= <-] & _ & _ & _ & Hc'); case (Hc (Hc' Hr))]]|];
    (destruct (contains [x2e] ty) eqn:Ec; simpl;
      [split; [intros [= <-]; by eexists|intros (? & [= <-] & _ & -> & _); done]
      |split; [done|intros (? & [= <-] & _ & _ & ? & _); congruence]]).
Qed.

Lemma validate_fold seen details :
  is_ok (try_fold check_detail seen details) = true ↔
  ∃ tys, Forall2 (fun d ty => detail_type d = Some ty) details tys
         ∧ NoDup tys ∧ (∀ ty, ty ∈ tys → ty ∉ seen)
         ∧ Forall (fun ty => contains [x2e] ty = true
                             ∧ (is_Some (strip_prefix RESERVED_DETAIL_PREFIX ty) → ty ∈ CATALOG_TYPES)) tys.
Proof.
  revert seen. induction details as [|d details IH]; intros seen; simpl.
  { split; [|done]. intros _. exists []. repeat split; try constructor. by intros ? ?%elem_of_nil. }
  destruct (check_detail seen d) as [seen'| |] eqn:E; simpl.
  - apply check_detail_Ok in E as (ty & Ht & Hs & -> & Hc). rewrite IH. split.
    + intros (tys & H2 & Hn & Hd & Hf). exists (ty :: tys). repeat split.
      * by constructor.
      * constructor; [|done]. intros Hin. apply (Hd ty Hin). set_solver.
      * intros t' [->|Hin]%elem_of_cons; [done|]. specialize (Hd t' Hin). set_solver.
      * by constructor.
    + intros (tys & H2 & Hn & Hd & Hf). inversion H2 as [|? ty' ? tys' Ht' H2']; subst.
      assert (ty' = ty) as -> by congruence. apply list.NoDup_cons in Hn as [Hn1 Hn2].
      apply list.Forall_cons in Hf as [_ Hf]. exists tys'. repeat split; try done.
      intros t' Hin. specialize (Hd t' ltac:(by apply elem_of_cons; right)).
      apply not_elem_of_union. split; [|done]. apply not_elem_of_singleton. by intros ->.
  - split; [done|]. intros (tys & H2 & Hn & Hd & Hf). inversion H2 as [|? ty' ? tys' Ht' H2']; subst.
    apply list.Forall_cons in Hf as [Hf _]. assert (check_detail seen d = Ok ({[ty']} ∪ seen)); [|congruence].
    apply check_detail_Ok. exists ty'. repeat split; try done; [|by destruct Hf|by destruct Hf].
    apply Hd. by apply elem_of_cons; left.
  - exfalso. revert E. unfold check_detail. destruct (as_object d), (detail_type d); simpl; try done.
    all: repeat case_match; done.
Qed.

Lemma validate_error_details_exact details :
  is_ok (validate_error_details details) = true ↔ details_valid details.
Proof.
  unfold validate_error_details, details_valid.
  replace (is_ok (try_fold check_detail ∅ details ≫= fun _ => Ok tt))
    with (is_ok (try_fold check_detail ∅ details)) by (by destruct (try_fold check_detail ∅ details)).
  rewrite validate_fold. split; intros (tys & H2 & Hn & H3); exists tys.
  - destruct H3 as [_ H3]. done.
  - repeat split; try done; set_solver.
Qed.

Lemma details_valid_objects details : details_valid details → filter (fun v => is_object v = true) details = details.
Proof.
  intros (tys & H2 & _). induction H2 as [|d ty details tys Hd _ IH]; [done|].
  apply detail_type_object in Hd as [m Hm]. destruct d; try done. by rewrite filter_cons_True, IH.
Qed.

Section Lists.
Context `{JL : JsonLaws}.

Lemma encode_details_Some details text :
  encode_error_details details = Some text ↔
  details ≠ [] ∧ details_valid details ∧ text = json_to_string (JArray details)
  ∧ zlen text ≤ MAX_ERROR_DETAILS_BYTES.
Proof.
  unfold encode_error_details. rewrite <- validate_error_details_exact.
  case_bool_decide as E1; simpl; [naive_solver|].
  destruct (is_ok (validate_error_details details)); simpl; [|naive_solver].
  destruct (Z.ltb_spec MAX_ERROR_DETAILS_BYTES (zlen (json_to_string (JArray details)))).
  - split; [done|]. intros (_ & _ & -> & ?). lia.
  - split; [intros [= <-]; repeat split; done || lia|]. by intros (_ & _ & -> & _).
Qed.

Lemma decode_details details text :
  text_safe JSON_DEPTH (JArray details) = true → encode_error_details details = Some text →
  decode_error_details text = details.
Proof.
  intros Hs (_ & Hv & -> & _)%encode_details_Some. unfold decode_error_details.
  rewrite json_roundtrip by done. by apply details_valid_objects.
Qed.

(** A detail list goes on the wire exactly when it is not empty,
    obeys the catalog rules (each an object with a qualified type, no type twice, nothing
    invented under the reserved prefix) and its text is within 4 KiB; then the whole list
    arrives. *)
Theorem details_all_or_nothing details :
  text_safe JSON_DEPTH (JArray details) = true →
  (is_Some (encode_error_details details) ↔
     details ≠ [] ∧ details_valid details ∧ zlen (json_to_string (JArray details)) ≤ MAX_ERROR_DETAILS_BYTES)
  ∧ (∀ text, encode_error_details details = Some text → decode_error_details text = details).
Proof.
  intros Hs. split; [|intros text; by apply decode_details]. split.
  - intros [text (? & ? & -> & ?)%encode_details_Some]. done.
  - intros (? & ? & ?). exists (json_to_string (JArray details)). by apply encode_details_Some.
Qed.
End Lists.

(** ** The reused map *)
Section Reuse.
Context `{Json}.

(** The keys an envelope overwrites or clears. *)
Definition transient_keys : list (list byte) :=
  [LOG_LEVEL_KEY; LOG_MESSAGE_KEY; LOG_EXTRA_KEY; ERROR_KIND_KEY; ERROR_CODE_KEY; ERROR_DETAILS_KEY].

Inductive envelope_op := OpLog (m : LogMessage) | OpError (err : RpcError).

Definition envelope_apply (e : EnvelopeMeta) (op : envelope_op) : EnvelopeMeta :=
  match op with OpLog m => envelope_log m e | OpError err => envelope_error err e end.

(** Two envelopes of the same call, equal up to what a previous envelope left. *)
Definition same_call (a b : EnvelopeMeta) : Prop :=
  env_server_id a = env_server_id b ∧ env_request_id a = env_request_id b
  ∧ tracebacks a = tracebacks b
  ∧ ∀ k, k ∉ transient_keys → envelope_map a !! k = envelope_map b !! k.

(** The value an operation gives a transient key, whatever was there. *)
Definition op_value (tb : option (list byte)) (op : envelope_op) (k : list byte) : option (list byte) :=
  match op with
  | OpLog m =>
    if decide (k = LOG_LEVEL_KEY) then Some (level_as_str (level m))
    else if decide (k = LOG_MESSAGE_KEY) then Some (log_message m)
    else if decide (k = LOG_EXTRA_KEY) then if bool_decide (extras m = []) then None else Some (extras_json m)
    else None
  | OpError err =>
    if decide (k = LOG_LEVEL_KEY) then Some (bs "EXCEPTION")
    else if decide (k = LOG_MESSAGE_KEY) then Some (message err)
    else if decide (k = LOG_EXTRA_KEY) then Some (json_to_string (JObject (error_extra tb err)))
    else if decide (k = ERROR_CODE_KEY) then Some (RpcErr.wire_code err)
    else if decide (k = ERROR_KIND_KEY) then error_kind err
    else encode_error_details (RpcErr.wire_details err)
  end.

Lemma apply_lookup e op k :
  envelope_map (envelope_apply e op) !! k
  = if decide (k ∈ transient_keys) then op_value (tracebacks e) op k else envelope_map e !! k.
Proof.
  destruct op as [m|err]; simpl; unfold envelope_log, envelope_error;
    [destruct (bool_decide (extras m = [])) eqn:Ex
    |destruct (error_kind err) eqn:Ek, (encode_error_details (RpcErr.wire_details err)) eqn:Ed];
    unfold envelope_set, envelope_clear, with_md; cbn [envelope_map env_md tracebacks];
    (destruct (decide (k ∈ transient_keys)) as [Hk|Hk];
      [unfold transient_keys in Hk; rewrite !elem_of_cons, elem_of_nil in Hk;
       destruct Hk as [->|[->|[->|[->|[->|[->|[]]]]]]];
       unfold op_value; repeat first [rewrite decide_True by done | rewrite decide_False by key_ne]; rewrite ?Ex, ?Ek, ?Ed;
       repeat first [rewrite lookup_insert_eq | rewrite lookup_delete_eq
              | rewrite lookup_insert_ne by key_ne | rewrite lookup_delete_ne by key_ne]; done
      |unfold transient_keys in Hk; rewrite !not_elem_of_cons in Hk; destruct_and! Hk;
       repeat first [rewrite lookup_insert_ne by congruence | rewrite lookup_delete_ne by congruence]; done]).
Qed.

Lemma apply_call e op : env_server_id (envelope_apply e op) = env_server_id e
  ∧ env_request_id (envelope_apply e op) = env_request_id e ∧ tracebacks (envelope_apply e op) = tracebacks e
  ∧ is_Some (env_md (envelope_apply e op)).
Proof.
  destruct op; simpl; unfold envelope_log, envelope_error;
    [destruct (bool_decide _)|destruct (error_kind _), (encode_error_details _)]; repeat split; by eexists.
Qed.

Lemma metadata_map e : is_Some (env_md e) → envelope_metadata e = envelope_map e.
Proof. unfold envelope_metadata, envelope_map. by intros [md ->]. Qed.

Lemma same_call_apply a b op :
  same_call a b → envelope_metadata (envelope_apply a op) = envelope_metadata (envelope_apply b op).
Proof.
  intros (_ & _ & Ht & Hk). rewrite !metadata_map by apply apply_call. apply map_eq. intros k.
  rewrite !apply_lookup, Ht. case_decide; [done|]. by apply Hk.
Qed.

Lemma same_call_step a op : same_call (envelope_apply a op) a.
Proof.
  destruct (apply_call a op) as (? & ? & ? & _). repeat split; try done.
  intros k Hk. rewrite apply_lookup. by rewrite decide_False.
Qed.

Lemma same_call_fold a ops : same_call (foldl envelope_apply a ops) a.
Proof.
  revert a. induction ops as [|op ops IH]; intros a; [done|]. simpl.
  destruct (IH (envelope_apply a op)) as (H1 & H2 & H3 & H4), (same_call_step a op) as (G1 & G2 & G3 & G4).
  repeat split; try congruence. intros k Hk. by rewrite H4, G4.
Qed.

(** The map reused for every envelope of a call never leaks: after any
    sequence of log and error envelopes the next one carries exactly the metadata a fresh
    envelope would. *)
Theorem envelope_reuse_fresh server_id request_id tb ops op :
  let e := envelope_new server_id request_id tb in
  envelope_metadata (envelope_apply (foldl envelope_apply e ops) op) = envelope_metadata (envelope_apply e op).
Proof. intros e. apply same_call_apply, same_call_fold. Qed.
End Reuse.

(** ** From server to client *)
Section RoundTrip.
Context `{JL : JsonLaws}.
Context `{AW : ArrowIpcWriter}.

(** Every string of the error is UTF-8, as Rust's are, and its details are within the
    parser's limits where they are nested. *)
Definition error_text (tb : option (list byte)) (err : RpcError) : bool :=
  utf8_valid (error_type err) && utf8_valid (message err) && utf8_valid (traceback err)
  && utf8_valid (RpcErr.wire_code err) && utf8_valid (default [] (error_kind err)) && utf8_valid (default [] tb)
  && forallb (text_safe (JSON_DEPTH - 2)) (RpcErr.wire_details err).

Lemma render_traceback_utf8 origin err :
  utf8_valid (error_type err) = true → utf8_valid (message err) = true → utf8_valid (traceback err) = true →
  utf8_valid origin = true → utf8_valid (render_traceback origin err) = true.
Proof.
  intros. unfold render_traceback. case_bool_decide; simpl; [|done]. case_bool_decide.
  all: by repeat apply utf8_valid_app.
Qed.

(** The entries of the extra object, each one valid text. *)
Lemma error_extra_safe tb err :
  error_text tb err = true → text_safe JSON_DEPTH (JObject (error_extra tb err)) = true.
Proof.
  unfold error_text. rewrite !andb_true_iff. intros [[[[[[H1 H2] H3] H4] H5] H6] H7].
  change JSON_DEPTH with (S 126). cbn [text_safe]. apply andb_true_iff. split.
  - unfold error_extra. repeat case_match; repeat apply sorted_jinsert; done.
  - assert (text_safe 126 (JArray (RpcErr.wire_details err)) = true) as Hd by done.
    unfold error_extra. destruct (error_kind err) as [k|], (encode_error_details _), tb as [o|]; simpl in H5, H6;
      repeat (apply forallb_jinsert; [|]); try (apply forallb_jobject);
      cbn [forallb fst snd]; rewrite ?andb_true_r; repeat (apply andb_true_iff; split); try done;
      by apply render_traceback_utf8.
Qed.

(** The error a client builds for the error a server raised. *)
Definition received (tb : option (list byte)) (request_id : list byte) (err : RpcError) : RpcError :=
  mkRpcError (error_type err) (message err)
    (from_option (fun origin => render_traceback origin err) [] tb) request_id None None
    (k ← error_kind err; if bool_decide (k = []) then None else Some k)
    (Some (mkErrorStatus (RpcErr.wire_code err)
             match encode_error_details (RpcErr.wire_details err) with
             | Some _ => RpcErr.wire_details err | None => [] end)).

Lemma wire_code_nonempty err : RpcErr.wire_code err ≠ [].
Proof. unfold RpcErr.wire_code. by case_bool_decide. Qed.

Ltac lookup_extra :=
  repeat first [rewrite jget_jinsert | rewrite jget_jinsert_ne by key_ne].

Lemma extra_type tb err : jget (bs "exception_type") (error_extra tb err) = Some (JString (error_type err)).
Proof. unfold error_extra. repeat case_match; lookup_extra; done. Qed.

Lemma extra_traceback tb err :
  jget (bs "traceback") (error_extra tb err) = (fun o => JString (render_traceback o err)) <$> tb.
Proof. unfold error_extra. repeat case_match; subst; lookup_extra; done. Qed.

Lemma extra_kind tb err : jget (bs "error_kind") (error_extra tb err) = JString <$> error_kind err.
Proof. unfold error_extra. repeat case_match; lookup_extra; done. Qed.

Lemma extra_details tb err :
  encode_error_details (RpcErr.wire_details err) = None → jget (bs "error_details") (error_extra tb err) = None.
Proof. intros E. unfold error_extra. rewrite E. repeat case_match; lookup_extra; done. Qed.

Lemma extra_object_error tb err :
  error_text tb err = true →
  extra_object (Some (json_to_string (JObject (error_extra tb err)))) = Some (error_extra tb err).
Proof. intros Ht. unfold extra_object. simpl. rewrite json_roundtrip by (by apply error_extra_safe). done. Qed.

Lemma decode_error_envelope sid rid tb err md :
  error_text tb err = true → (∀ k, md !! k = envelope_map (envelope_apply (envelope_new sid rid tb) (OpError err)) !! k) →
  decode_exception md (message err) rid (Some (json_to_string (JObject (error_extra tb err)))) = received tb rid err.
Proof.
  intros Ht Hmd. unfold decode_exception, parse_exception_extra. rewrite extra_object_error by done.
  rewrite extra_type, extra_traceback, !Hmd.
  rewrite !(apply_lookup (envelope_new sid rid tb) (OpError err)).
  rewrite !decide_True by (unfold transient_keys; set_solver). unfold op_value.
  repeat first [rewrite decide_True by done | rewrite decide_False by key_ne].
  unfold received. pose proof (wire_code_nonempty err) as Hc.
  assert (text_safe JSON_DEPTH (JArray (RpcErr.wire_details err)) = true) as Hd.
  { apply (text_safe_mono (S (JSON_DEPTH - 2))); [unfold JSON_DEPTH; lia|].
    unfold error_text in Ht. rewrite !andb_true_iff in Ht. apply Ht. }
  destruct (encode_error_details (RpcErr.wire_details err)) as [text|] eqn:Ee;
    [rewrite (decode_details _ _ Hd Ee)|simpl mbind; rewrite (extra_details _ _ Ee)].
  all: unfold RpcErr.set_wire_status; rewrite (bool_decide_false (RpcErr.wire_code err = [])) by done; cbn [andb].
  all: destruct (error_kind err) as [k|] eqn:Ek; simpl;
    [|unfold mirror_str; simpl mbind; rewrite extra_kind, Ek; simpl];
    repeat case_bool_decide; destruct tb; done.
Qed.

Lemma fresh_location sid rid tb : envelope_map (envelope_new sid rid tb) !! LOCATION_KEY = None.
Proof.
  unfold envelope_map; simpl. repeat case_bool_decide; rewrite ?lookup_insert_ne by key_ne; apply lookup_empty.
Qed.

Lemma fresh_request sid rid tb : default [] (envelope_map (envelope_new sid rid tb) !! REQUEST_ID_KEY) = rid.
Proof.
  unfold envelope_map; simpl. case_bool_decide; [|by rewrite lookup_insert_eq].
  subst. case_bool_decide; rewrite ?lookup_insert_ne by key_ne; by rewrite lookup_empty.
Qed.

(** A zero-row batch with an envelope's metadata, as the client reads it. *)
Lemma classify_envelope batch sid rid tb op :
  num_rows batch = 0 →
  let md := envelope_metadata (envelope_apply (envelope_new sid rid tb) op) in
  classify batch md =
    match op with
    | OpError err =>
      KException (decode_exception md (message err) rid (Some (json_to_string (JObject (error_extra tb err)))))
    | OpLog m =>
      let extra := if bool_decide (extras m = []) then None else Some (extras_json m) in
      if bool_decide (level m = Exception)
      then KException (decode_exception md (log_message m) rid extra)
      else KLog match extra_object extra with
                | Some map => foldl (fun m kv => with_extra kv.1 (extra_text kv.2) m) (log_new (level m) (log_message m)) map
                | None => log_new (level m) (log_message m)
                end
    end.
Proof.
  intros Hb md. unfold classify, md. rewrite Hb. rewrite metadata_map by apply apply_call.
  rewrite !apply_lookup.
  rewrite (decide_False (P := LOCATION_KEY ∈ _)), (decide_False (P := REQUEST_ID_KEY ∈ _)) by (vm_compute; set_solver).
  rewrite !decide_True by (unfold transient_keys; set_solver).
  rewrite fresh_location, fresh_request, bool_decide_false by (by intros []). simpl negb.
  destruct op as [m|err]; unfold op_value;
    repeat first [rewrite decide_True by done | rewrite decide_False by key_ne]; [|done].
  by destruct m as [[] ? ?].
Qed.

(** The error a server raises reaches the client with its type, message,
    code, kind and details: the zero-row batch that carries it is classified as an
    exception holding exactly the error as the wire carries it, the code [UNKNOWN] where
    none was set and the detail list whole or absent. *)
Lemma error_envelope_roundtrip batch server_id request_id tb err :
  num_rows batch = 0 → error_text tb err = true →
  classify batch (build_error_metadata err server_id request_id tb) = KException (received tb request_id err).
Proof.
  intros Hb Ht. change (build_error_metadata err server_id request_id tb)
    with (envelope_metadata (envelope_apply (envelope_new server_id request_id tb) (OpError err))).
  rewrite classify_envelope by done. f_equal. eapply decode_error_envelope; [done|].
  intros k. by rewrite metadata_map by apply apply_call.
Qed.

(** The extras a client sees: one per key, in key order, the last value written. *)
Definition received_extras (kvs : list (list byte * list byte)) : list (list byte * list byte) :=
  (fun kv => (kv.1, extra_text kv.2)) <$> string_map kvs.

Lemma foldl_with_extra (map : Map) m :
  foldl (fun m kv => with_extra kv.1 (extra_text kv.2) m) m map
  = mkLogMessage (level m) (log_message m) (extras m ++ ((fun kv => (kv.1, extra_text kv.2)) <$> map)).
Proof.
  revert m. induction map as [|kv map IH]; intros m; simpl; [by rewrite app_nil_r; destruct m|].
  rewrite IH. unfold with_extra. simpl. by rewrite <- app_assoc.
Qed.

Lemma extras_safe m :
  forallb (fun kv => utf8_valid kv.1 && utf8_valid kv.2) (extras m) = true →
  text_safe JSON_DEPTH (JObject (string_map (extras m))) = true.
Proof.
  intros Hx. change JSON_DEPTH with (S 126). cbn [text_safe]. unfold string_map.
  rewrite sorted_jobject. simpl. apply forallb_jobject. rewrite forallb_forall in Hx |- *.
  intros kv (kv' & <- & Hin)%in_map_iff. by apply Hx.
Qed.

(** A log message reaches the client with its level and text and with its
    extras, one per key. *)
Lemma log_envelope_roundtrip batch server_id request_id m :
  num_rows batch = 0 → level m ≠ Exception →
  forallb (fun kv => utf8_valid kv.1 && utf8_valid kv.2) (extras m) = true →
  classify batch (build_log_metadata m server_id request_id)
  = KLog (mkLogMessage (level m) (log_message m) (received_extras (extras m))).
Proof.
  intros Hb Hl Hx. change (build_log_metadata m server_id request_id)
    with (envelope_metadata (envelope_apply (envelope_new server_id request_id None) (OpLog m))).
  rewrite classify_envelope by done. cbv zeta. rewrite bool_decide_false by done. f_equal.
  case_bool_decide as He.
  - rewrite He. done.
  - unfold extra_object, extras_json. simpl. rewrite json_roundtrip by (by apply extras_safe). simpl.
    by rewrite foldl_with_extra.
Qed.

(** The envelope of a plain response carries nothing: the ids are only added with the
    first log or error. *)
Lemma envelope_metadata_empty server_id request_id : build_envelope_metadata server_id request_id = ∅.
Proof. done. Qed.
End RoundTrip.
