(* ===== verification/ExternalExample.v ===== *)
(** * External locations, run

    A concrete compressor and URL library that satisfy the contracts of
    [ExternalProps], and the theorems about externalized batches, dialled addresses
    and error details on small inputs. *)

From S2P Require Import Prelude Bytes Metadata Net F64 Json DataExample ErrorModel Errors Crypto ShmAllocator Ipc IpcProps IpcWriter IpcWriterProps IpcStream WireExample Arrow External ExternalProps Cidr Envelope EnvelopeProps.

(** A frame is its content, delivered in one read. *)
#[global] Instance stored_zstd : Zstd := {|
  zstd_encoder_new _ := true; zstd_set_content_size _ := true; zstd_compress _ l := Some l;
  zstd_decoder_new _ := true; zstd_window_log_max w := (10 <=? w) && (w <=? 31);
  zstd_reads _ l := match l with [] => [] | _ => [Some l] end |}.

#[global] Instance stored_zstd_laws : ZstdLaws.
Proof.
  constructor.
  - intros w Hw. simpl. lia.
  - intros level l c w [= <-] _ _. split; [done|]. destruct l as [|b l]; [by exists []|].
    exists [b :: l]. split_and!; [done|by constructor|]. apply app_nil_r.
Qed.

(** Every text is a URL of a public host. *)
#[global] Instance toy_url : UrlLib := {|
  url_parse _ := Some (mkUrl (bs "https") (Some (HostV4 [x01; x01; x01; x01])) (Some 443));
  url_stripped l := Some l; to_socket_addrs _ _ := None |}.

#[local] Existing Instances toy_ipc toy_writer toy_writer_laws toy_laws toy_aead.

Lemma Ok_inj {E A} (a b : A) : Ok (E:=E) a = Ok b → a = b.
Proof. by intros [= ->]. Qed.

Definition demo_cfg : ExternalLocationConfig := mkExternal 16 (CZstd 3) safe_https_validator 4096 4096 5.
Definition demo_state : XState (S:=InMemoryStorage) := mkX in_memory_new 0.
Definition demo_external : res RpcError (option (toy_batch * Metadata)) * XState (S:=InMemoryStorage) :=
  maybe_externalize_batch (Large (bs "payload")) true (Some demo_md) demo_cfg demo_state.
Definition demo_ptr : toy_batch * Metadata := match demo_external.1 with Ok (Some p) => p | _ => (Large [], ∅) end.

Lemma externalize_resolve_roundtrip_witness :
  num_rows demo_ptr.1 = 0 ∧ batch_schema demo_ptr.1 = true ∧
  ∃ url rmd, demo_ptr.2 !! LOCATION_KEY = Some url ∧
    resolve_external_location demo_ptr.1 demo_ptr.2 demo_cfg 0 (xstore demo_external.2) = Ok (Large (bs "payload"), rmd) ∧
    ∀ k, rmd !! k = if decide (k = LOCATION_SOURCE_KEY) then Some url
                    else if decide (k = LOCATION_FETCH_MS_KEY) then Some (format_2 0)
                    else if is_location_key k then None else default ∅ (Some demo_md) !! k.
Proof.
  apply (@externalize_resolve_roundtrip toy_ipc toy_writer _ toy_arrays _ toy_aead stored_zstd _ toy_url _ _ _ _ (Large (bs "payload")) true (Some demo_md) demo_cfg demo_state demo_ptr.1 demo_ptr.2 demo_external.2 0).
  - reflexivity.
  - reflexivity.
  - by apply map_Forall_singleton.
  - by vm_compute.
  - intros l El. assert (l = demo_bytes) as ->.
    { apply (Ok_inj (E:=RpcError)). etransitivity; [symmetry; exact El|]. vm_compute. reflexivity. }
    split; [by vm_compute|]. split; [by vm_compute|]. intros q Eq.
    assert (q = demo_bytes) as -> by (apply (Ok_inj (E:=RpcError)); by etransitivity; [symmetry; exact Eq|]). by vm_compute.
  - by vm_compute.
Defined.

Definition demo_url : list byte := default [] (demo_ptr.2 !! LOCATION_KEY).
Definition demo_rmd : Metadata := External.resolved_metadata demo_ptr.2 demo_md demo_url 0.

Lemma demo_resolved :
  demo_ptr.2 !! LOCATION_KEY = Some demo_url ∧
  resolve_external_location demo_ptr.1 demo_ptr.2 demo_cfg 0 (xstore demo_external.2) = Ok (Large (bs "payload"), demo_rmd).
Proof.
  assert (demo_ptr.2 !! LOCATION_KEY = Some demo_url) as Hu by (vm_compute; reflexivity). split; [done|].
  unfold resolve_external_location. rewrite Hu.
  assert (fetch_checked demo_url demo_ptr.2 demo_cfg (xstore demo_external.2) = Ok demo_bytes) as -> by (vm_compute; reflexivity).
  cbn [mbind res_bind].
  assert (deserialize_single_batch_with_metadata demo_bytes = Ok (Large (bs "payload"), demo_md)) as -> by (vm_compute; reflexivity).
  done.
Qed.

Lemma resolve_hostile_storage_witness :
  (∃ bytes inner, deserialize_single_batch_with_metadata bytes = Ok (Large (bs "payload"), inner) ∧
     zlen bytes ≤ max_decompressed_bytes demo_cfg ∧
     (∀ d, demo_ptr.2 !! LOCATION_SHA256_KEY = Some d → d = sha256_hex bytes) ∧
     ∀ k, is_location_key k = false → demo_rmd !! k = match inner !! k with Some v => Some v | None => demo_ptr.2 !! k end) ∧
  demo_rmd !! LOCATION_KEY = None ∧ demo_rmd !! LOCATION_SHA256_KEY = None ∧
  demo_rmd !! LOCATION_SOURCE_KEY = Some demo_url ∧ demo_rmd !! LOCATION_FETCH_MS_KEY = Some (format_2 0).
Proof.
  apply (@resolve_hostile_storage toy_ipc toy_aead stored_zstd _ _ demo_ptr.1 demo_ptr.2 demo_cfg 0 (xstore demo_external.2)
    (Large (bs "payload")) demo_rmd demo_url); [apply demo_resolved|apply demo_resolved|by vm_compute].
Defined.

#[local] Instance in_cidr_dec o n : Decision (in_cidr o n).
Proof. unfold in_cidr. apply _. Defined.

(** 10.1.2.3 is refused, 1.1.1.1 is dialled. *)
Lemma reject_unsafe_ip_cidr_witness :
  reject_unsafe_ip (V4 [x0a; x01; x02; x03]) = Err unsafe_host ∧ reject_unsafe_ip (V4 [x01; x01; x01; x01]) = Ok tt.
Proof.
  split.
  - apply (reject_unsafe_ip_cidr (V4 [x0a; x01; x02; x03]) eq_refl). by apply (bool_decide_unpack (Exists _ blocked_v4)).
  - apply (reject_unsafe_ip_cidr (V4 [x01; x01; x01; x01]) eq_refl). by apply (bool_decide_eq_false_1 (Exists _ blocked_v4)).
Defined.

Lemma detail_roundtrip_witness :
  from_json (to_json (ErrorInfo [(bs "a", bs "1"); (bs "b", bs "2")])) = Some (ErrorInfo [(bs "a", bs "1"); (bs "b", bs "2")]).
Proof. apply detail_roundtrip. reflexivity. Defined.

Definition demo_details : list Value := [to_json (ResourceInfo (bs "t") (bs "n") (bs "o") (bs "d"))].

Lemma details_all_or_nothing_witness :
  (is_Some (encode_error_details demo_details) ↔
     demo_details ≠ [] ∧ details_valid demo_details ∧
     zlen (json_to_string (JArray demo_details)) ≤ MAX_ERROR_DETAILS_BYTES) ∧
  (∀ text, encode_error_details demo_details = Some text → decode_error_details text = demo_details).
Proof. apply details_all_or_nothing. reflexivity. Defined.
