(* ===== verification/Stream.v ===== *)
(** * Streaming primitives

    [vgi-rpc/src/stream.rs]: the collector a stream handler emits into, and what a
    streaming method returns. A handler sees the collector only through its public
    methods, so one turn of it is a program over them: [Turn]. *)

From S2P Require Import Prelude Bytes Metadata F64 Json ErrorModel Errors Ipc IpcWriter Arrow Dispatch Envelope.

(** ** A state and error monad: what the source threads through its calls *)
Definition ST (S A : Type) : Type := S → res RpcError A * S.
#[global] Instance ST_ret S : MRet (ST S) := fun A a s => (Ok a, s).
#[global] Instance ST_bind S : MBind (ST S) := fun A B f m s =>
  match m s with
  | (Ok a, s) => f a s
  | (Err e, s) => (Err e, s)
  | (Panic, s) => (Panic, s)
  end.

Definition lift {S A} (r : res RpcError A) : ST S A := fun s => (r, s).
Definition st_get {S A} (f : S → A) : ST S A := fun s => (Ok (f s), s).
Definition st_set {S} (f : S → S) : ST S unit := fun s => (Ok tt, f s).

(** [for x in l { f(x)?; }] *)
Fixpoint st_each {S A} (f : A → ST S unit) (l : list A) : ST S unit :=
  match l with
  | [] => mret tt
  | x :: l => _ ← f x; st_each f l
  end.

(** [let _ = m;] *)
Definition ignore_err {S A} (m : ST S A) : ST S unit := fun s =>
  match m s with (Panic, s) => (Panic, s) | (_, s) => (Ok tt, s) end.

(** Compute the monad's plumbing away. *)
Ltac st_simp H := cbv beta iota zeta delta [mbind ST_bind mret ST_ret lift st_get st_set ignore_err id] in H.

(** [call_guard]: a panic becomes an error value. *)
Definition handler_panicked : RpcError := RpcErr.new (bs "RuntimeError") (bs "handler panicked").
Definition call_guard {A} (r : res RpcError A) : res RpcError A :=
  match r with Panic => Err handler_panicked | r => r end.

Section Collector.
Context `{ArrowArrays}.

Inductive Emitted :=
| EBatch (batch : RecordBatch) (metadata : option Metadata)
| ELog (m : LogMessage).

Record OutputCollector := mkCollector {
  oc_schema : ArrowSchema;
  items : list Emitted;
  data_emitted : bool;
  oc_finished : bool;
  is_producer : bool;
  response_limit_bytes : option Z;
  preferred_response_bytes : option Z
}.

Definition collector_new (schema : ArrowSchema) (is_producer : bool) : OutputCollector :=
  mkCollector schema [] false false is_producer None None.

Definition set_response_budget (limit preferred : option Z) (c : OutputCollector) : OutputCollector :=
  mkCollector (oc_schema c) (items c) (data_emitted c) (oc_finished c) (is_producer c) limit
    ((fun p => match limit with Some hard => Z.min p hard | None => p end) <$> preferred).

Definition push_item (i : Emitted) (data : bool) (c : OutputCollector) : OutputCollector :=
  mkCollector (oc_schema c) (items c ++ [i]) (data_emitted c || data) (oc_finished c) (is_producer c)
    (response_limit_bytes c) (preferred_response_bytes c).

Definition ensure_data_slot (c : OutputCollector) : res RpcError unit :=
  if data_emitted c then Err (RpcErr.protocol_error (bs "only one data batch may be emitted per stream turn"))
  else Ok tt.

(** [emit] and [emit_with_metadata], which differ in their message. *)
Definition emit_as (what : list byte) (b : RecordBatch) (md : option Metadata) : ST OutputCollector unit :=
  c ← st_get id;
  _ ← lift (ensure_data_slot c);
  if negb (bool_decide (batch_schema b = oc_schema c)) then lift (Err (RpcErr.runtime_error what)) else
  st_set (push_item (EBatch b md) true).
Definition emit (b : RecordBatch) := emit_as (bs "emit(): schema mismatch") b None.
Definition emit_with_metadata (b : RecordBatch) (md : Metadata) :=
  emit_as (bs "emit_with_metadata(): schema mismatch") b (Some md).

Definition finish (c : OutputCollector) : OutputCollector :=
  mkCollector (oc_schema c) (items c) (data_emitted c) true (is_producer c)
    (response_limit_bytes c) (preferred_response_bytes c).

Definition client_log_with (m : LogMessage) (c : OutputCollector) : OutputCollector := push_item (ELog m) false c.
Definition client_log (l : LogLevel) (m : list byte) := client_log_with (log_new l m).

(** ** One turn of a handler: the calls it makes, and how it returns *)
Inductive Turn (X : Type) :=
| TReturn (r : res RpcError unit) (x : X)
| TEmit (b : RecordBatch) (md : option Metadata) (k : res RpcError unit → Turn X)
| TFinish (k : Turn X)
| TLog (m : LogMessage) (k : Turn X)
| TContextLog (m : LogMessage) (k : Turn X).

(** The result, the collector, and the logs pushed to the call context. *)
Fixpoint run_turn {X} (t : Turn X) (c : OutputCollector) (logs : list LogMessage)
  : res RpcError unit * X * OutputCollector * list LogMessage :=
  match t with
  | TReturn _ r x => (r, x, c, logs)
  | TEmit _ b md k =>
    let '(r, c) := match md with Some md => emit_with_metadata b md c | None => emit b c end in
    run_turn (k r) c logs
  | TFinish _ k => run_turn k (finish c) logs
  | TLog _ m k => run_turn k (client_log_with m c) logs
  | TContextLog _ m k => run_turn k c (logs ++ [m])
  end.

(** ** Stream results *)
Inductive StreamStateKind (X : Type) := SProducer (x : X) | SExchange (x : X).

Record StreamResult (X : Type) := mkStreamResult {
  output_schema : ArrowSchema;
  input_schema : option ArrowSchema;
  stream_state : StreamStateKind X;
  header : option RecordBatch;
  header_metadata : option Metadata
}.

Definition stream_producer {X} (schema : ArrowSchema) (x : X) : StreamResult X :=
  mkStreamResult X schema None (SProducer X x) None None.
Definition stream_exchange {X} (output input : ArrowSchema) (x : X) : StreamResult X :=
  mkStreamResult X output (Some input) (SExchange X x) None None.
Definition with_header {X} (h : RecordBatch) (r : StreamResult X) : StreamResult X :=
  mkStreamResult X (output_schema X r) (input_schema X r) (stream_state X r) (Some h) (header_metadata X r).
End Collector.

Arguments TReturn {_ _}. Arguments TEmit {_ _}. Arguments TFinish {_ _}.
Arguments TLog {_ _}. Arguments TContextLog {_ _}.
Arguments SProducer {_}. Arguments SExchange {_}.
Arguments mkStreamResult {_ _}. Arguments output_schema {_ _}. Arguments input_schema {_ _}.
Arguments stream_state {_ _}. Arguments header {_ _}. Arguments header_metadata {_ _}.

(** ** What a turn can put on the wire *)
Section Collected.
Context `{ArrowArrays}.

Definition is_data (i : Emitted) : bool := match i with EBatch _ _ => true | ELog _ => false end.

(** At most one data batch, of the stream's schema, and the flag says so. *)
Definition collector_inv (c : OutputCollector) : Prop :=
  (length (filter (fun i => is_data i = true) (items c)) = if data_emitted c then 1%nat else 0%nat) ∧
  Forall (fun i => match i with EBatch b _ => batch_schema b = oc_schema c | ELog _ => True end) (items c).

Lemma push_inv i d c :
  collector_inv c → is_data i = d → (d = true → data_emitted c = false) →
  match i with EBatch b _ => batch_schema b = oc_schema c | ELog _ => True end →
  collector_inv (push_item i d c).
Proof.
  intros [Hn Hf] Hd Hde Hi. split; simpl.
  - rewrite list.filter_app, length_app, Hn. destruct i; simpl in Hd; subst d; simpl.
    + by rewrite Hde.
    + rewrite orb_false_r. lia.
  - apply Forall_app. split; [done|]. by constructor.
Qed.

Lemma emit_inv what b md c r c' :
  collector_inv c → emit_as what b md c = (r, c') →
  collector_inv c' ∧ oc_schema c' = oc_schema c ∧ oc_finished c' = oc_finished c ∧
  (r = Ok tt → data_emitted c = false ∧ batch_schema b = oc_schema c ∧ items c' = items c ++ [EBatch b md]) ∧
  (r ≠ Ok tt → c' = c).
Proof.
  intros Hc E. unfold emit_as, ensure_data_slot in E. st_simp E.
  destruct (data_emitted c) eqn:Ed; st_simp E; [injection E as <- <-; naive_solver|].
  case_bool_decide as Hs; cbn [negb] in E; st_simp E; injection E as <- <-; [|naive_solver].
  split_and!; [by apply push_inv|done..|by naive_solver|naive_solver].
Qed.

(** Whatever a handler does in its turn, what the turn leaves to be written is at most
    one data batch, of the stream's declared schema, with its logs around it in the
    order of the calls. *)
Lemma run_turn_collects {X} (t : Turn X) c logs r x c' logs' :
  collector_inv c → run_turn t c logs = (r, x, c', logs') →
  collector_inv c' ∧ oc_schema c' = oc_schema c ∧
  (∃ new, items c' = items c ++ new) ∧ (∃ new, logs' = logs ++ new) ∧
  (oc_finished c = true → oc_finished c' = true).
Proof.
  revert c logs. induction t as [r0 x0|b md k IH|k IH|m k IH|m k IH]; intros c logs Hc E; cbn [run_turn] in E.
  - injection E as <- <- <- <-. split_and!; [done|done|exists []; by rewrite app_nil_r..|done].
  - destruct (match md with Some _ => _ | None => _ end) as [re c1] eqn:Ee.
    assert (∃ what, emit_as what b md c = (re, c1)) as [what Ea] by (destruct md; eauto).
    destruct (emit_inv _ _ _ _ _ _ Hc Ea) as (Hc1 & Hs1 & Hf1 & Hok & Hno).
    apply IH in E as (? & Hs & [n1 Hn1] & ? & Hf); [|done]. split_and!; [done|congruence| |done|naive_solver].
    destruct re as [[]|e|]; [|rewrite Hno in Hn1 by done; eauto..].
    destruct (Hok eq_refl) as (_ & _ & Hi). exists (EBatch b md :: n1). by rewrite Hn1, Hi, <- app_assoc.
  - apply IH in E as (? & ? & ? & ? & Hf); [naive_solver|done].
  - apply IH in E as (? & ? & [n1 Hn1] & ? & Hf); [|by apply push_inv].
    split_and!; [done|done|exists (ELog m :: n1); by rewrite Hn1; simpl; rewrite <- app_assoc|done|done].
  - apply IH in E as (? & ? & ? & [n1 Hn1] & Hf); [|done].
    split_and!; [done|done|done|exists (m :: n1); by rewrite Hn1, <- app_assoc|done].
Qed.
End Collected.
