(* ===== verification/Serve.v ===== *)
(** * Serving requests on a byte stream

    The serving half of [vgi-rpc/src/server.rs]: reading one request off the
    transport, attaching the shared-memory segment a client advertises, running
    the handler, and writing the response, for unary and streaming methods, up to
    the loop over a connection. Handlers, their states and the application's own
    state are parameters; a handler's effects on its [CallContext] (log messages,
    a pre-published reference) are part of what it returns. A handler is taken not to
    keep its input batch: the slot of a zero-copy batch is released when the call or
    the turn it came in ends. *)

From S2P Require Import Prelude Bytes Metadata F64 Json ErrorModel Errors Crypto ShmAllocator Ipc IpcWriter Arrow External ShmBatch Dispatch Envelope Stream.

(** ** Shared-memory segments by name *)

(** An attached segment: the OS object it maps, the advertised name and the size. *)
Record Segment := mkSegment { seg_object : list byte; seg_name : list byte; seg_size : Z }.

(** [ConnectionShm] *)
Record ConnectionShm := mkConnShm { cs_name : option (list byte); cs_segment : option Segment }.
Definition conn_shm_default : ConnectionShm := mkConnShm None None.

(** [CallStatistics] *)
Record CallStatistics := mkStats { input_batches : Z; input_rows : Z; output_batches : Z; output_rows : Z }.

(** What is taken off an attached object: [shm_open] of the name, or of the name
    behind a slash; a name with a zero byte is no C string. *)
Definition shm_object {V} (objects : gmap (list byte) V) (name : list byte) : option (list byte) :=
  if bool_decide (x00 ∈ name) then None else
  if bool_decide (is_Some (objects !! name)) then Some name else
  if starts_with [x2f] name then None else
  if bool_decide (is_Some (objects !! (x2f :: name))) then Some (x2f :: name) else None.

Section Serve.
Context `{ArrowShm, !Json, !Aead, !Zstd, !UrlLib}.
(** [App]: the application's state; [St]: the state object of a stream;
    [Store]: the external storage; [Conn]: the identity of the connection. *)
Context {App St Store Conn : Type} `{!ExternalStorage Store, !Fetcher Store}.

(** A unary handler's outcome: its result or panic, the logs it pushed to the call
    context, and the reference it recorded there. *)
Record UnaryOutcome := mkUnaryOutcome {
  u_result : res RpcError (option RecordBatch);
  u_logs : list LogMessage;
  u_external_ref : option ExternalRef;
  u_app : App
}.
Definition UnaryHandler := Request → Conn → App → UnaryOutcome.
Definition StreamHandler := Request → Conn → App → res RpcError (StreamResult St) * list LogMessage * App.

(** The methods of [ProducerState] and [ExchangeState]; the metadata is the tick's. *)
Class StreamState := {
  produce : St → Metadata → App → Turn (St * App);
  exchange : St → Metadata → RecordBatch → App → Turn (St * App);
  on_cancel : StreamStateKind St → Metadata → App → res RpcError unit * list LogMessage * App
}.

(** What a dispatch hook is told. *)
Inductive HookEvent :=
| HookStart (req : Request)
| HookEnd (req : Request) (err : option RpcError) (stats : CallStatistics) (externalized_bytes : Z).

(** The environment: whether the kernel maps a size, the size gate's variable, the
    reflection protocol, and where a failed read leaves a reader. *)
Class Env := {
  mmap_ok : Z → bool;
  env_min_batch : option (list byte);
  after_new : reader → reader;
  after_next : StreamReader → StreamReader;
  after_drain : StreamReader → reader
}.

Record World := mkWorld {
  w_in : reader;
  w_out : sink;
  w_cache : option ConnectionShm;
  w_objects : gmap (list byte) (gmap Z byte);
  w_ext : XState (S:=Store);
  w_app : App;
  w_stats : CallStatistics;
  w_app_err : option RpcError;
  w_hooks : list HookEvent
}.

Definition set_in (r : reader) (w : World) : World :=
  mkWorld r (w_out w) (w_cache w) (w_objects w) (w_ext w) (w_app w) (w_stats w) (w_app_err w) (w_hooks w).
Definition set_out (k : sink) (w : World) : World :=
  mkWorld (w_in w) k (w_cache w) (w_objects w) (w_ext w) (w_app w) (w_stats w) (w_app_err w) (w_hooks w).
Definition set_cache (c : option ConnectionShm) (w : World) : World :=
  mkWorld (w_in w) (w_out w) c (w_objects w) (w_ext w) (w_app w) (w_stats w) (w_app_err w) (w_hooks w).
Definition set_objects o (w : World) : World :=
  mkWorld (w_in w) (w_out w) (w_cache w) o (w_ext w) (w_app w) (w_stats w) (w_app_err w) (w_hooks w).
Definition set_ext x (w : World) : World :=
  mkWorld (w_in w) (w_out w) (w_cache w) (w_objects w) x (w_app w) (w_stats w) (w_app_err w) (w_hooks w).
Definition set_app a (w : World) : World :=
  mkWorld (w_in w) (w_out w) (w_cache w) (w_objects w) (w_ext w) a (w_stats w) (w_app_err w) (w_hooks w).
Definition set_stats s (w : World) : World :=
  mkWorld (w_in w) (w_out w) (w_cache w) (w_objects w) (w_ext w) (w_app w) s (w_app_err w) (w_hooks w).
Definition set_app_err e (w : World) : World :=
  mkWorld (w_in w) (w_out w) (w_cache w) (w_objects w) (w_ext w) (w_app w) (w_stats w) e (w_hooks w).
Definition add_hook h (w : World) : World :=
  mkWorld (w_in w) (w_out w) (w_cache w) (w_objects w) (w_ext w) (w_app w) (w_stats w) (w_app_err w) (w_hooks w ++ [h]).

Definition count_input (rows : Z) (s : CallStatistics) : CallStatistics :=
  mkStats ((input_batches s + 1) mod 2 ^ 64) ((input_rows s + rows) mod 2 ^ 64) (output_batches s) (output_rows s).
Definition count_output (rows : Z) (s : CallStatistics) : CallStatistics :=
  mkStats (input_batches s) (input_rows s) ((output_batches s + 1) mod 2 ^ 64) ((output_rows s + rows) mod 2 ^ 64).

Context `{!StreamState, !Env}.

(** ** Segments *)
Definition shm_view (seg : Segment) (w : World) : OsShm :=
  mkOsShm (seg_name seg) (seg_size seg) (default ∅ (w_objects w !! seg_object seg)).

Definition store_view (seg : Segment) (s : OsShm) (w : World) : World :=
  set_objects (<[seg_object seg := os_mem s]> (w_objects w)) w.

(** A call on an attached segment. *)
Definition on_segment {A} (seg : Segment) (f : OsShm → res RpcError (OsShm * (RpcError + A))) : ST World A := fun w =>
  match f (shm_view seg w) with
  | Ok (s, inr a) => (Ok a, store_view seg s w)
  | Ok (s, inl e) => (Err e, store_view seg s w)
  | Err e => (Err e, w)
  | Panic => (Panic, w)
  end.

Definition maybe_attach_shm (md : Metadata) : ST World (option Segment) := fun w =>
  match md !! SHM_SEGMENT_NAME_KEY, md !! SHM_SEGMENT_SIZE_KEY ≫= parse_unsigned usize_max with
  | Some name, Some size =>
    match shm_object (w_objects w) name with
    | Some obj =>
      if mmap_ok size then
        let seg := mkSegment obj name size in
        match segment_attach (shm_view seg w) with
        | Ok _ => (Ok (Some seg), w)
        | Err _ => (Ok None, w)
        | Panic => (Panic, w)
        end
      else (Ok None, w)
    | None => (Ok None, w)
    end
  | _, _ => (Ok None, w)
  end.

(** [ConnectionShm::refresh] *)
Definition refresh (md : Metadata) : ST World unit :=
  cache ← st_get w_cache;
  match cache, md !! SHM_SEGMENT_NAME_KEY with
  | Some c, Some name =>
    if bool_decide (cs_name c = Some name) then mret tt else
    new ← maybe_attach_shm md;
    match new with
    | Some seg => st_set (set_cache (Some (mkConnShm (Some name) (Some seg))))
    | None => mret tt
    end
  | _, _ => mret tt
  end.

(** The segment a batch is resolved against, and the slot the batch holds. *)
Abbreviation anchor := (option (Segment * Z)).

Definition resolve_in (b : RecordBatch) (md : Metadata) (seg : option Segment)
  : ST World (RecordBatch * Metadata * anchor) :=
  match seg with
  | None => mret (b, md, None)
  | Some seg =>
    r ← on_segment seg (fun s =>
          '(s', r) ← resolve_shm_batch b md (Some s);
          Ok (default s s', r));
    _ ← match release_offset r with
        | Some off => on_segment seg (fun s => s ← free_ignored s off; Ok (s, inr tt))
        | None => mret tt
        end;
    mret (resolved_batch r, ShmBatch.resolved_metadata r, (fun off => (seg, off)) <$> anchored r)
  end.

(** A zero-copy batch goes out of scope: its slot is released. *)
Definition drop_anchor (a : anchor) : ST World unit :=
  match a with
  | Some (seg, off) => on_segment seg (fun s => s ← anchor_drop s off; Ok (s, inr tt))
  | None => mret tt
  end.

(** ** Reading a request *)
Definition eof_like (e : RpcError) : bool :=
  let msg := to_ascii_lowercase <$> message e in
  contains (bs "empty ipc stream") msg || contains (bs "eof") msg.

(** The frame of one request, the rest of its stream drained. *)
Definition read_frame : ST World (option (RecordBatch * Metadata)) := fun w =>
  match stream_reader_new (w_in w) with
  | Err e => (if eof_like e then Ok None else Err e, set_in (after_new (w_in w)) w)
  | Panic => (Panic, w)
  | Ok rdr =>
    match read_next rdr with
    | Some (Ok (Some frame, rdr)) =>
      match drain rdr with
      | Some (Ok rdr) => (Ok (Some frame), set_in (sr_reader rdr) w)
      | Some (Err e) => (Err e, set_in (after_drain rdr) w)
      | _ => (Panic, w)
      end
    | Some (Ok (None, rdr)) => (Ok None, set_in (sr_reader rdr) w)
    | Some (Err e) => (Err e, set_in (sr_reader (after_next rdr)) w)
    | _ => (Panic, w)
    end
  end.

Definition uses_shm (md : Metadata) : bool :=
  bool_decide (is_Some (md !! SHM_OFFSET_KEY)) || bool_decide (is_Some (md !! SHM_SEGMENT_NAME_KEY)).

Definition read_request : ST World (option (RecordBatch * Metadata * bool * anchor)) :=
  frame ← read_frame;
  match frame with
  | None => mret None
  | Some (b, md) =>
    let request_used_shm := uses_shm md in
    '(b, md, a) ←
      (if is_shm_pointer_batch b md then
         cache ← st_get w_cache;
         seg ← match cache with
               | Some _ => _ ← refresh md; st_get (fun w => w_cache w ≫= cs_segment)
               | None => maybe_attach_shm md
               end;
         resolve_in b md seg
       else _ ← refresh md; mret (b, md, None));
    mret (Some (b, md, request_used_shm, a))
  end.

(** ** Writing a response *)

(** An open response stream with the reused envelope. *)
Record Resp := mkResp { rs_writer : StreamWriter; rs_env : EnvelopeMeta; rs_world : World }.

(** A [StreamWriter] over the transport, dropped when the scope ends. *)
Definition with_writer {A} (schema : ArrowSchema) (env : EnvelopeMeta) (body : ST Resp A)
  : ST World (A * EnvelopeMeta) := fun w =>
  match stream_writer_new (w_out w) schema with
  | (Ok sw, _) =>
    let '(r, s) := body (mkResp sw env w) in
    (a ← r; Ok (a, rs_env s), set_out (sw_writer (stream_writer_drop (rs_writer s))) (rs_world s))
  | (Err e, k) => (Err e, set_out k w)
  | (Panic, k) => (Panic, set_out k w)
  end.

Definition sw_write (b : RecordBatch) (md : option Metadata) : ST Resp unit := fun s =>
  let '(r, sw) := stream_writer_write (rs_writer s) b md in (r, mkResp sw (rs_env s) (rs_world s)).
Definition sw_finish : ST Resp unit := fun s =>
  let '(r, sw) := stream_writer_finish (rs_writer s) in (r, mkResp sw (rs_env s) (rs_world s)).
(** [out_writer.flush()] *)
Definition sw_flush : ST Resp unit := fun s => (flush_result (sw_writer (rs_writer s)), s).

(** An envelope on a zero-row batch. *)
Definition write_envelope (f : EnvelopeMeta → EnvelopeMeta) (b : RecordBatch) : ST Resp unit := fun s =>
  let env := f (rs_env s) in
  sw_write b (Some (envelope_metadata env)) (mkResp (rs_writer s) env (rs_world s)).

(** [for log in logs { let md = envelope.log(&log); sw.write(&empty_batch(..)?, Some(md))?; }] *)
Definition write_logs (schema : ArrowSchema) (logs : list LogMessage) : ST Resp unit :=
  st_each (fun log => b ← lift (empty_batch schema); write_envelope (envelope_log log) b) logs.

(** Effects on the rest of the world while a response is open. *)
Definition on_world {A} (m : ST World A) : ST Resp A := fun s =>
  let '(r, w) := m (rs_world s) in (r, mkResp (rs_writer s) (rs_env s) w).

Abbreviation Server := (RpcServer UnaryHandler StreamHandler).
Abbreviation Method := (MethodInfo UnaryHandler StreamHandler).

Definition write_error_stream (schema : ArrowSchema) (err : RpcError) (server_id request_id : list byte)
    (tb : option (list byte)) : ST World unit :=
  _ ← with_writer schema (envelope_new server_id request_id tb)
    (b ← lift (empty_batch schema);
     _ ← sw_write b (Some (build_error_metadata err server_id request_id tb));
     sw_finish);
  mret tt.

(** [maybe_write_to_shm] on the call's segment: the pointer, if one was made. *)
Definition route_shm (seg : option Segment) (b : RecordBatch) (md : Metadata)
  : ST World (option (RecordBatch * Metadata)) :=
  match seg with
  | None => mret None
  | Some seg =>
    '(b, md) ← on_segment seg (fun s =>
        '(s', r) ← maybe_write_to_shm env_min_batch b md (Some s); Ok (default s s', r));
    mret (if bool_decide (is_Some (md !! SHM_OFFSET_KEY)) then Some (b, md) else None)
  end.

(** [maybe_externalize_batch] under the server's configuration, as its result. *)
Definition externalize (srv : Server) (b : RecordBatch) (schema : ArrowSchema) (md : option Metadata)
  : ST World (RpcError + option (RecordBatch * Metadata)) := fun w =>
  match external_config srv with
  | None => (Ok (inr None), w)
  | Some cfg =>
    let '(r, x) := maybe_externalize_batch b schema md cfg (w_ext w) in
    (match r with Ok o => Ok (inr o) | Err e => Ok (inl e) | Panic => Panic end, set_ext x w)
  end.

(** [and_then(|r| r)] over [call_guard] of [info.unary.as_ref().unwrap()]. *)
Definition run_unary (info : Method) (req : Request) (conn : Conn)
  : ST World (res RpcError (option RecordBatch) * list LogMessage * option ExternalRef) := fun w =>
  match mi_unary info with
  | Some h => let o := h req conn (w_app w) in
              (Ok (call_guard (u_result o), u_logs o, u_external_ref o), set_app (u_app o) w)
  | None => (Ok (Err handler_panicked, [], None), w)
  end.

Definition put_and_finish (b : RecordBatch) (md : option Metadata) : ST Resp unit :=
  _ ← sw_write b md; sw_finish.

(** The result batch: through shared memory, external storage, or inline. *)
Definition write_result_batch (srv : Server) (info : Method) (seg : option Segment) (out : RecordBatch)
  : ST Resp unit :=
  _ ← on_world (st_set (fun w => set_stats (mkStats (input_batches (w_stats w)) (input_rows (w_stats w)) 1 (num_rows out)) w));
  p ← on_world (route_shm seg out ∅);
  match p with
  | Some (b, md) => put_and_finish b (Some md)
  | None =>
    x ← on_world (externalize srv out (result_schema info) None);
    match x with
    | inr (Some (b, md)) => put_and_finish b (Some md)
    | _ => put_and_finish out None
    end
  end.

Definition serve_unary (srv : Server) (req : Request) (info : Method) (conn : Conn) (seg : option Segment)
  : ST World unit :=
  let tb := traceback_origin srv (protocol req) (method req) in
  '(result, logs, ext_ref) ← run_unary info req conn;
  let env := envelope_new (server_id srv) (request_id req) tb in
  match result with
  | Ok maybe_batch =>
    _ ← with_writer (result_schema info) env
      (_ ← write_logs (result_schema info) logs;
       match ext_ref with
       | Some r =>
         '(p, md) ← lift (pointer_batch r (result_schema info));
         _ ← on_world (st_set (fun w => set_stats (mkStats (input_batches (w_stats w)) (input_rows (w_stats w)) 1
                                                    (output_rows (w_stats w))) w));
         put_and_finish p (Some md)
       | None =>
         out ← match maybe_batch with Some b => mret b | None => lift (empty_batch (result_schema info)) end;
         write_result_batch srv info seg out
       end);
    mret tt
  | Err err =>
    _ ← with_writer (result_schema info) env
      (_ ← write_logs (result_schema info) logs;
       b ← lift (empty_batch (result_schema info));
       _ ← write_envelope (envelope_error err) b;
       sw_finish);
    st_set (set_app_err (Some err))
  | Panic => lift Panic
  end.

(** ** Streams *)

(** [let _ = drain_input(r)] *)
Definition drain_input : ST World unit := fun w =>
  match stream_reader_new (w_in w) with
  | Ok rdr =>
    match drain rdr with
    | Some (Ok rdr) => (Ok tt, set_in (sr_reader rdr) w)
    | Some (Err e) => (Ok tt, set_in (after_drain rdr) w)
    | _ => (Panic, w)
    end
  | Err _ => (Ok tt, set_in (after_new (w_in w)) w)
  | Panic => (Panic, w)
  end.

(** The stream in lockstep: the input reader, the state object, the response. *)
Record Lock := mkLock { lk_reader : StreamReader; lk_state : StreamStateKind St; lk_resp : Resp }.

Definition on_resp {A} (m : ST Resp A) : ST Lock A := fun l =>
  let '(r, s) := m (lk_resp l) in (r, mkLock (lk_reader l) (lk_state l) s).

(** One emitted item. *)
Definition flush_item (srv : Server) (schema : ArrowSchema) (empty_out : RecordBatch) (seg : option Segment)
    (item : Emitted) : ST Resp unit :=
  match item with
  | ELog log => write_envelope (envelope_log log) empty_out
  | EBatch b md =>
    _ ← on_world (st_set (fun w => set_stats (count_output (num_rows b) (w_stats w)) w));
    p ← on_world (route_shm seg b (default ∅ md));
    match p with
    | Some (b, md) => sw_write b (Some md)
    | None =>
      x ← on_world (externalize srv b schema md);
      match x with
      | inr (Some (b, md)) => sw_write b (Some md)
      | inr None => sw_write b md
      | inl e => _ ← on_world (st_set (set_app_err (Some e))); sw_write b md
      end
    end
  end.

Definition write_env_error (e : RpcError) (empty_out : RecordBatch) : ST Resp unit :=
  write_envelope (envelope_error e) empty_out.

(** The client's cancellation. *)
Definition cancel_turn (empty_out : RecordBatch) (tick : Metadata) : ST Lock unit :=
  st ← st_get lk_state;
  '(r, logs) ← on_resp (on_world (fun w =>
      let '(r, logs, app) := on_cancel st tick (w_app w) in (Ok (call_guard r, logs), set_app app w)));
  _ ← on_resp (st_each (fun log => write_envelope (envelope_log log) empty_out) logs);
  match r with
  | Err e => _ ← on_resp (write_env_error e empty_out); on_resp (on_world (st_set (set_app_err (Some e))))
  | _ => mret tt
  end.

(** [produce] or [exchange] on a fresh collector, with the logs of the context. *)
Definition run_handler (result : StreamResult St) (input : RecordBatch) (tick : Metadata)
  : ST Lock (res RpcError unit * OutputCollector * list LogMessage) := fun l =>
  let w := rs_world (lk_resp l) in
  let out := collector_new (output_schema result)
               (match input_schema result with None => true | Some _ => false end) in
  let '(kind, t) := match lk_state l with
                    | SProducer x => (SProducer (X:=St), produce x tick (w_app w))
                    | SExchange x => (SExchange (X:=St), exchange x tick input (w_app w))
                    end in
  let '(r, (x, app), out, logs) := run_turn t out [] in
  (Ok (call_guard r, out, logs),
   mkLock (lk_reader l) (kind x) (mkResp (rs_writer (lk_resp l)) (rs_env (lk_resp l)) (set_app app w))).

(** The cast to the declared input schema; [None] ends the stream with an error. *)
Definition cast_input (result : StreamResult St) (empty_out : RecordBatch) (b : RecordBatch)
  : ST Resp (option RecordBatch) :=
  match input_schema result with
  | Some expected =>
    if bool_decide (batch_schema b = expected) then mret (Some b) else
    match cast_batch b expected with
    | Ok b => mret (Some b)
    | Err e => _ ← write_env_error e empty_out; mret None
    | Panic => lift Panic
    end
  | None => mret (Some b)
  end.

(** The turn after the input was resolved: whether the loop goes on. *)
Definition stream_turn (srv : Server) (result : StreamResult St) (empty_out : RecordBatch)
    (seg : option Segment) (input : RecordBatch) (tick : Metadata) : ST Lock bool :=
  _ ← on_resp (on_world (st_set (fun w => set_stats (count_input (num_rows input) (w_stats w)) w)));
  if bool_decide (is_Some (tick !! CANCEL_KEY)) then _ ← cancel_turn empty_out tick; mret false else
  casted ← on_resp (cast_input result empty_out input);
  match casted with
  | None => mret false
  | Some casted =>
    '(r, out, logs) ← run_handler result casted tick;
    _ ← on_resp (st_each (fun log => write_envelope (envelope_log log) empty_out) logs);
    match r with
    | Err e => _ ← on_resp (write_env_error e empty_out);
               _ ← on_resp (on_world (st_set (set_app_err (Some e)))); mret false
    | _ =>
      _ ← on_resp (st_each (flush_item srv (output_schema result) empty_out seg) (items out));
      _ ← on_resp sw_flush;
      mret (negb (oc_finished out))
    end
  end.

(** One pass of the loop: the turn's batch goes out of scope at its end. *)
Definition stream_pass (srv : Server) (result : StreamResult St) (empty_out : RecordBatch) (seg : option Segment)
  : ST Lock bool := fun l =>
  match read_next (lk_reader l) with
  | Some (Ok (Some (b, md), rdr)) =>
    let l := mkLock rdr (lk_state l) (lk_resp l) in
    match on_resp (on_world (resolve_in b md seg)) l with
    | (Ok (b, md, a), l) =>
      match stream_turn srv result empty_out seg b md l with
      | (r, l) => let '(d, l) := on_resp (on_world (drop_anchor a)) l in (go ← r; _ ← d; Ok go, l)
      end
    | (Err e, l) => (Err e, l)
    | (Panic, l) => (Panic, l)
    end
  | Some (Ok (None, rdr)) => (Ok false, mkLock rdr (lk_state l) (lk_resp l))
  | Some (Err _) => (Ok false, mkLock (after_next (lk_reader l)) (lk_state l) (lk_resp l))
  | _ => (Panic, l)
  end.

(** ['lockstep: loop]; running out of fuel would be the loop not ending. *)
Fixpoint lockstep (fuel : nat) (srv : Server) (result : StreamResult St) (empty_out : RecordBatch)
    (seg : option Segment) : ST Lock unit :=
  match fuel with
  | O => lift Panic
  | S fuel => stream_pass srv result empty_out seg ≫= fun go : bool =>
              if go then lockstep fuel srv result empty_out seg else mret tt
  end.

(** The input stream, opened on the transport; its reader is put back at the end,
    after [let _ = input_reader.drain()] when the loop ended well. *)
Definition lockstep_stream (srv : Server) (result : StreamResult St) (init_logs : list LogMessage)
    (seg : option Segment) : ST Resp unit := fun s =>
  match stream_reader_new (w_in (rs_world s)) with
  | Err e => (Err e, mkResp (rs_writer s) (rs_env s) (set_in (after_new (w_in (rs_world s))) (rs_world s)))
  | Panic => (Panic, s)
  | Ok rdr =>
    let m : ST Lock unit :=
      empty_out ← lift (empty_batch (output_schema result));
      _ ← match header result with
          | Some _ => mret tt
          | None => on_resp (st_each (fun log => write_envelope (envelope_log log) empty_out) init_logs)
          end;
      _ ← lockstep (S (reader_size (sr_reader rdr))) srv result empty_out seg;
      on_resp sw_finish in
    let '(r, l) := m (mkLock rdr (stream_state result) s) in
    let put r0 := mkResp (rs_writer (lk_resp l)) (rs_env (lk_resp l)) (set_in r0 (rs_world (lk_resp l))) in
    match r with
    | Ok _ =>
      match drain (lk_reader l) with
      | Some (Ok rdr) => (Ok tt, put (sr_reader rdr))
      | Some (Err _) => (Ok tt, put (after_drain (lk_reader l)))
      | _ => (Panic, put (sr_reader (lk_reader l)))
      end
    | Err e => (Err e, put (sr_reader (lk_reader l)))
    | Panic => (Panic, put (sr_reader (lk_reader l)))
    end
  end.

Definition run_stream (info : Method) (req : Request) (conn : Conn)
  : ST World (res RpcError (StreamResult St) * list LogMessage) := fun w =>
  match mi_stream info with
  | Some h => let '(r, logs, app) := h req conn (w_app w) in (Ok (call_guard r, logs), set_app app w)
  | None => (Ok (Err handler_panicked, []), w)
  end.

Definition serve_stream (srv : Server) (req : Request) (info : Method) (conn : Conn) (seg : option Segment)
  : ST World unit :=
  let tb := traceback_origin srv (protocol req) (method req) in
  let env := envelope_new (server_id srv) (request_id req) tb in
  '(init, init_logs) ← run_stream info req conn;
  match init with
  | Err err =>
    _ ← with_writer (result_schema info) env
      (_ ← write_logs (result_schema info) init_logs;
       b ← lift (empty_batch (result_schema info));
       _ ← write_envelope (envelope_error err) b;
       sw_finish);
    _ ← drain_input;
    st_set (set_app_err (Some err))
  | Panic => lift Panic
  | Ok result =>
    '(_, env) ← match header result with
         | Some h =>
           with_writer (batch_schema h) env
             (_ ← write_logs (batch_schema h) init_logs;
              _ ← sw_write h (header_metadata result);
              sw_finish)
         | None => mret (tt, env)
         end;
    _ ← with_writer (output_schema result) env (_ ← sw_flush; lockstep_stream srv result init_logs seg);
    mret tt
  end.

(** ** One request *)
Definition worker_transport_metadata : Metadata := <[TRANSPORT_SHM_KEY := bs "true"]> ∅.

Definition serve_transport_options (srv : Server) : ST World unit :=
  let md := <[SERVER_ID_KEY := server_id srv]> (<[REQUEST_VERSION_KEY := REQUEST_VERSION]> worker_transport_metadata) in
  b ← lift (empty_batch empty_schema);
  _ ← with_writer empty_schema (envelope_new [] [] None) (put_and_finish b (Some md));
  mret tt.

(** The segment of this call's data plane. *)
Definition call_segment (used_shm : bool) (md : Metadata) : ST World (option Segment) :=
  cache ← st_get w_cache;
  match cache with
  | Some c => mret (if used_shm then cs_segment c else None)
  | None => maybe_attach_shm md
  end.

Definition scope_begin : ST World Z := fun w =>
  let '(outer, x) := scope_new (w_ext w) in (Ok outer, set_ext x w).
Definition scope_end (outer : Z) : ST World Z := fun w =>
  let '(n, x) := scope_finish outer (w_ext w) in (Ok n, set_ext x w).

(** A method's call between the dispatch hook's two events. *)
Definition serve_method (srv : Server) (req : Request) (used_shm : bool)
    (serve : option Segment → ST World unit) : ST World unit :=
  _ ← st_set (fun w => set_app_err None (set_stats (mkStats 1 (num_rows (batch req)) 0 0) w));
  _ ← (if dispatch_hook srv then st_set (add_hook (HookStart req)) else mret tt);
  seg ← call_segment used_shm (metadata req);
  outer ← scope_begin;
  _ ← serve seg;
  ext ← scope_end outer;
  if dispatch_hook srv
  then st_set (fun w => add_hook (HookEnd req (w_app_err w) (w_stats w) ext) w)
  else mret tt.

(** [serve_reflection]: the reflection protocol. *)
Context (serve_reflection : Server → Request → Conn → ST World unit).

Definition perform (srv : Server) (conn : Conn) (rid : list byte) (used_shm : bool)
    (a : Action UnaryHandler StreamHandler) : ST World unit :=
  match a with
  | RespondError None schema e =>
    write_error_stream schema e (server_id srv) rid (traceback_origin srv [] [])
  | RespondError (Some req) schema e =>
    write_error_stream schema e (server_id srv) (request_id req) (traceback_origin srv (protocol req) (method req))
  | TransportOptions _ => serve_transport_options srv
  | Reflect req => serve_reflection srv req conn
  | ServeUnary req info => serve_method srv req used_shm (serve_unary srv req info conn)
  | ServeStream req info => serve_method srv req used_shm (serve_stream srv req info conn)
  end.

(** What follows [read_request]; the request's batch goes out of scope at the end. *)
Definition serve_frame (srv : Server) (conn : Conn) (b : RecordBatch) (md : Metadata) (used_shm : bool) (a : anchor)
  : ST World bool := fun w =>
  let rid := default [] (md !! REQUEST_ID_KEY) in
  let '(r, w) := (act ← lift (dispatch srv b md); perform srv conn rid used_shm act) w in
  let '(d, w) := drop_anchor a w in
  (_ ← r; _ ← d; Ok true, w).

Definition _serve_one (srv : Server) (conn : Conn) : ST World bool :=
  frame ← read_request;
  match frame with
  | None => mret false
  | Some (b, md, used_shm, a) => serve_frame srv conn b md used_shm a
  end.

(** ** The loop over a connection; [steps] bounds the requests it is asked about *)
Inductive LoopEnd := Running | Closed | Failed (e : RpcError).

(** [serve_with_context], up to [steps] requests. *)
Fixpoint serve_loop (steps : nat) (srv : Server) (conn : Conn) (w : World) : res RpcError LoopEnd * World :=
  match steps with
  | O => (Ok Running, w)
  | S steps =>
    match _serve_one srv conn w with
    | (Ok true, w) => serve_loop steps srv conn w
    | (Ok false, w) => (Ok Closed, w)
    | (Err e, w) => (Ok (Failed e), w)
    | (Panic, w) => (Panic, w)
    end
  end.

(** [serve_with_context_and_shutdown]: the signal is asked before each request. *)
Fixpoint serve_loop_shutdown (shutdown : list bool) (srv : Server) (conn : Conn) (w : World) : res RpcError LoopEnd * World :=
  match shutdown with
  | [] => (Ok Running, w)
  | true :: _ => (Ok Closed, w)
  | false :: shutdown =>
    match _serve_one srv conn w with
    | (Ok true, w) => serve_loop_shutdown shutdown srv conn w
    | (Ok false, w) => (Ok Closed, w)
    | (Err _, w) => (Ok Closed, w)
    | (Panic, w) => (Panic, w)
    end
  end.
End Serve.
