(* ===== verification/ServeProps.v ===== *)
(** * Responses: framing, order and the next request

    Inversion lemmas for the state monad, the items a response stream carries, and
    what one call leaves on the two directions of the transport. *)

From S2P Require Import Prelude Bytes Metadata F64 Json ErrorModel Errors Crypto ShmAllocator Ipc IpcProps IpcWriter IpcWriterProps IpcStream Arrow External ExternalProps ShmBatch ShmBatchProps Dispatch Envelope EnvelopeProps Stream Serve.

(** ** The state monad *)
Lemma st_bind_Ok {S A B} (m : ST S A) (f : A → ST S B) s b s' :
  (m ≫= f) s = (Ok b, s') ↔ ∃ a s1, m s = (Ok a, s1) ∧ f a s1 = (Ok b, s').
Proof.
  unfold mbind, ST_bind. destruct (m s) as [[a|e|] s1]; naive_solver.
Qed.

Lemma lift_Ok {S A} (r : res RpcError A) (s : S) a s' : lift r s = (Ok a, s') ↔ r = Ok a ∧ s' = s.
Proof. unfold lift. naive_solver. Qed.

Lemma st_each_Ok {S A} (P : list A → S → Prop) (f : A → ST S unit) l s s' :
  st_each f l s = (Ok tt, s') → P [] s →
  (∀ done x s1 s2, x ∈ l → P done s1 → f x s1 = (Ok tt, s2) → P (done ++ [x]) s2) → P l s'.
Proof.
  intros E H0 Hf. enough (∀ done s, P done s → st_each f l s = (Ok tt, s') → P (done ++ l) s') as H.
  { by apply (H []) in E. }
  clear E H0 s. induction l as [|x l IH]; intros done s Hd E; cbn [st_each] in E.
  { injection E as <-. by rewrite app_nil_r. }
  apply st_bind_Ok in E as ([] & s1 & Ex & E). replace (done ++ x :: l) with ((done ++ [x]) ++ l) by by rewrite <- app_assoc.
  eapply IH; [|eapply Hf; [by left| |exact Ex]; done|exact E]. intros d y s2 s3 Hy. apply Hf. by right.
Qed.

(** Peel binds off a hypothesis that an [ST] computation returned. *)
Ltac inv_st :=
  repeat match goal with
  | H : (_ ≫= _) _ = (Ok _, _) |- _ => apply st_bind_Ok in H as (? & ? & ? & H)
  | H : lift _ _ = (Ok _, _) |- _ => apply lift_Ok in H as [? ->]
  | H : mret _ _ = (Ok _, _) |- _ => injection H as ? ?; subst
  | H : st_get _ _ = (Ok _, _) |- _ => injection H as ? ?; subst
  | H : st_set _ _ = (Ok _, _) |- _ => injection H as ?; subst
  | x : unit |- _ => destruct x
  end.

(** ** UTF-8 envelopes *)
Section Envelopes.
Context `{JL : JsonLaws}.

Definition log_utf8 (m : LogMessage) : Prop :=
  utf8_valid (log_message m) = true ∧ forallb (fun kv => utf8_valid kv.1 && utf8_valid kv.2) (extras m) = true.

Definition op_utf8 (tb : option (list byte)) (op : envelope_op) : Prop :=
  match op with OpLog m => log_utf8 m | OpError e => error_text tb e = true end.

Lemma transient_utf8 k : k ∈ transient_keys → utf8_valid k = true.
Proof.
  unfold transient_keys. intros Hk. rewrite !elem_of_cons, elem_of_nil in Hk.
  by destruct Hk as [->|[->|[->|[->|[->|[->|[]]]]]]].
Qed.

Lemma encode_details_utf8 err text tb :
  error_text tb err = true → encode_error_details (RpcErr.wire_details err) = Some text → utf8_valid text = true.
Proof.
  intros Ht Ee. unfold error_text in Ht. rewrite !andb_true_iff in Ht. destruct Ht as [_ Hd].
  apply encode_details_Some in Ee as (_ & _ & -> & _).
  apply json_utf8. change JSON_DEPTH with (S 126). cbn [text_safe]. rewrite forallb_forall in Hd |- *.
  intros v Hv. eapply text_safe_mono; [|by apply Hd]. unfold JSON_DEPTH. lia.
Qed.

Lemma op_value_utf8 tb op k v : op_utf8 tb op → op_value tb op k = Some v → utf8_valid v = true.
Proof.
  destruct op as [m|e]; simpl; unfold op_value.
  - intros [Hm Hx]. repeat case_decide; [..|done].
    + intros [= <-]. by destruct m as [[] ? ?].
    + by intros [= <-].
    + case_bool_decide; [done|]. intros [= <-]. unfold extras_json. apply json_utf8. by apply extras_safe.
  - intros Ht. pose proof Ht as Ht'. unfold error_text in Ht'. rewrite !andb_true_iff in Ht'.
    destruct Ht' as [[[[[[H1 H2] H3] H4] H5] H6] H7]. repeat case_decide; try (intros [= <-]; done).
    + intros [= <-]. apply json_utf8. by apply error_extra_safe.
    + intros Ek. by rewrite Ek in H5.
    + intros Ee. by eapply encode_details_utf8.
Qed.

Lemma fresh_map_utf8 sid rid tb :
  utf8_valid sid = true → utf8_valid rid = true → metadata_utf8 (envelope_map (envelope_new sid rid tb)).
Proof.
  intros Hs Hr. unfold envelope_map, envelope_new; cbn [env_md env_server_id env_request_id]. cbv zeta.
  assert (metadata_utf8 (if bool_decide (sid = []) then ∅ else <[SERVER_ID_KEY:=sid]> ∅)) as Hm.
  { case_bool_decide; [apply map_Forall_empty|]. by apply map_Forall_insert_2; [|apply map_Forall_empty]. }
  destruct (bool_decide (rid = [])); [done|]. by apply map_Forall_insert_2.
Qed.

Lemma envelope_utf8 sid rid tb op :
  utf8_valid sid = true → utf8_valid rid = true → op_utf8 tb op →
  metadata_utf8 (envelope_metadata (envelope_apply (envelope_new sid rid tb) op)).
Proof.
  intros Hs Hr Ho k v. rewrite metadata_map by apply apply_call. rewrite apply_lookup. case_decide as Hk.
  - intros Hv. split; [by apply transient_utf8|]. by eapply op_value_utf8.
  - by apply fresh_map_utf8.
Qed.

Lemma log_metadata_any sid rid tb m :
  envelope_metadata (envelope_apply (envelope_new sid rid tb) (OpLog m)) = build_log_metadata m sid rid.
Proof.
  unfold build_log_metadata. change (envelope_log m (envelope_new sid rid None))
    with (envelope_apply (envelope_new sid rid None) (OpLog m)).
  rewrite !metadata_map by apply apply_call. apply map_eq. intros k. by rewrite !apply_lookup.
Qed.
(** An error without details and with constant texts. *)
Lemma plain_error_text tb e :
  utf8_valid (default [] tb) = true → utf8_valid (message e) = true →
  utf8_valid (error_type e) && utf8_valid (traceback e) && utf8_valid (RpcErr.wire_code e)
    && utf8_valid (default [] (error_kind e)) = true → RpcErr.wire_details e = [] → error_text tb e = true.
Proof.
  intros Ht Hm Hr Hd. rewrite !andb_true_iff in Hr. destruct Hr as [[[H1' H2'] H3'] H4'].
  unfold error_text. by rewrite H1', Hm, H2', H3', H4', Ht, Hd.
Qed.
End Envelopes.

Section Serving.
Context `{LS : ArrowShmLaws} `{JL : JsonLaws} `{!Aead, !Zstd, !ZstdLaws, !UrlLib}.
Context {App St Store Conn : Type} `{!ExternalStorage Store, !Fetcher Store, !StorageLaws (S:=Store)}.
Context `{!StreamState (App:=App) (St:=St), !Env}.

Abbreviation Uh := (UnaryHandler (App:=App) (Conn:=Conn)).
Abbreviation Sh := (StreamHandler (App:=App) (St:=St) (Conn:=Conn)).
Abbreviation world := (World (App:=App) (Store:=Store)).
Abbreviation resp := (Resp (App:=App) (Store:=Store)).
Implicit Types (w : world) (rs : resp) (srv : RpcServer Uh Sh) (info : MethodInfo Uh Sh).

(** ** A response being written *)

(** [rs] has written [its] after [base], and its envelope is a call's with the ids
    and traceback of [e]. *)
Definition responding (base : list byte) (s : ArrowSchema) (its : list (RecordBatch * Metadata)) (e : EnvelopeMeta)
    rs : Prop :=
  writing base s its (rs_writer rs) ∧ same_call (rs_env rs) e.

Lemma empty_fits s b : empty_batch s = Ok b → fits s b.
Proof. intros [<- _]%empty_batch_spec. apply fits_own. Qed.

Lemma sw_write_ok base s its e rs b md rs' :
  responding base s its e rs → fits s b → opt_utf8 md → sw_write b md rs = (Ok tt, rs') →
  responding base s (its ++ [(b, default ∅ md)]) e rs' ∧ rs_world rs' = rs_world rs.
Proof.
  intros [Hw Hc] Hf Hu E. unfold sw_write in E. destruct (stream_writer_write _ _ _) as [r sw] eqn:Ew.
  injection E as -> <-. split; [|done]. split; [|done]. by eapply writing_write.
Qed.

Lemma write_envelope_ok base s its sid rid tb rs b op rs' :
  responding base s its (envelope_new sid rid tb) rs → fits s b →
  utf8_valid sid = true → utf8_valid rid = true → op_utf8 tb op →
  write_envelope (fun e => envelope_apply e op) b rs = (Ok tt, rs') →
  responding base s (its ++ [(b, envelope_metadata (envelope_apply (envelope_new sid rid tb) op))])
    (envelope_new sid rid tb) rs' ∧ rs_world rs' = rs_world rs.
Proof.
  intros [Hw Hc] Hf Hs Hr Ho E. unfold write_envelope in E. rewrite (same_call_apply _ _ op Hc) in E.
  eapply (sw_write_ok base s its (envelope_new sid rid tb)) in E; [|split; [done|]|done|by apply envelope_utf8].
  - exact E.
  - simpl. destruct (same_call_step (rs_env rs) op) as (G1 & G2 & G3 & G4), Hc as (C1 & C2 & C3 & C4).
    split_and!; try congruence. intros k Hk. by rewrite G4, C4.
Qed.

(** The items of log messages on a zero-row batch. *)
Definition log_items (sid rid : list byte) (b : RecordBatch) (logs : list LogMessage) : list (RecordBatch * Metadata) :=
  (fun m => (b, build_log_metadata m sid rid)) <$> logs.

Lemma log_each_ok base s its sid rid tb b logs rs rs' :
  responding base s its (envelope_new sid rid tb) rs → fits s b →
  utf8_valid sid = true → utf8_valid rid = true → Forall log_utf8 logs →
  st_each (fun log => write_envelope (envelope_log log) b) logs rs = (Ok tt, rs') →
  responding base s (its ++ log_items sid rid b logs) (envelope_new sid rid tb) rs' ∧ rs_world rs' = rs_world rs.
Proof.
  intros Hrs Hf Hs Hr Hl E.
  eapply (st_each_Ok (fun done r => responding base s (its ++ log_items sid rid b done) (envelope_new sid rid tb) r ∧
                                    rs_world r = rs_world rs)) in E; [exact E| |].
  - unfold log_items. simpl. by rewrite app_nil_r.
  - intros done m s1 s2 Hm [Hd1 Hd2] Em. rewrite list.Forall_forall in Hl.
    eapply (write_envelope_ok _ _ _ _ _ _ _ _ (OpLog m)) in Em as [Em1 Em2]; [|done..|by apply Hl].
    rewrite log_metadata_any in Em1. split; [|congruence]. unfold log_items in *. by rewrite fmap_app, app_assoc.
Qed.

Lemma write_logs_ok base s its sid rid tb b logs rs rs' :
  empty_batch s = Ok b → responding base s its (envelope_new sid rid tb) rs →
  utf8_valid sid = true → utf8_valid rid = true → Forall log_utf8 logs →
  write_logs s logs rs = (Ok tt, rs') →
  responding base s (its ++ log_items sid rid b logs) (envelope_new sid rid tb) rs' ∧ rs_world rs' = rs_world rs.
Proof.
  intros Eb Hrs Hs Hr Hl E. eapply log_each_ok; [done|by apply empty_fits|done..|].
  unfold write_logs in E. clear Hrs Hl. revert rs E.
  induction logs as [|m logs IH]; intros rs E; [done|]. cbn [st_each] in *.
  apply st_bind_Ok in E as ([] & s1 & E1 & E). apply st_bind_Ok. apply st_bind_Ok in E1 as (b' & s2 & Eb' & E1).
  apply lift_Ok in Eb' as [Eb' ->]. assert (b' = b) as -> by congruence. exists tt, s1. split; [done|]. by apply IH.
Qed.

Lemma finish_ok base s its e rs rs' :
  responding base s its e rs → sw_finish rs = (Ok tt, rs') →
  rs_world rs' = rs_world rs ∧ rs_env rs' = rs_env rs ∧
  ∃ l, wire_stream s its l ∧ sent (sw_writer (stream_writer_drop (rs_writer rs'))) = base ++ l.
Proof.
  intros [Hw _] E. unfold sw_finish in E. destruct (stream_writer_finish _) as [r sw] eqn:Ef. injection E as -> <-.
  destruct (writing_finish _ _ _ _ _ Hw Ef) as (Hd & l & Hl & Hsent). split; [done|]. split; [done|].
  exists l. split; [done|]. simpl. by rewrite Hd.
Qed.

(** A scope with a writer: the body starts on an open stream without items. *)
Lemma with_writer_ok {A} s env (body : ST resp A) w a env' w' :
  with_writer s env body w = (Ok (a, env'), w') →
  ∃ rs rs', responding (sent (w_out w)) s [] env rs ∧ rs_world rs = w ∧ rs_env rs = env ∧ body rs = (Ok a, rs') ∧
    env' = rs_env rs' ∧ w' = set_out (sw_writer (stream_writer_drop (rs_writer rs'))) (rs_world rs').
Proof.
  intros E. unfold with_writer in E. destruct (stream_writer_new (w_out w) s) as [[sw|?|] k] eqn:En; [|done..].
  destruct (body (mkResp sw env w)) as [r rs'] eqn:Eb. destruct r as [a'|?|]; [|done..]. injection E as <- <- <-.
  exists (mkResp sw env w), rs'. split_and!; try done. split; [|done]. simpl. apply writing_new. by rewrite En.
Qed.

Lemma put_and_finish_ok base s its e rs b md rs' :
  responding base s its e rs → fits s b → opt_utf8 md → put_and_finish b md rs = (Ok tt, rs') →
  rs_world rs' = rs_world rs ∧
  ∃ l, wire_stream s (its ++ [(b, default ∅ md)]) l ∧ sent (sw_writer (stream_writer_drop (rs_writer rs'))) = base ++ l.
Proof.
  intros Hr Hf Hu E. unfold put_and_finish in E. apply st_bind_Ok in E as ([] & s1 & E1 & E).
  eapply sw_write_ok in E1 as [E1 Hw]; [|done..].
  eapply finish_ok in E as (Hw' & _ & l & Hl & Hs); [|done]. split; [congruence|]. eauto.
Qed.

Lemma on_resp_world_ret {A} (a : A) (k : Lock (App:=App) (St:=St) (Store:=Store)) :
  on_resp (on_world (mret a)) k = (Ok a, k).
Proof. by destruct k as [? ? []]. Qed.

(** ** Routing a batch around the wire *)

(** Nothing but segments, storage, statistics and the recorded error differs. *)
Definition frame w w' : Prop :=
  w_in w' = w_in w ∧ w_out w' = w_out w ∧ w_cache w' = w_cache w ∧ w_app w' = w_app w ∧ w_hooks w' = w_hooks w.

#[global] Instance frame_preorder : PreOrder frame.
Proof. split; [done|]. intros w1 w2 w3 (?&?&?&?&?) (?&?&?&?&?). split_and!; congruence. Qed.

Lemma on_segment_frame {A} seg (f : OsShm → res RpcError (OsShm * (RpcError + A))) w r w' :
  on_segment seg f w = (r, w') → frame w w'.
Proof. unfold on_segment. destruct (f _) as [[s [e|a]]|?|]; intros [= <- <-]; done. Qed.

Lemma md_union_utf8 (a b : Metadata) : metadata_utf8 a → metadata_utf8 b → metadata_utf8 (a ∪ b).
Proof. intros Ha Hb. by apply map_Forall_union_2. Qed.

Lemma dec_unsigned_utf8 n : 0 ≤ n → utf8_valid (dec_unsigned n) = true.
Proof.
  intros Hn. apply utf8_valid_ascii. eapply list.Forall_impl; [by apply dec_unsigned_digits|].
  intros b Hb. unfold is_ascii_digit, in_range in Hb. apply andb_true_iff in Hb as [_ Hb%Z.leb_le]. lia.
Qed.

(** What [maybe_write_to_shm] hands back: the batch as it came, or a pointer to it. *)
Lemma maybe_write_shape env b md s s' b' md' :
  maybe_write_to_shm env b md (Some s) = Ok (s', inr (b', md')) →
  (b' = b ∧ md' = md) ∨
  (empty_batch (batch_schema b) = Ok b' ∧ is_Some (md' !! SHM_OFFSET_KEY) ∧
   ∃ off len, 0 ≤ off ∧ 0 ≤ len ∧ md' = <[SHM_LENGTH_KEY := dec_unsigned len]> (<[SHM_OFFSET_KEY := dec_unsigned off]> ∅) ∪ md).
Proof.
  unfold maybe_write_to_shm. destruct (num_rows b =? 0); [naive_solver|].
  destruct (foldr _ _ _ <? _); [naive_solver|]. intros E. apply bind_Ok in E as ([s1 r] & Ea & E).
  destruct r as [e|[[off len]|]]; [done| |naive_solver]. apply allocate_and_write_nonneg in Ea as [Ho Hl].
  destruct (make_shm_pointer_batch _ _ _) as [[p pmd]|?|] eqn:Ep; [|done..]. injection E as <- <- <-. right.
  unfold make_shm_pointer_batch in Ep. apply bind_Ok in Ep as (eb & Eb & Ep). injection Ep as <- <-.
  split; [done|]. split; [|by exists off, len]. rewrite lookup_union, lookup_insert_ne by key_ne. rewrite lookup_insert_eq.
  destruct (md !! SHM_OFFSET_KEY); by eexists.
Qed.

Lemma route_shm_ok seg b md w o w' :
  route_shm seg b md w = (Ok o, w') →
  frame w w' ∧ (seg = None → o = None) ∧
  ∀ b' md', o = Some (b', md') →
    (b' = b ∧ md' = md ∧ is_Some (md !! SHM_OFFSET_KEY)) ∨
    (empty_batch (batch_schema b) = Ok b' ∧ is_Some (md' !! SHM_OFFSET_KEY) ∧ (metadata_utf8 md → metadata_utf8 md')).
Proof.
  unfold route_shm. destruct seg as [seg|]; [|intros [= <- <-]; split; [done|naive_solver]].
  intros E. apply st_bind_Ok in E as ([b1 md1] & w1 & E1 & E). injection E as <- <-.
  split; [by eapply on_segment_frame|]. split; [done|]. intros b' md'. case_bool_decide as Hk; [|done]. intros [= -> ->].
  unfold on_segment in E1. destruct (_ ≫= _) as [[s1 [e|x]]|?|] eqn:Em; [done| |done..]. injection E1 as -> <-.
  apply bind_Ok in Em as ([s2 r] & Em & Er). injection Er as <- ->.
  apply maybe_write_shape in Em as [[-> ->]|(He & Hs & off & len & Ho & Hl & ->)]; [by left|right].
  split; [done|]. split; [done|]. intros Hu. apply md_union_utf8; [|done].
  repeat (apply map_Forall_insert_2; [split; [done|by apply dec_unsigned_utf8]|]). apply map_Forall_empty.
Qed.

Lemma externalize_ok srv b s md w r w' :
  externalize srv b s md w = (Ok r, w') →
  frame w w' ∧ (external_config srv = None → r = inr None) ∧
  ∀ p pmd, r = inr (Some (p, pmd)) →
    empty_batch s = Ok p ∧ is_Some (pmd !! LOCATION_KEY) ∧ (opt_utf8 md → metadata_utf8 pmd).
Proof.
  unfold externalize. destruct (external_config srv) as [cfg|]; [|intros [= <- <-]; split; [done|naive_solver]].
  destruct (maybe_externalize_batch b s md cfg (w_ext w)) as [ro x] eqn:Em. intros E. split; [by injection E as _ <-|].
  split; [done|]. intros p pmd ->. destruct ro as [o|?|]; [|done..]. injection E as -> <-.
  unfold maybe_externalize_batch, prepare_externalize_batch, prepare_externalize_batch_inner in Em.
  destruct (num_rows b =? 0); [done|].
  destruct (write_one_batch_as _ _ _ _) as [ipc|?|]; [|done..]. cbn [mbind res_bind] in Em.
  destruct (negb false && _); [done|]. destruct (encode_payload _ _) as [enc|?|] eqn:Ee; [|done..]. cbn [mbind res_bind] in Em.
  destruct (empty_batch s) as [eb|?|] eqn:Eb; [|done..]. cbn [mbind res_bind] in Em.
  unfold upload_prepared in Em. destruct (upload_payload _ _ _) as [ru x1] eqn:Eu. destruct ru as [url|?|]; [|done..].
  cbn [mbind res_bind fmap res_fmap ptr prepared_md encoded] in Em. destruct (validate_external_url _ _) as [[]|?|]; [|done..].
  cbn [mbind res_bind fmap res_fmap] in Em. injection Em as <- <- _. split; [done|].
  split; [rewrite lookup_insert_ne by key_ne; rewrite lookup_insert_eq; by eexists|]. intros Hu.
  apply bind_Ok in Ee as (q & _ & [= <-]). unfold upload_payload in Eu. destruct (uadd _ _); [|done..].
  destruct (upload _ _ _) as [rr s1] eqn:Eup. destruct rr as [r|?|]; [|done..]. injection Eu as <- _.
  apply map_Forall_insert_2; [split; [done|]; apply utf8_valid_ascii, bytes_to_hex_ascii|].
  apply map_Forall_insert_2; [split; [done|]; by eapply upload_utf8|]. by apply strip_utf8.
Qed.

(** ** Unary calls *)

(** The handler's outcome, as the dispatcher sees it. *)
Definition unary_outcome info (req : Request) (conn : Conn) (a : App)
  : res RpcError (option RecordBatch) * list LogMessage * option ExternalRef :=
  match mi_unary info with
  | Some h => let o := h req conn a in (call_guard (u_result o), u_logs o, u_external_ref o)
  | None => (Err handler_panicked, [], None)
  end.

(** What Rust's types say of an outcome, and the declared result schema. *)
Definition outcome_ok (s : ArrowSchema) (tb : option (list byte))
    (o : res RpcError (option RecordBatch) * list LogMessage * option ExternalRef) : Prop :=
  Forall log_utf8 o.1.2 ∧
  match o.1.1 with Ok (Some b) => batch_schema b = s | Err e => error_text tb e = true | _ => True end ∧
  match o.2 with
  | Some r => utf8_valid (ref_url r) = true ∧ utf8_valid (default [] (ref_sha256 r)) = true
  | None => True
  end.

(** How a result batch may travel. *)
Definition delivered srv (seg : option Segment) (s : ArrowSchema) (out : RecordBatch) (last : RecordBatch * Metadata) : Prop :=
  last = (out, ∅) ∨
  empty_batch s = Ok last.1 ∧
    (seg ≠ None ∧ is_Some (last.2 !! SHM_OFFSET_KEY) ∨ external_config srv ≠ None ∧ is_Some (last.2 !! LOCATION_KEY)).

(** The last item of a unary response. *)
Definition unary_answer srv (seg : option Segment) (s : ArrowSchema) (sid rid : list byte) (tb : option (list byte))
    (E : RecordBatch) (o : res RpcError (option RecordBatch) * list LogMessage * option ExternalRef)
    (last : RecordBatch * Metadata) : Prop :=
  match o.1.1 with
  | Ok ob => match o.2 with
             | Some r => pointer_batch r s = Ok last
             | None => delivered srv seg s (default E ob) last
             end
  | Err e => last = (E, build_error_metadata e sid rid tb)
  | Panic => False
  end.

Lemma write_result_batch_ok srv info seg out base its e rs rs' :
  responding base (result_schema info) its e rs → batch_schema out = result_schema info →
  write_result_batch srv info seg out rs = (Ok tt, rs') →
  frame (rs_world rs) (rs_world rs') ∧
  ∃ last l, delivered srv seg (result_schema info) out last ∧ wire_stream (result_schema info) (its ++ [last]) l ∧
    sent (sw_writer (stream_writer_drop (rs_writer rs'))) = base ++ l.
Proof.
  intros Hr Hs E. set (s := result_schema info) in *. unfold write_result_batch in E.
  apply st_bind_Ok in E as ([] & s1 & E1 & E). injection E1 as <-.
  apply st_bind_Ok in E as (p & s2 & E2 & E). unfold on_world in E2. cbn [rs_world rs_writer rs_env] in E2.
  destruct (route_shm seg out ∅ _) as [rp w2] eqn:Ep. injection E2 as -> <-.
  apply route_shm_ok in Ep as (Hf2 & Hn & Hp). set (rs2 := mkResp _ _ w2) in *.
  assert (responding base s its e rs2) as Hr2 by done.
  assert (frame (rs_world rs) w2) as Hfr by exact Hf2. clear Hf2.
  assert (fits s out) as Hfit by (rewrite <- Hs; apply fits_own).
  destruct p as [[b md]|].
  - destruct (Hp b md eq_refl) as [(_ & _ & [? Hk])|(He & Hk & Hu)]; [by rewrite lookup_empty in Hk|].
    rewrite Hs in He. eapply put_and_finish_ok in E as (Hw & l & Hl & Hsent); [|done|by apply empty_fits|apply Hu, map_Forall_empty].
    split; [by rewrite Hw|]. exists (b, md), l. split; [|done]. right. split; [done|]. left. split; [|done].
    intros Hseg. specialize (Hn Hseg). done.
  - apply st_bind_Ok in E as (x & s3 & E3 & E). unfold on_world in E3. cbn [rs_world rs_writer rs_env rs2] in E3.
    destruct (externalize _ _ _ _ _) as [rx w3] eqn:Ex. injection E3 as -> <-.
    apply externalize_ok in Ex as (Hf3 & Hnx & Hx). set (rs3 := mkResp _ _ w3) in *.
    assert (responding base s its e rs3) as Hr3 by done.
    assert (put_and_finish out None rs3 = (Ok tt, rs') ∨
            ∃ b md, x = inr (Some (b, md)) ∧ put_and_finish b (Some md) rs3 = (Ok tt, rs')) as [Ei|(b & md & -> & Eb)].
    { destruct x as [?|[[b md]|]]; [by left|right; eauto|by left]. }
    + eapply put_and_finish_ok in Ei as (Hw & l & Hl & Hsent); [|done..]. split; [rewrite Hw; by etrans|].
      exists (out, ∅), l. split; [by left|done].
    + destruct (Hx b md eq_refl) as (He & Hk & Hu).
      eapply put_and_finish_ok in Eb as (Hw & l & Hl & Hsent); [|done|by apply empty_fits|by apply Hu].
      split; [rewrite Hw; by etrans|]. exists (b, md), l. split; [|done]. right. split; [done|]. right. split; [|done].
      intros Hc. specialize (Hnx Hc). done.
Qed.

(** The application's state after the handler ran. *)
Definition unary_app info (req : Request) (conn : Conn) (a : App) : App :=
  match mi_unary info with Some h => u_app (h req conn a) | None => a end.

Lemma run_unary_ok info req conn w o w' :
  run_unary info req conn w = (Ok o, w') →
  o = unary_outcome info req conn (w_app w) ∧ w_app w' = unary_app info req conn (w_app w) ∧
  w_in w' = w_in w ∧ w_out w' = w_out w ∧ w_cache w' = w_cache w ∧ w_hooks w' = w_hooks w.
Proof. unfold run_unary, unary_outcome, unary_app. destruct (mi_unary info); intros [= <- <-]; done. Qed.

Lemma call_guard_no_panic {A} (r : res RpcError A) : call_guard r ≠ Panic.
Proof. by destruct r. Qed.

Lemma pointer_batch_ok r s b md :
  pointer_batch r s = Ok (b, md) → empty_batch s = Ok b ∧
  (utf8_valid (ref_url r) = true → utf8_valid (default [] (ref_sha256 r)) = true → metadata_utf8 md) ∧
  md !! LOCATION_KEY = Some (ref_url r) ∧ md !! LOG_LEVEL_KEY = None.
Proof.
  unfold pointer_batch. intros E. apply bind_Ok in E as (eb & Eb & E). injection E as <- <-. split; [done|].
  split_and!; [intros H1' H2'| |]; destruct (ref_sha256 r).
  - repeat (apply map_Forall_insert_2; [done|]). apply map_Forall_empty.
  - repeat (apply map_Forall_insert_2; [done|]). apply map_Forall_empty.
  - by md_simp.
  - by md_simp.
  - md_simp. by rewrite lookup_empty.
  - md_simp. by rewrite lookup_empty.
Qed.

(** A response that reports an error: the logs in order, then the error. *)
Lemma error_response_ok s sid rid tb logs err w env' w' :
  utf8_valid sid = true → utf8_valid rid = true → Forall log_utf8 logs → error_text tb err = true →
  with_writer s (envelope_new sid rid tb)
    (_ ← write_logs s logs; b ← lift (empty_batch s); _ ← write_envelope (envelope_error err) b; sw_finish) w
    = (Ok (tt, env'), w') →
  w' = set_out (w_out w') w ∧
  ∃ E l, empty_batch s = Ok E ∧ wire_stream s (log_items sid rid E logs ++ [(E, build_error_metadata err sid rid tb)]) l ∧
    sent (w_out w') = sent (w_out w) ++ l.
Proof.
  intros Hsid Hrid Hlogs He E. pose proof (new_empty_batch s) as Hn. destruct (empty_batch s) as [eb|?|] eqn:Eb; try done.
  apply with_writer_ok in E as (rs & rs' & Hr & Hw & _ & E & _ & ->).
  apply st_bind_Ok in E as ([] & rs1 & El & E). eapply write_logs_ok in El as [Hr1 Hw1]; [|done..].
  apply st_bind_Ok in E as (b & rs2 & Eb2 & E). apply lift_Ok in Eb2 as [Eb2 ->]. injection Eb2 as <-.
  apply st_bind_Ok in E as ([] & rs2 & Ee & E).
  eapply (write_envelope_ok _ _ _ _ _ _ _ _ (OpError err)) in Ee as [Hr2 Hw2]; [|done|by apply empty_fits|done..].
  eapply finish_ok in E as (Hw3 & _ & l & Hl & Hs); [|done].
  split; [rewrite Hw3, Hw2, Hw1, Hw; by destruct w|]. by exists eb, l.
Qed.

(** A unary response: the logs in order, then the result or the error. *)
Lemma serve_unary_ok srv req info conn seg w w' :
  serve_unary srv req info conn seg w = (Ok tt, w') →
  let o := unary_outcome info req conn (w_app w) in
  let tb := traceback_origin srv (protocol req) (method req) in
  outcome_ok (result_schema info) tb o → utf8_valid (server_id srv) = true → utf8_valid (request_id req) = true →
  w_in w' = w_in w ∧ w_cache w' = w_cache w ∧ w_hooks w' = w_hooks w ∧
  w_app w' = unary_app info req conn (w_app w) ∧
  ∃ E last l, empty_batch (result_schema info) = Ok E ∧
    unary_answer srv seg (result_schema info) (server_id srv) (request_id req) tb E o last ∧
    wire_stream (result_schema info) (log_items (server_id srv) (request_id req) E o.1.2 ++ [last]) l ∧
    sent (w_out w') = sent (w_out w) ++ l.
Proof.
  intros E o tb (Hlogs & Hres & Href) Hsid Hrid. unfold serve_unary in E.
  apply st_bind_Ok in E as ([[result logs] ref] & w1 & E1 & E). apply run_unary_ok in E1 as (Ho & Happ & Hin & Hout & Hca & Hhk).
  fold o in Ho. rewrite <- Ho in *. cbn [fst snd] in *. set (s := result_schema info) in *.
  assert (∃ eb, empty_batch s = Ok eb) as [eb Eb].
  { pose proof (new_empty_batch s). destruct (empty_batch s); try done. eauto. }
  destruct result as [ob|err|]; [| |done].
  - apply st_bind_Ok in E as ([[] env'] & w2 & E2 & E). injection E as <-.
    apply with_writer_ok in E2 as (rs & rs' & Hr & Hw & _ & E2 & _ & ->). rewrite Hout in Hr.
    apply st_bind_Ok in E2 as ([] & rs1 & El & E2).
    eapply write_logs_ok in El as [Hr1 Hw1]; [|done..]. cbn [app] in Hr1.
    assert (frame w1 (rs_world rs') ∧ ∃ last l, unary_answer srv seg s (server_id srv) (request_id req) tb eb (Ok ob, logs, ref) last ∧
      wire_stream s (log_items (server_id srv) (request_id req) eb logs ++ [last]) l ∧
      sent (sw_writer (stream_writer_drop (rs_writer rs'))) = sent (w_out w) ++ l) as [Hf (last & l & Ha & Hl & Hs)].
    { destruct ref as [r|].
      - apply st_bind_Ok in E2 as ([p md] & rs2 & Ep & E2). apply lift_Ok in Ep as [Ep ->].
        apply st_bind_Ok in E2 as ([] & rs2 & Est & E2). unfold on_world, st_set in Est. injection Est as <-.
        apply pointer_batch_ok in Ep as Hp. destruct Hp as (Hpe & Hpu & _). destruct Href as [Hu1 Hu2].
        eapply (put_and_finish_ok (sent (w_out w)) s) in E2 as (Hw2 & l & Hl & Hs);
          [|split; apply Hr1|by apply empty_fits|by apply Hpu].
        cbn [rs_world] in Hw2. split; [rewrite Hw2, Hw1, Hw; done|]. by exists (p, md), l.
      - apply st_bind_Ok in E2 as (out & rs2 & Eo & E2).
        assert (out = default eb ob ∧ rs2 = rs1) as [-> ->].
        { destruct ob; [by injection Eo as <- <-|]. apply lift_Ok in Eo as [Eo ->]. split; [|done]. simpl. congruence. }
        eapply write_result_batch_ok in E2 as (Hf & last & l & Hd & Hl & Hs); [|done|].
        + split; [by rewrite <- Hw, <- Hw1|]. by exists last, l.
        + destruct ob; [done|]. simpl. by apply empty_batch_spec in Eb as [-> _]. }
    destruct Hf as (F1 & F2 & F3 & F4 & F5). cbn. split_and!; [congruence..|]. by exists eb, last, l.
  - apply st_bind_Ok in E as ([[] env'] & w2 & E2 & E). injection E as <-.
    apply error_response_ok in E2 as (Hw2 & eb' & l & Eb' & Hl & Hs); [|done..].
    rewrite Hw2. cbn. split_and!; [congruence..|]. exists eb', (eb', build_error_metadata err (server_id srv) (request_id req) tb), l.
    by rewrite <- Hout.
Qed.
End Serving.
