(* ===== verification/ServeStream.v ===== *)
(** * Streams in lockstep

    A reference semantics of a streaming call, as a function of the handler's state
    and the client's batches, and the proof that [serve_stream] puts exactly its
    items on the wire and leaves the reader behind the client's stream. *)

From S2P Require Import Prelude Bytes Metadata F64 Json ErrorModel Errors Crypto ShmAllocator Ipc IpcProps IpcWriter IpcWriterProps IpcStream Arrow External ExternalProps ShmBatch ShmBatchProps Dispatch Envelope EnvelopeProps Stream Serve ServeProps.

Section Streams.
Context `{LS : ArrowShmLaws} `{JL : JsonLaws} `{!Aead, !Zstd, !UrlLib}.
Context {App St Store Conn : Type} `{!ExternalStorage Store, !Fetcher Store}.
Context `{!StreamState (App:=App) (St:=St), !Env}.

Abbreviation Uh := (UnaryHandler (App:=App) (Conn:=Conn)).
Abbreviation Sh := (StreamHandler (App:=App) (St:=St) (Conn:=Conn)).
Abbreviation world := (World (App:=App) (Store:=Store)).
Abbreviation resp := (Resp (App:=App) (Store:=Store)).
Abbreviation lock := (Lock (App:=App) (St:=St) (Store:=Store)).
Abbreviation item := (RecordBatch * Metadata)%type.
Implicit Types (w : world) (rs : resp) (k : lock) (srv : RpcServer Uh Sh) (info : MethodInfo Uh Sh)
  (result : StreamResult St) (st : StreamStateKind St) (app : App).

(** ** Reference semantics *)
Section Reference.
Context (sid rid : list byte) (tb : option (list byte)) (result : StreamResult St) (E : RecordBatch).

Definition error_item (e : RpcError) : item := (E, build_error_metadata e sid rid tb).
Definition emitted_item (i : Emitted) : item :=
  match i with ELog m => (E, build_log_metadata m sid rid) | EBatch b md => (b, default ∅ md) end.

(** The handler's turn on an input: its result, what it emitted, the context's logs. *)
Definition handler_turn st (tick : Metadata) (b : RecordBatch) (app : App)
  : res RpcError unit * OutputCollector * list LogMessage * (StreamStateKind St * App) :=
  let out := collector_new (output_schema result)
               (match input_schema result with None => true | Some _ => false end) in
  let '(kind, t) := match st with
                    | SProducer x => (SProducer (X:=St), produce x tick app)
                    | SExchange x => (SExchange (X:=St), exchange x tick b app)
                    end in
  let '(r, (x, app), out, logs) := run_turn t out [] in
  (call_guard r, out, logs, (kind x, app)).

(** The batch the handler is given. *)
Definition turn_input (b : RecordBatch) : res RpcError RecordBatch :=
  match input_schema result with
  | Some expected => if bool_decide (batch_schema b = expected) then Ok b else cast_batch b expected
  | None => Ok b
  end.

(** One turn: the items written, whether the stream goes on, and the state after. *)
Definition reference_turn st app (i : item) : list item * bool * (StreamStateKind St * App) :=
  let '(b, tick) := i in
  if bool_decide (is_Some (tick !! CANCEL_KEY)) then
    let '(r, logs, app) := on_cancel st tick app in
    (log_items sid rid E logs ++ match call_guard r with Err e => [error_item e] | _ => [] end, false, (st, app))
  else
  match turn_input b with
  | Ok b =>
    let '(r, out, logs, next) := handler_turn st tick b app in
    match r with
    | Err e => (log_items sid rid E logs ++ [error_item e], false, next)
    | _ => (log_items sid rid E logs ++ (emitted_item <$> items out), negb (oc_finished out), next)
    end
  | Err e => ([error_item e], false, (st, app))
  | Panic => ([], false, (st, app))
  end.

(** The whole output stream, from the client's batches. *)
Fixpoint reference_stream st app (inputs : list item) : list item * App :=
  match inputs with
  | [] => ([], app)
  | i :: inputs =>
    let '(out, go, (st, app)) := reference_turn st app i in
    if go then let '(rest, app) := reference_stream st app inputs in (out ++ rest, app) else (out, app)
  end.

(** Every text the handler's state returns is a Rust string. *)
Definition state_texts : Prop :=
  (∀ b e, turn_input b = Err e → error_text tb e = true) ∧
  (∀ st tick app, let '(r, logs, _) := on_cancel st tick app in
     Forall log_utf8 logs ∧ ∀ e, call_guard r = Err e → error_text tb e = true) ∧
  (∀ st tick b app, let '(r, out, logs, _) := handler_turn st tick b app in
     Forall log_utf8 logs ∧ (∀ e, r = Err e → error_text tb e = true) ∧
     Forall (fun i => match i with ELog m => log_utf8 m | EBatch _ md => opt_utf8 md end) (items out)).

(** At most one data batch per input, of the declared schema. *)
Lemma handler_turn_collects st tick b app r out logs next :
  handler_turn st tick b app = (r, out, logs, next) →
  collector_inv out ∧ oc_schema out = output_schema result.
Proof.
  unfold handler_turn. destruct (match st with SProducer _ => _ | SExchange _ => _ end) as [kind t].
  destruct (run_turn t _ []) as [[[r0 [x a]] out0] logs0] eqn:Er. intros [= <- <- <- <-].
  apply run_turn_collects in Er as (? & ? & _); [done|]. by split.
Qed.
End Reference.

(** ** The loop against the reference *)
Section Lockstep.
Context (srv : RpcServer Uh Sh) (rid : list byte) (tb : option (list byte)) (result : StreamResult St) (E : RecordBatch).
Context (Hext : external_config srv = None) (HE : empty_batch (output_schema result) = Ok E).
Context (Hsid : utf8_valid (server_id srv) = true) (Hrid : utf8_valid rid = true).
Context (Htexts : state_texts tb result).

Abbreviation sid := (server_id srv).
Abbreviation s := (output_schema result).
Abbreviation env := (envelope_new sid rid tb).

Lemma logs_ok base its logs rs rs' :
  responding base s its env rs → Forall log_utf8 logs →
  st_each (fun log => write_envelope (envelope_log log) E) logs rs = (Ok tt, rs') →
  responding base s (its ++ log_items sid rid E logs) env rs' ∧ rs_world rs' = rs_world rs.
Proof. intros Hr Hl Eq. eapply log_each_ok; [done|by apply empty_fits|done..]. Qed.

Lemma error_ok base its e rs rs' :
  responding base s its env rs → error_text tb e = true → write_env_error e E rs = (Ok tt, rs') →
  responding base s (its ++ [error_item sid rid tb E e]) env rs' ∧ rs_world rs' = rs_world rs.
Proof.
  intros Hr He Eq. eapply (write_envelope_ok _ _ _ _ _ _ _ _ (OpError e)) in Eq; [|done|by apply empty_fits|done..].
  exact Eq.
Qed.

Lemma flush_item_ok base its i rs rs' :
  responding base s its env rs →
  match i with ELog m => log_utf8 m | EBatch b md => opt_utf8 md ∧ batch_schema b = s end →
  flush_item srv s E None i rs = (Ok tt, rs') →
  responding base s (its ++ [emitted_item sid rid E i]) env rs' ∧ frame (rs_world rs) (rs_world rs').
Proof.
  intros Hr Hi Eq. destruct i as [b md|m]; cbn [flush_item] in Eq.
  - apply st_bind_Ok in Eq as ([] & s1 & E1 & Eq). injection E1 as <-.
    unfold route_shm, externalize, on_world in Eq. rewrite Hext in Eq. cbn in Eq. destruct Hi as [Hu Hb].
    eapply (sw_write_ok base s its env) in Eq as [Hr1 Hw]; [|exact Hr|rewrite <- Hb; apply fits_own|done].
    split; [done|]. by rewrite Hw.
  - eapply (write_envelope_ok _ _ _ _ _ _ _ _ (OpLog m)) in Eq as [Hr1 Hw]; [|done|by apply empty_fits|done..].
    rewrite log_metadata_any in Hr1. split; [done|]. by rewrite Hw.
Qed.

Lemma flush_items_ok base its (l : list Emitted) rs rs' :
  responding base s its env rs →
  Forall (fun i => match i with ELog m => log_utf8 m | EBatch b md => opt_utf8 md ∧ batch_schema b = s end) l →
  st_each (flush_item srv s E None) l rs = (Ok tt, rs') →
  responding base s (its ++ (emitted_item sid rid E <$> l)) env rs' ∧ frame (rs_world rs) (rs_world rs').
Proof.
  intros Hr Hl Eq. rewrite list.Forall_forall in Hl.
  eapply (st_each_Ok (fun done r => responding base s (its ++ (emitted_item sid rid E <$> done)) env r ∧
                                    frame (rs_world rs) (rs_world r))) in Eq; [exact Eq| |].
  - simpl. by rewrite app_nil_r.
  - intros done i s1 s2 Hin [Hd Hf] Ei. eapply flush_item_ok in Ei as [H1' H2']; [|done|by apply Hl].
    rewrite fmap_app, app_assoc. split; [done|]. by etrans.
Qed.

(** [l] stands with [its] written after [base], in state [st] with the application in [app];
    the transport's other ends are those of [w]. *)
Definition locked base its st app w k : Prop :=
  responding base s its env (lk_resp k) ∧ lk_state k = st ∧ w_app (rs_world (lk_resp k)) = app ∧
  w_cache (rs_world (lk_resp k)) = w_cache w ∧ w_hooks (rs_world (lk_resp k)) = w_hooks w.

Lemma on_resp_Ok {A} (m : ST resp A) k a k' :
  on_resp m k = (Ok a, k') ↔ ∃ rs, m (lk_resp k) = (Ok a, rs) ∧ k' = mkLock (lk_reader k) (lk_state k) rs.
Proof. unfold on_resp. destruct (m (lk_resp k)) as [r rs]. naive_solver. Qed.

Lemma on_world_Ok {A} (m : ST world A) rs a rs' :
  on_world m rs = (Ok a, rs') ↔ ∃ w, m (rs_world rs) = (Ok a, w) ∧ rs' = mkResp (rs_writer rs) (rs_env rs) w.
Proof. unfold on_world. destruct (m (rs_world rs)) as [r w]. naive_solver. Qed.

Lemma cancel_turn_ok base its st app w tick k k' :
  locked base its st app w k → cancel_turn E tick k = (Ok tt, k') →
  let '(r, logs, app') := on_cancel st tick app in
  locked base (its ++ log_items sid rid E logs ++ match call_guard r with Err e => [error_item sid rid tb E e] | _ => [] end)
    st app' w k' ∧ lk_reader k' = lk_reader k.
Proof.
  intros (Hr & <- & <- & Hc & Hh) Eq. unfold cancel_turn in Eq. apply st_bind_Ok in Eq as (st & k1 & E1 & Eq).
  injection E1 as <- <-. apply st_bind_Ok in Eq as ([r logs] & k1 & E1 & Eq).
  apply on_resp_Ok in E1 as (rs1 & E1 & ->). apply on_world_Ok in E1 as (w1 & E1 & ->).
  destruct Htexts as (_ & Hcn & _). specialize (Hcn (lk_state k) tick (w_app (rs_world (lk_resp k)))).
  destruct (on_cancel _ _ _) as [[r0 logs0] app0]. injection E1 as <- <- <-. destruct Hcn as [Hl He].
  apply st_bind_Ok in Eq as ([] & k2 & E2 & Eq). apply on_resp_Ok in E2 as (rs2 & E2 & ->).
  eapply (logs_ok base its) in E2 as [Hr2 Hw2]; [|exact Hr|done]. cbn in Hw2, Eq.
  destruct (call_guard r0) as [[]|e|].
  - injection Eq as <-. rewrite app_nil_r. split; [|done]. unfold locked. cbn. by rewrite Hw2.
  - apply st_bind_Ok in Eq as ([] & k3 & E3 & Eq). apply on_resp_Ok in E3 as (rs3 & E3 & ->).
    eapply error_ok in E3 as [Hr3 Hw3]; [|exact Hr2|by apply He]. apply on_resp_Ok in Eq as (rs4 & E4 & ->).
    apply on_world_Ok in E4 as (w4 & E4 & ->). injection E4 as <-. rewrite app_assoc. split; [|done].
    unfold locked. cbn in *. by rewrite Hw3, Hw2.
  - injection Eq as <-. rewrite app_nil_r. split; [|done]. unfold locked. cbn. by rewrite Hw2.
Qed.

Lemma cast_input_ok base its b rs o rs' :
  responding base s its env rs → cast_input result E b rs = (Ok o, rs') →
  match turn_input result b with
  | Ok b' => o = Some b' ∧ rs' = rs
  | Err e => o = None ∧ responding base s (its ++ [error_item sid rid tb E e]) env rs' ∧ rs_world rs' = rs_world rs
  | Panic => False
  end.
Proof.
  intros Hr Eq. destruct Htexts as (Ht & _ & _). specialize (Ht b). unfold cast_input, turn_input in *.
  destruct (input_schema result) as [ex|]; [|by injection Eq as <- <-].
  destruct (bool_decide _); [by injection Eq as <- <-|].
  destruct (cast_batch b ex) as [b'|e|]; [by injection Eq as <- <-| |done].
  apply st_bind_Ok in Eq as ([] & s1 & E1 & Eq). injection Eq as <- <-. split; [done|]. eapply error_ok; eauto.
Qed.

Lemma run_handler_ok base its st app w b tick k r out logs k' :
  locked base its st app w k → run_handler result b tick k = (Ok (r, out, logs), k') →
  ∃ st' app', handler_turn result st tick b app = (r, out, logs, (st', app')) ∧
    locked base its st' app' w k' ∧ lk_reader k' = lk_reader k.
Proof.
  intros (Hr & <- & <- & Hc & Hh) Eq. unfold run_handler in Eq. unfold handler_turn.
  destruct (match lk_state k with SProducer _ => _ | SExchange _ => _ end) as [kind t].
  destruct (run_turn t _ []) as [[[r0 [x a]] out0] logs0]. injection Eq as <- <- <- <-.
  exists (kind x), a. by split_and!.
Qed.

(** What follows the handler: the context's logs, then the error or the items. *)
Lemma turn_output_ok base its st app w (r : res RpcError unit) out logs k go k' :
  locked base its st app w k → Forall log_utf8 logs → (∀ e, r = Err e → error_text tb e = true) →
  Forall (fun i => match i with ELog m => log_utf8 m | EBatch b md => opt_utf8 md ∧ batch_schema b = s end) (items out) →
  (_ ← on_resp (st_each (fun log => write_envelope (envelope_log log) E) logs);
   match r with
   | Err e => _ ← on_resp (write_env_error e E);
              _ ← on_resp (on_world (st_set (set_app_err (Some e)))); mret false
   | _ => _ ← on_resp (st_each (flush_item srv s E None) (items out));
          _ ← on_resp sw_flush;
          mret (negb (oc_finished out))
   end) k = (Ok go, k') →
  let '(new, go') := match r with
                     | Err e => (log_items sid rid E logs ++ [error_item sid rid tb E e], false)
                     | _ => (log_items sid rid E logs ++ (emitted_item sid rid E <$> items out), negb (oc_finished out))
                     end in
  go = go' ∧ locked base (its ++ new) st app w k' ∧ lk_reader k' = lk_reader k.
Proof.
  intros (Hr1 & <- & <- & Hc1 & Hh1) Hl He Hits Eq.
  apply st_bind_Ok in Eq as ([] & k2 & E2 & Eq). apply on_resp_Ok in E2 as (rs2 & E2 & ->).
  eapply logs_ok in E2 as [Hr2 Hw2]; [|exact Hr1|done].
  assert ((∃ e, r = Err e) ∨ (∀ e, r ≠ Err e)) as [[e ->]|Hne] by (destruct r; eauto; by right).
  - apply st_bind_Ok in Eq as ([] & k3 & E3 & Eq). apply on_resp_Ok in E3 as (rs3 & E3 & ->).
    eapply error_ok in E3 as [Hr3 Hw3]; [|exact Hr2|by apply He].
    apply st_bind_Ok in Eq as ([] & k4 & E4 & Eq). apply on_resp_Ok in E4 as (rs4 & E4 & ->).
    apply on_world_Ok in E4 as (w4 & E4 & ->). injection E4 as <-. injection Eq as <- <-.
    split; [done|]. split; [|done]. rewrite app_assoc. unfold locked. cbn in *. by rewrite Hw3, Hw2.
  - assert ((_ ← on_resp (st_each (flush_item srv s E None) (items out)); _ ← on_resp sw_flush; mret (negb (oc_finished out)))
        (mkLock (lk_reader k) (lk_state k) rs2) = (Ok go, k')) as Eq' by (destruct r; [done|by destruct (Hne e)|done]).
    clear Eq. apply st_bind_Ok in Eq' as ([] & k3 & E3 & Eq). apply on_resp_Ok in E3 as (rs3 & E3 & ->).
    eapply flush_items_ok in E3 as [Hr3 (F1 & F2 & F3 & F4 & F5)]; [|exact Hr2|done].
    apply st_bind_Ok in Eq as ([] & k4 & E4 & Eq).
    apply on_resp_Ok in E4 as (rs4 & E4 & ->). injection Eq as <- <-. unfold sw_flush in E4. injection E4 as _ <-.
    assert (locked base (its ++ log_items sid rid E logs ++ (emitted_item sid rid E <$> items out)) (lk_state k)
      (w_app (rs_world (lk_resp k))) w (mkLock (lk_reader k) (lk_state k) rs3)) as Hflush.
    { rewrite app_assoc. unfold locked. cbn in *. rewrite F3, F4, F5, Hw2. by split_and!. }
    destruct r; [|by destruct (Hne e)|]; done.
Qed.

Lemma stream_turn_ok base its st app w b tick k go k' :
  locked base its st app w k → stream_turn srv result E None b tick k = (Ok go, k') →
  let '(out, go', (st', app')) := reference_turn sid rid tb result E st app (b, tick) in
  go = go' ∧ locked base (its ++ out) st' app' w k' ∧ lk_reader k' = lk_reader k.
Proof.
  intros Hk Eq. unfold stream_turn in Eq. apply st_bind_Ok in Eq as ([] & k0 & E0 & Eq). injection E0 as <-.
  set (k0 := mkLock (lk_reader k) _ _) in Eq. assert (locked base its st app w k0) as Hk0 by exact Hk.
  change (lk_reader k) with (lk_reader k0). clearbody k0. clear Hk k. cbn [reference_turn].
  destruct (bool_decide (is_Some (tick !! CANCEL_KEY))).
  { apply st_bind_Ok in Eq as ([] & k1 & E1 & Eq). injection Eq as <- <-. eapply cancel_turn_ok in E1; [|done].
    by destruct (on_cancel st tick app) as [[??]?]. }
  apply st_bind_Ok in Eq as (o & k1 & E1 & Eq). apply on_resp_Ok in E1 as (rs1 & E1 & ->).
  pose proof Hk0 as (Hr & Hst & Hap & Hc & Hh). eapply cast_input_ok in E1; [|done].
  destruct (turn_input result b) as [b'|e|]; [|destruct E1 as (-> & Hr1 & Hw1)|done].
  2: { injection Eq as <- <-. split; [done|]. split; [|done]. unfold locked. cbn. by rewrite Hw1. }
  destruct E1 as [-> ->]. apply st_bind_Ok in Eq as ([[r out] logs] & k1 & E1 & Eq).
  eapply run_handler_ok in E1 as (st' & app' & Hht & Hk1 & Hrd); [|by destruct k0].
  rewrite Hht. change (lk_reader (mkLock _ _ _)) with (lk_reader k0) in Hrd. rewrite <- Hrd.
  destruct (handler_turn_collects _ _ _ _ _ _ _ _ _ Hht) as [[_ Hschema] Hos]. rewrite Hos in Hschema.
  destruct Htexts as (_ & _ & Hhd). specialize (Hhd st tick b' app). rewrite Hht in Hhd. destruct Hhd as (Hl & He & Hi).
  eapply turn_output_ok in Eq; [|exact Hk1|done|done|].
  - by destruct r.
  - apply list.Forall_forall. intros i Hin. rewrite list.Forall_forall in Hi, Hschema.
    specialize (Hi i Hin). specialize (Hschema i Hin). by destruct i.
Qed.

(** The loop consumes inputs as the reference does; the reader stops somewhere in the stream. *)
Lemma lockstep_ok fuel base its st app w inputs rest k k' :
  locked base its st app w k → at_items (lk_reader k) inputs rest →
  lockstep fuel srv result E None k = (Ok tt, k') →
  let '(out, app') := reference_stream sid rid tb result E st app inputs in
  (∃ st', locked base (its ++ out) st' app' w k') ∧
  ((∃ left, at_items (lk_reader k') left rest) ∨ at_end (lk_reader k') rest).
Proof.
  revert its st app inputs k. induction fuel as [|fuel IH]; intros its st app inputs k Hk Ha Eq; [done|].
  cbn [lockstep] in Eq. apply st_bind_Ok in Eq as (go & k1 & E1 & Eq). unfold stream_pass in E1.
  destruct inputs as [|[b md] inputs].
  - destruct (at_items_end _ _ Ha) as (r' & Er & He). rewrite Er in E1. injection E1 as <- <-. injection Eq as <-.
    cbn [reference_stream]. rewrite app_nil_r. split; [by exists st|by right].
  - destruct (at_items_next _ _ _ _ _ Ha) as (r' & Er & _ & Ha1). rewrite Er in E1.
    set (k0 := mkLock r' (lk_state k) (lk_resp k)) in E1. cbn [resolve_in] in E1.
    rewrite on_resp_world_ret in E1.
    assert (locked base its st app w k0) as Hk0 by exact Hk.
    destruct (stream_turn srv result E None b md k0) as [r k2] eqn:Et. cbn [drop_anchor] in E1.
    rewrite on_resp_world_ret in E1.
    destruct r as [go'|e|]; [|done..]. injection E1 as -> <-.
    eapply stream_turn_ok in Et; [|exact Hk0]. cbn [reference_stream].
    destruct (reference_turn _ _ _ _ _ _ _ _) as [[out go'] [st' app']]. destruct Et as (<- & Hk2 & Hrd).
    change (lk_reader k0) with r' in Hrd. destruct go.
    + eapply (IH _ st' app') in Eq; [|exact Hk2|by rewrite Hrd].
      destruct (reference_stream _ _ _ _ _ st' app' inputs) as [out2 app2]. by rewrite app_assoc.
    + injection Eq as <-. split; [by exists st'|]. left. rewrite Hrd. eauto.
Qed.

(** The output stream's items: the initial logs, unless a header stream carried them. *)
Definition output_items (logs : list LogMessage) (out : list item) : list item :=
  match header result with Some _ => out | None => log_items sid rid E logs ++ out end.

Lemma lockstep_stream_ok base logs sin inputs bytes rest rs rs' :
  responding base s [] env rs → Forall log_utf8 logs →
  wire_stream sin inputs bytes → schema_readable sin → zlen bytes ≤ u32_max →
  clean (w_in (rs_world rs)) → content (w_in (rs_world rs)) = bytes ++ rest →
  lockstep_stream srv result logs None rs = (Ok tt, rs') →
  let '(out, app') := reference_stream sid rid tb result E (stream_state result) (w_app (rs_world rs)) inputs in
  let w := rs_world rs' in
  clean (w_in w) ∧ content (w_in w) = rest ∧ w_app w = app' ∧
  w_cache w = w_cache (rs_world rs) ∧ w_hooks w = w_hooks (rs_world rs) ∧
  ∃ l, wire_stream s (output_items logs out) l ∧ sent (sw_writer (stream_writer_drop (rs_writer rs'))) = base ++ l.
Proof.
  intros Hr Hl Hin Hsr Hz Hc Hd Eq. unfold lockstep_stream in Eq.
  destruct (wire_stream_open _ _ _ _ _ Hin Hsr Hz Hc Hd) as (sr & En & _ & Ha). rewrite En in Eq.
  set (m := _ ← _; _) in Eq. destruct (m _) as [r k] eqn:Em. destruct r as [[]|e|]; [|done..].
  unfold m in Em. apply st_bind_Ok in Em as (E' & k1 & E1 & Em). apply lift_Ok in E1 as [E1 ->].
  assert (E' = E) as -> by congruence.
  apply st_bind_Ok in Em as ([] & k1 & E2 & Em).
  assert (∃ pre, locked base pre (stream_state result) (w_app (rs_world rs)) (rs_world rs) k1 ∧ lk_reader k1 = sr ∧
    ∀ out, pre ++ out = output_items logs out) as (pre & Hk1 & Hrd & Hpre).
  { unfold output_items. destruct (header result).
    - injection E2 as <-. exists []. by split_and!.
    - apply on_resp_Ok in E2 as (rs1 & E2 & ->). eapply logs_ok in E2 as [Hr1 Hw1]; [|done|done].
      exists (log_items sid rid E logs). unfold locked. cbn. by rewrite Hw1. }
  apply st_bind_Ok in Em as ([] & k2 & E3 & Em). rewrite <- Hrd in Ha.
  eapply lockstep_ok in E3; [|exact Hk1|exact Ha].
  destruct (reference_stream _ _ _ _ _ _ _ _) as [out app']. destruct E3 as [(st' & Hr2 & _ & Hap & Hca & Hho) Hend].
  apply on_resp_Ok in Em as (rs3 & E4 & ->). eapply finish_ok in E4 as (Hw3 & _ & l & Hw & Hs); [|exact Hr2].
  rewrite Hpre in Hw. cbn [lk_reader lk_resp] in Eq.
  assert (∃ sr', drain (lk_reader k2) = Some (Ok sr') ∧ at_end sr' rest) as (sr' & Ed & He).
  { destruct Hend as [[left Ha2]|He]; [by eapply drain_items|]. eexists. split; [by eapply at_end_drain|done]. }
  rewrite Ed in Eq. injection Eq as <-. cbn. rewrite Hw3. destruct He as (Hc' & _ & _ & Hd').
  split_and!; [done|done|done|done|done|]. by exists l.
Qed.
End Lockstep.

(** ** The whole call *)

(** The handler's outcome, as the dispatcher sees it. *)
Definition stream_outcome info (req : Request) (conn : Conn) (a : App) : res RpcError (StreamResult St) * list LogMessage * App :=
  match mi_stream info with
  | Some h => let '(r, logs, app) := h req conn a in (call_guard r, logs, app)
  | None => (Err handler_panicked, [], a)
  end.

Definition stream_outcome_ok (tb : option (list byte)) (o : res RpcError (StreamResult St) * list LogMessage * App) : Prop :=
  Forall log_utf8 o.1.2 ∧
  match o.1.1 with
  | Ok result => state_texts tb result ∧ opt_utf8 (header_metadata result)
  | Err e => error_text tb e = true
  | Panic => True
  end.

(** What a streaming call writes, for the client's batches: an error stream, or a
    header stream when there is one and the stream of the reference. *)
Definition stream_answer (s : ArrowSchema) (sid rid : list byte) (tb : option (list byte))
    (o : res RpcError (StreamResult St) * list LogMessage * App) (inputs : list item) (l : list byte) (app' : App) : Prop :=
  match o.1.1 with
  | Err e => app' = o.2 ∧ ∃ E, empty_batch s = Ok E ∧
      wire_stream s (log_items sid rid E o.1.2 ++ [error_item sid rid tb E e]) l
  | Ok result => ∃ E l1 l2 out, empty_batch (output_schema result) = Ok E ∧
      reference_stream sid rid tb result E (stream_state result) o.2 inputs = (out, app') ∧
      match header result with
      | Some h => ∃ Eh, empty_batch (batch_schema h) = Ok Eh ∧
          wire_stream (batch_schema h) (log_items sid rid Eh o.1.2 ++ [(h, default ∅ (header_metadata result))]) l1
      | None => l1 = []
      end ∧
      wire_stream (output_schema result) (match header result with Some _ => out | None => log_items sid rid E o.1.2 ++ out end) l2 ∧
      l = l1 ++ l2
  | Panic => False
  end.

Lemma empty_batch_exists sch : ∃ E, empty_batch sch = Ok E.
Proof. pose proof (new_empty_batch sch). destruct (empty_batch sch); try done. eauto. Qed.

Lemma header_ok srv rid tb h hmd logs w env' w' :
  utf8_valid (server_id srv) = true → utf8_valid rid = true → Forall log_utf8 logs → opt_utf8 hmd →
  with_writer (batch_schema h) (envelope_new (server_id srv) rid tb)
    (_ ← write_logs (batch_schema h) logs; _ ← sw_write h hmd; sw_finish) w = (Ok (tt, env'), w') →
  same_call env' (envelope_new (server_id srv) rid tb) ∧ w' = set_out (w_out w') w ∧
  ∃ Eh l, empty_batch (batch_schema h) = Ok Eh ∧
    wire_stream (batch_schema h) (log_items (server_id srv) rid Eh logs ++ [(h, default ∅ hmd)]) l ∧
    sent (w_out w') = sent (w_out w) ++ l.
Proof.
  intros Hs Hr Hl Hh Eq. destruct (empty_batch_exists (batch_schema h)) as [Eh HEh].
  apply with_writer_ok in Eq as (rs & rs' & Hrs & Hw & _ & Eq & -> & ->).
  apply st_bind_Ok in Eq as ([] & s1 & E1 & Eq). eapply write_logs_ok in E1 as [Hr1 Hw1]; [|done..].
  apply st_bind_Ok in Eq as ([] & s2 & E2 & Eq). eapply sw_write_ok in E2 as [Hr2 Hw2]; [|done|apply fits_own|done].
  pose proof Hr2 as [_ Hcall]. eapply finish_ok in Eq as (Hw3 & He & l & Hlw & Hsent); [|done].
  rewrite He. split; [done|]. split; [rewrite Hw3, Hw2, Hw1, Hw; by destruct w|].
  exists Eh, l. by split_and!.
Qed.

(** The call leaves the answer of the reference, and stands behind the client's stream. *)
Lemma serve_stream_ok srv req info conn sin inputs bytes rest w w' :
  external_config srv = None → utf8_valid (server_id srv) = true → utf8_valid (request_id req) = true →
  wire_stream sin inputs bytes → schema_readable sin → zlen bytes ≤ u32_max →
  clean (w_in w) → content (w_in w) = bytes ++ rest →
  let tb := traceback_origin srv (protocol req) (method req) in
  let o := stream_outcome info req conn (w_app w) in
  stream_outcome_ok tb o →
  serve_stream srv req info conn None w = (Ok tt, w') →
  clean (w_in w') ∧ content (w_in w') = rest ∧ w_cache w' = w_cache w ∧ w_hooks w' = w_hooks w ∧
  ∃ l, stream_answer (result_schema info) (server_id srv) (request_id req) tb o inputs l (w_app w') ∧
       sent (w_out w') = sent (w_out w) ++ l.
Proof.
  intros Hext Hsid Hrid Hin Hsr Hz Hc Hd tb o [Hlogs Hres] Eq. unfold serve_stream in Eq.
  apply st_bind_Ok in Eq as ([init logs] & w1 & E1 & Eq).
  assert (o = (init, logs, w_app w1) ∧ w_in w1 = w_in w ∧ w_out w1 = w_out w ∧ w_cache w1 = w_cache w ∧ w_hooks w1 = w_hooks w)
    as (Ho & I1 & O1 & C1 & K1).
  { unfold o, stream_outcome, run_stream in *. destruct (mi_stream info) as [h|]; [|by injection E1 as <- <- <-].
    destruct (h req conn (w_app w)) as [[r lg] ap]. by injection E1 as <- <- <-. }
  clearbody o. subst o. cbn [fst snd] in *. rewrite <- I1 in Hc, Hd. unfold stream_answer. cbn [fst snd].
  destruct init as [result|err|]; [| |done].
  - destruct Hres as [Htx Hhu]. apply st_bind_Ok in Eq as ([[] env'] & w2 & E2 & Eq).
    apply st_bind_Ok in Eq as ([[] env2] & w3 & E3 & Eq). injection Eq as <-.
    destruct (empty_batch_exists (output_schema result)) as [E HE].
    assert (same_call env' (envelope_new (server_id srv) (request_id req) tb) ∧ w2 = set_out (w_out w2) w1 ∧
      ∃ l1, match header result with
            | Some h => ∃ Eh, empty_batch (batch_schema h) = Ok Eh ∧
               wire_stream (batch_schema h) (log_items (server_id srv) (request_id req) Eh logs ++ [(h, default ∅ (header_metadata result))]) l1
            | None => l1 = []
            end ∧ sent (w_out w2) = sent (w_out w1) ++ l1) as (Hcall & Hw2 & l1 & Hl1 & Hs1).
    { destruct (header result) as [h|].
      - apply header_ok in E2 as (? & ? & Eh & l & ? & ? & ?); [|done..]. split_and!; [done|done|]. exists l. split; [by exists Eh|done].
      - injection E2 as <- <-. split_and!; [done|by destruct w1|]. exists []. by rewrite app_nil_r. }
    apply with_writer_ok in E3 as (rs & rs' & [Hr _] & Hw & He & Eq & _ & ->).
    apply st_bind_Ok in Eq as ([] & rs1 & Ef & Eq). unfold sw_flush in Ef. injection Ef as _ <-.
    assert (w_app (rs_world rs) = w_app w1 ∧ w_in (rs_world rs) = w_in w1 ∧ w_cache (rs_world rs) = w_cache w1 ∧
      w_hooks (rs_world rs) = w_hooks w1) as (Ha2 & Hi2 & Hc2 & Hk2) by (rewrite Hw, Hw2; done).
    eapply (lockstep_stream_ok srv (request_id req) tb result E) in Eq; try done; [|split; [exact Hr|by rewrite He]|by rewrite Hi2|by rewrite Hi2].
    rewrite Ha2 in Eq. destruct (reference_stream _ _ _ _ _ _ _ _) as [out app'] eqn:Er.
    destruct Eq as (Hc3 & Hd3 & Hap & Hca & Hho & l2 & Hl2 & Hs2). cbn in *.
    split_and!; [done|done|congruence|congruence|]. exists (l1 ++ l2). rewrite Hap. split.
    + exists E, l1, l2, out. by split_and!.
    + by rewrite Hs2, Hs1, O1, app_assoc.
  - apply st_bind_Ok in Eq as ([[] env'] & w2 & E2 & Eq). apply error_response_ok in E2 as (Hw2 & E & l & HE & Hl & Hs); [|done..].
    apply st_bind_Ok in Eq as ([] & w3 & E3 & Eq). injection Eq as <-.
    assert (w_in w2 = w_in w1) as Hi2 by (rewrite Hw2; done). unfold drain_input in E3. rewrite Hi2 in E3.
    destruct (wire_stream_open _ _ _ _ _ Hin Hsr Hz Hc Hd) as (sr & En & _ & Ha). rewrite En in E3.
    destruct (drain_items _ _ _ Ha) as (sr' & Ed & Hc' & _ & _ & Hd'). rewrite Ed in E3. injection E3 as <-. cbn.
    rewrite Hw2. cbn. split_and!; [done|done|done|done|]. exists l. rewrite <- O1, Hs. split; [|done]. split; [done|]. by exists E.
Qed.
End Streams.
