(* ===== verification/ServeConn.v ===== *)
(** * A connection: requests in, responses out

    What [_serve_one] leaves of a well-framed request, and the serve loop over a
    sequence of them: one response each, in order, whatever the dispatcher decides. *)

From S2P Require Import Prelude Bytes Metadata F64 Json ErrorModel Errors Crypto ShmAllocator Ipc IpcProps IpcWriter IpcWriterProps IpcStream Arrow External ExternalProps ShmBatch ShmBatchProps Dispatch Envelope EnvelopeProps Stream Serve ServeProps ServeStream.

Section Connection.
Context `{LS : ArrowShmLaws} `{JL : JsonLaws} `{!Aead, !Zstd, !ZstdLaws, !UrlLib}.
Context {App St Store Conn : Type} `{!ExternalStorage Store, !Fetcher Store, !StorageLaws (S:=Store)}.
Context `{!StreamState (App:=App) (St:=St), !Env}.

Abbreviation Uh := (UnaryHandler (App:=App) (Conn:=Conn)).
Abbreviation Sh := (StreamHandler (App:=App) (St:=St) (Conn:=Conn)).
Abbreviation world := (World (App:=App) (Store:=Store)).
Abbreviation item := (RecordBatch * Metadata)%type.
Context (serve_reflection : RpcServer Uh Sh → Request → Conn → ST world unit).
Implicit Types (w : world) (srv : RpcServer Uh Sh) (info : MethodInfo Uh Sh).

(** ** Reading *)
Lemma read_frame_ok s b md more l w rest :
  wire_stream s ((b, md) :: more) l → schema_readable s → zlen l ≤ u32_max →
  clean (w_in w) → content (w_in w) = l ++ rest →
  ∃ r, read_frame w = (Ok (Some (b, md)), set_in r w) ∧ clean r ∧ content r = rest.
Proof.
  intros Hl Hs Hz Hc Hd. destruct (wire_stream_open _ _ _ _ _ Hl Hs Hz Hc Hd) as (sr & En & _ & Ha).
  destruct (at_items_next _ _ _ _ _ Ha) as (sr1 & Er & _ & Ha1).
  destruct (drain_items _ _ _ Ha1) as (sr2 & Ed & Hc2 & _ & _ & Hd2).
  exists (sr_reader sr2). unfold read_frame. by rewrite En, Er, Ed.
Qed.

(** A request that does not signal shared memory. *)
Definition inline_request (md : Metadata) : Prop :=
  md !! SHM_OFFSET_KEY = None ∧ md !! SHM_SEGMENT_NAME_KEY = None.

Lemma read_request_ok s b md more l w rest :
  wire_stream s ((b, md) :: more) l → schema_readable s → zlen l ≤ u32_max → inline_request md →
  clean (w_in w) → content (w_in w) = l ++ rest →
  ∃ r, read_request w = (Ok (Some (b, md, false, None)), set_in r w) ∧ clean r ∧ content r = rest.
Proof.
  intros Hl Hs Hz [H1' H2'] Hc Hd. destruct (read_frame_ok _ _ _ _ _ _ _ Hl Hs Hz Hc Hd) as (r & Er & Hcr & Hdr).
  exists r. split; [|done]. unfold read_request. unfold mbind at 1, ST_bind at 1. rewrite Er.
  unfold uses_shm, is_shm_pointer_batch. rewrite H1', H2'. change (bool_decide (is_Some (@None (list byte)))) with false.
  replace (if negb (num_rows b =? 0) then false else false && negb (bool_decide (is_Some (md !! LOG_LEVEL_KEY)))) with false
    by (by destruct (num_rows b =? 0)).
  unfold refresh. unfold mbind, ST_bind, st_get, mret, ST_ret. simpl. rewrite H2'. by destruct (w_cache w).
Qed.

(** ** The errors of dispatch *)

(** Every text of the server is UTF-8. *)
Definition server_utf8 srv : Prop :=
  utf8_valid (server_id srv) = true ∧
  ∀ p bnd, resolve_binding srv p = Some bnd → utf8_valid (rb_name bnd) = true ∧ utf8_valid (rb_version bnd) = true.

Lemma md_text (md : Metadata) k : metadata_utf8 md → utf8_valid (default [] (md !! k)) = true.
Proof. intros Hu. destruct (md !! k) eqn:E; [|done]. by apply Hu in E as [_ ?]. Qed.

Lemma from_read_batch_ok b md req : from_read_batch b md true = Ok req →
  request_id req = default [] (md !! REQUEST_ID_KEY) ∧ protocol req = default [] (md !! PROTOCOL_KEY) ∧
  method req = default [] (md !! RPC_METHOD_KEY) ∧ metadata req = md ∧ batch req = b.
Proof.
  unfold from_read_batch. intros E. case_match; [done|].
  apply bind_Ok in E as (m & Em & E). cbv iota in Em. apply ok_or_Ok in Em.
  apply bind_Ok in E as (v & _ & E). case_match; [done|]. case_match; [done|]. injection E as <-.
  cbn [request_id protocol method metadata batch]. by rewrite Em.
Qed.

Lemma traceback_utf8 srv p m : utf8_valid p = true → utf8_valid m = true →
  utf8_valid (default [] (traceback_origin srv p m)) = true.
Proof.
  intros Hp Hm. unfold traceback_origin. case_match; [done|]. simpl. case_bool_decide; [done|].
  change (x2f :: m) with ([x2f] ++ m). by repeat apply utf8_valid_app.
Qed.

Lemma mismatch_text tb p c sv :
  utf8_valid (default [] tb) = true → utf8_valid p = true → utf8_valid c = true → utf8_valid sv = true →
  error_text tb (RpcErr.protocol_version_mismatch p c sv) = true.
Proof.
  intros Ht Hp Hc Hs. unfold error_text, RpcErr.protocol_version_mismatch.
  set (d := bs "client declares " ++ _). assert (utf8_valid d = true) as Hd.
  { unfold d. repeat apply utf8_valid_app; try done. by case_bool_decide. }
  clearbody d. cbn -[utf8_valid text_safe]. rewrite Ht. simpl. by rewrite Hp, Hd.
Qed.

Lemma from_read_batch_text b md e : from_read_batch b md true = Err e →
  ∀ tb, utf8_valid (default [] tb) = true → error_text tb e = true.
Proof.
  intros E tb Ht. unfold from_read_batch, one_row in E. case_match; [injection E as <-; by apply plain_error_text|].
  destruct (md !! RPC_METHOD_KEY); [|injection E as <-; by apply plain_error_text]. cbn [ok_or mbind res_bind] in E.
  destruct (md !! REQUEST_VERSION_KEY); [|injection E as <-; by apply plain_error_text]. cbn [ok_or mbind res_bind] in E.
  case_match; [injection E as <-; by apply plain_error_text|].
  case_match; [injection E as <-; by apply plain_error_text|done].
Qed.

Lemma version_gate_binding p sv md e tb :
  utf8_valid p = true → utf8_valid sv = true → metadata_utf8 md → utf8_valid (default [] tb) = true →
  validate_protocol_version p sv md = Err e → error_text tb e = true.
Proof.
  intros Hp Hs Hu Ht E. unfold validate_protocol_version in E. destruct (version_gate sv md) as [?|d|]; [done| |done].
  injection E as <-. apply mismatch_text; try done. destruct d; try done; by apply md_text.
Qed.

(** The errors the dispatcher answers with are texts. *)
Lemma dispatch_error_text srv b md oreq sch e tb :
  server_utf8 srv → metadata_utf8 md → utf8_valid (default [] tb) = true →
  dispatch srv b md = Ok (RespondError oreq sch e) → error_text tb e = true.
Proof.
  intros [_ Hb] Hu Ht E. unfold dispatch in E. destruct (from_read_batch b md true) as [req|e0|] eqn:Ef; [| |done].
  2: { injection E as <- <- <-. by eapply from_read_batch_text. }
  apply from_read_batch_ok in Ef as (_ & Hp & _ & Hmd & _). cbn [error_or] in E.
  case_bool_decide; [done|]. case_bool_decide; [injection E as <- <- <-; by apply plain_error_text|].
  case_bool_decide; [done|]. destruct (route srv (protocol req)) as [bnd|e0|] eqn:Er; [| |done]; cbn [error_or] in E.
  2: { injection E as <- <- <-. unfold route in Er.
       case_bool_decide; [injection Er as <-; by apply plain_error_text|].
       destruct (validate_protocol_name _ _); [|injection Er as <-; by apply plain_error_text|done].
       destruct (resolve_binding _ _); [done|]. injection Er as <-.
       assert (utf8_valid (protocol req) = true) by (rewrite Hp; by apply md_text).
       apply plain_error_text; [done| |done|done]. unfold protocol_not_supported. cbn [message RpcErr.with_status RpcErr.with_error_kind RpcErr.with_code RpcErr.protocol_error RpcErr.new].
       apply utf8_valid_app; [done|]. change (x22 :: protocol req ++ [x22]) with ([x22] ++ protocol req ++ [x22]).
       by repeat apply utf8_valid_app. }
  assert (utf8_valid (rb_name bnd) = true ∧ utf8_valid (rb_version bnd) = true) as [Hn Hv].
  { unfold route in Er. case_bool_decide; [done|]. destruct (validate_protocol_name _ _); [|done..].
    apply ok_or_Ok in Er. by apply Hb in Er. }
  unfold dispatch_routed in E. rewrite Hmd in E.
  destruct (validate_protocol_version _ _ _) as [?|e0|] eqn:Ev; [| |done]; cbn [error_or] in E.
  2: { injection E as <- <- <-. exact (version_gate_binding _ _ _ _ _ Hn Hv Hu Ht Ev). }
  destruct (rb_methods bnd !! method req) as [inf|]; [|injection E as <- <- <-; by apply plain_error_text].
  destruct (validate_parameter_batch _ _) as [?|e0|] eqn:Epb; [| |done]; cbn [error_or] in E.
  - by destruct (method_type inf).
  - injection E as <- <- <-. unfold validate_parameter_batch, one_row in Epb.
    case_match; [injection Epb as <-; by apply plain_error_text|].
    case_match; [injection Epb as <-; by apply plain_error_text|done].
Qed.

(** Where a request comes from: the request of an action is the one on the wire. *)
Lemma dispatch_request srv b md a req :
  dispatch srv b md = Ok a →
  match a with
  | RespondError o _ _ => o = Some req
  | TransportOptions r | Reflect r | ServeUnary r _ | ServeStream r _ => r = req
  end → from_read_batch b md true = Ok req.
Proof.
  unfold dispatch. destruct (from_read_batch b md true) as [r|e|] eqn:Ef; [| |done]; intros E Hq.
  2: { injection E as <-. done. }
  cbn [error_or] in E. do 2 (case_bool_decide; [injection E as <-; by simplify_eq|]).
  case_bool_decide; [injection E as <-; by simplify_eq|].
  destruct (route _ _); [|injection E as <-; by simplify_eq|done]. cbn [error_or] in E. unfold dispatch_routed in E.
  destruct (validate_protocol_version _ _ _); [|injection E as <-; by simplify_eq|done]. cbn [error_or] in E.
  destruct (rb_methods _ !! _) as [inf|]; [|injection E as <-; by simplify_eq].
  destruct (validate_parameter_batch _ _); [|injection E as <-; by simplify_eq|done]. cbn [error_or] in E.
  destruct (method_type inf); injection E as <-; by simplify_eq.
Qed.

(** ** One answer *)
Lemma error_stream_ok sch e sid rid tb w w' :
  write_error_stream sch e sid rid tb w = (Ok tt, w') →
  utf8_valid sid = true → utf8_valid rid = true → error_text tb e = true →
  ∃ E l, empty_batch sch = Ok E ∧ wire_stream sch [(E, build_error_metadata e sid rid tb)] l ∧
    w' = set_out (w_out w') w ∧ sent (w_out w') = sent (w_out w) ++ l.
Proof.
  intros E Hs Hr Ht. unfold write_error_stream in E. apply st_bind_Ok in E as ([[] env] & w1 & E & E1). injection E1 as <-.
  apply with_writer_ok in E as (rs & rs' & Hrs & Hw & _ & E & _ & ->).
  apply st_bind_Ok in E as (eb & s1 & Eb & E). apply lift_Ok in Eb as [Eb ->].
  apply st_bind_Ok in E as ([] & s1 & Ew & E).
  eapply (sw_write_ok _ _ _ _ _ _ (Some _)) in Ew as [Hr1 Hw1]; [|done|by apply empty_fits|].
  2: { exact (envelope_utf8 _ _ _ (OpError e) Hs Hr Ht). }
  eapply finish_ok in E as (Hw2 & _ & l & Hl & Hsent); [|done].
  exists eb, l. split_and!; [done|done| |done]. rewrite Hw2, Hw1, Hw. by destruct w.
Qed.

Definition handshake_md srv : Metadata :=
  <[SERVER_ID_KEY := server_id srv]> (<[REQUEST_VERSION_KEY := REQUEST_VERSION]> worker_transport_metadata).

Lemma transport_options_ok srv w w' :
  serve_transport_options srv w = (Ok tt, w') → utf8_valid (server_id srv) = true →
  ∃ E l, empty_batch empty_schema = Ok E ∧ wire_stream empty_schema [(E, handshake_md srv)] l ∧
    w' = set_out (w_out w') w ∧ sent (w_out w') = sent (w_out w) ++ l.
Proof.
  intros E Hs. unfold serve_transport_options in E. apply st_bind_Ok in E as (eb & w1 & Eb & E).
  apply lift_Ok in Eb as [Eb ->]. apply st_bind_Ok in E as ([[] env] & w1 & E & E1). injection E1 as <-.
  apply with_writer_ok in E as (rs & rs' & Hrs & Hw & _ & E & _ & ->).
  eapply put_and_finish_ok in E as (Hw1 & l & Hl & Hsent); [|done|by apply empty_fits|].
  2: { repeat (apply map_Forall_insert_2; [done|]). apply map_Forall_empty. }
  exists eb, l. split_and!; [done|done| |done]. rewrite Hw1, Hw. by destruct w.
Qed.

(** The origin a traceback is rendered with. *)
Definition origin srv (o : option Request) : option (list byte) :=
  match o with
  | Some req => traceback_origin srv (protocol req) (method req)
  | None => traceback_origin srv [] []
  end.

(** [l] answers the action, for a call without shared memory whose client streams
    [inputs], and the application's state moves from [a] to [a']. *)
Definition answer srv (conn : Conn) (rid : list byte) (act : Action Uh Sh) (inputs : list item) (a : App) (l : list byte) (a' : App) : Prop :=
  match act with
  | RespondError o sch e =>
    a' = a ∧ ∃ E, empty_batch sch = Ok E ∧ wire_stream sch [(E, build_error_metadata e (server_id srv) rid (origin srv o))] l
  | TransportOptions _ =>
    a' = a ∧ ∃ E, empty_batch empty_schema = Ok E ∧ wire_stream empty_schema [(E, handshake_md srv)] l
  | ServeUnary req info =>
    a' = unary_app info req conn a ∧
    ∃ E last, empty_batch (result_schema info) = Ok E ∧
      unary_answer srv None (result_schema info) (server_id srv) rid (origin srv (Some req)) E
        (unary_outcome info req conn a) last ∧
      wire_stream (result_schema info) (log_items (server_id srv) rid E (unary_outcome info req conn a).1.2 ++ [last]) l
  | ServeStream req info =>
    stream_answer (result_schema info) (server_id srv) rid (origin srv (Some req)) (stream_outcome info req conn a) inputs l a'
  | Reflect _ => False
  end.

(** The handlers a request can reach return Rust strings and their declared schema. *)
Definition handlers_ok srv (conn : Conn) : Prop :=
  ∀ b md req info a, metadata_utf8 md →
    (dispatch srv b md = Ok (ServeUnary req info) →
     outcome_ok (result_schema info) (origin srv (Some req)) (unary_outcome info req conn a)) ∧
    (dispatch srv b md = Ok (ServeStream req info) →
     stream_outcome_ok (origin srv (Some req)) (stream_outcome info req conn a)).

(** What the client sends behind its request: its batches exactly when the call is
    served as a stream. Requests for the reflection protocol are left out. *)
Definition follows srv (act : Action Uh Sh) (inputs : list item) (l : list byte) : Prop :=
  match act with
  | ServeStream _ _ => external_config srv = None ∧
      ∃ s, wire_stream s inputs l ∧ schema_readable s ∧ zlen l ≤ u32_max
  | Reflect _ => False
  | _ => l = []
  end.

Lemma call_segment_inline md w o w' :
  inline_request md → call_segment false md w = (Ok o, w') → o = None ∧ w' = w.
Proof.
  intros [_ Hn] E. unfold call_segment, maybe_attach_shm in E. st_simp E. destruct (w_cache w); [by simplify_eq|].
  rewrite Hn in E. by simplify_eq.
Qed.

Lemma serve_method_ok srv req serve w w' :
  inline_request (metadata req) → serve_method srv req false serve w = (Ok tt, w') →
  ∃ w1 w2, w_in w1 = w_in w ∧ w_out w1 = w_out w ∧ w_cache w1 = w_cache w ∧ w_app w1 = w_app w ∧
    serve None w1 = (Ok tt, w2) ∧
    w_in w' = w_in w2 ∧ w_out w' = w_out w2 ∧ w_cache w' = w_cache w2 ∧ w_app w' = w_app w2.
Proof.
  intros Hin E. unfold serve_method in E. apply st_bind_Ok in E as ([] & w1 & E1 & E). injection E1 as <-.
  apply st_bind_Ok in E as ([] & w2 & E2 & E).
  assert (w_in w2 = w_in w ∧ w_out w2 = w_out w ∧ w_cache w2 = w_cache w ∧ w_app w2 = w_app w) as (I2 & O2 & C2 & A2).
  { destruct (dispatch_hook srv); injection E2 as <-; done. }
  apply st_bind_Ok in E as (seg & w3 & E3 & E). apply call_segment_inline in E3 as [-> ->]; [|done].
  apply st_bind_Ok in E as (outer & w4 & E4 & E). injection E4 as <- <-.
  apply st_bind_Ok in E as ([] & w5 & E5 & E). apply st_bind_Ok in E as (n & w6 & E6 & E). injection E6 as <- <-.
  eexists _, w5. split_and!; [..|exact E5| | | |]; try done; destruct (dispatch_hook srv); injection E as <-; done.
Qed.

Lemma perform_ok srv conn b md act inputs bytes rest w w' :
  server_utf8 srv → handlers_ok srv conn → metadata_utf8 md → inline_request md →
  dispatch srv b md = Ok act → follows srv act inputs bytes →
  clean (w_in w) → content (w_in w) = bytes ++ rest →
  perform serve_reflection srv conn (default [] (md !! REQUEST_ID_KEY)) false act w = (Ok tt, w') →
  clean (w_in w') ∧ content (w_in w') = rest ∧ w_cache w' = w_cache w ∧
  ∃ l, answer srv conn (default [] (md !! REQUEST_ID_KEY)) act inputs (w_app w) l (w_app w') ∧
       sent (w_out w') = sent (w_out w) ++ l.
Proof.
  intros Hsrv Hh Hu Hin Hd Ha Hc Hct E. set (rid := default [] _) in *.
  assert (utf8_valid rid = true) as Hrid by by apply md_text. pose proof Hsrv as [Hsid _].
  destruct act as [o sch e|r|r|req info|req info]; cbn [perform follows] in *; try done.
  - subst bytes. assert (∃ rid', rid' = rid ∧ write_error_stream sch e (server_id srv) rid' (origin srv o) w = (Ok tt, w')) as (? & -> & E').
    { destruct o as [req|]; [|by exists rid]. exists (request_id req). split; [|done].
      apply (dispatch_request _ _ _ _ req) in Hd; [|done]. by apply from_read_batch_ok in Hd as (? & _). }
    apply error_stream_ok in E' as (eb & l & Eb & Hl & Hw & Hs); [|done|done|].
    + rewrite Hw. cbn. split_and!; [done|done|done|]. exists l. cbn. split; [|done]. split; [done|]. eauto.
    + eapply dispatch_error_text; [done|done| |done]. destruct o as [req|]; [|by apply traceback_utf8].
      apply (dispatch_request _ _ _ _ req) in Hd; [|done]. apply from_read_batch_ok in Hd as (_ & Hp & Hm & _).
      apply traceback_utf8; [rewrite Hp|rewrite Hm]; by apply md_text.
  - subst bytes. apply transport_options_ok in E as (eb & l & Eb & Hl & Hw & Hs); [|done].
    rewrite Hw. cbn. split_and!; [done|done|done|]. exists l. cbn. split; [|done]. split; [done|]. eauto.
  - subst bytes. pose proof (proj1 (Hh _ _ _ _ (w_app w) Hu) Hd) as Ho.
    apply (dispatch_request _ _ _ _ req) in Hd as Hq; [|done]. apply from_read_batch_ok in Hq as (Hrq & _ & _ & Hmd & _).
    apply serve_method_ok in E as (w1 & w2 & I1 & O1 & C1 & A1 & E & I2 & O2 & C2 & A2); [|by rewrite Hmd].
    apply serve_unary_ok in E as (I5 & C5 & _ & A5 & eb & last & l & Eb & Han & Hl & Hs);
      [|cbn; by rewrite A1|done|by rewrite Hrq].
    rewrite A1 in A5, Han, Hl. rewrite Hrq in Han, Hl. fold rid in Han, Hl.
    rewrite I2, I5, I1, C2, C5, C1. split_and!; [done..|]. exists l. rewrite A2, A5, O2, Hs, O1. cbn. eauto 10.
  - destruct Ha as (Hext & s & Hws & Hsr & Hz). pose proof (proj2 (Hh _ _ _ _ (w_app w) Hu) Hd) as Ho.
    apply (dispatch_request _ _ _ _ req) in Hd as Hq; [|done]. apply from_read_batch_ok in Hq as (Hrq & _ & _ & Hmd & _).
    apply serve_method_ok in E as (w1 & w2 & I1 & O1 & C1 & A1 & E & I2 & O2 & C2 & A2); [|by rewrite Hmd].
    rewrite <- I1 in Hc, Hct. rewrite <- A1 in Ho |- *.
    eapply serve_stream_ok in E as (Hc5 & Hd5 & C5 & _ & l & Han & Hs); [|done|done|by rewrite Hrq|done..].
    rewrite I2, C2, C5, C1, A2, O2. split_and!; [done..|]. exists l. rewrite Hs, O1, Hrq in *. by split.
Qed.

(** ** The loop *)

(** A call: its request, and the batches the client streams to it. *)
Abbreviation call := ((RecordBatch * Metadata) * list item)%type.

(** The bytes of a call the theorem is about. *)
Definition call_on_wire srv (c : call) (l : list byte) : Prop :=
  ∃ s more l1 l2, wire_stream s (c.1 :: more) l1 ∧ schema_readable s ∧ zlen l1 ≤ u32_max ∧ inline_request c.1.2 ∧
    (∀ act, dispatch srv c.1.1 c.1.2 = Ok act → follows srv act c.2 l2) ∧ l = l1 ++ l2.

(** A response for every call, in order, as the application's state moves. *)
Fixpoint conversation srv (conn : Conn) (a : App) (cs : list call) (ls : list (list byte)) (a' : App) : Prop :=
  match cs, ls with
  | [], [] => a' = a
  | c :: cs, l :: ls =>
    ∃ act a1, dispatch srv c.1.1 c.1.2 = Ok act ∧
      answer srv conn (default [] (c.1.2 !! REQUEST_ID_KEY)) act c.2 a l a1 ∧ conversation srv conn a1 cs ls a'
  | _, _ => False
  end.

Lemma serve_one_request srv conn c l rest w :
  server_utf8 srv → handlers_ok srv conn → call_on_wire srv c l →
  clean (w_in w) → content (w_in w) = l ++ rest →
  match _serve_one serve_reflection srv conn w with
  | (Ok true, w') =>
    clean (w_in w') ∧ content (w_in w') = rest ∧ w_cache w' = w_cache w ∧
    ∃ act out, dispatch srv c.1.1 c.1.2 = Ok act ∧
      answer srv conn (default [] (c.1.2 !! REQUEST_ID_KEY)) act c.2 (w_app w) out (w_app w') ∧
      sent (w_out w') = sent (w_out w) ++ out
  | (Ok false, _) => False
  | (Err e, _) => ∃ act w1, dispatch srv c.1.1 c.1.2 = Ok act ∧
      (perform serve_reflection srv conn (default [] (c.1.2 !! REQUEST_ID_KEY)) false act w1).1 = Err e
  | (Panic, _) => dispatch srv c.1.1 c.1.2 = Panic ∨ ∃ act w1, dispatch srv c.1.1 c.1.2 = Ok act ∧
      (perform serve_reflection srv conn (default [] (c.1.2 !! REQUEST_ID_KEY)) false act w1).1 = Panic
  end.
Proof.
  intros Hsrv Hh (s & more & l1 & l2 & Hl & Hsr & Hz & Hin & Hact & ->) Hc Hd. destruct c as [[b md] inputs]. cbn [fst snd] in *.
  rewrite <- app_assoc in Hd.
  assert (metadata_utf8 md) as Hu by (apply wire_stream_utf8 in Hl; by apply list.Forall_cons in Hl as [? _]).
  destruct (read_request_ok _ _ _ _ _ _ _ Hl Hsr Hz Hin Hc Hd) as (r & Er & Hcr & Hdr).
  unfold _serve_one, mbind at 1, ST_bind at 1. rewrite Er. unfold serve_frame.
  destruct (dispatch srv b md) as [act|e|] eqn:Ed; unfold lift, mbind, ST_bind; cbn -[dispatch].
  - destruct (perform _ srv conn _ false act (set_in r w)) as [[[]|e|] w1] eqn:Ep; cbn.
    2: { exists act, (set_in r w). split; [done|]. by rewrite Ep. }
    2: { right. exists act, (set_in r w). split; [done|]. by rewrite Ep. }
    eapply perform_ok in Ep as (I1 & D1 & C1 & out & Ha & Hs); try done; [|by apply Hact].
    cbn in I1, D1, C1, Ha, Hs. split_and!; [done|done|done|]. by exists act, out.
  - exfalso. revert Ed. unfold dispatch, dispatch_routed, error_or. by repeat case_match.
  - by left.
Qed.

(** C1. A connection answers its requests in order, one complete answer each, whatever
    the dispatcher decides about each. The requests are those that signal no shared
    memory and do not ask for reflection; where one is served as a stream, the server
    has no external storage, and the client's batches stand behind it. A request that is
    not served as a stream (a unary call, a refusal, the handshake) has nothing behind
    it: batches sent behind a streaming call that is refused are not part of it, but a
    request of their own, with an answer of its own. While the loop runs, [n] such requests have
    received exactly [n] complete answers, under their request ids (a refusal, the handshake,
    a unary handler's logs and its result or error, or a stream's header and the items
    its handler's turns produce on the client's batches), and the reader stands at the next
    request. The loop never closes on a well-framed call; it stops early only with the
    failure or the panic of dispatching or answering one of them. *)
Theorem connection_answers_in_order srv conn cs inputs rest w r w' :
  server_utf8 srv → handlers_ok srv conn → Forall2 (call_on_wire srv) cs inputs →
  clean (w_in w) → content (w_in w) = concat inputs ++ rest →
  serve_loop serve_reflection (length cs) srv conn w = (r, w') →
  match r with
  | Ok Running => clean (w_in w') ∧ content (w_in w') = rest ∧
      ∃ ls, conversation srv conn (w_app w) cs ls (w_app w') ∧ sent (w_out w') = sent (w_out w) ++ concat ls
  | Ok Closed => False
  | Ok (Failed e) => ∃ c act w1, c ∈ cs ∧ dispatch srv c.1.1 c.1.2 = Ok act ∧
      (perform serve_reflection srv conn (default [] (c.1.2 !! REQUEST_ID_KEY)) false act w1).1 = Err e
  | Err _ => False
  | Panic => ∃ c, c ∈ cs ∧ (dispatch srv c.1.1 c.1.2 = Panic ∨ ∃ act w1, dispatch srv c.1.1 c.1.2 = Ok act ∧
      (perform serve_reflection srv conn (default [] (c.1.2 !! REQUEST_ID_KEY)) false act w1).1 = Panic)
  end.
Proof.
  intros Hsrv Hh Hq. revert w. induction Hq as [|q l qs inputs Hq Hqs IH]; intros w Hc Hd E.
  { injection E as <- <-. split_and!; [done|done|]. exists []. by rewrite app_nil_r. }
  cbn [concat] in Hd. rewrite <- app_assoc in Hd. cbn [length serve_loop] in E.
  pose proof (serve_one_request srv conn q l _ w Hsrv Hh Hq Hc Hd) as H1'.
  destruct (_serve_one _ srv conn w) as [[[]|e|] w1]; [| |injection E as <- <-|injection E as <- <-]; [|done| |].
  - destruct H1' as (Hc1 & Hd1 & _ & act & out & Hda & Ha & Hs). specialize (IH w1 Hc1 Hd1 E).
    destruct r as [[| |e]|e|]; try done.
    + destruct IH as (? & ? & ls & Hcv & Hsl). split_and!; [done|done|]. exists (out :: ls). split; [cbn; eauto|].
      cbn. by rewrite Hsl, Hs, <- app_assoc.
    + destruct IH as (q' & act' & w2 & Hin & ? & ?). exists q', act', w2. split; [by right|done].
    + destruct IH as (q' & Hin & ?). exists q'. split; [by right|done].
  - destruct H1' as (act & w2 & ? & ?). exists q, act, w2. split; [by left|done].
  - exists q. split; [by left|done].
Qed.

Definition missing_method : RpcError :=
  RpcErr.protocol_error (bs "Missing 'vgi_rpc.method' in request batch custom_metadata.").

Lemma dispatch_no_method srv b md :
  md !! INVALID_UTF8_METADATA_KEY = None → md !! RPC_METHOD_KEY = None →
  dispatch srv b md = Ok (RespondError None empty_schema missing_method).
Proof.
  intros H1' H2'. unfold dispatch, from_read_batch. rewrite H1', H2'.
  by rewrite bool_decide_eq_false_2 by by intros [].
Qed.

(** C39. A streaming call that is refused before its handler runs (unknown
    method or protocol, version or parameter mismatch) is answered twice: the server does not
    read the batches the client streams behind such a request, so it takes them for
    the next request and answers that with a second error. The client, which reads one
    answer per call, is one answer behind from then on. *)
Theorem refused_stream_answered_twice srv conn q o sch e sq more sin b md inputs l1 l2 rest w w1 w2 :
  server_utf8 srv → handlers_ok srv conn →
  wire_stream sq (q :: more) l1 → schema_readable sq → zlen l1 ≤ u32_max → inline_request q.2 →
  dispatch srv q.1 q.2 = Ok (RespondError o sch e) →
  wire_stream sin ((b, md) :: inputs) l2 → schema_readable sin → zlen l2 ≤ u32_max → inline_request md →
  md !! INVALID_UTF8_METADATA_KEY = None → md !! RPC_METHOD_KEY = None →
  clean (w_in w) → content (w_in w) = l1 ++ l2 ++ rest →
  _serve_one serve_reflection srv conn w = (Ok true, w1) → _serve_one serve_reflection srv conn w1 = (Ok true, w2) →
  content (w_in w1) = l2 ++ rest ∧ content (w_in w2) = rest ∧
  ∃ E1 E2 a1 a2, wire_stream sch [(E1, build_error_metadata e (server_id srv) (default [] (q.2 !! REQUEST_ID_KEY)) (origin srv o))] a1 ∧
    wire_stream empty_schema [(E2, build_error_metadata missing_method (server_id srv) (default [] (md !! REQUEST_ID_KEY)) (origin srv None))] a2 ∧
    sent (w_out w2) = sent (w_out w) ++ a1 ++ a2.
Proof.
  intros Hsrv Hh Hq Hsq Hz Hin Hd Hs Hss Hz2 Hin2 Hn1 Hn2 Hc Hct E1 E2.
  assert (call_on_wire srv (q, []) l1) as C1.
  { exists sq, more, l1, []. rewrite app_nil_r. split_and!; try done. intros act Ha. cbn [fst snd] in Ha. rewrite Hd in Ha. by injection Ha as <-. }
  assert (call_on_wire srv (b, md, []) l2) as C2.
  { exists sin, inputs, l2, []. rewrite app_nil_r. split_and!; try done. intros act Ha. cbn [fst snd] in Ha. rewrite dispatch_no_method in Ha by done. by injection Ha as <-. }
  pose proof (serve_one_request srv conn _ _ _ w Hsrv Hh C1 Hc Hct) as S1. rewrite E1 in S1.
  destruct S1 as (Hc1 & Hct1 & _ & act1 & a1 & Ha1 & An1 & Hs1). cbn in Ha1, An1. rewrite Hd in Ha1. injection Ha1 as <-.
  pose proof (serve_one_request srv conn _ _ _ w1 Hsrv Hh C2 Hc1 Hct1) as S2. rewrite E2 in S2.
  destruct S2 as (_ & Hct2 & _ & act2 & a2 & Ha2 & An2 & Hs2). cbn in Ha2, An2. rewrite dispatch_no_method in Ha2 by done. injection Ha2 as <-.
  destruct An1 as (_ & Eb1 & _ & W1), An2 as (_ & Eb2 & _ & W2). split_and!; [done..|].
  exists Eb1, Eb2, a1, a2. split_and!; [done..|]. by rewrite Hs2, Hs1, <- app_assoc.
Qed.
End Connection.
