(* ===== verification/Intermediary.v ===== *)
(** * Intermediaries

    [vgi-rpc/src/intermediary.rs]: what a proxy or router does with a body it holds
    whole: read a request, frame one for forwarding, refuse a call in-band, find a key
    in the metadata of one or several streams, and unwrap a unary result and wrap it
    again. The reader of a body is a [Cursor], which delivers all of it at once. *)

From S2P Require Import Prelude Bytes Metadata F64 Json ErrorModel Errors Ipc IpcProps IpcWriter Arrow IpcWriterProps IpcStream.
From S2P Require Import ArrowType ArrowTypeProps Dispatch DispatchProps Envelope EnvelopeProps Serve ServeProps ServeConn.

#[local] Open Scope Z_scope.

Section Operations.
Context `{ArrowArrays} `{!ArrowValues Array} `{!Json}.

(** ** Requests *)

(** What a reader of bytes in memory returns; it never fails to return. *)
Definition next_of (s : StreamReader) : res RpcError (option (RecordBatch * Metadata) * StreamReader) :=
  match read_next s with Some r => r | None => Panic end.
Definition drain_of (s : StreamReader) : res RpcError StreamReader :=
  match drain s with Some r => r | None => Panic end.

Definition read_request (data : list byte) : res RpcError Request :=
  rdr ← stream_reader_new [Data data];
  '(o, rdr) ← next_of rdr;
  '(b, md) ← ok_or (RpcErr.protocol_error (bs "empty IPC stream")) o;
  _ ← drain_of rdr;
  from_read_batch b md true.

(** [o.filter(|s| !s.is_empty())] *)
Definition filled (o : option (list byte)) : option (list byte) :=
  v ← o; if bool_decide (v = []) then None else Some v.

Definition stamp (k : list byte) (o : option (list byte)) (md : Metadata) : Metadata :=
  match filled o with Some v => <[k := v]> md | None => md end.

Definition forward_metadata (method : list byte) (protocol_version request_id : option (list byte)) : Metadata :=
  let md := <[RPC_METHOD_KEY := method]> ∅ in
  let md := <[REQUEST_VERSION_KEY := REQUEST_VERSION]> md in
  let md := stamp REQUEST_ID_KEY request_id md in
  stamp PROTOCOL_VERSION_KEY protocol_version md.

(** [let mut buf = Vec::new()], one stream of one batch in it. *)
Definition one_batch_body (schema : ArrowSchema) (b : res RpcError RecordBatch) (md : option Metadata) : res RpcError (list byte) :=
  sw ← (stream_writer_new (mkSink [] [] [] None (Ok tt)) schema).1;
  b ← b;
  let '(r, sw) := stream_writer_write sw b md in
  _ ← r;
  let '(r, sw) := stream_writer_finish sw in
  _ ← r;
  Ok (sent (sw_writer (stream_writer_drop sw))).

Definition write_request (method : list byte) (params : RecordBatch) (protocol_version request_id : option (list byte))
  : res RpcError (list byte) :=
  one_batch_body (batch_schema params) (Ok params) (Some (forward_metadata method protocol_version request_id)).

(** ** Errors *)
Definition error_stream_metadata (err : RpcError) (server_id : option (list byte)) : Metadata :=
  let md := build_error_metadata err (default [] server_id) [] None in
  match filled server_id with Some _ => md | None => delete SERVER_ID_KEY md end.

Definition build_error_stream (err : RpcError) (schema : option ArrowSchema) (server_id : option (list byte)) : res RpcError (list byte) :=
  let schema := default empty_schema schema in
  one_batch_body schema (empty_batch schema) (Some (error_stream_metadata err server_id)).

(** ** Walking concatenated streams *)

(** Where [read_message_bytes] leaves a cursor, also when it fails: a read that meets
    the end of the data has taken all of it. *)
Definition left_by_message (r : reader) (max_bytes : Z) : reader :=
  match read_exact r 4 with
  | Ok (Some prefix, r) =>
    match (if decide (prefix = CONTINUATION_MARKER) then read_exact r 4 else Ok (Some prefix, r)) with
    | Ok (Some size_bytes, r) =>
      let size := le_val size_bytes in
      if (size =? 0) || (max_bytes <? size) then r else
      match read_exact r size with
      | Ok (Some bytes, r) =>
        match parse_message bytes with
        | Ok (msg, _, _) =>
          let n := bodyLength msg in
          if (n <=? 0) || (max_bytes <? n) then r else
          match take_read_to_end (Z.to_nat n) [] r with Ok (_, r) => r | _ => [] end
        | _ => r
        end
      | Ok (None, r) => r
      | _ => []
      end
    | Ok (None, r) => r
    | _ => []
    end
  | Ok (None, r) => r
  | _ => []
  end.

(** Where [read_next] leaves it. *)
Fixpoint left_by_turns (fuel : nat) (s : StreamReader) : reader :=
  match fuel with
  | O => sr_reader s
  | S fuel =>
    match read_next_turn s with
    | Ok (Again s) => left_by_turns fuel s
    | _ => left_by_message (sr_reader s) MAX_IPC_MESSAGE_BYTES
    end
  end.
Definition left_by_next (s : StreamReader) : reader :=
  if finished s then sr_reader s else left_by_turns (S (reader_size (sr_reader s))) s.

(** [while let Ok(Some((_batch, md))) = reader.read_next()]: what was found, or where
    the cursor is; [None] is the loop not ending. *)
Fixpoint scan_stream {T} (fuel : nat) (f : Metadata → option T) (s : StreamReader) : option (T + reader) :=
  match fuel with
  | O => None
  | S fuel =>
    match read_next s with
    | Some (Ok (Some (_, md), s)) =>
      match f md with Some found => Some (inl found) | None => scan_stream fuel f s end
    | _ => Some (inr (left_by_next s))
    end
  end.

(** [while offset < data.len()], on the data from the offset on. *)
Fixpoint scan_streams {T} (fuel : nat) (f : Metadata → option T) (data : list byte) : option (option T) :=
  match fuel with
  | O => None
  | S fuel =>
    if bool_decide (data = []) then Some None else
    match stream_reader_new [Data data] with
    | Ok s =>
      match scan_stream (S (reader_size (sr_reader s))) f s with
      | Some (inl found) => Some (Some found)
      | Some (inr r) => if zlen (content r) =? zlen data then Some None else scan_streams fuel f (content r)
      | None => None
      end
    | _ => Some None
    end
  end.

Definition scan_batch_metadata {T} (data : list byte) (f : Metadata → option T) : option (option T) :=
  scan_streams (S (length data)) f data.

Definition find_state_token (data : list byte) : option (option (list byte)) :=
  scan_batch_metadata data (fun md => filled (md !! STATE_KEY)).
Definition find_protocol_version (data : list byte) : option (option (list byte)) :=
  scan_batch_metadata data (fun md => filled (md !! PROTOCOL_VERSION_KEY)).

(** ** Unary results *)

(** [schema.index_of] *)
Definition index_of (s : ArrowSchema) (name : list byte) : option nat :=
  fst <$> list_find (fun f => field_name f = name) (schema_fields s).

Definition result_column (b : RecordBatch) : res RpcError (option (ArrowSchema * list byte)) :=
  match index_of (batch_schema b) (bs "result") with
  | None => Ok None
  | Some idx =>
    col ← or_panic (columns b !! idx);
    match values_of KBinary col with
    | None => Ok None
    | Some values =>
      null ← or_panic (is_null col 0);
      if null : bool then Ok None else
      v ← or_panic (values !! O);
      Ok (Some (batch_schema b, v))
    end
  end.

Fixpoint read_unary_loop (fuel : nat) (rdr : StreamReader) : res RpcError (option (ArrowSchema * list byte)) :=
  match fuel with
  | O => Panic
  | S fuel =>
    '(o, rdr) ← next_of rdr;
    match o with
    | None => Ok None
    | Some (b, md) =>
      if 0 <? num_rows b then result_column b else
      match md !! LOG_LEVEL_KEY with
      | Some level => if bool_decide (level = level_as_str Exception) then Ok None else read_unary_loop fuel rdr
      | None => Ok None
      end
    end
  end.

Definition read_unary_result (data : list byte) : res RpcError (option (ArrowSchema * list byte)) :=
  rdr ← stream_reader_new [Data data];
  read_unary_loop (S (reader_size (sr_reader rdr))) rdr.

Definition write_unary_result (envelope_schema : ArrowSchema) (result_bytes : list byte) : res RpcError (list byte) :=
  b ← map_err (fun _ => RpcErr.runtime_error (bs "unary result batch: "))
        (try_new envelope_schema [array_from KBinary TBinary [result_bytes]]);
  one_batch_body envelope_schema (Ok b) None.
End Operations.

(** ** Where a reader is left *)
Section Position.
Context `{ArrowIpc}.

Lemma left_by_message_read r max o r' : read_message_bytes r max = Ok (o, r') → left_by_message r max = r'.
Proof.
  unfold read_message_bytes, left_by_message. intros E. apply bind_Ok in E as ((p & r1) & -> & E).
  destruct p as [p|]; [|by injection E as _ <-]. apply bind_Ok in E as ((sb & r2) & -> & E).
  destruct sb as [sb|]; [|by injection E as _ <-]. unfold read_sized in E.
  destruct (Z.eqb_spec (le_val sb) 0); [by injection E as _ <-|]. destruct (Z.ltb_spec max (le_val sb)); [done|]. cbn [orb].
  apply bind_Ok in E as ((bytes & r3) & -> & E). destruct bytes as [bytes|]; [|done]. cbn [ok_or mbind res_bind] in E.
  apply bind_Ok in E as ([[msg bytes'] bad] & -> & E).
  destruct (Z.ltb_spec (bodyLength msg) 0); [done|]. destruct (Z.ltb_spec max (bodyLength msg)); [done|].
  apply bind_Ok in E as ((b & r4) & E & E4). injection E4 as _ <-.
  destruct (Z.ltb_spec 0 (bodyLength msg)), (Z.leb_spec (bodyLength msg) 0); try lia; cbn [orb]; [|by injection E as _ <-].
  apply bind_Ok in E as ((b' & r5) & -> & E). case_match; [by injection E as _ <-|done].
Qed.

Lemma left_by_turns_read fuel s o s' :
  read_next_loop fuel s = Some (Ok (o, s')) → left_by_turns fuel s = sr_reader s'.
Proof.
  revert s. induction fuel as [|fuel IH]; intros s E; [done|]. cbn [read_next_loop left_by_turns] in *.
  destruct (read_next_turn s) as [[s1|o1 s1]|e|] eqn:Et; [by apply IH|injection E as -> ->|done..].
  unfold read_next_turn in Et. apply bind_Ok in Et as ((f & r) & Em & Et). apply left_by_message_read in Em as ->.
  destruct f as [[msg|]|]; [|by injection Et as _ <-..].
  destruct (root_as_message _); [|done..]. destruct (header_type _); try done; (case_match; [done|]); by inv_res.
Qed.

Lemma left_by_next_read s o s' : read_next s = Some (Ok (o, s')) → left_by_next s = sr_reader s'.
Proof. unfold read_next, left_by_next. destruct (finished s); [by intros [= _ <-]|apply left_by_turns_read]. Qed.

Lemma left_by_message_size r max : (reader_size (left_by_message r max) ≤ reader_size r)%nat.
Proof.
  unfold left_by_message. destruct (read_exact r 4) as [[[p|] r1]|e|] eqn:E1; [|by apply read_exact_loop_size in E1|simpl; lia..].
  apply read_exact_loop_size in E1.
  destruct (if decide _ then _ else _) as [[[sb|] r2]|e|] eqn:E2; [| |simpl; lia..].
  2: { case_decide; [apply read_exact_loop_size in E2; lia|done]. }
  assert (reader_size r2 ≤ reader_size r1)%nat by (case_decide; [by apply read_exact_loop_size in E2|by injection E2 as _ <-]).
  destruct (_ || _); [lia|]. destruct (read_exact r2 _) as [[[b|] r3]|e|] eqn:E3; [|apply read_exact_loop_size in E3; lia|simpl; lia..].
  apply read_exact_loop_size in E3. destruct (parse_message b) as [[[msg b'] bad]|e|]; [|lia..].
  destruct (_ || _); [lia|]. destruct (take_read_to_end _ _ r3) as [[b4 r4]|e|] eqn:E4; [|simpl; lia..].
  apply take_read_to_end_size in E4. lia.
Qed.

Lemma left_by_next_size s : (reader_size (left_by_next s) ≤ reader_size (sr_reader s))%nat.
Proof.
  unfold left_by_next. destruct (finished s); [done|]. generalize (S (reader_size (sr_reader s))) as fuel.
  intros fuel. revert s. induction fuel as [|fuel IH]; intros s; [done|]. cbn [left_by_turns].
  pose proof (left_by_message_size (sr_reader s) MAX_IPC_MESSAGE_BYTES) as Hm. pose proof (read_next_turn_size s) as Hs.
  destruct (read_next_turn s) as [[s1|o1 s1]|e|]; [|done..]. specialize (Hs _ eq_refl). simpl in Hs. specialize (IH s1). lia.
Qed.
End Position.

(** ** The walk *)
Section Walk.
Context `{LW : ArrowIpcWriterLaws} `{!ArrowIpcLaws} {T : Type} (f : Metadata → option T).

Lemma scan_stream_returns fuel s : (reader_size (sr_reader s) < fuel)%nat →
  ∃ x, scan_stream fuel f s = Some x ∧
    match x with inr r => (reader_size r ≤ reader_size (sr_reader s))%nat | inl _ => True end.
Proof.
  revert s. induction fuel as [|fuel IH]; intros s Hf; [lia|]. cbn [scan_stream].
  destruct (read_next_returns s) as (r & Er & _ & Hr). rewrite Er. pose proof (left_by_next_size s).
  destruct r as [[[[b md]|] s']|e|]; [|by (eexists; split; [done|])..]. destruct (f md); [by eexists|].
  destruct (IH s') as (x & -> & Hx); [lia|]. exists x. split; [done|]. destruct x; [done|lia].
Qed.

(** The walk ends on every body, whatever it holds. *)
Theorem scan_ends data : is_Some (scan_batch_metadata data f).
Proof.
  unfold scan_batch_metadata. assert (∀ fuel l, (length l < fuel)%nat → is_Some (scan_streams fuel f l)) as Hs; [|apply Hs; lia].
  induction fuel as [|fuel IH]; intros l Hl; [lia|]. cbn [scan_streams]. case_bool_decide; [done|].
  pose proof (proj2 (stream_reader_new_size [Data l])) as Hn. destruct (stream_reader_new _) as [s|e|]; [|done..].
  specialize (Hn s eq_refl). destruct (scan_stream_returns (S (reader_size (sr_reader s))) s) as (x & -> & Hx); [lia|].
  destruct x as [t|r]; [done|]. destruct (Z.eqb_spec (zlen (content r)) (zlen l)) as [|Hne]; [done|].
  apply IH. pose proof (length_content r). unfold zlen in Hne. rewrite reader_size_cons in Hn. simpl in Hn. lia.
Qed.

(** What a walk over items finds first. *)
Definition first_found (items : list (RecordBatch * Metadata)) : option T := head (omap (fun i => f i.2) items).

Lemma scan_stream_items fuel s items rest : at_items s items rest → (length items < fuel)%nat →
  ∃ x, scan_stream fuel f s = Some x ∧
    match first_found items with Some t => x = inl t | None => ∃ r, x = inr r ∧ content r = rest end.
Proof.
  revert s fuel. induction items as [|[b md] items IH]; intros s fuel Ha Hf; (destruct fuel as [|fuel]; [simpl in Hf; lia|]);
    cbn [scan_stream].
  - destruct (at_items_end _ _ Ha) as (r' & E & (_ & _ & _ & Hd)). rewrite E. eexists. split; [done|].
    eexists. split; [done|]. by rewrite (left_by_next_read _ _ _ E).
  - destruct (at_items_next _ _ _ _ _ Ha) as (r' & -> & _ & Ha'). unfold first_found. simpl.
    destruct (f md); [by eexists|]. simpl in Hf. apply (IH r' fuel Ha'). lia.
Qed.

(** A complete stream a reader accepts, with its items. *)
Definition readable_stream (items : list (RecordBatch * Metadata)) (l : list byte) : Prop :=
  ∃ s, wire_stream s items l ∧ schema_readable s ∧ zlen l ≤ u32_max.

Lemma stream_scanned items l rest : readable_stream items l →
  (0 < length l)%nat ∧ ∃ sr x, stream_reader_new [Data (l ++ rest)] = Ok sr ∧
    scan_stream (S (reader_size (sr_reader sr))) f sr = Some x ∧
    match first_found items with Some t => x = inl t | None => ∃ r, x = inr r ∧ content r = rest end.
Proof.
  intros (s & Hw & Hr & Hl).
  assert (0 < length l)%nat as Hp.
  { destruct Hw as (chunks & l0 & (mb & d & _ & _ & ->) & ->). rewrite !length_app. unfold wire_frame, CONTINUATION_MARKER. simpl. lia. }
  split; [done|]. destruct (wire_stream_open s items l [Data (l ++ rest)] rest) as (sr & E & _ & Ha); [done..| |by cbn [content foldr]; rewrite app_nil_r|].
  { constructor; [|constructor]. intros E. apply (f_equal length) in E. rewrite length_app in E. simpl in E. lia. }
  destruct (scan_stream_items (S (reader_size (sr_reader sr))) sr items rest Ha) as (x & Ex & Hx); [|eauto].
  destruct Ha as (_ & _ & _ & chunks & d & Hfr & _ & Hd). apply framed_length in Hfr.
  apply (f_equal length) in Hd. rewrite length_app in Hd. pose proof (length_content (sr_reader sr)). lia.
Qed.

(** The walk over a body of complete streams, one after the other, finds the
    value of the first batch that carries one, in whichever stream it lies, and
    nothing when none does. *)
Theorem scan_finds_first streams ls :
  Forall2 readable_stream streams ls → scan_batch_metadata (concat ls) f = Some (first_found (concat streams)).
Proof.
  intros Hs. unfold scan_batch_metadata.
  assert (∀ fuel, (length (concat ls) < fuel)%nat → scan_streams fuel f (concat ls) = Some (first_found (concat streams))) as Hf;
    [|apply Hf; lia].
  induction Hs as [|items l streams ls Hl _ IH]; intros fuel Hfuel; (destruct fuel as [|fuel]; [lia|]); [done|].
  cbn [concat scan_streams] in *. destruct (stream_scanned items l (concat ls) Hl) as (Hp & sr & x & -> & Ex & Hx).
  rewrite bool_decide_false by (intros E; apply (f_equal length) in E; rewrite length_app in E; simpl in E; lia).
  rewrite Ex. unfold first_found in *. rewrite omap_app, head_app. destruct (head (omap _ items)) as [t|].
  - by rewrite Hx.
  - destruct Hx as (r & -> & ->). rewrite length_app in Hfuel. rewrite (proj2 (Z.eqb_neq _ _)) by (rewrite zlen_app; unfold zlen; lia).
    apply IH. lia.
Qed.
End Walk.

(** ** Bodies *)
Section Bodies.
Context `{LW : ArrowIpcWriterLaws} `{!ArrowIpcLaws} `{!ArrowArrays} `{!ArrowArraysLaws}.

Lemma one_batch_written s b md l : one_batch_body s b md = Ok l → opt_utf8 md →
  ∃ b', b = Ok b' ∧ (fits s b' → wire_stream s [(b', default ∅ md)] l).
Proof.
  unfold one_batch_body. intros E Hmd. apply bind_Ok in E as (sw & En & E). apply bind_Ok in E as (b' & -> & E).
  exists b'. split; [done|]. intros Hf. apply writing_new in En.
  destruct (stream_writer_write sw b' md) as [r sw1] eqn:Ew. apply bind_Ok in E as ([] & -> & E).
  destruct (stream_writer_finish sw1) as [r sw2] eqn:Ef. apply bind_Ok in E as ([] & -> & E). injection E as <-.
  apply (writing_write _ _ _ _ _ _ _ En Hf Hmd) in Ew. apply (writing_finish _ _ _ _ _ Ew) in Ef as (-> & l & Hl & ->). done.
Qed.

(** A body held whole is read as the stream it is. *)
Lemma body_opened s items l : wire_stream s items l → schema_readable s → zlen l ≤ u32_max →
  ∃ sr, stream_reader_new [Data l] = Ok sr ∧ at_items sr items [].
Proof.
  intros Hw Hs Hl. destruct (stream_scanned (fun _ => None : option unit) items l []) as (Hp & _); [by exists s|].
  destruct (wire_stream_open s items l [Data l] []) as (sr & E & _ & Ha); [done..| |by cbn [content foldr]|by exists sr].
  constructor; [|constructor]. intros ->; simpl in Hp; lia.
Qed.

Lemma request_opened s b md l : wire_stream s [(b, md)] l → schema_readable s → zlen l ≤ u32_max →
  read_request l = from_read_batch b md true.
Proof.
  intros Hw Hs Hl. destruct (body_opened s _ l Hw Hs Hl) as (sr & E & Ha). unfold read_request, next_of, drain_of.
  rewrite E. cbn [mbind res_bind]. destruct (at_items_next _ _ _ _ _ Ha) as (r' & -> & _ & Ha'). cbn [mbind res_bind ok_or].
  destruct (drain_items _ _ _ Ha') as (r2 & -> & _). done.
Qed.

End Bodies.

(** ** Forwarding a request *)
Section Forwarding.
Context `{LW : ArrowIpcWriterLaws} `{!ArrowIpcLaws} `{!ArrowArrays} `{!ArrowArraysLaws}.

(** A request a client framed, as the intermediary holds it. *)
Definition held_request (data : list byte) (b : RecordBatch) (md : Metadata) (req : Request) : Prop :=
  wire_stream (batch_schema b) [(b, md)] data ∧ schema_readable (batch_schema b) ∧ zlen data ≤ u32_max ∧
  from_read_batch b md true = Ok req.

Lemma filled_lookup (md : Metadata) k : filled (md !! k) = None ∨ filled (md !! k) = md !! k.
Proof. unfold filled. destruct (md !! k); [|by left]. simpl. case_bool_decide; [by left|by right]. Qed.

Lemma filled_default o : default [] (filled o) = default [] o.
Proof. destruct o as [v|]; [|done]. unfold filled. simpl. case_bool_decide; [by subst|done]. Qed.

Lemma filled_idem o : filled (filled o) = filled o.
Proof. unfold filled. destruct o as [v|]; [|done]. simpl. case_bool_decide; [done|]. simpl. by rewrite bool_decide_false. Qed.

Lemma lookup_stamp k o md i : stamp k o md !! i = if decide (i = k) then (match filled o with Some v => Some v | None => md !! i end) else md !! i.
Proof.
  unfold stamp. destruct (filled o); case_decide; simplify_eq; rewrite ?lookup_insert_eq, ?lookup_insert_ne by done; done.
Qed.

Lemma forward_lookup m pv id k :
  forward_metadata m pv id !! k =
    if decide (k = PROTOCOL_VERSION_KEY) then filled pv else
    if decide (k = REQUEST_ID_KEY) then filled id else
    if decide (k = REQUEST_VERSION_KEY) then Some REQUEST_VERSION else
    if decide (k = RPC_METHOD_KEY) then Some m else None.
Proof.
  unfold forward_metadata. rewrite !lookup_stamp.
  destruct (decide (k = PROTOCOL_VERSION_KEY)) as [->|]; [|destruct (decide (k = REQUEST_ID_KEY)) as [->|]];
    repeat first [rewrite decide_False by key_ne | rewrite lookup_insert_ne by key_ne]; [by destruct (filled _)..|].
  destruct (decide (k = REQUEST_VERSION_KEY)) as [->|]; [by rewrite lookup_insert_eq|]. rewrite lookup_insert_ne by done.
  destruct (decide (k = RPC_METHOD_KEY)) as [->|]; [by rewrite lookup_insert_eq|]. by rewrite lookup_insert_ne, lookup_empty.
Qed.

Lemma stamp_utf8 k o md : utf8_valid k = true → utf8_valid (default [] o) = true → metadata_utf8 md → metadata_utf8 (stamp k o md).
Proof.
  intros Hk Ho Hm. unfold stamp, filled. destruct o as [v|]; [|done]. simpl in *. case_bool_decide; [done|].
  by apply map_Forall_insert_2.
Qed.

Lemma forward_utf8 m pv id : utf8_valid m = true → utf8_valid (default [] pv) = true → utf8_valid (default [] id) = true →
  metadata_utf8 (forward_metadata m pv id).
Proof.
  intros Hm Hp Hi. unfold forward_metadata. repeat (apply stamp_utf8; [done..|]).
  apply map_Forall_insert_2; [by split|]. apply map_Forall_insert_2; [by split|]. apply map_Forall_empty.
Qed.

(** One row, or a method without parameters. *)
Definition one_call (b : RecordBatch) : Prop := num_rows b = 1 ∨ schema_fields (batch_schema b) = [].

Lemma forward_read m b pv id : one_call b →
  from_read_batch b (forward_metadata m pv id) true = Ok (mkRequest m [] (default [] id) b (forward_metadata m pv id)).
Proof.
  intros Hb. unfold from_read_batch.
  rewrite !forward_lookup. repeat first [rewrite decide_True by done | rewrite decide_False by key_ne].
  rewrite bool_decide_false by (by intros []). cbn [ok_or mbind res_bind default]. rewrite bool_decide_true by done. cbn [negb].
  rewrite filled_default. destruct Hb as [Hb|Hb]; [by rewrite Hb, andb_false_r|]. by rewrite Hb.
Qed.

(** C29. The request an intermediary frames from the one it read, with the protocol
    version it found in the body, is read back with the same method, batch and id,
    and carries the version and no other key; so every server on a byte stream refuses
    it before it reaches a method, whichever protocol the client had named: the
    routing key of the original is not forwarded. *)
Theorem forwarded_request data b md req :
  held_request data b md req → one_call b →
  read_request data = Ok req ∧ find_protocol_version data = Some (filled (md !! PROTOCOL_VERSION_KEY)) ∧
  ∀ body, write_request (method req) (batch req) (filled (md !! PROTOCOL_VERSION_KEY)) (Some (request_id req)) = Ok body → zlen body ≤ u32_max →
    ∃ req', read_request body = Ok req' ∧
      method req' = method req ∧ batch req' = batch req ∧ request_id req' = request_id req ∧ protocol req' = [] ∧
      find_protocol_version body = Some (filled (md !! PROTOCOL_VERSION_KEY)) ∧
      (∀ UH SH (srv : RpcServer UH SH), method req ≠ TRANSPORT_OPTIONS_METHOD_NAME → method req ≠ RETIRED_DESCRIBE_METHOD →
        dispatch srv (batch req') (metadata req') = Ok (RespondError (Some req') empty_schema protocol_not_specified)).
Proof.
  intros (Hw & Hs & Hl & Hreq) Hone. split; [by rewrite (request_opened _ _ _ _ Hw Hs Hl)|].
  assert (∀ s it l, wire_stream s [it] l → schema_readable s → zlen l ≤ u32_max → find_protocol_version l = Some (filled (it.2 !! PROTOCOL_VERSION_KEY))) as Hv.
  { intros s it l Hw' Hs' Hl'. unfold find_protocol_version. pose proof (scan_finds_first (fun m => filled (m !! PROTOCOL_VERSION_KEY)) [[it]] [l]) as E.
    cbn [concat] in E. rewrite !app_nil_r in E. rewrite E by (repeat constructor; by exists s). unfold first_found. simpl. by destruct (filled _). }
  split; [by apply (Hv _ _ _ Hw)|]. intros body E Hbody.
  pose proof (wire_stream_utf8 _ _ _ Hw) as Hu. rewrite list.Forall_singleton in Hu. cbn [snd] in Hu.
  apply from_read_batch_ok in Hreq as (Hrid & _ & Hm & _ & Hb). rewrite Hb in *.
  set (pv := filled (md !! PROTOCOL_VERSION_KEY)) in *.
  assert (∀ k, utf8_valid (default [] (md !! k)) = true) as Ht.
  { intros k. destruct (md !! k) as [v|] eqn:Ev; [|done]. by apply (Hu k v). }
  apply one_batch_written in E as (b' & [= <-] & Hw').
  2: { apply forward_utf8; [rewrite Hm; apply Ht|unfold pv; rewrite filled_default; apply Ht|simpl; rewrite Hrid; apply Ht]. }
  specialize (Hw' (fits_own b)). change (wire_stream (batch_schema b) [(b, forward_metadata (method req) pv (Some (request_id req)))] body) in Hw'.
  eexists. split; [rewrite (request_opened _ _ _ _ Hw' Hs Hbody); by apply forward_read|]. cbn [method batch request_id protocol metadata].
  split_and!; [done..| |].
  - rewrite (Hv _ _ _ Hw' Hs Hbody). cbn [snd]. rewrite forward_lookup, decide_True by done. unfold pv. by rewrite !filled_idem.
  - intros UH SH srv H1' H2'. unfold dispatch. rewrite forward_read by done. cbn [error_or method protocol].
    rewrite !bool_decide_false by done. unfold route. by rewrite bool_decide_true.
Qed.
End Forwarding.

(** ** Unary results and refusals *)
Section Results.
Context `{LW : ArrowIpcWriterLaws} `{!ArrowIpcLaws} `{!ArrowArrays} `{!ArrowArraysLaws} `{!ArrowValues Array} `{!ArrowValuesLaws} `{JL : JsonLaws}.
(** [RecordBatch::try_new]: as many rows as its columns have. *)
Hypothesis try_new_rows : ∀ s a cols b, try_new s (a :: cols) = Ok b → num_rows b = array_len a.

(** A log batch, which the walk to the result passes. *)
Definition passed (i : RecordBatch * Metadata) : Prop :=
  num_rows i.1 ≤ 0 ∧ ∃ level, i.2 !! LOG_LEVEL_KEY = Some level ∧ level ≠ level_as_str Exception.

(** What the first other batch is read as. *)
Definition unwrapped (o : option (RecordBatch * Metadata)) : res RpcError (option (ArrowSchema * list byte)) :=
  match o with Some (b, _) => if 0 <? num_rows b then result_column b else Ok None | None => Ok None end.

Lemma read_unary_items logs last rest fuel sr :
  Forall passed logs → match last with Some i => ¬ passed i | None => rest = [] end →
  at_items sr (logs ++ option_list last ++ rest) [] → (length logs < fuel)%nat →
  read_unary_loop fuel sr = unwrapped last.
Proof.
  intros Hlogs Hlast. revert fuel sr. induction Hlogs as [|[b md] logs [Hn (level & Hlv & Hne)] _ IH]; intros fuel sr Ha Hf;
    (destruct fuel as [|fuel]; [simpl in Hf; lia|]); cbn [read_unary_loop]; unfold next_of.
  - destruct last as [[b md]|]; simpl in Ha.
    + destruct (at_items_next _ _ _ _ _ Ha) as (r' & -> & _ & _). cbn [mbind res_bind unwrapped].
      destruct (Z.ltb_spec 0 (num_rows b)); [done|]. destruct (md !! LOG_LEVEL_KEY) as [level|] eqn:El; [|done].
      case_bool_decide as Hx; [done|]. destruct Hlast. split; [simpl; lia|]. by exists level.
    + subst rest. by destruct (at_items_end _ _ Ha) as (r' & -> & _).
  - simpl in Ha. destruct (at_items_next _ _ _ _ _ Ha) as (r' & -> & _ & Ha'). cbn [mbind res_bind]. simpl in Hn, Hlv.
    rewrite (proj2 (Z.ltb_ge _ _)) by lia. rewrite Hlv, bool_decide_false by done. apply IH; [done|simpl in Hf; lia].
Qed.

Lemma read_unary_stream s logs last rest body :
  wire_stream s (logs ++ option_list last ++ rest) body → schema_readable s → zlen body ≤ u32_max →
  Forall passed logs → match last with Some i => ¬ passed i | None => rest = [] end →
  read_unary_result body = unwrapped last.
Proof.
  intros Hw Hs Hl Hlogs Hlast. destruct (body_opened s _ body Hw Hs Hl) as (sr & E & Ha). unfold read_unary_result.
  rewrite E. cbn [mbind res_bind]. eapply read_unary_items; [done..|].
  destruct Ha as (_ & _ & _ & chunks & d & Hfr & _ & Hd). apply framed_length in Hfr.
  apply (f_equal length) in Hd. rewrite length_app in Hd, Hfr. pose proof (length_content (sr_reader sr)). lia.
Qed.

Lemma write_unary_written s bytes body : write_unary_result s bytes = Ok body →
  ∃ b, try_new s [array_from KBinary TBinary [bytes]] = Ok b ∧ wire_stream s [(b, ∅)] body.
Proof.
  unfold write_unary_result. intros E. apply bind_Ok in E as (b & Eb & E).
  destruct (try_new _ _) as [b'|e|] eqn:En; [|done..]. injection Eb as ->. exists b. split; [done|].
  apply one_batch_written in E as (b'' & [= <-] & Hw); [|done]. apply Hw.
  apply try_new_spec in En as [<- _]. apply fits_own.
Qed.

(** A result that was wrapped is unwrapped: schema and bytes, whatever the bytes are. *)
Theorem rewrapped_result s bytes body :
  write_unary_result s bytes = Ok body → index_of s (bs "result") = Some O → schema_readable s → zlen body ≤ u32_max →
  read_unary_result body = Ok (Some (s, bytes)).
Proof.
  intros (b & En & Hw)%write_unary_written Hi Hs Hl. pose proof (try_new_spec _ _ _ En) as [Hsch Hcols].
  assert (num_rows b = 1) as Hrows.
  { rewrite (try_new_rows _ _ _ _ En). by rewrite (proj2 (from_shape KBinary TBinary [bytes] eq_refl)). }
  rewrite (read_unary_stream s [] (Some (b, ∅)) [] body Hw Hs Hl) by (done || constructor || (intros [? _]; simpl in *; lia)).
  cbn [unwrapped]. rewrite Hrows. cbn [Z.ltb]. change (0 <? 1) with true. cbv iota. unfold result_column. rewrite Hsch, Hi, Hcols.
  cbn [or_panic mbind res_bind lookup list_lookup]. rewrite (from_values KBinary TBinary [bytes]) by (done || by repeat constructor).
  rewrite (from_null KBinary TBinary [bytes] 0) by (done || by repeat constructor). done.
Qed.

(** ** Refusing a call *)
Lemma refusal_metadata err sid : error_stream_metadata err sid = build_error_metadata err (default [] sid) [] None.
Proof.
  unfold error_stream_metadata. destruct (filled sid) as [v|] eqn:Ef; [done|]. apply delete_id.
  assert (default [] sid = []) as -> by (destruct sid as [x|]; [|done]; unfold filled in Ef; simpl in *; by case_bool_decide).
  change (build_error_metadata err [] [] None) with (envelope_metadata (envelope_apply (envelope_new [] [] None) (OpError err))).
  rewrite metadata_map by apply apply_call. rewrite apply_lookup. rewrite decide_False by key_ne. done.
Qed.

(** A refusal an intermediary builds is one batch, which a client raises as the
    error it was built from, and which unwrapping never takes for a result, whatever
    follows it. *)
Theorem refusal_raised err sch sid body :
  build_error_stream err sch sid = Ok body → error_text None err = true → utf8_valid (default [] sid) = true →
  schema_readable (default empty_schema sch) → zlen body ≤ u32_max →
  read_unary_result body = Ok None ∧
  ∃ b md, wire_stream (default empty_schema sch) [(b, md)] body ∧ classify b md = KException (received None [] err).
Proof.
  intros E Ht Hsid Hs Hl. unfold build_error_stream in E. rewrite refusal_metadata in E.
  apply one_batch_written in E as (b & Eb & Hw); [|exact (envelope_utf8 (default [] sid) [] None (OpError err) Hsid eq_refl Ht)].
  pose proof (empty_batch_spec _ _ Eb) as [Hsch Hrows]. specialize (Hw ltac:(rewrite <- Hsch; apply fits_own)).
  change (wire_stream (default empty_schema sch) [(b, build_error_metadata err (default [] sid) [] None)] body) in Hw. split.
  - rewrite (read_unary_stream _ [] (Some (b, build_error_metadata err (default [] sid) [] None)) [] body Hw Hs Hl);
      [cbn [unwrapped]; by rewrite Hrows|constructor|]. intros [_ (level & Hlv & Hne)]. apply Hne. cbn [snd] in Hlv.
    change (build_error_metadata err (default [] sid) [] None)
      with (envelope_metadata (envelope_apply (envelope_new (default [] sid) [] None) (OpError err))) in Hlv.
    rewrite metadata_map in Hlv by apply apply_call. rewrite apply_lookup in Hlv. rewrite decide_True in Hlv by (unfold transient_keys; set_solver).
    by injection Hlv as <-.
  - eexists b, _. split; [exact Hw|]. by apply error_envelope_roundtrip.
Qed.
End Results.
