(* ===== verification/ServeSafety.v ===== *)
(** * Serving arbitrary bytes

    Every pass of a loop consumes input, with or without shared memory and external
    storage, so the loops end. Without them, no input and no handler makes a connection
    panic, except for the protocol name dispatch panics on. *)

From S2P Require Import Prelude Bytes Metadata F64 Json ErrorModel Errors Crypto ShmAllocator Ipc IpcProps IpcWriter IpcWriterProps IpcStream Arrow External ExternalProps ShmBatch ShmBatchProps Dispatch DispatchProps Envelope EnvelopeProps Stream Serve ServeProps ServeConn.

(** ** Computations that keep an invariant, do not panic, and do not put input back *)
Section Safe.
Context {S : Type} (I : S → Prop) (size : S → nat).

Definition safe {A} (m : ST S A) : Prop :=
  ∀ s, I s → no_panic (m s).1 ∧ I (m s).2 ∧ (size (m s).2 ≤ size s)%nat.

Lemma safe_ret {A} (a : A) : safe (mret a).
Proof. intros s Hs. by split_and!. Qed.

Lemma safe_bind {A B} (m : ST S A) (f : A → ST S B) : safe m → (∀ a, safe (f a)) → safe (m ≫= f).
Proof.
  intros Hm Hf s Hs. destruct (Hm s Hs) as (Hn & Hi & Hl). unfold mbind, ST_bind.
  destruct (m s) as [[a|e|] s1]; simpl in *; [|by split_and!|done].
  destruct (Hf a s1 Hi) as (? & ? & ?). split_and!; [done|done|lia].
Qed.

(** The same with what the first value is known to be. *)
Lemma safe_bind_value {A B} (Q : A → Prop) (m : ST S A) (f : A → ST S B) :
  safe m → (∀ s a s', I s → m s = (Ok a, s') → Q a) → (∀ a, Q a → safe (f a)) → safe (m ≫= f).
Proof.
  intros Hm HQ Hf s Hs. destruct (Hm s Hs) as (Hn & Hi & Hl). unfold mbind, ST_bind.
  destruct (m s) as [[a|e|] s1] eqn:E; simpl in *; [|by split_and!|done].
  destruct (Hf a (HQ _ _ _ Hs E) s1 Hi) as (? & ? & ?). split_and!; [done|done|lia].
Qed.

Lemma safe_lift {A} (r : res RpcError A) : no_panic r → safe (lift r).
Proof. intros Hr s Hs. by split_and!. Qed.

Lemma safe_get {A} (f : S → A) : safe (st_get f).
Proof. intros s Hs. by split_and!. Qed.

Lemma safe_each {A} (f : A → ST S unit) l : (∀ x, safe (f x)) → safe (st_each f l).
Proof. intros Hf. induction l; [apply safe_ret|]. apply safe_bind; [done|]. by intros []. Qed.

Lemma safe_set (f : S → S) : (∀ s, I s → I (f s) ∧ (size (f s) ≤ size s)%nat) → safe (st_set f).
Proof. intros Hf s Hs. destruct (Hf s Hs). by split_and!. Qed.
End Safe.



(** Bounds on the size are kept too. *)
Lemma safe_below {S A} (I : S → Prop) size n (m : ST S A) :
  safe I size m → safe (fun s => I s ∧ (size s < n)%nat) size m.
Proof. intros Hm s [Hs Hn]. destruct (Hm s Hs) as (? & ? & ?). split_and!; [done..|lia|done]. Qed.

(** A failed read leaves a reader with no more input than before. *)
Class EnvLaws `{ArrowIpc, !Env} := {
  after_new_size : ∀ r, (reader_size (after_new r) ≤ reader_size r)%nat;
  after_next_size : ∀ s, (reader_size (sr_reader (after_next s)) ≤ reader_size (sr_reader s))%nat;
  after_drain_size : ∀ s, (reader_size (after_drain s) ≤ reader_size (sr_reader s))%nat
}.

(** ** Computations that do not put input back *)
Section Shrinks.
Context {S : Type} (size : S → nat).

Definition shrinks {A} (m : ST S A) : Prop := ∀ s, (size (m s).2 ≤ size s)%nat.

Lemma shrinks_ret {A} (a : A) : shrinks (mret a).
Proof. by intros s. Qed.
Lemma shrinks_lift {A} (r : res RpcError A) : shrinks (lift r).
Proof. by intros s. Qed.
Lemma shrinks_get {A} (f : S → A) : shrinks (st_get f).
Proof. by intros s. Qed.

Lemma shrinks_bind {A B} (m : ST S A) (f : A → ST S B) : shrinks m → (∀ a, shrinks (f a)) → shrinks (m ≫= f).
Proof.
  intros Hm Hf s. pose proof (Hm s). unfold mbind, ST_bind. destruct (m s) as [[a|e|] s1]; simpl in *; [|done..].
  pose proof (Hf a s1). lia.
Qed.

Lemma shrinks_after {A B} (m : ST S A) (f : A → ST S B) s : (∀ a, shrinks (f a)) → (size ((m ≫= f) s).2 ≤ size (m s).2)%nat.
Proof. intros Hf. unfold mbind, ST_bind. destruct (m s) as [[a|e|] s1]; [|done..]. apply Hf. Qed.

Lemma shrinks_each {A} (f : A → ST S unit) l : (∀ x, shrinks (f x)) → shrinks (st_each f l).
Proof. intros Hf. induction l; [apply shrinks_ret|]. apply shrinks_bind; [done|]. by intros []. Qed.
End Shrinks.

(** ** Nothing puts input back

    On every world: with whatever shared memory is attached, storage configured and
    panic met. *)
Section Ends.
Context `{ArrowShm, !ArrowIpcLaws, !Json, !Aead, !Zstd, !UrlLib}.
Context {App St Store Conn : Type} `{!ExternalStorage Store, !Fetcher Store}.
Context `{!StreamState (App:=App) (St:=St)} `{!Env} `{LE : !EnvLaws}.

Abbreviation world := (World (App:=App) (Store:=Store)).
Abbreviation server := (RpcServer (UnaryHandler (App:=App) (Conn:=Conn)) (StreamHandler (App:=App) (St:=St) (Conn:=Conn))).
Abbreviation lock := (Lock (App:=App) (St:=St) (Store:=Store)).

Definition wsize (w : world) : nat := reader_size (w_in w).
Definition rsize (s : Resp (App:=App) (Store:=Store)) : nat := wsize (rs_world s).
Definition lsize (l : lock) : nat := reader_size (sr_reader (lk_reader l)).

Abbreviation wshrinks := (shrinks wsize).
Abbreviation rshrinks := (shrinks rsize).
Abbreviation lshrinks := (shrinks lsize).

Lemma on_world_shrinks {A} (m : ST world A) : wshrinks m → rshrinks (on_world m).
Proof. intros Hm s. pose proof (Hm (rs_world s)) as Hs. unfold on_world. by destruct (m (rs_world s)). Qed.

(** Writing does not touch the reader. *)
Lemma on_resp_shrinks {A} (m : ST Resp A) : lshrinks (on_resp m).
Proof. intros l. unfold on_resp. by destruct (m (lk_resp l)). Qed.

Lemma sw_write_shrinks b md : rshrinks (sw_write b md).
Proof. intros s. unfold sw_write. by destruct (stream_writer_write _ _ _). Qed.
Lemma sw_finish_shrinks : rshrinks sw_finish.
Proof. intros s. unfold sw_finish. by destruct (stream_writer_finish _). Qed.
Lemma sw_flush_shrinks : rshrinks sw_flush.
Proof. by intros s. Qed.
Lemma write_envelope_shrinks f b : rshrinks (write_envelope f b).
Proof. intros s. apply (sw_write_shrinks b _ (mkResp _ _ _)). Qed.

Lemma with_writer_shrinks {A} schema env (body : ST _ A) : rshrinks body → wshrinks (with_writer schema env body).
Proof.
  intros Hb w. unfold with_writer. destruct (stream_writer_new (w_out w) schema) as [[sw|e|] k]; [|done..].
  pose proof (Hb (mkResp sw env w)) as Hs. by destruct (body _).
Qed.

Lemma on_segment_shrinks {A} seg (f : OsShm → res RpcError (OsShm * (RpcError + A))) : wshrinks (on_segment seg f).
Proof. intros w. unfold on_segment. by destruct (f _) as [[s [e|a]]|e|]. Qed.

Lemma externalize_shrinks (srv : server) b schema md : wshrinks (externalize srv b schema md).
Proof.
  intros w. unfold externalize. destruct (external_config srv); [|done].
  by destruct (maybe_externalize_batch _ _ _ _ _).
Qed.

Lemma maybe_attach_shrinks md : wshrinks (maybe_attach_shm md).
Proof. intros w. unfold maybe_attach_shm. by repeat case_match. Qed.

Lemma set_shrinks (f : world → world) : (∀ w, w_in (f w) = w_in w) → wshrinks (st_set f).
Proof. intros Hf w. unfold wsize. simpl. by rewrite Hf. Qed.

(** One step over the structure of a computation. *)
Ltac shrink_step :=
  match goal with
  | |- shrinks _ (mret _) => apply shrinks_ret
  | |- shrinks _ (mbind _ _) => apply shrinks_bind; [|intros ?]
  | |- shrinks _ (st_each _ _) => apply shrinks_each; intros ?
  | |- shrinks _ (lift _) => apply shrinks_lift
  | |- shrinks _ (st_get _) => apply shrinks_get
  | |- shrinks _ (on_world _) => apply on_world_shrinks
  | |- shrinks _ (on_resp _) => apply on_resp_shrinks
  | |- shrinks _ (on_segment _ _) => apply on_segment_shrinks
  | |- shrinks _ (externalize _ _ _ _) => apply externalize_shrinks
  | |- shrinks _ (maybe_attach_shm _) => apply maybe_attach_shrinks
  | |- shrinks _ (st_set _) => by apply set_shrinks
  | |- shrinks _ (sw_write _ _) => apply sw_write_shrinks
  | |- shrinks _ sw_finish => apply sw_finish_shrinks
  | |- shrinks _ sw_flush => apply sw_flush_shrinks
  | |- shrinks _ (write_envelope _ _) => apply write_envelope_shrinks
  | |- shrinks _ (with_writer _ _ _) => apply with_writer_shrinks
  | |- shrinks _ (let '_ := ?x in _) => destruct x
  | |- shrinks _ (match ?x with _ => _ end) => destruct x
  end.

Lemma refresh_shrinks md : wshrinks (refresh md).
Proof. unfold refresh. repeat shrink_step. Qed.

Lemma resolve_in_shrinks b md seg : wshrinks (resolve_in b md seg).
Proof. unfold resolve_in. repeat shrink_step. Qed.

Lemma drop_anchor_shrinks a : wshrinks (drop_anchor a).
Proof. unfold drop_anchor. repeat shrink_step. Qed.

Lemma write_error_stream_shrinks schema e sid rid tb : wshrinks (write_error_stream schema e sid rid tb).
Proof. unfold write_error_stream. repeat shrink_step. Qed.

Lemma transport_options_shrinks (srv : server) : wshrinks (serve_transport_options srv).
Proof. unfold serve_transport_options, put_and_finish. repeat shrink_step. Qed.

Lemma serve_unary_shrinks (srv : server) req info (conn : Conn) seg : wshrinks (serve_unary srv req info conn seg).
Proof.
  unfold serve_unary, write_logs, write_result_batch, put_and_finish, route_shm. apply shrinks_bind.
  - intros w. unfold run_unary. by destruct (mi_unary info).
  - intros ?. repeat shrink_step.
Qed.

(** Computations in a stream that leave its input where it is. *)
Definition still {A} (m : ST lock A) : Prop := ∀ l, lk_reader (m l).2 = lk_reader l.

Lemma still_bind {A B} (m : ST lock A) (f : A → ST lock B) : still m → (∀ a, still (f a)) → still (m ≫= f).
Proof.
  intros Hm Hf l. pose proof (Hm l) as Hl. unfold mbind, ST_bind. destruct (m l) as [[a|e|] l1]; simpl in *; [|done..].
  by rewrite (Hf a l1).
Qed.

Lemma on_resp_still {A} (m : ST Resp A) : still (on_resp m).
Proof. intros l. unfold on_resp. by destruct (m (lk_resp l)). Qed.

Ltac still_step :=
  match goal with
  | |- still (mret _) => by intros ?
  | |- still (st_get _) => by intros ?
  | |- still (mbind _ _) => apply still_bind; [|intros ?]
  | |- still (on_resp _) => apply on_resp_still
  | |- still (let '_ := ?x in _) => destruct x
  | |- still (match ?x with _ => _ end) => destruct x
  end.

Lemma run_handler_still (result : StreamResult St) input tick : still (run_handler result input tick).
Proof. intros l. unfold run_handler. destruct (lk_state l); by destruct (run_turn _ _ _) as [[[? []] ?] ?]. Qed.

Lemma stream_turn_still (srv : server) (result : StreamResult St) empty seg input tick :
  still (stream_turn srv result empty seg input tick).
Proof. unfold stream_turn, cancel_turn. repeat first [apply run_handler_still | still_step]. Qed.

(** A pass that asks for another has consumed input. *)
Lemma stream_pass_consumes (srv : server) (result : StreamResult St) empty seg (l : lock) :
  let '(r, l') := stream_pass srv result empty seg l in
  (lsize l' ≤ lsize l)%nat ∧ (r = Ok true → (lsize l' < lsize l)%nat).
Proof.
  unfold stream_pass. destruct (read_next_returns (lk_reader l)) as (r & Er & _ & Hs). rewrite Er.
  destruct r as [[[[b md]|] rdr]|e|]; [| | |done].
  - pose proof (on_resp_still (on_world (resolve_in b md seg)) (mkLock rdr (lk_state l) (lk_resp l))) as H1'.
    destruct (on_resp _ _) as [[[[b' md'] a]|e|] l1]; simpl in H1'; [|unfold lsize; rewrite H1'; split; [lia|done]..].
    pose proof (stream_turn_still srv result empty seg b' md' l1) as H2'.
    destruct (stream_turn srv result empty seg b' md' l1) as [r l2]. simpl in H2'.
    pose proof (on_resp_still (on_world (drop_anchor a)) l2) as H3'. destruct (on_resp _ l2) as [d l3]. simpl in H3'.
    unfold lsize. rewrite H3', H2', H1'. split; [lia|intros _; lia].
  - apply read_next_size in Er. by split.
  - pose proof (after_next_size (lk_reader l)). by split.
Qed.

Lemma lockstep_shrinks fuel (srv : server) (result : StreamResult St) empty seg : lshrinks (lockstep fuel srv result empty seg).
Proof.
  induction fuel as [|fuel IH]; intros l; [done|]. cbn [lockstep]. unfold mbind, ST_bind.
  pose proof (stream_pass_consumes srv result empty seg l) as Hp.
  destruct (stream_pass srv result empty seg l) as [[[]|e|] l1]; destruct Hp as [Hp _]; [|done..].
  specialize (IH l1). lia.
Qed.

(** The fuel of a stream is enough: with more of it the loop does the same. *)
Lemma lockstep_fuel n m (srv : server) (result : StreamResult St) empty seg (l : lock) :
  (lsize l < n)%nat → (lsize l < m)%nat → lockstep n srv result empty seg l = lockstep m srv result empty seg l.
Proof.
  revert m l. induction n as [|n IH]; intros [|m] l Hn Hm; [lia..|]. cbn [lockstep]. unfold mbind, ST_bind.
  pose proof (stream_pass_consumes srv result empty seg l) as Hp.
  destruct (stream_pass srv result empty seg l) as [[[]|e|] l1]; [|done..]. destruct Hp as [_ Hp]. specialize (Hp eq_refl).
  apply IH; lia.
Qed.

Lemma lockstep_stream_shrinks (srv : server) (result : StreamResult St) logs seg : rshrinks (lockstep_stream srv result logs seg).
Proof.
  intros s. unfold lockstep_stream. pose proof (proj2 (stream_reader_new_size (w_in (rs_world s)))) as Hsz.
  destruct (stream_reader_new (w_in (rs_world s))) as [rdr|e|]; [|apply after_new_size|done].
  specialize (Hsz _ eq_refl). set (m := _ ← _; _).
  assert (lshrinks m) as Hm by (subst m; repeat first [apply lockstep_shrinks | shrink_step]).
  specialize (Hm (mkLock rdr (stream_state result) s)).
  destruct (m _) as [r l]. unfold lsize in Hm. simpl in Hm. unfold rsize, wsize.
  destruct r as [[]|e|]; [|simpl; lia..]. destruct (drain_returns (lk_reader l)) as (r & -> & _ & Hd).
  destruct r as [rdr'|e|]; simpl; [destruct (Hd _ eq_refl); lia|pose proof (after_drain_size (lk_reader l)); lia|lia].
Qed.

Lemma drain_input_shrinks : wshrinks drain_input.
Proof.
  intros w. unfold drain_input. pose proof (proj2 (stream_reader_new_size (w_in w))) as Hs.
  destruct (stream_reader_new (w_in w)) as [rdr|e|]; [|apply after_new_size|done].
  specialize (Hs _ eq_refl). unfold wsize. destruct (drain_returns rdr) as (r & -> & _ & Hd).
  destruct r as [rdr'|e|]; simpl; [destruct (Hd _ eq_refl); lia|pose proof (after_drain_size rdr); lia|done].
Qed.

Lemma serve_stream_shrinks (srv : server) req info (conn : Conn) seg : wshrinks (serve_stream srv req info conn seg).
Proof.
  unfold serve_stream, write_logs. apply shrinks_bind.
  - intros w. unfold run_stream. destruct (mi_stream info) as [h|]; [|done]. by destruct (h req conn (w_app w)) as [[??]?].
  - intros ?. repeat first [apply drain_input_shrinks | apply lockstep_stream_shrinks | shrink_step].
Qed.

Lemma serve_method_shrinks (srv : server) req used (serve : option Segment → ST world unit) :
  (∀ seg, wshrinks (serve seg)) → wshrinks (serve_method srv req used serve).
Proof.
  intros Hs. unfold serve_method, call_segment.
  repeat first [apply Hs | shrink_step | by intros w; unfold scope_begin, scope_end, scope_new, scope_finish].
Qed.

(** Reading a frame: what it was, and a frame read has consumed input. *)
Lemma read_frame_consumes (w : world) :
  let '(r, w') := read_frame w in
  (wsize w' ≤ wsize w)%nat ∧ ((∃ f, r = Ok (Some f)) → (wsize w' < wsize w)%nat).
Proof.
  unfold read_frame. pose proof (proj2 (stream_reader_new_size (w_in w))) as Hs.
  destruct (stream_reader_new (w_in w)) as [rdr|e|]; [| |split; [done|by intros []]].
  - specialize (Hs _ eq_refl). destruct (read_next_returns rdr) as (r & Er & _ & Hsz). rewrite Er. unfold wsize.
    destruct r as [[[f|] rdr1]|e|]; [| | |split; [done|by intros []]].
    + destruct (drain_returns rdr1) as (d & -> & _ & Hd). destruct d as [rdr2|e|]; [| |split; [done|by intros []]].
      * destruct (Hd _ eq_refl) as [_ Hl]. simpl. split; lia.
      * pose proof (after_drain_size rdr1). simpl. split; [lia|by intros []].
    + apply read_next_size in Er. simpl. split; [lia|by intros []].
    + pose proof (after_next_size rdr). simpl. split; [lia|by intros []].
  - pose proof (after_new_size (w_in w)). split; [done|]. destruct (eof_like e); by intros [].
Qed.

Context (srv : server) (serve_reflection : server → Request → Conn → ST world unit).
Context (Hrefl : ∀ req conn, wshrinks (serve_reflection srv req conn)).

Lemma perform_shrinks conn rid used act : wshrinks (perform serve_reflection srv conn rid used act).
Proof.
  destruct act as [[req|] schema e|req|req|req info|req info]; cbn [perform];
    auto using write_error_stream_shrinks, transport_options_shrinks, serve_method_shrinks, serve_unary_shrinks, serve_stream_shrinks.
Qed.

Lemma serve_frame_shrinks conn b md used a : wshrinks (serve_frame serve_reflection srv conn b md used a).
Proof.
  intros w. unfold serve_frame. set (p := _ ← lift _; _).
  assert (wshrinks p) as Hp by (subst p; repeat first [apply perform_shrinks | shrink_step]).
  specialize (Hp w). destruct (p w) as [r w1]. pose proof (drop_anchor_shrinks a w1) as Hd.
  destruct (drop_anchor a w1) as [d w2]. simpl in *. lia.
Qed.

(** A request that was served has consumed input. *)
Lemma serve_one_consumes conn (w : world) :
  (_serve_one serve_reflection srv conn w).1 = Ok true → (wsize (_serve_one serve_reflection srv conn w).2 < wsize w)%nat.
Proof.
  intros E.
  assert (wsize (_serve_one serve_reflection srv conn w).2 ≤ wsize (read_request w).2)%nat as H1'.
  { apply shrinks_after. intros [[[[b md] u] a]|]; [apply serve_frame_shrinks|apply shrinks_ret]. }
  assert (wsize (read_request w).2 ≤ wsize (read_frame w).2)%nat as H2'.
  { apply shrinks_after. intros [[b md]|]; cbv zeta; repeat first [apply refresh_shrinks | apply resolve_in_shrinks | shrink_step]. }
  pose proof (read_frame_consumes w) as Hf. unfold _serve_one, read_request, mbind, ST_bind in E.
  destruct (read_frame w) as [[[f|]|e|] w1]; [|done..]. destruct Hf as [_ Hf]. specialize (Hf ltac:(eauto)). simpl in H2'. lia.
Qed.

(** The serve loop asks for no more requests than there are bytes and events to read. *)
Lemma serve_loop_ends n conn (w : world) : (wsize w < n)%nat → (serve_loop serve_reflection n srv conn w).1 ≠ Ok Running.
Proof.
  revert w. induction n as [|n IH]; intros w Hn; [lia|]. cbn [serve_loop]. pose proof (serve_one_consumes conn w) as Hs.
  destruct (_serve_one serve_reflection srv conn w) as [[[]|e|] w1]; simpl in Hs; [|done..]. apply IH. specialize (Hs eq_refl). lia.
Qed.
End Ends.

Lemma finish_keeps `{LS : ArrowShmLaws} w :
  no_panic (flush_result (sw_writer w)) →
  no_panic (stream_writer_finish w).1 ∧ no_panic (flush_result (sw_writer (stream_writer_finish w).2)).
Proof.
  intros Hf. destruct (stream_finish_grows w) as [[_ Hg] _]. rewrite Hg. split; [|done].
  unfold stream_writer_finish. destruct (sw_finished w); [done|].
  set (bufs := [CONTINUATION_MARKER; [x00; x00; x00; x00]]).
  pose proof (write_each_no_panic MAX_WRITE_CHUNK bufs (sw_writer w) ltac:(by vm_compute)) as Hn.
  pose proof (write_each_grows MAX_WRITE_CHUNK bufs (sw_writer w)) as [[_ Hfl] _].
  destruct (write_each _ _ _) as [[[]|?|] k]; try done. cbn [mbind res_bind]. simpl in Hfl.
  rewrite Hfl. by destruct (flush_result (sw_writer w)).
Qed.

Section Serving.
Context `{LS : ArrowShmLaws} `{LR : !ArrowIpcLaws} `{!Json, !Aead, !Zstd, !UrlLib}.
Context {App St Store Conn : Type} `{!ExternalStorage Store, !Fetcher Store}.
Context `{!StreamState (App:=App) (St:=St)} `{!Env} `{LE : !EnvLaws}.

Abbreviation world := (World (App:=App) (Store:=Store)).
Abbreviation server := (RpcServer (UnaryHandler (App:=App) (Conn:=Conn)) (StreamHandler (App:=App) (St:=St) (Conn:=Conn))).

(** No shared memory is attached and none can be; a flush of the transport returns. *)
Definition quiet (w : world) : Prop :=
  w_objects w = ∅ ∧ (w_cache w ≫= cs_segment) = None ∧ no_panic (flush_result (w_out w)).

Definition rquiet (s : Resp (App:=App) (Store:=Store)) : Prop :=
  quiet (rs_world s) ∧ no_panic (flush_result (sw_writer (rs_writer s))).

Abbreviation wsafe := (safe quiet wsize).
Abbreviation rsafe := (safe rquiet rsize).

Lemma on_world_safe {A} (m : ST world A) : wsafe m → rsafe (on_world m).
Proof.
  intros Hm s [Hq Hf]. destruct (Hm _ Hq) as (? & ? & ?). unfold on_world.
  destruct (m (rs_world s)) as [r w]. by split_and!.
Qed.

Lemma sw_write_safe b md : rsafe (sw_write b md).
Proof.
  intros s [Hq Hf]. unfold sw_write. pose proof (stream_write_no_panic (rs_writer s) b md) as Hn.
  pose proof (stream_write_grows (rs_writer s) b md) as [[_ Hg] _].
  destruct (stream_writer_write _ _ _) as [r sw]. simpl in *.
  split_and!; [done| |done]. split; [done|]. simpl. by rewrite Hg.
Qed.

Lemma sw_finish_safe : rsafe sw_finish.
Proof.
  intros s [Hq Hf]. unfold sw_finish. destruct (finish_keeps _ Hf) as [Hn Hk].
  destruct (stream_writer_finish _) as [r sw]. by split_and!.
Qed.

Lemma sw_flush_safe : rsafe sw_flush.
Proof. intros s [Hq Hf]. by split_and!. Qed.

Lemma write_envelope_safe f b : rsafe (write_envelope f b).
Proof. intros s Hs. unfold write_envelope. by apply (sw_write_safe b _ (mkResp _ _ _)). Qed.

Lemma empty_batch_no_panic s : no_panic (empty_batch s).
Proof. pose proof (new_empty_batch s) as Hn. by destruct (empty_batch s). Qed.

Lemma with_writer_safe {A} schema env (body : ST _ A) : rsafe body → wsafe (with_writer schema env body).
Proof.
  intros Hb w (Ho & Hc & Hf). unfold with_writer, stream_writer_new.
  destruct (schema_to_bytes schema tracker_new) as [e tr].
  pose proof (put_message_no_panic e (w_out w)) as Hn. pose proof (put_message_grows e (w_out w)) as [[_ Hg] _].
  destruct (put_message e (w_out w)) as [[[]|?|] k]; simpl in Hn, Hg; [| |done];
    (assert (no_panic (flush_result k)) as Hk by by rewrite Hg); cbn [mbind res_bind]; [|by split_and!].
  set (s0 := mkResp (mkStreamWriter k schema tr false) env w).
  destruct (Hb s0) as (Hr & ((Ho1 & Hc1 & _) & Hf1) & Hl); [done|].
  destruct (body s0) as [r s1]. simpl in *. destruct (finish_keeps _ Hf1) as [_ Hk1].
  split_and!; [by destruct r|by split_and!|done].
Qed.

(** Effects that do not touch what [quiet] looks at. *)
Definition inert (f : world → world) : Prop :=
  ∀ w, w_in (f w) = w_in w ∧ w_out (f w) = w_out w ∧ w_cache (f w) = w_cache w ∧ w_objects (f w) = w_objects w.

Lemma inert_safe f : inert f → wsafe (st_set f).
Proof.
  intros Hf. apply safe_set. intros w Hq. destruct (Hf w) as (E1 & E2 & E3 & E4).
  unfold quiet, wsize in *. by rewrite E1, E2, E3, E4.
Qed.

Lemma inert_step {A} (m : ST world A) :
  (∀ w, no_panic (m w).1) → (∀ w, w_in (m w).2 = w_in w ∧ w_out (m w).2 = w_out w ∧
    w_cache (m w).2 = w_cache w ∧ w_objects (m w).2 = w_objects w) → wsafe m.
Proof.
  intros Hn Hm w Hq. destruct (Hm w) as (E1 & E2 & E3 & E4). split; [done|].
  unfold quiet, wsize in *. by rewrite E1, E2, E3, E4.
Qed.

Lemma get_safe {A} (f : world → A) : wsafe (st_get f).
Proof. apply safe_get. Qed.

(** One step over the structure of a computation. *)
Ltac safe_step :=
  match goal with
  | |- safe _ _ (mret _) => apply safe_ret
  | |- safe _ _ (mbind _ _) => apply safe_bind; [|intros ?]
  | |- safe _ _ (st_each _ _) => apply safe_each; intros ?
  | |- safe _ _ (lift (empty_batch _)) => apply safe_lift, empty_batch_no_panic
  | |- safe _ _ (lift (pointer_batch _ _)) => apply safe_lift, bind_no_panic; [apply empty_batch_no_panic|done]
  | |- safe _ _ (on_world _) => apply on_world_safe
  | |- safe _ _ (st_set _) => by apply inert_safe
  | |- safe _ _ (sw_write _ _) => apply sw_write_safe
  | |- safe _ _ sw_finish => apply sw_finish_safe
  | |- safe _ _ sw_flush => apply sw_flush_safe
  | |- safe _ _ (write_envelope _ _) => apply write_envelope_safe
  | |- safe _ _ (with_writer _ _ _) => apply with_writer_safe
  | |- safe _ _ (let '_ := ?x in _) => destruct x
  | |- safe _ _ (match ?x with _ => _ end) => destruct x
  end.

Lemma write_logs_safe schema logs : rsafe (write_logs schema logs).
Proof. unfold write_logs. repeat safe_step. Qed.

Lemma put_and_finish_safe b md : rsafe (put_and_finish b md).
Proof. unfold put_and_finish. repeat safe_step. Qed.

Lemma write_error_stream_safe schema e sid rid tb : wsafe (write_error_stream schema e sid rid tb).
Proof. unfold write_error_stream. repeat safe_step. Qed.

Lemma transport_options_safe (srv : server) : wsafe (serve_transport_options srv).
Proof. unfold serve_transport_options. repeat safe_step. apply put_and_finish_safe. Qed.

(** ** Calls without a segment and without external storage *)
Context (srv : server) (Hext : external_config srv = None).

Lemma externalize_safe b schema md : wsafe (externalize srv b schema md).
Proof. intros w Hw. unfold externalize. rewrite Hext. by split_and!. Qed.

Lemma write_result_batch_safe info out : rsafe (write_result_batch srv info None out).
Proof.
  unfold write_result_batch, route_shm. repeat safe_step; auto using put_and_finish_safe, externalize_safe.
Qed.

Lemma run_unary_safe (info : MethodInfo _ _) req (conn : Conn) : wsafe (run_unary (St:=St) (Store:=Store) info req conn).
Proof. apply inert_step; intros w; unfold run_unary; by destruct (mi_unary info). Qed.

Lemma serve_unary_safe req info conn : wsafe (serve_unary srv req info conn None).
Proof.
  unfold serve_unary. apply (safe_bind_value _ _ (fun o => no_panic o.1.1)); [apply run_unary_safe| |].
  - intros w a w' _ E. unfold run_unary in E.
    destruct (mi_unary info) as [h|]; injection E as <- _; [|done]. apply call_guard_no_panic.
  - intros [[[r|e|] logs] er] Hn; [| |done]; repeat safe_step; auto using write_logs_safe, put_and_finish_safe, write_result_batch_safe.
Qed.

(** ** Streams *)
Lemma drain_input_safe : wsafe drain_input.
Proof.
  intros w (Ho & Hc & Hf). unfold drain_input. destruct (stream_reader_new_size (w_in w)) as [Hn Hs].
  destruct (stream_reader_new (w_in w)) as [rdr|e|]; [|by split_and!; [|done|apply after_new_size]|done].
  specialize (Hs _ eq_refl). destruct (drain_returns rdr) as (r & -> & Hr & Hd). unfold wsize.
  destruct r as [rdr'|e|]; [|split_and!; [done..|]|done].
  - destruct (Hd _ eq_refl). split_and!; [done..|]. simpl. lia.
  - pose proof (after_drain_size rdr). simpl. lia.
Qed.

Abbreviation lock := (Lock (App:=App) (St:=St) (Store:=Store)).
Definition lquiet (l : lock) : Prop := rquiet (lk_resp l).
Abbreviation lsafe := (safe lquiet lsize).

Lemma on_resp_safe {A} (m : ST _ A) : rsafe m → lsafe (on_resp m).
Proof.
  intros Hm l Hl. destruct (Hm _ Hl) as (? & ? & ?). unfold on_resp.
  by destruct (m (lk_resp l)) as [r s].
Qed.

Lemma log_each_safe b logs : rsafe (st_each (fun log => write_envelope (envelope_log log) b) logs).
Proof. repeat safe_step. Qed.

Lemma flush_item_safe schema b i : rsafe (flush_item srv schema b None i).
Proof. unfold flush_item, route_shm. repeat safe_step; apply externalize_safe. Qed.

Lemma cast_batch_no_panic b s : no_panic (cast_batch b s).
Proof.
  unfold cast_batch. case_match; [done|]. case_match; [done|].
  apply bind_no_panic; [|intros; apply try_new_no_panic].
  apply mapM_no_panic. intros [a f]. unfold cast_column. case_match; [done|]. apply ok_or_no_panic.
Qed.

Lemma cast_input_safe (result : StreamResult St) empty b : rsafe (cast_input result empty b).
Proof.
  unfold cast_input. destruct (input_schema result) as [s|]; [|apply safe_ret]. case_match; [apply safe_ret|].
  pose proof (cast_batch_no_panic b s). destruct (cast_batch b s); [| |done]; unfold write_env_error; repeat safe_step.
Qed.

Lemma on_cancel_safe (st : StreamStateKind St) tick :
  wsafe (fun w => let '(r, logs, app) := on_cancel st tick (w_app w) in (Ok (call_guard r, logs), set_app app w)).
Proof. apply inert_step; intros w; by destruct (on_cancel st tick (w_app w)) as [[??] ?]. Qed.

Lemma cancel_turn_safe empty tick : lsafe (cancel_turn empty tick).
Proof.
  unfold cancel_turn, write_env_error.
  repeat first [apply safe_get | apply on_resp_safe | apply on_cancel_safe | safe_step].
Qed.

Lemma run_handler_safe (result : StreamResult St) input tick : lsafe (run_handler result input tick).
Proof.
  intros l [(Ho & Hc & Hf) Hw]. unfold run_handler.
  destruct (match lk_state l with SProducer _ => _ | SExchange _ => _ end) as [kind t].
  destruct (run_turn _ _ _) as [[[r [x app]] out] logs]. by split_and!.
Qed.

Lemma stream_turn_safe (result : StreamResult St) empty input tick : lsafe (stream_turn srv result empty None input tick).
Proof.
  unfold stream_turn, write_env_error.
  repeat first [apply on_resp_safe | apply cancel_turn_safe | apply cast_input_safe | apply run_handler_safe
               | apply flush_item_safe | safe_step].
Qed.

(** A pass keeps the invariant, and one that asks for another has consumed input. *)
Lemma stream_pass_safe (result : StreamResult St) empty l :
  lquiet l →
  let '(r, l') := stream_pass srv result empty None l in
  no_panic r ∧ lquiet l' ∧ (lsize l' ≤ lsize l)%nat ∧ (r = Ok true → (lsize l' < lsize l)%nat).
Proof.
  intros Hl. unfold stream_pass. destruct (read_next_returns (lk_reader l)) as (r & Er & Hn & Hs). rewrite Er.
  destruct r as [[[[b md]|] rdr]|e|]; [| | |done].
  - cbn [resolve_in]. rewrite on_resp_world_ret.
    set (l1 := mkLock rdr (lk_state l) _). destruct (stream_turn_safe result empty b md l1) as (H1' & H2' & H3'); [done|].
    destruct (stream_turn srv result empty None b md l1) as [r l2]. cbn [drop_anchor]. rewrite on_resp_world_ret.
    assert (lsize l1 < lsize l)%nat by done. simpl in *. split_and!; [by destruct r|done|lia|lia].
  - apply read_next_size in Er. by split_and!.
  - pose proof (after_next_size (lk_reader l)). by split_and!.
Qed.

Lemma lockstep_safe fuel (result : StreamResult St) empty l :
  lquiet l → (lsize l < fuel)%nat →
  let '(r, l') := lockstep fuel srv result empty None l in no_panic r ∧ lquiet l' ∧ (lsize l' ≤ lsize l)%nat.
Proof.
  revert l. induction fuel as [|fuel IH]; intros l Hl Hf; [lia|]. cbn [lockstep]. unfold mbind, ST_bind.
  pose proof (stream_pass_safe result empty l Hl) as Hp.
  destruct (stream_pass srv result empty None l) as [[[]|e|] l1]; destruct Hp as (Hn & Hq & Hle & Hlt); try by split_and!.
  specialize (Hlt eq_refl). specialize (IH l1 Hq ltac:(lia)).
  destruct (lockstep _ _ _ _ _ l1) as [r l2]. destruct IH as (? & ? & ?). split_and!; [done..|lia].
Qed.

Lemma lockstep_below fuel (result : StreamResult St) empty :
  safe (fun l => lquiet l ∧ (lsize l < fuel)%nat) lsize (lockstep fuel srv result empty None).
Proof.
  intros l [Hl Hf]. pose proof (lockstep_safe fuel result empty l Hl Hf) as Hk.
  destruct (lockstep _ _ _ _ _ l) as [r l1]. destruct Hk as (? & ? & ?). split_and!; [done..|simpl; lia|done].
Qed.

Lemma lockstep_stream_safe (result : StreamResult St) logs : rsafe (lockstep_stream srv result logs None).
Proof.
  intros s Hs. unfold lockstep_stream. destruct (stream_reader_new_size (w_in (rs_world s))) as [Hn Hsz].
  destruct (stream_reader_new (w_in (rs_world s))) as [rdr|e|]; [|by split_and!; [|apply Hs|apply after_new_size]|done].
  specialize (Hsz _ eq_refl). set (m := _ ← _; _).
  assert (safe (fun l => lquiet l ∧ (lsize l < S (reader_size (sr_reader rdr)))%nat) lsize m) as Hm.
  { subst m. repeat first [apply safe_below, on_resp_safe | apply lockstep_below | safe_step]. }
  destruct (Hm (mkLock rdr (stream_state result) s)) as (Hnm & [Hlm _] & Hsm); [split; [done|unfold lsize; simpl; lia]|].
  destruct (m _) as [r l]. simpl in Hnm, Hlm, Hsm.
  assert (∀ r0, (reader_size r0 ≤ lsize l)%nat →
    rquiet (mkResp (rs_writer (lk_resp l)) (rs_env (lk_resp l)) (set_in r0 (rs_world (lk_resp l)))) ∧
    (reader_size r0 ≤ rsize s)%nat) as Hput.
  { intros r0 Hr0. split; [done|]. unfold rsize, wsize, lsize in *. simpl in *. lia. }
  destruct r as [[]|e|]; [|split; [done|]; by apply Hput|done].
  destruct (drain_returns (lk_reader l)) as (r & -> & Hr & Hd).
  destruct r as [rdr'|e|]; [| |done]; (split; [done|]); apply Hput.
  - destruct (Hd _ eq_refl). done.
  - apply after_drain_size.
Qed.

Lemma run_stream_safe (info : MethodInfo _ _) req (conn : Conn) : wsafe (run_stream (St:=St) info req conn).
Proof.
  apply inert_step; intros w; unfold run_stream; destruct (mi_stream info) as [h|]; try done;
    by destruct (h req conn (w_app w)) as [[??]?].
Qed.

Lemma serve_stream_safe req info conn : wsafe (serve_stream srv req info conn None).
Proof.
  unfold serve_stream. apply (safe_bind_value _ _ (fun o => no_panic o.1)); [apply run_stream_safe| |].
  - intros w a w' _ E. unfold run_stream in E.
    destruct (mi_stream info) as [h|]; [|by injection E as <- _].
    destruct (h req conn (w_app w)) as [[??]?]. injection E as <- _. apply call_guard_no_panic.
  - intros [[r|e|] logs] Hn; [| |done]; repeat safe_step;
      auto using write_logs_safe, drain_input_safe, lockstep_stream_safe.
Qed.

(** ** One request *)
Lemma no_segment md (w : world) : quiet w → maybe_attach_shm md w = (Ok None, w).
Proof.
  intros (Ho & _ & _). unfold maybe_attach_shm. destruct (md !! _); [|done]. destruct (_ ≫= _); [|done].
  unfold shm_object. rewrite Ho, !lookup_empty. destruct (bool_decide (x00 ∈ _)); [done|].
  rewrite bool_decide_eq_false_2 by by intros []. by destruct (starts_with _ _).
Qed.

Lemma refresh_quiet md (w : world) : quiet w → refresh md w = (Ok tt, w).
Proof.
  intros Hq. unfold refresh, st_get, mbind, ST_bind. destruct (w_cache w); [|done].
  destruct (md !! _); [|done]. case_match; [done|]. by rewrite no_segment.
Qed.

Lemma call_segment_quiet used md (w : world) : quiet w → call_segment used md w = (Ok None, w).
Proof.
  intros Hq. unfold call_segment, st_get, mbind, ST_bind. pose proof Hq as (_ & Hc & _).
  destruct (w_cache w) as [c|]; [|by apply no_segment]. simpl in Hc. rewrite Hc. by destruct used.
Qed.

Lemma serve_method_safe req used (serve : option Segment → ST world unit) :
  wsafe (serve None) → wsafe (serve_method srv req used serve).
Proof.
  intros Hs. unfold serve_method. apply safe_bind; [by apply inert_safe|]. intros _.
  apply safe_bind; [case_match; [by apply inert_safe|apply safe_ret]|]. intros _.
  apply (safe_bind_value _ _ (fun o => o = None)).
  - intros w Hq. by rewrite call_segment_quiet.
  - intros w a w' Hq E. rewrite call_segment_quiet in E by done. by injection E.
  - intros _ ->. apply safe_bind; [apply inert_step; intros w; by unfold scope_begin, scope_new|]. intros outer.
    apply safe_bind; [done|]. intros _.
    apply safe_bind; [apply inert_step; intros w; by unfold scope_end, scope_finish|]. intros n.
    case_match; [by apply inert_safe|apply safe_ret].
Qed.

(** Reading a request: no panic, and a request read has consumed input; it is what
    the frame carried, and it holds no slot. *)
Lemma read_frame_safe (w : world) :
  quiet w →
  let '(r, w') := read_frame w in
  no_panic r ∧ quiet w' ∧ (wsize w' ≤ wsize w)%nat ∧ ((∃ f, r = Ok (Some f)) → (wsize w' < wsize w)%nat).
Proof.
  intros Hq. unfold read_frame. destruct (stream_reader_new_size (w_in w)) as [Hn Hs].
  assert (∀ r, (reader_size r ≤ wsize w)%nat → quiet (set_in r w) ∧ (wsize (set_in r w) ≤ wsize w)%nat) as Hin by done.
  destruct (stream_reader_new (w_in w)) as [rdr|e|]; [| |done].
  - specialize (Hs _ eq_refl). destruct (read_next_returns rdr) as (r & Er & Hr & Hsz). rewrite Er.
    destruct r as [[[f|] rdr1]|e|]; [| | |done].
    + destruct (drain_returns rdr1) as (d & -> & Hd & Hd2). destruct d as [rdr2|e|]; [| |done].
      * destruct (Hd2 _ eq_refl) as [_ Hl]. unfold wsize; simpl. split_and!; [done|done|lia|lia].
      * pose proof (after_drain_size rdr1). unfold wsize; simpl. split_and!; [done|done|lia|by intros []].
    + apply read_next_size in Er. unfold wsize; simpl. split_and!; [done|done|lia|by intros []].
    + pose proof (after_next_size rdr). unfold wsize; simpl. split_and!; [done|done|lia|by intros []].
  - pose proof (after_new_size (w_in w)). split_and!; [by destruct (eof_like e)|done|done|].
    destruct (eof_like e); by intros [].
Qed.

Lemma read_request_quiet (w : world) :
  quiet w → read_request w =
    (match (read_frame w).1 with
     | Ok (Some (b, md)) => Ok (Some (b, md, uses_shm md, None))
     | Ok None => Ok None
     | Err e => Err e
     | Panic => Panic
     end, (read_frame w).2).
Proof.
  intros Hq. pose proof (read_frame_safe w Hq) as Hf. unfold read_request.
  unfold mbind at 1, ST_bind. destruct (read_frame w) as [[[[b md]|]|e|] w1]; try done. destruct Hf as (_ & Hq1 & _).
  cbn [fst snd]. cbv beta iota zeta. destruct (is_shm_pointer_batch b md).
  - unfold mbind, ST_bind, st_get. destruct (w_cache w1) as [c|] eqn:Ec.
    + rewrite refresh_quiet by done. destruct Hq1 as (_ & Hc & _). unfold mbind in Hc. by rewrite Hc.
    + by rewrite no_segment.
  - unfold mbind, ST_bind. by rewrite refresh_quiet.
Qed.

Context (serve_reflection : server → Request → Conn → ST world unit).
Context (Hrefl : ∀ req conn, wsafe (serve_reflection srv req conn)).

Lemma perform_safe conn rid used act : wsafe (perform serve_reflection srv conn rid used act).
Proof.
  destruct act as [[req|] schema e|req|req|req info|req info]; cbn [perform];
    auto using write_error_stream_safe, transport_options_safe, serve_method_safe, serve_unary_safe, serve_stream_safe.
Qed.

(** Where routing a request panics. *)
Lemma version_gate_no_panic p sv md : no_panic (validate_protocol_version p sv md).
Proof.
  unfold validate_protocol_version, version_gate. case_bool_decide; [done|].
  destruct (md !! _) as [c|]; [|done]. cbn [ok_or mbind res_bind].
  destruct (parse_semver c) as [[[ma mi] pa]|]; [|done]. cbn [ok_or mbind res_bind].
  destruct (parse_semver sv) as [[[sma smi] spa]|]; repeat (case_match; try done).
Qed.

Lemma dispatch_panics b md :
  dispatch srv b md = Panic →
  ∃ p, md !! PROTOCOL_KEY = Some p ∧ MAX_PROTOCOL_NAME_BYTES < zlen p ∧ is_char_boundary p 64 = false.
Proof.
  unfold dispatch. intros E. destruct (from_read_batch b md true) as [req|e|] eqn:Ef; [|done|].
  - apply from_read_batch_ok in Ef as (_ & Hp & _). cbn [error_or] in E.
    case_bool_decide; [done|]. case_bool_decide; [done|]. case_bool_decide; [done|].
    unfold route in E. destruct (bool_decide (protocol req = [])) eqn:Hne; [done|]. apply bool_decide_eq_false in Hne.
    destruct (md !! PROTOCOL_KEY) as [p|]; simpl in Hp; rewrite Hp in *; [|done]. exists p. split; [done|].
    destruct (decide (zlen p ≤ MAX_PROTOCOL_NAME_BYTES)) as [Hle|Hgt].
    + exfalso. pose proof (validate_short p true Hle). destruct (validate_protocol_name p true); [|done..].
      destruct (resolve_binding srv p) as [bd|]; [|done]. cbn [ok_or error_or] in E. unfold dispatch_routed in E.
      pose proof (version_gate_no_panic (rb_name bd) (rb_version bd) (metadata req)) as Hv.
      destruct (validate_protocol_version _ _ _); [|done..]. cbn [error_or] in E.
      destruct (rb_methods bd !! method req) as [info|]; [|done].
      unfold validate_parameter_batch in E. case_match; [done|]. by case_match.
    + split; [lia|]. rewrite validate_long in E by lia. by destruct (is_char_boundary p 64).
  - exfalso. unfold from_read_batch in Ef. case_match; [done|]. cbv iota in Ef.
    destruct (md !! RPC_METHOD_KEY); [|done]. destruct (md !! REQUEST_VERSION_KEY); [|done].
    cbn [ok_or mbind res_bind] in Ef. case_match; [done|]. by case_match.
Qed.

Lemma serve_one_quiet conn (w : world) :
  quiet w →
  let '(r, w') := _serve_one serve_reflection srv conn w in
  quiet w' ∧ (wsize w' ≤ wsize w)%nat ∧ (r = Ok true → (wsize w' < wsize w)%nat) ∧
  (r = Panic → ∃ b md p, (read_frame w).1 = Ok (Some (b, md)) ∧
     md !! PROTOCOL_KEY = Some p ∧ MAX_PROTOCOL_NAME_BYTES < zlen p ∧ is_char_boundary p 64 = false).
Proof.
  intros Hq. unfold _serve_one, mbind, ST_bind. rewrite read_request_quiet by done.
  pose proof (read_frame_safe w Hq) as Hf. destruct (read_frame w) as [[[[b md]|]|e|] w1];
    destruct Hf as (Hn & Hq1 & Hle & Hlt); try by split_and!.
  specialize (Hlt ltac:(eauto)). cbn. unfold serve_frame. cbv zeta.
  destruct (dispatch srv b md) as [act|e|] eqn:Ed; unfold mbind, ST_bind, lift.
  - destruct (perform_safe conn (default [] (md !! REQUEST_ID_KEY)) (uses_shm md) act w1 Hq1) as (Hp & Hq2 & Hl2).
    destruct (perform _ _ _ _ _ _ w1) as [r w2]. simpl in *. split_and!; [done|lia|lia|by destruct r].
  - by split_and!; simpl; try lia.
  - apply dispatch_panics in Ed as (p & Hp). simpl. split_and!; [done|lia|done|]. intros _. by exists b, md, p.
Qed.

Abbreviation loop n conn := (serve_loop serve_reflection n srv conn).

Lemma serve_loop_quiet n conn (w : world) :
  quiet w → (wsize w < n)%nat →
  let '(r, w') := loop n conn w in
  quiet w' ∧ r ≠ Ok Running ∧
  (r = Panic → ∃ k w1 b md p, loop k conn w = (Ok Running, w1) ∧ (read_frame w1).1 = Ok (Some (b, md)) ∧
     md !! PROTOCOL_KEY = Some p ∧ MAX_PROTOCOL_NAME_BYTES < zlen p ∧ is_char_boundary p 64 = false).
Proof.
  revert w. induction n as [|n IH]; intros w Hq Hn; [lia|]. cbn [serve_loop].
  pose proof (serve_one_quiet conn w Hq) as Hs.
  destruct (_serve_one serve_reflection srv conn w) as [[[]|e|] w1] eqn:E1; destruct Hs as (Hq1 & Hle & Hlt & Hp);
    [|by split_and!..|].
  - specialize (Hlt eq_refl). specialize (IH w1 Hq1 ltac:(lia)). destruct (loop n conn w1) as [r w2].
    destruct IH as (H1' & H2' & H3'). split_and!; [done..|]. intros Er.
    destruct (H3' Er) as (k & w3 & b & md & p & Hk & Hr). exists (S k), w3, b, md, p. split; [|done].
    cbn [serve_loop]. by rewrite E1.
  - split_and!; [done..|]. intros _. destruct (Hp eq_refl) as (b & md & p & Hr). by exists O, w, b, md, p.
Qed.
End Serving.

(** ** The end of a connection *)
Section Connection.
Context `{LS : ArrowShmLaws} `{LR : !ArrowIpcLaws} `{!Json, !Aead, !Zstd, !UrlLib}.
Context {App St Store Conn : Type} `{!ExternalStorage Store, !Fetcher Store}.
Context `{!StreamState (App:=App) (St:=St)} `{!Env} `{LE : !EnvLaws}.

Abbreviation world := (World (App:=App) (Store:=Store)).
Abbreviation server := (RpcServer (UnaryHandler (App:=App) (Conn:=Conn)) (StreamHandler (App:=App) (St:=St) (Conn:=Conn))).

End Connection.
