(* ===== verification/Client.v ===== *)
(** * The blocking client

    [vgi-rpc-client]: [request.rs], [pointer.rs] and [client.rs], the client over a
    byte-stream transport: the metadata of a request, a unary call, and the lockstep
    [StreamSession]. The transport's ends are the client's until a session's reader or
    writer takes them. A batch the client returns may hold its shared-memory slot; the
    slot is released when the caller drops the batch, which is outside the client. *)

From S2P Require Import Prelude Bytes Metadata F64 Json ErrorModel Errors Crypto ShmAllocator Ipc IpcWriter Arrow External ShmBatch Dispatch Envelope Stream Serve.

(** ** [request.rs] *)
Definition rotate_left64 (x k : Z) : Z := Z.lor (Z.shiftl x k mod 2 ^ 64) (Z.shiftr x (64 - k)).

(** [nanos]: the clock; [n]: what the counter held. *)
Definition generate_request_id (nanos n : Z) : list byte :=
  bytes_to_hex (rev (le_bytes 8 (Z.lxor (rotate_left64 nanos 17) ((n * 0x9E3779B97F4A7C15) mod 2 ^ 64)))).

(** [o.filter(|s| !s.is_empty())], inserted *)
Definition insert_nonempty (k : list byte) (v : option (list byte)) (md : Metadata) : Metadata :=
  match v with
  | Some v => if bool_decide (v = []) then md else <[k := v]> md
  | None => md
  end.

Definition build_request_metadata (method request_id : list byte) (protocol protocol_version : option (list byte))
    (extra : option Metadata) : Metadata :=
  let md := default ∅ extra in
  let md := <[RPC_METHOD_KEY := method]> md in
  let md := insert_nonempty PROTOCOL_KEY protocol md in
  let md := <[REQUEST_VERSION_KEY := REQUEST_VERSION]> md in
  let md := <[REQUEST_ID_KEY := request_id]> md in
  insert_nonempty PROTOCOL_VERSION_KEY protocol_version md.

(** [s.trim_start_matches('/')] *)
Fixpoint trim_slashes (s : list byte) : list byte :=
  match s with x2f :: s => trim_slashes s | _ => s end.

Inductive StreamKind := KProducer | KExchange.

Section Client.
Context `{ArrowShm, !Json, !Aead, !Zstd, !UrlLib, !Env}.
Context {Store : Type} `{!Fetcher Store}.
(** [relax_schema_nullability] of [wire.rs], on Arrow's schemas. *)
Context (relax_schema_nullability : ArrowSchema → ArrowSchema).

(** [RpcClient] less its transport; [has_on_log]: whether a callback is installed;
    [deadline_start]: what starting the transport's deadline returns. *)
Record RpcClient := mkClient {
  c_protocol : option (list byte);
  c_protocol_version : option (list byte);
  relax_nullability : bool;
  has_on_log : bool;
  external_resolver : option ExternalLocationConfig;
  deadline_start : res RpcError unit
}.

(** The transport's two ends, the segment the client created, the storage it fetches
    from, the clock, and what the log callback was told. *)
Record CWorld := mkCWorld {
  cw_in : reader;
  cw_out : sink;
  cw_shm : option OsShm;
  cw_store : Store;
  cw_fetch_ms : f64;
  cw_logs : list LogMessage
}.
Definition cset_in (r : reader) (w : CWorld) : CWorld :=
  mkCWorld r (cw_out w) (cw_shm w) (cw_store w) (cw_fetch_ms w) (cw_logs w).
Definition cset_out (k : sink) (w : CWorld) : CWorld :=
  mkCWorld (cw_in w) k (cw_shm w) (cw_store w) (cw_fetch_ms w) (cw_logs w).
Definition cset_shm (s : option OsShm) (w : CWorld) : CWorld :=
  mkCWorld (cw_in w) (cw_out w) s (cw_store w) (cw_fetch_ms w) (cw_logs w).
Definition cadd_log (m : LogMessage) (w : CWorld) : CWorld :=
  mkCWorld (cw_in w) (cw_out w) (cw_shm w) (cw_store w) (cw_fetch_ms w) (cw_logs w ++ [m]).

(** ** Shared memory *)
Definition shm_request_md (shm : option OsShm) (base : option Metadata) : option Metadata :=
  match shm with
  | Some seg => Some (<[SHM_SEGMENT_SIZE_KEY := dec_unsigned (os_size seg)]>
                        (<[SHM_SEGMENT_NAME_KEY := trim_slashes (os_name seg)]> (default ∅ base)))
  | None => base
  end.

Definition shm_resolve_inbound (b : RecordBatch) (md : Metadata) : ST CWorld (RecordBatch * Metadata) := fun w =>
  match cw_shm w with
  | None => (Ok (b, md), w)
  | Some seg =>
    match resolve_shm_batch b md (Some seg) with
    | Ok (seg', inl e) => (Err e, cset_shm seg' w)
    | Ok (seg', inr r) =>
      match release_offset r, seg' with
      | Some off, Some s =>
        match free_ignored s off with
        | Ok s => (Ok (resolved_batch r, ShmBatch.resolved_metadata r), cset_shm (Some s) w)
        | Err e => (Err e, cset_shm seg' w)
        | Panic => (Panic, cset_shm seg' w)
        end
      | _, _ => (Ok (resolved_batch r, ShmBatch.resolved_metadata r), cset_shm seg' w)
      end
    | Err e => (Err e, w)
    | Panic => (Panic, w)
    end
  end.

Definition dispatch_log (c : RpcClient) (m : LogMessage) : ST CWorld unit :=
  if has_on_log c then st_set (cadd_log m) else mret tt.

Definition relaxed (relax : bool) (s : StreamReader) : StreamReader :=
  if relax then mkStreamReader (sr_reader s) (sr_schema s) (sr_dictionaries s) (finished s) (saw_eos s)
                  (Some (relax_schema_nullability (sr_schema s)))
  else s.

(** ** [pointer.rs] *)
Definition unresolved_pointer_error : RpcError :=
  RpcErr.protocol_error (bs "received an external-location pointer batch (storage host ").
Definition not_a_pointer : RpcError := RpcErr.protocol_error (bs "resolve_pointer: frame is not a pointer").
Definition redirect_loop : RpcError :=
  RpcErr.protocol_error (bs "external payload contains another external-location pointer (redirect loop)").
Definition two_data_batches : RpcError :=
  RpcErr.protocol_error (bs "external payload contains more than one data batch").
Definition no_data_batch : RpcError := RpcErr.protocol_error (bs "external payload contains no data batch").

(** The walk over the fetched stream; running out of fuel would be the loop not ending. *)
Fixpoint payload_loop (fuel : nat) (c : RpcClient) (data : option (RecordBatch * Metadata)) (rdr : StreamReader)
  : ST CWorld (option (RecordBatch * Metadata)) :=
  match fuel with
  | O => lift Panic
  | S fuel =>
    match read_next rdr with
    | Some (Ok (None, _)) => mret data
    | Some (Ok (Some (b, md), rdr)) =>
      match classify b md with
      | KLog m => _ ← dispatch_log c m; payload_loop fuel c data rdr
      | KException e => lift (Err e)
      | KPointer => lift (Err redirect_loop)
      | KData => match data with
                 | Some _ => lift (Err two_data_batches)
                 | None => payload_loop fuel c (Some (b, md)) rdr
                 end
      end
    | Some (Err e) => lift (Err e)
    | _ => lift Panic
    end
  end.

Definition resolve_pointer (pointer_md : Metadata) (cfg : ExternalLocationConfig) (c : RpcClient)
  : ST CWorld (RecordBatch * Metadata) :=
  url ← lift (ok_or not_a_pointer (pointer_md !! LOCATION_KEY));
  store ← st_get cw_store;
  fetched ← lift (fetch_external_ipc_bytes pointer_md cfg store);
  ipc_bytes ← lift (ok_or not_a_pointer fetched);
  fetch_ms ← st_get cw_fetch_ms;
  rdr ← lift (stream_reader_new [Data ipc_bytes]);
  let rdr := relaxed (relax_nullability c) rdr in
  data ← payload_loop (S (reader_size (sr_reader rdr))) c None rdr;
  '(b, inner_md) ← lift (ok_or no_data_batch data);
  mret (b, External.resolved_metadata pointer_md inner_md url fetch_ms).

Definition resolve_with (c : RpcClient) (pointer_md : Metadata) : ST CWorld (RecordBatch * Metadata) :=
  match external_resolver c with
  | Some cfg => resolve_pointer pointer_md cfg c
  | None => lift (Err unresolved_pointer_error)
  end.

(** ** Unary calls *)

(** One complete stream of one batch; the writer is dropped at the end of its scope. *)
Definition write_stream (b : RecordBatch) (md : Metadata) : ST CWorld unit := fun w =>
  match stream_writer_new (cw_out w) (batch_schema b) with
  | (Ok sw, _) =>
    let '(r, sw) := stream_writer_write sw b (Some md) in
    match r with
    | Ok _ => let '(r, sw) := stream_writer_finish sw in (r, cset_out (sw_writer (stream_writer_drop sw)) w)
    | _ => (r, cset_out (sw_writer (stream_writer_drop sw)) w)
    end
  | (Err e, k) => (Err e, cset_out k w)
  | (Panic, k) => (Panic, cset_out k w)
  end.

(** [let _ = reader.drain(); return Err(e)] *)
Definition drain_and_fail {A} (rdr : StreamReader) (e : RpcError) : ST CWorld A := fun w =>
  match drain rdr with
  | Some (Ok rdr) => (Err e, cset_in (sr_reader rdr) w)
  | Some (Err _) => (Err e, cset_in (after_drain rdr) w)
  | _ => (Panic, w)
  end.

(** The loop over the response; [keep] is what a data batch becomes. *)
Fixpoint response_loop (fuel : nat) (c : RpcClient) (keep : RecordBatch → Metadata → ST CWorld (RecordBatch * Metadata))
    (result : option (RecordBatch * Metadata)) (rdr : StreamReader) : ST CWorld (option (RecordBatch * Metadata)) :=
  match fuel with
  | O => lift Panic
  | S fuel =>
    match read_next rdr with
    | Some (Ok (None, rdr)) => _ ← st_set (cset_in (sr_reader rdr)); mret result
    | Some (Ok (Some (b, md), rdr)) =>
      match classify b md with
      | KLog m => _ ← dispatch_log c m; response_loop fuel c keep result rdr
      | KException e => drain_and_fail rdr e
      | KPointer => fun w =>
        match resolve_with c md w with
        | (Ok p, w) => response_loop fuel c keep (Some (default p result)) rdr w
        | (Err e, w) => drain_and_fail rdr e w
        | (Panic, w) => (Panic, w)
        end
      | KData =>
        match result with
        | Some _ => response_loop fuel c keep result rdr
        | None => fun w =>
          match keep b md w with
          | (Ok p, w) => response_loop fuel c keep (Some p) rdr w
          | (Err e, w) => (Err e, cset_in (sr_reader rdr) w)
          | (Panic, w) => (Panic, w)
          end
        end
      end
    | Some (Err e) => _ ← st_set (cset_in (sr_reader (after_next rdr))); lift (Err e)
    | _ => lift Panic
    end
  end.

(** [StreamReader::new(r)?], relaxed where the client asks for it. *)
Definition open_reader (c : RpcClient) : ST CWorld StreamReader := fun w =>
  match stream_reader_new (cw_in w) with
  | Ok rdr => (Ok (relaxed (relax_nullability c) rdr), w)
  | Err e => (Err e, cset_in (after_new (cw_in w)) w)
  | Panic => (Panic, w)
  end.

Definition read_response (c : RpcClient) (keep : RecordBatch → Metadata → ST CWorld (RecordBatch * Metadata))
  : ST CWorld (option (RecordBatch * Metadata)) :=
  rdr ← open_reader c;
  response_loop (S (reader_size (sr_reader rdr))) c keep None rdr.

(** The request of a call: [req_id] is what [generate_request_id] drew. *)
Definition request_metadata (c : RpcClient) (protocol : option (list byte)) (method req_id : list byte)
    (metadata : option Metadata) (shm : option OsShm) : Metadata :=
  build_request_metadata method req_id protocol (c_protocol_version c) (shm_request_md shm metadata).

Definition no_result_batch : RpcError := RpcErr.new (bs "TransportError") (bs "no result batch in response").

Definition call_unary_on (c : RpcClient) (protocol : option (list byte)) (method req_id : list byte)
    (params : RecordBatch) (metadata : option Metadata) : ST CWorld (RecordBatch * Metadata) :=
  _ ← lift (deadline_start c);
  shm ← st_get cw_shm;
  _ ← write_stream params (request_metadata c protocol method req_id metadata shm);
  result ← read_response c shm_resolve_inbound;
  lift (ok_or no_result_batch result).

Definition call_unary (c : RpcClient) (method req_id : list byte) (params : RecordBatch) (metadata : option Metadata)
  : ST CWorld (RecordBatch * Metadata) :=
  call_unary_on c (c_protocol c) method req_id params metadata.

(** [transport_options]: whether the worker offers shared memory, and its metadata. *)
Definition transport_options (c : RpcClient) (req_id : list byte) : ST CWorld (bool * Metadata) :=
  params ← lift (empty_batch empty_schema);
  '(_, md) ← call_unary c TRANSPORT_OPTIONS_METHOD_NAME req_id params None;
  mret (bool_decide (md !! TRANSPORT_SHM_KEY = Some (bs "true")), md).

(** ** Streams *)
Definition read_substream (c : RpcClient) : ST CWorld (option (RecordBatch * Metadata)) :=
  read_response c (fun b md => mret (b, md)).

(** The ends a session has not yet taken are still in [ss_world]. *)
Record StreamSession := mkSession {
  ss_world : CWorld;
  reader_raw : bool;
  out_reader : option StreamReader;
  writer_raw : bool;
  in_writer : option StreamWriter;
  ss_header : option (RecordBatch * Metadata);
  kind : StreamKind;
  cancelled : bool;
  ss_finished : bool;
  closed : bool
}.

Definition open_stream (c : RpcClient) (method req_id : list byte) (params : RecordBatch) (metadata : option Metadata)
    (has_header : bool) (kind : StreamKind) (w : CWorld) : res RpcError StreamSession * CWorld :=
  let '(r, w) := (_ ← lift (deadline_start c);
    shm ← st_get cw_shm;
    _ ← write_stream params (request_metadata c (c_protocol c) method req_id metadata shm);
    if has_header then
      h ← read_substream c;
      match h with
      | Some (b, m) => p ← shm_resolve_inbound b m; mret (Some p)
      | None => mret None
      end
    else mret None) w in
  (h ← r; Ok (mkSession w true None true None h kind false false false), w).

Definition sset_world (w : CWorld) (s : StreamSession) : StreamSession :=
  mkSession w (reader_raw s) (out_reader s) (writer_raw s) (in_writer s) (ss_header s) (kind s) (cancelled s) (ss_finished s) (closed s).
Definition sset_reader (raw : bool) (r : option StreamReader) (s : StreamSession) : StreamSession :=
  mkSession (ss_world s) raw r (writer_raw s) (in_writer s) (ss_header s) (kind s) (cancelled s) (ss_finished s) (closed s).
Definition sset_writer (raw : bool) (k : option StreamWriter) (s : StreamSession) : StreamSession :=
  mkSession (ss_world s) (reader_raw s) (out_reader s) raw k (ss_header s) (kind s) (cancelled s) (ss_finished s) (closed s).
Definition sset_cancelled (s : StreamSession) : StreamSession :=
  mkSession (ss_world s) (reader_raw s) (out_reader s) (writer_raw s) (in_writer s) (ss_header s) (kind s) true (ss_finished s) (closed s).
Definition sset_finished (s : StreamSession) : StreamSession :=
  mkSession (ss_world s) (reader_raw s) (out_reader s) (writer_raw s) (in_writer s) (ss_header s) (kind s) (cancelled s) true (closed s).
Definition sset_closed (s : StreamSession) : StreamSession :=
  mkSession (ss_world s) (reader_raw s) (out_reader s) (writer_raw s) (in_writer s) (ss_header s) (kind s) (cancelled s) (ss_finished s) true.

Definition unavailable (what : list byte) : RpcError := RpcErr.new (bs "TransportError") what.

(** The raw handle is moved into the constructor, also where that fails. *)
Definition ensure_input_writer (schema : ArrowSchema) : ST StreamSession unit := fun s =>
  match in_writer s with
  | Some _ => (Ok tt, s)
  | None =>
    if writer_raw s then
      match stream_writer_new (cw_out (ss_world s)) schema with
      | (Ok sw, k) => (Ok tt, sset_world (cset_out k (ss_world s)) (sset_writer false (Some sw) s))
      | (Err e, k) => (Err e, sset_world (cset_out k (ss_world s)) (sset_writer false None s))
      | (Panic, k) => (Panic, sset_world (cset_out k (ss_world s)) (sset_writer false None s))
      end
    else (Err (unavailable (bs "input writer unavailable")), s)
  end.

Definition ensure_output_reader (c : RpcClient) : ST StreamSession unit := fun s =>
  match out_reader s with
  | Some _ => (Ok tt, s)
  | None =>
    if reader_raw s then
      match stream_reader_new (cw_in (ss_world s)) with
      | Ok rd => (Ok tt, sset_reader false (Some (relaxed (relax_nullability c) rd)) s)
      | Err e => (Err e, sset_world (cset_in (after_new (cw_in (ss_world s))) (ss_world s)) (sset_reader false None s))
      | Panic => (Panic, s)
      end
    else (Err (unavailable (bs "output reader unavailable")), s)
  end.

(** [w.write(..)?; w.flush()?] on the input writer *)
Definition write_input (b : RecordBatch) (md : option Metadata) : ST StreamSession unit := fun s =>
  match in_writer s with
  | Some sw =>
    let '(r, sw) := stream_writer_write sw b md in
    (_ ← r; flush_result (sw_writer sw), sset_writer (writer_raw s) (Some sw) s)
  | None => (Panic, s)
  end.

Definition on_cworld {A} (m : ST CWorld A) : ST StreamSession A := fun s =>
  let '(r, w) := m (ss_world s) in (r, sset_world w s).

(** [self.finished = true; let _ = reader.drain(); return Err(e)] *)
Definition finish_and_fail (rdr : StreamReader) (e : RpcError) : ST StreamSession (option (RecordBatch * Metadata)) := fun s =>
  match drain rdr with
  | Some (Ok rdr) => (Err e, sset_reader (reader_raw s) (Some rdr) (sset_finished s))
  | Some (Err _) => (Err e, sset_reader (reader_raw s) (Some (with_reader rdr (after_drain rdr))) (sset_finished s))
  | _ => (Panic, s)
  end.

Definition truncated : RpcError := RpcErr.new (bs "TransportError") (bs "connection closed before the end of the stream").

Fixpoint next_data_loop (fuel : nat) (c : RpcClient) (rdr : StreamReader)
  : ST StreamSession (option (RecordBatch * Metadata)) :=
  match fuel with
  | O => lift Panic
  | S fuel => fun s =>
    let at_ rdr := sset_reader (reader_raw s) (Some rdr) s in
    match read_next rdr with
    | Some (Ok (None, rdr)) =>
      (if saw_eos rdr then Ok None else Err truncated, sset_finished (at_ rdr))
    | Some (Ok (Some (b, md), rdr)) =>
      match classify b md with
      | KLog m => (_ ← on_cworld (dispatch_log c m); next_data_loop fuel c rdr) (at_ rdr)
      | KException e => finish_and_fail rdr e (at_ rdr)
      | KPointer =>
        match on_cworld (resolve_with c md) (at_ rdr) with
        | (Ok p, s) => (Ok (Some p), s)
        | (Err e, s) => finish_and_fail rdr e s
        | (Panic, s) => (Panic, s)
        end
      | KData => (p ← on_cworld (shm_resolve_inbound b md); mret (Some p)) (at_ rdr)
      end
    | Some (Err e) => (Err e, at_ (after_next rdr))
    | _ => (Panic, s)
    end
  end.

Definition read_next_data (c : RpcClient) : ST StreamSession (option (RecordBatch * Metadata)) := fun s =>
  match out_reader s with
  | Some rdr => next_data_loop (S (reader_size (sr_reader rdr))) c rdr s
  | None => (Err (unavailable (bs "output reader not open")), s)
  end.

(** One step: [tick_with_metadata] and [exchange] differ in the batch they send. The
    input goes out ([false]: the stream had finished), then the answer is read. *)
Definition send_input (c : RpcClient) (what : list byte) (input : res RpcError RecordBatch) (schema : ArrowSchema)
    (md : option Metadata) : ST StreamSession bool :=
  s ← st_get id;
  if cancelled s || closed s then lift (Err (RpcErr.protocol_error what)) else
  if ss_finished s then mret false else
  _ ← lift (deadline_start c);
  _ ← ensure_input_writer schema;
  b ← lift input;
  _ ← write_input b md;
  mret true.

Definition receive (c : RpcClient) : ST StreamSession (option (RecordBatch * Metadata)) :=
  _ ← ensure_output_reader c;
  read_next_data c.

Definition stream_step (c : RpcClient) (what : list byte) (input : res RpcError RecordBatch) (schema : ArrowSchema)
    (md : option Metadata) : ST StreamSession (option (RecordBatch * Metadata)) :=
  send_input c what input schema md ≫= fun sent_ : bool => if sent_ then receive c else mret None.

Definition tick_with_metadata (c : RpcClient) (md : option Metadata) :=
  stream_step c (bs "tick after close/cancel") (empty_batch empty_schema) empty_schema md.
Definition tick (c : RpcClient) := tick_with_metadata c None.
Definition session_exchange (c : RpcClient) (input : RecordBatch) (md : option Metadata) :=
  stream_step c (bs "exchange after close/cancel") (Ok input) (batch_schema input) md.

(** [if self.ensure_output_reader().is_ok() { let _ = rd.drain(); }] *)
Definition drain_output (c : RpcClient) : ST StreamSession unit := fun s =>
  match ensure_output_reader c s with
  | (Ok _, s) =>
    match out_reader s with
    | Some rdr =>
      match drain rdr with
      | Some (Ok rdr) => (Ok tt, sset_reader (reader_raw s) (Some rdr) s)
      | Some (Err _) => (Ok tt, sset_reader (reader_raw s) (Some (with_reader rdr (after_drain rdr))) s)
      | _ => (Panic, s)
      end
    | None => (Ok tt, s)
    end
  | (Err _, s) => (Ok tt, s)
  | (Panic, s) => (Panic, s)
  end.

Definition cancel (c : RpcClient) : ST StreamSession unit :=
  s ← st_get id;
  if cancelled s || ss_finished s then st_set sset_cancelled else
  _ ← lift (deadline_start c);
  let schema := match in_writer s with Some sw => sw_schema sw | None => empty_schema end in
  _ ← ensure_input_writer schema;
  b ← lift (empty_batch schema);
  _ ← write_input b (Some (<[CANCEL_KEY := bs "1"]> ∅));
  _ ← st_set sset_cancelled;
  drain_output c.

(** The input stream is finished, or opened and finished empty. *)
Definition finish_input : ST StreamSession unit := fun s =>
  match in_writer s with
  | Some sw =>
    let '(r, sw) := stream_writer_finish sw in
    (match r with Panic => Panic | _ => Ok tt end,
     sset_world (cset_out (sw_writer (stream_writer_drop sw)) (ss_world s)) (sset_writer (writer_raw s) None s))
  | None =>
    if writer_raw s then
      match stream_writer_new (cw_out (ss_world s)) empty_schema with
      | (Ok sw, _) =>
        let '(r, sw) := stream_writer_finish sw in
        (match r with Panic => Panic | _ => Ok tt end,
         sset_world (cset_out (sw_writer (stream_writer_drop sw)) (ss_world s)) (sset_writer false None s))
      | (Err _, k) => (Ok tt, sset_world (cset_out k (ss_world s)) (sset_writer false None s))
      | (Panic, k) => (Panic, sset_world (cset_out k (ss_world s)) (sset_writer false None s))
      end
    else (Ok tt, s)
  end.

Definition close (c : RpcClient) : ST StreamSession unit :=
  s ← st_get id;
  if closed s then mret tt else
  _ ← st_set sset_closed;
  if cancelled s then mret tt else
  _ ← lift (deadline_start c);
  _ ← finish_input;
  drain_output c.

(** [Drop]: [let _ = self.close()], then the fields, whose writer finishes; what the
    transport is left with. *)
Definition session_drop (c : RpcClient) (s : StreamSession) : CWorld :=
  let s := (close c s).2 in
  let w := ss_world s in
  let w := match out_reader s with Some r => cset_in (sr_reader r) w | None => w end in
  match in_writer s with Some sw => cset_out (sw_writer (stream_writer_drop sw)) w | None => w end.
End Client.
