(* ===== verification/ClientProps.v ===== *)
(** * Client and server

    What the client makes of a response, and a unary call from the client through the
    server and back. *)

From S2P Require Import Prelude Bytes Metadata F64 Json ErrorModel Errors Crypto ShmAllocator Ipc IpcProps IpcWriter IpcWriterProps IpcStream Arrow External ExternalProps ShmBatch ShmBatchProps Dispatch Envelope EnvelopeProps Stream Serve ServeProps ServeStream ServeConn Client.

(** ** Requests *)
Lemma insert_nonempty_lookup k v md k' :
  insert_nonempty k v md !! k' = if decide (k' = k ∧ default [] v ≠ []) then v else md !! k'.
Proof.
  unfold insert_nonempty. destruct v as [v|]; simpl.
  - case_bool_decide as Hv; [by rewrite decide_False by (by intros [])|].
    destruct (decide (k' = k)) as [->|Hn]; [by rewrite decide_True, lookup_insert_eq|].
    rewrite decide_False by (by intros []). by rewrite lookup_insert_ne by done.
  - by rewrite decide_False by (by intros []).
Qed.

(** The fields the server reads are the ones the client was asked for. *)
Lemma request_metadata_fields method rid p pv extra :
  let md := build_request_metadata method rid p pv extra in
  md !! RPC_METHOD_KEY = Some method ∧ md !! REQUEST_VERSION_KEY = Some REQUEST_VERSION ∧
  md !! REQUEST_ID_KEY = Some rid ∧
  (default [] p ≠ [] → md !! PROTOCOL_KEY = p) ∧
  (∀ k, k ∉ [RPC_METHOD_KEY; PROTOCOL_KEY; REQUEST_VERSION_KEY; REQUEST_ID_KEY; PROTOCOL_VERSION_KEY] →
        md !! k = default ∅ extra !! k).
Proof.
  cbv zeta. unfold build_request_metadata.
  assert (∀ k, k ≠ PROTOCOL_VERSION_KEY → ∀ md, insert_nonempty PROTOCOL_VERSION_KEY pv md !! k = md !! k) as Hv.
  { intros k Hk md. rewrite insert_nonempty_lookup. by rewrite decide_False by (by intros []). }
  assert (∀ k, k ≠ PROTOCOL_KEY → ∀ md, insert_nonempty PROTOCOL_KEY p md !! k = md !! k) as Hp.
  { intros k Hk md. rewrite insert_nonempty_lookup. by rewrite decide_False by (by intros []). }
  split_and!.
  - rewrite Hv by key_ne. rewrite !lookup_insert_ne by key_ne. rewrite Hp by key_ne. by rewrite lookup_insert_eq.
  - rewrite Hv by key_ne. rewrite lookup_insert_ne by key_ne. by rewrite lookup_insert_eq.
  - rewrite Hv by key_ne. by rewrite lookup_insert_eq.
  - intros Hne. rewrite Hv by key_ne. rewrite !lookup_insert_ne by key_ne. rewrite insert_nonempty_lookup.
    by rewrite decide_True.
  - intros k Hk. rewrite !not_elem_of_cons in Hk. destruct Hk as (H1 & H2 & H3 & H4 & H5 & _).
    rewrite Hv by done. rewrite !lookup_insert_ne by done. rewrite Hp by done. by rewrite lookup_insert_ne by done.
Qed.

Section Client.
Context `{LS : ArrowShmLaws} `{JL : JsonLaws} `{!Aead, !Zstd, !UrlLib, !Env}.
Context {Store : Type} `{!Fetcher Store}.
Context (relax_schema_nullability : ArrowSchema → ArrowSchema).

Abbreviation cworld := (CWorld (Store:=Store)).
Abbreviation item := (RecordBatch * Metadata)%type.
Implicit Types (w : cworld) (c : RpcClient).

(** ** Reading a response *)

(** What the callback is told. *)
Definition told c (logs : list LogMessage) : list LogMessage :=
  if has_on_log c then (fun m => mkLogMessage (level m) (log_message m) (received_extras (extras m))) <$> logs else [].

Definition add_logs (l : list LogMessage) w : cworld :=
  mkCWorld (cw_in w) (cw_out w) (cw_shm w) (cw_store w) (cw_fetch_ms w) (cw_logs w ++ l).

Lemma at_items_step r b md items rest :
  at_items r ((b, md) :: items) rest →
  ∃ r', read_next r = Some (Ok (Some (b, md), r')) ∧ at_items r' items rest ∧
        (reader_size (sr_reader r') < reader_size (sr_reader r))%nat.
Proof.
  intros Ha. destruct (at_items_next _ _ _ _ _ Ha) as (r' & E & _ & Ha'). exists r'. split_and!; [done..|].
  by eapply read_next_progress.
Qed.

(** A log the client reads as a log. *)
Definition client_log_ok (m : LogMessage) : Prop := log_utf8 m ∧ level m ≠ Exception.

Lemma dispatch_log_told c m w :
  dispatch_log c (mkLogMessage (level m) (log_message m) (received_extras (extras m))) w = (Ok tt, add_logs (told c [m]) w).
Proof.
  unfold dispatch_log, told. destruct (has_on_log c); [done|]. unfold add_logs. simpl. rewrite app_nil_r. by destruct w.
Qed.

Lemma add_logs_app l l' w : add_logs l' (add_logs l w) = add_logs (l ++ l') w.
Proof. unfold add_logs. simpl. by rewrite app_assoc. Qed.

Lemma told_cons c m logs : told c [m] ++ told c logs = told c (m :: logs).
Proof. unfold told. by destruct (has_on_log c). Qed.

Lemma classify_log E sid rid m : num_rows E = 0 → client_log_ok m →
  classify E (build_log_metadata m sid rid) = KLog (mkLogMessage (level m) (log_message m) (received_extras (extras m))).
Proof. intros HE [[_ Hx] Hl]. by apply log_envelope_roundtrip. Qed.

(** The logs in front of an answer are passed to the callback. *)
Lemma response_loop_logs c keep sid rid E logs tail rest : ∀ fuel r w,
  num_rows E = 0 → Forall client_log_ok logs → at_items r (log_items sid rid E logs ++ tail) rest →
  (reader_size (sr_reader r) < fuel)%nat →
  ∃ fuel' r', at_items r' tail rest ∧ (reader_size (sr_reader r') < fuel')%nat ∧
    response_loop relax_schema_nullability fuel c keep None r w
    = response_loop relax_schema_nullability fuel' c keep None r' (add_logs (told c logs) w).
Proof.
  intros fuel r w HE Hl. revert fuel r w. induction Hl as [|m logs Hm Hl IH]; intros fuel r w Ha Hf.
  - exists fuel, r. split_and!; [done|done|]. unfold add_logs, told. destruct (has_on_log c); simpl; rewrite app_nil_r; by destruct w.
  - destruct (at_items_step _ _ _ _ _ Ha) as (r1 & E1 & Ha1 & Hs). destruct fuel as [|fuel]; [lia|].
    destruct (IH fuel r1 (add_logs (told c [m]) w)) as (f2 & r2 & Ha2 & Hs2 & E2); [done|lia|].
    exists f2, r2. split_and!; [done..|]. cbn [response_loop]. rewrite E1. rewrite classify_log by done.
    unfold mbind, ST_bind. rewrite dispatch_log_told. rewrite E2, add_logs_app, told_cons. done.
Qed.

(** A response of logs and one data batch, or of logs and an error. *)
Lemma read_response_data c keep sid rid E s logs b md l rest w :
  relax_nullability c = false → num_rows E = 0 → Forall client_log_ok logs →
  wire_stream s (log_items sid rid E logs ++ [(b, md)]) l → schema_readable s → zlen l ≤ u32_max →
  clean (cw_in w) → content (cw_in w) = l ++ rest → classify b md = KData →
  keep b md (add_logs (told c logs) w) = (Ok (b, md), add_logs (told c logs) w) →
  ∃ r, read_response relax_schema_nullability c keep w = (Ok (Some (b, md)), cset_in r (add_logs (told c logs) w)) ∧
       clean r ∧ content r = rest.
Proof.
  intros Hr HE Hl Hw Hs Hz Hc Hd Hk Hkeep. destruct (wire_stream_open _ _ _ _ _ Hw Hs Hz Hc Hd) as (sr & En & _ & Ha).
  unfold read_response, mbind, ST_bind, open_reader. rewrite En, Hr. cbn [relaxed].
  destruct (response_loop_logs c keep sid rid E logs [(b, md)] rest (S (reader_size (sr_reader sr))) sr w)
    as (f & r & Ha1 & Hf & ->); [done..|lia|].
  destruct (at_items_step _ _ _ _ _ Ha1) as (r1 & E1 & Ha2 & Hs1). destruct f as [|f]; [lia|]. cbn [response_loop].
  rewrite E1, Hk, Hkeep. destruct f as [|f]; [lia|]. cbn [response_loop].
  destruct (at_items_end _ _ Ha2) as (r2 & -> & Hc2 & _ & _ & Hd2). by exists (sr_reader r2).
Qed.

Lemma read_response_error c keep sid rid tb E s logs e l rest w :
  relax_nullability c = false → num_rows E = 0 → Forall client_log_ok logs → error_text tb e = true →
  wire_stream s (log_items sid rid E logs ++ [(E, build_error_metadata e sid rid tb)]) l → schema_readable s → zlen l ≤ u32_max →
  clean (cw_in w) → content (cw_in w) = l ++ rest →
  ∃ r, read_response relax_schema_nullability c keep w = (Err (received tb rid e), cset_in r (add_logs (told c logs) w)) ∧
       clean r ∧ content r = rest.
Proof.
  intros Hr HE Hl He Hw Hs Hz Hc Hd. destruct (wire_stream_open _ _ _ _ _ Hw Hs Hz Hc Hd) as (sr & En & _ & Ha).
  unfold read_response, mbind, ST_bind, open_reader. rewrite En, Hr. cbn [relaxed].
  edestruct (response_loop_logs c keep sid rid E logs [(E, build_error_metadata e sid rid tb)] rest (S (reader_size (sr_reader sr))) sr w)
    as (f & r & Ha1 & Hf & ->); [done..|lia|].
  destruct (at_items_step _ _ _ _ _ Ha1) as (r1 & E1 & Ha2 & Hs1). destruct f as [|f]; [lia|]. cbn [response_loop].
  rewrite E1, error_envelope_roundtrip by done. unfold drain_and_fail.
  destruct (drain_items _ _ _ Ha2) as (r2 & -> & Hc2 & _ & _ & Hd2). by exists (sr_reader r2).
Qed.

Lemma write_stream_ok b md w w' :
  metadata_utf8 md → write_stream b md w = (Ok tt, w') →
  ∃ l k, wire_stream (batch_schema b) [(b, md)] l ∧ w' = cset_out k w ∧ sent k = sent (cw_out w) ++ l.
Proof.
  intros Hu E. unfold write_stream in E.
  destruct (stream_writer_new (cw_out w) (batch_schema b)) as [[sw|?|] k] eqn:En; [|done..].
  assert (writing (sent (cw_out w)) (batch_schema b) [] sw) as Hw by (apply writing_new; by rewrite En).
  destruct (stream_writer_write sw b (Some md)) as [r sw1] eqn:Ew. destruct r as [[]|?|]; [|done..].
  eapply writing_write in Ew; [|exact Hw|apply fits_own|done].
  destruct (stream_writer_finish sw1) as [r sw2] eqn:Ef. injection E as -> <-.
  destruct (writing_finish _ _ _ _ _ Ew Ef) as (Hd & l & Hl & Hs). rewrite Hd. by exists l, (sw_writer sw2).
Qed.
End Client.

(** ** A unary call, there and back *)
Section EndToEnd.
Context `{LS : ArrowShmLaws} `{JL : JsonLaws} `{!Aead, !Zstd, !ZstdLaws, !UrlLib}.
Context {App St Store Conn CStore : Type} `{!ExternalStorage Store, !Fetcher Store, !StorageLaws (S:=Store)}.
Context `{!StreamState (App:=App) (St:=St), !Env, !Fetcher CStore}.
Context (relax_schema_nullability : ArrowSchema → ArrowSchema).

Abbreviation Uh := (UnaryHandler (App:=App) (Conn:=Conn)).
Abbreviation Sh := (StreamHandler (App:=App) (St:=St) (Conn:=Conn)).
Context (serve_reflection : RpcServer Uh Sh → Request → Conn → ST (World (App:=App) (Store:=Store)) unit).

(** What the caller gets for a handler's outcome. *)
Definition call_result (E : RecordBatch) (tb : option (list byte)) (rid : list byte)
    (o : res RpcError (option RecordBatch)) : res RpcError (RecordBatch * Metadata) :=
  match o with
  | Ok ob => Ok (default E ob, ∅)
  | Err e => Err (received tb rid e)
  | Panic => Panic
  end.

(** A client whose transport has no deadline running out and which asks for plain batches. *)
Definition plain_client (c : RpcClient) : Prop := relax_nullability c = false ∧ deadline_start c = Ok tt.

Lemma inline_metadata c p m rid md :
  inline_request (default ∅ md) → inline_request (request_metadata c p m rid md None).
Proof.
  intros [H1' H2']. unfold request_metadata. destruct (request_metadata_fields m rid p (c_protocol_version c) md) as (_ & _ & _ & _ & Hk).
  split; rewrite Hk; try done; rewrite !not_elem_of_cons; split_and!; try key_ne; apply not_elem_of_nil.
Qed.

Lemma classify_plain b : classify b ∅ = KData.
Proof. unfold classify. rewrite !lookup_empty. simpl. by destruct (num_rows b =? 0). Qed.

(** C2. A unary call over a connection: the server runs the handler registered
    under the method, on the batch the client passed, under the request id the client drew;
    and what the call returns is the handler's batch (an empty one for none), or the
    handler's error with its type, message, code, kind and details, after the client's log
    callback was told the handler's logs in order. Both ends stand at the next call. *)
Theorem unary_call_end_to_end c srv conn protocol method rid params md (cw cw1 : CWorld (Store:=CStore)) w w' req info request response rest more :
  plain_client c → cw_shm cw = None → server_utf8 srv → handlers_ok srv conn → external_config srv = None →
  inline_request (default ∅ md) → metadata_utf8 (request_metadata c protocol method rid md None) →
  schema_readable (batch_schema params) → schema_readable (result_schema info) →
  (* the client sent its request *)
  write_stream params (request_metadata c protocol method rid md None) cw = (Ok tt, cw1) →
  sent (cw_out cw1) = sent (cw_out cw) ++ request → zlen request ≤ u32_max →
  (* the server read it and answered *)
  clean (w_in w) → content (w_in w) = request ++ rest →
  dispatch srv params (request_metadata c protocol method rid md None) = Ok (ServeUnary req info) →
  _serve_one serve_reflection srv conn w = (Ok true, w') →
  sent (w_out w') = sent (w_out w) ++ response → zlen response ≤ u32_max →
  let o := unary_outcome info req conn (w_app w) in
  Forall client_log_ok o.1.2 → o.2 = None →
  (* the client reads the answer *)
  clean (cw_in cw) → content (cw_in cw) = response ++ more →
  Dispatch.method req = method ∧ batch req = params ∧ request_id req = rid ∧
  w_app w' = unary_app info req conn (w_app w) ∧ content (w_in w') = rest ∧
  ∃ E cw', empty_batch (result_schema info) = Ok E ∧
    call_unary_on relax_schema_nullability c protocol method rid params md cw
      = (call_result E (origin srv (Some req)) rid o.1.1, cw') ∧
    cw_logs cw' = cw_logs cw ++ told c o.1.2 ∧ clean (cw_in cw') ∧ content (cw_in cw') = more.
Proof.
  intros [Hrel Hdl] Hshm Hsrv Hh Hext Hin Hu Hsp Hsr Ew Hreq Hzr Hcw Hdw Hdis Es Hresp Hzs o Hlogs Href Hcc Hdc.
  set (rmd := request_metadata c protocol method rid md None) in *.
  destruct (write_stream_ok _ _ _ _ Hu Ew) as (l & k & Hl & Hk & Hs).
  assert (l = request) as ->.
  { rewrite Hk in Hreq. cbn in Hreq. rewrite Hs in Hreq. by apply app_inv_head in Hreq. }
  assert (call_on_wire srv (params, rmd, []) request) as Hcall.
  { exists (batch_schema params), [], request, []. cbn [fst snd]. split_and!; try done; [by apply inline_metadata| |by rewrite app_nil_r].
    intros act Hact. rewrite Hdis in Hact. by injection Hact as <-. }
  pose proof (serve_one_request serve_reflection srv conn _ _ rest w Hsrv Hh Hcall Hcw Hdw) as H1'.
  rewrite Es in H1'. destruct H1' as (_ & Hrest & _ & act & out & Hact & Hans & Hsent). cbn [fst snd] in *.
  rewrite Hdis in Hact. injection Hact as <-. assert (out = response) as -> by (rewrite Hresp in Hsent; by apply app_inv_head in Hsent).
  apply (dispatch_request _ _ _ _ req) in Hdis as Hfr; [|done]. apply from_read_batch_ok in Hfr as (Hrid & _ & Hm & _ & Hb).
  destruct (request_metadata_fields method rid protocol (c_protocol_version c) (shm_request_md None md)) as (F1 & _ & F3 & _ & _).
  change (build_request_metadata _ _ _ _ _) with rmd in F1, F3. rewrite F1 in Hm. rewrite F3 in Hrid, Hans. cbn [default from_option id] in Hm, Hrid, Hans.
  destruct Hans as (Happ & E & last & HE & Hlast & Hwire). split_and!; [done..|]. exists E.
  assert (num_rows E = 0) as HE0 by by apply empty_batch_spec in HE as [_ ?].
  pose proof (proj1 (Hh _ _ _ _ (w_app w) Hu) Hdis) as (_ & Htext & _). fold o in Hlast, Hwire, Htext.
  unfold unary_answer in Hlast. rewrite Href in Hlast.
  assert (cw_in cw1 = cw_in cw ∧ cw_logs cw1 = cw_logs cw ∧ cw_shm cw1 = None) as (Hi1 & Hl1 & Hs1) by (by rewrite Hk).
  rewrite <- Hi1 in Hcc, Hdc.
  unfold call_unary_on, mbind, ST_bind, lift, st_get. rewrite Hdl, Hshm. change (request_metadata _ _ _ _ _ _) with rmd. rewrite Ew.
  destruct (o.1.1) as [ob|e|] eqn:Eo; [| |done].
  - destruct Hlast as [->|(_ & [[? _]|[? _]])]; [|done..].
    edestruct (read_response_data relax_schema_nullability c shm_resolve_inbound) as (r & Er & Hcr & Hdr);
      [done|exact HE0|exact Hlogs|exact Hwire|done|done|exact Hcc|exact Hdc|apply classify_plain| |].
    { unfold shm_resolve_inbound. simpl. by rewrite Hs1. }
    rewrite Er. eexists. split_and!; [done|done|simpl; by rewrite Hl1|done|done].
  - rewrite Hlast in Hwire. edestruct (read_response_error relax_schema_nullability c shm_resolve_inbound) as (r & Er & Hcr & Hdr);
      [done|exact HE0|exact Hlogs|exact Htext|exact Hwire|done|done|exact Hcc|exact Hdc|].
    rewrite Er. eexists. split_and!; [done|done|simpl; by rewrite Hl1|done|done].
Qed.
End EndToEnd.
