(* ===== verification/SessionProps.v ===== *)
(** * Lockstep sessions, from client to server and back

    What the client's [StreamSession] makes of the server's output stream, call by
    call, and a whole streaming call over a connection. *)

From S2P Require Import Prelude Bytes Metadata F64 Json ErrorModel Errors Crypto ShmAllocator Ipc IpcProps IpcWriter IpcWriterProps IpcStream Arrow External ExternalProps ShmBatch ShmBatchProps Dispatch Envelope EnvelopeProps Stream Serve ServeProps ServeStream ServeConn Client ClientProps.

Section Session.
Context `{LS : ArrowShmLaws} `{JL : JsonLaws} `{!Aead, !Zstd, !UrlLib, !Env}.
Context {Store : Type} `{!Fetcher Store}.
Context (relax_schema_nullability : ArrowSchema → ArrowSchema).
Context (c : RpcClient) (Hplain : plain_client c).

Abbreviation session := (StreamSession (Store:=Store)).
Abbreviation item := (RecordBatch * Metadata)%type.
Abbreviation receive := (receive relax_schema_nullability c).
Implicit Types (s : session).

(** The session has sent [its] after [base]; it stands before [items] of the output
    stream and [rest]. *)
Definition writer_at s (base : list byte) (sin : ArrowSchema) (its : list item) : Prop :=
  match in_writer s with
  | Some sw => writing base sin its sw
  | None => writer_raw s = true ∧ its = [] ∧ sent (cw_out (ss_world s)) = base
  end.

Definition reader_at s (items : list item) (rest : list byte) : Prop :=
  match out_reader s with
  | Some rdr => at_items rdr items rest
  | None => reader_raw s = true ∧ ∃ so l, wire_stream so items l ∧ schema_readable so ∧ zlen l ≤ u32_max ∧
      clean (cw_in (ss_world s)) ∧ content (cw_in (ss_world s)) = l ++ rest
  end.

Definition reader_end s (rest : list byte) : Prop := ∃ rdr, out_reader s = Some rdr ∧ at_end rdr rest.

(** A session a call may be made on. *)
Definition live s : Prop := cancelled s = false ∧ closed s = false ∧ ss_finished s = false ∧ cw_shm (ss_world s) = None.

(** What receiving leaves alone. *)
Definition received_on s (logs : list LogMessage) s' : Prop :=
  in_writer s' = in_writer s ∧ writer_raw s' = writer_raw s ∧ cw_out (ss_world s') = cw_out (ss_world s) ∧
  cancelled s' = cancelled s ∧ closed s' = closed s ∧ cw_shm (ss_world s') = cw_shm (ss_world s) ∧
  cw_logs (ss_world s') = cw_logs (ss_world s) ++ told c logs.

(** ** Sending *)
Lemma send_input_ok s base sin its what b md s' :
  writer_at s base sin its → batch_schema b = sin → opt_utf8 md →
  send_input c what (Ok b) sin md s = (Ok true, s') →
  writer_at s' base sin (its ++ [(b, default ∅ md)]) ∧
  cancelled s' = false ∧ closed s' = false ∧ ss_finished s' = false ∧ cw_shm (ss_world s') = cw_shm (ss_world s) ∧
  out_reader s' = out_reader s ∧ reader_raw s' = reader_raw s ∧ cw_in (ss_world s') = cw_in (ss_world s) ∧
  cw_logs (ss_world s') = cw_logs (ss_world s).
Proof.
  intros Hw Hb Hu E. unfold send_input in E.
  apply st_bind_Ok in E as (s0 & s1 & E0 & E). injection E0 as -> <-.
  destruct (cancelled s0) eqn:Hca; [done|]. destruct (closed s0) eqn:Hcl; [done|]. cbn [orb] in E.
  destruct (ss_finished s0) eqn:Hfi; [by injection E|].
  apply st_bind_Ok in E as ([] & s1 & E1 & E). apply lift_Ok in E1 as [_ ->].
  apply st_bind_Ok in E as ([] & s1 & E1 & E).
  assert ((∃ sw, in_writer s1 = Some sw ∧ writing base sin its sw) ∧
    cancelled s1 = false ∧ closed s1 = false ∧ ss_finished s1 = false ∧ cw_shm (ss_world s1) = cw_shm (ss_world s0) ∧
    out_reader s1 = out_reader s0 ∧ reader_raw s1 = reader_raw s0 ∧ cw_in (ss_world s1) = cw_in (ss_world s0) ∧
    cw_logs (ss_world s1) = cw_logs (ss_world s0)) as ((sw & Hsw & Hwr) & F1 & F2 & F3 & F4 & R1 & R2 & R3 & R4).
  { unfold ensure_input_writer, writer_at in *. destruct (in_writer s0) as [sw|] eqn:Ei.
    - injection E1 as <-. split_and!; [by exists sw|done..].
    - destruct Hw as (Hraw & -> & <-). rewrite Hraw in E1. destruct (stream_writer_new _ sin) as [[sw|?|] k] eqn:En; [|done..].
      injection E1 as <-. split_and!; [|done..]. exists sw. split; [done|]. apply writing_new. by rewrite En. }
  apply st_bind_Ok in E as (b0 & s2 & E2 & E). apply lift_Ok in E2 as [[= <-] ->].
  apply st_bind_Ok in E as ([] & s2 & E2 & E). injection E as <-. unfold write_input in E2. rewrite Hsw in E2.
  destruct (stream_writer_write sw b md) as [r sw1] eqn:Ew. injection E2 as Er <-. apply bind_Ok in Er as ([] & -> & _).
  eapply writing_write in Ew; [|exact Hwr|rewrite <- Hb; apply fits_own|done]. by split_and!.
Qed.

(** ** Receiving *)
Lemma next_data_logs sid rid E logs tail rest : ∀ fuel rdr s,
  num_rows E = 0 → Forall client_log_ok logs → at_items rdr (log_items sid rid E logs ++ tail) rest →
  (reader_size (sr_reader rdr) < fuel)%nat →
  ∃ fuel' rdr' s', at_items rdr' tail rest ∧ (reader_size (sr_reader rdr') < fuel')%nat ∧ received_on s logs s' ∧
    ss_finished s' = ss_finished s ∧ reader_raw s' = reader_raw s ∧
    next_data_loop relax_schema_nullability fuel c rdr s = next_data_loop relax_schema_nullability fuel' c rdr' s'.
Proof.
  intros fuel rdr s HE Hl. revert fuel rdr s. induction Hl as [|m logs Hm Hl IH]; intros fuel rdr s Ha Hf.
  - exists fuel, rdr, s. split_and!; try done. unfold received_on, told.
    split_and!; try done. destruct (has_on_log c); by rewrite app_nil_r.
  - destruct (at_items_step _ _ _ _ _ Ha) as (r1 & E1 & Ha1 & Hs). destruct fuel as [|fuel]; [lia|].
    set (s1 := sset_world (add_logs (told c [m]) (ss_world s)) (sset_reader (reader_raw s) (Some r1) s)).
    destruct (IH fuel r1 s1) as (f2 & r2 & s2 & Ha2 & Hs2 & Hrec & Hfin & Hraw & E2); [done|lia|].
    exists f2, r2, s2. split_and!; [done|done| |done|done|].
    + destruct Hrec as (? & ? & ? & ? & ? & ? & Hlg). unfold received_on. split_and!; try done.
      rewrite Hlg. unfold s1. cbn. by rewrite <- app_assoc, told_cons.
    + cbn [next_data_loop]. rewrite E1. rewrite classify_log by done.
      unfold mbind, ST_bind, on_cworld. cbn [ss_world]. rewrite dispatch_log_told. exact E2.
Qed.

Lemma told_app l1 l2 : told c (l1 ++ l2) = told c l1 ++ told c l2.
Proof. unfold told. destruct (has_on_log c); [by rewrite fmap_app|done]. Qed.

Lemma received_nil s s' :
  in_writer s' = in_writer s → writer_raw s' = writer_raw s → ss_world s' = ss_world s →
  cancelled s' = cancelled s → closed s' = closed s → received_on s [] s'.
Proof.
  intros H1' H2' H3' H4' H5'. unfold received_on, told. rewrite H3'. split_and!; try done.
  destruct (has_on_log c); by rewrite app_nil_r.
Qed.

Lemma received_trans s1 logs1 s2 logs2 s3 :
  received_on s1 logs1 s2 → received_on s2 logs2 s3 → received_on s1 (logs1 ++ logs2) s3.
Proof.
  intros (A1 & A2 & A3 & A4 & A5 & A6 & A7) (B1 & B2 & B3 & B4 & B5 & B6 & B7).
  unfold received_on. split_and!; try congruence. by rewrite B7, A7, <- app_assoc, told_app.
Qed.

(** The output reader is opened and the logs are read. *)
Lemma receive_logs s sid rid E logs tail rest :
  live s → reader_at s (log_items sid rid E logs ++ tail) rest → num_rows E = 0 → Forall client_log_ok logs →
  ∃ fuel rdr s1, receive s = next_data_loop relax_schema_nullability fuel c rdr s1 ∧ at_items rdr tail rest ∧
    (reader_size (sr_reader rdr) < fuel)%nat ∧ received_on s logs s1 ∧ ss_finished s1 = false.
Proof.
  intros (H1' & H2' & H3' & H4') Hr HE Hl. destruct Hplain as [Hrel _].
  assert (∃ rdr s1, ensure_output_reader relax_schema_nullability c s = (Ok tt, s1) ∧ out_reader s1 = Some rdr ∧
    at_items rdr (log_items sid rid E logs ++ tail) rest ∧ received_on s [] s1 ∧ ss_finished s1 = false) as (rdr & s1 & E1 & Ho & Ha & Hrec & Hf).
  { unfold reader_at, ensure_output_reader in *. destruct (out_reader s) as [rdr|] eqn:Eo.
    - exists rdr, s. split_and!; try done. by apply received_nil.
    - destruct Hr as (-> & so & l & Hw & Hsr & Hz & Hc & Hd). destruct (wire_stream_open _ _ _ _ _ Hw Hsr Hz Hc Hd) as (sr & En & _ & Ha).
      rewrite En, Hrel. cbn [relaxed]. eexists sr, _. split_and!; try done. by apply received_nil. }
  destruct (next_data_logs sid rid E logs tail rest (S (reader_size (sr_reader rdr))) rdr s1 HE Hl Ha ltac:(lia))
    as (f & r2 & s2 & Ha2 & Hs2 & Hrec2 & Hf2 & _ & E2).
  exists f, r2, s2. split_and!; [|done|done|by apply (received_trans _ [] s1)|by rewrite Hf2].
  unfold Client.receive, mbind, ST_bind, read_next_data. by rewrite E1, Ho.
Qed.

(** An answer of one batch, of an error, or the end of the stream. *)
Lemma receive_data s sid rid E logs b md tail rest :
  live s → reader_at s (log_items sid rid E logs ++ (b, md) :: tail) rest → num_rows E = 0 → Forall client_log_ok logs →
  classify b md = KData →
  ∃ s', receive s = (Ok (Some (b, md)), s') ∧ live s' ∧ reader_at s' tail rest ∧ received_on s logs s'.
Proof.
  intros Hlive Hr HE Hl Hk. destruct (receive_logs s sid rid E logs _ rest Hlive Hr HE Hl) as (f & rdr & s1 & -> & Ha & Hf & Hrec & Hfin).
  destruct (at_items_step _ _ _ _ _ Ha) as (r1 & E1 & Ha1 & Hs). destruct f as [|f]; [lia|]. cbn [next_data_loop].
  rewrite E1, Hk. unfold mbind, ST_bind, on_cworld, shm_resolve_inbound. cbn [ss_world sset_reader].
  destruct Hlive as (L1 & L2 & L3 & L4), Hrec as (A1 & A2 & A3 & A4 & A5 & A6 & A7). rewrite A6, L4.
  eexists. split; [done|]. unfold live, reader_at, received_on. cbn. rewrite A4, A5, A6. split_and!; try done.
Qed.

Lemma receive_error s sid rid tb E logs e rest :
  live s → reader_at s (log_items sid rid E logs ++ [(E, build_error_metadata e sid rid tb)]) rest → num_rows E = 0 →
  Forall client_log_ok logs → error_text tb e = true →
  ∃ s', receive s = (Err (received tb rid e), s') ∧ reader_end s' rest ∧ received_on s logs s' ∧ ss_finished s' = true.
Proof.
  intros Hlive Hr HE Hl He. destruct (receive_logs s sid rid E logs _ rest Hlive Hr HE Hl) as (f & rdr & s1 & -> & Ha & Hf & Hrec & Hfin).
  destruct (at_items_step _ _ _ _ _ Ha) as (r1 & E1 & Ha1 & Hs). destruct f as [|f]; [lia|]. cbn [next_data_loop].
  rewrite E1, error_envelope_roundtrip by done. unfold finish_and_fail.
  destruct (drain_items _ _ _ Ha1) as (r2 & -> & He2). eexists. split; [done|]. split_and!; [by exists r2|done..].
Qed.

Lemma receive_end s sid rid E logs rest :
  live s → reader_at s (log_items sid rid E logs) rest → num_rows E = 0 → Forall client_log_ok logs →
  ∃ s', receive s = (Ok None, s') ∧ reader_end s' rest ∧ received_on s logs s' ∧ ss_finished s' = true.
Proof.
  intros Hlive Hr HE Hl. rewrite <- (app_nil_r (log_items _ _ _ _)) in Hr.
  destruct (receive_logs s sid rid E logs _ rest Hlive Hr HE Hl) as (f & rdr & s1 & -> & Ha & Hf & Hrec & Hfin).
  destruct (at_items_end _ _ Ha) as (r1 & E1 & He). destruct f as [|f]; [lia|]. cbn [next_data_loop].
  rewrite E1. pose proof He as (_ & _ & -> & _). eexists. split; [done|]. split_and!; [by exists r1|done..].
Qed.

(** ** Whole runs *)

(** Exchanges whose inputs all went out, and what each returned. *)
Inductive run (what : list byte) (sin : ArrowSchema) : session → list item → list (res RpcError (option item)) → session → Prop :=
| run_nil s : run what sin s [] [] s
| run_cons s b md inputs s1 r s2 results s3 :
    send_input c what (Ok b) sin (Some md) s = (Ok true, s1) → receive s1 = (r, s2) →
    run what sin s2 inputs results s3 → run what sin s ((b, md) :: inputs) (r :: results) s3.

(** Receiving never touches the way out, whatever arrives. *)
Definition same_writer s s' : Prop :=
  in_writer s' = in_writer s ∧ writer_raw s' = writer_raw s ∧ cw_out (ss_world s') = cw_out (ss_world s) ∧
  cancelled s' = cancelled s ∧ closed s' = closed s.

#[local] Instance same_writer_preorder : PreOrder same_writer.
Proof. split; [done|]. intros s1 s2 s3 (?&?&?&?&?) (?&?&?&?&?). split_and!; congruence. Qed.

Definition keeps_out {A} (m : ST (CWorld (Store:=Store)) A) : Prop := ∀ w, cw_out (m w).2 = cw_out w.

Lemma keeps_bind {A B} (m : ST _ A) (f : A → ST _ B) : keeps_out m → (∀ a, keeps_out (f a)) → keeps_out (m ≫= f).
Proof.
  intros Hm Hf w. unfold mbind, ST_bind. pose proof (Hm w) as H1'. destruct (m w) as [[a|e|] w1]; simpl in *; [|done..].
  by rewrite Hf.
Qed.

Lemma dispatch_log_out m : keeps_out (dispatch_log c m).
Proof. intros w. unfold dispatch_log. by destruct (has_on_log c). Qed.

Lemma payload_loop_out fuel data rdr : keeps_out (payload_loop fuel c data rdr).
Proof.
  revert data rdr. induction fuel as [|fuel IH]; intros data rdr; [done|]. cbn [payload_loop].
  destruct (read_next rdr) as [[[[[b md]|] r1]|e|]|]; try done. destruct (classify b md); try done.
  - by destruct data.
  - apply keeps_bind; [apply dispatch_log_out|]. intros. apply IH.
Qed.

Lemma resolve_with_out md : keeps_out (resolve_with relax_schema_nullability c md).
Proof.
  unfold resolve_with. destruct (external_resolver c) as [cfg|]; [|done]. unfold resolve_pointer.
  repeat (apply keeps_bind; [first [done|apply payload_loop_out]|intros ?]). by case_match.
Qed.

Lemma shm_resolve_out b md : keeps_out (shm_resolve_inbound b md).
Proof.
  intros w. unfold shm_resolve_inbound. destruct (cw_shm w) as [seg|]; [|done].
  destruct (resolve_shm_batch b md (Some seg)) as [[seg' [e|r]]|e|]; try done.
  destruct (release_offset r), seg'; try done. by destruct (free_ignored _ _).
Qed.

Lemma on_cworld_same {A} (m : ST _ A) s : keeps_out m → same_writer s (on_cworld m s).2.
Proof. intros Hm. unfold on_cworld. specialize (Hm (ss_world s)). destruct (m (ss_world s)). by split_and!. Qed.

Lemma finish_and_fail_same rdr e s : same_writer s (finish_and_fail rdr e s).2.
Proof. unfold finish_and_fail. by destruct (drain rdr) as [[?|?|]|]. Qed.

Lemma next_data_same fuel rdr s : same_writer s (next_data_loop relax_schema_nullability fuel c rdr s).2.
Proof.
  revert rdr s. induction fuel as [|fuel IH]; intros rdr s; [done|]. cbn [next_data_loop].
  destruct (read_next rdr) as [[[[[b md]|] r1]|e|]|]; try done.
  set (s1 := sset_reader (reader_raw s) (Some r1) s). assert (same_writer s s1) as Hs by done.
  destruct (classify b md) as [| |m|e].
  - pose proof (on_cworld_same _ s1 (shm_resolve_out b md)) as H1'. unfold mbind, ST_bind.
    destruct (on_cworld _ s1) as [[p|e|] s2]; done.
  - pose proof (on_cworld_same _ s1 (resolve_with_out md)) as H1'. destruct (on_cworld _ s1) as [[p|e|] s2]; try done.
    etrans; [exact H1'|apply finish_and_fail_same].
  - pose proof (on_cworld_same _ s1 (dispatch_log_out m)) as H1'. unfold mbind, ST_bind.
    destruct (on_cworld _ s1) as [[p|e|] s2]; try done. etrans; [exact H1'|apply IH].
  - apply (finish_and_fail_same _ _ s1).
Qed.

Lemma output_reader_same s : same_writer s (ensure_output_reader relax_schema_nullability c s).2.
Proof.
  unfold ensure_output_reader. destruct (out_reader s); [done|]. destruct (reader_raw s); [|done].
  by destruct (stream_reader_new _).
Qed.

Lemma receive_same s : same_writer s (receive s).2.
Proof.
  unfold Client.receive, mbind, ST_bind. pose proof (output_reader_same s) as H1'.
  destruct (ensure_output_reader _ c s) as [[[]|e|] s1]; try done. simpl in H1'. unfold read_next_data.
  destruct (out_reader s1); [|done]. etrans; [exact H1'|apply next_data_same].
Qed.

(** What a run has sent. *)
Lemma run_sent what sin s inputs results s' : run what sin s inputs results s' →
  ∀ base its, Forall (fun i => batch_schema i.1 = sin ∧ metadata_utf8 i.2) inputs →
  cancelled s = false → closed s = false → writer_at s base sin its →
  cancelled s' = false ∧ closed s' = false ∧ writer_at s' base sin (its ++ inputs).
Proof.
  induction 1 as [s|s b md inputs s1 r s2 results s3 Es Er Hrun IH]; intros base its Hin Hca Hcl Hw.
  { by rewrite app_nil_r. }
  apply list.Forall_cons in Hin as [[Hb Hu] Hin]. cbn [fst snd] in Hb, Hu.
  destruct (send_input_ok s base sin its what b (Some md) s1 Hw Hb Hu Es) as (Hw1 & F1 & F2 & _).
  pose proof (receive_same s1) as Hsame. rewrite Er in Hsame. destruct Hsame as (S1 & S2 & S3 & S4 & S5). cbn [snd] in *.
  destruct (IH base (its ++ [(b, md)])) as (? & ? & Hw3); [done|congruence..| |].
  - unfold writer_at in *. by rewrite S1, S2, S3.
  - split_and!; [done..|]. by rewrite <- app_assoc in Hw3.
Qed.

Lemma drop_sent s base sin its sw sw' :
  cancelled s = false → closed s = false → writer_at s base sin its →
  in_writer s = Some sw → stream_writer_finish sw = (Ok tt, sw') →
  ∃ l, wire_stream sin its l ∧ sent (cw_out (session_drop relax_schema_nullability c s)) = base ++ l.
Proof.
  intros Hca Hcl Hw Hsw Hfin. destruct Hplain as [_ Hdl]. unfold writer_at in Hw. rewrite Hsw in Hw.
  destruct (writing_finish _ _ _ _ _ Hw Hfin) as (Hd & l & Hl & Hs). exists l. split; [done|].
  unfold session_drop, close, mbind, ST_bind, st_get, st_set, lift, id. rewrite Hcl, Hca, Hdl. unfold finish_input.
  cbn [in_writer sset_closed]. rewrite Hsw, Hfin. cbn [fst snd]. rewrite Hd.
  set (s1 := sset_world _ (sset_writer _ None (sset_closed s))).
  assert (same_writer s1 (drain_output relax_schema_nullability c s1).2) as (S1 & _ & S3 & _).
  { unfold drain_output. pose proof (output_reader_same s1) as H1'.
    destruct (ensure_output_reader _ c s1) as [[[]|e|] s2]; try done. simpl in H1'.
    destruct (out_reader s2) as [rdr|]; [|done]. by destruct (drain rdr) as [[?|?|]|]. }
  destruct (drain_output _ c s1) as [r s2]. cbn [snd] in *. rewrite S1. cbn [in_writer s1].
  assert (cw_out (ss_world s2) = sw_writer sw') as Hout by exact S3. destruct (out_reader s2); cbn; by rewrite Hout.
Qed.

(** Dropping a session whose input can be finished leaves the reader behind the call. *)
Lemma drop_reader s rest sw sw' :
  cancelled s = false → closed s = false → reader_at s [] rest ∨ reader_end s rest →
  in_writer s = Some sw → stream_writer_finish sw = (Ok tt, sw') →
  let w := session_drop relax_schema_nullability c s in
  clean (cw_in w) ∧ content (cw_in w) = rest ∧ cw_logs w = cw_logs (ss_world s).
Proof.
  intros Hca Hcl Hr Hsw Hfin. destruct Hplain as [Hrel Hdl]. unfold session_drop, close, mbind, ST_bind, st_get, st_set, lift, id. rewrite Hcl, Hca, Hdl. unfold finish_input.
  cbn [in_writer sset_closed]. rewrite Hsw, Hfin. cbn [fst snd].
  set (s1 := sset_world _ (sset_writer _ None (sset_closed s))).
  assert (∃ rdr s2, drain_output relax_schema_nullability c s1 = (Ok tt, s2) ∧ out_reader s2 = Some rdr ∧ at_end rdr rest ∧
     ss_world s2 = ss_world s1 ∧ in_writer s2 = None) as (rdr & s2 & -> & Ho & He & Hw2 & Hi2).
  { unfold drain_output, ensure_output_reader.
    assert (reader_raw s1 = reader_raw s ∧ cw_in (ss_world s1) = cw_in (ss_world s)) as [Hraw Hin] by done.
    change (out_reader s1) with (out_reader s). destruct Hr as [Hr|(rdr & Ho & He)].
    - unfold reader_at in Hr. destruct (out_reader s) as [rdr|] eqn:Eo.
      + change (out_reader s1) with (out_reader s). rewrite Eo. destruct (drain_items _ _ _ Hr) as (r2 & -> & He). eexists r2, _. split_and!; done.
      + destruct Hr as (Hr & so & lo & Hwo & Hsr & Hz & Hc & Hdd). rewrite Hraw, Hr, Hin.
        destruct (wire_stream_open _ _ _ _ _ Hwo Hsr Hz Hc Hdd) as (sr & -> & _ & Ha). rewrite Hrel. cbn [relaxed out_reader sset_reader].
        destruct (drain_items _ _ _ Ha) as (r2 & -> & He). eexists r2, _. split_and!; done.
    - rewrite Ho. change (out_reader s1) with (out_reader s). rewrite Ho, (at_end_drain _ _ He). eexists rdr, _. split_and!; done. }
  cbn [snd]. rewrite Ho, Hi2, Hw2. destruct He as (Hc & _ & _ & Hct). cbn. by split_and!.
Qed.

(** ** The server's turns, as the client sees them *)
Section Turns.
Context {App St : Type} `{!StreamState (App:=App) (St:=St)}.
Context (sid rid : list byte) (tb : option (list byte)) (result : StreamResult St) (E : RecordBatch).
Implicit Types (st : StreamStateKind St).

(** Each turn that goes on answers with one batch, behind its logs; the last may be an
    error, or the end, instead. Inputs, results, logs, output items, last state. *)
Inductive exchanges st (app : App) : list item → list (res RpcError (option item)) → list LogMessage → list item → App → Prop :=
| ex_nil : exchanges st app [] [] [] [] app
| ex_data i inputs b md logs st' app' results logs' out final :
    reference_turn sid rid tb result E st app i = (log_items sid rid E logs ++ [(b, md)], true, (st', app')) →
    classify b md = KData → Forall client_log_ok logs → exchanges st' app' inputs results logs' out final →
    exchanges st app (i :: inputs) (Ok (Some (b, md)) :: results) (logs ++ logs') (log_items sid rid E logs ++ (b, md) :: out) final
| ex_last i b md logs st' app' :
    reference_turn sid rid tb result E st app i = (log_items sid rid E logs ++ [(b, md)], false, (st', app')) →
    classify b md = KData → Forall client_log_ok logs →
    exchanges st app [i] [Ok (Some (b, md))] logs (log_items sid rid E logs ++ [(b, md)]) app'
| ex_error i e logs st' app' :
    reference_turn sid rid tb result E st app i = (log_items sid rid E logs ++ [error_item sid rid tb E e], false, (st', app')) →
    error_text tb e = true → Forall client_log_ok logs →
    exchanges st app [i] [Err (received tb rid e)] logs (log_items sid rid E logs ++ [error_item sid rid tb E e]) app'
| ex_finish i logs st' app' :
    reference_turn sid rid tb result E st app i = (log_items sid rid E logs, false, (st', app')) → Forall client_log_ok logs →
    exchanges st app [i] [Ok None] logs (log_items sid rid E logs) app'.

Lemma exchanges_reference st app inputs results logs out final :
  exchanges st app inputs results logs out final → reference_stream sid rid tb result E st app inputs = (out, final).
Proof.
  induction 1 as [|st app i inputs b md logs st' app' results logs' out final E1 Hk Hl Hx IH|? ? ? ? ? ? ? ? E1|? ? ? ? ? ? ? E1|? ? ? ? ? ? E1];
    cbn [reference_stream]; [done|rewrite E1; rewrite IH|rewrite E1..]; try done. by rewrite <- app_assoc.
Qed.

Lemma log_items_app l1 l2 : log_items sid rid E l1 ++ log_items sid rid E l2 = log_items sid rid E (l1 ++ l2).
Proof. unfold log_items. by rewrite fmap_app. Qed.

Lemma receive_live s logs s' : live s → received_on s logs s' → cancelled s' = false ∧ closed s' = false.
Proof. intros (? & ? & _) (_ & _ & _ & -> & -> & _). done. Qed.

(** The calls return what the turns answered, in order; [pend] are logs still unread. *)
Lemma run_ok what sin s inputs results s' : run what sin s inputs results s' →
  ∀ st app base its pend expected logs out final rest,
  num_rows E = 0 → exchanges st app inputs expected logs out final →
  Forall (fun i => batch_schema i.1 = sin ∧ metadata_utf8 i.2) inputs → Forall client_log_ok pend →
  live s → writer_at s base sin its → reader_at s (log_items sid rid E pend ++ out) rest → (inputs = [] → pend = []) →
  results = expected ∧ cancelled s' = false ∧ closed s' = false ∧ writer_at s' base sin (its ++ inputs) ∧
  (reader_at s' [] rest ∨ reader_end s' rest) ∧ cw_logs (ss_world s') = cw_logs (ss_world s) ++ told c (pend ++ logs).
Proof.
  induction 1 as [s|s b md inputs s1 r s2 results s3 Es Er Hrun IH];
    intros st app base its pend expected logs out final rest HE Hx Hin Hp Hlive Hw Hr Hnil.
  { inversion Hx; subst. rewrite (Hnil eq_refl) in *. destruct Hlive as (? & ? & ? & ?).
    split_and!; try done; [by rewrite app_nil_r|by left|]. unfold told. destruct (has_on_log c); by rewrite app_nil_r. }
  apply list.Forall_cons in Hin as [[Hb Hu] Hin]. cbn [fst snd] in Hb, Hu.
  destruct (send_input_ok s base sin its what b (Some md) s1 Hw Hb Hu Es) as (Hw1 & F1 & F2 & F3 & F4 & R1 & R2 & R3 & R4).
  cbn [default from_option] in Hw1. assert (live s1) as Hl1 by (destruct Hlive as (_ & _ & _ & Hshm); split_and!; congruence).
  assert (reader_at s1 (log_items sid rid E pend ++ out) rest) as Hr1 by (unfold reader_at in *; by rewrite R1, R2, R3).
  assert (∀ logs s4, received_on s1 logs s4 → cancelled s4 = false ∧ closed s4 = false ∧
    writer_at s4 base sin (its ++ [(b, md)]) ∧ cw_logs (ss_world s4) = cw_logs (ss_world s) ++ told c logs) as Hkeep.
  { intros lg s4 Hrec. destruct (receive_live _ _ _ Hl1 Hrec) as [? ?]. destruct Hrec as (A1 & A2 & A3 & A4 & A5 & A6 & A7).
    split_and!; try done; [unfold writer_at in *; by rewrite A1, A2, A3|by rewrite A7, R4]. }
  inversion Hx as [|i ? b0 md0 lg st' app' res' lg' out' fin' Ht Hk Hlg Hx'|i b0 md0 lg st' app' Ht Hk Hlg
    |i e lg st' app' Ht He Hlg|i lg st' app' Ht Hlg]; subst.
  - rewrite app_assoc, log_items_app in Hr1.
    destruct (receive_data s1 sid rid E _ b0 md0 out' rest Hl1 Hr1 HE ltac:(by apply Forall_app) Hk) as (s4 & E4 & Hl4 & Hr4 & Hrec).
    rewrite E4 in Er. injection Er as <- <-. destruct (Hkeep _ _ Hrec) as (_ & _ & Hw4 & Hlog4).
    destruct (IH st' app' base (its ++ [(b, md)]) [] res' lg' out' final rest HE Hx' Hin ltac:(by constructor) Hl4 Hw4 Hr4 ltac:(done))
      as (-> & ? & ? & Hw5 & ? & Hlog5).
    split_and!; try done; [by rewrite <- app_assoc in Hw5|]. rewrite Hlog5, Hlog4.
    by rewrite <- app_assoc, <- told_app, <- app_assoc.
  - inversion Hrun; subst. rewrite app_assoc, log_items_app in Hr1.
    destruct (receive_data s1 sid rid E _ b0 md0 [] rest Hl1 Hr1 HE ltac:(by apply Forall_app) Hk) as (s4 & E4 & Hl4 & Hr4 & Hrec).
    rewrite E4 in Er. injection Er as <- <-. destruct (Hkeep _ _ Hrec) as (? & ? & ? & ?). split_and!; try done. by left.
  - inversion Hrun; subst. rewrite app_assoc, log_items_app in Hr1.
    destruct (receive_error s1 sid rid tb E _ e rest Hl1 Hr1 HE ltac:(by apply Forall_app) He) as (s4 & E4 & He4 & Hrec & _).
    rewrite E4 in Er. injection Er as <- <-. destruct (Hkeep _ _ Hrec) as (? & ? & ? & ?). split_and!; try done. by right.
  - inversion Hrun; subst. rewrite log_items_app in Hr1.
    destruct (receive_end s1 sid rid E _ rest Hl1 Hr1 HE ltac:(by apply Forall_app)) as (s4 & E4 & He4 & Hrec & _).
    rewrite E4 in Er. injection Er as <- <-. destruct (Hkeep _ _ Hrec) as (? & ? & ? & ?). split_and!; try done. by right.
Qed.
End Turns.
End Session.

(** ** A streaming call, there and back *)
Section EndToEnd.
Context `{LS : ArrowShmLaws} `{JL : JsonLaws} `{!Aead, !Zstd, !ZstdLaws, !UrlLib}.
Context {App St Store Conn CStore : Type} `{!ExternalStorage Store, !Fetcher Store, !StorageLaws (S:=Store)}.
Context `{!StreamState (App:=App) (St:=St), !Env, !Fetcher CStore}.
Context (relax_schema_nullability : ArrowSchema → ArrowSchema).

Abbreviation Uh := (UnaryHandler (App:=App) (Conn:=Conn)).
Abbreviation Sh := (StreamHandler (App:=App) (St:=St) (Conn:=Conn)).
Context (serve_reflection : RpcServer Uh Sh → Request → Conn → ST (World (App:=App) (Store:=Store)) unit).
Abbreviation cworld := (CWorld (Store:=CStore)).

Lemma open_stream_inv c method rid params md hh kind (cw cw1 : cworld) s0 :
  deadline_start c = Ok tt → cw_shm cw = None →
  open_stream relax_schema_nullability c method rid params md hh kind cw = (Ok s0, cw1) →
  ∃ w1 h, write_stream params (request_metadata c (c_protocol c) method rid md None) cw = (Ok tt, w1) ∧
    (if hh then
       h ← read_substream relax_schema_nullability c;
       match h with Some (b, m) => p ← shm_resolve_inbound b m; mret (Some p) | None => mret None end
     else mret None) w1 = (Ok h, cw1) ∧
    s0 = mkSession cw1 true None true None h kind false false false.
Proof.
  intros Hdl Hshm E. unfold open_stream in E.
  match type of E with context [let '(_, _) := ?m cw in _] => destruct (m cw) as [r w2] eqn:E1 end.
  destruct r as [h|e|]; [|done..]. injection E as <- <-.
  apply st_bind_Ok in E1 as ([] & w0 & E0 & E1). apply lift_Ok in E0 as [_ ->].
  apply st_bind_Ok in E1 as (shm & w0 & E0 & E1). injection E0 as <- <-. rewrite Hshm in E1.
  apply st_bind_Ok in E1 as ([] & w1 & E0 & E1). by exists w1, h.
Qed.

(** The request on the wire, whatever the response. *)
Lemma response_loop_out c keep fuel data rdr :
  (∀ b md, keeps_out (keep b md)) →
  keeps_out (response_loop (Store:=CStore) relax_schema_nullability fuel c keep data rdr).
Proof.
  intros Hk. assert (∀ A r e, keeps_out (drain_and_fail (A:=A) r e : ST cworld A)) as Hd.
  { intros A r e w. unfold drain_and_fail. by destruct (drain r) as [[?|?|]|]. }
  revert data rdr. induction fuel as [|fuel IH]; intros data rdr; [done|]. cbn [response_loop].
  destruct (read_next rdr) as [[[[[b md]|] r1]|e|]|]; try done. destruct (classify b md).
  - destruct data; [apply IH|]. intros w. specialize (Hk b md w). destruct (keep b md w) as [[p|e|] w1]; simpl in *; try done.
    by rewrite IH.
  - intros w. pose proof (resolve_with_out relax_schema_nullability c md w) as H1'.
    destruct (resolve_with _ c md w) as [[p|e|] w1]; simpl in *; try done; [by rewrite IH|by rewrite Hd].
  - apply keeps_bind; [apply dispatch_log_out|]. intros. apply IH.
  - apply Hd.
Qed.

Lemma read_substream_out c : keeps_out (read_substream (Store:=CStore) relax_schema_nullability c).
Proof.
  unfold read_substream, read_response. apply keeps_bind; [|intros; by apply response_loop_out].
  intros w. unfold open_reader. by destruct (stream_reader_new _).
Qed.

Lemma open_stream_sent c method rid params md hh kind (cw cw1 : cworld) s0 :
  plain_client c → cw_shm cw = None → metadata_utf8 (request_metadata c (c_protocol c) method rid md None) →
  open_stream relax_schema_nullability c method rid params md hh kind cw = (Ok s0, cw1) →
  cancelled s0 = false ∧ closed s0 = false ∧
  ∃ l, wire_stream (batch_schema params) [(params, request_metadata c (c_protocol c) method rid md None)] l ∧
       ∀ sin, writer_at s0 (sent (cw_out cw) ++ l) sin [].
Proof.
  intros [_ Hdl] Hshm Hu E. apply open_stream_inv in E as (w1 & h & Ew & E & ->); [|done..].
  destruct (write_stream_ok _ _ _ _ Hu Ew) as (l & k & Hl & -> & Hs).
  set (m := if hh then _ else _) in E. assert (keeps_out m) as Hm.
  { subst m. destruct hh; [|done]. apply keeps_bind; [apply read_substream_out|]. intros [[b m]|]; [|done].
    apply keeps_bind; [apply shm_resolve_out|done]. }
  specialize (Hm (cset_out k cw)). rewrite E in Hm. simpl in Hm. split_and!; [done..|]. exists l. split; [done|]. intros sin. unfold writer_at. cbn.
  by rewrite Hm.
Qed.

(** What opening a stream reads. *)
Lemma open_stream_reads (c : RpcClient) (method rid : list byte) (params : RecordBatch) (md : option Metadata) (kind : StreamKind) (cw cw1 : cworld) (s0 : StreamSession (Store:=CStore)) (sid : list byte)
    (init : list LogMessage) (h : option (RecordBatch * Metadata)) (l1 rest : list byte) :
  plain_client c → cw_shm cw = None →
  open_stream relax_schema_nullability c method rid params md (bool_decide (is_Some h)) kind cw = (Ok s0, cw1) →
  Forall client_log_ok init → clean (cw_in cw) → content (cw_in cw) = l1 ++ rest →
  match h with
  | Some (b, hmd) => ∃ Eh, empty_batch (batch_schema b) = Ok Eh ∧ schema_readable (batch_schema b) ∧ zlen l1 ≤ u32_max ∧
      wire_stream (batch_schema b) (log_items sid rid Eh init ++ [(b, hmd)]) l1 ∧ classify b hmd = KData
  | None => l1 = []
  end →
  live s0 ∧ ss_header s0 = h ∧ out_reader s0 = None ∧ reader_raw s0 = true ∧
  clean (cw_in (ss_world s0)) ∧ content (cw_in (ss_world s0)) = rest ∧
  cw_logs (ss_world s0) = cw_logs cw ++ told c (match h with Some _ => init | None => [] end).
Proof.
  intros [Hrel Hdl] Hshm E Hl Hc Hd Hh. apply open_stream_inv in E as (w1 & h' & Ew & E & ->); [|done..].
  assert (w1 = cset_out (cw_out w1) cw) as Hw1.
  { unfold write_stream in Ew. destruct (stream_writer_new _ _) as [[sw|?|] k]; [|done..].
    destruct (stream_writer_write _ _ _) as [[[]|?|] sw1]; [|done..]. destruct (stream_writer_finish sw1) as [r sw2].
    by injection Ew as _ <-. }
  destruct h as [[b hmd]|].
  - rewrite bool_decide_eq_true_2 in E by by eexists. destruct Hh as (Eh & HE & Hsr & Hz & Hw & Hk).
    unfold mbind at 1, ST_bind at 1 in E. unfold read_substream in E.
    edestruct (read_response_data relax_schema_nullability c (fun b md => mret (M:=ST cworld) (b, md)) sid rid Eh (batch_schema b) init b hmd l1 rest w1) as (r & Er & Hcr & Hdr);
      [done|by apply empty_batch_spec in HE as [_ ?]|exact Hl|exact Hw|done|done|by rewrite Hw1|by rewrite Hw1|done|done|].
    rewrite Er in E. unfold mbind at 1, ST_bind at 1, shm_resolve_inbound in E. cbn [cw_shm cset_in add_logs] in E.
    rewrite Hw1 in E. cbn [cw_shm cset_out] in E. rewrite Hshm in E. injection E as <- <-. split_and!; done.
  - rewrite bool_decide_eq_false_2 in E by by intros []. subst l1. injection E as <- <-. cbn. rewrite Hw1. cbn.
    split_and!; try done. unfold told. destruct (has_on_log c); by rewrite app_nil_r.
Qed.

(** C3. A streaming call over a connection, in lockstep: the handler is opened
    with the client's batch, every batch the client sends is one turn of its state, and
    the client's calls return, one for one and in order, what those turns emitted, the
    error they ended with, or the end of the stream; the header is the handler's, the log
    callback is told the handler's logs in order, and both ends stand at the next call
    once the session is dropped. *)
Theorem stream_call_end_to_end (c : RpcClient) (srv : RpcServer Uh Sh) (conn : Conn) (method rid : list byte) (params : RecordBatch)
    (md : option Metadata) (kind : StreamKind) (what : list byte) (sin : ArrowSchema) (inputs : list (RecordBatch * Metadata))
    (results expected : list (res RpcError (option (RecordBatch * Metadata)))) (logs init : list LogMessage)
    (cw cw1 : cworld) (s0 s' : StreamSession) (sw sw' : StreamWriter) (w w' : World) (req : Request) (info : MethodInfo Uh Sh)
    (result : StreamResult St) (a1 a2 : App) (E : RecordBatch) (out : list (RecordBatch * Metadata)) (bytes response rest more : list byte) :
  plain_client c → cw_shm cw = None → server_utf8 srv → handlers_ok srv conn → external_config srv = None →
  inline_request (default ∅ md) → metadata_utf8 (request_metadata c (c_protocol c) method rid md None) →
  schema_readable (batch_schema params) → schema_readable sin → schema_readable (output_schema result) →
  (* the client's side *)
  open_stream relax_schema_nullability c method rid params md (bool_decide (is_Some (header result))) kind cw = (Ok s0, cw1) →
  run relax_schema_nullability c what sin s0 inputs results s' → inputs ≠ [] →
  Forall (fun i => batch_schema i.1 = sin ∧ metadata_utf8 i.2) inputs →
  in_writer s' = Some sw → stream_writer_finish sw = (Ok tt, sw') →
  let cw' := session_drop relax_schema_nullability c s' in
  sent (cw_out cw') = sent (cw_out cw) ++ bytes → zlen bytes ≤ u32_max →
  (* the server's side *)
  clean (w_in w) → content (w_in w) = bytes ++ rest →
  dispatch srv params (request_metadata c (c_protocol c) method rid md None) = Ok (ServeStream req info) →
  _serve_one serve_reflection srv conn w = (Ok true, w') →
  sent (w_out w') = sent (w_out w) ++ response → zlen response ≤ u32_max →
  stream_outcome info req conn (w_app w) = (Ok result, init, a1) → Forall client_log_ok init →
  (∀ h, header result = Some h → schema_readable (batch_schema h) ∧ classify h (default ∅ (header_metadata result)) = KData) →
  empty_batch (output_schema result) = Ok E →
  exchanges (server_id srv) rid (origin srv (Some req)) result E (stream_state result) a1 inputs expected logs out a2 →
  (* the bytes between them *)
  clean (cw_in cw) → content (cw_in cw) = response ++ more →
  Dispatch.method req = method ∧ batch req = params ∧ request_id req = rid ∧
  results = expected ∧ ss_header s0 = (fun h => (h, default ∅ (header_metadata result))) <$> header result ∧
  cw_logs cw' = cw_logs cw ++ told c (init ++ logs) ∧
  w_app w' = a2 ∧ content (w_in w') = rest ∧ clean (cw_in cw') ∧ content (cw_in cw') = more.
Proof.
  intros Hpl Hshm Hsrv Hh Hext Hin Hu Hsp Hsi Hso Eo Hrun Hne Hins Hsw Hfin cw' Hbytes Hzb Hcw Hdw Hdis Es Hresp Hzr Hout Hinit Hhd HE Hx Hcc Hdc.
  set (rmd := request_metadata c (c_protocol c) method rid md None) in *.
  destruct (open_stream_sent _ _ _ _ _ _ _ _ _ _ Hpl Hshm Hu Eo) as (Hca0 & Hcl0 & lq & Hlq & Hw0). specialize (Hw0 sin).
  destruct (run_sent _ _ _ _ _ _ _ _ Hrun _ _ Hins Hca0 Hcl0 Hw0) as (Hca & Hcl & Hw'). cbn [app] in Hw'.
  destruct (drop_sent relax_schema_nullability c Hpl _ _ _ _ _ _ Hca Hcl Hw' Hsw Hfin) as (li & Hli & Hsent).
  assert (bytes = lq ++ li) as -> by (fold cw' in Hsent; rewrite Hbytes, <- app_assoc in Hsent; by apply app_inv_head in Hsent).
  pose proof (zlen_nonneg lq). pose proof (zlen_nonneg li). rewrite zlen_app in Hzb.
  assert (call_on_wire srv (params, rmd, inputs) (lq ++ li)) as Hcall.
  { exists (batch_schema params), [], lq, li. cbn [fst snd]. split_and!; try done; [lia|by apply inline_metadata|].
    intros act Hact. rewrite Hdis in Hact. injection Hact as <-. split; [done|]. exists sin. split_and!; [done..|lia]. }
  pose proof (serve_one_request serve_reflection srv conn _ _ rest w Hsrv Hh Hcall Hcw Hdw) as H1'.
  rewrite Es in H1'. destruct H1' as (_ & Hrest & _ & act & o & Hact & Hans & Hso'). cbn [fst snd] in *.
  rewrite Hdis in Hact. injection Hact as <-. assert (o = response) as -> by (rewrite Hresp in Hso'; by apply app_inv_head in Hso').
  apply (dispatch_request _ _ _ _ req) in Hdis as Hfr; [|done]. apply from_read_batch_ok in Hfr as (Hrid & _ & Hm & _ & Hb).
  destruct (request_metadata_fields method rid (c_protocol c) (c_protocol_version c) (shm_request_md None md)) as (F1 & _ & F3 & _ & _).
  change (build_request_metadata _ _ _ _ _) with rmd in F1, F3. rewrite F1 in Hm. rewrite F3 in Hrid, Hans. cbn [default from_option id] in Hm, Hrid, Hans.
  unfold answer, stream_answer in Hans. rewrite Hout in Hans. cbn [fst snd] in Hans.
  destruct Hans as (E' & l1 & l2 & out' & HE' & Href & Hhead & Hwo & ->). rewrite HE in HE'. injection HE' as <-.
  rewrite (exchanges_reference _ _ _ _ _ _ _ _ _ _ _ _ Hx) in Href. injection Href as <- Ha2.
  set (h := (fun h => (h, default ∅ (header_metadata result))) <$> header result).
  assert (bool_decide (is_Some (header result)) = bool_decide (is_Some h)) as Hhb by (unfold h; by destruct (header result)).
  rewrite Hhb in Eo. rewrite zlen_app in Hzr. pose proof (zlen_nonneg l1). pose proof (zlen_nonneg l2). rewrite <- app_assoc in Hdc.
  destruct (open_stream_reads c method rid params md kind cw cw1 s0 (server_id srv) init h l1 (l2 ++ more) Hpl Hshm Eo Hinit Hcc Hdc)
    as (Hlive & Hhdr & Hor & Hrr & Hc0 & Hd0 & Hlog0).
  { unfold h. destruct (header result) as [hb|]; [|done]. destruct Hhead as (Eh & HEh & Hwh). destruct (Hhd _ eq_refl).
    exists Eh. split_and!; [done..|lia|done|done]. }
  set (pend := match header result with Some _ => [] | None => init end).
  assert (reader_at s0 (log_items (server_id srv) rid E pend ++ out) more) as Hr0.
  { unfold reader_at. rewrite Hor. split; [done|]. exists (output_schema result), l2. split_and!; try done; [|lia].
    unfold pend. by destruct (header result). }
  destruct (run_ok relax_schema_nullability c Hpl (server_id srv) rid (origin srv (Some req)) result E _ _ _ _ _ _ Hrun
    _ _ _ [] pend _ _ _ _ more ltac:(by apply empty_batch_spec in HE as [_ ?]) Hx Hins ltac:(by unfold pend; destruct (header result)) Hlive Hw0 Hr0 ltac:(done))
    as (-> & _ & _ & _ & Hrd & Hlogs).
  destruct (drop_reader relax_schema_nullability c Hpl s' more sw sw' Hca Hcl Hrd Hsw Hfin) as (Hcr & Hdr & Hlr). fold cw' in Hcr, Hdr, Hlr.
  split_and!; try done. rewrite Hlr, Hlogs, Hlog0. unfold pend, h. destruct (header result); simpl.
  - by rewrite told_app, app_assoc.
  - unfold told at 1. by destruct (has_on_log c); rewrite app_nil_r.
Qed.
End EndToEnd.
