(* ===== verification/ServeExample.v ===== *)
(** * A server and a client, run

    A server with a unary and a streaming method over the concrete Arrow of
    [WireExample], a client of it, and the theorems about connections, stream sessions
    and the end of serving applied to them; then an intermediary in front of the server. *)

From S2P Require Import Prelude Bytes Metadata F64 Json DataExample ErrorModel Errors Crypto ShmAllocator Ipc IpcProps IpcWriter IpcWriterProps IpcStream WireExample Arrow External ExternalProps ShmBatch ShmBatchProps ExternalExample Dispatch DispatchProps Envelope EnvelopeProps Stream Serve ServeProps ServeStream ServeConn ServeSafety Client ClientProps SessionProps Intermediary.

(** ** A server and a client, run *)

#[local] Existing Instances toy_ipc toy_writer toy_writer_laws toy_laws toy_shm toy_shm_laws toy_aead.

(** The application counts its calls; a stream has no state of its own and answers every
    batch with one, behind a log message. *)
Abbreviation Uh := (UnaryHandler (App:=Z) (Conn:=unit)).
Abbreviation Sh := (StreamHandler (App:=Z) (St:=unit) (Conn:=unit)).
Abbreviation world := (World (App:=Z) (Store:=InMemoryStorage)).

#[global] Instance demo_streams : StreamState (App:=Z) (St:=unit) := {|
  produce x _ a := TReturn (Ok tt) (x, a);
  exchange x _ b a := TContextLog (log_new Info (bs "turn")) (TEmit (Large (bs "answer")) None (fun r => TReturn r (x, a + 1)));
  on_cancel _ _ a := (Ok tt, [], a) |}.

#[global] Instance demo_env : Env := {|
  mmap_ok _ := false; env_min_batch := None; after_new _ := [];
  after_next s := with_reader s []; after_drain _ := [] |}.

#[global] Instance demo_env_laws : EnvLaws.
Proof. split; simpl; lia. Qed.

Definition demo_log : LogMessage := with_extra (bs "k") (bs "v") (log_new Warn (bs "working")).

Definition echo : MethodInfo Uh Sh := method_unary (bs "echo") true true
  (fun _ _ a => mkUnaryOutcome (Ok (Some (Large (bs "pong")))) [demo_log] None (a + 1)).
Definition talk : MethodInfo Uh Sh := mkMethodInfo (bs "talk") Exchange true false None
  (Some (fun _ _ a => (Ok (with_header (Large (bs "head")) (stream_exchange true true tt)), [demo_log], a))).

Definition demo_server : RpcServer Uh Sh :=
  mkServer (bs "srv") false (bs "example.Demo.v1") [] (<[bs "echo" := echo]> (<[bs "talk" := talk]> ∅)) [] None None true false.

Definition no_reflection (_ : RpcServer Uh Sh) (_ : Request) (_ : unit) : ST world unit := mret tt.

(** The second half of [dispatch]: where a served method comes from. *)
Lemma dispatch_served (b : RecordBatch) md act req info :
  dispatch demo_server b md = Ok act → act = ServeUnary req info ∨ act = ServeStream req info →
  (info = echo ∧ act = ServeUnary req info) ∨ (info = talk ∧ act = ServeStream req info).
Proof.
  intros E Ha. unfold dispatch in E. destruct (from_read_batch b md true) as [r|e|]; cbn [error_or] in E; [|naive_solver|done].
  repeat (case_bool_decide; [naive_solver|]). unfold route in E. case_bool_decide; [naive_solver|].
  destruct (validate_protocol_name _ _); [|naive_solver|done]. unfold resolve_binding in E.
  case_bool_decide; [|cbn in E; case_bool_decide; naive_solver]. cbn [ok_or error_or] in E. unfold dispatch_routed in E.
  destruct (validate_protocol_version _ _ _); [|naive_solver|done]. cbn [error_or rb_methods] in E.
  destruct (methods demo_server !! method r) as [i|] eqn:Em; [|naive_solver].
  destruct (validate_parameter_batch _ _); [|naive_solver|done]. cbn [error_or] in E.
  unfold demo_server in Em. cbn [methods] in Em.
  apply lookup_insert_Some in Em as [[_ <-]|[_ [[_ <-]|[_ Em]]%lookup_insert_Some]]; [..|by rewrite lookup_empty in Em];
    injection E as <-; naive_solver.
Qed.

Lemma demo_server_utf8 : server_utf8 demo_server.
Proof.
  split; [done|]. intros p bnd E. unfold resolve_binding in E. case_bool_decide; [by injection E as <-|].
  cbn in E. by case_bool_decide.
Qed.

Lemma demo_texts tb : utf8_valid (default [] tb) = true → state_texts tb (with_header (Large (bs "head")) (stream_exchange true true tt)).
Proof.
  intros Ht. split_and!.
  - intros b e. unfold turn_input. cbn [input_schema with_header stream_exchange]. case_bool_decide; [done|].
    destruct b as [v|[] l]; [done|done|]. intros [= <-]. by apply plain_error_text.
  - done.
  - intros [x|x] tick b app; cbn; split_and!; try done; repeat constructor.
Qed.

Lemma demo_origin b md req : metadata_utf8 md → from_read_batch b md true = Ok req →
  utf8_valid (default [] (origin demo_server (Some req))) = true.
Proof.
  intros Hu (_ & Hp & Hm & _)%from_read_batch_ok. apply traceback_utf8; [rewrite Hp|rewrite Hm]; by apply md_text.
Qed.

Lemma demo_handlers : handlers_ok demo_server tt.
Proof.
  intros b md req info a Hu. split; intros E.
  - destruct (dispatch_served b md _ req info E (or_introl eq_refl)) as [[-> _]|[_ ?]]; [|done].
    split_and!; try done. repeat constructor.
  - destruct (dispatch_served b md _ req info E (or_intror eq_refl)) as [[_ ?]|[-> _]]; [done|].
    split; [repeat constructor|]. cbn. split; [|done]. apply demo_texts. eapply demo_origin; [exact Hu|].
    by apply (dispatch_request _ _ _ _ req) in E.
Qed.

(** ** The client's half *)
Definition demo_client : RpcClient := mkClient (Some (bs "example.Demo.v1")) None false true None (Ok tt).
Definition no_relax (s : bool) : bool := s.
Definition rid : list byte := generate_request_id 1700000000000000000 0.

Definition ping : RecordBatch := Large (bs "ping").
Abbreviation cworld := (CWorld (Store:=InMemoryStorage)).
Definition cworld_with (input : reader) : cworld := mkCWorld input vec_sink None in_memory_new 0 [].

Definition call_md (m : list byte) : Metadata := request_metadata demo_client (c_protocol demo_client) m rid None None.
Definition stream_bytes (b : toy_batch) (md : Metadata) : list byte := sent (cw_out (write_stream b md (cworld_with [])).2).
Definition echo_bytes : list byte := stream_bytes ping (call_md (bs "echo")).

(** The server's world before a connection whose input is [l]. *)
Definition world_with (l : list byte) : world :=
  mkWorld [Data l] vec_sink (Some conn_shm_default) ∅ (mkX in_memory_new 0) 0 (mkStats 0 0 0 0) None [].

Definition echo_served : res RpcError bool * world := _serve_one no_reflection demo_server tt (world_with echo_bytes).
Definition echo_answer : list byte := sent (w_out echo_served.2).

Lemma with_fst {A B} (p : A * B) a : p.1 = a → p = (a, p.2).
Proof. by destruct p; intros <-. Qed.

Lemma utf8_by_computation md : bool_decide (metadata_utf8 md) = true → metadata_utf8 md.
Proof. apply bool_decide_eq_true_1. Qed.

Lemma content_world l : content (w_in (world_with l)) = l ++ [].
Proof. reflexivity. Qed.

Lemma clean_data l : bool_decide (l = []) = false → clean [Data l].
Proof. intros H%bool_decide_eq_false. by repeat constructor. Qed.

Definition echo_sent : cworld := (write_stream ping (call_md (bs "echo")) (cworld_with [Data echo_answer])).2.
Definition echo_req : Request := mkRequest (bs "echo") (bs "example.Demo.v1") rid ping (call_md (bs "echo")).

Lemma echo_dispatched : dispatch demo_server ping (call_md (bs "echo")) = Ok (ServeUnary echo_req echo).
Proof. reflexivity. Qed.

Lemma echo_written : write_stream ping (call_md (bs "echo")) (cworld_with [Data echo_answer]) = (Ok tt, echo_sent).
Proof. unfold echo_sent. apply with_fst. vm_compute. reflexivity. Qed.

Lemma echo_answered : _serve_one no_reflection demo_server tt (world_with echo_bytes) = (Ok true, echo_served.2).
Proof. unfold echo_served. apply with_fst. vm_compute. reflexivity. Qed.

Lemma demo_client_plain : plain_client demo_client.
Proof. done. Qed.

Lemma unary_call_end_to_end_witness :
  w_app echo_served.2 = 1 ∧ content (w_in echo_served.2) = [] ∧
  ∃ E cw', empty_batch (true : ArrowSchema) = Ok E ∧
    call_unary_on no_relax demo_client (c_protocol demo_client) (bs "echo") rid ping None (cworld_with [Data echo_answer])
      = (Ok (Large (bs "pong") : RecordBatch, ∅), cw') ∧
    cw_logs cw' = [demo_log] ∧ content (cw_in cw') = [].
Proof.
  destruct (unary_call_end_to_end (H:=toy_ipc) (H0:=toy_writer) (H1:=toy_arrays) (App:=Z) (St:=unit) (Store:=InMemoryStorage) (Conn:=unit) (CStore:=InMemoryStorage)
    no_relax no_reflection demo_client demo_server tt (c_protocol demo_client) (bs "echo") rid
    ping None (cworld_with [Data echo_answer]) echo_sent (world_with echo_bytes) echo_served.2 echo_req echo
    echo_bytes echo_answer [] []) as (_ & _ & _ & Happ & Hrest & E & cw' & HE & Hcall & Hlogs & _ & Hmore).
  - done.
  - done.
  - apply demo_server_utf8.
  - apply demo_handlers.
  - done.
  - done.
  - apply utf8_by_computation. vm_compute. reflexivity.
  - by vm_compute.
  - by vm_compute.
  - apply echo_written.
  - vm_compute. reflexivity.
  - by vm_compute.
  - apply clean_data. vm_compute. reflexivity.
  - apply content_world.
  - apply echo_dispatched.
  - apply echo_answered.
  - done.
  - by vm_compute.
  - by repeat constructor.
  - done.
  - apply clean_data. vm_compute. reflexivity.
  - done.
  - split; [exact Happ|]. split; [exact Hrest|]. exists E, cw'.
    split; [exact HE|]. split; [exact Hcall|]. split; [exact Hlogs|exact Hmore].
Defined.

(** ** A connection of two calls *)
Lemma demo_wire (b : RecordBatch) md :
  metadata_utf8 md → (write_stream b md (cworld_with [])).1 = Ok tt → wire_stream (batch_schema b) [(b, md)] (stream_bytes b md).
Proof.
  intros Hu Ew%with_fst. destruct (write_stream_ok _ _ _ _ Hu Ew) as (l & k & Hl & Hk & Hs).
  unfold stream_bytes. rewrite Hk. cbn [cw_out cset_out]. by rewrite Hs.
Qed.

Definition say : RecordBatch := Large (bs "say").
Definition talk_bytes : list byte := stream_bytes ping (call_md (bs "talk")).
Definition say_bytes : list byte := stream_bytes say ∅.

Lemma ping_wire m : bool_decide (metadata_utf8 (call_md m)) = true → (write_stream ping (call_md m) (cworld_with [])).1 = Ok tt →
  wire_stream true [(ping, call_md m)] (stream_bytes ping (call_md m)).
Proof. intros Hu%utf8_by_computation Hw. by apply (demo_wire ping). Qed.

Lemma say_wire : wire_stream true [(say, ∅)] say_bytes.
Proof. apply (demo_wire say); [apply map_Forall_empty|]. vm_compute. reflexivity. Qed.

Lemma demo_readable (s : bool) : schema_readable s.
Proof. by destruct s; vm_compute. Qed.

Definition talk_req : Request := mkRequest (bs "talk") (bs "example.Demo.v1") rid ping (call_md (bs "talk")).
Lemma talk_dispatched : dispatch demo_server ping (call_md (bs "talk")) = Ok (ServeStream talk_req talk).
Proof. reflexivity. Qed.

Definition demo_calls : list ((RecordBatch * Metadata) * list (RecordBatch * Metadata)) :=
  [((ping, call_md (bs "echo")), []); ((ping, call_md (bs "talk")), [(say, ∅)])].
Definition demo_inputs : list (list byte) := [echo_bytes; talk_bytes ++ say_bytes].

Lemma call_inline m : bool_decide (call_md m !! SHM_OFFSET_KEY = None ∧ call_md m !! SHM_SEGMENT_NAME_KEY = None) = true →
  inline_request (call_md m).
Proof. apply bool_decide_eq_true_1. Qed.

Lemma echo_on_wire : call_on_wire demo_server ((ping, call_md (bs "echo")), []) echo_bytes.
Proof.
  exists true, [], echo_bytes, []. split; [apply ping_wire; vm_compute; reflexivity|]. split; [apply demo_readable|].
  split; [by vm_compute|]. split; [apply call_inline; vm_compute; reflexivity|]. split; [|symmetry; apply app_nil_r].
  intros act Ha. cbn [fst snd] in Ha. rewrite echo_dispatched in Ha. by injection Ha as <-.
Qed.

Lemma talk_on_wire : call_on_wire demo_server ((ping, call_md (bs "talk")), [(say, ∅)]) (talk_bytes ++ say_bytes).
Proof.
  exists true, [], talk_bytes, say_bytes. split; [apply ping_wire; vm_compute; reflexivity|]. split; [apply demo_readable|].
  split; [by vm_compute|]. split; [apply call_inline; vm_compute; reflexivity|]. split; [|reflexivity].
  intros act Ha. cbn [fst snd] in Ha. rewrite talk_dispatched in Ha. injection Ha as <-.
  split; [done|]. exists true. split; [apply say_wire|]. split; [apply demo_readable|by vm_compute].
Qed.

Lemma demo_on_wire : Forall2 (call_on_wire demo_server) demo_calls demo_inputs.
Proof. constructor; [apply echo_on_wire|]. constructor; [apply talk_on_wire|]. constructor. Qed.

Definition demo_loop : res RpcError LoopEnd * world :=
  serve_loop no_reflection 2 demo_server tt (world_with (concat demo_inputs)).

Lemma connection_answers_in_order_witness :
  demo_loop.1 = Ok Running ∧ content (w_in demo_loop.2) = [] ∧
  ∃ ls, conversation demo_server tt 0 demo_calls ls (w_app demo_loop.2) ∧ sent (w_out demo_loop.2) = concat ls.
Proof.
  assert (demo_loop.1 = Ok Running) as Hr by (vm_compute; reflexivity).
  pose proof (connection_answers_in_order (H:=toy_ipc) (H0:=toy_writer) (H1:=toy_arrays) (App:=Z) (St:=unit) (Store:=InMemoryStorage) (Conn:=unit)
    no_reflection demo_server tt demo_calls demo_inputs [] (world_with (concat demo_inputs)) demo_loop.1 demo_loop.2
    demo_server_utf8 demo_handlers demo_on_wire) as Hc.
  rewrite Hr in Hc. split; [done|].
  destruct Hc as (_ & Hin & ls & Hcv & Hs).
  - apply clean_data. vm_compute. reflexivity.
  - apply content_world.
  - rewrite <- Hr. apply surjective_pairing.
  - split; [exact Hin|]. exists ls. split; [exact Hcv|exact Hs].
Defined.

(** ** A streaming call, a refused one and a loop that ends, run *)


Abbreviation session := (StreamSession (Store:=InMemoryStorage)).

(** ** A refused call *)
Definition nope_bytes : list byte := stream_bytes ping (call_md (bs "nope")).
Definition nope_refusal : option Request * bool * RpcError :=
  match dispatch demo_server ping (call_md (bs "nope")) with
  | Ok (RespondError o s e) => (o, s, e)
  | _ => (None, false, missing_method)
  end.

Lemma nope_dispatched :
  dispatch demo_server ping (call_md (bs "nope")) = Ok (RespondError nope_refusal.1.1 nope_refusal.1.2 nope_refusal.2).
Proof. reflexivity. Qed.

Definition refused_once : res RpcError bool * world := _serve_one no_reflection demo_server tt (world_with (nope_bytes ++ say_bytes)).
Definition refused_twice : res RpcError bool * world := _serve_one no_reflection demo_server tt refused_once.2.

Lemma refused_once_ok : _serve_one no_reflection demo_server tt (world_with (nope_bytes ++ say_bytes)) = (Ok true, refused_once.2).
Proof. unfold refused_once. apply with_fst. vm_compute. reflexivity. Qed.

Lemma refused_twice_ok : _serve_one no_reflection demo_server tt refused_once.2 = (Ok true, refused_twice.2).
Proof. unfold refused_twice. apply with_fst. vm_compute. reflexivity. Qed.

Lemma refused_stream_answered_twice_witness :
  content (w_in refused_once.2) = say_bytes ++ [] ∧ content (w_in refused_twice.2) = [].
Proof.
  destruct (refused_stream_answered_twice (H:=toy_ipc) (H0:=toy_writer) (H1:=toy_arrays) (App:=Z) (St:=unit) (Store:=InMemoryStorage) (Conn:=unit)
    no_reflection demo_server tt (ping, call_md (bs "nope")) nope_refusal.1.1 nope_refusal.1.2 nope_refusal.2 true [] true say ∅ []
    nope_bytes say_bytes [] (world_with (nope_bytes ++ say_bytes)) refused_once.2 refused_twice.2) as (H1' & H2' & _).
  - apply demo_server_utf8.
  - apply demo_handlers.
  - apply ping_wire; vm_compute; reflexivity.
  - apply demo_readable.
  - by vm_compute.
  - apply call_inline. vm_compute. reflexivity.
  - apply nope_dispatched.
  - apply say_wire.
  - apply demo_readable.
  - by vm_compute.
  - split; apply lookup_empty.
  - apply lookup_empty.
  - apply lookup_empty.
  - apply clean_data. vm_compute. reflexivity.
  - rewrite content_world, <- app_assoc. reflexivity.
  - apply refused_once_ok.
  - apply refused_twice_ok.
  - split; [exact H1'|exact H2'].
Defined.

(** ** The end of a connection *)
Lemma demo_quiet l : quiet (world_with l).
Proof. split_and!; done. Qed.


(** ** A streaming call, both ends *)
Definition talk_served : res RpcError bool * world := _serve_one no_reflection demo_server tt (world_with (talk_bytes ++ say_bytes)).
Definition talk_response : list byte := sent (w_out talk_served.2).
Definition talk_world : cworld := cworld_with [Data talk_response].
Definition talk_result : StreamResult unit := with_header (Large (bs "head")) (stream_exchange true true tt).

Definition talk_opened : res RpcError session * cworld :=
  open_stream no_relax demo_client (bs "talk") rid ping None true KExchange talk_world.
Definition no_session : session := mkSession talk_world true None true None None KExchange false false false.
Definition or_none (r : res RpcError session) : session := match r with Ok s => s | _ => no_session end.
Definition returns (r : res RpcError session) : bool := match r with Ok _ => true | _ => false end.
Definition talk_s0 : session := or_none talk_opened.1.
Definition what : list byte := bs "exchange after close/cancel".
Definition talk_s1 : session := (send_input demo_client what (Ok say) true (Some ∅) talk_s0).2.
Definition talk_received : res RpcError (option (RecordBatch * Metadata)) * session := receive no_relax demo_client talk_s1.
Definition talk_writer : StreamWriter := default (mkStreamWriter vec_sink true tracker_new false) (in_writer talk_received.2).
Definition talk_dropped : cworld := session_drop no_relax demo_client talk_received.2.

Lemma talk_answered : _serve_one no_reflection demo_server tt (world_with (talk_bytes ++ say_bytes)) = (Ok true, talk_served.2).
Proof. unfold talk_served. apply with_fst. vm_compute. reflexivity. Qed.

Lemma talk_opens : open_stream no_relax demo_client (bs "talk") rid ping None true KExchange talk_world = (Ok talk_s0, talk_opened.2).
Proof.
  assert (∀ r, returns r = true → r = Ok (or_none r)) as Ho by (intros []; [reflexivity|done..]).
  fold talk_opened. apply with_fst. unfold talk_s0. apply Ho. vm_compute. reflexivity.
Qed.

Lemma talk_sent : send_input demo_client what (Ok say) true (Some ∅) talk_s0 = (Ok true, talk_s1).
Proof. unfold talk_s1. apply with_fst. vm_compute. reflexivity. Qed.

Lemma talk_runs : run no_relax demo_client what true talk_s0 [(say, ∅)] [talk_received.1] talk_received.2.
Proof.
  exact (run_cons _ _ _ _ talk_s0 say ∅ [] talk_s1 _ _ [] _ talk_sent (surjective_pairing _) (run_nil _ _ _ _ _)).
Qed.

Lemma talk_writing : in_writer talk_received.2 = Some talk_writer.
Proof.
  assert (∀ (o : option StreamWriter) d, bool_decide (is_Some o) = true → o = Some (default d o)) as Hs by (intros []; done).
  apply Hs. vm_compute. reflexivity.
Qed.

Lemma talk_finishes : stream_writer_finish talk_writer = (Ok tt, (stream_writer_finish talk_writer).2).
Proof. apply with_fst. vm_compute. reflexivity. Qed.

Lemma talk_out : sent (cw_out talk_dropped) = sent (cw_out talk_world) ++ talk_bytes ++ say_bytes.
Proof. vm_compute. reflexivity. Qed.

Definition turn_log : LogMessage := log_new Info (bs "turn").

Definition spoken : RecordBatch := Large (bs "answer").
Definition blank : RecordBatch := Opaque true [].
Definition talk_items (sid r : list byte) : list (RecordBatch * Metadata) := log_items sid r blank [turn_log] ++ [(spoken, ∅)].
Definition talk_expected : list (res RpcError (option (RecordBatch * Metadata))) := [Ok (Some (spoken, ∅))].

Lemma talk_exchanges (sid r : list byte) (tb : option (list byte)) :
  exchanges (App:=Z) (St:=unit) sid r tb talk_result blank (stream_state talk_result) 0 [(say, ∅)]
    talk_expected ([turn_log] ++ []) (talk_items sid r) 1.
Proof.
  refine (ex_data sid r tb talk_result blank (stream_state talk_result) 0 (say, ∅) [] spoken ∅ [turn_log]
    (SExchange tt) 1 [] [] [] 1 _ _ _ _); [reflexivity|reflexivity|by repeat constructor|apply ex_nil].
Qed.

Lemma singleton_inj {A} (x y : A) : [x] = [y] → x = y.
Proof. by intros [= ->]. Qed.

Lemma stream_call_end_to_end_witness :
  talk_received.1 = Ok (Some (spoken, ∅)) ∧
  ss_header talk_s0 = Some (Large (bs "head"), ∅) ∧ cw_logs talk_dropped = [demo_log; turn_log] ∧
  w_app talk_served.2 = 1 ∧ content (w_in talk_served.2) = [] ∧ content (cw_in talk_dropped) = [].
Proof.
  destruct (stream_call_end_to_end (H:=toy_ipc) (H0:=toy_writer) (H1:=toy_arrays) (App:=Z) (St:=unit) (Store:=InMemoryStorage) (Conn:=unit) (CStore:=InMemoryStorage)
    no_relax no_reflection demo_client demo_server tt (bs "talk") rid ping None KExchange what true [(say, ∅)]
    [talk_received.1] talk_expected ([turn_log] ++ []) [demo_log]
    talk_world talk_opened.2 talk_s0 talk_received.2 talk_writer (stream_writer_finish talk_writer).2
    (world_with (talk_bytes ++ say_bytes)) talk_served.2 talk_req talk talk_result 0 1 blank
    (talk_items (server_id demo_server) rid)
    (talk_bytes ++ say_bytes) talk_response [] []) as (_ & _ & _ & Hres & Hhead & Hlogs & Happ & Hin & _ & Hmore).
  - done.
  - done.
  - apply demo_server_utf8.
  - apply demo_handlers.
  - done.
  - done.
  - apply utf8_by_computation. vm_compute. reflexivity.
  - apply demo_readable.
  - apply demo_readable.
  - apply demo_readable.
  - apply talk_opens.
  - apply talk_runs.
  - done.
  - constructor; [|constructor]. split; [reflexivity|apply map_Forall_empty].
  - apply talk_writing.
  - apply talk_finishes.
  - apply talk_out.
  - by vm_compute.
  - apply clean_data. vm_compute. reflexivity.
  - apply content_world.
  - apply talk_dispatched.
  - apply talk_answered.
  - reflexivity.
  - by vm_compute.
  - reflexivity.
  - by repeat constructor.
  - intros h [= <-]. split; [apply demo_readable|reflexivity].
  - reflexivity.
  - apply talk_exchanges.
  - apply clean_data. vm_compute. reflexivity.
  - reflexivity.
  - apply singleton_inj in Hres. split; [exact Hres|]. split; [exact Hhead|]. split; [exact Hlogs|].
    split; [exact Happ|]. split; [exact Hin|exact Hmore].
Defined.

(** ** An intermediary in front of the server *)

Definition forwarded_echo : list byte :=
  match write_request (bs "echo") ping None (Some rid) with Ok body => body | _ => [] end.

Lemma forwarded_echo_framed : write_request (bs "echo") ping None (Some rid) = Ok forwarded_echo.
Proof.
  assert (is_ok (write_request (bs "echo") ping None (Some rid)) = true) as Hok by (vm_compute; reflexivity).
  unfold forwarded_echo. destruct (write_request _ _ _ _); [done|discriminate Hok..].
Qed.

Lemma echo_req_framed : from_read_batch ping (call_md (bs "echo")) true = Ok echo_req.
Proof. reflexivity. Qed.

Lemma echo_unversioned : filled (call_md (bs "echo") !! PROTOCOL_VERSION_KEY) = None.
Proof. vm_compute. reflexivity. Qed.

Lemma echo_request_held : held_request echo_bytes ping (call_md (bs "echo")) echo_req.
Proof.
  split_and!; [apply ping_wire; vm_compute; reflexivity|apply demo_readable|vm_compute; discriminate|exact echo_req_framed].
Qed.

Lemma forwarded_echo_short : zlen forwarded_echo ≤ u32_max.
Proof. vm_compute. discriminate. Qed.

Lemma forwarded_request_witness :
  read_request echo_bytes = Ok echo_req ∧
  ∃ req', read_request forwarded_echo = Ok req' ∧ method req' = bs "echo" ∧ request_id req' = rid ∧
    dispatch demo_server (batch req') (metadata req') = Ok (RespondError (Some req') empty_schema protocol_not_specified).
Proof.
  destruct (forwarded_request echo_bytes ping (call_md (bs "echo")) echo_req echo_request_held (or_introl eq_refl)) as (Hr & _ & Hb).
  split; [exact Hr|]. rewrite echo_unversioned in Hb.
  destruct (Hb forwarded_echo forwarded_echo_framed forwarded_echo_short) as (req' & E & Hm & _ & Hi & _ & _ & Hd).
  exists req'. split_and!; [exact E|exact Hm|exact Hi|]. apply Hd; by vm_compute.
Defined.

(** A stream whose second message claims more bytes than the body holds, and a stream
    with a token in one piece behind it: the walk goes on where the failed read left
    the cursor. *)
Definition token_md : Metadata := {[ STATE_KEY := bs "token" ]}.
Definition token_stream : list byte := match one_batch_body true (Ok ping) (Some token_md) with Ok l => l | _ => [] end.
Definition broken_stream : list byte := toy_prefix true ++ CONTINUATION_MARKER ++ le_bytes 4 2 ++ [xff; x00].

Example broken_stream_passed : find_state_token (broken_stream ++ token_stream) = Some (Some (bs "token")).
Proof. vm_compute. reflexivity. Qed.

Example broken_stream_alone : find_state_token broken_stream = Some None.
Proof. vm_compute. reflexivity. Qed.
