(* ===== verification/PeerIdentity.v ===== *)
(** * Peer identity evidence and authentication policies

    [vgi-rpc/src/auth/identity.rs]: what a transport knows of its peer, the evidence
    identity providers produce from it, and the policies that turn evidence into an
    authenticated caller. A resolver is a function of the resolution context and of a
    state of its own; a policy is a function. Ordered maps of strings are finite maps,
    JSON objects the ordered lists of [Json]. *)

From S2P Require Import Prelude Bytes F64 Json ErrorModel Errors Crypto External Auth.
From stdpp Require Import sorting.

#[local] Open Scope Z_scope.

Definition EVIDENCE_BINDING_CLAIM : list byte := bs "peer_evidence_binding".
Definition MAX_JSON_BYTES : Z := 65536.
Definition MAX_JSON_DEPTH : Z := 16.
Definition MAX_JSON_VALUES : Z := 4096.
Definition MAX_HEADER_COUNT : Z := 128.
Definition MAX_HEADER_VALUES : Z := 16.
Definition MAX_HEADER_BYTES : Z := 65536.

Inductive PeerIdentityStatus :=
| Off | NotApplicable | Available | Unavailable | PermissionDenied | NoMatch | Invalid | UntrustedProxy.
#[global] Instance PeerIdentityStatus_eq_dec : EqDecision PeerIdentityStatus.
Proof. solve_decision. Defined.

Definition status_as_str (s : PeerIdentityStatus) : list byte :=
  match s with
  | Off => bs "off" | NotApplicable => bs "not_applicable" | Available => bs "available"
  | Unavailable => bs "unavailable" | PermissionDenied => bs "permission_denied"
  | NoMatch => bs "no_match" | Invalid => bs "invalid" | UntrustedProxy => bs "untrusted_proxy"
  end.

Inductive IdentityAssurance := CryptographicPeer | LocalDaemon | ConfiguredProxy.
Definition assurance_as_str (a : IdentityAssurance) : list byte :=
  match a with
  | CryptographicPeer => bs "cryptographic_peer" | LocalDaemon => bs "local_daemon"
  | ConfiguredProxy => bs "configured_proxy"
  end.

Inductive SubjectKind := User | TaggedNode | Workload | Endpoint | Unknown.
Definition kind_as_str (k : SubjectKind) : list byte :=
  match k with
  | User => bs "user" | TaggedNode => bs "tagged_node" | Workload => bs "workload"
  | Endpoint => bs "endpoint" | Unknown => bs "unknown"
  end.

Inductive SubjectStability := Stable | Login | NoStability.
#[global] Instance SubjectStability_eq_dec : EqDecision SubjectStability.
Proof. solve_decision. Defined.
Definition stability_as_str (s : SubjectStability) : list byte :=
  match s with Stable => bs "stable" | Login => bs "login" | NoStability => bs "none" end.

(** ** The peer a transport sees *)
Record PeerResolutionContext := mkPeerContext {
  pc_transport : list byte;
  immediate_peer : option (list byte);
  asserted_peer : option (list byte);
  source_endpoint : option (list byte);
  destination_address : option (list byte);
  authority : option (list byte);
  service_name : option (list byte);
  pc_headers : gmap (list byte) (list (list byte));
  pc_metadata : Map;
  deadline : option Z
}.

Definition peer_context_new (transport : list byte) : res RpcError PeerResolutionContext :=
  if bool_decide (transport = []) then Err (RpcErr.value_error (bs "peer transport must not be empty")) else
  Ok (mkPeerContext transport None None None None None None ∅ [] None).

Definition with_peers (imm asserted : option (list byte)) (c : PeerResolutionContext) : PeerResolutionContext :=
  mkPeerContext (pc_transport c) imm asserted (source_endpoint c) (destination_address c) (authority c)
    (service_name c) (pc_headers c) (pc_metadata c) (deadline c).
Definition with_source_endpoint (e : option (list byte)) (c : PeerResolutionContext) : PeerResolutionContext :=
  mkPeerContext (pc_transport c) (immediate_peer c) (asserted_peer c) e (destination_address c) (authority c)
    (service_name c) (pc_headers c) (pc_metadata c) (deadline c).
Definition with_destination (addr service : option (list byte)) (c : PeerResolutionContext) : PeerResolutionContext :=
  mkPeerContext (pc_transport c) (immediate_peer c) (asserted_peer c) (source_endpoint c) addr (authority c)
    service (pc_headers c) (pc_metadata c) (deadline c).
Definition with_authority (a : option (list byte)) (c : PeerResolutionContext) : PeerResolutionContext :=
  mkPeerContext (pc_transport c) (immediate_peer c) (asserted_peer c) (source_endpoint c) (destination_address c) a
    (service_name c) (pc_headers c) (pc_metadata c) (deadline c).
Definition with_deadline (d : Z) (c : PeerResolutionContext) : PeerResolutionContext :=
  mkPeerContext (pc_transport c) (immediate_peer c) (asserted_peer c) (source_endpoint c) (destination_address c)
    (authority c) (service_name c) (pc_headers c) (pc_metadata c) (Some d).

(** A character at or below U+001F, or U+007F: in UTF-8, such a byte. *)
Definition contains_control (v : list byte) : bool :=
  existsb (fun b => (b2z b <=? 0x1f) || (b2z b =? 0x7f)) v.

Definition field_name_byte (b : byte) : bool :=
  is_ascii_alphanumeric b || bool_decide (b ∈ bs "!#$%&'*+-.^_`|~").
Definition is_http_field_name (v : list byte) : bool :=
  negb (bool_decide (v = [])) && forallb field_name_byte v.

(** One header of [with_headers]: the map so far and its bytes. *)
Definition add_header (acc : gmap (list byte) (list (list byte)) * Z) (h : list byte * list (list byte))
  : res RpcError (gmap (list byte) (list (list byte)) * Z) :=
  let '(normalized, header_bytes) := acc in
  let '(name, values) := h in
  if MAX_HEADER_COUNT <=? Z.of_nat (size normalized)
  then Err (RpcErr.permission_error (bs "too many peer identity headers")) else
  if negb (is_http_field_name name) then Err (RpcErr.value_error (bs "invalid peer-resolution header name")) else
  if MAX_HEADER_VALUES <? zlen values
  then Err (RpcErr.permission_error (bs "too many values for peer identity header: ")) else
  if existsb contains_control values
  then Err (RpcErr.value_error (bs "invalid peer-resolution header value: ")) else
  let header_bytes := saturating_add (saturating_add header_bytes (zlen name))
                        (foldl Z.add 0 (zlen <$> values)) in
  if MAX_HEADER_BYTES <? header_bytes
  then Err (RpcErr.permission_error (bs "peer identity headers are too large")) else
  let key := to_ascii_lowercase <$> name in
  match normalized !! key with
  | Some _ => Err (RpcErr.permission_error (bs "case-varied duplicate peer identity header"))
  | None => Ok (<[key := values]> normalized, header_bytes)
  end.

Definition with_headers (headers : list (list byte * list (list byte))) (c : PeerResolutionContext)
  : res RpcError PeerResolutionContext :=
  '(m, _) ← try_fold add_header (∅, 0) headers;
  Ok (mkPeerContext (pc_transport c) (immediate_peer c) (asserted_peer c) (source_endpoint c)
        (destination_address c) (authority c) (service_name c) m (pc_metadata c) (deadline c)).

Definition peer_header (c : PeerResolutionContext) (name : list byte) : res RpcError (option (list byte)) :=
  match pc_headers c !! (to_ascii_lowercase <$> name) with
  | None => Ok None
  | Some [] => Ok None
  | Some [v] => Ok (Some v)
  | Some _ => Err (RpcErr.permission_error (bs "duplicate peer identity header: "))
  end.

(** ** Bounded JSON *)
Section Bounded.
Context `{Json}.

Definition key_bytes (m : Map) : Z := foldl Z.add 0 ((fun kv => zlen kv.1) <$> m).

(** [values] and [source_bytes] are the counters the walk carries; the message starts
    with the path. *)
Fixpoint validate_json_value (v : Value) (path : list byte) (depth : Z) (acc : Z * Z) {struct v}
  : res RpcError (Z * Z) :=
  let '(values, source_bytes) := acc in
  if MAX_JSON_DEPTH <? depth then Err (RpcErr.value_error (path ++ bs " exceeds maximum JSON depth")) else
  let values := saturating_add values 1 in
  if MAX_JSON_VALUES <? values then Err (RpcErr.value_error (path ++ bs " exceeds maximum JSON value count")) else
  acc ← match v with
        | JNull | JBool _ | JInt _ | JFloat _ => Ok (values, source_bytes)
        | JString s => Ok (values, saturating_add source_bytes (zlen s))
        | JArray l =>
          (fix go l acc := match l with
            | [] => Ok acc
            | v :: l => acc ← validate_json_value v path (depth + 1) acc; go l acc
            end) l (values, source_bytes)
        | JObject m =>
          (fix go m acc := match m with
            | [] => Ok acc
            | (_, v) :: m => acc ← validate_json_value v path (depth + 1) acc; go m acc
            end) m (values, saturating_add source_bytes (key_bytes m))
        end;
  if MAX_JSON_BYTES <? acc.2 then Err (RpcErr.value_error (path ++ bs " exceeds maximum JSON byte size")) else
  Ok acc.

Definition validate_json_object (m : Map) (path : list byte) : res RpcError unit :=
  _ ← try_fold (fun acc kv => validate_json_value kv.2 path 1 acc) (1, key_bytes m) m;
  if MAX_JSON_BYTES <? zlen (json_to_string (JObject m))
  then Err (RpcErr.value_error (path ++ bs " exceeds maximum JSON byte size")) else Ok tt.

Definition with_metadata (m : Map) (c : PeerResolutionContext) : res RpcError PeerResolutionContext :=
  _ ← validate_json_object m (bs "peer metadata");
  Ok (mkPeerContext (pc_transport c) (immediate_peer c) (asserted_peer c) (source_endpoint c)
        (destination_address c) (authority c) (service_name c) (pc_headers c) m (deadline c)).
End Bounded.

(** ** Identities *)
Record PeerIdentity := mkIdentity {
  provider : list byte;
  evidence_source : list byte;
  assurance : IdentityAssurance;
  issuer : list byte;
  id_transport : list byte;
  subject_kind : SubjectKind;
  subject_key : option (list byte);
  subject_stability : SubjectStability;
  subject_verified : bool;
  attributes : Map;
  capabilities : Map;
  capabilities_verified : bool;
  source_address : option (list byte);
  proxy_address : option (list byte)
}.

Definition identity_new (prov source : list byte) (a : IdentityAssurance) (iss transport : list byte)
  : res RpcError PeerIdentity :=
  if bool_decide (prov = []) || bool_decide (source = []) || bool_decide (iss = []) || bool_decide (transport = [])
  then Err (RpcErr.value_error (bs "provider, evidence_source, issuer, and transport are required")) else
  Ok (mkIdentity prov source a iss transport Unknown None NoStability false [] [] false None None).

Definition with_subject (k : SubjectKind) (key : list byte) (s : SubjectStability) (verified : bool)
    (i : PeerIdentity) : res RpcError PeerIdentity :=
  if bool_decide (key = []) then Err (RpcErr.value_error (bs "peer subject key must not be empty")) else
  Ok (mkIdentity (provider i) (evidence_source i) (assurance i) (issuer i) (id_transport i) k (Some key) s verified
        (attributes i) (capabilities i) (capabilities_verified i) (source_address i) (proxy_address i)).

Definition with_attributes `{Json} (m : Map) (i : PeerIdentity) : res RpcError PeerIdentity :=
  _ ← validate_json_object m (bs "peer attributes");
  Ok (mkIdentity (provider i) (evidence_source i) (assurance i) (issuer i) (id_transport i) (subject_kind i)
        (subject_key i) (subject_stability i) (subject_verified i) m (capabilities i) (capabilities_verified i)
        (source_address i) (proxy_address i)).

Definition with_capabilities `{Json} (m : Map) (verified : bool) (i : PeerIdentity) : res RpcError PeerIdentity :=
  _ ← validate_json_object m (bs "peer capabilities");
  Ok (mkIdentity (provider i) (evidence_source i) (assurance i) (issuer i) (id_transport i) (subject_kind i)
        (subject_key i) (subject_stability i) (subject_verified i) (attributes i) m verified
        (source_address i) (proxy_address i)).

Definition with_addresses (source proxy : option (list byte)) (i : PeerIdentity) : PeerIdentity :=
  mkIdentity (provider i) (evidence_source i) (assurance i) (issuer i) (id_transport i) (subject_kind i)
    (subject_key i) (subject_stability i) (subject_verified i) (attributes i) (capabilities i)
    (capabilities_verified i) source proxy.

Definition unreserved (b : byte) : bool := is_ascii_alphanumeric b || bool_decide (b ∈ bs "-._~").
Definition upper_hex (n : Z) : byte := default x00 (znth (bs "0123456789ABCDEF") n).
Definition percent_byte (b : byte) : list byte :=
  if unreserved b then [b] else [x25; upper_hex (Z.shiftr (b2z b) 4); upper_hex (Z.land (b2z b) 0x0f)].
Definition percent_encode (v : list byte) : list byte := mjoin (percent_byte <$> v).

Definition canonical_principal (i : PeerIdentity) : res RpcError (list byte) :=
  subject ← ok_or (RpcErr.value_error (bs "subjectless evidence has no canonical principal")) (subject_key i);
  Ok (bs "peer/" ++ percent_encode (provider i) ++ x2f :: percent_encode (issuer i) ++ x2f :: percent_encode subject).

(** ** Results and evidence *)
Record PeerIdentityResult := mkIdentityResult {
  pr_provider : list byte;
  pr_status : PeerIdentityStatus;
  pr_identities : list PeerIdentity
}.

Definition result_available (i : PeerIdentity) : PeerIdentityResult := mkIdentityResult (provider i) Available [i].

Definition safe_identifier_byte (b : byte) : bool := is_ascii_alphanumeric b || bool_decide (b ∈ bs "-_.").

Definition without_identity (p : list byte) (s : PeerIdentityStatus) : res RpcError PeerIdentityResult :=
  if bool_decide (s = Available)
  then Err (RpcErr.value_error (bs "available peer identity result requires an identity")) else
  if bool_decide (p = []) || negb (forallb safe_identifier_byte p)
  then Err (RpcErr.value_error (bs "peer identity provider must be a non-empty safe identifier")) else
  Ok (mkIdentityResult p s []).

Definition available_many (p : list byte) (ids : list PeerIdentity) : res RpcError PeerIdentityResult :=
  if bool_decide (p = []) || bool_decide (length ids = 0%nat)
  then Err (RpcErr.value_error (bs "available peer identity result requires provider and identities")) else
  if existsb (fun i => negb (bool_decide (provider i = p))) ids
  then Err (RpcErr.value_error (bs "peer identity provider mismatch")) else
  Ok (mkIdentityResult p Available ids).

Record PeerEvidenceSet := mkEvidence {
  identities : list PeerIdentity;
  provider_status : gmap (list byte) PeerIdentityStatus
}.

Definition add_result (e : PeerEvidenceSet) (r : PeerIdentityResult) : res RpcError PeerEvidenceSet :=
  if bool_decide (is_Some (provider_status e !! pr_provider r))
  then Err (RpcErr.value_error (bs "duplicate peer identity provider")) else
  if negb (Bool.eqb (bool_decide (pr_status r = Available)) (negb (bool_decide (length (pr_identities r) = 0%nat))))
  then Err (RpcErr.value_error (bs "invalid peer identity provider result")) else
  if existsb (fun i => negb (bool_decide (provider i = pr_provider r))) (pr_identities r)
  then Err (RpcErr.value_error (bs "peer identity provider mismatch")) else
  Ok (mkEvidence (identities e ++ pr_identities r) (<[pr_provider r := pr_status r]> (provider_status e))).

Definition evidence_default : PeerEvidenceSet := mkEvidence [] ∅.
Definition from_results (rs : list PeerIdentityResult) : res RpcError PeerEvidenceSet :=
  try_fold add_result evidence_default rs.

Definition evidence_status (e : PeerEvidenceSet) (p : list byte) : PeerIdentityStatus :=
  default Off (provider_status e !! p).

Definition for_provider (e : PeerEvidenceSet) (p : list byte) : list PeerIdentity :=
  List.filter (fun i => bool_decide (provider i = p)) (identities e).

(** [subject_verified() && subject_key().is_some() && subject_stability() == Stable] *)
Definition verified_stable (i : PeerIdentity) : bool :=
  subject_verified i && bool_decide (is_Some (subject_key i)) && bool_decide (subject_stability i = Stable).

Definition unique_verified_subject (e : PeerEvidenceSet) (p : list byte) : res RpcError PeerIdentity :=
  match List.filter verified_stable (for_provider e p) with
  | [] => Err (RpcErr.permission_error (bs "provider "))
  | [i] => Ok i
  | _ => Err (RpcErr.permission_error (bs "provider "))
  end.

Definition reject_ambiguous_provider (e : PeerEvidenceSet) (p : list byte) : res RpcError unit :=
  if 1 <? zlen (List.filter verified_stable (for_provider e p))
  then Err (RpcErr.auth_failure InvalidCredential (bs "provider ")) else Ok tt.

(** The statuses that stop a provider's evidence from being used. *)
Definition refuse_status (s : PeerIdentityStatus) : res RpcError unit :=
  match s with
  | Unavailable | PermissionDenied => Err (RpcErr.auth_unavailable (bs "peer identity provider "))
  | Invalid => Err (RpcErr.auth_failure InvalidCredential (bs "peer identity provider "))
  | UntrustedProxy => Err (RpcErr.auth_failure ProxyRequired (bs "peer identity provider "))
  | _ => Ok tt
  end.

Definition require_usable_provider (e : PeerEvidenceSet) (p : list byte) : res RpcError PeerIdentity :=
  _ ← refuse_status (evidence_status e p);
  unique_verified_subject e p.

Definition no_evidence : RpcError := RpcErr.permission_error (bs "peer identity provider ").

Fixpoint take_while {A} (f : A → bool) (l : list A) : list A :=
  match l with x :: l => if f x then x :: take_while f l else [] | [] => [] end.
Fixpoint skip_until {A} (f : A → bool) (l : list A) : list A :=
  match l with x :: l' => if f x then l else skip_until f l' | [] => [] end.

Definition require_available_provider (e : PeerEvidenceSet) (p : list byte) : res RpcError (list PeerIdentity) :=
  _ ← refuse_status (evidence_status e p);
  if negb (bool_decide (evidence_status e p = Available)) then Err no_evidence else
  match skip_until (fun i => bool_decide (provider i = p)) (identities e) with
  | [] => Err no_evidence
  | l => Ok (take_while (fun i => bool_decide (provider i = p)) l)
  end.

(** A named resolver; what it asks outside is part of the function. *)
Record PeerIdentityProvider := mkProvider {
  pp_name : list byte;
  pp_resolve : PeerResolutionContext → res RpcError PeerIdentityResult
}.
Definition provider_new (p : list byte) (f : PeerResolutionContext → res RpcError PeerIdentityResult)
  : res RpcError PeerIdentityProvider :=
  if bool_decide (p = []) then Err (RpcErr.value_error (bs "peer identity provider is required")) else Ok (mkProvider p f).

(** ** The binding digest *)
Definition bytes_le (a b : list byte) : Prop := bytes_ltb b a = false.
#[global] Instance bytes_le_dec a b : Decision (bytes_le a b) := ltac:(unfold bytes_le; apply _).

(** [Vec<String>]'s order. *)
Fixpoint texts_ltb (a b : list (list byte)) : bool :=
  match a, b with
  | _, [] => false
  | [], _ :: _ => true
  | x :: a, y :: b => bytes_ltb x y || bool_decide (x = y) && texts_ltb a b
  end.
Definition texts_le (a b : list (list byte)) : Prop := texts_ltb b a = false.
#[global] Instance texts_le_dec a b : Decision (texts_le a b) := ltac:(unfold texts_le; apply _).

Fixpoint dedup (l : list (list byte)) : list (list byte) :=
  match l with
  | x :: ((y :: _) as l') => if bool_decide (x = y) then dedup l' else x :: dedup l'
  | l => l
  end.

Section Digest.
Context `{Json, Aead}.

Definition hash_field (v : list byte) : list byte := be_bytes 8 (zlen v mod 2 ^ 64) ++ v.
Definition bool_text (b : bool) : list byte := if b then bs "true" else bs "false".

(** The framed fields of an identity; its two addresses are left empty. *)
Definition identity_fields (i : PeerIdentity) : list (list byte) :=
  [provider i; issuer i; default [] (subject_key i); assurance_as_str (assurance i); evidence_source i;
   id_transport i; kind_as_str (subject_kind i); stability_as_str (subject_stability i);
   bool_text (subject_verified i); bool_text (capabilities_verified i); []; [];
   json_to_string (JObject (attributes i)); json_to_string (JObject (capabilities i))].

Definition provider_fields (e : PeerEvidenceSet) (p : list byte) : list (list byte) :=
  p :: status_as_str (evidence_status e p) :: mjoin (merge_sort texts_le (identity_fields <$> for_provider e p)).

Definition binding_fields (e : PeerEvidenceSet) (ps : list (list byte)) (app : option AuthContext) : list (list byte) :=
  mjoin (provider_fields e <$> dedup (merge_sort bytes_le ps)) ++
  match app with
  | Some a => [bs "application_auth"; domain a; principal a]
  | None => []
  end.

Definition binding_digest_inner (e : PeerEvidenceSet) (ps : list (list byte)) (app : option AuthContext) : list byte :=
  sha256_hex (mjoin (hash_field <$> binding_fields e ps app)).
Definition binding_digest (e : PeerEvidenceSet) (ps : list (list byte)) : list byte := binding_digest_inner e ps None.
Definition application_binding_digest (e : PeerEvidenceSet) (ps : list (list byte)) (a : AuthContext) : list byte :=
  binding_digest_inner e ps (Some a).

(** ** Policies *)
Definition PeerAuthenticationPolicy : Type := PeerEvidenceSet → AuthContext → res RpcError AuthContext.

Definition with_evidence_binding (a : AuthContext) (e : PeerEvidenceSet) (ps : list (list byte)) : AuthContext :=
  with_claim a EVIDENCE_BINDING_CLAIM (binding_digest e ps).

Definition observe_peer_identity : PeerAuthenticationPolicy := fun _ a => Ok a.

Definition require_peer_identity (p : list byte) : PeerAuthenticationPolicy := fun e a =>
  _ ← require_available_provider e p;
  Ok (with_evidence_binding a e [p]).

Definition peer_identity_primary (p : list byte) : PeerAuthenticationPolicy := fun e _ =>
  i ← require_usable_provider e p;
  principal ← canonical_principal i;
  let a := for_principal p principal in
  let a := with_claim a (bs "issuer") (issuer i) in
  let a := with_claim a (bs "subject_kind") (kind_as_str (subject_kind i)) in
  let a := with_claim a (bs "assurance") (assurance_as_str (assurance i)) in
  let a := with_claim a (bs "evidence_source") (evidence_source i) in
  subject ← or_panic (subject_key i);
  let a := with_claim a (bs "subject") subject in
  Ok (with_claim a EVIDENCE_BINDING_CLAIM (binding_digest e [p])).

(** The first pass of [any_of]: bad evidence of any listed provider is refused. *)
Definition check_listed (e : PeerEvidenceSet) (p : list byte) : res RpcError unit :=
  _ ← match evidence_status e p with
      | Invalid | UntrustedProxy => _ ← require_usable_provider e p; Ok tt
      | _ => Ok tt
      end;
  if bool_decide (evidence_status e p = Available) then reject_ambiguous_provider e p else Ok tt.

Definition any_of_policy (ps : list (list byte)) : PeerAuthenticationPolicy := fun e a =>
  _ ← try_fold (fun _ p => check_listed e p) tt ps;
  if authenticated a then Ok a else
  match List.find (fun p => is_ok (unique_verified_subject e p)) ps with
  | Some p => peer_identity_primary p e a
  | None =>
    if existsb (fun p => bool_decide (evidence_status e p = Unavailable)
                         || bool_decide (evidence_status e p = PermissionDenied)) ps
    then Err (RpcErr.auth_unavailable (bs "no usable authentication factor; a peer provider is unavailable"))
    else Err (RpcErr.permission_error (bs "no configured provider produced a verified subject"))
  end.

Definition at_least_one : RpcError := RpcErr.value_error (bs "at least one provider is required").

Definition any_of_peer_identities (ps : list (list byte)) : res RpcError PeerAuthenticationPolicy :=
  if bool_decide (ps = []) then Err at_least_one else Ok (any_of_policy ps).

(** [PeerIdentityLinker]: the identities come as a map from the provider. *)
Definition PeerIdentityLinker : Type := AuthContext → gmap (list byte) PeerIdentity → res RpcError unit.

Definition collect_identity (e : PeerEvidenceSet) (m : gmap (list byte) PeerIdentity) (p : list byte)
  : res RpcError (gmap (list byte) PeerIdentity) :=
  i ← require_usable_provider e p; Ok (<[p := i]> m).

Definition all_of_policy (ps : list (list byte)) (selected : list byte) (linker : PeerIdentityLinker)
  : PeerAuthenticationPolicy := fun e a =>
  if negb (authenticated a)
  then Err (RpcErr.auth_failure MissingCredential (bs "all_of requires existing application authentication")) else
  ids ← try_fold (collect_identity e) ∅ ps;
  _ ← linker a ids;
  i ← require_usable_provider e selected;
  p ← canonical_principal i;
  let r := for_principal selected p in
  let r := with_claim r (bs "issuer") (issuer i) in
  let r := with_claim r (bs "application_principal") (principal a) in
  let r := with_claim r EVIDENCE_BINDING_CLAIM (application_binding_digest e ps a) in
  Ok (with_claim r (bs "application_domain") (domain a)).

Definition all_of_peer_identities (ps : list (list byte)) (principal_provider : option (list byte))
    (linker : option PeerIdentityLinker) : res RpcError PeerAuthenticationPolicy :=
  match ps with
  | [] => Err at_least_one
  | first :: _ =>
    let selected := default first principal_provider in
    if negb (bool_decide (selected ∈ ps))
    then Err (RpcErr.value_error (bs "principal_provider must be one of providers")) else
    linker ← ok_or (RpcErr.value_error (bs "all_of requires identity_linker to reject conflicting identities")) linker;
    Ok (all_of_policy ps selected linker)
  end.
End Digest.
