(* ===== verification/PeerIdentityProps.v ===== *)
(** * Peer identity: principals, digests and policies

    A canonical principal names one provider, issuer and subject; the binding digest
    frames its fields so that equal digests mean equal evidence, up to a collision of
    the hash; and each policy authenticates exactly the evidence it is documented
    for. *)

From S2P Require Import Prelude Bytes F64 Json ErrorModel Errors Crypto External Auth PeerIdentity.
From stdpp Require Import sorting.

#[local] Open Scope Z_scope.

(** ** Principals *)

(** The inverse of [percent_encode], used only to show that it has one. *)
Fixpoint percent_decode (l : list byte) : list byte :=
  match l with
  | x25 :: h :: k :: l => z2b (16 * default 0 (hex_value h) + default 0 (hex_value k)) :: percent_decode l
  | b :: l => b :: percent_decode l
  | [] => []
  end.

Lemma percent_decode_byte b l : percent_decode (percent_byte b ++ l) = b :: percent_decode l.
Proof. by destruct b. Qed.

Lemma percent_decode_encode v : percent_decode (percent_encode v) = v.
Proof.
  unfold percent_encode. induction v as [|b v IH]; [done|].
  rewrite fmap_cons. cbn [mjoin list_join]. rewrite percent_decode_byte. by f_equal.
Qed.

#[global] Instance percent_encode_inj : Inj (=) (=) percent_encode.
Proof. intros a b E. by rewrite <- (percent_decode_encode a), E, percent_decode_encode. Qed.

Lemma percent_encode_slashless v : x2f ∉ percent_encode v.
Proof.
  unfold percent_encode. induction v as [|b v IH]; [apply not_elem_of_nil|].
  rewrite fmap_cons. cbn [mjoin list_join]. rewrite elem_of_app. intros [Hb|?]; [|done].
  revert Hb. destruct b; vm_compute percent_byte; rewrite ?elem_of_cons, ?elem_of_nil; naive_solver.
Qed.

Lemma slash_inj p q p' q' : x2f ∉ p → x2f ∉ p' → p ++ x2f :: q = p' ++ x2f :: q' → p = p' ∧ q = q'.
Proof.
  intros Hp Hp' E. pose proof (split_once_app x2f p q Hp) as H1. rewrite E, split_once_app in H1 by done.
  by injection H1 as -> ->.
Qed.

Lemma principal_text_inj p i s p' i' s' :
  percent_encode p ++ x2f :: percent_encode i ++ x2f :: percent_encode s =
  percent_encode p' ++ x2f :: percent_encode i' ++ x2f :: percent_encode s' →
  p = p' ∧ i = i' ∧ s = s'.
Proof.
  intros E. apply slash_inj in E as [Ep E]; [|apply percent_encode_slashless..].
  apply slash_inj in E as [Ei Es]; [|apply percent_encode_slashless..].
  split_and!; by apply (inj percent_encode).
Qed.

Lemma canonical_principal_Ok i q :
  canonical_principal i = Ok q ↔
  ∃ s, subject_key i = Some s ∧
    q = bs "peer/" ++ percent_encode (provider i) ++ x2f :: percent_encode (issuer i) ++ x2f :: percent_encode s.
Proof.
  unfold canonical_principal. split.
  - intros E. inv_res. eauto.
  - intros (s & -> & ->). done.
Qed.

Lemma canonical_principal_inj i j q :
  canonical_principal i = Ok q → canonical_principal j = Ok q →
  provider i = provider j ∧ issuer i = issuer j ∧ subject_key i = subject_key j.
Proof.
  intros (s & Hs & ->)%canonical_principal_Ok (s' & Hs' & E)%canonical_principal_Ok.
  apply app_inv_head, principal_text_inj in E as (? & ? & ->). rewrite Hs, Hs'. done.
Qed.

(** ** Orders *)

#[global] Instance bytes_le_total : Total bytes_le.
Proof.
  intros a b. unfold bytes_le. destruct (bytes_ltb b a) eqn:E; [|by left]. right.
  destruct (bytes_ltb a b) eqn:E'; [|done].
  pose proof (bytes_ltb_trans _ _ _ E E') as E2. by rewrite bytes_ltb_irrefl in E2.
Qed.
#[global] Instance bytes_le_antisymm : AntiSymm (=) bytes_le.
Proof.
  intros a b Hab Hba. destruct (decide (a = b)) as [|Hne]; [done|].
  unfold bytes_le in Hab. by rewrite (bytes_ltb_total a b Hne Hba) in Hab.
Qed.
#[global] Instance bytes_le_trans : Transitive bytes_le.
Proof.
  intros a b c Hab Hbc. unfold bytes_le in *. destruct (bytes_ltb c a) eqn:E; [|done].
  destruct (decide (b = c)) as [->|Hne]; [congruence|].
  pose proof (bytes_ltb_total c b (not_eq_sym Hne) Hbc) as Hb. by rewrite (bytes_ltb_trans _ _ _ Hb E) in Hab.
Qed.

Lemma texts_ltb_irrefl a : texts_ltb a a = false.
Proof. induction a as [|x a IH]; [done|]. simpl. by rewrite bytes_ltb_irrefl, IH, andb_false_r. Qed.

Lemma texts_ltb_trans a b c : texts_ltb a b = true → texts_ltb b c = true → texts_ltb a c = true.
Proof.
  revert b c. induction a as [|x a IH]; intros [|y b] [|z c]; simpl; try done.
  rewrite !orb_true_iff, !andb_true_iff, !bool_decide_eq_true.
  intros [?|[-> ?]] [?|[-> ?]]; eauto using bytes_ltb_trans.
Qed.

Lemma texts_ltb_total a b : a ≠ b → texts_ltb a b = false → texts_ltb b a = true.
Proof.
  revert b. induction a as [|x a IH]; intros [|y b] Hne; simpl; try done.
  rewrite orb_false_iff, orb_true_iff, andb_true_iff, andb_false_iff, bool_decide_eq_true, bool_decide_eq_false.
  intros [Hxy Hr]. destruct (decide (x = y)) as [->|Hn].
  - right. split; [done|]. apply IH; naive_solver.
  - left. by apply bytes_ltb_total.
Qed.

#[global] Instance texts_le_total : Total texts_le.
Proof.
  intros a b. unfold texts_le. destruct (texts_ltb b a) eqn:E; [|by left]. right.
  destruct (texts_ltb a b) eqn:E'; [|done].
  pose proof (texts_ltb_trans _ _ _ E E') as E2. by rewrite texts_ltb_irrefl in E2.
Qed.
#[global] Instance texts_le_antisymm : AntiSymm (=) texts_le.
Proof.
  intros a b Hab Hba. destruct (decide (a = b)) as [|Hne]; [done|].
  unfold texts_le in Hab. by rewrite (texts_ltb_total a b Hne Hba) in Hab.
Qed.
#[global] Instance texts_le_trans : Transitive texts_le.
Proof.
  intros a b c Hab Hbc. unfold texts_le in *. destruct (texts_ltb c a) eqn:E; [|done].
  destruct (decide (b = c)) as [->|Hne]; [congruence|].
  pose proof (texts_ltb_total c b (not_eq_sym Hne) Hbc) as Hb. by rewrite (texts_ltb_trans _ _ _ Hb E) in Hab.
Qed.

(** Sorting forgets the order it is given. *)
Lemma merge_sort_perm {A} (R : relation A) `{!∀ x y, Decision (R x y), !Total R, !AntiSymm (=) R, !Transitive R} l k :
  l ≡ₚ k → merge_sort R l = merge_sort R k.
Proof.
  intros Hp. apply (StronglySorted_unique R); [by apply StronglySorted_merge_sort..|].
  by rewrite !merge_sort_Permutation.
Qed.

Lemma dedup_cons x y l :
  dedup (x :: y :: l) = if bool_decide (x = y) then dedup (y :: l) else x :: dedup (y :: l).
Proof. done. Qed.

Lemma dedup_elem x l : x ∈ dedup l ↔ x ∈ l.
Proof.
  induction l as [|y [|z l] IH]; [done..|]. rewrite dedup_cons. case_bool_decide as E.
  - subst. rewrite IH. set_solver.
  - rewrite !(elem_of_cons _ _ y), IH. done.
Qed.

Lemma dedup_sorted l : StronglySorted bytes_le l → StronglySorted bytes_le (dedup l).
Proof.
  induction l as [|y [|z l] IH]; [done..|]. intros [Hy Hs]%StronglySorted_cons. rewrite dedup_cons.
  case_bool_decide; [by apply IH|]. apply StronglySorted_cons. split; [|by apply IH].
  apply list.Forall_forall. intros x Hx. rewrite dedup_elem in Hx. by apply (proj1 (list.Forall_forall _ _) Hy).
Qed.

Lemma dedup_NoDup l : StronglySorted bytes_le l → NoDup (dedup l).
Proof.
  induction l as [|y [|z l] IH]; intros Hs; [constructor|apply NoDup_singleton|].
  apply StronglySorted_cons in Hs as [Hy Hs]. rewrite dedup_cons. case_bool_decide as E; [by apply IH|]. constructor; [|by apply IH].
  rewrite dedup_elem. intros Hin. apply E. apply (anti_symm bytes_le); [by inversion Hy|].
  apply StronglySorted_cons in Hs as [Hz _]. apply elem_of_cons in Hin as [->|Hin]; [done|].
  by apply (proj1 (list.Forall_forall _ _) Hz).
Qed.

(** The providers a digest covers, as a set. *)
Lemma dedup_sort_ext ps ps' :
  (∀ p, p ∈ ps ↔ p ∈ ps') → dedup (merge_sort bytes_le ps) = dedup (merge_sort bytes_le ps').
Proof.
  intros Hps. apply (StronglySorted_unique bytes_le).
  1,2: by apply dedup_sorted, StronglySorted_merge_sort; apply _.
  apply NoDup_Permutation; [by apply dedup_NoDup, StronglySorted_merge_sort; apply _..|].
  intros p. rewrite !dedup_elem, !merge_sort_Permutation. apply Hps.
Qed.

(** ** The binding digest *)

(** Length-framed fields are read back in one way. *)
Lemma be_bytes_inj n a b : 0 ≤ a < 2 ^ (8 * Z.of_nat n) → 0 ≤ b < 2 ^ (8 * Z.of_nat n) →
  be_bytes n a = be_bytes n b → a = b.
Proof.
  intros Ha Hb E. unfold be_bytes in E. apply (f_equal (fun l => le_val (rev l))) in E.
  rewrite !rev_involutive in E. by rewrite !le_val_bytes_small in E.
Qed.

Definition field_fits (f : list byte) : Prop := zlen f ≤ u64_max.

Lemma hash_field_inj f g r s :
  field_fits f → field_fits g → hash_field f ++ r = hash_field g ++ s → f = g ∧ r = s.
Proof.
  unfold hash_field, field_fits. intros Hf Hg E. rewrite <- !app_assoc in E.
  pose proof (zlen_nonneg f). pose proof (zlen_nonneg g). ints.
  apply app_inj_1 in E as [El E].
  2: { unfold be_bytes. by rewrite !length_rev, !length_le_bytes. }
  apply be_bytes_inj in El; [|change (2 ^ (8 * Z.of_nat 8)) with (2 ^ 64); apply Z.mod_pos_bound; lia..].
  rewrite !Z.mod_small in El by lia. apply app_inj_1 in E; [done|]. by apply zlen_eq.
Qed.

Lemma hash_fields_inj fs gs :
  Forall field_fits fs → Forall field_fits gs →
  mjoin (hash_field <$> fs) = mjoin (hash_field <$> gs) → fs = gs.
Proof.
  assert (∀ f l, mjoin (hash_field <$> (f :: l)) = hash_field f ++ mjoin (hash_field <$> l)) as Hc by done.
  assert (∀ f (l : list byte), hash_field f ++ l ≠ []) as Hne.
  { intros f l E. apply (f_equal zlen) in E. unfold hash_field in E. rewrite !zlen_app in E.
    unfold zlen in E. unfold be_bytes in E. rewrite length_rev, length_le_bytes in E. simpl in E. lia. }
  intros Hf. revert gs. induction Hf as [|f fs Hf1 Hf IH]; intros [|g gs] Hg E; [done| | |].
  - rewrite Hc in E. symmetry in E. by apply Hne in E.
  - rewrite Hc in E. by apply Hne in E.
  - rewrite !Hc in E. inversion Hg; subst. apply hash_field_inj in E as [-> E]; [|done..]. f_equal. by apply IH.
Qed.

(** Blocks of [n] fields headed by [p], before something that is no such block. *)
Definition headed (n : nat) (p : list byte) (x : list (list byte)) : Prop := length x = n ∧ head x = Some p.
Definition stops (n : nat) (p : list byte) (r : list (list byte)) : Prop := (length r < n)%nat ∨ head r ≠ Some p.

Lemma headed_parse n p xs ys r s : (0 < n)%nat →
  Forall (headed n p) xs → Forall (headed n p) ys → stops n p r → stops n p s →
  mjoin xs ++ r = mjoin ys ++ s → xs = ys ∧ r = s.
Proof.
  intros Hn Hx. revert ys. induction Hx as [|x xs [Hl Hh] Hx IH]; intros [|y ys] Hy Hr Hs; cbn [mjoin list_join app].
  - done.
  - intros ->. exfalso. inversion Hy as [|? ? [Hl Hh] _]; subst. destruct y; [done|]. simpl in *. injection Hh as ->.
    destruct Hr as [Hr|Hr]; [|done]. simpl in Hr. rewrite !length_app in Hr. lia.
  - intros <-. exfalso. destruct x; [done|]. simpl in *. injection Hh as ->. rewrite <- Hl in *.
    destruct Hs as [Hs|Hs]; [|done]. simpl in Hs. rewrite !length_app in Hs. lia.
  - inversion Hy as [|? ? [Hl' Hh'] Hys]; subst. rewrite <- !app_assoc. intros E.
    apply app_inj_1 in E as [-> E]; [|done]. apply IH in E as [-> ->]; done.
Qed.

(** A provider's block: its name, status and framed identities. *)
Definition Block : Type := list byte * list byte * list (list (list byte)).
Definition block_fields (b : Block) : list (list byte) := b.1.1 :: b.1.2 :: mjoin b.2.
Definition block_ok (b : Block) : Prop := Forall (headed 14 b.1.1) b.2.
Definition tail_ok (t : list (list byte)) : Prop := t = [] ∨ length t = 3%nat.

Lemma blocks_stop p l t :
  p ∉ (fun b : Block => b.1.1) <$> l → tail_ok t → stops 14 p (mjoin (block_fields <$> l) ++ t).
Proof.
  intros Hp Ht. destruct l as [|b l]; [left; destruct Ht as [->|Ht]; simpl in *; lia|].
  right. simpl. intros E. injection E as E. apply Hp. rewrite fmap_cons, E. set_solver.
Qed.

(** Neither nothing nor a three-field tail starts with a block. *)
Lemma tail_no_block b l t t' :
  block_ok b → tail_ok t → tail_ok t' → mjoin (block_fields <$> b :: l) ++ t ≠ t'.
Proof.
  intros Hok Ht Ht' E. apply (f_equal length) in E. rewrite length_app in E. revert E.
  cbn [fmap list_fmap mjoin list_join]. rewrite length_app. unfold block_fields at 1. cbn [length].
  assert (length (mjoin (block_fields <$> l)) ≠ 1%nat) as Hb.
  { destruct l as [|b' l]; [done|]. cbn [fmap list_fmap mjoin list_join]. rewrite length_app. simpl. lia. }
  assert (length (mjoin b.2) ≠ 1%nat) as Hi.
  { destruct Hok as [|x ids [Hx _] _]; [done|]. cbn [mjoin list_join]. rewrite length_app. lia. }
  unfold fmap, mjoin in *. destruct Ht as [->|Ht], Ht' as [->|Ht']; simpl; intros E; lia.
Qed.

Lemma blocks_parse l l' t t' :
  Forall block_ok l → Forall block_ok l' →
  NoDup ((fun b : Block => b.1.1) <$> l) → NoDup ((fun b : Block => b.1.1) <$> l') → tail_ok t → tail_ok t' →
  mjoin (block_fields <$> l) ++ t = mjoin (block_fields <$> l') ++ t' → l = l' ∧ t = t'.
Proof.
  intros Hl. revert l'. induction Hl as [|b l Hb Hl IH]; intros [|b' l'] Hl' Hd Hd' Ht Ht' E.
  - done.
  - symmetry in E. apply tail_no_block in E; [done| |done..]. by inversion Hl'.
  - by apply tail_no_block in E.
  - inversion Hl' as [|? ? Hb' Hl1']; subst. rewrite !fmap_cons in Hd, Hd'.
    apply NoDup_cons in Hd as [Hn Hd], Hd' as [Hn' Hd'].
    destruct b as [[p s] ids], b' as [[p' s'] ids']. cbn [fmap list_fmap mjoin list_join block_fields app fst snd] in *.
    rewrite <- !app_assoc in E. injection E as -> -> E.
    eapply (headed_parse 14 p') in E as [-> E]; [|lia|exact Hb|exact Hb'|by apply blocks_stop..].
    apply IH in E as [-> ->]; done.
Qed.

Section Digests.
Context `{Json, Aead}.

Definition block_of (e : PeerEvidenceSet) (p : list byte) : Block :=
  (p, status_as_str (evidence_status e p), merge_sort texts_le (identity_fields <$> for_provider e p)).
Definition app_fields (app : option AuthContext) : list (list byte) :=
  match app with Some a => [bs "application_auth"; domain a; principal a] | None => [] end.

Lemma binding_fields_blocks e ps app :
  binding_fields e ps app =
  mjoin (block_fields <$> (block_of e <$> dedup (merge_sort bytes_le ps))) ++ app_fields app.
Proof.
  unfold binding_fields. f_equal. f_equal. rewrite <- list_fmap_compose. apply list_fmap_ext. done.
Qed.

Lemma block_of_ok e p : block_ok (block_of e p).
Proof.
  unfold block_ok, block_of. cbn [fst snd]. apply list.Forall_forall. intros x.
  rewrite merge_sort_Permutation, list_elem_of_fmap. intros (i & -> & Hi). split; [done|].
  unfold for_provider in Hi. apply list_elem_of_In, filter_In in Hi as [_ Hi]. apply bool_decide_eq_true in Hi as <-. done.
Qed.

Lemma app_tail_ok app : tail_ok (app_fields app).
Proof. destruct app; [by right|by left]. Qed.

Lemma block_names e (l : list (list byte)) : (fun b : Block => b.1.1) <$> (block_of e <$> l) = l.
Proof. rewrite <- list_fmap_compose. by apply list_fmap_id. Qed.

#[global] Instance status_as_str_inj : Inj (=) (=) status_as_str.
Proof. intros [] []; by vm_compute. Qed.

(** What a digest covers: the providers, each one's status and identities (apart from
    their addresses and their order), and the application's domain and principal. *)
Definition same_evidence (e : PeerEvidenceSet) (ps : list (list byte)) (app : option AuthContext)
    (e' : PeerEvidenceSet) (ps' : list (list byte)) (app' : option AuthContext) : Prop :=
  (∀ p, p ∈ ps ↔ p ∈ ps') ∧
  (∀ p, p ∈ ps → evidence_status e p = evidence_status e' p ∧
     identity_fields <$> for_provider e p ≡ₚ identity_fields <$> for_provider e' p) ∧
  (fun a => (domain a, principal a)) <$> app = (fun a => (domain a, principal a)) <$> app'.

Lemma same_evidence_fields e ps app e' ps' app' :
  same_evidence e ps app e' ps' app' → binding_fields e ps app = binding_fields e' ps' app'.
Proof.
  intros (Hps & Hp & Ha). rewrite !binding_fields_blocks. f_equal.
  - rewrite (dedup_sort_ext ps' ps) by (intros p; by rewrite Hps). do 2 f_equal. apply list_fmap_ext.
    intros n p Hn. apply list_elem_of_lookup_2 in Hn. rewrite dedup_elem, merge_sort_Permutation in Hn.
    destruct (Hp p Hn) as [Hs Hi]. unfold block_of. rewrite Hs. f_equal. by apply merge_sort_perm; try apply _.
  - destruct app, app'; try done. simpl in Ha. injection Ha as E1 E2. simpl. by rewrite E1, E2.
Qed.

Lemma fields_same_evidence e ps app e' ps' app' :
  binding_fields e ps app = binding_fields e' ps' app' → same_evidence e ps app e' ps' app'.
Proof.
  rewrite !binding_fields_blocks. intros E.
  assert (∀ ps, NoDup (dedup (merge_sort bytes_le ps))) as Hd.
  { intros qs. by apply dedup_NoDup, StronglySorted_merge_sort; apply _. }
  assert (∀ e (l : list (list byte)), Forall block_ok (block_of e <$> l)) as Hok.
  { intros. apply Forall_fmap, Forall_true. intros. apply block_of_ok. }
  apply blocks_parse in E as [E Ht]; rewrite ?block_names; auto using app_tail_ok.
  assert (dedup (merge_sort bytes_le ps) = dedup (merge_sort bytes_le ps')) as Eps.
  { apply (f_equal (fmap (fun b : Block => b.1.1))) in E. by rewrite !block_names in E. }
  assert (∀ p, p ∈ ps ↔ p ∈ ps') as Hps.
  { intros p. rewrite <- (merge_sort_Permutation bytes_le ps), <- (merge_sort_Permutation bytes_le ps').
    rewrite <- dedup_elem, Eps, dedup_elem. done. }
  split_and!; [done| |].
  - intros p Hp. rewrite <- (merge_sort_Permutation bytes_le ps), <- dedup_elem in Hp.
    apply list_elem_of_lookup_1 in Hp as [n Hn].
    assert (block_of e p = block_of e' p) as Eb.
    { apply (f_equal (.!! n)) in E. rewrite !list_lookup_fmap, <- Eps, Hn in E. by apply (inj Some) in E. }
    injection Eb as Es Ei. split; [by apply (inj status_as_str)|].
    rewrite <- (merge_sort_Permutation texts_le (identity_fields <$> for_provider e p)), Ei.
    apply merge_sort_Permutation.
  - destruct app, app'; try done. simpl in *. injection Ht as -> ->. done.
Qed.

(** The text the digest hashes. *)
Definition binding_input (e : PeerEvidenceSet) (ps : list (list byte)) (app : option AuthContext) : list byte :=
  mjoin (hash_field <$> binding_fields e ps app).

(** C36. The evidence-binding digest binds exactly the evidence: two digests, over
    any providers and with or without an application identity, are equal if and only if
    they cover the same providers with the same statuses and the same identities
    (whatever their addresses, and in whatever order providers answered or were
    listed) and the same application domain and principal. No two different evidence
    sets are framed to the same text, so only a collision of the hash on the two texts
    themselves could make the digests agree. *)
Theorem binding_digest_exact e ps app e' ps' app' :
  Forall field_fits (binding_fields e ps app) → Forall field_fits (binding_fields e' ps' app') →
  (sha256 (binding_input e ps app) = sha256 (binding_input e' ps' app') →
   binding_input e ps app = binding_input e' ps' app') →
  binding_digest_inner e ps app = binding_digest_inner e' ps' app' ↔ same_evidence e ps app e' ps' app'.
Proof.
  intros Hf Hf' Hc. unfold binding_digest_inner, sha256_hex. split.
  - intros E. apply fields_same_evidence, hash_fields_inj; [done..|]. by apply Hc, bytes_to_hex_inj.
  - intros E. by rewrite (same_evidence_fields _ _ _ _ _ _ E).
Qed.
End Digests.

(** ** Evidence *)

(** What [from_results] builds: a provider is available exactly when it has
    identities, and every identity belongs to a provider that answered. *)
Definition evidence_wf (e : PeerEvidenceSet) : Prop :=
  ∀ p, evidence_status e p = Available ↔ for_provider e p ≠ [].

Lemma for_provider_app l k st p :
  for_provider (mkEvidence (l ++ k) st) p = for_provider (mkEvidence l st) p ++ for_provider (mkEvidence k st) p.
Proof. unfold for_provider. simpl. apply List.filter_app. Qed.

Lemma for_provider_own (k : list PeerIdentity) st p q :
  existsb (fun i => negb (bool_decide (provider i = p))) k = false →
  for_provider (mkEvidence k st) q = if bool_decide (q = p) then k else [].
Proof.
  unfold for_provider. simpl. induction k as [|i k IH]; simpl; [by case_bool_decide|].
  rewrite orb_false_iff, negb_false_iff, bool_decide_eq_true. intros [<- Hk]. rewrite IH by done.
  do 2 case_bool_decide; congruence.
Qed.

Lemma add_result_wf e r e' : evidence_wf e → add_result e r = Ok e' → evidence_wf e'.
Proof.
  unfold add_result. intros He. case_bool_decide as Hd; [done|].
  destruct (Bool.eqb _ _) eqn:Hs; [|done]. cbn [negb]. destruct (existsb _ _) eqn:Ho; [done|].
  intros E. inv_res. intros q. rewrite for_provider_app, (for_provider_own _ _ _ _ Ho).
  specialize (He q). unfold evidence_status in *. cbn [provider_status identities] in *.
  change (for_provider (mkEvidence (identities e) _) q) with (for_provider e q).
  destruct (bool_decide_reflect (q = pr_provider r)) as [Hq|Hq]; [subst q|].
  - rewrite lookup_insert_eq. cbn [default]. destruct (provider_status e !! pr_provider r) eqn:El; [by destruct Hd|].
    cbn [default] in He. assert (for_provider e (pr_provider r) = []) as ->.
    { destruct (for_provider e (pr_provider r)); [done|]. exfalso. assert (Off = Available) by (by apply He). done. }
    simpl. apply Bool.eqb_prop in Hs. destruct (pr_identities r); simpl in Hs; case_bool_decide; naive_solver.
  - rewrite lookup_insert_ne by done. by rewrite app_nil_r.
Qed.

Lemma from_results_wf rs e : from_results rs = Ok e → evidence_wf e.
Proof.
  unfold from_results. assert (evidence_wf evidence_default) as H1.
  { intros p. unfold evidence_status, for_provider, evidence_default. simpl. rewrite lookup_empty. by split. }
  revert H1. generalize evidence_default. induction rs as [|r rs IH]; intros e0 He0 E; simpl in E; inv_res; [done|].
  eapply IH; [|done]. by eapply add_result_wf.
Qed.

(** Every identity and every status comes from a result of its provider. *)
Lemma from_results_source rs e : from_results rs = Ok e →
  (∀ i, i ∈ identities e → ∃ r, r ∈ rs ∧ i ∈ pr_identities r ∧ provider i = pr_provider r) ∧
  (∀ p s, provider_status e !! p = Some s → ∃ r, r ∈ rs ∧ pr_provider r = p ∧ pr_status r = s).
Proof.
  unfold from_results. assert (∀ e0, try_fold add_result e0 rs = Ok e →
    (∀ i, i ∈ identities e → i ∈ identities e0 ∨ ∃ r, r ∈ rs ∧ i ∈ pr_identities r ∧ provider i = pr_provider r) ∧
    (∀ p s, provider_status e !! p = Some s →
       provider_status e0 !! p = Some s ∨ ∃ r, r ∈ rs ∧ pr_provider r = p ∧ pr_status r = s)) as H1.
  2: { intros E. destruct (H1 _ E) as [Hi Hs]. split.
       - intros i [Hn|?]%Hi; [|done]. by apply not_elem_of_nil in Hn.
       - intros p s [Hn|?]%Hs; [|done]. simpl in Hn. by rewrite lookup_empty in Hn. }
  induction rs as [|r rs IH]; intros e0 E; simpl in E; inv_res; [naive_solver|].
  destruct (IH _ E) as [Hi Hs]. unfold add_result in *. case_bool_decide; [done|].
  destruct (Bool.eqb _ _); [|done]. cbn [negb] in *. destruct (existsb _ _) eqn:Ho; [done|]. inv_res. split.
  - intros i [Hin|(r' & Hr & ?)]%Hi; [|right; exists r'; set_solver]. cbn [identities] in Hin.
    apply elem_of_app in Hin as [?|Hin]; [by left|]. right. exists r. split_and!; [set_solver|done|].
    destruct (decide (provider i = pr_provider r)) as [|Hne]; [done|]. exfalso.
    apply not_true_iff_false in Ho. apply Ho, existsb_exists. exists i.
    split; [by apply list_elem_of_In|]. by rewrite bool_decide_eq_false_2.
  - intros p s [Hin|(r' & Hr & ?)]%Hs; [|right; exists r'; set_solver]. cbn [provider_status] in Hin.
    apply lookup_insert_Some in Hin as [[<- <-]|[_ Hin]]; [|by left]. right. exists r. set_solver.
Qed.

(** The one identity a policy may take a subject from. *)
Definition usable (e : PeerEvidenceSet) (p : list byte) (i : PeerIdentity) : Prop :=
  evidence_status e p = Available ∧ List.filter verified_stable (for_provider e p) = [i].

Lemma unique_verified_subject_Ok e p i :
  unique_verified_subject e p = Ok i ↔ List.filter verified_stable (for_provider e p) = [i].
Proof. unfold unique_verified_subject. destruct (List.filter _ _) as [|j [|k l]]; naive_solver. Qed.

Lemma unique_usable e p i : evidence_wf e → unique_verified_subject e p = Ok i ↔ usable e p i.
Proof.
  intros He. rewrite unique_verified_subject_Ok. split; [|by intros [_ ?]]. intros E. split; [|done].
  apply He. intros E'. by rewrite E' in E.
Qed.

Lemma require_usable_Ok e p i : evidence_wf e → require_usable_provider e p = Ok i ↔ usable e p i.
Proof.
  intros He. unfold require_usable_provider. rewrite bind_Ok. split.
  - intros ([] & _ & E). by apply unique_usable.
  - intros Hu. exists tt. split; [|by apply unique_usable]. by destruct Hu as [-> _].
Qed.

Lemma usable_facts e p i : usable e p i → provider i = p ∧ verified_stable i = true ∧ i ∈ identities e.
Proof.
  intros [_ E]. assert (i ∈ List.filter verified_stable (for_provider e p)) as Hi by (rewrite E; set_solver).
  apply list_elem_of_In, filter_In in Hi as [Hi Hv]. apply filter_In in Hi as [Hi Hp].
  apply bool_decide_eq_true in Hp. split_and!; [done..|]. by apply list_elem_of_In.
Qed.

Lemma usable_subject e p i : usable e p i → ∃ s, subject_key i = Some s.
Proof.
  intros (_ & Hv & _)%usable_facts. unfold verified_stable in Hv. rewrite !andb_true_iff in Hv.
  destruct Hv as [[_ Hk] _]. by apply bool_decide_eq_true in Hk as [s ?]; eauto.
Qed.

(** ** Policies *)
Section Policies.
Context `{Json, Aead}.

(** The context [peer_identity_primary] builds for an identity with a subject. *)
Definition peer_context (e : PeerEvidenceSet) (p : list byte) (i : PeerIdentity) (s : list byte) : AuthContext :=
  mkAuthContext p true
    (bs "peer/" ++ percent_encode (provider i) ++ x2f :: percent_encode (issuer i) ++ x2f :: percent_encode s)
    (<[EVIDENCE_BINDING_CLAIM := binding_digest e [p]]> (<[bs "subject" := s]>
       (<[bs "evidence_source" := evidence_source i]> (<[bs "assurance" := assurance_as_str (assurance i)]>
          (<[bs "subject_kind" := kind_as_str (subject_kind i)]> {[bs "issuer" := issuer i]}))))).

Lemma primary_Ok e p a r : evidence_wf e →
  peer_identity_primary p e a = Ok r ↔ ∃ i s, usable e p i ∧ subject_key i = Some s ∧ r = peer_context e p i s.
Proof.
  intros He. unfold peer_identity_primary. rewrite bind_Ok. split.
  - intros (i & Hu%require_usable_Ok & E); [|done]. apply bind_Ok in E as (q & (s & Hs & ->)%canonical_principal_Ok & E).
    apply bind_Ok in E as (s' & Hs'%or_panic_Ok & E). rewrite Hs in Hs'. injection Hs' as <-.
    exists i, s. split_and!; [done..|]. injection E as <-. done.
  - intros (i & s & Hu & Hs & ->). exists i. split; [by apply require_usable_Ok|].
    unfold canonical_principal. rewrite Hs. done.
Qed.

(** The verified stable subjects of a provider. *)
Definition subjects (e : PeerEvidenceSet) (p : list byte) : list PeerIdentity :=
  List.filter verified_stable (for_provider e p).

(** A provider whose evidence spoils every alternative: refused or ambiguous. *)
Definition spoils (e : PeerEvidenceSet) (p : list byte) : Prop :=
  evidence_status e p = Invalid ∨ evidence_status e p = UntrustedProxy ∨ (1 < length (subjects e p))%nat.

Lemma check_listed_Ok e p : evidence_wf e → check_listed e p = Ok tt ↔ ¬ spoils e p.
Proof.
  intros He. unfold check_listed, spoils, require_usable_provider, reject_ambiguous_provider. fold (subjects e p).
  assert (evidence_status e p ≠ Available → subjects e p = []) as Hn.
  { intros Hs. unfold subjects. specialize (He p). destruct (for_provider e p); [done|]. naive_solver. }
  destruct (evidence_status e p) eqn:Es; cbn [refuse_status mbind res_bind];
    try (rewrite bool_decide_eq_false_2 by done); try (rewrite bool_decide_eq_true_2 by done);
    try (rewrite Hn by done; simpl; split; [intros _; intros [?|[?|?]]; (done || lia)|done]);
    try (split; [done|naive_solver]).
  destruct (Z.ltb_spec 1 (zlen (subjects e p))) as [Hl|Hl]; unfold zlen in Hl; split; try done.
  - intros Hx. exfalso. apply Hx. right; right. lia.
  - intros _ [?|[?|?]]; [done..|lia].
Qed.

Lemma check_all_Ok e ps : evidence_wf e →
  try_fold (fun _ p => check_listed e p) tt ps = Ok tt ↔ ∀ p, p ∈ ps → ¬ spoils e p.
Proof.
  intros He. induction ps as [|p ps IH]; simpl; [set_solver|]. rewrite bind_Ok. split.
  - intros ([] & Hp & Hps) q Hq. rewrite check_listed_Ok in Hp by done. rewrite IH in Hps.
    apply elem_of_cons in Hq as [->|Hq]; auto.
  - intros Hps. exists tt. split; [apply check_listed_Ok; [done|]; set_solver|]. apply IH. set_solver.
Qed.

Lemma unique_is_ok e p : is_ok (unique_verified_subject e p) = true ↔ length (subjects e p) = 1%nat.
Proof. unfold unique_verified_subject. fold (subjects e p). by destruct (subjects e p) as [|i [|j l]]. Qed.

(** The [any_of] policy, on evidence collected from any provider results: it
    authenticates a call if and only if no listed provider's evidence was refused as
    invalid, came through an untrusted proxy or names several subjects; and then as
    the application caller when there is one, otherwise as the subject of the first
    listed provider with exactly one verified stable subject, under the principal that
    provider, issuer and subject determine. An application caller cannot hide bad
    evidence, and an unavailable provider authenticates nobody. *)
Theorem any_of_exact rs e ps a r :
  from_results rs = Ok e →
  any_of_policy ps e a = Ok r ↔
    (∀ p, p ∈ ps → ¬ spoils e p) ∧
    (authenticated a = true ∧ r = a ∨
     authenticated a = false ∧ ∃ pre p post i s, ps = pre ++ p :: post ∧ (∀ q, q ∈ pre → subjects e q = []) ∧
       usable e p i ∧ subject_key i = Some s ∧ r = peer_context e p i s).
Proof.
  intros He%from_results_wf. unfold any_of_policy. rewrite bind_Ok.
  assert (∀ p, p ∈ ps → (∀ p, p ∈ ps → ¬ spoils e p) → (length (subjects e p) ≤ 1)%nat) as Hone.
  { intros p Hp Hs. specialize (Hs p Hp). unfold spoils in Hs. destruct (decide (length (subjects e p) ≤ 1)%nat); [done|].
    exfalso. apply Hs. right; right. lia. }
  split.
  - intros ([] & Hs & E). rewrite check_all_Ok in Hs by done. split; [done|]. destruct (authenticated a); [left; naive_solver|right].
    split; [done|]. destruct (List.find _ ps) as [p|] eqn:Ef; [|by case_match].
    apply find_split in Ef as (pre & post & Eps & Hp & Hpre).
    apply primary_Ok in E as (i & s & Hu & Hk & ->); [|done]. exists pre, p, post, i, s. split_and!; [done| |done..].
    intros q Hq. assert (q ∈ ps) as Hq' by set_solver. specialize (Hone q Hq' Hs). specialize (Hpre q Hq).
    destruct (subjects e q) as [|j [|k l]] eqn:Eq; [done| |simpl in *; lia].
    by rewrite (proj2 (unique_is_ok e q)) in Hpre by (by rewrite Eq).
  - intros (Hs & Hr). exists tt. split; [by apply check_all_Ok|].
    destruct Hr as [[-> ->]|(-> & pre & p & post & i & s & Eps & Hpre & Hu & Hk & ->)]; [done|].
    assert (List.find (fun p => is_ok (unique_verified_subject e p)) ps = Some p) as ->.
    { apply find_split. exists pre, post. split_and!; [done|by apply unique_is_ok; unfold subjects; rewrite (proj2 Hu)|].
      intros q Hq. destruct (is_ok _) eqn:Eo; [|done]. apply unique_is_ok in Eo. by rewrite Hpre in Eo. }
    apply primary_Ok; [done|]. eauto.
Qed.

(** The identities [all_of] hands its linker: of each provider its usable one. *)
Definition collected (e : PeerEvidenceSet) (ps : list (list byte)) (ids : gmap (list byte) PeerIdentity) : Prop :=
  ∀ p, match ids !! p with Some i => p ∈ ps ∧ usable e p i | None => p ∉ ps end.

Lemma collect_Ok e ps ids : evidence_wf e →
  try_fold (collect_identity e) ∅ ps = Ok ids ↔ collected e ps ids.
Proof.
  intros He.
  assert (∀ m, try_fold (collect_identity e) m ps = Ok ids ↔
    ∀ p, if decide (p ∈ ps) then ∃ i, ids !! p = Some i ∧ usable e p i else ids !! p = m !! p) as H1.
  { induction ps as [|p ps IH]; intros m; simpl.
    - split; [intros [= ->]; done|]. intros Hm. f_equal. apply map_eq. intros p. by rewrite Hm.
    - unfold collect_identity at 1. rewrite bind_Ok. split.
      + intros (m' & Hm' & E) q. apply bind_Ok in Hm' as (i & Hi & [= <-]). rewrite require_usable_Ok in Hi by done.
        rewrite IH in E. specialize (E q). destruct (decide (q ∈ ps)) as [Hq|Hq].
        { rewrite decide_True by set_solver. done. }
        case_decide as Hq'.
        * apply elem_of_cons in Hq' as [->|]; [|done]. rewrite lookup_insert_eq in E. eauto.
        * rewrite lookup_insert_ne in E by set_solver. done.
      + intros Hids. pose proof (Hids p) as Hp. rewrite decide_True in Hp by set_solver. destruct Hp as (i & Hi & Hu).
        exists (<[p := i]> m). split; [apply bind_Ok; exists i; by rewrite require_usable_Ok|]. apply IH. intros q.
        specialize (Hids q). destruct (decide (q ∈ ps)) as [Hq|Hq]; [by rewrite decide_True in Hids by set_solver|].
        destruct (decide (q = p)) as [->|Hne]; [by rewrite lookup_insert_eq|].
        rewrite lookup_insert_ne by done. rewrite decide_False in Hids by set_solver. done. }
  rewrite H1. unfold collected. apply forall_proper. intros p. rewrite lookup_empty.
  case_decide; destruct (ids !! p) as [i|]; naive_solver.
Qed.

(** The context [all_of] builds. *)
Definition linked_context (e : PeerEvidenceSet) (ps : list (list byte)) (a : AuthContext) (p : list byte)
    (i : PeerIdentity) (s : list byte) : AuthContext :=
  mkAuthContext p true
    (bs "peer/" ++ percent_encode (provider i) ++ x2f :: percent_encode (issuer i) ++ x2f :: percent_encode s)
    (<[bs "application_domain" := domain a]> (<[EVIDENCE_BINDING_CLAIM := application_binding_digest e ps a]>
       (<[bs "application_principal" := principal a]> {[bs "issuer" := issuer i]}))).

(** The [all_of] policy, on evidence collected from any provider results:
    it authenticates a call if and only if the application authenticated a caller,
    every listed provider has exactly one verified stable subject, and the linker
    accepts that caller together with exactly these identities; and then as the
    subject of the selected provider, with the application caller and the digest of
    all the evidence among the claims. *)
Theorem all_of_exact rs e ps sel linker a r :
  from_results rs = Ok e →
  all_of_policy ps sel linker e a = Ok r ↔
    authenticated a = true ∧ ∃ ids i s, collected e ps ids ∧ linker a ids = Ok tt ∧
      usable e sel i ∧ subject_key i = Some s ∧ r = linked_context e ps a sel i s.
Proof.
  intros He%from_results_wf. unfold all_of_policy. destruct (authenticated a); cbn [negb]; [|naive_solver].
  split.
  - intros E. split; [done|]. apply bind_Ok in E as (ids & Hc & E). rewrite collect_Ok in Hc by done.
    apply bind_Ok in E as ([] & Hl & E). apply bind_Ok in E as (i & Hi & E). rewrite require_usable_Ok in Hi by done.
    apply bind_Ok in E as (q & (s & Hs & ->)%canonical_principal_Ok & [= <-]). by exists ids, i, s.
  - intros (_ & ids & i & s & Hc & Hl & Hu & Hs & ->). rewrite <- collect_Ok in Hc by done. rewrite Hc.
    cbn [mbind res_bind]. rewrite Hl. cbn [mbind res_bind]. rewrite <- require_usable_Ok in Hu by done. rewrite Hu.
    cbn [mbind res_bind]. unfold canonical_principal. rewrite Hs. done.
Qed.

(** A peer principal names one subject: of two calls authenticated under the same
    principal the identities agree on provider, issuer and subject, whatever bytes
    those contain. *)
Lemma principal_names_one_subject e e' p p' i i' s s' :
  usable e p i → usable e' p' i' → subject_key i = Some s → subject_key i' = Some s' →
  principal (peer_context e p i s) = principal (peer_context e' p' i' s') →
  p = p' ∧ issuer i = issuer i' ∧ s = s'.
Proof.
  intros (<- & _)%usable_facts (<- & _)%usable_facts Hs Hs' E. by apply app_inv_head, principal_text_inj in E.
Qed.
End Policies.
