(* ===== verification/ProxyIdentity.v ===== *)
(** * Identities that an adjacent proxy forwards

    Providers that read a peer's identity from the headers of a request and believe
    them only from configured immediate peers: the Iroh bridge
    ([vgi-rpc/src/auth/iroh.rs]), SPIFFE through Envoy, a GCP load balancer or a
    forwarded certificate ([vgi-rpc/src/auth/spiffe_proxy.rs]) and Tailscale Serve
    ([vgi-rpc/src/auth/tailscale.rs]). A configured set of addresses is a list without
    order. The certificate parser is third-party code ([X509]). *)

From S2P Require Import Prelude Bytes F64 Json ErrorModel Errors Crypto External Net ProxyProtocol Auth PeerIdentity.

#[local] Open Scope Z_scope.

(** [address.parse::<IpAddr>().map(normalize_ip)] *)
Definition exact_ip (v : list byte) : option IpAddr := normalize_ip <$> parse_ip v.

(** The peer's address, if one of the list. *)
Definition trusts (trusted : list IpAddr) (c : PeerResolutionContext) : bool :=
  match imm ← immediate_peer c; exact_ip imm with
  | Some a => bool_decide (a ∈ trusted)
  | None => false
  end.

(** ** The Iroh bridge *)
Module Iroh.
Definition PROVIDER : list byte := bs "iroh".
Definition IROH_FORWARDED_ENDPOINT_HEADER : list byte := bs "VGI-Forwarded-Iroh-Endpoint".

Record IrohForwardedHeaderConfig := mkConfig {
  issuer : list byte;
  trusted_proxy_addresses : list IpAddr
}.

Definition validate_issuer (iss : list byte) : res RpcError unit :=
  if bool_decide (iss = []) || contains_control iss
  then Err (RpcErr.value_error (bs "Iroh issuer must be a non-empty Unicode string without controls")) else Ok tt.

Definition no_bridge : RpcError := RpcErr.value_error (bs "at least one exact Iroh bridge address is required").

(** One configured address: exact, and not yet in the set. *)
Definition insert_bridge (trusted : list IpAddr) (configured : list byte) : res RpcError (list IpAddr) :=
  a ← ok_or (RpcErr.value_error (bs "Iroh bridge addresses must be exact IPv4 or IPv6 addresses")) (exact_ip configured);
  if bool_decide (a ∈ trusted) then Err (RpcErr.value_error (bs "duplicate Iroh bridge address")) else
  Ok (trusted ++ [a]).

(** [IrohForwardedHeaderConfig::new] *)
Definition config_new (iss : list byte) (addresses : list (list byte)) : res RpcError IrohForwardedHeaderConfig :=
  _ ← validate_issuer iss;
  trusted ← try_fold insert_bridge [] addresses;
  if bool_decide (trusted = []) then Err no_bridge else Ok (mkConfig iss trusted).

Definition validate (c : IrohForwardedHeaderConfig) : res RpcError unit :=
  _ ← validate_issuer (issuer c);
  if bool_decide (trusted_proxy_addresses c = []) then Err no_bridge else Ok tt.

Definition canonical_endpoint (endpoint : list byte) : bool :=
  (zlen endpoint =? 64) && forallb (fun b => is_ascii_digit b || in_range b 97 102) endpoint.

Definition HEX : list byte := bs "0123456789abcdef".
Definition endpoint_subject (endpoint : list byte) : list byte :=
  mjoin ((fun b => [default x00 (znth HEX (Z.shiftr (b2z b) 4)); default x00 (znth HEX (Z.land (b2z b) 0x0f))]) <$> endpoint).

Section Resolve.
Context `{Json}.

Definition forwarded_identity (endpoint iss transport evidence_source proxy_address : list byte)
  : res RpcError PeerIdentity :=
  _ ← validate_issuer iss;
  if negb (canonical_endpoint endpoint)
  then Err (RpcErr.value_error (bs "Iroh EndpointId must be canonical lowercase hexadecimal")) else
  i ← identity_new PROVIDER evidence_source ConfiguredProxy iss transport;
  i ← with_subject Endpoint endpoint Stable true i;
  i ← with_attributes [(bs "original_assurance", JString (bs "cryptographic_peer"))] i;
  Ok (with_addresses (Some endpoint) (Some proxy_address) i).

(** The provider's closure. *)
Definition resolve (config : IrohForwardedHeaderConfig) (c : PeerResolutionContext) : res RpcError PeerIdentityResult :=
  if negb (trusts (trusted_proxy_addresses config) c) then without_identity PROVIDER UntrustedProxy else
  match peer_header c IROH_FORWARDED_ENDPOINT_HEADER with
  | Ok None => without_identity PROVIDER NoMatch
  | Ok (Some endpoint) =>
    if negb (canonical_endpoint endpoint) then without_identity PROVIDER Invalid else
    proxy ← or_panic (immediate_peer c);
    match forwarded_identity endpoint (issuer config) (bs "http") (bs "http_proxy") proxy with
    | Ok i => Ok (result_available i)
    | Err _ => without_identity PROVIDER Invalid
    | Panic => Panic
    end
  | Err _ => without_identity PROVIDER Invalid
  | Panic => Panic
  end.

Definition iroh_forwarded_header_provider (config : IrohForwardedHeaderConfig) : res RpcError PeerIdentityProvider :=
  _ ← validate config;
  provider_new PROVIDER (resolve config).
End Resolve.
End Iroh.

(** [fn hex(byte)], [Err(())] as [None]: a digit of either case. *)
Definition hex (b : byte) : option Z := hex_value b.

(** ** SPIFFE *)
Module Spiffe.
Definition PROVIDER : list byte := bs "spiffe".
Definition DEFAULT_MAX_HEADER_BYTES : Z := 16384.

Record SpiffeProxyConfig := mkProxyConfig {
  trust_domains : list (list byte);
  trusted_proxy_addresses : list IpAddr;
  max_header_bytes : Z
}.

Definition domain_end (b : byte) : bool := in_range b 97 122 || is_ascii_digit b.
Definition valid_trust_domain (v : list byte) : bool :=
  (1 <=? zlen v) && (zlen v <=? 255)
  && match head v with Some b => domain_end b | None => false end
  && match head (rev v) with Some b => domain_end b | None => false end
  && forallb (fun b => domain_end b || bool_decide (b ∈ bs "._-")) v.

Definition validate (c : SpiffeProxyConfig) : res RpcError unit :=
  if bool_decide (trust_domains c = []) || bool_decide (trusted_proxy_addresses c = [])
     || (max_header_bytes c =? 0) || existsb (fun d => negb (valid_trust_domain d)) (trust_domains c)
  then Err (RpcErr.value_error (bs "SPIFFE trust domains, exact trusted proxy addresses, and a positive limit are required"))
  else Ok tt.

Definition config_new (domains addresses : list (list byte)) : res RpcError SpiffeProxyConfig :=
  trusted ← mapM (fun v =>
    ok_or (RpcErr.value_error (bs "trusted proxy addresses must be exact IP addresses")) (exact_ip v)) addresses;
  let config := mkProxyConfig domains trusted DEFAULT_MAX_HEADER_BYTES in
  _ ← validate config;
  Ok config.

Definition with_max_header_bytes (maximum : Z) (c : SpiffeProxyConfig) : res RpcError SpiffeProxyConfig :=
  let c := mkProxyConfig (trust_domains c) (trusted_proxy_addresses c) maximum in
  _ ← validate c;
  Ok c.

Definition path_byte (b : byte) : bool := is_ascii_alphanumeric b || bool_decide (b ∈ bs "._-").
Definition bad_segment (s : list byte) : bool :=
  bool_decide (s = []) || bool_decide (s = bs ".") || bool_decide (s = bs "..") || negb (forallb path_byte s).

(** [validate_spiffe_id]: the allowed trust domain of a canonical SPIFFE id. *)
Definition validate_spiffe_id (v : list byte) (domains : list (list byte)) : res RpcError (list byte) :=
  if bool_decide (v = []) || (2048 <? zlen v) || existsb (fun b => negb (in_range b 0x20 0x7e)) v
     || bool_decide (x25 ∈ v) || negb (starts_with (bs "spiffe://") v)
  then Err (RpcErr.value_error (bs "invalid SPIFFE ID size or encoding")) else
  remainder ← or_panic (str_slice v (zlen (bs "spiffe://")) (zlen v));
  '(dom, path) ← ok_or (RpcErr.value_error (bs "SPIFFE ID requires a workload path")) (split_once x2f remainder);
  if negb (valid_trust_domain dom) || negb (bool_decide (dom ∈ domains))
  then Err (RpcErr.value_error (bs "SPIFFE trust domain is invalid or not allowed")) else
  if bool_decide (path = []) || ends_with [x2f] path || existsb bad_segment (split_on x2f path)
  then Err (RpcErr.value_error (bs "SPIFFE path is not canonical")) else
  Ok dom.

Definition invalid : res RpcError PeerIdentityResult := without_identity PROVIDER Invalid.
Definition no_match : res RpcError PeerIdentityResult := without_identity PROVIDER NoMatch.
Definition untrusted : res RpcError PeerIdentityResult := without_identity PROVIDER UntrustedProxy.

(** *** Envoy's [X-Forwarded-Client-Cert] *)
Record EnvoyXfccSpiffeConfig := mkEnvoyConfig { envoy_proxy : SpiffeProxyConfig; header : list byte }.

Definition envoy_new (p : SpiffeProxyConfig) : EnvoyXfccSpiffeConfig := mkEnvoyConfig p (bs "X-Forwarded-Client-Cert").

Definition envoy_validate (c : EnvoyXfccSpiffeConfig) : res RpcError unit :=
  _ ← validate (envoy_proxy c);
  if negb (is_http_field_name (header c)) then Err (RpcErr.value_error (bs "invalid Envoy XFCC header name")) else Ok tt.

Definition with_header (h : list byte) (c : EnvoyXfccSpiffeConfig) : res RpcError EnvoyXfccSpiffeConfig :=
  let c := mkEnvoyConfig (envoy_proxy c) h in
  _ ← envoy_validate c;
  Ok c.

(** What [split_xfcc] has read: the parts, the part being read, the two flags. *)
Record Splitting := mkSplitting { parts : list (list byte); current : list byte; quoted : bool; escaped : bool }.

Definition split_byte (delimiter : byte) (s : Splitting) (b : byte) : option Splitting :=
  if escaped s then
    if bool_decide (b = x22) || bool_decide (b = x5c)
    then Some (mkSplitting (parts s) (current s ++ [b]) (quoted s) false) else None
  else if quoted s && bool_decide (b = x5c) then Some (mkSplitting (parts s) (current s) (quoted s) true)
  else if bool_decide (b = x22) then Some (mkSplitting (parts s) (current s ++ [b]) (negb (quoted s)) (escaped s))
  else if bool_decide (b = delimiter) && negb (quoted s)
  then (p ← from_utf8 (current s); Some (mkSplitting (parts s ++ [p]) [] (quoted s) (escaped s)))
  else Some (mkSplitting (parts s) (current s ++ [b]) (quoted s) (escaped s)).

Fixpoint split_bytes (delimiter : byte) (s : Splitting) (l : list byte) : option Splitting :=
  match l with
  | [] => Some s
  | b :: l => s ← split_byte delimiter s b; split_bytes delimiter s l
  end.

Definition split_xfcc (v : list byte) (delimiter : byte) : option (list (list byte)) :=
  s ← split_bytes delimiter (mkSplitting [] [] false false) v;
  if quoted s || escaped s then None else
  p ← from_utf8 (current s);
  Some (parts s ++ [p]).

(** [s.strip_suffix(p)] *)
Definition cut_suffix (p l : list byte) : option (list byte) := @rev byte <$> strip_prefix (rev p) (rev l).

Definition xfcc_value (v : list byte) : option (list byte) :=
  if starts_with [x22] v || ends_with [x22] v then (v ← strip_prefix [x22] v; cut_suffix [x22] v)
  else if bool_decide (v = []) || existsb (fun b => bool_decide (b ∈ bs ",;=")) v then None
  else Some v.

Definition is_ascii_alphabetic (b : byte) : bool := in_range b 65 90 || in_range b 97 122.
Definition valid_xfcc_key (v : list byte) : bool :=
  match head v with Some b => is_ascii_alphabetic b | None => false end
  && forallb (fun b => is_ascii_alphanumeric b || bool_decide (b ∈ bs "_-")) v.

(** The bytes a decoded value may hold. *)
Definition decoded_byte_ok (certificate : bool) (z : Z) : bool :=
  if certificate
  then negb ((0x80 <=? z) || (z =? 0x7f) || (z <? 0x20) && negb ((z =? 0x0d) || (z =? 0x0a)))
  else negb ((z <? 0x20) || (z =? 0x7f)).

Fixpoint percent_bytes (certificate : bool) (l : list byte) : option (list byte) :=
  match l with
  | [] => Some []
  | x25 :: a :: b :: l =>
    h ← hex a; k ← hex b;
    let z := Z.lor (Z.shiftl h 4) k in
    if decoded_byte_ok certificate z then (r ← percent_bytes certificate l; Some (z2b z :: r)) else None
  | x25 :: _ => None
  | c :: l =>
    if decoded_byte_ok certificate (b2z c) then (r ← percent_bytes certificate l; Some (c :: r)) else None
  end.

Definition strict_percent_decode (v : list byte) (certificate : bool) : option (list byte) :=
  d ← percent_bytes certificate v; from_utf8 d.

Definition allowed_fields : list (list byte) :=
  bs <$> ["by"; "hash"; "cert"; "chain"; "subject"; "uri"; "dns"; "issuer"]%string.
Definition encoded_fields : list (list byte) := bs <$> ["by"; "uri"; "cert"; "chain"]%string.
Definition repeated_fields : list (list byte) := bs <$> ["by"; "uri"; "dns"]%string.

Abbreviation fields := (gmap (list byte) (list (list byte))).

(** One [key=value] of the element. *)
Definition add_pair (m : fields) (pair : list byte) : option fields :=
  '(key_raw, value_raw) ← split_once x3d pair;
  let key_raw := trim key_raw in
  let key := to_ascii_lowercase <$> key_raw in
  if negb (valid_xfcc_key key_raw) || negb (bool_decide (key ∈ allowed_fields)) then None else
  v ← xfcc_value (trim value_raw);
  v ← (if bool_decide (key ∈ encoded_fields) then strict_percent_decode v false else Some v);
  if negb (bool_decide (key ∈ repeated_fields)) && bool_decide (is_Some (m !! key)) then None else
  Some (<[key := default [] (m !! key) ++ [v]]> m).

Fixpoint add_pairs (m : fields) (ps : list (list byte)) : option fields :=
  match ps with [] => Some m | p :: ps => m ← add_pair m p; add_pairs m ps end.

Definition is_ascii (v : list byte) : bool := forallb (fun b => b2z b <? 0x80) v.

Definition parse_xfcc (raw : list byte) (maximum_bytes : Z) : option fields :=
  if bool_decide (raw = []) || (maximum_bytes <? zlen raw) || negb (is_ascii raw) || contains_control raw then None else
  elements ← split_xfcc raw x2c;
  match elements with
  | [e] =>
    if bool_decide (trim e = []) then None else
    pairs ← split_xfcc e x3b;
    add_pairs ∅ pairs
  | _ => None
  end.

Definition is_ascii_hexdigit (b : byte) : bool := bool_decide (is_Some (hex_value b)).

Section Resolve.
Context `{Json}.

Definition workload_identity (c : PeerResolutionContext) (id trust_domain evidence_source : list byte) (attrs : Map)
  : res RpcError PeerIdentityResult :=
  i ← identity_new PROVIDER evidence_source ConfiguredProxy (bs "spiffe://" ++ trust_domain) (bs "http");
  i ← with_subject Workload id Stable true i;
  i ← with_attributes attrs i;
  Ok (result_available (with_addresses (asserted_peer c) (immediate_peer c) i)).

Definition resolve_envoy (config : EnvoyXfccSpiffeConfig) (c : PeerResolutionContext) : res RpcError PeerIdentityResult :=
  if negb (trusts (trusted_proxy_addresses (envoy_proxy config)) c) then untrusted else
  match peer_header c (header config) with
  | Ok None => no_match
  | Ok (Some raw) =>
    match parse_xfcc raw (max_header_bytes (envoy_proxy config)) with
    | None => invalid
    | Some m =>
      match m !! bs "uri", m !! bs "hash" with
      | Some [uri], Some [hash] =>
        if negb (zlen hash =? 64) || negb (forallb is_ascii_hexdigit hash) then invalid else
        match validate_spiffe_id uri (trust_domains (envoy_proxy config)) with
        | Ok dom =>
          let attrs := [(bs "certificate_sha256", JString (to_ascii_lowercase <$> hash))] in
          let attrs := match m !! bs "by" with
                       | Some issued => jinsert (bs "proxy_identities") (JArray (JString <$> issued)) attrs
                       | None => attrs
                       end in
          workload_identity c uri dom (bs "envoy_xfcc_sanitize_set") attrs
        | Err _ => invalid
        | Panic => Panic
        end
      | _, _ => invalid
      end
    end
  | Err _ => invalid
  | Panic => Panic
  end.

Definition envoy_xfcc_spiffe_provider (config : EnvoyXfccSpiffeConfig) : res RpcError PeerIdentityProvider :=
  _ ← envoy_validate config;
  provider_new PROVIDER (resolve_envoy config).
End Resolve.

(** *** A Google Cloud load balancer *)
Record GcpSpiffeConfig := mkGcpConfig {
  gcp_proxy : SpiffeProxyConfig;
  spiffe_id_header : list byte;
  present_header : list byte;
  chain_verified_header : list byte;
  error_header : list byte
}.

Definition gcp_new (p : SpiffeProxyConfig) : GcpSpiffeConfig :=
  mkGcpConfig p (bs "X-Client-Cert-Spiffe-Id") (bs "X-Client-Cert-Present") (bs "X-Client-Cert-Chain-Verified")
    (bs "X-Client-Cert-Error").

(** One name of the loop: well formed and not yet used, whatever its case. *)
Definition distinct_header (seen : list (list byte)) (h : list byte) : res RpcError (list (list byte)) :=
  if negb (is_http_field_name h) || bool_decide ((to_ascii_lowercase <$> h) ∈ seen)
  then Err (RpcErr.value_error (bs "GCP mTLS headers must be valid and case-insensitively distinct"))
  else Ok ((to_ascii_lowercase <$> h) :: seen).

Definition gcp_validate (c : GcpSpiffeConfig) : res RpcError unit :=
  _ ← validate (gcp_proxy c);
  _ ← try_fold distinct_header [] [spiffe_id_header c; present_header c; chain_verified_header c; error_header c];
  Ok tt.

Definition with_headers (spiffe_id present chain_verified error : list byte) (c : GcpSpiffeConfig)
  : res RpcError GcpSpiffeConfig :=
  let c := mkGcpConfig (gcp_proxy c) spiffe_id present chain_verified error in
  _ ← gcp_validate c;
  Ok c.

Section Gcp.
Context `{Json}.

Definition resolve_gcp (config : GcpSpiffeConfig) (c : PeerResolutionContext) : res RpcError PeerIdentityResult :=
  if negb (trusts (trusted_proxy_addresses (gcp_proxy config)) c) then untrusted else
  match peer_header c (spiffe_id_header config), peer_header c (present_header config),
        peer_header c (chain_verified_header config), peer_header c (error_header config) with
  | Ok id, Ok present, Ok verified, Ok failure =>
    if bool_decide (present = Some (bs "false"))
       && match verified with Some v => bool_decide (v = bs "false") | None => true end
       && bool_decide (id = None)
    then no_match else
    if negb (bool_decide (present = Some (bs "true"))) || negb (bool_decide (verified = Some (bs "true")))
       || match failure with Some v => negb (bool_decide (v = [])) | None => false end
       || match id with Some v => bool_decide (v = []) | None => true end
    then invalid else
    id ← or_panic id;
    if max_header_bytes (gcp_proxy config) <? zlen id then invalid else
    match validate_spiffe_id id (trust_domains (gcp_proxy config)) with
    | Ok dom =>
      workload_identity c id dom (bs "gcp_load_balancer_mtls")
        (jobject [(bs "client_certificate_present", JBool true); (bs "client_certificate_chain_verified", JBool true)])
    | Err _ => invalid
    | Panic => Panic
    end
  | Panic, _, _, _ | _, Panic, _, _ | _, _, Panic, _ | _, _, _, Panic => Panic
  | _, _, _, _ => invalid
  end.

Definition gcp_load_balancer_spiffe_provider (config : GcpSpiffeConfig) : res RpcError PeerIdentityProvider :=
  _ ← gcp_validate config;
  provider_new PROVIDER (resolve_gcp config).
End Gcp.

(** *** A client certificate the proxy verified and forwards *)

(** What [parse_x509_pem] and [parse_x509_certificate] give: [None] is their error. An
    extension is an error, absent or there. *)
Inductive GeneralName := URI (uri : list byte) | OtherName.
Record KeyUsage := mkKeyUsage { usage_critical : bool; digital_signature : bool; key_cert_sign : bool; crl_sign : bool }.
Record X509Certificate := mkCertificate {
  is_valid : bool;
  subject_alternative_name : option (option (bool * list GeneralName));
  subject_empty : bool;
  basic_constraints_ca : option (option bool);
  key_usage : option (option KeyUsage);
  extended_key_usage : option (option (bool * bool))
}.
Class X509 := {
  parse_x509_pem : list byte → option (list byte * list byte * list byte);
  parse_x509_certificate : list byte → option (list byte * X509Certificate)
}.

Record SpiffeCertificateHeaderConfig := mkCertConfig {
  cert_proxy : SpiffeProxyConfig;
  certificate_header : list byte;
  verification_header : list byte;
  verification_value : list byte;
  cert_evidence_source : list byte
}.

Definition cert_new (p : SpiffeProxyConfig) (verification : list byte) : SpiffeCertificateHeaderConfig :=
  mkCertConfig p (bs "X-SSL-Client-Cert") verification (bs "true") (bs "verified_certificate_header").

Definition cert_validate (c : SpiffeCertificateHeaderConfig) : res RpcError unit :=
  _ ← validate (cert_proxy c);
  if negb (is_http_field_name (certificate_header c)) || negb (is_http_field_name (verification_header c))
     || eq_ignore_ascii_case (certificate_header c) (verification_header c)
     || (64 <? zlen (verification_value c)) || contains_control (verification_value c)
     || bool_decide (cert_evidence_source c = []) || contains_control (cert_evidence_source c)
  then Err (RpcErr.value_error (bs "invalid or ambiguous verified-certificate header profile")) else Ok tt.

Definition with_profile (certificate value source : list byte) (c : SpiffeCertificateHeaderConfig)
  : res RpcError SpiffeCertificateHeaderConfig :=
  let c := mkCertConfig (cert_proxy c) certificate (verification_header c) value source in
  _ ← cert_validate c;
  Ok c.

(** [u8::is_ascii_whitespace] *)
Definition is_ascii_whitespace (b : byte) : bool := bool_decide (b ∈ [x09; x0a; x0c; x0d; x20]).

Definition general_uri (n : GeneralName) : option (list byte) := match n with URI u => Some u | OtherName => None end.

Section Certificate.
Context `{Json, X509}.

(** [vgi-rpc/src/auth/spiffe_x509.rs] *)
Definition x509_svid_from_der (der : list byte) (domains : list (list byte)) : option (list byte * list byte) :=
  '(trailing, certificate) ← parse_x509_certificate der;
  if negb (bool_decide (trailing = [])) || negb (is_valid certificate) then None else
  san ← subject_alternative_name certificate;
  '(san_critical, names) ← san;
  match omap general_uri names with
  | [id] =>
    dom ← match validate_spiffe_id id domains with Ok d => Some d | _ => None end;
    if subject_empty certificate && negb san_critical then None else
    basic ← basic_constraints_ca certificate;
    ca ← basic;
    if (ca : bool) then None else
    usage ← key_usage certificate;
    usage ← usage;
    if negb (usage_critical usage) || negb (digital_signature usage) || key_cert_sign usage || crl_sign usage then None else
    extended ← extended_key_usage certificate;
    match extended with
    | Some (client_auth, server_auth) => if negb client_auth || negb server_auth then None else Some (id, dom)
    | None => Some (id, dom)
    end
  | _ => None
  end.

Definition certificate_spiffe_id (raw : list byte) (p : SpiffeProxyConfig) : option (list byte * list byte) :=
  if (max_header_bytes p <? zlen raw) || negb (is_ascii raw) || contains_control raw then None else
  decoded ← strict_percent_decode raw true;
  if (max_header_bytes p <? zlen decoded) || negb (starts_with (bs "-----BEGIN CERTIFICATE-----") decoded) then None else
  '(trailing, label, contents) ← parse_x509_pem decoded;
  if negb (bool_decide (label = bs "CERTIFICATE")) || existsb (fun b => negb (is_ascii_whitespace b)) trailing then None else
  x509_svid_from_der contents (trust_domains p).

Definition resolve_certificate (config : SpiffeCertificateHeaderConfig) (require_verification : bool)
    (c : PeerResolutionContext) : res RpcError PeerIdentityResult :=
  if negb (trusts (trusted_proxy_addresses (cert_proxy config)) c) then untrusted else
  match peer_header c (certificate_header config) with
  | Ok (Some ((_ :: _) as raw)) =>
    if require_verification
       && match peer_header c (verification_header config) with
          | Ok (Some v) => negb ((zlen v <=? 64) && bool_decide (v = verification_value config))
          | _ => true
          end
    then invalid else
    match certificate_spiffe_id raw (cert_proxy config) with
    | Some (id, dom) => workload_identity c id dom (cert_evidence_source config) []
    | None => invalid
    end
  | Ok _ => no_match
  | Err _ => invalid
  | Panic => Panic
  end.

Definition certificate_provider (config : SpiffeCertificateHeaderConfig) (require_verification : bool)
  : res RpcError PeerIdentityProvider :=
  provider_new PROVIDER (resolve_certificate config require_verification).

Definition spiffe_certificate_header_provider (config : SpiffeCertificateHeaderConfig) : res RpcError PeerIdentityProvider :=
  _ ← cert_validate config;
  certificate_provider config true.

Definition nginx_spiffe_provider (p : SpiffeProxyConfig) : res RpcError PeerIdentityProvider :=
  config ← with_profile (bs "X-SSL-Client-Cert") (bs "SUCCESS") (bs "nginx_mtls") (cert_new p (bs "X-SSL-Client-Verify"));
  certificate_provider config true.

Definition azure_application_gateway_spiffe_provider (p : SpiffeProxyConfig) : res RpcError PeerIdentityProvider :=
  config ← with_profile (bs "X-Client-Certificate") (bs "SUCCESS") (bs "azure_application_gateway_mtls_strict")
             (cert_new p (bs "X-Client-Certificate-Verification"));
  certificate_provider config true.

Definition aws_alb_spiffe_provider (p : SpiffeProxyConfig) : res RpcError PeerIdentityProvider :=
  let config := mkCertConfig p (bs "X-Amzn-Mtls-Clientcert-Leaf") (bs "X-VGI-Unused") [] (bs "aws_alb_mtls_verify") in
  _ ← validate (cert_proxy config);
  certificate_provider config false.
End Certificate.
End Spiffe.
