(* ===== verification/ProxyIdentityProps.v ===== *)
(** * What a forwarded identity proves

    Which header texts are a SPIFFE id and which XFCC elements a field; and that a
    principal taken from forwarded evidence was vouched for, once, by a configured
    immediate peer. *)

From S2P Require Import Prelude Bytes F64 Json ErrorModel Errors Crypto External Net ProxyProtocol Auth PeerIdentity PeerIdentityProps ProxyIdentity.

#[local] Open Scope Z_scope.

(** ** Trust and headers *)
Lemma trusts_spec trusted c :
  trusts trusted c = true ↔ ∃ imm a, immediate_peer c = Some imm ∧ exact_ip imm = Some a ∧ a ∈ trusted.
Proof.
  unfold trusts. destruct (immediate_peer c) as [imm|]; cbn [mbind option_bind]; [|naive_solver].
  destruct (exact_ip imm) as [a|] eqn:E; [|naive_solver]. rewrite bool_decide_eq_true. naive_solver.
Qed.

(** The header is there with one value. *)
Definition header_once (c : PeerResolutionContext) (name v : list byte) : Prop :=
  pc_headers c !! (to_ascii_lowercase <$> name) = Some [v].
Definition header_absent (c : PeerResolutionContext) (name : list byte) : Prop :=
  default [] (pc_headers c !! (to_ascii_lowercase <$> name)) = [].

Lemma peer_header_once c name v : peer_header c name = Ok (Some v) ↔ header_once c name v.
Proof. unfold peer_header, header_once. destruct (_ !! _) as [[|w [|]]|]; naive_solver. Qed.

Lemma peer_header_absent c name : peer_header c name = Ok None ↔ header_absent c name.
Proof. unfold peer_header, header_absent. destruct (_ !! _) as [[|w [|]]|]; naive_solver. Qed.

Lemma peer_header_no_panic c name : peer_header c name ≠ Panic.
Proof. unfold peer_header. by destruct (_ !! _) as [[|w [|]]|]. Qed.

(** ** SPIFFE ids *)
Module SpiffeProps.
Import Spiffe.

Definition segment_ok (s : list byte) : Prop :=
  s ≠ [] ∧ s ≠ bs "." ∧ s ≠ bs ".." ∧ Forall (fun b => path_byte b = true) s.

(** [spiffe://domain/segment/...] of an allowed trust domain. *)
Definition spiffe_id (v dom : list byte) (domains : list (list byte)) : Prop :=
  zlen v ≤ 2048 ∧ valid_trust_domain dom = true ∧ dom ∈ domains ∧
  ∃ segments, segments ≠ [] ∧ Forall segment_ok segments ∧ v = bs "spiffe://" ++ dom ++ x2f :: join_with x2f segments.

Lemma forallb_Forall {A} (f : A → bool) l : forallb f l = true ↔ Forall (fun x => f x = true) l.
Proof. by rewrite forallb_forall, List.Forall_forall. Qed.

Lemma existsb_negb {A} (f : A → bool) l : existsb (fun x => negb (f x)) l = false ↔ Forall (fun x => f x = true) l.
Proof.
  rewrite <- forallb_Forall. induction l as [|x l IH]; [done|]. cbn [existsb forallb].
  destruct (f x); cbn [negb orb andb]; [exact IH|done].
Qed.

Lemma bad_segment_spec s : bad_segment s = false ↔ segment_ok s.
Proof.
  unfold bad_segment, segment_ok. rewrite !orb_false_iff, negb_false_iff, forallb_Forall, !bool_decide_eq_false. tauto.
Qed.

(** The characters of ids, domains and paths. *)
Lemma path_byte_plain b : path_byte b = true → in_range b 0x20 0x7e = true ∧ b ≠ x25 ∧ b ≠ x2f.
Proof. destruct b; vm_compute; intros Hb; first [discriminate Hb|repeat split; discriminate]. Qed.

Lemma domain_byte_path b : domain_end b || bool_decide (b ∈ bs "._-") = true → path_byte b = true.
Proof. destruct b; vm_compute; congruence. Qed.

Lemma trust_domain_plain d : valid_trust_domain d = true → Forall (fun b => path_byte b = true) d.
Proof.
  unfold valid_trust_domain. rewrite !andb_true_iff, forallb_Forall. intros [_ Hd].
  eapply list.Forall_impl; [exact Hd|]. intros b Hb. by apply domain_byte_path.
Qed.

Lemma split_once_Some c l p q : split_once c l = Some (p, q) → l = p ++ c :: q ∧ c ∉ p.
Proof.
  revert p q. induction l as [|b l IH]; intros p q E; [done|]. cbn [split_once] in E. destruct (decide (b = c)) as [->|Hb].
  - injection E as <- <-. split; [done|apply not_elem_of_nil].
  - destruct (split_once c l) as [[p' q']|]; [|done]. injection E as <- <-. destruct (IH _ _ eq_refl) as [-> Hp].
    split; [done|]. rewrite not_elem_of_cons. naive_solver.
Qed.

Lemma join_split_ok ss : ss ≠ [] → Forall segment_ok ss → split_on x2f (join_with x2f ss) = ss.
Proof.
  assert (∀ s, segment_ok s → x2f ∉ s) as Hs.
  { intros s (_ & _ & _ & Hs) Hin. rewrite list.Forall_forall in Hs. by apply Hs, path_byte_plain in Hin as (_ & _ & []). }
  induction ss as [|a [|b ss] IH]; intros Hne Hok; [done|..]; apply Forall_cons_1 in Hok as [Ha Hok].
  - by apply split_on_plain, Hs.
  - cbn [join_with]. rewrite split_on_app by (by apply Hs). f_equal. by apply IH.
Qed.

Lemma join_plain ss : Forall segment_ok ss →
  Forall (fun b => in_range b 0x20 0x7e = true ∧ b ≠ x25) (join_with x2f ss).
Proof.
  intros Hok. assert (∀ s, segment_ok s → Forall (fun b => in_range b 0x20 0x7e = true ∧ b ≠ x25) s) as Hs.
  { intros s (_ & _ & _ & Hs). eapply list.Forall_impl; [exact Hs|]. intros b (? & ? & _)%path_byte_plain. done. }
  induction ss as [|a [|b ss] IH]; [constructor|..]; apply Forall_cons_1 in Hok as [Ha Hok]; [by apply Hs|].
  cbn [join_with]. apply Forall_app. split; [by apply Hs|]. constructor; [done|]. by apply IH.
Qed.

Lemma split_on_snoc c q : split_on c (q ++ [c]) = split_on c q ++ [[]].
Proof.
  induction q as [|b q IH]; cbn [split_on app]; [by rewrite decide_True|]. rewrite IH. destruct (decide (b = c)); [done|].
  pose proof (split_on_nonempty c q). by destruct (split_on c q).
Qed.

Lemma join_ends ss : ss ≠ [] → Forall segment_ok ss → join_with x2f ss ≠ [] ∧ ends_with [x2f] (join_with x2f ss) = false.
Proof.
  intros Hne Hok. pose proof (join_split_ok ss Hne Hok) as E.
  assert ([] ∉ ss) as Hn by (intros Hin; rewrite list.Forall_forall in Hok; by destruct (Hok _ Hin)). split.
  - intros Ej. rewrite Ej in E. cbn in E. subst. set_solver.
  - apply not_true_iff_false. unfold ends_with, starts_with. rewrite bool_decide_eq_true. intros [r Hr].
    apply strip_prefix_Some in Hr. apply (f_equal (@rev byte)) in Hr. rewrite rev_involutive in Hr. cbn [rev app] in Hr.
    rewrite Hr, split_on_snoc in E. set_solver.
Qed.

(** [validate_spiffe_id] takes exactly the ids of the allowed domains. *)
Lemma validate_spiffe_id_exact v dom domains : validate_spiffe_id v domains = Ok dom ↔ spiffe_id v dom domains.
Proof.
  unfold validate_spiffe_id. split.
  - intros E. destruct (_ || negb (starts_with _ _)) eqn:Eh; [done|]. rewrite !orb_false_iff in Eh.
    destruct Eh as ((((_ & Hl) & Ha) & _) & Hs). apply Z.ltb_ge in Hl. apply negb_false_iff in Hs.
    unfold starts_with in Hs. apply bool_decide_eq_true in Hs as [r Hr]. apply strip_prefix_Some in Hr.
    apply existsb_negb in Ha.
    assert (Forall (fun b => b2z b < 0x80) v) as Hv.
    { eapply list.Forall_impl; [exact Ha|]. intros b Hb. unfold in_range in Hb. rewrite andb_true_iff, !Z.leb_le in Hb. lia. }
    rewrite str_slice_ascii in E by done. apply bind_Ok in E as (rem & Er & E). apply or_panic_Ok in Er.
    assert (rem = r) as -> by (subst v; apply slice_Some in Er as (_ & _ & ->); rewrite zdrop_app_eq by done; apply ztake_all; zlen_solve).
    apply bind_Ok in E as ([d path] & Ed & E). apply ok_or_Ok, split_once_Some in Ed as [-> _].
    destruct (negb _ || _) eqn:Et; [done|]. apply orb_false_iff in Et as [Et1 Et2]. apply negb_false_iff in Et1, Et2.
    apply bool_decide_eq_true in Et2.
    destruct (_ || existsb _ _) eqn:Ep; [done|]. apply orb_false_iff in Ep as [_ Ep]. injection E as ->.
    split_and!; [done..|]. exists (split_on x2f path). rewrite split_on_join. split_and!; [apply split_on_nonempty| |done].
    assert (∀ l, existsb bad_segment l = false → Forall segment_ok l) as Hall; [|by apply Hall].
    induction l as [|x l IH]; [constructor|]. cbn [existsb]. rewrite orb_false_iff, bad_segment_spec. intros [??]. constructor; auto.
  - intros (Hl & Hd & Hin & ss & Hne & Hok & ->).
    pose proof (trust_domain_plain dom Hd) as Hdp. pose proof (join_plain ss Hok) as Hj.
    assert (Forall (fun b => in_range b 0x20 0x7e = true ∧ b ≠ x25) (bs "spiffe://" ++ dom ++ x2f :: join_with x2f ss)) as Hall.
    { rewrite !Forall_app. split_and!.
      - repeat (constructor; [split; [by vm_compute|by vm_compute]|]). constructor.
      - eapply list.Forall_impl; [exact Hdp|]. intros b (? & ? & _)%path_byte_plain. done.
      - constructor; [split; by vm_compute|done]. }
    destruct (join_ends ss Hne Hok) as [Hj1 Hj2].
    rewrite (bool_decide_eq_false_2 (_ = [])) by done.
    replace (2048 <? _) with false by (symmetry; apply Z.ltb_ge; exact Hl).
    replace (existsb _ (bs "spiffe://" ++ _)) with false
      by (symmetry; apply existsb_negb; eapply list.Forall_impl; [exact Hall|]; by intros b []).
    rewrite (bool_decide_eq_false_2 (x25 ∈ _)) by (intros Hx; rewrite list.Forall_forall in Hall; by destruct (Hall _ Hx) as [_ []]).
    assert (starts_with (bs "spiffe://") (bs "spiffe://" ++ dom ++ x2f :: join_with x2f ss) = true) as ->
      by (unfold starts_with; rewrite strip_prefix_app; by apply bool_decide_eq_true; eauto).
    cbn [orb negb]. rewrite str_slice_ascii.
    2:{ eapply list.Forall_impl; [exact Hall|]. intros b [Hb _]. unfold in_range in Hb. rewrite andb_true_iff, !Z.leb_le in Hb. lia. }
    replace (slice _ _ _) with (Some (dom ++ x2f :: join_with x2f ss)).
    2:{ assert (zlen (bs "spiffe://") = 9) as H9 by done. pose proof (zlen_nonneg dom). pose proof (zlen_nonneg (join_with x2f ss)).
      symmetry. apply slice_Some. split_and!; [zlen_solve..|]. rewrite zdrop_app_eq by done. symmetry. apply ztake_all. zlen_solve. }
    cbn [or_panic mbind res_bind]. rewrite split_once_app.
    2:{ intros Hx. rewrite list.Forall_forall in Hdp. by apply Hdp, path_byte_plain in Hx as (_ & _ & []). }
    cbn [ok_or mbind res_bind]. rewrite Hd, (bool_decide_eq_true_2 (dom ∈ _)) by done. cbn [negb orb].
    rewrite (bool_decide_eq_false_2 (_ = [])) by done. rewrite Hj2, join_split_ok by done. cbn [orb].
    replace (existsb bad_segment ss) with false; [done|]. symmetry.
    clear -Hok. induction Hok as [|x l Hx _ IH]; [done|]. cbn [existsb]. by rewrite (proj2 (bad_segment_spec x) Hx).
Qed.
(** ** XFCC elements

    An element is [key=value] pairs joined by semicolons; a value is a token, or text
    in quotes where a quote and a backslash are escaped. *)
Inductive xvalue := Token (v : list byte) | Quoted (v : list byte).
Abbreviation xpair := (list byte * xvalue)%type.

Definition special (b : byte) : bool := bool_decide (b = x22) || bool_decide (b = x5c).
Definition escape (v : list byte) : list byte := mjoin ((fun b => if special b then [x5c; b] else [b]) <$> v).
Definition render_value (v : xvalue) : list byte :=
  match v with Token v => v | Quoted v => x22 :: escape v ++ [x22] end.
Definition render_pair (p : xpair) : list byte := p.1 ++ x3d :: render_value p.2.
Definition render (ps : list xpair) : list byte := join_with x3b (render_pair <$> ps).
Definition content (v : xvalue) : list byte := match v with Token v | Quoted v => v end.

(** The characters of a token, and of quoted text that has nothing to escape. *)
Definition token_byte (b : byte) : bool := graphic b && negb (bool_decide (b ∈ bs ",;=")) && negb (bool_decide (b = x22)).
Definition quiet_byte (b : byte) : bool := in_range b 0x20 0x7e && negb (special b).

Definition value_ok (v : xvalue) : Prop :=
  match v with
  | Token v => v ≠ [] ∧ Forall (fun b => token_byte b = true) v
  | Quoted v => Forall (fun b => quiet_byte b = true) v
  end.
Definition key_ok (k : list byte) : Prop :=
  valid_xfcc_key k = true ∧ to_ascii_lowercase <$> k ∈ allowed_fields.
Definition pair_ok (p : xpair) : Prop := key_ok p.1 ∧ value_ok p.2.

(** The fields of the pairs in turn: some keys are percent-encoded, some may repeat. *)
Definition add_field (m : fields) (p : xpair) : option fields :=
  let key : list byte := to_ascii_lowercase <$> p.1 in
  v ← (if bool_decide (key ∈ encoded_fields) then strict_percent_decode (content p.2) false else Some (content p.2));
  if negb (bool_decide (key ∈ repeated_fields)) && bool_decide (is_Some (m !! key)) then None else
  Some (<[key := default [] (m !! key) ++ [v]]> m).
Fixpoint collect (m : fields) (ps : list xpair) : option fields :=
  match ps with [] => Some m | p :: ps => m ← add_field m p; collect m ps end.

Lemma split_plain d ps cur v l : Forall (fun b => b ≠ d ∧ b ≠ x22) v →
  split_bytes d (mkSplitting ps cur false false) (v ++ l) = split_bytes d (mkSplitting ps (cur ++ v) false false) l.
Proof.
  revert cur. induction v as [|b v IH]; intros cur Hv; [by rewrite app_nil_r|]. apply Forall_cons_1 in Hv as [[Hd Hq] Hv].
  cbn [app split_bytes]. unfold split_byte at 1. cbn [escaped quoted andb]. rewrite !bool_decide_eq_false_2 by done.
  cbn [andb mbind option_bind current parts]. rewrite IH by done. by rewrite <- app_assoc.
Qed.

Lemma escape_cons b v : escape (b :: v) = (if special b then [x5c; b] else [b]) ++ escape v.
Proof. done. Qed.

Lemma split_escaped d ps cur v l :
  split_bytes d (mkSplitting ps cur true false) (escape v ++ l) = split_bytes d (mkSplitting ps (cur ++ v) true false) l.
Proof.
  revert cur. induction v as [|b v IH]; intros cur; [by rewrite app_nil_r|].
  rewrite escape_cons, <- app_assoc.
  replace (cur ++ b :: v) with ((cur ++ [b]) ++ v) by (by rewrite <- app_assoc). rewrite <- IH.
  destruct (special b) eqn:Es; unfold special in Es; cbn [app split_bytes]; unfold split_byte; cbn [escaped quoted andb].
  - rewrite (bool_decide_eq_true_2 (x5c = x5c)) by done. cbn [mbind option_bind escaped quoted current parts]. by rewrite Es.
  - apply orb_false_iff in Es as [-> ->]. rewrite andb_false_r. done.
Qed.

Lemma escape_quiet v : Forall (fun b => quiet_byte b = true) v → escape v = v.
Proof.
  induction 1 as [|b v Hb _ IH]; [done|]. rewrite escape_cons, IH.
  unfold quiet_byte in Hb. apply andb_true_iff in Hb as [_ Hb]. apply negb_true_iff in Hb. by rewrite Hb.
Qed.

(** What a pass leaves of a value: quoted text without its escapes. *)
Definition flat_value (v : xvalue) : list byte := match v with Token v => v | Quoted v => x22 :: v ++ [x22] end.

Lemma split_value d ps cur v l : d = x2c ∨ d = x3b →
  match v with Token t => Forall (fun b => token_byte b = true) t | Quoted _ => True end →
  split_bytes d (mkSplitting ps cur false false) (render_value v ++ l) =
  split_bytes d (mkSplitting ps (cur ++ flat_value v) false false) l.
Proof.
  intros Hd Hv. destruct v as [t|t]; cbn [render_value flat_value].
  - apply split_plain. eapply list.Forall_impl; [exact Hv|]. intros b Hb. revert Hb.
    destruct Hd as [-> | ->]; destruct b; vm_compute; intros Hb; first [discriminate Hb|split; discriminate].
  - cbn [app split_bytes]. unfold split_byte at 1. cbn [escaped quoted andb].
    rewrite (bool_decide_eq_true_2 (x22 = x22)) by done. cbn [mbind option_bind current parts negb].
    rewrite <- app_assoc, split_escaped. cbn [app split_bytes]. unfold split_byte at 1. cbn [escaped quoted andb].
    rewrite (bool_decide_eq_true_2 (x22 = x22)), (bool_decide_eq_false_2 (x22 = x5c)) by done. cbn [mbind option_bind current parts negb].
    f_equal. f_equal. by rewrite <- !app_assoc.
Qed.
Definition flat_pair (p : xpair) : list byte := p.1 ++ x3d :: flat_value p.2.
Definition flat (ps : list xpair) : list byte := join_with x3b (flat_pair <$> ps).

(** What the splitter needs of a pair: a key without punctuation, a token if no quotes. *)
Definition splits (p : xpair) : Prop :=
  Forall (fun b => is_ascii_alphanumeric b || bool_decide (b ∈ bs "_-") = true) p.1 ∧
  match p.2 with Token t => Forall (fun b => token_byte b = true) t | Quoted t => Forall (fun b => b2z b < 0x80) t end.

Lemma key_byte_plain b : is_ascii_alphanumeric b || bool_decide (b ∈ bs "_-") = true →
  b ≠ x2c ∧ b ≠ x3b ∧ b ≠ x3d ∧ b ≠ x22 ∧ graphic b = true.
Proof. destruct b; vm_compute; intros Hb; first [discriminate Hb|repeat split; discriminate]. Qed.

Lemma token_byte_plain b : token_byte b = true →
  b ≠ x2c ∧ b ≠ x3b ∧ b ≠ x3d ∧ b ≠ x22 ∧ graphic b = true.
Proof. destruct b; vm_compute; intros Hb; first [discriminate Hb|repeat split; discriminate]. Qed.

Lemma graphic_ascii b : graphic b = true → 0x20 ≤ b2z b < 0x7f.
Proof. unfold graphic, in_range. rewrite andb_true_iff, !Z.leb_le. lia. Qed.

Lemma split_pair d ps cur p l : d = x2c ∨ d = x3b → splits p →
  split_bytes d (mkSplitting ps cur false false) (render_pair p ++ l) =
  split_bytes d (mkSplitting ps (cur ++ flat_pair p) false false) l.
Proof.
  intros Hd [Hk Hv]. unfold render_pair, flat_pair. rewrite <- app_assoc, split_plain.
  2:{ eapply list.Forall_impl; [exact Hk|]. intros b (? & ? & _ & ? & _)%key_byte_plain. by destruct Hd as [-> | ->]. }
  replace ((x3d :: render_value p.2) ++ l) with ([x3d] ++ render_value p.2 ++ l) by done.
  rewrite split_plain by (constructor; [split; [by destruct Hd as [-> | ->]|done]|constructor]).
  rewrite split_value; [|done|by destruct p.2]. f_equal. f_equal. by rewrite <- !app_assoc.
Qed.

Lemma flat_ascii p : splits p → Forall (fun b => b2z b < 0x80) (flat_pair p).
Proof.
  intros [Hk Hv]. unfold flat_pair. apply Forall_app. split.
  - eapply list.Forall_impl; [exact Hk|]. intros b (_ & _ & _ & _ & Hg)%key_byte_plain. apply graphic_ascii in Hg. lia.
  - constructor; [by vm_compute|]. destruct p.2 as [t|t]; cbn [flat_value].
    + eapply list.Forall_impl; [exact Hv|]. intros b (_ & _ & _ & _ & Hg)%token_byte_plain. apply graphic_ascii in Hg. lia.
    + constructor; [by vm_compute|]. apply Forall_app. split; [done|]. by constructor; [vm_compute|].
Qed.

Lemma from_utf8_ascii l : Forall (fun b => b2z b < 0x80) l → from_utf8 l = Some l.
Proof. intros Hl. unfold from_utf8. by rewrite utf8_valid_ascii. Qed.

Lemma render_cons p q ps : render (p :: q :: ps) = render_pair p ++ [x3b] ++ render (q :: ps).
Proof. done. Qed.
Lemma flat_cons p q ps : flat (p :: q :: ps) = flat_pair p ++ [x3b] ++ flat (q :: ps).
Proof. done. Qed.

Lemma join_ascii ps : Forall splits ps → Forall (fun b => b2z b < 0x80) (flat ps).
Proof.
  induction 1 as [|p [|q ps] Hp _ IH]; [constructor|by apply flat_ascii|].
  rewrite flat_cons. apply Forall_app. split; [by apply flat_ascii|]. by constructor; [vm_compute|].
Qed.

(** The first pass finds one element and strips its escapes. *)
Lemma first_pass ps : Forall splits ps → split_xfcc (render ps) x2c = Some [flat ps].
Proof.
  intros Hps. assert (∀ cur, split_bytes x2c (mkSplitting [] cur false false) (render ps) =
    Some (mkSplitting [] (cur ++ flat ps) false false)) as E.
  { induction Hps as [|p ps Hp Hps IH]; intros cur; [by rewrite app_nil_r|]. destruct ps as [|q ps].
    - change (render [p]) with (render_pair p). rewrite <- (app_nil_r (render_pair p)), split_pair by auto. done.
    - rewrite render_cons, flat_cons, split_pair by auto.
      rewrite split_plain by (repeat constructor; discriminate). rewrite IH. f_equal. f_equal. by rewrite <- !app_assoc. }
  unfold split_xfcc. rewrite E. cbn [mbind option_bind quoted escaped orb current parts app].
  by rewrite from_utf8_ascii by (by apply join_ascii).
Qed.

(** The second pass finds its pairs. *)
Lemma second_pass ps : ps ≠ [] → Forall splits ps → split_xfcc (render ps) x3b = Some (flat_pair <$> ps).
Proof.
  intros Hne Hps. assert (∀ acc, ∃ s, split_bytes x3b (mkSplitting acc [] false false) (render ps) = Some s ∧
    quoted s = false ∧ escaped s = false ∧ Forall (fun b => b2z b < 0x80) (current s) ∧
    parts s ++ [current s] = acc ++ (flat_pair <$> ps)) as E.
  { induction Hps as [|p ps Hp Hps IH]; [done|]. intros acc. destruct ps as [|q ps].
    - change (render [p]) with (render_pair p). rewrite <- (app_nil_r (render_pair p)), split_pair by auto. eexists. split; [done|].
      split_and!; [done|done|by apply flat_ascii|done].
    - rewrite render_cons, split_pair by auto. cbn [app split_bytes]. unfold split_byte at 1.
      cbn [escaped quoted andb]. rewrite (bool_decide_eq_false_2 (x3b = x22)), (bool_decide_eq_true_2 (x3b = x3b)) by done.
      cbn [andb negb current parts]. rewrite from_utf8_ascii by (by apply flat_ascii). cbn [mbind option_bind].
      destruct (IH ltac:(done) (acc ++ [flat_pair p])) as (s & Es & Hq & Hes & Ha & Ep). exists s.
      split_and!; [done..|]. by rewrite Ep, <- app_assoc. }
  destruct (E []) as (s & Es & Hq & Hes & Ha & Ep). unfold split_xfcc. rewrite Es. cbn [mbind option_bind].
  rewrite Hq, Hes. cbn [orb]. rewrite from_utf8_ascii by done. cbn [mbind option_bind]. by rewrite Ep.
Qed.
Lemma trim_ends a m b : graphic a = true → graphic b = true → trim (a :: m ++ [b]) = a :: m ++ [b].
Proof.
  intros Ha Hb. unfold trim. assert (trim_start (a :: m ++ [b]) = a :: m ++ [b]) as ->.
  { unfold trim_start. apply trim_with_graphic; [|done]. unfold whitespace. repeat (constructor; [by eexists _, _|]). constructor. }
  unfold trim_end. rewrite app_comm_cons, rev_app_distr. cbn [rev app]. rewrite trim_with_graphic; [|unfold whitespace; simpl|done].
  - cbn [rev]. by rewrite rev_app_distr, rev_involutive.
  - repeat (constructor; [by eexists _, _|]). constructor.
Qed.

Lemma ends_with_snoc c l b : ends_with [c] (l ++ [b]) = bool_decide (b = c).
Proof.
  unfold ends_with, starts_with. rewrite rev_app_distr. cbn [rev app strip_prefix].
  destruct (decide (c = b)) as [->|Hc]; [by rewrite !bool_decide_eq_true_2 by eauto|].
  rewrite !bool_decide_eq_false_2; [done|congruence|by intros []].
Qed.

Lemma trim_value v : value_ok v → trim (flat_value v) = flat_value v ∧ xfcc_value (flat_value v) = Some (content v).
Proof.
  destruct v as [t|t]; cbn [value_ok flat_value content].
  - intros [Hne Ht]. assert (Forall (fun b => graphic b = true) t) as Hg.
    { eapply list.Forall_impl; [exact Ht|]. by intros b (_ & _ & _ & _ & Hg)%token_byte_plain. }
    split; [by apply trim_graphic|]. unfold xfcc_value.
    assert (∀ l, Forall (fun b => token_byte b = true) l → starts_with [x22] l = false) as Hs.
    { intros [|b l] Hl; [done|]. apply Forall_cons_1 in Hl as [(_ & _ & _ & Hb & _)%token_byte_plain _].
      unfold starts_with. cbn [strip_prefix]. by rewrite decide_False by congruence. }
    unfold ends_with. change (rev [x22]) with [x22]. rewrite (Hs t Ht), (Hs (rev t)).
    2:{ rewrite list.Forall_forall in *. intros b Hb. apply Ht. by apply list_elem_of_In, in_rev, list_elem_of_In. }
    cbn [orb]. rewrite (bool_decide_eq_false_2 (t = [])) by done. cbn [orb].
    replace (existsb _ t) with false; [done|]. symmetry. clear -Ht. induction Ht as [|b l Hb _ IH]; [done|].
    cbn [existsb]. rewrite IH, orb_false_r. revert Hb. destruct b; vm_compute; congruence.
  - intros _. split; [by apply trim_ends|]. unfold xfcc_value, cut_suffix.
    replace (starts_with [x22] (x22 :: t ++ [x22])) with true by (symmetry; unfold starts_with; by apply bool_decide_eq_true).
    cbn [orb strip_prefix]. rewrite decide_True by done. cbn [mbind option_bind]. rewrite rev_app_distr. cbn [rev app strip_prefix].
    rewrite decide_True by done. cbn [fmap option_fmap option_map]. by rewrite rev_involutive.
Qed.

Lemma pair_splits p : pair_ok p → splits p.
Proof.
  intros [[Hk _] Hv]. unfold valid_xfcc_key in Hk. rewrite andb_true_iff, forallb_Forall in Hk. split; [apply Hk|].
  destruct p.2 as [t|t]; [apply Hv|]. eapply list.Forall_impl; [exact Hv|]. intros b Hb. revert Hb.
  unfold quiet_byte, in_range. rewrite !andb_true_iff, !Z.leb_le. lia.
Qed.

Lemma flat_quiet ps : Forall pair_ok ps → flat_pair <$> ps = render_pair <$> ps.
Proof.
  induction 1 as [|p ps [_ Hv] _ IH]; [done|]. cbn [fmap list_fmap]. f_equal; [|exact IH].
  unfold flat_pair, render_pair. f_equal. f_equal. destruct p.2 as [t|t]; [done|]. cbn [flat_value render_value].
  by rewrite escape_quiet.
Qed.

Lemma add_pair_field m p : pair_ok p → add_pair m (flat_pair p) = add_field m p.
Proof.
  intros Hp. pose proof (pair_splits p Hp) as [Hk _]. destruct Hp as [[Hk1 Hk2] Hv]. unfold add_pair, flat_pair, add_field.
  assert (Forall (fun b => b ≠ x3d ∧ graphic b = true) p.1) as Hk'.
  { eapply list.Forall_impl; [exact Hk|]. by intros b (_ & _ & ? & _ & ?)%key_byte_plain. }
  rewrite split_once_app by (intros Hin; rewrite list.Forall_forall in Hk'; by destruct (Hk' _ Hin)).
  cbn [mbind option_bind]. rewrite trim_graphic by (eapply list.Forall_impl; [exact Hk'|]; by intros b []).
  rewrite Hk1, (bool_decide_eq_true_2 (_ ∈ allowed_fields)) by done. cbn [negb orb].
  destruct (trim_value p.2 Hv) as [-> ->]. done.
Qed.

Lemma add_pairs_collect m ps : Forall pair_ok ps → add_pairs m (flat_pair <$> ps) = collect m ps.
Proof.
  intros Hps. revert m. induction Hps as [|p ps Hp _ IH]; intros m; [done|]. cbn [fmap list_fmap add_pairs collect].
  rewrite add_pair_field by done. destruct (add_field m p); [|done]. cbn [mbind option_bind]. apply IH.
Qed.

Lemma value_last v : value_ok v → ∃ m b, render_value v = m ++ [b] ∧ graphic b = true.
Proof.
  destruct v as [t|t]; cbn [value_ok render_value].
  - intros [Hne Ht]. destruct (exists_last Hne) as (m & b & ->). apply Forall_app in Ht as [_ Hb]. apply Forall_cons_1 in Hb as [Hb _].
    exists m, b. by apply token_byte_plain in Hb as (_ & _ & _ & _ & ?).
  - intros _. exists (x22 :: escape t), x22. done.
Qed.

Lemma render_ends ps : ps ≠ [] → Forall pair_ok ps →
  ∃ a m b, render ps = a :: m ++ [b] ∧ graphic a = true ∧ graphic b = true.
Proof.
  assert (∀ p, pair_ok p → ∃ a m b, render_pair p = a :: m ++ [b] ∧ graphic a = true ∧ graphic b = true) as Hp.
  { intros [k v] [[Hk _] Hv]. cbn [fst snd] in *. destruct (value_last v Hv) as (m & b & E & Hb).
    unfold valid_xfcc_key in Hk. destruct k as [|a k]; [done|]. cbn [head forallb] in Hk. rewrite !andb_true_iff in Hk.
    destruct Hk as (_ & Hk & _). apply key_byte_plain in Hk as (_ & _ & _ & _ & Ha).
    exists a, (k ++ x3d :: m), b. unfold render_pair. cbn [fst snd]. by rewrite E, <- app_assoc. }
  induction ps as [|p [|q ps] IH]; intros Hne Hok; [done|..]; apply Forall_cons_1 in Hok as [Hpo Hok]; [by apply Hp|].
  destruct (Hp p Hpo) as (a & m & b & E & Ha & _). destruct (IH ltac:(done) Hok) as (a' & m' & b' & E' & _ & Hb).
  exists a, (m ++ b :: x3b :: a' :: m'), b'. rewrite render_cons, E, E'. split_and!; [|done..].
  cbn [app]. by rewrite <- !app_assoc.
Qed.

(** What an element of the grammar is taken for, when its two passes leave the pairs
    [ps]: the collected fields. *)
Lemma parse_two_passes raw ps max :
  raw ≠ [] → zlen raw ≤ max → is_ascii raw = true → contains_control raw = false →
  split_xfcc raw x2c = Some [render ps] → ps ≠ [] → Forall pair_ok ps →
  parse_xfcc raw max = collect ∅ ps.
Proof.
  intros Hne Hmax Ha Hc Es Hps Hok. unfold parse_xfcc. rewrite (bool_decide_eq_false_2 (raw = [])) by done.
  replace (max <? zlen raw) with false by (symmetry; by apply Z.ltb_ge). rewrite Ha, Hc. cbn [negb orb].
  rewrite Es. cbn [mbind option_bind]. assert (Forall splits ps) as Hs by (eapply list.Forall_impl; [exact Hok|apply pair_splits]).
  rewrite (second_pass ps Hps Hs). cbn [mbind option_bind]. rewrite add_pairs_collect by done.
  destruct (render_ends ps Hps Hok) as (a & m & b & -> & Ha' & Hb'). rewrite trim_ends by done. by rewrite bool_decide_eq_false_2.
Qed.
(** Text a header may hold: printable ASCII. *)
Abbreviation printable l := (Forall (fun b => 0x20 ≤ b2z b < 0x7f) l).

Lemma printable_header l : printable l → is_ascii l = true ∧ contains_control l = false.
Proof.
  intros Hl. unfold is_ascii, contains_control. split.
  - apply forallb_Forall. eapply list.Forall_impl; [exact Hl|]. cbv beta. intros b Hb. apply Z.ltb_lt. lia.
  - induction Hl as [|b l Hb _ IH]; [done|]. cbn [existsb]. rewrite IH, orb_false_r.
    apply orb_false_iff. rewrite Z.leb_gt, Z.eqb_neq. lia.
Qed.

Lemma escape_printable v : printable v → printable (escape v).
Proof.
  induction 1 as [|b v Hb _ IH]; [constructor|]. rewrite escape_cons. apply Forall_app. split; [|done].
  assert (0x20 ≤ b2z x5c < 0x7f) by (by vm_compute). destruct (special b); auto.
Qed.

Lemma pair_printable p : splits p → match p.2 with Token _ => True | Quoted t => printable t end → printable (render_pair p).
Proof.
  intros [Hk Hv] Ht. unfold render_pair. apply Forall_app. split.
  - eapply list.Forall_impl; [exact Hk|]. intros b (_ & _ & _ & _ & Hg)%key_byte_plain. by apply graphic_ascii.
  - constructor; [by vm_compute|]. destruct p.2 as [t|t]; cbn [render_value].
    + eapply list.Forall_impl; [exact Hv|]. intros b (_ & _ & _ & _ & Hg)%token_byte_plain. by apply graphic_ascii.
    + constructor; [by vm_compute|]. apply Forall_app. split; [by apply escape_printable|]. by constructor; [vm_compute|].
Qed.

Lemma render_printable ps : Forall (fun p => splits p ∧ match p.2 with Token _ => True | Quoted t => printable t end) ps →
  printable (render ps).
Proof.
  induction 1 as [|p [|q ps] [Hp Ht] _ IH]; [constructor|by apply pair_printable|].
  rewrite render_cons. rewrite !Forall_app. split_and!; [by apply pair_printable|by constructor; [vm_compute|]|done].
Qed.

(** An XFCC element of the grammar whose quoted texts hold neither a quote nor a
    backslash is read as the grammar says: its pairs in turn, whatever punctuation the
    quoted texts hold, each under its key in any case. *)
Theorem xfcc_element_read (ps : list xpair) max :
  ps ≠ [] → Forall pair_ok ps → zlen (render ps) ≤ max → parse_xfcc (render ps) max = collect ∅ ps.
Proof.
  intros Hne Hok Hmax. assert (Forall splits ps) as Hs by (eapply list.Forall_impl; [exact Hok|apply pair_splits]).
  assert (printable (render ps)) as [Ha Hc]%printable_header.
  { apply render_printable. eapply list.Forall_impl; [exact Hok|]. intros p Hp. split; [by apply pair_splits|].
    destruct Hp as [_ Hv]. destruct p.2 as [t|t]; [done|]. eapply list.Forall_impl; [exact Hv|]. intros b.
    unfold quiet_byte, in_range. rewrite !andb_true_iff, !Z.leb_le. lia. }
  apply parse_two_passes; [|done..| |done|done].
  - destruct (render_ends ps Hne Hok) as (a & m & b & -> & _). done.
  - rewrite first_pass by done. unfold flat. by rewrite flat_quiet.
Qed.

(** An element with two pairs, a hash and a subject; the subject's text holds quotes. *)
Definition quoting_subject (id : list byte) : list byte := x22 :: bs ";URI=" ++ id ++ bs ";DNS=" ++ [x22].
Definition two_pairs (hash id : list byte) : list xpair :=
  [(bs "Hash", Token hash); (bs "Subject", Quoted (quoting_subject id))].

Lemma id_token id dom domains : spiffe_id id dom domains →
  id ≠ [] ∧ Forall (fun b => token_byte b = true ∧ 0x20 ≤ b2z b < 0x7f ∧ b ≠ x25) id.
Proof.
  intros (_ & Hd & _ & ss & _ & Hok & ->). split; [done|].
  assert (∀ b, path_byte b = true → token_byte b = true ∧ 0x20 ≤ b2z b < 0x7f ∧ b ≠ x25) as Hb.
  { intros b Hb. split; [revert Hb; destruct b; vm_compute; congruence|].
    apply path_byte_plain in Hb as (Hr & ? & _). unfold in_range in Hr. rewrite andb_true_iff, !Z.leb_le in Hr. split; [lia|done]. }
  assert (token_byte x2f = true ∧ 0x20 ≤ b2z x2f < 0x7f ∧ x2f ≠ x25) as Hs by (by vm_compute).
  rewrite !Forall_app. split_and!.
  - repeat (constructor; [by vm_compute|]). constructor.
  - eapply list.Forall_impl; [exact (trust_domain_plain dom Hd)|exact Hb].
  - constructor; [done|]. induction Hok as [|s [|s' ss] (_ & _ & _ & Ho) Hss IH]; [constructor|..].
    + eapply list.Forall_impl; [exact Ho|exact Hb].
    + cbn [join_with]. apply Forall_app. split; [eapply list.Forall_impl; [exact Ho|exact Hb]|]. constructor; [done|exact IH].
Qed.

Lemma percent_plain v : Forall (fun b => 0x20 ≤ b2z b < 0x7f ∧ b ≠ x25) v → strict_percent_decode v false = Some v.
Proof.
  intros Hv. unfold strict_percent_decode. replace (percent_bytes false v) with (Some v).
  - cbn [mbind option_bind]. apply from_utf8_ascii. eapply list.Forall_impl; [exact Hv|]. intros b [? _]. lia.
  - induction Hv as [|b v [Hb Hp] _ IH]; [done|]. cbn [percent_bytes]. rewrite <- IH.
    assert (decoded_byte_ok false (b2z b) = true) as ->
      by (unfold decoded_byte_ok; apply negb_true_iff, orb_false_iff; rewrite Z.ltb_ge, Z.eqb_neq; lia).
    by destruct b.
Qed.

Lemma hex_token h : forallb is_ascii_hexdigit h = true → Forall (fun b => token_byte b = true ∧ 0x20 ≤ b2z b < 0x7f) h.
Proof.
  rewrite forallb_Forall. intros Hh. eapply list.Forall_impl; [exact Hh|]. intros b. destruct b; vm_compute; intros Hb;
    first [discriminate Hb|by repeat split].
Qed.
Definition decoded (key v : list byte) : option (list byte) :=
  if bool_decide (key ∈ encoded_fields) then strict_percent_decode v false else Some v.

Lemma add_field_new m p key v : to_ascii_lowercase <$> p.1 = key → decoded key (content p.2) = Some v → m !! key = None →
  add_field m p = Some (<[key := [v]]> m).
Proof.
  intros <- Hv Hm. unfold add_field. fold (decoded (to_ascii_lowercase <$> p.1) (content p.2)). rewrite Hv, Hm.
  cbn [mbind option_bind]. by rewrite (bool_decide_eq_false_2 (is_Some None)) by (by intros []); rewrite andb_false_r.
Qed.

(** The four pairs that the second pass finds in the two. *)
Definition four_pairs (hash id : list byte) : list xpair :=
  [(bs "Hash", Token hash); (bs "Subject", Quoted []); (bs "URI", Token id); (bs "DNS", Quoted [])].

Lemma two_passes_differ hash id : flat (two_pairs hash id) = render (four_pairs hash id).
Proof.
  unfold two_pairs, four_pairs, quoting_subject. rewrite flat_cons, !render_cons.
  change (flat [?p]) with (flat_pair p). change (render [?p]) with (render_pair p).
  unfold flat_pair, render_pair. cbn [fst snd flat_value render_value]. change (escape []) with (@nil byte).
  rewrite <- !app_assoc. f_equal. cbn [app]. f_equal. rewrite <- !app_assoc. f_equal.
Qed.

Lemma quoted_uri_taken hash id dom domains max :
  spiffe_id id dom domains → hash ≠ [] → forallb is_ascii_hexdigit hash = true → zlen (render (two_pairs hash id)) ≤ max →
  ∃ m, parse_xfcc (render (two_pairs hash id)) max = Some m ∧
    m !! bs "uri" = Some [id] ∧ m !! bs "hash" = Some [hash] ∧ m !! bs "by" = None.
Proof.
  intros Hid Hne Hh Hmax. destruct (id_token id dom domains Hid) as [Hidne Hidt]. pose proof (hex_token hash Hh) as Ht.
  assert (Forall (fun b => token_byte b = true) hash) as Ht1 by (eapply list.Forall_impl; [exact Ht|]; by intros b []).
  assert (Forall (fun b => token_byte b = true) id) as Ht2 by (eapply list.Forall_impl; [exact Hidt|]; by intros b []).
  assert (∀ k, forallb (fun b => is_ascii_alphanumeric b || bool_decide (b ∈ bs "_-")) k = true →
    Forall (fun b => is_ascii_alphanumeric b || bool_decide (b ∈ bs "_-") = true) k) as Hkey by (intros k; apply forallb_Forall).
  assert (printable (quoting_subject id)) as Hq.
  { unfold quoting_subject. constructor; [by vm_compute|]. rewrite !Forall_app. split_and!;
      [..|eapply list.Forall_impl; [exact Hidt|]; by intros b (_ & ? & _)| |];
      repeat (constructor; [by vm_compute|]); constructor. }
  assert (Forall splits (two_pairs hash id)) as Hs.
  { unfold two_pairs. constructor; [|constructor; [|constructor]]; (split; [apply Hkey; by vm_compute|]); cbn [snd]; [done|].
    eapply list.Forall_impl; [exact Hq|]. cbv beta. intros b ?. lia. }
  assert (printable (render (two_pairs hash id))) as [Ha Hc]%printable_header.
  { apply render_printable. unfold two_pairs in *. constructor; [|constructor; [|constructor]]; (split; [|done]);
      [by apply Forall_cons_1 in Hs as [? _]|by apply Forall_cons_1 in Hs as [_ [? _]%Forall_cons_1]]. }
  assert (Forall pair_ok (four_pairs hash id)) as Hp.
  { unfold four_pairs, pair_ok, key_ok. repeat constructor; cbn [fst snd value_ok]; try (by vm_compute); try done;
      apply (bool_decide_unpack _); by vm_compute. }
  rewrite (parse_two_passes _ (four_pairs hash id) max); [|done|done|done|done| |done|done].
  2:{ by rewrite first_pass, two_passes_differ by done. }
  unfold four_pairs. cbn [collect].
  rewrite (add_field_new _ _ (bs "hash") hash) by done. cbn [mbind option_bind].
  rewrite (add_field_new _ _ (bs "subject") []) by (done || (rewrite lookup_insert_ne by key_ne; done)). cbn [mbind option_bind].
  rewrite (add_field_new _ _ (bs "uri") id); [|done| |rewrite !lookup_insert_ne by key_ne; done].
  2:{ unfold decoded. rewrite bool_decide_eq_true_2 by (apply (bool_decide_unpack _); by vm_compute).
      apply percent_plain. eapply list.Forall_impl; [exact Hidt|]. by intros b (_ & ?). }
  cbn [mbind option_bind].
  rewrite (add_field_new _ _ (bs "dns") []) by (done || (rewrite !lookup_insert_ne by key_ne; done)). cbn [mbind option_bind].
  eexists. split; [reflexivity|]. split_and!.
  - rewrite lookup_insert_ne by key_ne. by rewrite lookup_insert_eq.
  - rewrite !lookup_insert_ne by key_ne. by rewrite lookup_insert_eq.
  - by rewrite !lookup_insert_ne by key_ne.
Qed.
(** ** Forwarded identities *)

(** What every provider of this kind reports. *)
Definition forwarded (r : PeerIdentityResult) (prov iss subject : list byte) (c : PeerResolutionContext) : Prop :=
  ∃ i, r = result_available i ∧ provider i = prov ∧ issuer i = iss ∧ subject_key i = Some subject ∧
    verified_stable i = true ∧ assurance i = ConfiguredProxy ∧ proxy_address i = immediate_peer c.

Section Workload.
Context `{Json}.

Lemma workload_Ok c id dom src attrs r :
  workload_identity c id dom src attrs = Ok r → forwarded r PROVIDER (bs "spiffe://" ++ dom) id c.
Proof.
  unfold workload_identity. intros E. apply bind_Ok in E as (i & Ei & E). apply bind_Ok in E as (i2 & Ei2 & E).
  apply bind_Ok in E as (i3 & Ei3 & E). injection E as <-.
  unfold identity_new in Ei. destruct (_ || _); [done|]. injection Ei as <-.
  unfold with_subject in Ei2. destruct (bool_decide _); [done|]. injection Ei2 as <-.
  unfold with_attributes in Ei3. apply bind_Ok in Ei3 as ([] & _ & Ei3). injection Ei3 as <-.
  eexists. split; [reflexivity|]. done.
Qed.

Lemma workload_total c id dom src attrs :
  id ≠ [] → src ≠ [] → validate_json_object attrs (bs "peer attributes") = Ok tt →
  ∃ r, workload_identity c id dom src attrs = Ok r.
Proof.
  intros Hid Hsrc Hv. unfold workload_identity, identity_new.
  rewrite (bool_decide_eq_false_2 (PROVIDER = [])), (bool_decide_eq_false_2 (src = [])) by done. cbn [orb].
  rewrite (bool_decide_eq_false_2 (bs "spiffe://" ++ dom = [])), (bool_decide_eq_false_2 (bs "http" = [])) by done. cbn [orb mbind res_bind].
  unfold with_subject. rewrite (bool_decide_eq_false_2 (id = [])) by done. cbn [mbind res_bind].
  unfold with_attributes. rewrite Hv. cbn [mbind res_bind]. by eexists.
Qed.

(** C38. The escapes of a quoted value are stripped before its element is cut at
    semicolons. A client certificate that names no URI and whose subject holds
    quotes, which the proxy escapes as it should, is taken for the SPIFFE id written
    in the subject: the element is a hash and a subject and nothing else, and the
    worker reports the workload of its holder's choice, of any allowed domain. *)
Theorem escaped_quote_names_workload (config : EnvoyXfccSpiffeConfig) c hash id dom :
  trusts (trusted_proxy_addresses (envoy_proxy config)) c = true →
  header_once c (header config) (render [(bs "Hash", Token hash); (bs "Subject", Quoted (quoting_subject id))]) →
  zlen (render (two_pairs hash id)) ≤ max_header_bytes (envoy_proxy config) →
  zlen hash = 64 → forallb is_ascii_hexdigit hash = true → spiffe_id id dom (trust_domains (envoy_proxy config)) →
  validate_json_object [(bs "certificate_sha256", JString (to_ascii_lowercase <$> hash))] (bs "peer attributes") = Ok tt →
  ∃ r, resolve_envoy config c = Ok r ∧ forwarded r (bs "spiffe") (bs "spiffe://" ++ dom) id c.
Proof.
  intros Ht Hh Hmax Hl Hx Hid Hj. unfold resolve_envoy. rewrite Ht. cbn [negb]. fold (two_pairs hash id) in Hh.
  rewrite (proj2 (peer_header_once _ _ _) Hh).
  destruct (quoted_uri_taken hash id dom _ _ Hid ltac:(by intros ->) Hx Hmax) as (m & -> & Hu & Hha & Hb).
  rewrite Hu, Hha, Hb, Hl, Hx. cbn [Z.eqb Pos.eqb negb orb].
  rewrite (proj2 (validate_spiffe_id_exact _ _ _) Hid).
  destruct (workload_total c id dom (bs "envoy_xfcc_sanitize_set") _ (proj1 (id_token _ _ _ Hid)) ltac:(done) Hj) as [r Er].
  exists r. split; [exact Er|]. by eapply workload_Ok.
Qed.
End Workload.
End SpiffeProps.

(** ** Principals *)
Import Spiffe SpiffeProps.

(** The configured providers. *)
Inductive forwarder :=
| FIroh (config : Iroh.IrohForwardedHeaderConfig)
| FEnvoy (config : EnvoyXfccSpiffeConfig)
| FGcp (config : GcpSpiffeConfig)
| FCertificate (config : SpiffeCertificateHeaderConfig) (require_verification : bool).

Definition configured_peers (f : forwarder) : list IpAddr :=
  match f with
  | FIroh config => Iroh.trusted_proxy_addresses config
  | FEnvoy config => trusted_proxy_addresses (envoy_proxy config)
  | FGcp config => trusted_proxy_addresses (gcp_proxy config)
  | FCertificate config _ => trusted_proxy_addresses (cert_proxy config)
  end.

Definition forwarder_name (f : forwarder) : list byte := match f with FIroh _ => bs "iroh" | _ => bs "spiffe" end.

(** A certificate that is a SPIFFE workload's: in its time, with one URI, not a CA, for
    signing and nothing above it, and for both ends of TLS if it says for what. *)
Definition svid (certificate : X509Certificate) (id : list byte) : Prop :=
  is_valid certificate = true ∧
  (∃ critical names, subject_alternative_name certificate = Some (Some (critical, names)) ∧
     omap general_uri names = [id] ∧ (subject_empty certificate = true → critical = true)) ∧
  basic_constraints_ca certificate = Some (Some false) ∧
  key_usage certificate = Some (Some (mkKeyUsage true true false false)) ∧
  (extended_key_usage certificate = Some None ∨ extended_key_usage certificate = Some (Some (true, true))).

Section Principals.
Context `{Json, X509, Aead}.

Definition resolve_forwarded (f : forwarder) (c : PeerResolutionContext) : res RpcError PeerIdentityResult :=
  match f with
  | FIroh config => Iroh.resolve config c
  | FEnvoy config => resolve_envoy config c
  | FGcp config => resolve_gcp config c
  | FCertificate config b => resolve_certificate config b c
  end.

(** What the proxy said: the subject stands in a header that is there once, and is an
    id of the issuer. *)
Definition vouched (f : forwarder) (c : PeerResolutionContext) (iss subject : list byte) : Prop :=
  match f with
  | FIroh config =>
    header_once c (bs "VGI-Forwarded-Iroh-Endpoint") subject ∧ Iroh.canonical_endpoint subject = true ∧ iss = Iroh.issuer config
  | FEnvoy config =>
    ∃ raw m dom hash, header_once c (header config) raw ∧ parse_xfcc raw (max_header_bytes (envoy_proxy config)) = Some m ∧
      m !! bs "uri" = Some [subject] ∧ m !! bs "hash" = Some [hash] ∧
      spiffe_id subject dom (trust_domains (envoy_proxy config)) ∧ iss = bs "spiffe://" ++ dom
  | FGcp config =>
    ∃ dom, header_once c (spiffe_id_header config) subject ∧ header_once c (present_header config) (bs "true") ∧
      header_once c (chain_verified_header config) (bs "true") ∧
      (header_absent c (error_header config) ∨ header_once c (error_header config) []) ∧
      spiffe_id subject dom (trust_domains (gcp_proxy config)) ∧ iss = bs "spiffe://" ++ dom
  | FCertificate config require =>
    ∃ raw decoded trailing contents certificate dom,
      header_once c (certificate_header config) raw ∧
      (require = true → header_once c (verification_header config) (verification_value config)) ∧
      strict_percent_decode raw true = Some decoded ∧
      parse_x509_pem decoded = Some (trailing, bs "CERTIFICATE", contents) ∧
      parse_x509_certificate contents = Some ([], certificate) ∧ svid certificate subject ∧
      spiffe_id subject dom (trust_domains (cert_proxy config)) ∧ iss = bs "spiffe://" ++ dom
  end.

Lemma x509_svid_Ok der domains id dom : x509_svid_from_der der domains = Some (id, dom) →
  ∃ certificate, parse_x509_certificate der = Some ([], certificate) ∧ svid certificate id ∧ spiffe_id id dom domains.
Proof.
  unfold x509_svid_from_der, svid. intros E. destruct (parse_x509_certificate der) as [[trailing cert]|]; [|done]. cbn [mbind option_bind] in E.
  destruct (negb (bool_decide (trailing = [])) || negb (is_valid cert)) eqn:E0; [done|].
  apply orb_false_iff in E0 as [Et Ev]. apply negb_false_iff in Et, Ev. apply bool_decide_eq_true in Et as ->.
  exists cert. split; [done|]. destruct (subject_alternative_name cert) as [[[critical names]|]|]; [|done..]. cbn [mbind option_bind] in E.
  destruct (omap general_uri names) as [|u [|]] eqn:En; [done| |done].
  destruct (validate_spiffe_id u domains) as [d|e|] eqn:Ed; [|done..]. apply validate_spiffe_id_exact in Ed.
  cbn [mbind option_bind] in E. destruct (subject_empty cert && negb critical) eqn:Es; [done|].
  destruct (basic_constraints_ca cert) as [[[]|]|]; [done| |done..]. cbn [mbind option_bind] in E.
  destruct (key_usage cert) as [[[[] [] [] []]|]|]; try done. cbn in E.
  destruct (extended_key_usage cert) as [[[[] []]|]|]; try done; cbn in E; injection E as -> ->;
    (split; [|done]); (split_and!; [done| |done|done|auto]); exists critical, names; (split_and!; [done..|]);
    intros He; rewrite He in Es; by destruct critical.
Qed.

Lemma forwarded_available c r prov iss subject : forwarded r prov iss subject c →
  pr_provider r = prov ∧ ∃ i, pr_identities r = [i] ∧ issuer i = iss ∧ subject_key i = Some subject ∧ provider i = prov ∧ verified_stable i = true.
Proof. intros (i & -> & Hp & Hi & Hs & Hv & _). split; [done|]. by exists i. Qed.

Lemma without_identity_none p s r : without_identity p s = Ok r → pr_identities r = [].
Proof. unfold without_identity. destruct (bool_decide _); [done|]. destruct (_ || _); [done|]. by intros [= <-]. Qed.

Lemma invalid_none r : invalid = Ok r → pr_identities r = []. Proof. apply without_identity_none. Qed.
Lemma no_match_none r : no_match = Ok r → pr_identities r = []. Proof. apply without_identity_none. Qed.
Lemma untrusted_none r : untrusted = Ok r → pr_identities r = []. Proof. apply without_identity_none. Qed.

Lemma iroh_resolved config c r : Iroh.resolve config c = Ok r → pr_identities r ≠ [] →
  trusts (Iroh.trusted_proxy_addresses config) c = true ∧
  ∃ iss subject, vouched (FIroh config) c iss subject ∧ forwarded r (bs "iroh") iss subject c.
Proof.
  unfold Iroh.resolve. intros E Hne. destruct (trusts _ c); [|by apply without_identity_none in E]. split; [done|]. cbn [negb] in E.
  destruct (peer_header c _) as [[endpoint|]|e|] eqn:Eh; [|by apply without_identity_none in E..|done].
  apply peer_header_once in Eh. destruct (Iroh.canonical_endpoint endpoint) eqn:Ec; [|by apply without_identity_none in E].
  cbn [negb] in E. apply bind_Ok in E as (imm & Ei%or_panic_Ok & E).
  destruct (Iroh.forwarded_identity _ _ _ _ _) as [i|e|] eqn:Ef; [|by apply without_identity_none in E|done]. injection E as <-.
  exists (Iroh.issuer config), endpoint. split; [done|].
  unfold Iroh.forwarded_identity in Ef. apply bind_Ok in Ef as ([] & _ & Ef). rewrite Ec in Ef. cbn [negb] in Ef.
  apply bind_Ok in Ef as (i1 & E1 & Ef). apply bind_Ok in Ef as (i2 & E2 & Ef). apply bind_Ok in Ef as (i3 & E3 & Ef). injection Ef as <-.
  unfold identity_new in E1. destruct (_ || _); [done|]. injection E1 as <-.
  unfold with_subject in E2. destruct (bool_decide _); [done|]. injection E2 as <-.
  unfold with_attributes in E3. apply bind_Ok in E3 as ([] & _ & E3). injection E3 as <-.
  eexists. split; [reflexivity|]. by rewrite Ei.
Qed.
Lemma envoy_resolved config c r : resolve_envoy config c = Ok r → pr_identities r ≠ [] →
  trusts (trusted_proxy_addresses (envoy_proxy config)) c = true ∧
  ∃ iss subject, vouched (FEnvoy config) c iss subject ∧ forwarded r (bs "spiffe") iss subject c.
Proof.
  unfold resolve_envoy. intros E Hne. destruct (trusts _ c); [|by apply untrusted_none in E]. split; [done|]. cbn [negb] in E.
  destruct (peer_header c _) as [[raw|]|e|] eqn:Eh; [|by apply no_match_none in E|by apply invalid_none in E|done].
  apply peer_header_once in Eh. destruct (parse_xfcc raw _) as [m|] eqn:Em; [|by apply invalid_none in E].
  destruct (m !! bs "uri") as [[|uri [|]]|] eqn:Eu; try by apply invalid_none in E.
  destruct (m !! bs "hash") as [[|hash [|]]|] eqn:Ex; try by apply invalid_none in E.
  destruct (_ || _); [by apply invalid_none in E|].
  destruct (validate_spiffe_id uri _) as [dom|e|] eqn:Ev; [|by apply invalid_none in E|done].
  apply validate_spiffe_id_exact in Ev. apply workload_Ok in E. exists (bs "spiffe://" ++ dom), uri. split; [|done].
  by exists raw, m, dom, hash.
Qed.

Lemma gcp_resolved config c r : resolve_gcp config c = Ok r → pr_identities r ≠ [] →
  trusts (trusted_proxy_addresses (gcp_proxy config)) c = true ∧
  ∃ iss subject, vouched (FGcp config) c iss subject ∧ forwarded r (bs "spiffe") iss subject c.
Proof.
  unfold resolve_gcp. intros E Hne. destruct (trusts _ c); [|by apply untrusted_none in E]. split; [done|]. cbn [negb] in E.
  destruct (peer_header c (spiffe_id_header config)) as [id|e1|] eqn:E1, (peer_header c (present_header config)) as [present|e2|] eqn:E2,
    (peer_header c (chain_verified_header config)) as [verified|e3|] eqn:E3, (peer_header c (error_header config)) as [failure|e4|] eqn:E4;
    try done; try by apply invalid_none in E.
  destruct (_ && bool_decide (id = None)); [by apply no_match_none in E|].
  destruct (_ || match id with Some v => bool_decide (v = []) | None => true end) eqn:Eb; [by apply invalid_none in E|].
  rewrite !orb_false_iff, !negb_false_iff in Eb. destruct Eb as (((Ep & Ev) & Ef) & Eid).
  apply bool_decide_eq_true in Ep as ->. apply bool_decide_eq_true in Ev as ->. destruct id as [id|]; [|done].
  cbn [or_panic mbind res_bind] in E. destruct (_ <? zlen id); [by apply invalid_none in E|].
  destruct (validate_spiffe_id id _) as [dom|e|] eqn:Es; [|by apply invalid_none in E|done].
  apply validate_spiffe_id_exact in Es. apply workload_Ok in E. exists (bs "spiffe://" ++ dom), id. split; [|done].
  apply peer_header_once in E1, E2, E3. exists dom. split_and!; [done..| |done|done].
  destruct failure as [v|]; [right|left; by apply peer_header_absent].
  apply negb_false_iff, bool_decide_eq_true in Ef as ->. by apply peer_header_once.
Qed.

Lemma certificate_resolved config b c r : resolve_certificate config b c = Ok r → pr_identities r ≠ [] →
  trusts (trusted_proxy_addresses (cert_proxy config)) c = true ∧
  ∃ iss subject, vouched (FCertificate config b) c iss subject ∧ forwarded r (bs "spiffe") iss subject c.
Proof.
  unfold resolve_certificate. intros E Hne. destruct (trusts _ c); [|by apply untrusted_none in E]. split; [done|]. cbn [negb] in E.
  destruct (peer_header c (certificate_header config)) as [[[|x raw]|]|e|] eqn:Eh;
    [by apply no_match_none in E| |by apply no_match_none in E|by apply invalid_none in E|done].
  apply peer_header_once in Eh. destruct (b && _) eqn:Eb; [by apply invalid_none in E|].
  destruct (certificate_spiffe_id (x :: raw) (cert_proxy config)) as [[id dom]|] eqn:Ec; [|by apply invalid_none in E].
  apply workload_Ok in E. exists (bs "spiffe://" ++ dom), id. split; [|done].
  unfold certificate_spiffe_id in Ec. destruct (_ || contains_control _); [done|].
  destruct (strict_percent_decode (x :: raw) true) as [decoded|] eqn:Ed; [|done]. cbn [mbind option_bind] in Ec.
  destruct (_ || negb (starts_with _ decoded)); [done|].
  destruct (parse_x509_pem decoded) as [[[trailing label] contents]|] eqn:Ex; [|done]. cbn [mbind option_bind] in Ec.
  destruct (negb (bool_decide (label = _)) || _) eqn:El; [done|]. apply orb_false_iff in El as [El _].
  apply negb_false_iff, bool_decide_eq_true in El as ->. apply x509_svid_Ok in Ec as (cert & Ep & Hs & Hid).
  exists (x :: raw), decoded, trailing, contents, cert, dom. split_and!; [done| |done..]. intros ->. cbn [andb] in Eb.
  destruct (peer_header c (verification_header config)) as [[v|]|e|] eqn:Ev; try done.
  apply negb_false_iff, andb_true_iff in Eb as [_ Eb]. apply bool_decide_eq_true in Eb as ->. by apply peer_header_once.
Qed.

Lemma forwarder_resolved f c r : resolve_forwarded f c = Ok r → pr_identities r ≠ [] →
  trusts (configured_peers f) c = true ∧
  ∃ iss subject, vouched f c iss subject ∧ forwarded r (forwarder_name f) iss subject c.
Proof.
  destruct f; [apply iroh_resolved|apply envoy_resolved|apply gcp_resolved|apply certificate_resolved].
Qed.

(** Two results of one evidence set have different providers. *)
Lemma from_results_providers rs e : from_results rs = Ok e → ∀ r r', r ∈ rs → r' ∈ rs → pr_provider r = pr_provider r' → r = r'.
Proof.
  unfold from_results. assert (∀ e0, try_fold add_result e0 rs = Ok e →
    (∀ r, r ∈ rs → provider_status e0 !! pr_provider r = None) ∧
    ∀ r r', r ∈ rs → r' ∈ rs → pr_provider r = pr_provider r' → r = r') as Hgen; [|by intros E; apply (Hgen _ E)].
  induction rs as [|r0 rs IH]; intros e0 E; [set_solver|]. cbn [try_fold] in E. apply bind_Ok in E as (e1 & E1 & E).
  destruct (IH e1 E) as [Hn Hd]. unfold add_result in E1. case_bool_decide as Hs; [done|]. destruct (negb _); [done|].
  destruct (existsb _ _); [done|]. injection E1 as <-. cbn [provider_status] in Hn.
  assert (∀ r, r ∈ rs → provider_status e0 !! pr_provider r = None ∧ pr_provider r ≠ pr_provider r0) as Hne.
  { intros r Hr. specialize (Hn r Hr). apply lookup_insert_None in Hn as [? ?]. done. }
  split.
  - intros r [->|Hr]%elem_of_cons; [by apply eq_None_not_Some|by apply Hne].
  - intros r r' [->|Hr]%elem_of_cons [->|Hr']%elem_of_cons Ep; [done|by destruct (Hne r' Hr')|by destruct (Hne r Hr)|by apply Hd].
Qed.

(** C9. Whoever the primary policy authenticates on a forwarding provider's evidence,
    whatever the other providers report, the immediate peer is a configured address,
    the subject stands in a header that is there exactly once and is of the configured
    issuer or an allowed trust domain, with its certificate a workload's where the
    certificate is forwarded; and the principal is that subject's and no other's. *)
Theorem forwarded_principal f c r rs e a auth :
  resolve_forwarded f c = Ok r → from_results rs = Ok e → r ∈ rs → pr_provider r = forwarder_name f →
  peer_identity_primary (forwarder_name f) e a = Ok auth →
  (∃ imm address, immediate_peer c = Some imm ∧ exact_ip imm = Some address ∧ address ∈ configured_peers f) ∧
  ∃ iss subject, vouched f c iss subject ∧
    ∀ name iss' subject', principal auth = bs "peer/" ++ percent_encode name ++ x2f :: percent_encode iss' ++ x2f :: percent_encode subject' ↔
      name = forwarder_name f ∧ iss' = iss ∧ subject' = subject.
Proof.
  intros E Hrs Hr Hp Ha. pose proof (from_results_wf rs e Hrs) as He. apply primary_Ok in Ha as (i & s & Hu & Hs & ->); [|done].
  apply usable_facts in Hu as (Hi & _ & Hin). apply (from_results_source rs e Hrs) in Hin as (r' & Hr' & Hin & Hp').
  assert (r' = r) as -> by (apply (from_results_providers rs e Hrs); congruence).
  destruct (forwarder_resolved f c r E ltac:(intros En; rewrite En in Hin; set_solver)) as (Ht & iss & subject & Hv & Hf).
  apply trusts_spec in Ht. split; [done|]. exists iss, subject. split; [done|].
  apply forwarded_available in Hf as (_ & j & Ej & Hiss & Hsub & Hpj & _). rewrite Ej in Hin. apply list_elem_of_singleton in Hin as ->.
  assert (s = subject) as -> by congruence. subst iss. intros name iss' subject'. cbn [principal peer_context]. rewrite Hi. split.
  - intros Eq%app_inv_head. apply principal_text_inj in Eq as (? & ? & ?). done.
  - by intros (-> & -> & ->).
Qed.
End Principals.
