(* ===== verification/Tailscale.v ===== *)
(** * Tailscale identities

    [vgi-rpc/src/auth/tailscale.rs]: the headers Tailscale Serve sets, believed from
    exact peers, and the daemon's LocalAPI asked over a stream for whom an address
    belongs to: the request, the reader of the HTTP/1 answer and what its JSON body
    says. The daemon is a function from the bytes of a request to what the reads of
    its answer give, the deadline's timeouts among them; the JSON parser that drives
    the visitor, the URL parser and the form encoder are third-party code. *)

From S2P Require Import Prelude Bytes F64 Json ErrorModel Errors Crypto External Net ProxyProtocol Auth PeerIdentity ProxyIdentity.

#[local] Open Scope Z_scope.

Definition PROVIDER : list byte := bs "tailscale".
Definition LOCALAPI_HOST : list byte := bs "local-tailscaled.sock".
Definition SERVE_LOGIN : list byte := bs "tailscale-user-login".
Definition SERVE_NAME : list byte := bs "tailscale-user-name".
Definition SERVE_PROFILE : list byte := bs "tailscale-user-profile-pic".
Definition SERVE_CAPABILITIES : list byte := bs "tailscale-app-capabilities".
Definition FUNNEL_REQUEST : list byte := bs "tailscale-funnel-request".
Definition MAX_LOCALAPI_HEADER_BYTES : Z := 32768.
Definition MAX_LOCALAPI_CHUNK_LINE_BYTES : Z := 8192.
Definition MAX_SOURCE_BYTES : Z := 4096.
Definition MAX_JSON_BYTES : Z := 65536.
Definition MAX_JSON_DEPTH : Z := 16.
Definition MAX_JSON_VALUES : Z := 4096.

(** ** Strict JSON *)

(** The document [serde_json]'s parser reads up to its end: an object is the list of
    its entries as they stand in the text. *)
Class JsonText := { json_document : list byte → option Value }.

(** [StrictValue]'s visitor: an object's entries are inserted in turn, a key that is
    there already is an error. *)
Fixpoint strict_value (v : Value) : option Value :=
  match v with
  | JArray l =>
    JArray <$> (fix go l := match l with
      | [] => Some []
      | v :: l => v ← strict_value v; l ← go l; Some (v :: l)
      end) l
  | JObject m =>
    JObject <$> (fix go acc m := match m with
      | [] => Some acc
      | (k, v) :: m =>
        v ← strict_value v;
        match jget k acc with Some _ => None | None => go (jinsert k v acc) m end
      end) [] m
  | v => Some v
  end.

(** [validate_strict_value]: the count of values so far. *)
Fixpoint validate_strict_value (v : Value) (depth : Z) (count : Z) {struct v} : option Z :=
  if MAX_JSON_DEPTH <? depth then None else
  count ← checked_add count 1;
  if MAX_JSON_VALUES <? count then None else
  match v with
  | JArray l =>
    (fix go l count := match l with
      | [] => Some count
      | v :: l => count ← validate_strict_value v (depth + 1) count; go l count
      end) l count
  | JObject m =>
    (fix go m count := match m with
      | [] => Some count
      | (_, v) :: m => count ← validate_strict_value v (depth + 1) count; go m count
      end) m count
  | _ => Some count
  end.

Definition strict_json `{JsonText} (input : list byte) : option Value :=
  if MAX_JSON_BYTES <? zlen input then None else
  d ← json_document input;
  v ← strict_value d;
  _ ← validate_strict_value v 1 0;
  Some v.

(** ** Tailscale Serve *)

Record TailscaleServeConfig := mkServeConfig {
  serve_issuer : list byte;
  trusted_proxy_addresses : list IpAddr;
  max_header_bytes : Z
}.

Definition serve_validate (c : TailscaleServeConfig) : res RpcError unit :=
  if bool_decide (serve_issuer c = []) || contains_control (serve_issuer c)
     || bool_decide (trusted_proxy_addresses c = []) || (max_header_bytes c =? 0)
  then Err (RpcErr.value_error (bs "issuer, trusted proxy addresses, and a positive header limit are required")) else Ok tt.

Definition serve_config_new (iss : list byte) (addresses : list (list byte)) : res RpcError TailscaleServeConfig :=
  trusted ← mapM (fun v =>
    ok_or (RpcErr.value_error (bs "trusted proxy addresses must be exact IP addresses")) (exact_ip v)) addresses;
  let config := mkServeConfig iss trusted 16384 in
  _ ← serve_validate config;
  Ok config.

Definition with_max_header_bytes (maximum : Z) (c : TailscaleServeConfig) : res RpcError TailscaleServeConfig :=
  let c := mkServeConfig (serve_issuer c) (trusted_proxy_addresses c) maximum in
  _ ← serve_validate c;
  Ok c.

(** An address, with or without a port. *)
Definition peer_ip (v : list byte) : option IpAddr :=
  normalize_ip <$> match parse_ip v with Some a => Some a | None => ip <$> parse_socket_addr v end.

(** [haystack.find(needle)]: what is in front of the first occurrence and behind it. *)
Fixpoint find_text (needle l : list byte) : option (list byte * list byte) :=
  match strip_prefix needle l with
  | Some r => Some ([], r)
  | None => match l with [] => None | b :: l => '(p, r) ← find_text needle l; Some (b :: p, r) end
  end.

Definition is_ascii_graphic (b : byte) : bool := in_range b 0x21 0x7e.

(** [decode_q_word] *)
Fixpoint decode_q_word (encoded : list byte) : option (list byte) :=
  match encoded with
  | [] => Some []
  | x5f :: l => r ← decode_q_word l; Some (x20 :: r)
  | x3d :: a :: b :: l =>
    h ← hex a; k ← hex b;
    r ← decode_q_word l;
    Some (z2b (Z.lor (Z.shiftl h 4) k) :: r)
  | x3d :: _ => None
  | b :: l =>
    if is_ascii_graphic b && negb (bool_decide (b = x3f)) then (r ← decode_q_word l; Some (b :: r)) else None
  end.

Definition trim_blanks : list byte → list byte :=
  fix go l := match l with b :: l' => if bool_decide (b = x20) || bool_decide (b = x09) then go l' else l | [] => [] end.

(** The loop over the encoded words of [rest]; every turn consumes one. *)
Fixpoint decode_words (fuel : nat) (rest decoded : list byte) : option (list byte) :=
  match fuel with
  | O => None
  | S fuel =>
    if (zlen rest <? 12) || negb (eq_ignore_ascii_case (ztake 10 rest) (bs "=?utf-8?q?")) then None else
    '(word, behind) ← find_text (bs "?=") (zdrop 10 rest);
    d ← decode_q_word word;
    let decoded := decoded ++ d in
    match behind with
    | [] => Some decoded
    | _ =>
      let trimmed := trim_blanks behind in
      if (zlen trimmed =? zlen behind) || negb (starts_with (bs "=?") trimmed) then None else
      decode_words fuel trimmed decoded
    end
  end.

Definition decode_serve_value (v : list byte) (maximum_bytes : Z) : option (list byte) :=
  if negb (Spiffe.is_ascii v) || (maximum_bytes <? zlen v) || contains_control v then None else
  if negb (starts_with (bs "=?") v) then Some v else
  decoded ← decode_words (length v) v [];
  if maximum_bytes <? zlen decoded then None else
  decoded ← from_utf8 decoded;
  if contains_control decoded then None else Some decoded.

(** One entry of the capability map. *)
Definition add_capability (m : Map) (e : list byte * Value) : option Map :=
  let '(name, entries) := e in
  if bool_decide (name = []) || (512 <? zlen name) || negb (bool_decide (x2f ∈ name)) || contains_control name then None else
  match entries with
  | JArray l => if existsb (fun v => negb (is_object v)) l then None else Some (jinsert name (JArray l) m)
  | _ => None
  end.

Fixpoint add_capabilities (m : Map) (es : Map) : option Map :=
  match es with [] => Some m | e :: es => m ← add_capability m e; add_capabilities m es end.

(** [value.map(f).transpose()] *)
Definition each {A B} (f : A → option B) (o : option A) : option (option B) :=
  match o with Some a => Some <$> f a | None => Some None end.

Definition absent_or_empty (o : option (list byte)) : bool :=
  match o with Some v => bool_decide (v = []) | None => true end.

Section Serve.
Context `{Json, JsonText}.

Definition parse_serve_capabilities (v : list byte) (maximum_bytes : Z) : option Map :=
  decoded ← decode_serve_value v maximum_bytes;
  match strict_json decoded with
  | Some (JObject caps) => add_capabilities [] caps
  | _ => None
  end.

(** The header values that decode: login, display name and capabilities. *)
Definition serve_decoded (max : Z) (login_raw name_raw profile_raw capabilities_raw : option (list byte))
  : option (option (list byte) * option (list byte) * Map) :=
  login ← each (fun v => decode_serve_value v max) login_raw;
  display_name ← each (fun v => decode_serve_value v max) name_raw;
  _ ← each (fun v => decode_serve_value v max) profile_raw;
  caps ← each (fun v => parse_serve_capabilities v max) capabilities_raw;
  Some (login, display_name, default [] caps).

Definition resolve_serve (config : TailscaleServeConfig) (c : PeerResolutionContext) : res RpcError PeerIdentityResult :=
  let refused := fun s => without_identity PROVIDER s in
  if negb (match imm ← immediate_peer c; peer_ip imm with
           | Some p => existsb (fun t => bool_decide (normalize_ip t = p)) (trusted_proxy_addresses config)
           | None => false
           end)
  then refused UntrustedProxy else
  match peer_header c FUNNEL_REQUEST, peer_header c SERVE_LOGIN, peer_header c SERVE_NAME,
        peer_header c SERVE_PROFILE, peer_header c SERVE_CAPABILITIES with
  | Ok funnel, Ok login_raw, Ok name_raw, Ok profile_raw, Ok capabilities_raw =>
    match funnel with
    | Some f => refused (if bool_decide (f = bs "?1") then NotApplicable else Invalid)
    | None =>
      match serve_decoded (max_header_bytes config) login_raw name_raw profile_raw capabilities_raw with
      | None => refused Invalid
      | Some (login, display_name, caps) =>
        if bool_decide (is_Some login_raw) && absent_or_empty login
           || (bool_decide (is_Some name_raw) || bool_decide (is_Some profile_raw)) && absent_or_empty login
        then refused Invalid else
        if bool_decide (login = None) && bool_decide (length caps = 0%nat) then refused NoMatch else
        let attrs := match login with Some l => jinsert (bs "user_login") (JString l) [] | None => [] end in
        let attrs := match display_name with
                     | Some n => if bool_decide (n = []) then attrs else jinsert (bs "user_display_name") (JString n) attrs
                     | None => attrs
                     end in
        i ← identity_new PROVIDER (bs "serve_proxy") ConfiguredProxy (serve_issuer config) (bs "http");
        i ← with_attributes attrs i;
        i ← with_capabilities caps (bool_decide (is_Some capabilities_raw)) i;
        let i := with_addresses (asserted_peer c) (immediate_peer c) i in
        i ← match login with
            | Some l => with_subject User (bs "login:" ++ l) Login true i
            | None => Ok i
            end;
        Ok (result_available i)
      end
    end
  | Panic, _, _, _, _ | _, Panic, _, _, _ | _, _, Panic, _, _ | _, _, _, Panic, _ | _, _, _, _, Panic => Panic
  | _, _, _, _, _ => refused Invalid
  end.

Definition tailscale_serve_header_provider (config : TailscaleServeConfig) : res RpcError PeerIdentityProvider :=
  _ ← serve_validate config;
  provider_new PROVIDER (resolve_serve config).
End Serve.

(** ** The LocalAPI *)
Inductive TailscaleLocalApiEndpoint := Unix (path : list byte) | HttpEndpoint (host : list byte) (port : Z).

Record TailscaleLocalApiConfig := mkLocalApi {
  api_issuer : list byte;
  endpoint : TailscaleLocalApiEndpoint;
  password : option (list byte);
  timeout : Z;
  max_response_bytes : Z
}.

Definition api_validate (c : TailscaleLocalApiConfig) : res RpcError unit :=
  if bool_decide (api_issuer c = []) || contains_control (api_issuer c) || (timeout c =? 0) || (max_response_bytes c =? 0)
  then Err (RpcErr.value_error (bs "issuer, a positive timeout, and a positive response limit are required")) else
  _ ← match endpoint c with
      | Unix path =>
        if bool_decide (path = []) then Err (RpcErr.value_error (bs "LocalAPI Unix socket path is required")) else
        if bool_decide (is_Some (password c))
        then Err (RpcErr.value_error (bs "LocalAPI password is valid only for an HTTP endpoint")) else Ok tt
      | HttpEndpoint host port =>
        if bool_decide (host = []) || (port =? 0)
        then Err (RpcErr.value_error (bs "invalid LocalAPI HTTP endpoint")) else Ok tt
      end;
  if match password c with Some p => existsb (fun b => bool_decide (b ∈ [x0d; x0a; x00])) p | None => false end
  then Err (RpcErr.value_error (bs "LocalAPI password contains a control character")) else Ok tt.

Definition valid_api (c : TailscaleLocalApiConfig) : res RpcError TailscaleLocalApiConfig :=
  _ ← api_validate c; Ok c.

Definition api_config_new (iss : list byte) : res RpcError TailscaleLocalApiConfig :=
  valid_api (mkLocalApi iss (Unix (bs "/var/run/tailscale/tailscaled.sock")) None (5 * 10 ^ 9) 65536).
Definition with_unix_socket (path : list byte) (c : TailscaleLocalApiConfig) : res RpcError TailscaleLocalApiConfig :=
  valid_api (mkLocalApi (api_issuer c) (Unix path) None (timeout c) (max_response_bytes c)).

(** [url::Url] as the endpoint's check reads it. *)
Record Origin := mkOrigin {
  o_scheme : list byte; o_host : option (list byte); o_username : list byte; o_password : bool;
  o_path : list byte; o_query : bool; o_fragment : bool; o_port : option Z
}.
Class OriginLib := {
  origin_parse : list byte → option Origin;
  (** [form_urlencoded::Serializer] over the pairs *)
  form_urlencoded : list (list byte * list byte) → list byte
}.

Definition bad_origin (o : Origin) : bool :=
  negb (bool_decide (o_scheme o = bs "http")) || bool_decide (o_host o = None) || negb (bool_decide (o_username o = []))
  || o_password o || negb (bool_decide (o_path o = [] ∨ o_path o = [x2f])) || o_query o || o_fragment o.

Definition with_http_endpoint `{OriginLib} (text : list byte) (c : TailscaleLocalApiConfig)
  : res RpcError TailscaleLocalApiConfig :=
  o ← ok_or (RpcErr.value_error (bs "LocalAPI endpoint must be a valid HTTP origin")) (origin_parse text);
  if bad_origin o
  then Err (RpcErr.value_error (bs "LocalAPI endpoint must be an HTTP origin without userinfo, path, query, or fragment")) else
  host ← or_panic (o_host o);
  valid_api (mkLocalApi (api_issuer c) (HttpEndpoint host (default 80 (o_port o))) (password c) (timeout c) (max_response_bytes c)).
Definition with_password (p : list byte) (c : TailscaleLocalApiConfig) : res RpcError TailscaleLocalApiConfig :=
  valid_api (mkLocalApi (api_issuer c) (endpoint c) (Some p) (timeout c) (max_response_bytes c)).
Definition with_timeout (t : Z) (c : TailscaleLocalApiConfig) : res RpcError TailscaleLocalApiConfig :=
  valid_api (mkLocalApi (api_issuer c) (endpoint c) (password c) t (max_response_bytes c)).
Definition with_max_response_bytes (m : Z) (c : TailscaleLocalApiConfig) : res RpcError TailscaleLocalApiConfig :=
  valid_api (mkLocalApi (api_issuer c) (endpoint c) (password c) (timeout c) m).

(** *** Reading an HTTP/1 answer *)
Inductive LocalApiError := Io | Timeout | Protocol.

(** What the reads of a stream give: bytes (none is end of file), or a failure,
    the deadline's among them. After the last event comes end of file. *)
Inductive StreamEvent := Bytes (l : list byte) | Broken (e : LocalApiError).
Abbreviation stream := (list StreamEvent).

Definition READ_BYTES : Z := 8192.

(** [read_more_allow_eof]: one read into an 8 KiB buffer; what did not fit stays. *)
Definition read_more_allow_eof (s : stream) (output : list byte) : res LocalApiError (bool * list byte * stream) :=
  match s with
  | [] | Bytes [] :: _ => Ok (false, output, tail s)
  | Bytes l :: t =>
    Ok (true, output ++ ztake READ_BYTES l, if zlen l <=? READ_BYTES then t else Bytes (zdrop READ_BYTES l) :: t)
  | Broken e :: _ => Err e
  end.

Definition read_more (s : stream) (output : list byte) : res LocalApiError (list byte * stream) :=
  '(more, output, s) ← read_more_allow_eof s output;
  if (more : bool) then Ok (output, s) else Err Protocol.

(** The reads a stream has left, at most: the fuel of the loops below. *)
Definition stream_reads (s : stream) : nat :=
  sum_list_with (fun e => match e with Bytes l => S (length l) | Broken _ => 1%nat end) s.

(** The loop that reads until [needle] is in [pending]: what is in front of it, what
    is behind, the stream. More than [max] bytes without it are refused. *)
Fixpoint read_until (fuel : nat) (needle : list byte) (max : Z) (pending : list byte) (s : stream)
  : res LocalApiError (list byte * list byte * stream) :=
  match fuel with
  | O => Panic
  | S fuel =>
    match find_text needle pending with
    | Some (front, behind) => Ok (front, behind, s)
    | None =>
      if max <? zlen pending then Err Protocol else
      '(pending, s) ← read_more s pending;
      read_until fuel needle max pending s
    end
  end.

Definition CRLF : list byte := [x0d; x0a].

Definition read_line (pending : list byte) (s : stream) : res LocalApiError (list byte * list byte * stream) :=
  read_until (S (stream_reads s)) CRLF MAX_LOCALAPI_CHUNK_LINE_BYTES pending s.

(** [while body.len() < n { read_more }] *)
Fixpoint read_at_least (fuel : nat) (n : Z) (body : list byte) (s : stream) : res LocalApiError (list byte * stream) :=
  match fuel with
  | O => Panic
  | S fuel =>
    if zlen body <? n then ('(body, s) ← read_more s body; read_at_least fuel n body s) else Ok (body, s)
  end.

(** The body that ends with the stream. *)
Fixpoint read_to_eof (fuel : nat) (max : Z) (body : list byte) (s : stream) : res LocalApiError (list byte) :=
  match fuel with
  | O => Panic
  | S fuel =>
    if max <? zlen body then Err Protocol else
    '(more, body, s) ← read_more_allow_eof s body;
    if (more : bool) then read_to_eof fuel max body s else Ok body
  end.

(** The trailer lines, up to the empty one. *)
Fixpoint skip_trailers (fuel : nat) (pending : list byte) (s : stream) : res LocalApiError unit :=
  match fuel with
  | O => Panic
  | S fuel =>
    '(line, pending, s) ← read_line pending s;
    match line with [] => Ok tt | _ => skip_trailers fuel pending s end
  end.

(** [usize::from_str_radix(text, 16)] *)
Definition parse_usize_hex (l : list byte) : option Z :=
  let digits := match l with x2b :: t => t | _ => l end in
  match digits with
  | [] => None
  | _ => v ← radix_value 16 hex_value 0 digits; if v <=? u64_max then Some v else None
  end.

Definition chunk_size (line : list byte) : option Z :=
  text ← head (split_on x3b line);
  text ← from_utf8 text;
  parse_usize_hex text.

Fixpoint decode_chunks (fuel : nat) (max : Z) (decoded pending : list byte) (s : stream) : res LocalApiError (list byte) :=
  match fuel with
  | O => Panic
  | S fuel =>
    '(line, pending, s) ← read_line pending s;
    size ← ok_or Protocol (chunk_size line);
    if max <? saturating_add (zlen decoded) size then Err Protocol else
    if size =? 0 then (_ ← skip_trailers (S (length pending + stream_reads s)) pending s; Ok decoded) else
    needed ← or_panic (checked_add size 2);
    '(pending, s) ← read_at_least (S (stream_reads s)) needed pending s;
    ending ← or_panic (slice pending size needed);
    if negb (bool_decide (ending = CRLF)) then Err Protocol else
    decode_chunks fuel max (decoded ++ ztake size pending) (zdrop needed pending) s
  end.

Definition decode_chunked (s : stream) (pending : list byte) (max : Z) : res LocalApiError (list byte) :=
  decode_chunks (S (length pending + stream_reads s)) max [] pending s.

Definition is_http_token (b : byte) : bool := is_ascii_alphanumeric b || bool_decide (b ∈ bs "!#$%&'*+-.^_`|~").

(** The lines of the head: every one but the last ends in a carriage return, which is
    cut; the last one has none. *)
Fixpoint head_lines (lines : list (list byte)) : option (list (list byte)) :=
  match lines with
  | [] => None
  | [l] => if bool_decide (x0d ∈ l) then None else Some [l]
  | l :: ls => if ends_with [x0d] l then (ls ← head_lines ls; Some (take (length l - 1) l :: ls)) else None
  end.

Definition status_of (line : list byte) : option Z :=
  text ← from_utf8 line;
  '(protocol, r) ← split_once x20 text;
  '(code, _) ← split_once x20 r;
  status ← parse_unsigned u16_max code;
  if (100 <=? status) && (status <=? 599) && (bool_decide (protocol = bs "HTTP/1.0") || bool_decide (protocol = bs "HTTP/1.1"))
  then Some status else None.

Abbreviation ApiHeaders := (gmap (list byte) (list (list byte))).

Definition blank_start (line : list byte) : bool :=
  match line with [] => true | b :: _ => bool_decide (b = x20) || bool_decide (b = x09) end.

Definition add_line (m : ApiHeaders) (line : list byte) : option ApiHeaders :=
  if blank_start line then None else
  '(name, v) ← split_once x3a line;
  if bool_decide (name = []) || negb (forallb is_http_token name) || negb (Spiffe.is_ascii v) then None else
  name ← from_utf8 name;
  v ← from_utf8 v;
  let name : list byte := to_ascii_lowercase <$> name in
  let v := trim v in
  if existsb (fun b => bool_decide (b ∈ [x0d; x0a; x00])) v then None else
  Some (<[name := default [] (m !! name) ++ [v]]> m).

Fixpoint add_lines (m : ApiHeaders) (ls : list (list byte)) : option ApiHeaders :=
  match ls with [] => Some m | l :: ls => m ← add_line m l; add_lines m ls end.

(** The head of the answer: status and headers. *)
Definition parse_head (raw : list byte) : option (Z * ApiHeaders) :=
  lines ← head_lines (split_on x0a raw);
  match lines with
  | [] => None
  | first :: lines => status ← status_of first; m ← add_lines ∅ lines; Some (status, m)
  end.

Definition read_body (m : ApiHeaders) (max : Z) (body : list byte) (s : stream) : res LocalApiError (list byte) :=
  match default [] (m !! bs "content-length"), default [] (m !! bs "transfer-encoding") with
  | _ :: _, _ :: _ => Err Protocol
  | [length], [] =>
    n ← ok_or Protocol (parse_unsigned u64_max length);
    if max <? n then Err Protocol else
    '(body, _) ← read_at_least (S (stream_reads s)) n body s;
    Ok (ztake n body)
  | _ :: _, [] => Err Protocol
  | [], [encoding] =>
    if eq_ignore_ascii_case encoding (bs "chunked") then decode_chunked s body max else Err Protocol
  | [], _ :: _ => Err Protocol
  | [], [] => read_to_eof (S (S (stream_reads s))) max body s
  end.

Definition read_http_response (s : stream) (maximum_body_bytes : Z) : res LocalApiError (Z * ApiHeaders * list byte) :=
  '(raw, body, s) ← read_until (S (stream_reads s)) (CRLF ++ CRLF) MAX_LOCALAPI_HEADER_BYTES [] s;
  if MAX_LOCALAPI_HEADER_BYTES <? zlen raw then Err Protocol else
  '(status, m) ← ok_or Protocol (parse_head raw);
  body ← read_body m maximum_body_bytes body s;
  if maximum_body_bytes <? zlen body then Err Protocol else Ok (status, m, body).

(** *** The request *)
Definition ALPHABET : list byte := bs "ABCDEFGHIJKLMNOPQRSTUVWXYZabcdefghijklmnopqrstuvwxyz0123456789+/".
Definition alphabet_at (bits : Z) (shift : Z) : byte := default x00 (znth ALPHABET (Z.land (Z.shiftr bits shift) 63)).

Fixpoint base64 (l : list byte) : list byte :=
  let bits a b c := Z.lor (Z.lor (Z.shiftl (b2z a) 16) (Z.shiftl (b2z b) 8)) (b2z c) in
  match l with
  | [] => []
  | [a] => let v := bits a x00 x00 in [alphabet_at v 18; alphabet_at v 12; x3d; x3d]
  | [a; b] => let v := bits a b x00 in [alphabet_at v 18; alphabet_at v 12; alphabet_at v 6; x3d]
  | a :: b :: c :: l =>
    let v := bits a b c in alphabet_at v 18 :: alphabet_at v 12 :: alphabet_at v 6 :: alphabet_at v 0 :: base64 l
  end.

(** The daemon behind the endpoint: whether a connection is made and the request
    written, and what the reads of the answer then give. *)
Definition Daemon : Type := TailscaleLocalApiEndpoint → list byte → res LocalApiError stream.

Definition request_bytes (password : option (list byte)) (path : list byte) : list byte :=
  bs "GET " ++ path ++ bs " HTTP/1.1" ++ CRLF ++ bs "Host: " ++ LOCALAPI_HOST ++ CRLF ++ bs "Connection: close" ++ CRLF
  ++ match password with
     | Some p => bs "Authorization: Basic " ++ base64 (x3a :: p) ++ CRLF
     | None => []
     end
  ++ CRLF.

Definition localapi_request (daemon : Daemon) (config : TailscaleLocalApiConfig) (path : list byte)
  : res LocalApiError (Z * ApiHeaders * list byte) :=
  s ← daemon (endpoint config) (request_bytes (password config) path);
  read_http_response s (max_response_bytes config).

(** *** What the answer says *)
Definition valid_service_name (service : list byte) : bool :=
  match strip_prefix (bs "svc:") service with
  | None => false
  | Some label =>
    negb (bool_decide (label = [])) && (zlen label <=? 63)
    && forallb (fun b => is_ascii_alphanumeric b || bool_decide (b = x2d)) label
    && match head label with Some b => is_ascii_alphanumeric b | None => false end
    && match head (rev label) with Some b => is_ascii_alphanumeric b | None => false end
  end.

(** An address, one with a port, or one in brackets; the first stays as it is. *)
Definition destination_ip (v : list byte) : option IpAddr :=
  match parse_ip v with
  | Some a => Some a
  | None =>
    match parse_socket_addr v with
    | Some s => Some (normalize_ip (ip s))
    | None =>
      bracketed ← strip_prefix [x5b] v;
      '(address, suffix) ← split_once x5d bracketed;
      if negb (bool_decide (suffix = [])) then None else normalize_ip <$> parse_ip address
    end
  end.

Definition capability_target (kind : list byte) (v : option (list byte)) : Value :=
  JObject (match v with
           | Some v => [(bs "kind", JString kind); (bs "value", JString v)]
           | None => [(bs "kind", JString kind)]
           end).

Definition normalized_endpoint_ip (v : list byte) : option (list byte) := ip_to_string <$> peer_ip v.

Definition localapi_proxy_address (c : PeerResolutionContext) : option (option (list byte)) :=
  match asserted_peer c with
  | Some _ => imm ← immediate_peer c; Some <$> normalized_endpoint_ip imm
  | None => Some None
  end.

Definition optional_string (v : option Value) : option (option (list byte)) :=
  match v with None | Some JNull => Some None | Some (JString s) => Some (Some s) | _ => None end.

(** [map.remove(k)] *)
Definition jremove (k : list byte) (m : Map) : Map := List.filter (fun e => negb (bool_decide (e.1 = k))) m.

(** [map_err(|_| ())] *)
Definition quietly {E A} (r : res E A) : option A := match r with Ok a => Some a | _ => None end.

Definition tag_of (v : Value) : option (list byte) := s ← as_str v; if starts_with (bs "tag:") s then Some s else None.
Definition tags_of (v : option Value) : option (list (list byte)) :=
  match v with None | Some JNull => Some [] | Some (JArray l) => mapM tag_of l | _ => None end.

Definition as_u64 (v : Value) : option Z := match v with JInt z => if 0 <=? z then Some z else None | _ => None end.

(** [asserted_peer.or(source_endpoint).or(immediate_peer)] *)
Definition source_of (c : PeerResolutionContext) : option (list byte) :=
  match asserted_peer c, source_endpoint c with Some a, _ => Some a | None, Some e => Some e | None, None => immediate_peer c end.

Definition capability_map (v : option Value) : option Map :=
  match v with None | Some JNull => Some [] | Some (JObject m) => Some m | _ => None end.

Definition is_array (v : Value) : bool := match v with JArray _ => true | _ => false end.

(** [LoginName] and [DisplayName] of a user's profile. *)
Definition add_profile_text (profile : Map) (acc : Map) (names : list byte * list byte) : option Map :=
  s ← optional_string (jget names.1 profile);
  Some match s with
       | Some ((_ :: _) as s) => jinsert names.2 (JString s) acc
       | _ => acc
       end.

(** Whom the node is: its user, or itself when it is tagged; and the attributes. *)
Definition subject_of (profile : option Value) (stable_id : option (list byte)) (tags : list (list byte)) (attrs : Map)
  : option (SubjectKind * list byte * Map) :=
  match tags with
  | [] =>
    profile ← profile;
    profile ← as_object profile;
    id ← jget (bs "ID") profile;
    user_id ← as_u64 id;
    if user_id <=? 0 then None else
    let attrs := jinsert (bs "user_id") (JString (dec_unsigned user_id)) attrs in
    attrs ← add_profile_text profile attrs (bs "LoginName", bs "user_login");
    attrs ← add_profile_text profile attrs (bs "DisplayName", bs "user_display_name");
    Some (User, bs "user:" ++ dec_unsigned user_id, attrs)
  | _ =>
    match stable_id with
    | Some ((_ :: _) as id) => Some (TaggedNode, bs "node:" ++ id, attrs)
    | _ => None
    end
  end.

Section LocalApi.
Context `{Json, JsonText, OriginLib}.

Definition localapi_identity (body : list byte) (c : PeerResolutionContext) (target : Value) (iss : list byte)
  : option PeerIdentity :=
  payload ← strict_json body;
  payload ← as_object payload;
  node ← jget (bs "Node") payload;
  node ← as_object node;
  let profile := jget (bs "UserProfile") (jremove (bs "Node") payload) in
  caps ← capability_map (jget (bs "CapMap") (jremove (bs "UserProfile") (jremove (bs "Node") payload)));
  if existsb (fun e => negb (is_array e.2)) caps then None else
  tags ← tags_of (jget (bs "Tags") node);
  stable_id ← optional_string (jget (bs "StableID") node);
  node_name ← optional_string (jget (bs "Name") node);
  let attrs := jobject [(bs "node_id", match stable_id with Some s => JString s | None => JNull end);
                        (bs "node_name", match node_name with Some s => JString s | None => JNull end);
                        (bs "tags", JArray (JString <$> tags)); (bs "capability_target", target)] in
  '(kind, subject, attrs) ← subject_of profile stable_id tags attrs;
  i ← quietly (identity_new PROVIDER (bs "localapi") LocalDaemon iss (pc_transport c));
  i ← quietly (with_subject kind subject Stable true i);
  i ← quietly (with_attributes attrs i);
  i ← quietly (with_capabilities caps true i);
  proxy ← localapi_proxy_address c;
  Some (with_addresses (s ← source_of c; normalized_endpoint_ip s) proxy i).

(** The query of the call, and the target the answer's capabilities are for. *)
Definition whois_query (c : PeerResolutionContext) (source : list byte) : option (list byte * Value) :=
  let base := [(bs "addr", source); (bs "proto", bs "tcp")] in
  match service_name c, destination_address c with
  | Some service, _ =>
    if negb (valid_service_name service) then None else
    Some (form_urlencoded (base ++ [(bs "svc_name", service)]), capability_target (bs "service") (Some service))
  | None, Some destination =>
    d ← destination_ip destination;
    Some (form_urlencoded (base ++ [(bs "dst_ip", ip_to_string d)]), capability_target (bs "destination_ip") (Some (ip_to_string d)))
  | None, None => Some (form_urlencoded base, capability_target (bs "node") None)
  end.

Definition json_type (m : ApiHeaders) : bool :=
  match default [] (m !! bs "content-type") with
  | [v] => match head (split_on x3b v) with
           | Some t => eq_ignore_ascii_case (trim t) (bs "application/json")
           | None => false
           end
  | _ => false
  end.

(** What a status other than 200 means. *)
Definition status_meaning (status : Z) : PeerIdentityStatus :=
  if (status =? 401) || (status =? 403) then PermissionDenied else
  if status =? 404 then NoMatch else
  if (500 <=? status) && (status <=? 599) then Unavailable else Invalid.

Definition resolve_localapi (daemon : Daemon) (config : TailscaleLocalApiConfig) (c : PeerResolutionContext)
  : res RpcError PeerIdentityResult :=
  let refused := fun s => without_identity PROVIDER s in
  match localapi_proxy_address c with
  | None => refused Invalid
  | Some _ =>
    match source_of c with
    | None => refused NotApplicable
    | Some source =>
      if (MAX_SOURCE_BYTES <? zlen source) || existsb (fun b => bool_decide (b ∈ [x0d; x0a; x00])) source then refused Invalid else
      match whois_query c source with
      | None => refused Invalid
      | Some (query, target) =>
        match localapi_request daemon config (bs "/localapi/v0/whois?" ++ query) with
        | Err Io | Err Timeout => refused Unavailable
        | Err Protocol => refused Invalid
        | Panic => Panic
        | Ok (status, m, body) =>
          if negb (status =? 200) then refused (status_meaning status) else
          if negb (json_type m) then refused Invalid else
          match localapi_identity body c target (api_issuer config) with
          | Some i => Ok (result_available i)
          | None => refused Invalid
          end
        end
      end
    end
  end.

Definition tailscale_localapi_provider (daemon : Daemon) (config : TailscaleLocalApiConfig) : res RpcError PeerIdentityProvider :=
  _ ← api_validate config;
  provider_new PROVIDER (resolve_localapi daemon config).
End LocalApi.
