(* ===== verification/TailscaleProps.v ===== *)
(** * What the LocalAPI reader and the Tailscale providers show

    The reader of HTTP/1 answers returns on every stream, within its limit, and reads a
    framed answer whatever way the bytes arrive; a Serve identity is a configured
    proxy's, and its login is never a principal. *)

From S2P Require Import Prelude Bytes F64 Json ErrorModel Errors Crypto External Net ProxyProtocol Auth PeerIdentity PeerIdentityProps ProxyIdentity ProxyIdentityProps Tailscale.

#[local] Open Scope Z_scope.

(** ** Finding text *)
Lemma find_text_Some n l f b : find_text n l = Some (f, b) → l = f ++ n ++ b.
Proof.
  revert f b. induction l as [|x l IH]; intros f b E; cbn [find_text] in E.
  - destruct (strip_prefix n []) as [r|] eqn:Es; [|done]. injection E as <- <-. by apply strip_prefix_Some in Es.
  - destruct (strip_prefix n (x :: l)) as [r|] eqn:Es; [injection E as <- <-; by apply strip_prefix_Some in Es|].
    destruct (find_text n l) as [[p r]|]; [|done]. injection E as <- <-. by rewrite (IH _ _ eq_refl).
Qed.

Lemma find_text_there n f b : ∃ x, find_text n (f ++ n ++ b) = Some x.
Proof.
  induction f as [|x f [[p r] IH]]; cbn [app].
  - destruct (n ++ b) eqn:E; cbn [find_text]; rewrite <- E, strip_prefix_app; by eexists.
  - cbn [find_text]. destruct (strip_prefix n _); [by eexists|]. rewrite IH. by eexists.
Qed.

Lemma find_text_app n l k f b : find_text n l = Some (f, b) → find_text n (l ++ k) = Some (f, b ++ k).
Proof.
  revert f b. induction l as [|x l IH]; intros f b E; cbn [find_text app] in *.
  - destruct (strip_prefix n []) as [r|] eqn:Es; [|done]. injection E as <- <-. apply strip_prefix_Some in Es.
    symmetry in Es. apply app_nil in Es as [-> ->]. by destruct k.
  - destruct (strip_prefix n (x :: l)) as [r|] eqn:Es.
    + injection E as <- <-. apply strip_prefix_Some in Es.
      rewrite app_comm_cons, Es, <- app_assoc, strip_prefix_app. done.
    + destruct (find_text n l) as [[p r]|] eqn:Ef; [|done]. injection E as <- <-.
      destruct (strip_prefix n (x :: l ++ k)) as [r'|] eqn:Es'; [|by rewrite (IH _ _ eq_refl)]. exfalso.
      apply strip_prefix_Some in Es'. apply find_text_Some in Ef. subst l.
      assert (strip_prefix n (x :: p ++ n ++ r) ≠ None) as Hn; [|done].
      assert (take (length n) (x :: p ++ n ++ r) = n) as Et.
      { apply (f_equal (take (length n))) in Es'. rewrite take_app_length in Es'. rewrite app_comm_cons in Es'.
        rewrite take_app_le in Es'; [done|]. cbn [length]. rewrite !length_app. lia. }
      rewrite <- (take_drop (length n) (x :: p ++ n ++ r)), Et, strip_prefix_app. done.
Qed.

Lemma find_text_late n l k f b :
  find_text n l = None → find_text n (l ++ k) = Some (f, b) → zlen l < zlen f + zlen n.
Proof.
  intros Hn E. apply find_text_Some in E. destruct (Z.lt_ge_cases (zlen l) (zlen f + zlen n)) as [|Hge]; [done|]. exfalso.
  assert (l = (f ++ n) ++ drop (length (f ++ n)) l) as El.
  { rewrite app_assoc in E. rewrite <- (take_drop (length (f ++ n)) l) at 1. f_equal.
    apply (f_equal (take (length (f ++ n)))) in E. rewrite take_app_length in E.
    rewrite take_app_le in E; [done|]. rewrite length_app. unfold zlen in Hge. lia. }
  rewrite <- app_assoc in El. destruct (find_text_there n f (drop (length (f ++ n)) l)) as [x Ex].
  rewrite <- El in Ex. congruence.
Qed.

(** ** Streams *)

Lemma reads_bytes l t : stream_reads (Bytes l :: t) = (S (length l) + stream_reads t)%nat.
Proof. done. Qed.

(** One read: what it adds to the output the stream loses. *)
Lemma read_more_allow_eof_step s out more out' s' :
  read_more_allow_eof s out = Ok (more, out', s') →
  ∃ l, out' = out ++ l ∧ (length l + stream_reads s' ≤ stream_reads s)%nat ∧
    (more = true → (stream_reads s' < stream_reads s)%nat) ∧ (more = false → l = []).
Proof.
  unfold read_more_allow_eof. intros E. destruct s as [|[[|x l]|e] t]; [| | |done].
  - injection E as <- <- <-. exists []. rewrite app_nil_r. split_and!; [done|cbn; lia|done|done].
  - injection E as <- <- <-. exists []. rewrite app_nil_r, reads_bytes. split_and!; [done|cbn [tail length]; lia|done|done].
  - injection E as <- <- <-. exists (ztake READ_BYTES (x :: l)). split; [done|].
    assert (length (ztake READ_BYTES (x :: l)) + length (zdrop READ_BYTES (x :: l)) = length (x :: l))%nat as Hl
      by (rewrite <- length_app, ztake_zdrop; done).
    assert (0 < length (ztake READ_BYTES (x :: l)))%nat as Hp by (unfold ztake, READ_BYTES; rewrite length_take; cbn [length]; lia).
    rewrite reads_bytes. destruct (zlen (x :: l) <=? READ_BYTES); rewrite ?reads_bytes; (split_and!; [lia|lia|done]).
Qed.

Lemma read_more_step s out out' s' : read_more s out = Ok (out', s') →
  ∃ l, out' = out ++ l ∧ (length l + stream_reads s' ≤ stream_reads s)%nat ∧ (stream_reads s' < stream_reads s)%nat.
Proof.
  unfold read_more. intros E. apply bind_Ok in E as ([[more o] t] & Er & E). destruct more; [|done]. injection E as <- <-.
  apply read_more_allow_eof_step in Er as (l & -> & Hl & Hm & _). exists l. auto.
Qed.

Lemma read_more_no_panic s out : read_more s out ≠ Panic.
Proof. unfold read_more, read_more_allow_eof. by destruct s as [|[[|x l]|e] t]. Qed.

(** *** Every loop ends, and loses what it takes *)
Lemma read_until_total fuel n max pending s : n ≠ [] → (stream_reads s < fuel)%nat →
  match read_until fuel n max pending s with
  | Ok (front, behind, s') => (length front + length n + length behind + stream_reads s' ≤ length pending + stream_reads s)%nat
  | Err _ => True
  | Panic => False
  end.
Proof.
  intros Hn. revert pending s. induction fuel as [|fuel IH]; intros pending s Hf; [lia|]. cbn [read_until].
  destruct (find_text n pending) as [[front behind]|] eqn:Ef.
  - apply find_text_Some in Ef. apply (f_equal length) in Ef. rewrite !length_app in Ef. lia.
  - destruct (max <? zlen pending); [done|]. destruct (read_more s pending) as [[p t]|e|] eqn:Er; cbn [mbind res_bind]; [|done|by apply read_more_no_panic in Er].
    apply read_more_step in Er as (l & -> & Hl & Hlt). specialize (IH (pending ++ l) t ltac:(lia)).
    destruct (read_until fuel n max (pending ++ l) t) as [[[front behind] s']|e|]; [|done..]. rewrite length_app in IH. lia.
Qed.

Lemma read_at_least_total fuel n body s : (stream_reads s < fuel)%nat →
  match read_at_least fuel n body s with
  | Ok (body', s') => n ≤ zlen body' ∧ (length body' + stream_reads s' ≤ length body + stream_reads s)%nat
  | Err _ => True
  | Panic => False
  end.
Proof.
  revert body s. induction fuel as [|fuel IH]; intros body s Hf; [lia|]. cbn [read_at_least].
  destruct (Z.ltb_spec (zlen body) n); [|lia].
  destruct (read_more s body) as [[p t]|e|] eqn:Er; cbn [mbind res_bind]; [|done|by apply read_more_no_panic in Er].
  apply read_more_step in Er as (l & -> & Hl & Hlt). specialize (IH (body ++ l) t ltac:(lia)).
  destruct (read_at_least fuel n (body ++ l) t) as [[body' s']|e|]; [|done..]. rewrite length_app in IH. lia.
Qed.

Lemma read_to_eof_total fuel max body s : (stream_reads s + 1 < fuel)%nat →
  match read_to_eof fuel max body s with Ok body' => zlen body' ≤ max | Err _ => True | Panic => False end.
Proof.
  revert body s. induction fuel as [|fuel IH]; intros body s Hf; [lia|]. cbn [read_to_eof].
  destruct (Z.ltb_spec max (zlen body)); [done|].
  destruct (read_more_allow_eof s body) as [[[more b] t]|e|] eqn:Er; cbn [mbind res_bind]; [|done|by destruct s as [|[[|]|]]].
  apply read_more_allow_eof_step in Er as (l & -> & Hl & Hm & Hz). destruct more.
  - apply IH. specialize (Hm eq_refl). lia.
  - rewrite (Hz eq_refl), app_nil_r. done.
Qed.

Lemma skip_trailers_total fuel pending s : (length pending + stream_reads s < fuel)%nat → skip_trailers fuel pending s ≠ Panic.
Proof.
  revert pending s. induction fuel as [|fuel IH]; intros pending s Hf; [lia|]. cbn [skip_trailers]. unfold read_line.
  pose proof (read_until_total (S (stream_reads s)) CRLF MAX_LOCALAPI_CHUNK_LINE_BYTES pending s ltac:(done) ltac:(lia)) as Hr.
  destruct (read_until _ _ _ _ _) as [[[line p] t]|e|]; [|done..]. cbn [mbind res_bind]. destruct line; [done|].
  apply IH. cbn [length CRLF] in Hr. lia.
Qed.

Lemma radix_value_from_nonneg r d acc l v : 0 ≤ r → 0 ≤ acc → (∀ b x, d b = Some x → 0 ≤ x) → radix_value r d acc l = Some v → 0 ≤ v.
Proof.
  intros Hr Ha Hd. revert acc Ha. induction l as [|b l IH]; intros acc Ha E; cbn [radix_value] in E; [by injection E as <-|].
  destruct (d b) as [x|] eqn:Ex; [|done]. cbn [mbind option_bind] in E. apply (IH (acc * r + x)); [|done].
  specialize (Hd b x Ex). nia.
Qed.

Lemma chunk_size_range line n : chunk_size line = Some n → 0 ≤ n ≤ u64_max.
Proof.
  unfold chunk_size, parse_usize_hex. intros E. destruct (head _) as [t|]; [|done]. cbn [mbind option_bind] in E.
  destruct (from_utf8 t) as [u|]; [|done]. cbn [mbind option_bind] in E.
  assert (∀ ds, (match ds with [] => None | _ => v ← radix_value 16 hex_value 0 ds; if v <=? u64_max then Some v else None end) = Some n →
    0 ≤ n ≤ u64_max) as Hds; [|by apply Hds in E].
  intros ds Eds. destruct ds as [|b ds]; [done|]. destruct (radix_value 16 hex_value 0 (b :: ds)) as [v|] eqn:Ev; [|done].
  cbn [mbind option_bind] in Eds. destruct (Z.leb_spec v u64_max); [|done]. injection Eds as <-. split; [|done].
  apply radix_value_from_nonneg in Ev; [done|lia|lia|]. intros c x. unfold hex_value, in_range. intros Ec.
  repeat (destruct (_ && _) eqn:Eb in Ec; [injection Ec as <-; rewrite andb_true_iff, !Z.leb_le in Eb; lia|clear Eb]). done.
Qed.

Lemma decode_chunks_total fuel max decoded pending s :
  max + 2 ≤ u64_max → zlen decoded ≤ max → (length pending + stream_reads s < fuel)%nat →
  match decode_chunks fuel max decoded pending s with Ok body => zlen body ≤ max | Err _ => True | Panic => False end.
Proof.
  intros Hmax. revert decoded pending s. induction fuel as [|fuel IH]; intros decoded pending s Hd Hf; [lia|]. cbn [decode_chunks].
  unfold read_line. pose proof (read_until_total (S (stream_reads s)) CRLF MAX_LOCALAPI_CHUNK_LINE_BYTES pending s ltac:(done) ltac:(lia)) as Hr.
  destruct (read_until _ _ _ _ _) as [[[line p] t]|e|]; [|done..]. cbn [mbind res_bind]. cbn [length CRLF] in Hr.
  destruct (chunk_size line) as [size|] eqn:Ec; [|done]. cbn [ok_or mbind res_bind]. apply chunk_size_range in Ec.
  pose proof (zlen_nonneg decoded) as Hd0. unfold saturating_add. destruct (Z.ltb_spec max (Z.min (zlen decoded + size) u64_max)); [done|].
  destruct (Z.eqb_spec size 0).
  - pose proof (skip_trailers_total (S (length p + stream_reads t)) p t ltac:(lia)) as Hs.
    by destruct (skip_trailers _ p t).
  - assert (checked_add size 2 = Some (size + 2)) as -> by (apply checked_add_Some; split; [done|lia]). cbn [or_panic mbind res_bind].
    pose proof (read_at_least_total (S (stream_reads t)) (size + 2) p t ltac:(lia)) as Ha.
    destruct (read_at_least _ _ p t) as [[p' t']|e|]; [|done..]. cbn [mbind res_bind]. destruct Ha as [Hp Hl].
    unfold slice. replace ((0 <=? size) && (size <=? size + 2) && (size + 2 <=? zlen p')) with true
      by (symmetry; rewrite !andb_true_iff, !Z.leb_le; lia). cbn [or_panic mbind res_bind].
    destruct (negb _); [done|]. apply IH.
    + rewrite zlen_app. unfold ztake, zlen. rewrite length_take. unfold zlen in *. lia.
    + unfold zdrop. rewrite length_drop. unfold zlen in Hp. lia.
Qed.

Lemma parse_head_status raw status m : parse_head raw = Some (status, m) → 100 ≤ status ≤ 599.
Proof.
  unfold parse_head. intros E. destruct (head_lines _) as [[|l ls]|]; [done| |done]. cbn [mbind option_bind] in E.
  destruct (status_of l) as [st|] eqn:Es; [|done]. cbn [mbind option_bind] in E. destruct (add_lines ∅ ls); [|done]. injection E as <- _.
  unfold status_of in Es. destruct (from_utf8 l) as [text|]; [|done]. cbn [mbind option_bind] in Es.
  destruct (split_once x20 text) as [[protocol r]|]; [|done]. cbn [mbind option_bind] in Es.
  destruct (split_once x20 r) as [[code r']|]; [|done]. cbn [mbind option_bind] in Es.
  destruct (parse_unsigned u16_max code) as [v|]; [|done]. cbn [mbind option_bind] in Es.
  destruct ((100 <=? v) && (v <=? 599)) eqn:Ev; [|done]. rewrite andb_true_iff, !Z.leb_le in Ev. cbn [andb] in Es.
  destruct (_ || _); [|done]. by injection Es as <-.
Qed.

Lemma read_body_total m max body s : 0 ≤ max → max + 2 ≤ u64_max →
  match read_body m max body s with Ok b => True | Err _ => True | Panic => False end.
Proof.
  intros H0 Hmax. unfold read_body. destruct (default [] (m !! bs "content-length")) as [|length [|]] eqn:El.
  - destruct (default [] (m !! bs "transfer-encoding")) as [|encoding [|]]; [| |done].
    + pose proof (read_to_eof_total (S (S (stream_reads s))) max body s ltac:(lia)) as Hr. by destruct (read_to_eof _ max body s).
    + destruct (eq_ignore_ascii_case _ _); [|done]. unfold decode_chunked.
      pose proof (decode_chunks_total (S (List.length body + stream_reads s)) max [] body s Hmax ltac:(done) ltac:(lia)) as Hr.
      by destruct (decode_chunks _ max [] body s).
  - destruct (default [] (m !! bs "transfer-encoding")); [|done].
    destruct (parse_unsigned u64_max length) as [n|]; [|done]. cbn [ok_or mbind res_bind]. destruct (max <? n); [done|].
    pose proof (read_at_least_total (S (stream_reads s)) n body s ltac:(lia)) as Hr.
    by destruct (read_at_least _ n body s) as [[b t]|e|].
  - by destruct (default [] (m !! bs "transfer-encoding")).
Qed.

(** The reader of the daemon's answer returns on every stream, whatever it
    delivers and however it fails or ends: with an answer of a status from 100 to 599
    whose body is within the configured limit, or with an error. *)
Theorem answer_read_ends s max : 0 ≤ max → max + 2 ≤ u64_max →
  match read_http_response s max with
  | Ok (status, _, body) => 100 ≤ status ≤ 599 ∧ zlen body ≤ max
  | Err _ => True
  | Panic => False
  end.
Proof.
  intros H0 Hmax. unfold read_http_response.
  pose proof (read_until_total (S (stream_reads s)) (CRLF ++ CRLF) MAX_LOCALAPI_HEADER_BYTES [] s ltac:(done) ltac:(lia)) as Hr.
  destruct (read_until _ _ _ _ _) as [[[raw body] t]|e|]; [|done..]. cbn [mbind res_bind]. destruct (_ <? zlen raw); [done|].
  destruct (parse_head raw) as [[status m]|] eqn:Eh; [|done]. cbn [ok_or mbind res_bind].
  pose proof (read_body_total m max body t H0 Hmax) as Hb. destruct (read_body m max body t) as [b|e|]; [|done..]. cbn [mbind res_bind].
  destruct (Z.ltb_spec max (zlen b)); [done|]. split; [|lia]. by apply parse_head_status in Eh.
Qed.

(** ** Answers that are delivered *)

(** A stream that fails nowhere and delivers the bytes, in whatever pieces. *)
Definition delivers (s : stream) (l : list byte) : Prop :=
  Forall (fun e => ∃ x r, e = Bytes (x :: r)) s ∧ l = mjoin ((fun e => match e with Bytes l => l | Broken _ => [] end) <$> s).

Lemma delivers_end s : delivers s [] → s = [].
Proof. intros [Hs El]. destruct Hs as [|e s (x & r & ->) _]; [done|]. done. Qed.

Lemma delivers_more s l out : delivers s l → l ≠ [] →
  ∃ k s' l', k ≠ [] ∧ read_more_allow_eof s out = Ok (true, out ++ k, s') ∧ delivers s' l' ∧ l = k ++ l' ∧
    (stream_reads s' < stream_reads s)%nat.
Proof.
  intros [Hs El] Hne. destruct Hs as [|e s (x & r & ->) Hs]; [done|]. cbn [fmap list_fmap mjoin list_join] in El.
  unfold read_more_allow_eof. assert (ztake READ_BYTES (x :: r) = x :: ztake (READ_BYTES - 1) r) as Et by done.
  destruct (Z.leb_spec (zlen (x :: r)) READ_BYTES) as [Hz|Hz].
  - exists (x :: r), s, (mjoin ((fun e => match e with Bytes l => l | Broken _ => [] end) <$> s)).
    split_and!; [done| |by split|done|rewrite reads_bytes; lia]. by rewrite ztake_all.
  - exists (ztake READ_BYTES (x :: r)), (Bytes (zdrop READ_BYTES (x :: r)) :: s),
      (zdrop READ_BYTES (x :: r) ++ mjoin ((fun e => match e with Bytes l => l | Broken _ => [] end) <$> s)).
    split_and!; [by rewrite Et|done| |by rewrite app_assoc, ztake_zdrop|].
    + split; [|done]. constructor; [|done]. destruct (zdrop READ_BYTES (x :: r)) as [|y t] eqn:Ed; [|by eexists _, _].
      exfalso. pose proof (ztake_zdrop READ_BYTES (x :: r)) as Ec. rewrite Ed, app_nil_r in Ec.
      rewrite <- Ec in Hz. unfold ztake, zlen in Hz. rewrite length_take in Hz. unfold READ_BYTES in Hz. lia.
    + rewrite !reads_bytes. unfold zdrop. rewrite length_drop. cbn [length]. unfold READ_BYTES. lia.
Qed.

Lemma delivers_read_more s l out : delivers s l → l ≠ [] →
  ∃ k s' l', k ≠ [] ∧ read_more s out = Ok (out ++ k, s') ∧ delivers s' l' ∧ l = k ++ l' ∧ (stream_reads s' < stream_reads s)%nat.
Proof.
  intros Hs Hne. destruct (delivers_more s l out Hs Hne) as (k & s' & l' & Hk & E & Hrest). exists k, s', l'.
  split; [done|]. split; [|done]. unfold read_more. by rewrite E.
Qed.

Lemma read_until_delivers fuel n max pending s l front behind :
  delivers s l → find_text n (pending ++ l) = Some (front, behind) → zlen front + zlen n ≤ max + 1 → (stream_reads s < fuel)%nat →
  ∃ pending' s' l', read_until fuel n max pending s = Ok (front, pending', s') ∧ delivers s' l' ∧ behind = pending' ++ l'.
Proof.
  revert pending s l. induction fuel as [|fuel IH]; intros pending s l Hs Hf Hmax Hfuel; [lia|]. cbn [read_until].
  destruct (find_text n pending) as [[f b]|] eqn:E.
  - rewrite (find_text_app _ _ l _ _ E) in Hf. injection Hf as -> <-. by exists b, s, l.
  - pose proof (find_text_late _ _ _ _ _ E Hf) as Hlen. replace (max <? zlen pending) with false by (symmetry; apply Z.ltb_ge; lia).
    assert (l ≠ []) as Hne by (intros ->; rewrite app_nil_r in Hf; congruence).
    destruct (delivers_read_more s l pending Hs Hne) as (k & s' & l' & Hk & -> & Hs' & -> & Hlt). cbn [mbind res_bind].
    apply (IH _ _ l'); [done|by rewrite <- app_assoc|done|lia].
Qed.

Lemma read_at_least_delivers fuel n body s l :
  delivers s l → n ≤ zlen (body ++ l) → (stream_reads s < fuel)%nat →
  ∃ body' s' l', read_at_least fuel n body s = Ok (body', s') ∧ n ≤ zlen body' ∧ delivers s' l' ∧ body ++ l = body' ++ l'.
Proof.
  revert body s l. induction fuel as [|fuel IH]; intros body s l Hs Hn Hfuel; [lia|]. cbn [read_at_least].
  destruct (Z.ltb_spec (zlen body) n); [|by exists body, s, l].
  assert (l ≠ []) as Hne by (intros ->; rewrite app_nil_r in Hn; lia).
  destruct (delivers_read_more s l body Hs Hne) as (k & s' & l' & Hk & -> & Hs' & -> & Hlt). cbn [mbind res_bind].
  rewrite app_assoc in Hn. rewrite app_assoc. apply (IH _ _ l'); [done|done|lia].
Qed.

Lemma read_to_eof_delivers fuel max body s l :
  delivers s l → zlen (body ++ l) ≤ max → (stream_reads s + 1 < fuel)%nat → read_to_eof fuel max body s = Ok (body ++ l).
Proof.
  revert body s l. induction fuel as [|fuel IH]; intros body s l Hs Hn Hfuel; [lia|]. cbn [read_to_eof].
  rewrite zlen_app in Hn. pose proof (zlen_nonneg l). replace (max <? zlen body) with false by (symmetry; apply Z.ltb_ge; lia).
  destruct (decide (l = [])) as [->|Hne]; [apply delivers_end in Hs as ->; cbn; by rewrite app_nil_r|].
  destruct (delivers_more s l body Hs Hne) as (k & s' & l' & Hk & -> & Hs' & -> & Hlt). cbn [mbind res_bind].
  rewrite app_assoc. apply IH; [done| |lia]. rewrite <- app_assoc, zlen_app. done.
Qed.

(** ** Framed answers *)

(** A line that ends where its text does, within the reader's limit. *)
Definition line_ok (t : list byte) : Prop := find_text CRLF (t ++ CRLF) = Some (t, []) ∧ zlen t < MAX_LOCALAPI_CHUNK_LINE_BYTES.
Definition line_wire (t : list byte) : list byte := t ++ CRLF.
(** A chunk: its size line, extensions and all, and its bytes. *)
Definition chunk_ok (c : list byte * list byte) : Prop := line_ok c.1 ∧ chunk_size c.1 = Some (zlen c.2) ∧ c.2 ≠ [].
Definition chunk_wire (c : list byte * list byte) : list byte := line_wire c.1 ++ line_wire c.2.

(** The bodies an answer's headers frame, and how they stand on the wire. *)
Inductive framed (m : ApiHeaders) : list byte → list byte → Prop :=
| framed_length v body rest :
  default [] (m !! bs "content-length") = [v] → default [] (m !! bs "transfer-encoding") = [] →
  parse_unsigned u64_max v = Some (zlen body) → framed m body (body ++ rest)
| framed_chunked v cs last ts rest :
  default [] (m !! bs "content-length") = [] → default [] (m !! bs "transfer-encoding") = [v] →
  eq_ignore_ascii_case v (bs "chunked") = true → Forall chunk_ok cs → line_ok last → chunk_size last = Some 0 →
  Forall (fun t => line_ok t ∧ t ≠ []) ts →
  framed m (mjoin (snd <$> cs)) (mjoin (chunk_wire <$> cs) ++ line_wire last ++ mjoin (line_wire <$> ts) ++ CRLF ++ rest)
| framed_to_end body :
  default [] (m !! bs "content-length") = [] → default [] (m !! bs "transfer-encoding") = [] → framed m body body.

Lemma read_line_delivers t pending s l k :
  line_ok t → delivers s l → pending ++ l = line_wire t ++ k →
  ∃ pending' s' l', read_line pending s = Ok (t, pending', s') ∧ delivers s' l' ∧ pending' ++ l' = k ∧
    (length pending' + stream_reads s' + 2 ≤ length pending + stream_reads s)%nat.
Proof.
  intros [Ht Hlen] Hs El. unfold read_line.
  destruct (read_until_delivers (S (stream_reads s)) CRLF MAX_LOCALAPI_CHUNK_LINE_BYTES pending s l t k Hs) as (p' & s' & l' & E & Hs' & ->).
  - rewrite El. unfold line_wire. by rewrite (find_text_app _ _ k _ _ Ht).
  - change (zlen CRLF) with 2. lia.
  - lia.
  - exists p', s', l'. split_and!; [done..|].
    pose proof (read_until_total (S (stream_reads s)) CRLF MAX_LOCALAPI_CHUNK_LINE_BYTES pending s ltac:(done) ltac:(lia)) as Hr.
    rewrite E in Hr. cbn [length CRLF] in Hr. lia.
Qed.

Lemma empty_line_ok : line_ok [].
Proof. by split. Qed.

Lemma skip_trailers_delivers fuel ts pending s l rest :
  Forall (fun t => line_ok t ∧ t ≠ []) ts → delivers s l → pending ++ l = mjoin (line_wire <$> ts) ++ CRLF ++ rest →
  (length pending + stream_reads s < fuel)%nat → skip_trailers fuel pending s = Ok tt.
Proof.
  intros Hts. revert fuel pending s l. induction Hts as [|t ts [Ht Hne] _ IH]; intros fuel pending s l Hs El Hf; (destruct fuel as [|fuel]; [lia|]);
    cbn [skip_trailers].
  - destruct (read_line_delivers [] pending s l rest empty_line_ok Hs El) as (p' & s' & l' & -> & _). done.
  - cbn [fmap list_fmap mjoin list_join] in El. rewrite <- app_assoc in El.
    destruct (read_line_delivers t pending s l _ Ht Hs El) as (p' & s' & l' & -> & Hs' & El' & Hm). cbn [mbind res_bind].
    destruct t; [done|]. apply (IH _ _ _ l'); [done|done|lia].
Qed.

Lemma ztake_of_prefix (a b c d : list byte) : a ++ b = c ++ d → zlen a ≤ zlen c → ztake (zlen a) c = a.
Proof.
  intros E Hl. apply (f_equal (ztake (zlen a))) in E. rewrite ztake_app_eq in E by done.
  transitivity (ztake (zlen a) (c ++ d)); [|done]. unfold ztake. symmetry. apply take_app_le. unfold zlen in Hl |- *. lia.
Qed.

Lemma decode_chunks_delivers fuel max cs last ts rest decoded pending s l :
  Forall chunk_ok cs → line_ok last → chunk_size last = Some 0 → Forall (fun t => line_ok t ∧ t ≠ []) ts →
  delivers s l → pending ++ l = mjoin (chunk_wire <$> cs) ++ line_wire last ++ mjoin (line_wire <$> ts) ++ CRLF ++ rest →
  zlen (decoded ++ mjoin (snd <$> cs)) ≤ max → max + 2 ≤ u64_max → (length pending + stream_reads s < fuel)%nat →
  decode_chunks fuel max decoded pending s = Ok (decoded ++ mjoin (snd <$> cs)).
Proof.
  intros Hcs Hlast Hz Hts. revert fuel decoded pending s l.
  induction Hcs as [|[line data] cs (Hl & Hsz & Hne) _ IH]; intros fuel decoded pending s l Hs El Hmax H64 Hf; (destruct fuel as [|fuel]; [lia|]);
    cbn [decode_chunks].
  - destruct (read_line_delivers last pending s l _ Hlast Hs El) as (p' & s' & l' & -> & Hs' & El' & Hm).
    cbn [mbind res_bind]. rewrite Hz. cbn [ok_or mbind res_bind]. pose proof (zlen_nonneg decoded).
    rewrite zlen_app in Hmax. change (zlen (mjoin (snd <$> @nil (list byte * list byte)))) with 0 in Hmax.
    replace (max <? _) with false by (symmetry; apply Z.ltb_ge; unfold saturating_add; lia). cbn [Z.eqb].
    rewrite (skip_trailers_delivers (S (length p' + stream_reads s')) ts p' s' l' rest Hts Hs' El' ltac:(lia)). cbn [mbind res_bind].
    change (mjoin (snd <$> @nil (list byte * list byte))) with (@nil byte). by rewrite app_nil_r.
  - cbn [fst snd] in *. change (mjoin (chunk_wire <$> (line, data) :: cs)) with ((line_wire line ++ line_wire data) ++ mjoin (chunk_wire <$> cs)) in El.
    change (mjoin (snd <$> (line, data) :: cs)) with (data ++ mjoin (snd <$> cs)) in *. rewrite <- !app_assoc in El.
    destruct (read_line_delivers line pending s l _ Hl Hs El) as (p1 & s1 & l1 & -> & Hs1 & El1 & Hm1). cbn [mbind res_bind].
    rewrite Hsz. cbn [ok_or mbind res_bind]. pose proof (zlen_nonneg decoded). pose proof (zlen_nonneg (mjoin (snd <$> cs))).
    rewrite !zlen_app in Hmax. assert (0 < zlen data) as Hd by (unfold zlen; destruct data; [done|cbn [length]; lia]).
    replace (max <? _) with false by (symmetry; apply Z.ltb_ge; unfold saturating_add; lia).
    destruct (Z.eqb_spec (zlen data) 0); [lia|].
    assert (checked_add (zlen data) 2 = Some (zlen data + 2)) as -> by (apply checked_add_Some; split; [done|lia]).
    cbn [or_panic mbind res_bind]. unfold line_wire in El1 at 1. rewrite <- app_assoc in El1.
    destruct (read_at_least_delivers (S (stream_reads s1)) (zlen data + 2) p1 s1 l1 Hs1) as (p2 & s2 & l2 & E2 & Hp2 & Hs2 & El2).
    { rewrite El1, app_assoc, (zlen_app (data ++ CRLF)), zlen_app. change (zlen CRLF) with 2.
      match goal with |- _ ≤ _ + zlen ?x => pose proof (zlen_nonneg x) end. lia. }
    { lia. }
    rewrite E2. cbn [mbind res_bind]. rewrite El1 in El2.
    pose proof (read_at_least_total (S (stream_reads s1)) (zlen data + 2) p1 s1 ltac:(lia)) as Ht2. rewrite E2 in Ht2. destruct Ht2 as [_ Hm2].
    assert (p2 = data ++ CRLF ++ zdrop (zlen data + 2) p2) as Ep2.
    { assert (ztake (zlen data + 2) p2 = data ++ CRLF) as Et.
      { rewrite app_assoc in El2. change 2 with (zlen CRLF). rewrite <- zlen_app. apply (ztake_of_prefix _ _ _ _ El2).
        rewrite zlen_app. exact Hp2. }
      rewrite app_assoc, <- Et. by rewrite ztake_zdrop. }
    set (p3 := zdrop (zlen data + 2) p2) in *.
    assert (slice p2 (zlen data) (zlen data + 2) = Some CRLF) as ->.
    { apply slice_Some. split; [lia|]. split; [done|]. rewrite Ep2, zdrop_app_eq by done. symmetry. apply ztake_app_eq. change (zlen CRLF) with 2. lia. }
    cbn [or_panic mbind res_bind]. rewrite (bool_decide_eq_true_2 (CRLF = CRLF)) by done. cbn [negb].
    assert (ztake (zlen data) p2 = data) as -> by (rewrite Ep2; by apply ztake_app_eq).
    rewrite app_assoc. apply (IH _ _ _ _ l2); [done| | |done|].
    + rewrite Ep2, <- !app_assoc in El2. apply app_inv_head in El2. by apply app_inv_head in El2.
    + rewrite !zlen_app. lia.
    + assert (length p3 ≤ length p2)%nat by (unfold p3, zdrop; rewrite length_drop; lia). lia.
Qed.

Lemma read_body_framed m max body wire pending s l :
  framed m body wire → zlen body ≤ max → max + 2 ≤ u64_max → delivers s l → pending ++ l = wire → read_body m max pending s = Ok body.
Proof.
  intros Hf Hmax H64 Hs El. unfold read_body. destruct Hf as [v body rest Hc Ht Hn|v cs last ts rest Hc Ht He Hcs Hl Hz Hts|body Hc Ht]; rewrite Hc, Ht.
  - rewrite Hn. cbn [ok_or mbind res_bind]. replace (max <? zlen body) with false by (symmetry; by apply Z.ltb_ge).
    destruct (read_at_least_delivers (S (stream_reads s)) (zlen body) pending s l Hs) as (b & s' & l' & -> & Hb & _ & El');
      [rewrite El, zlen_app; pose proof (zlen_nonneg rest); lia|lia|]. cbn [mbind res_bind]. f_equal. rewrite El in El'. by apply (ztake_of_prefix _ _ _ _ El').
  - rewrite He. unfold decode_chunked. by apply (decode_chunks_delivers _ _ _ last ts rest [] _ _ l); try done; lia.
  - rewrite <- El. apply (read_to_eof_delivers _ _ _ _ l); [done|by rewrite El|lia].
Qed.

(** C37. An answer whose headers frame a body within the limit is read as it was sent,
    by length, in chunks with extensions and trailers, or to the end of the stream,
    whatever pieces the daemon's bytes arrive in. *)
Theorem answer_read_whole s max hd status m body wire :
  parse_head hd = Some (status, m) → find_text (CRLF ++ CRLF) (hd ++ CRLF ++ CRLF) = Some (hd, []) →
  zlen hd + 4 ≤ MAX_LOCALAPI_HEADER_BYTES → framed m body wire → zlen body ≤ max → max + 2 ≤ u64_max →
  delivers s (hd ++ CRLF ++ CRLF ++ wire) →
  read_http_response s max = Ok (status, m, body).
Proof.
  intros Hh Ht Hlen Hf Hmax H64 Hs. unfold read_http_response.
  destruct (read_until_delivers (S (stream_reads s)) (CRLF ++ CRLF) MAX_LOCALAPI_HEADER_BYTES [] s _ hd wire Hs) as (p & s' & l' & -> & Hs' & ->).
  - cbn [app]. replace (hd ++ CRLF ++ CRLF ++ wire) with ((hd ++ CRLF ++ CRLF) ++ wire) by (by rewrite <- !app_assoc).
    by rewrite (find_text_app _ _ wire _ _ Ht).
  - change (zlen (CRLF ++ CRLF)) with 4. lia.
  - lia.
  - cbn [mbind res_bind]. replace (_ <? zlen hd) with false by (symmetry; apply Z.ltb_ge; lia). rewrite Hh. cbn [ok_or mbind res_bind].
    rewrite (read_body_framed m max body _ p s' l' Hf Hmax H64 Hs' eq_refl). cbn [mbind res_bind].
    by replace (max <? zlen body) with false by (symmetry; by apply Z.ltb_ge).
Qed.

(** ** Serve identities *)
Section Serve.
Context `{Json, JsonText}.

Lemma refused_none s r : without_identity PROVIDER s = Ok r → pr_identities r = [].
Proof. apply without_identity_none. Qed.

(** An identity of Tailscale Serve: from a configured peer, without a Funnel request,
    under the login that the one login header decodes to. *)
Lemma serve_identity config c r : resolve_serve config c = Ok r → pr_identities r ≠ [] →
  (∃ imm p t, immediate_peer c = Some imm ∧ peer_ip imm = Some p ∧ t ∈ trusted_proxy_addresses config ∧ normalize_ip t = p) ∧
  header_absent c FUNNEL_REQUEST ∧
  ∃ i, r = result_available i ∧ provider i = PROVIDER ∧ issuer i = serve_issuer config ∧ assurance i = ConfiguredProxy ∧
    verified_stable i = false ∧
    match subject_key i with
    | Some k => ∃ raw login, header_once c SERVE_LOGIN raw ∧ decode_serve_value raw (max_header_bytes config) = Some login ∧
                  login ≠ [] ∧ k = bs "login:" ++ login
    | None => header_absent c SERVE_LOGIN
    end.
Proof.
  unfold resolve_serve. intros E Hne. destruct (negb _) eqn:Et; [by apply refused_none in E|]. apply negb_false_iff in Et.
  destruct (peer_header c FUNNEL_REQUEST) as [funnel|e1|] eqn:E1, (peer_header c SERVE_LOGIN) as [login_raw|e2|] eqn:E2,
    (peer_header c SERVE_NAME) as [name_raw|e3|], (peer_header c SERVE_PROFILE) as [profile_raw|e4|],
    (peer_header c SERVE_CAPABILITIES) as [caps_raw|e5|]; try done; try by apply refused_none in E.
  destruct funnel as [f|]; [by apply refused_none in E|].
  destruct (serve_decoded _ _ _ _ _) as [[[login display] caps]|] eqn:Ed; [|by apply refused_none in E].
  destruct (_ || _) eqn:Eb; [by apply refused_none in E|]. destruct (_ && bool_decide (length caps = 0%nat)); [by apply refused_none in E|].
  apply orb_false_iff in Eb as [Eb _].
  split; [|split; [by apply peer_header_absent|]].
  { destruct (immediate_peer c) as [imm|]; [|done]. cbn [mbind option_bind] in Et. destruct (peer_ip imm) as [p|] eqn:Ep0; [|done].
    apply existsb_exists in Et as (t & Ht & Ep). apply bool_decide_eq_true in Ep. exists imm, p, t.
    split_and!; [done..| |done]. by apply list_elem_of_In. }
  assert (match login with
          | Some l => ∃ raw, login_raw = Some raw ∧ decode_serve_value raw (max_header_bytes config) = Some l ∧ l ≠ []
          | None => login_raw = None end) as Hlogin.
  { unfold serve_decoded in Ed. destruct login_raw as [raw|]; cbn [each] in Ed.
    - destruct (decode_serve_value raw _) as [l|] eqn:El; [|done]. cbn [fmap option_fmap option_map mbind option_bind] in Ed.
      destruct (each _ name_raw); [|done]. cbn [mbind option_bind] in Ed. destruct (each _ profile_raw); [|done]. cbn [mbind option_bind] in Ed.
      destruct (each _ caps_raw); [|done]. cbn [mbind option_bind] in Ed. injection Ed as <- _ _. exists raw. split_and!; [done..|].
      rewrite bool_decide_eq_true_2 in Eb by eauto. cbn [andb absent_or_empty] in Eb. by apply bool_decide_eq_false in Eb.
    - cbn [mbind option_bind] in Ed. destruct (each _ name_raw); [|done]. cbn [mbind option_bind] in Ed.
      destruct (each _ profile_raw); [|done]. cbn [mbind option_bind] in Ed. destruct (each _ caps_raw); [|done].
      cbn [mbind option_bind] in Ed. by injection Ed as <- _ _. }
  apply bind_Ok in E as (i1 & F1 & E). apply bind_Ok in E as (i2 & F2 & E). apply bind_Ok in E as (i3 & F3 & E).
  apply bind_Ok in E as (i4 & F4 & E). injection E as <-.
  unfold identity_new in F1. destruct (_ || _); [done|]. injection F1 as <-.
  unfold with_attributes in F2. apply bind_Ok in F2 as ([] & _ & F2). injection F2 as <-.
  unfold with_capabilities in F3. apply bind_Ok in F3 as ([] & _ & F3). injection F3 as <-.
  exists i4. split; [done|]. destruct login as [l|].
  - destruct Hlogin as (raw & -> & Hd & Hn). unfold with_subject in F4. destruct (bool_decide (bs "login:" ++ l = [])); [done|]. injection F4 as <-.
    split_and!; [done..|by apply andb_false_r|]. exists raw, l. split_and!; [by apply peer_header_once; subst|done..].
  - injection F4 as <-. split_and!; [done..|]. cbn [subject_key with_addresses]. rewrite Hlogin in E2. by apply peer_header_absent.
Qed.

(** A login that Serve forwards is never the caller: no policy takes a subject that is
    not stable. *)
Lemma serve_login_no_principal `{Aead} config c r rs e a auth :
  resolve_serve config c = Ok r → from_results rs = Ok e → r ∈ rs → pr_provider r = PROVIDER →
  peer_identity_primary PROVIDER e a ≠ Ok auth.
Proof.
  intros E Hrs Hr Hp Ha. pose proof (from_results_wf rs e Hrs) as He. apply primary_Ok in Ha as (i & s & Hu & _ & _); [|done].
  apply usable_facts in Hu as (Hi & Hv & Hin). apply (from_results_source rs e Hrs) in Hin as (r' & Hr' & Hin & Hp').
  assert (r' = r) as -> by (apply (from_results_providers rs e Hrs); congruence).
  destruct (serve_identity config c r E ltac:(intros En; rewrite En in Hin; set_solver)) as (_ & _ & j & -> & _ & _ & _ & Hs & _).
  cbn [pr_identities result_available] in Hin. apply list_elem_of_singleton in Hin as ->. congruence.
Qed.
End Serve.
