(* ===== verification/IdentityExample.v ===== *)
(** * Identities, run

    Peer evidence of two providers under the policies; a worker that resolves one
    opaque credential for one introspector and mints sealed grants; an Envoy in front
    of a worker, with an honest element of its header and one whose subject holds
    quotes; and a daemon's chunked answer that arrives in three pieces. *)

From S2P Require Import Prelude Bytes F64 Json DataExample ErrorModel Errors Crypto External Auth PeerIdentity PeerIdentityProps.
From S2P Require Import Base64 Grants GrantsProps TokensExample.
From S2P Require Import ArrowType Dispatch TokenIdentity TokenIdentityProps.
From S2P Require Import Net ProxyProtocol ProxyIdentity ProxyIdentityProps Tailscale TailscaleProps.

(** ** Identities, run *)

(** ** Peer identity on concrete evidence *)

#[local] Open Scope Z_scope.
#[local] Existing Instance toy_aead.

Definition node_id : PeerIdentity :=
  mkIdentity (bs "iroh") (bs "tls") CryptographicPeer (bs "self") (bs "iroh") Endpoint (Some (bs "k/1")) Stable true
    [] [] false (Some (bs "10.0.0.1:9")) None.
Definition workload_id : PeerIdentity :=
  mkIdentity (bs "spiffe") (bs "xfcc") ConfiguredProxy (bs "spiffe://a") (bs "http") Workload (Some (bs "svc")) Stable
    true [] [] false None (Some (bs "10.0.0.2")).

Definition two_results : list PeerIdentityResult := [result_available node_id; result_available workload_id].
Definition two_evidence : PeerEvidenceSet :=
  mkEvidence [node_id; workload_id] {[bs "iroh" := Available; bs "spiffe" := Available]}.

Lemma two_results_ok : from_results two_results = Ok two_evidence.
Proof. reflexivity. Qed.

(** The other order, and another address. *)
Definition moved_id : PeerIdentity := with_addresses (Some (bs "10.9.9.9:1")) None node_id.
Definition swapped_results : list PeerIdentityResult := [result_available workload_id; result_available moved_id].
Definition swapped_evidence : PeerEvidenceSet :=
  mkEvidence [workload_id; moved_id] {[bs "iroh" := Available; bs "spiffe" := Available]}.

Lemma binding_digest_exact_witness :
  binding_digest_inner two_evidence [bs "iroh"; bs "spiffe"] None =
  binding_digest_inner swapped_evidence [bs "spiffe"; bs "iroh"; bs "spiffe"] None.
Proof.
  apply binding_digest_exact.
  - apply (bool_decide_unpack _). vm_compute. exact I.
  - apply (bool_decide_unpack _). vm_compute. exact I.
  - intros _. vm_compute. reflexivity.
  - split; [set_solver|]. split; [|done]. intros p Hp. set_unfold in Hp. destruct Hp as [->|[->|[]]]; by vm_compute.
Defined.

Lemma any_of_exact_witness :
  any_of_policy [bs "iroh"; bs "spiffe"] two_evidence anonymous = Ok (peer_context two_evidence (bs "iroh") node_id (bs "k/1")).
Proof.
  apply (any_of_exact two_results two_evidence); [exact two_results_ok|]. split.
  - intros p Hp. set_unfold in Hp. destruct Hp as [->|[->|[]]]; intros [Hs|[Hs|Hs]]; vm_compute in Hs; (done || lia).
  - right. split; [done|]. exists [], (bs "iroh"), [bs "spiffe"], node_id, (bs "k/1").
    split_and!; [done|set_solver|by vm_compute|done|done].
Defined.

Definition demo_app : AuthContext := for_principal (bs "bearer") (bs "alice").
Definition demo_linker : PeerIdentityLinker := fun a ids =>
  if bool_decide (Auth.principal a = bs "alice") && bool_decide (size ids = 2%nat) then Ok tt
  else Err (RpcErr.permission_error (bs "conflict")).

Lemma all_of_exact_witness :
  all_of_policy [bs "iroh"; bs "spiffe"] (bs "spiffe") demo_linker two_evidence demo_app =
  Ok (linked_context two_evidence [bs "iroh"; bs "spiffe"] demo_app (bs "spiffe") workload_id (bs "svc")).
Proof.
  apply (all_of_exact two_results two_evidence); [exact two_results_ok|]. split; [done|].
  exists {[bs "iroh" := node_id; bs "spiffe" := workload_id]}, workload_id, (bs "svc").
  split_and!; [|by vm_compute|by vm_compute|done|done].
  intros p. destruct (decide (p = bs "iroh")) as [->|H1]; [by vm_compute; split; [left|]|].
  destruct (decide (p = bs "spiffe")) as [->|H2]; [|rewrite lookup_insert_ne, lookup_singleton_ne by done; set_solver].
  vm_compute. split; [right; left|done].
Defined.

(** Evidence named invalid spoils the call even for an application caller. *)
Definition bad_evidence : PeerEvidenceSet := mkEvidence [] {[bs "iroh" := Invalid]}.
Example any_of_refuses_invalid : is_ok (any_of_policy [bs "iroh"] bad_evidence demo_app) = false.
Proof. reflexivity. Qed.

(** ** The identity protocol, run *)

#[local] Existing Instances toy_aead_laws demo_base64 demo_base64_laws example_json example_json_laws.

(** The store counts its lookups. *)
Definition demo_resolver : TokenResolver Z := fun token s =>
  (Ok (if bool_decide (token = bs "opaque") then Some (mkTokenIdentity (bs "bob") (bs "ci-key") None) else None), s + 1).

Definition demo_identity : IdentityImpl Z :=
  match identity_build (mkIdentityImplBuilder (Some demo_resolver) None (Some demo_grant_keys) [bs "proxy"] None None) with
  | Ok i => i
  | _ => mkIdentityImpl None None None ∅ 0 0
  end.
Definition proxy : AuthContext := for_principal (bs "bearer") (bs "proxy").
Definition alice : AuthContext := with_claim (for_principal (bs "jwt") (bs "alice")) (bs "auth_time") (bs "1699999500").
Definition clock (n : Z) : f64 := f64_ticks (n * 2 ^ 22).

Lemma introspection_closed_witness :
  resolve_token demo_identity = Some demo_resolver ∧
  introspect_token demo_identity (bs "opaque") alice 0 = (Err (introspection_refused (bs "caller is not an introspector")), 0) ∧
  introspect_token demo_identity (bs "a.b.c") proxy 0 = (Err token_unresolved, 0) ∧
  (introspect_token demo_identity (bs "opaque") proxy 0).2 = 1.
Proof.
  assert (resolve_token demo_identity = Some demo_resolver) as Hr by reflexivity.
  destruct (introspection_closed demo_identity proxy 0 demo_resolver Hr) as [_ Hp].
  specialize (Hp ltac:(vm_compute; reflexivity)).
  split_and!; [done|vm_compute; reflexivity|by apply (Hp (bs "a.b.c"))|]. by destruct (Hp (bs "opaque")) as [_ [-> _]].
Defined.

Lemma fresh_exactly_witness :
  is_ok (check_freshness_at alice (f64_ticks (900 * 2 ^ 22)) (clock 1700000400)) = true ∧
  is_ok (check_freshness_at alice (f64_ticks (900 * 2 ^ 22)) (f64_ticks (1700000400 * 2 ^ 22 + 1))) = false.
Proof.
  split.
  - unfold clock. rewrite (fresh_exactly alice 1699999500 (1700000400 * 2 ^ 22) (900 * 2 ^ 22)); [done|reflexivity|done|done|lia|lia].
  - rewrite (fresh_exactly alice 1699999500 (1700000400 * 2 ^ 22 + 1) (900 * 2 ^ 22)); [done|reflexivity|done|done|lia|lia].
Defined.

(** Alice mints, and her job presents the grant. *)
Definition minted : res RpcError IssuedGrant * Z :=
  issue_grant demo_identity (bs "export") [bs "read"; bs "write"] 600 alice (clock 1700000000) demo_entropy 7.
Definition demo_grant : IssuedGrant := match minted.1 with Ok g => g | _ => mkIssuedGrant [] 0 [] end.
Definition bearing (token : list byte) : AuthRequest := mkAuthRequest (bs "m") [(bs "authorization", bearer_scheme ++ token)] None.
Definition refusing : Authenticate Z := fun _ s => (Err (RpcErr.auth_failure InvalidCredential []), s + 10).

Lemma demo_grant_bearer : extract_bearer (bearing (ig_token demo_grant)) = Ok (Some (ig_token demo_grant)).
Proof. vm_compute. reflexivity. Qed.

Lemma demo_minted : minted = (Ok demo_grant, 7).
Proof. vm_compute. reflexivity. Qed.

Lemma issued_grant_accepted_witness :
  ∃ f ctx, compose_identity_authenticate (Some refusing) (Some demo_grant_keys) (Some demo_resolver) (λ _, clock 1700000300) = Some f ∧
    f (bearing (ig_token demo_grant)) 0 = (Ok ctx, 10) ∧ Auth.principal ctx = bs "alice" ∧
    grant_scopes ctx = [bs "read"; bs "write"].
Proof.
  assert (grant_keys_new [demo_key] (bs "prod") 3600 60 = Ok demo_grant_keys) as Hk by (vm_compute; reflexivity).
  destruct (issued_grant_accepted (mkIdentityImplBuilder (Some demo_resolver) None (Some demo_grant_keys) [bs "proxy"] None None)
    demo_identity demo_key [] (bs "prod") 3600 60 demo_grant_keys [demo_key] 3600 60 demo_grant_keys
    (bs "export") [bs "read"; bs "write"] 600 alice (clock 1700000000) demo_entropy (1700000000 * 2 ^ 22) 7 demo_grant 7
    (bearing (ig_token demo_grant)) (Some refusing) (Some demo_resolver) (λ _, clock 1700000300) 0 10 (1700000300 * 2 ^ 22)) as (f & Hf & Hr).
  1-23: first [exact Hk | exact demo_minted | exact demo_grant_bearer | reflexivity | by left | lia
              | by vm_compute | (split; [by vm_compute|done]) | by repeat (constructor; [split; [by vm_compute|done]|])
              | by right; eexists; split ].
  assert (((1700000300 * 2 ^ 22 + 60 * 2 ^ 22 <? 1700000000 * 2 ^ 22 / 2 ^ 22 * 2 ^ 22)
    || ((1700000000 * 2 ^ 22 / 2 ^ 22 + Z.min 600 3600 + 60) * 2 ^ 22 <=? 1700000300 * 2 ^ 22)) = false) as E by (vm_compute; reflexivity).
  rewrite E in Hr. destruct Hr as (ctx & Ef & _ & _ & Hp & Hs & _). exists f, ctx. by split_and!.
Defined.

(** Her job, so authenticated, asks for another grant. *)
Definition demo_bearer : Authenticate Z :=
  default refusing (compose_identity_authenticate None (Some demo_grant_keys) (Some demo_resolver) (λ _, clock 1700000300)).
Definition job : res RpcError AuthContext * Z := demo_bearer (bearing (ig_token demo_grant)) 0.
Definition job_context : AuthContext := match job.1 with Ok c => c | _ => anonymous end.

Lemma identity_bearers_cannot_mint_witness :
  Auth.principal job_context = bs "alice" ∧
  ∃ d, issue_grant demo_identity (bs "export") [] 600 job_context (clock 1700000300) demo_entropy 7 = (Err (stale_auth d), 7).
Proof.
  assert (demo_bearer (bearing (ig_token demo_grant)) 0 = (Ok job_context, 0)) as Ej by (vm_compute; reflexivity).
  assert (authenticated job_context = true) as Ha by (vm_compute; reflexivity).
  split; [vm_compute; reflexivity|].
  destruct (identity_bearers_cannot_mint None (Some demo_grant_keys) (Some demo_resolver) (λ _, clock 1700000300) demo_bearer
    (bearing (ig_token demo_grant)) 0 job_context 0 eq_refl Ej Ha) as [(d & Hd & _)|Hn]; [done|].
  by apply Hn.
Defined.

(** ** Forwarded identities, run *)

Import Spiffe SpiffeProps.

(** Certificates are not parsed here. *)
#[global] Instance no_x509 : X509 := {| parse_x509_pem _ := None; parse_x509_certificate _ := None |}.

Definition mesh : SpiffeProxyConfig := mkProxyConfig [bs "example.org"] [V4 [x7f; x00; x00; x01]] 16384.
Definition mesh_envoy : EnvoyXfccSpiffeConfig := envoy_new mesh.
Definition worker_id : list byte := bs "spiffe://example.org/worker".
Definition some_hash : list byte := replicate 64 x61.

Definition behind_envoy (raw : list byte) : PeerResolutionContext :=
  match (c ← peer_context_new (bs "http");
         PeerIdentity.with_headers [(bs "X-Forwarded-Client-Cert", [raw])] (with_peers (Some (bs "::ffff:127.0.0.1")) None c)) with
  | Ok c => c
  | _ => mkPeerContext (bs "http") None None None None None None ∅ [] None
  end.

Definition honest_element : list byte := render [(bs "By", Token (bs "spiffe://example.org/proxy")); (bs "Hash", Token some_hash);
  (bs "Subject", Quoted (bs "CN=worker; OU=a,b")); (bs "URI", Token worker_id)].

Definition honest : forwarder := FEnvoy mesh_envoy.
Definition honest_context : PeerResolutionContext := behind_envoy honest_element.
Definition honest_result : PeerIdentityResult :=
  match resolve_forwarded honest honest_context with Ok r => r | _ => mkIdentityResult [] Off [] end.
Definition honest_results : list PeerIdentityResult := [mkIdentityResult (bs "iroh") NoMatch []; honest_result].
Definition honest_evidence : PeerEvidenceSet :=
  match from_results honest_results with Ok e => e | _ => evidence_default end.
Definition worker_principal : list byte :=
  bs "peer/" ++ percent_encode (bs "spiffe") ++ x2f :: percent_encode (bs "spiffe://example.org") ++ x2f :: percent_encode worker_id.

Lemma honest_resolved : resolve_forwarded honest honest_context = Ok honest_result.
Proof. by vm_compute. Qed.
Lemma honest_combined : from_results honest_results = Ok honest_evidence.
Proof. by vm_compute. Qed.
Lemma honest_named : pr_provider honest_result = forwarder_name honest.
Proof. by vm_compute. Qed.
Lemma honest_authenticated : Auth.principal <$> peer_identity_primary (forwarder_name honest) honest_evidence anonymous = Ok worker_principal.
Proof. by vm_compute. Qed.

Lemma forwarded_principal_witness :
  ∃ auth, peer_identity_primary (forwarder_name honest) honest_evidence anonymous = Ok auth ∧
    ∃ iss subject, vouched honest honest_context iss subject ∧ subject = worker_id.
Proof.
  pose proof honest_authenticated as Hp.
  destruct (peer_identity_primary (forwarder_name honest) honest_evidence anonymous) as [auth|e|] eqn:Ea; [|discriminate Hp..].
  exists auth. split; [exact eq_refl|].
  assert (honest_result ∈ honest_results) as Hin by (right; left).
  destruct (forwarded_principal honest honest_context honest_result honest_results honest_evidence anonymous auth
    honest_resolved honest_combined Hin honest_named Ea) as (_ & iss & subject & Hv & Hs).
  exists iss, subject. split; [exact Hv|]. injection Hp as Hp. apply Hs in Hp as (_ & _ & Hp). exact (eq_sym Hp).
Defined.

Lemma escaped_quote_names_workload_witness :
  ∃ r, resolve_envoy mesh_envoy (behind_envoy (render (two_pairs some_hash worker_id))) = Ok r ∧
    forwarded r (bs "spiffe") (bs "spiffe://example.org") worker_id (behind_envoy (render (two_pairs some_hash worker_id))).
Proof.
  apply (escaped_quote_names_workload mesh_envoy (behind_envoy (render (two_pairs some_hash worker_id))) some_hash worker_id (bs "example.org")).
  - by vm_compute.
  - unfold header_once. apply (bool_decide_unpack _). by vm_compute.
  - apply Z.leb_le. by vm_compute.
  - by vm_compute.
  - by vm_compute.
  - apply validate_spiffe_id_exact. by vm_compute.
  - by vm_compute.
Defined.

(** ** A chunked answer *)
Definition answer_head : list byte :=
  bs "HTTP/1.1 200 OK" ++ CRLF ++ bs "Content-Type: application/json" ++ CRLF ++ bs "Transfer-Encoding: chunked".
Definition answer_chunks : list (list byte * list byte) := [(bs "5;ext=1", bs "hello"); (bs "6", bs ", peer")].
Definition answer_body : list byte := mjoin (snd <$> answer_chunks).
Definition answer_wire : list byte :=
  mjoin (chunk_wire <$> answer_chunks) ++ line_wire (bs "0") ++ mjoin (line_wire <$> [bs "X: y"]) ++ CRLF ++ [].
Definition answer_bytes : list byte := answer_head ++ CRLF ++ CRLF ++ answer_wire.
Definition three_pieces : stream := [Bytes (take 30 answer_bytes); Bytes (take 60 (drop 30 answer_bytes)); Bytes (drop 90 answer_bytes)].
Definition answer_headers : ApiHeaders :=
  {[ bs "content-type" := [bs "application/json"]; bs "transfer-encoding" := [bs "chunked"] ]}.

Lemma answer_chunk_ok : Forall chunk_ok answer_chunks.
Proof. repeat (constructor; [split; [by split; vm_compute|by split; vm_compute]|]). constructor. Qed.

Lemma answer_framed : framed answer_headers answer_body answer_wire.
Proof.
  refine (framed_chunked answer_headers (bs "chunked") answer_chunks (bs "0") [bs "X: y"] [] _ _ _ answer_chunk_ok _ _ _);
    [by vm_compute..|by split; vm_compute|by vm_compute|]. constructor; [split; [by split; vm_compute|done]|constructor].
Qed.

Lemma answer_delivered : delivers three_pieces answer_bytes.
Proof. split; [repeat (constructor; [by eexists _, _|]); constructor|by vm_compute]. Qed.

Lemma answer_head_read : parse_head answer_head = Some (200, answer_headers).
Proof. apply (bool_decide_unpack _). by vm_compute. Qed.

Lemma answer_head_ends : find_text (CRLF ++ CRLF) (answer_head ++ CRLF ++ CRLF) = Some (answer_head, []).
Proof. by vm_compute. Qed.

Lemma answer_read_whole_witness :
  delivers three_pieces answer_bytes ∧ read_http_response three_pieces 100 = Ok (200, answer_headers, answer_body).
Proof.
  split; [exact answer_delivered|].
  assert (zlen answer_head + 4 ≤ MAX_LOCALAPI_HEADER_BYTES) as Hh by (apply Z.leb_le; by vm_compute).
  assert (zlen answer_body ≤ 100) as Hb by (apply Z.leb_le; by vm_compute).
  assert (100 + 2 ≤ u64_max) as Hm by (apply Z.leb_le; by vm_compute).
  exact (answer_read_whole three_pieces 100 answer_head 200 answer_headers answer_body answer_wire answer_head_read
    answer_head_ends Hh answer_framed Hb Hm answer_delivered).
Defined.

Lemma answer_read_ends_witness :
  match read_http_response [Bytes (bs "HTTP/1.1 204 No"); Broken Timeout] 100 with
  | Ok (status, _, body) => 100 ≤ status ≤ 599 ∧ zlen body ≤ 100
  | Err _ => True
  | Panic => False
  end.
Proof. apply (answer_read_ends [Bytes (bs "HTTP/1.1 204 No"); Broken Timeout] 100); ints; lia. Defined.
