(* ===== verification/HttpBase.v ===== *)
(** * HTTP: headers, content codings and budgets

    The parts of [vgi-rpc/src/http.rs] that a request passes through before and after
    its handler: header maps, the negotiation of a response coding, the decoding of a
    request body under a size limit, the response budget a client and the operator
    agree on, cookies and configured keys; and the body of a 401
    ([vgi-rpc/src/unauthorized.rs]). The [http] crate's notion of a header value and
    the gzip and zstd codecs are third-party code ([HttpLib], [ContentCodecs],
    [External.Zstd]). *)

From S2P Require Import Prelude Bytes F64 Json ErrorModel Errors Crypto External.

#[local] Open Scope Z_scope.

(** ** Header maps

    Names are lower case; a name may have several values, in the order they came. *)
Abbreviation HeaderMap := (list (list byte * list byte)).

Definition hget_all (name : list byte) (h : HeaderMap) : list (list byte) :=
  snd <$> List.filter (fun kv => bool_decide (kv.1 = name)) h.
Definition hget (name : list byte) (h : HeaderMap) : option (list byte) := head (hget_all name h).
Definition contains_key (name : list byte) (h : HeaderMap) : bool := existsb (fun kv => bool_decide (kv.1 = name)) h.

(** [insert]: every value of the name is replaced. *)
Definition hinsert (name value : list byte) (h : HeaderMap) : HeaderMap :=
  List.filter (fun kv => negb (bool_decide (kv.1 = name))) h ++ [(name, value)].

(** [keys()]: each name once. *)
Fixpoint hkeys (h : HeaderMap) : list (list byte) :=
  match h with
  | [] => []
  | (k, _) :: h => k :: List.filter (fun n => negb (bool_decide (n = k))) (hkeys h)
  end.

(** [HeaderValue::to_str], [HeaderValue::from_str] and [HeaderName::from_bytes]:
    which values are text, which texts are values, and the normalized name. *)
Class HttpLib := {
  value_is_text : list byte → bool;
  text_is_value : list byte → bool;
  header_name_from_bytes : list byte → option (list byte)
}.

Definition visible_ascii (b : byte) : bool := in_range b 32 126.
Class HttpLibLaws `{HttpLib} := {
  visible_text : ∀ v, forallb visible_ascii v = true → value_is_text v = true ∧ text_is_value v = true;
  text_value : ∀ v, value_is_text v = true → text_is_value v = true;
  text_ascii : ∀ v, value_is_text v = true → Forall (fun b => b2z b < 0x80) v;
  name_lowered : ∀ n m, header_name_from_bytes n = Some m → m = to_ascii_lowercase <$> n
}.

Record HttpResponse := mkHttpResponse { rstatus : Z; rheaders : HeaderMap; rbody : list byte }.

Definition CONTENT_TYPE : list byte := bs "content-type".
Definition CONTENT_ENCODING : list byte := bs "content-encoding".
Definition ACCEPT_ENCODING : list byte := bs "accept-encoding".
Definition ARROW_CONTENT_TYPE : list byte := bs "application/vnd.apache.arrow.stream".
Definition VGI_ACCEPT_ENCODING_HEADER : list byte := bs "x-vgi-accept-encoding".
Definition VGI_CONTENT_ENCODING_HEADER : list byte := bs "x-vgi-content-encoding".
Definition RPC_ERROR_HEADER : list byte := bs "x-vgi-rpc-error".
Definition ACCEPT_MAX_RESPONSE_BYTES_HEADER : list byte := bs "vgi-accept-max-response-bytes".
Definition MAX_SAFE_RESPONSE_BYTES : Z := Z.shiftl 1 53 - 1.
Definition MIN_RESPONSE_BYTES : Z := 64 * 1024.
Definition MIN_ZSTD_COMPRESS_BYTES : Z := 1024.
Definition MAX_CONTENT_CODINGS : Z := 4.

(** [(status, text)]: a plain answer. *)
Definition plain_error (status : Z) (msg : list byte) : HttpResponse :=
  mkHttpResponse status [(CONTENT_TYPE, bs "text/plain; charset=utf-8")] msg.
Definition arrow_response (status : Z) (body : list byte) : HttpResponse :=
  mkHttpResponse status [(CONTENT_TYPE, ARROW_CONTENT_TYPE)] body.
Definition stamp_rpc_error (r : HttpResponse) : HttpResponse :=
  mkHttpResponse (rstatus r) (hinsert RPC_ERROR_HEADER (bs "true") (rheaders r)) (rbody r).

Section Base.
Context `{HttpLib}.

(** [headers.get(name).and_then(|v| v.to_str().ok())] *)
Definition get_text (name : list byte) (h : HeaderMap) : option (list byte) :=
  v ← hget name h; if value_is_text v then Some v else None.

(** [if let Ok(v) = HeaderValue::from_str(text) { out.insert(name, v); }] *)
Definition insert_text (name text : list byte) (h : HeaderMap) : HeaderMap :=
  if text_is_value text then hinsert name text h else h.

Definition has_arrow_ct (h : HeaderMap) : bool := bool_decide (get_text CONTENT_TYPE h = Some ARROW_CONTENT_TYPE).

(** [headers.iter()], values that are text *)
Definition headers_to_pairs (h : HeaderMap) : list (list byte * list byte) :=
  List.filter (fun kv => value_is_text kv.2) h.

(** ** Response codings *)
Inductive ResponseEncoding := Identity | Zstandard | Gzip.
#[global] Instance ResponseEncoding_eq_dec : EqDecision ResponseEncoding.
Proof. solve_decision. Defined.

Definition RESPONSE_ENCODING_PREFERENCE : list ResponseEncoding := [Zstandard; Gzip].

Definition encoding_as_str (e : ResponseEncoding) : list byte :=
  match e with Identity => bs "identity" | Zstandard => bs "zstd" | Gzip => bs "gzip" end.

Definition from_token (token : list byte) : option ResponseEncoding :=
  if bool_decide (token = bs "identity") then Some Identity
  else if bool_decide (token = bs "zstd") then Some Zstandard
  else if bool_decide (token = bs "gzip") then Some Gzip else None.

Definition producible (compression_level : option Z) (e : ResponseEncoding) : bool :=
  match e with Identity => true | _ => bool_decide (is_Some compression_level) end.

Definition decodable (e : ResponseEncoding) : bool := true.

(** [names.join(", ")] *)
Definition join_comma (ts : list (list byte)) : list byte :=
  match ts with [] => [] | t :: ts => t ++ concat ((fun t => bs ", " ++ t) <$> ts) end.

Definition supported_encodings_header_value (level : option Z) : list byte :=
  join_comma (encoding_as_str <$>
    List.filter (fun e => negb (bool_decide (e = Identity)) && producible level e && decodable e)
                RESPONSE_ENCODING_PREFERENCE).

(** One element of the list: what stands before [;], trimmed and in lower case. *)
Definition encoding_token (raw : list byte) : list byte :=
  to_ascii_lowercase <$> trim (default [] (head (split_on x3b raw))).

Definition push_encoding (out : list ResponseEncoding) (raw : list byte) : list ResponseEncoding :=
  let token := encoding_token raw in
  if bool_decide (token = []) then out else
  match from_token token with
  | Some e => if bool_decide (e ∈ out) then out else out ++ [e]
  | None => out
  end.

Definition parse_encoding_list (header_value : option (list byte)) : list ResponseEncoding :=
  match header_value with
  | None => []
  | Some v => foldl push_encoding [] (split_on x2c v)
  end.

Definition pick_response_encoding (h : HeaderMap) (level : option Z) : option (ResponseEncoding * bool) :=
  let custom := parse_encoding_list (get_text VGI_ACCEPT_ENCODING_HEADER h) in
  let standard := parse_encoding_list (get_text ACCEPT_ENCODING h) in
  (fun e => (e, bool_decide (e ∈ custom) && negb (bool_decide (e ∈ standard)))) <$>
    List.find (producible level) (custom ++ List.filter (fun e => negb (bool_decide (e ∈ custom))) standard).
End Base.

(** [zstd::encode_all], and [flate2]'s gzip: the encoder at a level from 0 to 9, and
    the successive reads of the decoder, as [External.zstd_reads]. *)
Class ContentCodecs := {
  zstd_encode_all : list byte → Z → option (list byte);
  gzip_encode : Z → list byte → option (list byte);
  gzip_reads : list byte → list (option (list byte))
}.

Section Codings.
Context `{External.Zstd, ContentCodecs}.

Definition encode_response_body (e : ResponseEncoding) (body : list byte) (level : Z) : option (list byte) :=
  match e with
  | Identity => None
  | Zstandard => zstd_encode_all body level
  | Gzip => gzip_encode (Z.max 0 (Z.min level 9)) body
  end.

(** The end of [postprocess_middleware]: the body a client gets, compressed where it
    offered a coding, the body is an Arrow stream large enough, and it shrinks. *)
Definition compress_body (level : option Z) (req_encoding : option (ResponseEncoding * bool)) (is_arrow : bool)
    (h : HeaderMap) (bytes : list byte) : HeaderMap * list byte :=
  match is_arrow, level, req_encoding with
  | true, Some level, Some (e, used_custom) =>
    if MIN_ZSTD_COMPRESS_BYTES <=? zlen bytes then
      match encode_response_body e bytes level with
      | Some compressed =>
        if zlen compressed <? zlen bytes then
          (hinsert (if used_custom then VGI_CONTENT_ENCODING_HEADER else CONTENT_ENCODING) (encoding_as_str e) h,
           compressed)
        else (h, bytes)
      | None => (h, bytes)
      end
    else (h, bytes)
  | _, _, _ => (h, bytes)
  end.

(** ** Request bodies *)

(** [decode_bounded]: the loop over [read] with what it holds in [out]. *)
Fixpoint decode_bounded (max_size : Z) (coding out : list byte) (reads : list (option (list byte)))
  : res RpcError (list byte) :=
  match reads with
  | [] | Some [] :: _ => Ok out
  | None :: _ => Err (RpcErr.runtime_error (coding ++ bs " decode: "))
  | Some chunk :: reads =>
    n ← uadd (zlen out) (zlen chunk);
    if max_size <? n then Err (RpcErr.runtime_error (bs "Decompressed body exceeds max size ("))
    else decode_bounded max_size coding (out ++ chunk) reads
  end.

Definition decode_coding (max_size : Z) (result name : list byte) : res RpcError (list byte) :=
  if bool_decide (name = bs "zstd") then
    if negb (zstd_decoder_new result) then Err (RpcErr.runtime_error (bs "zstd decode: ")) else
    let w := zstd_window_log_for_limit max_size in
    if negb (zstd_window_log_max w) then Err (RpcErr.runtime_error (bs "zstd window limit: ")) else
    decode_bounded max_size (bs "zstd") [] (zstd_reads w result)
  else if bool_decide (name = bs "gzip") then decode_bounded max_size (bs "gzip") [] (gzip_reads result)
  else Ok result.

(** The codings a header lists. *)
Definition content_codings (header : list byte) : list (list byte) :=
  List.filter (fun c => negb (bool_decide (c = []))) ((fun c => to_ascii_lowercase <$> trim c) <$> split_on x2c header).

Definition decode_content_encoding (data : list byte) (content_encoding : option (list byte))
    (max_output_size : option Z) : res RpcError (list byte) :=
  match content_encoding with
  | Some header =>
    if bool_decide (trim header = []) then Ok data else
    let max_size := default usize_max max_output_size in
    let codings := content_codings header in
    if MAX_CONTENT_CODINGS <? zlen codings
    then Err (RpcErr.runtime_error (bs "Content-Encoding lists more than ")) else
    try_fold (decode_coding max_size) data (rev codings)
  | None => Ok data
  end.

Definition maybe_decompress `{HttpLib} (h : HeaderMap) (body : list byte) (max_size : Z) : res RpcError (list byte) :=
  if max_size <? zlen body then Err (RpcErr.runtime_error (bs "Request body exceeds max size (")) else
  decode_content_encoding body (get_text CONTENT_ENCODING h) (Some max_size).
End Codings.

(** ** Budgets *)

(** [[a, b, ..].into_iter().flatten().min()] *)
Definition min_some (os : list (option Z)) : option Z :=
  foldr (fun o acc => match o, acc with
                      | Some a, Some b => Some (Z.min a b)
                      | Some a, None => Some a
                      | None, acc => acc
                      end) None os.

Record Limits := mkLimits {
  max_body_size : Z;
  max_request_bytes : option Z;
  hosting_max_request_bytes : option Z;
  max_response_bytes : option Z;
  hosting_max_response_bytes : option Z;
  lim_preferred_response_bytes : option Z;
  max_externalized_response_bytes : option Z
}.

Definition request_decode_limit (l : Limits) : Z :=
  default (max_body_size l) (min_some [Some (max_body_size l); max_request_bytes l; hosting_max_request_bytes l]).

Section Budget.
Context `{HttpLib}.

Definition parse_accepted_max_response_bytes (h : HeaderMap) : res RpcError (option Z) :=
  match hget_all ACCEPT_MAX_RESPONSE_BYTES_HEADER h with
  | [] => Ok None
  | [raw] =>
    if negb (value_is_text raw)
    then Err (RpcErr.value_error (bs "VGI-Accept-Max-Response-Bytes must be ASCII decimal")) else
    if bool_decide (raw = []) || match raw with x30 :: _ => true | _ => false end || negb (forallb is_ascii_digit raw)
    then Err (RpcErr.value_error (bs "VGI-Accept-Max-Response-Bytes must match [1-9][0-9]*")) else
    parsed ← ok_or (RpcErr.value_error (bs "VGI-Accept-Max-Response-Bytes is outside the supported range"))
                   (parse_unsigned u64_max raw);
    if (parsed <? MIN_RESPONSE_BYTES) || (MAX_SAFE_RESPONSE_BYTES <? parsed) || (usize_max <? parsed)
    then Err (RpcErr.value_error (bs "VGI-Accept-Max-Response-Bytes must be between ")) else
    Ok (Some parsed)
  | _ => Err (RpcErr.value_error (bs "VGI-Accept-Max-Response-Bytes must occur exactly once"))
  end.

(** [preferred.map(|v| hard.map_or(v, |limit| v.min(limit)))] *)
Definition clamp_preferred (hard preferred : option Z) : option Z :=
  (fun v => match hard with Some limit => Z.min v limit | None => v end) <$> preferred.

Definition effective_response_budget (l : Limits) (h : HeaderMap) : res RpcError (option Z * option Z) :=
  accepted ← parse_accepted_max_response_bytes h;
  let hard := min_some [max_response_bytes l; hosting_max_response_bytes l; accepted] in
  Ok (hard, clamp_preferred hard (lim_preferred_response_bytes l)).

Definition response_buffer_ceiling (l : Limits) (h : HeaderMap) : Z :=
  match effective_response_budget l h with
  | Ok (Some hard, _) => Z.max hard (64 * 1024)
  | _ => usize_max
  end.

(** ** Cookies *)
Definition strip_suffix (p l : list byte) : option (list byte) := @rev byte <$> strip_prefix (rev p) (rev l).

Definition unquote (v : list byte) : list byte :=
  default v (strip_prefix [x22] v ≫= strip_suffix [x22]).

Definition add_cookie (m : Metadata) (part : list byte) : Metadata :=
  match split_once x3d (trim part) with
  | Some (k, v) => <[trim k := unquote (trim v)]> m
  | None => m
  end.

Definition parse_cookies (raw : option (list byte)) : Metadata :=
  match raw with
  | None => ∅
  | Some raw => foldl add_cookie ∅ (split_on x3b raw)
  end.
End Budget.

(** ** Configured keys: a refusal is a text *)
Definition short_key : list byte := bs "signing key must be ".

Definition hex_nibble (c : byte) : res (list byte) Z := ok_or (bs "invalid hex character: ") (hex_value c).

Fixpoint hex_pairs (l : list byte) : res (list byte) (list byte) :=
  match l with
  | a :: b :: l =>
    hi ← hex_nibble a; lo ← hex_nibble b; rest ← hex_pairs l;
    Ok (z2b (Z.lor (Z.shiftl hi 4) lo) :: rest)
  | _ => Ok []
  end.

Definition decode_hex_key (s : list byte) : res (list byte) (list byte) :=
  let s := trim s in
  if negb (zlen s mod 2 =? 0) then Err (bs "hex length must be even") else
  out ← hex_pairs s;
  if zlen out <? 32 then Err short_key else Ok out.

(** [s.trim_end_matches('=')] *)
Fixpoint skip_eq (s : list byte) : list byte := match s with x3d :: s => skip_eq s | s => s end.
Definition trim_end_eq (s : list byte) : list byte := rev (skip_eq (rev s)).

Definition decode_base64_key `{Base64} (s : list byte) : res (list byte) (list byte) :=
  let s := trim_end_eq (trim s) in
  let padded := s ++ replicate (Z.to_nat ((- zlen s) mod 4)) x3d in
  bytes ← ok_or (bs "base64 decode: ") (b64_decode padded);
  if zlen bytes <? 32 then Err short_key else Ok bytes.

(** [HttpStateBuilder::token_key]: a short key is a configuration error. *)
Definition builder_token_key (key : list byte) : res (list byte) (list byte) :=
  if zlen key <? 32 then Panic else Ok (ztake 32 key).
Definition token_key_hex (hex : list byte) : res (list byte) (list byte) :=
  match decode_hex_key hex with Ok k => builder_token_key k | _ => Panic end.
Definition token_key_base64 `{Base64} (b64 : list byte) : res (list byte) (list byte) :=
  match decode_base64_key b64 with Ok k => builder_token_key k | _ => Panic end.

(** [token_key_from_env]: [raw] is what the variable holds, where it is set and text. *)
Definition token_key_from_env `{Base64} (raw : option (list byte)) : res (list byte) (list byte) :=
  match raw with
  | None => Panic
  | Some raw =>
    let trimmed := trim raw in
    match decode_base64_key trimmed with
    | Ok k => builder_token_key k
    | Panic => Panic
    | Err _ => match decode_hex_key trimmed with Ok k => builder_token_key k | _ => Panic end
    end
  end.

(** ** The 401 of [unauthorized.rs] *)
Definition AUTH_REASON_HEADER : list byte := bs "vgi-auth-reason".
Definition AUTH_PROXY_REQUIRED_HEADER : list byte := bs "vgi-auth-proxy-required".

Definition reason_as_str (r : AuthReason) : list byte :=
  match r with
  | MissingCredential => bs "missing_credential" | InvalidCredential => bs "invalid_credential"
  | ExpiredCredential => bs "expired_credential" | InsufficientScope => bs "insufficient_scope"
  | ProxyRequired => bs "proxy_required" | Unauthorized => bs "unauthorized"
  end.

Definition proxy_hint (headers : list (list byte)) : list byte :=
  bs "This service only accepts requests that arrive through its configured reverse proxy, which must set the "
  ++ join_comma headers ++
  bs " header(s). A rejection here is at least as likely to be a proxy misconfiguration as a bad credential — check that the proxy is forwarding them before re-issuing credentials.".

(** One byte of the text: bytes above ASCII belong to characters that stand for
    themselves. *)
Definition json_escape (b : byte) : list byte :=
  match b with
  | x22 => [x5c; x22] | x5c => [x5c; x5c] | x0a => [x5c; x6e] | x0d => [x5c; x72] | x09 => [x5c; x74]
  | b => if b2z b <? 0x20 then x5c :: bs "u00" ++ hex_byte b else [b]
  end.
Definition json_string (s : list byte) : list byte := x22 :: concat (json_escape <$> s) ++ [x22].

Definition quoted (s : list byte) : list byte := x22 :: s ++ [x22].
Definition envelope (reason : AuthReason) (detail : list byte) (hint : option (list byte)) : list byte :=
  x7b :: quoted (bs "error") ++ x3a :: quoted (bs "unauthorized") ++ x2c :: quoted (bs "reason") ++ x3a ::
  quoted (reason_as_str reason) ++ x2c :: quoted (bs "detail") ++ x3a :: json_string detail ++
  match hint with Some h => x2c :: quoted (bs "proxy_hint") ++ x3a :: json_string h | None => [] end ++ [x7d].
