(* ===== verification/HttpBaseProps.v ===== *)
(** * HTTP bodies: codings and limits

    A response body decodes to what the handler wrote under the coding its headers
    name, which is the client's first choice the server can produce; a request body is
    held to its limit whatever codings it claims. *)

From S2P Require Import Prelude Bytes F64 Json ErrorModel Errors Crypto External ExternalProps HttpBase.

#[local] Open Scope Z_scope.

(** ** Header maps *)
Lemma hget_hinsert n v h : hget n (hinsert n v h) = Some v.
Proof.
  unfold hget, hget_all, hinsert. induction h as [|[k w] h IH]; simpl; [by rewrite bool_decide_eq_true_2|].
  case_bool_decide as Hk; simpl; [done|]. rewrite bool_decide_eq_false_2 by done. done.
Qed.

Lemma hget_hinsert_ne n n' v h : n ≠ n' → hget n (hinsert n' v h) = hget n h.
Proof.
  intros Hne. unfold hget, hget_all, hinsert. induction h as [|[k w] h IH]; simpl.
  { by rewrite bool_decide_eq_false_2 by done. }
  destruct (bool_decide_reflect (k = n')) as [->|Hk]; simpl.
  - rewrite (bool_decide_eq_false_2 (n' = n)) by done. done.
  - by destruct (bool_decide (k = n)).
Qed.

Lemma hget_all_hinsert n v h : hget_all n (hinsert n v h) = [v].
Proof.
  unfold hget_all, hinsert. induction h as [|[k w] h IH]; simpl; [by rewrite bool_decide_eq_true_2|].
  case_bool_decide as Hk; simpl; [done|]. by rewrite bool_decide_eq_false_2.
Qed.

Lemma hget_all_hinsert_ne n n' v h : n ≠ n' → hget_all n (hinsert n' v h) = hget_all n h.
Proof.
  intros Hne. unfold hget_all, hinsert. induction h as [|[k w] h IH].
  { simpl. by rewrite bool_decide_eq_false_2 by done. }
  cbn [List.filter fst]. destruct (bool_decide_reflect (k = n')) as [->|Hk]; cbn [negb].
  - rewrite IH. by rewrite (bool_decide_eq_false_2 (n' = n)) by done.
  - cbn [app List.filter fst]. destruct (bool_decide (k = n)); [by rewrite !fmap_cons, IH|done].
Qed.

Lemma hget_all_insert_text_ne `{HttpLib} n n' v h : n ≠ n' → hget_all n (insert_text n' v h) = hget_all n h.
Proof. intros Hn. unfold insert_text. case_match; [by apply hget_all_hinsert_ne|done]. Qed.

Lemma hget_of_all n h l : hget_all n h = l → hget n h = head l.
Proof. by intros <-. Qed.

(** ** Decoding *)

(** What the codecs document: a frame at a level declares a window of its own, and
    decodes to its content in non-empty reads under that window. *)
Class ContentCodecsLaws `{External.Zstd, ContentCodecs} := {
  level_window : Z → Z;
  zstd_all_roundtrip : ∀ body level c w, zstd_encode_all body level = Some c → level_window level ≤ w ≤ 31 →
    zstd_decoder_new c = true ∧
    ∃ chunks, zstd_reads w c = Some <$> chunks ∧ Forall (fun c => c ≠ []) chunks ∧ concat chunks = body;
  gzip_roundtrip : ∀ level body c, gzip_encode level body = Some c →
    ∃ chunks, gzip_reads c = Some <$> chunks ∧ Forall (fun c => c ≠ []) chunks ∧ concat chunks = body
}.

Lemma decode_bounded_loop max coding out reads l :
  decode_bounded max coding out reads = Ok l ↔ decode_loop max out reads = Ok l.
Proof.
  revert out. induction reads as [|[[|b chunk]|] reads IH]; intros out; cbn [decode_bounded decode_loop]; [done..| |done].
  rewrite !bind_Ok. split; intros (n & Hn & E); exists n; (split; [done|]);
    destruct (max <? n); (done || by apply IH).
Qed.

Section Decoding.
Context `{CL : ContentCodecsLaws, !ZstdLaws}.

Lemma decode_coding_bound max data name l :
  decode_coding max data name = Ok l → 0 ≤ max → zlen data ≤ max → zlen l ≤ max.
Proof.
  unfold decode_coding. intros E Hm Hd.
  repeat case_match; try done; try (by injection E as <-);
    (apply decode_bounded_loop in E; eapply decode_loop_bound; [done|]; by rewrite zlen_nil).
Qed.

(** C35. The body a request handler reads is held to the configured limit:
    whatever list of codings the request claims, in whatever order, and whatever the
    decoders deliver, either the request is refused or the decoded body is at most the
    limit, the smallest of the ones configured; and at most four codings are run. *)
Theorem request_body_bounded `{HttpLib} (lim : Limits) (h : HeaderMap) (body l : list byte) :
  0 ≤ request_decode_limit lim →
  maybe_decompress h body (request_decode_limit lim) = Ok l →
  zlen l ≤ request_decode_limit lim ∧ zlen l ≤ max_body_size lim ∧
  (∀ n, max_request_bytes lim = Some n ∨ hosting_max_request_bytes lim = Some n → zlen l ≤ n) ∧
  (∀ header, get_text CONTENT_ENCODING h = Some header → trim header ≠ [] →
     zlen (content_codings header) ≤ MAX_CONTENT_CODINGS).
Proof.
  unfold maybe_decompress. set (lim0 := request_decode_limit lim). intros Hm E.
  destruct (Z.ltb_spec lim0 (zlen body)) as [|Hb]; [done|].
  assert (zlen l ≤ lim0) as Hl.
  { unfold decode_content_encoding in E. destruct (get_text CONTENT_ENCODING h) as [header|]; [|by injection E as <-].
    case_bool_decide; [by injection E as <-|]. case_match; [done|]. cbn [default] in E. revert body Hb E.
    induction (rev (content_codings header)) as [|c cs IH]; intros body Hb E; simpl in E; inv_res; [done|].
    eapply IH; [|exact E]. by eapply decode_coding_bound. }
  assert (lim0 ≤ max_body_size lim ∧ ∀ n, max_request_bytes lim = Some n ∨ hosting_max_request_bytes lim = Some n → lim0 ≤ n)
    as [H1' H2'].
  { unfold lim0, request_decode_limit. destruct (max_request_bytes lim), (hosting_max_request_bytes lim); simpl;
      split; try lia; intros n [[= <-]|[= <-]]; lia. }
  split_and!; [done|lia|intros n Hn; specialize (H2' n Hn); lia|].
  intros header Hh Ht. unfold decode_content_encoding in E. rewrite Hh in E.
  rewrite bool_decide_eq_false_2 in E by done. by destruct (Z.ltb_spec MAX_CONTENT_CODINGS (zlen (content_codings header))).
Qed.

(** The window of the level fits what the decoder of a limit allows. *)
Definition window_fits (e : ResponseEncoding) (level max : Z) : Prop :=
  e = Zstandard → level_window level ≤ zstd_window_log_for_limit max.

Lemma encode_decode e body level c max :
  encode_response_body e body level = Some c → zlen body ≤ max → max ≤ u64_max → window_fits e level max →
  decode_content_encoding c (Some (encoding_as_str e)) (Some max) = Ok body.
Proof.
  intros E Hb Hm Hw. pose proof (zlen_nonneg body) as Hn.
  assert (∀ chunks, Forall (fun c => c ≠ []) chunks → concat chunks = body →
            ∀ coding, decode_bounded max coding [] (Some <$> chunks) = Ok body) as Hdec.
  { intros chunks Hc <- coding. apply decode_bounded_loop. by rewrite decode_loop_chunks. }
  unfold decode_content_encoding. destruct e; cbn [encode_response_body] in E; [done| |].
  - change (content_codings (encoding_as_str Zstandard)) with [bs "zstd"]. rewrite bool_decide_eq_false_2 by done.
    cbn [default id Z.ltb]. change (MAX_CONTENT_CODINGS <? zlen [bs "zstd"]) with false. cbn [rev app try_fold].
    unfold decode_coding. cbv zeta. rewrite bool_decide_eq_true_2 by done.
    destruct (window_log_covers max ltac:(lia)) as [Hr _].
    destruct (zstd_all_roundtrip _ _ _ (zstd_window_log_for_limit max) E) as (-> & chunks & -> & Hc & Hcat); [split; [by apply Hw|lia]|].
    cbn [negb]. rewrite zstd_window_range by lia. cbn [negb]. by rewrite (Hdec chunks Hc Hcat).
  - change (content_codings (encoding_as_str Gzip)) with [bs "gzip"]. rewrite bool_decide_eq_false_2 by done.
    cbn [default id Z.ltb]. change (MAX_CONTENT_CODINGS <? zlen [bs "gzip"]) with false. cbn [rev app try_fold].
    unfold decode_coding. rewrite bool_decide_eq_false_2, bool_decide_eq_true_2 by done.
    destruct (gzip_roundtrip _ _ _ E) as (chunks & -> & Hc & Hcat). by rewrite (Hdec chunks Hc Hcat).
Qed.

(** ** Negotiation *)
Section Negotiation.
Context `{HttpLib}.

(** The codings a client names, its own header first. *)
Definition offered (h : HeaderMap) : list ResponseEncoding :=
  parse_encoding_list (get_text VGI_ACCEPT_ENCODING_HEADER h) ++ parse_encoding_list (get_text ACCEPT_ENCODING h).

(** Dropping later repetitions does not change the first hit. *)
Lemma find_dedup {A} `{EqDecision A} (f : A → bool) (l k : list A) :
  List.find f (l ++ List.filter (fun e => negb (bool_decide (e ∈ l))) k) = List.find f (l ++ k).
Proof.
  rewrite !find_app. destruct (List.find f l) as [x|] eqn:El; [done|].
  induction k as [|y k IH]; [done|]. simpl. case_bool_decide as Hin; simpl.
  - assert (f y = false) as ->; [|done]. eapply List.find_none; [exact El|]. by apply list_elem_of_In.
  - by rewrite IH.
Qed.

Lemma pick_Some (h : HeaderMap) level e custom :
  pick_response_encoding h level = Some (e, custom) ↔
  (∃ pre post, offered h = pre ++ e :: post ∧ producible level e = true ∧ ∀ d, d ∈ pre → producible level d = false) ∧
  custom = bool_decide (e ∈ parse_encoding_list (get_text VGI_ACCEPT_ENCODING_HEADER h))
           && negb (bool_decide (e ∈ parse_encoding_list (get_text ACCEPT_ENCODING h))).
Proof.
  unfold pick_response_encoding, offered. rewrite find_dedup, fmap_Some, <- find_split. naive_solver.
Qed.

Lemma compress_body_decodes (h out : HeaderMap) level is_arrow bytes out' body' max :
  hget CONTENT_ENCODING out = None → hget VGI_CONTENT_ENCODING_HEADER out = None →
  zlen bytes ≤ max → max ≤ u64_max → (∀ l e, level = Some l → window_fits e l max) →
  compress_body level (pick_response_encoding h level) is_arrow out bytes = (out', body') →
  zlen body' ≤ zlen bytes ∧
  (out' = out ∧ body' = bytes ∨
   ∃ e custom l, level = Some l ∧ is_arrow = true ∧ pick_response_encoding h level = Some (e, custom) ∧ e ≠ Identity ∧
     (∃ pre post, offered h = pre ++ e :: post ∧ ∀ d, d ∈ pre → producible level d = false) ∧
     hget VGI_CONTENT_ENCODING_HEADER out' = (if custom then Some (encoding_as_str e) else None) ∧
     hget CONTENT_ENCODING out' = (if custom then None else Some (encoding_as_str e)) ∧
     decode_content_encoding body' (Some (encoding_as_str e)) (Some max) = Ok bytes).
Proof.
  intros Ho1 Ho2 Hb Hm Hw E. unfold compress_body in E.
  assert ((out', body') = (out, bytes) → zlen body' ≤ zlen bytes ∧ (out' = out ∧ body' = bytes ∨ False)) as Hsame.
  { intros [= -> ->]. split; [lia|]. by left. }
  destruct is_arrow; [|naive_solver]. destruct level as [l|]; [|naive_solver].
  destruct (pick_response_encoding h (Some l)) as [[e custom]|] eqn:Ep; [|naive_solver].
  destruct (MIN_ZSTD_COMPRESS_BYTES <=? zlen bytes); [|naive_solver].
  destruct (encode_response_body e bytes l) as [c|] eqn:Ec; [|naive_solver].
  destruct (Z.ltb_spec (zlen c) (zlen bytes)) as [Hl|]; [|naive_solver].
  injection E as <- <-. split; [lia|]. right. exists e, custom, l.
  pose proof Ep as Ep'. apply pick_Some in Ep' as [(pre & post & Hof & _ & Hpre) _].
  assert (CONTENT_ENCODING ≠ VGI_CONTENT_ENCODING_HEADER) as Hn by done.
  split_and!; [done..|by intros ->|by exists pre, post| | |].
  - destruct custom; [apply hget_hinsert|]. by rewrite hget_hinsert_ne.
  - destruct custom; [by rewrite hget_hinsert_ne|apply hget_hinsert].
  - eapply encode_decode; [done..|]. by apply Hw.
Qed.

(** What a client gets back is what the handler wrote: the body, with the
    coding header it carries, decodes to the handler's body, and is never longer. A
    coding header is there only if the client offered that coding, no coding it
    prefers could be produced, and then on the custom header exactly when it was
    offered on the custom header alone, where an HTTP stack in between would not
    decode it. *)
Theorem response_coding_exact (h out : HeaderMap) level is_arrow bytes out' body' max :
  hget CONTENT_ENCODING out = None → hget VGI_CONTENT_ENCODING_HEADER out = None →
  zlen bytes ≤ max → max ≤ u64_max → (∀ l e, level = Some l → window_fits e l max) →
  compress_body level (pick_response_encoding h level) is_arrow out bytes = (out', body') →
  zlen body' ≤ zlen bytes ∧
  (out' = out ∧ body' = bytes ∨
   ∃ e custom l, level = Some l ∧ is_arrow = true ∧ pick_response_encoding h level = Some (e, custom) ∧ e ≠ Identity ∧
     (∃ pre post, offered h = pre ++ e :: post ∧ ∀ d, d ∈ pre → producible level d = false) ∧
     hget VGI_CONTENT_ENCODING_HEADER out' = (if custom then Some (encoding_as_str e) else None) ∧
     hget CONTENT_ENCODING out' = (if custom then None else Some (encoding_as_str e)) ∧
     decode_content_encoding body' (Some (encoding_as_str e)) (Some max) = Ok bytes).
Proof. apply compress_body_decodes. Qed.
End Negotiation.
End Decoding.
