(* ===== verification/HttpAuth.v ===== *)
(** * HTTP: who is calling

    [authenticate_request_from_peer] of [vgi-rpc/src/http.rs]: the application's
    callback, the peer identity providers run beside each other under a deadline, the
    policy over their evidence, and the answer a refused request gets. Which providers
    got a permit, and which of their tasks had ended by the deadline and in what
    order, are arguments: the scheduler decides them. *)

From S2P Require Import Prelude Bytes F64 Json ErrorModel Errors Crypto External Auth PeerIdentity HttpBase.
From stdpp Require Import sorting.

#[local] Open Scope Z_scope.

Definition AUTHORIZATION : list byte := bs "authorization".
Definition HOST : list byte := bs "host".
Definition RETRY_AFTER : list byte := bs "retry-after".
Definition WWW_AUTHENTICATE : list byte := bs "www-authenticate".
Definition CACHE_CONTROL : list byte := bs "cache-control".
Definition PROOF_HEADER : list byte := bs "vgi-proxy-proof".

(** The results so far and the names still awaited. *)
Abbreviation Pending := (list PeerIdentityResult * gset (list byte))%type.

Section HttpAuth.
(** [S]: the state of the application's callback. *)
Context {S : Type} `{HttpLib}.

Record AuthConfig := mkAuthConfig {
  authenticate : option (Authenticate S);
  peer_identity_providers : list PeerIdentityProvider;
  peer_authentication_policy : option PeerAuthenticationPolicy;
  peer_service_name : option (list byte);
  extra_proxy_auth_headers : list (list byte);
  proxy_proof_required : bool;
  www_authenticate : option (list byte)
}.

(** The peer of the connection, as the two texts the source makes of its address. *)
Record PeerAddr := mkPeerAddr { addr_text : list byte; ip_text : list byte }.

(** What the scheduler decides: per provider whether a permit was free, and the
    providers (by position) whose tasks ended before the snapshot, in that order. *)
Record Schedule := mkSchedule { permits : list bool; ended : list nat; identity_deadline : Z }.

Record RequestIdentity := mkRequestIdentity { ri_auth : AuthContext; ri_evidence : PeerEvidenceSet }.

(** ** The application's factor *)

(** [auth_reason == Some(MissingCredential)] under a policy: deferred to the peer. *)
Definition defers (c : AuthConfig) (e : RpcError) : bool :=
  bool_decide (is_Some (peer_authentication_policy c)) && bool_decide (auth_reason e = Some MissingCredential).

Definition application_auth (c : AuthConfig) (req : AuthRequest) (s : S)
  : res RpcError (AuthContext * option RpcError) * S :=
  match authenticate c with
  | None => (Ok (anonymous, None), s)
  | Some callback =>
    match callback req s with
    | (Ok a, s) => (Ok (a, None), s)
    | (Err e, s) => (if defers c e then Ok (anonymous, Some e) else Err e, s)
    | (Panic, s) => (Panic, s)
    end
  end.

Definition credential_present (c : AuthConfig) (h : HeaderMap) : bool :=
  contains_key AUTHORIZATION h || existsb (fun name => contains_key name h) (extra_proxy_auth_headers c).

Definition not_accepted : RpcError :=
  RpcErr.auth_failure InvalidCredential (bs "presented application credential was not accepted").

Definition check_credential (c : AuthConfig) (h : HeaderMap) (a : AuthContext) (deferred : option RpcError)
  : res RpcError unit :=
  if bool_decide (is_Some (authenticate c)) && credential_present c h
     && (negb (authenticated a) || bool_decide (is_Some deferred))
  then Err not_accepted else Ok tt.

(** ** The peer's factor *)
Definition provider_headers (h : HeaderMap) : res RpcError (list (list byte * list (list byte))) :=
  mapM (fun name =>
    values ← mapM (fun v => if value_is_text v then Ok v
                            else Err (RpcErr.permission_error (bs "non-text peer identity header")))
                  (hget_all name h);
    Ok (name, values)) (hkeys h).

Definition resolution_context (c : AuthConfig) (h : HeaderMap) (peer : option PeerAddr) (deadline : Z)
  : res RpcError PeerResolutionContext :=
  headers ← provider_headers h;
  ctx ← peer_context_new (bs "http");
  let ctx := with_peers (ip_text <$> peer) None ctx in
  let ctx := with_source_endpoint (addr_text <$> peer) ctx in
  let ctx := with_destination None (peer_service_name c) ctx in
  let ctx := with_authority (get_text HOST h) ctx in
  ctx ← with_headers headers ctx;
  Ok (with_deadline deadline ctx).

Definition rejected_class (e : RpcError) : bool :=
  bool_decide (error_type e = bs "PermissionError") || bool_decide (error_type e = bs "ValueError").

Definition record_http_peer_provider_result (acc : Pending) (name : list byte)
    (result : res RpcError PeerIdentityResult) : res RpcError Pending :=
  let '(results, pending) := acc in
  if negb (bool_decide (name ∈ pending))
  then Err (RpcErr.runtime_error (bs "peer identity provider task attribution mismatch")) else
  let pending := pending ∖ {[name]} in
  match result with
  | Ok r =>
    if bool_decide (pr_provider r = name) then Ok (results ++ [r], pending)
    else Err (RpcErr.runtime_error (bs "peer identity provider result attribution mismatch"))
  | Err e =>
    if RpcErr.is_auth_unavailable e then
      r ← without_identity name Unavailable; Ok (results ++ [r], pending)
    else if bool_decide (is_Some (auth_reason e)) || rejected_class e
    then Err (RpcErr.auth_failure InvalidCredential (bs "peer identity provider "))
    else Err (RpcErr.runtime_error (bs "peer identity provider "))
  | Panic => Err (RpcErr.runtime_error (bs "peer identity provider task failed"))
  end.

(** The loop that starts the tasks. *)
Definition start_provider (acc : Pending) (p : PeerIdentityProvider * bool) : res RpcError Pending :=
  let '(results, pending) := acc in
  if p.2 then Ok (results, {[pp_name p.1]} ∪ pending)
  else r ← without_identity (pp_name p.1) Unavailable; Ok (results ++ [r], pending).

(** A task that was joined: what its provider answered. *)
Definition join_provider (ctx : PeerResolutionContext) (acc : Pending) (p : PeerIdentityProvider) : res RpcError Pending :=
  match pp_resolve p ctx with
  | Panic => Err (RpcErr.runtime_error (bs "peer identity provider task failed"))
  | r => record_http_peer_provider_result acc (pp_name p) r
  end.

(** The providers a permit was free for, and those of them that ended in time. *)
Definition with_permits (c : AuthConfig) (sch : Schedule) : list (PeerIdentityProvider * bool) :=
  zip (peer_identity_providers c) (permits sch).
Definition joined (c : AuthConfig) (sch : Schedule) : list PeerIdentityProvider :=
  omap (fun n : nat => match with_permits c sch !! n with Some (p, true) => Some p | _ => None end) (ended sch).

Definition provider_results (c : AuthConfig) (sch : Schedule) (ctx : PeerResolutionContext)
  : res RpcError (list PeerIdentityResult) :=
  acc ← try_fold start_provider ([], ∅) (with_permits c sch);
  '(results, pending) ← try_fold (join_provider ctx) acc (joined c sch);
  late ← mapM (fun name => without_identity name Unavailable) (merge_sort bytes_le (elements pending));
  Ok (results ++ late).

(** ** Both factors *)
Definition redact_peer_policy_error (e : RpcError) : RpcError :=
  if RpcErr.is_auth_unavailable e then
    let redacted := RpcErr.auth_unavailable (bs "peer identity authentication unavailable") in
    match retry_after_seconds e with
    | Some s => RpcErr.with_retry_after s redacted
    | None => redacted
    end
  else RpcErr.auth_failure (default InvalidCredential (auth_reason e)) (bs "peer identity authentication rejected").

Definition authentication_log_class (e : RpcError) : list byte :=
  if RpcErr.is_auth_unavailable e then bs "unavailable"
  else if rejected_class e then bs "rejected" else bs "failed".

(** What follows the callback. *)
Definition peer_auth (c : AuthConfig) (h : HeaderMap) (peer : option PeerAddr) (sch : Schedule)
    (existing : AuthContext) (deferred : option RpcError) : res RpcError RequestIdentity :=
  _ ← check_credential c h existing deferred;
  ctx ← resolution_context c h peer (identity_deadline sch);
  results ← provider_results c sch ctx;
  evidence ← from_results results;
  auth ← match peer_authentication_policy c with
         | Some policy => map_err redact_peer_policy_error (policy evidence existing)
         | None => Ok existing
         end;
  if authenticated auth then Ok (mkRequestIdentity auth evidence) else
  match deferred with
  | Some e => Err e
  | None => Ok (mkRequestIdentity auth evidence)
  end.

Definition resolve_identity (c : AuthConfig) (method : list byte) (h : HeaderMap) (peer : option PeerAddr)
    (sch : Schedule) (s : S) : res RpcError RequestIdentity * S :=
  match application_auth c (mkAuthRequest method (headers_to_pairs h) (addr_text <$> peer)) s with
  | (Ok (existing, deferred), s) => (peer_auth c h peer sch existing deferred, s)
  | (Err e, s) => (Err e, s)
  | (Panic, s) => (Panic, s)
  end.

(** ** The answer to a refused request *)
Definition proxy_auth_headers (c : AuthConfig) : list (list byte) :=
  (if proxy_proof_required c then [PROOF_HEADER] else []) ++ extra_proxy_auth_headers c.

Definition unauthorized_response (c : AuthConfig) (h : HeaderMap) (reason : AuthReason) (detail : list byte)
  : HttpResponse :=
  let hint := match proxy_auth_headers c with [] => None | hs => Some (proxy_hint hs) end in
  let h := match hint with Some _ => hinsert AUTH_PROXY_REQUIRED_HEADER (bs "true") h | None => h end in
  let h := insert_text AUTH_REASON_HEADER (reason_as_str reason) h in
  let h := hinsert CACHE_CONTROL (bs "no-store") h in
  let h := hinsert CONTENT_TYPE (bs "application/json") h in
  mkHttpResponse 401 h (envelope reason detail hint).

(** The reason named, or guessed from the type. *)
Definition refusal_reason (e : RpcError) : AuthReason :=
  default (if bool_decide (error_type e = bs "PermissionError") then InsufficientScope else Unauthorized) (auth_reason e).
Definition refusal_detail (e : RpcError) : list byte :=
  match auth_reason e with Some _ => message e | None => [] end.

Definition TEXT_PLAIN : list byte := bs "text/plain; charset=utf-8".

Definition refuse (c : AuthConfig) (e : RpcError) : HttpResponse :=
  if RpcErr.is_auth_unavailable e then
    let retry_after := default RpcErr.DEFAULT_AUTH_RETRY_AFTER_SECONDS (retry_after_seconds e) in
    mkHttpResponse 503 (insert_text RETRY_AFTER (dec_unsigned retry_after) [(CONTENT_TYPE, TEXT_PLAIN)])
      (bs "authentication service unavailable")
  else if rejected_class e then
    let h := match www_authenticate c with Some wa => insert_text WWW_AUTHENTICATE wa [] | None => [] end in
    unauthorized_response c h (refusal_reason e) (refusal_detail e)
  else mkHttpResponse 500 [(CONTENT_TYPE, TEXT_PLAIN)] (bs "internal error during authentication").

Definition authenticate_request_from_peer (c : AuthConfig) (method : list byte) (h : HeaderMap) (peer : option PeerAddr)
    (sch : Schedule) (s : S) : res HttpResponse RequestIdentity * S :=
  let '(r, s) := resolve_identity c method h peer sch s in (map_err (refuse c) r, s).
End HttpAuth.
Arguments AuthConfig : clear implicits.
