(* ===== verification/HttpAuthProps.v ===== *)
(** * HTTP authentication: no credential is downgraded

    Whatever the scheduler does, a request is served only under an identity its
    factors gave it, and the evidence a policy sees was produced by the providers it
    is attributed to. *)

From S2P Require Import Prelude Bytes F64 Json ErrorModel Errors Crypto External Auth PeerIdentity PeerIdentityProps HttpBase HttpAuth.
From stdpp Require Import sorting.

#[local] Open Scope Z_scope.

(** An invariant of a fold that stops at the first error. *)
Lemma try_fold_inv {X A B} (P : A → Prop) (f : A → B → res X A) l a b :
  P a → (∀ a x a', x ∈ l → P a → f a x = Ok a' → P a') → try_fold f a l = Ok b → P b.
Proof.
  intros Ha Hf. revert a Ha. induction l as [|x l IH]; intros a Ha E; simpl in E; inv_res; [done|].
  eapply IH; [|eapply Hf; [by left|exact Ha|eassumption]|done]. intros ? ? ? ?. apply Hf. by right.
Qed.

Lemma mapM_res_Ok {X A B} (f : A → res X B) l k : mapM f l = Ok k ↔ Forall2 (fun x y => f x = Ok y) l k.
Proof.
  revert k. induction l as [|x l IH]; intros k; simpl.
  - split; [intros [= <-]; constructor|by inversion 1].
  - rewrite bind_Ok. split.
    + intros (y & Hy & E). apply bind_Ok in E as (k' & Hk & [= <-]). constructor; [done|]. by apply IH.
    + inversion 1; subst. eexists. split; [done|]. apply bind_Ok. eexists. split; [by apply IH|done].
Qed.

Section Props.
Context {S : Type} `{HttpLib}.
Implicit Types (c : AuthConfig S) (sch : Schedule).

(** A result some configured provider accounts for: its own answer, or that it was
    unavailable. *)
Definition accounted c (ctx : PeerResolutionContext) (r : PeerIdentityResult) : Prop :=
  ∃ p, p ∈ peer_identity_providers c ∧ pp_name p = pr_provider r ∧
    (pp_resolve p ctx = Ok r ∨ pr_status r = Unavailable ∧ pr_identities r = []).

Lemma without_identity_Ok p s r : without_identity p s = Ok r → pr_provider r = p ∧ pr_status r = s ∧ pr_identities r = [].
Proof. unfold without_identity. case_bool_decide; [done|]. case_match; [done|]. by intros [= <-]. Qed.

Lemma record_inv c ctx acc p acc' :
  p ∈ peer_identity_providers c → Forall (accounted c ctx) acc.1 →
  join_provider ctx acc p = Ok acc' →
  Forall (accounted c ctx) acc'.1 ∧ (∀ n, n ∈ acc'.2 → n ∈ acc.2).
Proof.
  intros Hp Ha E. destruct acc as [rs pend]. unfold join_provider in E.
  assert (∃ r, pp_resolve p ctx = r ∧ record_http_peer_provider_result (rs, pend) (pp_name p) r = Ok acc') as (r & Er & E')
    by (destruct (pp_resolve p ctx); [eauto..|done]). clear E.
  unfold record_http_peer_provider_result in E'. case_bool_decide as Hn; [|done]. cbn [negb] in E'.
  assert (∀ x, accounted c ctx x → Forall (accounted c ctx) (rs ++ [x])) as Hadd.
  { intros x Hx. apply Forall_app. split; [exact Ha|]. by constructor. }
  destruct r as [r|e|]; [| |done].
  - case_bool_decide as Hr; [|done]. injection E' as <-. split; [|set_solver]. apply Hadd. exists p. eauto.
  - destruct (RpcErr.is_auth_unavailable e); [|by case_match].
    apply bind_Ok in E' as (x & (Hx1 & Hx2 & Hx3)%without_identity_Ok & [= <-]). split; [|set_solver].
    apply Hadd. exists p. eauto.
Qed.

Lemma provider_results_accounted c sch ctx rs :
  provider_results c sch ctx = Ok rs → Forall (accounted c ctx) rs.
Proof.
  unfold provider_results. intros E. apply bind_Ok in E as (acc & Es & E). apply bind_Ok in E as ([res pend] & Ej & E).
  apply bind_Ok in E as (late & El & [= <-]).
  assert (∀ x, x ∈ with_permits c sch → x.1 ∈ peer_identity_providers c) as Hw.
  { intros [p b] Hx. unfold with_permits in Hx. by apply elem_of_zip_l in Hx. }
  pose (P := fun acc : Pending => Forall (accounted c ctx) acc.1 ∧
                ∀ n, n ∈ acc.2 → ∃ p, p ∈ peer_identity_providers c ∧ pp_name p = n).
  assert (P acc) as Hacc.
  { eapply (try_fold_inv P); [| |exact Es].
    - split; [constructor|set_solver].
    - intros [rs0 pend0] [p b] acc' Hx [Ha Hp] Ex. unfold start_provider in Ex. apply Hw in Hx. simpl in *. destruct b.
      + injection Ex as <-. split; [done|]. simpl. intros n [->%elem_of_singleton|Hn]%elem_of_union; eauto.
      + apply bind_Ok in Ex as (r & (H1 & H2 & H3)%without_identity_Ok & [= <-]). split; [|done].
        apply Forall_app. split; [done|]. constructor; [|done]. exists p. split_and!; [done|congruence|by right]. }
  assert (P (res, pend)) as [Hres Hpend].
  { eapply (try_fold_inv P); [exact Hacc| |exact Ej]. intros acc0 p acc' Hx [Ha Hp] Ex.
    assert (p ∈ peer_identity_providers c) as Hin.
    { unfold joined in Hx. apply list_elem_of_omap in Hx as (n & _ & Hn).
      destruct (with_permits c sch !! n) as [[q []]|] eqn:Eq; try done. injection Hn as <-.
      apply list_elem_of_lookup_2 in Eq. by apply Hw in Eq. }
    destruct (record_inv _ _ _ _ _ Hin Ha Ex) as [H1 H2]. split; [done|]. intros n Hn. by apply Hp, H2. }
  apply Forall_app. split; [done|]. apply mapM_res_Ok in El. apply list.Forall_forall. intros r Hr.
  apply list_elem_of_lookup_1 in Hr as [k Hk]. destruct (Forall2_lookup_r _ _ _ _ _ El Hk) as (n & Hn & Er).
  apply list_elem_of_lookup_2 in Hn. rewrite merge_sort_Permutation, elem_of_elements in Hn.
  destruct (Hpend n Hn) as (p & Hp & Hpn). apply without_identity_Ok in Er as (H1 & H2 & H3).
  exists p. split_and!; [done|congruence|by right].
Qed.

(** What the callback was asked. *)
Definition auth_request (m : list byte) (h : HeaderMap) (peer : option PeerAddr) : AuthRequest :=
  mkAuthRequest m (headers_to_pairs h) (addr_text <$> peer).

(** The identity in force under the application's outcome [existing]. *)
Definition under_policy c (ev : PeerEvidenceSet) (existing final : AuthContext) : Prop :=
  match peer_authentication_policy c with
  | Some policy => policy ev existing = Ok final
  | None => final = existing
  end.

Lemma peer_auth_Ok c h peer sch existing deferred ri :
  peer_auth c h peer sch existing deferred = Ok ri →
  check_credential c h existing deferred = Ok tt ∧ under_policy c (ri_evidence ri) existing (ri_auth ri) ∧
  (deferred ≠ None → authenticated (ri_auth ri) = true) ∧
  ∃ ctx rs, resolution_context c h peer (identity_deadline sch) = Ok ctx ∧ provider_results c sch ctx = Ok rs ∧
    from_results rs = Ok (ri_evidence ri).
Proof.
  unfold peer_auth, under_policy. intros E. apply bind_Ok in E as ([] & Hc & E). apply bind_Ok in E as (ctx & Hx & E).
  apply bind_Ok in E as (rs & Hr & E). apply bind_Ok in E as (ev & He & E). apply bind_Ok in E as (a & Ha & E).
  assert (ri = mkRequestIdentity a ev ∧ (deferred ≠ None → authenticated a = true)) as [-> Hd].
  { destruct (authenticated a); [naive_solver|]. destruct deferred; naive_solver. }
  split_and!; [done| |done|by exists ctx, rs].
  destruct (peer_authentication_policy c) as [pol|]; [|naive_solver]. simpl. by destruct (pol ev existing); naive_solver.
Qed.


(** A refusal says nothing of an error that names no reason but its class. *)
Lemma refusal_hides_message c e msg :
  auth_reason e = None →
  refuse c e = refuse c (mkRpcError (error_type e) msg (traceback e) (err_request_id e) (auth_reason e)
                           (retry_after_seconds e) (error_kind e) (status e)).
Proof. intros Hn. unfold refuse, RpcErr.is_auth_unavailable, rejected_class, refusal_reason, refusal_detail. simpl. by rewrite Hn. Qed.

(** A server without callback, providers or policy refuses a request for a header
    value that is no ASCII text. *)
Lemma anonymous_server_refuses_obs_text c m name v s :
  authenticate c = None → peer_authentication_policy c = None → value_is_text v = false →
  ∃ resp, authenticate_request_from_peer c m [(name, v)] None (mkSchedule [] [] 0) s = (Err resp, s) ∧ rstatus resp = 401.
Proof.
  intros Ha Hp Hv. unfold authenticate_request_from_peer, resolve_identity, application_auth, peer_auth. rewrite Ha.
  unfold check_credential. rewrite Ha. cbn [bool_decide decide is_Some_dec andb mbind res_bind].
  unfold resolution_context, provider_headers. simpl. unfold hget_all. simpl. rewrite bool_decide_eq_true_2 by done.
  simpl. rewrite Hv. simpl. eexists. split; [reflexivity|]. done.
Qed.
End Props.
