(* ===== verification/Http.v ===== *)
(** * HTTP: serving calls

    The request handlers of [vgi-rpc/src/http.rs]: a unary call, the first request of a
    stream and its continuations, whose state travels in sealed tokens. A handler is a
    function of the request and of the process's state; [return resp] before the end
    is the error of the monad [HM], and a panic, which the router's panic layer turns
    into a 500, is its third outcome. Bodies are written into a [Vec], whose write
    errors the source ignores. One request reads the clocks once; the tokens' random
    bytes are arguments. Callbacks act on the application's state and on the session
    sink and registry they reach through their context. The deferral of access-log
    records until the body is final is left out; what the dispatch hook is told is
    kept. *)

From S2P Require Import Prelude Bytes Metadata F64 Json ErrorModel Errors Crypto Auth Sticky StreamTokens PeerIdentity HttpBase HttpAuth.
From S2P Require Import ShmAllocator Ipc IpcWriter Arrow External ShmBatch Dispatch Envelope Stream Serve.

#[local] Open Scope Z_scope.

(** ** The monad *)
Definition HM (S A : Type) : Type := S → res HttpResponse A * S.
#[global] Instance HM_ret S : MRet (HM S) := fun A a s => (Ok a, s).
#[global] Instance HM_bind S : MBind (HM S) := fun A B f m s =>
  match m s with
  | (Ok a, s) => f a s
  | (Err e, s) => (Err e, s)
  | (Panic, s) => (Panic, s)
  end.

Definition h_get {S A} (f : S → A) : HM S A := fun s => (Ok (f s), s).
Definition h_set {S} (f : S → S) : HM S unit := fun s => (Ok tt, f s).

(** [x.unwrap()] *)
Definition unwrap {S A} (r : res RpcError A) : HM S A := fun s =>
  (match r with Ok a => Ok a | _ => Panic end, s).

(** [return resp] *)
Definition respond {S A} (r : res RpcError HttpResponse) : HM S A := fun s =>
  (match r with Ok resp => Err resp | _ => Panic end, s).

(** [match r { Ok(a) => a, Err(e) => return f(e) }] *)
Definition or_respond {S A} (f : RpcError → res RpcError HttpResponse) (r : res RpcError A) : HM S A :=
  match r with
  | Ok a => mret a
  | Err e => respond (f e)
  | Panic => fun s => (Panic, s)
  end.

(** [for x in l { f(x) }] *)
Fixpoint h_each {S A} (f : A → HM S unit) (l : list A) : HM S unit :=
  match l with
  | [] => mret tt
  | x :: l => _ ← f x; h_each f l
  end.

Definition SESSION_HEADER : list byte := bs "vgi-session".
Definition SESSION_ACCEPT_HEADER : list byte := bs "vgi-session-accept".
Definition SESSION_CLOSE_HEADER : list byte := bs "vgi-session-close".
Definition ECHO_HEADER_PREFIX : list byte := bs "vgi-echo-".
Definition SESSION_ENDPOINT : list byte := bs "__session__".
Definition COOKIE : list byte := bs "cookie".
Definition REQUEST_ID_RESPONSE_HEADER : list byte := bs "x-request-id".
Definition FRAMEWORK_TICK_METADATA_KEYS : list (list byte) := [STATE_KEY; CALL_STATE_KEY; CANCEL_KEY].

Definition strip_framework_tick_metadata (md : Metadata) : Metadata :=
  filter (fun kv => kv.1 ∉ FRAMEWORK_TICK_METADATA_KEYS) md.

(** [method.starts_with("__") && method.ends_with("__")] *)
Definition reserved_name (m : list byte) : bool :=
  starts_with (bs "__") m && starts_with (bs "__") (rev m).

Section Http.
Context `{ArrowShm, !Json, !Aead, !Base64, !StreamTokens.Zstd, !External.Zstd, !UrlLib, !HttpLib, !ContentCodecs}.
(** [App]: the application's state; [Sess]: a session's; [St]: a stream's state
    object; [Store]: the external storage; [AS]: the authentication callback's. *)
Context {App Sess St Store AS : Type} `{!ExternalStorage Store, !Fetcher Store}.

(** What handlers may change. *)
Record HApp := mkHApp {
  ha_app : App;
  ha_registry : SessionRegistry Sess;
  ha_sink : option (StickySinkImpl Sess)
}.

(** The [CallContext] of an HTTP call. *)
Record HttpCtx := mkHttpCtx {
  cx_auth : AuthContext;
  cx_evidence : PeerEvidenceSet;
  cx_cookies : Metadata;
  cx_tick : option Metadata;
  cx_limit : option Z;
  cx_preferred : option Z
}.

Abbreviation Uh := (UnaryHandler (App:=HApp) (Conn:=HttpCtx)).

(** A streaming method: its handler, and the decoder of its state. *)
Record HttpStream := mkHttpStream {
  hs_handler : Request → HttpCtx → HApp → res RpcError (StreamResult St) * list LogMessage * HApp;
  state_decoder : option (list byte → res RpcError (StreamStateKind St))
}.

Abbreviation Server := (RpcServer Uh HttpStream).
Abbreviation Method := (MethodInfo Uh HttpStream).

(** [ProducerState] and [ExchangeState] over HTTP. *)
Class HttpStreamState := {
  h_produce : St → HttpCtx → HApp → Turn (St * HApp);
  h_exchange : St → HttpCtx → RecordBatch → HApp → Turn (St * HApp);
  h_on_cancel : StreamStateKind St → HttpCtx → HApp → res RpcError unit * list LogMessage * HApp;
  h_encode_state : StreamStateKind St → res RpcError (list byte)
}.
Context `{!HttpStreamState}.

(** What the dispatch hook is told. *)
Record DispatchInfo := mkDispatchInfo {
  di_request : Request;
  di_auth : AuthContext;
  di_request_id : list byte;
  di_stream_id : list byte;
  di_request_bytes : Z;
  di_shape : option RecordBatch;
  di_cancelled : bool;
  di_request_state : option Z;
  di_response_state : option Z;
  di_externalized : Z
}.
Inductive HttpHook :=
| HttpStart (i : DispatchInfo)
| HttpEnd (i : DispatchInfo) (err : option RpcError) (stats : CallStatistics).

(** [HttpState]: the configuration of a server. *)
Record HttpState := mkHttpState {
  hs_server : Server;
  hs_tokens : TokenState;
  hs_auth : AuthConfig AS;
  hs_limits : Limits;
  hs_sticky : option StickyContext;
  hs_level : option Z
}.

(** The process: [call_states], sessions and application, storage, callback, hook. *)
Record HWorld := mkHWorld {
  hw_calls : CallStates;
  hw_app : HApp;
  hw_ext : XState (S:=Store);
  hw_auth : AS;
  hw_hooks : list HttpHook
}.
Definition set_calls c (w : HWorld) : HWorld := mkHWorld c (hw_app w) (hw_ext w) (hw_auth w) (hw_hooks w).
Definition set_happ a (w : HWorld) : HWorld := mkHWorld (hw_calls w) a (hw_ext w) (hw_auth w) (hw_hooks w).
Definition set_hext x (w : HWorld) : HWorld := mkHWorld (hw_calls w) (hw_app w) x (hw_auth w) (hw_hooks w).
Definition set_hauth s (w : HWorld) : HWorld := mkHWorld (hw_calls w) (hw_app w) (hw_ext w) s (hw_hooks w).
Definition add_http_hook h (w : HWorld) : HWorld :=
  mkHWorld (hw_calls w) (hw_app w) (hw_ext w) (hw_auth w) (hw_hooks w ++ [h]).
Definition set_registry r (w : HWorld) : HWorld := set_happ (mkHApp (ha_app (hw_app w)) r (ha_sink (hw_app w))) w.
Definition set_sink k (w : HWorld) : HWorld := set_happ (mkHApp (ha_app (hw_app w)) (ha_registry (hw_app w)) k) w.

(** What a request draws from outside. *)
Record HEnv := mkHEnv {
  e_peer : option PeerAddr;
  e_schedule : Schedule;
  e_unix : Z;
  e_instant : Z;
  e_fetch_ms : f64;
  e_stream_id : list byte;
  e_call_id : list byte;
  e_call_nonce : list byte;
  e_cursor_nonce : list byte
}.

(** ** Error bodies *)

(** [let _ = w.write(..)] *)
Definition ignored (r : res RpcError unit * StreamWriter) : res RpcError StreamWriter :=
  match r with (Panic, _) => Panic | (_, w) => Ok w end.

(** [x.unwrap()] outside a handler *)
Definition expect {A} (r : res RpcError A) : res RpcError A := match r with Ok a => Ok a | _ => Panic end.

Definition error_stream_bytes (schema : ArrowSchema) (err : RpcError) (sid rid : list byte) (tb : option (list byte))
  : res RpcError (list byte) :=
  w ← expect (stream_writer_new vec schema).1;
  b ← expect (empty_batch schema);
  w ← ignored (stream_writer_write w b (Some (build_error_metadata err sid rid tb)));
  w ← ignored (stream_writer_finish w);
  Ok (sent (sw_writer (stream_writer_drop w))).

Definition cap_error_response (schema : ArrowSchema) (err : RpcError) (sid rid : list byte) (tb : option (list byte))
  : res RpcError HttpResponse :=
  buf ← error_stream_bytes schema err sid rid tb;
  Ok (mkHttpResponse 200 (hinsert RPC_ERROR_HEADER (bs "true") [(CONTENT_TYPE, ARROW_CONTENT_TYPE)]) buf).

Definition response_cap_error : RpcError :=
  RpcErr.with_code ResourceExhausted (RpcErr.new (bs "ResponseTooLargeError") (bs "max_response_bytes (")).
Definition external_cap_error : RpcError :=
  RpcErr.runtime_error (bs "Externalised payload exceeds max_externalized_response_bytes (").

Definition enforce_response_body_cap (limit : option Z) (schema : ArrowSchema) (body sid rid : list byte)
    (tb : option (list byte)) : res RpcError HttpResponse :=
  match limit with
  | Some limit =>
    if limit <? zlen body then cap_error_response schema response_cap_error sid rid tb
    else Ok (arrow_response 200 body)
  | None => Ok (arrow_response 200 body)
  end.

Definition arrow_error (st : HttpState) (status : Z) (rid : list byte) (err : RpcError) : res RpcError HttpResponse :=
  buf ← error_stream_bytes empty_schema err (server_id (hs_server st)) rid (traceback_origin (hs_server st) [] []);
  Ok (arrow_response status buf).

Definition request_decode_error (st : HttpState) (e : RpcError) : res RpcError HttpResponse :=
  arrow_error st (if contains (bs "exceeds max size") (message e) then 413 else 400) [] e.

Definition route_error (st : HttpState) (rid : list byte) (e : RpcError) : res RpcError HttpResponse :=
  arrow_error st (if bool_decide (error_kind e = Some (bs "protocol_not_specified")) then 400 else 404) rid e.

(** ** Sessions *)
Definition sticky_for_request (st : HttpState) (auth : AuthContext) (h : HeaderMap) (e : HEnv) : HM HWorld unit :=
  match hs_sticky st with
  | None => h_set (set_sink None)
  | Some ctx =>
    let accept := match get_text SESSION_ACCEPT_HEADER h with
                  | Some s => eq_ignore_ascii_case (trim s) (bs "true")
                  | None => false end in
    fun w =>
      match Sticky.resolve ctx (ha_registry (hw_app w)) auth accept (get_text SESSION_HEADER h) (e_instant e) with
      | Ok (Sticky.Sink s, r) => (Ok tt, set_sink (Some s) (set_registry r w))
      | Ok (Sticky.Lost err, r) =>
        respond (cap_error_response empty_schema err (server_id (hs_server st)) []
                   (traceback_origin (hs_server st) [] [])) (set_registry r w)
      | _ => (Panic, w)
      end
  end.

Definition echo_header (h : HeaderMap) (nv : list byte * list byte) : HeaderMap :=
  match header_name_from_bytes (ECHO_HEADER_PREFIX ++ nv.1) with
  | Some n => insert_text n nv.2 h
  | None => h
  end.

Definition stamp_session_headers (st : HttpState) (sink : StickySinkImpl Sess) (r : HttpResponse) : HttpResponse :=
  let h := match Sticky.mint_token (Sticky.inner sink) with
           | Some token =>
             let h := insert_text SESSION_HEADER token (rheaders r) in
             match hs_sticky st with Some ctx => foldl echo_header h (Sticky.echo_headers ctx) | None => h end
           | None => rheaders r
           end in
  let h := if Sticky.closed (Sticky.inner sink) then hinsert SESSION_CLOSE_HEADER (bs "true") h else h in
  mkHttpResponse (rstatus r) h (rbody r).

(** [if let Some(s) = sticky_sink.as_ref() { stamp_session_headers(..) }] *)
Definition stamp_session (st : HttpState) (r : HttpResponse) : HM HWorld HttpResponse := fun w =>
  (Ok match ha_sink (hw_app w) with Some s => stamp_session_headers st s r | None => r end, w).

(** ** What every call goes through first *)
Record Accepted := mkAccepted {
  ad_auth : AuthContext;
  ad_evidence : PeerEvidenceSet;
  ad_limit : option Z;
  ad_preferred : option Z;
  ad_body : list byte
}.

Definition authenticate_http (st : HttpState) (e : HEnv) (method : list byte) (h : HeaderMap) : HM HWorld RequestIdentity := fun w =>
  let '(r, s) := authenticate_request_from_peer (hs_auth st) method h (e_peer e) (e_schedule e) (hw_auth w) in
  (r, set_hauth s w).

(** Authentication, the response budget, the content type, the session and the body,
    in this order. *)
Definition accept_request (st : HttpState) (e : HEnv) (method : list byte) (h : HeaderMap) (body : list byte)
  : HM HWorld Accepted :=
  ri ← authenticate_http st e method h;
  '(limit, preferred) ← or_respond (arrow_error st 400 []) (effective_response_budget (hs_limits st) h);
  _ ← (if has_arrow_ct h then mret tt else respond (Ok (plain_error 415 (bs "need arrow content type"))));
  _ ← sticky_for_request st (ri_auth ri) h e;
  body ← or_respond (request_decode_error st) (maybe_decompress h body (request_decode_limit (hs_limits st)));
  mret (mkAccepted (ri_auth ri) (ri_evidence ri) limit preferred body).

(** ** Requests *)

(** The one batch of a body, its stream drained. *)
Definition read_single (body : list byte) : res RpcError (option (RecordBatch * Metadata)) :=
  r ← stream_reader_new [Data body];
  match read_next r with
  | Some (Ok (Some frame, r)) =>
    match drain r with
    | Some (Ok _) => Ok (Some frame)
    | Some (Err e) => Err e
    | _ => Panic
    end
  | Some (Ok (None, _)) => Ok None
  | Some (Err e) => Err e
  | _ => Panic
  end.

Definition parse_request_from_body (body : list byte) : res RpcError Request :=
  frame ← read_single body;
  '(b, md) ← ok_or (RpcErr.protocol_error (bs "empty IPC stream")) frame;
  from_read_batch b md true.

Definition read_input_batch (body : list byte) : res RpcError (RecordBatch * Metadata) :=
  frame ← read_single body;
  ok_or (RpcErr.runtime_error (bs "no batch in exchange request")) frame.

Definition with_protocol (req : Request) (p : list byte) : Request :=
  mkRequest (method req) p (request_id req) (batch req) (metadata req).
Definition with_batch (req : Request) (b : RecordBatch) : Request :=
  mkRequest (method req) (protocol req) (request_id req) b (metadata req).

Definition adopt_path_protocol (req : Request) (path_protocol : option (list byte)) : res RpcError Request :=
  match path_protocol with
  | None => Ok req
  | Some p =>
    if bool_decide (protocol req = []) then Ok (with_protocol req p) else
    if negb (bool_decide (protocol req = p))
    then Err (RpcErr.protocol_error (bs "Protocol mismatch: route names '"))
    else Ok req
  end.

(** The request of a body, reconciled with its route. *)
Definition routed_request (st : HttpState) (path_protocol : option (list byte)) (m body : list byte) : HM HWorld Request :=
  req ← or_respond (arrow_error st 400 []) (parse_request_from_body body);
  _ ← (if bool_decide (method req = m) then mret tt
       else respond (arrow_error st 400 (request_id req)
              (RpcErr.protocol_error (bs "Method mismatch: route names '"))));
  or_respond (arrow_error st 400 (request_id req)) (adopt_path_protocol req path_protocol).

(** Its binding, past the version gate. *)
Definition gated_binding (st : HttpState) (req : Request) : HM HWorld (ResolvedBinding Uh HttpStream) :=
  binding ← or_respond (route_error st (request_id req)) (route (hs_server st) (protocol req));
  _ ← or_respond (arrow_error st 400 (request_id req))
        (validate_protocol_version (rb_name binding) (rb_version binding) (metadata req));
  mret binding.

(** An error stream behind a 200, for the request. *)
Definition error_response (st : HttpState) (schema : ArrowSchema) (req : Request) (e : RpcError) : res RpcError HttpResponse :=
  cap_error_response schema e (server_id (hs_server st)) (request_id req)
    (traceback_origin (hs_server st) (protocol req) (method req)).

(** Parameters sent as an external location. *)
Definition resolve_parameters (st : HttpState) (e : HEnv) (req : Request) : HM HWorld Request :=
  match metadata req !! LOCATION_KEY, external_config (hs_server st) with
  | Some _, Some cfg =>
    store ← h_get (fun w => xstore (hw_ext w));
    '(inner, _) ← or_respond (error_response st empty_schema req)
                    (resolve_external_location (batch req) (metadata req) cfg (e_fetch_ms e) store);
    mret (with_batch req inner)
  | _, _ => mret req
  end.

(** The method, of the wanted kind, and its parameters. *)
Definition find_method (st : HttpState) (binding : ResolvedBinding Uh HttpStream) (want : MethodType → bool)
    (rid m : list byte) : HM HWorld Method :=
  match rb_methods binding !! m with
  | Some info => if want (method_type info) then mret info else respond (arrow_error st 404 rid no_such_method)
  | None => respond (arrow_error st 404 rid no_such_method)
  end.

Definition is_unary (t : MethodType) : bool := match t with Unary => true | _ => false end.

Definition check_parameters (st : HttpState) (req : Request) (info : Method) : HM HWorld unit :=
  or_respond (arrow_error st 400 (request_id req)) (validate_parameter_batch (batch req) (params_schema info)).

(** ** Bodies *)

(** An open stream in the body buffer. *)
Record HResp := mkHResp { hr_writer : StreamWriter; hr_world : HWorld }.

Definition vec_of (buf : list byte) : sink := IpcWriter.mkSink buf [] [] None (Ok tt).

(** [StreamWriter::new(&mut buf, schema).unwrap()], dropped when the scope ends. *)
Definition with_vec {A} (schema : ArrowSchema) (buf : list byte) (body : HM HResp A) : HM HWorld (A * list byte) := fun w =>
  match (stream_writer_new (vec_of buf) schema).1 with
  | Ok sw =>
    let '(r, s) := body (mkHResp sw w) in
    (a ← r; Ok (a, sent (sw_writer (stream_writer_drop (hr_writer s)))), hr_world s)
  | _ => (Panic, w)
  end.

(** [let _ = sw.write(&b, md)], [let _ = sw.finish()] *)
Definition hput (b : RecordBatch) (md : option Metadata) : HM HResp unit := fun s =>
  match ignored (stream_writer_write (hr_writer s) b md) with
  | Ok sw => (Ok tt, mkHResp sw (hr_world s))
  | _ => (Panic, s)
  end.
Definition hfinish : HM HResp unit := fun s =>
  match ignored (stream_writer_finish (hr_writer s)) with
  | Ok sw => (Ok tt, mkHResp sw (hr_world s))
  | _ => (Panic, s)
  end.
Definition in_world {A} (m : HM HWorld A) : HM HResp A := fun s =>
  let '(r, w) := m (hr_world s) in (r, mkHResp (hr_writer s) w).

(** A zero-row batch of the schema with the metadata. *)
Definition hput_empty (schema : ArrowSchema) (md : Metadata) : HM HResp unit :=
  b ← unwrap (empty_batch schema); hput b (Some md).

Definition hput_log (st : HttpState) (req : Request) (schema : ArrowSchema) (log : LogMessage) : HM HResp unit :=
  hput_empty schema (build_log_metadata log (server_id (hs_server st)) (request_id req)).
Definition hput_error (st : HttpState) (req : Request) (schema : ArrowSchema) (e : RpcError) : HM HResp unit :=
  hput_empty schema (build_error_metadata e (server_id (hs_server st)) (request_id req)
                       (traceback_origin (hs_server st) (protocol req) (method req))).

Definition scope_begin_http : HM HWorld Z := fun w =>
  let '(outer, x) := scope_new (hw_ext w) in (Ok outer, set_hext x w).
Definition scope_end_http (outer : Z) : HM HWorld Z := fun w =>
  let '(n, x) := scope_finish outer (hw_ext w) in (Ok n, set_hext x w).

(** The hook's view of the request; the correlation id wins over the wire's. *)
Definition dispatch_info (req : Request) (auth : AuthContext) (h : HeaderMap) (sid : list byte) (bytes : Z)
    (shape : option RecordBatch) : DispatchInfo :=
  let rid := match get_text REQUEST_ID_RESPONSE_HEADER h with
             | Some id => if bool_decide (id = []) then request_id req else id
             | None => request_id req end in
  mkDispatchInfo req auth rid sid bytes shape false None None 0.
Definition with_externalized (n : Z) (i : DispatchInfo) : DispatchInfo :=
  mkDispatchInfo (di_request i) (di_auth i) (di_request_id i) (di_stream_id i) (di_request_bytes i) (di_shape i)
    (di_cancelled i) (di_request_state i) (di_response_state i) n.
(** [set_response_state]: the size only, and nothing for an empty state. *)
Definition with_response_state (state : list byte) (i : DispatchInfo) : DispatchInfo :=
  mkDispatchInfo (di_request i) (di_auth i) (di_request_id i) (di_stream_id i) (di_request_bytes i) (di_shape i)
    (di_cancelled i) (di_request_state i) (if bool_decide (state = []) then None else Some (zlen state)) (di_externalized i).

Definition hooked (st : HttpState) (h : HttpHook) : HM HWorld unit :=
  if dispatch_hook (hs_server st) then h_set (add_http_hook h) else mret tt.

(** ** Unary calls *)

(** Preparing, checking against the cap, then uploading a result: the pointer, and the
    bytes charged. *)
Definition prepare_within (cfg : ExternalLocationConfig) (out : RecordBatch) (schema : ArrowSchema)
    (md : option Metadata) (limit : option Z) : res RpcError (option PreparedExternal) :=
  prepared ← prepare_externalize_batch out schema md cfg;
  match prepared, limit with
  | Some p, _ => Ok (Some p)
  | None, Some limit =>
    forced ← prepare_externalize_batch_forced out schema md cfg;
    Ok (match forced with Some p => if limit <? cap_bytes p then Some p else None | None => None end)
  | None, None => Ok None
  end.

Definition over (n : Z) (cap : option Z) : bool := match cap with Some limit => limit <? n | None => false end.

Definition externalize_unary (st : HttpState) (cfg : ExternalLocationConfig) (out : RecordBatch) (schema : ArrowSchema)
    (limit : option Z) : HM HWorld (res RpcError (option (RecordBatch * Metadata)) * Z) := fun w =>
  match prepare_within cfg out schema None limit with
  | Ok None => (Ok (Ok None, 0), w)
  | Ok (Some p) =>
    if over (cap_bytes p) (max_externalized_response_bytes (hs_limits st)) then (Ok (Err external_cap_error, 0), w) else
    match upload_prepared p cfg (hw_ext w) with
    | (Ok ptr, x) => (Ok (Ok (Some ptr), cap_bytes p), set_hext x w)
    | (Err e, x) => (Ok (Err e, cap_bytes p), set_hext x w)
    | (Panic, x) => (Panic, set_hext x w)
    end
  | Err e => (Ok (Err e, 0), w)
  | Panic => (Panic, w)
  end.

(** Callbacks run under [call_guard], outside the async workers. *)
Definition run_unary_http (info : Method) (req : Request) (cx : HttpCtx)
  : HM HWorld (res RpcError (option RecordBatch) * list LogMessage * option ExternalRef) := fun w =>
  match mi_unary info with
  | Some f => let o := f req cx (hw_app w) in
              (Ok (call_guard (u_result o), u_logs o, u_external_ref o), set_happ (u_app o) w)
  | None => (Ok (Err handler_panicked, [], None), w)
  end.

(** What became of the body: the application error it carries, the output statistics and
    the bytes charged to storage. *)
Record UnaryBody := mkUnaryBody { ub_err : option RpcError; ub_batches : Z; ub_rows : Z; ub_external : Z }.

Definition unary_result (st : HttpState) (req : Request) (info : Method) (limit : option Z)
    (result : res RpcError (option RecordBatch)) (ref : option ExternalRef) : HM HResp UnaryBody :=
  let schema := result_schema info in
  match result, ref with
  | Ok _, Some r =>
    match pointer_batch r schema with
    | Ok (p, md) => _ ← hput p (Some md); mret (mkUnaryBody None 1 0 0)
    | Err e => _ ← hput_error st req schema e; mret (mkUnaryBody (Some e) 1 0 0)
    | Panic => fun s => (Panic, s)
    end
  | Ok maybe, None =>
    out ← match maybe with Some b => mret b | None => unwrap (empty_batch schema) end;
    match external_config (hs_server st) with
    | Some cfg =>
      '(x, charged) ← in_world (externalize_unary st cfg out schema limit);
      match x with
      | Ok (Some (p, md)) => _ ← hput p (Some md); mret (mkUnaryBody None 1 (num_rows out) charged)
      | Ok None => _ ← hput out None; mret (mkUnaryBody None 1 (num_rows out) charged)
      | Err e => _ ← hput_error st req schema e; mret (mkUnaryBody (Some e) 1 (num_rows out) charged)
      | Panic => fun s => (Panic, s)
      end
    | None => _ ← hput out None; mret (mkUnaryBody None 1 (num_rows out) 0)
    end
  | Err e, _ => _ ← hput_error st req schema e; mret (mkUnaryBody (Some e) 0 0 0)
  | Panic, _ => fun s => (Panic, s)
  end.

Definition unary_body (st : HttpState) (req : Request) (info : Method) (limit : option Z)
    (result : res RpcError (option RecordBatch)) (logs : list LogMessage) (ref : option ExternalRef) : HM HResp UnaryBody :=
  _ ← h_each (hput_log st req (result_schema info)) logs;
  b ← unary_result st req info limit result ref;
  _ ← hfinish;
  mret b.

(** The overshoot of either cap. *)
Definition unary_cap_error (st : HttpState) (limit : option Z) (body : list byte) (charged : Z) : option RpcError :=
  if over (zlen body) limit then Some response_cap_error
  else if over charged (max_externalized_response_bytes (hs_limits st)) then Some external_cap_error else None.

(** The call itself, once its method is known. *)
Definition unary_call (st : HttpState) (h : HeaderMap) (wire_bytes : Z) (req : Request) (info : Method) (ad : Accepted)
  : HM HWorld HttpResponse :=
  let cx := mkHttpCtx (ad_auth ad) (ad_evidence ad) (parse_cookies (get_text COOKIE h)) None (ad_limit ad) (ad_preferred ad) in
  let info0 := dispatch_info req (ad_auth ad) h [] wire_bytes (Some (batch req)) in
  _ ← hooked st (HttpStart info0);
  outer ← scope_begin_http;
  '(result, logs, ref) ← run_unary_http info req cx;
  '(ub, buf) ← with_vec (result_schema info) [] (unary_body st req info (ad_limit ad) result logs ref);
  ext ← scope_end_http outer;
  _ ← hooked st (HttpEnd (with_externalized ext info0) (ub_err ub) (mkStats 1 (num_rows (batch req)) (ub_batches ub) (ub_rows ub)));
  match unary_cap_error st (ad_limit ad) buf (ub_external ub) with
  | Some err => resp ← unwrap (error_response st (result_schema info) req err); stamp_session st resp
  | None =>
    let resp := arrow_response 200 buf in
    stamp_session st (match ub_err ub with Some _ => stamp_rpc_error resp | None => resp end)
  end.

(** [serve_reflection_logged]: the reflection protocol's answer, a stream of its own. *)
Context (serve_reflection_logged : Server → Request → HttpCtx → HApp → res RpcError (list byte) * HApp).

Definition reflect_call (st : HttpState) (h : HeaderMap) (req : Request) (ad : Accepted) : HM HWorld HttpResponse :=
  let cx := mkHttpCtx (ad_auth ad) (ad_evidence ad) (parse_cookies (get_text COOKIE h)) None None None in
  r ← (fun w => let '(r, a) := serve_reflection_logged (hs_server st) req cx (hw_app w) in (Ok r, set_happ a w));
  buf ← or_respond (arrow_error st 500 (request_id req)) r;
  unwrap (enforce_response_body_cap (ad_limit ad) empty_schema buf (server_id (hs_server st)) (request_id req)
            (traceback_origin (hs_server st) (protocol req) (method req))).

(** A path without a protocol is answered only for the retired method. *)
Definition unrouted_error (m : list byte) : RpcError :=
  if reserved_name m
  then RpcErr.method_not_implemented (bs "This server does not implement the reserved method ")
  else protocol_not_specified.

Definition unary_dispatch (st : HttpState) (e : HEnv) (path_protocol : option (list byte)) (m : list byte)
    (h : HeaderMap) (body : list byte) : HM HWorld HttpResponse :=
  ad ← accept_request st e m h body;
  req ← routed_request st path_protocol m (ad_body ad);
  _ ← match path_protocol with
      | None => if bool_decide (m = RETIRED_DESCRIBE_METHOD) then mret tt
                else respond (route_error st (request_id req) (unrouted_error m))
      | Some _ => mret tt
      end;
  if bool_decide (m = RETIRED_DESCRIBE_METHOD) then respond (arrow_error st 404 (request_id req) describe_retired) else
  if bool_decide (protocol req = REFLECTION_PROTOCOL_NAME) then reflect_call st h req ad else
  binding ← gated_binding st req;
  req ← resolve_parameters st e req;
  info ← find_method st binding is_unary (request_id req) m;
  _ ← check_parameters st req info;
  unary_call st h (zlen body) req info ad.

(** ** Externalizing a stream's batches *)
Inductive StreamEmit := Pointer (b : RecordBatch) (md : Metadata) | Inline | EmitFailed (e : RpcError).

(** [cum]: what the turn has charged so far. *)
Definition externalize_stream_batch (st : HttpState) (b : RecordBatch) (schema : ArrowSchema) (md : option Metadata)
    (cum : Z) (limit : option Z) : HM HWorld (StreamEmit * Z) := fun w =>
  match external_config (hs_server st) with
  | None => (Ok (Inline, cum), w)
  | Some cfg =>
    match prepare_within cfg b schema md limit with
    | Ok None => (Ok (Inline, cum), w)
    | Ok (Some p) =>
      let upload : res HttpResponse (StreamEmit * Z) * HWorld :=
        match upload_prepared p cfg (hw_ext w) with
        | (Ok (ptr, pmd), x) =>
          match uadd (E:=RpcError) cum (cap_bytes p) with
          | Ok cum => (Ok (Pointer ptr pmd, cum), set_hext x w)
          | _ => (Panic, set_hext x w)
          end
        | (Err e, x) => (Ok (EmitFailed e, cum), set_hext x w)
        | (Panic, x) => (Panic, set_hext x w)
        end in
      match max_externalized_response_bytes (hs_limits st) with
      | Some cap =>
        match uadd (E:=RpcError) cum (cap_bytes p) with
        | Ok projected => if cap <? projected then (Ok (EmitFailed external_cap_error, cum), w) else upload
        | _ => (Panic, w)
        end
      | None => upload
      end
    | Err e => (Ok (EmitFailed e, cum), w)
    | Panic => (Panic, w)
    end
  end.

(** What a turn wrote: the failure that stopped it, and its data batches and rows. *)
Record Flushed := mkFlushed { fl_err : option RpcError; fl_batches : Z; fl_rows : Z }.

(** The items of a turn, each data batch under the metadata [stamp] makes of its own. *)
Fixpoint flush_items (st : HttpState) (req : Request) (schema : ArrowSchema) (limit : option Z)
    (stamp : option Metadata → option Metadata) (cum batches rows : Z) (l : list Emitted) : HM HResp Flushed :=
  match l with
  | [] => mret (mkFlushed None batches rows)
  | ELog log :: l => _ ← hput_log st req schema log; flush_items st req schema limit stamp cum batches rows l
  | EBatch b md :: l =>
    let md := stamp md in
    '(x, cum) ← in_world (externalize_stream_batch st b schema md cum limit);
    match x with
    | Pointer p pmd => _ ← hput p (Some pmd); flush_items st req schema limit stamp cum (batches + 1) (rows + num_rows b) l
    | Inline => _ ← hput b md; flush_items st req schema limit stamp cum (batches + 1) (rows + num_rows b) l
    | EmitFailed e => _ ← hput_error st req schema e; mret (mkFlushed (Some e) batches rows)
    end
  end.

(** ** Stream turns *)

(** [call_guard] around a method of the stream's state, on a fresh collector. *)
Definition run_http_turn (schema : ArrowSchema) (producer : bool) (cx : HttpCtx) (t : HApp → Turn (St * HApp))
  : HM HWorld (res RpcError unit * St * OutputCollector * list LogMessage) := fun w =>
  let out := set_response_budget (cx_limit cx) (cx_preferred cx) (collector_new schema producer) in
  let '(r, (x, app), out, logs) := run_turn (t (hw_app w)) out [] in
  (Ok (call_guard r, x, out, logs), set_happ app w).

Record ProducerTurn := mkProducerTurn { pt_finished : bool; pt_error : option RpcError; pt_batches : Z; pt_rows : Z }.

(** The state after the turn comes with it; the cookies are not passed on. *)
Definition run_producer (st : HttpState) (req : Request) (schema : ArrowSchema) (auth : AuthContext)
    (evidence : PeerEvidenceSet) (x : St) (tick : Metadata) (limit preferred : option Z) : HM HResp (ProducerTurn * St) :=
  let cx := mkHttpCtx auth evidence ∅ (Some tick) limit preferred in
  '(result, x, out, logs) ← in_world (run_http_turn schema true cx (h_produce x cx));
  _ ← h_each (hput_log st req schema) logs;
  match result with
  | Err e => _ ← hput_error st req schema e; mret (mkProducerTurn true (Some e) 0 0, x)
  | Panic => fun s => (Panic, s)
  | Ok _ =>
    fl ← flush_items st req schema limit id 0 0 0 (items out);
    mret (match fl_err fl with
          | Some e => mkProducerTurn true (Some e) (fl_batches fl) (fl_rows fl)
          | None => mkProducerTurn (oc_finished out || (fl_batches fl =? 0)) None (fl_batches fl) (fl_rows fl)
          end, x)
  end.

(** ** Tokens *)
Definition write_schema_bytes (schema : ArrowSchema) : res RpcError (list byte) :=
  b ← empty_batch schema; write_one_batch vec b None.

Definition read_schema_bytes (bytes : list byte) : res RpcError ArrowSchema :=
  r ← stream_reader_new [Data bytes]; Ok (sr_schema r).

Definition build_cursor_token (st : HttpState) (e : HEnv) (auth : AuthContext) (ss : StreamStateKind St) (cid : list byte)
  : res RpcError (list byte * list byte) :=
  state ← call_guard (h_encode_state ss);
  Ok (state_pack_cursor_token (hs_tokens st) auth state cid (e_unix e) (e_cursor_nonce e), state).

(** The call token is minted, and the cache warmed, before the state is encoded. *)
Definition build_init_tokens (st : HttpState) (e : HEnv) (auth : AuthContext) (ss : StreamStateKind St)
    (output : ArrowSchema) (input : option ArrowSchema) (limit preferred : option Z)
  : HM HWorld (res RpcError (list byte * list byte * list byte)) := fun w =>
  match (o ← write_schema_bytes output;
         i ← match input with Some s => write_schema_bytes s | None => Ok [] end;
         Ok (StreamTokens.mkResolvedCall o i (bytes_to_hex (e_stream_id e)) limit preferred)) with
  | Ok resolved =>
    let '(call_token, calls) := state_pack_call_token (hs_tokens st) (hw_calls w) auth (e_call_id e) resolved
                                  (e_unix e) (e_call_nonce e) in
    (Ok ('(cursor, state) ← build_cursor_token st e auth ss (e_call_id e); Ok (cursor, call_token, state)), set_calls calls w)
  | Err er => (Ok (Err er), w)
  | Panic => (Panic, w)
  end.

(** ** The first request of a stream *)
Definition run_stream_http (info : Method) (req : Request) (cx : HttpCtx)
  : HM HWorld (res RpcError (StreamResult St) * list LogMessage) := fun w =>
  match mi_stream info with
  | Some h => let '(r, logs, app) := hs_handler h req cx (hw_app w) in (Ok (call_guard r, logs), set_happ app w)
  | None => (Ok (Err handler_panicked, []), w)
  end.

(** The part of a stream's record the turn fills in. *)
Record TurnRecord := mkTurnRecord {
  tr_error : option RpcError;
  tr_batches : Z;
  tr_rows : Z;
  tr_state : list byte
}.

(** Minting the tokens that carry the stream on, or saying why not. *)
Definition init_tokens_item (st : HttpState) (e : HEnv) (req : Request) (auth : AuthContext) (ss : StreamStateKind St)
    (output : ArrowSchema) (input : option ArrowSchema) (limit preferred : option Z) (batches rows : Z) : HM HResp TurnRecord :=
  t ← in_world (build_init_tokens st e auth ss output input limit preferred);
  match t with
  | Ok (cursor, call_token, state) =>
    _ ← hput_empty output (<[CALL_STATE_KEY := call_token]> {[STATE_KEY := cursor]});
    mret (mkTurnRecord None batches rows state)
  | Err er => _ ← hput_error st req output er; mret (mkTurnRecord (Some er) batches rows [])
  | Panic => fun s => (Panic, s)
  end.

(** A producer's first turn; an exchange waits for its input. *)
Definition first_turn (st : HttpState) (e : HEnv) (req : Request) (ad : Accepted) (sr : StreamResult St) : HM HResp TurnRecord :=
  let output := output_schema sr in
  match stream_state sr with
  | SProducer x =>
    '(turn, x) ← run_producer st req output (ad_auth ad) (ad_evidence ad) x (metadata req) (ad_limit ad) (ad_preferred ad);
    if pt_finished turn then mret (mkTurnRecord (pt_error turn) (pt_batches turn) (pt_rows turn) [])
    else init_tokens_item st e req (ad_auth ad) (SProducer x) output (input_schema sr) (ad_limit ad) (ad_preferred ad)
           (pt_batches turn) (pt_rows turn)
  | SExchange x =>
    init_tokens_item st e req (ad_auth ad) (SExchange x) output (input_schema sr) (ad_limit ad) (ad_preferred ad) 0 0
  end.

Definition init_body (st : HttpState) (e : HEnv) (req : Request) (ad : Accepted) (sr : StreamResult St)
    (logs : list LogMessage) : HM HResp TurnRecord :=
  _ ← match header sr with None => h_each (hput_log st req (output_schema sr)) logs | Some _ => mret tt end;
  tr ← first_turn st e req ad sr;
  _ ← hfinish;
  mret tr.

(** The header stream, in front of the output stream. *)
Definition header_stream (st : HttpState) (req : Request) (sr : StreamResult St) (logs : list LogMessage)
  : HM HWorld (list byte) :=
  match header sr with
  | None => mret []
  | Some hb =>
    '(_, buf) ← with_vec (batch_schema hb) []
        (_ ← h_each (hput_log st req (batch_schema hb)) logs; _ ← hput hb (header_metadata sr); hfinish);
    mret buf
  end.

(** The end of a turn: what was uploaded is read off when there is a record, the body
    is capped, flagged and stamped, and the hook is told. *)
Definition finish_turn (st : HttpState) (req : Request) (info0 : DispatchInfo) (outer : Z) (schema : ArrowSchema)
    (limit : option Z) (rid : list byte) (tb : option (list byte)) (buf : list byte) (tr : TurnRecord) (rows_in : Z)
  : HM HWorld HttpResponse :=
  ext ← (if dispatch_hook (hs_server st) then scope_end_http outer else mret 0);
  resp ← unwrap (enforce_response_body_cap limit schema buf (server_id (hs_server st)) rid tb);
  resp ← stamp_session st (match tr_error tr with Some _ => stamp_rpc_error resp | None => resp end);
  _ ← hooked st (HttpEnd (with_externalized ext (with_response_state (tr_state tr) info0)) (tr_error tr)
                   (mkStats 1 rows_in (tr_batches tr) (tr_rows tr)));
  mret resp.

(** A turn that failed before its body: no session header is stamped, and the record
    keeps its defaults. *)
Definition fail_turn (st : HttpState) (info0 : DispatchInfo) (e : RpcError) (buf : list byte) (rows_in : Z)
  : HM HWorld HttpResponse :=
  _ ← hooked st (HttpEnd info0 (Some e) (mkStats 1 rows_in 0 0));
  mret (stamp_rpc_error (arrow_response 200 buf)).

Definition init_call (st : HttpState) (e : HEnv) (h : HeaderMap) (wire_bytes : Z) (req : Request) (info : Method)
    (ad : Accepted) : HM HWorld HttpResponse :=
  let rows_in := num_rows (batch req) in
  let tb := traceback_origin (hs_server st) (protocol req) (method req) in
  let info0 := dispatch_info req (ad_auth ad) h (bytes_to_hex (e_stream_id e)) wire_bytes (Some (batch req)) in
  _ ← hooked st (HttpStart info0);
  outer ← scope_begin_http;
  let cx := mkHttpCtx (ad_auth ad) (ad_evidence ad) (parse_cookies (get_text COOKIE h)) None (ad_limit ad) (ad_preferred ad) in
  '(init, logs) ← run_stream_http info req cx;
  match init with
  | Err er =>
    buf ← unwrap (error_stream_bytes empty_schema er (server_id (hs_server st)) (request_id req) tb);
    fail_turn st info0 er buf rows_in
  | Panic => fun w => (Panic, w)
  | Ok sr =>
    head_bytes ← header_stream st req sr logs;
    '(tr, buf) ← with_vec (output_schema sr) head_bytes (init_body st e req ad sr logs);
    finish_turn st req info0 outer (output_schema sr) (ad_limit ad) (request_id req) tb buf tr rows_in
  end.

Definition stream_init_dispatch (st : HttpState) (e : HEnv) (path_protocol : option (list byte)) (m : list byte)
    (h : HeaderMap) (body : list byte) : HM HWorld HttpResponse :=
  ad ← accept_request st e m h body;
  req ← routed_request st path_protocol m (ad_body ad);
  binding ← gated_binding st req;
  req ← resolve_parameters st e req;
  info ← find_method st binding (fun t => negb (is_unary t)) (request_id req) m;
  _ ← check_parameters st req info;
  init_call st e h (zlen body) req info ad.

(** ** Continuations *)

(** The input, fetched where it was uploaded: metadata of both sides is kept. *)
Definition resolve_input (st : HttpState) (e : HEnv) (b : RecordBatch) (md : Metadata) : HM HWorld (RecordBatch * Metadata) :=
  match md !! LOCATION_KEY, external_config (hs_server st) with
  | Some _, Some cfg =>
    store ← h_get (fun w => xstore (hw_ext w));
    or_respond (fun er => cap_error_response empty_schema er (server_id (hs_server st)) []
                            (traceback_origin (hs_server st) [] []))
      (resolve_external_location b md cfg (e_fetch_ms e) store)
  | _, _ => mret (b, md)
  end.

(** What the tokens say: the state, the call's id, and what is fixed for the call. *)
Record Continuation := mkContinuation {
  ct_cursor : UnpackedCursor;
  ct_call : ResolvedCall;
  ct_output : ArrowSchema;
  ct_input : option ArrowSchema
}.

Definition missing_state : RpcError := RpcErr.runtime_error (bs "Missing state token in exchange request").

(** The cursor is opened first: the call it names is looked up only once it is
    authentic. *)
Definition open_tokens (st : HttpState) (e : HEnv) (auth : AuthContext) (md : Metadata) : HM HWorld Continuation :=
  token ← or_respond (arrow_error st 400 []) (ok_or missing_state (md !! STATE_KEY));
  cursor ← or_respond (arrow_error st 400 []) (state_unpack_cursor_token (hs_tokens st) auth token (e_unix e));
  r ← (fun w => let '(r, calls) := resolve_call (hs_tokens st) (hw_calls w) auth cursor (md !! CALL_STATE_KEY) (e_unix e) in
                (Ok r, set_calls calls w));
  call ← or_respond (arrow_error st 400 []) r;
  output ← or_respond (arrow_error st 400 []) (read_schema_bytes (output_schema_bytes call));
  input ← (if bool_decide (input_schema_bytes call = []) then mret None
           else s ← or_respond (arrow_error st 400 []) (read_schema_bytes (input_schema_bytes call)); mret (Some s));
  mret (mkContinuation cursor call output input).

(** The budget of the turn: what the call was opened under, and this request's. *)
Definition turn_budget (limit preferred : option Z) (call : ResolvedCall) : option Z * option Z :=
  let limit := min_some [limit; StreamTokens.response_limit_bytes call] in
  (limit, clamp_preferred limit (min_some [preferred; StreamTokens.preferred_response_bytes call])).

Definition no_decoder : RpcError := RpcErr.runtime_error (bs "Stream method '").
Definition undecodable (e : RpcError) : RpcError :=
  RpcErr.runtime_error (bs "Stream state could not be decoded (" ++ error_type e ++ bs ")").

(** The method's state, out of the cursor. *)
Definition decode_state (st : HttpState) (path_protocol : option (list byte)) (m state : list byte)
  : HM HWorld (StreamStateKind St) :=
  binding ← or_respond (route_error st []) (route (hs_server st) (default [] path_protocol));
  info ← find_method st binding (fun t => negb (is_unary t)) [] m;
  decoder ← or_respond (arrow_error st 500 []) (ok_or no_decoder (mi_stream info ≫= state_decoder));
  or_respond (fun er => arrow_error st 400 [] (undecodable er)) (call_guard (decoder state)).

(** [CANCEL_KEY]: the state's [on_cancel], and its logs. *)
Definition cancel_body (st : HttpState) (req : Request) (schema : ArrowSchema) (ss : StreamStateKind St) (cx : HttpCtx)
  : HM HWorld (TurnRecord * list byte) :=
  '(r, logs) ← (fun w => let '(r, logs, app) := h_on_cancel ss cx (hw_app w) in (Ok (call_guard r, logs), set_happ app w));
  with_vec schema []
    (_ ← h_each (hput_log st req schema) logs;
     tr ← match r with
          | Err er => _ ← hput_error st req schema er; mret (mkTurnRecord (Some er) 0 0 [])
          | _ => mret (mkTurnRecord None 0 0 [])
          end;
     _ ← hfinish;
     mret tr).

(** A producer's next turn, with a new cursor unless the stream is over. *)
Definition producer_body (st : HttpState) (e : HEnv) (req : Request) (schema : ArrowSchema) (auth : AuthContext)
    (evidence : PeerEvidenceSet) (x : St) (tick : Metadata) (cid : list byte) (limit preferred : option Z)
  : HM HResp TurnRecord :=
  '(turn, x) ← run_producer st req schema auth evidence x tick limit preferred;
  tr ← (if pt_finished turn then mret (mkTurnRecord (pt_error turn) (pt_batches turn) (pt_rows turn) []) else
        match build_cursor_token st e auth (SProducer x) cid with
        | Ok (token, state) =>
          _ ← hput_empty schema {[STATE_KEY := token]};
          mret (mkTurnRecord (pt_error turn) (pt_batches turn) (pt_rows turn) state)
        | Err er => _ ← hput_error st req schema er; mret (mkTurnRecord (Some er) (pt_batches turn) (pt_rows turn) [])
        | Panic => fun s => (Panic, s)
        end);
  _ ← hfinish;
  mret tr.

(** The refreshed cursor rides on the turn's data batch, or on a batch of its own. *)
Definition stamp_cursor (token : list byte) (md : option Metadata) : option Metadata :=
  Some (<[STATE_KEY := token]> (default ∅ md)).

(** An exchange turn after the handler returned; [inl]: the cursor could not be minted. *)
Definition exchange_output (st : HttpState) (e : HEnv) (req : Request) (schema : ArrowSchema) (auth : AuthContext)
    (x : St) (out : OutputCollector) (cid : list byte) (limit : option Z) : HM HResp (RpcError + TurnRecord) :=
  match build_cursor_token st e auth (SExchange x) cid with
  | Ok (token, state) =>
    fl ← flush_items st req schema limit (stamp_cursor token) 0 0 0 (items out);
    _ ← (if (fl_batches fl =? 0) && negb (bool_decide (is_Some (fl_err fl)))
         then hput_empty schema {[STATE_KEY := token]} else mret tt);
    mret (inr (mkTurnRecord (fl_err fl) (fl_batches fl) (fl_rows fl)
                 (match fl_err fl with Some _ => [] | None => state end)))
  | Err er => _ ← hput_error st req schema er; mret (inl er)
  | Panic => fun s => (Panic, s)
  end.

Definition exchange_body (st : HttpState) (e : HEnv) (req : Request) (schema : ArrowSchema) (auth : AuthContext)
    (result : res RpcError unit) (x : St) (out : OutputCollector) (logs : list LogMessage) (cid : list byte)
    (limit : option Z) : HM HResp (RpcError + TurnRecord) :=
  _ ← h_each (hput_log st req schema) logs;
  r ← match result with
      | Err er => _ ← hput_error st req schema er; mret (inr (mkTurnRecord (Some er) 0 0 []))
      | Panic => fun s => (Panic, s)
      | Ok _ => exchange_output st e req schema auth x out cid limit
      end;
  _ ← hfinish;
  mret r.

(** The input cast to the declared schema; [inl]: the body that says why not. *)
Definition cast_exchange (st : HttpState) (req : Request) (schema : ArrowSchema) (input : option ArrowSchema)
    (b : RecordBatch) : HM HWorld (RpcError * list byte + RecordBatch) :=
  match input with
  | Some expected =>
    if bool_decide (batch_schema b = expected) then mret (inr b) else
    match cast_batch b expected with
    | Ok b => mret (inr b)
    | Err er =>
      '(_, buf) ← with_vec schema [] (_ ← hput_error st req schema er; hfinish);
      mret (inl (er, buf))
    | Panic => fun w => (Panic, w)
    end
  | None => mret (inr b)
  end.

(** The turn of an exchange. *)
Definition exchange_turn (st : HttpState) (e : HEnv) (req : Request) (info0 : DispatchInfo) (outer : Z) (ct : Continuation)
    (auth : AuthContext) (cx : HttpCtx) (x : St) (b : RecordBatch) (limit : option Z) : HM HWorld HttpResponse :=
  let rows_in := num_rows b in
  casted ← cast_exchange st req (ct_output ct) (ct_input ct) b;
  match casted with
  | inl (er, buf) => fail_turn st info0 er buf rows_in
  | inr casted =>
    '(result, x, out, logs) ← run_http_turn (ct_output ct) false cx (fun app => h_exchange x cx casted app);
    '(r, buf) ← with_vec (ct_output ct) []
        (exchange_body st e req (ct_output ct) auth result x out logs (call_id (ct_cursor ct)) limit);
    match r with
    | inl er => fail_turn st info0 er buf rows_in
    | inr tr => finish_turn st req info0 outer (ct_output ct) limit [] (traceback_origin (hs_server st) [] []) buf tr rows_in
    end
  end.

(** The request a continuation stands for. *)
Definition continuation_request (m : list byte) (md : Metadata) (b : RecordBatch) : Request :=
  mkRequest m (default [] (md !! PROTOCOL_KEY)) (default [] (md !! REQUEST_ID_KEY)) b md.

Definition stream_exchange_dispatch (st : HttpState) (e : HEnv) (path_protocol : option (list byte)) (m : list byte)
    (h : HeaderMap) (body : list byte) : HM HWorld HttpResponse :=
  ad ← accept_request st e m h body;
  '(b, md) ← or_respond (arrow_error st 400 []) (read_input_batch (ad_body ad));
  '(b, md) ← resolve_input st e b md;
  let auth := ad_auth ad in
  let cancelled := bool_decide (is_Some (md !! CANCEL_KEY)) in
  ct ← open_tokens st e auth md;
  let '(limit, preferred) := turn_budget (ad_limit ad) (ad_preferred ad) (ct_call ct) in
  ss ← decode_state st path_protocol m (state_bytes (ct_cursor ct));
  eb ← unwrap (empty_batch empty_schema);
  let req0 := continuation_request m md eb in
  req ← or_respond (arrow_error st 400 (request_id req0)) (adopt_path_protocol req0 path_protocol);
  let i := dispatch_info req auth h (stream_id (ct_call ct)) (zlen body) None in
  let rows_in := num_rows b in
  _ ← hooked st (HttpStart i);
  let info0 := mkDispatchInfo (di_request i) (di_auth i) (di_request_id i) (di_stream_id i) (di_request_bytes i) (di_shape i)
                 cancelled (Some (zlen (state_bytes (ct_cursor ct)))) None 0 in
  outer ← scope_begin_http;
  let cookies := parse_cookies (get_text COOKIE h) in
  let tick := strip_framework_tick_metadata md in
  let tb := traceback_origin (hs_server st) (protocol req) (method req) in
  if cancelled then
    '(tr, buf) ← cancel_body st req (ct_output ct) ss (mkHttpCtx auth (ad_evidence ad) cookies None limit preferred);
    finish_turn st req info0 outer (ct_output ct) limit (request_id req) tb buf tr rows_in
  else
  match ss with
  | SProducer x =>
    '(tr, buf) ← with_vec (ct_output ct) []
        (producer_body st e req (ct_output ct) auth (ad_evidence ad) x tick (call_id (ct_cursor ct)) limit preferred);
    finish_turn st req info0 outer (ct_output ct) limit (request_id req) tb buf tr rows_in
  | SExchange x =>
    exchange_turn st e req info0 outer ct auth (mkHttpCtx auth (ad_evidence ad) cookies (Some tick) limit preferred) x b limit
  end.

(** ** Closing a session *)
Definition delete_session (st : HttpState) (e : HEnv) (h : HeaderMap) (auth : AuthContext) : HM HWorld HttpResponse :=
  match hs_sticky st with
  | None => mret (mkHttpResponse 200 [] [])
  | Some ctx => fun w =>
    match Sticky.handle_delete ctx (ha_registry (hw_app w)) auth (get_text SESSION_HEADER h) (e_instant e) with
    | Ok (Sticky.Idempotent, r) => (Ok (mkHttpResponse 200 [] []), set_registry r w)
    | Ok (Sticky.Closed, r) => (Ok (mkHttpResponse 204 [(SESSION_CLOSE_HEADER, bs "true")] []), set_registry r w)
    | _ => (Panic, w)
    end
  end.

Definition handle_delete_session (st : HttpState) (e : HEnv) (h : HeaderMap) : HM HWorld HttpResponse :=
  ri ← authenticate_http st e SESSION_ENDPOINT h;
  delete_session st e h (ri_auth ri).

(** ** The calls of the router *)
Inductive HttpCall := CallUnary | CallInit | CallExchange.

(** [POST {prefix}/{method}], [/{protocol}/{method}], [/init] and [/exchange] under it. *)
Definition serve_call (c : HttpCall) (st : HttpState) (e : HEnv) (path_protocol : option (list byte)) (m : list byte)
    (h : HeaderMap) (body : list byte) : HM HWorld HttpResponse :=
  match c with
  | CallUnary => unary_dispatch st e path_protocol m h body
  | CallInit => stream_init_dispatch st e path_protocol m h body
  | CallExchange => stream_exchange_dispatch st e path_protocol m h body
  end.
End Http.
