(* ===== verification/HttpProps.v ===== *)
(** * HTTP responses: what is promised of every answer

    A small logic for handlers that may answer early, and the response budget: an
    answer that is not marked as an error is within what the client and the operator
    agreed on. *)

From S2P Require Import Prelude Bytes Metadata F64 Json ErrorModel Errors Crypto Auth Sticky StreamTokens PeerIdentity HttpBase HttpBaseProps HttpAuth.
From S2P Require Import ShmAllocator Ipc IpcWriter Arrow External ShmBatch Dispatch Envelope Stream Serve Http.

#[local] Open Scope Z_scope.

(** ** Handlers that may answer early *)

(** Every early answer of [m] satisfies [P], every value it returns [Q]. *)
Definition yields {S A} (P : HttpResponse → Prop) (Q : A → Prop) (m : HM S A) : Prop :=
  ∀ s r s', m s = (r, s') → match r with Ok a => Q a | Err resp => P resp | Panic => True end.

Section Yields.
Context {S : Type} (P : HttpResponse → Prop).

Lemma yields_bind {A B} (Q : A → Prop) (R : B → Prop) (m : HM S A) (f : A → HM S B) :
  yields P Q m → (∀ a, Q a → yields P R (f a)) → yields P R (m ≫= f).
Proof.
  intros Hm Hf s r s' E. unfold mbind, HM_bind in E. destruct (m s) as [[a|resp|] s1] eqn:Em.
  - apply Hm in Em. by eapply Hf.
  - apply Hm in Em. by injection E as <- _.
  - by injection E as <- _.
Qed.

Lemma yields_ret {A} (Q : A → Prop) (a : A) : Q a → yields P Q (mret (M:=HM S) a).
Proof. intros Ha s r s' [= <- _]. done. Qed.

Lemma yields_impl {A} (Q Q' : A → Prop) (m : HM S A) : yields P Q m → (∀ a, Q a → Q' a) → yields P Q' m.
Proof. intros Hm HQ s r s' E. apply Hm in E. destruct r; auto. Qed.

(** A step that never answers. *)
Lemma yields_quiet {A} (m : HM S A) : (∀ s resp s', m s ≠ (Err resp, s')) → yields P (fun _ => True) m.
Proof. intros Hm s r s' E. destruct r as [|resp|]; [done| |done]. by apply Hm in E. Qed.

Lemma yields_respond {A} (Q : A → Prop) (r : res RpcError HttpResponse) :
  (∀ resp, r = Ok resp → P resp) → yields P Q (respond (S:=S) (A:=A) r).
Proof. intros Hr s x s' [= <- _]. destruct r; auto. Qed.

Lemma yields_or_respond {A} (Q : A → Prop) (f : RpcError → res RpcError HttpResponse) (r : res RpcError A) :
  (∀ a, r = Ok a → Q a) → (∀ e resp, f e = Ok resp → P resp) → yields P Q (or_respond (S:=S) f r).
Proof.
  intros HQ Hf. destruct r as [a|e|]; simpl.
  - by apply yields_ret, HQ.
  - apply yields_respond. by apply Hf.
  - by intros s x s' [= <- _].
Qed.

Lemma yields_unwrap {A} (Q : A → Prop) (r : res RpcError A) : (∀ a, r = Ok a → Q a) → yields P Q (unwrap (S:=S) r).
Proof. intros HQ s x s' [= <- _]. destruct r; auto. Qed.

Lemma yields_panic {A} (Q : A → Prop) : yields P Q (fun s : S => (@Panic HttpResponse A, s)).
Proof. by intros s r s' [= <- _]. Qed.

Lemma yields_get {A} (f : S → A) : yields P (fun _ => True) (h_get f).
Proof. by intros s r s' [= <- _]. Qed.

Lemma yields_set (f : S → S) : yields P (fun _ => True) (h_set f).
Proof. by intros s r s' [= <- _]. Qed.

Lemma yields_each {A} (f : A → HM S unit) l : (∀ x, yields P (fun _ => True) (f x)) → yields P (fun _ => True) (h_each f l).
Proof.
  intros Hf. induction l as [|x l IH]; simpl; [by apply yields_ret|]. eapply yields_bind; [apply Hf|]. by intros.
Qed.
End Yields.

Lemma yields_weaken {S A} (P P' : HttpResponse → Prop) (Q Q' : A → Prop) (m : HM S A) :
  yields P Q m → (∀ r, P r → P' r) → (∀ a, Q a → Q' a) → yields P' Q' m.
Proof. intros Hm HP HQ s r s' E. apply Hm in E. destruct r; auto. Qed.

(** A computation that never answers early. *)
Definition quiet {S A} (m : HM S A) : Prop := yields (fun _ => False) (fun _ => True) m.

Lemma quiet_yields {S A} P (m : HM S A) : quiet m → yields P (fun _ => True) m.
Proof. intros Hm. by eapply yields_weaken. Qed.

Create HintDb http.
#[export] Hint Resolve yields_ret yields_set yields_get yields_panic : http.

(** One bind at a time, with nothing to remember of the value. *)
Ltac ybind := eapply yields_bind; [|intros].

Section Budget.
Context `{ArrowShm, !Json, !Aead, !Base64, !StreamTokens.Zstd, !External.Zstd, !UrlLib, !HttpLib, !HttpLibLaws, !ContentCodecs}.
Context {App Sess St Store AS : Type} `{!ExternalStorage Store, !Fetcher Store}.
Context `{!HttpStreamState (App:=App) (Sess:=Sess) (St:=St)}.

Abbreviation state := (HttpState (App:=App) (Sess:=Sess) (St:=St) (AS:=AS)).
Abbreviation world := (HWorld (App:=App) (Sess:=Sess) (Store:=Store) (AS:=AS)).
Abbreviation hresp := (HResp (App:=App) (Sess:=Sess) (Store:=Store) (AS:=AS)).
Abbreviation happ := (HApp (App:=App) (Sess:=Sess)).
Abbreviation hmethod := (MethodInfo (UnaryHandler (App:=happ) (Conn:=HttpCtx)) (HttpStream (App:=App) (Sess:=Sess) (St:=St))).
Implicit Types (st : state) (w : world) (info : hmethod).

Definition flagged (r : HttpResponse) : Prop := hget RPC_ERROR_HEADER (rheaders r) = Some (bs "true").
Definition failed (r : HttpResponse) : Prop := rstatus r ≠ 200 ∨ flagged r.

(** Within the limit, or a failure that says it is one. *)
Definition within (limit : option Z) (r : HttpResponse) : Prop :=
  failed r ∨ ∀ l, limit = Some l → zlen (rbody r) ≤ l.

Lemma cap_error_failed schema e sid rid tb resp :
  cap_error_response schema e sid rid tb = Ok resp → flagged resp ∧ rstatus resp = 200.
Proof. unfold cap_error_response. intros E. apply bind_Ok in E as (buf & _ & [= <-]). split; [|done]. apply hget_hinsert. Qed.

Lemma arrow_error_failed st status rid e resp : status ≠ 200 → arrow_error st status rid e = Ok resp → failed resp.
Proof. unfold arrow_error. intros Hs E. apply bind_Ok in E as (buf & _ & [= <-]). by left. Qed.

Lemma enforce_within limit schema body sid rid tb resp :
  enforce_response_body_cap limit schema body sid rid tb = Ok resp → within limit resp.
Proof.
  unfold enforce_response_body_cap. destruct limit as [l|]; [|intros [= <-]; by right].
  destruct (Z.ltb_spec l (zlen body)); intros E.
  - apply cap_error_failed in E as [? _]. by left; right.
  - injection E as <-. right. by intros ? [= <-].
Qed.

(** The error flag survives what is stamped on later. *)
Lemma insert_text_flagged n v h :
  n ≠ RPC_ERROR_HEADER → hget RPC_ERROR_HEADER (insert_text n v h) = hget RPC_ERROR_HEADER h.
Proof. intros Hn. unfold insert_text. case_match; [|done]. by rewrite hget_hinsert_ne. Qed.

(** The names that stamping a session writes. *)
Definition session_name (k : list byte) : bool :=
  bool_decide (k = SESSION_HEADER) || bool_decide (k = SESSION_CLOSE_HEADER) || starts_with ECHO_HEADER_PREFIX k.

Lemma stamp_session_others st sink r k :
  session_name k = false → hget_all k (rheaders (stamp_session_headers st sink r)) = hget_all k (rheaders r).
Proof.
  unfold session_name. rewrite !orb_false_iff. intros [[Hs%bool_decide_eq_false Hc%bool_decide_eq_false] He].
  unfold stamp_session_headers. cbn [rheaders].
  set (h := match Sticky.mint_token _ with Some _ => _ | None => _ end).
  trans (hget_all k h); [destruct (Sticky.closed _); [by rewrite hget_all_hinsert_ne|done]|].
  unfold h. destruct (Sticky.mint_token _) as [token|]; [|done].
  assert (hget_all k (insert_text SESSION_HEADER token (rheaders r)) = hget_all k (rheaders r)) as H0'
    by (by rewrite hget_all_insert_text_ne).
  destruct (hs_sticky st) as [ctx|]; [|done]. revert H0'. generalize (insert_text SESSION_HEADER token (rheaders r)).
  induction (Sticky.echo_headers ctx) as [|nv l IH]; intros h0 H0'; [done|]. cbn [foldl]. apply IH. unfold echo_header.
  destruct (header_name_from_bytes _) as [n|] eqn:En; [|done]. rewrite hget_all_insert_text_ne; [done|].
  apply name_lowered in En as ->. intros ->. rewrite fmap_app in He. unfold starts_with in He.
  change (to_ascii_lowercase <$> ECHO_HEADER_PREFIX) with ECHO_HEADER_PREFIX in He. by rewrite strip_prefix_app in He.
Qed.

Lemma stamp_session_keeps st sink r :
  rstatus (stamp_session_headers st sink r) = rstatus r ∧ rbody (stamp_session_headers st sink r) = rbody r ∧
  hget RPC_ERROR_HEADER (rheaders (stamp_session_headers st sink r)) = hget RPC_ERROR_HEADER (rheaders r).
Proof. split_and!; [done..|]. unfold hget. by rewrite stamp_session_others. Qed.

Lemma stamp_session_within st limit (r : HttpResponse) :
  within limit r → yields (S:=world) failed (within limit) (stamp_session st r).
Proof.
  intros Hr w x w' [= <- _]. destruct (ha_sink (hw_app w)) as [s|]; [|done].
  destruct (stamp_session_keeps st s r) as (H1' & H2' & H3'). unfold within, failed, flagged in *. by rewrite H1', H2', H3'.
Qed.

Lemma stamp_error_flagged r : flagged (stamp_rpc_error r).
Proof. apply hget_hinsert. Qed.

(** ** Early answers *)
Lemma authenticate_quiet st e m h : yields (S:=world) failed (fun _ => True) (authenticate_http st e m h).
Proof.
  intros w r w' E. unfold authenticate_http in E.
  destruct (authenticate_request_from_peer _ _ _ _ _ _) as [x s] eqn:Ea. injection E as <- _.
  unfold authenticate_request_from_peer in Ea. destruct (resolve_identity _ _ _ _ _ _) as [y s1]. injection Ea as <- _.
  destruct y as [|err|]; simpl; [done| |done]. left. unfold refuse. repeat case_match; by simpl.
Qed.

Lemma sticky_quiet st auth h e : yields (S:=world) failed (fun _ => True) (sticky_for_request st auth h e).
Proof.
  unfold sticky_for_request. destruct (hs_sticky st) as [ctx|]; [|apply yields_set]. intros w r w' E.
  destruct (Sticky.resolve _ _ _ _ _ _) as [[[s|er] reg]|?|]; [by injection E as <- _| |by injection E as <- _..].
  revert E. apply (yields_respond (S:=world) failed (fun _ : unit => True)). intros resp Hr.
  apply cap_error_failed in Hr as [? _]. by right.
Qed.

Lemma arrow_400 st rid er resp : arrow_error st 400 rid er = Ok resp → failed resp.
Proof. by apply arrow_error_failed. Qed.
Lemma arrow_404 st rid er resp : arrow_error st 404 rid er = Ok resp → failed resp.
Proof. by apply arrow_error_failed. Qed.
Lemma arrow_500 st rid er resp : arrow_error st 500 rid er = Ok resp → failed resp.
Proof. by apply arrow_error_failed. Qed.
Lemma decode_error_failed st er resp : request_decode_error st er = Ok resp → failed resp.
Proof. unfold request_decode_error. apply arrow_error_failed. by case_match. Qed.
Lemma route_error_failed st rid er resp : route_error st rid er = Ok resp → failed resp.
Proof. unfold route_error. apply arrow_error_failed. by case_match. Qed.
Lemma error_response_failed st schema req er resp : error_response st schema req er = Ok resp → failed resp.
Proof. unfold error_response. intros [? _]%cap_error_failed. by right. Qed.

(** A call is accepted only with the budget its headers ask for. *)
Lemma accept_budget st e m h body :
  yields (S:=world) failed (fun ad => effective_response_budget (hs_limits st) h = Ok (ad_limit ad, ad_preferred ad))
    (accept_request st e m h body).
Proof.
  unfold accept_request. ybind; [apply authenticate_quiet|].
  eapply yields_bind; [apply (yields_or_respond _ (fun b => effective_response_budget (hs_limits st) h = Ok b)); [done|apply arrow_400]|].
  intros [l p] Hb. ybind; [|].
  { instantiate (1 := fun _ => True). destruct (has_arrow_ct h); [by apply yields_ret|].
    apply yields_respond. intros ? [= <-]. by left. }
  ybind; [apply sticky_quiet|].
  ybind; [by apply (yields_or_respond _ (fun _ => True)); [|apply decode_error_failed]|]. by apply yields_ret.
Qed.

(** The answer is within the budget its call was accepted with. *)
Definition agreed (st : state) (h : HeaderMap) (r : HttpResponse) : Prop :=
  ∃ hard preferred, effective_response_budget (hs_limits st) h = Ok (hard, preferred) ∧ within hard r.

Lemma yields_accepted st e m h body (k : Accepted → HM world HttpResponse) :
  (∀ ad, yields failed (within (ad_limit ad)) (k ad)) → yields failed (agreed st h) (accept_request st e m h body ≫= k).
Proof.
  intros Hk. eapply yields_bind; [apply accept_budget|]. intros ad Hb. eapply yields_impl; [apply Hk|]. intros r Hr. by exists (ad_limit ad), (ad_preferred ad).
Qed.

Lemma routed_quiet st path m body : yields (S:=world) failed (fun _ => True) (routed_request st path m body).
Proof.
  unfold routed_request. ybind; [by apply (yields_or_respond _ (fun _ => True)); [|apply arrow_400]|].
  ybind; [|by apply yields_or_respond; [|apply arrow_400]]. instantiate (1 := fun _ => True).
  case_match; [by apply yields_ret|]. apply yields_respond, arrow_400.
Qed.

Lemma gated_quiet st req : yields (S:=world) failed (fun _ => True) (gated_binding st req).
Proof.
  unfold gated_binding. ybind; [by apply (yields_or_respond _ (fun _ => True)); [|apply route_error_failed]|].
  ybind; [by apply (yields_or_respond _ (fun _ => True)); [|apply arrow_400]|]. by apply yields_ret.
Qed.

Lemma parameters_quiet st e req : yields (S:=world) failed (fun _ => True) (resolve_parameters st e req).
Proof.
  unfold resolve_parameters. repeat case_match; try by apply yields_ret. ybind; [apply yields_get|].
  ybind; [by apply (yields_or_respond _ (fun _ => True)); [|apply error_response_failed]|]. case_match. by apply yields_ret.
Qed.

Lemma find_method_quiet st binding want rid m : yields (S:=world) failed (fun _ => True) (find_method st binding want rid m).
Proof.
  unfold find_method. repeat case_match; [by apply yields_ret|by apply yields_respond, arrow_404..].
Qed.

Lemma check_parameters_quiet st req info : yields (S:=world) failed (fun _ => True) (check_parameters st req info).
Proof. apply yields_or_respond; [done|apply arrow_400]. Qed.

(** ** Bodies never answer *)
Lemma hput_quiet b md : quiet (S:=hresp) (hput b md).
Proof. intros s r s' E. unfold hput in E. by destruct (ignored _); injection E as <- _. Qed.
Lemma hfinish_quiet : quiet (S:=hresp) hfinish.
Proof. intros s r s' E. unfold hfinish in E. by destruct (ignored _); injection E as <- _. Qed.
Lemma hput_empty_quiet schema md : quiet (S:=hresp) (hput_empty schema md).
Proof. unfold hput_empty. ybind; [by apply (yields_unwrap _ (fun _ => True))|apply hput_quiet]. Qed.
Lemma logs_quiet st req schema logs : quiet (S:=hresp) (h_each (hput_log st req schema) logs).
Proof. apply yields_each. intros. apply hput_empty_quiet. Qed.

Lemma in_world_quiet {A} (m : HM world A) : quiet m → quiet (S:=hresp) (in_world m).
Proof.
  intros Hm s r s' E. unfold in_world in E. destruct (m (hr_world s)) as [x w] eqn:Em. injection E as <- _. by apply Hm in Em.
Qed.

Lemma with_vec_quiet {A} schema buf (body : HM hresp A) : quiet body → quiet (with_vec schema buf body).
Proof.
  intros Hb w r w' E. unfold with_vec in E. destruct (stream_writer_new _ _).1 as [sw|?|]; [|by injection E as <- _..].
  destruct (body _) as [x s] eqn:Eb. injection E as <- _. apply Hb in Eb. by destruct x.
Qed.

Lemma hooked_quiet st k : quiet (S:=world) (hooked st k).
Proof. unfold hooked. case_match; [apply yields_set|by apply yields_ret]. Qed.
Lemma scope_begin_quiet : quiet (S:=world) scope_begin_http.
Proof. intros w r w' E. unfold scope_begin_http in E. destruct (scope_new _). by injection E as <- _. Qed.
Lemma scope_end_quiet n : quiet (S:=world) (scope_end_http n).
Proof. intros w r w' E. unfold scope_end_http in E. destruct (scope_finish _ _). by injection E as <- _. Qed.

(** A function on the state that returns a value is quiet. *)
Ltac quiet_fun := let w := fresh in let r := fresh in let w' := fresh in let E := fresh in
  intros w r w' E; repeat case_match; simplify_eq; done.

Lemma externalize_unary_quiet st cfg out schema limit : quiet (S:=world) (externalize_unary st cfg out schema limit).
Proof. unfold externalize_unary. quiet_fun. Qed.

Lemma externalize_stream_quiet st b schema md cum limit :
  quiet (S:=world) (externalize_stream_batch st b schema md cum limit).
Proof. unfold externalize_stream_batch. quiet_fun. Qed.

Lemma unary_result_quiet st req info limit result ref : quiet (S:=hresp) (unary_result st req info limit result ref).
Proof.
  unfold unary_result. cbv zeta. destruct result as [maybe|er|]; [|ybind; [apply hput_empty_quiet|by apply yields_ret]|apply yields_panic].
  destruct ref as [r|].
  - destruct (pointer_batch _ _) as [[p md]|er|]; [..|apply yields_panic]; (ybind; [|by apply yields_ret]);
      [apply hput_quiet|apply hput_empty_quiet].
  - ybind; [instantiate (1 := fun _ => True); destruct maybe; [by apply yields_ret|by apply yields_unwrap]|].
    destruct (external_config _) as [cfg|]; [|ybind; [apply hput_quiet|by apply yields_ret]].
    ybind; [apply in_world_quiet, externalize_unary_quiet|]. destruct a0 as [[[[p md]|]|er|] charged]; [..|apply yields_panic];
      (ybind; [|by apply yields_ret]); [apply hput_quiet|apply hput_quiet|apply hput_empty_quiet].
Qed.

Lemma unary_body_quiet st req info limit result logs ref : quiet (S:=hresp) (unary_body st req info limit result logs ref).
Proof.
  unfold unary_body. ybind; [apply logs_quiet|]. ybind; [apply unary_result_quiet|]. ybind; [apply hfinish_quiet|]. by apply yields_ret.
Qed.

Lemma run_unary_quiet info req cx : quiet (S:=world) (run_unary_http info req cx).
Proof. unfold run_unary_http. quiet_fun. Qed.

Lemma unary_call_within st h n req info ad : yields (S:=world) failed (within (ad_limit ad)) (unary_call st h n req info ad).
Proof.
  unfold unary_call. cbv zeta. ybind; [apply quiet_yields, hooked_quiet|]. ybind; [apply quiet_yields, scope_begin_quiet|].
  ybind; [apply quiet_yields, run_unary_quiet|]. destruct a1 as [[result logs] ref].
  ybind; [apply quiet_yields, with_vec_quiet, unary_body_quiet|]. destruct a1 as [ub buf].
  ybind; [apply quiet_yields, scope_end_quiet|]. ybind; [apply quiet_yields, hooked_quiet|].
  destruct (unary_cap_error _ _ _ _) as [er|] eqn:Ec.
  - eapply yields_bind; [apply (yields_unwrap _ failed); apply error_response_failed|].
    intros resp Hr. apply stamp_session_within. by left.
  - apply stamp_session_within. destruct (ub_err ub); [left; right; apply stamp_error_flagged|].
    right. intros l Hl. unfold unary_cap_error, over in Ec. rewrite Hl in Ec.
    destruct (Z.ltb_spec l (zlen buf)); [done|]. done.
Qed.

Lemma reflect_within f st h req ad : yields (S:=world) failed (within (ad_limit ad)) (reflect_call f st h req ad).
Proof.
  unfold reflect_call. cbv zeta. ybind; [instantiate (1 := fun _ => True); quiet_fun|].
  ybind; [by apply (yields_or_respond _ (fun _ => True)); [|apply arrow_500]|].
  apply yields_unwrap. apply enforce_within.
Qed.

Lemma unary_dispatch_within f st e path m h body :
  yields (S:=world) failed (agreed st h) (unary_dispatch f st e path m h body).
Proof.
  unfold unary_dispatch. apply yields_accepted. intros ad.
  ybind; [apply routed_quiet|]. ybind; [instantiate (1 := fun _ => True)|].
  { destruct path; [by apply yields_ret|]. case_match; [by apply yields_ret|]. apply yields_respond, route_error_failed. }
  case_match; [apply yields_respond, arrow_404|]. case_match; [apply reflect_within|].
  ybind; [apply gated_quiet|]. ybind; [apply parameters_quiet|]. ybind; [apply find_method_quiet|].
  ybind; [apply check_parameters_quiet|]. apply unary_call_within.
Qed.

(** ** Streams *)
Lemma flush_items_quiet st req schema limit stamp cum b r l :
  quiet (S:=hresp) (flush_items st req schema limit stamp cum b r l).
Proof.
  revert cum b r. induction l as [|[ba md|log] l IH]; intros cum b r; cbn [flush_items]; cbv zeta; [by apply yields_ret| |].
  - ybind; [apply in_world_quiet, externalize_stream_quiet|]. destruct a as [[p pmd| |er] cum'];
      (ybind; [|first [apply IH|by apply yields_ret]]); [apply hput_quiet|apply hput_quiet|apply hput_empty_quiet].
  - ybind; [apply hput_empty_quiet|apply IH].
Qed.

Lemma run_turn_quiet schema p cx (t : happ → Turn (St * happ)) : quiet (S:=world) (run_http_turn schema p cx t).
Proof. unfold run_http_turn. quiet_fun. Qed.

Lemma run_producer_quiet st req schema auth ev x tick limit pref :
  quiet (S:=hresp) (run_producer st req schema auth ev x tick limit pref).
Proof.
  unfold run_producer. cbv zeta. ybind; [apply in_world_quiet, run_turn_quiet|]. destruct a as [[[result x'] out] logs].
  ybind; [apply logs_quiet|]. destruct result as [[]|er|]; [| |apply yields_panic].
  - ybind; [apply flush_items_quiet|by apply yields_ret].
  - ybind; [apply hput_empty_quiet|by apply yields_ret].
Qed.

Lemma init_tokens_quiet st e req auth ss output input limit pref b r :
  quiet (S:=hresp) (init_tokens_item st e req auth ss output input limit pref b r).
Proof.
  unfold init_tokens_item. ybind; [apply in_world_quiet; unfold build_init_tokens; quiet_fun|].
  destruct a as [[[c k] state]|er|]; [..|apply yields_panic]; (ybind; [apply hput_empty_quiet|by apply yields_ret]).
Qed.

Lemma init_body_quiet st e req ad sr logs : quiet (S:=hresp) (init_body st e req ad sr logs).
Proof.
  unfold init_body, first_turn. cbv zeta. ybind; [instantiate (1 := fun _ => True); destruct (header sr); [by apply yields_ret|apply logs_quiet]|].
  ybind; [instantiate (1 := fun _ => True)|ybind; [apply hfinish_quiet|by apply yields_ret]].
  destruct (stream_state sr) as [x|x]; [|apply init_tokens_quiet].
  ybind; [apply run_producer_quiet|]. destruct a0 as [turn x']. case_match; [by apply yields_ret|apply init_tokens_quiet].
Qed.

Lemma header_stream_quiet st req (sr : StreamResult St) logs : quiet (S:=world) (header_stream st req sr logs).
Proof.
  unfold header_stream. destruct (header sr) as [hb|]; [|by apply yields_ret].
  ybind; [apply with_vec_quiet; ybind; [apply logs_quiet|ybind; [apply hput_quiet|apply hfinish_quiet]]|].
  destruct a. by apply yields_ret.
Qed.

Lemma finish_turn_within st req i outer schema limit rid tb buf tr n :
  yields (S:=world) failed (within limit) (finish_turn st req i outer schema limit rid tb buf tr n).
Proof.
  unfold finish_turn. ybind; [instantiate (1 := fun _ => True); case_match; [apply quiet_yields, scope_end_quiet|by apply yields_ret]|].
  eapply yields_bind; [apply (yields_unwrap _ (within limit)), enforce_within|]. intros resp Hr.
  eapply yields_bind; [apply stamp_session_within|].
  { destruct (tr_error tr); [left; right; apply stamp_error_flagged|exact Hr]. }
  intros resp' Hr'. ybind; [apply quiet_yields, hooked_quiet|]. by apply yields_ret.
Qed.

Lemma fail_turn_within st i er buf n limit : yields (S:=world) failed (within limit) (fail_turn st i er buf n).
Proof.
  unfold fail_turn. ybind; [apply quiet_yields, hooked_quiet|]. apply yields_ret. left; right. apply stamp_error_flagged.
Qed.

Lemma init_call_within st e h n req info ad : yields (S:=world) failed (within (ad_limit ad)) (init_call st e h n req info ad).
Proof.
  unfold init_call. cbv zeta. ybind; [apply quiet_yields, hooked_quiet|]. ybind; [apply quiet_yields, scope_begin_quiet|].
  ybind; [instantiate (1 := fun _ => True); unfold run_stream_http; quiet_fun|]. destruct a1 as [[sr|er|] logs]; [| |apply yields_panic].
  - ybind; [apply quiet_yields, header_stream_quiet|]. ybind; [apply quiet_yields, with_vec_quiet, init_body_quiet|].
    destruct a2 as [tr buf]. apply finish_turn_within.
  - ybind; [by apply (yields_unwrap _ (fun _ => True))|]. apply fail_turn_within.
Qed.

Lemma stream_init_within st e path m h body :
  yields (S:=world) failed (agreed st h) (stream_init_dispatch st e path m h body).
Proof.
  unfold stream_init_dispatch. apply yields_accepted. intros ad.
  ybind; [apply routed_quiet|]. ybind; [apply gated_quiet|]. ybind; [apply parameters_quiet|]. ybind; [apply find_method_quiet|].
  ybind; [apply check_parameters_quiet|]. apply init_call_within.
Qed.

Lemma open_tokens_quiet st e auth md : yields (S:=world) failed (fun _ => True) (open_tokens st e auth md).
Proof.
  unfold open_tokens. do 2 (ybind; [by apply (yields_or_respond _ (fun _ => True)); [|apply arrow_400]|]).
  ybind; [instantiate (1 := fun _ => True); quiet_fun|].
  do 2 (ybind; [by apply (yields_or_respond _ (fun _ => True)); [|apply arrow_400]|]).
  ybind; [instantiate (1 := fun _ => True)|by apply yields_ret]. case_match; [by apply yields_ret|].
  ybind; [by apply (yields_or_respond _ (fun _ => True)); [|apply arrow_400]|by apply yields_ret].
Qed.

Lemma decode_state_quiet st path m state : yields (S:=world) failed (fun _ => True) (decode_state st path m state).
Proof.
  unfold decode_state. ybind; [by apply (yields_or_respond _ (fun _ => True)); [|apply route_error_failed]|].
  ybind; [apply find_method_quiet|].
  ybind; [by apply (yields_or_respond _ (fun _ => True)); [|apply arrow_500]|].
  apply yields_or_respond; [done|]. intros er. apply arrow_400.
Qed.

Lemma resolve_input_quiet st e b md : yields (S:=world) failed (fun _ => True) (resolve_input st e b md).
Proof.
  unfold resolve_input. repeat case_match; try by apply yields_ret. ybind; [apply yields_get|].
  apply yields_or_respond; [done|]. intros er resp [? _]%cap_error_failed. by right.
Qed.

Lemma cancel_body_quiet st req schema ss cx : quiet (S:=world) (cancel_body st req schema ss cx).
Proof.
  unfold cancel_body. ybind; [instantiate (1 := fun _ => True); quiet_fun|]. destruct a as [r logs]. apply with_vec_quiet.
  ybind; [apply logs_quiet|]. ybind; [instantiate (1 := fun _ => True)|ybind; [apply hfinish_quiet|by apply yields_ret]].
  destruct r; [by apply yields_ret| |by apply yields_ret]. ybind; [apply hput_empty_quiet|by apply yields_ret].
Qed.

Lemma producer_body_quiet st e req schema auth ev x tick cid limit pref :
  quiet (S:=hresp) (producer_body st e req schema auth ev x tick cid limit pref).
Proof.
  unfold producer_body. ybind; [apply run_producer_quiet|]. destruct a as [turn x'].
  ybind; [instantiate (1 := fun _ => True)|ybind; [apply hfinish_quiet|by apply yields_ret]]. case_match; [by apply yields_ret|].
  destruct (build_cursor_token _ _ _ _ _) as [[tok state]|er|]; [..|apply yields_panic];
    (ybind; [apply hput_empty_quiet|by apply yields_ret]).
Qed.

Lemma exchange_body_quiet st e req schema auth result x out logs cid limit :
  quiet (S:=hresp) (exchange_body st e req schema auth result x out logs cid limit).
Proof.
  unfold exchange_body. ybind; [apply logs_quiet|].
  ybind; [instantiate (1 := fun _ => True)|ybind; [apply hfinish_quiet|by apply yields_ret]].
  destruct result as [[]|er|]; [|ybind; [apply hput_empty_quiet|by apply yields_ret]|apply yields_panic].
  unfold exchange_output. destruct (build_cursor_token _ _ _ _ _) as [[tok state]|er|];
    [|ybind; [apply hput_empty_quiet|by apply yields_ret]|apply yields_panic].
  ybind; [apply flush_items_quiet|]. ybind; [|by apply yields_ret]. instantiate (1 := fun _ => True).
  case_match; [apply hput_empty_quiet|by apply yields_ret].
Qed.

Lemma exchange_turn_within st e req i outer ct auth cx x b limit :
  yields (S:=world) failed (within limit) (exchange_turn st e req i outer ct auth cx x b limit).
Proof.
  unfold exchange_turn. cbv zeta. ybind; [apply quiet_yields|].
  { unfold cast_exchange. destruct (ct_input ct); [|by apply yields_ret]. case_match; [by apply yields_ret|].
    destruct (cast_batch _ _); [by apply yields_ret| |apply yields_panic].
    ybind; [apply with_vec_quiet; ybind; [apply hput_empty_quiet|apply hfinish_quiet]|]. case_match. by apply yields_ret. }
  destruct a as [[er buf]|casted]; [apply fail_turn_within|]. ybind; [apply quiet_yields, run_turn_quiet|].
  destruct a as [[[result x'] out] logs]. ybind; [apply quiet_yields, with_vec_quiet, exchange_body_quiet|].
  destruct a as [[er|tr] buf]; [apply fail_turn_within|apply finish_turn_within].
Qed.

Lemma within_min limit l r : within (min_some [limit; l]) r → within limit r.
Proof.
  unfold within. intros [?|Hl]; [by left|]. right. intros n ->. destruct l as [k|]; simpl in Hl.
  - specialize (Hl _ eq_refl). lia.
  - by apply Hl.
Qed.

Lemma yields_within_min st limit l (m : HM world HttpResponse) :
  yields failed (within (min_some [limit; l])) m → yields failed (within limit) m.
Proof. intros Hm. eapply yields_impl; [exact Hm|]. apply within_min. Qed.

Lemma stream_exchange_within st e path m h body :
  yields (S:=world) failed (agreed st h) (stream_exchange_dispatch st e path m h body).
Proof.
  unfold stream_exchange_dispatch. apply yields_accepted. intros ad.
  ybind; [by apply (yields_or_respond _ (fun _ => True)); [|apply arrow_400]|]. destruct a as [b0 md0].
  ybind; [apply resolve_input_quiet|]. destruct a as [b md]. cbv zeta. ybind; [apply open_tokens_quiet|].
  unfold turn_budget. ybind; [apply decode_state_quiet|]. ybind; [by apply (yields_unwrap _ (fun _ => True))|].
  ybind; [by apply (yields_or_respond _ (fun _ => True)); [|apply arrow_400]|]. ybind; [apply quiet_yields, hooked_quiet|].
  ybind; [apply quiet_yields, scope_begin_quiet|]. apply (yields_within_min st _ (StreamTokens.response_limit_bytes (ct_call a))).
  case_match.
  - ybind; [apply quiet_yields, cancel_body_quiet|]. case_match. apply finish_turn_within.
  - destruct a0 as [x|x]; [|apply exchange_turn_within].
    ybind; [apply quiet_yields, with_vec_quiet, producer_body_quiet|]. case_match. apply finish_turn_within.
Qed.

Lemma budget_le (lim : Limits) h hard preferred l :
  effective_response_budget lim h = Ok (hard, preferred) →
  max_response_bytes lim = Some l ∨ hosting_max_response_bytes lim = Some l ∨
    parse_accepted_max_response_bytes h = Ok (Some l) →
  ∃ k, hard = Some k ∧ k ≤ l.
Proof.
  unfold effective_response_budget. intros E Hl. apply bind_Ok in E as (acc & Ha & [= <- _]).
  assert (max_response_bytes lim = Some l ∨ hosting_max_response_bytes lim = Some l ∨ acc = Some l) as Hl'.
  { destruct Hl as [?|[?|Hl]]; auto. right; right. congruence. }
  destruct (max_response_bytes lim), (hosting_max_response_bytes lim), acc; simpl; destruct_or!; simplify_eq;
    eexists; (split; [done|]); lia.
Qed.

(** C12. No answer that claims success is larger than anyone allowed: whatever the
    call, the handler, the stream's state, the storage and the headers, a response with
    status 200 that does not carry the RPC error flag has a body within the
    operator's response limit, the host's, and the one this client accepts; a larger
    one is replaced by a flagged error. *)
Theorem success_within_budget f (c : HttpCall) st e path m h body w r w' resp l :
  serve_call f c st e path m h body w = (r, w') → r = Ok resp ∨ r = Err resp →
  rstatus resp = 200 → hget RPC_ERROR_HEADER (rheaders resp) = None →
  max_response_bytes (hs_limits st) = Some l ∨ hosting_max_response_bytes (hs_limits st) = Some l ∨
    parse_accepted_max_response_bytes h = Ok (Some l) →
  zlen (rbody resp) ≤ l.
Proof.
  intros E Hr Hs Hf Hl.
  assert (yields (S:=world) failed (agreed st h) (serve_call f c st e path m h body)) as Hy.
  { destruct c; [apply unary_dispatch_within|apply stream_init_within|apply stream_exchange_within]. }
  assert (¬ failed resp) as Hnf by (unfold failed, flagged; rewrite Hf; intuition congruence).
  apply Hy in E. destruct Hr as [-> | ->]; [|done]. destruct E as (hard & preferred & Hb & [?|Hw]); [done|].
  apply (budget_le _ _ _ _ _ Hb) in Hl as (k & -> & Hk). specialize (Hw k eq_refl). lia.
Qed.
End Budget.
