(* ===== verification/HttpTurns.v ===== *)
(** * HTTP turns: what a call writes

    A response body is the stream of the items its handler produced. Reference
    items for a unary call, the first request of a stream and its continuations, and
    the proofs that the request handlers write exactly these and that the tokens they
    hand out bring the next request back to the same state. *)

From S2P Require Import Prelude Bytes Metadata F64 Json ErrorModel Errors Crypto Auth Sticky StreamTokens StreamTokensProps PeerIdentity HttpBase HttpBaseProps HttpAuth.
From S2P Require Import ShmAllocator Ipc IpcProps IpcWriter IpcWriterProps IpcStream Arrow External ExternalProps ShmBatch ShmBatchProps Dispatch DispatchProps Envelope EnvelopeProps Stream Serve ServeProps Http HttpProps.

#[local] Open Scope Z_scope.

Section Turns.
Context `{LS : ArrowShmLaws} `{JL : JsonLaws} `{!Aead, !AeadLaws, !Base64, !Base64Laws, !StreamTokens.Zstd, !StreamTokens.ZstdLaws}.
Context `{!External.Zstd, !UrlLib, !HttpLib, !HttpLibLaws, !ContentCodecs}.
Context {App Sess St Store Cb : Type} `{!ExternalStorage Store, !Fetcher Store}.
Context `{!HttpStreamState (App:=App) (Sess:=Sess) (St:=St)}.

Abbreviation state := (HttpState (App:=App) (Sess:=Sess) (St:=St) (AS:=Cb)).
Abbreviation world := (HWorld (App:=App) (Sess:=Sess) (Store:=Store) (AS:=Cb)).
Abbreviation hresp := (HResp (App:=App) (Sess:=Sess) (Store:=Store) (AS:=Cb)).
Abbreviation happ := (HApp (App:=App) (Sess:=Sess)).
Abbreviation hmethod := (MethodInfo (UnaryHandler (App:=happ) (Conn:=HttpCtx)) (HttpStream (App:=App) (Sess:=Sess) (St:=St))).
Abbreviation item := (RecordBatch * option Metadata)%type.
Implicit Types (st : state) (w : world) (info : hmethod) (its : list item).

(** ** Streams in a buffer *)

(** The items written one after another, a write that fails being ignored. *)
Fixpoint put_items (sw : StreamWriter) its : res RpcError StreamWriter :=
  match its with
  | [] => Ok sw
  | (b, md) :: its => sw ← ignored (stream_writer_write sw b md); put_items sw its
  end.

(** The buffer [base] with the stream of the items after it. *)
Definition vec_stream (base : list byte) (s : ArrowSchema) its : res RpcError (list byte) :=
  sw ← (stream_writer_new (vec_of base) s).1;
  sw ← put_items sw its;
  sw ← ignored (stream_writer_finish sw);
  Ok (sent (sw_writer (stream_writer_drop sw))).

Lemma put_items_app sw its its' :
  put_items sw (its ++ its') = (sw' ← put_items sw its; put_items sw' its').
Proof.
  revert sw. induction its as [|[b md] its IH]; intros sw; [done|]. simpl.
  destruct (ignored _) as [sw'|?|]; simpl; [apply IH|done..].
Qed.

(** [m] writes the items in the world [w], returns [a] and leaves the world [w']. *)
Definition writes {A} (m : HM hresp A) w its (a : A) w' : Prop :=
  ∀ sw sw', put_items sw its = Ok sw' → m (mkHResp sw w) = (Ok a, mkHResp sw' w').

(** The same, and the stream is finished. *)
Definition closes {A} (m : HM hresp A) w its (a : A) w' : Prop :=
  ∀ sw sw', (sw1 ← put_items sw its; ignored (stream_writer_finish sw1)) = Ok sw' →
    m (mkHResp sw w) = (Ok a, mkHResp sw' w').

Lemma hm_bind {S A B} (m : HM S A) (f : A → HM S B) s a s' : m s = (Ok a, s') → (m ≫= f) s = f a s'.
Proof. intros E. unfold mbind, HM_bind. by rewrite E. Qed.

Lemma writes_ret {A} (a : A) w : writes (mret a) w [] a w.
Proof. by intros sw sw' [= <-]. Qed.

Lemma writes_bind {A B} (m : HM hresp A) (f : A → HM hresp B) w its its' a b w1 w2 :
  writes m w its a w1 → writes (f a) w1 its' b w2 → writes (m ≫= f) w (its ++ its') b w2.
Proof.
  intros Hm Hf sw sw' E. rewrite put_items_app in E. apply bind_Ok in E as (sw1 & E1 & E).
  erewrite hm_bind by by apply Hm. by apply Hf.
Qed.

Lemma writes_put b md w : writes (hput b md) w [(b, md)] tt w.
Proof. intros sw sw' E. simpl in E. apply bind_Ok in E as (s1 & E1 & [= <-]). unfold hput. simpl. by rewrite E1. Qed.

Lemma writes_world {A} (m : HM world A) w a w' : m w = (Ok a, w') → writes (in_world m) w [] a w'.
Proof. intros E sw sw' [= <-]. unfold in_world. simpl. by rewrite E. Qed.

Lemma writes_empty s b md w : empty_batch s = Ok b → writes (hput_empty s md) w [(b, Some md)] tt w.
Proof.
  intros Hb. unfold hput_empty. change [(b, Some md)] with ([] ++ [(b, Some md)]). eapply writes_bind; [|apply writes_put].
  rewrite Hb. intros sw sw' [= <-]. done.
Qed.

Lemma writes_each {A} (f : A → HM hresp unit) (g : A → item) w (l : list A) :
  (∀ x, writes (f x) w [g x] tt w) → writes (h_each f l) w (g <$> l) tt w.
Proof.
  intros Hf. induction l as [|x l IH]; [apply writes_ret|].
  exact (writes_bind (f x) (fun _ => h_each f l) w [g x] (g <$> l) tt tt w w (Hf x) IH).
Qed.

Lemma closes_bind {A B} (m : HM hresp A) (f : A → HM hresp B) w its its' a b w1 w2 :
  writes m w its a w1 → closes (f a) w1 its' b w2 → closes (m ≫= f) w (its ++ its') b w2.
Proof.
  intros Hm Hf sw sw' E. rewrite put_items_app in E.
  destruct (put_items sw its) as [sw1|?|] eqn:E1; [|done..]. erewrite hm_bind by by apply Hm. by apply Hf.
Qed.

Lemma closes_end {A} (a : A) w : closes (_ ← hfinish; mret a) w [] a w.
Proof. intros sw sw' E. simpl in E. unfold hfinish, mbind, HM_bind. simpl. by rewrite E. Qed.

Lemma with_vec_exact {A} s base (m : HM hresp A) w its a w' buf :
  closes m w its a w' → vec_stream base s its = Ok buf → with_vec s base m w = (Ok (a, buf), w').
Proof.
  intros Hm E. unfold vec_stream in E. apply bind_Ok in E as (sw & E1 & E). apply bind_Ok in E as (sw1 & E2 & E).
  apply bind_Ok in E as (sw2 & E3 & [= <-]). unfold with_vec. rewrite E1, (Hm sw sw2); [done|]. by rewrite E2.
Qed.

(** When no write fails the buffer holds the items, for any reader. *)
Fixpoint all_written (sw : StreamWriter) its : Prop :=
  match its with
  | [] => (stream_writer_finish sw).1 = Ok tt
  | (b, md) :: its => ∃ sw', stream_writer_write sw b md = (Ok tt, sw') ∧ all_written sw' its
  end.

Definition encodes (base : list byte) (s : ArrowSchema) its : Prop :=
  ∃ sw, (stream_writer_new (vec_of base) s).1 = Ok sw ∧ all_written sw its.

Definition readable (s : ArrowSchema) its : Prop := Forall (fun i => fits s i.1 ∧ opt_utf8 i.2) its.

Lemma all_written_wire base s done its sw :
  writing base s done sw → readable s its → all_written sw its →
  ∃ sw' l, (sw1 ← put_items sw its; ignored (stream_writer_finish sw1)) = Ok sw' ∧ stream_writer_drop sw' = sw' ∧
    wire_stream s (done ++ (prod_map id (default ∅) <$> its)) l ∧ sent (sw_writer sw') = base ++ l.
Proof.
  intros Hw Hr. revert done sw Hw. induction Hr as [|[b md] its [Hf Hu] _ IH]; intros done sw Hw Ha; simpl in *.
  - destruct (stream_writer_finish sw) as [r sw'] eqn:E. simpl in Ha. subst r.
    destruct (writing_finish _ _ _ _ _ Hw E) as (Hd & l & Hl & Hs). exists sw', l. rewrite app_nil_r. done.
  - destruct Ha as (sw1 & E & Ha). rewrite E. simpl. destruct (IH (done ++ [(b, default ∅ md)]) sw1) as (sw' & l & ?); [|done|].
    + by eapply writing_write.
    + exists sw', l. by rewrite <- app_assoc in *.
Qed.

Lemma encodes_wire base s its :
  encodes base s its → readable s its →
  ∃ l, vec_stream base s its = Ok (base ++ l) ∧ wire_stream s (prod_map id (default ∅) <$> its) l.
Proof.
  intros (sw & Hn & Ha) Hr. unfold vec_stream. rewrite Hn. simpl.
  destruct (all_written_wire base s [] its sw) as (sw' & l & E & Hd & Hl & Hs); [|done..|].
  - by apply (writing_new (vec_of base)).
  - exists l. split; [|done]. destruct (put_items sw its) as [sw1|?|]; simpl in *; [|done..]. rewrite E. simpl. by rewrite Hd, Hs.
Qed.

(** ** What is in the buffer already does not matter *)

(** A sink that takes everything, like a [Vec]. *)
Definition roomy (k : sink) : Prop := script k = [] ∧ room k = None ∧ flush_result k = Ok tt.

Lemma inner_write_roomy part k :
  roomy k → inner_write part k = (Accept (zlen part), mkSink (sent k ++ part) (offered k ++ [zlen part]) [] None (Ok tt)).
Proof.
  intros (Hs & Hr & Hf). unfold inner_write. rewrite Hs, Hr, Hf. pose proof (zlen_nonneg part).
  rewrite Z.min_id, Z.max_r, ztake_all by lia. done.
Qed.

Lemma write_all_loop_roomy limit fuel : 0 < limit → ∀ buf k, (length buf ≤ fuel)%nat → roomy k →
  ∃ k', write_all_loop fuel limit buf k = (Ok tt, k') ∧ roomy k'.
Proof.
  intros Hl. induction fuel as [|fuel IH]; intros [|b buf] k Hf Hk; simpl in Hf; try lia; [by exists k..|].
  cbn [write_all_loop]. destruct (chunked_write_len limit b buf Hl) as [[Hp _] [rest Hrest]]. rewrite inner_write_roomy by done.
  destruct (Z.eqb_spec (zlen (chunked_write limit (b :: buf))) 0); [lia|]. apply IH; [|done].
  rewrite Hrest at 2. rewrite zdrop_app_eq by done. apply (f_equal length) in Hrest. rewrite length_app in Hrest. simpl in Hrest.
  unfold zlen in Hp. lia.
Qed.

Lemma write_each_roomy limit bufs k : 0 < limit → roomy k → ∃ k', write_each limit bufs k = (Ok tt, k') ∧ roomy k'.
Proof.
  intros Hl. revert k. induction bufs as [|b bufs IH]; intros k Hk; [by exists k|]. cbn [write_each].
  destruct (write_all_loop_roomy limit (length b + length (script k)) Hl b k ltac:(lia) Hk) as (k1 & E & Hk1).
  unfold write_all. rewrite E. by apply IH.
Qed.

(** An action on a sink that answers every such sink alike. *)
Definition blind {A} (f : sink → res RpcError A * sink) : Prop :=
  ∃ r, ∀ k, roomy k → ∃ k', f k = (r, k') ∧ roomy k'.

Lemma blind_ret {A} (r : res RpcError A) : blind (fun k => (r, k)).
Proof. exists r. eauto. Qed.

Lemma blind_message e : blind (put_message e).
Proof.
  unfold put_message. destruct (write_message e) as [parts|er|]; [|apply blind_ret..]. exists (Ok tt). intros k Hk.
  by apply write_each_roomy.
Qed.

Lemma blind_messages es : blind (put_messages es).
Proof.
  induction es as [|e es [r IH]]; [apply blind_ret|]. destruct (blind_message e) as [r0 H0']. cbn [put_messages].
  destruct r0 as [[]|er|].
  - exists r. intros k Hk. destruct (H0' k Hk) as (k1 & -> & Hk1). by apply IH.
  - exists (Err er). intros k Hk. destruct (H0' k Hk) as (k1 & -> & Hk1). eauto.
  - exists Panic. intros k Hk. destruct (H0' k Hk) as (k1 & -> & Hk1). eauto.
Qed.

Lemma blind_direct b md : blind (write_single_large_binary_direct b md MAX_WRITE_CHUNK).
Proof.
  unfold write_single_large_binary_direct. destruct (direct_value b) as [value|]; [|apply blind_ret].
  case_match; [apply blind_ret|]. case_match; [|apply blind_ret]. case_match; [apply blind_ret|].
  case_match; [|apply blind_ret..]. exists (Ok true). intros k Hk.
  destruct (write_each_roomy MAX_WRITE_CHUNK (a ++ direct_body value) k ltac:(done) Hk) as (k' & -> & ?). eauto.
Qed.

(** Two writers in the same place of the same stream. *)
Definition alike (w1 w2 : StreamWriter) : Prop :=
  sw_schema w1 = sw_schema w2 ∧ dict_tracker w1 = dict_tracker w2 ∧ sw_finished w1 = sw_finished w2 ∧
  roomy (sw_writer w1) ∧ roomy (sw_writer w2).

Lemma blind_alike {A} (f : sink → res RpcError A * sink) (w1 w2 : StreamWriter) :
  blind f → alike w1 w2 →
  ∃ r k1 k2, f (sw_writer w1) = (r, k1) ∧ f (sw_writer w2) = (r, k2) ∧ roomy k1 ∧ roomy k2.
Proof.
  intros [r Hf] (_ & _ & _ & H1' & H2'). destruct (Hf _ H1') as (k1 & E1 & ?), (Hf _ H2') as (k2 & E2 & ?). by exists r, k1, k2.
Qed.

Lemma write_alike (w1 w2 : StreamWriter) b md :
  alike w1 w2 → (stream_writer_write w1 b md).1 = (stream_writer_write w2 b md).1 ∧
    alike (stream_writer_write w1 b md).2 (stream_writer_write w2 b md).2.
Proof.
  intros Hw. unfold stream_writer_write. destruct (blind_alike _ _ _ (blind_direct b md) Hw) as (r & k1 & k2 & -> & -> & R1 & R2).
  pose proof Hw as (Hs & Ht & Hf & G1 & G2). rewrite Hf, Ht.
  assert (∀ (tr : DictionaryTracker) (fin : bool) k1 k2, roomy k1 → roomy k2 →
    alike (mkStreamWriter k1 (sw_schema w1) tr fin) (mkStreamWriter k2 (sw_schema w2) tr fin)) as Hmk by done.
  destruct (sw_finished w2) eqn:Ef; [by split|].
  assert (∀ k1 k2, roomy k1 → roomy k2 → alike (with_sink w1 k1) (with_sink w2 k2)) as Hsk
    by (intros; unfold with_sink; rewrite Hf, Ef, Ht; by apply Hmk).
  destruct r as [[]|er|]; [by split; [|apply Hsk]| |by split; [|apply Hsk]..].
  destruct (encode_batch b (dict_tracker w2)) as [[[dicts data] tr]|er|]; [|by split; [|apply Hsk]..].
  destruct (blind_messages dicts) as [r Hb]. destruct (Hb _ R1) as (k1' & -> & R1'), (Hb _ R2) as (k2' & -> & R2').
  destruct r as [[]|er|]; [|by split; [|apply Hmk]..]. case_match; [|by split; [|apply Hmk]..].
  destruct (blind_message a) as [r Hm]. destruct (Hm _ R1') as (k1'' & -> & R1''), (Hm _ R2') as (k2'' & -> & R2'').
  by split; [|apply Hmk].
Qed.

Lemma finish_alike (w1 w2 : StreamWriter) : alike w1 w2 → (stream_writer_finish w1).1 = (stream_writer_finish w2).1.
Proof.
  intros (Hs & Ht & Hf & G1 & G2). unfold stream_writer_finish. rewrite Hf. destruct (sw_finished w2); [done|].
  destruct (write_each_roomy MAX_WRITE_CHUNK [CONTINUATION_MARKER; [x00; x00; x00; x00]] (sw_writer w1) ltac:(done) G1) as (k1 & -> & _ & _ & E1).
  destruct (write_each_roomy MAX_WRITE_CHUNK [CONTINUATION_MARKER; [x00; x00; x00; x00]] (sw_writer w2) ltac:(done) G2) as (k2 & -> & _ & _ & E2).
  simpl. by rewrite E1, E2.
Qed.

Lemma encodes_anywhere base s its : encodes [] s its → encodes base s its.
Proof.
  intros (w1 & Hn & Ha). unfold encodes, stream_writer_new in *. destruct (schema_to_bytes s tracker_new) as [enc tr].
  destruct (blind_message enc) as [r Hm].
  destruct (Hm (vec_of []) ltac:(done)) as (k1 & E1 & R1), (Hm (vec_of base) ltac:(done)) as (k2 & E2 & R2).
  rewrite E1 in Hn. rewrite E2. destruct r as [[]|er|]; [|done..]. simpl in *. injection Hn as <-. eexists. split; [done|].
  assert (alike (mkStreamWriter k1 s tr false) (mkStreamWriter k2 s tr false)) as Hw by done. revert Ha Hw.
  generalize (mkStreamWriter k1 s tr false), (mkStreamWriter k2 s tr false).
  induction its as [|[b md] its IH]; intros w1 w2 Ha Hw; simpl in *.
  - by rewrite <- (finish_alike w1 w2).
  - destruct Ha as (w1' & E & Ha). destruct (write_alike w1 w2 b md Hw) as [Hr Hw']. rewrite E in *.
    destruct (stream_writer_write w2 b md) as [r w2']. simpl in Hr. subst r. exists w2'. split; [done|]. by eapply IH.
Qed.

(** ** Unary calls *)
Section Answers.
Context (sid rid : list byte) (tb : option (list byte)) (E : RecordBatch).

Definition log_item (m : LogMessage) : item := (E, Some (build_log_metadata m sid rid)).
Definition failure_item (e : RpcError) : item := (E, Some (build_error_metadata e sid rid tb)).

(** The last item of a unary answer without shared memory or storage, and the error
    it reports. *)
Definition unary_last (s : ArrowSchema) (r : res RpcError (option RecordBatch)) (ref : option ExternalRef)
  : item * option RpcError :=
  match r, ref with
  | Ok _, Some p => match pointer_batch p s with
                    | Ok (b, md) => ((b, Some md), None)
                    | Err e => (failure_item e, Some e)
                    | Panic => ((E, None), None)
                    end
  | Ok ob, None => ((default E ob, None), None)
  | Err e, _ => (failure_item e, Some e)
  | Panic, _ => ((E, None), None)
  end.
End Answers.

(** What the pipe's dispatcher checked of a request it serves. *)
Definition served (server : RpcServer (UnaryHandler (App:=happ) (Conn:=HttpCtx)) (HttpStream (App:=App) (Sess:=Sess) (St:=St)))
    (b : RecordBatch) (md : Metadata) (req : Request) info : Prop :=
  from_read_batch b md true = Ok req ∧ batch req = b ∧ metadata req = md ∧ protocol req ≠ [] ∧
  method req ≠ RETIRED_DESCRIBE_METHOD ∧ protocol req ≠ REFLECTION_PROTOCOL_NAME ∧
  (∃ bnd, route server (protocol req) = Ok bnd ∧
     validate_protocol_version (rb_name bnd) (rb_version bnd) md = Ok tt ∧ rb_methods bnd !! method req = Some info) ∧
  validate_parameter_batch b (params_schema info) = Ok tt.

Lemma served_by_dispatch server b md req info (u : bool) :
  dispatch server b md = Ok (if u then ServeUnary req info else ServeStream req info) →
  served server b md req info ∧ is_unary (method_type info) = u.
Proof.
  intros Ha.
  unfold dispatch in Ha. destruct (from_read_batch b md true) as [r|?|] eqn:Er; [|by destruct u..]. cbn [error_or] in Ha.
  assert (batch r = b ∧ metadata r = md) as [Hb Hm].
  { clear Ha. unfold from_read_batch in Er. case_match; [done|]. inv_res. case_match; [done|]. case_match; [done|]. by inv_res. }
  case_bool_decide; [by destruct u|]. case_bool_decide as Hret; [by destruct u|]. case_bool_decide as Hrefl; [by destruct u|].
  destruct (route server (protocol r)) as [bnd|?|] eqn:Ert; [|by destruct u..]. cbn [error_or] in Ha.
  unfold dispatch_routed in Ha. rewrite Hm, Hb in Ha.
  destruct (validate_protocol_version _ _ _) as [[]|?|] eqn:Ev; [|by destruct u..]. cbn [error_or] in Ha.
  destruct (rb_methods bnd !! method r) as [i|] eqn:Ei; [|by destruct u].
  destruct (validate_parameter_batch _ _) as [[]|?|] eqn:Ep; [|by destruct u..]. cbn [error_or] in Ha.
  assert (r = req ∧ i = info ∧ is_unary (method_type i) = u) as (-> & -> & Hu) by (destruct u, (method_type i); by simplify_eq).
  split; [|done]. split_and!; try done; [|by eauto]. intros E0. unfold route in Ert. by rewrite bool_decide_eq_true_2 in Ert.
Qed.

Lemma unwrap_ok {S A} (r : res RpcError A) a (s : S) : r = Ok a → unwrap r s = (Ok a, s).
Proof. by intros ->. Qed.

Lemma or_respond_ok {S A} f (r : res RpcError A) a (s : S) : r = Ok a → or_respond f r s = (Ok a, s).
Proof. by intros ->. Qed.

(** The request of a body that names its route. *)
Lemma routed_exact st b md req info m body w :
  served (hs_server st) b md req info → read_single body = Ok (Some (b, md)) → m = method req →
  routed_request st (Some (protocol req)) m body w = (Ok req, w).
Proof.
  intros (Hreq & _ & _ & Hp & _) Hr ->. unfold routed_request. erewrite hm_bind; cycle 1.
  { apply or_respond_ok. unfold parse_request_from_body. rewrite Hr. simpl. exact Hreq. }
  erewrite hm_bind by (by rewrite bool_decide_eq_true_2). apply or_respond_ok. unfold adopt_path_protocol.
  rewrite (bool_decide_eq_false_2 _ Hp), bool_decide_eq_true_2 by done. done.
Qed.

(** Then its binding, parameters and method. *)
Lemma found_exact {A} st e b md req info m w (want : MethodType → bool) (k : Request → hmethod → HM world A) :
  served (hs_server st) b md req info → want (method_type info) = true → m = method req →
  md !! LOCATION_KEY = None ∨ external_config (hs_server st) = None →
  (binding ← gated_binding st req; req ← resolve_parameters st e req;
   info ← find_method st binding want (request_id req) m; _ ← check_parameters st req info; k req info) w = k req info w.
Proof.
  intros (_ & Hb & Hmd & _ & _ & _ & (bnd & Hr & Hv & Hi) & Hp) Hw -> Hloc.
  erewrite hm_bind; cycle 1.
  { unfold gated_binding. erewrite hm_bind by by apply or_respond_ok. rewrite Hmd. erewrite hm_bind by by apply or_respond_ok. done. }
  erewrite hm_bind; cycle 1.
  { unfold resolve_parameters. rewrite Hmd. destruct Hloc as [->| ->]; [done|]. by destruct (md !! LOCATION_KEY). }
  erewrite hm_bind by (unfold find_method; by rewrite Hi, Hw).
  erewrite hm_bind; [done|]. unfold check_parameters. rewrite Hb. by apply or_respond_ok.
Qed.

(** Stamping changes headers only, and keeps the error flag. *)
Lemma stamp_exact st r w :
  ∃ h, stamp_session st r w = (Ok (mkHttpResponse (rstatus r) h (rbody r)), w) ∧
       hget RPC_ERROR_HEADER h = hget RPC_ERROR_HEADER (rheaders r) ∧
       ∀ k, session_name k = false → hget_all k h = hget_all k (rheaders r).
Proof.
  unfold stamp_session. destruct (ha_sink (hw_app w)) as [s|]; [|exists (rheaders r); by destruct r].
  destruct (stamp_session_keeps st s r) as (_ & _ & Hf). eexists. split_and!; [done..|]. by apply stamp_session_others.
Qed.

(** The headers of an answer of items: its type, its flag and its session's. *)
Definition plain_headers (h : HeaderMap) : Prop :=
  ∀ k, session_name k = false → k ≠ CONTENT_TYPE → k ≠ RPC_ERROR_HEADER → hget_all k h = [].

Lemma plain_answer (o : bool) l h :
  (∀ k, session_name k = false → hget_all k h = hget_all k (rheaders (if o then stamp_rpc_error (arrow_response 200 l) else arrow_response 200 l))) →
  plain_headers h.
Proof.
  intros Hh k Hs Hc Hr. rewrite Hh by done. assert (hget_all k (rheaders (arrow_response 200 l)) = []) as Ha.
  { unfold hget_all. cbn [arrow_response rheaders List.filter fst]. by rewrite bool_decide_eq_false_2 by done. }
  destruct o; [|done]. cbn [stamp_rpc_error rheaders]. by rewrite hget_all_hinsert_ne.
Qed.

Lemma writes_hlog st req s E log w :
  empty_batch s = Ok E →
  writes (hput_log st req s log) w [log_item (server_id (hs_server st)) (request_id req) E log] tt w.
Proof. intros HE. by apply writes_empty. Qed.

Lemma writes_herror st req s E er w :
  empty_batch s = Ok E →
  writes (hput_error st req s er) w
    [failure_item (server_id (hs_server st)) (request_id req)
       (traceback_origin (hs_server st) (protocol req) (method req)) E er] tt w.
Proof. intros HE. by apply writes_empty. Qed.

(** The context of a call, what its handler made of it, and the items of its answer. *)
Definition call_context (ad : Accepted) (h : HeaderMap) (tick : option Metadata) : HttpCtx :=
  mkHttpCtx (ad_auth ad) (ad_evidence ad) (parse_cookies (get_text COOKIE h)) tick (ad_limit ad) (ad_preferred ad).

Definition unary_ran info (req : Request) (cx : HttpCtx) (a : happ)
  : res RpcError (option RecordBatch) * list LogMessage * option ExternalRef * happ :=
  match mi_unary info with
  | Some f => let o := f req cx a in (call_guard (u_result o), u_logs o, u_external_ref o, u_app o)
  | None => (Err handler_panicked, [], None, a)
  end.

Definition unary_items st info (req : Request) (E : RecordBatch) (r : res RpcError (option RecordBatch))
    (logs : list LogMessage) (ref : option ExternalRef) : list item * option RpcError :=
  let sid := server_id (hs_server st) in
  let tb := traceback_origin (hs_server st) (protocol req) (method req) in
  let '(last, err) := unary_last sid (request_id req) tb E (result_schema info) r ref in
  ((log_item sid (request_id req) E <$> logs) ++ [last], err).

Lemma unary_body_exact st req info limit E r logs ref w :
  external_config (hs_server st) = None → empty_batch (result_schema info) = Ok E → r ≠ Panic →
  let '(its, err) := unary_items st info req E r logs ref in
  ∃ ub, ub_err ub = err ∧ ub_external ub = 0 ∧ closes (unary_body st req info limit r logs ref) w its ub w.
Proof.
  intros Hx HE Hr. unfold unary_items. destruct (unary_last _ _ _ _ _ _ _) as [last err] eqn:El.
  assert (∃ ub, ub_err ub = err ∧ ub_external ub = 0 ∧ writes (unary_result st req info limit r ref) w [last] ub w)
    as (ub & Hu & H0' & Hw).
  { unfold unary_last in El. unfold unary_result. rewrite Hx. destruct r as [ob|er|]; [|injection El as <- <-|done].
    - destruct ref as [p|].
      + unfold pointer_batch in *. rewrite HE in *. cbn [mbind res_bind] in *. injection El as <- <-.
        eexists (mkUnaryBody None 1 0 0). split; [done|]. split; [done|]. rewrite <- (app_nil_r [_]).
        eapply writes_bind; [apply writes_put|apply writes_ret].
      + injection El as <- <-. exists (mkUnaryBody None 1 (num_rows (default E ob)) 0). split; [done|]. split; [done|].
        assert (writes (match ob with Some b => mret b | None => unwrap (empty_batch (result_schema info)) end) w [] (default E ob) w)
          as Hob by (destruct ob; intros sw sw' [= <-]; [done|by rewrite HE]).
        refine (writes_bind _ _ _ [] [_] _ _ _ _ Hob _). rewrite <- (app_nil_r [_]).
        eapply writes_bind; [apply writes_put|apply writes_ret].
    - exists (mkUnaryBody (Some er) 0 0 0). split; [done|]. split; [done|]. rewrite <- (app_nil_r [_]).
      eapply writes_bind; [by apply writes_herror|apply writes_ret]. }
  exists ub. split; [done|]. split; [done|]. unfold unary_body.
  eapply closes_bind; [apply writes_each; intros; by apply writes_hlog|].
  rewrite <- (app_nil_r [last]). eapply closes_bind; [exact Hw|apply closes_end].
Qed.

(** Accepting a request does not touch the calls. *)
Definition keeps_calls {A} (m : HM world A) : Prop := ∀ w r w', m w = (r, w') → hw_calls w' = hw_calls w.

Lemma keeps_calls_bind {A B} (m : HM world A) (f : A → HM world B) :
  keeps_calls m → (∀ a, keeps_calls (f a)) → keeps_calls (m ≫= f).
Proof.
  intros Hm Hf w r w' E. unfold mbind, HM_bind in E. destruct (m w) as [[a|resp|] w1] eqn:Em; apply Hm in Em.
  - rewrite <- Em. by eapply Hf.
  - by injection E as <- <-.
  - by injection E as <- <-.
Qed.

Lemma keeps_or {A} f (r : res RpcError A) : keeps_calls (or_respond f r).
Proof. destruct r; by intros w x w' [= <- <-]. Qed.

Lemma accept_keeps st e m h body : keeps_calls (accept_request st e m h body).
Proof.
  unfold accept_request. apply keeps_calls_bind; [|intros ri].
  { intros w r w' E. unfold authenticate_http in E. destruct (authenticate_request_from_peer _ _ _ _ _ _). by injection E as <- <-. }
  apply keeps_calls_bind; [apply keeps_or|intros [limit preferred]].
  apply keeps_calls_bind; [destruct (has_arrow_ct h); by intros w x w' [= <- <-]|intros _].
  apply keeps_calls_bind; [|intros _; apply keeps_calls_bind; [apply keeps_or|]; by intros a w x w' [= <- <-]].
  intros w r w' E. unfold sticky_for_request in E. destruct (hs_sticky st) as [ctx|]; [|by injection E as <- <-].
  destruct (Sticky.resolve _ _ _ _ _ _) as [[[s|er] reg]|?|]; by injection E as <- <-.
Qed.

(** Hooks and the accounting of uploads leave calls and application alone. *)
Definition aside w w' : Prop := hw_app w' = hw_app w ∧ hw_calls w' = hw_calls w.

Lemma hooked_aside st x w : ∃ w', hooked st x w = (Ok tt, w') ∧ aside w w'.
Proof. unfold hooked. destruct (dispatch_hook _); by eexists. Qed.

Lemma scope_begin_aside w : ∃ n w', scope_begin_http w = (Ok n, w') ∧ aside w w'.
Proof. unfold scope_begin_http. destruct (scope_new _) as [n x]. by eexists _, _. Qed.

Lemma scope_end_aside n w : ∃ k w', scope_end_http n w = (Ok k, w') ∧ aside w w'.
Proof. unfold scope_end_http. destruct (scope_finish _ _) as [k x]. by eexists _, _. Qed.

Lemma run_unary_exact info req cx w r logs ref app :
  unary_ran info req cx (hw_app w) = (r, logs, ref, app) →
  ∃ w', run_unary_http info req cx w = (Ok (r, logs, ref), w') ∧ hw_app w' = app ∧ hw_calls w' = hw_calls w ∧ r ≠ Panic.
Proof.
  unfold unary_ran, run_unary_http. destruct (mi_unary info) as [f|]; intros [= <- <- <- <-]; eexists; split_and!; try done.
  apply call_guard_no_panic.
Qed.

Lemma unary_call_exact st h wire req info ad w r logs ref app E its err l :
  external_config (hs_server st) = None → over 0 (max_externalized_response_bytes (hs_limits st)) = false →
  empty_batch (result_schema info) = Ok E →
  unary_ran info req (call_context ad h None) (hw_app w) = (r, logs, ref, app) →
  unary_items st info req E r logs ref = (its, err) → vec_stream [] (result_schema info) its = Ok l →
  over (zlen l) (ad_limit ad) = false →
  ∃ h' w', unary_call st h wire req info ad w = (Ok (mkHttpResponse 200 h' l), w') ∧ hw_app w' = app ∧
    hget RPC_ERROR_HEADER h' = (_ ← err; Some (bs "true")) ∧ plain_headers h'.
Proof.
  intros Hx Hcap HE Hran Hits Hv Hover. unfold unary_call.
  destruct (hooked_aside st (HttpStart (dispatch_info req (ad_auth ad) h [] wire (Some (batch req)))) w) as (w1 & E1 & Ha1 & Hc1).
  erewrite hm_bind by exact E1. destruct (scope_begin_aside w1) as (n & w2 & E2 & Ha2 & Hc2). erewrite hm_bind by exact E2.
  rewrite <- Ha1, <- Ha2 in Hran. destruct (run_unary_exact _ _ _ _ _ _ _ _ Hran) as (w3 & E3 & Ha3 & Hc3 & Hr).
  erewrite hm_bind by exact E3. cbv beta iota.
  pose proof (unary_body_exact st req info (ad_limit ad) E r logs ref w3 Hx HE Hr) as Hb. rewrite Hits in Hb.
  destruct Hb as (ub & Hu & H0' & Hw). erewrite hm_bind by by eapply with_vec_exact. cbv beta iota.
  destruct (scope_end_aside n w3) as (k & w4 & E4 & Ha4 & Hc4). erewrite hm_bind by exact E4.
  match goal with |- context [hooked st ?x] => destruct (hooked_aside st x w4) as (w5 & E5 & Ha5 & Hc5) end.
  erewrite hm_bind by exact E5. unfold unary_cap_error. rewrite Hover, H0', Hcap, Hu.
  destruct (stamp_exact st (match err with Some _ => stamp_rpc_error (arrow_response 200 l) | None => arrow_response 200 l end) w5)
    as (h' & E6 & Hf & Ho). rewrite E6. exists h', w5. split; [by destruct err|]. split; [congruence|]. rewrite Hf. split.
  - destruct err; [apply hget_hinsert|done].
  - apply (plain_answer (bool_decide (is_Some err)) l). by destruct err.
Qed.

Lemma http_unary_served f st e h body w ad w1 b md req info E :
  accept_request st e (method req) h body w = (Ok ad, w1) → read_single (ad_body ad) = Ok (Some (b, md)) →
  dispatch (hs_server st) b md = Ok (ServeUnary req info) →
  external_config (hs_server st) = None → over 0 (max_externalized_response_bytes (hs_limits st)) = false → empty_batch (result_schema info) = Ok E →
  let '(r, logs, ref, app) := unary_ran info req (call_context ad h None) (hw_app w1) in
  let '(its, err) := unary_items st info req E r logs ref in
  encodes [] (result_schema info) its → readable (result_schema info) its →
  ∃ l, vec_stream [] (result_schema info) its = Ok l ∧ wire_stream (result_schema info) (prod_map id (default ∅) <$> its) l ∧
    (over (zlen l) (ad_limit ad) = false →
     ∃ h' w', unary_dispatch f st e (Some (protocol req)) (method req) h body w = (Ok (mkHttpResponse 200 h' l), w') ∧
       hw_app w' = app ∧ hget RPC_ERROR_HEADER h' = (_ ← err; Some (bs "true")) ∧ plain_headers h').
Proof.
  intros Hacc Hrd Hd Hx Hcap HE. destruct (unary_ran _ _ _ _) as [[[r logs] ref] app] eqn:Eran.
  destruct (unary_items _ _ _ _ _ _ _) as [its err] eqn:Eits. intros Henc Hread.
  destruct (encodes_wire _ _ _ Henc Hread) as (l & Hv & Hl). exists l. split; [done|]. split; [done|]. intros Hover.
  destruct (served_by_dispatch _ _ _ _ _ true Hd) as [Hs Hu].
  unfold unary_dispatch. erewrite hm_bind by exact Hacc. erewrite hm_bind by by eapply routed_exact.
  erewrite hm_bind by done. rewrite bool_decide_eq_false_2 by apply Hs. rewrite bool_decide_eq_false_2 by apply Hs.
  rewrite (found_exact st e b md req info (method req) w1 is_unary (fun req info => unary_call st h (zlen body) req info ad)) by auto.
  by eapply unary_call_exact.
Qed.

(** C7. A unary call over HTTP is the call a pipe serves: an accepted request whose
    body carries a frame the dispatcher serves runs its handler once, in its own
    context, and is answered with status 200 and the stream of the handler's logs and
    its result, pointer or error, flagged exactly when it is an error, unless it is
    larger than was agreed. *)
Theorem http_unary_exact f st e h body w ad w1 b md req info E :
  accept_request st e (method req) h body w = (Ok ad, w1) → read_single (ad_body ad) = Ok (Some (b, md)) →
  dispatch (hs_server st) b md = Ok (ServeUnary req info) →
  external_config (hs_server st) = None → over 0 (max_externalized_response_bytes (hs_limits st)) = false → empty_batch (result_schema info) = Ok E →
  let '(r, logs, ref, app) := unary_ran info req (call_context ad h None) (hw_app w1) in
  let '(its, err) := unary_items st info req E r logs ref in
  encodes [] (result_schema info) its → readable (result_schema info) its →
  ∃ l, wire_stream (result_schema info) (prod_map id (default ∅) <$> its) l ∧
    (over (zlen l) (ad_limit ad) = false →
     ∃ h' w', unary_dispatch f st e (Some (protocol req)) (method req) h body w = (Ok (mkHttpResponse 200 h' l), w') ∧
       hw_app w' = app ∧ hget RPC_ERROR_HEADER h' = (_ ← err; Some (bs "true"))).
Proof.
  intros Hacc Hrd Hd Hx Hcap HE. pose proof (http_unary_served f st e h body w ad w1 b md req info E Hacc Hrd Hd Hx Hcap HE) as Hs.
  destruct (unary_ran _ _ _ _) as [[[r logs] ref] app]. destruct (unary_items _ _ _ _ _ _ _) as [its err]. intros Henc Hread.
  destruct (Hs Henc Hread) as (l & _ & Hl & Ho). exists l. split; [done|]. intros Hover. destruct (Ho Hover) as (h' & w' & ? & ? & ? & _). eauto.
Qed.
End Turns.
