(* ===== verification/HttpStreams.v ===== *)
(** * HTTP streams: turns that resume from a token

    A stream over HTTP keeps no state on the server between turns: the cursor a turn
    hands out carries the state object, the call token what is fixed for the call.
    The tokens of one response, sent back in the next request, bring any worker with
    the key to the state the last turn left, and the turn it then runs is the one the
    handler makes from that state. *)

From S2P Require Import Prelude Bytes Metadata F64 Json ErrorModel Errors Crypto Auth Sticky StreamTokens StreamTokensProps StickyProps PeerIdentity HttpBase HttpBaseProps HttpAuth.
From S2P Require Import ShmAllocator Ipc IpcProps IpcWriter IpcWriterProps IpcStream Arrow External ExternalProps ShmBatch ShmBatchProps Dispatch DispatchProps Envelope EnvelopeProps Stream Serve ServeProps Http HttpProps HttpTurns.

#[local] Open Scope Z_scope.

Section Streams.
Context `{LS : ArrowShmLaws} `{JL : JsonLaws} `{!Aead, !AeadLaws, !Base64, !Base64Laws, !StreamTokens.Zstd, !StreamTokens.ZstdLaws}.
Context `{!External.Zstd, !UrlLib, !HttpLib, !HttpLibLaws, !ContentCodecs}.
Context {App Sess St Store Cb : Type} `{!ExternalStorage Store, !Fetcher Store}.
Context `{!HttpStreamState (App:=App) (Sess:=Sess) (St:=St)}.

Abbreviation state := (HttpState (App:=App) (Sess:=Sess) (St:=St) (AS:=Cb)).
Abbreviation world := (HWorld (App:=App) (Sess:=Sess) (Store:=Store) (AS:=Cb)).
Abbreviation hresp := (HResp (App:=App) (Sess:=Sess) (Store:=Store) (AS:=Cb)).
Abbreviation happ := (HApp (App:=App) (Sess:=Sess)).
Abbreviation hmethod := (MethodInfo (UnaryHandler (App:=happ) (Conn:=HttpCtx)) (HttpStream (App:=App) (Sess:=Sess) (St:=St))).
Abbreviation item := (RecordBatch * option Metadata)%type.
Implicit Types (st : state) (w : world) (info : hmethod) (its : list item) (ss : StreamStateKind St).

(** ** Schemas in tokens *)
Lemma schema_bytes_roundtrip s bytes :
  write_schema_bytes s = Ok bytes → schema_readable s → read_schema_bytes bytes = Ok s ∧ bytes ≠ [].
Proof.
  intros Hw Hs. unfold write_schema_bytes, write_one_batch in Hw. apply bind_Ok in Hw as (b & Hb & Hw).
  apply empty_batch_spec in Hb as [Hb _]. rewrite Hb in Hw.
  apply write_one_batch_bytes in Hw as (mb0 & fs & mb & d & -> & Hf & _); [|done|rewrite <- Hb; apply fits_own|done].
  destruct (stream_reader_new_ok [Data (wire_frame mb0.1 mb0.2 ++ wire_frames (fs ++ [mb]) ++ wire_eos)] s mb0
              (wire_frames (fs ++ [mb]) ++ wire_eos) Hf Hs) as (r & Hr & _); [by repeat constructor|simpl; by rewrite app_nil_r|].
  split; [unfold read_schema_bytes; by rewrite Hr|]. unfold wire_eos, wire_frame. destruct (CONTINUATION_MARKER) eqn:E; [done|]. intros [=].
Qed.

(** ** What the tokens of a request carry *)

(** A live cursor over the encoded state [bytes] of the call [cid], minted for [auth]. *)
Definition live_cursor st (auth : AuthContext) (now : Z) (bytes cid token : list byte) : Prop :=
  28 + zlen bytes ≤ MAX_TOKEN_PLAINTEXT_BYTES ∧ zlen cid = CALL_ID_LEN ∧
  ∃ created nonce, zlen nonce = NONCE_LEN ∧ in_u64 created ∧
    check_ttl (token_ttl_opt (hs_tokens st)) now created = Ok tt ∧
    token = state_pack_cursor_token (hs_tokens st) auth bytes cid created nonce.

(** [md] carries the state [bytes] of the call [m], whose token is alive too. *)
Definition carries st (log : gmap (list byte) MintedCall) (auth : AuthContext) (now : Z) (md : Metadata)
    (bytes cid : list byte) (m : MintedCall) : Prop :=
  (∃ token, md !! STATE_KEY = Some token ∧ live_cursor st auth now bytes cid token) ∧
  log !! cid = Some m ∧ session_identity auth = session_identity (mc_auth m) ∧
  md !! CALL_STATE_KEY = Some (mc_token m) ∧ check_ttl (token_ttl_opt (hs_tokens st)) now (mc_created m) = Ok tt.

(** What is fixed for a call, as its token holds it. *)
Definition describes (call : ResolvedCall) (output : ArrowSchema) (input : option ArrowSchema) : Prop :=
  write_schema_bytes output = Ok (output_schema_bytes call) ∧ schema_readable output ∧
  match input with
  | Some s => write_schema_bytes s = Ok (input_schema_bytes call) ∧ schema_readable s
  | None => input_schema_bytes call = []
  end.

Lemma open_tokens_exact st e auth md w log bytes cid m output input :
  calls_reachable (hs_tokens st) (mkCalls (hw_calls w) log) →
  carries st log auth (e_unix e) md bytes cid m → describes (mc_call m) output input →
  ∃ ct w', open_tokens st e auth md w = (Ok ct, w') ∧ hw_app w' = hw_app w ∧ state_bytes (ct_cursor ct) = bytes ∧
    call_id (ct_cursor ct) = cid ∧ ct_output ct = output ∧ ct_input ct = input ∧ StreamTokensProps.same_call (ct_call ct) (mc_call m).
Proof.
  intros Hr%calls_reachable_ok ((token & Ht & Hsz & Hcid & created & nonce & Hn & Hcr & Httl & ->) & Hm & Hid & Hct & Hlive) (Ho & Hro & Hi).
  unfold open_tokens. rewrite Ht. erewrite hm_bind by done.
  erewrite hm_bind; cycle 1.
  { apply or_respond_ok. rewrite unpack_cursor_own by done. by rewrite Httl. }
  destruct (resolve_call_minted (hs_tokens st) (mkCalls (hw_calls w) log) auth (mkCursor bytes cid created) m (e_unix e) (hw_calls w))
    as (call & calls & Er & Hsame); [done..| |by left|].
  { intros tok x [= <-] _. by exists cid, m. }
  rewrite Hct. erewrite hm_bind by (by rewrite Er). erewrite hm_bind by done.
  destruct Hsame as (Hs1 & Hs2 & Hs3). rewrite Hs1.
  erewrite hm_bind; cycle 1. { apply or_respond_ok. by apply schema_bytes_roundtrip. }
  erewrite hm_bind; cycle 1.
  { rewrite Hs2. instantiate (2 := input). destruct input as [si|].
    - destruct Hi as [Hi Hri]. destruct (schema_bytes_roundtrip _ _ Hi Hri) as [Hrd Hne].
      rewrite bool_decide_eq_false_2 by done. erewrite hm_bind by by apply or_respond_ok. done.
    - by rewrite bool_decide_eq_true_2. }
  eexists _, _. split; [done|]. done.
Qed.

(** ** The turn from a state *)

(** A method of the state on a fresh collector. *)
Definition ran (schema : ArrowSchema) (producer : bool) (cx : HttpCtx) (t : happ → Turn (St * happ)) (a : happ)
  : res RpcError unit * St * OutputCollector * list LogMessage * happ :=
  let '(r, (x, a), out, logs) :=
    run_turn (t a) (set_response_budget (cx_limit cx) (cx_preferred cx) (collector_new schema producer)) [] in
  (call_guard r, x, out, logs, a).

Lemma run_http_turn_exact schema producer cx t w r x out logs a :
  ran schema producer cx t (hw_app w) = (r, x, out, logs, a) →
  run_http_turn schema producer cx t w = (Ok (r, x, out, logs), set_happ a w) ∧ r ≠ Panic.
Proof.
  unfold ran, run_http_turn. destruct (run_turn _ _ _) as [[[r0 [x0 a0]] out0] logs0]. intros [= <- <- <- <- <-].
  split; [done|]. apply call_guard_no_panic.
Qed.

Definition batches (l : list Emitted) : Z := zlen (filter (fun i => is_data i = true) l).
Definition emitted_rows (l : list Emitted) : Z :=
  foldr (fun i n => match i with EBatch b _ => num_rows b | ELog _ => 0 end + n) 0 l.

Section Turn.
Context (st : state) (e : HEnv) (req : Request) (schema : ArrowSchema) (E : RecordBatch) (auth : AuthContext) (cid : list byte).
Abbreviation sid := (server_id (hs_server st)).
Abbreviation tb := (traceback_origin (hs_server st) (protocol req) (method req)).
Abbreviation log := (log_item sid (request_id req) E).
Abbreviation failure := (failure_item sid (request_id req) tb E).

Definition emitted (stamp : option Metadata → option Metadata) (i : Emitted) : item :=
  match i with ELog m => log m | EBatch b md => (b, stamp md) end.

(** The cursor over a state, minted in this turn. *)
Definition cursor (bytes : list byte) : list byte :=
  state_pack_cursor_token (hs_tokens st) auth bytes cid (e_unix e) (e_cursor_nonce e).
Definition cursor_item (bytes : list byte) : item := (E, Some {[STATE_KEY := cursor bytes]}).

(** The items of a turn, the error it reports, the state to go on from, and the
    application's. *)
Definition turn_answer : Type := list item * option RpcError * option (list byte) * happ.

Definition producer_turn (cx : HttpCtx) (x : St) (a : happ) : turn_answer :=
  let '(r, x, out, logs, a) := ran schema true cx (h_produce x cx) a in
  match r with
  | Err er => ((log <$> logs) ++ [failure er], Some er, None, a)
  | _ =>
    let its := (log <$> logs) ++ (emitted id <$> items out) in
    if oc_finished out || (batches (items out) =? 0) then (its, None, None, a) else
    match call_guard (h_encode_state (SProducer x)) with
    | Ok bytes => (its ++ [cursor_item bytes], None, Some bytes, a)
    | Err er => (its ++ [failure er], Some er, None, a)
    | Panic => (its, None, None, a)
    end
  end.

Definition exchange_answer (cx : HttpCtx) (x : St) (b : RecordBatch) (a : happ) : turn_answer :=
  let '(r, x, out, logs, a) := ran schema false cx (fun a => h_exchange x cx b a) a in
  match r with
  | Err er => ((log <$> logs) ++ [failure er], Some er, None, a)
  | _ =>
    match call_guard (h_encode_state (SExchange x)) with
    | Ok bytes => ((log <$> logs) ++ (emitted (stamp_cursor (cursor bytes)) <$> items out) ++
                     (if batches (items out) =? 0 then [cursor_item bytes] else []), None, Some bytes, a)
    | Err er => ((log <$> logs) ++ [failure er], Some er, None, a)
    | Panic => (log <$> logs, None, None, a)
    end
  end.

(** A turn that goes on hands out a cursor over the state to go on from. *)
Lemma producer_turn_cursor cx x a its err bytes a' :
  producer_turn cx x a = (its, err, Some bytes, a') → cursor_item bytes ∈ its ∧ err = None.
Proof.
  unfold producer_turn. destruct (ran _ _ _ _ _) as [[[[r x'] out] logs] a1].
  assert (∀ its0 (b : bool), (if b then (its0, None, None, a1) else
    match call_guard (h_encode_state (SProducer x')) with
    | Ok bytes => (its0 ++ [cursor_item bytes], None, Some bytes, a1)
    | Err er => (its0 ++ [failure er], Some er, None, a1)
    | Panic => (its0, None, None, a1)
    end) = (its, err, Some bytes, a') → cursor_item bytes ∈ its ∧ err = None) as Hk.
  { intros its0 []; [done|]. destruct (call_guard _) as [by0|?|]; [|done..]. intros [= <- <- -> _]. split; [set_solver|done]. }
  destruct r; [apply Hk|done|apply Hk].
Qed.

Lemma exchange_answer_cursor cx x b a its err bytes a' :
  exchange_answer cx x b a = (its, err, Some bytes, a') →
  (∃ i, i ∈ its ∧ default ∅ i.2 !! STATE_KEY = Some (cursor bytes)) ∧ err = None.
Proof.
  unfold exchange_answer. destruct (ran _ _ _ _ _) as [[[[r x'] out] logs] a1].
  assert (∀ o, match call_guard (h_encode_state (SExchange x')) with
    | Ok bytes => ((log <$> logs) ++ (emitted (stamp_cursor (cursor bytes)) <$> o) ++
                     (if batches o =? 0 then [cursor_item bytes] else []), None, Some bytes, a1)
    | Err er => ((log <$> logs) ++ [failure er], Some er, None, a1)
    | Panic => (log <$> logs, None, None, a1)
    end = (its, err, Some bytes, a') →
    (∃ i, i ∈ its ∧ default ∅ i.2 !! STATE_KEY = Some (cursor bytes)) ∧ err = None) as Hk; [|destruct r; [apply Hk|done|apply Hk]].
  intros o. destruct (call_guard _) as [by0|?|]; [|done..]. intros [= <- <- -> _]. split; [|done].
  destruct (Z.eqb_spec (batches o) 0) as [Hb|Hb].
  - exists (cursor_item bytes). split; [set_solver|]. simpl. apply lookup_singleton_eq.
  - assert (∃ b md, EBatch b md ∈ o) as (b0 & md0 & Hin).
    { unfold batches in Hb. destruct (filter _ o) as [|i l] eqn:Ef; [done|].
      assert (i ∈ filter (fun i => is_data i = true) o) as Hi by (rewrite Ef; set_solver).
      apply list_elem_of_filter in Hi as [Hd Hi]. destruct i; [eauto|done]. }
    exists (b0, stamp_cursor (cursor bytes) md0). split.
    + apply elem_of_app. right. apply elem_of_app. left. apply list_elem_of_fmap. by exists (EBatch b0 md0).
    + simpl. apply lookup_insert_eq.
Qed.

(** ** The bodies write these items *)
Context (Hext : external_config (hs_server st) = None) (HE : empty_batch schema = Ok E).

Lemma flush_exact limit stamp l : ∀ cum n rows w,
  writes (flush_items st req schema limit stamp cum n rows l) w (emitted stamp <$> l)
    (mkFlushed None (n + batches l) (rows + emitted_rows l)) w.
Proof.
  induction l as [|[b md|m] l IH]; intros cum n rows w; cbn [flush_items].
  - change (batches []) with 0. change (emitted_rows []) with 0. rewrite !Z.add_0_r. apply writes_ret.
  - refine (writes_bind _ _ _ [] (_ :: _) (Inline, cum) _ w _ _ _).
    { apply writes_world. unfold externalize_stream_batch. by rewrite Hext. }
    cbv beta iota. refine (writes_bind _ _ _ [_] _ tt _ w _ (writes_put _ _ _) _).
    replace (n + batches (EBatch b md :: l)) with (n + 1 + batches l).
    2:{ unfold batches. rewrite filter_cons_True by done. rewrite zlen_cons. lia. }
    replace (rows + emitted_rows (EBatch b md :: l)) with (rows + num_rows b + emitted_rows l) by (simpl; lia). apply IH.
  - refine (writes_bind _ _ _ [_] _ tt _ w _ (writes_hlog _ _ _ _ _ _ HE) _).
    unfold batches in *. rewrite filter_cons_False by done. apply IH.
Qed.

Lemma logs_exact (logs : list LogMessage) w : writes (h_each (hput_log st req schema) logs) w (log <$> logs) tt w.
Proof. apply writes_each. intros. by apply writes_hlog. Qed.

Lemma error_exact (tr : TurnRecord) er w :
  writes (_ ← hput_error st req schema er; mret tr) w [failure er] tr w.
Proof. rewrite <- (app_nil_r [_]). eapply writes_bind; [by apply writes_herror|apply writes_ret]. Qed.

(** A producer's turn, as [run_producer] makes it, before any token. *)
Definition producer_output (r : res RpcError unit) (out : OutputCollector) (logs : list LogMessage)
  : list item * ProducerTurn :=
  match r with
  | Err er => ((log <$> logs) ++ [failure er], mkProducerTurn true (Some er) 0 0)
  | _ => ((log <$> logs) ++ (emitted id <$> items out),
          mkProducerTurn (oc_finished out || (batches (items out) =? 0)) None (batches (items out)) (emitted_rows (items out)))
  end.

Lemma run_producer_exact evidence x tick limit preferred w r x' out logs a :
  ran schema true (mkHttpCtx auth evidence ∅ (Some tick) limit preferred)
    (h_produce x (mkHttpCtx auth evidence ∅ (Some tick) limit preferred)) (hw_app w) = (r, x', out, logs, a) →
  let '(its, turn) := producer_output r out logs in
  writes (run_producer st req schema auth evidence x tick limit preferred) w its (turn, x') (set_happ a w).
Proof.
  intros Hran. destruct (run_http_turn_exact _ _ _ _ _ _ _ _ _ _ Hran) as [Hr Hp]. unfold run_producer.
  assert (∀ its turn, writes (A:=ProducerTurn * St) (match r with
      | Err e => _ ← hput_error st req schema e; mret (mkProducerTurn true (Some e) 0 0, x')
      | Panic => fun s => (Panic, s)
      | Ok _ =>
        fl ← flush_items st req schema limit id 0 0 0 (items out);
        mret (match fl_err fl with
              | Some e => mkProducerTurn true (Some e) (fl_batches fl) (fl_rows fl)
              | None => mkProducerTurn (oc_finished out || (fl_batches fl =? 0)) None (fl_batches fl) (fl_rows fl)
              end, x')
      end) (set_happ a w) its (turn, x') (set_happ a w) →
    writes (run_producer st req schema auth evidence x tick limit preferred) w ((log <$> logs) ++ its) (turn, x') (set_happ a w)) as Hk.
  { intros its turn Hw. unfold run_producer. refine (writes_bind _ _ _ [] _ _ _ _ _ (writes_world _ _ _ _ Hr) _).
    cbv beta iota. exact (writes_bind _ _ _ _ _ _ _ _ _ (logs_exact logs _) Hw). }
  destruct r as [[]|er|]; [| |done]; simpl; apply Hk.
  - rewrite <- (app_nil_r (emitted id <$> _)). eapply writes_bind; [apply flush_exact|]. simpl. apply writes_ret.
  - rewrite <- (app_nil_r [_]). eapply writes_bind; [by apply writes_herror|apply writes_ret].
Qed.

Lemma cursor_built ss :
  build_cursor_token st e auth ss cid = (bytes ← call_guard (h_encode_state ss); Ok (cursor bytes, bytes)).
Proof. done. Qed.

Lemma cursor_exact (tr : TurnRecord) bytes w :
  writes (_ ← hput_empty schema {[STATE_KEY := cursor bytes]}; mret tr) w [cursor_item bytes] tr w.
Proof. rewrite <- (app_nil_r [_]). eapply writes_bind; [by apply writes_empty|apply writes_ret]. Qed.

Lemma producer_body_exact evidence x tick limit preferred w its err next a :
  producer_turn (mkHttpCtx auth evidence ∅ (Some tick) limit preferred) x (hw_app w) = (its, err, next, a) →
  ∃ tr, tr_error tr = err ∧
    closes (producer_body st e req schema auth evidence x tick cid limit preferred) w its tr (set_happ a w).
Proof.
  unfold producer_turn. destruct (ran _ _ _ _ _) as [[[[r x'] out] logs] a1] eqn:Er.
  pose proof (run_producer_exact _ _ _ _ _ _ _ _ _ _ _ Er) as Hrun.
  assert (r ≠ Panic) as Hp by by eapply run_http_turn_exact.
  unfold producer_body. intros Hans.
  assert (∀ its0 turn its1 tr, writes (run_producer st req schema auth evidence x tick limit preferred) w its0 (turn, x') (set_happ a1 w) →
    writes (if pt_finished turn then mret (mkTurnRecord (pt_error turn) (pt_batches turn) (pt_rows turn) []) else
        match build_cursor_token st e auth (SProducer x') cid with
        | Ok (token, state) =>
          _ ← hput_empty schema {[STATE_KEY := token]};
          mret (mkTurnRecord (pt_error turn) (pt_batches turn) (pt_rows turn) state)
        | Err er => _ ← hput_error st req schema er; mret (mkTurnRecord (Some er) (pt_batches turn) (pt_rows turn) [])
        | Panic => fun s => (Panic, s)
        end) (set_happ a1 w) its1 tr (set_happ a1 w) →
    closes (producer_body st e req schema auth evidence x tick cid limit preferred) w (its0 ++ its1) tr (set_happ a1 w)) as Hk.
  { intros its0 turn its1 tr Hw1 Hw2. unfold producer_body. eapply closes_bind; [exact Hw1|]. cbv beta iota.
    rewrite <- (app_nil_r its1). eapply closes_bind; [exact Hw2|apply closes_end]. }
  destruct r as [[]|er|]; [| |done]; simpl in Hrun.
  - destruct (oc_finished out || (batches (items out) =? 0)) eqn:Ef.
    + injection Hans as <- <- _ <-. eexists (mkTurnRecord None _ _ _). split; [done|]. rewrite <- (app_nil_r (_ ++ _)).
      eapply Hk; [exact Hrun|]. apply writes_ret.
    + destruct (call_guard (h_encode_state (SProducer x'))) as [bytes|er|] eqn:Ee; [injection Hans as <- <- _ <-..|by apply call_guard_no_panic in Ee].
      * eexists (mkTurnRecord None _ _ _). split; [done|]. eapply Hk; [exact Hrun|]. simpl. rewrite cursor_built, Ee. simpl. apply cursor_exact.
      * eexists (mkTurnRecord (Some er) _ _ _). split; [done|]. eapply Hk; [exact Hrun|]. simpl. rewrite cursor_built, Ee. simpl. apply error_exact.
  - injection Hans as <- <- _ <-. eexists (mkTurnRecord (Some er) _ _ _). split; [done|]. rewrite <- (app_nil_r (_ ++ _)).
    eapply Hk; [exact Hrun|]. apply writes_ret.
Qed.

(** The exchange's body; a cursor that cannot be minted is told apart. *)
Lemma exchange_body_exact cx x b limit w r x' out logs a1 its err next a :
  ran schema false cx (fun a => h_exchange x cx b a) (hw_app w) = (r, x', out, logs, a1) →
  exchange_answer cx x b (hw_app w) = (its, err, next, a) →
  a = a1 ∧ ∃ o, closes (exchange_body st e req schema auth r x' out logs cid limit) (set_happ a1 w) its o (set_happ a1 w) ∧
    err = match o with inl er => Some er | inr tr => tr_error tr end.
Proof.
  intros Er. assert (r ≠ Panic) as Hp by by eapply run_http_turn_exact. unfold exchange_answer. rewrite Er. intros Hans.
  assert (∀ its1 o, writes (match r with
      | Err er => _ ← hput_error st req schema er; mret (inr (mkTurnRecord (Some er) 0 0 []))
      | Panic => fun s => (Panic, s)
      | Ok _ => exchange_output st e req schema auth x' out cid limit
      end) (set_happ a1 w) its1 o (set_happ a1 w) →
    closes (exchange_body st e req schema auth r x' out logs cid limit) (set_happ a1 w) ((log <$> logs) ++ its1) o (set_happ a1 w)) as Hk.
  { intros its1 o Hw. unfold exchange_body. eapply closes_bind; [apply logs_exact|].
    rewrite <- (app_nil_r its1). eapply closes_bind; [exact Hw|apply closes_end]. }
  destruct r as [[]|er|]; [| |done].
  - destruct (call_guard (h_encode_state (SExchange x'))) as [bytes|er|] eqn:Ee; [injection Hans as <- <- _ <-..|by apply call_guard_no_panic in Ee].
    + split; [done|]. eexists (inr (mkTurnRecord None _ _ _)). split; [|done]. apply Hk. unfold exchange_output. rewrite cursor_built, Ee. simpl.
      eapply writes_bind; [apply flush_exact|]. simpl. rewrite andb_true_r, !Z.add_0_l. rewrite <- (app_nil_r (if batches (items out) =? 0 then _ else _)).
      eapply (writes_bind _ _ _ _ _ tt); [|apply writes_ret].
      destruct (batches (items out) =? 0); [by apply writes_empty|apply writes_ret].
    + split; [done|]. exists (inl er). split; [|done]. apply Hk. unfold exchange_output. rewrite cursor_built, Ee. simpl.
      rewrite <- (app_nil_r [_]). eapply writes_bind; [by apply writes_herror|apply writes_ret].
  - injection Hans as <- <- _ <-. split; [done|]. eexists (inr (mkTurnRecord (Some er) _ _ _)). split; [|done]. apply Hk.
    rewrite <- (app_nil_r [_]). eapply writes_bind; [by apply writes_herror|apply writes_ret].
Qed.
End Turn.

(** ** Answers *)
Lemma finish_turn_exact st req di outer schema limit rid tb buf tr rows w :
  over (zlen buf) limit = false →
  ∃ h' w', finish_turn st req di outer schema limit rid tb buf tr rows w = (Ok (mkHttpResponse 200 h' buf), w') ∧
    aside w w' ∧ hget RPC_ERROR_HEADER h' = (_ ← tr_error tr; Some (bs "true")).
Proof.
  intros Ho. unfold finish_turn.
  assert (∃ n w1, (if dispatch_hook (hs_server st) then scope_end_http outer else mret 0) w = (Ok n, w1) ∧ aside w w1)
    as (n & w1 & E1 & Ha1 & Hc1) by (destruct (dispatch_hook _); [apply scope_end_aside|by eexists _, _]).
  erewrite hm_bind by exact E1. erewrite hm_bind; cycle 1.
  { apply unwrap_ok. instantiate (1 := arrow_response 200 buf). unfold enforce_response_body_cap. destruct limit as [l|]; [|done].
    simpl in Ho. by rewrite Ho. }
  destruct (stamp_exact st (match tr_error tr with Some _ => stamp_rpc_error (arrow_response 200 buf) | None => arrow_response 200 buf end) w1)
    as (h' & E2 & Hf & _). erewrite hm_bind by exact E2.
  match goal with |- context [hooked st ?x] => destruct (hooked_aside st x w1) as (w2 & E3 & Ha2 & Hc2) end.
  erewrite hm_bind by exact E3. exists h', w2. split; [by destruct (tr_error tr)|]. split; [by split; congruence|].
  rewrite Hf. destruct (tr_error tr); [apply hget_hinsert|done].
Qed.

Lemma fail_turn_exact st di er buf rows w :
  ∃ h' w', fail_turn st di er buf rows w = (Ok (mkHttpResponse 200 h' buf), w') ∧ aside w w' ∧
    hget RPC_ERROR_HEADER h' = Some (bs "true").
Proof.
  unfold fail_turn. destruct (hooked_aside st (HttpEnd di (Some er) (mkStats 1 rows 0 0)) w) as (w1 & E1 & Ha).
  erewrite hm_bind by exact E1. eexists _, w1. split; [done|]. split; [done|]. apply hget_hinsert.
Qed.

(** ** Continuations *)

(** The batch an exchange is given; a producer's input is not looked at. *)
Definition turn_input ss (input : option ArrowSchema) (b : RecordBatch) : res RpcError RecordBatch :=
  match ss, input with
  | SExchange _, Some expected => if bool_decide (batch_schema b = expected) then Ok b else cast_batch b expected
  | _, _ => Ok b
  end.

Lemma cast_exact st req schema input b b' x w :
  turn_input (SExchange x) input b = Ok b' → cast_exchange st req schema input b w = (Ok (inr b'), w).
Proof.
  unfold turn_input, cast_exchange. destruct input as [s|]; [|by intros [= ->]]. case_bool_decide; [by intros [= ->]|]. by intros ->.
Qed.

(** The handler's turn from a state, for an accepted request. *)
Definition turn_from st (e : HEnv) (req : Request) (output : ArrowSchema) (E : RecordBatch) (ad : Accepted) (h : HeaderMap) (tick : Metadata) (cid : list byte)
    (limit preferred : option Z) ss (b : RecordBatch) (a : happ) : turn_answer :=
  match ss with
  | SProducer x =>
    producer_turn st e req output E (ad_auth ad) cid (mkHttpCtx (ad_auth ad) (ad_evidence ad) ∅ (Some tick) limit preferred) x a
  | SExchange x =>
    exchange_answer st e req output E (ad_auth ad) cid
      (mkHttpCtx (ad_auth ad) (ad_evidence ad) (parse_cookies (get_text COOKIE h)) (Some tick) limit preferred) x b a
  end.

(** What the method's route and decoder say of the state in a cursor. *)
Definition decodes st (path : option (list byte)) (m bytes : list byte) ss : Prop :=
  ∃ bnd info dec, route (hs_server st) (default [] path) = Ok bnd ∧ rb_methods bnd !! m = Some info ∧
    is_unary (method_type info) = false ∧ mi_stream info ≫= state_decoder = Some dec ∧ dec bytes = Ok ss.

Lemma decode_exact st path m bytes ss w : decodes st path m bytes ss → decode_state st path m bytes w = (Ok ss, w).
Proof.
  intros (bnd & info & dec & Hr & Hi & Hu & Hd & Hss). unfold decode_state.
  erewrite hm_bind by by apply or_respond_ok. erewrite hm_bind by (unfold find_method; by rewrite Hi, Hu).
  erewrite hm_bind; cycle 1. { apply or_respond_ok. by rewrite Hd. } apply or_respond_ok. by rewrite Hss.
Qed.

(** The end of a continuation, once its tokens are open. *)
Lemma turn_exact st e req di outer ct ad h tick limit preferred ss b b' w E its err next a l rid tb rows :
  external_config (hs_server st) = None → empty_batch (ct_output ct) = Ok E →
  turn_input ss (ct_input ct) b = Ok b' →
  turn_from st e req (ct_output ct) E ad h tick (call_id (ct_cursor ct)) limit preferred ss b' (hw_app w) = (its, err, next, a) →
  vec_stream [] (ct_output ct) its = Ok l → over (zlen l) limit = false →
  ∃ h' w', match ss with
    | SProducer x =>
      '(tr, buf) ← with_vec (ct_output ct) []
          (producer_body st e req (ct_output ct) (ad_auth ad) (ad_evidence ad) x tick (call_id (ct_cursor ct)) limit preferred);
      finish_turn st req di outer (ct_output ct) limit rid tb buf tr rows
    | SExchange x =>
      exchange_turn st e req di outer ct (ad_auth ad)
        (mkHttpCtx (ad_auth ad) (ad_evidence ad) (parse_cookies (get_text COOKIE h)) (Some tick) limit preferred) x b limit
    end w = (Ok (mkHttpResponse 200 h' l), w') ∧ hw_app w' = a ∧ hget RPC_ERROR_HEADER h' = (_ ← err; Some (bs "true")).
Proof.
  intros Hx HE Hin Hans Hv Ho. destruct ss as [x|x]; simpl in Hans.
  - injection Hin as <-. destruct (producer_body_exact _ _ _ _ _ _ _ Hx HE _ _ _ _ _ _ _ _ _ _ Hans) as (tr & <- & Hb).
    erewrite hm_bind by by eapply with_vec_exact. cbv beta iota.
    match goal with |- context [finish_turn st req di outer ?s limit rid tb l tr rows ?w1] =>
      destruct (finish_turn_exact st req di outer s limit rid tb l tr rows w1 Ho) as (h' & w' & Ef & [Ha _] & Hf) end.
    exists h', w'. split; [exact Ef|]. by rewrite Ha.
  - unfold exchange_turn. erewrite hm_bind by by eapply cast_exact. cbv beta iota.
    destruct (ran (ct_output ct) false (mkHttpCtx (ad_auth ad) (ad_evidence ad) (parse_cookies (get_text COOKIE h)) (Some tick) limit preferred)
      (fun a => h_exchange x (mkHttpCtx (ad_auth ad) (ad_evidence ad) (parse_cookies (get_text COOKIE h)) (Some tick) limit preferred) b' a)
      (hw_app w)) as [[[[r x'] out] logs] a1] eqn:Er.
    destruct (exchange_body_exact _ _ _ _ _ _ _ Hx HE _ _ _ limit _ _ _ _ _ _ _ _ _ _ Er Hans) as (-> & o & Hb & ->).
    erewrite hm_bind by by apply run_http_turn_exact. cbv beta iota. erewrite hm_bind by by eapply with_vec_exact. cbv beta iota.
    destruct o as [er|tr].
    + match goal with |- context [fail_turn st di er l ?n ?w1] =>
        destruct (fail_turn_exact st di er l n w1) as (h' & w' & Ef & [Ha _] & Hf) end.
      exists h', w'. split; [exact Ef|]. by rewrite Ha.
    + match goal with |- context [finish_turn st req di outer ?s limit ?rd ?t l tr ?n ?w1] =>
        destruct (finish_turn_exact st req di outer s limit rd t l tr n w1 Ho) as (h' & w' & Ef & [Ha _] & Hf) end.
      exists h', w'. split; [exact Ef|]. by rewrite Ha.
Qed.

(** A cursor minted in a turn is alive later on, for the same caller. *)
Lemma cursor_live st e auth cid bytes now :
  zlen (e_cursor_nonce e) = NONCE_LEN → zlen cid = CALL_ID_LEN → in_u64 (e_unix e) →
  28 + zlen bytes ≤ MAX_TOKEN_PLAINTEXT_BYTES → check_ttl (token_ttl_opt (hs_tokens st)) now (e_unix e) = Ok tt →
  live_cursor st auth now bytes cid (cursor st e auth cid bytes).
Proof. intros. split; [done|]. split; [done|]. by exists (e_unix e), (e_cursor_nonce e). Qed.

Lemma turn_from_cursor st e req output E ad h tick cid limit preferred ss b a its err bytes a' :
  turn_from st e req output E ad h tick cid limit preferred ss b a = (its, err, Some bytes, a') →
  (∃ i, i ∈ its ∧ default ∅ i.2 !! STATE_KEY = Some (cursor st e (ad_auth ad) cid bytes)) ∧ err = None.
Proof.
  destruct ss as [x|x]; simpl; intros Ht; [|by eapply exchange_answer_cursor].
  apply producer_turn_cursor in Ht as [Hi He]. split; [|done]. eexists. split; [exact Hi|]. simpl. apply lookup_singleton_eq.
Qed.

(** C6. A stream goes on over HTTP from exactly where it was: a request whose
    metadata carries live tokens of a call, on any worker with the key and whatever
    became of its cache, decodes the state the cursor was minted over and is answered
    with status 200 and the stream of the items the handler emits from that state, under
    the budget of the call and of the request, flagged exactly when the turn failed;
    and when the stream goes on, one of these items carries a cursor over the state the
    turn left, that is alive for the same caller as long as its lifetime says. *)
Theorem http_turn_resumes st e path m h body w ad w1 b md log bytes cid mc output input ss b' req eb E :
  accept_request st e m h body w = (Ok ad, w1) → read_input_batch (ad_body ad) = Ok (b, md) →
  md !! CANCEL_KEY = None → external_config (hs_server st) = None →
  calls_reachable (hs_tokens st) (mkCalls (hw_calls w) log) →
  carries st log (ad_auth ad) (e_unix e) md bytes cid mc → describes (mc_call mc) output input →
  decodes st path m bytes ss → turn_input ss input b = Ok b' →
  empty_batch empty_schema = Ok eb → adopt_path_protocol (continuation_request m md eb) path = Ok req →
  empty_batch output = Ok E →
  ∃ call, StreamTokensProps.same_call call (mc_call mc) ∧
  let '(limit, preferred) := turn_budget (ad_limit ad) (ad_preferred ad) call in
  let '(its, err, next, a) := turn_from st e req output E ad h (strip_framework_tick_metadata md) cid limit preferred ss b' (hw_app w1) in
  (encodes [] output its → readable output its →
   ∃ l, wire_stream output (prod_map id (default ∅) <$> its) l ∧
     (over (zlen l) limit = false →
      ∃ h' w', stream_exchange_dispatch st e path m h body w = (Ok (mkHttpResponse 200 h' l), w') ∧ hw_app w' = a ∧
        hget RPC_ERROR_HEADER h' = (_ ← err; Some (bs "true")))) ∧
  (∀ bytes' now, next = Some bytes' → zlen (e_cursor_nonce e) = NONCE_LEN → in_u64 (e_unix e) →
     28 + zlen bytes' ≤ MAX_TOKEN_PLAINTEXT_BYTES → check_ttl (token_ttl_opt (hs_tokens st)) now (e_unix e) = Ok tt →
     ∃ i token, i ∈ its ∧ default ∅ i.2 !! STATE_KEY = Some token ∧ live_cursor st (ad_auth ad) now bytes' cid token).
Proof.
  intros Hacc Hrd Hnc Hx Hcalls Hcar Hdesc Hdec Hin Heb Hadopt HE. rewrite <- (accept_keeps _ _ _ _ _ _ _ _ Hacc) in Hcalls.
  destruct (open_tokens_exact st e (ad_auth ad) md w1 log bytes cid mc output input Hcalls Hcar Hdesc)
    as (ct & w2 & Eo & Ha2 & <- & <- & <- & <- & Hsame).
  exists (ct_call ct). split; [done|]. destruct (turn_budget _ _ _) as [limit preferred] eqn:Eb.
  destruct (turn_from _ _ _ _ _ _ _ _ _ _ _ _ _ _) as [[[its err] next] a] eqn:Et. split.
  2:{ intros bytes' now -> Hn Hu Hsz Httl. destruct (turn_from_cursor _ _ _ _ _ _ _ _ _ _ _ _ _ _ _ _ _ _ Et) as [(i & Hi & Hst) _].
      exists i, (cursor st e (ad_auth ad) (call_id (ct_cursor ct)) bytes'). split; [done|]. split; [done|].
      apply cursor_live; try done. by destruct Hcar as ((? & _ & _ & ? & _) & _). }
  intros Henc Hread. destruct (encodes_wire _ _ _ Henc Hread) as (l & Hv & Hl). exists l. split; [done|]. intros Ho.
  unfold stream_exchange_dispatch. erewrite hm_bind by exact Hacc. erewrite hm_bind by by apply or_respond_ok. cbv beta iota.
  erewrite hm_bind; cycle 1. { unfold resolve_input. rewrite Hx. by destruct (md !! LOCATION_KEY). }
  cbv beta iota zeta. erewrite hm_bind by exact Eo. cbv beta iota zeta. rewrite Eb. erewrite hm_bind by by apply decode_exact.
  erewrite hm_bind by by apply unwrap_ok. erewrite hm_bind by by apply or_respond_ok.
  match goal with |- context [hooked st ?x] => destruct (hooked_aside st x w2) as (w3 & E3 & Ha3 & _) end.
  erewrite hm_bind by exact E3. destruct (scope_begin_aside w3) as (n & w4 & E4 & Ha4 & _). erewrite hm_bind by exact E4.
  rewrite bool_decide_eq_false_2 by (rewrite Hnc; by intros []).
  eapply turn_exact; [done..| |done|done]. by rewrite Ha4, Ha3, Ha2.
Qed.

(** ** The first request *)

(** What the call token of a new stream holds. *)
Definition opened_call (e : HEnv) (ad : Accepted) (sr : StreamResult St) : res RpcError ResolvedCall :=
  o ← write_schema_bytes (output_schema sr);
  i ← match input_schema sr with Some s => write_schema_bytes s | None => Ok [] end;
  Ok (StreamTokens.mkResolvedCall o i (bytes_to_hex (e_stream_id e)) (ad_limit ad) (ad_preferred ad)).

Lemma opened_describes e ad sr call :
  opened_call e ad sr = Ok call → schema_readable (output_schema sr) →
  (∀ s, input_schema sr = Some s → schema_readable s) → describes call (output_schema sr) (input_schema sr).
Proof.
  intros Ho Hr Hi. unfold opened_call in Ho. apply bind_Ok in Ho as (o & Ho & Hc). apply bind_Ok in Hc as (i & Hi' & [= <-]).
  split; [done|]. split; [done|]. destruct (input_schema sr) as [s|]; [split; [done|by apply Hi]|by injection Hi' as <-].
Qed.

Section Init.
Context (st : state) (e : HEnv) (req : Request) (ad : Accepted) (sr : StreamResult St) (E : RecordBatch) (call : ResolvedCall).
Abbreviation schema := (output_schema sr).
Abbreviation sid := (server_id (hs_server st)).
Abbreviation tb := (traceback_origin (hs_server st) (protocol req) (method req)).
Abbreviation auth := (ad_auth ad).
Abbreviation cid := (e_call_id e).

Definition init_token : list byte :=
  pack_call_token (token_key (hs_tokens st)) (compute_call_aad auth) cid call (e_unix e) (e_call_nonce e).

(** The first tokens of the stream, over the state [ss]. *)
Definition opening ss : list item * option RpcError * option (list byte) :=
  match call_guard (h_encode_state ss) with
  | Ok bytes => ([(E, Some (<[CALL_STATE_KEY := init_token]> {[STATE_KEY := cursor st e auth cid bytes]}))], None, Some bytes)
  | Err er => ([failure_item sid (request_id req) tb E er], Some er, None)
  | Panic => ([], None, None)
  end.

(** The first turn: a producer runs once, an exchange waits for its input. *)
Definition init_turn (a : happ) : turn_answer :=
  match stream_state sr with
  | SExchange x => let '(its, err, next) := opening (SExchange x) in (its, err, next, a)
  | SProducer x =>
    let cx := mkHttpCtx auth (ad_evidence ad) ∅ (Some (metadata req)) (ad_limit ad) (ad_preferred ad) in
    let '(r, x, out, logs, a) := ran schema true cx (h_produce x cx) a in
    let '(its, turn) := producer_output st req E r out logs in
    if pt_finished turn then (its, pt_error turn, None, a)
    else let '(more, err, next) := opening (SProducer x) in (its ++ more, err, next, a)
  end.

(** The process after the call token was minted. *)
Definition minted w : world := set_calls (cache_call (hs_tokens st) (hw_calls w) auth cid call (e_unix e)) w.

(** The tokens of a first turn that goes on, in the metadata of its last item. *)
Lemma init_turn_tokens a its err bytes a' :
  init_turn a = (its, err, Some bytes, a') →
  err = None ∧ (E, Some (<[CALL_STATE_KEY := init_token]> {[STATE_KEY := cursor st e auth cid bytes]})) ∈ its.
Proof.
  assert (∀ ss its err, opening ss = (its, err, Some bytes) →
    err = None ∧ (E, Some (<[CALL_STATE_KEY := init_token]> {[STATE_KEY := cursor st e auth cid bytes]})) ∈ its) as Ho.
  { intros ss its0 err0. unfold opening. destruct (call_guard _) as [b0|?|]; [|done..]. intros [= <- <- ->]. set_solver. }
  unfold init_turn. destruct (stream_state sr) as [x|x].
  - destruct (ran _ _ _ _ _) as [[[[r x'] out] logs] a1], (producer_output _ _ _ _ _ _) as [pits turn].
    destruct (pt_finished turn); [done|]. destruct (opening _) as [[more er] next] eqn:Eo. intros [= <- <- -> _].
    apply Ho in Eo as [-> ?]. set_solver.
  - destruct (opening _) as [[more er] next] eqn:Eo. intros [= <- <- -> _]. by apply Ho in Eo.
Qed.

Lemma init_carries log bytes now :
  zlen (e_cursor_nonce e) = NONCE_LEN → zlen cid = CALL_ID_LEN → in_u64 (e_unix e) →
  28 + zlen bytes ≤ MAX_TOKEN_PLAINTEXT_BYTES → check_ttl (token_ttl_opt (hs_tokens st)) now (e_unix e) = Ok tt →
  carries st (<[cid := mkMintedCall auth call (e_unix e) init_token]> log) auth now
    (<[CALL_STATE_KEY := init_token]> {[STATE_KEY := cursor st e auth cid bytes]}) bytes cid
    (mkMintedCall auth call (e_unix e) init_token).
Proof.
  intros. split.
  - exists (cursor st e auth cid bytes). split; [|by apply cursor_live].
    rewrite lookup_insert_ne by done. apply lookup_singleton_eq.
  - split; [by rewrite lookup_insert_eq|]. split; [done|]. split; [by rewrite lookup_insert_eq|done].
Qed.

Lemma minted_reachable log w :
  calls_reachable (hs_tokens st) (mkCalls (hw_calls w) log) → log !! cid = None → zlen cid = CALL_ID_LEN →
  zlen (e_call_nonce e) = NONCE_LEN → in_u64 (e_unix e) → call_wf call →
  calls_reachable (hs_tokens st) (mkCalls (hw_calls (minted w)) (<[cid := mkMintedCall auth call (e_unix e) init_token]> log)).
Proof. intros Hr ?????. eapply rtc_r; [exact Hr|]. by eapply step_mint_call. Qed.
Context (Hext : external_config (hs_server st) = None) (HE : empty_batch schema = Ok E) (Hcall : opened_call e ad sr = Ok call).

Lemma opening_exact ss n rows w its err next :
  opening ss = (its, err, next) →
  ∃ tr, tr_error tr = err ∧
    writes (init_tokens_item st e req auth ss schema (input_schema sr) (ad_limit ad) (ad_preferred ad) n rows) w its tr (minted w).
Proof.
  unfold opening, init_tokens_item. intros Ho.
  assert (build_init_tokens st e auth ss schema (input_schema sr) (ad_limit ad) (ad_preferred ad) w =
    (Ok (bytes ← call_guard (h_encode_state ss); Ok (cursor st e auth cid bytes, init_token, bytes)), minted w)) as Hb.
  { unfold build_init_tokens. unfold opened_call in Hcall. rewrite Hcall. unfold build_cursor_token.
    by destruct (call_guard (h_encode_state ss)). }
  destruct (call_guard (h_encode_state ss)) as [bytes|er|] eqn:Ee; [injection Ho as <- <- <-..|by apply call_guard_no_panic in Ee].
  - exists (mkTurnRecord None n rows bytes). split; [done|].
    refine (writes_bind _ _ _ [] [_] _ _ _ _ (writes_world _ _ _ _ Hb) _). simpl. rewrite <- (app_nil_r [_]).
    eapply writes_bind; [by apply writes_empty|apply writes_ret].
  - exists (mkTurnRecord (Some er) n rows []). split; [done|].
    refine (writes_bind _ _ _ [] [_] _ _ _ _ (writes_world _ _ _ _ Hb) _). simpl. by apply error_exact.
Qed.

(** The handler's logs go in front of the header, or of the first turn. *)
Definition header_items (logs : list LogMessage) (hb Eh : RecordBatch) : list item :=
  (log_item sid (request_id req) Eh <$> logs) ++ [(hb, header_metadata sr)].
Definition first_items (logs : list LogMessage) its : list item :=
  match header sr with None => (log_item sid (request_id req) E <$> logs) ++ its | Some _ => its end.

Lemma init_body_exact logs w its err next a :
  init_turn (hw_app w) = (its, err, next, a) →
  ∃ tr w', tr_error tr = err ∧ hw_app w' = a ∧ (is_Some next → w' = minted (set_happ a w)) ∧
    closes (init_body st e req ad sr logs) w (first_items logs its) tr w'.
Proof.
  intros Hi.
  assert (∀ tr w', writes (first_turn st e req ad sr) w its tr w' →
     closes (init_body st e req ad sr logs) w (first_items logs its) tr w') as Hk.
  { intros tr w' Hw. unfold init_body, first_items.
    assert (closes (tr ← first_turn st e req ad sr; _ ← hfinish; mret tr) w its tr w') as Hc
      by (rewrite <- (app_nil_r its); eapply closes_bind; [exact Hw|apply closes_end]).
    destruct (header sr); [exact (closes_bind _ _ _ [] _ _ _ _ _ (writes_ret tt w) Hc)|].
    exact (closes_bind _ _ _ _ _ _ _ _ _ (logs_exact _ _ _ _ HE logs w) Hc). }
  unfold first_turn in Hk.
  unfold init_turn in Hi. destruct (stream_state sr) as [x|x].
  - destruct (ran _ _ _ _ _) as [[[[r x'] out] plogs] a1] eqn:Er.
    pose proof (run_producer_exact st req schema E auth Hext HE _ _ _ _ _ _ _ _ _ _ _ Er) as Hrun.
    destruct (producer_output _ _ _ _ _ _) as [pits turn]. destruct (pt_finished turn) eqn:Ef.
    + injection Hi as <- <- <- <-. eexists (mkTurnRecord (pt_error turn) _ _ _), (set_happ a1 w). split; [done|]. split; [done|]. split; [by intros []|].
      apply Hk. rewrite <- (app_nil_r pits). eapply writes_bind; [exact Hrun|]. cbv beta iota. rewrite Ef. apply writes_ret.
    + destruct (opening (SProducer x')) as [[more err'] next'] eqn:Eo. injection Hi as <- <- <- <-.
      destruct (opening_exact _ (pt_batches turn) (pt_rows turn) (set_happ a1 w) _ _ _ Eo) as (tr & Htr & Hw).
      exists tr, (minted (set_happ a1 w)). split; [done|]. split; [done|]. split; [done|]. apply Hk.
      eapply writes_bind; [exact Hrun|]. cbv beta iota. rewrite Ef. exact Hw.
  - destruct (opening (SExchange x)) as [[more err'] next'] eqn:Eo. injection Hi as <- <- <- <-.
    destruct (opening_exact _ 0 0 w _ _ _ Eo) as (tr & Htr & Hw). exists tr, (minted w). split; [done|]. split; [done|].
    split; [by destruct w|]. by apply Hk.
Qed.
End Init.

(** What a stream's handler made of its request. *)
Definition stream_ran info (req : Request) (cx : HttpCtx) (a : happ) : res RpcError (StreamResult St) * list LogMessage * happ :=
  match mi_stream info with
  | Some f => let '(r, logs, a) := hs_handler f req cx a in (call_guard r, logs, a)
  | None => (Err handler_panicked, [], a)
  end.

Lemma header_exact st req sr logs Eh :
  (∀ hb, header sr = Some hb → empty_batch (batch_schema hb) = Ok Eh ∧
     encodes [] (batch_schema hb) (header_items st req sr logs hb Eh) ∧
     readable (batch_schema hb) (header_items st req sr logs hb Eh)) →
  ∃ l, (∀ w, header_stream st req sr logs w = (Ok l, w)) ∧
    match header sr with
    | Some hb => wire_stream (batch_schema hb) (prod_map id (default ∅) <$> header_items st req sr logs hb Eh) l
    | None => l = []
    end.
Proof.
  intros Hh. unfold header_stream. destruct (header sr) as [hb|]; [|by exists []]. destruct (Hh hb eq_refl) as (HE & Henc & Hrd).
  destruct (encodes_wire _ _ _ Henc Hrd) as (l & Hv & Hl). exists l. split; [|done].
  intros w. erewrite hm_bind; cycle 1.
  { eapply with_vec_exact; [|exact Hv]. eapply closes_bind; [by apply logs_exact|]. rewrite <- (app_nil_r [_]).
    eapply closes_bind; [apply writes_put|]. instantiate (2 := tt).
    intros sw sw' E0. simpl in E0. unfold hfinish. simpl. by rewrite E0. }
  done.
Qed.

Lemma init_call_exact st e h wire req info ad sr logs a1 w E call its err next a l0 l :
  external_config (hs_server st) = None → empty_batch (output_schema sr) = Ok E → opened_call e ad sr = Ok call →
  stream_ran info req (call_context ad h None) (hw_app w) = (Ok sr, logs, a1) →
  init_turn st e req ad sr E call a1 = (its, err, next, a) →
  (∀ w, header_stream st req sr logs w = (Ok l0, w)) →
  vec_stream l0 (output_schema sr) (first_items st req sr E logs its) = Ok (l0 ++ l) →
  over (zlen (l0 ++ l)) (ad_limit ad) = false →
  ∃ h' w', init_call st e h wire req info ad w = (Ok (mkHttpResponse 200 h' (l0 ++ l)), w') ∧ hw_app w' = a ∧
    hget RPC_ERROR_HEADER h' = (_ ← err; Some (bs "true")) ∧
    (is_Some next → hw_calls w' = hw_calls (minted st e ad call w)).
Proof.
  intros Hx HE Hcall Hran Hturn Hhead Hv Ho. unfold init_call. cbv zeta.
  match goal with |- context [hooked st ?x] => destruct (hooked_aside st x w) as (w1 & E1 & Ha1 & Hc1) end.
  erewrite hm_bind by exact E1. destruct (scope_begin_aside w1) as (n & w2 & E2 & Ha2 & Hc2). erewrite hm_bind by exact E2.
  assert (run_stream_http info req (call_context ad h None) w2 = (Ok (Ok sr, logs), set_happ a1 w2)) as E3.
  { unfold run_stream_http. unfold stream_ran in Hran. rewrite Ha2, Ha1. destruct (mi_stream info) as [f|]; [|done].
    destruct (hs_handler _ _ _ _) as [[r0 lg0] a0]. by injection Hran as -> -> ->. }
  erewrite hm_bind by exact E3. cbv beta iota. erewrite hm_bind by apply Hhead.
  destruct (init_body_exact st e req ad sr E call Hx HE Hcall logs (set_happ a1 w2) its err next a Hturn) as (tr & w3 & <- & Ha3 & Hn & Hb).
  erewrite hm_bind by by eapply with_vec_exact. cbv beta iota.
  match goal with |- context [finish_turn st req ?di n ?s ?lim ?rd ?t _ tr ?k w3] =>
    destruct (finish_turn_exact st req di n s lim rd t (l0 ++ l) tr k w3 Ho) as (h' & w' & Ef & [Ha Hc] & Hf) end.
  exists h', w'. split; [exact Ef|]. split; [congruence|]. split; [done|]. intros Hs. rewrite Hc, (Hn Hs). simpl. by rewrite Hc2, Hc1.
Qed.

(** C19. The first request of a stream over HTTP: an accepted request whose frame the
    dispatcher serves as a stream runs the handler, and is answered with status 200, the
    header stream when there is one, and the stream of the handler's logs and of the first
    turn, flagged exactly when the turn failed. When the stream goes on, an item of that
    stream carries the state the turn left, under a call recorded for its caller in the
    history that later requests resolve against. *)
Theorem http_init_opens st e h body w ad w1 b md req info sr logs a1 E Eh call its err next a log :
  accept_request st e (method req) h body w = (Ok ad, w1) → read_single (ad_body ad) = Ok (Some (b, md)) →
  dispatch (hs_server st) b md = Ok (ServeStream req info) → external_config (hs_server st) = None →
  stream_ran info req (call_context ad h None) (hw_app w1) = (Ok sr, logs, a1) →
  empty_batch (output_schema sr) = Ok E → opened_call e ad sr = Ok call →
  init_turn st e req ad sr E call a1 = (its, err, next, a) →
  (∀ hb, header sr = Some hb → empty_batch (batch_schema hb) = Ok Eh ∧
     encodes [] (batch_schema hb) (header_items st req sr logs hb Eh) ∧
     readable (batch_schema hb) (header_items st req sr logs hb Eh)) →
  encodes [] (output_schema sr) (first_items st req sr E logs its) →
  readable (output_schema sr) (first_items st req sr E logs its) →
  ∃ l0 l,
    match header sr with
    | Some hb => wire_stream (batch_schema hb) (prod_map id (default ∅) <$> header_items st req sr logs hb Eh) l0
    | None => l0 = []
    end ∧
    wire_stream (output_schema sr) (prod_map id (default ∅) <$> first_items st req sr E logs its) l ∧
    (over (zlen (l0 ++ l)) (ad_limit ad) = false →
     ∃ h' w', stream_init_dispatch st e (Some (protocol req)) (method req) h body w = (Ok (mkHttpResponse 200 h' (l0 ++ l)), w') ∧
       hw_app w' = a ∧ hget RPC_ERROR_HEADER h' = (_ ← err; Some (bs "true")) ∧
       ∀ bytes, next = Some bytes → calls_reachable (hs_tokens st) (mkCalls (hw_calls w) log) →
         log !! e_call_id e = None → zlen (e_call_id e) = CALL_ID_LEN → zlen (e_call_nonce e) = NONCE_LEN →
         zlen (e_cursor_nonce e) = NONCE_LEN → in_u64 (e_unix e) → call_wf call →
         28 + zlen bytes ≤ MAX_TOKEN_PLAINTEXT_BYTES →
         let mc := mkMintedCall (ad_auth ad) call (e_unix e) (init_token st e ad call) in
         let log' := <[e_call_id e := mc]> log in
         calls_reachable (hs_tokens st) (mkCalls (hw_calls w') log') ∧
         ∃ i, i ∈ its ∧ ∀ now, check_ttl (token_ttl_opt (hs_tokens st)) now (e_unix e) = Ok tt →
           carries st log' (ad_auth ad) now (default ∅ i.2) bytes (e_call_id e) mc).
Proof.
  intros Hacc Hrd Hd Hx Hran HE Hcall Hturn Hhead Henc Hread.
  destruct (header_exact st req sr logs Eh Hhead) as (l0 & Hl0' & Hl0).
  destruct (encodes_wire l0 _ _ (encodes_anywhere l0 _ _ Henc) Hread) as (l & Hv & Hl). exists l0, l. split; [done|]. split; [done|]. intros Ho.
  destruct (served_by_dispatch _ _ _ _ _ false Hd) as [Hs Hu].
  destruct (init_call_exact st e h (zlen body) req info ad sr logs a1 w1 E call its err next a l0 l) as (h' & w' & Ei & Ha & Hf & Hc); [done..|].
  exists h', w'. split_and!; [|done|done|].
  - unfold stream_init_dispatch. erewrite hm_bind by exact Hacc. erewrite hm_bind by by eapply routed_exact.
    rewrite (found_exact st e b md req info (method req) w1 (fun t => negb (is_unary t)) (fun req info => init_call st e h (zlen body) req info ad));
      [done|done|by rewrite Hu|done|by right].
  - intros bytes -> Hr Hfresh Hcid Hn1 Hn2 Hu64 Hwf Hsz. rewrite <- (accept_keeps _ _ _ _ _ _ _ _ Hacc) in Hr. split.
    + rewrite Hc by done. by apply minted_reachable.
    + apply init_turn_tokens in Hturn as [_ Hin]. eexists. split; [exact Hin|]. intros now Httl. by apply init_carries.
Qed.
End Streams.
