(* ===== verification/HttpContracts.v ===== *)
(** * HTTP: what a site publishes

    The RFC 9728 document and challenge of [vgi-rpc/src/auth/oauth.rs], and the wire
    contract of upload URLs of [vgi-rpc/src/external.rs] that the server vends and the
    client asks for. *)

From S2P Require Import Prelude Bytes Json HttpBase.
From S2P Require Import Errors Ipc IpcWriter Arrow ArrowType Crypto TokenIdentity.

(** ** Protected-resource metadata *)

Record OAuthResourceMetadata := mkOAuth {
  resource : list byte;
  authorization_servers : list (list byte);
  resource_name : option (list byte);
  scopes_supported : list (list byte);
  bearer_methods_supported : list (list byte);
  resource_documentation : option (list byte);
  client_id : list byte;
  use_id_token_as_bearer : bool;
  client_secret : list byte;
  device_code_client_id : list byte;
  device_code_client_secret : list byte
}.

Definition well_known_path : list byte := bs "/.well-known/oauth-protected-resource".

(** The members that [serde] writes, in the order of the fields. *)
Definition when (b : bool) (k : list byte) (v : Value) : list (list byte * Value) := if b then [(k, v)] else [].
Definition non_empty {A} (l : list A) : bool := match l with [] => false | _ => true end.
Definition strings (l : list (list byte)) : Value := JArray (JString <$> l).

Definition members (m : OAuthResourceMetadata) : list (list byte * Value) :=
  [(bs "resource", JString (resource m))]
  ++ when (non_empty (authorization_servers m)) (bs "authorization_servers") (strings (authorization_servers m))
  ++ match resource_name m with Some n => [(bs "resource_name", JString n)] | None => [] end
  ++ when (non_empty (scopes_supported m)) (bs "scopes_supported") (strings (scopes_supported m))
  ++ when (non_empty (bearer_methods_supported m)) (bs "bearer_methods_supported") (strings (bearer_methods_supported m))
  ++ match resource_documentation m with Some d => [(bs "resource_documentation", JString d)] | None => [] end
  ++ when (non_empty (client_id m)) (bs "client_id") (JString (client_id m))
  ++ when (use_id_token_as_bearer m) (bs "use_id_token_as_bearer") (JBool true)
  ++ when (non_empty (client_secret m)) (bs "client_secret") (JString (client_secret m))
  ++ when (non_empty (device_code_client_id m)) (bs "device_code_client_id") (JString (device_code_client_id m))
  ++ when (non_empty (device_code_client_secret m)) (bs "device_code_client_secret") (JString (device_code_client_secret m)).

Definition to_json `{Json} (m : OAuthResourceMetadata) : list byte := json_to_string (JObject (members m)).

(** [s.trim_end_matches('/')] *)
Fixpoint skip_slash (s : list byte) : list byte := match s with x2f :: s => skip_slash s | s => s end.
Definition metadata_url_from_resource (r : list byte) : list byte := rev (skip_slash (rev r)) ++ well_known_path.

Definition quoted (k v : list byte) : list byte := k ++ bs "=" ++ x22 :: v ++ [x22].

Definition challenge_params (m : OAuthResourceMetadata) : list (list byte) :=
  (if non_empty (resource m) then [quoted (bs "resource_metadata") (metadata_url_from_resource (resource m))] else [])
  ++ (if non_empty (scopes_supported m) then [quoted (bs "scope") (join_with x20 (scopes_supported m))] else [])
  ++ (if non_empty (client_id m) then [quoted (bs "client_id") (client_id m)] else [])
  ++ (if non_empty (client_secret m) then [quoted (bs "client_secret") (client_secret m)] else [])
  ++ (if use_id_token_as_bearer m then [quoted (bs "use_id_token_as_bearer") (bs "true")] else [])
  ++ (if non_empty (device_code_client_id m) then [quoted (bs "device_code_client_id") (device_code_client_id m)] else [])
  ++ (if non_empty (device_code_client_secret m) then [quoted (bs "device_code_client_secret") (device_code_client_secret m)] else []).

Definition www_authenticate (m : OAuthResourceMetadata) : list byte :=
  match challenge_params m with
  | [] => bs "Bearer"
  | ps => bs "Bearer " ++ join_comma ps
  end.

Definition validate (m : OAuthResourceMetadata) : res (list byte) unit :=
  if negb (non_empty (resource m)) then Err (bs "resource must be set") else
  if negb (starts_with (bs "http://") (resource m) || starts_with (bs "https://") (resource m))
  then Err (bs "resource must be absolute http(s) URL") else Ok tt.

(** ** The wire contract of upload URLs *)

#[local] Open Scope Z_scope.

Definition UPLOAD_URL_METHOD : list byte := bs "__upload_url__".
Definition MAX_UPLOAD_URL_COUNT : Z := 100.

Record UploadUrl := mkUploadUrl { uu_upload_url : list byte; uu_download_url : list byte; uu_expires_at_micros : Z }.

(** [UploadUrlProvider]: over the storage it signs for. *)
Definition UploadUrlProvider (Store : Type) : Type := Store → res RpcError UploadUrl * Store.

Section Schemas.
Context `{ArrowSchemas}.

Definition upload_url_params_schema : ArrowSchema := schema_new [field_new (bs "count") (type_of (TInt true 64)) true].
Definition upload_url_response_schema : ArrowSchema :=
  schema_new [field_new (bs "upload_url") (type_of TUtf8) false; field_new (bs "download_url") (type_of TUtf8) false;
              field_new (bs "expires_at") (type_of (TTimestamp (Some (bs "UTC")))) false].
End Schemas.
