(* ===== verification/HttpSite.v ===== *)
(** * HTTP: what a server says about itself

    The builder of [HttpState] in [vgi-rpc/src/http.rs], the capability and CORS headers
    of an answer, and what happens to a request before its handler and to the answer
    after it ([postprocess_middleware]). What [axum] does with a body it reads under a
    bound is third-party code ([BoundedBody]), and so are the layers that [build_router]
    puts outside the middleware (body limit, timeout, panic net). *)

From S2P Require Import Prelude Bytes Metadata F64 Json ErrorModel Errors Ipc IpcWriter IpcStream Arrow ShmBatch Crypto External ArrowType.
From S2P Require Import Auth Grants Sticky StreamTokens Dispatch Serve Net PeerIdentity HttpBase HttpAuth HttpContracts TokenIdentity Http.
From stdpp Require Import sorting.

#[local] Open Scope Z_scope.

(** ** Settings: the value a setter stores, or a panic *)
Definition positive {E} (n : Z) : res E Z := if 0 <? n then Ok n else Panic.
Definition response_bound {E} (n : Z) : res E Z :=
  if (MIN_RESPONSE_BYTES <=? n) && (n <=? MAX_SAFE_RESPONSE_BYTES) then Ok n else Panic.
Definition producer_batch_limit {E} (n : Z) : res E unit := if n =? 1 then Ok tt else Panic.

Definition DEFAULT_RESPONSE_COMPRESSION_LEVEL : Z := 1.
Definition DEFAULT_PEER_IDENTITY_PROVIDER_CONCURRENCY : Z := 32.

(** ** Capability headers *)
Definition STICKY_ENABLED_HEADER : list byte := bs "vgi-sticky-enabled".
Definition STICKY_DEFAULT_TTL_HEADER : list byte := bs "vgi-sticky-default-ttl".
Definition STICKY_ECHO_HEADERS_HEADER : list byte := bs "vgi-sticky-echo-headers".
Definition PROOF_REQUIRED_HEADER : list byte := bs "vgi-proxy-proof-required".
Definition ACCEPT_MAX_RESPONSE_BYTES_SUPPORT_HEADER : list byte := bs "vgi-accept-max-response-bytes-support".

Definition CORS_EXPOSE_FIXED : list (list byte) :=
  [bs "Content-Encoding"; VGI_CONTENT_ENCODING_HEADER; RPC_ERROR_HEADER; bs "WWW-Authenticate";
   AUTH_REASON_HEADER; AUTH_PROXY_REQUIRED_HEADER; REQUEST_ID_RESPONSE_HEADER].

Record CapabilityInputs := mkCapabilityInputs {
  ci_max_request_bytes : option Z;
  ci_max_response_bytes : option Z;
  ci_max_externalized : option Z;
  externalization_enabled : bool;
  upload_url_support : bool;
  max_upload_bytes : option Z;
  ci_sticky : option StickyContext;
  ci_level : option Z;
  ci_proof_required : bool
}.

Section Capabilities.
Context `{HttpLib}.

(** The headers so far, and whether one beyond the always-present flags is among them. *)
Abbreviation Caps := (HeaderMap * bool)%type.

Definition flag (name value : list byte) (c : Caps) : Caps := (insert_text name value c.1, c.2).
Definition static (name value : list byte) (c : Caps) : Caps := (hinsert name value c.1, c.2).
Definition counts (c : Caps) : Caps := (c.1, true).

(** [if let Some(n) = limit { if let Ok(v) = .. { out.insert(name, v); any = true; } }] *)
Definition limit_header (name : list byte) (limit : option Z) (c : Caps) : Caps :=
  match limit with
  | Some n => if text_is_value (dec_unsigned n) then (hinsert name (dec_unsigned n) c.1, true) else c
  | None => c
  end.

Definition bool_text (b : bool) : list byte := if b then bs "true" else bs "false".

Definition upload_headers (i : CapabilityInputs) (c : Caps) : Caps :=
  if upload_url_support i then
    let c := counts (static (bs "vgi-upload-url-support") (bs "true") c) in
    match max_upload_bytes i with Some n => flag (bs "vgi-max-upload-bytes") (dec_unsigned n) c | None => c end
  else c.

Definition sticky_headers (i : CapabilityInputs) (c : Caps) : Caps :=
  match ci_sticky i with
  | Some ctx =>
    let c := counts (static STICKY_ENABLED_HEADER (bs "true") c) in
    let c := flag STICKY_DEFAULT_TTL_HEADER (dec_unsigned (ctx_default_ttl ctx)) c in
    match echo_headers ctx with
    | [] => c
    | echo => flag STICKY_ECHO_HEADERS_HEADER (join_with x2c (fst <$> echo)) c
    end
  | None => static STICKY_ENABLED_HEADER (bs "false") c
  end.

Definition capability_map (i : CapabilityInputs) : Caps :=
  let c := flag (bs "vgi-supported-encodings") (supported_encodings_header_value (ci_level i)) ([], false) in
  let c := limit_header (bs "vgi-max-request-bytes") (ci_max_request_bytes i) c in
  let c := limit_header (bs "vgi-max-response-bytes") (ci_max_response_bytes i) c in
  let c := static ACCEPT_MAX_RESPONSE_BYTES_SUPPORT_HEADER (bs "true") c in
  let c := limit_header (bs "vgi-max-externalized-response-bytes") (ci_max_externalized i) c in
  let c := static (bs "vgi-externalization-enabled") (bool_text (externalization_enabled i)) c in
  let c := upload_headers i c in
  let c := if ci_proof_required i then counts (static PROOF_REQUIRED_HEADER (bs "true") c) else c in
  sticky_headers i c.

(** The names a browser may read: the fixed ones, then the others in order. *)
Definition exposed_names (i : CapabilityInputs) (out : HeaderMap) : list (list byte) :=
  CORS_EXPOSE_FIXED ++
  merge_sort bytes_le
    (hkeys out ++
     match ci_sticky i with
     | Some ctx => SESSION_HEADER :: SESSION_CLOSE_HEADER :: ((fun nv => ECHO_HEADER_PREFIX ++ nv.1) <$> echo_headers ctx)
     | None => []
     end).

Definition build_capability_headers (i : CapabilityInputs) : HeaderMap * bool * list byte :=
  let '(out, any) := capability_map i in
  let expose := join_comma (exposed_names i out) in
  (out, any, if text_is_value expose then expose else bs "Content-Encoding, WWW-Authenticate").
End Capabilities.

(** [axum::body::to_bytes]: the body, if it fits. *)
Class BoundedBody := { to_bytes : list byte → Z → option (list byte) }.

(** The names [http] gives these headers. *)
Definition ACCESS_CONTROL_REQUEST_HEADERS : list byte := bs "access-control-request-headers".
Definition ACCESS_CONTROL_ALLOW_ORIGIN : list byte := bs "access-control-allow-origin".
Definition ACCESS_CONTROL_ALLOW_CREDENTIALS : list byte := bs "access-control-allow-credentials".
Definition ACCESS_CONTROL_ALLOW_METHODS : list byte := bs "access-control-allow-methods".
Definition ACCESS_CONTROL_ALLOW_HEADERS : list byte := bs "access-control-allow-headers".
Definition ACCESS_CONTROL_EXPOSE_HEADERS : list byte := bs "access-control-expose-headers".
Definition ACCESS_CONTROL_MAX_AGE : list byte := bs "access-control-max-age".
Definition CONTENT_LENGTH : list byte := bs "content-length".
Definition OPTIONS : list byte := bs "OPTIONS".

Record LandingInfo := mkLandingInfo { li_name : list byte; li_doc : list byte; li_version : list byte }.

Section Site.
Context `{ArrowShm, !Json, !Aead, !Base64, !StreamTokens.Zstd, !External.Zstd, !UrlLib, !HttpLib, !ContentCodecs}.
Context {App Sess St Store AS : Type} `{!ExternalStorage Store, !Fetcher Store}.
Context `{!HttpStreamState (App:=App) (Sess:=Sess) (St:=St)}.

Abbreviation Srv := (RpcServer (UnaryHandler (App:=HApp (App:=App) (Sess:=Sess)) (Conn:=HttpCtx)) (HttpStream (App:=App) (Sess:=Sess) (St:=St))).
Abbreviation State := (HttpState (App:=App) (Sess:=Sess) (St:=St) (AS:=AS)).

(** The rest of [HttpState]: what the middleware and the pages read. *)
Record HttpSite := mkHttpSite {
  site_state : State;
  oauth_metadata_json : option (list byte);
  cors_max_age : Z;
  cors_allow_origin : option (list byte);
  cors_expose_headers : list byte;
  site_prefix : list byte;
  landing_page_enabled : bool;
  describe_page_enabled : bool;
  health_enabled : bool;
  landing_info : option LandingInfo;
  upload_url_provider : option (UploadUrlProvider Store);
  capability_headers : HeaderMap;
  capability_has_any : bool;
  provider_permits : Z;
  request_timeout : Z
}.

(** ** The builder: times in seconds *)
Record HttpStateBuilder := mkHttpStateBuilder {
  hb_server : option Srv;
  (** the grant keys and the resolver of the identity protocol [server] hosts *)
  hb_identity : option (option GrantKeys * option (TokenResolver AS));
  hb_token_key : option (list byte);
  hb_token_ttl : option Z;
  hb_call_state_cache_entries : option Z;
  hb_max_body_size : option Z;
  hb_request_timeout : option Z;
  hb_authenticate : option (Authenticate AS);
  hb_peer_identity_providers : list PeerIdentityProvider;
  hb_peer_identity_provider_concurrency : option Z;
  hb_peer_authentication_policy : option PeerAuthenticationPolicy;
  hb_peer_service_name : option (list byte);
  hb_oauth_metadata : option OAuthResourceMetadata;
  hb_cors_origins : option (list byte);
  hb_cors_max_age : option Z;
  hb_prefix : option (list byte);
  hb_response_compression_level : option (option Z);
  hb_landing_page_enabled : option bool;
  hb_describe_page_enabled : option bool;
  hb_health_enabled : option bool;
  hb_max_request_bytes : option Z;
  hb_hosting_max_request_bytes : option Z;
  hb_max_upload_bytes : option Z;
  hb_max_response_bytes : option Z;
  hb_hosting_max_response_bytes : option Z;
  hb_preferred_response_bytes : option Z;
  hb_max_externalized_response_bytes : option Z;
  hb_upload_url_provider : option (UploadUrlProvider Store);
  hb_enable_sticky : option bool;
  hb_sticky_default_ttl : option Z;
  hb_sticky_echo_headers : list (list byte * list byte);
  hb_landing_info : option LandingInfo;
  hb_proxy_proof_required : option bool;
  hb_identity_bearer : option bool;
  hb_extra_proxy_auth_headers : list (list byte)
}.

(** The identity credentials to accept as bearers. *)
Definition identity_sources (b : HttpStateBuilder) : option (option GrantKeys * option (TokenResolver AS)) :=
  if default true (hb_identity_bearer b) then
    match hb_identity b with
    | Some (None, None) | None => None
    | sources => sources
    end
  else None.

Definition proof_required (b : HttpStateBuilder) : bool := default false (hb_proxy_proof_required b).

(** The callback in force; [clock] is the clock in the callbacks' state. *)
Definition composed_authenticate (b : HttpStateBuilder) (clock : AS → f64) : res RpcError (option (Authenticate AS)) :=
  match identity_sources b with
  | Some (keys, resolver) =>
    if proof_required b || match hb_extra_proxy_auth_headers b with [] => false | _ => true end then Panic
    else Ok (compose_identity_authenticate (hb_authenticate b) keys resolver clock)
  | None => Ok (hb_authenticate b)
  end.

Definition capability_inputs (b : HttpStateBuilder) (server : Srv) (sticky : option StickyContext) : CapabilityInputs :=
  mkCapabilityInputs (min_some [hb_max_request_bytes b; hb_hosting_max_request_bytes b])
    (min_some [hb_max_response_bytes b; hb_hosting_max_response_bytes b]) (hb_max_externalized_response_bytes b)
    (bool_decide (is_Some (external_config server))) (bool_decide (is_Some (hb_upload_url_provider b)))
    (hb_max_upload_bytes b) sticky (default (Some DEFAULT_RESPONSE_COMPRESSION_LEVEL) (hb_response_compression_level b))
    (proof_required b).

(** [random_key]: the key drawn when none is configured. *)
Definition http_build (b : HttpStateBuilder) (clock : AS → f64) (random_key : list byte) : res RpcError HttpSite :=
  server ← or_panic (hb_server b);
  if bool_decide (hb_cors_origins b = Some (bs "*")) && bool_decide (is_Some (hb_authenticate b)) then Panic else
  auth ← composed_authenticate b clock;
  let key := default random_key (hb_token_key b) in
  let sticky := if default false (hb_enable_sticky b)
                then Some (mkStickyContext key (default 300 (hb_sticky_default_ttl b)) (hb_sticky_echo_headers b) (server_id server))
                else None in
  let level := default (Some DEFAULT_RESPONSE_COMPRESSION_LEVEL) (hb_response_compression_level b) in
  let '(caps, any, expose) := build_capability_headers (capability_inputs b server sticky) in
  Ok (mkHttpSite
    (mkHttpState server
       (mkTokenState key (default 300 (hb_token_ttl b)) (default CALL_STATE_CACHE_ENTRIES (hb_call_state_cache_entries b)))
       (mkAuthConfig auth (hb_peer_identity_providers b) (hb_peer_authentication_policy b) (hb_peer_service_name b)
          (hb_extra_proxy_auth_headers b) (proof_required b) (HttpContracts.www_authenticate <$> hb_oauth_metadata b))
       (mkLimits (default (64 * 1024 * 1024) (hb_max_body_size b)) (hb_max_request_bytes b) (hb_hosting_max_request_bytes b)
          (hb_max_response_bytes b) (hb_hosting_max_response_bytes b) (hb_preferred_response_bytes b)
          (hb_max_externalized_response_bytes b))
       sticky level)
    (to_json <$> hb_oauth_metadata b) (default 7200 (hb_cors_max_age b))
    (o ← hb_cors_origins b; if text_is_value o then Some o else None) expose (default [] (hb_prefix b))
    (default true (hb_landing_page_enabled b)) (default true (hb_describe_page_enabled b)) (default true (hb_health_enabled b))
    (hb_landing_info b) (hb_upload_url_provider b) caps any
    (default DEFAULT_PEER_IDENTITY_PROVIDER_CONCURRENCY (hb_peer_identity_provider_concurrency b))
    (default 30 (hb_request_timeout b))).

(** ** The headers of an answer *)
Definition attach_capability_headers (site : HttpSite) (verb : list byte) (out : HeaderMap) : HeaderMap :=
  let out := foldl (fun out kv => hinsert kv.1 kv.2 out) out (capability_headers site) in
  if capability_has_any site && bool_decide (verb = OPTIONS)
  then hinsert CACHE_CONTROL (bs "public, max-age=300") out else out.

Definition DEFAULT_ALLOW_HEADERS : list byte :=
  bs "Content-Type, Authorization, Cookie, Accept-Encoding, X-VGI-Accept-Encoding, VGI-Session, VGI-Session-Accept, VGI-Proxy-Proof, VGI-Accept-Max-Response-Bytes".

Definition has_authenticate (site : HttpSite) : bool :=
  bool_decide (is_Some (HttpAuth.authenticate (hs_auth (site_state site)))).

Definition attach_cors_headers (site : HttpSite) (requested : option (list byte)) (is_preflight : bool) (out : HeaderMap)
  : HeaderMap :=
  match cors_allow_origin site with
  | None => out
  | Some origin =>
    let out := hinsert ACCESS_CONTROL_ALLOW_ORIGIN origin out in
    let out := if has_authenticate site then hinsert ACCESS_CONTROL_ALLOW_CREDENTIALS (bs "true") out else out in
    let out := hinsert ACCESS_CONTROL_ALLOW_METHODS (bs "POST, GET, OPTIONS") out in
    let out := hinsert ACCESS_CONTROL_ALLOW_HEADERS (default DEFAULT_ALLOW_HEADERS requested) out in
    let out := hinsert ACCESS_CONTROL_EXPOSE_HEADERS (cors_expose_headers site) out in
    let out := hinsert (bs "cross-origin-resource-policy") (bs "cross-origin") out in
    if is_preflight then insert_text ACCESS_CONTROL_MAX_AGE (dec_unsigned (cors_max_age site)) out else out
  end.

(** ** Before and after the handler *)
Record Incoming := mkIncoming { in_verb : list byte; in_path : list byte; in_headers : HeaderMap; in_body : list byte }.

Definition new_session_id (random : list byte) : list byte := bytes_to_hex random.

(** The caller's id, or a new one. *)
Definition correlation_id (h : HeaderMap) (random : list byte) : list byte :=
  match get_text REQUEST_ID_RESPONSE_HEADER h with
  | Some v => if negb (bool_decide (v = [])) && (zlen v <=? 128) then v else new_session_id random
  | None => new_session_id random
  end.

(** An answer of the middleware's own: status, headers and text. *)
Definition own_answer (site : HttpSite) (verb : list byte) (requested : option (list byte)) (status : Z) (text : list byte)
  : HttpResponse :=
  mkHttpResponse status
    (attach_cors_headers site requested false (attach_capability_headers site verb [(CONTENT_TYPE, TEXT_PLAIN)])) text.

Definition request_limit (site : HttpSite) : option Z :=
  let l := hs_limits (site_state site) in min_some [max_request_bytes l; hosting_max_request_bytes l].

Definition limit_exempt (path : list byte) : bool :=
  bool_decide (path = bs "/health") || ends_with (bs "/health") path.

Definition declared_length (h : HeaderMap) : option Z := get_text CONTENT_LENGTH h ≫= parse_unsigned usize_max.

Context `{BoundedBody}.

(** The advertised limit, on the declared and then on the received length. *)
Definition limit_check (site : HttpSite) (rq : Incoming) (requested : option (list byte)) : option HttpResponse :=
  limit ← request_limit site;
  if limit_exempt (in_path rq) then None else
  let too_large := own_answer site (in_verb rq) requested 413 in
  match declared_length (in_headers rq) with
  | Some cl => if limit <? cl then Some (too_large (bs "Request body of ")) else
      match to_bytes (in_body rq) (saturating_add limit 1) with
      | Some body => if zlen body <=? limit then None else Some (too_large (bs "Request body of "))
      | None => Some (too_large (bs "Request body exceeds advertised max_request_bytes="))
      end
  | None =>
      match to_bytes (in_body rq) (saturating_add limit 1) with
      | Some body => if zlen body <=? limit then None else Some (too_large (bs "Request body of "))
      | None => Some (too_large (bs "Request body exceeds advertised max_request_bytes="))
      end
  end.

Definition is_arrow_response (r : HttpResponse) : bool := bool_decide (get_text CONTENT_TYPE (rheaders r) = Some ARROW_CONTENT_TYPE).

(** The answer of the handler, once its body fits the buffer. *)
Definition finish_response (site : HttpSite) (verb rid : list byte) (requested : option (list byte))
    (encoding : option (ResponseEncoding * bool)) (r : HttpResponse) : HttpResponse :=
  let h := attach_cors_headers site requested false (rheaders r) in
  let h := attach_capability_headers site verb h in
  let h := insert_text REQUEST_ID_RESPONSE_HEADER rid h in
  let '(h, body) := compress_body (hs_level (site_state site)) encoding (is_arrow_response r) h (rbody r) in
  mkHttpResponse (rstatus r) h body.

Abbreviation World := (HWorld (App:=App) (Sess:=Sess) (Store:=Store) (AS:=AS)).

(** Either way a handler answers. *)
Definition answered (r : res HttpResponse HttpResponse) : res HttpResponse HttpResponse :=
  match r with Ok a | Err a => Ok a | Panic => Panic end.

Definition postprocess_middleware (site : HttpSite) (random : list byte) (rq : Incoming)
    (next : HeaderMap → list byte → HM World HttpResponse) : HM World HttpResponse := fun w =>
  let requested := hget ACCESS_CONTROL_REQUEST_HEADERS (in_headers rq) in
  let rid := correlation_id (in_headers rq) random in
  let h := insert_text REQUEST_ID_RESPONSE_HEADER rid (in_headers rq) in
  let encoding := pick_response_encoding h (hs_level (site_state site)) in
  let ceiling := response_buffer_ceiling (hs_limits (site_state site)) h in
  match limit_check site (mkIncoming (in_verb rq) (in_path rq) h (in_body rq)) requested with
  | Some refusal => (Ok refusal, w)
  | None =>
    let '(r, w) := next h (in_body rq) w in
    (r ← answered r;
     Ok match to_bytes (rbody r) ceiling with
        | Some _ => finish_response site (in_verb rq) rid requested encoding r
        | None => own_answer site (in_verb rq) requested 500 (bs "response body exceeded the configured size limit")
        end, w)
  end.

(** ** Pages and probes *)
Definition handle_preflight (site : HttpSite) (h : HeaderMap) : res HttpResponse HttpResponse :=
  match parse_accepted_max_response_bytes h with
  | Err e => match arrow_error (site_state site) 400 [] e with Ok r => Ok r | _ => Panic end
  | _ => Ok (mkHttpResponse 204 (attach_cors_headers site (hget ACCESS_CONTROL_REQUEST_HEADERS h) true []) [])
  end.

Definition APPLICATION_JSON : list byte := bs "application/json".
Definition TEXT_HTML : list byte := bs "text/html; charset=utf-8".

Definition handle_health (site : HttpSite) : HttpResponse :=
  let srv := hs_server (site_state site) in
  mkHttpResponse 200 [(CONTENT_TYPE, APPLICATION_JSON)]
    (json_to_string (JObject (jobject [(bs "status", JString (bs "ok")); (bs "server_id", JString (server_id srv));
                              (bs "protocol", JString (protocol_name srv))]))).

Definition query_has_format_json (raw : list byte) : bool :=
  existsb (fun pair => bool_decide (pair = bs "format=json") || bool_decide (Bytes.strip_prefix (bs "format=") pair = Some (bs "json")))
    (split_on x26 raw).

Definition ACCEPT : list byte := bs "accept".

(** [html]: the vendored page. *)
Definition handle_landing (site : HttpSite) (html : list byte) (h : HeaderMap) (query : option (list byte)) : HttpResponse :=
  let accept := default [] (get_text ACCEPT h) in
  let format_json := match query with Some q => query_has_format_json q | None => false end in
  if format_json || (contains (bs "application/json") accept && negb (contains (bs "text/html") accept)) then
    let srv := hs_server (site_state site) in
    let info := default (mkLandingInfo [] [] []) (landing_info site) in
    mkHttpResponse 200 [(CONTENT_TYPE, APPLICATION_JSON)]
      (json_to_string (JObject (jobject
         [(bs "status", JString (bs "ok")); (bs "server_id", JString (server_id srv));
          (bs "protocol", JString (protocol_name srv)); (bs "worker", JString (li_name info)); (bs "doc", JString (li_doc info));
          (bs "version", JString (li_version info)); (bs "lang", JString (bs "rust"));
          (bs "oauth", JBool (bool_decide (is_Some (oauth_metadata_json site))));
          (bs "cupola_base", JString (bs "https://cupola.query-farm.services"))])))
  else mkHttpResponse 200 [(CONTENT_TYPE, TEXT_HTML)] html.

Definition handle_client_bundle (bundle : list byte) : HttpResponse :=
  mkHttpResponse 200 (hinsert CACHE_CONTROL (bs "public, max-age=3600") [(CONTENT_TYPE, bs "text/javascript; charset=utf-8")]) bundle.

Definition html_escape (s : list byte) : list byte :=
  str_replace [x3e] (bs "&gt;") (str_replace [x3c] (bs "&lt;") (str_replace [x26] (bs "&amp;") s)).

(** [docs]: the documentation a method was registered with. *)
Definition describe_row (docs : list byte → option (list byte)) (name : list byte) (t : MethodType) : list byte :=
  bs "<tr><td><code>" ++ name ++ bs "</code></td><td>" ++
  (match t with Unary => bs "unary" | _ => bs "stream" end) ++ bs "</td><td>" ++
  html_escape (default [] (docs name)) ++ bs "</td></tr>".

Definition sorted_method_names (srv : Srv) : list (list byte) := merge_sort bytes_le (elements (dom (methods srv))).

Definition render_describe_page (site : HttpSite) (docs : list byte → option (list byte)) : list byte :=
  let srv := hs_server (site_state site) in
  bs "<!doctype html><html><head><meta charset=" ++ [x22] ++ bs "utf-8" ++ [x22] ++
  bs "><title>API reference</title></head><body>" ++
  bs "<h1>" ++ protocol_name srv ++ bs "</h1><table><tr><th>method</th><th>type</th><th>doc</th></tr>" ++
  concat ((fun name => match methods srv !! name with
                       | Some m => describe_row docs name (method_type m)
                       | None => [] end) <$> sorted_method_names srv) ++
  bs "</table></body></html>".

Definition handle_describe_page (site : HttpSite) (docs : list byte → option (list byte)) : HttpResponse :=
  mkHttpResponse 200 [(CONTENT_TYPE, TEXT_HTML)] (render_describe_page site docs).

Definition handle_oauth_metadata (site : HttpSite) : HttpResponse :=
  match oauth_metadata_json site with
  | Some body => mkHttpResponse 200 (hinsert CACHE_CONTROL (bs "public, max-age=60") [(CONTENT_TYPE, APPLICATION_JSON)]) body
  | None => mkHttpResponse 404 [(CONTENT_TYPE, TEXT_PLAIN)] []
  end.
End Site.
