(* ===== verification/HttpSiteProps.v ===== *)
(** * HTTP: what the answers of a site say

    Which configurations [HttpStateBuilder::build] refuses, what its capability headers
    promise, and the middleware: a request over the advertised limit never reaches a
    handler unless its path is or ends in [/health], every other request reaches it under
    one correlation id, and every answer that leaves the middleware carries the promises.
    The layers of [tower_http] that [build_router] puts outside it (the body limit's 413,
    the timeout's 408, the panic net's 500) answer on their own and promise nothing. *)

From S2P Require Import Prelude Bytes Metadata F64 Json ErrorModel Errors Ipc IpcWriter IpcStream Arrow ShmBatch Crypto External ArrowType.
From S2P Require Import Auth Grants Sticky StreamTokens Dispatch Serve Net PeerIdentity HttpBase HttpBaseProps HttpAuth HttpContracts TokenIdentity Http HttpSite.

#[local] Open Scope Z_scope.

(** [to_bytes] delivers a body that fits its bound. *)
Class BoundedBodyLaws `{BoundedBody} := { to_bytes_fits : ∀ b n, to_bytes b n = if zlen b <=? n then Some b else None }.

(** ** Headers *)
Section Headers.
Context `{HttpLib, !HttpLibLaws}.

Lemma insert_text_ne n n' v h : n ≠ n' → hget n (insert_text n' v h) = hget n h.
Proof. intros Hn. unfold insert_text. case_match; [by rewrite hget_hinsert_ne|done]. Qed.

Lemma visible_value v : forallb visible_ascii v = true → text_is_value v = true.
Proof. intros Hv. by destruct (visible_text v Hv). Qed.

Lemma insert_visible n v h : forallb visible_ascii v = true → hget n (insert_text n v h) = Some v.
Proof. intros Hv. unfold insert_text. rewrite visible_value by done. apply hget_hinsert. Qed.

Lemma digits_visible n : 0 ≤ n → forallb visible_ascii (dec_unsigned n) = true.
Proof.
  intros Hn. apply forallb_forall. intros b Hb%list_elem_of_In.
  pose proof (dec_unsigned_digits n Hn) as Hd. eapply list.Forall_forall in Hd; [|done]. unfold is_ascii_digit, visible_ascii, in_range in *. rewrite !andb_true_iff, !Z.leb_le in *. lia.
Qed.

Lemma hex_visible l : forallb visible_ascii (bytes_to_hex l) = true.
Proof.
  induction l as [|b l IH]; [done|]. rewrite (bytes_to_hex_app [b] l : bytes_to_hex (b :: l) = _), forallb_app, IH, andb_true_r.
  by destruct b.
Qed.

(** An answer of up to 64 KiB is never over the ceiling. *)
Lemma ceiling_floor l h : MIN_RESPONSE_BYTES ≤ response_buffer_ceiling l h.
Proof. unfold response_buffer_ceiling, MIN_RESPONSE_BYTES. destruct (effective_response_budget l h) as [[[hard|] pref]|?|]; ints; lia. Qed.

(** The names that a capability header can have. *)
Definition capability (n : list byte) : bool := starts_with (bs "vgi-") n.

Lemma capability_ne n m : capability n = true → capability m = false → n ≠ m.
Proof. by intros Hn Hm ->; rewrite Hn in Hm. Qed.

(** Names once each, all of capabilities. *)
Definition caps_ok (c : HeaderMap * bool) : Prop := NoDup (c.1.*1) ∧ Forall (fun kv => capability kv.1 = true) c.1.

Lemma hinsert_names n v (h : HeaderMap) :
  NoDup (h.*1) → NoDup ((hinsert n v h).*1).
Proof.
  intros Hh. unfold hinsert. rewrite fmap_app. apply list.NoDup_app. split_and!.
  - induction h as [|[k w] h IH]; [constructor|]. apply list.NoDup_cons in Hh as [Hk Hh]. cbn [List.filter fst].
    destruct (negb (bool_decide (k = n))); [|by apply IH]. rewrite fmap_cons. apply list.NoDup_cons. split; [|by apply IH].
    intros Hin. apply Hk. clear -Hin. apply list_elem_of_fmap in Hin as ([k' w'] & -> & Hin). apply list_elem_of_fmap.
    eexists. split; [done|]. by apply list_elem_of_In, filter_In in Hin as [Hin%list_elem_of_In _].
  - intros x Hx Hin. apply list_elem_of_singleton in Hin as ->. apply list_elem_of_fmap in Hx as ([k w] & E & Hin).
    apply list_elem_of_In, filter_In in Hin as [_ Hne]. cbn in E, Hne. subst. by rewrite bool_decide_eq_true_2 in Hne.
  - apply NoDup_singleton.
Qed.

Lemma hinsert_all (P : list byte * list byte → Prop) n v (h : HeaderMap) :
  P (n, v) → Forall P h → Forall P (hinsert n v h).
Proof.
  intros Hn Hh. unfold hinsert. apply list.Forall_app. split; [|by constructor]. apply list.Forall_forall.
  intros x Hx%list_elem_of_In. apply filter_In in Hx as [Hx%list_elem_of_In _]. by eapply list.Forall_forall in Hh.
Qed.

Lemma caps_static n v c : capability n = true → caps_ok c → caps_ok (static n v c).
Proof. intros Hn [? ?]. split; [by apply hinsert_names|by apply hinsert_all]. Qed.
Lemma caps_flag n v c : capability n = true → caps_ok c → caps_ok (flag n v c).
Proof. intros Hn Hc. unfold flag, insert_text. case_match; [|by destruct c]. by apply (caps_static n v c). Qed.
Lemma caps_counts c : caps_ok c → caps_ok (counts c).
Proof. done. Qed.
Lemma caps_limit n l c : capability n = true → caps_ok c → caps_ok (limit_header n l c).
Proof. intros Hn Hc. unfold limit_header. repeat case_match; try done. by apply (caps_static n _ c). Qed.

Create HintDb caps.
#[local] Hint Resolve caps_static caps_flag caps_counts caps_limit : caps.
#[local] Hint Extern 1 (capability _ = true) => reflexivity : caps.

Lemma caps_upload i c : caps_ok c → caps_ok (upload_headers i c).
Proof. intros Hc. unfold upload_headers. destruct (upload_url_support i), (max_upload_bytes i); auto with caps. Qed.

Lemma caps_sticky i c : caps_ok c → caps_ok (sticky_headers i c).
Proof. intros Hc. unfold sticky_headers. destruct (ci_sticky i) as [s|]; [destruct (echo_headers s)|]; auto with caps. Qed.

Lemma capability_map_ok i : caps_ok (capability_map i).
Proof.
  apply caps_sticky. assert (caps_ok ([], false)) as Hnil by (by split; [constructor|]).
  destruct (ci_proof_required i); auto 20 using caps_upload with caps.
Qed.
End Headers.

(** ** What the capability headers promise *)
Section Promises.
Context `{HttpLib, !HttpLibLaws}.

Record promises (i : CapabilityInputs) (h : HeaderMap) : Prop := {
  codings_told : hget (bs "vgi-supported-encodings") h = Some (supported_encodings_header_value (ci_level i));
  request_limit_told n : ci_max_request_bytes i = Some n → hget (bs "vgi-max-request-bytes") h = Some (dec_unsigned n);
  response_limit_told n : ci_max_response_bytes i = Some n → hget (bs "vgi-max-response-bytes") h = Some (dec_unsigned n);
  external_limit_told n : ci_max_externalized i = Some n → hget (bs "vgi-max-externalized-response-bytes") h = Some (dec_unsigned n);
  external_told : hget (bs "vgi-externalization-enabled") h = Some (bool_text (externalization_enabled i));
  uploads_told : upload_url_support i = true → hget (bs "vgi-upload-url-support") h = Some (bs "true");
  proof_told : ci_proof_required i = true → hget PROOF_REQUIRED_HEADER h = Some (bs "true");
  sessions_told : hget STICKY_ENABLED_HEADER h = Some (bool_text (bool_decide (is_Some (ci_sticky i))))
}.

Definition limits_nonneg (i : CapabilityInputs) : Prop :=
  ∀ n, n ∈ [ci_max_request_bytes i; ci_max_response_bytes i; ci_max_externalized i] → default 0 n >= 0.

Lemma static_told n v c : hget n (static n v c).1 = Some v.
Proof. apply hget_hinsert. Qed.
Lemma static_untold n n' v c : n ≠ n' → hget n (static n' v c).1 = hget n c.1.
Proof. apply hget_hinsert_ne. Qed.
Lemma flag_untold n n' v c : n ≠ n' → hget n (flag n' v c).1 = hget n c.1.
Proof. apply insert_text_ne. Qed.
Lemma limit_untold n n' l c : n ≠ n' → hget n (limit_header n' l c).1 = hget n c.1.
Proof. intros. unfold limit_header. repeat case_match; [by apply hget_hinsert_ne|done..]. Qed.
Lemma limit_told n l c : 0 ≤ l → hget n (limit_header n (Some l) c).1 = Some (dec_unsigned l).
Proof. intros. unfold limit_header. rewrite visible_value by by apply digits_visible. apply hget_hinsert. Qed.

Lemma upload_untold n i c : n ≠ bs "vgi-upload-url-support" → n ≠ bs "vgi-max-upload-bytes" →
  hget n (upload_headers i c).1 = hget n c.1.
Proof.
  intros. unfold upload_headers. destruct (upload_url_support i); [|done].
  destruct (max_upload_bytes i); [rewrite flag_untold by done|]; by apply static_untold.
Qed.
Lemma sticky_untold n i c : n ≠ STICKY_ENABLED_HEADER → n ≠ STICKY_DEFAULT_TTL_HEADER → n ≠ STICKY_ECHO_HEADERS_HEADER →
  hget n (sticky_headers i c).1 = hget n c.1.
Proof.
  intros. unfold sticky_headers. destruct (ci_sticky i) as [s|]; [|by apply static_untold].
  destruct (echo_headers s); repeat rewrite flag_untold by done; by apply static_untold.
Qed.
Lemma proof_untold n i c : n ≠ PROOF_REQUIRED_HEADER →
  hget n ((if ci_proof_required i then counts (static PROOF_REQUIRED_HEADER (bs "true") c) else c).1) = hget n c.1.
Proof. intros. destruct (ci_proof_required i); [by apply static_untold|done]. Qed.

#[local] Ltac untold :=
  repeat first [rewrite sticky_untold by done | rewrite proof_untold by done | rewrite upload_untold by done
               | rewrite static_untold by done | rewrite limit_untold by done | rewrite flag_untold by done].

Lemma capability_map_promises i : limits_nonneg i → promises i (capability_map i).1.
Proof.
  intros Hn. constructor; unfold capability_map; cbv zeta.
  - untold. apply insert_visible. unfold supported_encodings_header_value. by destruct (ci_level i).
  - intros n E. untold. rewrite E. apply limit_told. specialize (Hn (Some n)). rewrite E in Hn. cbn in Hn.
    specialize (Hn ltac:(left)). lia.
  - intros n E. untold. rewrite E. apply limit_told. specialize (Hn (Some n)). rewrite E in Hn. cbn in Hn.
    specialize (Hn ltac:(right; left)). lia.
  - intros n E. untold. rewrite E. apply limit_told. specialize (Hn (Some n)). rewrite E in Hn. cbn in Hn.
    specialize (Hn ltac:(right; right; left)). lia.
  - untold. apply static_told.
  - intros E. untold. unfold upload_headers. rewrite E. destruct (max_upload_bytes i); [rewrite flag_untold by done|]; apply static_told.
  - intros E. untold. rewrite E. apply static_told.
  - unfold sticky_headers. destruct (ci_sticky i) as [s|]; [|apply static_told].
    destruct (echo_headers s); repeat rewrite flag_untold by done; apply static_told.
Qed.

Lemma capability_budget i : limits_nonneg i →
  hget ACCEPT_MAX_RESPONSE_BYTES_SUPPORT_HEADER (capability_map i).1 = Some (bs "true") ∧
  hget (bs "vgi-max-response-bytes") (capability_map i).1 = dec_unsigned <$> ci_max_response_bytes i.
Proof.
  intros Hn. unfold capability_map. cbv zeta. split; untold; [apply static_told|].
  destruct (ci_max_response_bytes i) as [n|] eqn:E.
  - apply limit_told. specialize (Hn (Some n)). rewrite E in Hn. cbn in Hn. specialize (Hn ltac:(right; left)). lia.
  - change (limit_header _ None ?c) with c. by untold.
Qed.

(** A later header map that keeps the capabilities keeps the promises. *)
Lemma promises_kept i (h h' : HeaderMap) :
  (∀ n v, capability n = true → hget n h = Some v → hget n h' = Some v) → promises i h → promises i h'.
Proof. intros Hk []. constructor; eauto. Qed.
End Promises.

(** ** Configurations *)
Section Site.
Context `{ArrowShm, !Json, !Aead, !Base64, !StreamTokens.Zstd, !External.Zstd, !UrlLib, !HttpLib, !HttpLibLaws, !ContentCodecs}.
Context `{!ExternalProps.ZstdLaws, !ContentCodecsLaws} {App Sess St Store AS : Type} `{!ExternalStorage Store, !Fetcher Store}.
Context `{!HttpStreamState (App:=App) (Sess:=Sess) (St:=St)}.

Abbreviation Site := (HttpSite (App:=App) (Sess:=Sess) (St:=St) (Store:=Store) (AS:=AS)).
Abbreviation Builder := (HttpStateBuilder (App:=App) (Sess:=Sess) (St:=St) (Store:=Store) (AS:=AS)).
Abbreviation World := (HWorld (App:=App) (Sess:=Sess) (Store:=Store) (AS:=AS)).

Definition wildcard (b : Builder) : bool := bool_decide (hb_cors_origins b = Some (bs "*")).
Definition proxied (b : Builder) : bool := proof_required b || negb (bool_decide (hb_extra_proxy_auth_headers b = [])).

(** The sticky context and the capabilities of a site that builds. *)
Definition built_sticky (b : Builder) (key : list byte) (server_id : list byte) : option StickyContext :=
  if default false (hb_enable_sticky b)
  then Some (mkStickyContext (default key (hb_token_key b)) (default 300 (hb_sticky_default_ttl b)) (hb_sticky_echo_headers b) server_id)
  else None.

Lemma composed_spec (b : Builder) (clock : AS → f64) :
  composed_authenticate b clock =
    if bool_decide (is_Some (identity_sources b)) && proxied b then Panic else
    Ok match identity_sources b with
       | Some (keys, resolver) => compose_identity_authenticate (hb_authenticate b) keys resolver clock
       | None => hb_authenticate b
       end.
Proof.
  unfold composed_authenticate, proxied. destruct (identity_sources b) as [[keys resolver]|]; [|done].
  by destruct (hb_extra_proxy_auth_headers b), (proof_required b).
Qed.

Lemma build_ok (b : Builder) clock key (site : Site) :
  http_build b clock key = Ok site →
  ∃ server auth, hb_server b = Some server ∧ composed_authenticate b clock = Ok auth ∧
    (wildcard b = true → hb_authenticate b = None) ∧
    let i := capability_inputs b server (built_sticky b key (server_id server)) in
    capability_headers site = (capability_map i).1 ∧ cors_expose_headers site = (build_capability_headers i).2 ∧
    HttpAuth.authenticate (hs_auth (site_state site)) = auth ∧
    cors_allow_origin site = (o ← hb_cors_origins b; if text_is_value o then Some o else None) ∧
    hs_level (site_state site) = ci_level i ∧ request_limit site = ci_max_request_bytes i ∧
    min_some [max_response_bytes (hs_limits (site_state site)); hosting_max_response_bytes (hs_limits (site_state site))]
      = ci_max_response_bytes i.
Proof.
  unfold http_build. intros E. destruct (hb_server b) as [server|]; [|done]. cbn [or_panic mbind res_bind] in E.
  fold (wildcard b) in E.
  destruct (wildcard b && bool_decide (is_Some (hb_authenticate b))) eqn:Ew; [done|].
  destruct (composed_authenticate b clock) as [auth|?|] eqn:Ea; [|done..].
  fold (built_sticky b key (server_id server)) in E.
  destruct (build_capability_headers _) as [[caps any] expose] eqn:Ec. injection E as <-.
  exists server, auth. split; [done|]. split; [done|]. split.
  { intros Hw. rewrite Hw in Ew. by destruct (hb_authenticate b). }
  cbv zeta. cbn [capability_headers]. change (default _ _) with (default key (hb_token_key b)) in Ec.
  unfold build_capability_headers in *. 
  destruct (capability_map _) as [out any'] eqn:Em in Ec. injection Ec as <- <- <-.
  rewrite Em. by split_and!.
Qed.

Lemma build_server (b : Builder) clock key (site : Site) :
  http_build b clock key = Ok site → hb_server b = Some (hs_server (site_state site)).
Proof.
  unfold http_build. intros E. destruct (hb_server b) as [server|]; [|done]. cbn [or_panic mbind res_bind] in E.
  destruct (_ && _) in E; [done|]. destruct (composed_authenticate b clock) as [auth|?|]; [|done..]. cbn [mbind res_bind] in E. cbv zeta in E.
  destruct (build_capability_headers _) as [[caps any] expose]. by injection E as <-.
Qed.

Definition refused (b : Builder) : bool :=
  bool_decide (hb_server b = None) || (wildcard b && bool_decide (is_Some (hb_authenticate b))) ||
  (bool_decide (is_Some (identity_sources b)) && proxied b).

Lemma sources_compose (b : Builder) keys resolver deployment clock :
  identity_sources b = Some (keys, resolver) → is_Some (compose_identity_authenticate deployment keys resolver clock).
Proof.
  unfold identity_sources, compose_identity_authenticate. destruct (default true _); [|done].
  destruct (hb_identity b) as [[[k|] [r|]]|]; intros [= <- <-]; by eexists.
Qed.


(** ** The headers of an answer *)
Lemma caps_last (l h : HeaderMap) k v :
  NoDup (l.*1) → (k, v) ∈ l → hget k (foldl (fun out kv => hinsert kv.1 kv.2 out) h l) = Some v.
Proof.
  revert h. induction l as [|[k' v'] l IH]; intros h Hn Hin; [by apply not_elem_of_nil in Hin|].
  apply list.NoDup_cons in Hn as [Hk Hn]. cbn [foldl fst snd]. apply elem_of_cons in Hin as [[= <- <-]|Hin]; [|by apply IH].
  clear IH. rewrite <- (hget_hinsert k v h). generalize (hinsert k v h). induction l as [|[k' w] l IHl]; intros g; [done|].
  cbn [foldl fst snd]. apply list.NoDup_cons in Hn as [_ Hn]. apply not_elem_of_cons in Hk as [Hne Hk].
  rewrite IHl by done. by apply hget_hinsert_ne.
Qed.

Lemma hget_in k v (h : HeaderMap) : hget k h = Some v → (k, v) ∈ h.
Proof.
  unfold hget, hget_all. intros E. destruct (List.filter _ h) as [|[k' v'] l] eqn:Ef; [done|]. injection E as <-.
  assert (In (k', v') (List.filter (fun kv => bool_decide (kv.1 = k)) h)) as Hin by (rewrite Ef; by left).
  apply filter_In in Hin as [Hin Hk]. apply bool_decide_eq_true in Hk. cbn in Hk. subst. by apply list_elem_of_In.
Qed.

(** A site whose capability headers are capabilities. *)
Definition site_ok (site : Site) : Prop :=
  NoDup ((capability_headers site).*1) ∧ Forall (fun kv => capability kv.1 = true) (capability_headers site).

Lemma attach_told (site : Site) verb h k v :
  site_ok site → capability k = true → hget k (capability_headers site) = Some v →
  hget k (attach_capability_headers site verb h) = Some v.
Proof.
  intros [Hn _] Hk Hg. unfold attach_capability_headers. assert (k ≠ CACHE_CONTROL) by (by eapply capability_ne).
  case_match; [rewrite hget_hinsert_ne by done|]; apply caps_last; auto using hget_in.
Qed.

Definition cors_names : list (list byte) :=
  [ACCESS_CONTROL_ALLOW_ORIGIN; ACCESS_CONTROL_ALLOW_CREDENTIALS; ACCESS_CONTROL_ALLOW_METHODS; ACCESS_CONTROL_ALLOW_HEADERS;
   ACCESS_CONTROL_EXPOSE_HEADERS; bs "cross-origin-resource-policy"].

Lemma cors_untold (site : Site) requested h k :
  k ∉ cors_names → hget k (attach_cors_headers site requested false h) = hget k h.
Proof.
  intros Hk. unfold cors_names in Hk. rewrite !not_elem_of_cons in Hk. destruct Hk as (? & ? & ? & ? & ? & ? & _).
  unfold attach_cors_headers. destruct (cors_allow_origin site); [|done]. cbv zeta.
  repeat (rewrite hget_hinsert_ne by done). destruct (has_authenticate site); by repeat (rewrite hget_hinsert_ne by done).
Qed.

Lemma capability_not_cors k : capability k = true → k ∉ cors_names.
Proof. intros Hk Hin. unfold cors_names in Hin. rewrite !elem_of_cons, elem_of_nil in Hin. destruct_or! Hin; by subst. Qed.

Lemma cors_told (site : Site) requested h o :
  cors_allow_origin site = Some o →
  hget ACCESS_CONTROL_ALLOW_ORIGIN (attach_cors_headers site requested false h) = Some o ∧
  hget ACCESS_CONTROL_EXPOSE_HEADERS (attach_cors_headers site requested false h) = Some (cors_expose_headers site) ∧
  (has_authenticate site = true → hget ACCESS_CONTROL_ALLOW_CREDENTIALS (attach_cors_headers site requested false h) = Some (bs "true")).
Proof.
  intros Ho. unfold attach_cors_headers. rewrite Ho. cbv zeta. split_and!.
  - repeat rewrite (hget_hinsert_ne ACCESS_CONTROL_ALLOW_ORIGIN) by done.
    destruct (has_authenticate site); [rewrite hget_hinsert_ne by done|]; apply hget_hinsert.
  - rewrite hget_hinsert_ne by done. apply hget_hinsert.
  - intros ->. repeat rewrite (hget_hinsert_ne ACCESS_CONTROL_ALLOW_CREDENTIALS) by done. apply hget_hinsert.
Qed.

Lemma attach_untold (site : Site) verb h k :
  site_ok site → capability k = false → k ≠ CACHE_CONTROL → hget k (attach_capability_headers site verb h) = hget k h.
Proof.
  intros [_ Hc] Hk Hne. unfold attach_capability_headers.
  assert (hget k (foldl (fun out kv => hinsert kv.1 kv.2 out) h (capability_headers site)) = hget k h) as E.
  { revert h. induction (capability_headers site) as [|[k' v'] l IH]; intros h; [done|]. apply list.Forall_cons in Hc as [Hk' Hc].
    cbn [foldl fst snd]. rewrite IH by done. apply hget_hinsert_ne. intros ->. cbn in Hk'. by rewrite Hk in Hk'. }
  case_match; [rewrite hget_hinsert_ne by done|]; done.
Qed.

Lemma compress_untold level encoding is_arrow (h : HeaderMap) bytes k :
  k ≠ CONTENT_ENCODING → k ≠ VGI_CONTENT_ENCODING_HEADER → hget k (compress_body level encoding is_arrow h bytes).1 = hget k h.
Proof. intros. unfold compress_body. repeat case_match; try done; by apply hget_hinsert_ne. Qed.

Lemma finish_get (site : Site) verb rid requested encoding r k :
  k ≠ CONTENT_ENCODING → k ≠ VGI_CONTENT_ENCODING_HEADER →
  hget k (rheaders (finish_response site verb rid requested encoding r)) =
  hget k (insert_text REQUEST_ID_RESPONSE_HEADER rid
            (attach_capability_headers site verb (attach_cors_headers site requested false (rheaders r)))).
Proof.
  intros Hc Hv. unfold finish_response. cbv zeta. set (h := insert_text _ _ _).
  rewrite <- (compress_untold (hs_level (site_state site)) encoding (is_arrow_response r) h (rbody r)) by done.
  by destruct (compress_body _ _ _ _ _).
Qed.

(** What an answer of the middleware is. *)
Inductive middleware_answer (site : Site) : HttpResponse → Prop :=
| own_refusal verb requested status text : middleware_answer site (own_answer site verb requested status text)
| from_handler verb rid requested encoding r : middleware_answer site (finish_response site verb rid requested encoding r).

Context `{!BoundedBody, !BoundedBodyLaws}.

(** A request whose declared or received length is over the limit, outside the probes. *)
Definition over_limit (site : Site) (rq : Incoming) : bool :=
  match request_limit site with
  | Some limit => negb (limit_exempt (in_path rq)) &&
      ((limit <? default 0 (declared_length (in_headers rq))) || (limit <? zlen (in_body rq)))
  | None => false
  end.

Lemma limit_check_exact (site : Site) rq requested :
  (∀ l, request_limit site = Some l → 0 ≤ l ≤ usize_max) →
  if over_limit site rq then ∃ text, limit_check site rq requested = Some (own_answer site (in_verb rq) requested 413 text)
  else limit_check site rq requested = None.
Proof.
  intros Hl. unfold over_limit, limit_check. destruct (request_limit site) as [l|]; [|done]. cbn [mbind option_bind].
  specialize (Hl l eq_refl). destruct (limit_exempt (in_path rq)); [done|]. cbn [negb andb].
  assert (to_bytes (in_body rq) (saturating_add l 1) = None → l < zlen (in_body rq)) as Hnone.
  { rewrite to_bytes_fits. unfold saturating_add. case_match eqn:Hz; [done|]. intros _. apply Z.leb_gt in Hz. ints; lia. }
  assert (∀ body, to_bytes (in_body rq) (saturating_add l 1) = Some body → body = in_body rq) as Hsome.
  { intros body. rewrite to_bytes_fits. case_match; [by intros [= <-]|done]. }
  destruct (declared_length (in_headers rq)) as [cl|]; cbn [default id];
    [destruct (l <? cl); cbn [orb]; [by eexists|]|rewrite (proj2 (Z.ltb_ge l 0)) by lia; cbn [orb]];
    (destruct (to_bytes (in_body rq) (saturating_add l 1)) as [body|] eqn:Eb;
     [rewrite (Hsome _ eq_refl), Z.leb_antisym; by destruct (l <? zlen (in_body rq)); [eexists|]
     |rewrite (proj2 (Z.ltb_lt _ _)) by auto; by eexists]).
Qed.

Lemma correlation_value h random : text_is_value (correlation_id h random) = true.
Proof.
  unfold correlation_id, get_text. assert (text_is_value (new_session_id random) = true) by (by apply visible_value, hex_visible).
  destruct (hget REQUEST_ID_RESPONSE_HEADER h) as [v|]; [|done]. cbn [mbind option_bind].
  destruct (value_is_text v) eqn:Hv; [|done]. by case_match; [apply text_value|].
Qed.

(** The body as the client reads it, under the coding the answer names. *)
Definition client_body (r : HttpResponse) (max : Z) : res RpcError (list byte) :=
  decode_content_encoding (rbody r)
    (match hget VGI_CONTENT_ENCODING_HEADER (rheaders r) with Some c => Some c | None => hget CONTENT_ENCODING (rheaders r) end)
    (Some max).

Lemma finish_decodes (site : Site) verb rid requested h a max :
  site_ok site → hget CONTENT_ENCODING (rheaders a) = None → hget VGI_CONTENT_ENCODING_HEADER (rheaders a) = None →
  zlen (rbody a) ≤ max ≤ u64_max → (∀ l e, hs_level (site_state site) = Some l → window_fits e l max) →
  let r := finish_response site verb rid requested (pick_response_encoding h (hs_level (site_state site))) a in
  zlen (rbody r) ≤ zlen (rbody a) ∧ client_body r max = Ok (rbody a).
Proof.
  intros Hs Hc Hv Hm Hw. cbv zeta. unfold finish_response. cbv zeta. set (out := insert_text _ _ _).
  assert (∀ k, capability k = false → k ≠ CACHE_CONTROL → k ≠ REQUEST_ID_RESPONSE_HEADER → k ∉ cors_names →
    hget k out = hget k (rheaders a)) as Hout.
  { intros k ????. unfold out. rewrite insert_text_ne, attach_untold, cors_untold by done. done. }
  destruct (compress_body _ _ _ out _) as [out' body'] eqn:E.
  assert (CONTENT_ENCODING ∉ cors_names ∧ VGI_CONTENT_ENCODING_HEADER ∉ cors_names) as [Hn1 Hn2].
  { split; unfold cors_names; rewrite !not_elem_of_cons; split_and!; try done; apply not_elem_of_nil. }
  destruct (compress_body_decodes h out (hs_level (site_state site)) (is_arrow_response a) (rbody a) out' body' max) as [Hlen Hbody];
    [by rewrite Hout|by rewrite Hout|lia|lia|done..|].
  cbn [rbody rheaders]. split; [done|]. unfold client_body. cbn [rbody rheaders].
  destruct Hbody as [[-> ->]|(e & custom & l & _ & _ & _ & _ & _ & Hx & Hy & Hd)].
  - by rewrite !Hout, Hc, Hv.
  - rewrite Hx, Hy. by destruct custom.
Qed.

(** The request as a handler sees it. *)
Definition seen (rq : Incoming) (random : list byte) : HeaderMap :=
  hinsert REQUEST_ID_RESPONSE_HEADER (correlation_id (in_headers rq) random) (in_headers rq).

Lemma middleware_unfold (site : Site) random rq (next : HeaderMap → list byte → HM World HttpResponse) w :
  (∀ l, request_limit site = Some l → 0 ≤ l ≤ usize_max) →
  let h := seen rq random in
  let requested := hget ACCESS_CONTROL_REQUEST_HEADERS (in_headers rq) in
  if over_limit site rq
  then ∃ text, postprocess_middleware site random rq next w = (Ok (own_answer site (in_verb rq) requested 413 text), w)
  else postprocess_middleware site random rq next w =
    (match answered (next h (in_body rq) w).1 with
     | Ok a => Ok (if zlen (rbody a) <=? response_buffer_ceiling (hs_limits (site_state site)) h
                   then finish_response site (in_verb rq) (correlation_id (in_headers rq) random) requested
                          (pick_response_encoding h (hs_level (site_state site))) a
                   else own_answer site (in_verb rq) requested 500 (bs "response body exceeded the configured size limit"))
     | Err e => Err e
     | Panic => Panic
     end, (next h (in_body rq) w).2).
Proof.
  intros Hl h requested. unfold postprocess_middleware. cbv zeta.
  assert (insert_text REQUEST_ID_RESPONSE_HEADER (correlation_id (in_headers rq) random) (in_headers rq) = h) as ->.
  { unfold insert_text. by rewrite correlation_value. }
  set (rq' := mkIncoming (in_verb rq) (in_path rq) h (in_body rq)).
  assert (over_limit site rq' = over_limit site rq) as Ho.
  { unfold over_limit, declared_length, get_text. cbn [in_headers in_body in_path rq']. unfold h, seen. by rewrite hget_hinsert_ne. }
  pose proof (limit_check_exact site rq' requested Hl) as Hc. rewrite Ho in Hc. fold requested.
  destruct (over_limit site rq); [destruct Hc as [text ->]; by exists text|]. rewrite Hc.
  destruct (next h (in_body rq) w) as [r w']. cbn [fst snd].
  destruct (answered r) as [a|e|]; cbn [mbind res_bind fst snd]; [|done..].
  rewrite to_bytes_fits. by destruct (zlen (rbody a) <=? _).
Qed.

(** C13. In the middleware, a request whose declared or received length is over the
    advertised limit is answered 413 and no handler runs, unless its path is or ends in
    [/health]: that exemption is meant for the probes, and covers a call of a method
    named [health] too. Any other request, the exempt ones included, runs the handler
    exactly once, with its own body and one correlation id in its headers; the
    answer is the handler's, under the same id, its body no longer than the handler's and
    decoding to it under the coding the answer names; only an answer over the response
    ceiling becomes a 500. *)
Theorem middleware_exact (site : Site) random rq (next : HeaderMap → list byte → HM World HttpResponse) w :
  site_ok site → (∀ l, request_limit site = Some l → 0 ≤ l ≤ usize_max) →
  let served := postprocess_middleware site random rq next w in
  let handled := next (seen rq random) (in_body rq) w in
  if over_limit site rq then ∃ r, served = (Ok r, w) ∧ rstatus r = 413 else
  served.2 = handled.2 ∧
  match answered handled.1 with
  | Ok a => ∃ r, served.1 = Ok r ∧
      if zlen (rbody a) <=? response_buffer_ceiling (hs_limits (site_state site)) (seen rq random) then
        rstatus r = rstatus a ∧ hget REQUEST_ID_RESPONSE_HEADER (rheaders r) = Some (correlation_id (in_headers rq) random) ∧
        ∀ max, zlen (rbody a) ≤ max ≤ u64_max → (∀ l e, hs_level (site_state site) = Some l → window_fits e l max) →
          hget CONTENT_ENCODING (rheaders a) = None → hget VGI_CONTENT_ENCODING_HEADER (rheaders a) = None →
          zlen (rbody r) ≤ zlen (rbody a) ∧ client_body r max = Ok (rbody a)
      else rstatus r = 500
  | Err _ => False
  | Panic => served.1 = Panic
  end.
Proof.
  intros Hs Hl. cbv zeta. pose proof (middleware_unfold site random rq next w Hl) as E. cbv zeta in E.
  destruct (over_limit site rq); [destruct E as [text ->]; by eexists|]. rewrite E. cbn [fst snd]. split; [done|].
  destruct (next (seen rq random) (in_body rq) w) as [[a|a|] w']; cbn [answered fst]; [| |done].
  all: eexists; split; [done|]; destruct (zlen (rbody a) <=? _); [|done]; split_and!;
    [unfold finish_response; cbv zeta; by destruct (compress_body _ _ _ _ _)
    |rewrite finish_get by done; unfold insert_text; rewrite correlation_value; apply hget_hinsert
    |intros; by apply finish_decodes].
Qed.

Lemma own_told (site : Site) verb requested status text k v :
  site_ok site → capability k = true → hget k (capability_headers site) = Some v →
  hget k (rheaders (own_answer site verb requested status text)) = Some v.
Proof.
  intros Hs Hk Hv. unfold own_answer. cbn [rheaders]. rewrite cors_untold by by apply capability_not_cors. by apply attach_told.
Qed.

Lemma finish_told (site : Site) verb rid requested encoding a k v :
  site_ok site → capability k = true → hget k (capability_headers site) = Some v →
  hget k (rheaders (finish_response site verb rid requested encoding a)) = Some v.
Proof.
  intros Hs Hk Hv. rewrite finish_get by (by eapply capability_ne). rewrite insert_text_ne by (by eapply capability_ne).
  by apply attach_told.
Qed.

(** What a browser from the configured origin is told. *)
Definition cors_answer (site : Site) (h : HeaderMap) : Prop := ∀ o, cors_allow_origin site = Some o →
  hget ACCESS_CONTROL_ALLOW_ORIGIN h = Some o ∧ hget ACCESS_CONTROL_EXPOSE_HEADERS h = Some (cors_expose_headers site) ∧
  (has_authenticate site = true → hget ACCESS_CONTROL_ALLOW_CREDENTIALS h = Some (bs "true")).

Lemma finish_cors (site : Site) verb rid requested encoding a :
  site_ok site → cors_answer site (rheaders (finish_response site verb rid requested encoding a)).
Proof.
  intros Hs o Ho. destruct (cors_told site requested (rheaders a) o Ho) as (H1' & H2' & H3').
  split_and!; [| |intros Ha]; rewrite finish_get, insert_text_ne, attach_untold by done; auto.
Qed.

Lemma built_site_ok (b : Builder) clock key (site : Site) : http_build b clock key = Ok site → site_ok site.
Proof.
  intros Hb. apply build_ok in Hb as (server & auth & _ & _ & _ & Hcaps & _). unfold site_ok. rewrite Hcaps. apply capability_map_ok.
Qed.

(** C14. Every answer that leaves the middleware of a site that builds, the handlers' and
    the middleware's own refusals (413 and 500), says what the site enforces: the limit on requests that it refuses beyond, the limit on
    responses of the operator and the host, the codings it speaks, whether it
    externalizes, vends upload URLs, asks for proxy proofs and keeps sessions; and a
    browser from the configured origin may read it. *)
Theorem answers_advertise (b : Builder) clock key (site : Site) server random rq
    (next : HeaderMap → list byte → HM World HttpResponse) (w w' : World) r :
  http_build b clock key = Ok site → hb_server b = Some server →
  let i := capability_inputs b server (built_sticky b key (server_id server)) in
  limits_nonneg i → (∀ l, request_limit site = Some l → l ≤ usize_max) →
  postprocess_middleware site random rq next w = (Ok r, w') →
  promises i (rheaders r) ∧ cors_answer site (rheaders r) ∧
  request_limit site = ci_max_request_bytes i ∧ hs_level (site_state site) = ci_level i.
Proof.
  intros Hb Hsrv i Hn Hu E. pose proof (built_site_ok _ _ _ _ Hb) as Hok. apply build_ok in Hb as (server' & auth & Hs' & _ & _ & Hcaps & _ & _ & _ & Hlev & Hreq & _).
  rewrite Hsrv in Hs'. injection Hs' as <-. fold i in Hcaps, Hlev, Hreq.
  pose proof (capability_map_promises i Hn) as Hp. rewrite <- Hcaps in Hp.
  assert (∀ l, request_limit site = Some l → 0 ≤ l ≤ usize_max) as Hl.
  { intros l El. split; [|by apply Hu]. rewrite Hreq in El. specialize (Hn (Some l)). rewrite El in Hn. specialize (Hn ltac:(left)).
    cbn in Hn. lia. }
  pose proof (middleware_unfold site random rq next w Hl) as Em. cbv zeta in Em. rewrite E in Em.
  split; [|split; [|done]].
  - eapply promises_kept; [|exact Hp]. intros k v Hk Hv.
    destruct (over_limit site rq); [destruct Em as [text [= -> _]]; by apply own_told|].
    injection Em as Em _. destruct (answered _) as [a|e|]; [|done..]. injection Em as ->. case_match; [by apply finish_told|by apply own_told].
  - destruct (over_limit site rq); [destruct Em as [text [= -> _]]; by intros o Ho; apply cors_told|].
    injection Em as Em _. destruct (answered _) as [a|e|]; [|done..]. injection Em as ->.
    case_match; [by apply finish_cors|by intros o Ho; apply cors_told].
Qed.
End Site.
