(* ===== verification/HttpRoutes.v ===== *)
(** * HTTP: the upload endpoint and the routes

    [handle_upload_url] and [build_router] of [vgi-rpc/src/http.rs]: which path and verb
    reaches which handler, inside [postprocess_middleware]. Matching a path against the
    patterns and the answers to an unknown path or verb are the router's, third-party
    code ([AxumRouter]); the body and time limits of [tower_http] and the panic net are
    layers around all of this and are not modelled. *)

From S2P Require Import Prelude Bytes Metadata F64 Json ErrorModel Errors Ipc IpcWriter IpcStream Arrow ShmBatch Crypto External ArrowType.
From S2P Require Import Auth Grants Sticky StreamTokens Dispatch Envelope Serve Net PeerIdentity HttpBase HttpAuth HttpContracts TokenIdentity Http HttpSite.

#[local] Open Scope Z_scope.

Inductive Endpoint :=
| EUnrouted | EUnary | EInit | EExchange | EUploadUrl | ESession | EOAuth | EHealth | ELanding | EDescribe | EBundle.
#[global] Instance Endpoint_eq_dec : EqDecision Endpoint.
Proof. solve_decision. Defined.

(** The pattern a path matches, by position, with the segments it captures. *)
Class AxumRouter := {
  route_match : list (list byte) → list byte → option (nat * list (list byte));
  not_found : HttpResponse;
  method_not_allowed : HttpResponse
}.

Section Routes.
Context `{ArrowShm, !Json, !Aead, !Base64, !StreamTokens.Zstd, !External.Zstd, !UrlLib, !HttpLib, !ContentCodecs}.
Context {App Sess St Store AS : Type} `{!ExternalStorage Store, !Fetcher Store}.
Context `{!HttpStreamState (App:=App) (Sess:=Sess) (St:=St)}.
Context `{!ArrowSchemas} `{!ArrowValues Array} `{!BoundedBody} `{!AxumRouter}.
Context (serve_reflection_logged : RpcServer (UnaryHandler (App:=HApp (App:=App) (Sess:=Sess)) (Conn:=HttpCtx)) (HttpStream (App:=App) (Sess:=Sess) (St:=St)) →
  Request → HttpCtx → HApp (App:=App) (Sess:=Sess) → res RpcError (list byte) * HApp (App:=App) (Sess:=Sess)).
(** The vendored page and script, and the documentation of the methods. *)
Context (html bundle : list byte) (docs : list byte → option (list byte)).

Abbreviation Site := (HttpSite (App:=App) (Sess:=Sess) (St:=St) (Store:=Store) (AS:=AS)).
Abbreviation State := (HttpState (App:=App) (Sess:=Sess) (St:=St) (AS:=AS)).
Abbreviation World := (HWorld (App:=App) (Sess:=Sess) (Store:=Store) (AS:=AS)).

(** ** Upload URLs *)
(** The [count] column, where it is one of [i64]s with a value. *)
Definition requested_count (req : Request) : res RpcError Z :=
  match request_column req (bs "count") ≫= values_of (KInt true 64) with
  | Some vs =>
    if (zlen vs =? 0) then Ok 1 else
    match request_column req (bs "count") ≫= (fun c => is_null c 0) with
    | Some true => Ok 1
    | Some false => or_panic (znth vs 0)
    | None => Panic
    end
  | None => Ok 1
  end.

Definition clamp_count (n : Z) : Z := Z.max 1 (Z.min n MAX_UPLOAD_URL_COUNT).

(** [for _ in 0..count { out.push(provider.generate_upload_url()?) }] *)
Fixpoint generate_urls (provider : UploadUrlProvider Store) (n : nat) (s : Store) : res RpcError (list UploadUrl) * Store :=
  match n with
  | O => (Ok [], s)
  | S n =>
    match provider s with
    | (Ok u, s) => let '(r, s) := generate_urls provider n s in (us ← r; Ok (u :: us), s)
    | (Err e, s) => (Err e, s)
    | (Panic, s) => (Panic, s)
    end
  end.

Definition urls_batch (urls : list UploadUrl) : res RpcError RecordBatch :=
  try_new upload_url_response_schema
    [array_from KString TUtf8 (uu_upload_url <$> urls); array_from KString TUtf8 (uu_download_url <$> urls);
     array_from KTimestampMicrosecond (TTimestamp (Some (bs "UTC"))) (uu_expires_at_micros <$> urls)].

Definition urls_error (e : RpcError) : RpcError := RpcErr.runtime_error (bs "upload-url batch: ").

(** The stream of the answer: the URLs, or the error. *)
Definition upload_body (st : State) (req : Request) (r : res RpcError (list UploadUrl))
  : HM (HResp (App:=App) (Sess:=Sess) (Store:=Store) (AS:=AS)) unit :=
  match (urls ← r; match urls_batch urls with Ok b => Ok b | Err e => Err (urls_error e) | Panic => Panic end) with
  | Ok b => _ ← hput b None; hfinish
  | Err e => _ ← hput_error st req upload_url_response_schema e; hfinish
  | Panic => fun s => (Panic, s)
  end.

Definition set_store (s : Store) (w : World) : World := set_hext (mkX s (externalized (hw_ext w))) w.

Definition upload_answer (st : State) (req : Request) (limit : option Z) (provider : UploadUrlProvider Store)
    (count : Z) : HM World HttpResponse :=
  r ← (fun w => let '(r, s) := generate_urls provider (Z.to_nat count) (xstore (hw_ext w)) in
                (match r with Panic => Panic | r => Ok r end, set_store s w));
  '(_, body) ← (fun w => match (stream_writer_new (vec_of []) upload_url_response_schema).1 with
                         | Err e => respond (arrow_error st 500 (request_id req) e) w
                         | _ => with_vec upload_url_response_schema [] (upload_body st req r) w
                         end);
  unwrap (enforce_response_body_cap limit upload_url_response_schema body (server_id (hs_server st)) (request_id req)
            (traceback_origin (hs_server st) (protocol req) (method req))).

Definition handle_upload_url (site : Site) (e : HEnv) (h : HeaderMap) (body : list byte) : HM World HttpResponse :=
  let st := site_state site in
  _ ← authenticate_http st e UPLOAD_URL_METHOD h;
  '(limit, _) ← or_respond (arrow_error st 400 []) (effective_response_budget (hs_limits st) h);
  _ ← (if has_arrow_ct h then mret tt else respond (Ok (plain_error 415 (bs "need arrow content type"))));
  provider ← match upload_url_provider site with
             | Some p => mret p
             | None => respond (Ok (plain_error 404 (bs "upload-url not enabled")))
             end;
  body ← or_respond (request_decode_error st) (maybe_decompress h body (request_decode_limit (hs_limits st)));
  req ← or_respond (arrow_error st 400 []) (parse_request_from_body body);
  _ ← (if bool_decide (method req = UPLOAD_URL_METHOD) then mret tt
       else respond (arrow_error st 400 (request_id req) (RpcErr.protocol_error (bs "Method mismatch: expected '"))));
  _ ← or_respond (arrow_error st 400 (request_id req)) (validate_parameter_batch (batch req) upload_url_params_schema);
  count ← unwrap (requested_count req);
  upload_answer st req limit provider (clamp_count count).

(** ** The routes *)
Definition routes (site : Site) : list (list byte * Endpoint) :=
  let prefix := site_prefix site in
  let api := [(bs "/{method}", EUnrouted); (bs "/{protocol}/{method}", EUnary);
              (bs "/{protocol}/{method}/init", EInit); (bs "/{protocol}/{method}/exchange", EExchange)]
    ++ (if bool_decide (is_Some (upload_url_provider site)) then [(bs "/__upload_url__/init", EUploadUrl)] else [])
    ++ (if bool_decide (is_Some (hs_sticky (site_state site))) then [(bs "/__session__", ESession)] else []) in
  ((fun r => (prefix ++ r.1, r.2)) <$> api)
  ++ [(prefix ++ well_known_path, EOAuth)]
  ++ (if health_enabled site then [(bs "/health", EHealth)] else [])
  ++ (if landing_page_enabled site then [(match prefix with [] => bs "/" | _ => prefix end, ELanding)] else [])
  ++ (if describe_page_enabled site then [(prefix ++ bs "/describe", EDescribe)] else [])
  ++ (if bool_decide (is_Some (landing_info site)) then [(prefix ++ bs "/vgi-client.js", EBundle)] else []).

Inductive Verb := VGet | VPost | VDelete | VOptions | VOther.
Definition verb_of (v : list byte) : Verb :=
  if bool_decide (v = bs "GET") then VGet else if bool_decide (v = bs "POST") then VPost
  else if bool_decide (v = bs "DELETE") then VDelete else if bool_decide (v = OPTIONS) then VOptions else VOther.

Definition reply {A} (r : A) : HM World A := fun w => (Ok r, w).

(** The handler of an endpoint for a verb, with the captured segments and the query. *)
Definition handle (site : Site) (e : HEnv) (query : option (list byte)) (ep : Endpoint) (verb : Verb) (captured : list (list byte))
    (h : HeaderMap) (body : list byte) : HM World HttpResponse :=
  let st := site_state site in
  let preflight : HM World HttpResponse := fun w => (handle_preflight site h, w) in
  match ep, verb, captured with
  | EUnrouted, VPost, [m] => unary_dispatch serve_reflection_logged st e None m h body
  | EUnary, VPost, [p; m] => unary_dispatch serve_reflection_logged st e (Some p) m h body
  | EInit, VPost, [p; m] => stream_init_dispatch st e (Some p) m h body
  | EExchange, VPost, [p; m] => stream_exchange_dispatch st e (Some p) m h body
  | EUploadUrl, VPost, _ => handle_upload_url site e h body
  | ESession, VDelete, _ => handle_delete_session st e h
  | (EUnrouted | EUnary | EInit | EExchange | EUploadUrl | ESession | EHealth), VOptions, _ => preflight
  | EOAuth, VGet, _ => reply (handle_oauth_metadata site)
  | EHealth, VGet, _ => reply (handle_health site)
  | ELanding, VGet, _ => reply (handle_landing site html h query)
  | EDescribe, VGet, _ => reply (handle_describe_page site docs)
  | EBundle, VGet, _ => reply (handle_client_bundle bundle)
  | _, _, _ => reply method_not_allowed
  end.

(** One request through the whole server. [random]: what a new correlation id draws. *)
Definition serve_http (site : Site) (e : HEnv) (random : list byte) (query : option (list byte)) (rq : Incoming)
  : HM World HttpResponse :=
  postprocess_middleware site random rq (fun h body =>
    match route_match (fst <$> routes site) (in_path rq) with
    | Some (n, captured) =>
      match routes site !! n with
      | Some (_, ep) => handle site e query ep (verb_of (in_verb rq)) captured h body
      | None => reply not_found
      end
    | None => reply not_found
    end).
End Routes.
