(* ===== verification/HttpExample.v ===== *)
(** * The HTTP transport, run

    Concrete header and coding libraries with their laws, an HTTP server with a unary
    method and a stream that counts, and the theorems about HTTP applied to requests
    of it; then a site around it: the builder's refusals, the promises of every answer
    and the middleware. *)

From S2P Require Import ServeExample.
From S2P Require Import Prelude Bytes Metadata F64 Json DataExample ErrorModel Errors Crypto Base64 Auth Sticky StickyProps StreamTokens StreamTokensProps TokensExample PeerIdentity IdentityExample HttpBase HttpBaseProps HttpAuth HttpAuthProps.
From S2P Require Import ShmAllocator Ipc IpcProps IpcWriter IpcWriterProps IpcStream WireExample Arrow External ExternalProps ShmBatch ShmBatchProps ExternalExample Dispatch DispatchProps Envelope EnvelopeProps Stream Serve ServeProps Http HttpProps HttpTurns HttpStreams.
From S2P Require Import Grants.
From S2P Require Import ArrowType Net HttpContracts TokenIdentity.
From S2P Require Import HttpSite HttpSiteProps.

(** ** The HTTP transport, run *)

#[local] Open Scope Z_scope.
#[local] Existing Instances toy_ipc toy_writer toy_writer_laws toy_laws toy_shm toy_shm_laws toy_aead toy_aead_laws demo_base64 demo_base64_laws toy_zstd toy_zstd_laws.

(** ** Libraries *)

(** Printable values, and names that are not empty. *)
#[global] Instance plain_http : HttpLib := {|
  value_is_text v := forallb visible_ascii v; text_is_value v := forallb visible_ascii v;
  header_name_from_bytes n := if bool_decide (n = []) then None else Some (to_ascii_lowercase <$> n) |}.

#[global] Instance plain_http_laws : HttpLibLaws.
Proof.
  constructor; simpl.
  - done.
  - done.
  - intros v Hv. apply list.Forall_forall. intros b Hb. apply forallb_forall with (x := b) in Hv; [|by apply list_elem_of_In].
    unfold visible_ascii, in_range in Hv. apply andb_true_iff in Hv as [_ Hv%Z.leb_le]. lia.
  - intros n m. case_bool_decide; [done|]. by intros [= <-].
Qed.

(** Runs of one byte are stored as the byte and the length. *)
Definition all_equal (l : list byte) : option byte :=
  match l with
  | b :: l => if forallb (fun c => bool_decide (c = b)) l then Some b else None
  | [] => None
  end.

Lemma all_equal_replicate l b : all_equal l = Some b → l = replicate (length l) b ∧ l ≠ [].
Proof.
  destruct l as [|c l]; [done|]. simpl. destruct (forallb _ l) eqn:Hf; [|done]. intros [= ->]. split; [|done]. f_equal.
  induction l as [|d l IH]; [done|]. simpl in *. apply andb_true_iff in Hf as [Hd Hf]. apply bool_decide_eq_true in Hd as ->.
  f_equal. by apply IH.
Qed.

#[global] Instance run_codecs : ContentCodecs := {|
  zstd_encode_all body _ := Some body;
  gzip_encode _ body := Some match all_equal body with
                             | Some b => if zlen body <=? u32_max then x01 :: b :: le_bytes 8 (zlen body) else x00 :: body
                             | None => x00 :: body
                             end;
  gzip_reads c := match c with
                  | x01 :: b :: n => [Some (replicate (Z.to_nat (le_val n)) b)]
                  | x00 :: b :: l => [Some (b :: l)]
                  | _ => []
                  end |}.

#[global] Instance run_codecs_laws : ContentCodecsLaws.
Proof.
  refine {| level_window _ := 10 |}.
  - intros body level c w [= <-] _. split; [done|]. destruct body as [|b l]; [by exists []|].
    exists [b :: l]. split_and!; [done|by constructor|]. apply app_nil_r.
  - intros level body c [= <-].
    assert (∃ chunks, gzip_reads (x00 :: body) = Some <$> chunks ∧ Forall (fun c => c ≠ []) chunks ∧ concat chunks = body) as H0.
    { destruct body as [|b l]; [by exists []|]. exists [b :: l]. split_and!; [done|by constructor|]. apply app_nil_r. }
    destruct (all_equal body) as [b|] eqn:E; [|done]. destruct (Z.leb_spec (zlen body) u32_max) as [Hl|]; [|done].
    apply all_equal_replicate in E as [E Hne]. exists [body]. split_and!; [|by constructor|apply app_nil_r].
    assert (le_val (le_bytes 8 (zlen body)) = zlen body) as Hv
      by (rewrite le_val_bytes_small; [done|pose proof (zlen_nonneg body); ints; lia]).
    transitivity [Some (replicate (Z.to_nat (le_val (le_bytes 8 (zlen body)))) b)]; [done|]. rewrite Hv. unfold zlen.
    rewrite Nat2Z.id, <- E. done.
Defined.

(** ** Bodies and codings *)
Definition small_limits : Limits := mkLimits 4096 (Some 2048) None (Some 65536) None None None.
Definition run_body : list byte := replicate 1500 x07.
Definition packed_run : list byte := x01 :: x07 :: le_bytes 8 1500.
Definition gzip_request : HeaderMap := [(CONTENT_ENCODING, bs "gzip")].

Lemma request_body_bounded_witness :
  maybe_decompress gzip_request packed_run (request_decode_limit small_limits) = Ok run_body ∧ zlen run_body ≤ 2048.
Proof.
  assert (maybe_decompress gzip_request packed_run (request_decode_limit small_limits) = Ok run_body) as E by (by vm_compute).
  split; [exact E|]. refine (proj1 (proj2 (proj2 (request_body_bounded small_limits gzip_request packed_run run_body _ E))) 2048 _);
    [by vm_compute|by left].
Defined.

Definition gzip_client : HeaderMap := [(ACCEPT_ENCODING, bs "gzip, zstd;q=0.5")].
Lemma response_coding_exact_witness :
  zlen packed_run ≤ zlen run_body.
Proof.
  refine (proj1 (response_coding_exact gzip_client [] (Some 3) true run_body
    (compress_body (Some 3) (pick_response_encoding gzip_client (Some 3)) true [] run_body).1 packed_run 4096 _ _ _ _ _ _)).
  - done.
  - done.
  - by vm_compute.
  - by vm_compute.
  - by intros l [| |] _.
  - by vm_compute.
Defined.

(** ** A server *)
Abbreviation happ := (HApp (App:=Z) (Sess:=Z)).

(** A stream counts its turns; a producer stops at the third. *)
Definition turn_of (x : Z) (stop : bool) (a : happ) : Turn (Z * happ) :=
  TContextLog (log_new Info (bs "turn")) (TEmit (Large (bs "answer")) None (fun r =>
    let t := TReturn r (x + 1, mkHApp (ha_app a + 1) (ha_registry a) (ha_sink a)) in if stop then TFinish t else t)).

#[global] Instance counting : HttpStreamState (App:=Z) (Sess:=Z) (St:=Z) := {|
  h_produce x _ a := turn_of x (2 <=? x) a;
  h_exchange x _ _ a := turn_of x false a;
  h_on_cancel _ _ a := (Ok tt, [], a);
  h_encode_state ss := Ok match ss with SProducer x => [x00; z2b x] | SExchange x => [x01; z2b x] end |}.

Definition decode_count (l : list byte) : res RpcError (StreamStateKind Z) :=
  match l with
  | [x00; b] => Ok (SProducer (b2z b))
  | [x01; b] => Ok (SExchange (b2z b))
  | _ => Err (RpcErr.value_error (bs "state"))
  end.

Abbreviation Uh := (UnaryHandler (App:=happ) (Conn:=HttpCtx)).
Abbreviation Hs := (HttpStream (App:=Z) (Sess:=Z) (St:=Z)).

Definition echo : MethodInfo Uh Hs := method_unary (bs "echo") true true
  (fun _ _ a => mkUnaryOutcome (Ok (Some (Large (bs "pong")))) [log_new Warn (bs "working")] None
                  (mkHApp (ha_app a + 1) (ha_registry a) (ha_sink a))).
Definition talk : MethodInfo Uh Hs := mkMethodInfo (bs "talk") Exchange true false None
  (Some (mkHttpStream (fun _ _ a => (Ok (with_header (Large (bs "head")) (stream_exchange true true 0)), [log_new Warn (bs "open")], a))
           (Some decode_count))).

Definition web_server : RpcServer Uh Hs :=
  mkServer (bs "srv") false (bs "example.Demo.v1") [] (<[bs "echo" := echo]> (<[bs "talk" := talk]> ∅)) [] None None true false.

(** A callback that knows one bearer, and one provider of peer identities. *)
Definition bearer_only : Authenticate unit := fun r s =>
  (match Auth.header r (bs "authorization") with
   | Some t => if bool_decide (t = bs "Bearer t") then Ok alice else Err (RpcErr.permission_error (bs "no"))
   | None => Err (RpcErr.permission_error (bs "missing"))
   end, s).
Definition iroh_provider : PeerIdentityProvider := mkProvider (bs "iroh") (fun _ => Ok (result_available node_id)).
Definition web_auth : AuthConfig unit := mkAuthConfig (Some bearer_only) [iroh_provider] (Some observe_peer_identity) None [] false None.

Definition web : HttpState (App:=Z) (Sess:=Z) (St:=Z) (AS:=unit) :=
  mkHttpState web_server demo_tokens web_auth (mkLimits 1048576 None None None None None None) None None.

Definition web_env : HEnv :=
  mkHEnv None (mkSchedule [true] [0%nat] 1000) 1700000000 0 (f64_ticks 0) (replicate 16 x01) demo_call_id demo_nonce demo_nonce.
Definition web_headers : HeaderMap := [(CONTENT_TYPE, ARROW_CONTENT_TYPE); (bs "authorization", bs "Bearer t")].


(** ** Calls of it *)
Abbreviation world := (HWorld (App:=Z) (Sess:=Z) (Store:=InMemoryStorage) (AS:=unit)).
Definition web_world : world := mkHWorld ∅ (mkHApp 0 (registry_new 1) None) (mkX in_memory_new 0) tt [].
Definition ping : RecordBatch := Large (bs "ping").
Definition web_md (m : list byte) : Metadata :=
  <[RPC_METHOD_KEY := m]> (<[REQUEST_VERSION_KEY := REQUEST_VERSION]> {[PROTOCOL_KEY := bs "example.Demo.v1"]}).
Definition body_of (md : Metadata) : list byte := match write_one_batch vec ping (Some md) with Ok l => l | _ => [] end.
Definition web_req (m : list byte) : Request := mkRequest m (bs "example.Demo.v1") [] ping (web_md m).
Definition no_reflection (_ : RpcServer Uh Hs) (_ : Request) (_ : HttpCtx) (a : happ) : res RpcError (list byte) * happ := (Ok [], a).

Definition accepted (e : HEnv) (m body : list byte) (w : world) : Accepted :=
  match (accept_request web e m web_headers body w).1 with
  | Ok ad => ad
  | _ => mkAccepted anonymous (mkEvidence [] ∅) None None []
  end.
Definition after_accept (e : HEnv) (m body : list byte) (w : world) : world := (accept_request web e m web_headers body w).2.

Lemma accepted_ok e m body w :
  is_ok (accept_request web e m web_headers body w).1 = true →
  accept_request web e m web_headers body w = (Ok (accepted e m body w), after_accept e m body w).
Proof. unfold accepted, after_accept. by destruct (accept_request _ _ _ _ _ _) as [[]]. Qed.

Definition blank : RecordBatch := Opaque true [].

Definition echo_ad : Accepted := accepted web_env (bs "echo") (body_of (web_md (bs "echo"))) web_world.
Definition echo_items : list (RecordBatch * option Metadata) * option RpcError :=
  let '(r, logs, ref, _) := unary_ran echo (web_req (bs "echo")) (call_context echo_ad web_headers None) (hw_app web_world) in
  unary_items web echo (web_req (bs "echo")) blank r logs ref.

(** Writing, as a test. *)
Fixpoint writes_all (sw : StreamWriter) (its : list (RecordBatch * option Metadata)) : bool :=
  match its with
  | [] => is_ok (stream_writer_finish sw).1
  | (b, md) :: its => let '(r, sw) := stream_writer_write sw b md in is_ok r && writes_all sw its
  end.
Definition encodes_all (s : ArrowSchema) (its : list (RecordBatch * option Metadata)) : bool :=
  match (stream_writer_new (vec_of []) s).1 with Ok sw => writes_all sw its | _ => false end.

Lemma encodes_by_computation s its : encodes_all s its = true → encodes [] s its.
Proof.
  unfold encodes_all, encodes. destruct (stream_writer_new _ _).1 as [sw|?|]; [|done..]. intros Hw. exists sw. split; [done|].
  revert sw Hw. induction its as [|[b md] its IH]; intros sw Hw; simpl in *.
  - by destruct (stream_writer_finish sw) as [[[]|?|] ?].
  - destruct (stream_writer_write sw b md) as [[[]|?|] sw']; [|done..]. exists sw'. split; [done|]. by apply IH.
Qed.

Definition readable_all (s : bool) (its : list (RecordBatch * option Metadata)) : bool :=
  forallb (fun i => bool_decide (batch_schema i.1 = s) && bool_decide (metadata_utf8 (default ∅ i.2))) its.

Lemma readable_by_computation s its : readable_all s its = true → readable s its.
Proof.
  intros Hr. apply list.Forall_forall. intros [b md] Hi. apply forallb_forall with (x := (b, md)) in Hr; [|by apply list_elem_of_In].
  apply andb_true_iff in Hr as [H1%bool_decide_eq_true H2%bool_decide_eq_true]. split; [rewrite <- H1; apply (fits_own b)|].
  simpl in H2. by destruct md.
Qed.

Lemma web_dispatched :
  dispatch web_server ping (web_md (bs "echo")) = Ok (ServeUnary (web_req (bs "echo")) echo) ∧
  dispatch web_server ping (web_md (bs "talk")) = Ok (ServeStream (web_req (bs "talk")) talk).
Proof. split; reflexivity. Qed.

(** Reading, as a test. *)
#[global] Instance toy_batch_eq : EqDecision toy_batch.
Proof. solve_decision. Defined.
Lemma read_by_computation body (b : RecordBatch) md :
  match read_single body with
  | Ok (Some (b', md')) => bool_decide ((b' : toy_batch) = b) && bool_decide (md' = md)
  | _ => false
  end = true → read_single body = Ok (Some (b, md)).
Proof.
  destruct (read_single body) as [[[b' md']|]|?|]; [|done..].
  intros [H1%bool_decide_eq_true H2%bool_decide_eq_true]%andb_true_iff. by subst.
Qed.

Lemma http_unary_exact_witness :
  ∃ l h' w', unary_dispatch no_reflection web web_env (Some (bs "example.Demo.v1")) (bs "echo") web_headers
      (body_of (web_md (bs "echo"))) web_world = (Ok (mkHttpResponse 200 h' l), w') ∧
    wire_stream true (prod_map id (default ∅) <$> echo_items.1) l ∧ ha_app (hw_app w') = 1.
Proof.
  destruct (http_unary_exact no_reflection web web_env web_headers (body_of (web_md (bs "echo"))) web_world echo_ad
    (after_accept web_env (bs "echo") (body_of (web_md (bs "echo"))) web_world) ping (web_md (bs "echo")) (web_req (bs "echo")) echo blank)
    as (l & Hl & Hk).
  - apply accepted_ok. by vm_compute.
  - apply read_by_computation. by vm_compute.
  - apply web_dispatched.
  - reflexivity.
  - reflexivity.
  - reflexivity.
  - apply encodes_by_computation. by vm_compute.
  - apply readable_by_computation. by vm_compute.
  - destruct (Hk eq_refl) as (h' & w' & E & Ha & _). exists l, h', w'. split; [exact E|]. split; [exact Hl|]. by rewrite Ha.
Defined.

(** ** A stream of it *)
Definition talk_sr : StreamResult Z := with_header (Large (bs "head")) (stream_exchange true true 0).
Definition talk_ad : Accepted := accepted web_env (bs "talk") (body_of (web_md (bs "talk"))) web_world.
Definition talk_logs : list LogMessage := [log_new Warn (bs "open")].
Definition talk_call : ResolvedCall :=
  match opened_call web_env talk_ad talk_sr with Ok c => c | _ => mkResolvedCall [] [] [] None None end.
Definition talk_first : turn_answer (App:=Z) (Sess:=Z) := init_turn web web_env (web_req (bs "talk")) talk_ad talk_sr blank talk_call (hw_app web_world).

Definition talk_items : list (RecordBatch * option Metadata) := talk_first.1.1.1.
Definition talk_minted : MintedCall := mkMintedCall (ad_auth talk_ad) talk_call 1700000000 (init_token web web_env talk_ad talk_call).

Lemma talk_call_wf : call_wf talk_call.
Proof. split_and!; [by vm_compute|split; by vm_compute..|by vm_compute]. Qed.

Lemma http_init_opens_witness :
  ∃ l0 l h' w', stream_init_dispatch web web_env (Some (bs "example.Demo.v1")) (bs "talk") web_headers
      (body_of (web_md (bs "talk"))) web_world = (Ok (mkHttpResponse 200 h' (l0 ++ l)), w') ∧
    calls_reachable demo_tokens (mkCalls (hw_calls w') {[demo_call_id := talk_minted]}).
Proof.
  destruct (http_init_opens web web_env web_headers (body_of (web_md (bs "talk"))) web_world talk_ad
    (after_accept web_env (bs "talk") (body_of (web_md (bs "talk"))) web_world) ping (web_md (bs "talk")) (web_req (bs "talk")) talk
    talk_sr talk_logs (hw_app web_world) blank blank talk_call talk_items None (Some [x01; x00]) (hw_app web_world) ∅)
    as (l0 & l & _ & _ & Hk).
  - apply accepted_ok. by vm_compute.
  - apply read_by_computation. by vm_compute.
  - apply web_dispatched.
  - reflexivity.
  - reflexivity.
  - reflexivity.
  - reflexivity.
  - reflexivity.
  - intros hb [= <-]. split; [reflexivity|]. split; [apply encodes_by_computation; by vm_compute|].
    apply readable_by_computation. by vm_compute.
  - apply encodes_by_computation. by vm_compute.
  - apply readable_by_computation. by vm_compute.
  - destruct (Hk eq_refl) as (h' & w' & E & _ & _ & Hn). exists l0, l, h', w'. split; [exact E|].
    rewrite <- (insert_empty demo_call_id talk_minted).
    refine (proj1 (Hn [x01; x00] eq_refl _ _ _ _ _ _ talk_call_wf _)).
    + apply rtc_refl.
    + apply lookup_empty.
    + reflexivity.
    + reflexivity.
    + reflexivity.
    + split; by vm_compute.
    + by vm_compute.
Defined.

(** The next turn, ten seconds later. *)
Definition later : HEnv :=
  mkHEnv None (mkSchedule [true] [0%nat] 1000) 1700000010 0 (f64_ticks 0) (replicate 16 x01) (replicate 16 x06) demo_nonce demo_nonce.
Definition opened_world : world := minted web web_env talk_ad talk_call web_world.
Definition carried_md : Metadata :=
  <[CALL_STATE_KEY := init_token web web_env talk_ad talk_call]>
    {[STATE_KEY := cursor web web_env (ad_auth talk_ad) demo_call_id [x01; x00]]}.
Definition next_ad : Accepted := accepted later (bs "talk") (body_of carried_md) opened_world.
Definition next_world : world := after_accept later (bs "talk") (body_of carried_md) opened_world.

Definition nothing : RecordBatch := Opaque false [].
Definition next_req : Request := mkRequest (bs "talk") (bs "example.Demo.v1") [] nothing carried_md.

Lemma next_calls : calls_reachable demo_tokens (mkCalls (hw_calls opened_world) (<[demo_call_id := talk_minted]> ∅)).
Proof.
  apply (minted_reachable web web_env talk_ad talk_call ∅ web_world); [apply rtc_refl|apply lookup_empty|reflexivity..|split; by vm_compute|].
  apply talk_call_wf.
Qed.

Lemma talk_budget : StreamTokens.response_limit_bytes talk_call = None ∧ StreamTokens.preferred_response_bytes talk_call = None.
Proof. by vm_compute. Qed.
Lemma next_limits : ad_limit next_ad = None ∧ ad_preferred next_ad = None.
Proof. by vm_compute. Qed.

Lemma next_budget call :
  StreamTokensProps.same_call call talk_call → turn_budget (ad_limit next_ad) (ad_preferred next_ad) call = (None, None).
Proof.
  destruct talk_budget as [T1 T2], next_limits as [N1 N2]. intros (_ & _ & _ & Hl & Hp). rewrite T1 in Hl. rewrite T2 in Hp.
  unfold turn_budget. rewrite N1, N2. by destruct Hl as [->| ->], Hp as [->| ->].
Qed.

Lemma next_read : read_input_batch (ad_body next_ad) = Ok (ping, carried_md).
Proof. unfold read_input_batch. rewrite (read_by_computation _ ping carried_md) by (by vm_compute). done. Qed.

Lemma next_auth : ad_auth next_ad = ad_auth talk_ad.
Proof. vm_compute. reflexivity. Qed.

Lemma http_turn_resumes_witness :
  ∃ h' l w', stream_exchange_dispatch web later (Some (bs "example.Demo.v1")) (bs "talk") web_headers (body_of carried_md) opened_world
    = (Ok (mkHttpResponse 200 h' l), w') ∧ ha_app (hw_app w') = 1.
Proof.
  destruct (http_turn_resumes web later (Some (bs "example.Demo.v1")) (bs "talk") web_headers (body_of carried_md) opened_world next_ad
    next_world ping carried_md (<[demo_call_id := talk_minted]> ∅) [x01; x00] demo_call_id talk_minted true (Some true)
    (SExchange 0) ping next_req nothing blank)
    as (call & Hsame & Hk).
  - apply accepted_ok. by vm_compute.
  - exact next_read.
  - by vm_compute.
  - reflexivity.
  - exact next_calls.
  - rewrite next_auth. apply init_carries; [reflexivity|reflexivity|split; by vm_compute|by vm_compute|by vm_compute].
  - apply (opened_describes web_env talk_ad talk_sr); [reflexivity|by vm_compute|intros ? [= <-]; by vm_compute].
  - eexists _, talk, decode_count. split; [reflexivity|]. split; [reflexivity|]. done.
  - reflexivity.
  - reflexivity.
  - reflexivity.
  - reflexivity.
  - pose proof (next_budget call Hsame) as Hb.
    rewrite Hb in Hk.
    destruct (turn_from web later next_req true blank next_ad web_headers (strip_framework_tick_metadata carried_md) demo_call_id
      None None (SExchange 0) ping (hw_app next_world)) as [[[its err] next] a] eqn:Et.
    destruct Hk as [Hk _]. destruct Hk as (l & _ & Hk).
    + apply encodes_by_computation. apply (f_equal (fun x => x.1.1.1)) in Et. cbn [fst] in Et. rewrite <- Et. by vm_compute.
    + apply readable_by_computation. apply (f_equal (fun x => x.1.1.1)) in Et. cbn [fst] in Et. rewrite <- Et. by vm_compute.
    + destruct (Hk eq_refl) as (h' & w' & E & Ha & _). exists h', l, w'. split; [exact E|]. rewrite Ha.
      apply (f_equal (fun x => ha_app x.2)) in Et. simpl in Et. rewrite <- Et. by vm_compute.
Defined.

(** ** Budgets *)
Definition capped : HttpState (App:=Z) (Sess:=Z) (St:=Z) (AS:=unit) :=
  mkHttpState web_server demo_tokens web_auth (mkLimits 1048576 None None (Some 1048576) None None None) None None.
Definition capped_call : res HttpResponse HttpResponse * world :=
  serve_call no_reflection CallUnary capped web_env (Some (bs "example.Demo.v1")) (bs "echo") web_headers
    (body_of (web_md (bs "echo"))) web_world.
Definition capped_response : HttpResponse := match capped_call.1 with Ok r | Err r => r | Panic => plain_error 500 [] end.

Lemma capped_answers : capped_call.1 = Ok capped_response.
Proof.
  unfold capped_response. assert (is_ok capped_call.1 = true) as E by (by vm_compute). by destruct capped_call.1.
Qed.

Lemma success_within_budget_witness : zlen (rbody capped_response) ≤ 1048576.
Proof.
  refine (success_within_budget no_reflection CallUnary capped web_env (Some (bs "example.Demo.v1")) (bs "echo") web_headers
    (body_of (web_md (bs "echo"))) web_world capped_call.1 capped_call.2 capped_response 1048576 _ _ _ _ _).
  - apply surjective_pairing.
  - left. apply capped_answers.
  - by vm_compute.
  - by vm_compute.
  - by left.
Defined.

(** ** A site, built and asked *)


#[global] Instance plain_bodies : BoundedBody := {| to_bytes b n := if zlen b <=? n then Some b else None |}.
#[global] Instance plain_bodies_laws : BoundedBodyLaws.
Proof. constructor. done. Qed.

Abbreviation Builder := (HttpStateBuilder (App:=Z) (Sess:=Z) (St:=Z) (Store:=InMemoryStorage) (AS:=unit)).

Abbreviation Site := (HttpSite (App:=Z) (Sess:=Z) (St:=Z) (Store:=InMemoryStorage) (AS:=unit)).

(** A builder of [web_server] with limits, sessions, an origin and, if asked, the
    identity protocol's keys. *)
Definition site_builder (origin : list byte) (identity : option (option GrantKeys * option (TokenResolver unit))) : Builder :=
  mkHttpStateBuilder (Some web_server) identity None None None None None None [] None None None None (Some origin) None None
    None None None None (Some 2048) None None (Some 65536) None None None None (Some true) None [] None None None [].

Definition demo_site_key : list byte := replicate 32 x05.
Definition no_clock (_ : unit) : f64 := f64_ticks 0.
Definition plain_builder : Builder := site_builder (bs "https://app.example") None.

(** A wildcard origin next to the identity protocol's grants. *)
Definition open_builder : Builder := site_builder (bs "*") (Some (Some demo_grant_keys, None)).

Example wildcard_site_has_credentials :
  match http_build open_builder no_clock demo_site_key with
  | Ok site => bool_decide (cors_allow_origin site = Some (bs "*")) && has_authenticate site
  | _ => false
  end = true.
Proof. by vm_compute. Qed.

Definition small_request : Incoming := mkIncoming (bs "POST") (bs "/example.Demo.v1/echo") web_headers (bs "small").
Definition large_request : Incoming := mkIncoming (bs "POST") (bs "/example.Demo.v1/echo") gzip_client (replicate 2049 x01).
Definition answering (_ : HeaderMap) (_ : list byte) : HM world HttpResponse := fun w => (Ok (arrow_response 200 run_body), w).

Lemma web_limit (site : Site) :
  request_limit site = Some 2048 → ∀ l, request_limit site = Some l → 0 ≤ l ≤ usize_max.
Proof. intros -> l [= <-]. ints; lia. Qed.

Lemma plain_site_limits (site : Site) :
  http_build plain_builder no_clock demo_site_key = Ok site → request_limit site = Some 2048 ∧ hs_level (site_state site) = Some 1.
Proof.
  intros E. apply build_ok in E as (server & auth & _ & _ & _ & _ & _ & _ & _ & Hl & Hr & _). by rewrite Hl, Hr.
Qed.

Lemma plain_built : ∃ site, http_build plain_builder no_clock demo_site_key = Ok site.
Proof.
  assert (is_ok (http_build plain_builder no_clock demo_site_key) = true) as Ho by (by vm_compute).
  destruct (http_build plain_builder no_clock demo_site_key) as [site|e|]; [by exists site|done..].
Qed.

(** A request over the limit, and one whose answer is compressed on its way. *)
Lemma middleware_exact_witness :
  ∃ site, http_build plain_builder no_clock demo_site_key = Ok site ∧
    (∃ r, postprocess_middleware site [] large_request answering web_world = (Ok r, web_world) ∧ rstatus r = 413) ∧
    (∃ r, (postprocess_middleware site [] small_request answering web_world).1 = Ok r ∧ rstatus r = 200 ∧ client_body r 4096 = Ok run_body).
Proof.
  destruct plain_built as [site E].
  exists site. split; [done|]. pose proof (plain_site_limits site E) as [Hr Hl]. pose proof (built_site_ok _ _ _ _ E) as Hok. split.
  - pose proof (middleware_exact site [] large_request answering web_world Hok (web_limit site Hr)) as M. cbv zeta in M.
    assert (over_limit site large_request = true) as Ho by (unfold over_limit; rewrite Hr; by vm_compute).
    by rewrite Ho in M.
  - pose proof (middleware_exact site [] small_request answering web_world Hok (web_limit site Hr)) as M. cbv zeta in M.
    assert (over_limit site small_request = false) as Ho by (unfold over_limit; rewrite Hr; by vm_compute).
    rewrite Ho in M. destruct M as [_ M]. cbn [answered answering fst] in M. destruct M as (r & Er & M).
    assert ((zlen (rbody (arrow_response 200 run_body)) <=? response_buffer_ceiling (hs_limits (site_state site)) (seen small_request [])) = true)
      as Hc by (pose proof (ceiling_floor (hs_limits (site_state site)) (seen small_request [])) as Hf; unfold MIN_RESPONSE_BYTES in Hf;
                apply Z.leb_le; transitivity (64 * 1024); [by vm_compute|done]).
    rewrite Hc in M. destruct M as (Hst & _ & Hb). exists r. split; [done|]. split; [done|].
    refine (proj2 (Hb 4096 _ _ eq_refl eq_refl)); [by vm_compute|].
    intros l e. rewrite Hl. intros [= <-]. destruct e; by vm_compute.
Defined.

Lemma answers_advertise_witness :
  ∃ site r w, http_build plain_builder no_clock demo_site_key = Ok site ∧
    postprocess_middleware site [] small_request answering web_world = (Ok r, w) ∧
    hget (bs "vgi-max-request-bytes") (rheaders r) = Some (bs "2048").
Proof.
  destruct plain_built as [site E].
  pose proof (plain_site_limits site E) as [Hr _].
  destruct (postprocess_middleware site [] small_request answering web_world) as [r w] eqn:Em.
  assert (∃ a, r = Ok a) as [a ->].
  { pose proof (middleware_unfold site [] small_request answering web_world (web_limit site Hr)) as M. cbv zeta in M. rewrite Em in M.
    assert (over_limit site small_request = false) as Ho by (unfold over_limit; rewrite Hr; by vm_compute).
    rewrite Ho in M. injection M as -> _. by eexists. }
  exists site, a, w. split; [done|]. split; [done|].
  assert (bs "2048" = dec_unsigned 2048) as -> by (by vm_compute).
  apply (request_limit_told _ _ (proj1 (answers_advertise plain_builder no_clock demo_site_key site web_server [] small_request answering
    web_world w a E eq_refl ltac:(by intros n; cbn; rewrite !elem_of_cons, elem_of_nil; intros Hn; destruct_or! Hn; subst) (fun l El => proj2 (web_limit site Hr l El)) Em)) 2048).
  by vm_compute.
Defined.

