(* ===== verification/ClientHttp.v ===== *)
(** * The blocking HTTP client

    [vgi-rpc-client/src/http.rs] over a caller's executor ([http_executor.rs]): capability
    discovery, codings and size limits of a response, retries, sticky sessions, requests
    externalized through upload URLs, unary calls and stateless stream sessions with
    their resume tokens. The executor is the caller's ([HttpExecutor]); the reqwest and
    Iroh back ends are third-party transports and are not modelled. *)

From S2P Require Import Prelude Bytes Metadata F64 Json ErrorModel Errors Crypto ShmAllocator Ipc IpcWriter Arrow ArrowType External ShmBatch.
From S2P Require Import Dispatch Envelope Stream Serve Client HttpBase PeerIdentity TokenIdentity HttpContracts.
From stdpp Require Import sorting.

#[local] Open Scope Z_scope.

(** ** [http_executor.rs] *)
Record HttpRequest := mkHttpRequest {
  hq_method : list byte;
  hq_url : list byte;
  hq_headers : list (list byte * list byte);
  hq_body : list byte;
  hq_timeout : Z;
  follow_redirects : bool
}.
Record ExecResponse := mkExecResponse { ex_status : Z; ex_headers : list (list byte * list byte); ex_body : list byte }.
Record HttpExecError := mkExecError { ex_message : list byte; retry_safe : bool }.
Record ExecutorCaps := mkExecutorCaps { supports_options : bool; transparent_decompression : bool }.

(** An executor over a state of its own, which stands for what it reaches. *)
Class HttpExecutor (X : Type) := {
  execute : HttpRequest → X → (ExecResponse + HttpExecError) * X;
  exec_caps : ExecutorCaps
}.

(** [Url::parse(url)?.as_str()] and [url.join(location)?.as_str()] *)
Class UrlNav := { url_text : list byte → option (list byte); url_join : list byte → list byte → option (list byte) }.

(** ** Header names, as [HeaderMap] holds them *)
Module Headers.
Definition SESSION_HEADER : list byte := bs "vgi-session".
Definition SESSION_ACCEPT_HEADER : list byte := bs "vgi-session-accept".
Definition SESSION_CLOSE_HEADER : list byte := bs "vgi-session-close".
Definition STICKY_ENABLED_HEADER : list byte := bs "vgi-sticky-enabled".
Definition STICKY_DEFAULT_TTL_HEADER : list byte := bs "vgi-sticky-default-ttl".
Definition STICKY_ECHO_HEADERS_HEADER : list byte := bs "vgi-sticky-echo-headers".
(** as the source writes it *)
Definition ECHO_HEADER_PREFIX : list byte := bs "VGI-Echo-".
Definition SUPPORTED_ENCODINGS_HEADER : list byte := bs "vgi-supported-encodings".
Definition MAX_REQUEST_BYTES_HEADER : list byte := bs "vgi-max-request-bytes".
Definition MAX_RESPONSE_BYTES_HEADER : list byte := bs "vgi-max-response-bytes".
Definition ACCEPT_MAX_RESPONSE_BYTES_HEADER : list byte := bs "vgi-accept-max-response-bytes".
Definition ACCEPT_MAX_RESPONSE_BYTES_SUPPORT_HEADER : list byte := bs "vgi-accept-max-response-bytes-support".
Definition MAX_EXTERNALIZED_RESPONSE_BYTES_HEADER : list byte := bs "vgi-max-externalized-response-bytes".
Definition EXTERNALIZATION_ENABLED_HEADER : list byte := bs "vgi-externalization-enabled".
Definition MAX_UPLOAD_BYTES_HEADER : list byte := bs "vgi-max-upload-bytes".
Definition UPLOAD_URL_HEADER : list byte := bs "vgi-upload-url-support".
Definition VGI_ACCEPT_ENCODING_HEADER : list byte := bs "x-vgi-accept-encoding".
Definition VGI_CONTENT_ENCODING_HEADER : list byte := bs "x-vgi-content-encoding".
Definition CONTENT_LENGTH : list byte := bs "content-length".
Definition LOCATION : list byte := bs "location".
End Headers.

Definition SESSION_ENDPOINT : list byte := bs "__session__".
Definition DEFAULT_COMPRESSION_LEVEL : Z := 3.
Definition DEFAULT_MAX_ENCODED_RESPONSE_BYTES : Z := 256 * 1024 * 1024.
Definition DEFAULT_MAX_DECODED_RESPONSE_BYTES : Z := 256 * 1024 * 1024.
Definition DEFAULT_ACCEPTED_MAX_RESPONSE_BYTES : Z := 256 * 1024 * 1024.
Definition MIN_ACCEPTED_MAX_RESPONSE_BYTES : Z := 64 * 1024.
Definition DEFAULT_REQUEST_ENCODING : list byte := bs "zstd".

Definition protocol_fault (d : list byte) : RpcError := RpcErr.new (bs "ProtocolError") d.
Definition transport_fault (d : list byte) : RpcError := RpcErr.new (bs "TransportError") d.
Definition too_large (d : list byte) : RpcError := RpcErr.new (bs "ResponseTooLargeError") d.

Definition status_valid (s : Z) : bool := (100 <=? s) && (s <=? 999).
Definition is_success (s : Z) : bool := (200 <=? s) && (s <=? 299).
Definition is_redirection (s : Z) : bool := (300 <=? s) && (s <=? 399).

(** [s.trim_end_matches('/')] *)
Definition trim_end_slashes (s : list byte) : list byte := rev (trim_slashes (rev s)).

(** ** Parsing response headers *)
Section Parsing.
Context `{HttpLib}.

Definition header_pairs (h : HeaderMap) : list (list byte * list byte) := (fun kv => (kv.1, from_utf8_lossy kv.2)) <$> h.

Definition convert_header (kv : list byte * list byte) : res RpcError (list byte * list byte) :=
  name ← ok_or (protocol_fault (bs "invalid HTTP response header name: ")) (header_name_from_bytes (trim kv.1));
  if text_is_value (trim kv.2) then Ok (name, trim kv.2)
  else Err (protocol_fault (bs "invalid HTTP response header value: ")).

(** Names may repeat: each pair is appended. *)
Definition convert_executor_response (status : Z) (raw : list (list byte * list byte)) : res RpcError (Z * HeaderMap) :=
  if negb (status_valid status) then Err (protocol_fault (bs "invalid HTTP response status: ")) else
  h ← mapM convert_header raw; Ok (status, h).

Definition parse_content_length (h : HeaderMap) : res RpcError (option Z) :=
  match hget_all Headers.CONTENT_LENGTH h with
  | [] => Ok None
  | [v] =>
    if negb (value_is_text v) || bool_decide (v = []) || negb (forallb is_ascii_digit v)
    then Err (protocol_fault (bs "Content-Length must contain ASCII digits"))
    else Some <$> ok_or (protocol_fault (bs "Content-Length is too large")) (parse_unsigned u64_max v)
  | _ => Err (protocol_fault (bs "Content-Length must occur at most once"))
  end.

Definition parse_max_response_bytes (h : HeaderMap) : res RpcError (option Z) :=
  match hget_all Headers.MAX_RESPONSE_BYTES_HEADER h with
  | [] => Ok None
  | [v] =>
    if negb (value_is_text v) then Err (protocol_fault (bs "VGI-Max-Response-Bytes must be canonical ASCII digits")) else
    if bool_decide (v = []) || starts_with (bs "0") v || negb (forallb is_ascii_digit v)
    then Err (protocol_fault (bs "VGI-Max-Response-Bytes must match [1-9][0-9]*")) else
    n ← ok_or (protocol_fault (bs "VGI-Max-Response-Bytes is outside the supported range")) (parse_unsigned u64_max v);
    if (MIN_ACCEPTED_MAX_RESPONSE_BYTES <=? n) && (n <=? MAX_SAFE_RESPONSE_BYTES) then Ok (Some n)
    else Err (protocol_fault (bs "VGI-Max-Response-Bytes must be in 65536..=2^53-1"))
  | _ => Err (protocol_fault (bs "VGI-Max-Response-Bytes must occur exactly once"))
  end.

(** [Some []]: the server speaks no coding; [None]: it does not say. *)
Definition parse_supported_encodings (h : HeaderMap) : option (list (list byte)) :=
  raw ← get_text Headers.SUPPORTED_ENCODINGS_HEADER h;
  Some (List.filter (fun p => negb (bool_decide (p = [])))
          ((fun p => to_ascii_lowercase <$> trim p) <$> split_on x2c raw)).

Definition has_single_response_budget_support (h : HeaderMap) : bool :=
  match hget_all Headers.ACCEPT_MAX_RESPONSE_BYTES_SUPPORT_HEADER h with
  | [v] => value_is_text v && bool_decide (v = bs "true")
  | _ => false
  end.

Record HttpServerCapabilities := mkCaps {
  sticky_enabled : bool;
  cap_sticky_default_ttl : option Z;
  cap_sticky_echo_headers : list (list byte);
  cap_upload_url_support : bool;
  cap_max_request_bytes : option Z;
  cap_max_response_bytes : option Z;
  accept_max_response_bytes_support : bool;
  cap_max_externalized_response_bytes : option Z;
  cap_externalization_enabled : bool;
  cap_max_upload_bytes : option Z;
  supported_encodings : list (list byte)
}.

Definition caps_default : HttpServerCapabilities :=
  mkCaps false None [] false None None false None false None [DEFAULT_REQUEST_ENCODING].

Definition split_names (v : option (list byte)) : list (list byte) :=
  match v with
  | Some s => List.filter (fun p => negb (bool_decide (p = []))) (trim <$> split_on x2c s)
  | None => []
  end.

Definition parse_caps (h : HeaderMap) : HttpServerCapabilities :=
  let is_true n := bool_decide (get_text n h = Some (bs "true")) in
  let parse_u64 n := get_text n h ≫= parse_unsigned u64_max in
  mkCaps (is_true Headers.STICKY_ENABLED_HEADER) (parse_u64 Headers.STICKY_DEFAULT_TTL_HEADER)
    (split_names (get_text Headers.STICKY_ECHO_HEADERS_HEADER h)) (is_true Headers.UPLOAD_URL_HEADER)
    (parse_u64 Headers.MAX_REQUEST_BYTES_HEADER)
    (match parse_max_response_bytes h with Ok n => n | _ => None end)
    (has_single_response_budget_support h) (parse_u64 Headers.MAX_EXTERNALIZED_RESPONSE_BYTES_HEADER)
    (is_true Headers.EXTERNALIZATION_ENABLED_HEADER) (parse_u64 Headers.MAX_UPLOAD_BYTES_HEADER)
    (default [DEFAULT_REQUEST_ENCODING] (parse_supported_encodings h)).

Definition is_arrow_content_type (h : HeaderMap) : bool :=
  match get_text CONTENT_TYPE h with
  | Some v => eq_ignore_ascii_case (trim (default [] (head (split_on x3b v)))) ARROW_CONTENT_TYPE
  | None => false
  end.

Definition require_response_budget_discovery (status : Z) (h : HeaderMap) : res RpcError unit :=
  if negb (is_success status) then Err (protocol_fault (bs "response-budget discovery returned HTTP ")) else
  if negb (has_single_response_budget_support h)
  then Err (protocol_fault (bs "server does not advertise exactly one VGI-Accept-Max-Response-Bytes-Support: true"))
  else Ok tt.
End Parsing.

(** ** Reading a body under a limit *)

(** [Cursor::read] into a buffer of 64 KiB. *)
Fixpoint cursor_reads (fuel : nat) (raw : list byte) : list (option (list byte)) :=
  match fuel, raw with
  | S fuel, _ :: _ => Some (ztake (64 * 1024) raw) :: cursor_reads fuel (zdrop (64 * 1024) raw)
  | _, _ => []
  end.

Fixpoint read_bounded (max_bytes : Z) (over : RpcError) (out : list byte) (reads : list (option (list byte)))
  : res RpcError (list byte) :=
  match reads with
  | [] | Some [] :: _ => Ok out
  | None :: _ => Err (transport_fault (bs "read "))
  | Some chunk :: reads =>
    if max_bytes <? zlen out + zlen chunk then Err over else read_bounded max_bytes over (out ++ chunk) reads
  end.

Record BackendResponse := mkBackend { be_status : Z; be_headers : HeaderMap; be_length : option Z; be_body : list (option (list byte)) }.

Definition read_bounded_response (r : BackendResponse) (max_bytes : Z) (over : RpcError) : res RpcError (list byte) :=
  match be_length r with
  | Some n => if max_bytes <? n then Err over else read_bounded max_bytes over [] (be_body r)
  | None => read_bounded max_bytes over [] (be_body r)
  end.

(** ** Resume tokens *)
Definition pack_resume_token (cursor : list byte) (call_token : option (list byte)) : list byte :=
  match call_token with
  | Some call => dec_unsigned (zlen cursor) ++ x3a :: cursor ++ call
  | None => cursor
  end.

Definition unpack_resume_token (token : list byte) : list byte * option (list byte) :=
  match split_once x3a token with
  | None => (token, None)
  | Some (len_str, rest) =>
    match parse_unsigned usize_max len_str with
    | None => (token, None)
    | Some n =>
      if (zlen rest <? n) || negb (is_char_boundary rest n) then (token, None) else
      (ztake n rest, match zdrop n rest with [] => None | call => Some call end)
    end
  end.

(** ** External locations through the executor *)
Section Fetching.
Context {X : Type} `{!HttpExecutor X, !HttpLib, !UrlLib, !UrlNav}.

Definition fetch_failed : RpcError := RpcErr.runtime_error (bs "external GET failed for ").
Definition fetch_status : RpcError := RpcErr.runtime_error (bs "external GET returned ").
Definition fetch_too_large : RpcError := RpcErr.runtime_error (bs "external payload exceeds ").

Definition executor_get (timeout : Z) (url : list byte) (x : X) : res RpcError (Z * HeaderMap * list byte) * X :=
  match execute (mkHttpRequest (bs "GET") url [] [] timeout false) x with
  | (inl r, x) => ('(status, h) ← convert_executor_response (ex_status r) (ex_headers r); Ok (status, h, ex_body r), x)
  | (inr _, x) => (Err fetch_failed, x)
  end.

Definition executor_fetch (timeout : Z) (url : list byte) (max_bytes : Z) (x : X) : res RpcError (list byte) * X :=
  let '(r, x) := executor_get timeout url x in
  ('(status, _, body) ← r;
   if negb (is_success status) then Err fetch_status else
   if max_bytes <? zlen body then Err fetch_too_large else Ok body, x).

(** The storage's coding, unless the transport has undone it. *)
Definition fetched_coding (h : HeaderMap) : Compression :=
  if transparent_decompression exec_caps then CNone else
  match get_text CONTENT_ENCODING h with
  | Some v => if eq_ignore_ascii_case v (bs "zstd") then CZstd 0 else CNone
  | None => CNone
  end.

(** Each hop's target passes the policy before it is requested; [hops]: how many are left. *)
Fixpoint fetch_hops (hops : nat) (timeout : Z) (current : list byte) (max_bytes : Z) (validator : UrlValidator) (x : X)
  : res RpcError FetchedPayload * X :=
  let '(r, x) := executor_get timeout current x in
  match r with
  | Ok (status, h, body) =>
    if is_redirection status then
      match hops with
      | O => (Err (RpcErr.runtime_error (bs "external fetch redirect limit (")), x)
      | S hops =>
        match (location ← ok_or (RpcErr.runtime_error (bs "external redirect missing Location")) (get_text Headers.LOCATION h);
               next ← ok_or (RpcErr.runtime_error (bs "external redirect has invalid Location")) (url_join current location);
               _ ← validate_external_url validator next; Ok next) with
        | Ok next => fetch_hops hops timeout next max_bytes validator x
        | Err e => (Err e, x)
        | Panic => (Panic, x)
        end
      end
    else if negb (is_success status) then (Err fetch_status, x)
    else if max_bytes <? zlen body then (Err fetch_too_large, x)
    else (Ok (mkFetched body (fetched_coding h)), x)
  | Err e => (Err e, x)
  | Panic => (Panic, x)
  end.

Definition executor_fetch_with_policy (timeout : Z) (url : list byte) (max_bytes : Z) (validator : UrlValidator) (max_redirects : Z)
    (x : X) : res RpcError FetchedPayload * X :=
  match (_ ← validate_external_url validator url;
         ok_or (RpcErr.value_error (bs "URL rejected: invalid external URL")) (url_text url)) with
  | Ok current => fetch_hops (Z.to_nat max_redirects) timeout current max_bytes validator x
  | Err e => (Err e, x)
  | Panic => (Panic, x)
  end.
End Fetching.

(** ** The client *)
Record RetryConfig := mkRetry { max_attempts : Z }.
Definition retry_default : RetryConfig := mkRetry 1.

Record SessionState := mkSessionState { ses_token : option (list byte); ses_echo : gmap (list byte) (list byte); ses_detached : bool }.
Definition session_begin (token : option (list byte)) : SessionState := mkSessionState token ∅ false.

Record HttpClientBuilder := mkHttpClientBuilder {
  cb_base_url : list byte;
  cb_prefix : list byte;
  cb_headers : HeaderMap;
  cb_on_log : bool;
  cb_relax_nullability : bool;
  cb_protocol : option (list byte);
  cb_protocol_version : option (list byte);
  cb_timeout : option Z;
  cb_retry : RetryConfig;
  cb_compression_level : option Z;
  cb_external_validator : option UrlValidator;
  cb_max_encoded : Z; cb_max_encoded_explicit : bool;
  cb_max_decoded : Z; cb_max_decoded_explicit : bool;
  cb_accepted : Z;
  cb_first_response_request_limit : option Z;
  cb_server_capabilities : option HttpServerCapabilities
}.

Definition connect (base_url : list byte) : HttpClientBuilder :=
  mkHttpClientBuilder base_url [] [] false false None None (Some 30) retry_default (Some DEFAULT_COMPRESSION_LEVEL) None
    DEFAULT_MAX_ENCODED_RESPONSE_BYTES false DEFAULT_MAX_DECODED_RESPONSE_BYTES false DEFAULT_ACCEPTED_MAX_RESPONSE_BYTES None None.

(** The size setters store their value, or panic; the accepted size moves the two others
    that were not set. *)
Definition client_bound {E} (n : Z) : res E Z :=
  if (MIN_ACCEPTED_MAX_RESPONSE_BYTES <=? n) && (n <=? MAX_SAFE_RESPONSE_BYTES) then Ok n else Panic.
Definition max_encoded_response_bytes (n : Z) (b : HttpClientBuilder) : res RpcError HttpClientBuilder :=
  n ← client_bound n;
  Ok (mkHttpClientBuilder (cb_base_url b) (cb_prefix b) (cb_headers b) (cb_on_log b) (cb_relax_nullability b) (cb_protocol b)
    (cb_protocol_version b) (cb_timeout b) (cb_retry b) (cb_compression_level b) (cb_external_validator b) n true
    (cb_max_decoded b) (cb_max_decoded_explicit b) (cb_accepted b) (cb_first_response_request_limit b) (cb_server_capabilities b)).
Definition max_decoded_response_bytes (n : Z) (b : HttpClientBuilder) : res RpcError HttpClientBuilder :=
  n ← client_bound n;
  Ok (mkHttpClientBuilder (cb_base_url b) (cb_prefix b) (cb_headers b) (cb_on_log b) (cb_relax_nullability b) (cb_protocol b)
    (cb_protocol_version b) (cb_timeout b) (cb_retry b) (cb_compression_level b) (cb_external_validator b) (cb_max_encoded b)
    (cb_max_encoded_explicit b) n true (cb_accepted b) (cb_first_response_request_limit b) (cb_server_capabilities b)).
Definition accepted_max_response_bytes (n : Z) (b : HttpClientBuilder) : res RpcError HttpClientBuilder :=
  n ← client_bound n;
  Ok (mkHttpClientBuilder (cb_base_url b) (cb_prefix b) (cb_headers b) (cb_on_log b) (cb_relax_nullability b) (cb_protocol b)
    (cb_protocol_version b) (cb_timeout b) (cb_retry b) (cb_compression_level b) (cb_external_validator b)
    (if cb_max_encoded_explicit b then cb_max_encoded b else n) (cb_max_encoded_explicit b)
    (if cb_max_decoded_explicit b then cb_max_decoded b else n) (cb_max_decoded_explicit b) n
    (cb_first_response_request_limit b) (cb_server_capabilities b)).
(** [header] *)
Definition with_header_value `{HttpLib} (name value : list byte) (b : HttpClientBuilder) : res RpcError HttpClientBuilder :=
  n ← ok_or (RpcErr.value_error (bs "bad header name: ")) (header_name_from_bytes name);
  if negb (text_is_value value) then Err (RpcErr.value_error (bs "bad header value: ")) else
  Ok (mkHttpClientBuilder (cb_base_url b) (cb_prefix b) (hinsert n value (cb_headers b)) (cb_on_log b) (cb_relax_nullability b)
    (cb_protocol b) (cb_protocol_version b) (cb_timeout b) (cb_retry b) (cb_compression_level b) (cb_external_validator b)
    (cb_max_encoded b) (cb_max_encoded_explicit b) (cb_max_decoded b) (cb_max_decoded_explicit b) (cb_accepted b)
    (cb_first_response_request_limit b) (cb_server_capabilities b)).

(** What does not change after [build]. *)
Record HttpClient := mkHttpClient {
  hc_base_url : list byte;
  hc_prefix : list byte;
  hc_headers : HeaderMap;
  hc_timeout : option Z;
  hc_on_log : bool;
  hc_relax_nullability : bool;
  hc_protocol : option (list byte);
  hc_protocol_version : option (list byte);
  hc_retry : RetryConfig;
  hc_compression_level : option Z;
  hc_max_encoded : Z;
  hc_max_decoded : Z;
  hc_accepted : Z;
  hc_external : option ExternalLocationConfig;
  first_response_request_limit : option Z
}.

(** What does: the fields of the client that calls write, the executor, the storage that
    pointers are fetched from, what a fetch took, what the log callback was told, and how
    many request ids were drawn. *)
Record HttpClientWorld {X Store : Type} := mkHW {
  hw_caps : option HttpServerCapabilities;
  send_compressed : bool;
  hw_session : option SessionState;
  session_stack : list SessionState;
  hw_exec : X;
  hw_store : Store;
  hw_fetch_ms : f64;
  hw_logs : list LogMessage;
  hw_drawn : Z
}.
Arguments HttpClientWorld : clear implicits.
Arguments mkHW {X Store} _ _ _ _ _ _ _ _ _.

(** [apply_supported_encodings]: whether requests are still compressed. *)
Definition still_compressed (encodings : list (list byte)) (now : bool) : bool :=
  now && existsb (fun e => eq_ignore_ascii_case e DEFAULT_REQUEST_ENCODING) encodings.

Definition no_protocol : RpcError := RpcErr.new (bs "ValueError") (bs "HttpClient needs a protocol: ").

Definition client_build {X Store} `{UrlLib} (b : HttpClientBuilder) (x : X) (store : Store) : res RpcError (HttpClient * HttpClientWorld X Store) :=
  if match cb_protocol b with Some p => bool_decide (p = []) | None => true end then Err no_protocol else
  let external := (fun v => mkExternal (threshold_bytes external_config_new) (compression external_config_new) v
                              (max_decompressed_bytes external_config_new) (max_encoded_bytes external_config_new)
                              (max_redirects external_config_new)) <$> cb_external_validator b in
  if match cb_server_capabilities b with Some c => negb (accept_max_response_bytes_support c) | None => false end
  then Err (RpcErr.value_error (bs "cached capabilities must acknowledge response budgets")) else
  let compressed := bool_decide (is_Some (cb_compression_level b)) in
  Ok (mkHttpClient (trim_end_slashes (cb_base_url b)) (cb_prefix b) (cb_headers b) (cb_timeout b) (cb_on_log b)
        (cb_relax_nullability b) (cb_protocol b) (cb_protocol_version b) (cb_retry b) (cb_compression_level b)
        (cb_max_encoded b) (cb_max_decoded b) (Z.min (Z.min (cb_accepted b) (cb_max_decoded b)) (cb_max_encoded b))
        external (cb_first_response_request_limit b),
      mkHW (cb_server_capabilities b)
        (match cb_server_capabilities b with Some c => still_compressed (supported_encodings c) compressed | None => compressed end)
        None [] x store (f64_of_i64 0) [] 0).

Section HttpClientOps.
Context `{ArrowShm, !Json, !Aead, !External.Zstd, !UrlLib, !HttpLib, !ContentCodecs}.
Context {X Store : Type} `{!HttpExecutor X, !Fetcher Store}.
Context (relax_schema_nullability : ArrowSchema → ArrowSchema).
(** The clock that [generate_request_id] reads at its nth call. *)
Context (clock : Z → Z).

Abbreviation HW := (HttpClientWorld X Store).

Definition set_caps (c : option HttpServerCapabilities) (w : HW) : HW :=
  mkHW c (send_compressed w) (hw_session w) (session_stack w) (hw_exec w) (hw_store w) (hw_fetch_ms w) (hw_logs w) (hw_drawn w).
Definition set_compressed (b : bool) (w : HW) : HW :=
  mkHW (hw_caps w) b (hw_session w) (session_stack w) (hw_exec w) (hw_store w) (hw_fetch_ms w) (hw_logs w) (hw_drawn w).
Definition set_session (s : option SessionState) (w : HW) : HW :=
  mkHW (hw_caps w) (send_compressed w) s (session_stack w) (hw_exec w) (hw_store w) (hw_fetch_ms w) (hw_logs w) (hw_drawn w).
Definition set_stack (s : list SessionState) (w : HW) : HW :=
  mkHW (hw_caps w) (send_compressed w) (hw_session w) s (hw_exec w) (hw_store w) (hw_fetch_ms w) (hw_logs w) (hw_drawn w).
Definition set_exec (x : X) (w : HW) : HW :=
  mkHW (hw_caps w) (send_compressed w) (hw_session w) (session_stack w) x (hw_store w) (hw_fetch_ms w) (hw_logs w) (hw_drawn w).
Definition add_log (m : LogMessage) (w : HW) : HW :=
  mkHW (hw_caps w) (send_compressed w) (hw_session w) (session_stack w) (hw_exec w) (hw_store w) (hw_fetch_ms w) (hw_logs w ++ [m])
    (hw_drawn w).

Definition draw_id : ST HW (list byte) := fun w =>
  (Ok (generate_request_id (clock (hw_drawn w)) (hw_drawn w)),
   mkHW (hw_caps w) (send_compressed w) (hw_session w) (session_stack w) (hw_exec w) (hw_store w) (hw_fetch_ms w) (hw_logs w)
     (hw_drawn w + 1)).

Definition tell_log (c : HttpClient) (m : LogMessage) : ST HW unit := if hc_on_log c then st_set (add_log m) else mret tt.

(** ** One exchange with the executor *)

(** The error, and whether the request certainly did not arrive. *)
Definition backend_execute (c : HttpClient) (method target : list byte) (h : HeaderMap) (body : list byte) (w : HW)
  : (BackendResponse + RpcError * bool) * HW :=
  let '(r, x) := execute (mkHttpRequest method target (header_pairs h) body (default 0 (hc_timeout c)) true) (hw_exec w) in
  (match r with
   | inr e => inr (transport_fault (ex_message e), retry_safe e)
   | inl r =>
     match ('(status, h) ← convert_executor_response (ex_status r) (ex_headers r);
            n ← (if transparent_decompression exec_caps then Ok None else parse_content_length h);
            Ok (mkBackend status h n (cursor_reads (length (ex_body r)) (ex_body r)))) with
     | Ok r => inl r
     | Err e => inr (e, false)
     | Panic => inr (transport_fault [], false)
     end
   end, set_exec x w).

Definition hc_target (c : HttpClient) (path : list byte) : list byte := hc_base_url c ++ hc_prefix c ++ x2f :: path.
Definition hc_route (c : HttpClient) (method : list byte) : list byte := default [] (hc_protocol c) ++ x2f :: method.

Definition accepted_header (c : HttpClient) (h : HeaderMap) : HeaderMap :=
  hinsert Headers.ACCEPT_MAX_RESPONSE_BYTES_HEADER (dec_unsigned (hc_accepted c)) h.

(** The echoed headers whose name and value are valid, in the order of their names. *)
Definition echo_header (h : HeaderMap) (kv : list byte * list byte) : HeaderMap :=
  match header_name_from_bytes kv.1 with
  | Some n => if text_is_value kv.2 then hinsert n kv.2 h else h
  | None => h
  end.

Definition session_headers (s : SessionState) (h : HeaderMap) : HeaderMap :=
  let h := hinsert Headers.SESSION_ACCEPT_HEADER (bs "true") h in
  let h := match ses_token s with Some tok => insert_text Headers.SESSION_HEADER tok h | None => h end in
  foldl echo_header h (merge_sort (fun a b => bytes_le a.1 b.1) (map_to_list (ses_echo s))).

Definition build_headers (c : HttpClient) (session : option SessionState) (content_encoding : option (list byte)) : HeaderMap :=
  let h := accepted_header c (hinsert CONTENT_TYPE ARROW_CONTENT_TYPE (hc_headers c)) in
  let h := match content_encoding with
           | Some enc =>
             let h := insert_text CONTENT_ENCODING enc h in
             if transparent_decompression exec_caps then hinsert Headers.VGI_ACCEPT_ENCODING_HEADER (bs "zstd, gzip") h
             else hinsert ACCEPT_ENCODING (bs "zstd, gzip, identity") h
           | None => h
           end in
  match session with Some s => session_headers s h | None => h end.

Definition echo_name (n : list byte) : option (list byte) :=
  match Bytes.strip_prefix (to_ascii_lowercase <$> Headers.ECHO_HEADER_PREFIX) n with
  | Some s => Some s
  | None => Bytes.strip_prefix Headers.ECHO_HEADER_PREFIX n
  end.

Definition learn_echo (echo : gmap (list byte) (list byte)) (kv : list byte * list byte) : gmap (list byte) (list byte) :=
  match echo_name kv.1 with
  | Some n => if value_is_text kv.2 then <[n := kv.2]> echo else echo
  | None => echo
  end.

Definition process_session_headers (h : HeaderMap) : ST HW unit := st_set (fun w =>
  match hw_session w with
  | None => w
  | Some s =>
    let token := match get_text Headers.SESSION_HEADER h with Some t => Some t | None => ses_token s end in
    let closed := match get_text Headers.SESSION_CLOSE_HEADER h with
                  | Some v => eq_ignore_ascii_case v (bs "true") | None => false end in
    set_session (Some (mkSessionState (if closed then None else token) (foldl learn_echo (ses_echo s) h) (ses_detached s))) w
  end).

(** ** A response within its limits *)
Definition response_coding (h : HeaderMap) : option (list byte) :=
  (fun v => to_ascii_lowercase <$> trim v) <$>
    get_text (if transparent_decompression exec_caps then Headers.VGI_CONTENT_ENCODING_HEADER else CONTENT_ENCODING) h.

Definition decoded_limit (c : HttpClient) (caps : option HttpServerCapabilities) (stated : option Z) : Z :=
  default 0 (min_some [Some (hc_max_decoded c); Some (hc_accepted c); caps ≫= cap_max_response_bytes; stated]).

Definition is_identity (coding : option (list byte)) : bool :=
  match coding with Some e => bool_decide (e = bs "identity") | None => true end.

Definition decode_response (coding : option (list byte)) (limit : Z) (raw : list byte) : res RpcError (list byte) :=
  if bool_decide (coding = Some (bs "zstd")) then
    if negb (zstd_decoder_new raw) then Err (transport_fault (bs "zstd decode response: ")) else
    let w := zstd_window_log_for_limit limit in
    if negb (zstd_window_log_max w) then Err (transport_fault (bs "zstd response window limit: ")) else
    read_bounded limit (too_large (bs "decoded HTTP response")) [] (zstd_reads w raw)
  else if bool_decide (coding = Some (bs "gzip")) then
    read_bounded limit (too_large (bs "decoded HTTP response")) [] (gzip_reads raw)
  else if limit <? zlen raw then Err (too_large (bs "decoded HTTP response exceeds max_response_bytes (")) else Ok raw.

Definition accept_response (c : HttpClient) (caps : option HttpServerCapabilities) (r : BackendResponse)
  : res RpcError (HeaderMap * list byte * Z) :=
  let h := be_headers r in
  if negb (has_single_response_budget_support h)
  then Err (protocol_fault (bs "server response does not advertise VGI-Accept-Max-Response-Bytes-Support: true")) else
  let coding := response_coding h in
  stated ← parse_max_response_bytes h;
  let limit := decoded_limit c caps stated in
  let tighter := is_identity coding && (limit <=? hc_max_encoded c) in
  let encoded_limit := if is_identity coding then Z.min (hc_max_encoded c) limit else hc_max_encoded c in
  raw ← read_bounded_response r encoded_limit
          (if tighter then too_large (bs "decoded HTTP identity response")
           else transport_fault (bs "encoded HTTP response (max_encoded_response_bytes)"));
  body ← decode_response coding limit raw;
  Ok (h, body, be_status r).

(** The body as it is sent, and the coding it names. *)
Definition encode_request (c : HttpClient) (w : HW) (body : list byte) : res RpcError (list byte * option (list byte)) :=
  if send_compressed w && (bool_decide (first_response_request_limit c = None) || bool_decide (is_Some (hw_caps w))) then
    let level := default DEFAULT_COMPRESSION_LEVEL (hc_compression_level c) in
    if negb (zstd_encoder_new level) then Err (transport_fault (bs "zstd init: ")) else
    if negb (zstd_set_content_size level) then Err (transport_fault (bs "zstd param: ")) else
    z ← ok_or (transport_fault (bs "zstd encode: ")) (zstd_compress level body);
    Ok (z, Some (bs "zstd"))
  else Ok (body, None).

(** [attempts] more tries; the sleeps between them are not modelled. *)
Fixpoint send_attempts (attempts : nat) (c : HttpClient) (target : list byte) (h : HeaderMap) (payload : list byte)
    (last : option RpcError) : ST HW (HeaderMap * list byte * Z) := fun w =>
  match attempts with
  | O => (Err (default (transport_fault (bs "http post failed")) last), w)
  | S attempts =>
    match backend_execute c (bs "POST") target h payload w with
    | (inl r, w) => (accept_response c (hw_caps w) r, w)
    | (inr (e, safe), w) =>
      let e := RpcErr.new (error_type e) (bs "http post ") in
      if safe then send_attempts attempts c target h payload (Some e) w else (Err e, w)
    end
  end.

Definition send (c : HttpClient) (path body : list byte) (retryable : bool) : ST HW (HeaderMap * list byte * Z) := fun w =>
  match encode_request c w body with
  | Ok (payload, coding) =>
    send_attempts (if retryable then Z.to_nat (Z.max 1 (max_attempts (hc_retry c))) else 1%nat) c (hc_target c path)
      (build_headers c (hw_session w) coding) payload None w
  | Err e => (Err e, w)
  | Panic => (Panic, w)
  end.

(** ** Capabilities *)
Definition apply_encodings (encodings : list (list byte)) (w : HW) : HW :=
  set_compressed (still_compressed encodings (send_compressed w)) w.

Definition with_encodings (encodings : list (list byte)) (c : HttpServerCapabilities) : HttpServerCapabilities :=
  mkCaps (sticky_enabled c) (cap_sticky_default_ttl c) (cap_sticky_echo_headers c) (cap_upload_url_support c) (cap_max_request_bytes c)
    (cap_max_response_bytes c) (accept_max_response_bytes_support c) (cap_max_externalized_response_bytes c)
    (cap_externalization_enabled c) (cap_max_upload_bytes c) encodings.
Definition with_max_response (n : option Z) (c : HttpServerCapabilities) : HttpServerCapabilities :=
  mkCaps (sticky_enabled c) (cap_sticky_default_ttl c) (cap_sticky_echo_headers c) (cap_upload_url_support c) (cap_max_request_bytes c)
    n (accept_max_response_bytes_support c) (cap_max_externalized_response_bytes c) (cap_externalization_enabled c)
    (cap_max_upload_bytes c) (supported_encodings c).

(** A header that is absent says nothing new; capabilities are refined, never seeded. *)
Definition refresh_supported_encodings (h : HeaderMap) : ST HW unit := st_set (fun w =>
  match parse_supported_encodings h with
  | None => w
  | Some encodings => let w := apply_encodings encodings w in set_caps (with_encodings encodings <$> hw_caps w) w
  end).

Definition fetch_capabilities (c : HttpClient) : ST HW HttpServerCapabilities := fun w =>
  let method := if supports_options exec_caps then bs "OPTIONS" else bs "GET" in
  match backend_execute c method (hc_target c (bs "health")) (accepted_header c (hc_headers c)) [] w with
  | (inl r, w) =>
    (_ ← require_response_budget_discovery (be_status r) (be_headers r);
     n ← parse_max_response_bytes (be_headers r);
     Ok (with_max_response n (parse_caps (be_headers r))), w)
  | (inr (e, _), w) => (Err (RpcErr.new (error_type e) (bs "health: ")), w)
  end.

Definition capabilities (c : HttpClient) : ST HW HttpServerCapabilities :=
  known ← st_get hw_caps;
  match known with
  | Some caps => mret caps
  | None =>
    if bool_decide (is_Some (first_response_request_limit c))
    then lift (Err (protocol_fault (bs "capabilities are available after the first RPC response"))) else
    caps ← fetch_capabilities c;
    _ ← st_set (fun w => set_caps (Some caps) (apply_encodings (supported_encodings caps) w));
    mret caps
  end.

(** ** Frames of a response *)
Record ParsedStream := mkParsed {
  ps_batches : list (RecordBatch * Metadata);
  ps_token : option (list byte);
  ps_call_token : option (list byte);
  ps_finished : bool
}.
Definition parsed_new : ParsedStream := mkParsed [] None None true.
Definition ps_set_batches (l : list (RecordBatch * Metadata)) (p : ParsedStream) : ParsedStream :=
  mkParsed l (ps_token p) (ps_call_token p) (ps_finished p).

(** The tokens are taken off the metadata of their frame. *)
Definition take_tokens (md : Metadata) (p : ParsedStream) : Metadata * ParsedStream :=
  (delete STATE_KEY (delete CALL_STATE_KEY md),
   mkParsed (ps_batches p) (match md !! STATE_KEY with Some t => Some t | None => ps_token p end)
     (match md !! CALL_STATE_KEY with Some t => Some t | None => ps_call_token p end) (ps_finished p)).

Definition add_data (treat_state_frame_as_data : bool) (b : RecordBatch) (md : Metadata) (p : ParsedStream) : ParsedStream :=
  let '(md', p) := take_tokens md p in
  match md !! STATE_KEY with
  | Some _ =>
    if treat_state_frame_as_data && (negb (num_rows b =? 0) || bool_decide (ps_batches p = []))
    then ps_set_batches (ps_batches p ++ [(b, md')]) p else p
  | None => ps_set_batches (ps_batches p ++ [(b, md')]) p
  end.

(** [process_frame], with what becomes of a pointer. *)
Definition process_frame_with (on_pointer : Metadata → ParsedStream → ST HW ParsedStream) (c : HttpClient) (treat : bool)
    (b : RecordBatch) (md : Metadata) (p : ParsedStream) : ST HW ParsedStream :=
  match classify b md with
  | KLog m => _ ← tell_log c m; mret p
  | KException e => lift (Err e)
  | KPointer => on_pointer md p
  | KData => mret (add_data treat b md p)
  end.

Definition unresolved (_ : Metadata) (_ : ParsedStream) : ST HW ParsedStream := lift (Err unresolved_pointer_error).

(** The frames of a fetched payload, where another pointer is an error. *)
Fixpoint inner_loop (fuel : nat) (c : HttpClient) (treat : bool) (rdr : StreamReader) (p : ParsedStream) : ST HW ParsedStream :=
  match fuel with
  | O => lift Panic
  | S fuel =>
    match read_next rdr with
    | Some (Ok (None, _)) => mret p
    | Some (Ok (Some (b, md), rdr)) => p ← process_frame_with unresolved c treat b md p; inner_loop fuel c treat rdr p
    | Some (Err e) => lift (Err e)
    | _ => lift Panic
    end
  end.

(** [{:.2}] of the milliseconds, and the URL, on every batch the pointer brought. *)
Definition stamp_provenance (fetch_ms : f64) (url : list byte) (bmd : RecordBatch * Metadata) : RecordBatch * Metadata :=
  (bmd.1, <[LOCATION_SOURCE_KEY := url]> (<[LOCATION_FETCH_MS_KEY := format_2 fetch_ms]> bmd.2)).

Definition resolve_frame (c : HttpClient) (treat : bool) (md : Metadata) (p : ParsedStream) : ST HW ParsedStream :=
  match hc_external c with
  | None => unresolved md p
  | Some cfg =>
    let '(md, p) := take_tokens md p in
    let url := default [] (md !! LOCATION_KEY) in
    let first_new := length (ps_batches p) in
    store ← st_get hw_store;
    fetched ← lift (fetch_external_ipc_bytes md cfg store);
    match fetched with
    | None => mret p
    | Some inner =>
      rdr ← lift (stream_reader_new [Data inner]);
      let rdr := relaxed relax_schema_nullability (hc_relax_nullability c) rdr in
      p ← inner_loop (S (reader_size (sr_reader rdr))) c treat rdr p;
      ms ← st_get hw_fetch_ms;
      mret (ps_set_batches (take first_new (ps_batches p) ++ (stamp_provenance ms url <$> drop first_new (ps_batches p))) p)
    end
  end.

Definition process_frame (c : HttpClient) (treat : bool) : RecordBatch → Metadata → ParsedStream → ST HW ParsedStream :=
  process_frame_with (resolve_frame c treat) c treat.

(** [let _ = reader.drain(); return Err(e)]: the rest of the body is not read again. *)
Fixpoint response_frames (fuel : nat) (c : HttpClient) (treat : bool) (rdr : StreamReader) (p : ParsedStream)
  : ST HW (ParsedStream * StreamReader) :=
  match fuel with
  | O => lift Panic
  | S fuel =>
    match read_next rdr with
    | Some (Ok (None, rdr)) => mret (p, rdr)
    | Some (Ok (Some (b, md), rdr)) => fun w =>
      match process_frame c treat b md p w with
      | (Ok p, w) => response_frames fuel c treat rdr p w
      | (Err e, w) => match drain rdr with Some (Ok _) | Some (Err _) => (Err e, w) | _ => (Panic, w) end
      | (Panic, w) => (Panic, w)
      end
    | Some (Err e) => lift (Err e)
    | _ => lift Panic
    end
  end.

Definition more_than_one : RpcError := RpcErr.protocol_error (bs "HTTP response contained more than one data batch").

(** One stream off the cursor, and where the cursor is after it. *)
Definition parse_response (c : HttpClient) (cursor : reader) (treat : bool) : ST HW (ParsedStream * reader) :=
  rdr ← lift (stream_reader_new cursor);
  let rdr := relaxed relax_schema_nullability (hc_relax_nullability c) rdr in
  '(p, rdr) ← response_frames (S (reader_size (sr_reader rdr))) c treat rdr parsed_new;
  if 1 <? zlen (ps_batches p) then lift (Err more_than_one) else
  mret (mkParsed (ps_batches p) (ps_token p) (ps_call_token p) (negb (bool_decide (is_Some (ps_token p)))), sr_reader rdr).

Definition no_result : RpcError := transport_fault (bs "no result batch in http response").

Definition read_unary (c : HttpClient) (body : list byte) : ST HW (RecordBatch * Metadata) :=
  '(p, _) ← parse_response c [Data body] true;
  lift (ok_or no_result (head (ps_batches p))).

Definition read_header (c : HttpClient) (cursor : reader) : ST HW (option (RecordBatch * Metadata) * reader) :=
  '(p, cursor) ← parse_response c cursor true; mret (head (ps_batches p), cursor).

(** ** Requests *)
Context `{!ArrowSchemas} `{!ArrowValues Array}.

Definition request_metadata_on (c : HttpClient) (protocol : option (list byte)) (method : list byte) (extra : option Metadata) : ST HW Metadata :=
  id ← draw_id; mret (build_request_metadata method id protocol (hc_protocol_version c) extra).
Definition request_metadata (c : HttpClient) (method : list byte) (extra : option Metadata) : ST HW Metadata :=
  request_metadata_on c (hc_protocol c) method extra.

(** A [Vec<u8>] to write to. *)
Definition to_bytes_one (b : RecordBatch) (md : Metadata) : res RpcError (list byte) := write_one_batch vec b (Some md).

Definition column_by_name (b : RecordBatch) (name : list byte) : option Array :=
  '(n, _) ← list_find (fun f => field_name f = name) (schema_fields (batch_schema b)); columns b !! n.

Record VendedUrl := mkVended { v_upload_url : list byte; v_download_url : list byte; v_expires_at : option Z }.

(** [as_string::<i32>] panics on a column of another type. *)
Definition string_values (col : Array) : res RpcError (list (list byte)) := or_panic (values_of KString col).

Definition expiry_at (col : option Array) (i : Z) : res RpcError (option Z) :=
  match col ≫= values_of (KInt true 64) with
  | None => Ok None
  | Some vs =>
    null ← or_panic (col ≫= fun a => is_null a i);
    if null : bool then Ok None else Some <$> or_panic (znth vs i)
  end.

Definition vended_urls (b : RecordBatch) : res RpcError (list VendedUrl) :=
  up ← ok_or (protocol_fault (bs "upload_url missing")) (column_by_name b (bs "upload_url"));
  up ← string_values up;
  down ← ok_or (protocol_fault (bs "download_url missing")) (column_by_name b (bs "download_url"));
  down ← string_values down;
  mapM (fun n => u ← or_panic (znth up (Z.of_nat n)); d ← or_panic (znth down (Z.of_nat n));
                 e ← expiry_at (column_by_name b (bs "expires_at")) (Z.of_nat n); Ok (mkVended u d e))
       (seq 0 (Z.to_nat (num_rows b))).

Fixpoint upload_frames (fuel : nat) (c : HttpClient) (rdr : StreamReader) (out : list VendedUrl) : ST HW (list VendedUrl) :=
  match fuel with
  | O => lift Panic
  | S fuel =>
    match read_next rdr with
    | Some (Ok (None, _)) => mret out
    | Some (Ok (Some (b, md), rdr)) =>
      match classify b md with
      | KLog m => _ ← tell_log c m; upload_frames fuel c rdr out
      | KException e => lift match drain rdr with Some (Ok _) | Some (Err _) => Err e | _ => Panic end
      | KPointer => lift match drain rdr with Some (Ok _) | Some (Err _) => Err unresolved_pointer_error | _ => Panic end
      | KData => urls ← lift (vended_urls b); upload_frames fuel c rdr (out ++ urls)
      end
    | Some (Err e) => lift (Err e)
    | _ => lift Panic
    end
  end.

Definition parse_upload_urls (c : HttpClient) (body : list byte) : ST HW (list VendedUrl) :=
  rdr ← lift (stream_reader_new [Data body]);
  upload_frames (S (reader_size (sr_reader rdr))) c rdr [].

Definition Post : Type := list byte → list byte → bool → ST HW (list byte).

Definition request_upload_urls (post : Post) (c : HttpClient) (count : Z) : ST HW (list VendedUrl) :=
  b ← lift (try_new upload_url_params_schema [array_from (KInt true 64) (TInt true 64) [count]]);
  md ← request_metadata c UPLOAD_URL_METHOD None;
  body ← lift (to_bytes_one b md);
  resp ← post (UPLOAD_URL_METHOD ++ bs "/init") body true;
  parse_upload_urls c resp.

Definition upload_failed : RpcError := RpcErr.new (bs "ExternalUploadFailed") (bs "PUT to upload URL failed").

Definition put_external_body (c : HttpClient) (url body : list byte) : ST HW unit := fun w =>
  match execute (mkHttpRequest (bs "PUT") url [(CONTENT_TYPE, ARROW_CONTENT_TYPE)] body (default 0 (hc_timeout c)) true) (hw_exec w) with
  | (inl r, x) => (if status_valid (ex_status r) && is_success (ex_status r) then Ok tt else Err upload_failed, set_exec x w)
  | (inr _, x) => (Err upload_failed, set_exec x w)
  end.

Definition externalize_request_body (post : Post) (c : HttpClient) (body : list byte) : ST HW (list byte) :=
  rdr ← lift (stream_reader_new [Data body]);
  first ← lift match read_next rdr with
               | Some (Ok (Some (b, md), _)) => Ok (b, md)
               | Some (Ok (None, _)) => Err (transport_fault (bs "empty request body to externalize"))
               | Some (Err e) => Err e
               | _ => Panic
               end;
  urls ← request_upload_urls post c 1;
  url ← lift (ok_or (protocol_fault (bs "server returned no upload URLs")) (head urls));
  _ ← put_external_body c (v_upload_url url) body;
  pointer ← lift (empty_batch (batch_schema (first.1)));
  lift (to_bytes_one pointer (<[LOCATION_KEY := v_download_url url]> first.2)).

Definition maybe_externalize_request (post : Post) (c : HttpClient) (body : list byte) : ST HW (list byte) :=
  caps ← st_get hw_caps;
  match caps ≫= (fun caps => if cap_upload_url_support caps then cap_max_request_bytes caps else None) with
  | Some max => if max <? zlen body then externalize_request_body post c body else mret body
  | None => mret body
  end.

Definition request_too_large : RpcError := RpcErr.new (bs "RequestTooLargeError") (bs "initial uncompressed RPC request exceeds ").

(** The first response tells the capabilities, where they are not discovered. *)
Definition check_first_request (c : HttpClient) (body : list byte) : ST HW unit :=
  match first_response_request_limit c with
  | Some limit =>
    known ← st_get hw_caps;
    if bool_decide (known = None) && (limit <? zlen body) then lift (Err request_too_large) else mret tt
  | None => _ ← capabilities c; mret tt
  end.

Definition learn_capabilities (c : HttpClient) (h : HeaderMap) : ST HW unit :=
  if bool_decide (is_Some (first_response_request_limit c)) then
    n ← lift (parse_max_response_bytes h);
    let caps := with_max_response n (parse_caps h) in
    st_set (fun w => set_caps (Some caps) (apply_encodings (supported_encodings caps) w))
  else mret tt.

(** The fallback of a 415, and of a 413, on what was last received. *)
Definition without_coding (c : HttpClient) (path body : list byte) (retryable : bool) (got : HeaderMap * list byte * Z)
  : ST HW (HeaderMap * list byte * Z) :=
  compressed ← st_get send_compressed;
  if (got.2 =? 415) && compressed then
    _ ← refresh_supported_encodings got.1.1;
    _ ← st_set (set_compressed false);
    send c path body retryable
  else mret got.

Definition by_pointer (post : Post) (c : HttpClient) (path body : list byte) (retryable : bool) (got : HeaderMap * list byte * Z)
  : ST HW (HeaderMap * list byte * Z) :=
  if got.2 =? 413 then
    pointer ← externalize_request_body post c body;
    send c path pointer retryable
  else mret got.

Definition finish_post (got : HeaderMap * list byte * Z) : ST HW (list byte) :=
  let '(h, body, status) := got in
  if status =? 401 then lift (Err (RpcErr.new (bs "AuthenticationError") (from_utf8_lossy body))) else
  if negb (is_success status) && negb (is_arrow_content_type h) then lift (Err (RpcErr.new (bs "HttpError") (bs "HTTP "))) else
  _ ← process_session_headers h;
  mret body.

(** [post] calls itself for the upload URLs of a body too large to send; out of fuel is
    the stack exhausted. *)
Fixpoint post (fuel : nat) (c : HttpClient) (path body : list byte) (retryable : bool) : ST HW (list byte) :=
  match fuel with
  | O => lift Panic
  | S fuel =>
    _ ← check_first_request c body;
    body ← maybe_externalize_request (post fuel c) c body;
    got ← send c path body retryable;
    _ ← learn_capabilities c got.1.1;
    _ ← refresh_supported_encodings got.1.1;
    got ← without_coding c path body retryable got;
    got ← by_pointer (post fuel c) c path body retryable got;
    finish_post got
  end.

(** ** Calls. [depth]: the stack that [post] has. *)
Context (depth : nat).

Definition http_call_unary (c : HttpClient) (method : list byte) (params : RecordBatch) (metadata : option Metadata)
  : ST HW (RecordBatch * Metadata) :=
  md ← request_metadata c method metadata;
  body ← lift (to_bytes_one params md);
  resp ← post depth c (hc_route c method) body true;
  read_unary c resp.

(** A session less the client it borrows. *)
Record HttpStreamSession := mkHttpSession {
  hs_route : list byte;
  hs_header : option (RecordBatch * Metadata);
  hs_pending : list (RecordBatch * Metadata);
  hs_token : option (list byte);
  hs_call_token : option (list byte);
  hs_finished : bool;
  hs_cancelled : bool
}.

Definition http_open_stream (c : HttpClient) (method : list byte) (params : RecordBatch) (metadata : option Metadata)
    (has_header is_exchange : bool) : ST HW HttpStreamSession :=
  md ← request_metadata c method metadata;
  body ← lift (to_bytes_one params md);
  resp ← post depth c (hc_route c method ++ bs "/init") body true;
  '(header, cursor) ← (if has_header then read_header c [Data resp] else mret (None, [Data resp]));
  '(p, _) ← parse_response c cursor is_exchange;
  mret (mkHttpSession (hc_route c method) header (ps_batches p) (ps_token p) (ps_call_token p) (ps_finished p) false).

Definition resume_stream (c : HttpClient) (method token : list byte) : HttpStreamSession :=
  let '(cursor, call_token) := unpack_resume_token token in
  mkHttpSession (hc_route c method) None [] (Some cursor) call_token false false.

Definition seek_to_token (token : list byte) (s : HttpStreamSession) : HttpStreamSession :=
  let '(cursor, call_token) := unpack_resume_token token in
  mkHttpSession (hs_route s) (hs_header s) [] (Some cursor) call_token false (hs_cancelled s).

Definition resume_token (s : HttpStreamSession) : option (list byte) :=
  (fun cursor => pack_resume_token cursor (hs_call_token s)) <$> hs_token s.

Definition with_call_token (s : HttpStreamSession) (md : Metadata) : Metadata :=
  match hs_call_token s with Some call => <[CALL_STATE_KEY := call]> md | None => md end.

Definition continuation_body (s : HttpStreamSession) (token : list byte) (cancel : bool) (md : option Metadata) : ST HW (list byte) :=
  b ← lift (empty_batch empty_schema);
  id ← draw_id;
  let md := <[REQUEST_ID_KEY := id]> (with_call_token s (<[STATE_KEY := token]> (default ∅ md))) in
  lift (to_bytes_one b (if cancel then <[CANCEL_KEY := bs "1"]> md else md)).

(** One continuation, on the session's route. *)
Definition continue_stream (c : HttpClient) (s : HttpStreamSession) (body : list byte) (retryable treat : bool) : ST HW ParsedStream :=
  resp ← post depth c (hs_route s ++ bs "/exchange") body retryable;
  '(p, _) ← parse_response c [Data resp] treat;
  mret p.

Definition after_turn (pending : list (RecordBatch * Metadata)) (token : option (list byte)) (finished : bool) (s : HttpStreamSession)
  : HttpStreamSession :=
  mkHttpSession (hs_route s) (hs_header s) pending token (hs_call_token s) finished (hs_cancelled s).

(** A step of a session, which borrows the client. *)
Abbreviation Step A := (HttpStreamSession → HW → res RpcError A * HttpStreamSession * HW).

(** [turns]: how many continuations; a server may answer with none of its batches forever. *)
Fixpoint tick_loop (turns : nat) (c : HttpClient) (metadata : option Metadata) : Step (option (RecordBatch * Metadata)) := fun s w =>
  match hs_pending s with
  | item :: rest => (Ok (Some item), after_turn rest (hs_token s) (hs_finished s) s, w)
  | [] =>
    match turns, hs_finished s, hs_token s with
    | _, true, _ | _, _, None => (Ok None, after_turn [] (hs_token s) true s, w)
    | O, _, _ => (Panic, s, w)
    | S turns, false, Some token =>
      match (body ← continuation_body s token false metadata; continue_stream c s body true false) w with
      | (Ok p, w) => tick_loop turns c metadata (after_turn (ps_batches p) (ps_token p) (ps_finished p) s) w
      | (Err e, w) => (Err e, s, w)
      | (Panic, w) => (Panic, s, w)
      end
    end
  end.

Definition http_tick (turns : nat) (c : HttpClient) (metadata : option Metadata) : Step (option (RecordBatch * Metadata)) := fun s w =>
  if hs_cancelled s then (Err (RpcErr.protocol_error (bs "tick after cancel")), s, w) else tick_loop turns c metadata s w.

Definition next_with_token (c : HttpClient) : Step (option ((RecordBatch * Metadata) * option (list byte))) := fun s w =>
  if hs_cancelled s then (Err (RpcErr.protocol_error (bs "next_with_token after cancel")), s, w) else
  match hs_pending s with
  | [item] => let s := after_turn [] (hs_token s) (hs_finished s) s in (Ok (Some (item, resume_token s)), s, w)
  | _ :: _ => (Err (RpcErr.protocol_error (bs "HTTP stream response contained more than one data batch")), s, w)
  | [] =>
    match hs_finished s, hs_token s with
    | true, _ | _, None => (Ok None, after_turn [] (hs_token s) true s, w)
    | false, Some token =>
      match (body ← continuation_body s token false None; continue_stream c s body true false) w with
      | (Ok p, w) =>
        match ps_batches p with
        | _ :: _ :: _ => (Err (RpcErr.protocol_error (bs "HTTP stream response contained more than one data batch")), s, w)
        | [item] => let s := after_turn [] (ps_token p) (hs_finished s) s in (Ok (Some (item, resume_token s)), s, w)
        | [] => (Ok None, after_turn [] (ps_token p) true s, w)
        end
      | (Err e, w) => (Err e, s, w)
      | (Panic, w) => (Panic, s, w)
      end
    end
  end.

Definition http_exchange (c : HttpClient) (input : RecordBatch) (metadata : option Metadata) : Step (option (RecordBatch * Metadata)) := fun s w =>
  if hs_cancelled s then (Err (RpcErr.protocol_error (bs "exchange after cancel")), s, w) else
  match hs_token s with
  | None => (Err (RpcErr.protocol_error (bs "exchange without a stream token")), s, w)
  | Some token =>
    match (body ← lift (to_bytes_one input (with_call_token s (<[STATE_KEY := token]> (default ∅ metadata))));
           continue_stream c s body false true) w with
    | (Ok p, w) => (Ok (head (ps_batches p)), after_turn (hs_pending s) (ps_token p) (hs_finished s) s, w)
    | (Err e, w) => (Err e, s, w)
    | (Panic, w) => (Panic, s, w)
    end
  end.

Definition http_cancel (c : HttpClient) : Step unit := fun s w =>
  let ended := mkHttpSession (hs_route s) (hs_header s) (hs_pending s) (hs_token s) (hs_call_token s) true true in
  if hs_cancelled s then (Ok tt, s, w) else
  match hs_token s with
  | None => (Ok tt, ended, w)
  | Some token =>
    match continuation_body s token true None w with
    | (Ok body, w) =>
      match post depth c (hs_route s ++ bs "/exchange") body false w with
      | (Panic, w) => (Panic, s, w)
      | (_, w) => (Ok tt, ended, w)
      end
    | (Err e, w) => (Err e, s, w)
    | (Panic, w) => (Panic, s, w)
    end
  end.

(** ** Sticky sessions *)
Definition begin_session (token : option (list byte)) (w : HW) : HW :=
  set_session (Some (session_begin token))
    (match hw_session w with Some prev => set_stack (prev :: session_stack w) w | None => w end).

Definition detach_session (w : HW) : option (list byte) * HW :=
  match hw_session w with
  | Some s => (ses_token s, set_session (Some (mkSessionState (ses_token s) (ses_echo s) true)) w)
  | None => (None, w)
  end.

Definition end_session (c : HttpClient) (w : HW) : HW :=
  let w := match hw_session w with
           | Some (mkSessionState (Some tok) _ false) =>
             (backend_execute c (bs "DELETE") (hc_target c SESSION_ENDPOINT) (insert_text Headers.SESSION_HEADER tok (hc_headers c)) [] w).2
           | _ => w
           end in
  match session_stack w with
  | s :: rest => set_stack rest (set_session (Some s) w)
  | [] => set_session None w
  end.
End HttpClientOps.
