(* ===== verification/ClientHttpProps.v ===== *)
(** * The HTTP client's promises

    What the client accepts of a response, its resume tokens, and what it makes of the
    frames of an answer. *)

From S2P Require Import Prelude Bytes Metadata F64 Json ErrorModel Errors Crypto ShmAllocator Ipc IpcProps IpcWriter IpcWriterProps IpcStream Arrow ArrowType External ExternalProps ShmBatch ShmBatchProps.
From S2P Require Import Dispatch Envelope EnvelopeProps Stream Serve ServeProps ServeConn Client ClientProps HttpBase HttpBaseProps PeerIdentity TokenIdentity HttpContracts ClientHttp.

#[local] Open Scope Z_scope.

(** ** Limits *)
Lemma min_some_le os m : min_some os = Some m → ∀ n, Some n ∈ os → m ≤ n.
Proof.
  revert m. induction os as [|o os IH]; intros m E n Hn; [by apply not_elem_of_nil in Hn|]. cbn [min_some foldr] in E.
  change (foldr _ None os) with (min_some os) in E.
  apply elem_of_cons in Hn as [<-|Hn]; destruct (min_some os) as [k|] eqn:Ek; simplify_eq; try lia.
  - destruct o as [a|]; simplify_eq; pose proof (IH _ eq_refl n Hn); lia.
  - exfalso. clear -Ek Hn. induction os as [|[a|] os IH]; [by apply not_elem_of_nil in Hn| |].
    + cbn [min_some foldr] in Ek. by destruct (foldr _ _ _).
    + apply elem_of_cons in Hn as [?|Hn]; [done|]. by apply IH.
Qed.

Lemma read_bounded_le max over reads : ∀ out l, read_bounded max over out reads = Ok l → zlen l ≤ Z.max (zlen out) max.
Proof.
  induction reads as [|[[|b c]|] reads IH]; intros out l E; cbn [read_bounded] in E; simplify_eq; try lia.
  destruct (Z.ltb_spec max (zlen out + zlen (b :: c))) as [|Hm]; [done|]. apply IH in E. rewrite zlen_app in E. lia.
Qed.

(** A body within the limit is read whole. *)
Lemma read_bounded_chunks max over chunks : ∀ out,
  Forall (fun c => c ≠ []) chunks → zlen out + zlen (concat chunks) ≤ max →
  read_bounded max over out (Some <$> chunks) = Ok (out ++ concat chunks).
Proof.
  induction chunks as [|c chunks IH]; intros out Hc Hl; cbn [fmap list_fmap read_bounded concat]; [by rewrite app_nil_r|].
  apply list.Forall_cons in Hc as [Hne Hc]. destruct c as [|b c]; [done|]. cbn [concat] in Hl. rewrite zlen_app in Hl.
  pose proof (zlen_nonneg (concat chunks)). rewrite (proj2 (Z.ltb_ge _ _)) by lia.
  rewrite IH; [by rewrite <- app_assoc|done|]. rewrite zlen_app. lia.
Qed.

Lemma cursor_reads_chunks fuel : ∀ raw, (length raw ≤ fuel)%nat →
  ∃ chunks, cursor_reads fuel raw = Some <$> chunks ∧ Forall (fun c => c ≠ []) chunks ∧ concat chunks = raw.
Proof.
  induction fuel as [|fuel IH]; intros [|b raw] Hf; try (by exists []); [simpl in Hf; lia|]. cbn [cursor_reads].
  destruct (IH (zdrop (64 * 1024) (b :: raw))) as (chunks & E & Hne & Hc).
  { unfold zdrop. rewrite length_drop. cbn [length] in *. lia. }
  exists (ztake (64 * 1024) (b :: raw) :: chunks). rewrite E. split_and!; [done|by constructor|].
  cbn [concat]. rewrite Hc. apply ztake_zdrop.
Qed.

Lemma read_cursor max over raw : zlen raw ≤ max → read_bounded max over [] (cursor_reads (length raw) raw) = Ok raw.
Proof.
  intros Hl. destruct (cursor_reads_chunks (length raw) raw) as (chunks & -> & Hne & <-); [done|]. by apply read_bounded_chunks.
Qed.

Lemma read_bounded_as_decoder max over coding reads : ∀ out l,
  decode_bounded max coding out reads = Ok l → read_bounded max over out reads = Ok l.
Proof.
  induction reads as [|[[|b c]|] reads IH]; intros out l E; cbn [decode_bounded read_bounded] in *; [done..| |done].
  apply bind_Ok in E as (n & Hn & E). unfold uadd in Hn. destruct (_ <=? u64_max); [|done]. injection Hn as <-.
  destruct (max <? _); [done|by apply IH].
Qed.

Section Limits.
Context `{HttpLib, !External.Zstd, !ContentCodecs} {X : Type} `{!HttpExecutor X}.

Lemma decode_response_le coding limit raw l : decode_response coding limit raw = Ok l → zlen l ≤ Z.max 0 limit.
Proof.
  unfold decode_response. case_bool_decide; [|case_bool_decide].
  - cbv zeta. repeat case_match; try done. intros E. by apply read_bounded_le in E.
  - intros E. by apply read_bounded_le in E.
  - destruct (Z.ltb_spec limit (zlen raw)); [done|]. intros [= <-]. lia.
Qed.

(** What the server's coding of an answer is to the client. *)
Lemma client_decodes e limit raw l :
  decode_content_encoding raw (Some (encoding_as_str e)) (Some limit) = Ok l → zlen l ≤ limit →
  decode_response (Some (encoding_as_str e)) limit raw = Ok l.
Proof.
  unfold decode_content_encoding, decode_response. rewrite bool_decide_eq_false_2 by by destruct e.
  assert (content_codings (encoding_as_str e) = [encoding_as_str e]) as -> by by destruct e.
  change (MAX_CONTENT_CODINGS <? zlen [encoding_as_str e]) with false. cbn [rev app try_fold default id].
  intros E Hl. apply bind_Ok in E as (x & E & [= ->]). unfold decode_coding in E. cbv zeta in *. destruct e; cbn [encoding_as_str] in *.
  - rewrite !(bool_decide_eq_false_2 (bs "identity" = _)) in E by done. injection E as ->.
    rewrite !bool_decide_eq_false_2 by done. by rewrite (proj2 (Z.ltb_ge _ _)) by lia.
  - rewrite bool_decide_eq_true_2 in E by done. rewrite bool_decide_eq_true_2 by done.
    destruct (negb _); [done|]. destruct (negb _); [done|]. by eapply read_bounded_as_decoder.
  - rewrite bool_decide_eq_false_2, bool_decide_eq_true_2 in E by done. rewrite bool_decide_eq_false_2, bool_decide_eq_true_2 by done.
    by eapply read_bounded_as_decoder.
Qed.
End Limits.

(** ** Resume tokens *)

(** What a token must be to travel: text whose length fits, with no separator where it
    travels bare, and a call token that is a text of at least a byte. *)
Definition portable (cursor : list byte) (call : option (list byte)) : Prop :=
  match call with
  | None => x3a ∉ cursor
  | Some call => zlen cursor ≤ usize_max ∧ ∃ b rest, call = b :: rest ∧ utf8_cont b = false
  end.

Lemma colon_not_digits n : 0 ≤ n → x3a ∉ dec_unsigned n.
Proof. intros Hn Hin. pose proof (dec_unsigned_digits n Hn) as Hd. eapply list.Forall_forall in Hd; [|done]. done. Qed.

Lemma split_once_none c l : c ∉ l → split_once c l = None.
Proof.
  induction l as [|b l IH]; intros Hn; [done|]. cbn [split_once]. apply not_elem_of_cons in Hn as [Hb Hn].
  rewrite decide_False by done. by rewrite IH.
Qed.

Lemma unpack_pack cursor call : portable cursor call → unpack_resume_token (pack_resume_token cursor call) = (cursor, call).
Proof.
  unfold unpack_resume_token, pack_resume_token. destruct call as [call|]; cbn [portable].
  - intros (Hl & b & rest & -> & Hb). pose proof (zlen_nonneg cursor). rewrite split_once_app by by apply colon_not_digits.
    rewrite parse_dec_unsigned by done. rewrite zlen_app. destruct (Z.ltb_spec (zlen cursor + zlen (b :: rest)) (zlen cursor)) as [?|_].
    { pose proof (zlen_nonneg (b :: rest)). lia. }
    assert (is_char_boundary (cursor ++ b :: rest) (zlen cursor) = true) as ->.
    { unfold is_char_boundary. rewrite znth_app_r by lia. rewrite Z.sub_diag. change (znth (b :: rest) 0) with (Some b). cbn match. rewrite Hb. by rewrite !orb_true_r. }
    cbn [negb orb]. by rewrite ztake_app_eq, zdrop_app_eq.
  - intros Hn. by rewrite split_once_none.
Qed.

(** ** What the client keeps of a response *)
Section Client.
Context `{LS : ArrowShmLaws} `{JL : JsonLaws} `{!Aead, !External.Zstd, !ExternalProps.ZstdLaws, !UrlLib, !HttpLib, !HttpLibLaws}.
Context `{!ContentCodecs, !ContentCodecsLaws}.
Context {X Store : Type} `{!HttpExecutor X, !Fetcher Store}.
Context (relax_schema_nullability : ArrowSchema → ArrowSchema) (clock : Z → Z).
Abbreviation HW := (HttpClientWorld X Store).
Implicit Types (c : HttpClient) (w : HW).

(** The limits that a response was held to. *)
Definition within_limits c (caps : option HttpServerCapabilities) (h : HeaderMap) (l : list byte) : Prop :=
  zlen l ≤ hc_max_decoded c ∧ zlen l ≤ hc_accepted c ∧
  (∀ n, caps ≫= cap_max_response_bytes = Some n → zlen l ≤ Z.max 0 n) ∧
  (∀ n, parse_max_response_bytes h = Ok (Some n) → zlen l ≤ n) ∧
  has_single_response_budget_support h = true.

(** A client as [build] makes it. *)
Definition client_wf c : Prop := 0 ≤ hc_max_decoded c ∧ 0 ≤ hc_accepted c ∧ 0 ≤ hc_max_encoded c.

Lemma stated_nonneg h n : parse_max_response_bytes h = Ok (Some n) → MIN_ACCEPTED_MAX_RESPONSE_BYTES ≤ n ≤ MAX_SAFE_RESPONSE_BYTES.
Proof.
  unfold parse_max_response_bytes. destruct (hget_all _ h) as [|v [|]]; [done| |done].
  destruct (negb (value_is_text v)); [done|]. destruct (bool_decide (v = []) || _ || _); [done|]. intros E.
  apply bind_Ok in E as (m & _ & E). destruct (_ && _) eqn:Hb; [|done]. injection E as <-.
  by apply andb_true_iff in Hb as [?%Z.leb_le ?%Z.leb_le].
Qed.

Lemma decoded_limit_le c caps stated :
  let limit := decoded_limit c caps stated in
  limit ≤ hc_max_decoded c ∧ limit ≤ hc_accepted c ∧
  (∀ n, caps ≫= cap_max_response_bytes = Some n → limit ≤ n) ∧ (∀ n, stated = Some n → limit ≤ n).
Proof.
  unfold decoded_limit. cbv zeta. set (os := [_; _; _; _]). destruct (min_some os) as [m|] eqn:E.
  - assert (∀ n, Some n ∈ os → m ≤ n) as Hle by by apply min_some_le. cbn [default id].
    split_and!; try (apply Hle; unfold os; rewrite !elem_of_cons; auto).
    + intros n Hn. apply Hle. unfold os. rewrite !elem_of_cons. rewrite <- Hn. auto.
    + intros n Hn. apply Hle. unfold os. rewrite !elem_of_cons. rewrite <- Hn. auto 6.
  - cbn [min_some foldr os] in E. by destruct (match caps ≫= _ with Some _ => _ | None => _ end).
Qed.

Lemma accept_response_limits c caps r got :
  client_wf c → accept_response c caps r = Ok got → within_limits c caps got.1.1 got.1.2 ∧ got.1.1 = be_headers r.
Proof.
  intros (Hd & Ha & _). unfold accept_response. cbv zeta. destruct (has_single_response_budget_support _) eqn:Hs; [|done]. cbn [negb].
  intros E. apply bind_Ok in E as (stated & Es & E). apply bind_Ok in E as (raw & _ & E). apply bind_Ok in E as (body & Eb & [= <-]).
  cbn [fst snd]. split; [|done]. destruct (decoded_limit_le c caps stated) as (H1' & H2' & H3' & H4').
  apply decode_response_le in Eb. split_and!; [lia|lia| | |done].
  - intros n Hn. specialize (H3' n Hn). lia.
  - intros n Hn. rewrite Es in Hn. injection Hn as ->. specialize (H4' n eq_refl).
    apply stated_nonneg in Es. unfold MIN_ACCEPTED_MAX_RESPONSE_BYTES in Es. lia.
Qed.

(** [got] is what the client made of the answer to the last request that its executor
    ran, to the given URL: its status, its headers, and its body decoded within the limits. *)
Definition answered_within c target (got : HeaderMap * list byte * Z) w : Prop :=
  ∃ rq x resp caps n, execute rq x = (inl resp, hw_exec w) ∧ hq_url rq = target ∧
    convert_executor_response (ex_status resp) (ex_headers resp) = Ok (got.2, got.1.1) ∧
    accept_response c caps (mkBackend got.2 got.1.1 n (cursor_reads (length (ex_body resp)) (ex_body resp))) = Ok got ∧
    within_limits c caps got.1.1 got.1.2.

Lemma backend_execute_answer c method target h body w r w' :
  backend_execute c method target h body w = (inl r, w') →
  ∃ rq resp n, execute rq (hw_exec w) = (inl resp, hw_exec w') ∧ hq_url rq = target ∧
    convert_executor_response (ex_status resp) (ex_headers resp) = Ok (be_status r, be_headers r) ∧
    r = mkBackend (be_status r) (be_headers r) n (cursor_reads (length (ex_body resp)) (ex_body resp)).
Proof.
  unfold backend_execute. set (rq := mkHttpRequest _ _ _ _ _ _). destruct (execute rq (hw_exec w)) as [[resp|e] x] eqn:Ex; [|done].
  destruct (convert_executor_response _ _) as [[status hd]|e|] eqn:Ec; cbn [mbind res_bind]; [|done..].
  destruct (if transparent_decompression exec_caps then _ else _) as [n|e|]; cbn [mbind res_bind]; [|done..].
  intros [= <- <-]. by exists rq, resp, n.
Qed.

Lemma send_attempts_answered n c target h payload : ∀ last w got w',
  client_wf c → send_attempts n c target h payload last w = (Ok got, w') → answered_within c target got w'.
Proof.
  induction n as [|n IH]; intros last w got w' Hw E; [done|]. cbn [send_attempts] in E.
  destruct (backend_execute c (bs "POST") target h payload w) as [[r|[e safe]] w1] eqn:Eb.
  - injection E as E <-. apply backend_execute_answer in Eb as (rq & resp & m & Ex & Hu & Hc & Hr).
    pose proof E as Ea. apply accept_response_limits in E as [E Eh]; [|done]. exists rq, (hw_exec w), resp, (hw_caps w1), m.
    assert (got.2 = be_status r) as Es.
    { unfold accept_response in Ea. cbv zeta in Ea. destruct (negb _); [done|]. apply bind_Ok in Ea as (? & _ & Ea).
      apply bind_Ok in Ea as (? & _ & Ea). by apply bind_Ok in Ea as (? & _ & [= <-]). }
    rewrite Es, Eh, <- Hr. by rewrite Eh in E.
  - destruct safe; [|done]. by apply IH in E.
Qed.

Lemma send_answered c path body retryable w got w' :
  client_wf c → send c path body retryable w = (Ok got, w') → answered_within c (hc_target c path) got w'.
Proof.
  intros Hw. unfold send. destruct (encode_request c w body) as [[payload coding]|?|]; [|done..]. by apply send_attempts_answered.
Qed.

(** What learns from an answer does not ask the executor. *)
Lemma refresh_exec (h : HeaderMap) w u w' : refresh_supported_encodings h w = (Ok u, w') → hw_exec w' = hw_exec w.
Proof. unfold refresh_supported_encodings, st_set. intros [= _ <-]. by destruct (parse_supported_encodings h). Qed.

Lemma learn_exec c h w u w' : learn_capabilities c h w = (Ok u, w') → hw_exec w' = hw_exec w.
Proof.
  unfold learn_capabilities. case_match; [|by intros [= _ <-]].
  intros E. apply st_bind_Ok in E as (n & w1 & E1 & E). apply lift_Ok in E1 as [_ ->]. by injection E as _ <-.
Qed.

Lemma process_exec h w u w' : process_session_headers h w = (Ok u, w') → hw_exec w' = hw_exec w.
Proof. unfold process_session_headers, st_set. intros [= _ <-]. by destruct (hw_session w). Qed.

Context `{!ArrowSchemas} `{!ArrowValues Array}.

(** C10. Whatever the executor, the server behind it and the storage do, a body that the
    client hands to a reader is what it decoded, by its own rules, from the answer of the
    executor to a request to the call's URL, the last it ran; and it is no longer than the configured decoded limit, than what the client said
    it accepts, and than what the headers of that answer state; a coding cannot expand
    past them, and neither the retries, the fallback without a coding nor the
    externalized request escapes them. *)
Theorem response_bounded fuel c path body retryable w l w' :
  client_wf c → post clock fuel c path body retryable w = (Ok l, w') →
  ∃ rq x resp h status caps n,
    execute rq x = (inl resp, hw_exec w') ∧ hq_url rq = hc_target c path ∧
    convert_executor_response (ex_status resp) (ex_headers resp) = Ok (status, h) ∧
    accept_response c caps (mkBackend status h n (cursor_reads (length (ex_body resp)) (ex_body resp))) = Ok (h, l, status) ∧
    zlen l ≤ hc_max_decoded c ∧ zlen l ≤ hc_accepted c ∧
    (∀ n, parse_max_response_bytes h = Ok (Some n) → zlen l ≤ n).
Proof.
  intros Hw. destruct fuel as [|fuel]; [done|]. cbn [post]. intros E.
  apply st_bind_Ok in E as (_ & w1 & _ & E). apply st_bind_Ok in E as (body' & w2 & _ & E).
  apply st_bind_Ok in E as (got & w3 & Es & E). apply send_answered in Es; [|done].
  apply st_bind_Ok in E as (u4 & w4 & El%learn_exec & E). apply st_bind_Ok in E as (u5 & w5 & Er%refresh_exec & E).
  apply st_bind_Ok in E as (got1 & w6 & E1 & E). apply st_bind_Ok in E as (got2 & w7 & E2 & E).
  assert (answered_within c (hc_target c path) got1 w6) as Hg1.
  { unfold without_coding in E1. apply st_bind_Ok in E1 as (b & w8 & Eb & E1). injection Eb as _ <-.
    destruct (_ && b); [|injection E1 as <- <-; unfold answered_within; by rewrite Er, El].
    apply st_bind_Ok in E1 as (_ & w9 & _ & E1). apply st_bind_Ok in E1 as (_ & w10 & _ & E1). by apply send_answered in E1. }
  assert (answered_within c (hc_target c path) got2 w7) as Hg2.
  { unfold by_pointer in E2. destruct (got1.2 =? 413); [|by injection E2 as <- <-].
    apply st_bind_Ok in E2 as (p & w8 & _ & E2). by apply send_answered in E2. }
  unfold finish_post in E. destruct got2 as [[h l'] status]. destruct (status =? 401); [done|]. destruct (_ && _); [done|].
  apply st_bind_Ok in E as (u8 & w8 & Ep%process_exec & E). injection E as <- <-.
  destruct Hg2 as (rq & x & resp & caps & n & Hx & Hu & Hc & Hb & (Hd & Ha & _ & Hst & _)).
  exists rq, x, resp, h, status, caps, n. rewrite Ep. by split_and!.
Qed.

(** ** Sessions resumed elsewhere *)
Context (depth : nat).
Abbreviation Step A := (HttpStreamSession → HW → res RpcError A * HttpStreamSession * HW).

(** The header is given once, by the call that opened the stream. *)
Definition without_header (s : HttpStreamSession) : HttpStreamSession :=
  mkHttpSession (hs_route s) None (hs_pending s) (hs_token s) (hs_call_token s) (hs_finished s) (hs_cancelled s).

(** The step [step] does the same from [s] less its header as from [s]. *)
Definition header_blind {A} (step : Step A) : Prop := ∀ s w,
  step (without_header s) w = let '(r, s', w') := step s w in (r, without_header s', w').

Lemma without_header_after pending token finished s :
  after_turn pending token finished (without_header s) = without_header (after_turn pending token finished s).
Proof. done. Qed.

(** Evaluates the one exchange of a step, which is the same with and without the header. *)
Ltac same_exchange :=
  unfold continue_stream, continuation_body, with_call_token; cbn [hs_route hs_call_token without_header];
  match goal with |- context [match ?m with pair _ _ => _ end] => destruct m as [[p|?|] w1] end; [|done..].

Lemma tick_blind turns c md : header_blind (http_tick relax_schema_nullability clock depth turns c md).
Proof.
  intros s w. unfold http_tick. change (hs_cancelled (without_header s)) with (hs_cancelled s). destruct (hs_cancelled s); [done|].
  revert s w. induction turns as [|turns IH]; intros s w; cbn [tick_loop].
  all: change (hs_pending (without_header s)) with (hs_pending s); change (hs_finished (without_header s)) with (hs_finished s).
  all: change (hs_token (without_header s)) with (hs_token s); destruct (hs_pending s); [|done].
  { by destruct (hs_finished s), (hs_token s). }
  destruct (hs_finished s); [done|]. destruct (hs_token s) as [token|]; [|done]. same_exchange. rewrite without_header_after. apply IH.
Qed.

Lemma next_blind c : header_blind (next_with_token relax_schema_nullability clock depth c).
Proof.
  intros s w. unfold next_with_token. change (hs_cancelled (without_header s)) with (hs_cancelled s). destruct (hs_cancelled s); [done|].
  change (hs_pending (without_header s)) with (hs_pending s). destruct (hs_pending s) as [|item [|]]; [|done..].
  change (hs_finished (without_header s)) with (hs_finished s). change (hs_token (without_header s)) with (hs_token s).
  destruct (hs_finished s); [done|]. destruct (hs_token s) as [token|]; [|done].
  same_exchange. by destruct (ps_batches p) as [|? [|]].
Qed.

Lemma exchange_blind c input md : header_blind (http_exchange relax_schema_nullability clock depth c input md).
Proof.
  intros s w. unfold http_exchange. change (hs_cancelled (without_header s)) with (hs_cancelled s). destruct (hs_cancelled s); [done|].
  change (hs_token (without_header s)) with (hs_token s). destruct (hs_token s) as [token|]; [|done].
  by same_exchange.
Qed.

(** A session that is finished holds no token, as [open_stream] makes it. *)
Definition session_ok (s : HttpStreamSession) : Prop := hs_finished s = true → hs_token s = None.

(** The session that gave a token with a batch has nothing else to give. *)
Lemma next_with_token_blob c s w item blob s1 w1 :
  session_ok s → next_with_token relax_schema_nullability clock depth c s w = (Ok (Some (item, Some blob)), s1, w1) →
  ∃ cursor, hs_token s1 = Some cursor ∧ blob = pack_resume_token cursor (hs_call_token s1) ∧
    hs_pending s1 = [] ∧ hs_finished s1 = false ∧ hs_cancelled s1 = false ∧ hs_route s1 = hs_route s.
Proof.
  intros Hok. unfold next_with_token. destruct (hs_cancelled s) eqn:Hc; [done|]. destruct (hs_pending s) as [|item' [|]]; [| |done].
  - destruct (hs_finished s) eqn:Hf; [done|]. destruct (hs_token s) as [token|]; [|done].
    match goal with |- context [match ?m with pair _ _ => _ end] => destruct m as [[p|?|] w2] end; [|done..].
    destruct (ps_batches p) as [|item' [|]]; [done| |done]. unfold resume_token, after_turn. cbn.
    destruct (ps_token p) as [cursor|]; cbn; [|done]. intros [= <- <- <- <-]. exists cursor. by rewrite ?Hf, ?Hc.
  - unfold resume_token, after_turn. cbn. destruct (hs_token s) as [cursor|] eqn:Ht; cbn; [|done].
    intros [= <- <- <- <-]. exists cursor. cbn. split_and!; try done. destruct (hs_finished s) eqn:Hf; [|done]. by rewrite Hok in Ht.
Qed.

(** C11. The token that [next_with_token] gives with a batch resumes the stream right after
    that batch, on any client bound to the same protocol and in any state of the world:
    [resume_stream] makes of it the session that gave it, less the stream's header, and
    [seek_to_token] does so of any session on the route; every later step, a tick, an
    exchange or the next batch with its token, answers and leaves the world as it would
    have on the session itself. *)
Theorem resume_anywhere c c' method s w item blob s1 w1 :
  session_ok s → next_with_token relax_schema_nullability clock depth c s w = (Ok (Some (item, Some blob)), s1, w1) →
  (∀ cursor, hs_token s1 = Some cursor → portable cursor (hs_call_token s1)) → hc_route c' method = hs_route s →
  let s' := resume_stream c' method blob in
  s' = without_header s1 ∧
  (∀ s0, hs_route s0 = hs_route s → hs_cancelled s0 = false → without_header (seek_to_token blob s0) = s') ∧
  ∀ w', let after {A} (step : Step A) := let '(r, s2, w2) := step s1 w' in (r, without_header s2, w2) in
    next_with_token relax_schema_nullability clock depth c s' w' = after (next_with_token relax_schema_nullability clock depth c) ∧
    (∀ turns md, http_tick relax_schema_nullability clock depth turns c md s' w' = after (http_tick relax_schema_nullability clock depth turns c md)) ∧
    (∀ input md, http_exchange relax_schema_nullability clock depth c input md s' w' =
       after (http_exchange relax_schema_nullability clock depth c input md)).
Proof.
  intros Hok E Hport Hroute. cbv zeta.
  destruct (next_with_token_blob _ _ _ _ _ _ _ Hok E) as (cursor & Et & -> & Ep & Ef & Ec & Er).
  assert (resume_stream c' method (pack_resume_token cursor (hs_call_token s1)) = without_header s1) as Hs.
  { unfold resume_stream. rewrite (unpack_pack _ _ (Hport _ Et)), Hroute, <- Er. unfold without_header. by rewrite Et, Ep, Ef, Ec. }
  split_and!; [done| |].
  - intros s0 Hr0 Hc0. rewrite Hs. unfold seek_to_token. rewrite (unpack_pack _ _ (Hport _ Et)). unfold without_header. cbn.
    by rewrite Et, Ep, Ef, Ec, Hr0, Hc0, Er.
  - intros w'. rewrite Hs. split_and!; [apply next_blind|intros; apply tick_blind|intros; apply exchange_blind].
Qed.
End Client.
