(* ===== verification/HttpCall.v ===== *)
(** * A call over HTTP, there and back

    What the HTTP client makes of the frames and the headers of an answer, and a unary
    call from the client through the site and back. *)

From S2P Require Import Prelude Bytes Metadata F64 Json ErrorModel Errors Crypto ShmAllocator Ipc IpcProps IpcWriter IpcWriterProps IpcStream Arrow ArrowType External ExternalProps ShmBatch ShmBatchProps.
From S2P Require Import Auth StreamTokens StreamTokensProps Dispatch DispatchProps Envelope EnvelopeProps Stream Serve ServeProps ServeConn Client ClientProps HttpBase HttpBaseProps PeerIdentity TokenIdentity.
From S2P Require Import HttpAuth Http HttpProps HttpTurns HttpSite HttpSiteProps HttpRoutes HttpContracts ClientHttp ClientHttpProps.

#[local] Open Scope Z_scope.

(** ** Frames of an answer *)
Section Frames.
Context `{LS : ArrowShmLaws} `{JL : JsonLaws} `{!Aead, !External.Zstd, !UrlLib, !HttpLib, !ContentCodecs}.
Context {X Store : Type} `{!HttpExecutor X, !Fetcher Store}.
Context (relax_schema_nullability : ArrowSchema → ArrowSchema).
Abbreviation HW := (HttpClientWorld X Store).
Implicit Types (c : HttpClient) (w : HW) (p : ParsedStream).

(** What the log callback is told. *)
Definition http_told c (logs : list LogMessage) : list LogMessage :=
  if hc_on_log c then (fun m => mkLogMessage (level m) (log_message m) (received_extras (extras m))) <$> logs else [].

Definition add_http_logs (l : list LogMessage) w : HW :=
  mkHW (hw_caps w) (send_compressed w) (hw_session w) (session_stack w) (hw_exec w) (hw_store w) (hw_fetch_ms w) (hw_logs w ++ l)
    (hw_drawn w).

Lemma add_http_logs_app l l' w : add_http_logs l' (add_http_logs l w) = add_http_logs (l ++ l') w.
Proof. unfold add_http_logs. simpl. by rewrite app_assoc. Qed.

Lemma add_no_logs w : add_http_logs [] w = w.
Proof. unfold add_http_logs. rewrite app_nil_r. by destruct w. Qed.

Lemma http_told_cons c m logs : http_told c [m] ++ http_told c logs = http_told c (m :: logs).
Proof. unfold http_told. by destruct (hc_on_log c). Qed.

Lemma tell_log_told c m w :
  tell_log c (mkLogMessage (level m) (log_message m) (received_extras (extras m))) w = (Ok tt, add_http_logs (http_told c [m]) w).
Proof. unfold tell_log, http_told. destruct (hc_on_log c); [done|]. by rewrite add_no_logs. Qed.

Lemma response_frames_logs c treat p sid rid E logs tail rest : ∀ fuel r w,
  num_rows E = 0 → Forall client_log_ok logs → at_items r (log_items sid rid E logs ++ tail) rest →
  (reader_size (sr_reader r) < fuel)%nat →
  ∃ fuel' r', at_items r' tail rest ∧ (reader_size (sr_reader r') < fuel')%nat ∧
    response_frames relax_schema_nullability fuel c treat r p w
    = response_frames relax_schema_nullability fuel' c treat r' p (add_http_logs (http_told c logs) w).
Proof.
  intros fuel r w HE Hl. revert fuel r w. induction Hl as [|m logs Hm Hl IH]; intros fuel r w Ha Hf.
  - exists fuel, r. split_and!; [done|done|]. assert (http_told c [] = []) as -> by (unfold http_told; by destruct (hc_on_log c)).
    by rewrite add_no_logs.
  - destruct (at_items_step _ _ _ _ _ Ha) as (r1 & E1 & Ha1 & Hs). destruct fuel as [|fuel]; [lia|].
    destruct (IH fuel r1 (add_http_logs (http_told c [m]) w)) as (f2 & r2 & Ha2 & Hs2 & E2); [done|lia|].
    exists f2, r2. split_and!; [done..|]. cbn [response_frames]. rewrite E1. unfold process_frame, process_frame_with.
    rewrite classify_log by done. unfold mbind, ST_bind. rewrite tell_log_told. cbn [mret ST_ret]. rewrite E2, add_http_logs_app, http_told_cons. done.
Qed.

(** What the client gets for the outcome of a handler. *)
Lemma read_unary_outcome c sid rid tb E s logs (o : res RpcError (option RecordBatch)) l w :
  hc_relax_nullability c = false → num_rows E = 0 → Forall client_log_ok logs → o ≠ Panic → (∀ e, o = Err e → error_text tb e = true) →
  wire_stream s (log_items sid rid E logs ++
    [match o with Err e => (E, build_error_metadata e sid rid tb) | Ok ob => (default E ob, ∅) | Panic => (E, ∅) end]) l →
  schema_readable s → zlen l ≤ u32_max →
  read_unary relax_schema_nullability c l w = (call_result E tb rid o, add_http_logs (http_told c logs) w).
Proof.
  intros Hr HE Hl Ho He Hw Hs Hz. destruct (wire_stream_open _ _ _ [Data l] [] Hw Hs Hz) as (sr & En & _ & Ha).
  { constructor; [|constructor]. by destruct Hw as (? & ? & (mb & ? & _ & _ & ->) & ->). }
  { simpl. by rewrite app_nil_r. }
  unfold read_unary, parse_response, mbind, ST_bind, lift. rewrite En, Hr. cbn [relaxed].
  edestruct (response_frames_logs c true parsed_new sid rid E logs) as (f & r & Ha1 & Hf & ->); [done|done|exact Ha|apply Nat.lt_succ_diag_r|].
  destruct o as [ob|e|]; [| |done]; (destruct (at_items_step _ _ _ _ _ Ha1) as (r1 & E1 & Ha2 & Hs1); destruct f as [|f]; [lia|];
    cbn [response_frames]; rewrite E1; unfold process_frame, process_frame_with).
  - rewrite classify_plain. cbn [mret ST_ret add_data take_tokens parsed_new]. destruct f as [|f]; [lia|]. cbn [response_frames].
    destruct (at_items_end _ _ Ha2) as (r2 & -> & _). rewrite !lookup_empty, !delete_empty. done.
  - rewrite error_envelope_roundtrip by auto. unfold lift. by destruct (drain_items _ _ _ Ha2) as (r2 & -> & _).
Qed.
End Frames.

(** ** One exchange *)
Section Exchange.
Context `{ArrowShm, !Json, !Aead, !External.Zstd, !ExternalProps.ZstdLaws, !UrlLib, !HttpLib, !HttpLibLaws, !ContentCodecs, !ContentCodecsLaws}.
Context {X Store : Type} `{!HttpExecutor X, !Fetcher Store} `{!ArrowSchemas} `{!ArrowValues Array}.
Context (clock : Z → Z).
Abbreviation HW := (HttpClientWorld X Store).
Implicit Types (c : HttpClient) (w : HW).

(** The executor hands over the answer that the server gave, with its length or without. *)
Definition delivered (r : ExecResponse) (a : HttpResponse) : Prop :=
  ex_body r = rbody a ∧ ∃ h, convert_executor_response (ex_status r) (ex_headers r) = Ok (rstatus a, h) ∧
    (∀ k, k ≠ Headers.CONTENT_LENGTH → hget_all k h = hget_all k (rheaders a)) ∧
    (parse_content_length h = Ok None ∨ parse_content_length h = Ok (Some (zlen (rbody a)))).

(** An answer with the body [l] that the client accepts; [stated]: the limit it states. *)
Record acceptable c (caps : option HttpServerCapabilities) (a : HttpResponse) (l : list byte) (stated : option Z) : Prop := {
  acc_support : hget_all Headers.ACCEPT_MAX_RESPONSE_BYTES_SUPPORT_HEADER (rheaders a) = [bs "true"];
  acc_stated : parse_max_response_bytes (rheaders a) = Ok stated;
  acc_fits : zlen l ≤ decoded_limit c caps stated;
  acc_encoded : zlen (rbody a) ≤ hc_max_encoded c;
  acc_coding : hget CONTENT_ENCODING (rheaders a) = None ∧ rbody a = l ∨
    ∃ e, hget CONTENT_ENCODING (rheaders a) = Some (encoding_as_str e) ∧
      decode_content_encoding (rbody a) (Some (encoding_as_str e)) (Some (decoded_limit c caps stated)) = Ok l
}.

(** A request that [maybe_externalize_request] leaves as it is. *)
Definition stays_inline (caps : HttpServerCapabilities) (body : list byte) : Prop :=
  ∀ max, cap_upload_url_support caps = true → cap_max_request_bytes caps = Some max → zlen body ≤ max.

(** A client that has discovered the server, outside a session. *)
Definition discovered c w (caps : HttpServerCapabilities) : Prop :=
  hw_caps w = Some caps ∧ first_response_request_limit c = None ∧ hw_session w = None ∧ transparent_decompression exec_caps = false.

Lemma encoding_trim e : to_ascii_lowercase <$> trim (encoding_as_str e) = encoding_as_str e.
Proof. by destruct e. Qed.

Lemma encoding_text e : value_is_text (encoding_as_str e) = true.
Proof. apply visible_text. by destruct e. Qed.

Lemma identity_decodes raw max l : decode_content_encoding raw (Some (encoding_as_str Identity)) max = Ok l → raw = l.
Proof. unfold decode_content_encoding. cbn. by intros [= ->]. Qed.

(** The body that the limits leave of the answer. *)
Lemma read_delivered (r : BackendResponse) max over n raw :
  be_length r = n → n = None ∨ n = Some (zlen raw) → be_body r = cursor_reads (length raw) raw → zlen raw ≤ max →
  read_bounded_response r max over = Ok raw.
Proof.
  intros E Hn Hb Hl. unfold read_bounded_response. rewrite E, Hb, read_cursor by done.
  destruct Hn as [->| ->]; [done|]. by rewrite (proj2 (Z.ltb_ge _ _)) by lia.
Qed.

Lemma accept_delivered c caps a l stated h n :
  transparent_decompression exec_caps = false → acceptable c caps a l stated →
  (∀ k, k ≠ Headers.CONTENT_LENGTH → hget_all k h = hget_all k (rheaders a)) → n = None ∨ n = Some (zlen (rbody a)) →
  accept_response c caps (mkBackend (rstatus a) h n (cursor_reads (length (rbody a)) (rbody a))) = Ok (h, l, rstatus a).
Proof.
  intros Ht [Hs Est Hl He Hc] Hh Hn. unfold accept_response. cbn [be_headers be_status]. cbv zeta.
  unfold has_single_response_budget_support. rewrite Hh, Hs by done. rewrite (proj1 (visible_text (bs "true") eq_refl)).
  rewrite bool_decide_eq_true_2 by done. cbn [negb andb].
  assert (parse_max_response_bytes h = Ok stated) as -> by (rewrite <- Est; unfold parse_max_response_bytes; by rewrite Hh).
  cbn [mbind res_bind].
  assert (get_text CONTENT_ENCODING h = get_text CONTENT_ENCODING (rheaders a)) as Hg.
  { unfold get_text. f_equal. unfold hget. by rewrite Hh. }
  unfold response_coding. rewrite Ht, Hg. unfold get_text.
  destruct Hc as [[-> Hb]|(e & -> & Hd)]; cbn [mbind option_bind fmap option_fmap option_map].
  - rewrite <- Hb in *. cbn [is_identity]. erewrite read_delivered; [|done..|cbv iota; lia]. cbn [mbind res_bind]. unfold decode_response.
    rewrite !bool_decide_eq_false_2 by done. by rewrite (proj2 (Z.ltb_ge _ _)).
  - rewrite encoding_text. cbn [fmap option_fmap option_map]. rewrite encoding_trim. cbn [is_identity]. case_bool_decide as Hi.
    + assert (e = Identity) as -> by by destruct e. apply identity_decodes in Hd as Hb.
      rewrite <- Hb in *. erewrite read_delivered; [|done..|cbv iota; cbn [is_identity]; rewrite ?bool_decide_eq_true_2 by done; lia]. cbn [mbind res_bind]. by rewrite (client_decodes _ _ _ _ Hd Hl).
    + erewrite read_delivered; [|done..|done]. cbn [mbind res_bind]. by rewrite (client_decodes _ _ _ _ Hd Hl).
Qed.

Lemma send_delivered c path body retryable w payload coding r x a l stated :
  transparent_decompression exec_caps = false → encode_request c w body = Ok (payload, coding) →
  execute (mkHttpRequest (bs "POST") (hc_target c path) (header_pairs (build_headers c (hw_session w) coding)) payload (default 0 (hc_timeout c)) true)
    (hw_exec w) = (inl r, x) →
  delivered r a → acceptable c (hw_caps w) a l stated →
  ∃ h, send c path body retryable w = (Ok (h, l, rstatus a), set_exec x w) ∧
    ∀ k, k ≠ Headers.CONTENT_LENGTH → hget_all k h = hget_all k (rheaders a).
Proof.
  intros Ht Ee Ex (Hb & h & Hconv & Hh & Hn) Ha. exists h. split; [|done]. unfold send. rewrite Ee.
  assert (∃ k, (if retryable then Z.to_nat (Z.max 1 (max_attempts (hc_retry c))) else 1%nat) = S k) as [k ->].
  { destruct retryable; [|by exists 0%nat]. exists (Z.to_nat (Z.max 1 (max_attempts (hc_retry c)) - 1)). lia. }
  cbn [send_attempts]. unfold backend_execute. rewrite Ex, Hconv. cbn [mbind res_bind]. rewrite Ht, Hb.
  destruct Hn as [->| ->]; cbn [mbind res_bind]; (rewrite (accept_delivered _ _ _ _ _ _ _ Ht Ha Hh); [done|auto]).
Qed.

(** What a call leaves of the client's world: the executor's state, and what the server
    told of its codings. *)
Definition after_call (x : X) w w' : Prop :=
  hw_exec w' = x ∧ hw_logs w' = hw_logs w ∧ hw_session w' = hw_session w ∧ session_stack w' = session_stack w ∧
  hw_store w' = hw_store w ∧ hw_drawn w' = hw_drawn w ∧
  ∃ codings, hw_caps w' = with_encodings codings <$> hw_caps w.

Lemma refresh_after h x w :
  ∃ w', refresh_supported_encodings h (set_exec x w) = (Ok tt, w') ∧ after_call x w w'.
Proof.
  unfold refresh_supported_encodings, st_set. destruct (parse_supported_encodings h) as [codings|].
  - eexists. split; [done|]. unfold after_call. split_and!; try done. by exists codings.
  - eexists. split; [done|]. unfold after_call. split_and!; try done. destruct (hw_caps w) as [caps|] eqn:E; [|by exists []].
    exists (supported_encodings caps). cbn. rewrite E. by destruct caps.
Qed.

(** What [post] does before it sends. *)
Lemma post_starts depth c caps body w :
  discovered c w caps → stays_inline caps body →
  check_first_request c body w = (Ok tt, w) ∧ maybe_externalize_request clock (post clock depth c) c body w = (Ok body, w).
Proof.
  intros (Hcaps & Hfirst & _) Hin. split.
  - unfold check_first_request, capabilities. rewrite Hfirst. unfold mbind, ST_bind, st_get. by rewrite Hcaps.
  - unfold maybe_externalize_request, mbind, ST_bind, st_get. rewrite Hcaps. cbn [option_bind].
    destruct (cap_upload_url_support caps) eqn:Hu; [|done]. destruct (cap_max_request_bytes caps) as [max|] eqn:Hm; [|done].
    by rewrite (proj2 (Z.ltb_ge _ _)) by by apply Hin.
Qed.

(** The request is sent once, inline, and its answer is the call's. *)
Lemma post_delivered depth c caps path body retryable w payload coding r x a l stated :
  discovered c w caps → stays_inline caps body → encode_request c w body = Ok (payload, coding) →
  execute (mkHttpRequest (bs "POST") (hc_target c path) (header_pairs (build_headers c None coding)) payload (default 0 (hc_timeout c)) true)
    (hw_exec w) = (inl r, x) →
  delivered r a → rstatus a = 200 → acceptable c (Some caps) a l stated →
  ∃ w', post clock (S depth) c path body retryable w = (Ok l, w') ∧ after_call x w w'.
Proof.
  intros Hdisc Hin Ee Ex Hd H200 Ha. destruct (post_starts depth c caps body w Hdisc Hin) as [E1 E2].
  destruct Hdisc as (Hcaps & Hfirst & Hses & Ht). rewrite <- Hses in Ex. rewrite <- Hcaps in Ha.
  destruct (send_delivered _ _ _ retryable _ _ _ _ _ _ _ _ Ht Ee Ex Hd Ha) as (h & Es & Hh).
  cbn [post]. unfold mbind, ST_bind. rewrite E1, E2.
  rewrite Es, H200. unfold learn_capabilities. rewrite Hfirst, bool_decide_eq_false_2 by by intros [].
  cbn [mret ST_ret fst snd]. destruct (refresh_after h x w) as (w' & -> & Haf). exists w'. split; [|done].
  unfold without_coding, by_pointer, finish_post, mbind, ST_bind, st_get. cbn [fst snd]. change (200 =? 415) with false. cbn [andb].
  cbn [mret ST_ret snd]. change (200 =? 413) with false. cbn [mret ST_ret]. change (200 =? 401) with false.
  change (is_success 200) with true. cbn [negb andb]. unfold process_session_headers, st_set.
  destruct Haf as (_ & _ & Hs' & _). by rewrite Hs', Hses.
Qed.

(** ** A server that takes no request *)

(** A 413 that states the budget it keeps, and nothing else. *)
Definition refusal : HttpResponse := mkHttpResponse 413 [(Headers.ACCEPT_MAX_RESPONSE_BYTES_SUPPORT_HEADER, bs "true")] [].

Definition frame_of (body : list byte) : Prop :=
  ∃ rdr b md rdr', stream_reader_new [Data body] = Ok rdr ∧ read_next rdr = Some (Ok (Some (b, md), rdr')).

(** The next requests for upload URLs can be written, and read back. *)
Definition upload_requests_ok c (drawn : Z) (depth : nat) : Prop := ∃ b,
  try_new upload_url_params_schema [array_from (KInt true 64) (TInt true 64) [1]] = Ok b ∧
  ∀ n, drawn ≤ n < drawn + Z.of_nat depth → ∃ body,
    to_bytes_one b (build_request_metadata UPLOAD_URL_METHOD (generate_request_id (clock n) n) (hc_protocol c) (hc_protocol_version c) None) = Ok body ∧
    frame_of body.

Lemma refusal_acceptable c caps : 0 ≤ decoded_limit c caps None → 0 ≤ hc_max_encoded c → acceptable c caps refusal [] None.
Proof. intros Hd He. constructor; try done. left. done. Qed.

(** C40. The answer 413 makes the client ask for an upload URL, by a request that is answered
    413 like any other: whatever stack there is, the call exhausts it. *)
Theorem refused_without_end c caps : ∀ depth path body retryable w,
  (∀ q x, ∃ r, execute q x = (inl r, x) ∧ delivered r refusal) →
  discovered c w caps → cap_upload_url_support caps = false → send_compressed w = false →
  0 ≤ decoded_limit c (Some caps) None → 0 ≤ hc_max_encoded c → frame_of body → upload_requests_ok c (hw_drawn w) depth →
  (post clock depth c path body retryable w).1 = Panic.
Proof.
  intros depth. induction depth as [|depth IH]; intros path body retryable w Hex Hd Hu Hz Hl He Hf Hup; [done|].
  pose proof Hd as (Hcaps & Hfirst & Hses & Ht). pose proof Hf as (rdr & b & md & rdr' & Er & En). pose proof Hup as (ub & Eub & Hub).
  assert (encode_request c w body = Ok (body, None)) as Ee by (unfold encode_request; by rewrite Hz).
  edestruct Hex as (r & Ex & Hr).
  destruct (send_delivered c path body retryable w body None r (hw_exec w) refusal [] None Ht Ee (Ex : execute _ _ = _) Hr) as (h & Es & Hh).
  { rewrite Hcaps. by apply refusal_acceptable. }
  destruct (post_starts depth c caps body w Hd) as [E1 E2]; [intros max; by rewrite Hu|].
  cbn [post]. unfold mbind, ST_bind. rewrite E1, E2, Es. unfold learn_capabilities. rewrite Hfirst, bool_decide_eq_false_2 by by intros [].
  cbn [mret ST_ret fst snd]. unfold refresh_supported_encodings, st_set, parse_supported_encodings, get_text, hget. rewrite Hh by done.
  change (hget_all Headers.SUPPORTED_ENCODINGS_HEADER (rheaders refusal)) with (@nil (list byte)). cbn [head mbind option_bind].
  unfold without_coding, by_pointer, mbind, ST_bind, st_get. cbn [fst snd]. change (rstatus refusal) with 413. change (413 =? 415) with false. cbn [andb mret ST_ret snd].
  change (413 =? 413) with true. unfold externalize_request_body, mbind, ST_bind, lift. rewrite Er, En. cbn [snd].
  unfold request_upload_urls, mbind, ST_bind, lift. rewrite Eub. unfold request_metadata, request_metadata_on, draw_id, mbind, ST_bind. cbn [mret ST_ret].
  destruct (Hub (hw_drawn w) ltac:(lia)) as (ubody & Ew & Hfr).
  set (w' := mkHW _ _ _ _ _ _ _ _ _).
  assert (to_bytes_one ub (build_request_metadata UPLOAD_URL_METHOD (generate_request_id (clock (hw_drawn (set_exec (hw_exec w) w))) (hw_drawn (set_exec (hw_exec w) w)))
    (hc_protocol c) (hc_protocol_version c) None) = Ok ubody) as -> by exact Ew.
  pose proof (IH (UPLOAD_URL_METHOD ++ bs "/init") ubody true w' Hex) as Hrec.
  destruct (post clock depth c _ ubody true w') as [r0 w0]. cbn [fst] in Hrec. rewrite Hrec; try done.
  exists ub. split; [done|]. intros k Hk. apply Hub. cbn [hw_drawn w' set_exec] in Hk. lia.
Qed.
End Exchange.

(** ** The headers of the site's answer, to the client *)
Section Answer.
Context `{ArrowShm, !Json, !Aead, !Base64, !StreamTokens.Zstd, !External.Zstd, !UrlLib, !HttpLib, !HttpLibLaws, !ContentCodecs}.
Context `{!ExternalProps.ZstdLaws, !ContentCodecsLaws} {App Sess St Store AS : Type} `{!ExternalStorage Store, !Fetcher Store}.
Context `{!HttpStreamState (App:=App) (Sess:=Sess) (St:=St)}.
Abbreviation Site := (HttpSite (App:=App) (Sess:=Sess) (St:=St) (Store:=Store) (AS:=AS)).
Abbreviation Builder := (HttpStateBuilder (App:=App) (Sess:=Sess) (St:=St) (Store:=Store) (AS:=AS)).

Lemma hget_cons k k' v (h : HeaderMap) : hget k ((k', v) :: h) = if decide (k' = k) then Some v else hget k h.
Proof. unfold hget, hget_all. cbn [List.filter fst]. by rewrite bool_decide_decide; destruct (decide (k' = k)). Qed.

Lemma hget_absent k (h : HeaderMap) : k ∉ h.*1 → hget k h = None.
Proof.
  induction h as [|[k' v] h IH]; intros Hk; [done|]. apply not_elem_of_cons in Hk as [Hne Hk]. rewrite hget_cons, decide_False by done. by apply IH.
Qed.

Lemma caps_all (l : HeaderMap) k : ∀ h, NoDup (l.*1) →
  hget_all k (foldl (fun out kv => hinsert kv.1 kv.2 out) h l) = match hget k l with Some v => [v] | None => hget_all k h end.
Proof.
  induction l as [|[k' v'] l IH]; intros h Hn; [done|]. apply list.NoDup_cons in Hn as [Hk Hn]. cbn [foldl fst snd].
  rewrite IH by done. rewrite hget_cons. destruct (decide (k' = k)) as [->|Hne].
  - by rewrite hget_absent, hget_all_hinsert.
  - destruct (hget k l); [done|]. by apply hget_all_hinsert_ne.
Qed.

Lemma cors_untold_all (site : Site) requested h k :
  k ∉ cors_names → hget_all k (attach_cors_headers site requested false h) = hget_all k h.
Proof.
  intros Hk. unfold cors_names in Hk. rewrite !not_elem_of_cons in Hk. destruct Hk as (? & ? & ? & ? & ? & ? & _).
  unfold attach_cors_headers. destruct (cors_allow_origin site); [|done]. cbv zeta.
  repeat (rewrite hget_all_hinsert_ne by done). destruct (has_authenticate site); by repeat (rewrite hget_all_hinsert_ne by done).
Qed.

(** A capability of the site is stated once, one it has not is not. *)
Lemma finish_all (site : Site) verb rid requested encoding a k :
  site_ok site → capability k = true → hget_all k (rheaders a) = [] →
  hget_all k (rheaders (finish_response site verb rid requested encoding a)) =
    match hget k (capability_headers site) with Some v => [v] | None => [] end.
Proof.
  intros [Hn _] Hk Hnone.
  assert (∀ m, capability m = false → k ≠ m) as Hne by (intros m; by apply capability_ne).
  unfold finish_response. cbv zeta. set (h := insert_text _ _ _).
  transitivity (hget_all k h).
  - unfold compress_body. repeat case_match; simplify_eq; try done; cbn [rheaders]; by rewrite hget_all_hinsert_ne by by apply Hne.
  - unfold h. rewrite hget_all_insert_text_ne by by apply Hne. unfold attach_capability_headers.
    assert (hget_all k (foldl (fun out kv => hinsert kv.1 kv.2 out) (attach_cors_headers site requested false (rheaders a)) (capability_headers site))
      = match hget k (capability_headers site) with Some v => [v] | None => [] end) as Hc.
    { rewrite caps_all by done. rewrite cors_untold_all by by apply capability_not_cors. by rewrite Hnone. }
    destruct (capability_has_any site && _); [rewrite hget_all_hinsert_ne by by apply Hne|]; exact Hc.
Qed.

(** What a site that was built says of the budgets it keeps. *)
Definition states_budget (site : Site) (stated : option Z) : Prop :=
  hget ACCEPT_MAX_RESPONSE_BYTES_SUPPORT_HEADER (capability_headers site) = Some (bs "true") ∧
  hget (bs "vgi-max-response-bytes") (capability_headers site) = dec_unsigned <$> stated ∧
  ∀ n, stated = Some n → MIN_RESPONSE_BYTES ≤ n ≤ MAX_SAFE_RESPONSE_BYTES.

Lemma built_states_budget (b : Builder) clock key (site : Site) server :
  http_build b clock key = Ok site → hb_server b = Some server →
  let i := capability_inputs b server (built_sticky b key (server_id server)) in
  limits_nonneg i → (∀ n, ci_max_response_bytes i = Some n → MIN_RESPONSE_BYTES ≤ n ≤ MAX_SAFE_RESPONSE_BYTES) →
  states_budget site (ci_max_response_bytes i).
Proof.
  intros E Hs i Hn Hr. apply build_ok in E as (server' & auth & Hs' & _ & _ & Hc & _). assert (server' = server) as -> by congruence.
  unfold states_budget. rewrite Hc. destruct (capability_budget i Hn) as [H1' H2']. done.
Qed.

Lemma parse_stated (h : HeaderMap) n :
  hget_all (bs "vgi-max-response-bytes") h = [dec_unsigned n] → MIN_RESPONSE_BYTES ≤ n ≤ MAX_SAFE_RESPONSE_BYTES →
  parse_max_response_bytes h = Ok (Some n).
Proof.
  intros Hh Hn. unfold parse_max_response_bytes. change Headers.MAX_RESPONSE_BYTES_HEADER with (bs "vgi-max-response-bytes"). rewrite Hh.
  assert (0 < n ≤ u64_max) as Hp by (split; [|transitivity MAX_SAFE_RESPONSE_BYTES; [lia|done]]; unfold MIN_RESPONSE_BYTES in Hn; lia).
  rewrite (proj1 (visible_text _ (digits_visible n ltac:(lia)))). cbn [negb].
  destruct (dec_unsigned_head n ltac:(lia)) as (b & l & Eb & Hb).
  assert (forallb is_ascii_digit (dec_unsigned n) = true) as ->.
  { apply forallb_forall. intros x Hx%list_elem_of_In. pose proof (dec_unsigned_digits n ltac:(lia)) as Hf.
    rewrite list.Forall_forall in Hf. by apply Hf. }
  rewrite parse_dec_unsigned by lia.
  assert (bool_decide (dec_unsigned n = []) || starts_with (bs "0") (dec_unsigned n) = false) as ->.
  { rewrite Eb. rewrite bool_decide_eq_false_2 by done. destruct b; done. }
  cbn [orb negb ok_or mbind res_bind]. unfold MIN_ACCEPTED_MAX_RESPONSE_BYTES, MIN_RESPONSE_BYTES in *.
  by rewrite (proj2 (Z.leb_le _ _)), (proj2 (Z.leb_le _ _)) by lia.
Qed.

#[local] Ltac not_cors := unfold cors_names; rewrite !not_elem_of_cons; split_and!; try done; apply not_elem_of_nil.

(** A handler's answer that only has the headers of an answer of items. *)
Lemma site_answer_acceptable c caps (site : Site) stated verb rid requested h a :
  site_ok site → states_budget site stated → plain_headers (rheaders a) → hget VGI_ACCEPT_ENCODING_HEADER h = None →
  zlen (rbody a) ≤ decoded_limit c caps stated ≤ u64_max → zlen (rbody a) ≤ hc_max_encoded c →
  (∀ l e, hs_level (site_state site) = Some l → window_fits e l (decoded_limit c caps stated)) →
  acceptable c caps (finish_response site verb rid requested (pick_response_encoding h (hs_level (site_state site))) a) (rbody a) stated.
Proof.
  intros Hs (Hb & Hr & Hrange) Hp Hv Hl He Hw. set (enc := pick_response_encoding h _). set (r := finish_response _ _ _ _ _ _).
  assert (∀ k, capability k = true → hget_all k (rheaders a) = [] → hget_all k (rheaders r) =
    match hget k (capability_headers site) with Some v => [v] | None => [] end) as Hall by (intros; by apply finish_all).
  assert (hget CONTENT_ENCODING (rheaders a) = None ∧ hget VGI_CONTENT_ENCODING_HEADER (rheaders a) = None) as [Hc1 Hc2].
  { split; apply (hget_of_all _ _ []); by apply Hp. }
  constructor.
  - change Headers.ACCEPT_MAX_RESPONSE_BYTES_SUPPORT_HEADER with ACCEPT_MAX_RESPONSE_BYTES_SUPPORT_HEADER.
    rewrite Hall; [by rewrite Hb|done|by apply Hp].
  - assert (hget_all (bs "vgi-max-response-bytes") (rheaders r) = match dec_unsigned <$> stated with Some v => [v] | None => [] end) as Hg.
    { rewrite Hall; [by rewrite Hr|done|by apply Hp]. }
    destruct stated as [n|]; [by apply parse_stated; [|apply Hrange]|]. unfold parse_max_response_bytes.
    change Headers.MAX_RESPONSE_BYTES_HEADER with (bs "vgi-max-response-bytes"). by rewrite Hg.
  - lia.
  - unfold r. destruct (finish_decodes site verb rid requested h a (decoded_limit c caps stated)) as [Hz _]; [done..|]. transitivity (zlen (rbody a)); [exact Hz|done].
  - unfold r, finish_response. cbv zeta. set (out := insert_text _ _ _).
    assert (∀ k, capability k = false → k ≠ CACHE_CONTROL → k ≠ REQUEST_ID_RESPONSE_HEADER → k ∉ cors_names → hget k out = hget k (rheaders a)) as Hout.
    { intros k ????. unfold out. by rewrite insert_text_ne, attach_untold, cors_untold by done. }
    destruct (compress_body _ _ _ out _) as [out' body'] eqn:E.
    destruct (compress_body_decodes h out (hs_level (site_state site)) (is_arrow_response a) (rbody a) out' body' (decoded_limit c caps stated)) as [_ Hbody];
      [by rewrite Hout by (done || not_cors)|by rewrite Hout by (done || not_cors)|lia|lia|done..|].
    cbn [rbody rheaders]. destruct Hbody as [[-> ->]|(e & custom & l & _ & _ & Hpick & _ & _ & _ & Hx & Hd)].
    + left. split; [|done]. by rewrite Hout by (done || not_cors).
    + right. apply pick_Some in Hpick as [_ Hcust]. unfold get_text in Hcust. rewrite Hv in Hcust. cbn in Hcust. subst custom.
      by exists e.
Qed.
End Answer.

(** ** A unary call, there and back *)
Section EndToEnd.
Context `{LS : ArrowShmLaws} `{JL : JsonLaws} `{!Aead, !AeadLaws, !Base64, !Base64Laws, !StreamTokens.Zstd, !StreamTokens.ZstdLaws}.
Context `{!External.Zstd, !ExternalProps.ZstdLaws, !UrlLib, !HttpLib, !HttpLibLaws, !ContentCodecs, !ContentCodecsLaws}.
Context {App Sess St Store AuS X CStore : Type} `{!ExternalStorage Store, !Fetcher Store}.
Context `{!HttpStreamState (App:=App) (Sess:=Sess) (St:=St)}.
Context `{!ArrowSchemas} `{!ArrowValues Array} `{!BoundedBody, !BoundedBodyLaws} `{!AxumRouter}.
Context `{!HttpExecutor X, !Fetcher CStore}.
Context (serve_reflection_logged : RpcServer (UnaryHandler (App:=HApp (App:=App) (Sess:=Sess)) (Conn:=HttpCtx)) (HttpStream (App:=App) (Sess:=Sess) (St:=St)) →
  Request → HttpCtx → HApp (App:=App) (Sess:=Sess) → res RpcError (list byte) * HApp (App:=App) (Sess:=Sess)).
Context (html bundle : list byte) (docs : list byte → option (list byte)).
Context (relax_schema_nullability : ArrowSchema → ArrowSchema) (clock : Z → Z).

Abbreviation Site := (HttpSite (App:=App) (Sess:=Sess) (St:=St) (Store:=Store) (AS:=AuS)).
Abbreviation World := (HWorld (App:=App) (Sess:=Sess) (Store:=Store) (AS:=AuS)).
Abbreviation CW := (HttpClientWorld X CStore).
Implicit Types (c : HttpClient).

(** The request as the server gets it: the executor keeps its verb, its body and the
    headers that tell of codings. *)
Definition carried (q : HttpRequest) (h : HeaderMap) (rq : Incoming) : Prop :=
  in_verb rq = hq_method q ∧ in_body rq = hq_body q ∧
  ∀ k, k ∈ [CONTENT_ENCODING; VGI_ACCEPT_ENCODING_HEADER] → hget k (in_headers rq) = hget k h.

(** The server decodes the body that the client encoded. *)
Lemma request_decodes c (w : CW) body payload coding (h : HeaderMap) limit :
  encode_request c w body = Ok (payload, coding) → hget CONTENT_ENCODING h = coding →
  zlen payload ≤ limit → zlen body ≤ limit → zlen body ≤ 2 ^ 31 → limit ≤ u64_max →
  maybe_decompress h payload limit = Ok body.
Proof.
  intros E Hh Hp Hb Hb' Hm. unfold maybe_decompress. rewrite (proj2 (Z.ltb_ge _ _)) by done. unfold get_text. rewrite Hh.
  unfold encode_request in E. destruct (_ && _); [|by injection E as <- <-].
  destruct (zstd_encoder_new _) eqn:Hn; [|done]. destruct (zstd_set_content_size _) eqn:Hs; [|done]. cbn [negb] in E.
  apply bind_Ok in E as (z & Ez & [= <- <-]). apply ok_or_Ok in Ez.
  cbn [mbind option_bind]. rewrite (proj1 (visible_text (bs "zstd") eq_refl)). unfold decode_content_encoding.
  rewrite bool_decide_eq_false_2 by done. cbn [default id]. change (content_codings (bs "zstd")) with [bs "zstd"].
  change (MAX_CONTENT_CODINGS <? zlen [bs "zstd"]) with false. cbn [rev app try_fold].
  set (level := default DEFAULT_COMPRESSION_LEVEL (hc_compression_level c)) in *.
  assert (External.compress body (CZstd level) = Ok z) as Hc.
  { unfold External.compress. by rewrite Hn, Hs, Ez. }
  pose proof (compress_decompress _ _ _ limit Hc Hb Hb' Hm) as Hd. unfold External.decompress in Hd. unfold decode_coding. cbv zeta in *.
  rewrite bool_decide_eq_true_2 by done. destruct (negb (zstd_decoder_new z)); [done|]. destruct (negb _); [done|].
  apply (decode_bounded_loop _ (bs "zstd")) in Hd. by rewrite Hd.
Qed.

(** The body of the request is what the client passed. *)
Lemma request_read params md body :
  to_bytes_one params md = Ok body → metadata_utf8 md → schema_readable (batch_schema params) → zlen body ≤ u32_max →
  read_single body = Ok (Some (params, md)).
Proof.
  intros E Hu Hs Hl. apply write_one_wire in E as Hw; [|apply fits_own|done]. cbn [default id] in Hw.
  destruct (wire_stream_open _ _ _ [Data body] [] Hw Hs Hl) as (sr & En & _ & Ha).
  { constructor; [|constructor]. by destruct Hw as (? & ? & (mb & ? & _ & _ & ->) & ->). }
  { simpl. by rewrite app_nil_r. }
  unfold read_single. rewrite En. cbn [mbind res_bind].
  destruct (at_items_next _ _ _ _ _ Ha) as (r' & -> & _ & Ha'). by destruct (drain_items _ _ _ Ha') as (r2 & -> & _).
Qed.

Lemma hm_bind_Ok {S A B} (m : HM S A) (f : A → HM S B) s b s' :
  (m ≫= f) s = (Ok b, s') → ∃ a s1, m s = (Ok a, s1) ∧ f a s1 = (Ok b, s').
Proof. unfold mbind, HM_bind. destruct (m s) as [[a|?|] s1]; [|done..]. eauto. Qed.

Lemma accept_body (st : HttpState (App:=App) (Sess:=Sess) (St:=St) (AS:=AuS)) e m h body (w : World) ad w1 :
  accept_request st e m h body w = (Ok ad, w1) → maybe_decompress h body (request_decode_limit (hs_limits st)) = Ok (ad_body ad).
Proof.
  unfold accept_request. intros E. apply hm_bind_Ok in E as (ri & w2 & _ & E). apply hm_bind_Ok in E as ([limit preferred] & w3 & _ & E).
  apply hm_bind_Ok in E as (_ & w4 & _ & E). apply hm_bind_Ok in E as (_ & w5 & _ & E). apply hm_bind_Ok in E as (b & w6 & Eb & E).
  injection E as <- _. cbn [ad_body]. unfold or_respond in Eb. destruct (maybe_decompress _ _ _) as [b'|er|]; [by injection Eb as -> _| |done].
  unfold respond in Eb. by destruct (request_decode_error st er).
Qed.

(** The headers that tell of codings, on a request without a session. *)
Lemma sent_codings c coding :
  hget CONTENT_ENCODING (hc_headers c) = None → hget VGI_ACCEPT_ENCODING_HEADER (hc_headers c) = None →
  transparent_decompression exec_caps = false → coding = None ∨ coding = Some (bs "zstd") →
  hget CONTENT_ENCODING (build_headers c None coding) = coding ∧ hget VGI_ACCEPT_ENCODING_HEADER (build_headers c None coding) = None.
Proof.
  intros Hc Hv Ht Hcod. unfold build_headers, accepted_header. destruct Hcod as [->| ->]; cbv zeta; rewrite ?Ht.
  - by repeat rewrite hget_hinsert_ne by done.
  - rewrite !hget_hinsert_ne by done. rewrite insert_visible by done. rewrite insert_text_ne by done.
    by repeat rewrite hget_hinsert_ne by done.
Qed.

Lemma encode_request_coding c (w : CW) body payload coding :
  encode_request c w body = Ok (payload, coding) → coding = None ∨ coding = Some (bs "zstd").
Proof.
  unfold encode_request. destruct (_ && _); [|intros [= <- <-]; by left]. repeat case_match; try done.
  intros E. apply bind_Ok in E as (z & _ & [= <- <-]). by right.
Qed.

(** The site's side of a call: its answer, before the middleware's own headers. *)
Lemma site_serves (site : Site) e random query rq (ws w1 : World) n path p m ad b md req info E :
  let st := site_state site in
  in_verb rq = bs "POST" → route_match (fst <$> routes site) (in_path rq) = Some (n, [p; m]) → routes site !! n = Some (path, EUnary) →
  (∀ l, request_limit site = Some l → 0 ≤ l ≤ usize_max) → over_limit site rq = false →
  accept_request st e m (seen rq random) (in_body rq) ws = (Ok ad, w1) → read_single (ad_body ad) = Ok (Some (b, md)) →
  dispatch (hs_server st) b md = Ok (ServeUnary req info) → protocol req = p → method req = m →
  external_config (hs_server st) = None → over 0 (max_externalized_response_bytes (hs_limits st)) = false → empty_batch (result_schema info) = Ok E →
  let '(o, logs, ref, app) := unary_ran info req (call_context ad (seen rq random) None) (hw_app w1) in
  let its := (unary_items st info req E o logs ref).1 in
  encodes [] (result_schema info) its → readable (result_schema info) its →
  ∃ l, vec_stream [] (result_schema info) its = Ok l ∧ wire_stream (result_schema info) (prod_map id (default ∅) <$> its) l ∧
    (over (zlen l) (ad_limit ad) = false → zlen l ≤ response_buffer_ceiling (hs_limits st) (seen rq random) →
     ∃ h ws', plain_headers h ∧ hw_app ws' = app ∧
       serve_http serve_reflection_logged html bundle docs site e random query rq ws =
         (Ok (finish_response site (in_verb rq) (correlation_id (in_headers rq) random) (hget ACCESS_CONTROL_REQUEST_HEADERS (in_headers rq))
                (pick_response_encoding (seen rq random) (hs_level st)) (mkHttpResponse 200 h l)), ws')).
Proof.
  intros st Hverb Hroute Hep Hlim Hover Hacc Hrd Hdis <- <- Hx Hcap HE.
  pose proof (http_unary_served serve_reflection_logged st e (seen rq random) (in_body rq) ws ad w1 b md req info E Hacc Hrd Hdis Hx Hcap HE) as Hs.
  destruct (unary_ran _ _ _ _) as [[[o logs] ref] app]. destruct (unary_items _ _ _ _ _ _ _) as [its err] eqn:Ei. cbn [fst].
  intros Henc Hread. destruct (Hs Henc Hread) as (l & Hv & Hl & Ho). exists l. split; [done|]. split; [done|]. intros Hover' Hceil.
  destruct (Ho Hover') as (h' & w' & Ed & Happ & _ & Hp). exists h', w'. split; [done|]. split; [done|].
  unfold serve_http. set (next := λ h body, _).
  pose proof (middleware_unfold site random rq next ws Hlim) as Hm. cbv zeta in Hm. rewrite Hover in Hm. rewrite Hm. clear Hm.
  assert (next (seen rq random) (in_body rq) ws = (Ok (mkHttpResponse 200 h' l), w')) as ->.
  { unfold next. rewrite Hroute, Hep. rewrite <- Ed. unfold handle. rewrite Hverb. done. }
  cbn [fst snd answered]. rewrite (proj2 (Z.leb_le _ _)) by exact Hceil. done.
Qed.

(** The metadata that the client's next call carries. *)
Definition next_metadata c (w : CW) (method : list byte) (extra : option Metadata) : Metadata :=
  build_request_metadata method (generate_request_id (clock (hw_drawn w)) (hw_drawn w)) (hc_protocol c) (hc_protocol_version c) extra.

(** The client's side of a call: what it makes of the answer that the executor brings. *)
Lemma call_answered depth c (w : CW) caps method params metadata body payload coding r x a l stated sid rid tb E s logs o :
  discovered c w caps → hc_relax_nullability c = false → to_bytes_one params (next_metadata c w method metadata) = Ok body →
  stays_inline caps body → encode_request c w body = Ok (payload, coding) →
  execute (mkHttpRequest (bs "POST") (hc_target c (hc_route c method)) (header_pairs (build_headers c None coding)) payload
             (default 0 (hc_timeout c)) true) (hw_exec w) = (inl r, x) →
  delivered r a → rstatus a = 200 → acceptable c (Some caps) a l stated →
  num_rows E = 0 → Forall client_log_ok logs → o ≠ Panic → (∀ er, o = Err er → error_text tb er = true) →
  wire_stream s (log_items sid rid E logs ++
    [match o with Err er => (E, build_error_metadata er sid rid tb) | Ok ob => (default E ob, ∅) | Panic => (E, ∅) end]) l →
  schema_readable s → zlen l ≤ u32_max →
  ∃ w', http_call_unary relax_schema_nullability clock (S depth) c method params metadata w = (call_result E tb rid o, w') ∧
    hw_exec w' = x ∧ hw_logs w' = hw_logs w ++ http_told c logs ∧ hw_session w' = None ∧ hw_drawn w' = hw_drawn w + 1.
Proof.
  intros (Hcaps & Hfirst & Hses & Ht) Hrel Hbody Hin Henc Ex Hd H200 Hok HE Hlogs Hnp Herr Hl Hs Hz.
  set (w1 := mkHW (hw_caps w) (send_compressed w) (hw_session w) (session_stack w) (hw_exec w) (hw_store w) (hw_fetch_ms w) (hw_logs w) (hw_drawn w + 1)).
  destruct (post_delivered clock depth c caps (hc_route c method) body true w1 payload coding r x a l stated) as (w2 & Epost & Hafter);
    [by split_and!|done|exact Henc|exact Ex|done..|].
  destruct Hafter as (Hx2 & Hl2 & Hs2 & _ & _ & Hd2 & _).
  exists (add_http_logs (http_told c logs) w2). split_and!; [|done|by cbn; rewrite Hl2|by cbn; rewrite Hs2|by cbn; rewrite Hd2].
  unfold http_call_unary, request_metadata, request_metadata_on, draw_id, mbind, ST_bind. cbn [mret ST_ret].
  change (build_request_metadata _ _ _ _ _) with (next_metadata c w method metadata). change (mkHW _ _ _ _ _ _ _ _ _) with w1.
  unfold lift. rewrite Hbody, Epost. by eapply read_unary_outcome.
Qed.

(** C4. A unary call over HTTP, through the whole of both sides: the client sends its
    batch once, under the request id it drew and with the coding it chose; the site routes
    the request, decodes and accepts it and runs the handler registered under the method
    once, on that batch; and what the call returns is the handler's batch (an empty one
    for none), or its error with type, message, code, kind and details, after the log
    callback was told the handler's logs in order, whatever coding the site picked for its
    answer and whatever size limits the two sides state, as long as the answer is within
    them. *)
Theorem http_call_end_to_end depth c (w : CW) caps protocol method metadata params body payload coding
    (site : Site) stated e random query rq (ws w1 : World) n path ad req info E q r x a ws' :
  let st := site_state site in
  let md := next_metadata c w method metadata in
  let headers := build_headers c None coding in
  (* the client sends the request *)
  discovered c w caps → hc_protocol c = Some protocol → protocol ≠ [] → hc_relax_nullability c = false →
  to_bytes_one params md = Ok body → metadata_utf8 md → schema_readable (batch_schema params) → zlen body ≤ 2 ^ 31 →
  stays_inline caps body → encode_request c w body = Ok (payload, coding) →
  q = mkHttpRequest (bs "POST") (hc_target c (hc_route c method)) (header_pairs headers) payload (default 0 (hc_timeout c)) true →
  hget CONTENT_ENCODING (hc_headers c) = None → hget VGI_ACCEPT_ENCODING_HEADER (hc_headers c) = None →
  (* the site gets it *)
  carried q headers rq → route_match (fst <$> routes site) (in_path rq) = Some (n, [protocol; method]) → routes site !! n = Some (path, EUnary) →
  site_ok site → states_budget site stated → (∀ l, request_limit site = Some l → 0 ≤ l ≤ usize_max) → over_limit site rq = false →
  zlen payload ≤ request_decode_limit (hs_limits st) → zlen body ≤ request_decode_limit (hs_limits st) ≤ u64_max →
  accept_request st e method (seen rq random) payload ws = (Ok ad, w1) →
  dispatch (hs_server st) params md = Ok (ServeUnary req info) → external_config (hs_server st) = None →
  over 0 (max_externalized_response_bytes (hs_limits st)) = false → empty_batch (result_schema info) = Ok E →
  schema_readable (result_schema info) →
  (* what the handler did, and its answer *)
  let '(o, logs, ref, app) := unary_ran info req (call_context ad (seen rq random) None) (hw_app w1) in
  let its := (unary_items st info req E o logs ref).1 in
  let tb := traceback_origin (hs_server st) protocol method in
  ref = None → Forall client_log_ok logs → (∀ er, o = Err er → error_text tb er = true) →
  encodes [] (result_schema info) its → readable (result_schema info) its →
  (∀ l, vec_stream [] (result_schema info) its = Ok l →
     over (zlen l) (ad_limit ad) = false ∧ zlen l ≤ response_buffer_ceiling (hs_limits st) (seen rq random) ∧ zlen l ≤ u32_max ∧
     zlen l ≤ decoded_limit c (Some caps) stated ≤ u64_max ∧ zlen l ≤ hc_max_encoded c) →
  (∀ l e, hs_level st = Some l → window_fits e l (decoded_limit c (Some caps) stated)) →
  (* the network carries the answer back *)
  serve_http serve_reflection_logged html bundle docs site e random query rq ws = (Ok a, ws') →
  execute q (hw_exec w) = (inl r, x) → delivered r a →
  batch req = params ∧ request_id req = generate_request_id (clock (hw_drawn w)) (hw_drawn w) ∧ hw_app ws' = app ∧
  ∃ w', http_call_unary relax_schema_nullability clock (S depth) c method params metadata w = (call_result E tb (request_id req) o, w') ∧
    hw_exec w' = x ∧ hw_logs w' = hw_logs w ++ http_told c logs ∧ hw_session w' = None ∧ hw_drawn w' = hw_drawn w + 1.
Proof.
  intros st md headers Hdisc Hproto Hpne Hrel Hbody Hu Hsp Hz Hin Henc -> Hc0 Hv0 (Hverb & Hrb & Hkeep) Hroute Hep Hsite Hstates Hlim Hover
    Hpay Hdec Hacc Hdis Hx Hcap HE Hsr.
  destruct (served_by_dispatch _ _ _ _ _ true Hdis) as [(Hfr & _) _]. apply from_read_batch_ok in Hfr as (Hrid & Hp & Hm & _ & Hb).
  destruct (request_metadata_fields method (generate_request_id (clock (hw_drawn w)) (hw_drawn w)) (hc_protocol c) (hc_protocol_version c) metadata)
    as (F1 & _ & F3 & F4 & _). change (build_request_metadata _ _ _ _ _) with md in F1, F3, F4.
  rewrite Hproto in F4. rewrite (F4 Hpne) in Hp. rewrite F1 in Hm. rewrite F3 in Hrid. cbn [default id] in Hp, Hm, Hrid.
  destruct Hdisc as (Hcaps & Hfirst & Hses & Ht).
  destruct (sent_codings c coding Hc0 Hv0 Ht (encode_request_coding _ _ _ _ _ Henc)) as [Hsc Hsv]. fold headers in Hsc, Hsv. cbn [hq_method hq_body] in *.
  assert (hget CONTENT_ENCODING (seen rq random) = coding ∧ hget VGI_ACCEPT_ENCODING_HEADER (seen rq random) = None) as [Hseen Hseenv].
  { unfold seen. rewrite !hget_hinsert_ne by done. by rewrite !Hkeep, Hsc by (rewrite !elem_of_cons; auto). }
  assert (read_single (ad_body ad) = Ok (Some (params, md))) as Hrd.
  { apply accept_body in Hacc as Had. erewrite request_decodes in Had; [|exact Henc|exact Hseen|done|lia|done|lia]. injection Had as <-.
    apply request_read; [done..|]. ints. lia. }
  rewrite <- Hrb in Hacc.
  pose proof (site_serves site e random query rq ws w1 n path protocol method ad params md req info E Hverb Hroute Hep Hlim Hover Hacc Hrd Hdis Hp Hm Hx Hcap HE) as Hs.
  fold st in Hs. destruct (unary_ran _ _ _ _) as [[[o logs] ref] app] eqn:Eran. unfold unary_items in *. rewrite Hp, Hm in *. set (tb := traceback_origin _ _ _) in *.
  destruct (unary_last _ _ _ _ _ _ _) as [last err] eqn:Elast. cbn [fst] in *.
  intros -> Hlogs Herr Hencs Hread Hfit Hwin Es Ex Hd.
  destruct (Hs Hencs Hread) as (l & Hv & Hl & Ho). destruct (Hfit l Hv) as (Ho1 & Ho2 & Ho3 & Ho4 & Ho5).
  destruct (Ho Ho1 Ho2) as (ha & ws'' & Hplain & Happ & Es'). rewrite Es in Es'. injection Es' as -> ->.
  set (a := finish_response _ _ _ _ _ _) in *. split_and!; [done..|].
  destruct (run_unary_exact _ _ _ _ _ _ _ _ Eran) as (_ & _ & _ & _ & Hnp).
  apply (call_answered depth c w caps method params metadata body payload coding r x a l stated (server_id (hs_server st)) (request_id req) tb E
    (result_schema info)); try done.
  - unfold a, finish_response. cbv zeta. by destruct (compress_body _ _ _ _ _).
  - apply (site_answer_acceptable c (Some caps) site stated (in_verb rq) _ _ (seen rq random) (mkHttpResponse 200 ha l)); try done; simpl; lia.
  - by apply empty_batch_spec in HE as [_ ?].
  - assert (prod_map id (default ∅) last = match o with Err er => (E, build_error_metadata er (server_id (hs_server st)) (request_id req) tb)
                                       | Ok ob => (default E ob, ∅) | Panic => (E, ∅) end) as <-.
    { unfold unary_last in Elast. by destruct o as [ob|er|]; injection Elast as <- <-. }
    rewrite fmap_app in Hl. cbn [fmap list_fmap] in Hl. unfold log_items. rewrite <- list_fmap_compose in Hl. exact Hl.
Qed.
End EndToEnd.
