(* ===== verification/HttpCallExample.v ===== *)
(** * A client and a site, talking

    An executor that is the site, and the theorems about the HTTP client applied to calls
    through it. *)

From S2P Require Import ServeExample.
From S2P Require Import Prelude Bytes Metadata F64 Json DataExample ErrorModel Errors Crypto Base64 Auth Sticky StreamTokens StreamTokensProps TokensExample PeerIdentity IdentityExample.
From S2P Require Import ShmAllocator Ipc IpcProps IpcWriter IpcWriterProps IpcStream WireExample Arrow ArrowType External ExternalProps ShmBatch ShmBatchProps ExternalExample Dispatch DispatchProps Envelope EnvelopeProps Stream Serve ServeProps TokenIdentity.
From S2P Require Import Client ClientProps HttpBase HttpBaseProps HttpAuth Http HttpProps HttpTurns HttpSite HttpSiteProps HttpRoutes HttpContracts HttpExample ClientHttp ClientHttpProps HttpCall.

#[local] Open Scope Z_scope.
#[local] Existing Instances toy_ipc toy_writer toy_writer_laws toy_laws toy_shm toy_shm_laws toy_aead toy_aead_laws demo_base64 demo_base64_laws toy_zstd toy_zstd_laws.

(** ** Libraries *)
#[global] Instance toy_values : ArrowValues (option (list byte)) := {|
  values_of _ _ := None; dictionary_of _ _ := None; lists_of _ := None; maps_of _ := None; array_len _ := 1; type_name _ := None;
  is_null _ _ := Some false; array_from _ _ _ := Some (bs "1"); fixed_size_from _ := Ok None; dictionary_from _ := None; list_new _ _ _ := None;
  map_new _ _ _ _ := None; new_null_array _ _ := None; new_empty_array _ := None; concat_arrays _ := Ok None |}.
#[global] Instance toy_schemas : ArrowSchemas := {|
  schema_new fs := bool_decide (0 < zlen fs); field_new _ _ _ := tt; type_of _ := tt; arrow_ipc_stream _ := Ok [] |}.

(** Patterns are tried in order, a segment in braces takes any text. *)
Fixpoint match_segments (pattern path : list (list byte)) : option (list (list byte)) :=
  match pattern, path with
  | [], [] => Some []
  | p :: pattern, s :: path =>
    rest ← match_segments pattern path;
    if starts_with (bs "{") p then Some (s :: rest) else if bool_decide (p = s) then Some rest else None
  | _, _ => None
  end.
Fixpoint first_match (n : nat) (patterns : list (list byte)) (path : list byte) : option (nat * list (list byte)) :=
  match patterns with
  | [] => None
  | p :: patterns =>
    match match_segments (split_on x2f p) (split_on x2f path) with
    | Some captured => Some (n, captured)
    | None => first_match (S n) patterns path
    end
  end.
#[global] Instance segments_router : AxumRouter := {|
  route_match := first_match 0; not_found := plain_error 404 []; method_not_allowed := plain_error 405 [] |}.

(** ** The executor that is a site *)
Definition roomy_builder : Builder :=
  mkHttpStateBuilder (Some web_server) None None None None None None None [] None None None None None None None
    None None None None (Some 1048576) None None (Some 1048576) None None None None (Some true) None [] None None None [].
Definition roomy_site : Site := match http_build roomy_builder no_clock demo_site_key with Ok s => s | _ =>
  mkHttpSite web None 0 None [] [] false false false None None [] false 0 0 end.

Lemma roomy_site_built : http_build roomy_builder no_clock demo_site_key = Ok roomy_site.
Proof.
  assert (is_ok (http_build roomy_builder no_clock demo_site_key) = true) as Ho by (by vm_compute).
  unfold roomy_site. by destruct (http_build roomy_builder no_clock demo_site_key).
Qed.

Definition base : list byte := bs "http://demo".
Definition incoming (q : HttpRequest) : Incoming := mkIncoming (hq_method q) (zdrop (zlen base) (hq_url q)) (hq_headers q) (hq_body q).
Definition ask (q : HttpRequest) (ws : world) : res HttpResponse HttpResponse * world :=
  serve_http no_reflection [] [] (fun _ => None) roomy_site web_env [] None (incoming q) ws.

#[global] Instance loopback : HttpExecutor world := {|
  execute q ws := let '(r, ws) := ask q ws in
    match r with
    | Ok a | Err a => (inl (mkExecResponse (rstatus a) (rheaders a) (rbody a)), ws)
    | Panic => (inr (mkExecError (bs "closed") false), ws)
    end;
  exec_caps := mkExecutorCaps true false |}.

Lemma ask_executes q ws a ws' :
  ask q ws = (Ok a, ws') → execute q ws = (inl (mkExecResponse (rstatus a) (rheaders a) (rbody a)), ws').
Proof. intros E. unfold execute, loopback. by rewrite E. Qed.

(** ** A client of it *)
Definition demo_caps : HttpServerCapabilities := mkCaps true None [] false (Some 1048576) (Some 1048576) true None false None [bs "zstd"].
Definition client_builder : HttpClientBuilder :=
  mkHttpClientBuilder base [] [] true false (Some (bs "example.Demo.v1")) None (Some 30) retry_default (Some 3) None
    DEFAULT_MAX_ENCODED_RESPONSE_BYTES false DEFAULT_MAX_DECODED_RESPONSE_BYTES false DEFAULT_ACCEPTED_MAX_RESPONSE_BYTES None (Some demo_caps).
Abbreviation CW := (HttpClientWorld world InMemoryStorage).
Definition demo_client : HttpClient :=
  match client_build (X:=world) client_builder web_world in_memory_new with Ok (c, _) => c
  | _ => mkHttpClient [] [] [] None false false None None retry_default None 0 0 0 None None end.
Definition client_world : CW :=
  match client_build client_builder web_world in_memory_new with Ok (_, w) => w
  | _ => mkHW None false None [] web_world in_memory_new (f64_of_i64 0) [] 0 end.

Definition no_relax (s : bool) : bool := s.
Definition stopped (_ : Z) : Z := 0.
Example echo_called :
  match http_call_unary no_relax stopped 2 demo_client (bs "echo") ping None client_world with
  | (Ok (b, md), w) => bool_decide ((b : toy_batch) = Large (bs "pong")) && (ha_app (hw_app (hw_exec w)) =? 1)
  | _ => false
  end = true.
Proof. by vm_compute. Qed.

Definition echo_md : Metadata := next_metadata stopped demo_client client_world (bs "echo") None.
Definition echo_body : list byte := match to_bytes_one ping echo_md with Ok b => b | _ => [] end.
Definition echo_request : HttpRequest :=
  mkHttpRequest (bs "POST") (hc_target demo_client (hc_route demo_client (bs "echo")))
    (header_pairs (build_headers demo_client None (Some (bs "zstd")))) echo_body (default 0 (hc_timeout demo_client)) true.
Definition echo_incoming : Incoming := incoming echo_request.
Definition site_accepts : res HttpResponse Accepted * world :=
  accept_request (site_state roomy_site) web_env (bs "echo") (seen echo_incoming []) echo_body web_world.
Definition site_ad : Accepted := match site_accepts.1 with Ok ad => ad | _ => mkAccepted anonymous (mkEvidence [] ∅) None None [] end.
Definition site_answer : HttpResponse := match (ask echo_request web_world).1 with Ok a => a | _ => plain_error 500 [] end.
Definition site_response : ExecResponse := mkExecResponse (rstatus site_answer) (rheaders site_answer) (rbody site_answer).
Definition echo_req : Request := mkRequest (bs "echo") (bs "example.Demo.v1") (generate_request_id 0 0) ping echo_md.
Definition site_items : list (RecordBatch * option Metadata) :=
  let '(r, logs, ref, _) := unary_ran echo echo_req (call_context site_ad (seen echo_incoming []) None) (hw_app site_accepts.2) in
  (unary_items (site_state roomy_site) echo echo_req blank r logs ref).1.

Lemma roomy_server : hs_server (site_state roomy_site) = web_server.
Proof. reflexivity. Qed.

Lemma roomy_limits : request_limit roomy_site = Some 1048576 ∧ hs_level (site_state roomy_site) = Some 1.
Proof.
  destruct (build_ok _ _ _ _ roomy_site_built) as (server & auth & _ & _ & _ & _ & _ & _ & _ & Hl & Hr & _). by rewrite Hl, Hr.
Qed.

Lemma site_answers : ask echo_request web_world = (Ok site_answer, (ask echo_request web_world).2).
Proof.
  assert (is_ok (ask echo_request web_world).1 = true) as E by (by vm_compute). unfold site_answer. by destruct (ask echo_request web_world) as [[]].
Qed.

Lemma site_accepted : site_accepts = (Ok site_ad, site_accepts.2).
Proof.
  assert (is_ok site_accepts.1 = true) as E by (by vm_compute). unfold site_ad. by destruct site_accepts as [[]].
Qed.

Lemma ok_by_test {E A} (r : res E A) (d : A) : is_ok r = true → r = Ok (match r with Ok a => a | _ => d end).
Proof. by destruct r. Qed.

Lemma site_delivers : delivered site_response site_answer.
Proof.
  split; [done|]. exists (rheaders site_answer). split_and!; [|done|].
  - assert (match convert_executor_response (ex_status site_response) (ex_headers site_response) with
            | Ok (s, h) => bool_decide (s = rstatus site_answer) && bool_decide (h = rheaders site_answer) | _ => false end = true) as E by (by vm_compute).
    destruct (convert_executor_response _ _) as [[s h]|?|]; [|done..]. apply andb_true_iff in E as [->%bool_decide_eq_true ->%bool_decide_eq_true]. done.
  - left. assert (match parse_content_length (rheaders site_answer) with Ok None => true | _ => false end = true) as E by (by vm_compute).
    by destruct (parse_content_length _) as [[]|?|].
Qed.

Lemma roomy_budget : states_budget roomy_site (Some 1048576).
Proof.
  apply (built_states_budget roomy_builder no_clock demo_site_key roomy_site web_server roomy_site_built eq_refl).
  - intros n. cbn. rewrite !elem_of_cons, elem_of_nil. intros Hn. destruct_or! Hn; subst; done.
  - intros n [= <-]. split; by vm_compute.
Qed.

Lemma echo_body_written : to_bytes_one ping echo_md = Ok echo_body.
Proof. unfold echo_body. apply ok_by_test. by vm_compute. Qed.

Lemma echo_readable : schema_readable true.
Proof. apply demo_readable. Qed.

Lemma http_call_end_to_end_witness :
  ∃ w', http_call_unary no_relax stopped 2 demo_client (bs "echo") ping None client_world = (Ok (Large (bs "pong"), ∅), w') ∧
    hw_logs w' = http_told demo_client [log_new Warn (bs "working")] ∧ ha_app (hw_app (hw_exec w')) = 1.
Proof.
  destruct (http_call_end_to_end no_reflection [] [] (fun _ => None) no_relax stopped 1 demo_client client_world demo_caps (bs "example.Demo.v1")
    (bs "echo") None ping echo_body echo_body (Some (bs "zstd")) roomy_site (Some 1048576) web_env [] None echo_incoming web_world site_accepts.2
    1%nat (bs "/{protocol}/{method}") site_ad echo_req echo blank echo_request site_response (ask echo_request web_world).2 site_answer
    (ask echo_request web_world).2) as (_ & _ & Ha & w' & Ew & Hx & Hl & _ & _).
  - by split_and!.
  - done.
  - done.
  - done.
  - exact echo_body_written.
  - apply (bool_decide_unpack _). by vm_compute.
  - apply demo_readable.
  - by vm_compute.
  - intros max Hu. discriminate Hu.
  - by vm_compute.
  - done.
  - done.
  - done.
  - split_and!; [done..|]. done.
  - by vm_compute.
  - by vm_compute.
  - exact (built_site_ok _ _ _ _ roomy_site_built).
  - exact roomy_budget.
  - destruct roomy_limits as [-> _]. intros l [= <-]. ints; lia.
  - unfold over_limit. destruct roomy_limits as [-> _]. by vm_compute.
  - by vm_compute.
  - split; by vm_compute.
  - exact site_accepted.
  - rewrite roomy_server. reflexivity.
  - by rewrite roomy_server.
  - by vm_compute.
  - reflexivity.
  - apply demo_readable.
  - done.
  - constructor; [|constructor]. split; [|done]. split; by vm_compute.
  - intros er [=].
  - apply encodes_by_computation. change (encodes_all true site_items = true). by vm_compute.
  - apply readable_by_computation. change (readable_all true site_items = true). by vm_compute.
  - intros l El. change (vec_stream [] true site_items = Ok l) in El.
    assert (match vec_stream [] true site_items with Ok l => zlen l <=? 65536 | _ => true end = true) as Hz by (by vm_compute).
    rewrite El in Hz. apply Z.leb_le in Hz. split_and!.
    + assert (match ad_limit site_ad with Some n => 65536 <=? n | None => true end = true) as Hn by (by vm_compute).
      unfold over. destruct (ad_limit site_ad) as [n|]; [|done]. apply Z.leb_le in Hn. apply Z.ltb_ge. lia.
    + pose proof (ceiling_floor (hs_limits (site_state roomy_site)) (seen echo_incoming [])) as Hf. unfold MIN_RESPONSE_BYTES in Hf. lia.
    + ints. lia.
    + transitivity 65536; [done|by vm_compute].
    + by vm_compute.
    + transitivity 65536; [done|by vm_compute].
  - intros l e. destruct roomy_limits as [_ ->]. intros [= <-]. destruct e; by vm_compute.
  - exact site_answers.
  - exact (ask_executes _ _ _ _ site_answers).
  - exact site_delivers.
  - exists w'. split; [exact Ew|]. split; [exact Hl|]. rewrite Hx, Ha. by vm_compute.
Defined.

(** ** Limits *)
Lemma demo_client_wf : client_wf demo_client.
Proof. split_and!; by vm_compute. Qed.

Lemma response_bounded_witness :
  ∃ l w' rq ws resp h status,
    post stopped 2 demo_client (bs "example.Demo.v1/echo") echo_body true client_world = (Ok l, w') ∧
    execute rq ws = (inl resp, hw_exec w') ∧ convert_executor_response (ex_status resp) (ex_headers resp) = Ok (status, h) ∧
    zlen l ≤ 268435456 ∧ (∀ n, parse_max_response_bytes h = Ok (Some n) → zlen l ≤ n).
Proof.
  set (m := post stopped 2 demo_client (bs "example.Demo.v1/echo") echo_body true client_world).
  assert (is_ok m.1 = true) as E by (by vm_compute).
  destruct m as [[l|?|] w'] eqn:Em; [|done..]. exists l, w'.
  destruct (response_bounded stopped 2 demo_client (bs "example.Demo.v1/echo") echo_body true client_world l w' demo_client_wf Em) as (rq & x & resp & h & status & ? & ? & Hx & _ & Hh & _ & Hd & _ & Hn).
  exists rq, x, resp, h, status. split_and!; [done|exact Hx|exact Hh|exact Hd|exact Hn].
Defined.

(** ** A stream resumed by another client *)
Definition other_client : HttpClient :=
  mkHttpClient (bs "http://elsewhere") [] [] None false false (Some (bs "example.Demo.v1")) None retry_default None 0 0 0 None None.
Definition opened : HttpStreamSession :=
  mkHttpSession (bs "example.Demo.v1/talk") (Some (ping, ∅)) [(ping, ∅)] (Some (bs "cursor")) (Some (bs "call")) false false.

Lemma resume_anywhere_witness :
  ∃ blob s1, next_with_token no_relax stopped 1 demo_client opened client_world = (Ok (Some ((ping, ∅), Some blob)), s1, client_world) ∧
    resume_stream other_client (bs "talk") blob = without_header s1 ∧ hs_token s1 = Some (bs "cursor") ∧ hs_call_token s1 = Some (bs "call").
Proof.
  eexists _, _. split; [reflexivity|].
  refine (conj (proj1 (resume_anywhere no_relax stopped 1 demo_client other_client (bs "talk") opened client_world (ping, ∅) _ _ client_world _ eq_refl _ _)) _).
  - by intros [=].
  - intros cursor [= <-]. split; [by vm_compute|]. by exists x63, (bs "all").
  - reflexivity.
  - done.
Defined.

(** ** A server that takes nothing *)
#[local] Instance refusing : HttpExecutor unit := {|
  execute _ x := (inl (mkExecResponse 413 (rheaders refusal) []), x); exec_caps := mkExecutorCaps true false |}.
Definition plain_caps : HttpServerCapabilities := mkCaps false None [] false None None true None false None [].
Definition refused_world : HttpClientWorld unit InMemoryStorage := mkHW (Some plain_caps) false None [] tt in_memory_new (f64_of_i64 0) [] 0.

Lemma read_frame_of b md body :
  to_bytes_one b md = Ok body → metadata_utf8 md → zlen body ≤ u32_max → frame_of body.
Proof.
  intros E Hu Hl. apply write_one_wire in E as Hw; [|apply fits_own|done].
  destruct (wire_stream_open _ _ _ [Data body] [] Hw (demo_readable _) Hl) as (sr & En & _ & Ha).
  { constructor; [|constructor]. by destruct Hw as (? & ? & (mb & ? & _ & _ & ->) & ->). }
  { simpl. by rewrite app_nil_r. }
  destruct (at_items_next _ _ _ _ _ Ha) as (r' & En' & _). by exists sr, b, (default ∅ (Some md)), r'.
Qed.

Definition upload_batch : RecordBatch := Large (bs "1").
Definition written (b : RecordBatch) (md : Metadata) : bool :=
  match to_bytes_one b md with Ok l => zlen l <=? u32_max | _ => false end.

Lemma written_frame b md : written b md = true → metadata_utf8 md → ∃ body, to_bytes_one b md = Ok body ∧ frame_of body.
Proof.
  unfold written. intros E Hu. destruct (to_bytes_one b md) as [body|?|] eqn:Eb; [|done..]. exists body. split; [done|].
  apply (read_frame_of b md body Eb Hu). apply Z.leb_le. exact E.
Qed.

Lemma refused_without_end_witness :
  (post stopped 3 other_client (bs "example.Demo.v1/echo") echo_body true refused_world).1 = Panic.
Proof.
  apply (refused_without_end stopped other_client plain_caps).
  - intros q x. eexists. split; [reflexivity|]. split; [done|]. exists (rheaders refusal). split_and!; [by vm_compute|done|by left].
  - by split_and!.
  - done.
  - done.
  - by vm_compute.
  - by vm_compute.
  - apply (read_frame_of ping echo_md echo_body echo_body_written); [apply (bool_decide_unpack _); by vm_compute|by vm_compute].
  - exists upload_batch. split; [reflexivity|]. intros n Hn.
    assert (n = 0 ∨ n = 1 ∨ n = 2) as Hc by (change (hw_drawn refused_world) with 0 in Hn; lia).
    destruct_or! Hc; subst n; (apply written_frame; [by vm_compute|apply (bool_decide_unpack _); by vm_compute]).
Defined.
